(* ===== verification/_CoqProject ===== *)
-Q . S2P
Prelude.v
Codec.v
Crypto.v
Identity.v
Kel.v
KelFacts.v
KelTheorems.v
Witness.v
WitnessJournal.v
WitnessWire.v
WitnessRuns.v
WitnessTheorems.v
WitnessExchange.v
Chain.v
ChainTheorems.v
ChainWitnesses.v
Round.v
VotingSpec.v
RoundRefines.v
RoundFacts.v
Agreement.v
Certificates.v
RoundMeasure.v
AgreementWitnesses.v
GF256.v
Matrix.v
Gauss.v
Erasure.v
ErasureTheorems.v
Economy.v
EconomyTheorems.v
EconomyWire.v
Settlement.v
SettlementTheorems.v
Shielded.v
Execution.v
StatePins.v
ExecutionFacts.v
BlockFacts.v
ExecutionTheorems.v
ExecutionWitnesses.v
Wire.v
WireTheorems.v
Admission.v
AdmissionTheorems.v
LedgerSnapshot.v
SnapshotTheorems.v
SnapshotReach.v
LedgerWitnesses.v
StateSync.v
Node.v
Archive.v
ArchiveFacts.v
ArchivePlans.v
ArchiveCrash.v
ArchiveTheorems.v
ArchiveWitnesses.v
NodeFacts.v
NodeTheorems.v
NodeRuns.v
NodeWitnesses.v
Genesis.v
CreditPermit.v
CreditJournal.v
WitnessService.v
WitnessSurvives.v
WitnessWitnesses.v
Custody.v
CustodyRoster.v
CustodyTheorems.v
CustodySigner.v
CustodyNonces.v
CustodyWitnesses.v
Credit.v
CreditTheorems.v
OutboxTheorems.v
CreditFlow.v
CreditWitnesses.v
Bearer.v
BearerTheorems.v
