(* ===== verification/Prelude.v ===== *)
(** * A verification library for the Mininet core

    Mininet is a Rust workspace ([crates/]).  This library models the part of
    it that decides who may act, what block is final, what a block does to
    money, and how data and promises survive loss: the identity log, the
    cryptographic envelopes, the chain's certificates, the consensus round,
    the ledger state machine with its pool and snapshots, the issuance and
    credit rules, and the erasure code.  The definitions are translated from
    the source function by function and are executable; the witnesses run
    them on concrete inputs.

    ** How the parts interact

    A [did:mini] identity is the hash of its first key event; its log ([Kel])
    is verified offline and says which keys and which delegated devices speak
    for it, and which witnesses watch it.  A witness ([WitnessJournal]) signs
    a receipt for each head it accepts; enough receipts are a certificate
    ([Witness]) that lets a verifier take a head it cannot compare; the
    witness's service ([WitnessService]) keeps what it signed on disk.
    A validator's vote ([Chain]) is signed by a device and checked against
    the logs an oracle supplies.  The round machine ([Round]) turns
    proposals, votes and timers into votes to sign and, on a quorum of
    precommits, into a certificate that [Chain.verify_finality] accepts.  A
    ledger chain ([Execution], [LedgerChain]) applies a body of payment claims
    ([Settlement]), shielded spends ([Shielded]) and a monetary epoch
    ([Economy]) only behind such a certificate; the pool ([Admission])
    proposes claims the state would accept; [LedgerSnapshot] persists the
    state, and [Settlement] reads back the fate of a claim through the
    interface [LedgerView], which the ledger state implements.  A validator
    node ([Node]) puts these together: messages that crossed the network
    ([Wire]) and timers drive its round machine, it executes a proposal before
    it votes on it, commits what the machine decides, and serves and applies
    pages of blocks and snapshots ([StateSync]) through an archive, the
    class [Node.Archive], which the files of [Archive.FileArchive] implement
    with a journal.  Offline
    credit ([CreditPermit], [CreditJournal], [Credit]) is a wallet that signs
    coupons through a journal and an engine that records and repays them.
    Two devices exchange frames over a [Bearer], behind an anonymous
    encrypted channel.
    [Erasure] keeps data retrievable when shards are lost.  The custody of
    assets on other chains ([Custody]) is a ceremony in which eleven devices
    agree on a manifest and attest the key it produced, and a signer
    ([CustodySigner]) that reserves its nonces in a journal.

    ** Files and sources (under [crates/])

    - [Prelude]: results as a monad, checked and wrapping integers, bytes,
      sorted maps, sums over maps, the shared tactics and hints.
    - [Codec]: [did-mini/src/codec.rs]; parsers, round-trip and canonicity
      combinators, and encodings that can be split again, the engine of
      every "the hash pins the value" proof.
    - [Crypto]: [mini-crypto] suites, hashes, multihash, multibase, keys; the
      class [Primitives] for the third-party algorithms, [Toy] for witnesses.
    - [Identity], [Kel]: [did-mini] [lib.rs], [limits.rs], [error.rs],
      [delegation.rs], [event.rs], [kel.rs], [freshness.rs], [controller.rs];
      [KelFacts] and [KelTheorems] prove and run them.
    - [Witness]: [did-mini] [witness.rs], [assurance.rs], [gossip.rs] and the
      witness policy of [kel.rs]; [WitnessJournal]: [witness_state.rs],
      [witness_protocol.rs], [witness_rotation.rs], [duplicity.rs].
      [WitnessWire] decodes what was encoded, [WitnessRuns] is the invariant
      of a journal over any calls, [WitnessTheorems] what certificates prove
      and how a proof of duplicity is made without the controller,
      [WitnessExchange] that answers arrive.
    - [WitnessService]: [mini-witness-service]; [WitnessSurvives] is the
      content of its directory and its life across failed writes, crashes
      and reopenings, and [WitnessWitnesses] runs all of these.
    - [Custody]: [mini-custody] [wire.rs], [manifest.rs], [domains.rs],
      [rotation.rs], [session.rs], [abort.rs]; [CustodyRoster] is the roster
      and the wire form of a manifest, [CustodyTheorems] the barriers of a
      ceremony and the registry.  [CustodySigner]: [signing.rs];
      [CustodyNonces] is its life, [CustodyWitnesses] runs both.
    - [Chain]: all of [mini-chain]; [ChainTheorems], [ChainWitnesses].
    - [Round]: [mini-consensus/src/round.rs], [evidence.rs].  [VotingSpec] is
      the abstract voting discipline, [RoundRefines] the simulation,
      [RoundFacts] termination, [Agreement] the network of machines with a
      Byzantine adversary, [Certificates] the link to [Chain] and
      what a node relies on, that a machine decides only values it was given
      as valid, [RoundMeasure] how many actions it can still ask for.
    - [Wire]: [mini-consensus] [wire.rs], [catchup.rs], [error.rs];
      [StateSync]: [snapshot.rs], [state_sync.rs]; [Node]: [node.rs],
      [consequence.rs].  [WireTheorems] decodes what was encoded; [NodeFacts]
      is the invariant of a handler and its triples, [NodeTheorems] and
      [NodeRuns] what every run of a node does; [LedgerWitnesses] and
      [NodeWitnesses] run them.
    - [Archive]: [mini-consensus/src/store.rs] over a directory whose every
      step may fail or be the last.  [ArchiveFacts] has the triples of such
      programs and the block files, [ArchivePlans] what a batch adds,
      [ArchiveCrash] the families of disks an interruption can leave,
      [ArchiveTheorems] what an archive promises, [ArchiveWitnesses] runs.
    - [GF256], [Matrix], [Erasure]: all of [mini-erasure]; [Gauss] is its
      linear algebra, [ErasureTheorems] its contract.
    - [Economy], [Genesis], [Credit]: [mini-economy]; [EconomyTheorems],
      [EconomyWire], [CreditTheorems].
    - [Settlement], [CreditPermit], [CreditJournal]: [mini-settlement], with
      [mini-crypto/src/aead.rs] in the last; [SettlementTheorems],
      [OutboxTheorems], [CreditFlow], [CreditWitnesses].
    - [Shielded], [Execution], [Admission], [LedgerSnapshot]:
      [mini-execution]; [StatePins], [ExecutionFacts], [BlockFacts],
      [ExecutionTheorems], [AdmissionTheorems], [SnapshotTheorems],
      [SnapshotReach] and the witness files.
    - [Bearer]: [mini-bearer] [error.rs], [bearer.rs], [tcp.rs], [ble.rs],
      [channel.rs], [encrypted_link.rs], with [mini-crypto] [agreement.rs] and
      [kdf.rs]; [BearerTheorems] is what they deliver, and runs it.

    A struct is a record with the source's fields, an enum an inductive type
    with its constructors, a function a definition of the same name (prefixed
    by its type where two types share it).  [Result] is [result], with the
    error first, and [?] is its bind; [HashMap] and [BTreeMap] are [gmap]s,
    iterated in key order where the source's order is observable; a byte is a
    [Z] and machine integers are [Z] with the source's checked, saturating or
    wrapping operation written out; a Rust [String] is its UTF-8 bytes.  A
    method that mutates returns the new value.

    ** What the theorems show

    - Identity: a controller's log always verifies to its own keys; every
      verified change was authorised by keys committed to in advance; a head
      digest pins the history; revocation is effective; one layout per event.
    - Witnessing: a witness never signs two events at one place, in any
      sequence of calls, nor its service over any crashes and reopenings; a
      reopened service is the one that stopped; two logs that rely on one
      policy's witnesses do not fork while fewer than [2 t - n] of the [n]
      are dishonest at threshold [t]; certificates that conflict convict that
      many; answers decode to the answers given; and anyone can forge a proof
      of a controller's duplicity, since a digest covers repeated signatures.
    - Custody: what a manifest's bytes decode to is that manifest, and its
      session id names it; every barrier of a ceremony is the endorsement of
      all its members and no message can be read as another; a domain's
      registry is the chain of its ceremonies; no nonces sign twice in any
      life of a signer, and its journal reopens unless the first opening was
      torn.
    - Consensus: agreement of honest machines under any schedule and any
      Byzantine third, given the bound on [valid_round] without which it
      fails (shown on a schedule); no honest equivocation, with or without
      the bound; the evaluation loop ends; what a machine decides verifies;
      two conflicting certificates convict more than a third.
    - The node: it commits exactly certified blocks and reports them, votes
      only for blocks it executed, holds a tip its validators certified
      however it got there, never refuses a block it decided, cannot be
      stopped by its peers, and returns from every call; catching up is
      executing.  Messages survive the network but for shielded spends, which
      are not written.
    - The archive: an installation interrupted at any step, and its recovery
      interrupted again, leave the old content or the new, as long as the
      directory has room and pages end above the snapshot; an interrupted
      recording keeps the first part of its batch; every later read answers
      from that one content.
    - Money: supply is conserved by every epoch and every block, nothing is
      spent twice, a slot has one winner, an epoch issues at most the policy's
      share, a chain advances exactly when certified, a tip pins the state,
      a pool's books balance and its candidates execute, every reachable state
      whose total supply fits 128 bits survives a snapshot, and a node that
      joins from one follows the chain.
    - Credit: a human's debt and live allowances never exceed their cap; a
      share release settles to the unit, oldest promise first; a coupon handed
      out is never lost from the wallet's outbox, whatever fails; every coupon
      of an honest wallet is accepted by the engine.
    - Transport: two ends of a handshake come to crossed keys and one
      binding, and each then receives what the other sent, whole and in
      order, however the streams are cut, up to 16 KiB short of the largest
      frame; a nonce is never used twice; a
      frame cut into radio chunks reassembles.
    - Data: any [data_shards] shards reconstruct, every other input gives the
      documented error.

    Collision resistance is not assumed: a theorem that needs it concludes
    with the collision.  Unforgeability is assumed nowhere but in the network
    model of [Agreement], as a guard of delivery, in [WitnessTheorems], as
    what it is for a witness to be honest, and in [CreditFlow], as the
    hypothesis that only the wallet's coupons were recorded.

    ** Bounds and fuel

    [write_uvarint] runs ten rounds, enough for 64 bits.  [evaluate] runs on
    [eval_fuel], more than the measure every pass decreases
    ([RoundFacts.evaluate_terminates]).  [gcd] runs 257 rounds, more than
    Euclid needs for two 128-bit numbers.  [read_coupons] has one round more
    than there are bytes, and every round consumes at least four;
    [seal_chunks] as many as there are seals, in chunks of at least one.  The
    node's [drive] and [commit] call each other, with one unit of fuel per
    iteration: [NodeRuns.handlers_return] shows that with two validators or
    more every call has enough fuel from some point on, and with one validator
    the code does not return ([NodeWitnesses]).  The other loops are
    structural.  The archive's directory is bounded by the code's own limits
    ([ArchiveCrash.room] is what a batch needs of them); the order in which
    the file system lists it is an argument, and files the archive did not
    write, links and the lock file are left out.

    ** Not modelled

    Sockets, threads, files, locks, clocks and randomness, of which only the
    outcomes the core reacts to appear; third-party cryptography (the classes
    [Primitives], [ChaCha], [X25519], [Hkdf], [FrostDkg] and [FrostSigning],
    with their documented behaviour); zero knowledge verifiers (the argument
    [ClaimVerifier]); user interfaces and command lines.  Of the core's
    neighbours, the networking of [mini-consensus] is threads and sockets
    around the modelled node; of [mini-bearer], the in-process queue, the
    Android adapter, discovery and local routes are left out.
    Crates with authority over money or standing
    that are left for a later development: [mini-treasury] (threshold
    signing, superseded by [mini-custody]), [mini-private-payment],
    [mini-value] and [mini-shielded-verify] (arithmetic over curves that are
    third-party code), [mini-uniqueness] and the governance of [mini-forge].
    The storage and routing crates ([mini-store], [mini-crdt], [mini-dtn],
    [mini-spacetime], [mini-relay]) and the applications above them hold
    data others signed.  Of [mini-custody], the transport binding and the
    share store wrap a channel and a cipher.  In the witness layer and in
    the signer's journal, the operating system's lock and the order of a
    directory's listing are arguments; a file that is there can be read. *)

From Stdlib Require Import ZArith Lia.
From stdpp Require Import base list gmap sets strings sorting.

Declare Scope mini_scope.
Delimit Scope mini_scope with mini.
Open Scope Z_scope.

(** ** Results

    Rust's [Result<A, E>]: the error type comes first so that [result E] is
    a monad and stdpp's [x <- e; k] notation is the code's [?] operator. *)
Inductive result (E A : Type) : Type :=
| Ok (a : A)
| Err (e : E).
Arguments Ok {E A} a.
Arguments Err {E A} e.

#[global] Instance result_ret E : MRet (result E) := fun A a => Ok a.
#[global] Instance result_bind E : MBind (result E) := fun A B f m =>
  match m with Ok a => f a | Err e => Err e end.
#[global] Instance result_fmap E : FMap (result E) := fun A B f m =>
  match m with Ok a => Ok (f a) | Err e => Err e end.
#[global] Instance result_eq_dec E A `{EqDecision E, EqDecision A} :
  EqDecision (result E A).
Proof. solve_decision. Defined.

Definition is_ok {E A} (r : result E A) : bool :=
  match r with Ok _ => true | Err _ => false end.
(** [Option::ok_or]. *)
Definition ok_or {E A} (o : option A) (e : E) : result E A :=
  match o with Some a => Ok a | None => Err e end.
(** [Result::map_err]. *)
Definition map_err {E F A} (f : E -> F) (r : result E A) : result F A :=
  match r with Ok a => Ok a | Err e => Err (f e) end.
(** A guard that returns early with an error: [if c { return Err(e) }]. *)
Definition fail_if {E} (c : bool) (e : E) : result E unit :=
  if c then Err e else Ok tt.

Lemma bind_ok {E A B} (f : A -> result E B) (m : result E A) (b : B) :
  (x ← m; f x) = Ok b <-> exists a, m = Ok a /\ f a = Ok b.
Proof.
  destruct m as [a|e]; simpl; split.
  - intros H. exists a. by split.
  - intros (a' & [= <-] & H). done.
  - done.
  - by intros (a' & ? & _).
Qed.

Lemma fail_if_ok {E} (c : bool) (e : E) u : fail_if c e = Ok u <-> c = false.
Proof. destruct c, u; simpl; naive_solver. Qed.

Lemma ok_or_ok {E A} (o : option A) (e : E) a : ok_or o e = Ok a <-> o = Some a.
Proof. destruct o; simpl; naive_solver. Qed.

Lemma map_err_ok {E F A} (f : E -> F) (r : result E A) a :
  map_err f r = Ok a <-> r = Ok a.
Proof. destruct r; simpl; naive_solver. Qed.

Lemma is_ok_true {E A} (r : result E A) : is_ok r = true <-> exists a, r = Ok a.
Proof. destruct r; simpl; naive_solver. Qed.
Lemma is_ok_unit {E} (r : result E unit) : is_ok r = true <-> r = Ok tt.
Proof. by destruct r as [[]|]. Qed.

(** Inversion of a successful monadic computation: every [?] and every guard
    that was passed becomes an equation. *)
Ltac ok_inv_step :=
  match goal with
  | H : mbind _ _ = Ok _ |- _ =>
      apply bind_ok in H; let x := fresh "x" in let Hx := fresh "Hx" in
      destruct H as (x & Hx & H)
  | H : fail_if _ _ = Ok _ |- _ => apply fail_if_ok in H
  | H : ok_or _ _ = Ok _ |- _ => apply ok_or_ok in H
  | H : map_err _ _ = Ok _ |- _ => apply map_err_ok in H
  | H : Ok _ = Ok _ |- _ => injection H as H
  | H : Err _ = Ok _ |- _ => discriminate H
  | H : mret _ = Ok _ |- _ => injection H as H
  | H : (let '(_, _) := ?p in _) = Ok _ |- _ => destruct p
  | H : (if ?b then _ else _) = Ok _ |- _ =>
      let E := fresh "E" in destruct b eqn:E; try discriminate H
  | H : match ?o with _ => _ end = Ok _ |- _ =>
      let E := fresh "E" in destruct o eqn:E; try discriminate H
  end.
Ltac ok_inv := repeat (ok_inv_step; simpl in *; simplify_eq).

(** Boolean tests of the code turned into propositions. *)
Ltac bool_prop :=
  repeat match goal with
  | H : _ || _ = false |- _ => apply orb_false_iff in H; destruct H
  | H : _ && _ = true |- _ => apply andb_true_iff in H; destruct H
  | H : _ || _ = true |- _ => apply orb_true_iff in H
  | H : _ && _ = false |- _ => apply andb_false_iff in H
  | H : negb _ = true |- _ => apply negb_true_iff in H
  | H : negb _ = false |- _ => apply negb_false_iff in H
  | H : bool_decide _ = true |- _ => apply bool_decide_eq_true_1 in H
  | H : bool_decide _ = false |- _ => apply bool_decide_eq_false_1 in H
  | H : (_ <? _)%Z = true |- _ => apply Z.ltb_lt in H
  | H : (_ <? _)%Z = false |- _ => apply Z.ltb_ge in H
  | H : (_ <=? _)%Z = true |- _ => apply Z.leb_le in H
  | H : (_ <=? _)%Z = false |- _ => apply Z.leb_gt in H
  | H : (_ =? _)%Z = true |- _ => apply Z.eqb_eq in H
  | H : (_ =? _)%Z = false |- _ => apply Z.eqb_neq in H
  | H : (_ <? _)%nat = true |- _ => apply Nat.ltb_lt in H
  | H : (_ <? _)%nat = false |- _ => apply Nat.ltb_ge in H
  | H : (_ <=? _)%nat = true |- _ => apply Nat.leb_le in H
  | H : (_ <=? _)%nat = false |- _ => apply Nat.leb_gt in H
  | H : (_ =? _)%nat = true |- _ => apply Nat.eqb_eq in H
  | H : (_ =? _)%nat = false |- _ => apply Nat.eqb_neq in H
  end.

(** ** Machine integers

    Integers are kept in [Z]; a width enters through the range predicates and
    through the checked and wrapping operations the source uses. *)
Definition U8_MAX : Z := 2 ^ 8 - 1.
Definition U16_MAX : Z := 2 ^ 16 - 1.
Definition U32_MAX : Z := 2 ^ 32 - 1.
Definition U64_MAX : Z := 2 ^ 64 - 1.
Definition U128_MAX : Z := 2 ^ 128 - 1.

Definition is_u8 (z : Z) : Prop := 0 <= z <= U8_MAX.
Definition is_u16 (z : Z) : Prop := 0 <= z <= U16_MAX.
Definition is_u32 (z : Z) : Prop := 0 <= z <= U32_MAX.
Definition is_u64 (z : Z) : Prop := 0 <= z <= U64_MAX.
Definition is_u128 (z : Z) : Prop := 0 <= z <= U128_MAX.

(** [uN::checked_add], [checked_sub], [checked_mul] for the width whose
    maximum is [m]. *)
Definition checked_add (m a b : Z) : option Z :=
  if a + b <=? m then Some (a + b) else None.
Definition checked_sub (a b : Z) : option Z :=
  if b <=? a then Some (a - b) else None.
Definition checked_mul (m a b : Z) : option Z :=
  if a * b <=? m then Some (a * b) else None.
(** [uN::wrapping_add] at [w] bits and [saturating_sub] / [saturating_add]. *)
Definition wrapping_add (w a b : Z) : Z := (a + b) mod 2 ^ w.
Definition saturating_sub (a b : Z) : Z := Z.max 0 (a - b).
Definition saturating_add (m a b : Z) : Z := Z.min m (a + b).

Lemma checked_add_Some m a b c :
  checked_add m a b = Some c <-> c = a + b /\ a + b <= m.
Proof. unfold checked_add. case_match; bool_prop; naive_solver lia. Qed.
Lemma checked_sub_Some a b c :
  checked_sub a b = Some c <-> c = a - b /\ b <= a.
Proof. unfold checked_sub. case_match; bool_prop; naive_solver lia. Qed.
Lemma checked_mul_Some m a b c :
  checked_mul m a b = Some c <-> c = a * b /\ a * b <= m.
Proof. unfold checked_mul. case_match; bool_prop; naive_solver lia. Qed.
Lemma checked_add_None m a b : checked_add m a b = None <-> m < a + b.
Proof. unfold checked_add. case_match; bool_prop; naive_solver lia. Qed.
Lemma checked_sub_None a b : checked_sub a b = None <-> a < b.
Proof. unfold checked_sub. case_match; bool_prop; naive_solver lia. Qed.

(** Facts about the checked operations become linear arithmetic. *)
Ltac checked_inv :=
  repeat match goal with
  | H : checked_add _ _ _ = Some _ |- _ => apply checked_add_Some in H as [? ?]
  | H : checked_sub _ _ = Some _ |- _ => apply checked_sub_Some in H as [? ?]
  | H : checked_mul _ _ _ = Some _ |- _ => apply checked_mul_Some in H as [? ?]
  | H : checked_add _ _ _ = None |- _ => apply checked_add_None in H
  | H : checked_sub _ _ = None |- _ => apply checked_sub_None in H
  end.

(** ** Bytes

    A byte is a [Z] in [0..255]; a Rust [Vec<u8>], [[u8; N]] or [String] (its
    UTF-8 bytes) is a list of them. *)
Abbreviation bytes := (list Z).
Definition bytes_ok (b : bytes) : Prop := Forall is_u8 b.

#[global] Instance is_u8_dec z : Decision (is_u8 z).
Proof. unfold is_u8. apply _. Defined.
#[global] Instance bytes_ok_dec b : Decision (bytes_ok b).
Proof. unfold bytes_ok. apply _. Defined.

(** The bytes of a Rust string or byte-string literal. *)
Definition ascii_byte (a : Ascii.ascii) : Z := Z.of_N (Ascii.N_of_ascii a).
Fixpoint lit (s : string) : bytes :=
  match s with
  | EmptyString => []
  | String a s' => ascii_byte a :: lit s'
  end.

(** [uN::to_be_bytes] for [N = 8 * n], and [uN::from_be_bytes]. *)
Fixpoint to_be_bytes (n : nat) (v : Z) : bytes :=
  match n with
  | O => []
  | S n' => v / 256 ^ Z.of_nat n' mod 256 :: to_be_bytes n' v
  end.
Definition from_be_bytes (b : bytes) : Z :=
  fold_left (fun acc x => acc * 256 + x) b 0.

Lemma length_to_be_bytes n v : length (to_be_bytes n v) = n.
Proof. induction n; simpl; auto. Qed.

Lemma to_be_bytes_ok n v : bytes_ok (to_be_bytes n v).
Proof.
  induction n; simpl; constructor; auto.
  unfold is_u8, U8_MAX. pose proof (Z.mod_pos_bound (v / 256 ^ Z.of_nat n) 256).
  lia.
Qed.

Lemma from_be_bytes_acc b acc :
  fold_left (fun acc x => acc * 256 + x) b acc =
  acc * 256 ^ Z.of_nat (length b) + from_be_bytes b.
Proof.
  unfold from_be_bytes. revert acc.
  induction b as [|x b IH]; intros acc; simpl fold_left; [simpl; lia|].
  rewrite IH, (IH (0 * 256 + x)). change (length (x :: b)) with (S (length b)).
  rewrite Nat2Z.inj_succ, Z.pow_succ_r by lia. lia.
Qed.

Lemma from_be_bytes_cons x b :
  from_be_bytes (x :: b) = x * 256 ^ Z.of_nat (length b) + from_be_bytes b.
Proof. unfold from_be_bytes at 1. simpl. apply from_be_bytes_acc. Qed.

Lemma from_to_be_bytes_mod n v :
  from_be_bytes (to_be_bytes n v) = v mod 256 ^ Z.of_nat n.
Proof.
  induction n as [|n IH]; [by rewrite Z.mod_1_r|].
  simpl to_be_bytes. rewrite from_be_bytes_cons, length_to_be_bytes, IH.
  rewrite Nat2Z.inj_succ, Z.pow_succ_r, (Z.mul_comm 256) by lia.
  rewrite Z.rem_mul_r by lia. lia.
Qed.

Lemma from_to_be_bytes n v :
  0 <= v < 256 ^ Z.of_nat n -> from_be_bytes (to_be_bytes n v) = v.
Proof. intros H. rewrite from_to_be_bytes_mod. by apply Z.mod_small. Qed.

Lemma from_be_bytes_bound b :
  bytes_ok b -> 0 <= from_be_bytes b < 256 ^ Z.of_nat (length b).
Proof.
  induction 1 as [|x b Hx _ IH]; [done|].
  rewrite from_be_bytes_cons. unfold is_u8, U8_MAX in Hx.
  change (length (x :: b)) with (S (length b)).
  rewrite Nat2Z.inj_succ, Z.pow_succ_r by lia. nia.
Qed.

Lemma to_be_bytes_app n x b :
  bytes_ok b -> length b = n ->
  to_be_bytes n (x * 256 ^ Z.of_nat n + from_be_bytes b) =
  to_be_bytes n (from_be_bytes b).
Proof.
  intros Hb Hn. assert (forall m y z, (m <= n)%nat ->
    to_be_bytes m (y * 256 ^ Z.of_nat n + z) = to_be_bytes m z) as Hgen.
  { induction m as [|m IH]; intros y z Hm; [done|]. simpl. f_equal; [|apply IH; lia].
    replace (Z.of_nat n) with (Z.of_nat m + (1 + (Z.of_nat n - Z.of_nat m - 1))) by lia.
    rewrite !Z.pow_add_r, Z.pow_1_r by lia.
    rewrite Z.mul_comm, <- Z.mul_assoc, Z.add_comm, (Z.mul_comm (256 ^ Z.of_nat m)).
    rewrite Z.div_add by lia.
    rewrite <- Z.mul_assoc, (Z.mul_comm 256), Z.mod_add by lia. done. }
  apply Hgen. lia.
Qed.

Lemma to_from_be_bytes b :
  bytes_ok b -> to_be_bytes (length b) (from_be_bytes b) = b.
Proof.
  induction 1 as [|x b Hx Hb IH]; [done|].
  change (length (x :: b)) with (S (length b)).
  simpl to_be_bytes. rewrite from_be_bytes_cons.
  rewrite to_be_bytes_app, IH by done. f_equal.
  pose proof (from_be_bytes_bound b Hb). unfold is_u8, U8_MAX in Hx.
  rewrite Z.div_add_l, Z.div_small, Z.add_0_r by lia. apply Z.mod_small. lia.
Qed.

(** [core::str::from_utf8]: the well-formed byte sequences of the Unicode
    standard, the check the Rust standard library makes. *)
Definition in_range (lo hi x : Z) : bool := (lo <=? x) && (x <=? hi).
Definition utf8_cont (x : Z) : bool := in_range 0x80 0xBF x.
Fixpoint utf8_valid (b : bytes) : bool :=
  match b with
  | [] => true
  | x :: r =>
      if in_range 0 0x7F x then utf8_valid r else
      if in_range 0xC2 0xDF x then
        match r with y :: r' => utf8_cont y && utf8_valid r' | _ => false end
      else if in_range 0xE0 0xEF x then
        match r with
        | y :: z :: r' =>
            in_range (if x =? 0xE0 then 0xA0 else 0x80)
                     (if x =? 0xED then 0x9F else 0xBF) y
            && utf8_cont z && utf8_valid r'
        | _ => false
        end
      else if in_range 0xF0 0xF4 x then
        match r with
        | y :: z :: w :: r' =>
            in_range (if x =? 0xF0 then 0x90 else 0x80)
                     (if x =? 0xF4 then 0x8F else 0xBF) y
            && utf8_cont z && utf8_cont w && utf8_valid r'
        | _ => false
        end
      else false
  end.

(** [str::cmp] / [[u8]::cmp]: lexicographic comparison of bytes, and the
    order it induces, used by [sort_by] and by [BTreeMap]. *)
Fixpoint bytes_leb (a b : bytes) : bool :=
  match a, b with
  | [], _ => true
  | _ :: _, [] => false
  | x :: a', y :: b' => if x =? y then bytes_leb a' b' else x <? y
  end.
Definition bytes_le (a b : bytes) : Prop := bytes_leb a b = true.
#[global] Instance bytes_le_dec : RelDecision bytes_le.
Proof. intros a b. unfold bytes_le. apply _. Defined.
#[global] Instance bytes_le_total : Total bytes_le.
Proof.
  intros a. unfold bytes_le. induction a as [|x a IH]; intros [|y b]; simpl; auto.
  destruct (Z.eqb_spec x y) as [->|Hne].
  - rewrite Z.eqb_refl. apply IH.
  - destruct (Z.eqb_spec y x); [congruence|]. rewrite !Z.ltb_lt. lia.
Qed.
#[global] Instance bytes_le_trans : Transitive bytes_le.
Proof.
  unfold bytes_le. intros a. induction a as [|x a IH]; intros [|y b] [|z c]; simpl; auto;
    try discriminate.
  destruct (Z.eqb_spec x y) as [->|?], (Z.eqb_spec y z) as [->|?]; rewrite ?Z.ltb_lt.
  - apply IH.
  - done.
  - intros; by destruct (Z.eqb_spec x z); [subst|apply Z.ltb_lt].
  - intros; destruct (Z.eqb_spec x z); [lia|apply Z.ltb_lt; lia].
Qed.
#[global] Instance bytes_le_antisymm : AntiSymm (=) bytes_le.
Proof.
  unfold bytes_le. intros a. induction a as [|x a IH]; intros [|y b]; simpl; auto;
    try discriminate.
  rewrite (Z.eqb_sym y x).
  destruct (Z.eqb_spec x y) as [->|?]; rewrite ?Z.ltb_lt; [|lia].
  intros. f_equal. auto.
Qed.

(** [BTreeMap] iteration: the entries of a map in the order of their keys. *)
Definition entry_le {A} (x y : bytes * A) : Prop := bytes_le x.1 y.1.
#[global] Instance entry_le_dec A : RelDecision (@entry_le A).
Proof. intros x y. unfold entry_le. apply _. Defined.
#[global] Instance entry_le_total A : Total (@entry_le A).
Proof. intros x y. apply (total bytes_le). Qed.
#[global] Instance entry_le_trans A : Transitive (@entry_le A).
Proof. intros x y z. unfold entry_le. by etrans. Qed.
Definition btree_entries {A} (m : gmap bytes A) : list (bytes * A) := merge_sort entry_le (map_to_list m).

Lemma btree_entries_perm {A} (m : gmap bytes A) : btree_entries m ≡ₚ map_to_list m.
Proof. apply merge_sort_Permutation. Qed.
Lemma length_btree_entries {A} (m : gmap bytes A) : length (btree_entries m) = size m.
Proof. by rewrite btree_entries_perm, length_map_to_list. Qed.
Lemma elem_of_btree_entries {A} (m : gmap bytes A) k v : (k, v) ∈ btree_entries m <-> m !! k = Some v.
Proof. rewrite btree_entries_perm. apply elem_of_map_to_list. Qed.
Lemma btree_entries_inj {A} (m m' : gmap bytes A) : btree_entries m = btree_entries m' -> m = m'.
Proof.
  intros H. apply map_eq. intros k. apply option_eq. intros v. by rewrite <- !elem_of_btree_entries, H.
Qed.

(** ** Loops that may fail *)

(** [for a in l { b = f(b, a)?; }]. *)
Fixpoint foldM {E A B} (f : B -> A -> result E B) (b : B) (l : list A) : result E B :=
  match l with [] => Ok b | a :: l' => b' ← f b a; foldM f b' l' end.

Lemma foldM_invariant {E A B} (f : B -> A -> result E B) (I : B -> Prop) l b b' :
  I b -> (forall b a b', I b -> a ∈ l -> f b a = Ok b' -> I b') -> foldM f b l = Ok b' -> I b'.
Proof.
  revert b. induction l as [|a l IH]; intros b Hb Hstep H; simpl in H; [by injection H as <-|].
  apply bind_ok in H as (b1 & H1 & H). apply (IH b1); [|by intros; eapply Hstep; [|right|]|done].
  eapply Hstep; [done|left|done].
Qed.
Lemma foldM_app {E A B} (f : B -> A -> result E B) b l1 l2 :
  foldM f b (l1 ++ l2) = (b' ← foldM f b l1; foldM f b' l2).
Proof. revert b. induction l1 as [|a l1 IH]; intros b; simpl; [done|]. destruct (f b a); simpl; [apply IH|done]. Qed.

(** ** Lists and counting *)

(** The number of elements of [l] that satisfy a boolean test. *)
Definition countb {A} (f : A -> bool) (l : list A) : nat :=
  length (List.filter f l).

Lemma countb_cons {A} (f : A -> bool) x l :
  countb f (x :: l) = ((if f x then 1 else 0) + countb f l)%nat.
Proof. unfold countb. simpl. by destruct (f x). Qed.

(** Two duplicate-free lists drawn from the same [U] overlap in at least as
    many elements as their lengths exceed that of [U]: the quorum
    intersection of every voting argument. *)
Lemma overlap_length {A} `{EqDecision A} (l1 l2 U : list A) :
  NoDup l1 -> NoDup l2 -> l1 ⊆ U -> l2 ⊆ U ->
  (length l1 + length l2 <= length U + length (filter (.∈ l2) l1))%nat.
Proof.
  intros N1 N2 S1 S2.
  assert (length l1 = length (filter (.∈ l2) l1) + length (filter (.∉ l2) l1))%nat as E.
  { rewrite <- length_app. apply Permutation_length. clear.
    induction l1 as [|x l IH]; [done|]. rewrite !filter_cons.
    destruct (decide (x ∈ l2)), (decide (x ∉ l2)); try done; simpl; [by constructor|].
    rewrite IH at 1. by rewrite Permutation_middle. }
  assert (length (l2 ++ filter (.∉ l2) l1) <= length U)%nat as Hle.
  { apply submseteq_length, NoDup_submseteq.
    - apply NoDup_app. split; [done|]. split; [|by apply NoDup_filter].
      intros x Hx Hf. apply list_elem_of_filter in Hf as [Hn _]. done.
    - intros x. rewrite elem_of_app, list_elem_of_filter. intros [Hx|[_ Hx]]; auto. }
  rewrite length_app in Hle. lia.
Qed.

(** Sum of a list of integers. *)
Definition sum_Z (l : list Z) : Z := foldr Z.add 0 l.

Lemma sum_Z_app a b : sum_Z (a ++ b) = sum_Z a + sum_Z b.
Proof. induction a; simpl; [done|]. unfold sum_Z in *. simpl. lia. Qed.
#[global] Instance sum_Z_proper : Proper (Permutation ==> eq) sum_Z.
Proof. induction 1; unfold sum_Z in *; simpl in *; lia. Qed.

(** The total of the values of a map: the meaning of
    [map.values().sum()] and of the running totals the ledgers keep. *)
Definition map_total {K} `{Countable K} (m : gmap K Z) : Z :=
  sum_Z (map_to_list m).*2.

Section map_total.
Context {K : Type} `{Countable K}.
Implicit Types (m : gmap K Z) (k : K).

Lemma map_total_empty : map_total (∅ : gmap K Z) = 0.
Proof. unfold map_total. by rewrite map_to_list_empty. Qed.

Lemma map_total_insert_None m k v :
  m !! k = None -> map_total (<[k:=v]> m) = v + map_total m.
Proof. intros Hk. unfold map_total. by rewrite map_to_list_insert. Qed.

Lemma map_total_delete m k v :
  m !! k = Some v -> map_total (delete k m) = map_total m - v.
Proof.
  intros Hk. rewrite <- (insert_delete_id m k v) at 2 by done.
  rewrite map_total_insert_None by apply lookup_delete_eq. lia.
Qed.

Lemma map_total_insert m k v :
  map_total (<[k:=v]> m) = map_total m - default 0 (m !! k) + v.
Proof.
  destruct (m !! k) as [w|] eqn:Hk; simpl.
  - rewrite <- insert_delete_eq, map_total_insert_None by apply lookup_delete_eq.
    rewrite (map_total_delete m k w) by done. lia.
  - rewrite map_total_insert_None by done. lia.
Qed.

Lemma map_total_nonneg m :
  (forall k v, m !! k = Some v -> 0 <= v) -> 0 <= map_total m.
Proof.
  induction m as [|k v m Hk IH] using map_ind; intros Hpos.
  - by rewrite map_total_empty.
  - rewrite map_total_insert_None by done.
    assert (0 <= v) by (eapply (Hpos k); by simplify_map_eq).
    assert (0 <= map_total m); [|lia]. apply IH. intros j w Hj. apply (Hpos j).
    rewrite lookup_insert_ne; [done|]. congruence.
Qed.

Lemma map_total_lookup_le m k v :
  (forall k v, m !! k = Some v -> 0 <= v) -> m !! k = Some v -> v <= map_total m.
Proof.
  intros Hpos Hk. pose proof (map_total_delete m k v Hk).
  assert (0 <= map_total (delete k m)); [|lia].
  apply map_total_nonneg. intros j w. rewrite lookup_delete_Some. naive_solver.
Qed.

(** A number of every value, summed over the map. *)
Definition total_by {A} (f : A -> Z) (m : gmap K A) : Z := map_total (f <$> m).
Lemma total_by_empty {A} (f : A -> Z) : total_by f (∅ : gmap K A) = 0.
Proof. unfold total_by. by rewrite fmap_empty, map_total_empty. Qed.
Lemma total_by_insert {A} (f : A -> Z) (m : gmap K A) k (a : A) : m !! k = None -> total_by f (<[k := a]> m) = f a + total_by f m.
Proof. intros Hk. unfold total_by. rewrite fmap_insert. apply map_total_insert_None. by rewrite lookup_fmap, Hk. Qed.
Lemma total_by_delete {A} (f : A -> Z) (m : gmap K A) k (a : A) : m !! k = Some a -> total_by f (delete k m) = total_by f m - f a.
Proof. intros Hk. unfold total_by. rewrite fmap_delete. apply map_total_delete. by rewrite lookup_fmap, Hk. Qed.
Lemma total_by_update {A} (f : A -> Z) (m : gmap K A) k (a b : A) :
  m !! k = Some a -> total_by f (<[k := b]> m) = total_by f m - f a + f b.
Proof. intros Hk. unfold total_by. rewrite fmap_insert, map_total_insert, lookup_fmap, Hk. done. Qed.
Lemma total_by_nonneg {A} (f : A -> Z) (m : gmap K A) : (forall k a, m !! k = Some a -> 0 <= f a) -> 0 <= total_by f m.
Proof. intros Hf. apply map_total_nonneg. intros k v Hv. apply lookup_fmap_Some in Hv as (a & <- & Ha). by eapply Hf. Qed.
Lemma total_by_lookup_le {A} (f : A -> Z) (m : gmap K A) k a :
  (forall k a, m !! k = Some a -> 0 <= f a) -> m !! k = Some a -> f a <= total_by f m.
Proof.
  intros Hf Ha. pose proof (total_by_delete f m k a Ha).
  assert (0 <= total_by f (delete k m)); [|lia]. apply total_by_nonneg. intros j b [_ Hj]%lookup_delete_Some. by eapply Hf.
Qed.
End map_total.

(** ** Automation *)
Create HintDb mini discriminated.
#[export] Hint Resolve to_be_bytes_ok length_to_be_bytes : mini.
#[export] Hint Rewrite @length_app @length_cons @length_replicate
  length_to_be_bytes : mini.
