(* ===== verification/Codec.v ===== *)
(** * Codec: the length-prefixed binary codec

    Models [crates/did-mini/src/codec.rs] ([Writer], [Reader]), the codec
    every canonical byte layout of the identity layer is written with.  The
    vote decoder of [crates/mini-chain/src/vote.rs] has a cursor of the same
    shape ([SliceReader]) and reuses the primitives here with its own error.

    A writer operation is modelled by the bytes it appends, so a sequence of
    calls on a fresh [Writer] is a concatenation.  A reader is the buffer and
    the cursor of the source, and a decoding function is a state-passing
    computation [parser E A] over it.

    [parses p b a]: [p] reads exactly the bytes [b] and returns [a], wherever
    they stand in the buffer.  [consumes r r' b]: going from [r] to [r'] read
    exactly the bytes [b].  The two are the tools of every round trip. *)

From Stdlib Require Import ZArith Lia.
From stdpp Require Import base list.
From S2P Require Import Prelude.
Open Scope Z_scope.

Record Reader := mkReader { rbuf : bytes; rpos : nat }.

Definition parser (E A : Type) : Type := Reader -> result E (A * Reader).

#[global] Instance parser_ret E : MRet (parser E) := fun A a r => Ok (a, r).
#[global] Instance parser_bind E : MBind (parser E) := fun A B f p r =>
  match p r with Ok (a, r') => f a r' | Err e => Err e end.

(** A result that does not touch the cursor. *)
Definition lift {E A} (x : result E A) : parser E A := fun r =>
  match x with Ok a => Ok (a, r) | Err e => Err e end.

(** ** Writer *)
Definition w_u8 (v : Z) : bytes := [v].
Definition w_u32 (v : Z) : bytes := to_be_bytes 4 v.
Definition w_u64 (v : Z) : bytes := to_be_bytes 8 v.
Definition w_bytes (b : bytes) : bytes := w_u32 (Z.of_nat (length b)) ++ b.

(** ** Reader *)
Definition Reader_new (b : bytes) : Reader := mkReader b 0.
Definition finished (r : Reader) : bool := (rpos r =? length (rbuf r))%nat.

Section Reader.
Context {E : Type} (truncated : E).

(** The bounds-checked slice [buf.get(pos..pos + n)] and the cursor move.
    A buffer is shorter than [2^63], so [pos.checked_add(n)] never is what
    fails: past the end both tests give the same error. *)
Definition r_take (n : nat) : parser E bytes := fun r =>
  let end_ := (rpos r + n)%nat in
  if (end_ <=? length (rbuf r))%nat
  then Ok (take n (drop (rpos r) (rbuf r)), mkReader (rbuf r) end_)
  else Err truncated.

Definition r_u8 : parser E Z := fun r =>
  match rbuf r !! rpos r with
  | Some b => Ok (b, mkReader (rbuf r) (S (rpos r)))
  | None => Err truncated
  end.

Definition r_u32 : parser E Z := s ← r_take 4; mret (from_be_bytes s).
Definition r_u64 : parser E Z := s ← r_take 8; mret (from_be_bytes s).

(** [for _ in 0..n { out.push(p(r)?) }]. *)
Fixpoint r_repeat {A} (n : nat) (p : parser E A) : parser E (list A) :=
  match n with
  | O => mret []
  | S n' => x ← p; xs ← r_repeat n' p; mret (x :: xs)
  end.
End Reader.

(** A length-prefixed byte string of at most [max] bytes; the error for a
    longer one is built from the claimed length. *)
Definition bytes_limited {E} (truncated : E) (too_large : Z -> E) (max : Z) :
    parser E bytes :=
  len ← r_u32 truncated;
  if max <? len then lift (Err (too_large len)) else r_take truncated (Z.to_nat len).

(** ** Decoding exactly what was written *)
Definition reader_at (pre suf : bytes) : Reader := mkReader (pre ++ suf) (length pre).

Definition parses {E A} (p : parser E A) (b : bytes) (a : A) : Prop :=
  forall pre suf, p (reader_at pre (b ++ suf)) = Ok (a, reader_at (pre ++ b) suf).

Section Parses.
Context {E : Type} (tr : E).

Lemma parses_ret {A} (a : A) : parses (E:=E) (mret a) [] a.
Proof. intros pre suf. by rewrite app_nil_r. Qed.

Lemma parses_bind {A B} (p : parser E A) (f : A -> parser E B) b1 b2 a c :
  parses p b1 a -> parses (f a) b2 c -> parses (p ≫= f) (b1 ++ b2) c.
Proof.
  intros H1 H2 pre suf. unfold mbind, parser_bind.
  rewrite <- (assoc_L (++)), H1, H2. by rewrite (assoc_L (++)).
Qed.

Lemma parses_bind_nil {A B} (p : parser E A) (f : A -> parser E B) b1 a c :
  parses p b1 a -> parses (f a) [] c -> parses (p ≫= f) b1 c.
Proof. intros H1 H2. rewrite <- (app_nil_r b1). eauto using parses_bind. Qed.

Lemma parses_lift {A B} (x : result E A) (f : A -> parser E B) b a c :
  x = Ok a -> parses (f a) b c -> parses (lift x ≫= f) b c.
Proof.
  intros -> H. change b with ([] ++ b). apply (parses_bind _ _ _ _ a).
  - intros pre suf. by rewrite app_nil_r.
  - done.
Qed.

Lemma parses_lift_end {A} (x : result E A) a : x = Ok a -> parses (lift x) [] a.
Proof. intros -> pre suf. by rewrite app_nil_r. Qed.

Lemma parses_take n b : length b = n -> parses (r_take tr n) b b.
Proof.
  intros Hn pre suf. unfold r_take, reader_at. simpl.
  rewrite !length_app. destruct (Nat.leb_spec (length pre + n) (length pre + (length b + length suf)));
    [|lia].
  rewrite drop_app_length, <- Hn, take_app_length, (assoc_L (++)). done.
Qed.

Lemma parses_u8 x : parses (r_u8 tr) (w_u8 x) x.
Proof.
  intros pre suf. unfold r_u8, reader_at, w_u8. simpl.
  rewrite lookup_app_r, Nat.sub_diag by lia. simpl.
  rewrite length_app, <- (assoc_L (++) pre [x] suf). simpl. by rewrite Nat.add_1_r.
Qed.

Lemma parses_u32 x : is_u32 x -> parses (r_u32 tr) (w_u32 x) x.
Proof.
  intros Hx. unfold r_u32, w_u32. eapply parses_bind_nil.
  - apply parses_take, length_to_be_bytes.
  - rewrite from_to_be_bytes; [apply parses_ret|].
    unfold is_u32, U32_MAX in Hx. change (256 ^ Z.of_nat 4) with (2 ^ 32). lia.
Qed.

Lemma parses_u64 x : is_u64 x -> parses (r_u64 tr) (w_u64 x) x.
Proof.
  intros Hx. unfold r_u64, w_u64. eapply parses_bind_nil.
  - apply parses_take, length_to_be_bytes.
  - rewrite from_to_be_bytes; [apply parses_ret|].
    unfold is_u64, U64_MAX in Hx. change (256 ^ Z.of_nat 8) with (2 ^ 64). lia.
Qed.

Lemma parses_bytes_limited tl max b :
  Z.of_nat (length b) <= max -> max <= U32_MAX ->
  parses (bytes_limited tr tl max) (w_bytes b) b.
Proof.
  intros Hb Hmax. unfold bytes_limited, w_bytes.
  eapply parses_bind; [apply parses_u32; unfold is_u32; lia|].
  destruct (Z.ltb_spec max (Z.of_nat (length b))); [lia|].
  apply parses_take. lia.
Qed.

Lemma parses_repeat {A} (p : parser E A) (enc : A -> bytes) (l : list A) :
  Forall (fun a => parses p (enc a) a) l ->
  parses (r_repeat (length l) p) (concat (map enc l)) l.
Proof.
  induction 1 as [|a l Ha _ IH]; simpl; [apply parses_ret|].
  eapply parses_bind; [exact Ha|]. eapply parses_bind_nil; [exact IH|].
  apply parses_ret.
Qed.

Lemma parses_new {A} (p : parser E A) b a :
  parses p b a -> exists r, p (Reader_new b) = Ok (a, r) /\ finished r = true.
Proof.
  intros H. exists (reader_at b []). specialize (H [] []).
  rewrite app_nil_r in H. split; [exact H|].
  unfold finished, reader_at. simpl. rewrite app_nil_r. apply Nat.eqb_refl.
Qed.
End Parses.

(** ** Only canonical bytes are accepted *)
Definition consumes (r r' : Reader) (b : bytes) : Prop :=
  rbuf r' = rbuf r /\ rpos r' = (rpos r + length b)%nat /\
  exists post, drop (rpos r) (rbuf r) = b ++ post.

Lemma consumes_refl r : consumes r r [].
Proof. split; [done|split; [simpl; lia|by eexists]]. Qed.

Lemma consumes_trans r1 r2 r3 a b :
  consumes r1 r2 a -> consumes r2 r3 b -> consumes r1 r3 (a ++ b).
Proof.
  intros (B1 & P1 & q1 & D1) (B2 & P2 & q2 & D2). split; [congruence|].
  split; [rewrite length_app; lia|]. exists q2.
  rewrite D1. rewrite B1, P1, <- drop_drop, D1, drop_app_length in D2.
  by rewrite D2, (assoc_L (++)).
Qed.

Lemma consumes_bytes_ok r r' b : bytes_ok (rbuf r) -> consumes r r' b -> bytes_ok (rbuf r').
Proof. intros H (-> & _). done. Qed.

(** [p] accepts only the bytes [enc] writes for the value it returns. *)
Class Canonical {E A} (p : parser E A) (enc : A -> bytes) : Prop :=
  canonical_use r a r' :
    bytes_ok (rbuf r) -> p r = Ok (a, r') -> consumes r r' (enc a).

Lemma pbind_ok {E A B} (p : parser E A) (f : A -> parser E B) r b r' :
  (p ≫= f) r = Ok (b, r') <-> exists a r1, p r = Ok (a, r1) /\ f a r1 = Ok (b, r').
Proof.
  unfold mbind, parser_bind. destruct (p r) as [[a r1]|e]; naive_solver.
Qed.

Lemma lift_ok {E A} (x : result E A) r a r' :
  lift x r = Ok (a, r') <-> x = Ok a /\ r' = r.
Proof. unfold lift. destruct x; naive_solver. Qed.

Lemma pret_ok {E A} (x : A) r a r' :
  (mret x : parser E A) r = Ok (a, r') <-> a = x /\ r' = r.
Proof. unfold mret, parser_ret. naive_solver. Qed.

(** Inversion of a successful decoding run, one primitive at a time. *)
Ltac parse_inv :=
  repeat match goal with
  | H : mbind _ _ _ = Ok (_, _) |- _ =>
      apply pbind_ok in H;
      let a := fresh "a" in let r := fresh "r" in let H1 := fresh "Hp" in
      destruct H as (a & r & H1 & H)
  | H : lift _ _ = Ok (_, _) |- _ => apply lift_ok in H; destruct H as [H ?]; subst
  | H : mret _ _ = Ok (_, _) |- _ => apply pret_ok in H; destruct H; subst
  end.

Section Consumes.
Context {E : Type} (tr : E).

Lemma r_take_consumes n r b r' :
  r_take tr n r = Ok (b, r') -> consumes r r' b /\ length b = n.
Proof.
  unfold r_take. destruct (Nat.leb_spec (rpos r + n) (length (rbuf r))) as [Hle|]; [|done].
  intros [= <- <-].
  assert (length (take n (drop (rpos r) (rbuf r))) = n) as Hlen
    by (rewrite length_take, length_drop; lia).
  split; [|done]. split; [done|]. simpl. split; [lia|].
  exists (drop n (drop (rpos r) (rbuf r))). by rewrite take_drop.
Qed.

Lemma r_take_bytes_ok n r b r' :
  bytes_ok (rbuf r) -> r_take tr n r = Ok (b, r') -> bytes_ok b.
Proof.
  unfold r_take. case_match; [|done]. intros Hok [= <- _]. by apply Forall_take, Forall_drop.
Qed.

Lemma r_u8_consumes r b r' : r_u8 tr r = Ok (b, r') -> consumes r r' (w_u8 b).
Proof.
  unfold r_u8. destruct (rbuf r !! rpos r) as [x|] eqn:Hx; [|done].
  intros [= <- <-]. split; [done|]. simpl. split; [lia|].
  exists (drop (S (rpos r)) (rbuf r)). by apply drop_S.
Qed.

Lemma r_u8_is_u8 r b r' : bytes_ok (rbuf r) -> r_u8 tr r = Ok (b, r') -> is_u8 b.
Proof.
  unfold r_u8. intros Hok. destruct (rbuf r !! rpos r) as [x|] eqn:Hx; [|done].
  intros [= <- _]. by eapply Forall_lookup_1.
Qed.

Lemma r_u32_consumes r v r' :
  bytes_ok (rbuf r) -> r_u32 tr r = Ok (v, r') -> consumes r r' (w_u32 v) /\ is_u32 v.
Proof.
  unfold r_u32. intros Hok H. parse_inv.
  pose proof (r_take_bytes_ok _ _ _ _ Hok Hp) as Hb.
  apply r_take_consumes in Hp as [Hc Hl].
  pose proof (from_be_bytes_bound a Hb) as Hbd. rewrite Hl in Hbd.
  unfold w_u32. rewrite <- Hl at 1. rewrite to_from_be_bytes by done.
  split; [done|]. unfold is_u32, U32_MAX. change (256 ^ Z.of_nat 4) with (2 ^ 32) in Hbd. lia.
Qed.

Lemma r_u64_consumes r v r' :
  bytes_ok (rbuf r) -> r_u64 tr r = Ok (v, r') -> consumes r r' (w_u64 v) /\ is_u64 v.
Proof.
  unfold r_u64. intros Hok H. parse_inv.
  pose proof (r_take_bytes_ok _ _ _ _ Hok Hp) as Hb.
  apply r_take_consumes in Hp as [Hc Hl].
  pose proof (from_be_bytes_bound a Hb) as Hbd. rewrite Hl in Hbd.
  unfold w_u64. rewrite <- Hl at 1. rewrite to_from_be_bytes by done.
  split; [done|]. unfold is_u64, U64_MAX. change (256 ^ Z.of_nat 8) with (2 ^ 64) in Hbd. lia.
Qed.

Lemma bytes_limited_consumes tl max r b r' :
  bytes_ok (rbuf r) -> bytes_limited tr tl max r = Ok (b, r') ->
  consumes r r' (w_bytes b) /\ Z.of_nat (length b) <= max.
Proof.
  unfold bytes_limited. intros Hok H. parse_inv.
  apply r_u32_consumes in Hp as [Hc Hu]; [|done].
  destruct (Z.ltb_spec max a) as [|Hle]; parse_inv; [done|].
  apply r_take_consumes in H as [Hc2 Hl].
  unfold is_u32 in Hu. unfold w_bytes. rewrite Hl, Z2Nat.id by lia.
  split; [by eapply consumes_trans|lia].
Qed.

Lemma bytes_limited_bytes_ok tl max r b r' :
  bytes_ok (rbuf r) -> bytes_limited tr tl max r = Ok (b, r') -> bytes_ok b.
Proof.
  unfold bytes_limited. intros Hok H. parse_inv.
  apply r_u32_consumes in Hp as [Hc _]; [|done].
  case_match; parse_inv; [done|]. eapply r_take_bytes_ok; [|exact H].
  by eapply consumes_bytes_ok.
Qed.

Lemma r_repeat_Forall {A} (p : parser E A) (enc : A -> bytes) (Q : A -> Prop) n r l r' :
  Canonical p enc ->
  (forall r a r', bytes_ok (rbuf r) -> p r = Ok (a, r') -> Q a) ->
  bytes_ok (rbuf r) -> r_repeat n p r = Ok (l, r') -> Forall Q l.
Proof.
  intros Hc HQ. revert r l. induction n as [|n IH]; intros r l Hok H; simpl in H; parse_inv;
    [done|].
  constructor; [by eapply HQ|]. eapply IH; [|done].
  eapply consumes_bytes_ok; [exact Hok|]. by eapply Hc.
Qed.

Lemma r_repeat_consumes {A} (p : parser E A) (enc : A -> bytes) n r l r' :
  Canonical p enc ->
  bytes_ok (rbuf r) -> r_repeat n p r = Ok (l, r') ->
  consumes r r' (concat (map enc l)) /\ length l = n.
Proof.
  intros Hp. revert r l. induction n as [|n IH]; intros r l Hok H; simpl in H; parse_inv.
  - split; [apply consumes_refl|done].
  - pose proof (Hp _ _ _ Hok Hp0) as Hc. pose proof Hc as (HB & _).
    destruct (IH _ _ ltac:(by rewrite HB) Hp1) as [Hc2 Hl].
    simpl. split; [by eapply consumes_trans|lia].
Qed.

Lemma consumes_all b r : consumes (Reader_new b) r b -> finished r = true.
Proof. intros (HB & HP & _). unfold finished. rewrite HB, HP. apply Nat.eqb_refl. Qed.

Lemma consumes_finished b r enc :
  consumes (Reader_new b) r enc -> finished r = true -> enc = b.
Proof.
  unfold finished. intros (HB & HP & post & HD) Hf. apply Nat.eqb_eq in Hf.
  rewrite HB, HP in Hf. simpl in *. rewrite drop_0 in HD. rewrite HD, length_app in Hf.
  destruct post; simpl in Hf; [by rewrite HD, app_nil_r|lia].
Qed.
End Consumes.

#[export] Hint Resolve parses_u8 parses_u32 parses_u64 parses_bytes_limited
  parses_take parses_ret parses_repeat : mini.

(** Turn the primitive reads of a decoding run, first to last, into
    [consumes] facts by instance search. *)
Ltac canon_step :=
  match goal with
  | Hok : bytes_ok (rbuf ?r), H : ?p ?r = Ok (?a, ?r') |- _ =>
      lazymatch goal with
      | _ : consumes r r' _ |- _ => fail
      | _ => idtac
      end;
      let Hc := fresh "Hc" in
      pose proof (canonical_use (p:=p) r a r' Hok H) as Hc;
      cbv beta in Hc;
      pose proof (consumes_bytes_ok _ _ _ Hok Hc)
  end.
Ltac canon_chain := repeat canon_step;
  repeat (eassumption || (eapply consumes_trans; [eassumption|])).

(** Decide the closed tag tests of a decoder's dispatch, leaving the bytes
    alone. *)
Ltac eval_tag :=
  cbv beta;
  repeat match goal with
  | |- context [?a =? ?b] =>
      let v := eval vm_compute in (a =? b) in
      match v with true => idtac | false => idtac end;
      change (a =? b) with v
  end; cbv iota.

(** ** Lengths *)
Lemma length_w_u8 n : length (w_u8 n) = 1%nat.
Proof. done. Qed.
Lemma length_w_u32 n : length (w_u32 n) = 4%nat.
Proof. apply length_to_be_bytes. Qed.
Lemma length_w_u64 n : length (w_u64 n) = 8%nat.
Proof. apply length_to_be_bytes. Qed.
Lemma length_w_bytes b : length (w_bytes b) = (4 + length b)%nat.
Proof. unfold w_bytes. by rewrite length_app, length_w_u32. Qed.
Lemma w_bytes_eq b : w_bytes b = w_u32 (Z.of_nat (length b)) ++ b.
Proof. done. Qed.
Lemma from_be_w_u32 v : is_u32 v -> from_be_bytes (w_u32 v) = v.
Proof. intros H. apply from_to_be_bytes. unfold is_u32, U32_MAX in H. change (256 ^ Z.of_nat 4) with (2 ^ 32). lia. Qed.

#[global] Opaque w_u8 w_u32 w_u64 w_bytes.

(** * encodings that can be split again

    The canonical byte layouts of the code concatenate fixed-width,
    length-prefixed and counted fields.  [Delimited Q enc] says that [enc]
    marks its own end on the values satisfying [Q]: whatever follows, the
    value and the rest are determined.  Every "the hash pins the value"
    theorem is a [peel] through the layout. *)


Class Delimited {A} (Q : A -> Prop) (enc : A -> bytes) : Prop :=
  delimited a a' r r' : Q a -> Q a' -> enc a ++ r = enc a' ++ r' -> a = a' /\ r = r'.

Lemma delimited_end {A} (Q : A -> Prop) enc `{!Delimited Q enc} a a' :
  Q a -> Q a' -> enc a = enc a' -> a = a'.
Proof. intros Ha Ha' H. apply (delimited a a' [] []); [done..|]. by rewrite H. Qed.

#[global] Instance delimited_be n :
  Delimited (fun v => 0 <= v < 256 ^ Z.of_nat n) (to_be_bytes n).
Proof.
  intros a a' r r' Ha Ha' H. apply app_inj_1 in H as [E ->]; [|by rewrite !length_to_be_bytes].
  split; [|done]. apply (f_equal from_be_bytes) in E. by rewrite !from_to_be_bytes in E.
Qed.
#[global] Instance delimited_u8 : Delimited (fun _ => True) w_u8.
Proof. Transparent w_u8. intros a a' r r' _ _ [= -> ->]. done. Opaque w_u8. Qed.
#[global] Instance delimited_u32 : Delimited is_u32 w_u32.
Proof.
  intros a a' r r' Ha Ha'. unfold is_u32, U32_MAX in *. apply (delimited (enc := to_be_bytes 4));
    change (256 ^ Z.of_nat 4) with (2 ^ 32); lia.
Qed.
#[global] Instance delimited_u64 : Delimited is_u64 w_u64.
Proof.
  intros a a' r r' Ha Ha'. unfold is_u64, U64_MAX in *. apply (delimited (enc := to_be_bytes 8));
    change (256 ^ Z.of_nat 8) with (2 ^ 64); lia.
Qed.
Lemma delimited_u128 : Delimited is_u128 (to_be_bytes 16).
Proof.
  intros a a' r r' Ha Ha'. unfold is_u128, U128_MAX in *. apply (delimited (enc := to_be_bytes 16));
    change (256 ^ Z.of_nat 16) with (2 ^ 128); lia.
Qed.
#[global] Instance delimited_fixed n : Delimited (fun b : bytes => length b = n) (fun b => b).
Proof. intros a a' r r' Ha Ha' H. apply app_inj_1 in H; [done|congruence]. Qed.
#[global] Instance delimited_bytes : Delimited (fun b : bytes => Z.of_nat (length b) <= U32_MAX) w_bytes.
Proof.
  Transparent w_bytes. intros a a' r r' Ha Ha'. unfold w_bytes. rewrite <- !app_assoc. intros H.
  apply delimited in H as [E H]; [|unfold is_u32; lia..]. apply app_inj_1 in H; [done|lia]. Opaque w_bytes.
Qed.

(** The encodings of a list whose length is known. *)
Lemma delimited_concat {A} (Q : A -> Prop) enc `{!Delimited Q enc} l l' r r' :
  Forall Q l -> Forall Q l' -> length l = length l' ->
  concat (map enc l) ++ r = concat (map enc l') ++ r' -> l = l' /\ r = r'.
Proof.
  revert l'. induction l as [|x l IH]; intros [|x' l'] Hl Hl' Hlen H; simpl in *; try done.
  apply Forall_cons in Hl as [Hx Hl], Hl' as [Hx' Hl']. rewrite <- !app_assoc in H.
  apply delimited in H as [-> H]; [|done..]. apply IH in H as [-> ->]; auto.
Qed.

(** A counted list: its length at some width, then its elements. *)
Lemma delimited_counted {A} (Q : A -> Prop) (enc : A -> bytes) (count : Z -> bytes) (C : Z -> Prop)
    `{!Delimited Q enc, !Delimited C count} :
  Delimited (fun l => C (Z.of_nat (length l)) /\ Forall Q l)
    (fun l => count (Z.of_nat (length l)) ++ concat (map enc l)).
Proof.
  intros l l' r r' [Hc Hl] [Hc' Hl']. rewrite <- !app_assoc. intros H.
  apply delimited in H as [E H]; [|done..]. eapply delimited_concat in H; [done|done..|lia].
Qed.

(** Go through the fields of an equation between two encodings. *)
Ltac peel_side := first [done | assumption | unfold is_u8, is_u16, is_u32, is_u64, is_u128 in *; lia | congruence].
Ltac peel_step H :=
  let E := fresh "E" in
  lazymatch type of H with
  | ?a ++ _ = ?a ++ _ => apply app_inv_head in H
  | w_u64 _ ++ _ = w_u64 _ ++ _ => apply delimited_u64 in H as [E H]; [|peel_side..]
  | w_u32 _ ++ _ = w_u32 _ ++ _ => apply delimited_u32 in H as [E H]; [|peel_side..]
  | w_u8 _ ++ _ = w_u8 _ ++ _ => apply delimited_u8 in H as [E H]; [|exact I..]
  | to_be_bytes 16 _ ++ _ = to_be_bytes 16 _ ++ _ => apply delimited_u128 in H as [E H]; [|peel_side..]
  | w_bytes _ ++ _ = w_bytes _ ++ _ => apply delimited_bytes in H as [E H]; [|peel_side..]
  | _ ++ _ = _ ++ _ => apply app_inj_1 in H as [E H]; [|peel_side]
  end.
Ltac peel H := repeat (rewrite <- ?app_assoc in H; peel_step H).
Ltac peel_last H :=
  first [ apply (delimited_end _ w_u64) in H; [|peel_side..]
        | apply (delimited_end _ w_bytes) in H; [|peel_side..]
        | apply (delimited_end _ (to_be_bytes 16) (Delimited0 := delimited_u128)) in H; [|peel_side..]
        | idtac ].

(** Equal digests are equal inputs, or a collision. *)
Ltac unhash H :=
  match type of H with ?f ?x = ?f ?y => destruct (decide (x = y)) as [?Heq|?Hne]; [left|right; by eexists _, _] end.
