(* ===== verification/Crypto.v ===== *)
(** * Crypto: suites, multihashes, multibase and tagged keys

    Models [crates/mini-crypto/src]: [error.rs], [suite.rs], [hash.rs],
    [multihash.rs], [encoding.rs] and the verifying half of [keys.rs].

    The primitives of the crates it composes (blake3, sha2, bs58,
    ed25519-dalek, fips204) are the class [Primitives]; [PrimitivesLaws]
    states the documented behaviour some results rest on: digests have 32
    bytes, base58 decodes what it encoded, and an honest Ed25519 signature
    verifies.  No unforgeability or collision resistance is assumed here: a
    theorem that would need it concludes with the collision instead. *)

From Stdlib Require Import ZArith Lia.
From stdpp Require Import base list strings.
From S2P Require Import Prelude Codec.
Open Scope Z_scope.

(** The functions of the third-party crates. *)
Class Primitives := {
  blake3 : bytes -> bytes;
  sha256 : bytes -> bytes;
  bs58_encode : bytes -> bytes;
  bs58_decode : bytes -> option bytes;
  (** [DalekVerifyingKey::from_bytes] succeeds. *)
  ed25519_key_ok : bytes -> bool;
  ed25519_verify : bytes -> bytes -> bytes -> bool;
  (** The public key of a 32-byte seed, and signing with the seed. *)
  ed25519_public : bytes -> bytes;
  ed25519_sign : bytes -> bytes -> bytes;
  (** [fips204::ml_dsa_65]: key and signature sizes, parsing, verifying. *)
  mldsa_pk_len : nat;
  mldsa_sig_len : nat;
  mldsa_key_ok : bytes -> bool;
  mldsa_verify : bytes -> bytes -> bytes -> bool;
}.

Class PrimitivesLaws `{Primitives} := {
  blake3_length b : length (blake3 b) = 32%nat;
  blake3_bytes_ok b : bytes_ok (blake3 b);
  sha256_length b : length (sha256 b) = 32%nat;
  bs58_round_trip b : bytes_ok b -> bs58_decode (bs58_encode b) = Some b;
  bs58_ascii b : bytes_ok b -> utf8_valid (bs58_encode b) = true;
  ed25519_public_length s : length (ed25519_public s) = 32%nat;
  ed25519_public_ok s : ed25519_key_ok (ed25519_public s) = true;
  ed25519_sign_length s m : length (ed25519_sign s m) = 64%nat;
  ed25519_sign_verifies s m :
    ed25519_verify (ed25519_public s) m (ed25519_sign s m) = true;
}.

(** Two different inputs with one BLAKE3 digest. *)
Definition blake3_collision `{Primitives} : Prop := exists x y, x <> y /\ blake3 x = blake3 y.

Inductive CryptoError :=
| BadLength (expected got : Z)
| InvalidPublicKey
| BadSignature
| UnknownSuite (tag : Z)
| UnknownKeyAgreementSuite (tag : Z)
| UnknownAeadSuite (tag : Z)
| UnknownKdfSuite (tag : Z)
| KeyAgreementSuiteMismatch
| Aead
| Kdf
| UnsupportedMultibase (c : Z)
| EmptyMultibase
| BadEncoding
| UnknownOrForbiddenHashCode (code : Z)
| BadVarint
| Entropy
| SignatureSuiteMismatch.
#[global] Instance CryptoError_eq_dec : EqDecision CryptoError.
Proof. solve_decision. Defined.

(** ** Signature suites ([suite.rs]) *)
Inductive SignatureSuite := Ed25519 | MlDsa65.
#[global] Instance SignatureSuite_eq_dec : EqDecision SignatureSuite.
Proof. solve_decision. Defined.

Definition suite_tag (s : SignatureSuite) : Z :=
  match s with Ed25519 => 0x01 | MlDsa65 => 0x02 end.

Definition suite_from_tag (tag : Z) : result CryptoError SignatureSuite :=
  if tag =? 0x01 then Ok Ed25519
  else if tag =? 0x02 then Ok MlDsa65
  else Err (UnknownSuite tag).

Definition public_key_len `{Primitives} (s : SignatureSuite) : nat :=
  match s with Ed25519 => 32 | MlDsa65 => mldsa_pk_len end.

Definition signature_len `{Primitives} (s : SignatureSuite) : nat :=
  match s with Ed25519 => 64 | MlDsa65 => mldsa_sig_len end.

Lemma suite_from_tag_tag s : suite_from_tag (suite_tag s) = Ok s.
Proof. by destruct s. Qed.
Lemma suite_tag_from_tag t s : suite_from_tag t = Ok s -> suite_tag s = t.
Proof. unfold suite_from_tag. repeat case_match; naive_solver lia. Qed.

(** ** Unsigned LEB128 varints ([multihash.rs]) *)

(** The [loop] of [write_uvarint]: it shifts a [u64] right by 7 bits until
    nothing is left, so ten rounds always suffice. *)
Fixpoint write_uvarint_loop (fuel : nat) (value : Z) : bytes :=
  match fuel with
  | O => []
  | S fuel' =>
      let byte := Z.land value 0x7f in
      let value' := Z.shiftr value 7 in
      if value' =? 0 then [byte]
      else Z.lor byte 0x80 :: write_uvarint_loop fuel' value'
  end.
Definition write_uvarint (value : Z) : bytes := write_uvarint_loop 10 value.

Fixpoint read_uvarint_loop (i : nat) (shift value : Z) (b : bytes) :
    result CryptoError (Z * bytes) :=
  match b with
  | [] => Err BadVarint
  | byte :: rest =>
      if (10 <=? i)%nat || (64 <=? shift) then Err BadVarint else
      let payload := Z.land byte 0x7f in
      if (shift =? 63) && (1 <? payload) then Err BadVarint else
      let value' := Z.lor value (Z.shiftl payload shift mod 2 ^ 64) in
      if Z.land byte 0x80 =? 0 then Ok (value', rest)
      else read_uvarint_loop (S i) (shift + 7) value' rest
  end.
Definition read_uvarint (b : bytes) : result CryptoError (Z * bytes) :=
  read_uvarint_loop 0 0 0 b.

(** ** Multihashes ([hash.rs], [multihash.rs]) *)
Inductive HashAlgorithm := Blake3 | Sha256.
#[global] Instance HashAlgorithm_eq_dec : EqDecision HashAlgorithm.
Proof. solve_decision. Defined.

Definition multihash_code (a : HashAlgorithm) : Z :=
  match a with Blake3 => 0x1e | Sha256 => 0x12 end.
Definition digest_len (a : HashAlgorithm) : nat := 32.
Definition FORBIDDEN_SHA1_CODE : Z := 0x11.

Definition digest `{Primitives} (a : HashAlgorithm) (data : bytes) : bytes :=
  match a with Blake3 => blake3 data | Sha256 => sha256 data end.

Record Multihash := mkMultihash { mh_algorithm : HashAlgorithm; mh_digest : bytes }.

Definition Multihash_of `{Primitives} (a : HashAlgorithm) (data : bytes) : Multihash :=
  mkMultihash a (digest a data).

Definition Multihash_to_bytes (m : Multihash) : bytes :=
  write_uvarint (multihash_code (mh_algorithm m))
  ++ write_uvarint (Z.of_nat (length (mh_digest m))) ++ mh_digest m.

Definition Multihash_from_bytes (b : bytes) : result CryptoError Multihash :=
  '(code, rest) ← read_uvarint b;
  '(len, rest) ← read_uvarint rest;
  let got := Z.of_nat (length rest) in
  _ ← fail_if (negb (got =? len)) (BadLength len got);
  _ ← fail_if (code =? FORBIDDEN_SHA1_CODE) (UnknownOrForbiddenHashCode code);
  algorithm ← (if code =? 0x1e then Ok Blake3
               else if code =? 0x12 then Ok Sha256
               else Err (UnknownOrForbiddenHashCode code));
  let expected := Z.of_nat (digest_len algorithm) in
  _ ← fail_if (negb (got =? expected)) (BadLength expected got);
  let parsed := mkMultihash algorithm rest in
  _ ← fail_if (negb (bool_decide (Multihash_to_bytes parsed = b))) BadEncoding;
  Ok parsed.

(** ** Multibase ([encoding.rs]) *)
Definition BASE58BTC : Z := 0x7a.
Definition BASE16 : Z := 0x66.

Definition hex_digit (n : Z) : Z := if n <? 10 then 0x30 + n else 0x61 + (n - 10).
Definition hex_lower (data : bytes) : bytes :=
  flat_map (fun b => [hex_digit (Z.shiftr b 4); hex_digit (Z.land b 0x0f)]) data.

Definition hex_val (c : Z) : result CryptoError Z :=
  if in_range 0x30 0x39 c then Ok (c - 0x30)
  else if in_range 0x61 0x66 c then Ok (c - 0x61 + 10)
  else if in_range 0x41 0x46 c then Ok (c - 0x41 + 10)
  else Err BadEncoding.

Fixpoint hex_decode_loop (b : bytes) : result CryptoError bytes :=
  match b with
  | c :: d :: b' =>
      hi ← hex_val c; lo ← hex_val d; rest ← hex_decode_loop b';
      Ok (Z.lor (Z.shiftl hi 4) lo :: rest)
  | _ => Ok []
  end.
Definition hex_decode (s : bytes) : result CryptoError bytes :=
  if Nat.odd (length s) then Err BadEncoding else hex_decode_loop s.

(** [s.chars().next()]: the first scalar value of a valid UTF-8 string, and
    its encoded length. *)
Definition first_char (s : bytes) : option (Z * nat) :=
  match s with
  | [] => None
  | x :: r =>
      let c k := Z.land (nth k r 0) 0x3f in
      if x <? 0x80 then Some (x, 1%nat)
      else if x <? 0xE0 then
        Some (Z.lor (Z.shiftl (Z.land x 0x1f) 6) (c 0%nat), 2%nat)
      else if x <? 0xF0 then
        Some (Z.lor (Z.shiftl (Z.land x 0x0f) 12) (Z.lor (Z.shiftl (c 0%nat) 6) (c 1%nat)), 3%nat)
      else
        Some (Z.lor (Z.shiftl (Z.land x 0x07) 18)
                (Z.lor (Z.shiftl (c 0%nat) 12) (Z.lor (Z.shiftl (c 1%nat) 6) (c 2%nat))), 4%nat)
  end.

Definition multibase_encode `{Primitives} (prefix : Z) (data : bytes) :
    result CryptoError bytes :=
  body ← (if prefix =? BASE58BTC then Ok (bs58_encode data)
          else if prefix =? BASE16 then Ok (hex_lower data)
          else Err (UnsupportedMultibase prefix));
  Ok (prefix :: body).

Definition multibase_decode `{Primitives} (s : bytes) : result CryptoError bytes :=
  '(prefix, n) ← ok_or (first_char s) EmptyMultibase;
  let body := drop n s in
  if prefix =? BASE58BTC then ok_or (bs58_decode body) BadEncoding
  else if prefix =? BASE16 then hex_decode body
  else Err (UnsupportedMultibase prefix).

(** ** Suite-tagged keys and signatures ([keys.rs]) *)

(** A public key is its suite and its canonical bytes: both variants of the
    source's [KeyMaterial] give back the bytes they were parsed from. *)
Record VerifyingKey := mkVerifyingKey { vk_suite : SignatureSuite; vk_bytes : bytes }.
#[global] Instance VerifyingKey_eq_dec : EqDecision VerifyingKey.
Proof. solve_decision. Defined.

Record Signature := mkSignature { sig_suite : SignatureSuite; sig_bytes : bytes }.
#[global] Instance Signature_eq_dec : EqDecision Signature.
Proof. solve_decision. Defined.

Definition VerifyingKey_from_suite_bytes `{Primitives} (s : SignatureSuite) (b : bytes) :
    result CryptoError VerifyingKey :=
  let len := public_key_len s in
  _ ← fail_if (negb (length b =? len)%nat) (BadLength (Z.of_nat len) (Z.of_nat (length b)));
  _ ← fail_if (negb (match s with Ed25519 => ed25519_key_ok b | MlDsa65 => mldsa_key_ok b end))
        InvalidPublicKey;
  Ok (mkVerifyingKey s b).

Definition Signature_from_suite_bytes `{Primitives} (s : SignatureSuite) (b : bytes) :
    result CryptoError Signature :=
  let expected := signature_len s in
  _ ← fail_if (negb (length b =? expected)%nat)
        (BadLength (Z.of_nat expected) (Z.of_nat (length b)));
  Ok (mkSignature s b).

(** The Ed25519 signing key: the only suite [SigningKey::sign] accepts (it
    panics on an ML-DSA-65 key). *)
Record SigningKey := mkSigningKey { sk_seed : bytes }.
Definition sk_suite (k : SigningKey) : SignatureSuite := Ed25519.
Definition verifying_key `{Primitives} (k : SigningKey) : VerifyingKey :=
  mkVerifyingKey (sk_suite k) (ed25519_public (sk_seed k)).
Definition sk_sign `{Primitives} (k : SigningKey) (message : bytes) : Signature :=
  mkSignature (sk_suite k) (ed25519_sign (sk_seed k) message).

Definition vk_verify `{Primitives} (k : VerifyingKey) (message : bytes) (sg : Signature) :
    result CryptoError unit :=
  _ ← fail_if (negb (bool_decide (sig_suite sg = vk_suite k))) BadSignature;
  match vk_suite k with
  | Ed25519 =>
      _ ← fail_if (negb (length (sig_bytes sg) =? 64)%nat) BadSignature;
      fail_if (negb (ed25519_verify (vk_bytes k) message (sig_bytes sg))) BadSignature
  | MlDsa65 =>
      _ ← fail_if (negb (mldsa_key_ok (vk_bytes k))) InvalidPublicKey;
      _ ← fail_if (negb (length (sig_bytes sg) =? mldsa_sig_len)%nat) BadSignature;
      fail_if (negb (mldsa_verify (vk_bytes k) message (sig_bytes sg))) BadSignature
  end.

Lemma sign_verifies `{PrimitivesLaws} k m : vk_verify (verifying_key k) m (sk_sign k m) = Ok tt.
Proof.
  unfold vk_verify. simpl. by rewrite ed25519_sign_length, ed25519_sign_verifies.
Qed.

(** ** Varint round trip *)
Lemma land_7f v : 0 <= v -> Z.land v 0x7f = v mod 2 ^ 7.
Proof. intros. change 0x7f with (Z.ones 7). by rewrite Z.land_ones. Qed.

Lemma low7_facts c :
  0 <= c < 128 ->
  Z.land c 0x80 = 0 /\ Z.land (Z.lor c 0x80) 0x80 = 0x80 /\
  Z.land (Z.lor c 0x80) 0x7f = c /\ Z.land c 0x7f = c.
Proof.
  intros Hc.
  assert (forall n : nat, (n < 128)%nat ->
    let c := Z.of_nat n in
    Z.land c 0x80 = 0 /\ Z.land (Z.lor c 0x80) 0x80 = 0x80 /\
    Z.land (Z.lor c 0x80) 0x7f = c /\ Z.land c 0x7f = c) as Hall.
  { assert (forallb (fun n => let c := Z.of_nat n in
      (Z.land c 0x80 =? 0) && (Z.land (Z.lor c 0x80) 0x80 =? 0x80) &&
      (Z.land (Z.lor c 0x80) 0x7f =? c) && (Z.land c 0x7f =? c)) (List.seq 0 128) = true)
      as Hb by (vm_compute; reflexivity).
    intros n Hn. rewrite forallb_forall in Hb. specialize (Hb n).
    rewrite in_seq in Hb. specialize (Hb ltac:(lia)). cbv zeta in *. bool_prop. auto. }
  specialize (Hall (Z.to_nat c)). rewrite Z2Nat.id in Hall by lia. apply Hall. lia.
Qed.

Lemma split7 v s :
  0 <= v -> 0 <= s ->
  Z.lor (Z.shiftl (v mod 2 ^ 7) s) (Z.shiftl (Z.shiftr v 7) (s + 7)) = Z.shiftl v s.
Proof.
  intros Hv Hs. apply Z.bits_inj'. intros n Hn.
  rewrite Z.lor_spec, !Z.shiftl_spec by lia.
  destruct (Z.lt_ge_cases n s) as [?|?].
  - rewrite !(Z.testbit_neg_r _ (n - s)), Z.testbit_neg_r by lia. done.
  - destruct (Z.lt_ge_cases (n - s) 7) as [?|?].
    + rewrite Z.mod_pow2_bits_low, (Z.testbit_neg_r (Z.shiftr v 7)) by lia.
      by rewrite orb_false_r.
    + rewrite Z.mod_pow2_bits_high, Z.shiftr_spec by lia. simpl. f_equal. lia.
Qed.

Lemma shiftl_small a s k : 0 <= a < 2 ^ (k - s) -> 0 <= s <= k -> 0 <= Z.shiftl a s < 2 ^ k.
Proof.
  intros Ha Hs. rewrite Z.shiftl_mul_pow2 by lia. split; [nia|].
  replace k with (k - s + s) by lia. rewrite Z.pow_add_r by lia.
  assert (0 < 2 ^ s) by lia. nia.
Qed.

Lemma read_write_uvarint_loop fuel i v acc rest :
  0 <= v < 2 ^ (64 - 7 * Z.of_nat i) -> v < 2 ^ (7 * Z.of_nat fuel) ->
  (0 < fuel)%nat -> (i <= 9)%nat ->
  read_uvarint_loop i (7 * Z.of_nat i) acc (write_uvarint_loop fuel v ++ rest) =
  Ok (Z.lor acc (Z.shiftl v (7 * Z.of_nat i)), rest).
Proof.
  revert i v acc. induction fuel as [|fuel IH]; intros i v acc Hv Hf Hpos Hi; [lia|].
  pose proof (Z.mod_pos_bound v (2 ^ 7) ltac:(lia)) as Hm.
  destruct (low7_facts (v mod 2 ^ 7)) as (F1 & F2 & F3 & F4); [lia|].
  assert (v mod 2 ^ 7 <= v) as Hle by (apply Z.mod_le; lia).
  simpl write_uvarint_loop. rewrite land_7f by lia. rewrite Z.shiftr_div_pow2 by lia.
  pose proof (Z.div_mod v (2 ^ 7) ltac:(lia)) as Hdm.
  destruct (Z.eqb_spec (v / 2 ^ 7) 0) as [Hz|Hnz].
  - assert (v mod 2 ^ 7 = v) as Hvv by lia. rewrite Hvv in *.
    cbn [read_uvarint_loop app]. rewrite F4, F1.
    destruct (Nat.leb_spec 10 i); [lia|]. destruct (Z.leb_spec 64 (7 * Z.of_nat i)); [lia|]. simpl.
    replace ((7 * Z.of_nat i =? 63) && (1 <? v)) with false.
    2:{ symmetry. apply andb_false_iff. destruct (Z.eqb_spec (7 * Z.of_nat i) 63) as [E|]; [|by left].
        right. rewrite E in Hv. apply Z.ltb_ge. change (2 ^ (64 - 63)) with 2 in Hv. lia. }
    rewrite Z.mod_small by (apply shiftl_small; lia). done.
  - assert (i <= 8)%nat as Hi8.
    { destruct (decide (i = 9%nat)) as [->|]; [|lia].
      change (2 ^ (64 - 7 * Z.of_nat 9)) with 2 in Hv. rewrite Z.div_small in Hnz by lia. done. }
    assert (fuel <> 0%nat) as Hfuel.
    { intros ->. change (2 ^ (7 * Z.of_nat 1)) with (2 ^ 7) in Hf. rewrite Z.div_small in Hnz by lia. done. }
    cbn [read_uvarint_loop app]. rewrite F3, F2.
    destruct (Nat.leb_spec 10 i); [lia|]. destruct (Z.leb_spec 64 (7 * Z.of_nat i)); [lia|]. simpl.
    destruct (Z.eqb_spec (7 * Z.of_nat i) 63); [lia|]. simpl.
    replace (7 * Z.of_nat i + 7) with (7 * Z.of_nat (S i)) by lia.
    rewrite IH; try lia.
    + f_equal. f_equal. rewrite Z.mod_small by (apply shiftl_small; lia).
      rewrite <- Z.lor_assoc. f_equal. rewrite <- Z.shiftr_div_pow2 by lia.
      replace (7 * Z.of_nat (S i)) with (7 * Z.of_nat i + 7) by lia. apply split7; lia.
    + split; [apply Z.div_pos; lia|]. apply Z.div_lt_upper_bound; [lia|].
      rewrite <- Z.pow_add_r by lia. eapply Z.lt_le_trans; [apply Hv|].
      apply Z.pow_le_mono_r; lia.
    + apply Z.div_lt_upper_bound; [lia|]. rewrite <- Z.pow_add_r by lia.
      replace (7 + 7 * Z.of_nat fuel) with (7 * Z.of_nat (S fuel)) by lia. done.
Qed.

Lemma read_write_uvarint v rest :
  is_u64 v -> read_uvarint (write_uvarint v ++ rest) = Ok (v, rest).
Proof.
  intros Hv. unfold read_uvarint, write_uvarint.
  pose proof (read_write_uvarint_loop 10 0 v 0 rest) as H.
  change (7 * Z.of_nat 0) with 0 in H. change (7 * Z.of_nat 10) with 70 in H.
  unfold is_u64, U64_MAX in Hv. rewrite H by lia.
  by rewrite Z.shiftl_0_r, Z.lor_0_l.
Qed.

Lemma Multihash_round_trip m :
  length (mh_digest m) = 32%nat ->
  Multihash_from_bytes (Multihash_to_bytes m) = Ok m.
Proof.
  intros Hl. destruct m as [a d]. simpl in Hl.
  assert (read_uvarint (Multihash_to_bytes (mkMultihash a d)) =
          Ok (multihash_code a, write_uvarint 32 ++ d)) as E1.
  { unfold Multihash_to_bytes. simpl mh_algorithm. simpl mh_digest. rewrite Hl.
    apply read_write_uvarint. destruct a; unfold is_u64, U64_MAX; simpl; lia. }
  assert (read_uvarint (write_uvarint 32 ++ d) = Ok (32, d)) as E2
    by (apply read_write_uvarint; unfold is_u64, U64_MAX; lia).
  unfold Multihash_from_bytes. rewrite E1. unfold mbind at 1, result_bind at 1.
  rewrite E2. simpl. rewrite Hl. simpl.
  destruct a; simpl; rewrite bool_decide_eq_true_2 by done; done.
Qed.

Lemma Multihash_from_bytes_canonical b m :
  Multihash_from_bytes b = Ok m -> Multihash_to_bytes m = b.
Proof. unfold Multihash_from_bytes. intros H. ok_inv; bool_prop; done. Qed.

Lemma hex_byte b :
  is_u8 b ->
  hex_val (hex_digit (Z.shiftr b 4)) = Ok (Z.shiftr b 4) /\
  hex_val (hex_digit (Z.land b 0x0f)) = Ok (Z.land b 0x0f) /\
  Z.lor (Z.shiftl (Z.shiftr b 4) 4) (Z.land b 0x0f) = b.
Proof.
  intros Hb. unfold is_u8, U8_MAX in Hb.
  assert (forall n, (n < 256)%nat -> let b := Z.of_nat n in
    match hex_val (hex_digit (Z.shiftr b 4)), hex_val (hex_digit (Z.land b 0x0f)) with
    | Ok x, Ok y => (x =? Z.shiftr b 4) && (y =? Z.land b 0x0f)
                    && (Z.lor (Z.shiftl (Z.shiftr b 4) 4) (Z.land b 0x0f) =? b)
    | _, _ => false
    end = true) as Hall.
  { intros n Hn. do 256 (destruct n as [|n]; [vm_compute; reflexivity|]). lia. }
  specialize (Hall (Z.to_nat b) ltac:(lia)). cbv zeta in Hall. rewrite Z2Nat.id in Hall by lia.
  destruct (hex_val (hex_digit (Z.shiftr b 4))), (hex_val (hex_digit (Z.land b 0x0f)));
    try done. bool_prop. subst. auto.
Qed.

Lemma hex_round_trip data : bytes_ok data -> hex_decode (hex_lower data) = Ok data.
Proof.
  intros Hd. unfold hex_decode.
  assert (Nat.odd (length (hex_lower data)) = false) as ->.
  { unfold hex_lower. clear Hd. induction data as [|b l IH]; simpl; [done|].
    by rewrite Nat.odd_succ, <- Nat.negb_odd, Nat.odd_succ, <- Nat.negb_odd, IH. }
  induction Hd as [|b l Hb _ IH]; [done|].
  destruct (hex_byte b Hb) as (H1 & H2 & H3).
  change (hex_lower (b :: l)) with
    (hex_digit (Z.shiftr b 4) :: hex_digit (Z.land b 0x0f) :: hex_lower l).
  cbn [hex_decode_loop]. rewrite H1, H2. simpl. rewrite IH. simpl. by rewrite H3.
Qed.

Lemma Multihash_blake3_ok `{PrimitivesLaws} data :
  bytes_ok (Multihash_to_bytes (Multihash_of Blake3 data)).
Proof.
  unfold Multihash_to_bytes, Multihash_of. cbn [mh_algorithm mh_digest digest].
  rewrite blake3_length. unfold bytes_ok. apply Forall_app. split.
  - by apply (bool_decide_eq_true_1 (bytes_ok _)).
  - apply Forall_app. split; [by apply (bool_decide_eq_true_1 (bytes_ok _))|apply blake3_bytes_ok].
Qed.

(** ** A concrete instance

    Small executable stand-ins with the documented interface, used to
    evaluate the model on concrete inputs.  They are not the third-party
    algorithms and no theorem depends on them. *)
Module Toy.
Definition hash (b : bytes) : bytes :=
  to_be_bytes 32 (fold_left (fun acc x => (acc * 257 + x + 1) mod 2147483647) b 7).
Definition pad32 (s : bytes) : bytes := take 32 (s ++ replicate 32 0).
Definition tag (pk m : bytes) : bytes := hash (pk ++ m) ++ hash (m ++ pk).

Definition primitives : Primitives := {|
  blake3 := hash;
  sha256 := fun b => hash (1 :: b);
  bs58_encode := hex_lower;
  bs58_decode := fun s => match hex_decode s with Ok b => Some b | Err _ => None end;
  ed25519_key_ok := fun _ => true;
  ed25519_verify := fun pk m sg => bool_decide (sg = tag pk m);
  ed25519_public := pad32;
  ed25519_sign := fun s m => tag (pad32 s) m;
  mldsa_pk_len := 1952;
  mldsa_sig_len := 3309;
  mldsa_key_ok := fun _ => true;
  mldsa_verify := fun _ _ _ => false;
|}.

Lemma hex_digit_ascii n : 0 <= n <= 15 -> in_range 0 0x7F (hex_digit n) = true.
Proof.
  intros. unfold in_range, hex_digit. destruct (Z.ltb_spec n 10); apply andb_true_iff;
    rewrite !Z.leb_le; lia.
Qed.

Lemma hex_lower_ascii b : bytes_ok b -> utf8_valid (hex_lower b) = true.
Proof.
  induction 1 as [|x b Hx _ IH]; [done|]. unfold is_u8, U8_MAX in Hx.
  change (hex_lower (x :: b)) with
    (hex_digit (Z.shiftr x 4) :: hex_digit (Z.land x 0x0f) :: hex_lower b).
  assert (0 <= Z.shiftr x 4 <= 15) as Hhi.
  { rewrite Z.shiftr_div_pow2 by lia. split; [apply Z.div_pos; lia|].
    apply Z.lt_succ_r, Z.div_lt_upper_bound; lia. }
  assert (0 <= Z.land x 0x0f <= 15) as Hlo.
  { assert (Z.land x 15 = x mod 16) as -> by (apply (Z.land_ones x 4); lia).
    pose proof (Z.mod_pos_bound x 16 ltac:(lia)). lia. }
  apply hex_digit_ascii in Hhi, Hlo. cbn [utf8_valid]. by rewrite Hhi, Hlo.
Qed.

Lemma hash_length b : length (hash b) = 32%nat.
Proof. apply length_to_be_bytes. Qed.

Lemma laws : @PrimitivesLaws primitives.
Proof.
  split; intros.
  - exact (hash_length b).
  - apply to_be_bytes_ok.
  - exact (hash_length (1 :: b)).
  - cbn [bs58_encode bs58_decode primitives]. by rewrite hex_round_trip.
  - by apply hex_lower_ascii.
  - cbn [ed25519_public primitives]. unfold pad32.
    rewrite length_take, length_app, length_replicate. lia.
  - done.
  - cbn [ed25519_sign primitives]. unfold tag. by rewrite length_app, !hash_length.
  - by apply bool_decide_eq_true_2.
Qed.
End Toy.
