(* ===== verification/Identity.v ===== *)
(** * Identity: [did:mini] identifiers, capabilities, seals and key events

    Models [crates/did-mini/src]: [lib.rs] ([Did]), [limits.rs],
    [error.rs], [delegation.rs] ([Capabilities], [DeviceTier], [Seal] and the
    seal codec) and [event.rs] (establishments, events, the canonical
    encoding in its three modes, the decoder, threshold counting).

    A Rust [String] is its UTF-8 bytes; a [did:mini] string is the type
    [Did].  The theorems: decoding inverts the encoding of every well-formed
    event, and every byte string the decoder accepts is the encoding of the
    event it returns, so an event has exactly one byte layout. *)

From Stdlib Require Import ZArith Lia.
From stdpp Require Import base list strings.
From S2P Require Import Prelude Codec Crypto.
Open Scope Z_scope.

(** ** Errors ([error.rs]) *)
Inductive IdentityError :=
| Crypto (e : CryptoError)
| Truncated
| TrailingBytes
| UnknownEventTag (tag : Z)
| EmptyKel
| NotInception
| WrongSequence (expected got : Z)
| ScidMismatch
| BrokenChain (sn : Z)
| PreRotationMismatch (sn : Z)
| ThresholdNotMet (sn needed got : Z)
| BadEvent
| FieldTooLarge (field : string) (max got : Z)
| TooManyItems (field : string) (max got : Z)
| EmptyKeySet
| InvalidThreshold (threshold key_count : Z)
| DuplicateKey
| InvalidNextThreshold (threshold commitment_count : Z)
| DidFormat
| NotDelegated
| SignatureThresholdNotMet (needed got : Z)
| PairwiseRequiresSingleKey
| RootIsDelegated
| RecoveryKeysMismatch
| RestoreKeysMismatch
| StaleKel (pinned got : Z)
| UnknownSequence (sn head : Z)
| EmptyWitnessSet
| InvalidWitnessThreshold (threshold witness_count : Z)
| DuplicateWitness
| NoWitnessPolicyDeclared
| UnknownWitnessReceiptVersion (v : Z)
| UnknownWitnessCertificateVersion (v : Z)
| UnknownKeyEventKindTag (v : Z)
| WitnessReceiptMismatch
| WitnessNotInPolicy
| WitnessPolicyGenerationMismatch (expected got : Z)
| UnresolvedWitnessKey
| WitnessThresholdNotMet (needed got : Z)
| WitnessConflictingDescendant (sequence : Z)
| ControllerDuplicityMismatch
| WitnessEquivocationMismatch
| MismatchedGossipIdentity
| NoRetainedWitnessState
| NotAWitnessPolicyChange
| RecoveryWaitingPeriodNotMet (needed_epochs got_epochs : Z)
| InsufficientUnavailabilityEvidence (needed got : Z)
| ConflictingPolicyTransitionCertification.

(** ** Wire limits ([limits.rs]) *)
Definition MAX_SCID_BYTES : Z := 128.
Definition MAX_DID_BYTES : Z := 256.
Definition MAX_PRIOR_BYTES : Z := 128.
Definition MAX_MULTIHASH_BYTES : Z := 128.
Definition MAX_KEY_BYTES : Z := 256.
Definition MAX_SIGNATURE_BYTES : Z := 4096.
Definition MAX_KEYS : Z := 32.
Definition MAX_NEXT : Z := 32.
Definition MAX_WITNESSES : Z := 64.
Definition MAX_SIGNATURES : Z := 64.
Definition MAX_ANCHORS : Z := 128.
Definition MAX_SEALS : Z := 128.

Definition rd_u8 : parser IdentityError Z := r_u8 Truncated.
Definition rd_u32 : parser IdentityError Z := r_u32 Truncated.
Definition rd_u64 : parser IdentityError Z := r_u64 Truncated.
Definition rd_bytes (field : string) (max : Z) : parser IdentityError bytes :=
  bytes_limited Truncated (FieldTooLarge field max) max.
(** [String::from_utf8(..).map_err(|_| BadEvent)]. *)
Definition utf8 (b : bytes) : result IdentityError bytes :=
  if utf8_valid b then Ok b else Err BadEvent.
Definition rd_string (field : string) (max : Z) : parser IdentityError bytes :=
  b ← rd_bytes field max; lift (utf8 b).

Section Identity.
Context {P : Primitives}.

(** ** Identifiers ([lib.rs]) *)
Definition METHOD : bytes := lit "did:mini:".

Record Did := mkDid { did_str : bytes }.
#[global] Instance Did_eq_dec : EqDecision Did.
Proof. solve_decision. Defined.

Definition validate_scid (scid : bytes) : result IdentityError unit :=
  b ← map_err Crypto (multibase_decode scid);
  _ ← map_err Crypto (Multihash_from_bytes b);
  Ok tt.

Definition from_scid_unchecked (scid : bytes) : Did := mkDid (METHOD ++ scid).

Definition from_scid (scid : bytes) : result IdentityError Did :=
  _ ← validate_scid scid; Ok (from_scid_unchecked scid).

(** [s.strip_prefix(METHOD)]. *)
Definition strip_prefix (p s : bytes) : option bytes :=
  if bool_decide (take (length p) s = p) then Some (drop (length p) s) else None.

Definition Did_parse (s : bytes) : result IdentityError Did :=
  match strip_prefix METHOD s with
  | Some ((_ :: _) as scid) => _ ← validate_scid scid; Ok (mkDid s)
  | _ => Err DidFormat
  end.

Definition did_scid (d : Did) : bytes := drop (length METHOD) (did_str d).

(** ** Capabilities ([delegation.rs]) *)
Record Capabilities := mkCapabilities { cap_bits : Z }.
Definition SIGN := mkCapabilities 1.
Definition PAY := mkCapabilities (Z.shiftl 1 1).
Definition POST := mkCapabilities (Z.shiftl 1 2).
Definition ATTEST := mkCapabilities (Z.shiftl 1 3).
Definition VOTE := mkCapabilities (Z.shiftl 1 4).
Definition MANAGE_DEVICES := mkCapabilities (Z.shiftl 1 5).
Definition STORE := mkCapabilities (Z.shiftl 1 6).
Definition AI_DISCLOSE := mkCapabilities (Z.shiftl 1 7).

Definition cap_with (a b : Capabilities) : Capabilities :=
  mkCapabilities (Z.lor (cap_bits a) (cap_bits b)).
Definition cap_contains (a b : Capabilities) : bool :=
  Z.land (cap_bits a) (cap_bits b) =? cap_bits b.
Definition ALL : Capabilities :=
  mkCapabilities
    (Z.lor (Z.lor (Z.lor (Z.lor (Z.lor (Z.lor (Z.lor (cap_bits SIGN) (cap_bits PAY))
      (cap_bits POST)) (cap_bits ATTEST)) (cap_bits VOTE)) (cap_bits MANAGE_DEVICES))
      (cap_bits STORE)) (cap_bits AI_DISCLOSE)).

(** [bits & !ALL != 0] is refused; [!] is the 32-bit complement. *)
Definition cap_from_bits (bits : Z) : result IdentityError Capabilities :=
  if Z.land bits (Z.lxor (cap_bits ALL) U32_MAX) =? 0
  then Ok (mkCapabilities bits) else Err BadEvent.

Definition cap_primary : Capabilities :=
  cap_with (cap_with (cap_with (cap_with SIGN PAY) POST) ATTEST) VOTE.
Definition cap_secondary : Capabilities := cap_with (cap_with SIGN PAY) POST.

Inductive DeviceTier := ColdRoot | HardwareToken | DailyDevice | Emerging.
Definition cap_for_tier (t : DeviceTier) : Capabilities :=
  match t with
  | ColdRoot => cap_with (cap_with (cap_with (cap_with (cap_with (cap_with SIGN PAY) POST)
                  ATTEST) VOTE) MANAGE_DEVICES) STORE
  | HardwareToken => SIGN
  | DailyDevice => cap_primary
  | Emerging => cap_secondary
  end.

(** ** Seals *)
Inductive Seal :=
| Delegate (device : bytes) (capabilities : Capabilities)
| Revoke (device : bytes).

Definition SEAL_DELEGATE : Z := 0x01.
Definition SEAL_REVOKE : Z := 0x02.

Definition encode_seal (s : Seal) : bytes :=
  match s with
  | Delegate device caps => w_u8 SEAL_DELEGATE ++ w_bytes device ++ w_u32 (cap_bits caps)
  | Revoke device => w_u8 SEAL_REVOKE ++ w_bytes device
  end.

Definition decode_seal : parser IdentityError Seal :=
  tag ← rd_u8;
  if tag =? SEAL_DELEGATE then
    device ← rd_string "seal.device" MAX_DID_BYTES;
    _ ← lift (Did_parse device);
    bits ← rd_u32;
    caps ← lift (cap_from_bits bits);
    mret (Delegate device caps)
  else if tag =? SEAL_REVOKE then
    device ← rd_string "seal.device" MAX_DID_BYTES;
    _ ← lift (Did_parse device);
    mret (Revoke device)
  else lift (Err BadEvent).

(** ** Key events ([event.rs]) *)
Definition TAG_ICP : Z := 0x01.
Definition TAG_ROT : Z := 0x02.
Definition TAG_IXN : Z := 0x03.
Definition TAG_SEAL : Z := 0x04.
Definition TAG_DIP : Z := 0x05.

Record Establishment := mkEstablishment {
  est_keys : list VerifyingKey;
  est_threshold : Z;
  est_next : list bytes;
  est_next_threshold : Z;
  est_witnesses : list bytes;
  est_witness_threshold : Z;
}.

Inductive EventKind :=
| Inception (est : Establishment)
| DelegatedInception (est : Establishment) (delegator : bytes)
| Rotation (est : Establishment)
| Interaction (anchors : list bytes)
| SealEvent (seals : list Seal).

Record IndexedSig := mkIndexedSig { is_index : Z; is_signature : Signature }.

Record Event := mkEvent {
  ev_suite : SignatureSuite;
  ev_scid : bytes;
  ev_sn : Z;
  ev_prior : bytes;
  ev_kind : EventKind;
  ev_signatures : list IndexedSig;
}.

Inductive Mode := ScidInput | Signing | Full.

Definition encode_establishment (est : Establishment) : bytes :=
  w_u32 (Z.of_nat (length (est_keys est)))
  ++ concat (map (fun k => w_u8 (suite_tag (vk_suite k)) ++ w_bytes (vk_bytes k)) (est_keys est))
  ++ w_u32 (est_threshold est)
  ++ w_u32 (Z.of_nat (length (est_next est)))
  ++ concat (map w_bytes (est_next est))
  ++ w_u32 (est_next_threshold est)
  ++ w_u32 (Z.of_nat (length (est_witnesses est)))
  ++ concat (map w_bytes (est_witnesses est))
  ++ match est_witnesses est with [] => [] | _ => w_u32 (est_witness_threshold est) end.

Definition ev_tag (e : Event) : Z :=
  match ev_kind e with
  | Inception _ => TAG_ICP
  | DelegatedInception _ _ => TAG_DIP
  | Rotation _ => TAG_ROT
  | Interaction _ => TAG_IXN
  | SealEvent _ => TAG_SEAL
  end.

Definition encode_kind (k : EventKind) : bytes :=
  match k with
  | Inception est | Rotation est => encode_establishment est
  | DelegatedInception est delegator => encode_establishment est ++ w_bytes delegator
  | Interaction anchors =>
      w_u32 (Z.of_nat (length anchors)) ++ concat (map w_bytes anchors)
  | SealEvent seals =>
      w_u32 (Z.of_nat (length seals)) ++ concat (map encode_seal seals)
  end.

Definition encode_sig (s : IndexedSig) : bytes :=
  w_u32 (is_index s) ++ w_u8 (suite_tag (sig_suite (is_signature s)))
  ++ w_bytes (sig_bytes (is_signature s)).

Definition encode_event (e : Event) (mode : Mode) : bytes :=
  w_u8 (ev_tag e) ++ w_u8 (suite_tag (ev_suite e))
  ++ (match mode with ScidInput => w_bytes [] | _ => w_bytes (ev_scid e) end)
  ++ w_u64 (ev_sn e) ++ w_bytes (ev_prior e) ++ encode_kind (ev_kind e)
  ++ (match mode with
      | Full => w_u32 (Z.of_nat (length (ev_signatures e)))
                ++ concat (map encode_sig (ev_signatures e))
      | _ => []
      end).

Definition signing_bytes (e : Event) : bytes := encode_event e Signing.
Definition full_bytes (e : Event) : bytes := encode_event e Full.
Definition ev_digest (e : Event) : bytes :=
  Multihash_to_bytes (Multihash_of Blake3 (full_bytes e)).

Definition checked_count (n max : Z) (field : string) : result IdentityError Z :=
  if max <? n then Err (TooManyItems field max n) else Ok n.

Definition key_fingerprint (vk : VerifyingKey) : bytes :=
  suite_tag (vk_suite vk) :: vk_bytes vk.

Definition key_commitment (vk : VerifyingKey) : bytes :=
  Multihash_to_bytes (Multihash_of Blake3 (key_fingerprint vk)).

(** [for x in l { if seen.contains(x) { fail } seen.push(x) }]. *)
Fixpoint dup_scan (seen l : list bytes) : bool :=
  match l with
  | [] => false
  | x :: l' => if bool_decide (x ∈ seen) then true else dup_scan (seen ++ [x]) l'
  end.

(** The scan of the next-key commitments: each must be a multihash, and none
    may repeat. *)
Fixpoint validate_next (seen l : list bytes) : result IdentityError unit :=
  match l with
  | [] => Ok tt
  | c :: l' =>
      _ ← map_err Crypto (Multihash_from_bytes c);
      _ ← fail_if (bool_decide (c ∈ seen)) BadEvent;
      validate_next (seen ++ [c]) l'
  end.

Definition validate_establishment (est : Establishment) : result IdentityError unit :=
  let nwit := Z.of_nat (length (est_witnesses est)) in
  let nkeys := Z.of_nat (length (est_keys est)) in
  let nnext := Z.of_nat (length (est_next est)) in
  let wt := est_witness_threshold est in
  _ ← fail_if (nkeys =? 0) EmptyKeySet;
  _ ← (if nwit =? 0 then
         fail_if (negb (wt =? 0)) (InvalidWitnessThreshold (Z.min wt U16_MAX) 0)
       else
         _ ← fail_if ((wt =? 0) || (nwit <? wt)) (InvalidWitnessThreshold (Z.min wt U16_MAX) nwit);
         fail_if (dup_scan [] (est_witnesses est)) DuplicateWitness);
  _ ← fail_if ((est_threshold est =? 0) || (nkeys <? est_threshold est))
        (InvalidThreshold (est_threshold est) nkeys);
  _ ← fail_if (dup_scan [] (map key_fingerprint (est_keys est))) DuplicateKey;
  _ ← fail_if ((nnext =? 0) || (est_next_threshold est =? 0) || (nnext <? est_next_threshold est))
        (InvalidNextThreshold (est_next_threshold est) nnext);
  validate_next [] (est_next est).

Definition decode_key : parser IdentityError VerifyingKey :=
  tag ← rd_u8;
  suite ← lift (map_err Crypto (suite_from_tag tag));
  key_bytes ← rd_bytes "key" MAX_KEY_BYTES;
  lift (map_err Crypto (VerifyingKey_from_suite_bytes suite key_bytes)).

Definition decode_next : parser IdentityError bytes :=
  commitment ← rd_bytes "next commitment" MAX_MULTIHASH_BYTES;
  _ ← lift (map_err Crypto (Multihash_from_bytes commitment));
  mret commitment.

(** A count read as [u32], checked against its cap, then that many items. *)
Definition decode_list {A} (max : Z) (field : string) (p : parser IdentityError A) :
    parser IdentityError (list A) :=
  n ← rd_u32; n ← lift (checked_count n max field); r_repeat (Z.to_nat n) p.

Definition decode_establishment : parser IdentityError Establishment :=
  keys ← decode_list MAX_KEYS "keys" decode_key;
  threshold ← rd_u32;
  next ← decode_list MAX_NEXT "next commitments" decode_next;
  next_threshold ← rd_u32;
  witnesses ← decode_list MAX_WITNESSES "witnesses" (rd_bytes "witness" MAX_DID_BYTES);
  witness_threshold ← (match witnesses with [] => mret 0 | _ => rd_u32 end);
  let est := mkEstablishment keys threshold next next_threshold witnesses witness_threshold in
  _ ← lift (validate_establishment est);
  mret est.

Definition decode_anchor : parser IdentityError bytes :=
  b ← rd_bytes "anchor" 32;
  _ ← lift (fail_if (negb (length b =? 32)%nat) BadEvent);
  mret b.

Definition decode_sig : parser IdentityError IndexedSig :=
  index ← rd_u32;
  tag ← rd_u8;
  suite ← lift (map_err Crypto (suite_from_tag tag));
  sb ← rd_bytes "signature" MAX_SIGNATURE_BYTES;
  sg ← lift (map_err Crypto (Signature_from_suite_bytes suite sb));
  mret (mkIndexedSig index sg).

Definition decode_kind (tag : Z) : parser IdentityError EventKind :=
  if tag =? TAG_ICP then est ← decode_establishment; mret (Inception est)
  else if tag =? TAG_DIP then
    est ← decode_establishment;
    delegator ← rd_string "event.delegator" MAX_DID_BYTES;
    _ ← lift (Did_parse delegator);
    mret (DelegatedInception est delegator)
  else if tag =? TAG_ROT then est ← decode_establishment; mret (Rotation est)
  else if tag =? TAG_IXN then
    anchors ← decode_list MAX_ANCHORS "anchors" decode_anchor; mret (Interaction anchors)
  else if tag =? TAG_SEAL then
    seals ← decode_list MAX_SEALS "seals" decode_seal; mret (SealEvent seals)
  else lift (Err (UnknownEventTag tag)).

Definition decode_event : parser IdentityError Event :=
  tag ← rd_u8;
  stag ← rd_u8;
  suite ← lift (map_err Crypto (suite_from_tag stag));
  scid ← rd_string "event.scid" MAX_SCID_BYTES;
  sn ← rd_u64;
  prior ← rd_bytes "event.prior" MAX_PRIOR_BYTES;
  kind ← decode_kind tag;
  signatures ← decode_list MAX_SIGNATURES "signatures" decode_sig;
  mret (mkEvent suite scid sn prior kind signatures).

Definition derive_scid (icp : Event) : bytes :=
  let mh := Multihash_to_bytes (Multihash_of Blake3 (encode_event icp ScidInput)) in
  match multibase_encode BASE58BTC mh with Ok s => s | Err _ => [] end.

(** The counting loop of [count_valid_signers] over the signature list, with
    the indices and key fingerprints already counted. *)
Fixpoint count_signers_loop (msg : bytes) (keys : list VerifyingKey)
    (seen_indices : list Z) (seen_keys : list bytes) (count : Z) (sigs : list IndexedSig) : Z :=
  match sigs with
  | [] => count
  | s :: rest =>
      match keys !! Z.to_nat (is_index s) with
      | None => count_signers_loop msg keys seen_indices seen_keys count rest
      | Some k =>
          let fp := key_fingerprint k in
          if bool_decide (is_index s ∈ seen_indices) || bool_decide (fp ∈ seen_keys)
          then count_signers_loop msg keys seen_indices seen_keys count rest
          else if is_ok (vk_verify k msg (is_signature s)) then
            count_signers_loop msg keys (seen_indices ++ [is_index s]) (seen_keys ++ [fp])
              (count + 1) rest
          else count_signers_loop msg keys seen_indices seen_keys count rest
      end
  end.
Definition count_valid_signers (msg : bytes) (keys : list VerifyingKey) (sigs : list IndexedSig) : Z :=
  count_signers_loop msg keys [] [] 0 sigs.

Definition verify_threshold (e : Event) (keys : list VerifyingKey) (threshold : Z) :
    result IdentityError unit :=
  _ ← fail_if (threshold =? 0) (ThresholdNotMet (ev_sn e) threshold 0);
  let count := count_valid_signers (signing_bytes e) keys (ev_signatures e) in
  if threshold <=? count then Ok tt
  else Err (ThresholdNotMet (ev_sn e) threshold count).

(** ** Well-formed events: what the code builds and the decoder admits *)
Definition key_wf (k : VerifyingKey) : Prop :=
  Z.of_nat (length (vk_bytes k)) <= MAX_KEY_BYTES /\
  VerifyingKey_from_suite_bytes (vk_suite k) (vk_bytes k) = Ok k.

Definition sig_wf (s : IndexedSig) : Prop :=
  is_u32 (is_index s) /\ Z.of_nat (length (sig_bytes (is_signature s))) <= MAX_SIGNATURE_BYTES /\
  length (sig_bytes (is_signature s)) = signature_len (sig_suite (is_signature s)).

Definition did_string_wf (d : bytes) : Prop :=
  Z.of_nat (length d) <= MAX_DID_BYTES /\ utf8_valid d = true /\ exists x, Did_parse d = Ok x.

Definition seal_wf (s : Seal) : Prop :=
  match s with
  | Delegate d c => did_string_wf d /\ is_u32 (cap_bits c) /\ cap_from_bits (cap_bits c) = Ok c
  | Revoke d => did_string_wf d
  end.

Definition est_wf (est : Establishment) : Prop :=
  Z.of_nat (length (est_keys est)) <= MAX_KEYS /\ Forall key_wf (est_keys est) /\
  is_u32 (est_threshold est) /\
  Z.of_nat (length (est_next est)) <= MAX_NEXT /\
  Forall (fun c => Z.of_nat (length c) <= MAX_MULTIHASH_BYTES /\
            exists m, Multihash_from_bytes c = Ok m) (est_next est) /\
  is_u32 (est_next_threshold est) /\
  Z.of_nat (length (est_witnesses est)) <= MAX_WITNESSES /\
  Forall (fun w => Z.of_nat (length w) <= MAX_DID_BYTES) (est_witnesses est) /\
  is_u32 (est_witness_threshold est) /\
  validate_establishment est = Ok tt.

Definition kind_wf (k : EventKind) : Prop :=
  match k with
  | Inception est | Rotation est => est_wf est
  | DelegatedInception est d => est_wf est /\ did_string_wf d
  | Interaction anchors =>
      Z.of_nat (length anchors) <= MAX_ANCHORS /\ Forall (fun a => length a = 32%nat) anchors
  | SealEvent seals => Z.of_nat (length seals) <= MAX_SEALS /\ Forall seal_wf seals
  end.

Definition event_wf (e : Event) : Prop :=
  Z.of_nat (length (ev_scid e)) <= MAX_SCID_BYTES /\ utf8_valid (ev_scid e) = true /\
  is_u64 (ev_sn e) /\ Z.of_nat (length (ev_prior e)) <= MAX_PRIOR_BYTES /\
  kind_wf (ev_kind e) /\
  Z.of_nat (length (ev_signatures e)) <= MAX_SIGNATURES /\ Forall sig_wf (ev_signatures e).

(** ** Decoding what was encoded *)
Lemma parses_rd_bytes f max b :
  Z.of_nat (length b) <= max -> max <= U32_MAX -> parses (rd_bytes f max) (w_bytes b) b.
Proof. apply parses_bytes_limited. Qed.

Lemma parses_rd_string f max b :
  Z.of_nat (length b) <= max -> max <= U32_MAX -> utf8_valid b = true ->
  parses (rd_string f max) (w_bytes b) b.
Proof.
  intros. eapply parses_bind_nil; [by apply parses_rd_bytes|].
  apply parses_lift_end. unfold utf8. by case_match.
Qed.

Lemma parses_list {A} max f (p : parser IdentityError A) (enc : A -> bytes) l :
  Z.of_nat (length l) <= max -> max <= U32_MAX ->
  Forall (fun a => parses p (enc a) a) l ->
  parses (decode_list max f p) (w_u32 (Z.of_nat (length l)) ++ concat (map enc l)) l.
Proof.
  intros Hl Hm Hall. unfold decode_list. eapply parses_bind.
  - apply parses_u32. unfold is_u32. lia.
  - eapply parses_lift.
    + unfold checked_count. destruct (Z.ltb_spec max (Z.of_nat (length l))); [lia|done].
    + rewrite Nat2Z.id. by apply parses_repeat.
Qed.

Lemma parses_key k :
  key_wf k -> parses decode_key (w_u8 (suite_tag (vk_suite k)) ++ w_bytes (vk_bytes k)) k.
Proof.
  intros [Hl Hok]. unfold decode_key. eapply parses_bind; [apply parses_u8|].
  eapply parses_lift; [by rewrite suite_from_tag_tag|].
  eapply parses_bind_nil; [by apply parses_rd_bytes|].
  apply parses_lift_end. by rewrite Hok.
Qed.

Lemma parses_next c m :
  Z.of_nat (length c) <= MAX_MULTIHASH_BYTES -> Multihash_from_bytes c = Ok m ->
  parses decode_next (w_bytes c) c.
Proof.
  intros Hl Hm. unfold decode_next. eapply parses_bind_nil; [by apply parses_rd_bytes|].
  eapply parses_lift; [by rewrite Hm|]. apply parses_ret.
Qed.

Lemma validate_no_witness est :
  est_witnesses est = [] -> validate_establishment est = Ok tt -> est_witness_threshold est = 0.
Proof.
  unfold validate_establishment. intros Hw H. rewrite Hw in H. simpl in H. ok_inv. bool_prop.
  done.
Qed.

Lemma parses_establishment est :
  est_wf est -> parses decode_establishment (encode_establishment est) est.
Proof.
  intros (Hk & Hkf & Ht & Hn & Hnf & Hnt & Hw & Hwf & Hwt & Hv).
  unfold decode_establishment, encode_establishment.
  rewrite (assoc_L (++) (w_u32 _)). eapply parses_bind.
  { apply parses_list; [done..|]. eapply Forall_impl; [exact Hkf|]. apply parses_key. }
  eapply parses_bind; [by apply parses_u32|].
  rewrite (assoc_L (++) (w_u32 _)). eapply parses_bind.
  { apply parses_list; [done..|]. eapply Forall_impl; [exact Hnf|].
    intros c [? [m ?]]. by eapply parses_next. }
  eapply parses_bind; [by apply parses_u32|].
  rewrite (assoc_L (++) (w_u32 _)). eapply parses_bind.
  { apply (parses_list _ _ _ w_bytes); [done..|]. eapply Forall_impl; [exact Hwf|].
    intros w ?. by apply parses_rd_bytes. }
  eapply parses_bind_nil with (a := est_witness_threshold est).
  { destruct (est_witnesses est) eqn:E; [|by apply parses_u32].
    rewrite (validate_no_witness est) by done. apply parses_ret. }
  destruct est; simpl in *. eapply parses_lift; [exact Hv|]. apply parses_ret.
Qed.

Lemma parses_did f d :
  did_string_wf d -> parses (rd_string f MAX_DID_BYTES) (w_bytes d) d.
Proof. intros (? & ? & _). by apply parses_rd_string. Qed.

Lemma parses_seal s : seal_wf s -> parses decode_seal (encode_seal s) s.
Proof.
  destruct s as [d c|d]; cbn [seal_wf encode_seal].
  - intros (Hd & Hu & Hc). pose proof Hd as (_ & _ & x & Hx).
    unfold decode_seal. eapply parses_bind; [apply parses_u8|]. eval_tag.
    eapply parses_bind; [by apply parses_did|]. eapply parses_lift; [exact Hx|].
    eapply parses_bind_nil; [by apply parses_u32|].
    eapply parses_lift; [exact Hc|]. apply parses_ret.
  - intros Hd. pose proof Hd as (_ & _ & x & Hx).
    unfold decode_seal. eapply parses_bind; [apply parses_u8|]. eval_tag.
    eapply parses_bind_nil; [by apply parses_did|]. eapply parses_lift; [exact Hx|].
    apply parses_ret.
Qed.

Lemma parses_anchor a : length a = 32%nat -> parses decode_anchor (w_bytes a) a.
Proof.
  intros Ha. unfold decode_anchor. eapply parses_bind_nil.
  { apply parses_rd_bytes; [rewrite Ha; lia|done]. }
  eapply parses_lift; [by rewrite Ha|]. apply parses_ret.
Qed.

Lemma parses_sig s : sig_wf s -> parses decode_sig (encode_sig s) s.
Proof.
  destruct s as [i [su sb]]. unfold sig_wf, decode_sig, encode_sig.
  cbn [is_index is_signature sig_suite sig_bytes]. intros (Hi & Hl & Hlen).
  eapply parses_bind; [by apply parses_u32|].
  eapply parses_bind; [apply parses_u8|].
  eapply parses_lift; [by rewrite suite_from_tag_tag|].
  eapply parses_bind_nil; [by apply parses_rd_bytes|].
  eapply parses_lift.
  { unfold Signature_from_suite_bytes. rewrite Hlen, Nat.eqb_refl. done. }
  apply parses_ret.
Qed.

Lemma parses_kind e :
  kind_wf (ev_kind e) -> parses (decode_kind (ev_tag e)) (encode_kind (ev_kind e)) (ev_kind e).
Proof.
  unfold ev_tag. destruct (ev_kind e) as [est|est d|est|an|se]; cbn [kind_wf encode_kind]; unfold decode_kind;
    eval_tag.
  - intros. eapply parses_bind_nil; [by apply parses_establishment|apply parses_ret].
  - intros [He Hd]. pose proof Hd as (_ & _ & x & Hx).
    eapply parses_bind; [by apply parses_establishment|].
    eapply parses_bind_nil; [by apply parses_did|].
    eapply parses_lift; [exact Hx|apply parses_ret].
  - intros. eapply parses_bind_nil; [by apply parses_establishment|apply parses_ret].
  - intros [Hl Ha]. eapply parses_bind_nil; [|apply parses_ret].
    apply (parses_list _ _ _ w_bytes); [done..|].
    eapply Forall_impl; [exact Ha|]. apply parses_anchor.
  - intros [Hl Ha]. eapply parses_bind_nil; [|apply parses_ret].
    apply parses_list; [done..|]. eapply Forall_impl; [exact Ha|]. apply parses_seal.
Qed.

Lemma parses_event e : event_wf e -> parses decode_event (full_bytes e) e.
Proof.
  intros (Hs & Hu & Hsn & Hp & Hk & Hl & Hsg).
  unfold decode_event, full_bytes, encode_event.
  eapply parses_bind; [apply parses_u8|]. eapply parses_bind; [apply parses_u8|].
  eapply parses_lift; [by rewrite suite_from_tag_tag|].
  eapply parses_bind; [by apply parses_rd_string|].
  eapply parses_bind; [by apply parses_u64|].
  eapply parses_bind; [by apply parses_rd_bytes|].
  eapply parses_bind; [by apply parses_kind|].
  eapply parses_bind_nil.
  { apply parses_list; [done..|]. eapply Forall_impl; [exact Hsg|]. apply parses_sig. }
  destruct e. apply parses_ret.
Qed.


(** ** Only canonical bytes decode *)
#[global] Instance canonical_u8 : Canonical rd_u8 w_u8.
Proof. intros r a r' _. apply r_u8_consumes. Qed.
#[global] Instance canonical_u32 : Canonical rd_u32 w_u32.
Proof. intros r a r' Hok Hr. by apply r_u32_consumes in Hr as [? _]. Qed.
#[global] Instance canonical_u64 : Canonical rd_u64 w_u64.
Proof. intros r a r' Hok Hr. by apply r_u64_consumes in Hr as [? _]. Qed.
#[global] Instance canonical_bytes f max : Canonical (rd_bytes f max) w_bytes.
Proof. intros r a r' Hok Hr. by apply bytes_limited_consumes in Hr as [? _]. Qed.
#[global] Instance canonical_string f max : Canonical (rd_string f max) w_bytes.
Proof.
  intros r a r' Hok Hr. unfold rd_string, utf8 in Hr. parse_inv.
  case_match; simplify_eq. by eapply canonical_bytes.
Qed.

#[global] Instance canonical_list {A} max f (p : parser IdentityError A) enc :
  Canonical p enc ->
  Canonical (decode_list max f p)
    (fun l => w_u32 (Z.of_nat (length l)) ++ concat (map enc l)).
Proof.
  intros Hp r a r' Hok Hr. unfold decode_list, checked_count in Hr. parse_inv.
  case_match; simplify_eq. pose proof (canonical_u32 _ _ _ Hok Hp0) as Hc.
  pose proof (consumes_bytes_ok _ _ _ Hok Hc) as Hok1.
  apply r_u32_consumes in Hp0 as [_ Hu]; [|done].
  apply (r_repeat_consumes _ enc) in Hr as [Hc2 Hl]; [|done..].
  unfold is_u32 in Hu. rewrite Hl, Z2Nat.id by lia. by eapply consumes_trans.
Qed.

Ltac tag_inv := repeat match goal with
  | H : suite_from_tag _ = Ok _ |- _ => apply suite_tag_from_tag in H; subst
  end.

#[global] Instance canonical_key :
  Canonical decode_key (fun k => w_u8 (suite_tag (vk_suite k)) ++ w_bytes (vk_bytes k)).
Proof.
  intros r a r' Hok Hr. unfold decode_key, VerifyingKey_from_suite_bytes in Hr. parse_inv.
  ok_inv. tag_inv. canon_chain.
Qed.

#[global] Instance canonical_next : Canonical decode_next w_bytes.
Proof. intros r a r' Hok Hr. unfold decode_next in Hr. parse_inv. canon_chain. Qed.

#[global] Instance canonical_anchor : Canonical decode_anchor w_bytes.
Proof. intros r a r' Hok Hr. unfold decode_anchor in Hr. parse_inv. canon_chain. Qed.

#[global] Instance canonical_sig : Canonical decode_sig encode_sig.
Proof.
  intros r a r' Hok Hr. unfold decode_sig, Signature_from_suite_bytes in Hr. parse_inv.
  ok_inv. tag_inv. unfold encode_sig. cbn [is_index is_signature sig_suite sig_bytes].
  canon_chain.
Qed.

#[global] Instance canonical_seal : Canonical decode_seal encode_seal.
Proof.
  intros r a r' Hok Hr. unfold decode_seal, cap_from_bits in Hr. parse_inv.
  case_match; [|case_match]; bool_prop; parse_inv; ok_inv; unfold encode_seal;
    cbn [cap_bits]; canon_chain.
Qed.


#[global] Instance canonical_establishment : Canonical decode_establishment encode_establishment.
Proof.
  intros r a r' Hok Hr. unfold decode_establishment in Hr. parse_inv.
  unfold encode_establishment. cbn [est_keys est_threshold est_next est_next_threshold
    est_witnesses est_witness_threshold].
  rewrite !(assoc_L (++) (w_u32 (Z.of_nat _))).
  destruct a4; parse_inv; rewrite ?app_nil_r; canon_chain.
Qed.

Lemma canonical_kind tag r k r' :
  bytes_ok (rbuf r) -> decode_kind tag r = Ok (k, r') ->
  consumes r r' (encode_kind k) /\
  forall su sc sn pr sg, ev_tag (mkEvent su sc sn pr k sg) = tag.
Proof.
  intros Hok Hr. unfold decode_kind in Hr.
  repeat (case_match; bool_prop); parse_inv; try done;
    (split; [cbn [encode_kind]; canon_chain|by subst]).
Qed.

#[global] Instance canonical_event : Canonical decode_event full_bytes.
Proof.
  intros r a r' Hok Hr. unfold decode_event in Hr. parse_inv. ok_inv. tag_inv.
  repeat canon_step.
  match goal with H : decode_kind _ _ = Ok _ |- _ =>
    apply canonical_kind in H as [? Htag]; [|done] end.
  match goal with H : consumes ?r ?r1 (encode_kind _), Hok : bytes_ok (rbuf ?r) |- _ =>
    pose proof (consumes_bytes_ok _ _ _ Hok H) end.
  unfold full_bytes, encode_event.
  cbn [ev_suite ev_scid ev_sn ev_prior ev_kind ev_signatures]. rewrite Htag. canon_chain.
Qed.

Lemma Did_parse_str s d : Did_parse s = Ok d -> did_str d = s.
Proof. unfold Did_parse. intros H. ok_inv. done. Qed.
End Identity.
