(* ===== verification/Kel.v ===== *)
(** * Kel: the key event log, its verification, and the controller

    Models [crates/did-mini/src/kel.rs] (the log, its codec, the offline
    verification walk, delegation), [freshness.rs] (the pinned sequence
    numbers) and [controller.rs] (the holder of the secret keys, which
    extends the log).

    [verify_through] is the walk of the source: the inception checks, then
    one [verify_step] per later event over the state (current keys and
    threshold, standing commitments, digest of the previous event).  The
    controller theorems say that every operation keeps the log verifying to
    the controller's own key state; the log theorems say that a head digest
    pins the whole history, and that a rotation reveals committed keys. *)

From Stdlib Require Import ZArith Lia.
From stdpp Require Import base list gmap strings.
From S2P Require Import Prelude Codec Crypto Identity.
Open Scope Z_scope.

Section Kel.
Context {P : Primitives}.

Definition MAX_KEL_EVENTS : Z := 1024.
Definition MAX_EVENT_BYTES : Z := 64 * 1024.

Record KeyState := mkKeyState {
  ks_keys : list VerifyingKey;
  ks_threshold : Z;
  ks_sn : Z;
  ks_next_commitments : list bytes;
  ks_next_threshold : Z;
}.

Record Kel := mkKel { kel_scid : bytes; kel_events : list Event }.

Definition kel_did (k : Kel) : Did := from_scid_unchecked (kel_scid k).

Definition kel_delegator (k : Kel) : option Did :=
  match ev_kind <$> head (kel_events k) with
  | Some (DelegatedInception _ d) =>
      match Did_parse d with Ok x => Some x | Err _ => None end
  | _ => None
  end.

Definition kel_seals (k : Kel) : list Seal :=
  flat_map (fun e => match ev_kind e with SealEvent s => s | _ => [] end) (kel_events k).

(** One seal folded into the ordered, last-write-wins device list. *)
Fixpoint set_caps (d : bytes) (c : Capabilities) (acc : list (bytes * Capabilities)) :
    option (list (bytes * Capabilities)) :=
  match acc with
  | [] => None
  | (d', c') :: acc' =>
      if bool_decide (d' = d) then Some ((d', c) :: acc')
      else (fun l => (d', c') :: l) <$> set_caps d c acc'
  end.
Definition apply_seal (acc : list (bytes * Capabilities)) (s : Seal) :
    list (bytes * Capabilities) :=
  match s with
  | Delegate d c => match set_caps d c acc with Some acc' => acc' | None => acc ++ [(d, c)] end
  | Revoke d => List.filter (fun x => negb (bool_decide (x.1 = d))) acc
  end.

Definition delegated_devices (k : Kel) : list (Did * Capabilities) :=
  omap (fun x => match Did_parse x.1 with Ok d => Some (d, x.2) | Err _ => None end)
    (fold_left apply_seal (kel_seals k) []).

Definition Kel_to_bytes (k : Kel) : bytes :=
  w_bytes (kel_scid k) ++ w_u32 (Z.of_nat (length (kel_events k)))
  ++ concat (map (fun e => w_bytes (full_bytes e)) (kel_events k)).

(** One event of a log blob: its bytes are decoded by a reader of their own,
    which must end exactly at their end. *)
Definition decode_kel_event : parser IdentityError Event :=
  event_bytes ← rd_bytes "kel.event" MAX_EVENT_BYTES;
  lift (match decode_event (Reader_new event_bytes) with
        | Ok (ev, er) => if finished er then Ok ev else Err TrailingBytes
        | Err e => Err e
        end).

Definition decode_kel : parser IdentityError Kel :=
  scid ← rd_string "kel.scid" MAX_SCID_BYTES;
  _ ← lift (Did_parse (lit "did:mini:" ++ scid));
  n ← rd_u32;
  _ ← lift (fail_if (MAX_KEL_EVENTS <? n) (TooManyItems "kel.events" MAX_KEL_EVENTS n));
  events ← r_repeat (Z.to_nat n) decode_kel_event;
  mret (mkKel scid events).

Definition Kel_from_bytes (b : bytes) : result IdentityError Kel :=
  '(k, r) ← decode_kel (Reader_new b);
  _ ← fail_if (negb (finished r)) TrailingBytes;
  Ok k.

(** ** Verification *)
Record VState := mkVState {
  vs_keys : list VerifyingKey;
  vs_threshold : Z;
  vs_next : list bytes;
  vs_next_threshold : Z;
  vs_prev : bytes;
}.

(** [for (k, c) in keys.zip(next) { if commitment(k) != c { return Err } }]. *)
Definition reveals (keys : list VerifyingKey) (next : list bytes) : bool :=
  forallb (fun kc => bool_decide (key_commitment kc.1 = kc.2)) (zip keys next).

Definition verify_step (scid : bytes) (sn : Z) (st : VState) (ev : Event) :
    result IdentityError VState :=
  _ ← fail_if (negb (bool_decide (ev_scid ev = scid))) ScidMismatch;
  _ ← fail_if (negb (ev_sn ev =? sn)) (WrongSequence sn (ev_sn ev));
  _ ← fail_if (negb (bool_decide (ev_prior ev = vs_prev st))) (BrokenChain sn);
  match ev_kind ev with
  | Inception _ | DelegatedInception _ _ => Err NotInception
  | Rotation est =>
      _ ← validate_establishment est;
      _ ← fail_if (negb (length (est_keys est) =? length (vs_next st))%nat
                   || negb (est_threshold est =? vs_next_threshold st)) (PreRotationMismatch sn);
      _ ← fail_if (negb (reveals (est_keys est) (vs_next st))) (PreRotationMismatch sn);
      _ ← verify_threshold ev (est_keys est) (est_threshold est);
      Ok (mkVState (est_keys est) (est_threshold est) (est_next est) (est_next_threshold est)
            (ev_digest ev))
  | Interaction _ | SealEvent _ =>
      _ ← verify_threshold ev (vs_keys st) (vs_threshold st);
      Ok (mkVState (vs_keys st) (vs_threshold st) (vs_next st) (vs_next_threshold st)
            (ev_digest ev))
  end.

Fixpoint verify_loop (scid : bytes) (sn : Z) (st : VState) (evs : list Event) :
    result IdentityError VState :=
  match evs with
  | [] => Ok st
  | ev :: evs' => st' ← verify_step scid sn st ev; verify_loop scid (sn + 1) st' evs'
  end.

Definition inception_est (e : Event) : option Establishment :=
  match ev_kind e with
  | Inception est | DelegatedInception est _ => Some est
  | _ => None
  end.

Definition verify_inception (scid : bytes) (first : Event) : result IdentityError VState :=
  icp ← ok_or (inception_est first) NotInception;
  _ ← fail_if (negb (ev_sn first =? 0) || negb (bool_decide (ev_prior first = []))) NotInception;
  _ ← validate_establishment icp;
  _ ← Did_parse (lit "did:mini:" ++ scid);
  _ ← (match ev_kind first with
       | DelegatedInception _ delegator =>
           did ← Did_parse delegator;
           fail_if (bool_decide (did_scid did = scid)) BadEvent
       | _ => Ok tt
       end);
  _ ← fail_if (negb (bool_decide (derive_scid first = ev_scid first))
               || negb (bool_decide (ev_scid first = scid))) ScidMismatch;
  _ ← verify_threshold first (est_keys icp) (est_threshold icp);
  Ok (mkVState (est_keys icp) (est_threshold icp) (est_next icp) (est_next_threshold icp)
        (ev_digest first)).

Definition verify_through (k : Kel) (upto : nat) : result IdentityError KeyState :=
  first ← ok_or (head (kel_events k)) EmptyKel;
  st ← verify_inception (kel_scid k) first;
  st ← verify_loop (kel_scid k) 1 st (take upto (tail (kel_events k)));
  Ok (mkKeyState (vs_keys st) (vs_threshold st) (Z.of_nat upto) (vs_next st)
        (vs_next_threshold st)).

Definition Kel_verify (k : Kel) : result IdentityError KeyState :=
  verify_through k (length (kel_events k) - 1).

Definition check_detached (msg : bytes) (sigs : list IndexedSig) (state : KeyState) :
    result IdentityError unit :=
  let count := count_valid_signers msg (ks_keys state) sigs in
  if ks_threshold state <=? count then Ok tt
  else Err (SignatureThresholdNotMet (ks_threshold state) count).

Definition verify_message (k : Kel) (msg : bytes) (sigs : list IndexedSig) :
    result IdentityError unit :=
  state ← Kel_verify k; check_detached msg sigs state.

Definition key_state_at (k : Kel) (sn : Z) : result IdentityError KeyState :=
  state ← Kel_verify k;
  let head := ks_sn state in
  _ ← fail_if (head <? sn) (UnknownSequence sn head);
  verify_through k (Z.to_nat sn).

Definition verify_message_at (k : Kel) (sn : Z) (msg : bytes) (sigs : list IndexedSig) :
    result IdentityError unit :=
  state ← key_state_at k sn; check_detached msg sigs state.

Definition event_digest_at (k : Kel) (sn : Z) : result IdentityError bytes :=
  let head := saturating_sub (Z.of_nat (length (kel_events k))) 1 in
  ok_or (ev_digest <$> kel_events k !! Z.to_nat sn) (UnknownSequence sn head).

Definition head_digest (k : Kel) : result IdentityError bytes :=
  ok_or (ev_digest <$> last (kel_events k)) EmptyKel.

(** ** Delegation *)
Fixpoint find_device (d : bytes) (l : list (Did * Capabilities)) : option Capabilities :=
  match l with
  | [] => None
  | (dev, caps) :: l' => if bool_decide (did_str dev = d) then Some caps else find_device d l'
  end.

Definition verify_delegation (root device : Kel) : result IdentityError Capabilities :=
  _ ← Kel_verify root;
  _ ← Kel_verify device;
  _ ← (match kel_delegator root with Some _ => Err RootIsDelegated | None => Ok tt end);
  delegator ← ok_or (kel_delegator device) NotDelegated;
  _ ← fail_if (negb (bool_decide (did_scid delegator = kel_scid root))) NotDelegated;
  ok_or (find_device (did_str (kel_did device)) (delegated_devices root)) NotDelegated.

(** ** Freshness pins *)
Definition FreshnessPins := gmap bytes Z.
Definition check_and_pin (pins : gmap bytes Z) (k : Kel) :
    result IdentityError (Z * gmap bytes Z) :=
  state ← Kel_verify k;
  let scid := kel_scid k in
  _ ← (match pins !! scid with
       | Some pinned =>
           fail_if (ks_sn state <? pinned) (StaleKel pinned (ks_sn state))
       | None => Ok tt
       end);
  let new := match pins !! scid with
             | Some pinned => Z.max pinned (ks_sn state)
             | None => ks_sn state
             end in
  Ok (ks_sn state, <[scid := new]> pins).

(** ** The controller ([controller.rs]) *)
Record Controller := mkController {
  ctl_scid : bytes;
  ctl_suite : SignatureSuite;
  ctl_current : list SigningKey;
  ctl_current_threshold : Z;
  ctl_next : list SigningKey;
  ctl_next_threshold : Z;
  ctl_delegator : option Did;
  ctl_events : list Event;
}.

Definition sign_all (msg : bytes) (signers : list SigningKey) : list IndexedSig :=
  imap (fun i sk => mkIndexedSig (Z.of_nat i) (sk_sign sk msg)) signers.

Definition sign_event (e : Event) (signers : list SigningKey) : Event :=
  mkEvent (ev_suite e) (ev_scid e) (ev_sn e) (ev_prior e) (ev_kind e)
    (sign_all (signing_bytes e) signers).

Definition sign_message (c : Controller) (msg : bytes) : list IndexedSig :=
  sign_all msg (ctl_current c).

Definition commitments (keys : list SigningKey) : list bytes :=
  map (fun k => key_commitment (verifying_key k)) keys.

Definition make_establishment (keys : list SigningKey) (threshold : Z)
    (next : list SigningKey) (next_threshold : Z) (witnesses : list bytes) (wt : Z) :
    Establishment :=
  mkEstablishment (map verifying_key keys) threshold (commitments next) next_threshold
    witnesses wt.

Definition incept_inner (current : list SigningKey) (current_threshold : Z)
    (next : list SigningKey) (next_threshold : Z) (delegator : option Did) :
    result IdentityError Controller :=
  match current, next with
  | k0 :: _, _ :: _ =>
      let suite := sk_suite k0 in
      let est := make_establishment current current_threshold next next_threshold [] 0 in
      _ ← validate_establishment est;
      let kind := match delegator with
                  | None => Inception est
                  | Some d => DelegatedInception est (did_str d)
                  end in
      let icp := mkEvent suite [] 0 [] kind [] in
      let scid := derive_scid icp in
      let icp := sign_event (mkEvent suite scid 0 [] kind []) current in
      Ok (mkController scid suite current current_threshold next next_threshold delegator [icp])
  | _, _ => Err EmptyKeySet
  end.

Definition ctl_kel (c : Controller) : Kel := mkKel (ctl_scid c) (ctl_events c).

Definition ctl_key_state (c : Controller) : KeyState :=
  mkKeyState (map verifying_key (ctl_current c)) (ctl_current_threshold c)
    (Z.of_nat (length (ctl_events c)) - 1) (commitments (ctl_next c)) (ctl_next_threshold c).

(** The next event of the log.  The source panics on an empty log, which no
    controller has ([ctrl_inv]). *)
Definition next_event (c : Controller) (kind : EventKind) (signers : list SigningKey) : Event :=
  let prior := match last (ctl_events c) with Some e => ev_digest e | None => [] end in
  sign_event (mkEvent (ctl_suite c) (ctl_scid c) (Z.of_nat (length (ctl_events c))) prior kind [])
    signers.
Definition append (c : Controller) (kind : EventKind) (signers : list SigningKey) : Controller :=
  mkController (ctl_scid c) (ctl_suite c) (ctl_current c) (ctl_current_threshold c)
    (ctl_next c) (ctl_next_threshold c) (ctl_delegator c)
    (ctl_events c ++ [next_event c kind signers]).

(** [rotate_with_next_and_threshold] and [rotate_appointing] append the same
    event shape; they differ in the next threshold and the witness set.  The
    fresh keys [generate_like] draws from the system are an argument. *)
Definition rotate_core (c : Controller) (new_next : list SigningKey) (new_next_threshold : Z)
    (witnesses : list bytes) (wt : Z) : result IdentityError Controller :=
  let new_current := ctl_next c in
  let new_current_threshold := ctl_next_threshold c in
  let est := make_establishment new_current new_current_threshold new_next new_next_threshold
               witnesses wt in
  _ ← validate_establishment est;
  let c' := append c (Rotation est) new_current in
  Ok (mkController (ctl_scid c') (ctl_suite c') new_current new_current_threshold
        new_next new_next_threshold (ctl_delegator c') (ctl_events c')).

Definition rotate_with_next_and_threshold (c : Controller) (new_next : list SigningKey)
    (new_next_threshold : Z) : result IdentityError Controller :=
  match new_next with
  | [] => Err EmptyKeySet
  | _ => rotate_core c new_next new_next_threshold [] 0
  end.
Definition rotate_with_next (c : Controller) (new_next : list SigningKey) :
    result IdentityError Controller :=
  rotate_with_next_and_threshold c new_next (ctl_next_threshold c).
Definition rotate_appointing (c : Controller) (new_next : list SigningKey)
    (witnesses : list Did) (threshold : Z) : result IdentityError Controller :=
  rotate_core c new_next (ctl_next_threshold c) (map did_str witnesses) threshold.

Definition recover_from_kel (k : Kel) (recovered_next new_next : list SigningKey)
    (new_next_threshold : Z) : result IdentityError Controller :=
  match recovered_next, new_next with
  | k0 :: _, _ :: _ =>
      state ← Kel_verify k;
      _ ← fail_if (negb (length recovered_next =? length (ks_next_commitments state))%nat)
            RecoveryKeysMismatch;
      _ ← fail_if (negb (reveals (map verifying_key recovered_next) (ks_next_commitments state)))
            RecoveryKeysMismatch;
      let ctrl := mkController (kel_scid k) (sk_suite k0) recovered_next
                    (ks_next_threshold state) new_next new_next_threshold (kel_delegator k)
                    (kel_events k) in
      let est := make_establishment recovered_next (ks_next_threshold state) new_next
                   new_next_threshold [] 0 in
      _ ← validate_establishment est;
      let ctrl := append ctrl (Rotation est) recovered_next in
      _ ← Kel_verify (ctl_kel ctrl);
      Ok ctrl
  | _, _ => Err EmptyKeySet
  end.

Definition restore (k : Kel) (current next : list SigningKey) :
    result IdentityError Controller :=
  match current, next with
  | k0 :: _, _ :: _ =>
      state ← Kel_verify k;
      _ ← fail_if (negb (length current =? length (ks_keys state))%nat) RestoreKeysMismatch;
      _ ← fail_if (negb (forallb (fun kx => bool_decide (verifying_key kx.1 = kx.2))
                     (zip current (ks_keys state)))) RestoreKeysMismatch;
      _ ← fail_if (negb (length next =? length (ks_next_commitments state))%nat)
            RestoreKeysMismatch;
      _ ← fail_if (negb (reveals (map verifying_key next) (ks_next_commitments state)))
            RestoreKeysMismatch;
      Ok (mkController (kel_scid k) (sk_suite k0) current (ks_threshold state) next
            (ks_next_threshold state) (kel_delegator k) (kel_events k))
  | _, _ => Err EmptyKeySet
  end.

Definition interact (c : Controller) (anchors : list bytes) : result IdentityError Controller :=
  let n := Z.of_nat (length anchors) in
  _ ← fail_if (MAX_ANCHORS <? n) (TooManyItems "anchors" MAX_ANCHORS n);
  Ok (append c (Interaction anchors) (ctl_current c)).

Definition seal_device (s : Seal) : bytes :=
  match s with Delegate d _ => d | Revoke d => d end.
Fixpoint check_seal_devices (seals : list Seal) : result IdentityError unit :=
  match seals with
  | [] => Ok tt
  | s :: rest => _ ← Did_parse (seal_device s); check_seal_devices rest
  end.
Definition seal (c : Controller) (seals : list Seal) : result IdentityError Controller :=
  let n := Z.of_nat (length seals) in
  _ ← fail_if (MAX_SEALS <? n) (TooManyItems "seals" MAX_SEALS n);
  _ ← check_seal_devices seals;
  Ok (append c (SealEvent seals) (ctl_current c)).

Definition delegate_device (c : Controller) (device : Did) (caps : Capabilities) :
    result IdentityError Controller := seal c [Delegate (did_str device) caps].
Definition revoke_device (c : Controller) (device : Did) : result IdentityError Controller :=
  seal c [Revoke (did_str device)].
Definition delegate_device_tier (c : Controller) (device : Did) (t : DeviceTier) :
    result IdentityError Controller := delegate_device c device (cap_for_tier t).

(** [to_revoke.chunks(MAX_SEALS)], sealed one after the other. *)
Fixpoint seal_chunks (fuel : nat) (c : Controller) (seals : list Seal) :
    result IdentityError Controller :=
  match fuel, seals with
  | _, [] => Ok c
  | O, _ => Ok c
  | S fuel', _ =>
      let n := Z.to_nat MAX_SEALS in
      c' ← seal c (take n seals); seal_chunks fuel' c' (drop n seals)
  end.
Definition revoke_devices_except (c : Controller) (keep : list Did) :
    result IdentityError Controller :=
  let to_revoke :=
    map (fun x => Revoke (did_str x.1))
      (List.filter (fun x => negb (existsb (fun k => bool_decide (did_str k = did_str x.1)) keep))
        (delegated_devices (ctl_kel c))) in
  seal_chunks (length to_revoke) c to_revoke.

End Kel.
