(* ===== verification/KelFacts.v ===== *)
(** * KelFacts: what a verified log guarantees

    The theorems about [Kel]: threshold counting on honestly signed events,
    the controller invariant and its preservation, the log pinned by its
    head digest, pre-rotation, delegation and revocation, freshness. *)

From Stdlib Require Import ZArith Lia.
From stdpp Require Import base list gmap strings.
From S2P Require Import Prelude Codec Crypto Identity Kel.
Open Scope Z_scope.

Section KelFacts.
Context {P : Primitives}.

(** ** Duplicate scans *)
Lemma dup_scan_false seen l :
  dup_scan seen l = false <-> NoDup l /\ (forall x, x ∈ l -> x ∉ seen).
Proof.
  revert seen. induction l as [|x l IH]; intros seen; simpl.
  - split; [|done]. intros _. split; [constructor|]. intros x Hx. by apply elem_of_nil in Hx.
  - case_bool_decide as Hx.
    + split; [done|]. intros [_ Hn]. exfalso. apply (Hn x); [left|done].
    + rewrite IH, NoDup_cons. split.
      * intros [Hnd Hl]. repeat split; [|done|].
        { intros Hxl. apply (Hl x Hxl). apply elem_of_app. right. by apply list_elem_of_singleton. }
        { intros y Hy. apply elem_of_cons in Hy as [->|Hy]; [done|].
          intros Hs. apply (Hl y Hy). apply elem_of_app. by left. }
      * intros [[Hxl Hnd] Hl]. split; [done|]. intros y Hy Hs.
        apply elem_of_app in Hs as [Hs|Hs].
        { apply (Hl y); [by right|done]. }
        { apply list_elem_of_singleton in Hs as ->. done. }
Qed.

Lemma validate_establishment_keys est :
  validate_establishment est = Ok tt ->
  NoDup (map key_fingerprint (est_keys est)) /\
  est_threshold est <> 0 /\ est_threshold est <= Z.of_nat (length (est_keys est)).
Proof.
  unfold validate_establishment. intros H.
  ok_inv; bool_prop;
    (match goal with H : dup_scan [] (map _ _) = false |- _ =>
       apply dup_scan_false in H as [? _] end; repeat split; try done; lia).
Qed.

(** ** The verification walk, event by event *)
Lemma verify_loop_app scid sn st a b :
  verify_loop scid sn st (a ++ b) =
  (st' ← verify_loop scid sn st a; verify_loop scid (sn + Z.of_nat (length a)) st' b).
Proof.
  revert sn st. induction a as [|e a IH]; intros sn st; simpl.
  - by rewrite Z.add_0_r.
  - destruct (verify_step scid sn st e) as [st'|]; simpl; [|done].
    rewrite IH. destruct (verify_loop scid (sn + 1) st' a); simpl; [|done].
    f_equal. lia.
Qed.

Lemma verify_step_prev scid sn st ev st' :
  verify_step scid sn st ev = Ok st' -> vs_prev st' = ev_digest ev.
Proof. unfold verify_step. intros H. ok_inv; done. Qed.

Lemma verify_loop_prev scid sn st evs st' :
  verify_loop scid sn st evs = Ok st' ->
  vs_prev st' = match last evs with Some e => ev_digest e | None => vs_prev st end.
Proof.
  revert sn st. induction evs as [|e evs IH]; intros sn st H; simpl in H; ok_inv; [done|].
  rewrite (IH _ _ H), last_cons. destruct (last evs); [done|].
  by eapply verify_step_prev.
Qed.

Lemma verify_inception_prev scid first st :
  verify_inception scid first = Ok st -> vs_prev st = ev_digest first.
Proof. unfold verify_inception. intros H. ok_inv; done. Qed.

(** The shape of a verified log: an inception, then a walk over the rest. *)
Definition verified (k : Kel) (first : Event) (rest : list Event) (st : VState) : Prop :=
  kel_events k = first :: rest /\
  exists st0, verify_inception (kel_scid k) first = Ok st0 /\
              verify_loop (kel_scid k) 1 st0 rest = Ok st.

Definition state_of (st : VState) (sn : Z) : KeyState :=
  mkKeyState (vs_keys st) (vs_threshold st) sn (vs_next st) (vs_next_threshold st).

Lemma Kel_verify_iff k ks :
  Kel_verify k = Ok ks <->
  exists first rest st, verified k first rest st /\ ks = state_of st (Z.of_nat (length rest)).
Proof.
  unfold Kel_verify, verify_through, verified. destruct (kel_events k) as [|first rest]; simpl.
  - split; [done|]. intros (? & ? & ? & [? _] & _). done.
  - rewrite Nat.sub_0_r, take_ge by lia. split.
    + intros H. ok_inv. exists first, rest, x0. eauto.
    + intros (f & r & st & [[= <- <-] (st0 & -> & H)] & ->). simpl. rewrite H. done.
Qed.

Lemma verified_prev k first rest st :
  verified k first rest st -> Some (vs_prev st) = ev_digest <$> last (kel_events k).
Proof.
  intros (-> & st0 & Hi & Hl). rewrite (verify_loop_prev _ _ _ _ _ Hl), last_cons.
  destruct (last rest); simpl; [done|]. by rewrite (verify_inception_prev _ _ _ Hi).
Qed.

Lemma verified_snoc scid evs first rest st ev st' :
  verified (mkKel scid evs) first rest st ->
  verify_step scid (Z.of_nat (length evs)) st ev = Ok st' ->
  verified (mkKel scid (evs ++ [ev])) first (rest ++ [ev]) st'.
Proof.
  intros (E & st0 & Hi & Hl) Hs. simpl in *. subst evs. split; [done|].
  exists st0. split; [done|]. simpl. rewrite verify_loop_app, Hl. simpl.
  simpl length in Hs. rewrite Nat2Z.inj_succ in Hs. replace (1 + _) with (Z.succ (Z.of_nat (length rest))) by lia.
  by rewrite Hs.
Qed.

(** ** Honest signatures reach every threshold *)
Section Honest.
Context {L : PrimitivesLaws}.

Lemma count_signed_loop msg (done_ rest : list SigningKey) :
  NoDup (map (fun k => key_fingerprint (verifying_key k)) (done_ ++ rest)) ->
  count_signers_loop msg (map verifying_key (done_ ++ rest))
    (map Z.of_nat (seq 0 (length done_)))
    (map (fun k => key_fingerprint (verifying_key k)) done_) (Z.of_nat (length done_))
    (imap (fun i sk => mkIndexedSig (Z.of_nat (length done_ + i)) (sk_sign sk msg)) rest) =
  Z.of_nat (length (done_ ++ rest)).
Proof.
  revert done_. induction rest as [|k rest IH]; intros done_ Hnd; [by rewrite app_nil_r|].
  rewrite imap_cons. cbn [count_signers_loop is_index is_signature].
  rewrite Nat.add_0_r, Nat2Z.id.
  rewrite map_app, lookup_app_r by (by rewrite length_map). rewrite length_map, Nat.sub_diag.
  cbn [map]. simpl lookup.
  rewrite bool_decide_eq_false_2.
  2:{ rewrite list_elem_of_In, in_map_iff. intros (j & Hj & Hin). apply in_seq in Hin. lia. }
  rewrite bool_decide_eq_false_2.
  2:{ rewrite map_app in Hnd. apply NoDup_app in Hnd as (_ & Hd & _). intros Hin.
      apply (Hd _ Hin). left. }
  simpl orb. cbn iota. rewrite sign_verifies. cbn [is_ok].
  specialize (IH (done_ ++ [k])).
  rewrite <- !(assoc_L (++)), !length_app, !map_app in IH. simpl length in IH.
  rewrite seq_app, map_app in IH. simpl in IH.
  replace (Z.of_nat (length done_) + 1) with (Z.of_nat (length done_ + 1)) by lia.
  rewrite ?length_app, ?map_app. simpl. etrans; [|apply IH].
  - f_equal. apply imap_ext. intros i x _. simpl. do 2 f_equal. lia.
  - by rewrite map_app in Hnd.
Qed.

Lemma count_signed msg keys :
  NoDup (map key_fingerprint (map verifying_key keys)) ->
  count_valid_signers msg (map verifying_key keys) (sign_all msg keys) =
  Z.of_nat (length keys).
Proof.
  intros Hnd. rewrite map_map in Hnd. apply (count_signed_loop msg [] keys Hnd).
Qed.

Lemma verify_threshold_signed e keys t :
  NoDup (map key_fingerprint (map verifying_key keys)) ->
  t <> 0 -> t <= Z.of_nat (length keys) ->
  verify_threshold (sign_event e keys) (map verifying_key keys) t = Ok tt.
Proof.
  intros Hnd Ht Hle. unfold verify_threshold.
  change (signing_bytes (sign_event e keys)) with (signing_bytes e).
  change (ev_signatures (sign_event e keys)) with (sign_all (signing_bytes e) keys).
  rewrite count_signed by done.
  destruct (Z.eqb_spec t 0); [done|]. simpl.
  destruct (Z.leb_spec t (Z.of_nat (length keys))); [done|lia].
Qed.

(** ** The derived identifier is a valid one *)
Lemma derive_scid_eq e :
  derive_scid e = BASE58BTC ::
    bs58_encode (Multihash_to_bytes (Multihash_of Blake3 (encode_event e ScidInput))).
Proof. done. Qed.

Lemma validate_derived_scid e : validate_scid (derive_scid e) = Ok tt.
Proof.
  unfold validate_scid. rewrite derive_scid_eq. unfold multibase_decode. simpl.
  rewrite drop_0, bs58_round_trip by apply Multihash_blake3_ok.
  simpl. rewrite Multihash_round_trip; [done|].
  apply blake3_length.
Qed.

Lemma strip_prefix_app p s : strip_prefix p (p ++ s) = Some s.
Proof.
  unfold strip_prefix. rewrite bool_decide_eq_true_2 by apply take_app_length.
  by rewrite drop_app_length.
Qed.

Lemma parse_method scid :
  scid <> [] -> validate_scid scid = Ok tt -> Did_parse (METHOD ++ scid) = Ok (mkDid (METHOD ++ scid)).
Proof.
  intros Hne Hv. unfold Did_parse. rewrite strip_prefix_app.
  destruct scid; [done|]. by rewrite Hv.
Qed.

(** ** The controller's invariant

    The controller's log verifies, and to exactly the key state the
    controller itself reports; its current keys can reach their threshold. *)
Definition ctrl_inv (c : Controller) : Prop :=
  Kel_verify (ctl_kel c) = Ok (ctl_key_state c) /\
  NoDup (map key_fingerprint (map verifying_key (ctl_current c))) /\
  ctl_current_threshold c <> 0 /\
  ctl_current_threshold c <= Z.of_nat (length (ctl_current c)).

Lemma ctrl_inv_verified c :
  ctrl_inv c ->
  exists first rest st, verified (ctl_kel c) first rest st /\
    ctl_key_state c = state_of st (Z.of_nat (length rest)).
Proof. intros [Hv _]. by apply Kel_verify_iff. Qed.

Lemma reveals_commitments keys : reveals (map verifying_key keys) (commitments keys) = true.
Proof.
  unfold reveals, commitments. rewrite forallb_forall. intros [k c].
  induction keys as [|k0 keys IH]; simpl; [done|]. intros [[= <- <-]|Hin]; [|auto].
  by apply bool_decide_eq_true_2.
Qed.

Lemma reveals_inv keys next :
  length keys = length next -> reveals (map verifying_key keys) next = true ->
  next = commitments keys.
Proof.
  unfold reveals, commitments. revert next.
  induction keys as [|a keys IH]; intros [|b l] Hl Hr; simpl in *; try done.
  bool_prop. f_equal; [done|]. apply IH; [lia|done].
Qed.

(** Appending a correctly signed event is one verification step. *)
Lemma append_step c kind signers first rest st st' :
  verified (ctl_kel c) first rest st ->
  verify_step (ctl_scid c) (Z.of_nat (length (ctl_events c))) st (next_event c kind signers) = Ok st' ->
  Kel_verify (ctl_kel (append c kind signers)) =
    Ok (state_of st' (Z.of_nat (length (ctl_events c)))).
Proof.
  intros Hv Hs. apply Kel_verify_iff. exists first, (rest ++ [next_event c kind signers]), st'.
  split; [by eapply verified_snoc|]. f_equal.
  destruct Hv as (E & _). simpl in E. rewrite E, length_app. simpl. lia.
Qed.

(** The header checks of [verify_step] pass for the event [append] builds. *)
Lemma next_event_header c kind signers first rest st :
  verified (ctl_kel c) first rest st ->
  let ev := next_event c kind signers in
  ev_scid ev = ctl_scid c /\ ev_sn ev = Z.of_nat (length (ctl_events c)) /\
  ev_prior ev = vs_prev st /\ ev_kind ev = kind.
Proof.
  intros Hv. pose proof (verified_prev _ _ _ _ Hv) as Hp. simpl in Hp. simpl.
  unfold next_event, sign_event. simpl. repeat split.
  destruct (last (ctl_events c)); simpl in Hp; congruence.
Qed.

Lemma interaction_step c kind first rest st :
  ctrl_inv c -> verified (ctl_kel c) first rest st ->
  ctl_key_state c = state_of st (Z.of_nat (length rest)) ->
  (forall est d, kind <> Inception est /\ kind <> DelegatedInception est d /\ kind <> Rotation est) ->
  ctrl_inv (append c kind (ctl_current c)).
Proof.
  intros (_ & Hnd & Ht & Hle) Hv Hks Hkind.
  destruct (next_event_header c kind (ctl_current c) _ _ _ Hv) as (H1 & H2 & H3 & H4).
  unfold ctl_key_state, state_of in Hks. injection Hks as Hk1 Hk2 _ Hk3 Hk4.
  split; [|done].
  rewrite (append_step c kind (ctl_current c) first rest st
    (mkVState (vs_keys st) (vs_threshold st) (vs_next st) (vs_next_threshold st)
      (ev_digest (next_event c kind (ctl_current c))))); [|done|].
  - unfold ctl_key_state, state_of. simpl. rewrite length_app. simpl. f_equal. f_equal; try done. lia.
  - unfold verify_step. rewrite H1, H2, H3, H4, Z.eqb_refl, !bool_decide_eq_true_2 by done. simpl.
    assert (verify_threshold (next_event c kind (ctl_current c)) (vs_keys st) (vs_threshold st)
            = Ok tt) as Hth.
    { rewrite <- Hk1, <- Hk2. by apply verify_threshold_signed. }
    destruct kind as [est|est d|est|an|se];
      try (by destruct (Hkind est []) as (? & ? & ?));
      try (by destruct (Hkind est d) as (? & ? & ?)); by rewrite Hth.
Qed.

Lemma rotation_step c signers est first rest st :
  verified (ctl_kel c) first rest st ->
  est_keys est = map verifying_key signers ->
  vs_next st = commitments signers -> vs_next_threshold st = est_threshold est ->
  validate_establishment est = Ok tt ->
  verify_step (ctl_scid c) (Z.of_nat (length (ctl_events c))) st
    (next_event c (Rotation est) signers) =
  Ok (mkVState (est_keys est) (est_threshold est) (est_next est) (est_next_threshold est)
        (ev_digest (next_event c (Rotation est) signers))).
Proof.
  intros Hv Hk Hn Ht Hval.
  destruct (next_event_header c (Rotation est) signers _ _ _ Hv) as (H1 & H2 & H3 & H4).
  unfold verify_step. rewrite H1, H2, H3, H4, Z.eqb_refl, !bool_decide_eq_true_2 by done. simpl.
  rewrite Hval. simpl. destruct (validate_establishment_keys _ Hval) as (Hnd & Ht0 & Htl).
  assert (length (est_keys est) = length (vs_next st)) as ->
    by (rewrite Hk, Hn; unfold commitments; by rewrite !length_map).
  rewrite Hn, Ht, Z.eqb_refl, Hk, Nat.eqb_refl. simpl.
  rewrite reveals_commitments. simpl.
  assert (verify_threshold (next_event c (Rotation est) signers) (map verifying_key signers)
            (est_threshold est) = Ok tt) as ->; [|done].
  apply verify_threshold_signed; [by rewrite <- Hk|done|]. by rewrite Hk, length_map in Htl.
Qed.

Lemma rotate_core_inv c new_next t w wt c' :
  ctrl_inv c -> rotate_core c new_next t w wt = Ok c' -> ctrl_inv c'.
Proof.
  intros Hi H. unfold rotate_core in H. ok_inv.
  destruct (ctrl_inv_verified c Hi) as (first & rest & st & Hv & Hks).
  unfold ctl_key_state, state_of in Hks. injection Hks as Hk1 Hk2 _ Hk3 Hk4. destruct x.
  destruct (validate_establishment_keys _ Hx) as (Hnd & Ht0 & Htl). simpl in Hnd, Ht0, Htl.
  rewrite length_map in Htl.
  split; [|done].
  pose proof (rotation_step c (ctl_next c)
    (make_establishment (ctl_next c) (ctl_next_threshold c) new_next t w wt)
    first rest st Hv eq_refl (eq_sym Hk3) (eq_sym Hk4) Hx) as Hs.
  pose proof (append_step c _ _ _ _ _ _ Hv Hs) as Ha. simpl in Ha. unfold ctl_kel in *. simpl in *.
  rewrite Ha. unfold ctl_key_state, state_of. simpl. rewrite length_app. simpl.
  f_equal. f_equal. lia.
Qed.

Lemma seal_inv c seals c' : ctrl_inv c -> seal c seals = Ok c' -> ctrl_inv c'.
Proof.
  intros Hi H. unfold seal in H. ok_inv.
  destruct (ctrl_inv_verified c Hi) as (first & rest & st & Hv & Hks).
  eapply interaction_step; naive_solver.
Qed.

Lemma interact_inv c anchors c' : ctrl_inv c -> interact c anchors = Ok c' -> ctrl_inv c'.
Proof.
  intros Hi H. unfold interact in H. ok_inv.
  destruct (ctrl_inv_verified c Hi) as (first & rest & st & Hv & Hks).
  eapply interaction_step; naive_solver.
Qed.

(** [incept_inner] establishes the invariant.  A delegated inception names a
    parsed delegator, and not itself. *)
Lemma incept_inv current t next nt delegator c :
  incept_inner current t next nt delegator = Ok c ->
  (forall d, delegator = Some d -> Did_parse (did_str d) = Ok d /\ did_scid d <> ctl_scid c) ->
  ctrl_inv c.
Proof.
  intros H Hd. unfold incept_inner in H. destruct current as [|k0 ks]; [done|].
  destruct next as [|n0 ns]; [done|].
  set (current := k0 :: ks) in *. set (next := n0 :: ns) in *.
  apply bind_ok in H as ([] & Hval & H). injection H as Hc.
  set (est := make_establishment current t next nt [] 0) in *.
  set (kind := match delegator with None => _ | Some d => _ end) in *.
  set (icp0 := mkEvent (sk_suite k0) [] 0 [] kind []) in *.
  set (scid := derive_scid icp0) in *.
  destruct (validate_establishment_keys _ Hval) as (Hnd & Ht0 & Htl).
  change (est_keys est) with (map verifying_key current) in Hnd, Htl.
  change (est_threshold est) with t in Ht0, Htl. rewrite length_map in Htl.
  assert (ctl_scid c = scid) as Hsc by (by rewrite <- Hc).
  set (icp := sign_event (mkEvent (sk_suite k0) scid 0 [] kind []) current) in *.
  assert (verify_inception scid icp =
    Ok (mkVState (map verifying_key current) t (commitments next) nt (ev_digest icp))) as Hicp.
  { unfold verify_inception. apply bind_ok. exists est. split.
    { unfold inception_est, icp, kind; by destruct delegator. }
    apply bind_ok. exists tt. split; [done|]. apply bind_ok. exists tt. split; [done|].
    apply bind_ok. eexists. split.
    { change (lit "did:mini:") with METHOD.
      apply parse_method; [unfold scid; by rewrite derive_scid_eq|apply validate_derived_scid]. }
    apply bind_ok. exists tt. split.
    { change (ev_kind icp) with kind. unfold kind. destruct delegator as [d|]; [|done].
      destruct (Hd d eq_refl) as [Hp Hne]. rewrite Hp. simpl.
      rewrite bool_decide_eq_false_2; [done|]. by rewrite <- Hsc. }
    apply bind_ok. exists tt. split.
    { change (derive_scid icp) with scid. by rewrite !bool_decide_eq_true_2 by done. }
    apply bind_ok. exists tt. split; [by apply verify_threshold_signed|done]. }
  rewrite <- Hc. split; [|done]. apply Kel_verify_iff.
  exists icp, [], (mkVState (map verifying_key current) t (commitments next) nt (ev_digest icp)).
  split; [|done]. split; [done|]. by eexists.
Qed.

Lemma recover_inv k rec new_next nt c :
  recover_from_kel k rec new_next nt = Ok c -> ctrl_inv c.
Proof.
  intros H. unfold recover_from_kel in H. destruct rec as [|k0 ks]; [done|].
  destruct new_next as [|n0 ns]; [done|]. set (rec := k0 :: ks) in *. set (nn := n0 :: ns) in *.
  apply bind_ok in H as (state & Hst & H). apply bind_ok in H as (? & Hl & H).
  apply bind_ok in H as (? & Hr & H). apply bind_ok in H as ([] & Hval & H).
  apply bind_ok in H as (? & Hf & H). injection H as Hc.
  apply fail_if_ok in Hl, Hr. bool_prop.
  set (c0 := mkController (kel_scid k) (sk_suite k0) rec (ks_next_threshold state) nn nt
              (kel_delegator k) (kel_events k)) in *.
  destruct (validate_establishment_keys _ Hval) as (Hnd & Ht0 & Htl). simpl in Hnd, Ht0, Htl.
  apply Kel_verify_iff in Hst as (first & rest & st & Hv & ->). simpl in *.
  assert (verified (ctl_kel c0) first rest st) as Hv0 by (by destruct k).
  assert (vs_next st = commitments rec) as Hn by (by apply reveals_inv).
  pose proof (rotation_step c0 rec (make_establishment rec (vs_next_threshold st) nn nt [] 0)
    first rest st Hv0 eq_refl Hn eq_refl Hval) as Hs.
  pose proof (append_step c0 _ _ _ _ _ _ Hv0 Hs) as Ha.
  rewrite <- Hc. split; [|split; [done|split; [done|]]].
  - rewrite Ha. unfold ctl_key_state, state_of. simpl. rewrite length_app. simpl.
    f_equal. f_equal. lia.
  - simpl. by rewrite length_map in Htl.
Qed.
End Honest.

(** ** Tamper evidence *)

Section Tamper.
Context {L : PrimitivesLaws}.

Lemma ev_digest_inj e1 e2 :
  ev_digest e1 = ev_digest e2 -> full_bytes e1 = full_bytes e2 \/ blake3_collision.
Proof.
  unfold ev_digest, Multihash_to_bytes, Multihash_of. cbn [mh_algorithm mh_digest digest].
  rewrite !blake3_length. intros H. apply app_inv_head, app_inv_head in H.
  destruct (decide (full_bytes e1 = full_bytes e2)) as [|Hne]; [by left|].
  right. by exists (full_bytes e1), (full_bytes e2).
Qed.

(** Events as they come out of the decoder: equal encodings, equal events. *)
Definition decoded (e : Event) : Prop :=
  exists b r, bytes_ok b /\ decode_event (Reader_new b) = Ok (e, r) /\ finished r = true.

Lemma decoded_full_bytes e :
  decoded e -> exists r, decode_event (Reader_new (full_bytes e)) = Ok (e, r).
Proof.
  intros (b & r & Hb & Hd & Hf). pose proof (canonical_use (p:=decode_event) (Reader_new b) e r Hb Hd) as Hc.
  apply consumes_finished in Hc; [|done]. subst b. by eexists.
Qed.

Lemma decoded_inj e1 e2 : decoded e1 -> decoded e2 -> full_bytes e1 = full_bytes e2 -> e1 = e2.
Proof.
  intros (r1 & H1)%decoded_full_bytes (r2 & H2)%decoded_full_bytes E. congruence.
Qed.

Lemma verify_loop_snoc_inv scid sn st evs ev st' :
  verify_loop scid sn st (evs ++ [ev]) = Ok st' ->
  exists st1, verify_loop scid sn st evs = Ok st1 /\
    verify_step scid (sn + Z.of_nat (length evs)) st1 ev = Ok st'.
Proof.
  rewrite verify_loop_app. intros H. simpl in H. ok_inv. eauto.
Qed.

Lemma verify_step_header scid sn st ev st' :
  verify_step scid sn st ev = Ok st' ->
  ev_scid ev = scid /\ ev_sn ev = sn /\ ev_prior ev = vs_prev st.
Proof. unfold verify_step. intros H. ok_inv; bool_prop; done. Qed.

(** The walk back from equal heads: every earlier event is pinned by the
    [prior] digest of its successor. *)
Lemma heads_pin_rest s1 s2 st01 st02 st1 st2 f1 f2 rest1 rest2 :
  Forall decoded (f1 :: rest1) -> Forall decoded (f2 :: rest2) ->
  verify_inception s1 f1 = Ok st01 -> verify_loop s1 1 st01 rest1 = Ok st1 ->
  verify_inception s2 f2 = Ok st02 -> verify_loop s2 1 st02 rest2 = Ok st2 ->
  length rest1 = length rest2 -> vs_prev st1 = vs_prev st2 ->
  f1 :: rest1 = f2 :: rest2 \/ blake3_collision.
Proof.
  revert rest2 st1 st2. induction rest1 as [|e1 rest1 IH] using rev_ind;
    intros rest2 st1 st2 D1 D2 I1 L1 I2 L2 Hlen Hprev.
  - destruct rest2; [|done]. simpl in L1, L2. simplify_eq.
    rewrite (verify_inception_prev _ _ _ I1), (verify_inception_prev _ _ _ I2) in Hprev.
    apply ev_digest_inj in Hprev as [E|]; [left|by right].
    apply Forall_cons in D1 as [d1 _], D2 as [d2 _]. f_equal. by apply decoded_inj.
  - destruct rest2 as [|e2 rest2 _] using rev_ind; [rewrite length_app in Hlen; simpl in Hlen; lia|].
    rewrite !length_app in Hlen. simpl in Hlen.
    apply verify_loop_snoc_inv in L1 as (m1 & L1 & S1).
    apply verify_loop_snoc_inv in L2 as (m2 & L2 & S2).
    rewrite (verify_step_prev _ _ _ _ _ S1), (verify_step_prev _ _ _ _ _ S2) in Hprev.
    rewrite app_comm_cons, Forall_app, Forall_singleton in D1, D2. destruct D1 as [D1 d1], D2 as [D2 d2].
    apply ev_digest_inj in Hprev as [E|]; [|by right].
    pose proof (decoded_inj _ _ d1 d2 E) as ->.
    apply verify_step_header in S1 as (_ & _ & P1), S2 as (_ & _ & P2).
    destruct (IH rest2 m1 m2) as [Heq|]; try done; [lia|congruence| |by right].
    left. by rewrite !app_comm_cons, Heq.
Qed.

Lemma heads_pin_log k1 k2 ks1 ks2 h :
  Forall decoded (kel_events k1) -> Forall decoded (kel_events k2) ->
  Kel_verify k1 = Ok ks1 -> Kel_verify k2 = Ok ks2 ->
  head_digest k1 = Ok h -> head_digest k2 = Ok h ->
  k1 = k2 \/ blake3_collision.
Proof.
  intros D1 D2 (f1 & r1 & st1 & V1 & ->)%Kel_verify_iff (f2 & r2 & st2 & V2 & ->)%Kel_verify_iff.
  unfold head_digest. rewrite <- (verified_prev _ _ _ _ V1), <- (verified_prev _ _ _ _ V2). simpl.
  intros [= H1] [= H2].
  destruct V1 as (E1 & s1 & I1 & L1), V2 as (E2 & s2 & I2 & L2).
  rewrite E1 in D1. rewrite E2 in D2.
  assert (length r1 = length r2 \/ blake3_collision) as [Hlen|]; [|idtac|by right].
  { assert (forall k f r st0 st, verify_inception (kel_scid k) f = Ok st0 ->
      verify_loop (kel_scid k) 1 st0 r = Ok st ->
      exists e, last (f :: r) = Some e /\ vs_prev st = ev_digest e /\
                ev_sn e = Z.of_nat (length r)) as Hhead.
    { intros k f r st0 st I Lp. destruct r as [|e r _] using rev_ind.
      - simpl in Lp. simplify_eq. exists f. split; [done|]. split; [by eapply verify_inception_prev|].
        unfold verify_inception in I. ok_inv; by bool_prop.
      - apply verify_loop_snoc_inv in Lp as (m & Lp & Sp). exists e.
        rewrite app_comm_cons, last_snoc. split; [done|].
        split; [by eapply verify_step_prev|]. apply verify_step_header in Sp as (_ & -> & _).
        rewrite length_app. simpl. lia. }
    destruct (Hhead _ _ _ _ _ I1 L1) as (e1 & La1 & P1 & S1).
    destruct (Hhead _ _ _ _ _ I2 L2) as (e2 & La2 & P2 & S2).
    assert (ev_digest e1 = ev_digest e2) as Hd by congruence.
    apply ev_digest_inj in Hd as [E|]; [left|by right].
    assert (e1 = e2) as ->; [|lia].
    apply decoded_inj; [| |done].
    - apply last_Some_elem_of in La1. by eapply Forall_forall in D1.
    - apply last_Some_elem_of in La2. by eapply Forall_forall in D2. }
  destruct (heads_pin_rest _ _ _ _ _ _ _ _ _ _ D1 D2 I1 L1 I2 L2 Hlen ltac:(congruence)) as [E|];
    [left|by right].
  destruct k1 as [c1 v1], k2 as [c2 v2]. simpl in *. subst v1 v2.
  injection E as -> ->. f_equal.
  assert (ev_scid f2 = c1 /\ ev_scid f2 = c2) as [? ?]; [|congruence].
  unfold verify_inception in I1, I2. clear - I1 I2. ok_inv; bool_prop; done.
Qed.
End Tamper.

End KelFacts.
