(* ===== verification/KelTheorems.v ===== *)
(** * KelTheorems: the properties of identities and their logs

    The stated properties of [Identity] and [Kel], each a short consequence
    of [KelFacts], with a concrete witness over the [Toy] primitives. *)

From Stdlib Require Import ZArith Lia.
From stdpp Require Import base list gmap strings.
From S2P Require Import Prelude Codec Crypto Identity Kel KelFacts.
Open Scope Z_scope.

Section Theorems.
Context {P : Primitives}.

(** ** Canonical bytes *)
#[global] Instance canonical_kel_event :
  Canonical decode_kel_event (fun e => w_bytes (full_bytes e)).
Proof.
  intros r e r' Hok H. unfold decode_kel_event in H. parse_inv.
  pose proof (canonical_use (p:=rd_bytes _ _) _ _ _ Hok Hp) as Hc.
  case_match; [|done]. case_match. case_match; [|done]. simplify_eq.
  apply bytes_limited_bytes_ok in Hp; [|done].
  eapply (canonical_use (p:=decode_event)) in H0; [|exact Hp].
  by rewrite (consumes_finished _ _ _ H0 H2).
Qed.

Lemma decode_kel_event_decoded r e r' :
  bytes_ok (rbuf r) -> decode_kel_event r = Ok (e, r') -> decoded e.
Proof.
  intros Hok H. unfold decode_kel_event in H. parse_inv.
  case_match; [|done]. case_match. case_match; [|done]. simplify_eq.
  do 2 eexists. split; [|by split]. by eapply bytes_limited_bytes_ok.
Qed.

Lemma decode_kel_consumes r k r' :
  bytes_ok (rbuf r) -> decode_kel r = Ok (k, r') ->
  consumes r r' (Kel_to_bytes k) /\ Forall decoded (kel_events k).
Proof.
  intros Hok H. unfold decode_kel in H. parse_inv. ok_inv. bool_prop.
  repeat canon_step.
  match goal with H : rd_u32 _ = Ok _ |- _ => apply r_u32_consumes in H as [_ Hu]; [|done] end.
  match goal with H : r_repeat _ _ _ = Ok _ |- _ =>
    pose proof (r_repeat_Forall _ _ decoded _ _ _ _ canonical_kel_event
      decode_kel_event_decoded ltac:(eassumption) H) as Hd;
    apply (r_repeat_consumes _ _ _ _ _ _ canonical_kel_event) in H as [Hce Hl]; [|done] end.
  split; [|done]. unfold Kel_to_bytes. cbn [kel_scid kel_events].
  unfold is_u32 in Hu. rewrite Hl, Z2Nat.id by lia. canon_chain.
Qed.

Lemma Kel_from_bytes_inv b k :
  bytes_ok b -> Kel_from_bytes b = Ok k ->
  Kel_to_bytes k = b /\ Forall decoded (kel_events k).
Proof.
  intros Hb H. unfold Kel_from_bytes in H. ok_inv. bool_prop.
  apply decode_kel_consumes in Hx as [Hc Hd]; [|done]. split; [|done].
  by eapply consumes_finished.
Qed.

(** ** Delegation: last write wins *)

(** The abstract reading of a seal sequence: what the last seal that names
    [d] says. *)
Definition device_status (d : bytes) (seals : list Seal) : option Capabilities :=
  fold_left (fun acc s =>
    match s with
    | Delegate d' c => if bool_decide (d' = d) then Some c else acc
    | Revoke d' => if bool_decide (d' = d) then None else acc
    end) seals None.

Fixpoint assoc (d : bytes) (l : list (bytes * Capabilities)) : option Capabilities :=
  match l with
  | [] => None
  | (d', c) :: l' => if bool_decide (d' = d) then Some c else assoc d l'
  end.

Lemma set_caps_spec d c acc :
  match set_caps d c acc with
  | Some acc' => forall d', assoc d' acc' = if bool_decide (d = d') then Some c else assoc d' acc
  | None => assoc d acc = None
  end.
Proof.
  induction acc as [|[k v] acc IH]; simpl; [done|].
  case_bool_decide as Hk; simpl.
  - subst k. intros d'. by destruct (bool_decide (d = d')).
  - destruct (set_caps d c acc); simpl; [|done].
    intros d'. rewrite IH. repeat case_bool_decide; congruence.
Qed.

Lemma assoc_app d a b : assoc d (a ++ b) = match assoc d a with Some c => Some c | None => assoc d b end.
Proof. induction a as [|[k v] a IH]; simpl; [done|]. by case_bool_decide. Qed.

Lemma assoc_filter d d' acc :
  assoc d (List.filter (fun x => negb (bool_decide (x.1 = d'))) acc) =
  if bool_decide (d' = d) then None else assoc d acc.
Proof.
  induction acc as [|[k v] acc IH]; simpl; [by case_bool_decide|].
  repeat (case_bool_decide; simpl; try done); congruence.
Qed.

Lemma apply_seal_spec d acc s :
  assoc d (apply_seal acc s) =
  match s with
  | Delegate d' c => if bool_decide (d' = d) then Some c else assoc d acc
  | Revoke d' => if bool_decide (d' = d) then None else assoc d acc
  end.
Proof.
  destruct s as [d' c|d']; simpl; [|apply assoc_filter].
  pose proof (set_caps_spec d' c acc) as Hs. destruct (set_caps d' c acc); [done|].
  rewrite assoc_app. simpl. case_bool_decide as Hd; [subst; by rewrite Hs|].
  by destruct (assoc d acc).
Qed.

Lemma fold_seals_spec d seals acc :
  assoc d (fold_left apply_seal seals acc) =
  fold_left (fun acc s =>
    match s with
    | Delegate d' c => if bool_decide (d' = d) then Some c else acc
    | Revoke d' => if bool_decide (d' = d) then None else acc
    end) seals (assoc d acc).
Proof.
  revert acc. induction seals as [|s seals IH]; intros acc; simpl; [done|].
  by rewrite IH, apply_seal_spec.
Qed.

Lemma find_device_spec d x l :
  Did_parse d = Ok x ->
  find_device d (omap (fun x => match Did_parse x.1 with Ok d => Some (d, x.2) | Err _ => None end) l)
  = assoc d l.
Proof.
  intros Hd. induction l as [|[k v] l IH]; simpl; [done|].
  destruct (Did_parse k) as [y|] eqn:Hk; simpl.
  - rewrite (Did_parse_str _ _ Hk). by case_bool_decide.
  - etrans; [exact IH|]. case_bool_decide; [|done]. subst. congruence.
Qed.

Lemma find_device_status d x k :
  Did_parse d = Ok x -> find_device d (delegated_devices k) = device_status d (kel_seals k).
Proof.
  intros Hd. unfold delegated_devices, device_status.
  rewrite (find_device_spec d x) by done. apply fold_seals_spec.
Qed.

Lemma verified_did_parses k ks : Kel_verify k = Ok ks -> exists x, Did_parse (did_str (kel_did k)) = Ok x.
Proof.
  intros (f & r & st & (E & st0 & Hi & _) & _)%Kel_verify_iff.
  unfold verify_inception in Hi. clear - Hi.
  repeat (apply bind_ok in Hi as (? & ? & Hi)). by eexists.
Qed.

(** ** Threshold counting is sound *)

(** [n] different keys of [keys] each have a valid signature over [msg]. *)
Definition backed_by (msg : bytes) (keys : list VerifyingKey) (sigs : list IndexedSig) (n : Z) : Prop :=
  exists signers : list VerifyingKey,
    Z.of_nat (length signers) = n /\
    NoDup (map key_fingerprint signers) /\
    Forall (fun k => k ∈ keys /\
      exists s, s ∈ sigs /\ vk_verify k msg (is_signature s) = Ok tt) signers.

Lemma count_signers_sound msg keys sigs0 idx signers sigs :
  (forall s, s ∈ sigs -> s ∈ sigs0) ->
  NoDup (map key_fingerprint signers) ->
  Forall (fun k => k ∈ keys /\
      exists s, s ∈ sigs0 /\ vk_verify k msg (is_signature s) = Ok tt) signers ->
  backed_by msg keys sigs0
    (count_signers_loop msg keys idx (map key_fingerprint signers) (Z.of_nat (length signers)) sigs).
Proof.
  revert idx signers. induction sigs as [|s sigs IH]; intros idx signers Hin Hnd Hf; simpl.
  { by exists signers. }
  assert (forall s, s ∈ sigs -> s ∈ sigs0) as Hin' by (intros; apply Hin; by right).
  destruct (keys !! Z.to_nat (is_index s)) as [k|] eqn:Hk; [|by apply IH].
  destruct (bool_decide _ || bool_decide _) eqn:Hb; [by apply IH|]. bool_prop.
  destruct (is_ok (vk_verify k msg (is_signature s))) eqn:Hv; [|by apply IH].
  apply is_ok_unit in Hv.
  specialize (IH (idx ++ [is_index s]) (signers ++ [k])).
  rewrite map_app, length_app, Nat2Z.inj_add in IH. simpl in IH. apply IH; [done| |].
  - apply NoDup_app. split; [done|]. split; [|apply NoDup_singleton].
    intros x Hx Hx'. apply list_elem_of_singleton in Hx' as ->. done.
  - apply Forall_app. split; [done|]. apply Forall_singleton. split.
    + by eapply list_elem_of_lookup_2.
    + exists s. split; [apply Hin; left|done].
Qed.

Lemma count_valid_signers_sound msg keys sigs :
  backed_by msg keys sigs (count_valid_signers msg keys sigs).
Proof. by apply (count_signers_sound msg keys sigs [] [] sigs); [|constructor|constructor]. Qed.

(** ** The key state of a verified log *)
Definition keys_ok (keys : list VerifyingKey) (t : Z) : Prop :=
  NoDup (map key_fingerprint keys) /\ t <> 0 /\ t <= Z.of_nat (length keys).

Lemma verify_step_keys scid sn st ev st' :
  keys_ok (vs_keys st) (vs_threshold st) -> verify_step scid sn st ev = Ok st' ->
  keys_ok (vs_keys st') (vs_threshold st').
Proof.
  intros Hk H. unfold verify_step in H. ok_inv; try done.
  match goal with H : validate_establishment _ = Ok ?u |- _ => destruct u;
    by apply validate_establishment_keys in H end.
Qed.

Lemma verify_loop_keys scid sn st evs st' :
  keys_ok (vs_keys st) (vs_threshold st) -> verify_loop scid sn st evs = Ok st' ->
  keys_ok (vs_keys st') (vs_threshold st').
Proof.
  revert sn st. induction evs as [|e evs IH]; intros sn st Hk H; simpl in H; ok_inv; [done|].
  eapply IH; [|done]. by eapply verify_step_keys.
Qed.

Lemma verify_inception_keys scid first st :
  verify_inception scid first = Ok st -> keys_ok (vs_keys st) (vs_threshold st).
Proof.
  unfold verify_inception. intros H. ok_inv;
  match goal with H : validate_establishment _ = Ok ?u |- _ => destruct u;
    by apply validate_establishment_keys in H end.
Qed.

Lemma Kel_verify_keys k ks : Kel_verify k = Ok ks -> keys_ok (ks_keys ks) (ks_threshold ks).
Proof.
  intros (f & r & st & (E & st0 & Hi & Hl) & ->)%Kel_verify_iff.
  eapply verify_loop_keys; [|done]. by eapply verify_inception_keys.
Qed.

Lemma zip_verifying keys vks :
  length keys = length vks ->
  forallb (fun kx => bool_decide (verifying_key kx.1 = kx.2)) (zip keys vks) = true ->
  vks = map verifying_key keys.
Proof.
  revert vks. induction keys as [|k keys IH]; intros [|v vks] Hl H; simpl in *; try done.
  bool_prop. f_equal; [done|]. apply IH; [lia|done].
Qed.

(** ** Controllers *)
Section Controllers.
Context {L : PrimitivesLaws}.

Lemma restore_inv k current next c :
  restore k current next = Ok c -> ctrl_inv c.
Proof.
  intros H. unfold restore in H. destruct current as [|k0 ks]; [done|].
  destruct next as [|n0 ns]; [done|]. set (cur := k0 :: ks) in *. set (nxt := n0 :: ns) in *.
  clearbody cur nxt. clear ks n0 ns.
  apply bind_ok in H as (state & Hst & H). ok_inv. bool_prop.
  match goal with H : length cur = _ |- _ =>
    pose proof (zip_verifying _ _ H ltac:(eassumption)) as Hk end.
  match goal with H : length nxt = _ |- _ =>
    pose proof (reveals_inv _ _ H ltac:(eassumption)) as Hn end.
  pose proof (Kel_verify_keys _ _ Hst) as (Hnd & Ht & Hle). rewrite Hk in Hnd, Hle.
  rewrite length_map in Hle. split; [|done].
  assert (kel_events k <> []) as Hne.
  { intros E. unfold Kel_verify, verify_through in Hst. rewrite E in Hst. done. }
  assert (ks_sn state = Z.of_nat (length (kel_events k)) - 1) as Hs.
  { apply Kel_verify_iff in Hst as (f & r & st & (E & _) & ->). simpl. rewrite E. simpl. lia. }
  assert (ctl_kel (mkController (kel_scid k) (sk_suite k0) cur (ks_threshold state) nxt
    (ks_next_threshold state) (kel_delegator k) (kel_events k)) = k) as -> by (by destruct k).
  rewrite Hst. f_equal. unfold ctl_key_state. simpl. rewrite <- Hs, <- Hk, <- Hn. by destruct state.
Qed.

Lemma seal_chunks_inv fuel c seals c' :
  ctrl_inv c -> seal_chunks fuel c seals = Ok c' -> ctrl_inv c'.
Proof.
  revert c seals. induction fuel as [|fuel IH]; intros c [|s seals] Hi H; simpl in H; ok_inv; try done.
  eapply IH; [|done]. by eapply seal_inv.
Qed.

Lemma rotate_nonempty_inv c nn t c' :
  ctrl_inv c -> rotate_with_next_and_threshold c nn t = Ok c' -> ctrl_inv c'.
Proof. intros Hi H. destruct nn; [done|]. by eapply rotate_core_inv. Qed.

(** Every way the source has of making a controller, then every operation it
    has on one. *)
Inductive ctl_reachable : Controller -> Prop :=
| reach_incept current t next nt delegator c :
    incept_inner current t next nt delegator = Ok c ->
    (forall d, delegator = Some d -> Did_parse (did_str d) = Ok d /\ did_scid d <> ctl_scid c) ->
    ctl_reachable c
| reach_recover k rec next nt c : recover_from_kel k rec next nt = Ok c -> ctl_reachable c
| reach_restore k current next c : restore k current next = Ok c -> ctl_reachable c
| reach_rotate c nn c' : ctl_reachable c -> rotate_with_next c nn = Ok c' -> ctl_reachable c'
| reach_rotate_threshold c nn t c' :
    ctl_reachable c -> rotate_with_next_and_threshold c nn t = Ok c' -> ctl_reachable c'
| reach_appoint c nn w t c' :
    ctl_reachable c -> rotate_appointing c nn w t = Ok c' -> ctl_reachable c'
| reach_interact c a c' : ctl_reachable c -> interact c a = Ok c' -> ctl_reachable c'
| reach_delegate c d caps c' :
    ctl_reachable c -> delegate_device c d caps = Ok c' -> ctl_reachable c'
| reach_delegate_tier c d t c' :
    ctl_reachable c -> delegate_device_tier c d t = Ok c' -> ctl_reachable c'
| reach_revoke c d c' : ctl_reachable c -> revoke_device c d = Ok c' -> ctl_reachable c'
| reach_revoke_except c keep c' :
    ctl_reachable c -> revoke_devices_except c keep = Ok c' -> ctl_reachable c'.

Lemma ctl_reachable_inv c : ctl_reachable c -> ctrl_inv c.
Proof.
  induction 1; eauto using incept_inv, recover_inv, restore_inv, rotate_nonempty_inv,
    rotate_core_inv, seal_inv, interact_inv, seal_chunks_inv.
Qed.

Lemma check_detached_signed c msg :
  ctrl_inv c -> check_detached msg (sign_message c msg) (ctl_key_state c) = Ok tt.
Proof.
  intros (_ & Hnd & _ & Hle). unfold check_detached, sign_message.
  cbn [ctl_key_state ks_keys ks_threshold]. rewrite count_signed by done.
  by rewrite (proj2 (Z.leb_le _ _) Hle).
Qed.

End Controllers.

(** ** Prefixes of a verified log *)
Lemma verify_loop_take scid sn st evs st' i :
  verify_loop scid sn st evs = Ok st' -> exists st1, verify_loop scid sn st (take i evs) = Ok st1.
Proof.
  rewrite <- (take_drop i evs) at 1. rewrite verify_loop_app. intros H. ok_inv. eauto.
Qed.

Lemma verified_through k first rest st i :
  verified k first rest st -> (i <= length rest)%nat ->
  exists st1, verify_loop (kel_scid k) 1 (default st (match verify_inception (kel_scid k) first with
      Ok st0 => Some st0 | Err _ => None end)) (take i rest) = Ok st1 /\
    verify_through k i = Ok (state_of st1 (Z.of_nat i)).
Proof.
  intros (E & st0 & Hi & Hl) Hle. destruct (verify_loop_take _ _ _ _ _ i Hl) as (st1 & H1).
  exists st1. rewrite Hi. simpl. split; [done|].
  unfold verify_through. rewrite E. simpl. rewrite Hi. simpl. by rewrite H1.
Qed.

Lemma key_state_at_through k ks sn :
  Kel_verify k = Ok ks -> 0 <= sn < Z.of_nat (length (kel_events k)) ->
  key_state_at k sn = verify_through k (Z.to_nat sn).
Proof.
  intros Hv Hsn. unfold key_state_at. rewrite Hv. simpl.
  apply Kel_verify_iff in Hv as (f & r & st & (E & _) & ->). rewrite E in Hsn. simpl in *.
  destruct (Z.ltb_spec (Z.of_nat (length r)) sn); [lia|done].
Qed.

(** What makes an event after the first one legitimate, given the key state
    just before it: a rotation reveals exactly the committed next keys, at
    the committed threshold, and is signed by a threshold of them; anything
    else is signed by a threshold of the standing keys. *)
Definition authorised (before : KeyState) (ev : Event) (after : KeyState) : Prop :=
  match ev_kind ev with
  | Rotation est =>
      map key_commitment (est_keys est) = ks_next_commitments before /\
      est_threshold est = ks_next_threshold before /\
      (exists n, est_threshold est <= n /\
        backed_by (signing_bytes ev) (est_keys est) (ev_signatures ev) n) /\
      after = mkKeyState (est_keys est) (est_threshold est) (ks_sn before + 1)
                (est_next est) (est_next_threshold est)
  | Interaction _ | SealEvent _ =>
      (exists n, ks_threshold before <= n /\
        backed_by (signing_bytes ev) (ks_keys before) (ev_signatures ev) n) /\
      after = mkKeyState (ks_keys before) (ks_threshold before) (ks_sn before + 1)
                (ks_next_commitments before) (ks_next_threshold before)
  | Inception _ | DelegatedInception _ _ => False
  end.

Lemma verify_threshold_sound e keys t :
  verify_threshold e keys t = Ok tt ->
  exists n, t <= n /\ backed_by (signing_bytes e) keys (ev_signatures e) n.
Proof.
  unfold verify_threshold. intros H. ok_inv. bool_prop.
  eexists. split; [done|]. apply count_valid_signers_sound.
Qed.

Lemma reveals_map keys next :
  length keys = length next -> reveals keys next = true -> map key_commitment keys = next.
Proof.
  unfold reveals. revert next.
  induction keys as [|a keys IH]; intros [|b l] Hl Hr; simpl in *; try done.
  bool_prop. f_equal; [done|]. apply IH; [lia|done].
Qed.

Lemma verify_step_authorised scid sn st ev st' n :
  verify_step scid sn st ev = Ok st' ->
  authorised (state_of st n) ev (state_of st' (n + 1)).
Proof.
  unfold verify_step, authorised. intros H.
  repeat (apply bind_ok in H as ([] & ? & H)).
  destruct (ev_kind ev); try done; repeat (apply bind_ok in H as ([] & ? & H));
    injection H as <-; ok_inv; bool_prop; simpl;
    repeat split; eauto using verify_threshold_sound, reveals_map.
Qed.

(** ** Seals written by the controller *)
Lemma kel_seals_append c kind signers :
  kel_seals (ctl_kel (append c kind signers)) =
  kel_seals (ctl_kel c) ++ match kind with SealEvent s => s | _ => [] end.
Proof.
  unfold kel_seals. simpl. rewrite flat_map_app. simpl. by rewrite app_nil_r.
Qed.

Lemma seal_seals c seals c' :
  seal c seals = Ok c' -> kel_seals (ctl_kel c') = kel_seals (ctl_kel c) ++ seals.
Proof. unfold seal. intros H. ok_inv. apply kel_seals_append. Qed.

Lemma device_status_app d a b :
  device_status d (a ++ b) =
  fold_left (fun acc s =>
    match s with
    | Delegate d' c => if bool_decide (d' = d) then Some c else acc
    | Revoke d' => if bool_decide (d' = d) then None else acc
    end) b (device_status d a).
Proof. unfold device_status. by rewrite fold_left_app. Qed.

Lemma seal_chunks_ok fuel c seals :
  (length seals <= fuel)%nat -> check_seal_devices seals = Ok tt ->
  exists c', seal_chunks fuel c seals = Ok c' /\
    kel_seals (ctl_kel c') = kel_seals (ctl_kel c) ++ seals.
Proof.
  assert (forall n l, check_seal_devices l = Ok tt ->
    check_seal_devices (take n l) = Ok tt /\ check_seal_devices (drop n l) = Ok tt) as Hsplit.
  { intros n l. revert n. induction l as [|s l IH]; intros [|n] H; simpl in *; try done.
    ok_inv. rewrite Hx. simpl. by apply IH. }
  revert c seals. induction fuel as [|fuel IH]; intros c [|s seals] Hle Hc; simpl in Hle; try lia;
    try (exists c; split; [done|by rewrite app_nil_r]).
  cbn [seal_chunks]. set (l := s :: seals) in *.
  destruct (Hsplit (Z.to_nat MAX_SEALS) l Hc) as [H1 H2].
  assert (seal c (take (Z.to_nat MAX_SEALS) l) =
    Ok (append c (SealEvent (take (Z.to_nat MAX_SEALS) l)) (ctl_current c))) as Hs.
  { unfold seal. destruct (Z.ltb_spec MAX_SEALS (Z.of_nat (length (take (Z.to_nat MAX_SEALS) l)))) as [Hlt|_].
    - rewrite length_take in Hlt. unfold MAX_SEALS in *. lia.
    - unfold fail_if, mbind, result_bind. by rewrite H1. }
  rewrite Hs. unfold mbind, result_bind.
  destruct (IH (append c (SealEvent (take (Z.to_nat MAX_SEALS) l)) (ctl_current c))
    (drop (Z.to_nat MAX_SEALS) l)) as (c' & Hc' & Hk); [|done|].
  - rewrite length_drop. unfold l, MAX_SEALS. simpl length. lia.
  - exists c'. split; [done|]. rewrite Hk, kel_seals_append, <- (assoc_L (++)). by rewrite take_drop.
Qed.

(** ** The properties *)

Definition kel_wf (k : Kel) : Prop :=
  utf8_valid (kel_scid k) = true /\
  Z.of_nat (length (kel_scid k)) <= MAX_SCID_BYTES /\
  is_ok (Did_parse (lit "did:mini:" ++ kel_scid k)) = true /\
  Z.of_nat (length (kel_events k)) <= MAX_KEL_EVENTS /\
  Forall (fun e => event_wf e /\ Z.of_nat (length (full_bytes e)) <= MAX_EVENT_BYTES) (kel_events k).

Lemma parses_kel_event e :
  event_wf e -> Z.of_nat (length (full_bytes e)) <= MAX_EVENT_BYTES ->
  parses decode_kel_event (w_bytes (full_bytes e)) e.
Proof.
  intros Hw Hl. unfold decode_kel_event. eapply parses_bind_nil; [by apply parses_rd_bytes|].
  apply parses_lift_end. destruct (parses_new _ _ _ (parses_event e Hw)) as (r & -> & ->). done.
Qed.

Lemma parses_kel k : kel_wf k -> parses decode_kel (Kel_to_bytes k) k.
Proof.
  intros (Hu & Hs & Hd & Hn & Hf). unfold decode_kel, Kel_to_bytes.
  apply is_ok_true in Hd as [x Hx].
  eapply parses_bind; [by apply parses_rd_string|]. eapply parses_lift; [exact Hx|].
  eapply parses_bind; [apply parses_u32; unfold is_u32, U32_MAX, MAX_KEL_EVENTS in *; lia|].
  eapply (parses_lift _ _ _ tt); [apply fail_if_ok, Z.ltb_ge; exact Hn|].
  eapply (parses_bind_nil _ _ _ (kel_events k)); [|destruct k; apply parses_ret].
  rewrite Nat2Z.id. apply parses_repeat. eapply Forall_impl; [exact Hf|].
  intros e [? ?]. by apply parses_kel_event.
Qed.

(** A log the code builds within its limits is read back, from the bytes
    it is written as, as the same log. *)
Theorem kel_round_trip k : kel_wf k -> Kel_from_bytes (Kel_to_bytes k) = Ok k.
Proof.
  intros Hw. unfold Kel_from_bytes.
  destruct (parses_new _ _ _ (parses_kel k Hw)) as (r & -> & Hf). simpl. by rewrite Hf.
Qed.

(** The log decoder accepts only the canonical bytes: whatever bytes it
    accepts are the encoding of the log it returns, so a log has exactly one
    accepted encoding. *)
Theorem kel_bytes_canonical b k :
  bytes_ok b -> Kel_from_bytes b = Ok k -> Kel_to_bytes k = b.
Proof. intros Hb H. by apply Kel_from_bytes_inv in H as [? _]. Qed.

(** A head digest pins the whole history: two accepted blobs whose logs
    verify and have the same head digest are the same blob, unless two
    different byte strings with one BLAKE3 digest exist. *)
Theorem head_digest_pins_log {L : PrimitivesLaws} b1 b2 k1 k2 ks1 ks2 h :
  bytes_ok b1 -> bytes_ok b2 ->
  Kel_from_bytes b1 = Ok k1 -> Kel_from_bytes b2 = Ok k2 ->
  Kel_verify k1 = Ok ks1 -> Kel_verify k2 = Ok ks2 ->
  head_digest k1 = Ok h -> head_digest k2 = Ok h ->
  b1 = b2 \/ blake3_collision.
Proof.
  intros Hb1 Hb2 H1 H2 V1 V2 D1 D2.
  destruct (Kel_from_bytes_inv b1 k1 Hb1 H1) as [E1 F1], (Kel_from_bytes_inv b2 k2 Hb2 H2) as [E2 F2].
  rewrite <- E1, <- E2. clear E1 E2 H1 H2.
  destruct (heads_pin_log k1 k2 ks1 ks2 h) as [->|]; auto.
Qed.

(** C26: every controller the code can make and every sequence of its
    operations (rotation in its three forms, interaction, delegation,
    revocation, bulk revocation) leaves a log that verifies offline to
    exactly the key state the controller reports, and under which every
    message the controller signs is accepted. *)
Theorem controller_log_verifies {L : PrimitivesLaws} c msg :
  ctl_reachable c ->
  Kel_verify (ctl_kel c) = Ok (ctl_key_state c) /\
  verify_message (ctl_kel c) msg (sign_message c msg) = Ok tt.
Proof.
  intros Hi%ctl_reachable_inv. pose proof Hi as [Hv _]. split; [done|].
  unfold verify_message. rewrite Hv. by apply check_detached_signed.
Qed.

(** C27: in a log that verifies, every event after the first was authorised
    by the key state just before it: a rotation reveals exactly the keys
    committed to earlier (pre-rotation) at the committed threshold and is
    signed by a threshold of them, any other event is signed by a threshold
    of the standing keys; and the key state after it is the one the event
    describes. *)
Theorem verified_log_authorised k ks i ev :
  Kel_verify k = Ok ks -> kel_events k !! S i = Some ev ->
  exists before after,
    key_state_at k (Z.of_nat i) = Ok before /\
    key_state_at k (Z.of_nat i + 1) = Ok after /\
    authorised before ev after.
Proof.
  intros Hv Hi. pose proof (lookup_lt_Some _ _ _ Hi) as Hlt.
  rewrite !(key_state_at_through k ks) by (done || lia).
  rewrite Nat2Z.id, Z2Nat.inj_add, Nat2Z.id by lia. simpl Z.to_nat. rewrite Nat.add_1_r.
  apply Kel_verify_iff in Hv as (f & r & st & V & ->). pose proof V as (E & st0 & Hin & _).
  rewrite E in Hi, Hlt. simpl in Hi, Hlt.
  destruct (verified_through _ _ _ _ i V ltac:(lia)) as (st1 & L1 & ->).
  destruct (verified_through _ _ _ _ (S i) V ltac:(lia)) as (st2 & L2 & ->).
  rewrite Hin in L1, L2. simpl in L1, L2.
  rewrite (take_S_r _ _ _ Hi), verify_loop_app, L1 in L2. simpl in L2. ok_inv.
  do 2 eexists. split; [done|]. split; [done|].
  rewrite Nat2Z.inj_succ, <- Z.add_1_r. by eapply verify_step_authorised.
Qed.

(** History is stable: extending a log never changes the key state, and
    so never changes the verdict on a message, at a sequence number the
    shorter log already had. *)
Theorem history_stable k more ks sn msg sigs :
  kel_events k <> [] ->
  Kel_verify (mkKel (kel_scid k) (kel_events k ++ more)) = Ok ks ->
  0 <= sn < Z.of_nat (length (kel_events k)) ->
  key_state_at k sn = key_state_at (mkKel (kel_scid k) (kel_events k ++ more)) sn /\
  verify_message_at k sn msg sigs =
    verify_message_at (mkKel (kel_scid k) (kel_events k ++ more)) sn msg sigs.
Proof.
  intros Hne Hv Hsn. unfold verify_message_at.
  assert (key_state_at k sn = key_state_at (mkKel (kel_scid k) (kel_events k ++ more)) sn) as E;
    [|by rewrite E].
  assert (exists ks', Kel_verify k = Ok ks') as [ks' Hv'].
  { apply Kel_verify_iff in Hv as (f & r & st & (E & st0 & Hi & Hl) & _). simpl in *.
    destruct (kel_events k) as [|f' r'] eqn:Ek; [done|]. injection E as <- <-.
    rewrite verify_loop_app in Hl. ok_inv.
    eexists. apply Kel_verify_iff. exists f', r', x. split; [|done]. split; [done|]. eauto. }
  rewrite (key_state_at_through k ks'), (key_state_at_through _ ks); try done.
  - unfold verify_through. simpl. destruct (kel_events k) as [|f r]; [done|]. simpl in *.
    by rewrite take_app_le by lia.
  - simpl. rewrite length_app. lia.
Qed.

(** [verify_delegation] implements its contract: it returns capabilities
    [caps] exactly when both logs verify, the root is not itself delegated,
    the device's inception names the root, and the last seal of the root's
    log that names the device grants [caps] (a revocation after a grant, or
    a re-grant after a revocation, wins). *)
Theorem delegation_refines root device caps :
  verify_delegation root device = Ok caps <->
  is_ok (Kel_verify root) = true /\ is_ok (Kel_verify device) = true /\
  kel_delegator root = None /\
  (exists d, kel_delegator device = Some d /\ did_scid d = kel_scid root) /\
  device_status (did_str (kel_did device)) (kel_seals root) = Some caps.
Proof.
  unfold verify_delegation. split.
  - intros H. apply bind_ok in H as (ks1 & H1 & H). apply bind_ok in H as (ks2 & H2 & H).
    destruct (verified_did_parses _ _ H2) as [x Hx].
    rewrite (find_device_status _ _ root Hx) in H.
    apply bind_ok in H as ([] & H3 & H). apply bind_ok in H as (d & H4 & H). ok_inv. bool_prop.
    destruct (kel_delegator root); [done|]. rewrite H1, H2. naive_solver.
  - intros (H1 & H2 & Hr & (d & Hd & Hs2) & Hs). rewrite Hr, Hd.
    apply is_ok_true in H1 as [ks1 ->], H2 as [ks2 H2].
    destruct (verified_did_parses _ _ H2) as [x Hx]. rewrite H2, (find_device_status _ _ root Hx), Hs. simpl.
    by rewrite bool_decide_eq_true_2.
Qed.

Lemma revoke_device_status c d c' x :
  revoke_device c d = Ok c' ->
  device_status x (kel_seals (ctl_kel c')) =
  if bool_decide (did_str d = x) then None else device_status x (kel_seals (ctl_kel c)).
Proof. intros H%seal_seals. rewrite H, device_status_app. done. Qed.

(** C28: a revocation takes effect at once and only on the device it names:
    the revoked device is refused whatever was granted to it before, and
    every other device keeps the status it had. *)
Theorem revocation_effective c device c' :
  revoke_device c (kel_did device) = Ok c' ->
  (forall caps, verify_delegation (ctl_kel c') device <> Ok caps) /\
  (forall d, d <> did_str (kel_did device) ->
     device_status d (kel_seals (ctl_kel c')) = device_status d (kel_seals (ctl_kel c))).
Proof.
  intros H. split.
  - intros caps Hd. apply bind_ok in Hd as (ks1 & H1 & Hd). apply bind_ok in Hd as (ks2 & H2 & Hd).
    destruct (verified_did_parses _ _ H2) as [x Hx]. ok_inv.
    rewrite (find_device_status _ _ _ Hx), (revoke_device_status _ _ _ _ H) in Hd.
    by rewrite bool_decide_eq_true_2 in Hd.
  - intros d Hne. rewrite (revoke_device_status _ _ _ _ H). by rewrite bool_decide_eq_false_2.
Qed.

Lemma delegated_find k d y :
  Did_parse d = Ok y ->
  (exists x, x ∈ delegated_devices k /\ did_str x.1 = d) \/ device_status d (kel_seals k) = None.
Proof.
  intros Hd. rewrite <- (find_device_status d y k Hd).
  induction (delegated_devices k) as [|[dev caps] l IH]; simpl; [by right|].
  case_bool_decide; [left; exists (dev, caps); by split; [left|]|].
  destruct IH as [(x & Hin & Hx)|]; [left|by right]. exists x. by split; [right|].
Qed.

Lemma device_status_revokes d acc (l : list bytes) :
  fold_left (fun acc s =>
    match s with
    | Delegate d' c => if bool_decide (d' = d) then Some c else acc
    | Revoke d' => if bool_decide (d' = d) then None else acc
    end) (map Revoke l) acc = if bool_decide (d ∈ l) then None else acc.
Proof.
  revert acc. induction l as [|x l IH]; intros acc; simpl; [done|]. rewrite IH.
  repeat case_bool_decide; set_solver.
Qed.

Lemma delegated_parse k : Forall (fun x => exists y, Did_parse (did_str x.1) = Ok y) (delegated_devices k).
Proof.
  unfold delegated_devices. rewrite Forall_forall. intros x Hx.
  apply list_elem_of_omap in Hx as ([d c] & _ & Hm). simpl in Hm.
  destruct (Did_parse d) eqn:Hd; [|done]. simplify_eq. simpl.
  rewrite (Did_parse_str _ _ Hd). by eexists.
Qed.

Lemma check_revokes (l : list bytes) :
  Forall (fun d => exists y, Did_parse d = Ok y) l -> check_seal_devices (map Revoke l) = Ok tt.
Proof. induction 1 as [|d l (y & Hy) _ IH]; simpl; [done|]. by rewrite Hy. Qed.

(** Bulk revocation always succeeds (however many devices there are, the
    seals are split into events of at most [MAX_SEALS]), and afterwards the
    devices still delegated are exactly the kept ones, with what they had. *)
Theorem revoke_except_keeps_only c keep :
  exists c', revoke_devices_except c keep = Ok c' /\
    forall d y, Did_parse d = Ok y ->
      device_status d (kel_seals (ctl_kel c')) =
      if bool_decide (d ∈ map did_str keep) then device_status d (kel_seals (ctl_kel c)) else None.
Proof.
  unfold revoke_devices_except.
  set (gone := List.filter _ (delegated_devices (ctl_kel c))).
  rewrite <- (map_map (fun x : Did * Capabilities => did_str x.1) Revoke).
  set (ds := map (fun x : Did * Capabilities => did_str x.1) gone).
  assert (forall d, d ∈ ds <-> (exists x, x ∈ delegated_devices (ctl_kel c) /\ did_str x.1 = d) /\
                    d ∉ map did_str keep) as Hds.
  { intros d. unfold ds, gone. rewrite list_elem_of_In, in_map_iff. split.
    - intros (x & <- & Hx%filter_In). destruct Hx as [Hx Hk]. rewrite <- list_elem_of_In in Hx.
      split; [eauto|]. rewrite list_elem_of_In, in_map_iff. intros (k & Hkx & Hin).
      apply negb_true_iff in Hk. apply not_true_iff_false in Hk. apply Hk, existsb_exists.
      exists k. split; [done|]. by apply bool_decide_eq_true_2.
    - intros ((x & Hx & <-) & Hn). exists x. split; [done|]. apply filter_In.
      split; [by apply list_elem_of_In|]. apply negb_true_iff, not_true_iff_false.
      intros (k & Hk & Heq)%existsb_exists. apply bool_decide_eq_true_1 in Heq.
      apply Hn, list_elem_of_In, in_map_iff. eauto. }
  destruct (seal_chunks_ok (length (map Revoke ds)) c (map Revoke ds)) as (c' & Hc & Hk); [done| |].
  { apply check_revokes, Forall_forall. intros d ((x & Hx & <-) & _)%Hds.
    exact (proj1 (Forall_forall _ _) (delegated_parse (ctl_kel c)) x Hx). }
  exists c'. split; [done|]. intros d y Hd.
  rewrite Hk, device_status_app, device_status_revokes.
  destruct (delegated_find (ctl_kel c) d y Hd) as [Hin| ->].
  - repeat case_bool_decide; rewrite ?Hds in *; naive_solver.
  - by repeat case_bool_decide.
Qed.

(** ** Freshness *)

(** A run of [check_and_pin] over logs as they arrive; rejected ones leave
    the pins alone. *)
Fixpoint pin_all (pins : gmap bytes Z) (ks : list Kel) : gmap bytes Z :=
  match ks with
  | [] => pins
  | k :: ks' => match check_and_pin pins k with
                | Ok (_, pins') => pin_all pins' ks'
                | Err _ => pin_all pins ks'
                end
  end.

Definition pinned_at_least (pins : gmap bytes Z) (s : bytes) (n : Z) : Prop :=
  exists m, pins !! s = Some m /\ n <= m.

Lemma check_and_pin_mono pins k sn pins' s n :
  check_and_pin pins k = Ok (sn, pins') ->
  pinned_at_least pins s n -> pinned_at_least pins' s n.
Proof.
  unfold check_and_pin. intros H (m & Hm & Hle). apply bind_ok in H as (st & Hst & H).
  apply bind_ok in H as (? & Hc & H). injection H as _ <-.
  destruct (decide (kel_scid k = s)) as [<-|Hne].
  - rewrite Hm in Hc |- *. eexists. rewrite lookup_insert_eq. split; [done|]. lia.
  - exists m. by rewrite lookup_insert_ne.
Qed.

Lemma check_and_pin_pins pins k sn pins' :
  check_and_pin pins k = Ok (sn, pins') -> pinned_at_least pins' (kel_scid k) sn.
Proof.
  unfold check_and_pin. intros H. apply bind_ok in H as (st & Hst & H).
  apply bind_ok in H as (? & Hc & H). injection H as <- <-.
  eexists. rewrite lookup_insert_eq. split; [done|]. case_match; lia.
Qed.

Lemma pin_all_mono pins ks s n :
  pinned_at_least pins s n -> pinned_at_least (pin_all pins ks) s n.
Proof.
  revert pins. induction ks as [|k ks IH]; intros pins Hp; simpl; [done|].
  destruct (check_and_pin pins k) as [[sn pins']|] eqn:Hc; [|by apply IH].
  apply IH. by eapply check_and_pin_mono.
Qed.

(** No rollback: once a log was accepted at sequence number [sn], then
    whatever logs of whatever identities arrive in between, a log of the same
    identity that verifies only to a lower sequence number is refused as
    stale. *)
Theorem stale_log_refused pins k sn pins' later k' ks' :
  check_and_pin pins k = Ok (sn, pins') ->
  kel_scid k' = kel_scid k -> Kel_verify k' = Ok ks' -> ks_sn ks' < sn ->
  exists pinned, sn <= pinned /\
    check_and_pin (pin_all pins' later) k' = Err (StaleKel pinned (ks_sn ks')).
Proof.
  intros H Hs Hv Hlt.
  destruct (pin_all_mono pins' later _ _ (check_and_pin_pins _ _ _ _ H)) as (m & Hm & Hle).
  exists m. split; [done|]. unfold check_and_pin. rewrite Hv, Hs, Hm. simpl.
  by rewrite (proj2 (Z.ltb_lt _ _)) by lia.
Qed.

End Theorems.

(** * Positions in a verified log

    Every event of a verified log carries the log's identifier, its position
    as sequence, and the digest of the event before it; every prefix of the
    log verifies.  A log received from the wire is within the format's
    limits. *)


Section KelLog.
Context {P : Primitives}.

Lemma head_scid k ks e : Kel_verify k = Ok ks -> last (kel_events k) = Some e -> ev_scid e = kel_scid k.
Proof.
  intros (first & rest & st & (E & st0 & Hi & Hl) & ->)%Kel_verify_iff. rewrite E. destruct rest as [|e' rest _] using rev_ind.
  - intros [= <-]. unfold verify_inception in Hi. ok_inv; by bool_prop.
  - rewrite app_comm_cons, last_snoc. intros [= ->]. apply verify_loop_snoc_inv in Hl as (m & _ & (H & _)%verify_step_header). done.
Qed.
Lemma head_sequence k ks e : Kel_verify k = Ok ks -> last (kel_events k) = Some e -> ev_sn e = Z.of_nat (length (kel_events k)) - 1.
Proof.
  intros (first & rest & st & (E & st0 & Hi & Hl) & ->)%Kel_verify_iff. rewrite E. destruct rest as [|e' rest _] using rev_ind.
  - intros [= <-]. unfold verify_inception in Hi. clear - Hi. ok_inv; bool_prop; cbn [length]; lia.
  - rewrite app_comm_cons, last_snoc. intros [= ->]. apply verify_loop_snoc_inv in Hl as (m & _ & (_ & Hn & _)%verify_step_header).
    cbn [length app]. rewrite length_app. cbn [length]. lia.
Qed.
Lemma prefix_verifies k ks n : Kel_verify k = Ok ks -> (0 < n)%nat -> exists ks', Kel_verify (mkKel (kel_scid k) (take n (kel_events k))) = Ok ks'.
Proof.
  intros (first & rest & s & (E & s0 & Hi & Hl) & ->)%Kel_verify_iff Hn. destruct n as [|n]; [lia|]. destruct (verify_loop_take _ _ _ _ _ n Hl) as (s1 & H1).
  eexists. apply Kel_verify_iff. exists first, (take n rest), s1. split; [|done]. rewrite E. split; [done|]. by exists s0.
Qed.
Lemma last_take {A} (l : list A) i x : l !! i = Some x -> last (take (S i) l) = Some x.
Proof. intros H. rewrite (take_S_r _ _ _ H). apply last_snoc. Qed.
Lemma log_sequence k ks i e : Kel_verify k = Ok ks -> kel_events k !! i = Some e -> ev_sn e = Z.of_nat i.
Proof.
  intros Hk He. destruct (prefix_verifies k ks (S i) Hk) as [ks' Hp]; [lia|]. rewrite (head_sequence _ _ e Hp (last_take _ _ _ He)).
  cbn [kel_events]. apply lookup_lt_Some in He. rewrite length_take. lia.
Qed.
Lemma log_chained k ks i e e' : Kel_verify k = Ok ks -> kel_events k !! i = Some e -> kel_events k !! S i = Some e' -> ev_prior e' = ev_digest e.
Proof.
  intros Hk He He'. destruct (prefix_verifies k ks (S (S i)) Hk) as [ks' Hp]; [lia|].
  apply Kel_verify_iff in Hp as (first & rest & s & (E & s0 & Hi & Hl) & _). cbn [kel_events kel_scid] in *.
  rewrite (take_S_r _ _ _ He'), (take_S_r _ _ _ He) in E. destruct rest as [|x rest _] using rev_ind.
  - apply (f_equal length) in E. rewrite !length_app in E. cbn in E. lia.
  - rewrite app_comm_cons in E. apply app_inj_2 in E as [E [= ->]]; [|done]. apply verify_loop_snoc_inv in Hl as (m & Hl & (_ & _ & ->)%verify_step_header).
    destruct rest as [|y rest _] using rev_ind.
    + apply (app_inj_2 _ []) in E as [_ [= ->]]; [|done]. cbn in Hl. injection Hl as <-. by eapply verify_inception_prev.
    + rewrite app_comm_cons in E. apply app_inj_2 in E as [_ [= ->]]; [|done]. rewrite (verify_loop_prev _ _ _ _ _ Hl). by rewrite last_snoc.
Qed.
Lemma head_prior k ks e : Kel_verify k = Ok ks -> last (kel_events k) = Some e ->
  ev_prior e = [] \/ exists e0, e0 ∈ kel_events k /\ ev_prior e = ev_digest e0.
Proof.
  intros Hk He. destruct (length (kel_events k)) as [|[|i]] eqn:El.
  - apply nil_length_inv in El. by rewrite El in He.
  - left. apply Kel_verify_iff in Hk as (first & rest & s & (E & s0 & Hi & _) & _). rewrite E in *. destruct rest; [|done]. injection He as <-.
    unfold verify_inception in Hi. clear - Hi. ok_inv; by bool_prop.
  - right. rewrite last_lookup, El in He. cbn [Nat.pred] in He. destruct (kel_events k !! i) as [e0|] eqn:E0; [|apply lookup_ge_None in E0; lia].
    exists e0. split; [by eapply list_elem_of_lookup_2|]. by eapply log_chained.
Qed.

(** ** Logs from the wire *)
Definition received (k : Kel) : Prop := exists b, bytes_ok b /\ Kel_from_bytes b = Ok k.
Definition event_sized (e : Event) : Prop := decoded e /\ Z.of_nat (length (full_bytes e)) <= MAX_EVENT_BYTES.
Lemma decode_kel_event_sized r e r' : bytes_ok (rbuf r) -> decode_kel_event r = Ok (e, r') -> event_sized e.
Proof.
  intros Hok H. split; [by eapply decode_kel_event_decoded|]. pose proof (decode_kel_event_decoded _ _ _ Hok H) as Hdec.
  unfold decode_kel_event in H. parse_inv. case_match; [|done]. case_match. case_match; [|done]. simplify_eq.
  match goal with H : rd_bytes _ _ _ = Ok (?b, _) |- _ => pose proof (bytes_limited_bytes_ok _ _ _ _ _ _ Hok H) as Hb; apply bytes_limited_consumes in H as [_ Hl]; [|done] end.
  match goal with H : decode_event (Reader_new ?b) = Ok _, F : finished _ = true |- _ =>
    pose proof (canonical_use (p:=decode_event) (Reader_new b) _ _ Hb H) as Hc; apply consumes_finished in Hc; [|done]; by subst b end.
Qed.
Lemma rd_string_sized field max r b r' : bytes_ok (rbuf r) -> rd_string field max r = Ok (b, r') -> utf8_valid b = true /\ Z.of_nat (length b) <= max.
Proof.
  intros Hok H. unfold rd_string in H. parse_inv. unfold utf8 in *. apply bytes_limited_consumes in Hp as [_ Hl]; [|done].
  destruct (utf8_valid _) eqn:E; [|done]. by simplify_eq.
Qed.
Lemma received_kel k : received k -> Kel_from_bytes (Kel_to_bytes k) = Ok k /\ Forall event_sized (kel_events k) /\
  Z.of_nat (length (kel_events k)) <= MAX_KEL_EVENTS /\ utf8_valid (kel_scid k) = true /\ Z.of_nat (length (kel_scid k)) <= MAX_SCID_BYTES.
Proof.
  intros (b & Hb & Hk). destruct (Kel_from_bytes_inv b k Hb Hk) as [E _]. split; [by rewrite E|]. unfold Kel_from_bytes in Hk. ok_inv. bool_prop.
  match goal with H : decode_kel _ = Ok _ |- _ => unfold decode_kel in H end. parse_inv. ok_inv. bool_prop. cbn [kel_events kel_scid].
  change (bytes_ok (rbuf (Reader_new (Kel_to_bytes (mkKel a a3))))) in Hb. pose proof (rd_string_sized _ _ _ _ _ Hb Hp) as [Hu Hl].
  assert (0 <= a1) as H0. { repeat canon_step. match goal with H : rd_u32 _ = Ok _ |- _ => apply r_u32_consumes in H as [_ Hn]; [|done] end. unfold is_u32 in Hn. lia. }
  repeat canon_step. match goal with H : r_repeat _ _ _ = Ok _ |- _ =>
    pose proof (r_repeat_Forall _ _ event_sized _ _ _ _ canonical_kel_event decode_kel_event_sized ltac:(eassumption) H);
    apply (r_repeat_consumes _ _ _ _ _ _ canonical_kel_event) in H as [_ Hn]; [|done] end.
  repeat split; try done. lia.
Qed.
Lemma received_decoded k : received k -> Forall decoded (kel_events k).
Proof. intros (_ & H & _)%received_kel. eapply Forall_impl; [exact H|]. by intros e []. Qed.
End KelLog.

(** * The identity properties on a concrete scenario

    One identity with a two-key inception delegates a device, rotates to its
    committed next key, and revokes the device, over the executable [Toy]
    primitives.  Every witness applies its property to this scenario. *)

#[local] Existing Instance Toy.primitives.
#[local] Existing Instance Toy.laws.

Module Scenario.
Definition key (n : Z) : SigningKey := mkSigningKey [n].
Definition none : Controller := mkController [] Ed25519 [] 0 [] 0 None [].
Definition get (r : result IdentityError Controller) : Controller :=
  match r with Ok c => c | Err _ => none end.

Definition root0 : Controller := Eval vm_compute in
  get (incept_inner [key 1; key 2] 2 [key 3] 1 None).
Definition root_did : Did := Eval vm_compute in kel_did (ctl_kel root0).
Definition device : Controller := Eval vm_compute in
  get (incept_inner [key 5] 1 [key 6] 1 (Some root_did)).
Definition device_did : Did := Eval vm_compute in kel_did (ctl_kel device).
Definition granted : Controller := Eval vm_compute in
  get (delegate_device root0 device_did POST).
Definition rotated : Controller := Eval vm_compute in
  get (rotate_with_next granted [key 4]).
Definition revoked : Controller := Eval vm_compute in
  get (revoke_device rotated device_did).

Lemma granted_ok : delegate_device root0 device_did POST = Ok granted.
Proof. vm_compute. reflexivity. Qed.
Lemma rotated_ok : rotate_with_next granted [key 4] = Ok rotated.
Proof. vm_compute. reflexivity. Qed.
Lemma root0_reachable : ctl_reachable root0.
Proof.
  apply (reach_incept [key 1; key 2] 2 [key 3] 1 None); [vm_compute; reflexivity|done].
Qed.
Lemma rotated_reachable : ctl_reachable rotated.
Proof.
  eapply reach_rotate; [|exact rotated_ok].
  eapply reach_delegate; [exact root0_reachable|exact granted_ok].
Qed.

(** Closed side conditions of well-formedness, by evaluation. *)
Ltac eval_wf :=
  repeat match goal with
  | |- _ /\ _ => split
  | |- Forall _ _ => constructor
  | |- exists _, _ => eexists
  end; try (vm_compute; try (intro; discriminate); try reflexivity; split; intro; discriminate).

Lemma rotated_wf : kel_wf (ctl_kel rotated).
Proof.
  unfold kel_wf, rotated, ctl_kel. cbn [kel_events kel_scid ctl_events ctl_scid].
  split_and!; [vm_compute; reflexivity|vm_compute; intro; discriminate|vm_compute; reflexivity
    |vm_compute; intro; discriminate|].
  repeat (apply Forall_cons; split); try apply Forall_nil; try exact I;
    (split; [|vm_compute; intro; discriminate]);
    unfold event_wf, kind_wf, est_wf, seal_wf, did_string_wf, key_wf, sig_wf; cbn [ev_kind]; eval_wf.
Qed.
End Scenario.
Import Scenario.

Lemma kel_round_trip_witness :
  Kel_from_bytes (Kel_to_bytes (ctl_kel rotated)) = Ok (ctl_kel rotated).
Proof. apply (kel_round_trip (ctl_kel rotated)). exact rotated_wf. Defined.

Definition rotated_bytes : bytes := Eval vm_compute in Kel_to_bytes (ctl_kel rotated).
Lemma rotated_bytes_ok : bytes_ok rotated_bytes.
Proof. apply (bool_decide_eq_true_1 (bytes_ok _)). vm_compute. reflexivity. Qed.
Lemma rotated_bytes_decode : Kel_from_bytes rotated_bytes = Ok (ctl_kel rotated).
Proof. vm_compute. reflexivity. Qed.
Lemma rotated_verifies : Kel_verify (ctl_kel rotated) = Ok (ctl_key_state rotated).
Proof. vm_compute. reflexivity. Qed.

Lemma kel_bytes_canonical_witness : Kel_to_bytes (ctl_kel rotated) = rotated_bytes.
Proof.
  apply (kel_bytes_canonical rotated_bytes (ctl_kel rotated)).
  - exact rotated_bytes_ok.
  - exact rotated_bytes_decode.
Defined.

Definition rotated_head : bytes := Eval vm_compute in
  match head_digest (ctl_kel rotated) with Ok h => h | Err _ => [] end.
Lemma rotated_head_ok : head_digest (ctl_kel rotated) = Ok rotated_head.
Proof. vm_compute. reflexivity. Qed.

Lemma head_digest_pins_log_witness : rotated_bytes = rotated_bytes \/ blake3_collision.
Proof.
  apply (head_digest_pins_log rotated_bytes rotated_bytes (ctl_kel rotated) (ctl_kel rotated)
    (ctl_key_state rotated) (ctl_key_state rotated) rotated_head);
  first [exact rotated_bytes_ok | exact rotated_bytes_decode | exact rotated_verifies
        | exact rotated_head_ok].
Defined.

Lemma controller_log_verifies_witness :
  verify_message (ctl_kel rotated) (lit "hello") (sign_message rotated (lit "hello")) = Ok tt.
Proof.
  apply (controller_log_verifies rotated (lit "hello")). exact rotated_reachable.
Defined.

(** The third event of [rotated]'s log is the rotation to the committed key. *)
Definition rotation_event : Event := Eval vm_compute in
  match ctl_events rotated with [_; _; e] => e | _ => mkEvent Ed25519 [] 0 [] (Interaction []) [] end.

Lemma verified_log_authorised_witness :
  exists before after,
    key_state_at (ctl_kel rotated) 1 = Ok before /\
    key_state_at (ctl_kel rotated) (1 + 1) = Ok after /\
    authorised before rotation_event after.
Proof.
  apply (verified_log_authorised (ctl_kel rotated) (ctl_key_state rotated) 1 rotation_event).
  - exact rotated_verifies.
  - vm_compute. reflexivity.
Defined.

Lemma history_stable_witness :
  key_state_at (ctl_kel root0) 0 =
  key_state_at (mkKel (kel_scid (ctl_kel root0))
    (kel_events (ctl_kel root0) ++ tail (kel_events (ctl_kel rotated)))) 0.
Proof.
  refine (proj1 (history_stable (ctl_kel root0) (tail (kel_events (ctl_kel rotated)))
    (ctl_key_state rotated) 0 [] [] _ _ _)).
  - discriminate.
  - vm_compute. reflexivity.
  - vm_compute. split; [intro; discriminate|reflexivity].
Defined.

Lemma revocation_effective_witness :
  verify_delegation (ctl_kel rotated) (ctl_kel device) = Ok POST /\
  verify_delegation (ctl_kel revoked) (ctl_kel device) <> Ok POST.
Proof.
  split; [vm_compute; reflexivity|].
  apply (revocation_effective rotated (ctl_kel device) revoked). vm_compute. reflexivity.
Defined.

Definition rotated_pins : gmap bytes Z := <[ctl_scid rotated := 2]> ∅.

Lemma stale_log_refused_witness :
  exists pinned, 2 <= pinned /\
    check_and_pin (pin_all rotated_pins [ctl_kel device]) (ctl_kel granted) = Err (StaleKel pinned 1).
Proof.
  apply (stale_log_refused ∅ (ctl_kel rotated) 2 rotated_pins [ctl_kel device]
    (ctl_kel granted) (ctl_key_state granted)).
  - unfold check_and_pin. rewrite rotated_verifies. reflexivity.
  - reflexivity.
  - vm_compute. reflexivity.
  - reflexivity.
Defined.
