(* ===== verification/Witness.v ===== *)
(** * Witness: receipts, certificates and what they say of a log

    Models [crates/did-mini/src] [witness.rs], [gossip.rs], [assurance.rs]
    and the witness policy of [kel.rs]: the witnesses an identity appoints in
    its own log, the receipts they sign, certificates of enough receipts, the
    summaries peers compare, and how far a verifier may trust a head. *)

From Stdlib Require Import ZArith Lia.
From stdpp Require Import base list gmap sets strings sorting.
From S2P Require Import Prelude Codec Crypto Identity Kel.
Open Scope Z_scope.

(** A whole buffer: [r.finished()] or [TrailingBytes]. *)
Definition whole {A} (p : parser IdentityError A) (b : bytes) : result IdentityError A :=
  '(a, r) ← p (Reader_new b);
  _ ← fail_if (negb (finished r)) TrailingBytes;
  Ok a.

(** ** Versions and identifiers *)
Record WitnessReceiptVersion := mkReceiptVersion { rv_u8 : Z }.
Definition RECEIPT_V1 : WitnessReceiptVersion := mkReceiptVersion 1.
Definition receipt_version_from_u8 (v : Z) : result IdentityError WitnessReceiptVersion :=
  if v =? 1 then Ok (mkReceiptVersion 1) else Err (UnknownWitnessReceiptVersion v).
Record WitnessCertificateVersion := mkCertificateVersion { cv_u8 : Z }.
Definition CERTIFICATE_V1 : WitnessCertificateVersion := mkCertificateVersion 1.
Definition certificate_version_from_u8 (v : Z) : result IdentityError WitnessCertificateVersion :=
  if v =? 1 then Ok (mkCertificateVersion 1) else Err (UnknownWitnessCertificateVersion v).

#[global] Instance Did_countable : Countable Did := inj_countable' did_str mkDid (fun '(mkDid s) => eq_refl).
Record WitnessId := mkWitnessId { wid : Did }.
#[global] Instance WitnessId_eq_dec : EqDecision WitnessId.
Proof. solve_decision. Defined.
#[global] Instance WitnessId_countable : Countable WitnessId := inj_countable' wid mkWitnessId (fun '(mkWitnessId d) => eq_refl).

Definition encode_did (d : Did) : bytes := w_bytes (did_str d).
Definition encode_digest (d : bytes) : bytes := w_bytes d.
Definition rd_digest : parser IdentityError bytes := rd_bytes "event_digest" MAX_MULTIHASH_BYTES.

Inductive KeyEventKind := KeyInception | KeyDelegatedInception | KeyRotation | KeyInteraction | KeySeal.
#[global] Instance KeyEventKind_eq_dec : EqDecision KeyEventKind.
Proof. solve_decision. Defined.
Definition key_event_tag (k : KeyEventKind) : Z :=
  match k with KeyInception => 1 | KeyDelegatedInception => 2 | KeyRotation => 3 | KeyInteraction => 4 | KeySeal => 5 end.
Definition key_event_from_tag (t : Z) : result IdentityError KeyEventKind :=
  if t =? 1 then Ok KeyInception
  else if t =? 2 then Ok KeyDelegatedInception
  else if t =? 3 then Ok KeyRotation
  else if t =? 4 then Ok KeyInteraction
  else if t =? 5 then Ok KeySeal
  else Err (UnknownKeyEventKindTag t).
Definition key_event_kind (k : EventKind) : KeyEventKind :=
  match k with
  | Inception _ => KeyInception
  | DelegatedInception _ _ => KeyDelegatedInception
  | Rotation _ => KeyRotation
  | Interaction _ => KeyInteraction
  | SealEvent _ => KeySeal
  end.

(** ** Policies *)
Record WitnessPolicy := mkWitnessPolicy {
  wp_generation : Z;
  wp_witnesses : list WitnessId;
  wp_threshold : Z;
}.
#[global] Instance WitnessPolicy_eq_dec : EqDecision WitnessPolicy.
Proof. solve_decision. Defined.
Definition WitnessPolicy_new (generation : Z) (witnesses : list WitnessId) (threshold : Z) : result IdentityError WitnessPolicy :=
  let n := Z.of_nat (length witnesses) in
  _ ← fail_if (n =? 0) EmptyWitnessSet;
  _ ← fail_if (MAX_WITNESSES <? n) (TooManyItems "witnesses" MAX_WITNESSES n);
  _ ← fail_if ((threshold =? 0) || (n <? threshold)) (InvalidWitnessThreshold threshold n);
  _ ← fail_if (negb (bool_decide (NoDup witnesses))) DuplicateWitness;
  Ok (mkWitnessPolicy generation witnesses threshold).
Definition policy_contains (p : WitnessPolicy) (id : WitnessId) : bool := bool_decide (id ∈ wp_witnesses p).

Section Witness.
Context {P : Primitives}.

Definition rd_did : parser IdentityError Did :=
  b ← rd_bytes "did" MAX_DID_BYTES;
  _ ← lift (fail_if (negb (utf8_valid b)) DidFormat);
  lift (Did_parse b).
Definition rd_wid : parser IdentityError WitnessId := d ← rd_did; mret (mkWitnessId d).

Definition policy_encode (p : WitnessPolicy) : bytes :=
  w_u64 (wp_generation p) ++ w_u32 (Z.of_nat (length (wp_witnesses p)))
  ++ concat (map (fun w => encode_did (wid w)) (wp_witnesses p)) ++ w_u32 (wp_threshold p).
Definition rd_policy : parser IdentityError (Z * list WitnessId * Z) :=
  generation ← rd_u64;
  n ← rd_u32;
  _ ← lift (checked_count n MAX_WITNESSES "witnesses");
  witnesses ← r_repeat (Z.to_nat n) rd_wid;
  threshold ← rd_u32;
  _ ← lift (fail_if (U16_MAX <? threshold) (InvalidWitnessThreshold U16_MAX (Z.of_nat (length witnesses))));
  mret (generation, witnesses, threshold).
Definition policy_decode (b : bytes) : result IdentityError WitnessPolicy :=
  '(generation, witnesses, threshold) ← whole rd_policy b;
  WitnessPolicy_new generation witnesses threshold.

(** [Kel::declared_witness_policy]. *)
Definition establishment_of (k : EventKind) : option Establishment :=
  match k with
  | Inception est | Rotation est | DelegatedInception est _ => Some est
  | _ => None
  end.
Definition parse_witness (b : bytes) : option WitnessId :=
  if utf8_valid b then match Did_parse b with Ok d => Some (mkWitnessId d) | Err _ => None end else None.
Definition establishment_policy (sn : Z) (est : Establishment) : option WitnessPolicy :=
  match est_witnesses est with
  | [] => None
  | ws =>
      witnesses ← mapM parse_witness ws;
      if U16_MAX <? est_witness_threshold est then None
      else match WitnessPolicy_new sn witnesses (est_witness_threshold est) with Ok p => Some p | Err _ => None end
  end.
Fixpoint latest_policy (newest_first : list Event) : option WitnessPolicy :=
  match newest_first with
  | [] => None
  | e :: rest =>
      match establishment_of (ev_kind e) with
      | None => latest_policy rest
      | Some est => establishment_policy (ev_sn e) est
      end
  end.
Definition declared_witness_policy (k : Kel) : option WitnessPolicy := latest_policy (rev (kel_events k)).

(** ** Receipts *)
Record WitnessReceiptStatement := mkStatement {
  ws_version : WitnessReceiptVersion;
  ws_identity : Did;
  ws_sequence : Z;
  ws_event_digest : bytes;
  ws_prior_event_digest : option bytes;
  ws_event_kind : KeyEventKind;
  ws_witness_policy_generation : Z;
  ws_witness_id : WitnessId;
  ws_observed_epoch : Z;
}.
#[global] Instance WitnessReceiptStatement_eq_dec : EqDecision WitnessReceiptStatement.
Proof.
  assert (EqDecision WitnessReceiptVersion) by solve_decision. solve_decision.
Defined.
Definition statement_encode (s : WitnessReceiptStatement) : bytes :=
  w_u8 (rv_u8 (ws_version s)) ++ encode_did (ws_identity s) ++ w_u64 (ws_sequence s) ++ encode_digest (ws_event_digest s)
  ++ match ws_prior_event_digest s with None => w_u8 0 | Some d => w_u8 1 ++ encode_digest d end
  ++ w_u8 (key_event_tag (ws_event_kind s)) ++ w_u64 (ws_witness_policy_generation s) ++ encode_did (wid (ws_witness_id s))
  ++ w_u64 (ws_observed_epoch s).
Definition rd_prior : parser IdentityError (option bytes) :=
  t ← rd_u8;
  if t =? 0 then mret None
  else if t =? 1 then d ← rd_digest; mret (Some d)
  else lift (Err BadEvent).
Definition rd_statement : parser IdentityError WitnessReceiptStatement :=
  v ← rd_u8;
  version ← lift (receipt_version_from_u8 v);
  identity ← rd_did;
  sequence ← rd_u64;
  event_digest ← rd_digest;
  prior ← rd_prior;
  t ← rd_u8;
  kind ← lift (key_event_from_tag t);
  generation ← rd_u64;
  witness_id ← rd_wid;
  epoch ← rd_u64;
  mret (mkStatement version identity sequence event_digest prior kind generation witness_id epoch).
Definition statement_decode (b : bytes) : result IdentityError WitnessReceiptStatement := whole rd_statement b.

Record WitnessReceipt := mkReceipt { wr_statement : WitnessReceiptStatement; wr_signature : Signature }.
#[global] Instance WitnessReceipt_eq_dec : EqDecision WitnessReceipt.
Proof. solve_decision. Defined.
Definition sign_witness_receipt (s : WitnessReceiptStatement) (key : SigningKey) : WitnessReceipt :=
  mkReceipt s (sk_sign key (statement_encode s)).
Definition receipt_verify (r : WitnessReceipt) (key : VerifyingKey) : result IdentityError unit :=
  map_err Crypto (vk_verify key (statement_encode (wr_statement r)) (wr_signature r)).
Definition MAX_STATEMENT_BYTES : Z := 2 * MAX_DID_BYTES + 2 * MAX_MULTIHASH_BYTES + 64.
Definition receipt_encode (r : WitnessReceipt) : bytes :=
  w_bytes (statement_encode (wr_statement r)) ++ w_u8 (suite_tag (sig_suite (wr_signature r))) ++ w_bytes (sig_bytes (wr_signature r)).
Definition rd_receipt : parser IdentityError WitnessReceipt :=
  b ← rd_bytes "statement" MAX_STATEMENT_BYTES;
  statement ← lift (statement_decode b);
  t ← rd_u8;
  suite ← lift (map_err Crypto (suite_from_tag t));
  sg ← rd_bytes "signature" MAX_SIGNATURE_BYTES;
  signature ← lift (map_err Crypto (Signature_from_suite_bytes suite sg));
  mret (mkReceipt statement signature).
Definition receipt_decode (b : bytes) : result IdentityError WitnessReceipt := whole rd_receipt b.

(** ** Certificates *)
Record WitnessedEventCertificate := mkCertificate {
  ce_version : WitnessCertificateVersion;
  ce_identity : Did;
  ce_sequence : Z;
  ce_event_digest : bytes;
  ce_witness_policy_generation : Z;
  ce_receipts : list WitnessReceipt;
}.
Definition receipt_matches (r : WitnessReceipt) (identity : Did) (sequence : Z) (digest : bytes) (generation : Z) : bool :=
  bool_decide (ws_identity (wr_statement r) = identity) && (ws_sequence (wr_statement r) =? sequence) &&
  bool_decide (ws_event_digest (wr_statement r) = digest) && (ws_witness_policy_generation (wr_statement r) =? generation).
Definition check_receipt_matches (r : WitnessReceipt) (identity : Did) (sequence : Z) (digest : bytes) (generation : Z) : result IdentityError unit :=
  fail_if (negb (receipt_matches r identity sequence digest generation)) WitnessReceiptMismatch.
Fixpoint check_receipts (rs : list WitnessReceipt) (identity : Did) (sequence : Z) (digest : bytes) (generation : Z) : result IdentityError unit :=
  match rs with
  | [] => Ok tt
  | r :: rs => _ ← check_receipt_matches r identity sequence digest generation; check_receipts rs identity sequence digest generation
  end.
(** The order of the witnesses' identifiers as strings. *)
Definition receipt_le (a b : WitnessReceipt) : Prop :=
  bytes_le (did_str (wid (ws_witness_id (wr_statement a)))) (did_str (wid (ws_witness_id (wr_statement b)))).
#[global] Instance receipt_le_dec : RelDecision receipt_le := fun a b => bytes_le_dec _ _.
Definition certificate_assemble (identity : Did) (sequence : Z) (digest : bytes) (generation : Z) (receipts : list WitnessReceipt) :
    result IdentityError WitnessedEventCertificate :=
  let n := Z.of_nat (length receipts) in
  _ ← fail_if (n =? 0) EmptyWitnessSet;
  _ ← fail_if (MAX_WITNESSES <? n) (TooManyItems "receipts" MAX_WITNESSES n);
  _ ← check_receipts receipts identity sequence digest generation;
  Ok (mkCertificate CERTIFICATE_V1 identity sequence digest generation (merge_sort receipt_le receipts)).

(** The loop of [verify]: the witnesses counted so far. *)
Fixpoint count_receipts (c : WitnessedEventCertificate) (policy : WitnessPolicy) (resolve : WitnessId -> option VerifyingKey)
    (counted : list WitnessId) (rs : list WitnessReceipt) : result IdentityError (list WitnessId) :=
  match rs with
  | [] => Ok counted
  | r :: rs =>
      let id := ws_witness_id (wr_statement r) in
      _ ← check_receipt_matches r (ce_identity c) (ce_sequence c) (ce_event_digest c) (ce_witness_policy_generation c);
      _ ← fail_if (negb (policy_contains policy id)) WitnessNotInPolicy;
      if bool_decide (id ∈ counted) then count_receipts c policy resolve counted rs
      else
        key ← ok_or (resolve id) UnresolvedWitnessKey;
        _ ← receipt_verify r key;
        count_receipts c policy resolve (counted ++ [id]) rs
  end.
Definition certificate_verify (c : WitnessedEventCertificate) (policy : WitnessPolicy) (resolve : WitnessId -> option VerifyingKey) :
    result IdentityError unit :=
  _ ← fail_if (negb (wp_generation policy =? ce_witness_policy_generation c))
        (WitnessPolicyGenerationMismatch (wp_generation policy) (ce_witness_policy_generation c));
  counted ← count_receipts c policy resolve [] (ce_receipts c);
  let got := Z.of_nat (length counted) mod 2 ^ 16 in
  fail_if (got <? wp_threshold policy) (WitnessThresholdNotMet (wp_threshold policy) got).

Definition MAX_RECEIPT_BYTES : Z := MAX_STATEMENT_BYTES + MAX_SIGNATURE_BYTES + 64.
Definition certificate_encode (c : WitnessedEventCertificate) : bytes :=
  w_u8 (cv_u8 (ce_version c)) ++ encode_did (ce_identity c) ++ w_u64 (ce_sequence c) ++ encode_digest (ce_event_digest c)
  ++ w_u64 (ce_witness_policy_generation c) ++ w_u32 (Z.of_nat (length (ce_receipts c)))
  ++ concat (map (fun r => w_bytes (receipt_encode r)) (ce_receipts c)).
Definition rd_cert_receipt : parser IdentityError WitnessReceipt :=
  b ← rd_bytes "receipt" MAX_RECEIPT_BYTES; lift (receipt_decode b).
Definition rd_certificate : parser IdentityError WitnessedEventCertificate :=
  v ← rd_u8;
  version ← lift (certificate_version_from_u8 v);
  identity ← rd_did;
  sequence ← rd_u64;
  digest ← rd_digest;
  generation ← rd_u64;
  n ← rd_u32;
  _ ← lift (checked_count n MAX_WITNESSES "receipts");
  receipts ← r_repeat (Z.to_nat n) rd_cert_receipt;
  mret (mkCertificate version identity sequence digest generation receipts).
Definition certificate_decode (b : bytes) : result IdentityError WitnessedEventCertificate :=
  c ← whole rd_certificate b;
  _ ← fail_if (bool_decide (ce_receipts c = [])) EmptyWitnessSet;
  Ok c.

(** ** Assurance *)
Inductive KelAssurance := Direct | Pinned | Witnessed | WitnessedRecent | DuplicityDetected.
Record WitnessEvidence := mkEvidence {
  we_certificate : WitnessedEventCertificate;
  we_resolve_witness_key : WitnessId -> option VerifyingKey;
  we_now_epoch : Z;
  we_max_epoch_age : Z;
}.
(** The certificate is about the head of the log. *)
Definition about_head (c : WitnessedEventCertificate) (k : Kel) (head : Event) : bool :=
  bool_decide (ce_identity c = kel_did k) && (ce_sequence c =? ev_sn head) && bool_decide (ce_event_digest c = ev_digest head).
Definition recent (e : WitnessEvidence) : bool :=
  forallb (fun r => saturating_sub (we_now_epoch e) (ws_observed_epoch (wr_statement r)) <=? we_max_epoch_age e) (ce_receipts (we_certificate e)).
Definition assess_kel_assurance (k : Kel) (pins : gmap bytes Z) (witnessing : option WitnessEvidence) (known_duplicity : bool) :
    gmap bytes Z * result IdentityError KelAssurance :=
  let was_pinned := bool_decide (is_Some (pins !! kel_scid k)) in
  match check_and_pin pins k with
  | Err e => (pins, Err e)
  | Ok (_, pins) =>
      (pins,
       if known_duplicity then Ok DuplicityDetected
       else match witnessing with
            | None => Ok (if was_pinned then Pinned else Direct)
            | Some evidence =>
                head ← ok_or (last (kel_events k)) EmptyKel;
                policy ← ok_or (declared_witness_policy k) NoWitnessPolicyDeclared;
                _ ← certificate_verify (we_certificate evidence) policy (we_resolve_witness_key evidence);
                _ ← fail_if (negb (about_head (we_certificate evidence) k head)) WitnessReceiptMismatch;
                Ok (if recent evidence then WitnessedRecent else Witnessed)
            end)
  end.

(** ** Head summaries *)
Record KelHeadSummary := mkSummary {
  hs_identity : Did;
  hs_sequence : Z;
  hs_event_digest : bytes;
  hs_witness_policy_generation : option Z;
}.
Definition summarize (k : Kel) : result IdentityError KelHeadSummary :=
  event ← ok_or (last (kel_events k)) EmptyKel;
  Ok (mkSummary (kel_did k) (ev_sn event) (ev_digest event) (wp_generation <$> declared_witness_policy k)).
Definition summary_encode (s : KelHeadSummary) : bytes :=
  encode_did (hs_identity s) ++ w_u64 (hs_sequence s) ++ w_bytes (hs_event_digest s)
  ++ match hs_witness_policy_generation s with None => w_u8 0 | Some g => w_u8 1 ++ w_u64 g end.
Definition rd_generation : parser IdentityError (option Z) :=
  t ← rd_u8;
  if t =? 0 then mret None
  else if t =? 1 then g ← rd_u64; mret (Some g)
  else lift (Err BadEvent).
Definition rd_summary : parser IdentityError KelHeadSummary :=
  identity ← rd_did;
  sequence ← rd_u64;
  digest ← rd_digest;
  generation ← rd_generation;
  mret (mkSummary identity sequence digest generation).
Definition summary_decode (b : bytes) : result IdentityError KelHeadSummary := whole rd_summary b.

Inductive HeadAgreement := Agrees | Disagreement (at_sequence : Z) | Ahead (by_ : Z) | Behind (by_ : Z).
Definition compare_head_summaries (mine other : KelHeadSummary) : result IdentityError HeadAgreement :=
  _ ← fail_if (negb (bool_decide (hs_identity mine = hs_identity other))) MismatchedGossipIdentity;
  Ok (match hs_sequence mine ?= hs_sequence other with
      | Eq => if bool_decide (hs_event_digest mine = hs_event_digest other) then Agrees else Disagreement (hs_sequence mine)
      | Gt => Ahead (hs_sequence mine - hs_sequence other)
      | Lt => Behind (hs_sequence other - hs_sequence mine)
      end).
End Witness.
