(* ===== verification/WitnessJournal.v ===== *)
(** * WitnessJournal: what a witness signs, and the proofs of conflict

    Models [crates/did-mini/src] [witness_state.rs], [witness_protocol.rs],
    [witness_rotation.rs] and [duplicity.rs]: the state a witness keeps per
    identity, the messages that ask it, the certification of a change of
    witnesses, and the registry of known conflicts. *)

From Stdlib Require Import ZArith Lia.
From stdpp Require Import base list gmap sets strings sorting.
From S2P Require Import Prelude Codec Crypto Identity Kel Witness.
Open Scope Z_scope.

Definition MAX_KEL_WIRE_BYTES : Z := 8 * 1024 * 1024.
Definition MAX_PROTOCOL_RECEIPT_BYTES : Z := 8 * 1024.
Definition MAX_DUPLICITY_PROOF_BYTES : Z := 256 * 1024.
Definition MAX_PROOF_EVENT_BYTES : Z := 64 * 1024.

Section WitnessJournal.
Context {P : Primitives}.

(** ** Proofs of conflict *)
Record ControllerDuplicityProof := mkDuplicity {
  dp_identity : Did;
  dp_sequence : Z;
  dp_event_a : Event;
  dp_event_b : Event;
}.
Definition duplicity_assemble (identity : Did) (a b : Event) : result IdentityError ControllerDuplicityProof :=
  _ ← fail_if (negb (bool_decide (ev_scid a = did_scid identity)) || negb (bool_decide (ev_scid b = did_scid identity)) ||
        negb (ev_sn a =? ev_sn b) || bool_decide (ev_digest a = ev_digest b)) ControllerDuplicityMismatch;
  Ok (mkDuplicity identity (ev_sn a) a b).
Definition duplicity_encode (p : ControllerDuplicityProof) : bytes :=
  w_bytes (did_str (dp_identity p)) ++ w_u64 (dp_sequence p) ++ w_bytes (full_bytes (dp_event_a p)) ++ w_bytes (full_bytes (dp_event_b p)).
Definition rd_proof_event (field : string) : parser IdentityError Event :=
  b ← rd_bytes field MAX_PROOF_EVENT_BYTES; lift (whole decode_event b).
Definition rd_duplicity : parser IdentityError (Did * Z * Event * Event) :=
  b ← rd_bytes "identity" MAX_DID_BYTES;
  _ ← lift (fail_if (negb (utf8_valid b)) DidFormat);
  identity ← lift (Did_parse b);
  sequence ← rd_u64;
  a ← rd_proof_event "event_a";
  e ← rd_proof_event "event_b";
  mret (identity, sequence, a, e).
Definition duplicity_decode (b : bytes) : result IdentityError ControllerDuplicityProof :=
  '(identity, sequence, a, e) ← whole rd_duplicity b;
  proof ← duplicity_assemble identity a e;
  _ ← fail_if (negb (dp_sequence proof =? sequence)) ControllerDuplicityMismatch;
  Ok proof.

Record WitnessEquivocationProof := mkEquivocation {
  qp_witness_id : WitnessId;
  qp_receipt_a : WitnessReceipt;
  qp_receipt_b : WitnessReceipt;
}.
Definition equivocation_assemble (a b : WitnessReceipt) : result IdentityError WitnessEquivocationProof :=
  let sa := wr_statement a in let sb := wr_statement b in
  _ ← fail_if (negb (bool_decide (ws_witness_id sa = ws_witness_id sb)) || negb (bool_decide (ws_identity sa = ws_identity sb)) ||
        negb (ws_sequence sa =? ws_sequence sb) || negb (ws_witness_policy_generation sa =? ws_witness_policy_generation sb) ||
        bool_decide (ws_event_digest sa = ws_event_digest sb)) WitnessEquivocationMismatch;
  Ok (mkEquivocation (ws_witness_id sa) a b).
Definition equivocation_verify (p : WitnessEquivocationProof) (key : VerifyingKey) : result IdentityError unit :=
  _ ← receipt_verify (qp_receipt_a p) key; receipt_verify (qp_receipt_b p) key.
Definition equivocation_encode (p : WitnessEquivocationProof) : bytes :=
  w_bytes (receipt_encode (qp_receipt_a p)) ++ w_bytes (receipt_encode (qp_receipt_b p)).
Definition rd_proof_receipt (field : string) : parser IdentityError WitnessReceipt :=
  b ← rd_bytes field MAX_PROTOCOL_RECEIPT_BYTES; lift (receipt_decode b).
Definition rd_equivocation : parser IdentityError (WitnessReceipt * WitnessReceipt) :=
  a ← rd_proof_receipt "receipt_a"; b ← rd_proof_receipt "receipt_b"; mret (a, b).
Definition equivocation_decode (b : bytes) : result IdentityError WitnessEquivocationProof :=
  '(x, y) ← whole rd_equivocation b; equivocation_assemble x y.

(** ** The registry *)
Record DuplicityRegistry := mkRegistry {
  dr_controller : gmap Did ControllerDuplicityProof;
  dr_witness : gmap WitnessId WitnessEquivocationProof;
}.
Definition registry_new : DuplicityRegistry := mkRegistry ∅ ∅.
Definition record_controller_duplicity (r : DuplicityRegistry) (p : ControllerDuplicityProof) : DuplicityRegistry :=
  mkRegistry (<[dp_identity p := p]> (dr_controller r)) (dr_witness r).
Definition record_witness_equivocation (r : DuplicityRegistry) (p : WitnessEquivocationProof) : DuplicityRegistry :=
  mkRegistry (dr_controller r) (<[qp_witness_id p := p]> (dr_witness r)).
Definition has_known_duplicity (r : DuplicityRegistry) (identity : Did) (policy : option WitnessPolicy) : bool :=
  if bool_decide (is_Some (dr_controller r !! identity)) then true
  else match policy with
       | Some policy => existsb (fun x => policy_contains policy x.1) (map_to_list (dr_witness r))
       | None => false
       end.

(** ** The journal *)
Record WitnessIdentityState := mkIdentityState {
  wi_identity : Did;
  wi_accepted_sequence : Z;
  wi_accepted_event_digest : bytes;
  wi_witness_policy_generation : Z;
  wi_accepted_event : Event;
  wi_issued_receipt : WitnessReceipt;
  wi_accepted_policy : WitnessPolicy;
}.
Inductive WitnessObservation :=
| Accepted (r : WitnessReceipt)
| AlreadyAccepted (r : WitnessReceipt)
| Stale (accepted_sequence : Z)
| ControllerDuplicity (p : ControllerDuplicityProof).
(** [TransitionKey]: identity, predecessor digest and retiring generation. *)
Definition TransitionKey : Type := Did * bytes * Z.
Record WitnessJournal := mkJournal {
  wj_states : gmap Did WitnessIdentityState;
  wj_transition_certifications : gmap TransitionKey bytes;
}.
Definition journal_new : WitnessJournal := mkJournal ∅ ∅.
Definition state_for (j : WitnessJournal) (identity : Did) : option WitnessIdentityState := wj_states j !! identity.
Definition transition_certification (j : WitnessJournal) (identity : Did) (predecessor : bytes) (generation : Z) : option bytes :=
  wj_transition_certifications j !! ((identity, predecessor, generation) : TransitionKey).
Definition record_transition_certification (j : WitnessJournal) (identity : Did) (predecessor : bytes) (generation : Z) (successor : bytes) : WitnessJournal :=
  mkJournal (wj_states j) (<[(identity, predecessor, generation) : TransitionKey := successor]> (wj_transition_certifications j)).

Inductive Decision :=
| Accept
| Duplicate (r : WitnessReceipt)
| StaleEvent (accepted_sequence : Z)
| Conflict (accepted_event : Event)
| ConflictingDescendant.
Definition decision (state : option WitnessIdentityState) (event : Event) : Decision :=
  match state with
  | None => Accept
  | Some s =>
      if (ev_sn event =? wi_accepted_sequence s) && bool_decide (ev_digest event = wi_accepted_event_digest s)
      then Duplicate (wi_issued_receipt s)
      else if (ev_sn event =? wrapping_add 64 (wi_accepted_sequence s) 1) && bool_decide (ev_prior event = wi_accepted_event_digest s)
      then Accept
      else if ev_sn event <? wi_accepted_sequence s then StaleEvent (wi_accepted_sequence s)
      else if (ev_sn event =? wi_accepted_sequence s) && negb (bool_decide (ev_digest event = wi_accepted_event_digest s))
      then Conflict (wi_accepted_event s)
      else ConflictingDescendant
  end.
Definition statement_of (identity : Did) (event : Event) (generation : Z) (witness_id : WitnessId) (observed_epoch : Z) : WitnessReceiptStatement :=
  mkStatement RECEIPT_V1 identity (ev_sn event) (ev_digest event) (if bool_decide (ev_prior event = []) then None else Some (ev_prior event))
    (key_event_kind (ev_kind event)) generation witness_id observed_epoch.
(** A rival of the successor that was certified is not signed. *)
Definition check_certified (j : WitnessJournal) (identity : Did) (event : Event) : result IdentityError unit :=
  match wj_states j !! identity with
  | None => Ok tt
  | Some previous =>
      match transition_certification j identity (ev_prior event) (wp_generation (wi_accepted_policy previous)) with
      | Some certified => fail_if (negb (bool_decide (certified = ev_digest event))) ConflictingPolicyTransitionCertification
      | None => Ok tt
      end
  end.
Definition accept (j : WitnessJournal) (identity : Did) (event : Event) (policy : WitnessPolicy) (receipt : WitnessReceipt) : WitnessJournal :=
  mkJournal (<[identity := mkIdentityState identity (ev_sn event) (ev_digest event) (wp_generation policy) event receipt policy]> (wj_states j))
    (wj_transition_certifications j).
Definition observe (j : WitnessJournal) (event : Event) (policy : WitnessPolicy) (witness_id : WitnessId) (key : SigningKey) (epoch : Z) :
    result IdentityError (WitnessJournal * WitnessObservation) :=
  _ ← fail_if (negb (policy_contains policy witness_id)) WitnessNotInPolicy;
  identity ← from_scid (ev_scid event);
  match decision (wj_states j !! identity) event with
  | Duplicate receipt => Ok (j, AlreadyAccepted receipt)
  | StaleEvent n => Ok (j, Stale n)
  | Conflict accepted => proof ← duplicity_assemble identity accepted event; Ok (j, ControllerDuplicity proof)
  | ConflictingDescendant => Err (WitnessConflictingDescendant (ev_sn event))
  | Accept =>
      _ ← check_certified j identity event;
      let receipt := sign_witness_receipt (statement_of identity event (wp_generation policy) witness_id epoch) key in
      Ok (accept j identity event policy receipt, Accepted receipt)
  end.
Definition observe_verified (j : WitnessJournal) (k : Kel) (policy : WitnessPolicy) (witness_id : WitnessId) (key : SigningKey) (epoch : Z) :
    result IdentityError (WitnessJournal * WitnessObservation) :=
  _ ← Kel_verify k;
  event ← ok_or (last (kel_events k)) EmptyKel;
  observe j event policy witness_id key epoch.
Definition observe_declared (j : WitnessJournal) (k : Kel) (witness_id : WitnessId) (key : SigningKey) (epoch : Z) :
    result IdentityError (WitnessJournal * WitnessObservation) :=
  _ ← Kel_verify k;
  policy ← ok_or (declared_witness_policy k) NoWitnessPolicyDeclared;
  event ← ok_or (last (kel_events k)) EmptyKel;
  observe j event policy witness_id key epoch.

(** ** Asking a witness *)
Record SubmitEventForWitnessingRequest := mkSubmit { sb_kel : Kel }.
Definition submit_encode (r : SubmitEventForWitnessingRequest) : bytes := w_bytes (Kel_to_bytes (sb_kel r)).
Definition rd_submit : parser IdentityError SubmitEventForWitnessingRequest :=
  b ← rd_bytes "kel" MAX_KEL_WIRE_BYTES; k ← lift (Kel_from_bytes b); mret (mkSubmit k).
Definition submit_decode (b : bytes) : result IdentityError SubmitEventForWitnessingRequest := whole rd_submit b.

Inductive RejectionReason := ChainInvalid | NoPolicyDeclared | NotInPolicy | DescendantConflict (sequence : Z).
Definition rejection_tag (r : RejectionReason) : Z :=
  match r with ChainInvalid => 1 | NoPolicyDeclared => 2 | NotInPolicy => 3 | DescendantConflict _ => 4 end.
Inductive SubmitEventForWitnessingResponse :=
| RespAccepted (r : WitnessReceipt)
| RespAlreadyAccepted (r : WitnessReceipt)
| RespStale (accepted_sequence : Z)
| RespControllerDuplicity (p : ControllerDuplicityProof)
| RespRejected (reason : RejectionReason).
Definition submit_response_encode (r : SubmitEventForWitnessingResponse) : bytes :=
  match r with
  | RespAccepted receipt => w_u8 1 ++ w_bytes (receipt_encode receipt)
  | RespAlreadyAccepted receipt => w_u8 2 ++ w_bytes (receipt_encode receipt)
  | RespStale n => w_u8 3 ++ w_u64 n
  | RespControllerDuplicity p => w_u8 4 ++ w_bytes (duplicity_encode p)
  | RespRejected reason =>
      w_u8 5 ++ w_u8 (rejection_tag reason) ++ match reason with DescendantConflict n => w_u64 n | _ => [] end
  end.
Definition rd_reason : parser IdentityError RejectionReason :=
  t ← rd_u8;
  if t =? 1 then mret ChainInvalid
  else if t =? 2 then mret NoPolicyDeclared
  else if t =? 3 then mret NotInPolicy
  else if t =? 4 then n ← rd_u64; mret (DescendantConflict n)
  else lift (Err BadEvent).
Definition rd_submit_response : parser IdentityError SubmitEventForWitnessingResponse :=
  t ← rd_u8;
  if t =? 1 then r ← rd_proof_receipt "receipt"; mret (RespAccepted r)
  else if t =? 2 then r ← rd_proof_receipt "receipt"; mret (RespAlreadyAccepted r)
  else if t =? 3 then n ← rd_u64; mret (RespStale n)
  else if t =? 4 then
    b ← rd_bytes "duplicity_proof" MAX_DUPLICITY_PROOF_BYTES;
    p ← lift (duplicity_decode b);
    mret (RespControllerDuplicity p)
  else if t =? 5 then reason ← rd_reason; mret (RespRejected reason)
  else lift (Err BadEvent).
Definition submit_response_decode (b : bytes) : result IdentityError SubmitEventForWitnessingResponse := whole rd_submit_response b.

Definition handle_submit_for_witnessing (j : WitnessJournal) (request : SubmitEventForWitnessingRequest) (witness_id : WitnessId)
    (key : SigningKey) (epoch : Z) : WitnessJournal * SubmitEventForWitnessingResponse :=
  match observe_declared j (sb_kel request) witness_id key epoch with
  | Ok (j, Accepted r) => (j, RespAccepted r)
  | Ok (j, AlreadyAccepted r) => (j, RespAlreadyAccepted r)
  | Ok (j, Stale n) => (j, RespStale n)
  | Ok (j, ControllerDuplicity p) => (j, RespControllerDuplicity p)
  | Err NoWitnessPolicyDeclared => (j, RespRejected NoPolicyDeclared)
  | Err WitnessNotInPolicy => (j, RespRejected NotInPolicy)
  | Err (WitnessConflictingDescendant n) => (j, RespRejected (DescendantConflict n))
  | Err _ => (j, RespRejected ChainInvalid)
  end.

Record FetchWitnessReceiptRequest := mkFetch { fr_identity : Did; fr_sequence : Z }.
Definition fetch_encode (r : FetchWitnessReceiptRequest) : bytes := encode_did (fr_identity r) ++ w_u64 (fr_sequence r).
Definition rd_fetch : parser IdentityError FetchWitnessReceiptRequest := d ← rd_did; n ← rd_u64; mret (mkFetch d n).
Definition fetch_decode (b : bytes) : result IdentityError FetchWitnessReceiptRequest := whole rd_fetch b.
Inductive FetchWitnessReceiptResponse := Found (r : WitnessReceipt) | NotFound.
Definition fetch_response_encode (r : FetchWitnessReceiptResponse) : bytes :=
  match r with Found receipt => w_u8 1 ++ w_bytes (receipt_encode receipt) | NotFound => w_u8 2 end.
Definition rd_fetch_response : parser IdentityError FetchWitnessReceiptResponse :=
  t ← rd_u8;
  if t =? 1 then r ← rd_proof_receipt "receipt"; mret (Found r)
  else if t =? 2 then mret NotFound
  else lift (Err BadEvent).
Definition fetch_response_decode (b : bytes) : result IdentityError FetchWitnessReceiptResponse := whole rd_fetch_response b.
Definition handle_fetch_witness_receipt (j : WitnessJournal) (request : FetchWitnessReceiptRequest) : FetchWitnessReceiptResponse :=
  match state_for j (fr_identity request) with
  | Some s => if wi_accepted_sequence s =? fr_sequence request then Found (wi_issued_receipt s) else NotFound
  | None => NotFound
  end.

(** [KelHeadSummary::from_witness_state]. *)
Definition from_witness_state (s : WitnessIdentityState) : KelHeadSummary :=
  mkSummary (wi_identity s) (wi_accepted_sequence s) (wi_accepted_event_digest s) (Some (wi_witness_policy_generation s)).

(** ** Changing the witnesses *)
Definition witness_le (a b : WitnessId) : Prop := bytes_le (did_str (wid a)) (did_str (wid b)).
#[global] Instance witness_le_dec : RelDecision witness_le := fun a b => bytes_le_dec _ _.
Definition same_witness_set (a b : list WitnessId) : bool :=
  if negb (length a =? length b)%nat then false
  else bool_decide (merge_sort witness_le a = merge_sort witness_le b).
Definition is_policy_change (old : WitnessPolicy) (new : option WitnessPolicy) : bool :=
  match new with
  | None => true
  | Some new => negb (wp_threshold old =? wp_threshold new) || negb (same_witness_set (wp_witnesses old) (wp_witnesses new))
  end.
Definition certify_policy_transition (j : WitnessJournal) (k : Kel) (witness_id : WitnessId) (key : SigningKey) (epoch : Z) :
    result IdentityError (WitnessJournal * WitnessReceipt) :=
  _ ← Kel_verify k;
  let identity := kel_did k in
  old_state ← ok_or (state_for j identity) NoRetainedWitnessState;
  event ← ok_or (last (kel_events k)) EmptyKel;
  _ ← fail_if (negb (ev_sn event =? wrapping_add 64 (wi_accepted_sequence old_state) 1) ||
        negb (bool_decide (ev_prior event = wi_accepted_event_digest old_state))) (WitnessConflictingDescendant (ev_sn event));
  let old_policy := wi_accepted_policy old_state in
  _ ← fail_if (negb (policy_contains old_policy witness_id)) WitnessNotInPolicy;
  _ ← fail_if (negb (is_policy_change old_policy (declared_witness_policy k))) NotAWitnessPolicyChange;
  let digest := ev_digest event in
  _ ← (match transition_certification j identity (ev_prior event) (wp_generation old_policy) with
       | Some already => fail_if (negb (bool_decide (already = digest))) ConflictingPolicyTransitionCertification
       | None => Ok tt
       end);
  let receipt := sign_witness_receipt (statement_of identity event (wp_generation old_policy) witness_id epoch) key in
  Ok (record_transition_certification j identity (ev_prior event) (wp_generation old_policy) digest, receipt).

Definition verify_policy_transition (old_policy : WitnessPolicy) (new_kel : Kel) (c : WitnessedEventCertificate)
    (resolve : WitnessId -> option VerifyingKey) : result IdentityError unit :=
  _ ← Kel_verify new_kel;
  event ← ok_or (last (kel_events new_kel)) EmptyKel;
  let predecessor := mkKel (kel_scid new_kel) (take (length (kel_events new_kel) - 1) (kel_events new_kel)) in
  declared ← ok_or (declared_witness_policy predecessor) NoWitnessPolicyDeclared;
  _ ← fail_if (negb (wp_generation declared =? wp_generation old_policy) || negb (wp_threshold declared =? wp_threshold old_policy) ||
        negb (same_witness_set (wp_witnesses declared) (wp_witnesses old_policy))) WitnessReceiptMismatch;
  _ ← fail_if (negb (is_policy_change old_policy (declared_witness_policy new_kel))) NotAWitnessPolicyChange;
  _ ← fail_if (negb (about_head c new_kel event)) WitnessReceiptMismatch;
  certificate_verify c old_policy resolve.
(** The incoming witnesses accepted the event, where it appoints any. *)
Definition verify_readiness (new_policy : option WitnessPolicy) (new_kel : Kel) (event : Event) (c : option WitnessedEventCertificate)
    (resolve : WitnessId -> option VerifyingKey) : result IdentityError unit :=
  match new_policy with
  | None => Ok tt
  | Some new_policy =>
      c ← ok_or c (WitnessThresholdNotMet (wp_threshold new_policy) 0);
      _ ← fail_if (negb (about_head c new_kel event)) WitnessReceiptMismatch;
      certificate_verify c new_policy resolve
  end.
Definition verify_witness_rotation (old_policy : WitnessPolicy) (new_kel : Kel) (old_certificate : WitnessedEventCertificate)
    (new_certificate : option WitnessedEventCertificate) (resolve : WitnessId -> option VerifyingKey) : result IdentityError unit :=
  _ ← verify_policy_transition old_policy new_kel old_certificate resolve;
  match declared_witness_policy new_kel with
  | None => Ok tt
  | Some new_policy =>
      event ← ok_or (last (kel_events new_kel)) EmptyKel;
      verify_readiness (Some new_policy) new_kel event new_certificate resolve
  end.

(** ** Recovery from witnesses that are gone *)
Record DeadWitnessRecoveryPolicy := mkRecoveryPolicy {
  rp_min_unreachable_witnesses : Z;
  rp_min_waiting_period_epochs : Z;
}.
Record WitnessUnavailabilityAttestation := mkAttestation {
  ua_identity : Did;
  ua_witness_id : WitnessId;
  ua_witness_policy_generation : Z;
  ua_first_unreachable_epoch : Z;
  ua_last_attempt_epoch : Z;
}.
Definition UNAVAILABILITY_DOMAIN : bytes := lit "did-mini/witness-unavailability/v1".
Definition attestation_encode (a : WitnessUnavailabilityAttestation) : bytes :=
  w_bytes UNAVAILABILITY_DOMAIN ++ encode_did (ua_identity a) ++ encode_did (wid (ua_witness_id a)) ++ w_u64 (ua_witness_policy_generation a)
  ++ w_u64 (ua_first_unreachable_epoch a) ++ w_u64 (ua_last_attempt_epoch a).
Definition rd_attestation : parser IdentityError WitnessUnavailabilityAttestation :=
  domain ← rd_bytes "domain" (Z.of_nat (length UNAVAILABILITY_DOMAIN));
  _ ← lift (fail_if (negb (bool_decide (domain = UNAVAILABILITY_DOMAIN))) BadEvent);
  identity ← rd_did;
  witness_id ← rd_wid;
  generation ← rd_u64;
  first ← rd_u64;
  last ← rd_u64;
  mret (mkAttestation identity witness_id generation first last).
Definition attestation_decode (b : bytes) : result IdentityError WitnessUnavailabilityAttestation := whole rd_attestation b.
Definition attestation_sign (a : WitnessUnavailabilityAttestation) (c : Controller) : list IndexedSig := sign_message c (attestation_encode a).

(** The witnesses the attestations show unreachable. *)
Fixpoint count_unreachable (policy : DeadWitnessRecoveryPolicy) (old_policy : WitnessPolicy) (new_kel : Kel) (attesting_sn : Z)
    (distinct : list WitnessId) (l : list (WitnessUnavailabilityAttestation * list IndexedSig)) : result IdentityError (list WitnessId) :=
  match l with
  | [] => Ok distinct
  | (a, sigs) :: l =>
      _ ← fail_if (negb (bool_decide (ua_identity a = kel_did new_kel)) ||
            negb (ua_witness_policy_generation a =? wp_generation old_policy)) WitnessReceiptMismatch;
      _ ← fail_if (negb (policy_contains old_policy (ua_witness_id a))) WitnessNotInPolicy;
      span ← (if ua_last_attempt_epoch a <? ua_first_unreachable_epoch a
              then Err (RecoveryWaitingPeriodNotMet (rp_min_waiting_period_epochs policy) 0)
              else Ok (ua_last_attempt_epoch a - ua_first_unreachable_epoch a));
      _ ← fail_if (span <? rp_min_waiting_period_epochs policy) (RecoveryWaitingPeriodNotMet (rp_min_waiting_period_epochs policy) span);
      _ ← verify_message_at new_kel attesting_sn (attestation_encode a) sigs;
      count_unreachable policy old_policy new_kel attesting_sn
        (if bool_decide (ua_witness_id a ∈ distinct) then distinct else distinct ++ [ua_witness_id a]) l
  end.
Definition verify_dead_witness_recovery (policy : DeadWitnessRecoveryPolicy) (old_policy : WitnessPolicy) (new_kel : Kel)
    (attestations : list (WitnessUnavailabilityAttestation * list IndexedSig)) (new_certificate : option WitnessedEventCertificate)
    (resolve : WitnessId -> option VerifyingKey) : result IdentityError unit :=
  _ ← Kel_verify new_kel;
  event ← ok_or (last (kel_events new_kel)) EmptyKel;
  let new_policy := declared_witness_policy new_kel in
  _ ← fail_if (negb (is_policy_change old_policy new_policy)) NotAWitnessPolicyChange;
  distinct ← count_unreachable policy old_policy new_kel (saturating_sub (ev_sn event) 1) [] attestations;
  let got := Z.of_nat (length distinct) in
  _ ← fail_if (got <? rp_min_unreachable_witnesses policy) (InsufficientUnavailabilityEvidence (rp_min_unreachable_witnesses policy) got);
  verify_readiness new_policy new_kel event new_certificate resolve.
End WitnessJournal.
