(* ===== verification/WitnessWire.v ===== *)
(** * WitnessWire: what witnesses exchange survives the wire

    For every message of the witness layer, decoding the bytes of one within
    the format's limits gives that message back. *)

From Stdlib Require Import ZArith Lia.
From stdpp Require Import base list gmap sets strings.
From S2P Require Import Prelude Codec Crypto Identity Kel KelFacts KelTheorems Witness WitnessJournal.
Open Scope Z_scope.

Section Wire.
Context {P : Primitives} {L : PrimitivesLaws}.

(** ** Messages within the limits *)
Definition did_ok (d : Did) : Prop := Z.of_nat (length (did_str d)) <= MAX_DID_BYTES /\ utf8_valid (did_str d) = true /\ Did_parse (did_str d) = Ok d.
Definition digest_ok (b : bytes) : Prop := Z.of_nat (length b) <= MAX_MULTIHASH_BYTES.
Definition signature_ok (s : Signature) : Prop :=
  length (sig_bytes s) = signature_len (sig_suite s) /\ Z.of_nat (length (sig_bytes s)) <= MAX_SIGNATURE_BYTES.
Record statement_ok (s : WitnessReceiptStatement) : Prop := {
  so_version : ws_version s = RECEIPT_V1;
  so_identity : did_ok (ws_identity s);
  so_sequence : is_u64 (ws_sequence s);
  so_digest : digest_ok (ws_event_digest s);
  so_prior : forall d, ws_prior_event_digest s = Some d -> digest_ok d;
  so_generation : is_u64 (ws_witness_policy_generation s);
  so_witness : did_ok (wid (ws_witness_id s));
  so_epoch : is_u64 (ws_observed_epoch s);
}.
Definition receipt_ok (r : WitnessReceipt) : Prop := statement_ok (wr_statement r) /\ signature_ok (wr_signature r).
Record certificate_ok (c : WitnessedEventCertificate) : Prop := {
  co_version : ce_version c = CERTIFICATE_V1;
  co_identity : did_ok (ce_identity c);
  co_sequence : is_u64 (ce_sequence c);
  co_digest : digest_ok (ce_event_digest c);
  co_generation : is_u64 (ce_witness_policy_generation c);
  co_count : 0 < Z.of_nat (length (ce_receipts c)) <= MAX_WITNESSES;
  co_receipts : Forall receipt_ok (ce_receipts c);
}.
Definition duplicity_ok (p : ControllerDuplicityProof) : Prop :=
  did_ok (dp_identity p) /\ is_u64 (dp_sequence p) /\ event_sized (dp_event_a p) /\ event_sized (dp_event_b p) /\
  duplicity_assemble (dp_identity p) (dp_event_a p) (dp_event_b p) = Ok p.
Definition equivocation_ok (p : WitnessEquivocationProof) : Prop :=
  receipt_ok (qp_receipt_a p) /\ receipt_ok (qp_receipt_b p) /\ equivocation_assemble (qp_receipt_a p) (qp_receipt_b p) = Ok p.
Definition response_ok (r : SubmitEventForWitnessingResponse) : Prop :=
  match r with
  | RespAccepted r | RespAlreadyAccepted r => receipt_ok r
  | RespStale n | RespRejected (DescendantConflict n) => is_u64 n
  | RespControllerDuplicity p => duplicity_ok p
  | RespRejected _ => True
  end.
Definition policy_ok (p : WitnessPolicy) : Prop :=
  is_u64 (wp_generation p) /\ Forall (fun w => did_ok (wid w)) (wp_witnesses p) /\ 0 <= wp_threshold p <= U16_MAX /\
  WitnessPolicy_new (wp_generation p) (wp_witnesses p) (wp_threshold p) = Ok p.
Definition summary_ok (s : KelHeadSummary) : Prop :=
  did_ok (hs_identity s) /\ is_u64 (hs_sequence s) /\ digest_ok (hs_event_digest s) /\
  match hs_witness_policy_generation s with Some g => is_u64 g | None => True end.
Definition attestation_ok (a : WitnessUnavailabilityAttestation) : Prop :=
  did_ok (ua_identity a) /\ did_ok (wid (ua_witness_id a)) /\ is_u64 (ua_witness_policy_generation a) /\
  is_u64 (ua_first_unreachable_epoch a) /\ is_u64 (ua_last_attempt_epoch a).

(** ** The fields *)
Lemma whole_parses {A} (p : parser IdentityError A) b a : parses p b a -> whole p b = Ok a.
Proof. intros H. destruct (parses_new _ _ _ H) as (r & Hp & Hf). unfold whole. rewrite Hp. cbn [mbind result_bind]. by rewrite Hf. Qed.
Lemma parses_rd_did d : did_ok d -> parses rd_did (encode_did d) d.
Proof.
  intros (Hl & Hu & Hp). unfold rd_did, encode_did. eapply parses_bind_nil; [apply parses_rd_bytes; [done|by vm_compute]|].
  eapply (parses_lift _ _ _ tt); [by rewrite Hu|]. by apply parses_lift_end.
Qed.
Lemma parses_rd_wid w : did_ok (wid w) -> parses rd_wid (encode_did (wid w)) w.
Proof. intros H. unfold rd_wid. eapply parses_bind_nil; [by apply parses_rd_did|]. destruct w. apply parses_ret. Qed.
Lemma parses_rd_digest b : digest_ok b -> parses rd_digest (encode_digest b) b.
Proof. intros H. apply parses_rd_bytes; [done|by vm_compute]. Qed.
(** The next field, by the lemma of its kind. *)
Ltac field := eapply parses_bind; [by first [apply parses_u8 | apply parses_u32 | apply parses_u64 | apply parses_rd_did | apply parses_rd_wid | apply parses_rd_digest]|].
Ltac last_field := eapply parses_bind_nil; [by first [apply parses_u8 | apply parses_u32 | apply parses_u64 | apply parses_rd_did | apply parses_rd_wid | apply parses_rd_digest]|].
Ltac passes := eapply parses_lift; [done|].

(** ** Receipts and certificates *)
Lemma parses_rd_prior o : (forall d, o = Some d -> digest_ok d) ->
  parses rd_prior (match o with None => w_u8 0 | Some d => w_u8 1 ++ encode_digest d end) o.
Proof.
  intros H. unfold rd_prior. destruct o as [d|]; [field|last_field; apply parses_ret]. cbn [Z.eqb].
  eapply parses_bind_nil; [by apply parses_rd_digest, H|apply parses_ret].
Qed.
Lemma parses_statement s : statement_ok s -> parses rd_statement (statement_encode s) s.
Proof.
  intros [Hv Hi Hs Hd Hp Hg Hw He]. unfold rd_statement, statement_encode. rewrite Hv. field. passes. do 3 field.
  eapply parses_bind; [by apply parses_rd_prior|]. field.
  eapply (parses_lift _ _ _ (ws_event_kind s)); [by destruct (ws_event_kind s)|]. do 2 field. last_field. destruct s. cbn in *. subst. apply parses_ret.
Qed.
Lemma prior_length (o : option bytes) : (forall d, o = Some d -> digest_ok d) ->
  Z.of_nat (length (match o with None => w_u8 0 | Some d => w_u8 1 ++ encode_digest d end)) <= 5 + MAX_MULTIHASH_BYTES.
Proof.
  intros H. destruct o as [d|]; [|by vm_compute]. specialize (H d eq_refl). unfold digest_ok in H. unfold encode_digest. rewrite length_app, length_w_u8, length_w_bytes. lia.
Qed.
Lemma statement_length s : statement_ok s -> Z.of_nat (length (statement_encode s)) <= MAX_STATEMENT_BYTES.
Proof.
  intros [Hv (Hi & _) Hs Hd Hp Hg (Hw & _) He]. pose proof (prior_length _ Hp). unfold statement_encode, digest_ok, MAX_STATEMENT_BYTES in *.
  rewrite !length_app. unfold encode_did, encode_digest in *. rewrite !length_w_bytes, !length_w_u64, !length_w_u8. lia.
Qed.
Lemma parses_receipt r : receipt_ok r -> parses rd_receipt (receipt_encode r) r.
Proof.
  intros [Hs Hg]. unfold rd_receipt, receipt_encode. eapply parses_bind; [apply parses_rd_bytes; [by apply statement_length|by vm_compute]|].
  eapply parses_lift; [by apply whole_parses, parses_statement|]. field. eapply parses_lift; [by rewrite suite_from_tag_tag|].
  eapply parses_bind_nil; [apply parses_rd_bytes; [apply Hg|by vm_compute]|]. destruct r as [s [su b]]. cbn in *.
  eapply parses_lift; [|apply parses_ret]. unfold Signature_from_suite_bytes. destruct Hg as [Hg _]. cbn in Hg. by rewrite Hg, Nat.eqb_refl.
Qed.
Lemma receipt_round_trip r : receipt_ok r -> receipt_decode (receipt_encode r) = Ok r.
Proof. intros H. by apply whole_parses, parses_receipt. Qed.
Lemma receipt_length r : receipt_ok r -> Z.of_nat (length (receipt_encode r)) <= MAX_STATEMENT_BYTES + MAX_SIGNATURE_BYTES + 9.
Proof.
  intros [Hs [_ Hg]]. apply statement_length in Hs. unfold receipt_encode. rewrite !length_app, !length_w_bytes, length_w_u8. lia.
Qed.
Lemma parses_sized_receipt field max r : receipt_ok r -> MAX_STATEMENT_BYTES + MAX_SIGNATURE_BYTES + 9 <= max <= U32_MAX ->
  parses (b ← rd_bytes field max; lift (receipt_decode b)) (w_bytes (receipt_encode r)) r.
Proof.
  intros H Hm. pose proof (receipt_length r H). eapply parses_bind_nil; [apply parses_rd_bytes; lia|]. by apply parses_lift_end, receipt_round_trip.
Qed.
Lemma parses_proof_receipt field r : receipt_ok r -> parses (rd_proof_receipt field) (w_bytes (receipt_encode r)) r.
Proof. intros H. apply parses_sized_receipt; [done|by vm_compute]. Qed.
Lemma count_fits n max field : n <= max -> checked_count n max field = Ok n.
Proof. intros H. unfold checked_count. rewrite (proj2 (Z.ltb_ge max n)) by lia. done. Qed.
Lemma parses_certificate c : certificate_ok c -> parses rd_certificate (certificate_encode c) c.
Proof.
  intros [Hv Hi Hs Hd Hg Hn Hr]. unfold rd_certificate, certificate_encode. rewrite Hv. field. passes. do 4 field.
  unfold MAX_WITNESSES in Hn. eapply parses_bind; [apply parses_u32; unfold is_u32, U32_MAX; lia|].
  eapply parses_lift; [apply count_fits; unfold MAX_WITNESSES; lia|]. rewrite Nat2Z.id. eapply parses_bind_nil.
  - apply (parses_repeat rd_cert_receipt (fun r => w_bytes (receipt_encode r))). eapply Forall_impl; [exact Hr|].
    intros r H. by apply parses_sized_receipt.
  - destruct c. cbn in *. subst. apply parses_ret.
Qed.
Lemma certificate_round_trip c : certificate_ok c -> certificate_decode (certificate_encode c) = Ok c.
Proof.
  intros H. unfold certificate_decode. rewrite (whole_parses _ _ _ (parses_certificate c H)). cbn [mbind result_bind].
  rewrite bool_decide_eq_false_2; [done|]. intros E. destruct (co_count _ H) as [H1 _]. by rewrite E in H1.
Qed.

(** ** Proofs of conflict *)
Lemma parses_proof_event field e : event_sized e -> parses (rd_proof_event field) (w_bytes (full_bytes e)) e.
Proof.
  intros [(b & r & Hb & Hd & Hf) Hl]. unfold rd_proof_event. eapply parses_bind_nil; [apply parses_rd_bytes; [done|by vm_compute]|]. apply parses_lift_end.
  pose proof (canonical_use (p:=decode_event) (Reader_new b) e r Hb Hd) as Hc. apply consumes_finished in Hc; [|done]. subst b.
  unfold whole. rewrite Hd. cbn [mbind result_bind]. by rewrite Hf.
Qed.
Lemma duplicity_round_trip p : duplicity_ok p -> duplicity_decode (duplicity_encode p) = Ok p.
Proof.
  intros (Hi & Hs & Ha & Hb & Hp). pose proof Hi as (Hl & Hu & Hd). unfold duplicity_decode. assert (whole rd_duplicity (duplicity_encode p) =
    Ok (dp_identity p, dp_sequence p, dp_event_a p, dp_event_b p)) as ->.
  { apply whole_parses. unfold rd_duplicity, duplicity_encode. eapply parses_bind; [apply parses_rd_bytes; [done|by vm_compute]|].
    eapply (parses_lift _ _ _ tt); [by rewrite Hu|]. eapply parses_lift; [done|]. field. eapply parses_bind; [by apply parses_proof_event|].
    eapply parses_bind_nil; [by apply parses_proof_event|]. apply parses_ret. }
  cbn [mbind result_bind]. rewrite Hp. cbn [mbind result_bind]. by rewrite Z.eqb_refl.
Qed.
Lemma duplicity_length p : duplicity_ok p -> Z.of_nat (length (duplicity_encode p)) <= MAX_DUPLICITY_PROOF_BYTES.
Proof.
  intros ((Hl & _) & _ & [_ Ha] & [_ Hb] & _). unfold duplicity_encode. rewrite !length_app, !length_w_bytes, !length_w_u64.
  unfold MAX_DUPLICITY_PROOF_BYTES, MAX_EVENT_BYTES, MAX_DID_BYTES in *. lia.
Qed.
Lemma equivocation_round_trip p : equivocation_ok p -> equivocation_decode (equivocation_encode p) = Ok p.
Proof.
  intros (Ha & Hb & Hp). unfold equivocation_decode, equivocation_encode.
  rewrite (whole_parses rd_equivocation _ (qp_receipt_a p, qp_receipt_b p)); [done|]. unfold rd_equivocation.
  eapply parses_bind; [by apply parses_proof_receipt|]. eapply parses_bind_nil; [by apply parses_proof_receipt|]. apply parses_ret.
Qed.

(** ** Requests and responses *)
Lemma parses_submit_response r : response_ok r -> parses rd_submit_response (submit_response_encode r) r.
Proof.
  intros H. unfold rd_submit_response, submit_response_encode. destruct r as [r|r|n|p|reason]; cbn [response_ok] in H; field; cbn [Z.eqb Pos.eqb].
  - eapply parses_bind_nil; [by apply parses_proof_receipt|apply parses_ret].
  - eapply parses_bind_nil; [by apply parses_proof_receipt|apply parses_ret].
  - last_field. apply parses_ret.
  - eapply parses_bind_nil; [apply parses_rd_bytes; [by apply duplicity_length|by vm_compute]|].
    eapply parses_lift; [by apply duplicity_round_trip|apply parses_ret].
  - eapply parses_bind_nil; [|apply parses_ret]. unfold rd_reason. field. destruct reason; cbn [rejection_tag Z.eqb Pos.eqb]; try apply parses_ret.
    last_field. apply parses_ret.
Qed.
Lemma submit_round_trip b k : bytes_ok b -> Kel_from_bytes b = Ok k -> Z.of_nat (length b) <= MAX_KEL_WIRE_BYTES ->
  submit_decode (submit_encode (mkSubmit k)) = Ok (mkSubmit k).
Proof.
  intros Hb Hk Hl. destruct (Kel_from_bytes_inv b k Hb Hk) as [E _]. apply whole_parses. unfold rd_submit, submit_encode. cbn [sb_kel]. rewrite E.
  eapply parses_bind_nil; [apply parses_rd_bytes; [done|by vm_compute]|]. eapply parses_lift; [done|apply parses_ret].
Qed.
Lemma parses_fetch r : did_ok (fr_identity r) -> is_u64 (fr_sequence r) -> parses rd_fetch (fetch_encode r) r.
Proof. intros Hi Hs. unfold rd_fetch, fetch_encode. field. last_field. destruct r. apply parses_ret. Qed.
Lemma parses_fetch_response r : match r with Found x => receipt_ok x | NotFound => True end -> parses rd_fetch_response (fetch_response_encode r) r.
Proof.
  intros H. unfold rd_fetch_response, fetch_response_encode. destruct r as [x|]; [field|last_field]; cbn [Z.eqb Pos.eqb]; [|apply parses_ret].
  eapply parses_bind_nil; [by apply parses_proof_receipt|apply parses_ret].
Qed.

(** ** Policies, summaries and attestations *)
Lemma policy_round_trip p : policy_ok p -> policy_decode (policy_encode p) = Ok p.
Proof.
  intros (Hg & Hw & Ht & Hp). assert (Z.of_nat (length (wp_witnesses p)) <= MAX_WITNESSES) as Hn.
  { unfold WitnessPolicy_new in Hp. ok_inv. bool_prop. done. }
  unfold policy_decode. rewrite (whole_parses rd_policy _ (wp_generation p, wp_witnesses p, wp_threshold p)); [done|].
  unfold rd_policy, policy_encode. field. unfold MAX_WITNESSES, U16_MAX in *. eapply parses_bind; [apply parses_u32; unfold is_u32, U32_MAX; lia|].
  eapply parses_lift; [apply count_fits; unfold MAX_WITNESSES; lia|]. rewrite Nat2Z.id. eapply parses_bind.
  - apply (parses_repeat rd_wid (fun w => encode_did (wid w))). eapply Forall_impl; [exact Hw|]. apply parses_rd_wid.
  - eapply parses_bind_nil; [apply parses_u32; unfold is_u32, U32_MAX; lia|]. eapply (parses_lift _ _ _ tt); [apply fail_if_ok, Z.ltb_ge; unfold U16_MAX; lia|]. apply parses_ret.
Qed.
Lemma parses_summary s : summary_ok s -> parses rd_summary (summary_encode s) s.
Proof.
  intros (Hi & Hs & Hd & Hg). unfold rd_summary, summary_encode. do 2 field. eapply parses_bind; [by apply parses_rd_digest|].
  eapply (parses_bind_nil _ _ _ (hs_witness_policy_generation s)); [|destruct s; apply parses_ret]. unfold rd_generation.
  destruct (hs_witness_policy_generation s) as [g|]; [field|last_field; apply parses_ret]. cbn [Z.eqb Pos.eqb]. last_field. apply parses_ret.
Qed.
Lemma parses_attestation a : attestation_ok a -> parses rd_attestation (attestation_encode a) a.
Proof.
  intros (Hi & Hw & Hg & Hf & Hl). unfold rd_attestation, attestation_encode. eapply parses_bind; [apply parses_rd_bytes; by vm_compute|].
  eapply (parses_lift _ _ _ tt); [by rewrite bool_decide_eq_true_2|]. do 4 field. last_field. destruct a. apply parses_ret.
Qed.
End Wire.
