(* ===== verification/WitnessRuns.v ===== *)
(** * WitnessRuns: what a witness signs over its life

    A run of a witness is any sequence of calls of its journal, the receipts
    that leave it collected.  The invariant of a run: no two receipts name
    different events at one place, every receipt stands where the journal
    says, and receipts of one identity follow each other link by link. *)

From Stdlib Require Import ZArith Lia.
From stdpp Require Import base list gmap sets strings sorting.
From S2P Require Import Prelude Codec Crypto Identity Kel KelFacts KelTheorems Witness WitnessJournal.
Open Scope Z_scope.

Section Journal.
Context {P : Primitives}.

(** ** A run of a witness *)
Inductive witness_call :=
| CallObserve (event : Event) (policy : WitnessPolicy)
| CallObserveVerified (k : Kel) (policy : WitnessPolicy)
| CallObserveDeclared (k : Kel)
| CallSubmit (request : SubmitEventForWitnessingRequest)
| CallCertify (k : Kel)
| CallFetch (request : FetchWitnessReceiptRequest).
(** The journal after the call and the receipts that leave it. *)
Definition observed (j : WitnessJournal) (r : result IdentityError (WitnessJournal * WitnessObservation)) : WitnessJournal * list WitnessReceipt :=
  match r with
  | Ok (j, Accepted x) | Ok (j, AlreadyAccepted x) => (j, [x])
  | Ok (j, _) => (j, [])
  | Err _ => (j, [])
  end.
Definition witness_step (j : WitnessJournal) (call : witness_call) (id : WitnessId) (key : SigningKey) (epoch : Z) : WitnessJournal * list WitnessReceipt :=
  match call with
  | CallObserve e policy => observed j (observe j e policy id key epoch)
  | CallObserveVerified k policy => observed j (observe_verified j k policy id key epoch)
  | CallObserveDeclared k => observed j (observe_declared j k id key epoch)
  | CallSubmit request =>
      match handle_submit_for_witnessing j request id key epoch with
      | (j, RespAccepted x) | (j, RespAlreadyAccepted x) => (j, [x])
      | (j, _) => (j, [])
      end
  | CallCertify k => match certify_policy_transition j k id key epoch with Ok (j, x) => (j, [x]) | Err _ => (j, []) end
  | CallFetch request => (j, match handle_fetch_witness_receipt j request with Found x => [x] | NotFound => [] end)
  end.
(** Events are decoded ones, and a log holds fewer than 2^64 of them.  The
    sequence after the last [u64] is computed with wrapping addition, and
    [observe] takes its caller's word for the event, so such an event is left
    out. *)
Definition log_typed (k : Kel) : Prop := Z.of_nat (length (kel_events k)) <= U64_MAX /\ Forall decoded (kel_events k).
Definition call_typed (call : witness_call) : Prop :=
  match call with
  | CallObserve e _ => 0 <= ev_sn e < U64_MAX /\ decoded e
  | CallObserveVerified k _ | CallObserveDeclared k | CallCertify k => log_typed k
  | CallSubmit request => log_typed (sb_kel request)
  | CallFetch _ => True
  end.
Inductive witness_run : WitnessJournal -> list WitnessReceipt -> Prop :=
| run_new : witness_run journal_new []
| run_call j issued call id key epoch : witness_run j issued -> call_typed call ->
    witness_run (witness_step j call id key epoch).1 (issued ++ (witness_step j call id key epoch).2).

(** ** Its invariant *)
Notation st r := (wr_statement r).
Definition contradict (a b : WitnessReceipt) : Prop :=
  ws_identity (st a) = ws_identity (st b) /\ ws_sequence (st a) = ws_sequence (st b) /\ ws_event_digest (st a) <> ws_event_digest (st b).
(** Where a receipt stands: behind the accepted head, at it, or at the one
    successor that was certified. *)
Definition placed (j : WitnessJournal) (r : WitnessReceipt) : Prop :=
  exists s, wj_states j !! ws_identity (st r) = Some s /\
    (ws_sequence (st r) < wi_accepted_sequence s \/
     (ws_sequence (st r) = wi_accepted_sequence s /\ ws_event_digest (st r) = wi_accepted_event_digest s) \/
     (ws_sequence (st r) = wi_accepted_sequence s + 1 /\
      transition_certification j (ws_identity (st r)) (wi_accepted_event_digest s) (wp_generation (wi_accepted_policy s)) = Some (ws_event_digest (st r)))).
Definition at_place (r : WitnessReceipt) (d : Did) (n : Z) (digest : bytes) : Prop :=
  ws_identity (st r) = d /\ ws_sequence (st r) = n /\ ws_event_digest (st r) = digest.
Definition prior_of (e : Event) : option bytes := if bool_decide (ev_prior e = []) then None else Some (ev_prior e).
(** Below a receipt that is not the first of its identity stands a receipt
    for the event it chains to. *)
Definition linked (issued : list WitnessReceipt) : Prop :=
  forall a b, a ∈ issued -> b ∈ issued -> ws_identity (st a) = ws_identity (st b) -> ws_sequence (st a) < ws_sequence (st b) ->
    exists c digest, c ∈ issued /\ at_place c (ws_identity (st b)) (ws_sequence (st b) - 1) digest /\ ws_prior_event_digest (st b) = Some digest.
Record journal_inv (j : WitnessJournal) (issued : list WitnessReceipt) : Prop := {
  ji_agree a b : a ∈ issued -> b ∈ issued -> ~ contradict a b;
  ji_placed r : r ∈ issued -> placed j r;
  ji_state d s : wj_states j !! d = Some s -> 0 <= wi_accepted_sequence s < U64_MAX /\ wi_issued_receipt s ∈ issued /\
    at_place (wi_issued_receipt s) d (wi_accepted_sequence s) (wi_accepted_event_digest s);
  ji_linked : linked issued;
  ji_event r : r ∈ issued -> exists e, decoded e /\ ev_digest e = ws_event_digest (st r) /\ ws_prior_event_digest (st r) = prior_of e;
}.
Lemma wrapping_next n : 0 <= n < U64_MAX -> wrapping_add 64 n 1 = n + 1.
Proof. intros H. unfold wrapping_add, U64_MAX in *. apply Z.mod_small. lia. Qed.
(** A new receipt at a place where nothing else was signed. *)
Lemma agree_snoc issued r : (forall a b, a ∈ issued -> b ∈ issued -> ~ contradict a b) -> (forall a, a ∈ issued -> ~ contradict a r) ->
  forall a b, a ∈ issued ++ [r] -> b ∈ issued ++ [r] -> ~ contradict a b.
Proof.
  intros H1 H2 a b Ha Hb. apply elem_of_app in Ha as [Ha|Ha], Hb as [Hb|Hb].
  - by apply H1.
  - apply list_elem_of_singleton in Hb as ->. by apply H2.
  - apply list_elem_of_singleton in Ha as ->. intros (E1 & E2 & E3). by apply (H2 b Hb).
  - apply list_elem_of_singleton in Ha as ->. apply list_elem_of_singleton in Hb as ->. by intros (_ & _ & ?).
Qed.

Lemma linked_snoc issued r : linked issued ->
  (forall b, b ∈ issued -> ws_identity (st b) = ws_identity (st r) -> ws_sequence (st b) <= ws_sequence (st r)) ->
  (forall a, a ∈ issued -> ws_identity (st a) = ws_identity (st r) -> ws_sequence (st a) < ws_sequence (st r) ->
    exists c digest, c ∈ issued /\ at_place c (ws_identity (st r)) (ws_sequence (st r) - 1) digest /\ ws_prior_event_digest (st r) = Some digest) ->
  linked (issued ++ [r]).
Proof.
  intros Hl H1 H2 a b Ha Hb Hid Hlt.
  assert (exists c digest, c ∈ issued /\ at_place c (ws_identity (st b)) (ws_sequence (st b) - 1) digest /\ ws_prior_event_digest (st b) = Some digest)
    as (c & digest & Hc & Hpl); [|exists c, digest; set_solver].
  apply elem_of_app in Ha as [Ha|Ha], Hb as [Hb|Hb]; try apply list_elem_of_singleton in Ha as ->; try apply list_elem_of_singleton in Hb as ->.
  - by apply (Hl a b).
  - by apply (H2 a).
  - symmetry in Hid. specialize (H1 b Hb Hid). lia.
  - lia.
Qed.
Lemma digest_nonempty e : ev_digest e <> [].
Proof. unfold ev_digest, Multihash_to_bytes. cbn [mh_algorithm Multihash_of]. done. Qed.
(** The receipt of the accepted head is the link below its successor. *)
Lemma successor_linked j issued d s e : journal_inv j issued -> wj_states j !! d = Some s -> ev_sn e = wi_accepted_sequence s + 1 ->
  ev_prior e = wi_accepted_event_digest s ->
  exists c digest, c ∈ issued /\ at_place c d (ev_sn e - 1) digest /\ prior_of e = Some digest.
Proof.
  intros Hi Es Hsn Hp. destruct (ji_state _ _ Hi _ _ Es) as (_ & Hin & Hpl). destruct (ji_event _ _ Hi _ Hin) as (e0 & _ & Hd & _).
  exists (wi_issued_receipt s), (wi_accepted_event_digest s). split; [done|]. split; [by rewrite Hsn, Z.add_simpl_r|].
  destruct Hpl as (_ & _ & Hd'). unfold prior_of. rewrite bool_decide_eq_false_2, Hp; [done|]. rewrite Hp, <- Hd', <- Hd. apply digest_nonempty.
Qed.
Lemma decision_accept s e : 0 <= wi_accepted_sequence s < U64_MAX -> decision (Some s) e = Accept ->
  ev_sn e = wi_accepted_sequence s + 1 /\ ev_prior e = wi_accepted_event_digest s.
Proof.
  intros Hr. unfold decision. rewrite (wrapping_next _ Hr). destruct (_ && _); [done|]. destruct (_ && _) eqn:En; [by bool_prop|].
  repeat (destruct (_ && _) || destruct (_ <? _); try done).
Qed.
(** What was signed before an event that is accepted. *)
Lemma accept_after j issued d e a : journal_inv j issued -> decision (wj_states j !! d) e = Accept -> check_certified j d e = Ok tt ->
  a ∈ issued -> ws_identity (st a) = d ->
  ws_sequence (st a) < ev_sn e \/ (ws_sequence (st a) = ev_sn e /\ ws_event_digest (st a) = ev_digest e).
Proof.
  intros Hi Hd Hc Hin <-. destruct (ji_placed _ _ Hi a Hin) as (s & Es & Hpl). unfold check_certified in Hc. rewrite Es in Hd, Hc.
  destruct (ji_state _ _ Hi _ _ Es) as [Hr _]. destruct (decision_accept s e Hr Hd) as [En Ep]. rewrite Ep in Hc.
  destruct Hpl as [H|[[H _]|[H Ht]]]; [left; lia|left; lia|right]. rewrite Ht in Hc. apply fail_if_ok, negb_false_iff, bool_decide_eq_true in Hc. split; [lia|done].
Qed.
Lemma accept_inv j issued d e policy id key epoch : journal_inv j issued -> 0 <= ev_sn e < U64_MAX -> decoded e ->
  decision (wj_states j !! d) e = Accept -> check_certified j d e = Ok tt ->
  let r := sign_witness_receipt (statement_of d e (wp_generation policy) id epoch) key in
  journal_inv (accept j d e policy r) (issued ++ [r]).
Proof.
  intros Hi Hsn Hdec Hd Hc r. pose proof (fun a => accept_after j issued d e a Hi Hd Hc) as Hold. split.
  - apply agree_snoc; [apply Hi|]. intros a Hin (E1 & E2 & E3). destruct (Hold a Hin E1) as [H|[_ H]]; [cbn in E2; lia|done].
  - intros a [Hin|Hin]%elem_of_app.
    + destruct (decide (ws_identity (st a) = d)) as [E|E].
      * eexists. unfold accept. cbn [wj_states]. rewrite E, lookup_insert_eq. split; [done|]. cbn. destruct (Hold a Hin E) as [H|H]; [by left|by right; left].
      * destruct (ji_placed _ _ Hi a Hin) as (s & Es & Hpl). exists s. unfold accept. cbn [wj_states]. by rewrite lookup_insert_ne.
    + apply list_elem_of_singleton in Hin as ->. eexists. unfold accept. cbn [wj_states]. split; [apply lookup_insert_eq|]. right. by left.
  - intros d' s. unfold accept. cbn [wj_states]. destruct (decide (d = d')) as [<-|E].
    + rewrite lookup_insert_eq. intros [= <-]. cbn. split; [done|]. split; [set_solver|done].
    + rewrite lookup_insert_ne by done. intros (H1 & H2 & H3)%(ji_state _ _ Hi). set_solver.
  - apply linked_snoc; [apply Hi| |].
    + intros b Hb E. destruct (Hold b Hb E) as [H|[H _]]; cbn; lia.
    + intros a Ha E _. destruct (ji_placed _ _ Hi a Ha) as (s & Es & _). cbn in E. rewrite E in Es. rewrite Es in Hd.
      destruct (decision_accept s e (proj1 (ji_state _ _ Hi _ _ Es)) Hd) as [En Ep]. by eapply successor_linked.
  - intros a [Hin|Hin]%elem_of_app; [by apply Hi|]. apply list_elem_of_singleton in Hin as ->. by exists e.
Qed.
(** A receipt for a successor that is only certified. *)
Lemma certified_placed j d s e r : wj_states j !! d = Some s -> ev_prior e = wi_accepted_event_digest s ->
  (forall x, transition_certification j d (ev_prior e) (wp_generation (wi_accepted_policy s)) = Some x -> x = ev_digest e) -> placed j r ->
  placed (record_transition_certification j d (ev_prior e) (wp_generation (wi_accepted_policy s)) (ev_digest e)) r.
Proof.
  intros Es Hpr Hx (s' & Es' & Hpl). exists s'. split; [done|]. destruct Hpl as [H|[H|[H Ht]]]; [by left|by right; left|right; right].
  split; [done|]. unfold transition_certification, record_transition_certification in *. cbn [wj_transition_certifications].
  destruct (decide (((d, ev_prior e, wp_generation (wi_accepted_policy s)) : TransitionKey) =
    (ws_identity (st r), wi_accepted_event_digest s', wp_generation (wi_accepted_policy s')))) as [E|E]; [|by rewrite lookup_insert_ne].
  rewrite <- E, lookup_insert_eq. f_equal. symmetry. apply Hx. rewrite <- E in Ht. done.
Qed.
Lemma certify_inv j issued d s e id key epoch : journal_inv j issued -> decoded e -> wj_states j !! d = Some s ->
  ev_sn e = wi_accepted_sequence s + 1 -> ev_prior e = wi_accepted_event_digest s ->
  (forall x, transition_certification j d (ev_prior e) (wp_generation (wi_accepted_policy s)) = Some x -> x = ev_digest e) ->
  let r := sign_witness_receipt (statement_of d e (wp_generation (wi_accepted_policy s)) id epoch) key in
  journal_inv (record_transition_certification j d (ev_prior e) (wp_generation (wi_accepted_policy s)) (ev_digest e)) (issued ++ [r]).
Proof.
  intros Hi Hdec Es Hsn Hpr Hx r. split.
  - apply agree_snoc; [apply Hi|]. intros a Hin (E1 & E2 & E3). cbn in E1, E2. destruct (ji_placed _ _ Hi a Hin) as (s' & Es' & Hpl).
    rewrite E1, Es in Es'. injection Es' as <-. destruct Hpl as [H|[[H _]|[_ Ht]]]; [lia|lia|]. apply E3. rewrite E1, <- Hpr in Ht. by apply Hx in Ht.
  - intros a [Hin|Hin]%elem_of_app; [by apply certified_placed, Hi|]. apply list_elem_of_singleton in Hin as ->. exists s. split; [done|]. right. right. split; [done|].
    unfold transition_certification, record_transition_certification. cbn [wj_transition_certifications sign_witness_receipt wr_statement statement_of ws_identity ws_event_digest].
    rewrite <- Hpr. apply lookup_insert_eq.
  - intros d' s' H. destruct (ji_state _ _ Hi d' s' H) as (H1 & H2 & H3). set_solver.
  - apply linked_snoc; [apply Hi| |].
    + intros b Hb E. cbn in E |- *. destruct (ji_placed _ _ Hi b Hb) as (s' & Es' & Hpl). rewrite E, Es in Es'. injection Es' as <-. destruct Hpl as [H|[[H _]|[H _]]]; lia.
    + intros a Ha E _. by eapply successor_linked.
  - intros a [Hin|Hin]%elem_of_app; [by apply Hi|]. apply list_elem_of_singleton in Hin as ->. by exists e.
Qed.

(** ** Every call keeps it *)
Lemma inv_nothing j issued : journal_inv j issued -> journal_inv j (issued ++ []).
Proof. by rewrite app_nil_r. Qed.
Lemma inv_again j issued r : journal_inv j issued -> r ∈ issued -> journal_inv j (issued ++ [r]).
Proof.
  intros Hi Hr. assert (forall a, a ∈ issued ++ [r] -> a ∈ issued) as Hback by set_solver. split.
  - intros a b Ha Hb. apply Hi; by apply Hback.
  - intros a Ha. by apply Hi, Hback.
  - intros d s H. destruct (ji_state _ _ Hi d s H) as (H1 & H2 & H3). set_solver.
  - intros a b Ha Hb E Hlt. destruct (ji_linked _ _ Hi a b (Hback _ Ha) (Hback _ Hb) E Hlt) as (c & x & Hc & Hrest). exists c, x. set_solver.
  - intros a Ha. by apply Hi, Hback.
Qed.
Lemma inv_issued j issued d s : journal_inv j issued -> wj_states j !! d = Some s -> journal_inv j (issued ++ [wi_issued_receipt s]).
Proof. intros Hi H. apply inv_again; [done|]. by apply (ji_state _ _ Hi d s). Qed.
Lemma decision_duplicate o e r : decision o e = Duplicate r -> exists s, o = Some s /\ r = wi_issued_receipt s.
Proof.
  unfold decision. destruct o as [s|]; [|done]. destruct (_ && _); [intros [= <-]; by exists s|].
  repeat (destruct (_ && _) || destruct (_ <? _); try done).
Qed.
Definition step_inv (issued : list WitnessReceipt) (x : WitnessJournal * list WitnessReceipt) : Prop := journal_inv x.1 (issued ++ x.2).
Lemma observe_inv j issued e policy id key epoch : journal_inv j issued -> 0 <= ev_sn e < U64_MAX -> decoded e ->
  step_inv issued (observed j (observe j e policy id key epoch)).
Proof.
  intros Hi Hsn Hdec. unfold observe, step_inv. destruct (fail_if _ _); cbn [mbind result_bind]; [|by apply inv_nothing].
  destruct (from_scid (ev_scid e)) as [d|]; cbn [mbind result_bind]; [|by apply inv_nothing].
  case_eq (decision (wj_states j !! d) e).
  - intros Hd. case_eq (check_certified j d e); [intros [] Hc|intros ? Hc]; cbn [mbind result_bind observed fst snd]; [by apply accept_inv|by apply inv_nothing].
  - intros r (s & Hs & ->)%decision_duplicate. cbn [observed fst snd]. by eapply inv_issued.
  - intros ? _. by apply inv_nothing.
  - intros x _. destruct (duplicity_assemble d x e); by apply inv_nothing.
  - intros _. by apply inv_nothing.
Qed.
Lemma verified_head_inv j issued k ks e policy id key epoch : journal_inv j issued -> Kel_verify k = Ok ks -> last (kel_events k) = Some e ->
  log_typed k -> step_inv issued (observed j (observe j e policy id key epoch)).
Proof.
  intros Hi Hk He [Hn Hd]. apply observe_inv; [done| |by apply last_Some_elem_of in He; eapply Forall_forall in Hd]. pose proof (head_sequence k ks e Hk He). assert (kel_events k <> []) as Hne by (intros E; by rewrite E in He).
  destruct (kel_events k); [done|]. cbn [length] in *. lia.
Qed.
Lemma observe_declared_inv j issued k id key epoch : journal_inv j issued -> log_typed k ->
  step_inv issued (observed j (observe_declared j k id key epoch)).
Proof.
  intros Hi Hn. unfold observe_declared. case_eq (Kel_verify k); [intros ks Hk|by intros; apply inv_nothing]. cbn [mbind result_bind].
  destruct (declared_witness_policy k) as [policy|]; cbn [ok_or mbind result_bind]; [|by apply inv_nothing].
  case_eq (last (kel_events k)); [intros e He|by intros; apply inv_nothing]. cbn [ok_or mbind result_bind]. by eapply verified_head_inv.
Qed.
Lemma observe_verified_inv j issued k policy id key epoch : journal_inv j issued -> log_typed k ->
  step_inv issued (observed j (observe_verified j k policy id key epoch)).
Proof.
  intros Hi Hn. unfold observe_verified. case_eq (Kel_verify k); [intros ks Hk|by intros; apply inv_nothing]. cbn [mbind result_bind].
  case_eq (last (kel_events k)); [intros e He|by intros; apply inv_nothing]. cbn [ok_or mbind result_bind]. by eapply verified_head_inv.
Qed.
Lemma submit_observes j request id key epoch :
  witness_step j (CallSubmit request) id key epoch = observed j (observe_declared j (sb_kel request) id key epoch).
Proof.
  cbn [witness_step]. unfold handle_submit_for_witnessing. destruct (observe_declared j (sb_kel request) id key epoch) as [[j' []]|[]]; done.
Qed.
Lemma certify_step_inv j issued k id key epoch : journal_inv j issued -> log_typed k -> step_inv issued (witness_step j (CallCertify k) id key epoch).
Proof.
  intros Hi [_ Hdec]. unfold step_inv. cbn [witness_step]. case_eq (certify_policy_transition j k id key epoch); [intros [j' r] H|by intros; apply inv_nothing].
  unfold certify_policy_transition in H. ok_inv; bool_prop; cbn [fst snd];
    match goal with H : state_for _ _ = Some ?s, E : last _ = Some ?e |- _ =>
      pose proof (ji_state _ _ Hi _ _ H) as [Hr _]; apply last_Some_elem_of in E; apply certify_inv; try done end.
  all: first [by rewrite <- (wrapping_next _ Hr) | by eapply Forall_forall in Hdec | intros y Hy; congruence].
Qed.
Lemma witness_step_inv j issued call id key epoch : journal_inv j issued -> call_typed call -> step_inv issued (witness_step j call id key epoch).
Proof.
  intros Hi Ht. destruct call as [e policy|k policy|k|request|k|request].
  - by apply observe_inv; destruct Ht.
  - by apply observe_verified_inv.
  - by apply observe_declared_inv.
  - rewrite submit_observes. by apply observe_declared_inv.
  - by apply certify_step_inv.
  - unfold step_inv. cbn [witness_step fst snd]. unfold handle_fetch_witness_receipt, state_for.
    destruct (wj_states j !! fr_identity request) as [s|] eqn:Es; [|by apply inv_nothing]. destruct (_ =? _); [by eapply inv_issued|by apply inv_nothing].
Qed.
Lemma witness_run_inv j issued : witness_run j issued -> journal_inv j issued.
Proof.
  induction 1 as [|j issued call id key epoch Hrun IH Ht]; [|by apply witness_step_inv].
  split; try (by intros a []%elem_of_nil); [by intros a b []%elem_of_nil| |by intros a b []%elem_of_nil].
  intros d s H. cbn in H. by rewrite lookup_empty in H.
Qed.
End Journal.
