(* ===== verification/WitnessTheorems.v ===== *)
(** * WitnessTheorems: what a certificate of witnesses proves

    A certificate that verifies is backed by a threshold of the policy's
    witnesses; two that conflict convict the witnesses they share; and two
    logs whose heads are certified under one policy do not fork while fewer
    witnesses than that are dishonest. *)

From Stdlib Require Import ZArith Lia.
From stdpp Require Import base list gmap sets strings sorting.
From S2P Require Import Prelude Codec Crypto Identity Kel KelFacts KelTheorems Witness WitnessJournal WitnessRuns.
Open Scope Z_scope.

(** * duplicity that no controller committed

    An event's digest covers its signatures, and a verified event may carry
    any signature twice.  So an event has other forms with the same signed
    content that verify as well, and two of them pass for two events the
    controller signed at one position. *)


Section Forgery.
Context {P : Primitives}.

(** A signature that will not be counted again. *)
Definition settled (msg : bytes) (keys : list VerifyingKey) (si : list Z) (sk : list bytes) (s : IndexedSig) : Prop :=
  match keys !! Z.to_nat (is_index s) with
  | None => True
  | Some k => is_index s ∈ si \/ key_fingerprint k ∈ sk \/ is_ok (vk_verify k msg (is_signature s)) = false
  end.
Lemma settled_grows msg keys si sk si' sk' s : si ⊆ si' -> sk ⊆ sk' -> settled msg keys si sk s -> settled msg keys si' sk' s.
Proof. unfold settled. destruct (keys !! _); [|done]. set_solver. Qed.
Lemma settled_ignored msg keys sigs si sk n s : settled msg keys si sk s ->
  count_signers_loop msg keys si sk n (sigs ++ [s]) = count_signers_loop msg keys si sk n sigs.
Proof.
  revert si sk n. induction sigs as [|a sigs IH]; intros si sk n Hs; cbn [app count_signers_loop].
  - unfold settled in Hs. destruct (keys !! Z.to_nat (is_index s)) as [k|]; [|done]. cbv zeta.
    destruct Hs as [Hs|[Hs|Hs]].
    + by rewrite (bool_decide_eq_true_2 _ Hs).
    + by rewrite (bool_decide_eq_true_2 _ Hs), orb_true_r.
    + rewrite Hs. by destruct (_ || _).
  - destruct (keys !! Z.to_nat (is_index a)) as [k|]; [|by apply IH]. cbv zeta. destruct (_ || _); [by apply IH|].
    destruct (is_ok _); apply IH; [|done]. eapply settled_grows; [| |exact Hs]; set_solver.
Qed.
Lemma repeat_ignored msg keys sigs s : s ∈ sigs -> count_valid_signers msg keys (sigs ++ [s]) = count_valid_signers msg keys sigs.
Proof.
  intros Hs. unfold count_valid_signers. generalize (@nil Z) as si, (@nil bytes) as sk, 0 as n.
  induction sigs as [|a sigs IH]; intros si sk n; [by apply elem_of_nil in Hs|]. apply elem_of_cons in Hs as [<-|Hs].
  - cbn [app count_signers_loop]. destruct (keys !! Z.to_nat (is_index s)) as [k|] eqn:Ek.
    + cbv zeta. destruct (bool_decide (is_index s ∈ si)) eqn:E1; [|destruct (bool_decide (key_fingerprint k ∈ sk)) eqn:E2]; cbn [orb].
      * apply settled_ignored. unfold settled. rewrite Ek. left. by apply bool_decide_eq_true in E1.
      * apply settled_ignored. unfold settled. rewrite Ek. right. left. by apply bool_decide_eq_true in E2.
      * destruct (is_ok _) eqn:E3; apply settled_ignored; unfold settled; rewrite Ek; [left; set_solver|by right; right].
    + apply settled_ignored. unfold settled. by rewrite Ek.
  - cbn [app count_signers_loop]. destruct (keys !! _) as [k|]; [|by apply IH]. cbv zeta. destruct (_ || _); [by apply IH|].
    destruct (is_ok _); by apply IH.
Qed.

(** The same event with its first signature once more. *)
Definition echo (e : Event) : Event :=
  mkEvent (ev_suite e) (ev_scid e) (ev_sn e) (ev_prior e) (ev_kind e)
    (ev_signatures e ++ match ev_signatures e with s :: _ => [s] | [] => [] end).
Lemma echo_signed e : signing_bytes (echo e) = signing_bytes e.
Proof. done. Qed.
Lemma echo_threshold e keys t : verify_threshold (echo e) keys t = verify_threshold e keys t.
Proof.
  unfold verify_threshold. rewrite echo_signed. cbn [echo ev_sn ev_signatures]. destruct (ev_signatures e) as [|s l]; [done|].
  by rewrite repeat_ignored by (by left).
Qed.
Lemma threshold_signatures e keys t : 0 <= t -> verify_threshold e keys t = Ok tt -> ev_signatures e <> [].
Proof.
  intros Ht H E. unfold verify_threshold in H. rewrite E in H. destruct (Z.eqb_spec t 0); cbn in H; [done|].
  destruct (Z.leb_spec t 0); [lia|done].
Qed.
(** Verification sees no difference but the digest to chain to. *)
Definition same_keys (a b : VState) : Prop :=
  vs_keys a = vs_keys b /\ vs_threshold a = vs_threshold b /\ vs_next a = vs_next b /\ vs_next_threshold a = vs_next_threshold b.
(** The next check, which both walks pass or fail together. *)
Ltac next_check := match goal with |- mbind _ ?m = _ -> _ => destruct m; cbn [ok_or mbind result_bind]; [|done] end.
Lemma echo_step scid sn st e st' : verify_step scid sn st e = Ok st' -> exists st2, verify_step scid sn st (echo e) = Ok st2 /\ same_keys st2 st'.
Proof.
  unfold verify_step. cbn [echo ev_scid ev_sn ev_prior ev_kind]. fold (echo e).
  do 3 next_check. destruct (ev_kind e); try done; rewrite ?echo_threshold; repeat next_check; intros [= <-]; eexists; by split.
Qed.
Lemma echo_inception scid e st : verify_inception scid e = Ok st -> exists st2, verify_inception scid (echo e) = Ok st2 /\ same_keys st2 st.
Proof.
  unfold verify_inception. assert (inception_est (echo e) = inception_est e) as -> by done. assert (derive_scid (echo e) = derive_scid e) as -> by done.
  cbn [echo ev_scid ev_sn ev_prior ev_kind]. fold (echo e). next_check. rewrite echo_threshold. repeat next_check.
  intros [= <-]. eexists. by split.
Qed.
Lemma same_keys_state a b n : same_keys a b -> state_of a n = state_of b n.
Proof. unfold state_of. by intros (-> & -> & -> & ->). Qed.
(** The same log with another head. *)
Definition with_head (k : Kel) (e : Event) : Kel := mkKel (kel_scid k) (removelast (kel_events k) ++ [e]).
Lemma last_split (k : Kel) e : last (kel_events k) = Some e -> kel_events k = removelast (kel_events k) ++ [e].
Proof. intros [l E]%last_Some. by rewrite E, removelast_last. Qed.
Lemma echoed_verifies k ks e : Kel_verify k = Ok ks -> last (kel_events k) = Some e -> Kel_verify (with_head k (echo e)) = Ok ks.
Proof.
  intros (first & rest & st & (E & st0 & Hi & Hl) & ->)%Kel_verify_iff. unfold with_head. rewrite E. destruct rest as [|e' rest _] using rev_ind.
  - cbn [last removelast app]. intros [= <-]. cbn in Hl. injection Hl as <-. destruct (echo_inception _ _ _ Hi) as (st2 & H2 & Hk).
    apply Kel_verify_iff. exists (echo first), [], st2. split; [split; [done|]; by exists st2|]. by rewrite (same_keys_state _ _ _ Hk).
  - rewrite app_comm_cons, last_snoc, removelast_last. intros [= ->]. apply verify_loop_snoc_inv in Hl as (m & Hl & Hs).
    destruct (echo_step _ _ _ _ _ Hs) as (st2 & H2 & Hk). apply Kel_verify_iff. exists first, (rest ++ [echo e]), st2. split.
    + split; [done|]. exists st0. split; [done|]. cbn [kel_scid]. rewrite verify_loop_app, Hl. cbn [mbind result_bind verify_loop]. by rewrite H2.
    + rewrite !length_app, (same_keys_state _ _ _ Hk). done.
Qed.
Lemma echo_policy k e : last (kel_events k) = Some e -> declared_witness_policy (with_head k (echo e)) = declared_witness_policy k.
Proof. intros H. unfold declared_witness_policy, with_head. rewrite (last_split k e H) at 2. cbn [kel_events]. by rewrite !rev_app_distr. Qed.

(** The encoding grows by the repeated signature. *)
Lemma full_signing e : full_bytes e = signing_bytes e ++ w_u32 (Z.of_nat (length (ev_signatures e))) ++ concat (map encode_sig (ev_signatures e)).
Proof. unfold full_bytes, signing_bytes, encode_event. by rewrite app_nil_r, <- !(assoc_L (++)). Qed.
Lemma echo_length e s l : ev_signatures e = s :: l -> length (full_bytes (echo e)) = (length (full_bytes e) + length (encode_sig s))%nat.
Proof.
  intros E. rewrite !full_signing, echo_signed. cbn [echo ev_signatures]. rewrite E, map_app, concat_app, !length_app, !length_w_u32.
  cbn [map concat]. rewrite app_nil_r. lia.
Qed.
Lemma encode_sig_length s : length (encode_sig s) = (9 + length (sig_bytes (is_signature s)))%nat.
Proof. unfold encode_sig. rewrite !length_app, length_w_u32, length_w_u8, length_w_bytes. lia. Qed.
Lemma echo_digest {L : PrimitivesLaws} e : ev_signatures e <> [] -> ev_digest e = ev_digest (echo e) -> blake3_collision.
Proof.
  intros Hs [H|H]%ev_digest_inj; [|done]. destruct (ev_signatures e) as [|s l] eqn:E; [done|].
  pose proof (echo_length e s l E) as Hl. rewrite <- H, encode_sig_length in Hl. lia.
Qed.
Lemma echo_wf e s l : ev_signatures e = s :: l -> event_wf e -> Z.of_nat (length (ev_signatures e)) < MAX_SIGNATURES -> event_wf (echo e).
Proof.
  intros E (H1 & H2 & H3 & H4 & H5 & H6 & H7) Hn. unfold event_wf. cbn [echo ev_scid ev_sn ev_prior ev_kind ev_signatures]. rewrite E in *.
  do 5 (split; [done|]). split; [rewrite length_app; cbn [length] in *; lia|]. apply Forall_app. split; [done|].
  apply Forall_cons in H7 as [H7 _]. by constructor.
Qed.
Lemma echoed_wf k e s l : kel_wf k -> last (kel_events k) = Some e -> ev_signatures e = s :: l -> Z.of_nat (length (ev_signatures e)) < MAX_SIGNATURES ->
  Z.of_nat (length (full_bytes (echo e))) <= MAX_EVENT_BYTES -> kel_wf (with_head k (echo e)).
Proof.
  intros (H1 & H2 & H3 & H4 & H5) Hl E Hn Hb. pose proof (last_split k e Hl) as Es. rewrite Es in H4, H5. apply Forall_app in H5 as [H5 [[Hw _] _]%Forall_cons].
  unfold with_head. split; [done|]. split; [done|]. split; [done|]. cbn [kel_events]. split; [by rewrite length_app in *|].
  apply Forall_app. split; [done|]. constructor; [|done]. split; [by eapply echo_wf|done].
Qed.
Lemma echo_conflicts k e : ev_scid e = kel_scid k -> ev_digest e <> ev_digest (echo e) ->
  duplicity_assemble (kel_did k) e (echo e) = Ok (mkDuplicity (kel_did k) (ev_sn e) e (echo e)).
Proof.
  intros Hs Hd. unfold duplicity_assemble, kel_did, did_scid, from_scid_unchecked. cbn [echo ev_scid ev_sn did_str]. fold (echo e).
  rewrite drop_app_length, Hs, (bool_decide_eq_true_2 (kel_scid k = kel_scid k)), Z.eqb_refl by done. by rewrite bool_decide_eq_false_2.
Qed.
Lemma accepted_state j e policy id key epoch j' r : observe j e policy id key epoch = Ok (j', Accepted r) ->
  policy_contains policy id = true /\ exists d, from_scid (ev_scid e) = Ok d /\ exists s, wj_states j' !! d = Some s /\
    wi_accepted_sequence s = ev_sn e /\ wi_accepted_event_digest s = ev_digest e /\ wi_accepted_event s = e.
Proof.
  unfold observe. intros H. apply bind_ok in H as (? & Hc%fail_if_ok%negb_false_iff & H). apply bind_ok in H as (d & Hd & H). split; [done|].
  exists d. split; [done|]. destruct (decision _ _); try done.
  - apply bind_ok in H as (? & _ & H). cbv zeta in H. injection H as <- _. eexists. split; [apply lookup_insert_eq|done].
  - by apply bind_ok in H as (? & _ & H).
Qed.
Lemma next_differs n : (n =? wrapping_add 64 n 1) = false.
Proof.
  apply Z.eqb_neq. unfold wrapping_add. intros E. pose proof (Z.mod_pos_bound (n + 1) (2 ^ 64) eq_refl) as Hb. rewrite <- E in Hb.
  destruct (Z.eq_dec (n + 1) (2 ^ 64)) as [En|En]; [rewrite En, Z_mod_same_full in E; lia|]. rewrite Z.mod_small in E by lia. lia.
Qed.
End Forgery.

Section Properties.
Context {P : Primitives} {L : PrimitivesLaws}.

(** C29: anyone who sees a verified log can make a proof of its controller's
    duplicity, without any key: the head with its first signature repeated
    has the same signed content and the same signatures, the log that ends
    in it verifies to the same keys and travels, and the two heads assemble
    into a proof, unless BLAKE3 collides.  A witness that accepted the head
    reports the conflict when it is shown the other form, and a registry
    that records the proof distrusts the identity from then on. *)
Theorem duplicity_is_forgeable k ks e : Kel_verify k = Ok ks -> last (kel_events k) = Some e -> ev_signatures e <> [] ->
  blake3_collision \/ exists e' p,
    signing_bytes e' = signing_bytes e /\ (forall s, s ∈ ev_signatures e' <-> s ∈ ev_signatures e) /\
    Kel_verify (with_head k e') = Ok ks /\ duplicity_assemble (kel_did k) e e' = Ok p /\
    (kel_wf k -> Z.of_nat (length (ev_signatures e)) < MAX_SIGNATURES -> Z.of_nat (length (full_bytes e')) <= MAX_EVENT_BYTES ->
      Kel_from_bytes (Kel_to_bytes (with_head k e')) = Ok (with_head k e')) /\
    (forall j id key epoch j' r epoch', observe_declared j k id key epoch = Ok (j', Accepted r) ->
      observe_declared j' (with_head k e') id key epoch' = Ok (j', ControllerDuplicity p)) /\
    (forall reg policy, has_known_duplicity (record_controller_duplicity reg p) (kel_did k) policy = true).
Proof.
  intros Hv Hl Hs. destruct (decide (ev_digest e = ev_digest (echo e))) as [Hd|Hd]; [left; by eapply echo_digest|right].
  pose proof (head_scid k ks e Hv Hl) as Hsc. pose proof (echo_conflicts k e Hsc Hd) as Hp. exists (echo e). eexists.
  split; [done|]. split; [cbn [echo ev_signatures]; destruct (ev_signatures e); set_solver|]. split; [by apply echoed_verifies|]. split; [exact Hp|].
  split; [|split].
  - intros Hw Hn Hb. destruct (ev_signatures e) as [|s l] eqn:E; [done|]. rewrite <- E in Hn. by apply kel_round_trip, (echoed_wf k e s l).
  - intros j id key epoch j' r epoch' Ho. unfold observe_declared in *. rewrite Hv, Hl in Ho. rewrite (echoed_verifies k ks e Hv Hl), (echo_policy k e Hl).
    cbn [mbind result_bind ok_or] in *. destruct (declared_witness_policy k) as [policy|]; [|done]. cbn [mbind result_bind ok_or with_head kel_events] in *.
    rewrite last_snoc. cbn [mbind result_bind ok_or]. apply accepted_state in Ho as (Hc & d & Hd' & s & Hj & E1 & E2 & E3).
    unfold observe. rewrite Hc. cbn [negb fail_if mbind result_bind]. change (ev_scid (echo e)) with (ev_scid e). rewrite Hd'. cbn [mbind result_bind].
    assert (d = kel_did k) as -> by (unfold from_scid in Hd'; apply bind_ok in Hd' as (? & _ & [= <-]); by rewrite Hsc).
    rewrite Hj. unfold decision. rewrite E1, E2, E3. change (ev_sn (echo e)) with (ev_sn e). change (ev_prior (echo e)) with (ev_prior e).
    rewrite Z.eqb_refl, (bool_decide_eq_false_2 (ev_digest (echo e) = ev_digest e)) by congruence. cbn [andb negb].
    rewrite next_differs, Z.ltb_irrefl. cbn [andb]. by rewrite Hp.
  - intros reg policy. unfold has_known_duplicity, record_controller_duplicity. cbn [dr_controller dp_identity].
    rewrite lookup_insert_eq. by rewrite bool_decide_eq_true_2.
Qed.
End Properties.


Section Certificates.
Context {P : Primitives}.
Notation st r := (wr_statement r).

(** ** Certificates *)
(** A receipt of the certificate, by the witness and about its event. *)
Definition vouches (c : WitnessedEventCertificate) (resolve : WitnessId -> option VerifyingKey) (w : WitnessId) (r : WitnessReceipt) : Prop :=
  r ∈ ce_receipts c /\ ws_witness_id (st r) = w /\ at_place r (ce_identity c) (ce_sequence c) (ce_event_digest c) /\
  ws_witness_policy_generation (st r) = ce_witness_policy_generation c /\ exists key, resolve w = Some key /\ receipt_verify r key = Ok tt.
Definition backed_witness (c : WitnessedEventCertificate) (policy : WitnessPolicy) (resolve : WitnessId -> option VerifyingKey) (w : WitnessId) : Prop :=
  w ∈ wp_witnesses policy /\ exists r, vouches c resolve w r.
Lemma receipt_matches_spec r identity sequence digest generation : check_receipt_matches r identity sequence digest generation = Ok tt ->
  at_place r identity sequence digest /\ ws_witness_policy_generation (st r) = generation.
Proof. unfold check_receipt_matches, receipt_matches. intros H. ok_inv. by bool_prop. Qed.
Lemma count_receipts_sound c policy resolve rs counted ids : rs ⊆ ce_receipts c -> NoDup counted -> Forall (backed_witness c policy resolve) counted ->
  count_receipts c policy resolve counted rs = Ok ids -> NoDup ids /\ Forall (backed_witness c policy resolve) ids.
Proof.
  revert counted. induction rs as [|r rs IH]; intros counted Hin Hn Hb; cbn [count_receipts]; [by intros [= <-]|].
  case_eq (check_receipt_matches r (ce_identity c) (ce_sequence c) (ce_event_digest c) (ce_witness_policy_generation c)); [intros [] Hm|done].
  cbn [mbind result_bind]. destruct (policy_contains policy (ws_witness_id (st r))) eqn:Ep; cbn [negb fail_if mbind result_bind]; [|done].
  case_bool_decide as Hc; [apply IH; [set_solver|done..]|]. case_eq (resolve (ws_witness_id (st r))); [intros key Hk|done].
  cbn [ok_or mbind result_bind]. case_eq (receipt_verify r key); [intros [] Hv|done]. cbn [mbind result_bind]. apply IH; [set_solver| |].
  - apply NoDup_app. split; [done|]. split; [set_solver|apply NoDup_singleton].
  - apply Forall_app. split; [done|]. apply Forall_singleton. apply receipt_matches_spec in Hm as [Hm Hg].
    split; [by apply bool_decide_eq_true in Ep|]. exists r. repeat split; try apply Hm; [set_solver|done|]. by exists key.
Qed.
Lemma certificate_backed c policy resolve : certificate_verify c policy resolve = Ok tt ->
  wp_generation policy = ce_witness_policy_generation c /\
  exists ids, NoDup ids /\ wp_threshold policy <= Z.of_nat (length ids) /\ Forall (backed_witness c policy resolve) ids.
Proof.
  unfold certificate_verify. intros H. ok_inv. bool_prop.
  match goal with H : count_receipts _ _ _ _ _ = Ok ?ids |- _ => apply count_receipts_sound in H as [Hn Hb]; [|done|constructor|constructor]; split; [done|]; exists ids end.
  split; [done|]. split; [|done]. etrans; [eassumption|]. apply Z.mod_le; lia.
Qed.
(** Two certificates of one policy share witnesses. *)
Lemma certificates_overlap c1 c2 policy resolve : certificate_verify c1 policy resolve = Ok tt -> certificate_verify c2 policy resolve = Ok tt ->
  exists common, NoDup common /\ 2 * wp_threshold policy <= Z.of_nat (length (wp_witnesses policy)) + Z.of_nat (length common) /\
    forall w, w ∈ common -> w ∈ wp_witnesses policy /\ exists a b, vouches c1 resolve w a /\ vouches c2 resolve w b.
Proof.
  intros (_ & l1 & N1 & T1 & B1)%certificate_backed (_ & l2 & N2 & T2 & B2)%certificate_backed. rewrite Forall_forall in B1, B2.
  exists (filter (.∈ l2) l1). split; [by apply NoDup_filter|]. split.
  - pose proof (overlap_length l1 l2 (wp_witnesses policy) N1 N2) as H. lapply H; [|intros w Hw; by apply (B1 w Hw)].
    intros H'. lapply H'; [lia|]. intros w Hw. by apply (B2 w Hw).
  - intros w [Hw2 Hw1]%list_elem_of_filter. destruct (B1 w Hw1) as [Hw [a Ha]], (B2 w Hw2) as [_ [b Hb]]. split; [done|]. by exists a, b.
Qed.
(** Two receipts of one witness for two events at one place are a proof. *)
Lemma contradiction_proof c1 c2 resolve w a b : vouches c1 resolve w a -> vouches c2 resolve w b ->
  ce_identity c1 = ce_identity c2 -> ce_sequence c1 = ce_sequence c2 -> ce_witness_policy_generation c1 = ce_witness_policy_generation c2 ->
  ce_event_digest c1 <> ce_event_digest c2 ->
  exists proof key, equivocation_assemble a b = Ok proof /\ qp_witness_id proof = w /\ resolve w = Some key /\ equivocation_verify proof key = Ok tt.
Proof.
  intros (_ & Wa & (Ia & Sa & Da) & Ga & k & Hk & Va) (_ & Wb & (Ib & Sb & Db) & Gb & k' & Hk' & Vb) Ei Es Eg Ed.
  exists (mkEquivocation w a b), k. unfold equivocation_assemble.
  rewrite bool_decide_eq_true_2, bool_decide_eq_true_2, (proj2 (Z.eqb_eq _ _)), (proj2 (Z.eqb_eq _ _)), bool_decide_eq_false_2; [|congruence..].
  cbn [negb orb fail_if mbind result_bind]. rewrite Wa. split; [done|]. split; [done|]. split; [done|].
  unfold equivocation_verify. cbn [qp_receipt_a qp_receipt_b]. rewrite Va. cbn [mbind result_bind]. congruence.
Qed.
Lemma known_equivocation r proof policy identity : qp_witness_id proof ∈ wp_witnesses policy ->
  has_known_duplicity (record_witness_equivocation r proof) identity (Some policy) = true.
Proof.
  intros H. unfold has_known_duplicity. case_bool_decide; [done|]. apply existsb_exists. exists (qp_witness_id proof, proof). split.
  - apply list_elem_of_In, elem_of_map_to_list, lookup_insert_eq.
  - by apply bool_decide_eq_true_2.
Qed.


(** ** Two logs with certified heads *)
Context {L : PrimitivesLaws}.
(** From a receipt for an event of the log down to any earlier receipt of
    the same witness: it too is for an event of the log. *)
Lemma issued_below j issued k ks a d n x : journal_inv j issued -> Kel_verify k = Ok ks -> Forall decoded (kel_events k) ->
  a ∈ issued -> at_place a d (Z.of_nat n) x -> forall i e b, kel_events k !! (n + i)%nat = Some e ->
  b ∈ issued -> at_place b d (Z.of_nat (n + i)) (ev_digest e) ->
  (exists e0, kel_events k !! n = Some e0 /\ ev_digest e0 = x) \/ blake3_collision.
Proof.
  intros Hi Hk Hd Ha (Ia & Sa & Da). induction i as [|i IH]; intros e b He Hb (Ib & Sb & Db).
  - rewrite Nat.add_0_r in *. left. exists e. split; [done|]. rewrite <- Da, <- Db. destruct (decide (ws_event_digest (st b) = ws_event_digest (st a))); [done|].
    destruct (ji_agree _ _ Hi b a Hb Ha). unfold contradict. by rewrite Ia, Ib, Sa, Sb.
  - destruct (ji_linked _ _ Hi a b Ha Hb) as (c & y & Hc & Hpl & Hy); [congruence|lia|].
    destruct (ji_event _ _ Hi b Hb) as (e' & De' & Hd' & Hpr). rewrite Db in Hd'. apply ev_digest_inj in Hd' as [Hf|]; [|by right].
    apply decoded_inj in Hf as ->; [|done|by eapply Forall_lookup in Hd].
    destruct (kel_events k !! (n + i)%nat) as [e1|] eqn:E1; [|apply lookup_ge_None in E1; apply lookup_lt_Some in He; lia].
    apply (IH e1 c); [done|done|]. rewrite <- Nat.add_succ_comm in He. cbn [Nat.add] in He. pose proof (log_chained k ks _ e1 e Hk E1 He) as Hch.
    rewrite Hy in Hpr. unfold prior_of in Hpr. case_bool_decide; [done|]. injection Hpr as ->. rewrite <- Hch, <- Ib.
    replace (Z.of_nat (n + i)) with (ws_sequence (st b) - 1) by lia. done.
Qed.

(** The two ways a certificate makes a verifier take a head: as assurance
    under the policy the log declares, and as the retiring witnesses'
    approval of a change of witnesses. *)
Definition relies (policy : WitnessPolicy) (k : Kel) (c : WitnessedEventCertificate) (resolve : WitnessId -> option VerifyingKey) : Prop :=
  (declared_witness_policy k = Some policy /\ exists pins now age known level,
     (assess_kel_assurance k pins (Some (mkEvidence c resolve now age)) known).2 = Ok level /\ (level = Witnessed \/ level = WitnessedRecent)) \/
  verify_policy_transition policy k c resolve = Ok tt.
Definition certified_head (policy : WitnessPolicy) (k : Kel) (c : WitnessedEventCertificate) (resolve : WitnessId -> option VerifyingKey) (h : Event) : Prop :=
  last (kel_events k) = Some h /\ ce_identity c = kel_did k /\ ce_sequence c = ev_sn h /\ ce_event_digest c = ev_digest h /\
  certificate_verify c policy resolve = Ok tt.
Lemma check_and_pin_verifies pins k ks pins' : check_and_pin pins k = Ok (ks, pins') -> exists s, Kel_verify k = Ok s.
Proof. unfold check_and_pin. destruct (Kel_verify k) as [s|]; [by exists s|done]. Qed.
Lemma about_head_spec c k h : about_head c k h = true -> ce_identity c = kel_did k /\ ce_sequence c = ev_sn h /\ ce_event_digest c = ev_digest h.
Proof. unfold about_head. intros H. by bool_prop. Qed.
Lemma relies_certified policy k c resolve : relies policy k c resolve -> exists ks h, Kel_verify k = Ok ks /\ certified_head policy k c resolve h.
Proof.
  unfold relies, certified_head. intros [(Hp & pins & now & age & known & level & H & Hl)|H].
  - unfold assess_kel_assurance in H. case_eq (check_and_pin pins k); [intros [ks pins'] Hc|intros x Hc; by rewrite Hc in H]. rewrite Hc in H. cbn [snd] in H.
    apply check_and_pin_verifies in Hc as [s Hs]. destruct known; [injection H as <-; naive_solver|]. rewrite Hp in H. cbn in H. ok_inv.
    match goal with H : negb (about_head _ _ ?h) = false, E : certificate_verify _ _ _ = Ok ?u |- _ =>
      apply negb_false_iff, about_head_spec in H; destruct u; exists s, h end. by destruct_and!.
  - unfold verify_policy_transition in H. ok_inv. bool_prop. match goal with H : about_head _ _ ?h = true, E : Kel_verify _ = Ok ?s |- _ => apply about_head_spec in H; exists s, h end.
    by destruct_and!.
Qed.

(** A witness that signs only through one journal: what verifies as its
    receipt in the two certificates left that journal. *)
Definition honest_witness (resolve : WitnessId -> option VerifyingKey) (c1 c2 : WitnessedEventCertificate) (w : WitnessId) : Prop :=
  exists j issued, witness_run j issued /\ forall r key, r ∈ ce_receipts c1 ++ ce_receipts c2 -> ws_witness_id (st r) = w ->
    resolve w = Some key -> receipt_verify r key = Ok tt -> r ∈ issued.
Lemma vouched_issued c1 c2 c resolve w r (issued : list WitnessReceipt) : (forall r key, r ∈ ce_receipts c1 ++ ce_receipts c2 -> ws_witness_id (st r) = w ->
    resolve w = Some key -> receipt_verify r key = Ok tt -> r ∈ issued) ->
  c = c1 \/ c = c2 -> vouches c resolve w r -> r ∈ issued /\ at_place r (ce_identity c) (ce_sequence c) (ce_event_digest c).
Proof. intros H Hc (Hr & Hw & Hpl & _ & key & Hk & Hv). split; [|done]. apply (H r key); [destruct Hc as [->| ->]; set_solver|done..]. Qed.
(** Some witness both certificates rely on is honest. *)
Lemma honest_in_common c1 c2 policy resolve (dishonest : list WitnessId) :
  certificate_verify c1 policy resolve = Ok tt -> certificate_verify c2 policy resolve = Ok tt ->
  Z.of_nat (length dishonest) + Z.of_nat (length (wp_witnesses policy)) < 2 * wp_threshold policy ->
  exists w, w ∈ wp_witnesses policy /\ w ∉ dishonest /\ exists a b, vouches c1 resolve w a /\ vouches c2 resolve w b.
Proof.
  intros V1 V2 Hf. destruct (certificates_overlap c1 c2 policy resolve V1 V2) as (common & Hn & Hl & Hc).
  destruct (decide (Forall (.∈ dishonest) common)) as [H|H].
  - assert (length common <= length dishonest)%nat; [|lia]. apply submseteq_length, NoDup_submseteq; [done|]. intros w Hw. by eapply Forall_forall in H.
  - apply not_Forall_Exists, Exists_exists in H as (w & Hw & Hnd); [|apply _]. destruct (Hc w Hw) as [Hin Hab]. by exists w.
Qed.
Lemma kel_did_inj k1 k2 : kel_did k1 = kel_did k2 -> kel_scid k1 = kel_scid k2.
Proof. intros H. unfold kel_did, from_scid_unchecked in H. by simplify_eq. Qed.
Lemma shorter_is_prefix policy k1 k2 c1 c2 resolve h1 h2 a b ks1 ks2 (issued : list WitnessReceipt) j :
  Forall decoded (kel_events k1) -> Forall decoded (kel_events k2) -> kel_did k1 = kel_did k2 ->
  Kel_verify k1 = Ok ks1 -> Kel_verify k2 = Ok ks2 -> certified_head policy k1 c1 resolve h1 -> certified_head policy k2 c2 resolve h2 ->
  witness_run j issued -> a ∈ issued -> b ∈ issued -> at_place a (ce_identity c1) (ce_sequence c1) (ce_event_digest c1) ->
  at_place b (ce_identity c2) (ce_sequence c2) (ce_event_digest c2) -> (length (kel_events k1) <= length (kel_events k2))%nat ->
  kel_events k1 `prefix_of` kel_events k2 \/ blake3_collision.
Proof.
  intros D1 D2 Hid V1 V2 (H1 & I1 & S1 & E1 & _) (H2 & I2 & S2 & E2 & _) Hrun Ha Hb Pa Pb Hle.
  pose proof (head_sequence _ _ _ V1 H1) as N1. pose proof (head_sequence _ _ _ V2 H2) as N2.
  assert (0 < length (kel_events k1))%nat as Hpos by (destruct (kel_events k1); [done|cbn; lia]).
  set (n := (length (kel_events k1) - 1)%nat). set (i := (length (kel_events k2) - length (kel_events k1))%nat).
  destruct (issued_below j issued k2 ks2 a (kel_did k1) n (ev_digest h1) (witness_run_inv _ _ Hrun) V2 D2 Ha) with (i := i) (e := h2) (b := b)
    as [(e0 & He0 & Hd0)|]; [| |done| |..].
  - rewrite <- E1. replace (Z.of_nat n) with (ce_sequence c1) by lia. by rewrite <- I1.
  - rewrite last_lookup in H2. rewrite <- H2. f_equal. lia.
  - rewrite <- E2, Hid, <- I2. replace (Z.of_nat (n + i)) with (ce_sequence c2) by lia. done.
  - destruct (prefix_verifies k2 ks2 (S n) V2) as [ks' Vp]; [lia|]. destruct (heads_pin_log k1 (mkKel (kel_scid k2) (take (S n) (kel_events k2))) ks1 ks' (ev_digest h1)) as [E|];
      [done|by apply Forall_take|done|done|unfold head_digest; by rewrite H1|unfold head_digest; cbn [kel_events]; by rewrite (last_take _ _ _ He0), <- Hd0| |by right].
    left. rewrite E. cbn [kel_events]. apply prefix_take.
  - by right.
Qed.

(** What a witness signs never contradicts itself: over any sequence of
    its journal's calls (observing, certifying a change of witnesses,
    answering submissions and fetches, each with any events, policies, keys
    and epochs), two receipts about one identity and sequence are about the
    same event. *)
Theorem witnesses_never_contradict j issued a b : witness_run j issued -> a ∈ issued -> b ∈ issued ->
  ws_identity (st a) = ws_identity (st b) -> ws_sequence (st a) = ws_sequence (st b) -> ws_event_digest (st a) = ws_event_digest (st b).
Proof.
  intros Hrun Ha Hb Hi Hs. destruct (decide (ws_event_digest (st a) = ws_event_digest (st b))) as [|Hne]; [done|].
  by destruct (ji_agree _ _ (witness_run_inv _ _ Hrun) a b Ha Hb).
Qed.
(** C7: two certificates that verify under one policy for different events of
    an identity at one sequence convict at least [2 * threshold - n] of its
    [n] witnesses: each of those has a receipt in either certificate, the two
    assemble into an equivocation proof that verifies under the witness's
    key, and recording it marks every identity that relies on the policy. *)
Theorem conflicting_certificates_convict_witnesses c1 c2 policy resolve :
  certificate_verify c1 policy resolve = Ok tt -> certificate_verify c2 policy resolve = Ok tt ->
  ce_identity c1 = ce_identity c2 -> ce_sequence c1 = ce_sequence c2 -> ce_event_digest c1 <> ce_event_digest c2 ->
  exists culprits, NoDup culprits /\ 2 * wp_threshold policy - Z.of_nat (length (wp_witnesses policy)) <= Z.of_nat (length culprits) /\
    forall w, w ∈ culprits -> w ∈ wp_witnesses policy /\ exists a b proof key, a ∈ ce_receipts c1 /\ b ∈ ce_receipts c2 /\
      equivocation_assemble a b = Ok proof /\ qp_witness_id proof = w /\ resolve w = Some key /\ equivocation_verify proof key = Ok tt /\
      forall registry identity, has_known_duplicity (record_witness_equivocation registry proof) identity (Some policy) = true.
Proof.
  intros V1 V2 Hi Hs Hd. destruct (certificates_overlap c1 c2 policy resolve V1 V2) as (common & Hn & Hl & Hc). exists common. split; [done|]. split; [lia|].
  intros w Hw. destruct (Hc w Hw) as (Hp & a & b & Va & Vb). split; [done|].
  destruct (contradiction_proof c1 c2 resolve w a b Va Vb Hi Hs) as (proof & key & Ha & Hq & Hk & Hv); [|done|].
  { apply certificate_backed in V1 as [<- _], V2 as [<- _]. done. }
  exists a, b, proof, key. repeat split; try done; [apply Va|apply Vb|]. intros registry identity. apply known_equivocation. by rewrite Hq.
Qed.
(** C4: logs that witnesses vouch for never fork.  Two logs of one identity,
    each taken on a certificate under the same policy, as assurance of its
    head or as the retiring witnesses' approval of a change of witnesses:
    while fewer than [2 * threshold - n] of the [n] witnesses are dishonest,
    one log is a prefix of the other, event for event, unless a collision of
    BLAKE3 is at hand. *)
Theorem witnessed_logs_never_fork policy k1 k2 c1 c2 resolve dishonest :
  Forall decoded (kel_events k1) -> Forall decoded (kel_events k2) -> kel_did k1 = kel_did k2 ->
  relies policy k1 c1 resolve -> relies policy k2 c2 resolve ->
  Z.of_nat (length dishonest) + Z.of_nat (length (wp_witnesses policy)) < 2 * wp_threshold policy ->
  (forall w, w ∈ wp_witnesses policy -> w ∉ dishonest -> honest_witness resolve c1 c2 w) ->
  kel_events k1 `prefix_of` kel_events k2 \/ kel_events k2 `prefix_of` kel_events k1 \/ blake3_collision.
Proof.
  intros D1 D2 Hid (ks1 & h1 & V1 & C1)%relies_certified (ks2 & h2 & V2 & C2)%relies_certified Hf Hh.
  destruct (honest_in_common c1 c2 policy resolve dishonest) as (w & Hw & Hnd & a & b & Va & Vb); [apply C1|apply C2|done|].
  destruct (Hh w Hw Hnd) as (j & issued & Hrun & Hiss). destruct (vouched_issued c1 c2 c1 resolve w a issued Hiss (or_introl eq_refl) Va) as [Ha Pa].
  destruct (vouched_issued c1 c2 c2 resolve w b issued Hiss (or_intror eq_refl) Vb) as [Hb Pb].
  destruct (decide (length (kel_events k1) <= length (kel_events k2))%nat).
  - destruct (shorter_is_prefix policy k1 k2 c1 c2 resolve h1 h2 a b ks1 ks2 issued j); [done..|by left|by right; right].
  - destruct (shorter_is_prefix policy k2 k1 c2 c1 resolve h2 h1 b a ks2 ks1 issued j); [done..|lia|by right; left|by right; right].
Qed.
End Certificates.
