(* ===== verification/WitnessExchange.v ===== *)
(** * WitnessExchange: a witness's answers reach the one who asked

    What a journal keeps stays within the limits of the wire, so every
    answer of the handlers decodes at the other end to the answer given. *)

From Stdlib Require Import ZArith Lia.
From stdpp Require Import base list gmap sets strings.
From S2P Require Import Prelude Codec Crypto Identity Kel KelFacts KelTheorems Witness WitnessJournal WitnessWire WitnessRuns.
Open Scope Z_scope.

Section Exchange.
Context {P : Primitives} {L : PrimitivesLaws}.
Notation st r := (wr_statement r).

Lemma digest_fits e : digest_ok (ev_digest e).
Proof.
  unfold digest_ok, ev_digest, Multihash_to_bytes, Multihash_of. cbn [mh_algorithm mh_digest digest]. rewrite !length_app, blake3_length. by vm_compute.
Qed.
Lemma utf8_method s : utf8_valid (METHOD ++ s) = utf8_valid s.
Proof. reflexivity. Qed.
Lemma received_did k ks : received k -> Kel_verify k = Ok ks -> did_ok (kel_did k).
Proof.
  intros (_ & _ & _ & Hu & Hl)%received_kel Hk. unfold kel_did, from_scid_unchecked. split; [|split].
  - cbn [did_str]. rewrite length_app. change (length METHOD) with 9%nat. unfold MAX_SCID_BYTES, MAX_DID_BYTES in *. lia.
  - cbn [did_str]. by rewrite utf8_method.
  - destruct (verified_did_parses k ks Hk) as [x Hx]. pose proof (Did_parse_str _ _ Hx) as E. unfold kel_did, from_scid_unchecked in *. cbn [did_str] in *.
    rewrite Hx. f_equal. destruct x. cbn in E. by rewrite E.
Qed.
Lemma head_identity k ks e d : Kel_verify k = Ok ks -> last (kel_events k) = Some e -> from_scid (ev_scid e) = Ok d -> d = kel_did k.
Proof. intros Hk He H. rewrite (head_scid k ks e Hk He) in H. unfold from_scid in H. by ok_inv. Qed.
Lemma position_fits k ks e : received k -> Kel_verify k = Ok ks -> e ∈ kel_events k -> is_u64 (ev_sn e).
Proof.
  intros (_ & _ & Hn & _)%received_kel Hk [i Hi]%list_elem_of_lookup. rewrite (log_sequence k ks i e Hk Hi). apply lookup_lt_Some in Hi.
  unfold is_u64, U64_MAX, MAX_KEL_EVENTS in *. lia.
Qed.
Lemma declared_generation k policy : declared_witness_policy k = Some policy -> exists e, e ∈ kel_events k /\ wp_generation policy = ev_sn e.
Proof.
  unfold declared_witness_policy. assert (forall l, latest_policy l = Some policy -> exists e, e ∈ l /\ wp_generation policy = ev_sn e) as H.
  { induction l as [|e l IH]; cbn [latest_policy]; [done|]. destruct (establishment_of (ev_kind e)) as [est|].
    - intros H. exists e. split; [by left|]. unfold establishment_policy in H. destruct (est_witnesses est) as [|b bs]; [done|].
      destruct (mapM parse_witness (b :: bs)) as [ws|]; cbn [mbind option_bind] in H; [|done]. destruct (_ <? _); [done|].
      destruct (WitnessPolicy_new (ev_sn e) ws (est_witness_threshold est)) as [p|] eqn:Ep; [|done]. injection H as ->.
      unfold WitnessPolicy_new in Ep. ok_inv. done.
    - intros (e' & Hin & E)%IH. exists e'. split; [by right|done]. }
  intros (e & Hin & E)%H. exists e. split; [by apply list_elem_of_In, in_rev, list_elem_of_In in Hin|done].
Qed.
Lemma head_statement_ok k ks e g id epoch : received k -> Kel_verify k = Ok ks -> last (kel_events k) = Some e -> is_u64 g -> did_ok (wid id) -> is_u64 epoch ->
  statement_ok (statement_of (kel_did k) e g id epoch).
Proof.
  intros Hr Hk He Hg Hid Hep. pose proof (last_Some_elem_of _ _ He) as Hin. split; cbn; try done.
  - by eapply received_did.
  - by eapply position_fits.
  - apply digest_fits.
  - intros d. case_bool_decide; [done|]. intros [= <-]. destruct (head_prior k ks e Hk He) as [|(e0 & _ & ->)]; [done|apply digest_fits].
Qed.
Lemma signed_ok s key : statement_ok s -> receipt_ok (sign_witness_receipt s key).
Proof. intros H. split; [done|]. unfold signature_ok. cbn. rewrite ed25519_sign_length. by vm_compute. Qed.

(** ** What a journal keeps *)
Record state_ok (s : WitnessIdentityState) : Prop := {
  sk_receipt : receipt_ok (wi_issued_receipt s);
  sk_event : event_sized (wi_accepted_event s);
  sk_sequence : is_u64 (wi_accepted_sequence s);
  sk_generation : is_u64 (wp_generation (wi_accepted_policy s));
}.
Definition journal_typed (j : WitnessJournal) : Prop := forall d s, wj_states j !! d = Some s -> state_ok s.
Definition observation_ok (o : WitnessObservation) : Prop :=
  match o with
  | Accepted r | AlreadyAccepted r => receipt_ok r
  | Stale n => is_u64 n
  | ControllerDuplicity p => duplicity_ok p
  end.
Lemma typed_new : journal_typed journal_new.
Proof. intros d s H. cbn in H. by rewrite lookup_empty in H. Qed.
Lemma accept_typed j k ks e policy r : journal_typed j -> received k -> Kel_verify k = Ok ks -> e ∈ kel_events k -> receipt_ok r ->
  is_u64 (wp_generation policy) -> journal_typed (accept j (kel_did k) e policy r).
Proof.
  intros Hj Hr Hk He Hok Hg d s. unfold accept. cbn [wj_states]. destruct (decide (kel_did k = d)) as [<-|E].
  - rewrite lookup_insert_eq. intros [= <-]. split; cbn; try done; [|by eapply position_fits].
    apply received_kel in Hr as (_ & Hs & _). by eapply Forall_forall in Hs.
  - rewrite lookup_insert_ne by done. apply Hj.
Qed.
Lemma observe_typed j k ks e policy id key epoch j' o : journal_typed j -> received k -> Kel_verify k = Ok ks -> last (kel_events k) = Some e ->
  is_u64 (wp_generation policy) -> did_ok (wid id) -> is_u64 epoch -> observe j e policy id key epoch = Ok (j', o) -> journal_typed j' /\ observation_ok o.
Proof.
  intros Hj Hr Hk He Hg Hid Hep. pose proof (last_Some_elem_of _ _ He) as Hin. pose proof (received_did k ks Hr Hk) as Hd.
  pose proof (proj1 (Forall_forall _ _) (proj1 (proj2 (received_kel k Hr))) e Hin) as Hs. unfold observe.
  destruct (fail_if _ _); cbn [mbind result_bind]; [|done]. case_eq (from_scid (ev_scid e)); [intros d Hf|done]. cbn [mbind result_bind].
  apply (head_identity k ks e) in Hf as ->; [|done..]. case_eq (decision (wj_states j !! kel_did k) e).
  - intros _. destruct (check_certified j (kel_did k) e); cbn [mbind result_bind]; [|done]. intros [= <- <-].
    pose proof (signed_ok _ key (head_statement_ok k ks e (wp_generation policy) id epoch Hr Hk He Hg Hid Hep)) as Hok. split; [by eapply accept_typed|done].
  - intros r (s & Hst & ->)%decision_duplicate [= <- <-]. split; [done|]. by destruct (Hj _ _ Hst).
  - intros n Hn [= <- <-]. split; [done|]. cbn. destruct (wj_states j !! kel_did k) as [s|] eqn:Es; [|done]. unfold decision in Hn.
    assert (n = wi_accepted_sequence s) as -> by (repeat (destruct (_ && _) || destruct (_ <? _); try congruence)). by destruct (Hj _ _ Es).
  - intros x Hx. destruct (wj_states j !! kel_did k) as [s|] eqn:Es; [|done]. assert (x = wi_accepted_event s) as ->.
    { unfold decision in Hx. repeat (destruct (_ && _) || destruct (_ <? _); try congruence). }
    case_eq (duplicity_assemble (kel_did k) (wi_accepted_event s) e); [intros p Hp|done]. cbn [mbind result_bind]. intros [= <- <-]. split; [done|].
    pose proof Hp as Hp'. unfold duplicity_assemble in Hp'. ok_inv. destruct (Hj _ _ Es) as [_ Hse _ _]. bool_prop.
    split; [done|]. cbn [dp_sequence dp_event_a dp_event_b dp_identity]. split; [|done].
    match goal with H : ev_sn _ = ev_sn e |- _ => rewrite H end. by eapply position_fits.
  - done.
Qed.
Lemma observe_declared_typed j k id key epoch j' o : journal_typed j -> received k -> did_ok (wid id) -> is_u64 epoch ->
  observe_declared j k id key epoch = Ok (j', o) -> journal_typed j' /\ observation_ok o.
Proof.
  intros Hj Hr Hid Hep. unfold observe_declared. case_eq (Kel_verify k); [intros ks Hk|done]. cbn [mbind result_bind].
  case_eq (declared_witness_policy k); [intros policy Hp|done]. cbn [ok_or mbind result_bind]. case_eq (last (kel_events k)); [intros e He|done].
  cbn [ok_or mbind result_bind]. eapply observe_typed; try done. apply declared_generation in Hp as (e' & Hin & ->). by eapply position_fits.
Qed.
(** Errors whose sequence, if any, fits the wire. *)
Definition wire_fits {A} (r : result IdentityError A) : Prop :=
  match r with Err (WitnessConflictingDescendant n) => is_u64 n | _ => True end.
Lemma fits_bind {A B} (m : result IdentityError A) (f : A -> result IdentityError B) : wire_fits m -> (forall a, m = Ok a -> wire_fits (f a)) -> wire_fits (m ≫= f).
Proof. destruct m; [intros _ H; by apply H|done]. Qed.
Lemma fits_map_err {A} (r : result CryptoError A) : wire_fits (map_err Crypto r).
Proof. by destruct r. Qed.
Ltac fit := repeat first [done | apply fits_map_err | match goal with |- wire_fits (mbind _ _) => apply fits_bind; [|intros ? ?] end | case_match | progress unfold fail_if, ok_or].
Lemma validate_scid_fits s : wire_fits (validate_scid s).
Proof. unfold validate_scid. fit. Qed.
Lemma Did_parse_fits s : wire_fits (Did_parse s).
Proof. unfold Did_parse. repeat case_match; try done. apply fits_bind; [apply validate_scid_fits|done]. Qed.
Lemma validate_next_fits seen l : wire_fits (validate_next seen l).
Proof. revert seen. induction l as [|c l IH]; intros seen; cbn [validate_next]; fit; apply IH. Qed.
Lemma validate_establishment_fits est : wire_fits (validate_establishment est).
Proof. unfold validate_establishment. fit; apply validate_next_fits. Qed.
Lemma verify_threshold_fits e keys t : wire_fits (verify_threshold e keys t).
Proof. unfold verify_threshold. fit. Qed.
Lemma verify_inception_fits scid e : wire_fits (verify_inception scid e).
Proof.
  unfold verify_inception. fit.
  all: first [apply validate_establishment_fits | apply Did_parse_fits | apply verify_threshold_fits].
Qed.
Lemma verify_loop_fits scid sn s l : wire_fits (verify_loop scid sn s l).
Proof.
  revert sn s. induction l as [|e l IH]; intros sn s; cbn [verify_loop]; [done|]. apply fits_bind; [|intros; apply IH]. unfold verify_step. fit.
  all: first [apply validate_establishment_fits | apply verify_threshold_fits].
Qed.
Lemma Kel_verify_fits k : wire_fits (Kel_verify k).
Proof. unfold Kel_verify, verify_through. fit; [apply verify_inception_fits|apply verify_loop_fits]. Qed.
Lemma observe_declared_fits j k id key epoch : received k -> wire_fits (observe_declared j k id key epoch).
Proof.
  intros Hr. unfold observe_declared. apply fits_bind; [apply Kel_verify_fits|intros ks Hk]. apply fits_bind; [by fit|intros policy _].
  apply fits_bind; [by fit|intros e He]. unfold observe. apply fits_bind; [by fit|intros _ _]. apply fits_bind; [unfold from_scid; fit; apply validate_scid_fits|intros d _].
  unfold check_certified, duplicity_assemble. destruct (decision _ e); fit.
  cbn. eapply position_fits; [done..|]. destruct (last (kel_events k)) eqn:El; [|done]. injection He as ->. by apply last_Some_elem_of.
Qed.
Lemma certify_typed j k id key epoch j' r : journal_typed j -> received k -> did_ok (wid id) -> is_u64 epoch ->
  certify_policy_transition j k id key epoch = Ok (j', r) -> journal_typed j' /\ receipt_ok r.
Proof.
  intros Hj Hr Hid Hep H. unfold certify_policy_transition in H.
  ok_inv; match goal with H : state_for _ _ = Some ?s |- _ => pose proof (Hj _ _ H : state_ok s) as [] end; (split; [done|]).
  all: apply signed_ok; by eapply head_statement_ok.
Qed.

(** A witness's answers reach the one who asked.  On a journal within the
    wire's limits (the new one is, and every submission keeps it so), the
    answer to a log received from the wire decodes, from its bytes, to the
    very answer given: a receipt, a stale sequence, a proof of conflict or a
    rejection; so does the answer to a fetch. *)
Theorem witness_answers_arrive j k id key epoch fetch : journal_typed j -> received k -> did_ok (wid id) -> is_u64 epoch ->
  journal_typed journal_new /\
  let '(j', answer) := handle_submit_for_witnessing j (mkSubmit k) id key epoch in
  journal_typed j' /\ submit_response_decode (submit_response_encode answer) = Ok answer /\
  let found := handle_fetch_witness_receipt j' fetch in fetch_response_decode (fetch_response_encode found) = Ok found.
Proof.
  intros Hj Hr Hid Hep. split; [apply typed_new|]. destruct (handle_submit_for_witnessing _ _ _ _ _) as [j' answer] eqn:E.
  assert (journal_typed j' /\ response_ok answer) as [Hj' Ha].
  { unfold handle_submit_for_witnessing in E. cbn [sb_kel] in E. case_eq (observe_declared j k id key epoch).
    - intros [j2 o] H. rewrite H in E. apply observe_declared_typed in H as [Hj2 Ho]; [|done..]. by destruct o; injection E as <- <-.
    - intros x H. rewrite H in E. pose proof (observe_declared_fits j k id key epoch Hr) as Hn. rewrite H in Hn.
      destruct x; injection E as <- <-; by split. }
  split; [done|]. split; [by apply whole_parses, parses_submit_response|]. apply whole_parses, parses_fetch_response.
  unfold handle_fetch_witness_receipt, state_for. destruct (wj_states j' !! _) as [s|] eqn:Es; [|done]. destruct (_ =? _); [|done]. by destruct (Hj' _ _ Es).
Qed.
End Exchange.
