(* ===== verification/Chain.v ===== *)
(** * Chain: validator sets, votes, finality and equivocation

    Models the crate [mini-chain]: [validator.rs] (the equal-weight validator
    set and its quorum), [block.rs] (the header and its canonical bytes),
    [vote.rs] (signed votes, their wire format and verification),
    [finality.rs] (quorum certificates) and [equivocation.rs] (proofs of
    double voting, the registry of offenders, exclusion).

    A [HashSet] the source only tests for membership and inserts into is a
    duplicate-free list.  The trait object [ValidatorOracle] is a function
    from identifiers to logs. *)

From Stdlib Require Import ZArith Lia.
From stdpp Require Import base list sorting strings.
From S2P Require Import Prelude Codec Crypto Identity Kel KelFacts KelTheorems.
Open Scope Z_scope.

Inductive ChainError :=
| EmptyValidatorSet
| NotAnEquivocation
| UnknownValidator
| DuplicateValidator
| DeviceMismatch
| MissingVoteCapability
| LimitExceeded
| QuorumNotMet (needed got : Z)
| Malformed
| IdentityErr (e : IdentityError).


(** ** Validator sets ([validator.rs]) *)
Definition MAX_VALIDATORS : Z := 10000.

Record ValidatorSet := mkValidatorSet { roots : list Did }.

Definition did_le (a b : Did) : Prop := bytes_le (did_str a) (did_str b).
#[global] Instance did_le_dec : RelDecision did_le := fun a b => decide (bytes_le (did_str a) (did_str b)).
#[global] Instance did_le_total : Total did_le.
Proof. intros a b. apply (total bytes_le). Qed.
#[global] Instance did_le_trans : Transitive did_le.
Proof. intros a b c. unfold did_le. by etrans. Qed.
#[global] Instance did_le_antisymm : AntiSymm (=) did_le.
Proof. intros [a] [b] H1 H2. f_equal. by apply (anti_symm bytes_le). Qed.

Definition ValidatorSet_new (rs : list Did) : result ChainError ValidatorSet :=
  _ ← fail_if (match rs with [] => true | _ => false end) EmptyValidatorSet;
  _ ← fail_if (MAX_VALIDATORS <? Z.of_nat (length rs)) LimitExceeded;
  let sorted := merge_sort did_le rs in
  _ ← fail_if (dup_scan [] (map did_scid sorted)) DuplicateValidator;
  Ok (mkValidatorSet sorted).

Definition vs_len (v : ValidatorSet) : Z := Z.of_nat (length (roots v)).

Definition contains (v : ValidatorSet) (root : Did) : bool :=
  existsb (fun r => bool_decide (did_scid r = did_scid root)) (roots v).

Definition quorum_threshold (v : ValidatorSet) : Z := (2 * vs_len v) / 3 + 1.

(** ** Block headers ([block.rs]) *)
Definition BLOCK_HEADER_VERSION : Z := 2.
Definition BLOCK_HEADER_HASH_DOMAIN : bytes := lit "mini-chain/block-header/v2".

Record BlockHeader := mkBlockHeader {
  bh_height : Z;
  bh_prev_hash : bytes;
  bh_state_root : bytes;
  bh_body_root : bytes;
  bh_timestamp_ms : Z;
  bh_proposer : Did;
}.

(** [put_str], and the same length-prefixed layout written out in
    [canonical_bytes]. *)
Definition put_str (s : bytes) : bytes := w_u32 (Z.of_nat (length s)) ++ s.

Definition canonical_bytes (h : BlockHeader) : bytes :=
  BLOCK_HEADER_HASH_DOMAIN ++ [BLOCK_HEADER_VERSION] ++ w_u64 (bh_height h) ++ bh_prev_hash h
  ++ bh_state_root h ++ bh_body_root h ++ w_u64 (bh_timestamp_ms h)
  ++ put_str (did_str (bh_proposer h)).

Definition header_hash `{Primitives} (h : BlockHeader) : bytes := digest Blake3 (canonical_bytes h).

(** ** Votes ([vote.rs]) *)
Definition MAX_SIGS_PER_VOTE : Z := MAX_SIGNATURES.
Definition MAX_VOTE_DID_BYTES : Z := 512.
Definition VOTE_SIGN_DOMAIN : bytes := lit "mini-chain/vote-sign/v1".
Definition VOTE_WIRE_DOMAIN : bytes := lit "mini-chain/vote/v1".

Inductive VoteKind := Prevote | Precommit.
#[global] Instance VoteKind_eq_dec : EqDecision VoteKind.
Proof. solve_decision. Defined.
Definition kind_to_byte (k : VoteKind) : Z := match k with Prevote => 0 | Precommit => 1 end.

Record Vote := mkVote {
  v_kind : VoteKind;
  v_height : Z;
  v_round : Z;
  v_block_hash : bytes;
  v_validator_root : Did;
  v_validator_device : Did;
  v_signature : list IndexedSig;
}.

Definition transcript (kind : VoteKind) (height round : Z) (block_hash : bytes) : bytes :=
  VOTE_SIGN_DOMAIN ++ w_u8 (kind_to_byte kind) ++ w_u64 height ++ w_u32 round ++ block_hash.
Definition vote_transcript (v : Vote) : bytes :=
  transcript (v_kind v) (v_height v) (v_round v) (v_block_hash v).

Definition wire_sig (s : IndexedSig) : bytes :=
  w_u32 (is_index s) ++ w_u8 (suite_tag (sig_suite (is_signature s))) ++ sig_bytes (is_signature s).

Definition to_wire_bytes (v : Vote) : bytes :=
  VOTE_WIRE_DOMAIN ++ w_u8 (kind_to_byte (v_kind v)) ++ w_u64 (v_height v) ++ w_u32 (v_round v)
  ++ v_block_hash v ++ put_str (did_str (v_validator_root v))
  ++ put_str (did_str (v_validator_device v))
  ++ w_u32 (Z.of_nat (length (v_signature v))) ++ concat (map wire_sig (v_signature v)).

(** [SliceReader]: the cursor of [Codec] with the one error [Malformed]. *)
Definition sr_take (n : nat) : parser ChainError bytes := r_take Malformed n.
Definition sr_u8 : parser ChainError Z := r_u8 Malformed.
Definition sr_u32 : parser ChainError Z := r_u32 Malformed.
Definition sr_u64 : parser ChainError Z := r_u64 Malformed.
Definition malformed {E A} (r : result E A) : result ChainError A := map_err (fun _ => Malformed) r.

Section Votes.
Context {P : Primitives}.

Definition take_did : parser ChainError Did :=
  len ← sr_u32;
  _ ← lift (fail_if (MAX_VOTE_DID_BYTES <? len) Malformed);
  s ← sr_take (Z.to_nat len);
  _ ← lift (fail_if (negb (utf8_valid s)) Malformed);
  lift (malformed (Did_parse s)).

Definition take_kind : parser ChainError VoteKind :=
  b ← sr_u8;
  if b =? 0 then mret Prevote else if b =? 1 then mret Precommit else lift (Err Malformed).

Definition take_sig : parser ChainError IndexedSig :=
  index ← sr_u32;
  tag ← sr_u8;
  suite ← lift (malformed (suite_from_tag tag));
  sb ← sr_take (signature_len suite);
  sg ← lift (malformed (Signature_from_suite_bytes suite sb));
  mret (mkIndexedSig index sg).

Definition decode_vote : parser ChainError Vote :=
  domain ← sr_take (length VOTE_WIRE_DOMAIN);
  _ ← lift (fail_if (negb (bool_decide (domain = VOTE_WIRE_DOMAIN))) Malformed);
  kind ← take_kind;
  height ← sr_u64;
  round ← sr_u32;
  block_hash ← sr_take 32;
  validator_root ← take_did;
  validator_device ← take_did;
  sig_count ← sr_u32;
  _ ← lift (fail_if (MAX_SIGS_PER_VOTE <? sig_count) Malformed);
  signature ← r_repeat (Z.to_nat sig_count) take_sig;
  mret (mkVote kind height round block_hash validator_root validator_device signature).

Definition from_wire_bytes (b : bytes) : result ChainError Vote :=
  '(v, r) ← decode_vote (Reader_new b);
  _ ← fail_if (negb (finished r)) Malformed;
  Ok v.

Definition sign_vote (kind : VoteKind) (height round : Z) (block_hash : bytes)
    (validator_root : Did) (device : Controller) : Vote :=
  mkVote kind height round block_hash validator_root (kel_did (ctl_kel device))
    (sign_message device (transcript kind height round block_hash)).

Definition verify_vote (v : Vote) (root_kel device_kel : Kel) : result ChainError unit :=
  _ ← fail_if (negb (bool_decide (did_str (kel_did device_kel) = did_str (v_validator_device v))))
        DeviceMismatch;
  _ ← fail_if (negb (bool_decide (did_str (kel_did root_kel) = did_str (v_validator_root v))))
        DeviceMismatch;
  caps ← map_err IdentityErr (verify_delegation root_kel device_kel);
  _ ← fail_if (negb (cap_contains caps VOTE)) MissingVoteCapability;
  map_err IdentityErr (verify_message device_kel (vote_transcript v) (v_signature v)).

(** ** Finality ([finality.rs]) *)
Definition MAX_VOTES_PER_CERTIFICATE : Z := 4 * MAX_VALIDATORS.
Definition ValidatorOracle := Did -> option Kel.

Record QuorumCertificate := mkQC {
  qc_height : Z;
  qc_round : Z;
  qc_block_hash : bytes;
  qc_votes : list Vote;
}.

(** One iteration of the counting loop: every [continue] leaves [counted]
    as it was. *)
Definition count_vote (qc : QuorumCertificate) (validators : ValidatorSet)
    (oracle : ValidatorOracle) (counted : list bytes) (v : Vote) : list bytes :=
  if negb (bool_decide (v_kind v = Precommit)) then counted
  else if negb (v_height v =? qc_height qc) || negb (v_round v =? qc_round qc)
          || negb (bool_decide (v_block_hash v = qc_block_hash qc)) then counted
  else if negb (contains validators (v_validator_root v)) then counted
  else
    let scid := did_scid (v_validator_root v) in
    if bool_decide (scid ∈ counted) then counted
    else match oracle (v_validator_root v), oracle (v_validator_device v) with
         | Some root_kel, Some device_kel =>
             if is_ok (verify_vote v root_kel device_kel) then counted ++ [scid] else counted
         | _, _ => counted
         end.

Definition verify_finality (qc : QuorumCertificate) (validators : ValidatorSet)
    (oracle : ValidatorOracle) : result ChainError Z :=
  _ ← fail_if (MAX_VOTES_PER_CERTIFICATE <? Z.of_nat (length (qc_votes qc))) LimitExceeded;
  let counted := fold_left (count_vote qc validators oracle) (qc_votes qc) [] in
  let needed := quorum_threshold validators in
  let got := Z.of_nat (length counted) in
  _ ← fail_if (got <? needed) (QuorumNotMet needed got);
  Ok got.

(** ** Equivocation ([equivocation.rs]) *)
Definition EQUIVOCATION_DOMAIN : bytes := lit "mininet/mini-chain/equivocation-proof/v1".

Record EquivocationProof := mkEquivocationProof { ep_first : Vote; ep_second : Vote }.

Definition check_vote (oracle : ValidatorOracle) (v : Vote) : result ChainError unit :=
  root_kel ← ok_or (oracle (v_validator_root v)) UnknownValidator;
  device_kel ← ok_or (oracle (v_validator_device v)) UnknownValidator;
  verify_vote v root_kel device_kel.

Definition assemble (first second : Vote) (oracle : ValidatorOracle) :
    result ChainError EquivocationProof :=
  _ ← fail_if (negb (bool_decide (did_scid (v_validator_root first) = did_scid (v_validator_root second))))
        NotAnEquivocation;
  _ ← fail_if (negb (v_height first =? v_height second) || negb (v_round first =? v_round second)
               || negb (bool_decide (v_kind first = v_kind second))) NotAnEquivocation;
  _ ← fail_if (bool_decide (v_block_hash first = v_block_hash second)) NotAnEquivocation;
  _ ← check_vote oracle first;
  _ ← check_vote oracle second;
  if bytes_leb (v_block_hash first) (v_block_hash second)
  then Ok (mkEquivocationProof first second) else Ok (mkEquivocationProof second first).

Definition offender (p : EquivocationProof) : Did := v_validator_root (ep_first p).

Definition ep_digest (p : EquivocationProof) : bytes :=
  let f := ep_first p in
  digest Blake3 (EQUIVOCATION_DOMAIN ++ did_str (v_validator_root f) ++ [0]
    ++ [kind_to_byte (v_kind f)] ++ to_be_bytes 8 (v_height f) ++ to_be_bytes 4 (v_round f)
    ++ v_block_hash f ++ v_block_hash (ep_second p)).

Definition EquivocationRegistry := list EquivocationProof.

Definition record (reg : EquivocationRegistry) (p : EquivocationProof) : EquivocationRegistry :=
  if existsb (fun held => bool_decide (ep_digest held = ep_digest p)) reg then reg else reg ++ [p].

Definition is_proven_faulty (reg : EquivocationRegistry) (root : Did) : bool :=
  existsb (fun p => bool_decide (did_scid (offender p) = did_scid root)) reg.

Definition offenders_step (acc : list Did) (p : EquivocationProof) : list Did :=
  if existsb (fun r => bool_decide (did_scid r = did_scid (offender p))) acc then acc
  else acc ++ [offender p].
Definition offenders (reg : EquivocationRegistry) : list Did :=
  merge_sort did_le (fold_left offenders_step reg []).

Definition excluding (v : ValidatorSet) (excluded : list Did) : result ChainError ValidatorSet :=
  let remaining := List.filter
    (fun root => negb (existsb (fun e => bool_decide (did_scid e = did_scid root)) excluded)) (roots v) in
  match remaining with
  | [] => Err EmptyValidatorSet
  | _ => ValidatorSet_new remaining
  end.

End Votes.
