(* ===== verification/ChainTheorems.v ===== *)
(** * ChainTheorems: what votes, certificates and proofs guarantee

    The vote wire format is a bijection on what it accepts; a certificate
    that passes is backed by a quorum of distinct validators; two conflicting
    certificates of one round convict more than a third of the validators. *)

From Stdlib Require Import ZArith Lia.
From stdpp Require Import base list sorting strings.
From S2P Require Import Prelude Codec Crypto Identity Kel KelFacts KelTheorems Chain.
Open Scope Z_scope.

Section ChainTheorems.
Context {P : Primitives}.

(** ** The wire format *)
Definition vote_did_wf (d : Did) : Prop :=
  Z.of_nat (length (did_str d)) <= MAX_VOTE_DID_BYTES /\ utf8_valid (did_str d) = true /\
  Did_parse (did_str d) = Ok d.

Definition vote_wf (v : Vote) : Prop :=
  is_u64 (v_height v) /\ is_u32 (v_round v) /\ length (v_block_hash v) = 32%nat /\
  vote_did_wf (v_validator_root v) /\ vote_did_wf (v_validator_device v) /\
  Z.of_nat (length (v_signature v)) <= MAX_SIGS_PER_VOTE /\
  Forall (fun s => is_u32 (is_index s) /\
    length (sig_bytes (is_signature s)) = signature_len (sig_suite (is_signature s)))
    (v_signature v).

Lemma parses_did_field d : vote_did_wf d -> parses take_did (put_str (did_str d)) d.
Proof.
  intros (Hl & Hu & Hp). unfold take_did, put_str.
  eapply parses_bind; [apply parses_u32; unfold is_u32, U32_MAX, MAX_VOTE_DID_BYTES in *; lia|].
  eapply (parses_lift _ _ _ tt); [by apply fail_if_ok, Z.ltb_ge|].
  eapply parses_bind_nil; [apply parses_take; by rewrite Nat2Z.id|].
  eapply (parses_lift _ _ _ tt); [by rewrite Hu|].
  apply parses_lift_end. unfold malformed. by rewrite Hp.
Qed.

Lemma parses_take_kind k : parses take_kind (w_u8 (kind_to_byte k)) k.
Proof.
  unfold take_kind. eapply parses_bind_nil; [apply parses_u8|].
  destruct k; apply parses_ret.
Qed.

Lemma parses_take_sig s :
  is_u32 (is_index s) ->
  length (sig_bytes (is_signature s)) = signature_len (sig_suite (is_signature s)) ->
  parses take_sig (wire_sig s) s.
Proof.
  destruct s as [i [su sb]]. simpl. intros Hi Hl. unfold take_sig, wire_sig.
  eapply parses_bind; [by apply parses_u32|]. eapply parses_bind; [apply parses_u8|].
  eapply parses_lift; [unfold malformed; simpl; by rewrite suite_from_tag_tag|].
  eapply parses_bind_nil; [by apply parses_take|].
  eapply parses_lift; [|apply parses_ret].
  unfold malformed, Signature_from_suite_bytes. simpl. by rewrite Hl, Nat.eqb_refl.
Qed.

Lemma parses_vote v : vote_wf v -> parses decode_vote (to_wire_bytes v) v.
Proof.
  intros (Hh & Hr & Hb & Hroot & Hdev & Hn & Hs). unfold decode_vote, to_wire_bytes.
  eapply parses_bind; [by apply parses_take|].
  eapply (parses_lift _ _ _ tt); [by rewrite bool_decide_eq_true_2|].
  eapply parses_bind; [apply parses_take_kind|].
  eapply parses_bind; [by apply parses_u64|]. eapply parses_bind; [by apply parses_u32|].
  eapply parses_bind; [by apply parses_take|].
  eapply parses_bind; [by apply parses_did_field|]. eapply parses_bind; [by apply parses_did_field|].
  eapply parses_bind; [apply parses_u32; unfold is_u32, U32_MAX, MAX_SIGS_PER_VOTE, MAX_SIGNATURES in *; lia|].
  eapply (parses_lift _ _ _ tt); [by apply fail_if_ok, Z.ltb_ge|].
  eapply (parses_bind_nil _ _ _ (v_signature v)); [|destruct v; apply parses_ret].
  rewrite Nat2Z.id. apply parses_repeat. eapply Forall_impl; [exact Hs|].
  intros s [? ?]. by apply parses_take_sig.
Qed.

(** A vote survives the wire: decoding the bytes of any vote within the
    format's limits gives that vote back. *)
Theorem vote_round_trip v : vote_wf v -> from_wire_bytes (to_wire_bytes v) = Ok v.
Proof.
  intros Hw. unfold from_wire_bytes.
  destruct (parses_new _ _ _ (parses_vote v Hw)) as (r & -> & Hf). simpl. by rewrite Hf.
Qed.

#[global] Instance canonical_sr_u8 : Canonical sr_u8 w_u8.
Proof. intros r a r' _ H. by apply r_u8_consumes in H. Qed.
#[global] Instance canonical_sr_u32 : Canonical sr_u32 w_u32.
Proof. intros r a r' Hok H. by apply r_u32_consumes in H as [? _]. Qed.
#[global] Instance canonical_sr_u64 : Canonical sr_u64 w_u64.
Proof. intros r a r' Hok H. by apply r_u64_consumes in H as [? _]. Qed.
#[global] Instance canonical_sr_take n : Canonical (sr_take n) (fun b => b).
Proof. intros r a r' _ H. by apply r_take_consumes in H as [? _]. Qed.

#[global] Instance canonical_take_did : Canonical take_did (fun d => put_str (did_str d)).
Proof.
  intros r d r' Hok H. unfold take_did in H. parse_inv. ok_inv. bool_prop.
  unfold malformed in H. ok_inv. apply Did_parse_str in H as ->.
  repeat canon_step. unfold put_str.
  match goal with H : sr_u32 _ = Ok _ |- _ => apply r_u32_consumes in H as [_ Hu]; [|done] end.
  match goal with H : sr_take _ _ = Ok _ |- _ => apply r_take_consumes in H as [_ Hl] end.
  unfold is_u32 in Hu. rewrite Hl, Z2Nat.id by lia. canon_chain.
Qed.

#[global] Instance canonical_take_kind : Canonical take_kind (fun k => w_u8 (kind_to_byte k)).
Proof.
  intros r k r' Hok H. unfold take_kind in H. parse_inv. canon_step.
  destruct (Z.eqb_spec a 0) as [->|]; parse_inv; [done|].
  destruct (Z.eqb_spec a 1) as [->|]; parse_inv; done.
Qed.

#[global] Instance canonical_take_sig : Canonical take_sig wire_sig.
Proof.
  intros r s r' Hok H. unfold take_sig in H. parse_inv. repeat canon_step.
  unfold malformed, Signature_from_suite_bytes in *. ok_inv.
  match goal with H : suite_from_tag _ = Ok _ |- _ => apply suite_tag_from_tag in H; subst end.
  unfold wire_sig. simpl. canon_chain.
Qed.

#[global] Instance canonical_vote : Canonical decode_vote to_wire_bytes.
Proof.
  intros r v r' Hok H. unfold decode_vote in H. parse_inv. ok_inv. bool_prop. subst.
  repeat canon_step.
  match goal with H : r_repeat _ _ _ = Ok _ |- _ =>
    apply (r_repeat_consumes _ _ _ _ _ _ canonical_take_sig) in H as [Hcs Hl]; [|done] end.
  match goal with H : sr_u32 _ = Ok (?n, _), _ : length _ = Z.to_nat ?n |- _ =>
    apply r_u32_consumes in H as [_ Hu]; [|done] end.
  unfold to_wire_bytes.
  cbn [v_kind v_height v_round v_block_hash v_validator_root v_validator_device v_signature].
  unfold is_u32 in Hu. rewrite Hl, Z2Nat.id by lia. canon_chain.
Qed.

(** Only canonical vote bytes decode: a byte string the decoder accepts
    is exactly the encoding of the vote it returns. *)
Theorem vote_bytes_canonical b v :
  bytes_ok b -> from_wire_bytes b = Ok v -> to_wire_bytes v = b.
Proof.
  intros Hb H. unfold from_wire_bytes in H. ok_inv. bool_prop.
  eapply consumes_finished; [|eassumption]. by eapply (canonical_use (p:=decode_vote)).
Qed.

(** ** Certificates *)

(** A vote of [votes] that passes every test of the counting loop for the
    validator whose identifier is [s]. *)
Definition counts_for (qc : QuorumCertificate) (validators : ValidatorSet)
    (oracle : ValidatorOracle) (s : bytes) (v : Vote) : Prop :=
  v ∈ qc_votes qc /\ v_kind v = Precommit /\ v_height v = qc_height qc /\
  v_round v = qc_round qc /\ v_block_hash v = qc_block_hash qc /\
  did_scid (v_validator_root v) = s /\
  contains validators (v_validator_root v) = true /\
  check_vote oracle v = Ok tt.

(** [signers] are distinct validators with a valid precommit each for the
    certificate's block. *)
Definition certified_by (qc : QuorumCertificate) (validators : ValidatorSet)
    (oracle : ValidatorOracle) (signers : list bytes) : Prop :=
  NoDup signers /\ Forall (fun s => exists v, counts_for qc validators oracle s v) signers.

Lemma contains_scid vs d :
  contains vs d = true <-> did_scid d ∈ map did_scid (roots vs).
Proof.
  unfold contains. rewrite existsb_exists, list_elem_of_In, in_map_iff.
  split; intros (x & H1 & H2); exists x; rewrite ?bool_decide_eq_true in *; auto.
Qed.

Lemma count_vote_step qc vs oracle counted v :
  v ∈ qc_votes qc -> certified_by qc vs oracle counted ->
  certified_by qc vs oracle (count_vote qc vs oracle counted v).
Proof.
  intros Hin [Hnd Hf]. unfold count_vote.
  repeat (match goal with |- context [if ?b then _ else _] => destruct b eqn:? end; try done).
  destruct (oracle (v_validator_root v)) as [rk|] eqn:Hr; [|done].
  destruct (oracle (v_validator_device v)) as [dk|] eqn:Hd; [|done].
  destruct (is_ok (verify_vote v rk dk)) eqn:Hv; [|done]. bool_prop. apply is_ok_unit in Hv.
  split.
  - apply NoDup_app. split; [done|]. split; [|apply NoDup_singleton].
    intros x Hx Hx'. apply list_elem_of_singleton in Hx' as ->. done.
  - apply Forall_app. split; [done|]. apply Forall_singleton. exists v.
    unfold counts_for, check_vote. rewrite Hr, Hd. simpl. by repeat split.
Qed.

Lemma count_votes_certified qc vs oracle votes counted :
  (forall v, v ∈ votes -> v ∈ qc_votes qc) -> certified_by qc vs oracle counted ->
  certified_by qc vs oracle (fold_left (count_vote qc vs oracle) votes counted).
Proof.
  revert counted. induction votes as [|v votes IH]; intros counted Hin Hc; [done|]. simpl.
  apply IH; [intros; apply Hin; by right|]. apply count_vote_step; [apply Hin; left|done].
Qed.

Lemma verify_finality_inv qc vs oracle n :
  verify_finality qc vs oracle = Ok n ->
  exists signers, certified_by qc vs oracle signers /\
    Z.of_nat (length signers) = n /\ quorum_threshold vs <= n.
Proof.
  unfold verify_finality. intros H. ok_inv. bool_prop.
  eexists. split; [|by split].
  apply count_votes_certified; [done|]. split; constructor.
Qed.

Lemma certified_validators qc vs oracle signers :
  certified_by qc vs oracle signers -> signers ⊆ map did_scid (roots vs).
Proof.
  intros [_ Hf] s Hs. rewrite Forall_forall in Hf.
  destruct (Hf s Hs) as (v & _ & _ & _ & _ & _ & <- & Hc & _). by apply contains_scid.
Qed.

(** C24: a certificate that verifies is backed by a quorum: at least
    [floor(2n/3) + 1] different validators of the set each have, among the
    certificate's votes, a precommit for exactly its height, round and
    block, signed by a device they delegated with the vote capability. One
    root counts once, however many of its devices voted. *)
Theorem finality_backed qc vs oracle n :
  verify_finality qc vs oracle = Ok n ->
  exists signers, certified_by qc vs oracle signers /\
    signers ⊆ map did_scid (roots vs) /\
    Z.of_nat (length signers) = n /\ quorum_threshold vs <= n <= vs_len vs.
Proof.
  intros (l & Hc & Hl & Hq)%verify_finality_inv. exists l.
  pose proof (certified_validators _ _ _ _ Hc) as Hs. repeat split; try apply Hc; try done.
  unfold vs_len. rewrite <- Hl. destruct Hc as [Hnd _].
  apply inj_le. rewrite <- (length_map did_scid). by apply submseteq_length, NoDup_submseteq.
Qed.

Lemma assemble_ok v1 v2 oracle :
  did_scid (v_validator_root v1) = did_scid (v_validator_root v2) ->
  v_height v1 = v_height v2 -> v_round v1 = v_round v2 -> v_kind v1 = v_kind v2 ->
  v_block_hash v1 <> v_block_hash v2 ->
  check_vote oracle v1 = Ok tt -> check_vote oracle v2 = Ok tt ->
  exists p, assemble v1 v2 oracle = Ok p /\
    did_scid (offender p) = did_scid (v_validator_root v1).
Proof.
  intros H1 H2 H3 H4 H5 H6 H7. unfold assemble.
  rewrite H2, H3, !Z.eqb_refl, (bool_decide_eq_true_2 _ H1), (bool_decide_eq_true_2 _ H4),
    (bool_decide_eq_false_2 _ H5). simpl. rewrite H6, H7. simpl.
  destruct (bytes_leb _ _); eexists; (split; [done|]); [done|]. symmetry. exact H1.
Qed.

(** C25: accountable safety: if two certificates for different blocks of one
    height and round both verify, more than a third of the validator set
    voted both ways, and for each of those validators two of the votes at
    hand assemble into an equivocation proof that names it. *)
Theorem conflicting_certificates_convict qc1 qc2 vs oracle n1 n2 :
  verify_finality qc1 vs oracle = Ok n1 -> verify_finality qc2 vs oracle = Ok n2 ->
  qc_height qc1 = qc_height qc2 -> qc_round qc1 = qc_round qc2 ->
  qc_block_hash qc1 <> qc_block_hash qc2 ->
  exists guilty, NoDup guilty /\ vs_len vs < 3 * Z.of_nat (length guilty) /\
    Forall (fun s => exists v1 v2 p,
      v1 ∈ qc_votes qc1 /\ v2 ∈ qc_votes qc2 /\
      assemble v1 v2 oracle = Ok p /\ did_scid (offender p) = s) guilty.
Proof.
  intros (l1 & C1 & L1 & Q1)%verify_finality_inv (l2 & C2 & L2 & Q2)%verify_finality_inv Hh Hr Hb.
  pose proof (certified_validators _ _ _ _ C1) as S1.
  pose proof (certified_validators _ _ _ _ C2) as S2.
  destruct C1 as [N1 F1], C2 as [N2 F2]. rewrite Forall_forall in F1, F2.
  exists (filter (.∈ l2) l1). split; [by apply NoDup_filter|]. split.
  - pose proof (overlap_length l1 l2 _ N1 N2 S1 S2) as Ho. rewrite length_map in Ho.
    unfold quorum_threshold, vs_len in *.
    pose proof (Z_div_mod_eq_full (2 * Z.of_nat (length (roots vs))) 3).
    pose proof (Z.mod_pos_bound (2 * Z.of_nat (length (roots vs))) 3 ltac:(lia)). lia.
  - rewrite Forall_forall. intros s [Hs2 Hs1]%list_elem_of_filter.
    destruct (F1 s Hs1) as (v1 & I1 & K1 & H1 & R1 & B1 & <- & _ & V1).
    destruct (F2 _ Hs2) as (v2 & I2 & K2 & H2 & R2 & B2 & E2 & _ & V2).
    destruct (assemble_ok v1 v2 oracle) as (p & Hp & Ho); try congruence.
    exists v1, v2, p. by rewrite Ho.
Qed.

(** ** Validator sets *)
Lemma merge_sort_perm_eq (l1 l2 : list Did) :
  l1 ≡ₚ l2 -> merge_sort did_le l1 = merge_sort did_le l2.
Proof.
  intros Hp. eapply (StronglySorted_unique did_le).
  - apply StronglySorted_merge_sort; apply _.
  - apply StronglySorted_merge_sort; apply _.
  - by rewrite !merge_sort_Permutation.
Qed.

Lemma ValidatorSet_new_inv rs vs :
  ValidatorSet_new rs = Ok vs ->
  roots vs ≡ₚ rs /\ NoDup (map did_scid (roots vs)) /\ 1 <= vs_len vs <= MAX_VALIDATORS.
Proof.
  unfold ValidatorSet_new. intros H. ok_inv. bool_prop. simpl.
  match goal with H : dup_scan _ _ = false |- _ => apply dup_scan_false in H as [Hnd _] end.
  pose proof (merge_sort_Permutation did_le rs) as Hp.
  split; [done|]. split; [done|]. unfold vs_len. simpl. rewrite Hp.
  destruct rs; [done|]. simpl in *. lia.
Qed.

(** A validator set does not depend on the order its members are given
    in, and one that is built is non-empty, within the cap, has exactly the
    given members, each identity once, and its quorum leaves out less than a
    third of them while any two quorums share more than a third. *)
Theorem validator_set_canonical rs1 rs2 :
  rs1 ≡ₚ rs2 ->
  ValidatorSet_new rs1 = ValidatorSet_new rs2 /\
  forall vs, ValidatorSet_new rs1 = Ok vs ->
    roots vs ≡ₚ rs1 /\ NoDup (map did_scid (roots vs)) /\ 1 <= vs_len vs <= MAX_VALIDATORS /\
    quorum_threshold vs <= vs_len vs /\
    2 * vs_len vs < 3 * quorum_threshold vs /\
    vs_len vs < 3 * (2 * quorum_threshold vs - vs_len vs).
Proof.
  intros Hp. split.
  - unfold ValidatorSet_new. rewrite (merge_sort_perm_eq _ _ Hp).
    rewrite (Permutation_length Hp). destruct rs1, rs2; try done.
    + by apply Permutation_nil_cons in Hp.
    + symmetry in Hp. by apply Permutation_nil_cons in Hp.
  - intros vs (Hr & Hn & Hl)%ValidatorSet_new_inv. repeat split; try done; try lia;
      unfold quorum_threshold;
      pose proof (Z_div_mod_eq_full (2 * vs_len vs) 3);
      pose proof (Z.mod_pos_bound (2 * vs_len vs) 3 ltac:(lia)); lia.
Qed.

(** Filtering by a test of identifiers. *)
Lemma existsb_filter_scid (keep : Did -> bool) l d :
  (forall r d, did_scid r = did_scid d -> keep r = keep d) ->
  existsb (fun r => bool_decide (did_scid r = did_scid d)) (List.filter keep l) =
  existsb (fun r => bool_decide (did_scid r = did_scid d)) l && keep d.
Proof.
  intros Hk. induction l as [|r l IH]; [done|]. simpl.
  destruct (bool_decide (did_scid r = did_scid d)) eqn:E; simpl.
  - apply bool_decide_eq_true_1 in E. rewrite <- (Hk r d E).
    destruct (keep r) eqn:Hr; simpl; [by rewrite bool_decide_eq_true_2|].
    rewrite IH, <- (Hk r d E), Hr. apply andb_false_r.
  - rewrite <- IH. destruct (keep r); simpl; [by rewrite E|done].
Qed.

Lemma NoDup_map_filter {A B} (f : A -> B) (keep : A -> bool) l :
  NoDup (map f l) -> NoDup (map f (List.filter keep l)).
Proof.
  induction l as [|r l IH]; [done|]. simpl. intros [Hr Hnd]%NoDup_cons.
  destruct (keep r); simpl; [|auto]. constructor; [|auto]. intros Hin. apply Hr.
  rewrite list_elem_of_In, in_map_iff in *. destruct Hin as (x & ? & [? _]%filter_In). eauto.
Qed.

Lemma ValidatorSet_new_ok r l :
  Z.of_nat (length (r :: l)) <= MAX_VALIDATORS -> NoDup (map did_scid (r :: l)) ->
  ValidatorSet_new (r :: l) = Ok (mkValidatorSet (merge_sort did_le (r :: l))).
Proof.
  intros Hle Hnd. unfold ValidatorSet_new, mbind, result_bind, fail_if.
  rewrite (proj2 (Z.ltb_ge _ _) Hle), (proj2 (dup_scan_false [] _)); [done|].
  split; [|intros x _ Hx; by apply elem_of_nil in Hx].
  by rewrite (merge_sort_Permutation did_le (r :: l)).
Qed.

Lemma contains_sorted l d :
  contains (mkValidatorSet (merge_sort did_le l)) d =
  existsb (fun r => bool_decide (did_scid r = did_scid d)) l.
Proof.
  apply eq_true_iff_eq. rewrite contains_scid, existsb_exists. cbn [roots].
  rewrite (merge_sort_Permutation did_le l), list_elem_of_In, in_map_iff.
  split; intros (x & H1 & H2); exists x; rewrite ?bool_decide_eq_true in *; auto.
Qed.

(** Excluding proven offenders gives the set of exactly the remaining
    members: it fails only when nobody would remain, and a root is in the
    new set iff it was in the old one and is not excluded. *)
Theorem excluding_spec rs vs excluded :
  ValidatorSet_new rs = Ok vs ->
  match excluding vs excluded with
  | Ok vs' => forall d, contains vs' d =
      contains vs d && negb (existsb (fun e => bool_decide (did_scid e = did_scid d)) excluded)
  | Err e => e = EmptyValidatorSet /\
      forall d, contains vs d = true -> existsb (fun e => bool_decide (did_scid e = did_scid d)) excluded = true
  end.
Proof.
  intros (_ & Hnd & Hlen)%ValidatorSet_new_inv. unfold excluding.
  set (keep := fun root => negb (existsb (fun e => bool_decide (did_scid e = did_scid root)) excluded)).
  assert (forall r d, did_scid r = did_scid d -> keep r = keep d) as Hk
    by (intros r d E; unfold keep; by rewrite E).
  pose proof (fun d => existsb_filter_scid keep (roots vs) d Hk) as Hc.
  pose proof (NoDup_map_filter did_scid keep _ Hnd) as Hnd'.
  pose proof (List.filter_length_le keep (roots vs)) as Hle. unfold vs_len in Hlen.
  destruct (List.filter keep (roots vs)) as [|r0 l].
  - split; [done|]. intros d Hd. specialize (Hc d). fold (contains vs d) in Hc.
    rewrite Hd in Hc. symmetry in Hc. by apply negb_false_iff in Hc.
  - rewrite ValidatorSet_new_ok by (done || lia).
    intros d. rewrite contains_sorted, Hc. done.
Qed.

(** ** Proofs of equivocation *)
Lemma assemble_inv v1 v2 oracle p :
  assemble v1 v2 oracle = Ok p ->
  v_block_hash v1 <> v_block_hash v2 /\
  p = (if bytes_leb (v_block_hash v1) (v_block_hash v2)
       then mkEquivocationProof v1 v2 else mkEquivocationProof v2 v1) /\
  did_scid (v_validator_root v1) = did_scid (v_validator_root v2) /\
  v_height v1 = v_height v2 /\ v_round v1 = v_round v2 /\ v_kind v1 = v_kind v2 /\
  check_vote oracle v1 = Ok tt /\ check_vote oracle v2 = Ok tt.
Proof.
  unfold assemble. intros H. do 3 (apply bind_ok in H as ([] & ? & H)).
  apply bind_ok in H as ([] & Hc1 & H). apply bind_ok in H as ([] & Hc2 & H).
  apply fail_if_ok in H0, H1, H2. bool_prop.
  destruct (bytes_leb _ _); injection H as <-; by repeat split.
Qed.

(** The order in which the two conflicting votes were seen does not
    matter: both orders assemble into the same proof. *)
Theorem assemble_symmetric v1 v2 oracle p :
  assemble v1 v2 oracle = Ok p -> assemble v2 v1 oracle = Ok p.
Proof.
  intros (Hb & -> & H1 & H2 & H3 & H4 & H5 & H6)%assemble_inv. unfold assemble.
  rewrite H2, H3, !Z.eqb_refl, (bool_decide_eq_true_2 _ (eq_sym H1)),
    (bool_decide_eq_true_2 _ (eq_sym H4)), (bool_decide_eq_false_2 _ (not_eq_sym Hb)). simpl.
  rewrite H5, H6. simpl.
  destruct (bytes_leb (v_block_hash v1) (v_block_hash v2)) eqn:E1,
    (bytes_leb (v_block_hash v2) (v_block_hash v1)) eqn:E2; try done.
  - exfalso. by apply Hb, (anti_symm bytes_le).
  - destruct (total bytes_le (v_block_hash v1) (v_block_hash v2)) as [H|H];
      unfold bytes_le in H; congruence.
Qed.

Definition proof_wf (p : EquivocationProof) : Prop :=
  length (v_block_hash (ep_first p)) = 32%nat /\ length (v_block_hash (ep_second p)) = 32%nat.

Lemma ep_digest_offender p q :
  proof_wf p -> proof_wf q -> ep_digest p = ep_digest q ->
  offender p = offender q \/ blake3_collision.
Proof.
  intros [P1 P2] [Q1 Q2] H. unfold ep_digest, digest in H.
  match type of H with blake3 ?x = blake3 ?y => destruct (decide (x = y)) as [E|E] end;
    [left|right; by eexists _, _].
  apply app_inv_head in E. pose proof (f_equal length E) as Hl.
  rewrite !length_app, !length_to_be_bytes in Hl. simpl in Hl. rewrite P1, P2, Q1, Q2 in Hl.
  apply app_inj_1 in E as [E _]; [|lia]. unfold offender.
  by destruct (v_validator_root (ep_first p)), (v_validator_root (ep_first q)); simpl in E; subst.
Qed.

(** Recording a proof convicts its offender and nobody is acquitted by a
    later report; recording the same proof twice changes nothing. (The
    registry deduplicates by digest, hence the alternative of a BLAKE3
    collision.) *)
Theorem record_convicts reg p :
  Forall proof_wf (p :: reg) ->
  (is_proven_faulty (record reg p) (offender p) = true \/ blake3_collision) /\
  (forall d, is_proven_faulty reg d = true -> is_proven_faulty (record reg p) d = true) /\
  record (record reg p) p = record reg p.
Proof.
  intros [Hp Hr]%Forall_cons. unfold record, is_proven_faulty.
  destruct (existsb (fun held => bool_decide (ep_digest held = ep_digest p)) reg) eqn:E.
  - split; [|split; [done|by rewrite E]].
    apply existsb_exists in E as (q & Hin & Hd%bool_decide_eq_true_1).
    rewrite Forall_forall in Hr. rewrite <- list_elem_of_In in Hin.
    destruct (ep_digest_offender q p) as [Ho|]; [by apply Hr|done|done|left|by right].
    apply existsb_exists. exists q. rewrite <- list_elem_of_In, Ho. split; [done|].
    by apply bool_decide_eq_true_2.
  - split; [left|split].
    + rewrite existsb_app. simpl. rewrite bool_decide_eq_true_2 by done. by rewrite orb_true_r.
    + intros d Hd. by rewrite existsb_app, Hd.
    + rewrite existsb_app. simpl. rewrite bool_decide_eq_true_2 by done. by rewrite orb_true_r.
Qed.

(** An honest device's vote is always accepted: a vote signed by the
    controller of a device that the root delegated with the vote capability
    verifies against the two logs. *)
Theorem honest_vote_verifies {L : PrimitivesLaws} kind height round bh root_kel device caps :
  ctl_reachable device ->
  verify_delegation root_kel (ctl_kel device) = Ok caps -> cap_contains caps VOTE = true ->
  verify_vote (sign_vote kind height round bh (kel_did root_kel) device) root_kel (ctl_kel device) = Ok tt.
Proof.
  intros Hr Hd Hc. unfold verify_vote, sign_vote.
  cbn [v_validator_device v_validator_root v_signature].
  rewrite !bool_decide_eq_true_2 by done. simpl. rewrite Hd. simpl. rewrite Hc. simpl.
  apply map_err_ok. unfold verify_message.
  pose proof (ctl_reachable_inv _ Hr) as Hi. pose proof Hi as [-> _].
  by apply check_detached_signed.
Qed.

Definition header_typed (h : BlockHeader) : Prop :=
  is_u64 (bh_height h) /\ is_u64 (bh_timestamp_ms h) /\ length (bh_prev_hash h) = 32%nat /\
  length (bh_state_root h) = 32%nat /\ length (bh_body_root h) = 32%nat.

(** A block hash pins the whole header. *)
Lemma header_hash_pins h1 h2 : Forall header_typed [h1; h2] ->
  header_hash h1 = header_hash h2 -> h1 = h2 \/ blake3_collision.
Proof.
  intros Hw H. apply Forall_cons in Hw as ((A1 & A2 & A3 & A4 & A5) & Hw).
  apply Forall_cons in Hw as ((B1 & B2 & B3 & B4 & B5) & _).
  unfold header_hash, digest in H.
  destruct (decide (canonical_bytes h1 = canonical_bytes h2)) as [E|E]; [left|right; by eexists _, _].
  unfold canonical_bytes, put_str in E. Transparent w_u64 w_u32. unfold w_u64, w_u32 in E.
  apply app_inv_head, app_inv_head in E.
  apply app_inj_1 in E as [E1 E]; [|by rewrite !length_to_be_bytes].
  do 3 (apply app_inj_1 in E as [? E]; [|congruence]).
  apply app_inj_1 in E as [E5 E]; [|by rewrite !length_to_be_bytes].
  apply app_inj_1 in E as [_ E]; [|by rewrite !length_to_be_bytes].
  apply (f_equal from_be_bytes) in E1, E5. unfold is_u64, U64_MAX in *.
  rewrite !from_to_be_bytes in E1, E5 by (change (256 ^ Z.of_nat 8) with (2 ^ 64); lia).
  destruct h1 as [? ? ? ? ? [?]], h2 as [? ? ? ? ? [?]]. simpl in *. by subst.
Qed.

End ChainTheorems.
