(* ===== verification/ChainWitnesses.v ===== *)
(** * ChainWitnesses: the chain properties on a concrete scenario

    The identity of [KelTheorems.Scenario] delegates its device with the
    vote capability and is a validator set of one; its device signs
    precommits for two blocks of one height and round. *)

From Stdlib Require Import ZArith Lia.
From stdpp Require Import base list sorting strings.
From S2P Require Import Prelude Codec Crypto Identity Kel KelFacts KelTheorems.
From S2P Require Import Chain ChainTheorems.
Open Scope Z_scope.

#[local] Existing Instance Toy.primitives.
#[local] Existing Instance Toy.laws.
Import Scenario.

Module Voting.
Definition voter : Controller := Eval vm_compute in get (delegate_device root0 device_did VOTE).
Definition block (n : Z) : bytes := replicate 32 n.
Definition vote_a : Vote := Eval vm_compute in sign_vote Precommit 5 0 (block 1) root_did device.
Definition vote_b : Vote := Eval vm_compute in sign_vote Precommit 5 0 (block 2) root_did device.
Definition oracle : ValidatorOracle := fun d =>
  if bool_decide (d = root_did) then Some (ctl_kel voter)
  else if bool_decide (d = device_did) then Some (ctl_kel device) else None.
Definition solo : ValidatorSet := mkValidatorSet [root_did].
Definition cert_a : QuorumCertificate := mkQC 5 0 (block 1) [vote_a; vote_a].
Definition cert_b : QuorumCertificate := mkQC 5 0 (block 2) [vote_b].
Definition fault : EquivocationProof := mkEquivocationProof vote_a vote_b.
Definition wire_a : bytes := Eval vm_compute in to_wire_bytes vote_a.
Definition header (n : Z) : BlockHeader :=
  mkBlockHeader 5 (block 0) (block n) (block n) 5 root_did.
End Voting.
Import Voting.

Lemma vote_round_trip_witness : from_wire_bytes (to_wire_bytes vote_a) = Ok vote_a.
Proof.
  apply (vote_round_trip vote_a). unfold vote_wf, vote_did_wf.
  split; [vm_compute; split; intro; discriminate|].
  split; [vm_compute; split; intro; discriminate|]. split; [reflexivity|].
  do 2 (split; [split; [vm_compute; intro; discriminate|split; vm_compute; reflexivity]|]).
  split; [vm_compute; intro; discriminate|].
  constructor; [|constructor].
  split; [vm_compute; split; intro; discriminate|reflexivity].
Defined.

Lemma vote_bytes_canonical_witness : to_wire_bytes vote_a = wire_a.
Proof.
  apply (vote_bytes_canonical wire_a vote_a).
  - apply (bool_decide_eq_true_1 (bytes_ok _)). vm_compute. reflexivity.
  - vm_compute. reflexivity.
Defined.

Lemma finality_backed_witness :
  exists signers, certified_by cert_a solo oracle signers /\
    signers ⊆ map did_scid (roots solo) /\
    Z.of_nat (length signers) = 1 /\ quorum_threshold solo <= 1 <= vs_len solo.
Proof. apply (finality_backed cert_a solo oracle 1). vm_compute. reflexivity. Defined.

Lemma conflicting_certificates_convict_witness :
  exists guilty, NoDup guilty /\ vs_len solo < 3 * Z.of_nat (length guilty) /\
    Forall (fun s => exists v1 v2 p,
      v1 ∈ qc_votes cert_a /\ v2 ∈ qc_votes cert_b /\
      assemble v1 v2 oracle = Ok p /\ did_scid (offender p) = s) guilty.
Proof.
  apply (conflicting_certificates_convict cert_a cert_b solo oracle 1 1);
    [vm_compute; reflexivity | vm_compute; reflexivity | reflexivity | reflexivity | discriminate].
Defined.

Lemma validator_set_canonical_witness :
  ValidatorSet_new [root_did; device_did] = ValidatorSet_new [device_did; root_did].
Proof. apply (validator_set_canonical [root_did; device_did] [device_did; root_did]). constructor. Defined.

Lemma excluding_spec_witness :
  match excluding (mkValidatorSet [root_did]) [root_did] with Ok _ => False | Err _ => True end.
Proof.
  pose proof (excluding_spec [root_did] (mkValidatorSet [root_did]) [root_did] ltac:(vm_compute; reflexivity)) as H.
  destruct (excluding _ _) eqn:E; [vm_compute in E; discriminate|exact I].
Defined.

Lemma assemble_symmetric_witness : assemble vote_b vote_a oracle = Ok fault.
Proof. apply (assemble_symmetric vote_a vote_b oracle fault). vm_compute. reflexivity. Defined.

Lemma record_convicts_witness :
  is_proven_faulty (record [] fault) (offender fault) = true \/ blake3_collision.
Proof.
  apply (record_convicts [] fault). repeat constructor.
Defined.

Lemma honest_vote_verifies_witness :
  verify_vote (sign_vote Precommit 5 0 (block 1) (kel_did (ctl_kel voter)) device)
    (ctl_kel voter) (ctl_kel device) = Ok tt.
Proof.
  apply (honest_vote_verifies Precommit 5 0 (block 1) (ctl_kel voter) device VOTE).
  - apply (reach_incept [key 5] 1 [key 6] 1 (Some root_did)); [vm_compute; reflexivity|].
    intros d [= <-]. split; [vm_compute; reflexivity|discriminate].
  - vm_compute. reflexivity.
  - reflexivity.
Defined.

Lemma header_hash_pins_witness : header 1 = header 1 \/ blake3_collision.
Proof.
  apply (header_hash_pins (header 1) (header 1)); [|reflexivity].
  repeat constructor; vm_compute; intro; discriminate.
Defined.
