(* ===== verification/Round.v ===== *)
(** * Round: the Tendermint state machine of one height

    Models [crates/mini-consensus/src/round.rs]: proposer selection, the
    per-round vote tallies, the eight [upon] rules, the [evaluate] loop that
    runs them to a fixed point, and the four entry points the host calls
    ([start], [on_proposal], [on_vote], [on_timeout]); and
    [crates/mini-consensus/src/evidence.rs].

    A rule is a function from the machine to the machine and the actions it
    pushes, in the order it pushes them.  The [HashMap] iteration order that
    [rule_decide] depends on is a parameter [iter_order]: any permutation of
    the map's entries.  [evaluate]'s loop runs on fuel [eval_fuel], which
    [RoundFacts.evaluate_fixed_point] shows is always enough.

    Machine integers: [vr as u32] truncates the 64-bit [valid_round] modulo
    [2^32]; [round + 1] wraps as in a release build. *)

From Stdlib Require Import ZArith Lia.
From stdpp Require Import base list gmap sets strings.
From S2P Require Import Prelude Codec Crypto Identity Kel Chain.
Open Scope Z_scope.

Definition NIL : bytes := replicate 32 0.

Definition proposer_for (height round : Z) (validators : ValidatorSet) : option Did :=
  let rs := roots validators in
  let idx := ((height + round) mod 2 ^ 64) mod Z.of_nat (length rs) in
  rs !! Z.to_nat idx.

Inductive Step := SPropose | SPrevote | SPrecommit.
#[global] Instance Step_eq_dec : EqDecision Step.
Proof. solve_decision. Defined.
Definition step_index (s : Step) : Z :=
  match s with SPropose => 0 | SPrevote => 1 | SPrecommit => 2 end.
(** [Ord::max] and [<] of the derived order. *)
Definition step_max (a b : Step) : Step := if step_index a <? step_index b then b else a.
Definition step_ltb (a b : Step) : bool := step_index a <? step_index b.

(** ** Equivocation evidence ([evidence.rs]) *)
Record EquivocationEvidence := mkEvidence { ee_first : Vote; ee_second : Vote }.

Definition verifies `{Primitives} (v : Vote) (oracle : ValidatorOracle) : bool :=
  match oracle (v_validator_root v), oracle (v_validator_device v) with
  | Some root_kel, Some device_kel => is_ok (verify_vote v root_kel device_kel)
  | _, _ => false
  end.

Definition verify_equivocation `{Primitives} (e : EquivocationEvidence) (oracle : ValidatorOracle) : bool :=
  let a := ee_first e in
  let b := ee_second e in
  if negb (bool_decide (did_scid (v_validator_root a) = did_scid (v_validator_root b))) then false
  else if negb (v_height a =? v_height b) || negb (v_round a =? v_round b)
          || negb (bool_decide (v_kind a = v_kind b)) then false
  else if bool_decide (v_block_hash a = v_block_hash b) then false
  else verifies a oracle && verifies b oracle.

Inductive Action :=
| Propose (round : Z) (reuse : option bytes) (valid_round : Z)
| SignPrevote (round : Z) (target : bytes)
| SignPrecommit (round : Z) (target : bytes)
| ScheduleTimeout (step : Step) (round : Z)
| Decided (qc : QuorumCertificate)
| Equivocation (e : EquivocationEvidence).

Record ProposalInfo := mkProposalInfo { p_id : bytes; p_valid_round : Z; p_valid : bool }.

Record RoundVotes := mkRoundVotes {
  prevotes : gmap bytes (gset bytes);
  precommits : gmap bytes (gset bytes);
  precommit_votes : gmap bytes (list Vote);
  participants : gset bytes;
  prevote_by_root : gmap bytes Vote;
  precommit_by_root : gmap bytes Vote;
}.
Definition no_votes : RoundVotes := mkRoundVotes ∅ ∅ ∅ ∅ ∅ ∅.

(** [map.get(id).map_or(0, HashSet::len)]. *)
Definition set_len (m : gmap bytes (gset bytes)) (id : bytes) : Z :=
  match m !! id with Some s => Z.of_nat (size s) | None => 0 end.
Definition prevote_count (t : RoundVotes) (id : bytes) : Z := set_len (prevotes t) id.
Definition precommit_count (t : RoundVotes) (id : bytes) : Z := set_len (precommits t) id.
Definition sets_total (m : gmap bytes (gset bytes)) : Z :=
  sum_Z (map (fun kv => Z.of_nat (size kv.2)) (map_to_list m)).
Definition total_prevotes (t : RoundVotes) : Z := sets_total (prevotes t).
Definition total_precommits (t : RoundVotes) : Z := sets_total (precommits t).

(** ** The machine *)
Record Round := mkRound {
  rd_height : Z;
  rd_validators : ValidatorSet;
  rd_local_root : Did;
  rd_round : Z;
  rd_step : Step;
  rd_locked_value : option bytes;
  rd_locked_round : Z;
  rd_valid_value : option bytes;
  rd_valid_round : Z;
  rd_decided : bool;
  rd_proposals : gmap Z ProposalInfo;
  rd_votes : gmap Z RoundVotes;
  rd_prevoted_rounds : gset Z;
  rd_precommitted_rounds : gset Z;
  rd_prevote_timeout_armed : gset Z;
  rd_precommit_timeout_armed : gset Z;
  rd_prevote_quorum_seen : gset Z;
  rd_started_rounds : gset Z;
}.

Definition Round_new (height : Z) (validators : ValidatorSet) (local_root : Did) : Round :=
  mkRound height validators local_root 0 SPropose None (-1) None (-1) false ∅ ∅ ∅ ∅ ∅ ∅ ∅ ∅.

(** Assignments to one field, or to the fields one statement group sets. *)
Definition set_position (s : Round) (r : Z) (st : Step) : Round :=
  mkRound (rd_height s) (rd_validators s) (rd_local_root s) r st (rd_locked_value s)
    (rd_locked_round s) (rd_valid_value s) (rd_valid_round s) (rd_decided s) (rd_proposals s)
    (rd_votes s) (rd_prevoted_rounds s) (rd_precommitted_rounds s) (rd_prevote_timeout_armed s)
    (rd_precommit_timeout_armed s) (rd_prevote_quorum_seen s) (rd_started_rounds s).
Definition set_locked (s : Round) (v : bytes) (r : Z) : Round :=
  mkRound (rd_height s) (rd_validators s) (rd_local_root s) (rd_round s) (rd_step s) (Some v)
    r (rd_valid_value s) (rd_valid_round s) (rd_decided s) (rd_proposals s)
    (rd_votes s) (rd_prevoted_rounds s) (rd_precommitted_rounds s) (rd_prevote_timeout_armed s)
    (rd_precommit_timeout_armed s) (rd_prevote_quorum_seen s) (rd_started_rounds s).
Definition set_valid (s : Round) (v : bytes) (r : Z) : Round :=
  mkRound (rd_height s) (rd_validators s) (rd_local_root s) (rd_round s) (rd_step s) (rd_locked_value s)
    (rd_locked_round s) (Some v) r (rd_decided s) (rd_proposals s)
    (rd_votes s) (rd_prevoted_rounds s) (rd_precommitted_rounds s) (rd_prevote_timeout_armed s)
    (rd_precommit_timeout_armed s) (rd_prevote_quorum_seen s) (rd_started_rounds s).
Definition set_decided (s : Round) : Round :=
  mkRound (rd_height s) (rd_validators s) (rd_local_root s) (rd_round s) (rd_step s) (rd_locked_value s)
    (rd_locked_round s) (rd_valid_value s) (rd_valid_round s) true (rd_proposals s)
    (rd_votes s) (rd_prevoted_rounds s) (rd_precommitted_rounds s) (rd_prevote_timeout_armed s)
    (rd_precommit_timeout_armed s) (rd_prevote_quorum_seen s) (rd_started_rounds s).
Definition set_messages (s : Round) (p : gmap Z ProposalInfo) (v : gmap Z RoundVotes) : Round :=
  mkRound (rd_height s) (rd_validators s) (rd_local_root s) (rd_round s) (rd_step s) (rd_locked_value s)
    (rd_locked_round s) (rd_valid_value s) (rd_valid_round s) (rd_decided s) p
    v (rd_prevoted_rounds s) (rd_precommitted_rounds s) (rd_prevote_timeout_armed s)
    (rd_precommit_timeout_armed s) (rd_prevote_quorum_seen s) (rd_started_rounds s).
Definition set_voted (s : Round) (pv pc : gset Z) : Round :=
  mkRound (rd_height s) (rd_validators s) (rd_local_root s) (rd_round s) (rd_step s) (rd_locked_value s)
    (rd_locked_round s) (rd_valid_value s) (rd_valid_round s) (rd_decided s) (rd_proposals s)
    (rd_votes s) pv pc (rd_prevote_timeout_armed s)
    (rd_precommit_timeout_armed s) (rd_prevote_quorum_seen s) (rd_started_rounds s).
Definition set_guards (s : Round) (pv pc seen started : gset Z) : Round :=
  mkRound (rd_height s) (rd_validators s) (rd_local_root s) (rd_round s) (rd_step s) (rd_locked_value s)
    (rd_locked_round s) (rd_valid_value s) (rd_valid_round s) (rd_decided s) (rd_proposals s)
    (rd_votes s) (rd_prevoted_rounds s) (rd_precommitted_rounds s) pv pc seen started.

Definition quorum (s : Round) : Z := quorum_threshold (rd_validators s).
Definition f_plus_1 (s : Round) : Z := vs_len (rd_validators s) - quorum s + 1.

Definition is_local_proposer (s : Round) (round : Z) : bool :=
  match proposer_for (rd_height s) round (rd_validators s) with
  | Some d => bool_decide (did_scid d = did_scid (rd_local_root s))
  | None => false
  end.

Definition enter_round_core (s : Round) (round : Z) : Round * list Action :=
  if rd_decided s || bool_decide (round ∈ rd_started_rounds s) then (s, [])
  else
    let s := set_guards s (rd_prevote_timeout_armed s) (rd_precommit_timeout_armed s)
               (rd_prevote_quorum_seen s) (rd_started_rounds s ∪ {[round]}) in
    let s := set_position s round SPropose in
    if is_local_proposer s round then
      match rd_valid_value s with
      | Some v => (s, [Propose round (Some v) (rd_valid_round s)])
      | None => (s, [Propose round None (-1)])
      end
    else (s, [ScheduleTimeout SPropose round]).

Definition prevote (s : Round) (round : Z) : Round :=
  let s := set_voted s (rd_prevoted_rounds s ∪ {[round]}) (rd_precommitted_rounds s) in
  if round =? rd_round s then set_position s (rd_round s) (step_max (rd_step s) SPrevote) else s.

Definition precommit (s : Round) (round : Z) : Round :=
  let s := set_voted s (rd_prevoted_rounds s) (rd_precommitted_rounds s ∪ {[round]}) in
  if round =? rd_round s then set_position s (rd_round s) (step_max (rd_step s) SPrecommit) else s.

(** [self.votes.get(&r).map_or(0, f)]. *)
Definition votes_at (s : Round) (r : Z) (f : RoundVotes -> Z) : Z :=
  match rd_votes s !! r with Some t => f t | None => 0 end.

Definition as_u32 (x : Z) : Z := x mod 2 ^ 32.

(** ** The rules *)
Definition rule_propose_fresh (s : Round) : Round * list Action :=
  let r := rd_round s in
  if negb (bool_decide (rd_step s = SPropose)) || bool_decide (r ∈ rd_prevoted_rounds s) then (s, [])
  else match rd_proposals s !! r with
  | None => (s, [])
  | Some p =>
      if negb (p_valid_round p =? -1) then (s, [])
      else
        let target :=
          if p_valid p && ((rd_locked_round s =? -1) || bool_decide (rd_locked_value s = Some (p_id p)))
          then p_id p else NIL in
        (prevote s r, [SignPrevote r target])
  end.

Definition rule_propose_polc (s : Round) : Round * list Action :=
  let r := rd_round s in
  if negb (bool_decide (rd_step s = SPropose)) || bool_decide (r ∈ rd_prevoted_rounds s) then (s, [])
  else match rd_proposals s !! r with
  | None => (s, [])
  | Some p =>
      let vr := p_valid_round p in
      if negb ((0 <=? vr) && (as_u32 vr <? r)) then (s, [])
      else if negb (quorum s <=? votes_at s (as_u32 vr) (fun t => prevote_count t (p_id p))) then (s, [])
      else
        let target :=
          if p_valid p && ((rd_locked_round s <=? vr) || bool_decide (rd_locked_value s = Some (p_id p)))
          then p_id p else NIL in
        (prevote s r, [SignPrevote r target])
  end.

Definition rule_prevote_timeout (s : Round) : Round * list Action :=
  let r := rd_round s in
  if negb (bool_decide (rd_step s = SPrevote)) || bool_decide (r ∈ rd_prevote_timeout_armed s) then (s, [])
  else if quorum s <=? votes_at s r total_prevotes then
    (set_guards s (rd_prevote_timeout_armed s ∪ {[r]}) (rd_precommit_timeout_armed s)
       (rd_prevote_quorum_seen s) (rd_started_rounds s), [ScheduleTimeout SPrevote r])
  else (s, []).

Definition rule_prevote_quorum (s : Round) : Round * list Action :=
  let r := rd_round s in
  if step_ltb (rd_step s) SPrevote || bool_decide (r ∈ rd_prevote_quorum_seen s) then (s, [])
  else match rd_proposals s !! r with
  | None => (s, [])
  | Some p =>
      if negb (p_valid p) then (s, [])
      else if votes_at s r (fun t => prevote_count t (p_id p)) <? quorum s then (s, [])
      else
        let s := set_guards s (rd_prevote_timeout_armed s) (rd_precommit_timeout_armed s)
                   (rd_prevote_quorum_seen s ∪ {[r]}) (rd_started_rounds s) in
        let s := set_valid s (p_id p) r in
        if bool_decide (rd_step s = SPrevote) && negb (bool_decide (r ∈ rd_precommitted_rounds s))
        then (precommit (set_locked s (p_id p) r) r, [SignPrecommit r (p_id p)])
        else (s, [])
  end.

Definition rule_prevote_nil (s : Round) : Round * list Action :=
  let r := rd_round s in
  if negb (bool_decide (rd_step s = SPrevote)) || bool_decide (r ∈ rd_precommitted_rounds s) then (s, [])
  else if quorum s <=? votes_at s r (fun t => prevote_count t NIL)
  then (precommit s r, [SignPrecommit r NIL])
  else (s, []).

Definition rule_precommit_timeout (s : Round) : Round * list Action :=
  let r := rd_round s in
  if bool_decide (r ∈ rd_precommit_timeout_armed s) then (s, [])
  else if quorum s <=? votes_at s r total_precommits then
    (set_guards s (rd_prevote_timeout_armed s) (rd_precommit_timeout_armed s ∪ {[r]})
       (rd_prevote_quorum_seen s) (rd_started_rounds s), [ScheduleTimeout SPrecommit r])
  else (s, []).

Section Machine.
Context {P : Primitives}.
Context (iter_order : gmap Z ProposalInfo -> list (Z * ProposalInfo)).

Definition decidable_at (s : Round) (rp : Z * ProposalInfo) : bool :=
  p_valid rp.2 && (quorum s <=? votes_at s rp.1 (fun t => precommit_count t (p_id rp.2))).

Definition rule_decide (s : Round) : Round * list Action :=
  match List.find (decidable_at s) (iter_order (rd_proposals s)) with
  | None => (s, [])
  | Some (r, p) =>
      let votes := match rd_votes s !! r with
                   | Some t => default [] (precommit_votes t !! p_id p)
                   | None => []
                   end in
      (set_decided s, [Decided (mkQC (rd_height s) r (p_id p) votes)])
  end.

(** [iter().filter().filter().map().min()]. *)
Definition skip_candidates (s : Round) : list Z :=
  map fst (List.filter (fun rt => (rd_round s <? rt.1) && (f_plus_1 s <=? Z.of_nat (size (participants rt.2))))
    (map_to_list (rd_votes s))).
Definition min_of (l : list Z) : option Z :=
  match l with [] => None | x :: l' => Some (foldr Z.min x l') end.

Definition rule_skip_round (s : Round) : Round * list Action :=
  match min_of (skip_candidates s) with
  | Some r => enter_round_core s r
  | None => (s, [])
  end.

(** One pass of the loop body: the eight rules in order. *)
Definition rules : list (Round -> Round * list Action) :=
  [rule_propose_fresh; rule_propose_polc; rule_prevote_timeout; rule_prevote_quorum;
   rule_prevote_nil; rule_precommit_timeout; rule_decide; rule_skip_round].

Definition run_rule (acc : Round * list Action) (f : Round -> Round * list Action) :
    Round * list Action :=
  let '(s, a) := f acc.1 in (s, acc.2 ++ a).
Definition pass (s : Round) : Round * list Action := fold_left run_rule rules (s, []).

Fixpoint eval_loop (fuel : nat) (s : Round) : Round * list Action :=
  match fuel with
  | O => (s, [])
  | S fuel' =>
      let '(s', a) := pass s in
      if rd_decided s' || match a with [] => true | _ => false end then (s', a)
      else let '(s'', a') := eval_loop fuel' s' in (s'', a ++ a')
  end.

(** Rounds above the current one that have votes, and the once-guards of the
    current round that are still open. *)
Definition later_rounds (s : Round) : nat :=
  length (List.filter (fun r => rd_round s <? r) (map fst (map_to_list (rd_votes s)))).
Definition open_guard (g : gset Z) (s : Round) : nat := if bool_decide (rd_round s ∈ g) then 0 else 1.
Definition eval_measure (s : Round) : nat :=
  (5 * later_rounds s + open_guard (rd_prevoted_rounds s) s + open_guard (rd_precommitted_rounds s) s
   + open_guard (rd_prevote_timeout_armed s) s + open_guard (rd_precommit_timeout_armed s) s)%nat.
Definition eval_fuel (s : Round) : nat := S (eval_measure s).

Definition evaluate (s : Round) : Round * list Action :=
  if rd_decided s then (s, []) else eval_loop (eval_fuel s) s.

(** Emit some actions, then evaluate. *)
Definition then_evaluate (sa : Round * list Action) : Round * list Action :=
  let '(s, a) := evaluate sa.1 in (s, sa.2 ++ a).

(** ** Entry points *)
Definition start (s : Round) : Round * list Action := then_evaluate (enter_round_core s 0).

Definition on_proposal (s : Round) (round : Z) (id : bytes) (valid_round : Z) (valid : bool) :
    Round * list Action :=
  let proposals :=
    match rd_proposals s !! round with
    | Some _ => rd_proposals s
    | None => <[round := mkProposalInfo id valid_round valid]> (rd_proposals s)
    end in
  evaluate (set_messages s proposals (rd_votes s)).

Definition accept_vote (s : Round) (v : Vote) (oracle : ValidatorOracle) : bool :=
  if negb (v_height v =? rd_height s) then false
  else if negb (contains (rd_validators s) (v_validator_root v)) then false
  else match oracle (v_validator_root v), oracle (v_validator_device v) with
       | Some root_kel, Some device_kel => is_ok (verify_vote v root_kel device_kel)
       | _, _ => false
       end.

(** [map.entry(id).or_default().insert(scid)]. *)
Definition add_to (m : gmap bytes (gset bytes)) (id scid : bytes) : gmap bytes (gset bytes) :=
  <[id := default ∅ (m !! id) ∪ {[scid]}]> m.

(** The tally with one more first-of-its-kind vote of [scid]. *)
Definition tally_vote (t : RoundVotes) (v : Vote) (scid : bytes) : RoundVotes :=
  let id := v_block_hash v in
  match v_kind v with
  | Prevote =>
      mkRoundVotes (add_to (prevotes t) id scid) (precommits t) (precommit_votes t)
        (participants t) (<[scid := v]> (prevote_by_root t)) (precommit_by_root t)
  | Precommit =>
      mkRoundVotes (prevotes t) (add_to (precommits t) id scid)
        (if bool_decide (scid ∈ default ∅ (precommits t !! id)) then precommit_votes t
         else <[id := default [] (precommit_votes t !! id) ++ [v]]> (precommit_votes t))
        (participants t) (prevote_by_root t) (<[scid := v]> (precommit_by_root t))
  end.

Definition on_vote (s : Round) (v : Vote) (oracle : ValidatorOracle) : Round * list Action :=
  if negb (accept_vote s v oracle) then (s, [])
  else
    let scid := did_scid (v_validator_root v) in
    let t := default no_votes (rd_votes s !! v_round v) in
    let t := mkRoundVotes (prevotes t) (precommits t) (precommit_votes t)
               (participants t ∪ {[scid]}) (prevote_by_root t) (precommit_by_root t) in
    let put t := set_messages s (rd_proposals s) (<[v_round v := t]> (rd_votes s)) in
    let by_root := match v_kind v with
                   | Prevote => prevote_by_root t
                   | Precommit => precommit_by_root t
                   end in
    match by_root !! scid with
    | Some prior =>
        if bool_decide (v_block_hash prior = v_block_hash v) then (put t, [])
        else (put t, [Equivocation (mkEvidence prior v)])
    | None => evaluate (put (tally_vote t v scid))
    end.

Definition on_timeout (s : Round) (step : Step) (round : Z) : Round * list Action :=
  if rd_decided s || negb (round =? rd_round s) then (s, [])
  else match step with
  | SPropose =>
      if bool_decide (rd_step s = SPropose)
      then then_evaluate (prevote s round, [SignPrevote round NIL]) else (s, [])
  | SPrevote =>
      if bool_decide (rd_step s = SPrevote)
      then then_evaluate (precommit s round, [SignPrecommit round NIL]) else (s, [])
  | SPrecommit => then_evaluate (enter_round_core s (as_u32 (round + 1)))
  end.

End Machine.
