(* ===== verification/VotingSpec.v ===== *)
(** * VotingSpec: the voting discipline, abstractly, and why it is safe

    The part of a validator that matters for safety: its round, its step and
    its lock.  [vstep] is the abstract specification of what an honest
    validator may do with them and which votes it may sign; the machine of
    [Round] is shown to implement it in [RoundRefines].

    Safety is proved here once, for any set of validators that follow the
    specification while the others do anything: two quorums of precommits of
    one height are for the same value.  The argument is rule induction over
    the steps of all honest validators ([node_inv]), then strong induction on
    rounds ([locked_in]). *)

From Stdlib Require Import ZArith Lia.
From stdpp Require Import base list gmap.
From S2P Require Import Prelude Codec Crypto Identity Kel Chain Round.
Open Scope Z_scope.

(** A vote as the others see it: who, which phase, which round, what value. *)
Definition Msg : Type := bytes * VoteKind * Z * bytes.

Record VNode := mkVNode {
  vn_round : Z;
  vn_step : Step;
  vn_locked_value : option bytes;
  vn_locked_round : Z;
}.
Definition vnode_init : VNode := mkVNode 0 SPropose None (-1).

(** [justified] is what has to hold of the network for honest prevotes to
    respect the lock; that votes are never doubled does not need it. *)
Section Spec.
Context (V : list bytes) (q : Z) (honest : bytes -> bool) (justified : Prop).

(** A quorum of validators, every honest one of which sent this vote. *)
Definition quorum_for (sent : list Msg) (k : VoteKind) (r : Z) (v : bytes) : Prop :=
  exists Q : list bytes, NoDup Q /\ Q ⊆ V /\ q <= Z.of_nat (length Q) /\
    forall x, x ∈ Q -> honest x = true -> (x, k, r, v) ∈ sent.

(** When an honest validator in [n] may prevote a value [w]: it is not
    locked, or locked on [w], or a quorum prevoted [w] in a round at least as
    recent as its lock. *)
Definition may_prevote (sent : list Msg) (n : VNode) (w : bytes) : Prop :=
  vn_locked_round n = -1 \/ vn_locked_value n = Some w \/
  exists vr, vn_locked_round n <= vr /\ 0 <= vr < vn_round n /\ quorum_for sent Prevote vr w.

Inductive vstep (sent : list Msg) : VNode -> option (VoteKind * Z * bytes) -> VNode -> Prop :=
| vs_prevote n w :
    vn_step n = SPropose -> (justified -> w <> NIL -> may_prevote sent n w) ->
    vstep sent n (Some (Prevote, vn_round n, w))
      (mkVNode (vn_round n) SPrevote (vn_locked_value n) (vn_locked_round n))
| vs_precommit_nil n :
    vn_step n = SPrevote ->
    vstep sent n (Some (Precommit, vn_round n, NIL))
      (mkVNode (vn_round n) SPrecommit (vn_locked_value n) (vn_locked_round n))
| vs_lock n v :
    vn_step n = SPrevote -> v <> NIL -> quorum_for sent Prevote (vn_round n) v ->
    vstep sent n (Some (Precommit, vn_round n, v))
      (mkVNode (vn_round n) SPrecommit (Some v) (vn_round n))
| vs_enter n r :
    vn_round n < r ->
    vstep sent n None (mkVNode r SPropose (vn_locked_value n) (vn_locked_round n)).

(** The honest validators' states and everything they signed. *)
Record VNet := mkVNet { vnodes : bytes -> VNode; vsent : list Msg }.

Definition signed (i : bytes) (l : option (VoteKind * Z * bytes)) : list Msg :=
  match l with Some (k, r, v) => [(i, k, r, v)] | None => [] end.

Definition vupdate (f : bytes -> VNode) (i : bytes) (n : VNode) : bytes -> VNode :=
  fun j => if bool_decide (j = i) then n else f j.

Inductive vreach : VNet -> Prop :=
| vreach_init : vreach (mkVNet (fun _ => vnode_init) [])
| vreach_step net i l n :
    vreach net -> honest i = true -> vstep (vsent net) (vnodes net i) l n ->
    vreach (mkVNet (vupdate (vnodes net) i n) (vsent net ++ signed i l)).

(** ** What holds of an honest validator *)
Record node_inv (sent : list Msg) (i : bytes) (n : VNode) : Prop := {
  ni_round : 0 <= vn_round n;
  ni_prevote_past r v : (i, Prevote, r, v) ∈ sent ->
    r <= vn_round n /\ (r = vn_round n -> vn_step n <> SPropose);
  ni_precommit_past r v : (i, Precommit, r, v) ∈ sent ->
    0 <= r <= vn_round n /\ (r = vn_round n -> vn_step n = SPrecommit);
  ni_once k r v v' : (i, k, r, v) ∈ sent -> (i, k, r, v') ∈ sent -> v = v';
  ni_lock r v : (i, Precommit, r, v) ∈ sent -> v <> NIL ->
    r <= vn_locked_round n /\ (r = vn_locked_round n -> vn_locked_value n = Some v) /\
    quorum_for sent Prevote r v;
  ni_locked : vn_locked_round n = -1 \/
    exists v, vn_locked_value n = Some v /\ v <> NIL /\
      (i, Precommit, vn_locked_round n, v) ∈ sent;
  ni_justified r w r0 v : justified -> (i, Prevote, r, w) ∈ sent -> w <> NIL ->
    (i, Precommit, r0, v) ∈ sent -> v <> NIL -> r0 < r ->
    v = w \/ exists vr, r0 <= vr < r /\ quorum_for sent Prevote vr w;
}.

Lemma quorum_for_mono sent sent' k r v :
  sent ⊆ sent' -> quorum_for sent k r v -> quorum_for sent' k r v.
Proof.
  intros Hs (Q & Hn & Hv & Hq & Hx). exists Q. repeat split; try done.
  intros x Hin Hh. apply Hs. auto.
Qed.

Lemma node_inv_init i : node_inv [] i vnode_init.
Proof.
  constructor; simpl; try lia; try (by left);
    intros; exfalso; match goal with H : _ ∈ [] |- _ => by apply elem_of_nil in H end.
Qed.

(** Messages of another validator change nothing for this one. *)
Lemma node_inv_other sent i n more :
  node_inv sent i n -> (forall k r v, (i, k, r, v) ∉ more) -> node_inv (sent ++ more) i n.
Proof.
  intros [] Hm.
  assert (forall k r v, (i, k, r, v) ∈ sent ++ more -> (i, k, r, v) ∈ sent) as Hd.
  { intros k r v [H|H]%elem_of_app; [done|]. by apply Hm in H. }
  assert (sent ⊆ sent ++ more) as Hs by (intros x; rewrite elem_of_app; auto).
  constructor; try done.
  - intros r v H%Hd. eauto.
  - intros r v H%Hd. eauto.
  - intros k r v v' H1%Hd H2%Hd. eauto.
  - intros r v H%Hd Hv. destruct (ni_lock0 r v H Hv) as (? & ? & ?).
    repeat split; try done. by eapply quorum_for_mono.
  - destruct ni_locked0 as [|(v & ? & ? & ?)]; [by left|right]. exists v.
    repeat split; try done. by apply Hs.
  - intros r w r0 v Hj H1%Hd Hw H2%Hd Hv Hlt.
    destruct (ni_justified0 r w r0 v) as [|(vr & ? & ?)]; try done; [by left|right].
    exists vr. split; [done|]. by eapply quorum_for_mono.
Qed.

(** A message this validator signs in its current round, and the earlier
    ones. *)
Lemma sent_snoc (sent : list Msg) (i : bytes) (k k' : VoteKind) (r r' : Z) (v v' : bytes) :
  (i, k, r, v) ∈ sent ++ [(i, k', r', v')] ->
  (i, k, r, v) ∈ sent \/ (k = k' /\ r = r' /\ v = v').
Proof.
  intros [H|H]%elem_of_app; [by left|right]. apply list_elem_of_singleton in H. naive_solver.
Qed.

Lemma prevote_inv sent i n w :
  node_inv sent i n -> vn_step n = SPropose -> (justified -> w <> NIL -> may_prevote sent n w) ->
  node_inv (sent ++ [(i, Prevote, vn_round n, w)]) i
    (mkVNode (vn_round n) SPrevote (vn_locked_value n) (vn_locked_round n)).
Proof.
  intros [] Hst Hw.
  assert (sent ⊆ sent ++ [(i, Prevote, vn_round n, w)]) as Hs by (intros x; rewrite elem_of_app; auto).
  constructor; simpl; try done.
  - intros r v [H|(_ & -> & _)]%sent_snoc; [|done]. destruct (ni_prevote_past0 r v H). by split.
  - intros r v [H|(? & _)]%sent_snoc; [|done]. destruct (ni_precommit_past0 r v H) as [? Hp].
    split; [done|]. intros E. specialize (Hp E). congruence.
  - intros k r v v' [H|(-> & -> & ->)]%sent_snoc [H'|(E & E' & ->)]%sent_snoc; subst; eauto;
      exfalso; [apply ni_prevote_past0 in H as [_ H]|apply ni_prevote_past0 in H' as [_ H]]; by apply H.
  - intros r v [H|(? & _)]%sent_snoc Hv; [|done]. destruct (ni_lock0 r v H Hv) as (? & ? & ?).
    repeat split; try done. by eapply quorum_for_mono.
  - destruct ni_locked0 as [|(v & ? & ? & ?)]; [by left|right]. exists v. repeat split; try done. by apply Hs.
  - intros r x r0 v Hj [H|(_ & -> & ->)]%sent_snoc Hx [H'|(? & _)]%sent_snoc Hv Hlt; try done.
    + destruct (ni_justified0 r x r0 v) as [|(vr & ? & ?)]; try done; [by left|right].
      exists vr. split; [done|]. by eapply quorum_for_mono.
    + destruct (ni_lock0 r0 v H' Hv) as (Hle & Heq & _).
      destruct (ni_precommit_past0 r0 v H') as [? _].
      destruct (Hw Hj Hx) as [?|[Hl|(vr & ? & ? & ?)]]; [lia| |].
      * destruct ni_locked0 as [?|(u & Hu & Hun & Hp)]; [lia|].
        assert (u = w) as -> by congruence.
        destruct (decide (r0 = vn_locked_round n)) as [E|E]; [left; specialize (Heq E); congruence|right].
        exists (vn_locked_round n). destruct (ni_precommit_past0 _ _ Hp) as [? Hst'].
        destruct (decide (vn_locked_round n = vn_round n)) as [E'|E'];
          [specialize (Hst' E'); congruence|].
        split; [lia|]. eapply quorum_for_mono; [exact Hs|]. by apply (ni_lock0 _ _ Hp Hun).
      * right. exists vr. split; [lia|]. by eapply quorum_for_mono.
Qed.

(** A precommit, with or without a new lock. *)
Lemma precommit_inv sent i n v lv lr :
  node_inv sent i n -> vn_step n = SPrevote ->
  (v = NIL /\ lv = vn_locked_value n /\ lr = vn_locked_round n \/
   v <> NIL /\ lv = Some v /\ lr = vn_round n /\ quorum_for sent Prevote (vn_round n) v) ->
  node_inv (sent ++ [(i, Precommit, vn_round n, v)]) i (mkVNode (vn_round n) SPrecommit lv lr).
Proof.
  intros [] Hst Hcase.
  assert (sent ⊆ sent ++ [(i, Precommit, vn_round n, v)]) as Hs by (intros x; rewrite elem_of_app; auto).
  assert (forall r x, (i, Precommit, r, x) ∈ sent -> r < vn_round n) as Hold.
  { intros r x H. destruct (ni_precommit_past0 r x H) as [? Hp].
    destruct (decide (r = vn_round n)) as [E|]; [specialize (Hp E); congruence|lia]. }
  constructor; simpl; try done.
  - intros r x [H|(? & _)]%sent_snoc; [|done]. destruct (ni_prevote_past0 r x H). by split.
  - intros r x [H|(_ & -> & _)]%sent_snoc; [|by split; [lia|]]. destruct (ni_precommit_past0 r x H). by split.
  - intros k r x x' [H|(-> & -> & ->)]%sent_snoc [H'|(E & E' & ->)]%sent_snoc; subst; eauto;
      exfalso; [apply Hold in H|apply Hold in H']; lia.
  - intros r x [H|(_ & -> & ->)]%sent_snoc Hx.
    + destruct (ni_lock0 r x H Hx) as (? & ? & ?). pose proof (Hold _ _ H).
      destruct Hcase as [(-> & -> & ->)|(? & -> & -> & ?)]; (split; [lia|split]);
        try (by eapply quorum_for_mono); [done|lia].
    + destruct Hcase as [(-> & _)|(? & -> & -> & Hq)]; [done|].
      split; [lia|]. split; [done|]. by eapply quorum_for_mono.
  - destruct Hcase as [(-> & -> & ->)|(? & -> & -> & ?)].
    + destruct ni_locked0 as [|(u & ? & ? & ?)]; [by left|right]. exists u. repeat split; try done. by apply Hs.
    + right. exists v. repeat split; try done. apply elem_of_app. right. by apply list_elem_of_singleton.
  - intros r w r0 x Hj [H|(? & _)]%sent_snoc Hw [H'|(_ & -> & ->)]%sent_snoc Hx Hlt; try done.
    + destruct (ni_justified0 r w r0 x) as [|(vr & ? & ?)]; try done; [by left|right].
      exists vr. split; [done|]. by eapply quorum_for_mono.
    + destruct (ni_prevote_past0 r w H). lia.
Qed.

Lemma enter_inv sent i n r :
  node_inv sent i n -> vn_round n < r ->
  node_inv sent i (mkVNode r SPropose (vn_locked_value n) (vn_locked_round n)).
Proof.
  intros [] Hr. constructor; simpl; try done; try lia.
  - intros r' v H. destruct (ni_prevote_past0 r' v H). split; lia.
  - intros r' v H. destruct (ni_precommit_past0 r' v H). split; lia.
Qed.

Lemma vstep_inv sent i n l n' :
  node_inv sent i n -> vstep sent n l n' -> node_inv (sent ++ signed i l) i n'.
Proof.
  intros Hi Hst. destruct Hst; simpl.
  - by apply prevote_inv.
  - apply precommit_inv; try done. by left.
  - apply precommit_inv; try done. by right.
  - rewrite app_nil_r. by apply enter_inv.
Qed.

Lemma vreach_inv net : vreach net -> forall i, honest i = true -> node_inv (vsent net) i (vnodes net i).
Proof.
  induction 1 as [|net i l n _ IH Hi Hst]; intros j Hj; simpl; [apply node_inv_init|].
  unfold vupdate. case_bool_decide as E; [subst j; eapply vstep_inv; eauto|].
  apply node_inv_other; [by apply IH|].
  intros k r v H. destruct l as [[[? ?] ?]|]; simpl in H;
    [apply list_elem_of_singleton in H; naive_solver|by apply elem_of_nil in H].
Qed.

(** ** Safety *)
Context (quorums_meet : forall Q Q', NoDup Q -> NoDup Q' -> Q ⊆ V -> Q' ⊆ V ->
  q <= Z.of_nat (length Q) -> q <= Z.of_nat (length Q') ->
  exists x, x ∈ Q /\ x ∈ Q' /\ honest x = true).

Lemma two_quorums sent k r v k' r' v' :
  quorum_for sent k r v -> quorum_for sent k' r' v' ->
  exists x, honest x = true /\ (x, k, r, v) ∈ sent /\ (x, k', r', v') ∈ sent.
Proof.
  intros (Q & N & S & L & H) (Q' & N' & S' & L' & H').
  destruct (quorums_meet Q Q') as (x & ? & ? & Hx); try done. exists x. auto.
Qed.

(** Once a quorum precommitted [v] in round [r], a quorum of prevotes in that
    round or a later one can only be for [v]. *)
Lemma locked_in net r v r' w :
  justified -> vreach net -> quorum_for (vsent net) Precommit r v -> v <> NIL -> r <= r' ->
  quorum_for (vsent net) Prevote r' w -> w <> NIL -> w = v.
Proof.
  intros Hjust Hr Hc Hv Hle. pose proof (vreach_inv net Hr) as Hinv.
  assert (0 <= r) as H0.
  { destruct (two_quorums _ _ _ _ _ _ _ Hc Hc) as (x & Hx & H & _).
    apply (ni_precommit_past _ _ _ (Hinv x Hx)) in H as [? _]. lia. }
  revert w. induction r' as [r' IH] using (well_founded_induction (Z.lt_wf 0)).
  intros w Hp Hw. destruct (decide (r = r')) as [->|Hne].
  - destruct (two_quorums _ _ _ _ _ _ _ Hc Hc) as (x & Hx & H & _).
    destruct (ni_lock _ _ _ (Hinv x Hx) _ _ H Hv) as (_ & _ & Hpv).
    destruct (two_quorums _ _ _ _ _ _ _ Hp Hpv) as (y & Hy & H1 & H2).
    exact (ni_once _ _ _ (Hinv y Hy) _ _ _ _ H1 H2).
  - destruct (two_quorums _ _ _ _ _ _ _ Hc Hp) as (x & Hx & H1 & H2).
    destruct (ni_justified _ _ _ (Hinv x Hx) _ _ _ _ Hjust H2 Hw H1 Hv) as [|(vr & ? & Hq)]; [lia|done|].
    apply (IH vr); [lia|lia|done|done].
Qed.

Lemma spec_agreement net r v r' v' :
  justified -> vreach net ->
  quorum_for (vsent net) Precommit r v -> quorum_for (vsent net) Precommit r' v' ->
  v <> NIL -> v' <> NIL -> v = v'.
Proof.
  intros Hjust Hr. assert (forall r v r' v', r <= r' ->
    quorum_for (vsent net) Precommit r v -> quorum_for (vsent net) Precommit r' v' ->
    v <> NIL -> v' <> NIL -> v = v') as Hmain.
  { intros r1 v1 r2 v2 Hle H1 H2 N1 N2.
    destruct (two_quorums _ _ _ _ _ _ _ H2 H2) as (x & Hx & H & _).
    destruct (ni_lock _ _ _ (vreach_inv net Hr x Hx) _ _ H N2) as (_ & _ & Hpv).
    symmetry. by eapply (locked_in net r1 v1 r2). }
  intros H1 H2 N1 N2. destruct (Z.le_ge_cases r r'); [by eapply (Hmain r v r')|].
  symmetry. by eapply (Hmain r' v' r).
Qed.

End Spec.

(** Fewer than a third of the members are dishonest: any two quorums of
    [floor(2n/3) + 1] share an honest member. *)
Lemma quorums_share_honest (V : list bytes) (honest : bytes -> bool) Q Q' :
  3 * Z.of_nat (length (List.filter (fun x => negb (honest x)) V)) < Z.of_nat (length V) ->
  NoDup Q -> NoDup Q' -> Q ⊆ V -> Q' ⊆ V ->
  2 * Z.of_nat (length V) / 3 + 1 <= Z.of_nat (length Q) ->
  2 * Z.of_nat (length V) / 3 + 1 <= Z.of_nat (length Q') ->
  exists x, x ∈ Q /\ x ∈ Q' /\ honest x = true.
Proof.
  intros Hf N N' S S' L L'.
  destruct (List.existsb honest (filter (.∈ Q') Q)) eqn:E.
  - apply existsb_exists in E as (x & Hx & Hh). apply list_elem_of_In, list_elem_of_filter in Hx as [? ?].
    by exists x.
  - exfalso. pose proof (overlap_length Q Q' V N N' S S') as Ho.
    assert (length (filter (.∈ Q') Q) <= length (List.filter (fun x => negb (honest x)) V))%nat as Hle.
    { apply submseteq_length, NoDup_submseteq; [by apply NoDup_filter|].
      intros x Hx. rewrite list_elem_of_In, filter_In. pose proof Hx as [_ HxQ]%list_elem_of_filter.
      split; [by apply list_elem_of_In, S|]. apply negb_true_iff, not_true_iff_false. intros Hh.
      apply not_true_iff_false in E. apply E, existsb_exists. exists x. by rewrite <- list_elem_of_In. }
    pose proof (Z_div_mod_eq_full (2 * Z.of_nat (length V)) 3).
    pose proof (Z.mod_pos_bound (2 * Z.of_nat (length V)) 3 ltac:(lia)). lia.
Qed.
