(* ===== verification/RoundRefines.v ===== *)
(** * RoundRefines: the round machine implements the voting discipline

    Every rule of [Round], and so [evaluate] and the four entry points, is a
    run of [VotingSpec.vstep] on the machine's round, step and lock, with the
    votes it asks the host to sign as the labels; a decision is backed by a
    quorum of precommits.  The simulation relation is the projection [abs]
    under the machine invariant [round_ok]. *)

From Stdlib Require Import ZArith Lia.
From stdpp Require Import base list gmap sets.
From S2P Require Import Prelude Codec Crypto Identity Kel Chain Round VotingSpec.
Open Scope Z_scope.

Definition abs (s : Round) : VNode :=
  mkVNode (rd_round s) (rd_step s) (rd_locked_value s) (rd_locked_round s).

(** The votes a list of actions asks the host to sign. *)
Definition vote_of (a : Action) : list (VoteKind * Z * bytes) :=
  match a with
  | SignPrevote r v => [(Prevote, r, v)]
  | SignPrecommit r v => [(Precommit, r, v)]
  | _ => []
  end.
Definition votes_of (l : list Action) : list (VoteKind * Z * bytes) := flat_map vote_of l.

Lemma votes_of_app a b : votes_of (a ++ b) = votes_of a ++ votes_of b.
Proof. apply flat_map_app. Qed.

Section Refines.
Context {P : Primitives}.
Context (iter_order : gmap Z ProposalInfo -> list (Z * ProposalInfo)).
Context (iter_perm : forall m, iter_order m ≡ₚ map_to_list m).
Context (vset : ValidatorSet) (height : Z) (honest : bytes -> bool) (justified : Prop).

Let V : list bytes := map did_scid (roots vset).
Let q : Z := quorum_threshold vset.
Let quorum_of := quorum_for V q honest.
Let step_of := vstep V q honest justified.

(** A run of the specification: steps against the same sent votes. *)
Inductive vrun (sent : list Msg) : VNode -> list (VoteKind * Z * bytes) -> VNode -> Prop :=
| vrun_nil n : vrun sent n [] n
| vrun_cons n l n1 ls n' :
    step_of sent n l n1 -> vrun sent n1 ls n' ->
    vrun sent n (match l with Some x => [x] | None => [] end ++ ls) n'.

Lemma vrun_one sent n l n' :
  step_of sent n l n' -> vrun sent n (match l with Some x => [x] | None => [] end) n'.
Proof. intros H. rewrite <- (app_nil_r (match l with Some x => _ | None => _ end)). eapply vrun_cons; [done|constructor]. Qed.

Lemma vrun_app sent n a n1 b n' : vrun sent n a n1 -> vrun sent n1 b n' -> vrun sent n (a ++ b) n'.
Proof.
  induction 1 as [|n l n1 ls n2 Hs _ IH]; intros Hb; [done|].
  rewrite <- (assoc_L (++)). eapply vrun_cons; eauto.
Qed.

Lemma vstep_mono sent sent' n l n' :
  sent ⊆ sent' -> step_of sent n l n' -> step_of sent' n l n'.
Proof.
  intros Hs [n0 w Hst Hw|n0 Hst|n0 v Hst Hv Hq|n0 r Hr]; constructor; try done.
  - intros Hj Hn. destruct (Hw Hj Hn) as [?|[?|(vr & ? & ? & ?)]]; [by left|by right; left|right; right].
    exists vr. repeat split; try done; try lia. by eapply quorum_for_mono.
  - by eapply quorum_for_mono.
Qed.

(** A validator's run is reachable in the network. *)
Lemma vrun_reach sent0 n0 ls n net i :
  vrun sent0 n0 ls n ->
  vreach V q honest justified net -> honest i = true -> sent0 ⊆ vsent net -> n0 = vnodes net i ->
  exists f, vreach V q honest justified (mkVNet f (vsent net ++ map (fun kv => (i, kv.1.1, kv.1.2, kv.2)) ls)) /\
    f i = n /\ forall j, j <> i -> f j = vnodes net j.
Proof.
  intros Hrun Hr Hi. revert net Hr.
  induction Hrun as [n|n l n1 ls n' Hst _ IH]; intros net Hr Hsub Hn0.
  - exists (vnodes net). simpl. rewrite app_nil_r. subst n. by destruct net.
  - subst n. apply (vstep_mono _ _ _ _ _ Hsub) in Hst.
    pose proof (vreach_step _ _ _ _ net i l n1 Hr Hi Hst) as Hr'.
    destruct (IH _ Hr') as (f & Hf & Hfi & Hfj).
    { simpl. intros x Hx. apply elem_of_app. left. by apply Hsub. }
    { simpl. unfold vupdate. by rewrite bool_decide_eq_true_2. }
    exists f. split; [|split; [done|]].
    + simpl in Hf. rewrite <- (assoc_L (++)) in Hf. rewrite map_app.
      destruct l as [[[k r] v]|]; exact Hf.
    + intros j Hj. rewrite (Hfj j Hj). simpl. unfold vupdate. by rewrite bool_decide_eq_false_2.
Qed.

(** ** The machine invariant *)
Definition tally_ok (sent : list Msg) (k : VoteKind) (r : Z) (m : gmap bytes (gset bytes)) : Prop :=
  forall id S x, m !! id = Some S -> x ∈ S -> x ∈ V /\ (honest x = true -> (x, k, r, id) ∈ sent).

Record round_ok (sent : list Msg) (s : Round) : Prop := {
  ro_validators : rd_validators s = vset;
  ro_height : rd_height s = height;
  ro_round : is_u32 (rd_round s);
  ro_started : 0 ∈ rd_started_rounds s;
  ro_votes r t : rd_votes s !! r = Some t ->
    is_u32 r /\ tally_ok sent Prevote r (prevotes t) /\ tally_ok sent Precommit r (precommits t);
  ro_proposals r p : rd_proposals s !! r = Some p -> p_id p <> NIL /\ (justified -> p_valid_round p <= U32_MAX);
}.

Definition certificate_backed (sent : list Msg) (qc : QuorumCertificate) : Prop :=
  qc_height qc = height /\ qc_block_hash qc <> NIL /\
  quorum_of sent Precommit (qc_round qc) (qc_block_hash qc).

(** What one machine step has to satisfy. *)
Definition refines (sent : list Msg) (s : Round) (out : Round * list Action) : Prop :=
  round_ok sent out.1 /\ vrun sent (abs s) (votes_of out.2) (abs out.1) /\
  forall qc, Decided qc ∈ out.2 -> certificate_backed sent qc.

Lemma refines_refl sent s : round_ok sent s -> refines sent s (s, []).
Proof.
  intros H. split; [done|]. split; [constructor|]. intros qc Hq. by apply elem_of_nil in Hq.
Qed.

Lemma refines_trans sent s s1 a1 s2 a2 :
  refines sent s (s1, a1) -> refines sent s1 (s2, a2) -> refines sent s (s2, a1 ++ a2).
Proof.
  intros (H1 & R1 & D1) (H2 & R2 & D2). split; [done|]. simpl in *. split.
  - rewrite votes_of_app. by eapply vrun_app.
  - intros qc [H|H]%elem_of_app; auto.
Qed.

Lemma refines_quiet sent s s' a :
  round_ok sent s' -> abs s' = abs s -> votes_of a = [] -> (forall qc, Decided qc ∉ a) ->
  refines sent s (s', a).
Proof.
  intros H E Hv Hd. split; [done|]. split; [simpl; rewrite Hv, E; constructor|].
  intros qc Hq. by apply Hd in Hq.
Qed.

(** ** Tallies as quorums *)
Lemma quorum_pos : 0 < q.
Proof.
  unfold q, quorum_threshold, vs_len.
  assert (0 <= 2 * Z.of_nat (length (roots vset)) / 3) by (apply Z.div_pos; lia). lia.
Qed.

Lemma set_quorum sent k r m id :
  tally_ok sent k r m -> q <= set_len m id -> quorum_of sent k r id.
Proof.
  intros Ht Hq. unfold set_len in Hq. pose proof quorum_pos.
  destruct (m !! id) as [S|] eqn:HS; [|lia].
  exists (elements S). split; [apply NoDup_elements|]. split.
  - intros x Hx%elem_of_elements. by apply (Ht id S x).
  - split; [done|]. intros x Hx%elem_of_elements Hh. by apply (Ht id S x).
Qed.

Lemma prevote_quorum sent s r id :
  round_ok sent s -> quorum s <= votes_at s r (fun t => prevote_count t id) ->
  quorum_of sent Prevote r id.
Proof.
  intros [] Hq. unfold votes_at, quorum in Hq. rewrite ro_validators0 in Hq. fold q in Hq.
  pose proof quorum_pos. destruct (rd_votes s !! r) as [t|] eqn:Ht; [|lia].
  destruct (ro_votes0 r t Ht) as (_ & Hp & _). by eapply set_quorum.
Qed.

Lemma precommit_quorum sent s r id :
  round_ok sent s -> quorum s <= votes_at s r (fun t => precommit_count t id) ->
  quorum_of sent Precommit r id.
Proof.
  intros [] Hq. unfold votes_at, quorum in Hq. rewrite ro_validators0 in Hq. fold q in Hq.
  pose proof quorum_pos. destruct (rd_votes s !! r) as [t|] eqn:Ht; [|lia].
  destruct (ro_votes0 r t Ht) as (_ & _ & Hp). by eapply set_quorum.
Qed.

(** ** Voting in the current round *)
Lemma prevote_current s : rd_step s = SPropose ->
  abs (prevote s (rd_round s)) = mkVNode (rd_round s) SPrevote (rd_locked_value s) (rd_locked_round s).
Proof. intros H. unfold prevote, abs. simpl. rewrite Z.eqb_refl. simpl. by rewrite H. Qed.

Lemma precommit_current s : rd_step s = SPrevote ->
  abs (precommit s (rd_round s)) = mkVNode (rd_round s) SPrecommit (rd_locked_value s) (rd_locked_round s).
Proof. intros H. unfold precommit, abs. simpl. rewrite Z.eqb_refl. simpl. by rewrite H. Qed.

Lemma round_ok_prevote sent s : round_ok sent s -> round_ok sent (prevote s (rd_round s)).
Proof. intros []. unfold prevote. simpl. rewrite Z.eqb_refl. by constructor. Qed.
Lemma round_ok_precommit sent s : round_ok sent s -> round_ok sent (precommit s (rd_round s)).
Proof. intros []. unfold precommit. simpl. rewrite Z.eqb_refl. by constructor. Qed.

Lemma refines_prevote sent s w :
  round_ok sent s -> rd_step s = SPropose ->
  (justified -> w <> NIL -> may_prevote V q honest sent (abs s) w) ->
  refines sent s (prevote s (rd_round s), [SignPrevote (rd_round s) w]).
Proof.
  intros H Hst Hw. split; [by apply round_ok_prevote|]. split.
  - cbn [fst snd]. rewrite prevote_current by done.
    apply (vrun_one sent (abs s) (Some (Prevote, rd_round s, w))). by apply (vs_prevote V q honest justified sent (abs s)).
  - intros qc Hq. apply list_elem_of_singleton in Hq. done.
Qed.

Lemma refines_precommit_nil sent s :
  round_ok sent s -> rd_step s = SPrevote ->
  refines sent s (precommit s (rd_round s), [SignPrecommit (rd_round s) NIL]).
Proof.
  intros H Hst. split; [by apply round_ok_precommit|]. split.
  - cbn [fst snd]. rewrite precommit_current by done.
    apply (vrun_one sent (abs s) (Some (Precommit, rd_round s, NIL))). by apply (vs_precommit_nil V q honest justified sent (abs s)).
  - intros qc Hq. apply list_elem_of_singleton in Hq. done.
Qed.

(** ** Each rule *)
Lemma rule_propose_fresh_refines sent s : round_ok sent s -> refines sent s (rule_propose_fresh s).
Proof.
  intros H. unfold rule_propose_fresh.
  destruct (negb _ || _) eqn:Hg; [by apply refines_refl|]. bool_prop.
  destruct (rd_proposals s !! rd_round s) as [p|] eqn:Hp; [|by apply refines_refl].
  destruct (negb (p_valid_round p =? -1)); [by apply refines_refl|].
  apply refines_prevote; [done|done|]. intros _ Hn.
  destruct (p_valid p && _) eqn:Hv; [|done]. bool_prop.
  match goal with H : _ \/ _ |- _ => destruct H as [Hl|Hl]; bool_prop end; [by left|by right; left].
Qed.

Lemma rule_propose_polc_refines sent s : round_ok sent s -> refines sent s (rule_propose_polc s).
Proof.
  intros H. unfold rule_propose_polc.
  destruct (negb _ || _) eqn:Hg; [by apply refines_refl|]. bool_prop.
  destruct (rd_proposals s !! rd_round s) as [p|] eqn:Hp; [|by apply refines_refl].
  destruct (negb ((0 <=? _) && _)) eqn:Hvr; [by apply refines_refl|].
  destruct (negb (quorum s <=? _)) eqn:Hq; [by apply refines_refl|]. bool_prop.
  pose proof (ro_proposals _ _ H _ _ Hp) as [_ Hle].
  apply refines_prevote; [done|done|]. intros Hj Hn. specialize (Hle Hj).
  assert (as_u32 (p_valid_round p) = p_valid_round p) as Hcast.
  { unfold as_u32. apply Z.mod_small. unfold U32_MAX in Hle. lia. }
  rewrite Hcast in *.
  destruct (p_valid p && _) eqn:Hv; [|done]. bool_prop.
  match goal with H : _ \/ _ |- _ => destruct H as [Hl|Hl]; bool_prop end; [right; right|by right; left].
  exists (p_valid_round p). simpl. split; [done|]. split; [done|]. by eapply prevote_quorum.
Qed.

Lemma round_ok_guards sent s a b c d :
  0 ∈ d -> round_ok sent s -> round_ok sent (set_guards s a b c d).
Proof. intros Hd []. by constructor. Qed.

Lemma rule_prevote_timeout_refines sent s : round_ok sent s -> refines sent s (rule_prevote_timeout s).
Proof.
  intros H. unfold rule_prevote_timeout.
  destruct (negb _ || _); [by apply refines_refl|]. destruct (_ <=? _); [|by apply refines_refl].
  apply refines_quiet; [apply round_ok_guards; [apply H|done]|done|done|].
  intros qc Hq. by apply list_elem_of_singleton in Hq.
Qed.

Lemma rule_precommit_timeout_refines sent s : round_ok sent s -> refines sent s (rule_precommit_timeout s).
Proof.
  intros H. unfold rule_precommit_timeout.
  destruct (bool_decide _); [by apply refines_refl|]. destruct (_ <=? _); [|by apply refines_refl].
  apply refines_quiet; [apply round_ok_guards; [apply H|done]|done|done|].
  intros qc Hq. by apply list_elem_of_singleton in Hq.
Qed.

Lemma rule_prevote_nil_refines sent s : round_ok sent s -> refines sent s (rule_prevote_nil s).
Proof.
  intros H. unfold rule_prevote_nil.
  destruct (negb _ || _) eqn:Hg; [by apply refines_refl|]. bool_prop.
  destruct (_ <=? _); [by apply refines_precommit_nil|by apply refines_refl].
Qed.

Lemma rule_prevote_quorum_refines sent s : round_ok sent s -> refines sent s (rule_prevote_quorum s).
Proof.
  intros H. unfold rule_prevote_quorum.
  destruct (step_ltb _ _ || _); [by apply refines_refl|].
  destruct (rd_proposals s !! rd_round s) as [p|] eqn:Hp; [|by apply refines_refl].
  destruct (negb (p_valid p)); [by apply refines_refl|].
  destruct (votes_at _ _ _ <? quorum s) eqn:Hq; [by apply refines_refl|]. bool_prop.
  pose proof (ro_proposals _ _ H _ _ Hp) as [Hid _].
  pose proof (prevote_quorum _ _ _ _ H Hq) as Hpq.
  set (s1 := set_valid _ _ _).
  assert (round_ok sent s1) as H1 by (destruct H; by constructor).
  destruct (bool_decide (rd_step s1 = SPrevote) && _) eqn:Hg; [|by apply refines_quiet; [..|set_solver]].
  bool_prop. set (s2 := set_locked s1 (p_id p) (rd_round s)).
  assert (round_ok sent s2) as Hs2 by (destruct H1; by constructor).
  change (rd_round s) with (rd_round s2). split; [by apply round_ok_precommit|]. split.
  - cbn [fst snd]. rewrite precommit_current by done.
    apply (vrun_one sent (abs s) (Some (Precommit, rd_round s, p_id p))).
    by apply (vs_lock V q honest justified sent (abs s)).
  - intros qc Hqc. by apply list_elem_of_singleton in Hqc.
Qed.

Lemma rule_decide_refines sent s : round_ok sent s -> refines sent s (rule_decide iter_order s).
Proof.
  intros H. unfold rule_decide.
  destruct (List.find _ _) as [[r p]|] eqn:Hf; [|by apply refines_refl].
  apply List.find_some in Hf as [Hin Hd]. unfold decidable_at in Hd. simpl in Hd. bool_prop.
  rewrite <- list_elem_of_In, iter_perm, elem_of_map_to_list in Hin.
  destruct (ro_proposals _ _ H _ _ Hin) as [Hid _].
  split; [destruct H; by constructor|]. split; [constructor|].
  intros qc Hqc. apply list_elem_of_singleton in Hqc. injection Hqc as ->.
  split; [apply H|]. split; [done|]. by eapply precommit_quorum.
Qed.

Lemma enter_round_refines sent s r :
  round_ok sent s -> rd_round s < r <= U32_MAX \/ r = 0 -> refines sent s (enter_round_core s r).
Proof.
  intros H Hr. unfold enter_round_core.
  destruct (rd_decided s || _) eqn:Hg; [by apply refines_refl|]. bool_prop.
  destruct Hr as [Hr| ->]; [|by destruct H].
  set (s1 := set_position _ r SPropose).
  assert (round_ok sent s1) as Hs1.
  { destruct H. constructor; try done; simpl; [unfold is_u32 in *; lia|set_solver]. }
  assert (forall a, votes_of a = [] -> (forall qc, Decided qc ∉ a) -> refines sent s (s1, a)) as Hout.
  { intros a Hv Hd. split; [done|]. split; [simpl; rewrite Hv|intros qc Hq; by apply Hd in Hq].
    apply (vrun_one sent (abs s) None). apply (vs_enter V q honest justified sent (abs s)). simpl. lia. }
  destruct (is_local_proposer s1 r); [destruct (rd_valid_value s1)|]; apply Hout; try done;
    intros qc Hq; by apply list_elem_of_singleton in Hq.
Qed.

Lemma min_of_elem l x : min_of l = Some x -> x ∈ l.
Proof.
  destruct l as [|y l]; [done|]. simpl. intros [= <-].
  induction l as [|z l IH]; simpl; [by left|].
  destruct (Z.min_spec z (foldr Z.min y l)) as [[_ ->]|[_ ->]]; [by right; left|].
  apply elem_of_cons in IH as [E|E]; [rewrite E; by left|by right; right].
Qed.

Lemma skip_candidates_elem s r :
  r ∈ skip_candidates s -> rd_round s < r /\ exists t, rd_votes s !! r = Some t.
Proof.
  unfold skip_candidates. rewrite list_elem_of_In, in_map_iff.
  intros ([r' t] & <- & [Hin Hg]%filter_In). simpl in *. bool_prop.
  rewrite <- list_elem_of_In, elem_of_map_to_list in Hin. eauto.
Qed.

Lemma rule_skip_round_refines sent s : round_ok sent s -> refines sent s (rule_skip_round s).
Proof.
  intros H. unfold rule_skip_round.
  destruct (min_of (skip_candidates s)) as [r|] eqn:Hm; [|by apply refines_refl].
  apply min_of_elem, skip_candidates_elem in Hm as (Hr & t & Ht).
  apply enter_round_refines; [done|left]. destruct (ro_votes _ _ H r t Ht) as [Hu _].
  unfold is_u32 in Hu. lia.
Qed.

(** ** The loop and the entry points *)
Lemma run_rule_refines sent s acc f :
  (forall s, round_ok sent s -> refines sent s (f s)) ->
  refines sent s acc -> refines sent s (run_rule acc f).
Proof.
  intros Hf Ha. destruct acc as [s1 a1]. unfold run_rule. simpl.
  destruct (f s1) as [s2 a2] eqn:E. eapply refines_trans; [exact Ha|].
  rewrite <- E. apply Hf. apply Ha.
Qed.

Lemma pass_refines sent s : round_ok sent s -> refines sent s (pass iter_order s).
Proof.
  intros H. unfold pass, rules. cbn [fold_left].
  repeat (apply run_rule_refines; [eauto using rule_propose_fresh_refines, rule_propose_polc_refines,
    rule_prevote_timeout_refines, rule_prevote_quorum_refines, rule_prevote_nil_refines,
    rule_precommit_timeout_refines, rule_decide_refines, rule_skip_round_refines|]).
  by apply refines_refl.
Qed.

Lemma eval_loop_refines sent fuel s : round_ok sent s -> refines sent s (eval_loop iter_order fuel s).
Proof.
  revert s. induction fuel as [|fuel IH]; intros s H; simpl; [by apply refines_refl|].
  pose proof (pass_refines sent s H) as Hp. destruct (pass iter_order s) as [s1 a1].
  destruct (rd_decided s1 || _); [done|].
  pose proof (IH s1 (proj1 Hp)) as Hr. destruct (eval_loop iter_order fuel s1) as [s2 a2].
  by eapply refines_trans.
Qed.

Lemma evaluate_refines sent s : round_ok sent s -> refines sent s (evaluate iter_order s).
Proof.
  intros H. unfold evaluate. destruct (rd_decided s); [by apply refines_refl|by apply eval_loop_refines].
Qed.

Lemma then_evaluate_refines sent s out :
  refines sent s out -> refines sent s (then_evaluate iter_order out).
Proof.
  destruct out as [s1 a1]. intros H. unfold then_evaluate. simpl.
  pose proof (evaluate_refines sent s1 (proj1 H)) as He. destruct (evaluate iter_order s1) as [s2 a2].
  by eapply refines_trans.
Qed.

Lemma on_timeout_refines sent s step r :
  round_ok sent s -> refines sent s (on_timeout iter_order s step r).
Proof.
  intros H. unfold on_timeout.
  destruct (rd_decided s || _) eqn:Hg; [by apply refines_refl|]. bool_prop. subst r.
  destruct step.
  - case_bool_decide; [|by apply refines_refl]. apply then_evaluate_refines, refines_prevote; done.
  - case_bool_decide; [|by apply refines_refl]. apply then_evaluate_refines. by apply refines_precommit_nil.
  - apply then_evaluate_refines, enter_round_refines; [done|].
    pose proof (ro_round _ _ H) as Hu. unfold is_u32, as_u32, U32_MAX in *.
    destruct (decide (rd_round s = 2 ^ 32 - 1)) as [->|]; [by right|left].
    rewrite Z.mod_small by lia. lia.
Qed.

Lemma on_proposal_refines sent s r id vr valid :
  round_ok sent s -> id <> NIL -> (justified -> vr <= U32_MAX) ->
  refines sent s (on_proposal iter_order s r id vr valid).
Proof.
  intros H Hid Hvr. unfold on_proposal. set (s1 := set_messages _ _ _).
  change (abs s) with (abs s1).
  assert (refines sent s1 (evaluate iter_order s1)) as He; [|exact He].
  apply evaluate_refines. destruct H. constructor; try done. simpl.
  intros r' p Hp. destruct (rd_proposals s !! r) eqn:E; [eauto|].
  destruct (decide (r' = r)) as [->|]; simplify_map_eq; eauto.
Qed.

(** A vote the network may deliver: if it is an honest validator's, that
    validator signed it. *)
Definition deliverable (sent : list Msg) (v : Vote) : Prop :=
  is_u32 (v_round v) /\
  let x := did_scid (v_validator_root v) in
  honest x = true -> (x, v_kind v, v_round v, v_block_hash v) ∈ sent.

Lemma tally_ok_empty sent k r : tally_ok sent k r ∅.
Proof. intros id S x H. by rewrite lookup_empty in H. Qed.

Lemma tally_ok_add sent k r m id x :
  tally_ok sent k r m -> x ∈ V -> (honest x = true -> (x, k, r, id) ∈ sent) ->
  tally_ok sent k r (add_to m id x).
Proof.
  intros Hm Hx Hh id' S y. unfold add_to. destruct (decide (id' = id)) as [->|Hne].
  - rewrite lookup_insert_eq. intros [= <-] [Hy|Hy]%elem_of_union.
    + destruct (m !! id) as [S|] eqn:E; simpl in Hy; [by eapply Hm|set_solver].
    + apply elem_of_singleton in Hy as ->. done.
  - rewrite lookup_insert_ne by done. apply Hm.
Qed.

Lemma round_ok_put sent s r t :
  round_ok sent s -> is_u32 r -> tally_ok sent Prevote r (prevotes t) ->
  tally_ok sent Precommit r (precommits t) ->
  round_ok sent (set_messages s (rd_proposals s) (<[r := t]> (rd_votes s))).
Proof.
  intros [] Hu H1 H2. constructor; try done. simpl. intros r' t'.
  destruct (decide (r' = r)) as [->|]; simplify_map_eq; [naive_solver|]; apply ro_votes0.
Qed.

Lemma on_vote_refines sent s v oracle :
  round_ok sent s -> deliverable sent v -> refines sent s (on_vote iter_order s v oracle).
Proof.
  intros H [Hu Hd]. unfold on_vote.
  destruct (negb (accept_vote s v oracle)) eqn:Ha; [by apply refines_refl|]. bool_prop.
  set (scid := did_scid (v_validator_root v)) in *.
  assert (scid ∈ V) as Hv.
  { unfold accept_vote in Ha. destruct (negb (v_height v =? _)); [done|].
    destruct (contains (rd_validators s) (v_validator_root v)) eqn:Hc; [|done].
    rewrite (ro_validators _ _ H) in Hc. unfold contains in Hc.
    apply existsb_exists in Hc as (d & Hin & Hb%bool_decide_eq_true_1).
    unfold V, scid. rewrite <- Hb. apply list_elem_of_In, in_map_iff. eauto. }
  set (t := default no_votes (rd_votes s !! v_round v)).
  assert (tally_ok sent Prevote (v_round v) (prevotes t) /\
          tally_ok sent Precommit (v_round v) (precommits t)) as [Hp Hc].
  { unfold t. destruct (rd_votes s !! v_round v) as [t'|] eqn:E; simpl.
    - by destruct (ro_votes _ _ H _ _ E) as (_ & ? & ?).
    - split; apply tally_ok_empty. }
  match goal with |- refines _ _ (match ?m with _ => _ end) => destruct m as [prior|] end.
  - case_bool_decide; (apply refines_quiet; [by apply round_ok_put|done|done|]);
      intros qc Hq; [by apply elem_of_nil in Hq|by apply list_elem_of_singleton in Hq].
  - set (t1 := tally_vote _ v scid).
    set (s1 := set_messages s _ _).
    assert (refines sent s1 (evaluate iter_order s1)) as He; [|exact He].
    apply evaluate_refines, round_ok_put; [done|done|..];
      unfold t1, tally_vote; destruct (v_kind v); simpl; try done; by apply tally_ok_add.
Qed.

(** [start] on a fresh machine. *)
Lemma start_refines sent local :
  refines sent (Round_new height vset local) (start iter_order (Round_new height vset local)).
Proof.
  unfold start. apply then_evaluate_refines. unfold enter_round_core. simpl.
  set (s1 := set_position _ 0 SPropose).
  assert (round_ok sent s1) as H1.
  { constructor; simpl; try done; try set_solver. }
  destruct (is_local_proposer s1 0); (apply refines_quiet; [done|done|done|]);
    intros qc Hq; by apply list_elem_of_singleton in Hq.
Qed.

Lemma round_ok_mono sent sent' s : sent ⊆ sent' -> round_ok sent s -> round_ok sent' s.
Proof.
  intros Hs []. constructor; try done. intros r t Ht. destruct (ro_votes0 r t Ht) as (? & Hp & Hc).
  split; [done|]. split; intros id S x HS Hx; [destruct (Hp id S x HS Hx)|destruct (Hc id S x HS Hx)]; auto.
Qed.

End Refines.
