(* ===== verification/RoundFacts.v ===== *)
(** * RoundFacts: the evaluation loop ends, and what it leaves behind

    [evaluate]'s loop is the source's [loop] with a fuel argument.  Here it is
    related to a fuel-free description of that loop: every pass that asks for
    another one strictly decreases [eval_measure] (each action uses up a
    once-guard of the current round, or moves to a round that has votes), so
    the fuel [eval_fuel] is never what stops it.  A certificate the machine
    decides on passes [mini-chain]'s verification. *)

From Stdlib Require Import ZArith Lia.
From stdpp Require Import base list gmap sets.
From S2P Require Import Prelude Codec Crypto Identity Kel KelTheorems Chain ChainTheorems Round.
From S2P Require Import VotingSpec RoundRefines.
Open Scope Z_scope.

Section Facts.
Context {P : Primitives}.
Context (iter_order : gmap Z ProposalInfo -> list (Z * ProposalInfo)).

(** [loop { .. if decided || no new action { break } }], without fuel. *)
Inductive loop_runs : Round -> Round * list Action -> Prop :=
| loop_stop s s' a :
    pass iter_order s = (s', a) -> rd_decided s' = true \/ a = [] -> loop_runs s (s', a)
| loop_again s s1 a1 s' a :
    pass iter_order s = (s1, a1) -> rd_decided s1 = false -> a1 <> [] ->
    loop_runs s1 (s', a) -> loop_runs s (s', a1 ++ a).

(** ** Progress *)
Definition progress (s : Round) (out : Round * list Action) : Prop :=
  rd_decided out.1 = true \/
  ((eval_measure out.1 <= eval_measure s)%nat /\
   (out.2 <> [] -> (eval_measure out.1 < eval_measure s)%nat)).

Lemma progress_refl s : progress s (s, []).
Proof. right. split; [done|]. by intros H. Qed.

Lemma open_guard_insert g s : rd_round s ∉ g ->
  open_guard g s = 1%nat /\ open_guard (g ∪ {[rd_round s]}) s = 0%nat.
Proof.
  intros H. unfold open_guard. rewrite bool_decide_eq_false_2 by done.
  by rewrite bool_decide_eq_true_2 by set_solver.
Qed.

Lemma open_guard_le g s : (open_guard g s <= 1)%nat.
Proof. unfold open_guard. case_bool_decide; lia. Qed.

Lemma measure_prevote s : rd_round s ∉ rd_prevoted_rounds s ->
  (eval_measure (prevote s (rd_round s)) < eval_measure s)%nat.
Proof.
  intros H. unfold prevote. simpl. rewrite Z.eqb_refl.
  unfold eval_measure, later_rounds, open_guard in *. simpl.
  rewrite (bool_decide_eq_true_2 (_ ∈ _ ∪ _)) by set_solver.
  rewrite (bool_decide_eq_false_2 _ H). lia.
Qed.

Lemma measure_precommit s : rd_round s ∉ rd_precommitted_rounds s ->
  (eval_measure (precommit s (rd_round s)) < eval_measure s)%nat.
Proof.
  intros H. unfold precommit. simpl. rewrite Z.eqb_refl.
  unfold eval_measure, later_rounds, open_guard in *. simpl.
  rewrite (bool_decide_eq_true_2 (_ ∈ _ ∪ _)) by set_solver.
  rewrite (bool_decide_eq_false_2 _ H). lia.
Qed.

Lemma rule_propose_fresh_progress s : progress s (rule_propose_fresh s).
Proof.
  unfold rule_propose_fresh. destruct (negb _ || _) eqn:Hg; [apply progress_refl|]. bool_prop.
  destruct (rd_proposals s !! rd_round s); [|apply progress_refl].
  destruct (negb _); [apply progress_refl|].
  pose proof (measure_prevote s H0). right. simpl. split; [lia|done].
Qed.

Lemma rule_propose_polc_progress s : progress s (rule_propose_polc s).
Proof.
  unfold rule_propose_polc. destruct (negb _ || _) eqn:Hg; [apply progress_refl|]. bool_prop.
  destruct (rd_proposals s !! rd_round s); [|apply progress_refl].
  destruct (negb _); [apply progress_refl|]. destruct (negb _); [apply progress_refl|].
  pose proof (measure_prevote s H0). right. simpl. split; [lia|done].
Qed.

Lemma rule_prevote_nil_progress s : progress s (rule_prevote_nil s).
Proof.
  unfold rule_prevote_nil. destruct (negb _ || _) eqn:Hg; [apply progress_refl|]. bool_prop.
  destruct (_ <=? _); [|apply progress_refl].
  pose proof (measure_precommit s H0). right. simpl. split; [lia|done].
Qed.

Lemma rule_prevote_quorum_progress s : progress s (rule_prevote_quorum s).
Proof.
  unfold rule_prevote_quorum. destruct (_ || _); [apply progress_refl|].
  destruct (rd_proposals s !! rd_round s) as [p|]; [|apply progress_refl].
  destruct (negb _); [apply progress_refl|]. destruct (_ <? _); [apply progress_refl|].
  set (s1 := set_valid _ _ _). assert (eval_measure s1 = eval_measure s) as E by done.
  destruct (_ && _) eqn:Hg; [|right; simpl; rewrite E; split; [done|by intros H]]. bool_prop.
  pose proof (measure_precommit (set_locked s1 (p_id p) (rd_round s)) ltac:(done)) as Hm.
  right. cbn [fst snd]. change (rd_round s) with (rd_round (set_locked s1 (p_id p) (rd_round s))) at 2 4.
  change (eval_measure (set_locked s1 (p_id p) (rd_round s))) with (eval_measure s) in Hm.
  split; [lia|done].
Qed.

Lemma measure_armed s g : rd_round s ∉ rd_prevote_timeout_armed s ->
  g = set_guards s (rd_prevote_timeout_armed s ∪ {[rd_round s]}) (rd_precommit_timeout_armed s)
       (rd_prevote_quorum_seen s) (rd_started_rounds s) ->
  (eval_measure g < eval_measure s)%nat.
Proof.
  intros H ->. unfold eval_measure, later_rounds, open_guard in *. simpl.
  rewrite (bool_decide_eq_true_2 (_ ∈ _ ∪ _)) by set_solver.
  rewrite (bool_decide_eq_false_2 _ H). lia.
Qed.

Lemma measure_armed_precommit s g : rd_round s ∉ rd_precommit_timeout_armed s ->
  g = set_guards s (rd_prevote_timeout_armed s) (rd_precommit_timeout_armed s ∪ {[rd_round s]})
       (rd_prevote_quorum_seen s) (rd_started_rounds s) ->
  (eval_measure g < eval_measure s)%nat.
Proof.
  intros H ->. unfold eval_measure, later_rounds, open_guard in *. simpl.
  rewrite (bool_decide_eq_true_2 (_ ∈ _ ∪ _)) by set_solver.
  rewrite (bool_decide_eq_false_2 _ H). lia.
Qed.

Lemma rule_prevote_timeout_progress s : progress s (rule_prevote_timeout s).
Proof.
  unfold rule_prevote_timeout. destruct (negb _ || _) eqn:Hg; [apply progress_refl|]. bool_prop.
  destruct (_ <=? _); [|apply progress_refl].
  pose proof (measure_armed s _ H0 eq_refl). right. simpl. split; [lia|done].
Qed.

Lemma rule_precommit_timeout_progress s : progress s (rule_precommit_timeout s).
Proof.
  unfold rule_precommit_timeout. destruct (bool_decide _) eqn:Hg; [apply progress_refl|]. bool_prop.
  destruct (_ <=? _); [|apply progress_refl].
  pose proof (measure_armed_precommit s _ Hg eq_refl). right. simpl. split; [lia|done].
Qed.

Lemma rule_decide_progress s : progress s (rule_decide iter_order s).
Proof.
  unfold rule_decide. destruct (List.find _ _) as [[r p]|]; [by left|apply progress_refl].
Qed.

Lemma filter_shrinks {A} (f g : A -> bool) l x :
  (forall y, f y = true -> g y = true) -> x ∈ l -> f x = false -> g x = true ->
  (length (List.filter f l) < length (List.filter g l))%nat.
Proof.
  intros Hfg Hx Hf Hg.
  assert (forall l, length (List.filter f l) <= length (List.filter g l))%nat as Hle.
  { clear - Hfg. induction l as [|y l IH]; simpl; [done|]. specialize (Hfg y).
    destruct (f y); [rewrite Hfg by done; simpl; lia|]. destruct (g y); simpl; lia. }
  induction l as [|y l IH]; [by apply elem_of_nil in Hx|]. apply elem_of_cons in Hx as [<-|Hx].
  - simpl. rewrite Hf, Hg. simpl. pose proof (Hle l). lia.
  - specialize (IH Hx). simpl. pose proof (Hfg y).
    destruct (f y); [rewrite H by done; simpl; lia|]. destruct (g y); simpl; lia.
Qed.

Lemma rule_skip_round_progress s : progress s (rule_skip_round s).
Proof.
  unfold rule_skip_round. destruct (min_of (skip_candidates s)) as [r|] eqn:Hm; [|apply progress_refl].
  apply min_of_elem, skip_candidates_elem in Hm as (Hr & t & Ht).
  unfold enter_round_core. destruct (rd_decided s || _); [apply progress_refl|].
  set (s1 := set_position _ r SPropose).
  assert (eval_measure s1 < eval_measure s)%nat as Hlt.
  { assert (later_rounds s1 < later_rounds s)%nat as Hl.
    { unfold later_rounds. simpl. apply (filter_shrinks _ _ _ r).
      - intros y Hy. bool_prop. apply Z.ltb_lt. lia.
      - apply list_elem_of_fmap. exists (r, t). split; [done|]. by apply elem_of_map_to_list.
      - apply Z.ltb_ge. lia.
      - by apply Z.ltb_lt. }
    unfold eval_measure.
    pose proof (open_guard_le (rd_prevoted_rounds s1) s1).
    pose proof (open_guard_le (rd_precommitted_rounds s1) s1).
    pose proof (open_guard_le (rd_prevote_timeout_armed s1) s1).
    pose proof (open_guard_le (rd_precommit_timeout_armed s1) s1). lia. }
  right. destruct (is_local_proposer s1 r); [destruct (rd_valid_value s1)|]; simpl; (split; [lia|done]).
Qed.

(** Once decided, a machine stays decided through the rest of the pass. *)
Lemma rules_keep_decided f s :
  f ∈ rules iter_order -> rd_decided s = true -> rd_decided (f s).1 = true.
Proof.
  intros Hf Hd. unfold rules in Hf. rewrite !elem_of_cons in Hf.
  repeat (destruct Hf as [->|Hf]);
    [unfold rule_propose_fresh|unfold rule_propose_polc|unfold rule_prevote_timeout
    |unfold rule_prevote_quorum|unfold rule_prevote_nil|unfold rule_precommit_timeout
    |unfold rule_decide|unfold rule_skip_round, enter_round_core|by apply elem_of_nil in Hf];
    rewrite ?Hd; unfold prevote, precommit; simpl; rewrite ?Z.eqb_refl;
    repeat case_match; simplify_eq/=; done.
Qed.

Lemma rules_progress f s : f ∈ rules iter_order -> progress s (f s).
Proof.
  intros Hf. unfold rules in Hf. rewrite !elem_of_cons in Hf.
  repeat (destruct Hf as [->|Hf]);
    eauto using rule_propose_fresh_progress, rule_propose_polc_progress, rule_prevote_timeout_progress,
      rule_prevote_quorum_progress, rule_prevote_nil_progress, rule_precommit_timeout_progress,
      rule_decide_progress, rule_skip_round_progress.
  by apply elem_of_nil in Hf.
Qed.

Lemma fold_rules_progress s acc fs :
  (forall f, f ∈ fs -> f ∈ rules iter_order) -> progress s acc -> progress s (fold_left run_rule fs acc).
Proof.
  revert acc. induction fs as [|f fs IH]; intros acc Hin Hacc; [done|]. simpl. apply IH.
  { intros g Hg. apply Hin. by right. }
  destruct acc as [s1 a1]. unfold run_rule. simpl.
  assert (f ∈ rules iter_order) as Hf by (apply Hin; left).
  pose proof (rules_progress f s1 Hf) as Hp. pose proof (rules_keep_decided f s1 Hf) as Hd.
  destruct (f s1) as [s2 a2]. unfold progress in *. simpl in *.
  destruct Hacc as [Ha|[Ha Ha']]; [left; auto|].
  destruct Hp as [Hp|[Hp Hp']]; [by left|right]. split; [lia|].
  intros Hne. destruct a1; [specialize (Hp' Hne); lia|]. specialize (Ha' ltac:(done)). lia.
Qed.

Lemma pass_progress s : progress s (pass iter_order s).
Proof. apply fold_rules_progress; [done|apply progress_refl]. Qed.

Lemma eval_loop_runs fuel s :
  (eval_measure s < fuel)%nat -> loop_runs s (eval_loop iter_order fuel s).
Proof.
  revert s. induction fuel as [|fuel IH]; intros s Hlt; [lia|]. simpl.
  pose proof (pass_progress s) as Hp. destruct (pass iter_order s) as [s1 a1] eqn:E.
  destruct (rd_decided s1) eqn:Hd; simpl; [apply loop_stop; auto|].
  destruct a1 as [|x a1]; [apply loop_stop; auto|].
  destruct Hp as [Hp|[_ Hp]]; [simpl in Hp; congruence|]. specialize (Hp ltac:(done)). simpl in Hp.
  pose proof (IH s1 ltac:(lia)) as Hl. destruct (eval_loop iter_order fuel s1) as [s2 a2].
  change (x :: a1 ++ a2) with ((x :: a1) ++ a2).
  by apply (loop_again s s1).
Qed.

(** ** The rules only read the messages *)
Definition same_messages (s s' : Round) : Prop :=
  rd_height s' = rd_height s /\ rd_validators s' = rd_validators s /\
  rd_proposals s' = rd_proposals s /\ rd_votes s' = rd_votes s.

Lemma rules_same_messages f s : f ∈ rules iter_order -> same_messages s (f s).1.
Proof.
  intros Hf. unfold rules in Hf. rewrite !elem_of_cons in Hf. unfold same_messages.
  repeat (destruct Hf as [->|Hf]);
    [unfold rule_propose_fresh|unfold rule_propose_polc|unfold rule_prevote_timeout
    |unfold rule_prevote_quorum|unfold rule_prevote_nil|unfold rule_precommit_timeout
    |unfold rule_decide|unfold rule_skip_round, enter_round_core|by apply elem_of_nil in Hf];
    unfold prevote, precommit; simpl; rewrite ?Z.eqb_refl;
    repeat case_match; simplify_eq/=; done.
Qed.

Lemma same_messages_trans s1 s2 s3 : same_messages s1 s2 -> same_messages s2 s3 -> same_messages s1 s3.
Proof. unfold same_messages. naive_solver congruence. Qed.

(** What a pass reports about decisions: a decided certificate comes from a
    valid proposal with a quorum of precommits, and a pass without one found
    no such proposal. *)
Definition decision_of (s : Round) (qc : QuorumCertificate) : Prop :=
  exists p t, rd_proposals s !! qc_round qc = Some p /\ p_valid p = true /\
    rd_votes s !! qc_round qc = Some t /\ quorum s <= precommit_count t (p_id p) /\
    qc = mkQC (rd_height s) (qc_round qc) (p_id p) (default [] (precommit_votes t !! p_id p)).

Context (iter_perm : forall m, iter_order m ≡ₚ map_to_list m).

Lemma quorum_positive s : 0 < quorum s.
Proof.
  unfold quorum, quorum_threshold, vs_len.
  assert (0 <= 2 * Z.of_nat (length (roots (rd_validators s))) / 3) by (apply Z.div_pos; lia). lia.
Qed.

Lemma rule_decide_spec s :
  (forall qc, Decided qc ∈ (rule_decide iter_order s).2 -> decision_of s qc) /\
  ((rule_decide iter_order s).2 = [] -> forall r p, rd_proposals s !! r = Some p -> p_valid p = true ->
     votes_at s r (fun t => precommit_count t (p_id p)) < quorum s).
Proof.
  unfold rule_decide. destruct (List.find _ _) as [[r p]|] eqn:Hf; (split; [|done || intros _]).
  - intros qc Hq. apply list_elem_of_singleton in Hq. injection Hq as ->.
    apply List.find_some in Hf as [Hin Hd]. unfold decidable_at, votes_at in Hd. simpl in Hd. bool_prop.
    rewrite <- list_elem_of_In, iter_perm, elem_of_map_to_list in Hin. pose proof (quorum_positive s).
    destruct (rd_votes s !! r) as [t|] eqn:Ht; [|lia]. exists p, t. by repeat split.
  - intros qc Hq. by apply elem_of_nil in Hq.
  - intros r p Hp Hv. assert ((r, p) ∈ iter_order (rd_proposals s)) as Hin
      by (rewrite iter_perm; by apply elem_of_map_to_list).
    apply list_elem_of_In in Hin. pose proof (List.find_none _ _ Hf _ Hin) as Hn.
    unfold decidable_at in Hn. simpl in Hn. rewrite Hv in Hn. simpl in Hn. by bool_prop.
Qed.

Lemma other_rules_no_decision f s qc :
  f ∈ [rule_propose_fresh; rule_propose_polc; rule_prevote_timeout; rule_prevote_quorum;
       rule_prevote_nil; rule_precommit_timeout; rule_skip_round] ->
  Decided qc ∉ (f s).2.
Proof.
  intros Hf. rewrite !elem_of_cons in Hf.
  repeat (destruct Hf as [->|Hf]);
    [unfold rule_propose_fresh|unfold rule_propose_polc|unfold rule_prevote_timeout
    |unfold rule_prevote_quorum|unfold rule_prevote_nil|unfold rule_precommit_timeout
    |unfold rule_skip_round, enter_round_core|by apply elem_of_nil in Hf];
    repeat case_match; simplify_eq/=; intros Hin;
    repeat (apply elem_of_cons in Hin as [Hin|Hin]; [discriminate|]); by apply elem_of_nil in Hin.
Qed.

Lemma rules_decision f s qc :
  f ∈ rules iter_order -> Decided qc ∈ (f s).2 -> decision_of s qc.
Proof.
  intros Hf Hq. unfold rules in Hf. rewrite !elem_of_cons in Hf.
  destruct Hf as [->|[->|[->|[->|[->|[->|[->|[->|Hf]]]]]]]]; [..|by apply elem_of_nil in Hf];
    first [by apply rule_decide_spec
          |exfalso; eapply other_rules_no_decision; [|exact Hq]; rewrite !elem_of_cons; tauto].
Qed.

Lemma decision_of_same s s' qc : same_messages s s' -> decision_of s' qc -> decision_of s qc.
Proof. intros (H1 & H2 & H3 & H4). unfold decision_of, quorum. by rewrite H1, H2, H3, H4. Qed.

Lemma fold_rules_messages s acc fs :
  (forall f, f ∈ fs -> f ∈ rules iter_order) ->
  same_messages s acc.1 -> (forall qc, Decided qc ∈ acc.2 -> decision_of s qc) ->
  let out := fold_left run_rule fs acc in
  same_messages s out.1 /\ (forall qc, Decided qc ∈ out.2 -> decision_of s qc).
Proof.
  revert acc. induction fs as [|f fs IH]; intros [s1 a1] Hin Hs Hd; [by split|].
  assert (f ∈ rules iter_order) as Hf by (apply Hin; left).
  pose proof (rules_same_messages f s1 Hf) as Hm. pose proof (rules_decision f s1) as Hdec.
  simpl in *. apply IH; unfold run_rule; simpl; destruct (f s1) as [s2 a2]; simpl in *.
  - intros g Hg. apply Hin. by right.
  - by eapply same_messages_trans.
  - intros qc [H|H]%elem_of_app; [by apply Hd|]. eapply decision_of_same; [exact Hs|]. by apply Hdec.
Qed.

(** Nothing the pass did not report could have been decided. *)
Definition nothing_decidable (s : Round) : Prop :=
  forall r p, rd_proposals s !! r = Some p -> p_valid p = true ->
    votes_at s r (fun t => precommit_count t (p_id p)) < quorum s.

Lemma nothing_decidable_same s s' : same_messages s s' -> nothing_decidable s -> nothing_decidable s'.
Proof. intros (H1 & H2 & H3 & H4). unfold nothing_decidable, votes_at, quorum. by rewrite H2, H3, H4. Qed.

Lemma fold_rules_quiet s s1 a1 fs s' :
  (forall f, f ∈ fs -> f ∈ rules iter_order) -> same_messages s s1 ->
  fold_left run_rule fs (s1, a1) = (s', []) ->
  a1 = [] /\ (rule_decide iter_order ∈ fs -> nothing_decidable s).
Proof.
  revert s1 a1. induction fs as [|f fs IH]; intros s1 a1 Hin Hs H.
  - injection H as _ ->. split; [done|]. intros Hd. by apply elem_of_nil in Hd.
  - simpl in H. unfold run_rule in H at 2. simpl in H.
    assert (f ∈ rules iter_order) as Hf by (apply Hin; left).
    pose proof (rules_same_messages f s1 Hf) as Hm.
    destruct (f s1) as [s2 a2] eqn:E.
    destruct (IH s2 (a1 ++ a2)) as [Hnil Hrest]; [intros g Hg; apply Hin; by right| |done|].
    { by eapply same_messages_trans. }
    apply app_nil in Hnil as [-> ->]. split; [done|].
    intros [<-|Hd]%elem_of_cons; [|by apply Hrest].
    apply (nothing_decidable_same s1); [unfold same_messages in *; naive_solver|].
    intros r p. apply rule_decide_spec. by rewrite E.
Qed.

Lemma pass_quiet s s' : pass iter_order s = (s', []) -> nothing_decidable s'.
Proof.
  intros H. pose proof (fold_rules_messages s (s, []) (rules iter_order)) as Hm.
  destruct Hm as [Hm _]; [done|done|intros qc Hq; by apply elem_of_nil in Hq|].
  apply (nothing_decidable_same s).
  - unfold pass in H. by rewrite H in Hm.
  - destruct (fold_rules_quiet s s [] (rules iter_order) s') as [_ Hn]; [done|done|exact H|].
    apply Hn. unfold rules. rewrite !elem_of_cons. tauto.
Qed.

Lemma loop_runs_messages s out :
  loop_runs s out -> same_messages s out.1 /\ (forall qc, Decided qc ∈ out.2 -> decision_of s qc) /\
    (rd_decided out.1 = true \/ nothing_decidable out.1).
Proof.
  assert (forall s s1 a1, pass iter_order s = (s1, a1) ->
    same_messages s s1 /\ forall qc, Decided qc ∈ a1 -> decision_of s qc) as Hpass.
  { intros s0 s1 a1 E. pose proof (fold_rules_messages s0 (s0, []) (rules iter_order)) as Hm.
    change (fold_left run_rule (rules iter_order) (s0, [])) with (pass iter_order s0) in Hm.
    rewrite E in Hm. apply Hm; [done|done|]. intros qc Hq. by apply elem_of_nil in Hq. }
  induction 1 as [s s' a E Hstop|s s1 a1 s' a E _ _ _ (IHm & IHd & IHs)].
  - destruct (Hpass _ _ _ E) as [Hm Hd]. split; [done|]. split; [done|].
    destruct Hstop as [| ->]; [by left|right]. by apply (pass_quiet s).
  - destruct (Hpass _ _ _ E) as [Hm Hd]. simpl in *. split; [by eapply same_messages_trans|].
    split; [|done]. intros qc [H|H]%elem_of_app; [by apply Hd|].
    eapply decision_of_same; [exact Hm|]. by apply IHd.
Qed.

Lemma evaluate_messages s :
  same_messages s (evaluate iter_order s).1 /\
  (forall qc, Decided qc ∈ (evaluate iter_order s).2 -> decision_of s qc) /\
  (rd_decided (evaluate iter_order s).1 = true \/ nothing_decidable (evaluate iter_order s).1).
Proof.
  unfold evaluate. destruct (rd_decided s) eqn:E.
  - split; [done|]. split; [|by left]. intros qc Hq. by apply elem_of_nil in Hq.
  - apply loop_runs_messages, eval_loop_runs. unfold eval_fuel. lia.
Qed.

(** The evaluation loop terminates: [evaluate] on an undecided machine is
    a run of the source's fuel-free loop to one of its two exits, a decision
    or a pass that produced no action. *)
Theorem evaluate_terminates s :
  rd_decided s = false -> loop_runs s (evaluate iter_order s).
Proof.
  intros Hd. unfold evaluate. rewrite Hd. apply eval_loop_runs. unfold eval_fuel. lia.
Qed.

(** No decision is missed and none is invented: after [evaluate] either
    the height is decided or no valid proposal has a quorum of precommits in
    its round; and every certificate it returns is for a valid proposal with
    a quorum of precommits. *)
Theorem evaluate_decides_iff s :
  (rd_decided (evaluate iter_order s).1 = true \/ nothing_decidable (evaluate iter_order s).1) /\
  (forall qc, Decided qc ∈ (evaluate iter_order s).2 -> decision_of s qc).
Proof. pose proof (evaluate_messages s) as (_ & ? & ?). by split. Qed.

End Facts.
