(* ===== verification/Agreement.v ===== *)
(** * Agreement: a network of round machines

    Honest validators run the machine of [Round]; the network delivers
    proposals, votes and timer fires to them in any order, any number of
    times, or never.  A Byzantine validator is not modelled as a machine at
    all: whatever it signs may be delivered to anyone at any moment.  The
    only limit on the adversary is that it cannot sign for an honest
    validator: a vote that verifies and names an honest root was signed by
    that root's machine.

    [run] executes a schedule; [None] means the schedule asks for a delivery
    that cannot happen.  The parameter [vr_ok] is the set of [valid_round]
    values the network may put on a proposal. *)

From Stdlib Require Import ZArith Lia.
From stdpp Require Import base list gmap sets.
From S2P Require Import Prelude Codec Crypto Identity Kel Chain ChainTheorems Round.
From S2P Require Import VotingSpec RoundRefines.
Open Scope Z_scope.

Inductive NetEvent :=
| EvStart
| EvProposal (round : Z) (id : bytes) (valid_round : Z) (valid : bool)
| EvVote (v : Vote)
| EvTimeout (step : Step) (round : Z).

Record Net := mkNet {
  nodes : bytes -> Round;
  sent : list Msg;
  decisions : list (bytes * QuorumCertificate);
}.

Definition decided_of (a : Action) : list QuorumCertificate :=
  match a with Decided qc => [qc] | _ => [] end.

Section Network.
Context {P : Primitives}.
Context (iter_order : gmap Z ProposalInfo -> list (Z * ProposalInfo)).
Context (vset : ValidatorSet) (height : Z) (oracle : ValidatorOracle) (honest : bytes -> bool).
Context (vr_ok : Z -> bool) (justified : Prop).

Definition handle (s : Round) (ev : NetEvent) : Round * list Action :=
  match ev with
  | EvStart => start iter_order s
  | EvProposal r id vr valid => on_proposal iter_order s r id vr valid
  | EvVote v => on_vote iter_order s v oracle
  | EvTimeout step r => on_timeout iter_order s step r
  end.

(** Hosts call [start] first and once; proposal ids are block hashes, never
    the all-zero [NIL]; rounds are [u32]; honest signatures are not forged. *)
Definition admissible (sent : list Msg) (s : Round) (ev : NetEvent) : bool :=
  match ev with
  | EvStart => bool_decide (rd_started_rounds s = ∅)
  | EvProposal r id vr valid =>
      bool_decide (0 ∈ rd_started_rounds s) && negb (bool_decide (id = NIL)) && vr_ok vr
  | EvVote v =>
      let x := did_scid (v_validator_root v) in
      bool_decide (0 ∈ rd_started_rounds s) && bool_decide (is_u32 (v_round v))
      && (negb (verifies v oracle && honest x)
          || bool_decide ((x, v_kind v, v_round v, v_block_hash v) ∈ sent))
  | EvTimeout _ _ => bool_decide (0 ∈ rd_started_rounds s)
  end.

Definition net_init : Net :=
  mkNet (fun i => Round_new height vset (from_scid_unchecked i)) [] [].

Definition net_step (n : Net) (ie : bytes * NetEvent) : option Net :=
  let i := ie.1 in
  let s := nodes n i in
  if honest i && admissible (sent n) s ie.2 then
    let '(s', a) := handle s ie.2 in
    Some (mkNet (fun j => if bool_decide (j = i) then s' else nodes n j)
            (sent n ++ map (fun kv => (i, kv.1.1, kv.1.2, kv.2)) (votes_of a))
            (decisions n ++ map (fun qc => (i, qc)) (flat_map decided_of a)))
  else None.

Fixpoint run (n : Net) (evs : list (bytes * NetEvent)) : option Net :=
  match evs with
  | [] => Some n
  | e :: evs' => match net_step n e with Some n' => run n' evs' | None => None end
  end.

(** ** Simulation *)
Context (iter_perm : forall m, iter_order m ≡ₚ map_to_list m).

Let V : list bytes := map did_scid (roots vset).
Let q : Z := quorum_threshold vset.

Record net_ok (n : Net) : Prop := {
  no_spec : exists f, vreach V q honest justified (mkVNet f (sent n)) /\
    forall i, honest i = true -> f i = abs (nodes n i);
  no_nodes i : honest i = true ->
    nodes n i = Round_new height vset (from_scid_unchecked i) \/
    round_ok vset height honest justified (sent n) (nodes n i);
  no_decisions i qc : (i, qc) ∈ decisions n ->
    certificate_backed vset height honest (sent n) qc;
}.

Lemma net_ok_init : net_ok net_init.
Proof.
  constructor; simpl.
  - exists (fun _ => vnode_init). split; [constructor|done].
  - by left.
  - intros i qc H. by apply elem_of_nil in H.
Qed.

Lemma elem_of_decided qc l : qc ∈ flat_map decided_of l -> Decided qc ∈ l.
Proof.
  rewrite !list_elem_of_In, in_flat_map. intros (a & Hin & Ha).
  destruct a; simpl in Ha; try done. destruct Ha as [<-|]; done.
Qed.

Lemma certificate_backed_mono sent sent' qc :
  sent ⊆ sent' -> certificate_backed vset height honest sent qc ->
  certificate_backed vset height honest sent' qc.
Proof. intros Hs (? & ? & ?). repeat split; try done. by eapply quorum_for_mono. Qed.

(** One machine step, if it refines the specification, keeps the network
    invariant. *)
Lemma net_ok_step n i s' a ds :
  net_ok n -> honest i = true ->
  refines vset height honest justified (sent n) (nodes n i) (s', a) ->
  (forall qc, qc ∈ ds -> Decided qc ∈ a) ->
  net_ok (mkNet (fun j => if bool_decide (j = i) then s' else nodes n j)
            (sent n ++ map (fun kv => (i, kv.1.1, kv.1.2, kv.2)) (votes_of a))
            (decisions n ++ map (fun qc => (i, qc)) ds)).
Proof.
  intros [(f & Hf & Habs) Hn Hd] Hi (Hok & Hrun & Hdec) Hds. simpl in *.
  assert (sent n ⊆ sent n ++ map (fun kv => (i, kv.1.1, kv.1.2, kv.2)) (votes_of a)) as Hsub
    by (intros x; rewrite elem_of_app; auto).
  rewrite <- (Habs i Hi) in Hrun.
  destruct (vrun_reach vset honest justified _ _ _ _ (mkVNet f (sent n)) i Hrun Hf Hi ltac:(done) eq_refl)
    as (g & Hg & Hgi & Hgj).
  constructor; simpl.
  - exists g. split; [done|]. intros j Hj. case_bool_decide as E; [by subst|].
    rewrite (Hgj j E). by apply Habs.
  - intros j Hj. case_bool_decide as E; [right; by eapply round_ok_mono|].
    destruct (Hn j Hj); [by left|right; by eapply round_ok_mono].
  - intros j qc [H|H]%elem_of_app; [eapply certificate_backed_mono; eauto|].
    apply list_elem_of_In, in_map_iff in H as (qc' & [= -> ->] & Hin).
    eapply certificate_backed_mono; [exact Hsub|]. by apply Hdec, Hds, list_elem_of_In.
Qed.

Lemma net_step_ok n e n' :
  (justified -> forall vr, vr_ok vr = true -> vr <= U32_MAX) ->
  net_ok n -> net_step n e = Some n' -> net_ok n'.
Proof.
  intros Hvr Hok. destruct e as [i ev]. unfold net_step. cbn [fst snd].
  destruct (honest i && _) eqn:Hg; [|done]. bool_prop.
  destruct (handle (nodes n i) ev) as [s' a] eqn:Hh. intros [= <-].
  apply net_ok_step; [done|done| |intros qc; apply elem_of_decided].
  rewrite <- Hh. clear Hh s' a.
  pose proof (no_nodes n Hok i ltac:(done)) as Hcase.
  assert (0 ∈ rd_started_rounds (nodes n i) ->
    round_ok vset height honest justified (sent n) (nodes n i)) as Hstarted.
  { intros Hz. destruct Hcase as [E|]; [|done]. rewrite E in Hz. simpl in Hz. set_solver. }
  destruct ev as [|r id vr valid|v|st r]; simpl in *; bool_prop.
  - destruct Hcase as [->|[]]; [by apply start_refines|].
    match goal with H : rd_started_rounds _ = ∅ |- _ => rewrite H in ro_started end. set_solver.
  - apply on_proposal_refines; auto.
  - assert (round_ok vset height honest justified (sent n) (nodes n i)) as Hr by auto.
    destruct (accept_vote (nodes n i) v oracle) eqn:Ha.
    2:{ unfold on_vote. rewrite Ha. by apply refines_refl. }
    apply on_vote_refines; [done|done|]. split; [done|]. intros x Hx. unfold x in *. clear x.
    assert (verifies v oracle = true) as Hv.
    { unfold accept_vote, verifies in *. repeat case_match; try done. }
    rewrite Hv, Hx in *. simpl in *.
    match goal with H : false = true \/ _ |- _ => destruct H as [?|H]; [done|] end. by bool_prop.
  - apply on_timeout_refines; auto.
Qed.

Lemma run_ok n evs n' :
  (justified -> forall vr, vr_ok vr = true -> vr <= U32_MAX) ->
  net_ok n -> run n evs = Some n' -> net_ok n'.
Proof.
  intros Hvr. revert n. induction evs as [|e evs IH]; intros n Hok H; simpl in H; [by simplify_eq|].
  destruct (net_step n e) as [n1|] eqn:E; [|done]. eapply IH; [|done]. by eapply net_step_ok.
Qed.

End Network.

(** [valid_round]s that survive the cast to [u32]. *)
Definition vr_in_range (vr : Z) : bool := vr <=? U32_MAX.

(** The number of validators that do not follow the protocol. *)
Definition byzantine (vset : ValidatorSet) (honest : bytes -> bool) : Z :=
  Z.of_nat (length (List.filter (fun d => negb (honest (did_scid d))) (roots vset))).

Lemma filter_map_scid vset honest :
  Z.of_nat (length (List.filter (fun x => negb (honest x)) (map did_scid (roots vset)))) = byzantine vset honest.
Proof.
  unfold byzantine. f_equal. induction (roots vset) as [|d l IH]; [done|]. simpl.
  destruct (honest (did_scid d)); simpl; by rewrite IH.
Qed.

(** C1: agreement: with fewer than a third of the validators Byzantine, and
    proposals whose [valid_round] fits 32 bits, no schedule of deliveries,
    timeouts and Byzantine messages makes two honest validators decide
    different blocks at one height, in the same round or in different ones. *)
Theorem agreement `{Primitives} iter_order vset height oracle honest evs net i qc j qc' :
  (forall m, iter_order m ≡ₚ map_to_list m) ->
  3 * byzantine vset honest < vs_len vset ->
  run iter_order oracle honest vr_in_range (net_init vset height) evs = Some net ->
  (i, qc) ∈ decisions net -> (j, qc') ∈ decisions net ->
  qc_block_hash qc = qc_block_hash qc'.
Proof.
  intros Hperm Hf Hrun Hi Hj.
  assert (net_ok vset height honest True net) as [(f & Hf' & _) _ Hd].
  { eapply run_ok; [exact Hperm| |apply net_ok_init|exact Hrun].
    intros _ vr Hvr. by apply Z.leb_le in Hvr. }
  destruct (Hd _ _ Hi) as (_ & N1 & Q1), (Hd _ _ Hj) as (_ & N2 & Q2).
  eapply (spec_agreement (map did_scid (roots vset)) (quorum_threshold vset) honest True);
    [|exact I|exact Hf'|exact Q1|exact Q2|done|done].
  intros Q Q'. intros. unfold quorum_threshold, vs_len in *.
  apply (quorums_share_honest (map did_scid (roots vset)) honest); rewrite ?length_map, ?filter_map_scid; auto.
Qed.

(** C2: an honest validator never equivocates: in every schedule of
    deliveries, timeouts and Byzantine messages, whatever [valid_round] the
    proposals carry ([vr_ok] is arbitrary), it signs at most one value per
    round and phase, so no evidence of double voting against it can ever be
    assembled from its votes. *)
Theorem honest_never_equivocates `{Primitives} iter_order vset height oracle honest vr_ok evs net i k r v v' :
  (forall m, iter_order m ≡ₚ map_to_list m) ->
  run iter_order oracle honest vr_ok (net_init vset height) evs = Some net ->
  honest i = true -> (i, k, r, v) ∈ sent net -> (i, k, r, v') ∈ sent net -> v = v'.
Proof.
  intros Hperm Hrun Hi H1 H2.
  assert (net_ok vset height honest False net) as [(f & Hf & _) _ _].
  { eapply run_ok; [exact Hperm|done|apply net_ok_init|exact Hrun]. }
  exact (ni_once _ _ _ _ _ _ _ (vreach_inv _ _ _ _ _ Hf i Hi) _ _ _ _ H1 H2).
Qed.
