(* ===== verification/Certificates.v ===== *)
(** * Certificates: what a round machine decides, the chain accepts

    Invariant of one machine over any sequence of its inputs: for every round
    and block, the kept precommit votes are valid, of different validators,
    and exactly those counted.  Hence a certificate the machine decides on
    passes [Chain.verify_finality] with the same validators and oracle, and
    the machine decides at most once. *)

From Stdlib Require Import ZArith Lia.
From stdpp Require Import base list gmap sets.
From S2P Require Import Prelude Codec Crypto Identity Kel KelFacts KelTheorems Chain ChainTheorems Round VotingSpec RoundRefines RoundFacts Agreement.
Open Scope Z_scope.

Section Certificates.
Context {P : Primitives}.
Context (iter_order : gmap Z ProposalInfo -> list (Z * ProposalInfo)).
Context (iter_perm : forall m, iter_order m ≡ₚ map_to_list m).
Context (vset : ValidatorSet) (height : Z) (oracle : ValidatorOracle).

(** A precommit for block [id] in round [r] that [accept_vote] took. *)
Definition kept (r : Z) (id : bytes) (v : Vote) : Prop :=
  v_kind v = Precommit /\ v_height v = height /\ v_round v = r /\ v_block_hash v = id /\
  contains vset (v_validator_root v) = true /\ check_vote oracle v = Ok tt.

Definition tally_cert (r : Z) (t : RoundVotes) : Prop :=
  forall id,
    let vs := default [] (precommit_votes t !! id) in
    Forall (kept r id) vs /\ NoDup (map (fun v => did_scid (v_validator_root v)) vs) /\
    (default ∅ (precommits t !! id) : gset bytes) =
      list_to_set (map (fun v => did_scid (v_validator_root v)) vs).

Definition cert_ok (s : Round) : Prop :=
  rd_height s = height /\ rd_validators s = vset /\
  forall r t, rd_votes s !! r = Some t -> tally_cert r t.

Lemma tally_cert_empty r : tally_cert r no_votes.
Proof. intros id. simpl. rewrite !lookup_empty. simpl. repeat split; try constructor. Qed.

Lemma check_vote_accept s v : accept_vote s v oracle = true ->
  v_height v = rd_height s /\ contains (rd_validators s) (v_validator_root v) = true /\
  check_vote oracle v = Ok tt.
Proof.
  unfold accept_vote, check_vote. intros H.
  destruct (negb (v_height v =? rd_height s)) eqn:Hh; [done|].
  destruct (contains (rd_validators s) (v_validator_root v)) eqn:Hc; [|done]. bool_prop.
  destruct (oracle (v_validator_root v)); [|done]. destruct (oracle (v_validator_device v)); [|done].
  simpl. simpl in H. apply is_ok_unit in H. done.
Qed.

Lemma tally_cert_add r t v :
  tally_cert r t -> kept r (v_block_hash v) v -> tally_cert r (tally_vote t v (did_scid (v_validator_root v))).
Proof.
  intros Ht Hk id. pose proof Hk as (Hkind & _). unfold tally_vote. rewrite Hkind. simpl.
  set (x := did_scid (v_validator_root v)) in *.
  destruct (Ht (v_block_hash v)) as (Hf & Hn & He). unfold add_to.
  case_bool_decide as Hx.
  - destruct (decide (id = v_block_hash v)) as [->|Hne].
    + rewrite lookup_insert_eq. simpl. split; [done|]. split; [done|].
      rewrite He in Hx |- *. set_solver.
    + rewrite lookup_insert_ne by done. apply Ht.
  - destruct (decide (id = v_block_hash v)) as [->|Hne].
    + rewrite !lookup_insert_eq. cbn [default from_option id].
      rewrite map_app. split; [apply Forall_app; split; [done|by apply Forall_singleton]|].
      split; [|simpl; rewrite list_to_set_app_L, He; simpl; set_solver].
      apply NoDup_app. split; [done|]. split; [|apply NoDup_singleton].
      intros y Hy Hy'. apply list_elem_of_singleton in Hy' as ->. apply Hx. rewrite He.
      by apply elem_of_list_to_set.
    + rewrite !lookup_insert_ne by done. apply Ht.
Qed.

Lemma cert_ok_same s s' : same_messages s s' -> cert_ok s -> cert_ok s'.
Proof. intros (H1 & H2 & H3 & H4). unfold cert_ok. by rewrite H1, H2, H4. Qed.

(** ** The decided certificate verifies *)
Lemma count_kept qc vs counted :
  qc_height qc = height ->
  Forall (kept (qc_round qc) (qc_block_hash qc)) vs ->
  NoDup (counted ++ map (fun v => did_scid (v_validator_root v)) vs) ->
  fold_left (count_vote qc vset oracle) vs counted =
  counted ++ map (fun v => did_scid (v_validator_root v)) vs.
Proof.
  intros Hh. revert counted. induction vs as [|v vs IH]; intros counted Hk Hn; simpl; [by rewrite app_nil_r|].
  apply Forall_cons in Hk as [(K1 & K2 & K3 & K4 & K5 & K6) Hk].
  assert (count_vote qc vset oracle counted v = counted ++ [did_scid (v_validator_root v)]) as ->.
  { unfold count_vote. rewrite (bool_decide_eq_true_2 _ K1). simpl.
    rewrite K2, K3, Hh, !Z.eqb_refl, (bool_decide_eq_true_2 _ K4), K5. simpl.
    rewrite bool_decide_eq_false_2.
    2:{ apply NoDup_app in Hn as (_ & Hd & _). intros Hin. apply (Hd _ Hin). left. }
    unfold check_vote in K6. destruct (oracle (v_validator_root v)); [|done].
    destruct (oracle (v_validator_device v)); [|done]. simpl in K6. by rewrite K6. }
  rewrite IH; [by rewrite <- (assoc_L (++))|done|]. by rewrite <- (assoc_L (++)).
Qed.

Lemma decision_verifies s qc :
  vs_len vset <= MAX_VALIDATORS -> NoDup (map did_scid (roots vset)) ->
  cert_ok s -> decision_of s qc ->
  exists n, verify_finality qc vset oracle = Ok n /\ quorum_threshold vset <= n.
Proof.
  intros Hlen Hnd (Hh & Hvs & Hc) (p & t & Hp & _ & Ht & Hq & E).
  destruct (Hc _ _ Ht (p_id p)) as (Hk & Hn & Hs).
  assert (qc_height qc = height) as Hqh by (by rewrite E, Hh).
  assert (qc_block_hash qc = p_id p) as Hqb by (by rewrite E).
  assert (qc_votes qc = default [] (precommit_votes t !! p_id p)) as Hqv by (by rewrite E).
  rewrite <- Hqb, <- Hqv in *. clear E Hqv Hqb.
  set (ids := map (fun v => did_scid (v_validator_root v)) (qc_votes qc)) in *.
  assert (precommit_count t (qc_block_hash qc) = Z.of_nat (length ids)) as Hcount.
  { unfold precommit_count, set_len. destruct (precommits t !! qc_block_hash qc) as [S|] eqn:ES; simpl in Hs.
    - rewrite Hs. f_equal. by apply size_list_to_set.
    - destruct ids as [|y l]; [done|]. exfalso. assert (y ∈ (∅ : gset bytes)); [rewrite Hs; set_solver|set_solver]. }
  assert (Z.of_nat (length ids) <= vs_len vset) as Hle.
  { unfold vs_len. apply inj_le. rewrite <- (length_map did_scid (roots vset)).
    apply submseteq_length, NoDup_submseteq; [done|]. intros y Hy.
    unfold ids in Hy. apply list_elem_of_In, in_map_iff in Hy as (v & <- & Hin).
    rewrite Forall_forall in Hk. apply list_elem_of_In, Hk in Hin as (_ & _ & _ & _ & Hcv & _).
    by apply contains_scid. }
  assert (Z.of_nat (length (qc_votes qc)) = Z.of_nat (length ids)) as Hl by (unfold ids; by rewrite length_map).
  unfold quorum in Hq. rewrite Hvs, Hcount in Hq.
  exists (Z.of_nat (length ids)). split; [|done]. unfold verify_finality, fail_if.
  assert (MAX_VOTES_PER_CERTIFICATE <? Z.of_nat (length (qc_votes qc)) = false) as ->.
  { apply Z.ltb_ge. unfold MAX_VOTES_PER_CERTIFICATE, MAX_VALIDATORS in *. lia. }
  rewrite count_kept by done. fold ids. simpl. by rewrite (proj2 (Z.ltb_ge _ _) Hq).
Qed.

(** ** Every input keeps the invariant *)
Definition decisions_verify (a : list Action) : Prop :=
  forall qc, Decided qc ∈ a ->
    exists n, verify_finality qc vset oracle = Ok n /\ quorum_threshold vset <= n.

Context (vset_len : vs_len vset <= MAX_VALIDATORS) (vset_nodup : NoDup (map did_scid (roots vset))).

Lemma evaluate_cert s :
  cert_ok s -> cert_ok (evaluate iter_order s).1 /\ decisions_verify (evaluate iter_order s).2.
Proof.
  intros Hs. destruct (evaluate_messages iter_order iter_perm s) as (Hm & Hd & _).
  split; [by eapply cert_ok_same|]. intros qc Hq. apply (decision_verifies s); auto.
Qed.

Lemma then_evaluate_cert out :
  cert_ok out.1 -> decisions_verify out.2 ->
  cert_ok (then_evaluate iter_order out).1 /\ decisions_verify (then_evaluate iter_order out).2.
Proof.
  intros Hs Hd. unfold then_evaluate. destruct (evaluate_cert out.1 Hs) as [H1 H2].
  destruct (evaluate iter_order out.1) as [s2 a2]. simpl in *. split; [done|].
  intros qc [H|H]%elem_of_app; auto.
Qed.

Lemma quiet_verify a : (forall qc, Decided qc ∉ a) -> decisions_verify a.
Proof. intros H qc Hq. by apply H in Hq. Qed.

Lemma enter_round_cert s r : cert_ok s ->
  cert_ok (enter_round_core s r).1 /\ decisions_verify (enter_round_core s r).2.
Proof.
  intros Hs. unfold enter_round_core. destruct (_ || _).
  { split; [done|]. apply quiet_verify. intros qc Hq. by apply elem_of_nil in Hq. }
  repeat case_match; (split; [exact Hs|]); apply quiet_verify; simpl;
    intros qc Hq; by apply list_elem_of_singleton in Hq.
Qed.

Lemma on_vote_cert s v : cert_ok s ->
  cert_ok (on_vote iter_order s v oracle).1 /\ decisions_verify (on_vote iter_order s v oracle).2.
Proof.
  intros Hs. unfold on_vote. destruct (accept_vote s v oracle) eqn:Ha.
  2:{ split; [done|]. apply quiet_verify. intros qc Hq. by apply elem_of_nil in Hq. }
  apply check_vote_accept in Ha as (Hh & Hc & Hv). destruct Hs as (H1 & H2 & H3). simpl.
  set (t := default no_votes (rd_votes s !! v_round v)).
  assert (tally_cert (v_round v) t) as Ht.
  { unfold t. destruct (rd_votes s !! v_round v) eqn:E; [by apply H3|apply tally_cert_empty]. }
  assert (forall t', tally_cert (v_round v) t' ->
    cert_ok (set_messages s (rd_proposals s) (<[v_round v := t']> (rd_votes s)))) as Hput.
  { intros t' Ht'. split; [done|]. split; [done|]. simpl. intros r u.
    destruct (decide (r = v_round v)) as [->|]; [rewrite lookup_insert_eq; by intros [= <-]|].
    rewrite lookup_insert_ne by done. apply H3. }
  match goal with |- context [match ?m with Some prior => _ | None => _ end] => destruct m as [prior|] end.
  - case_bool_decide; (split; [by apply Hput|]); apply quiet_verify; simpl;
      intros qc Hq; [by apply elem_of_nil in Hq|by apply list_elem_of_singleton in Hq].
  - apply evaluate_cert, Hput.
    destruct (v_kind v) eqn:Hk; [unfold tally_vote; rewrite Hk; exact Ht|].
    apply (tally_cert_add (v_round v) (mkRoundVotes _ _ _ _ _ _)); [exact Ht|].
    rewrite H1 in Hh. rewrite H2 in Hc. by repeat split.
Qed.

Lemma handle_cert s ev : cert_ok s ->
  cert_ok (handle iter_order oracle s ev).1 /\ decisions_verify (handle iter_order oracle s ev).2.
Proof.
  intros Hs. assert (forall a x, (forall qc, a <> Decided qc) -> decisions_verify x -> decisions_verify (a :: x)) as Hcons.
  { intros a x Ha Hx qc [H|H]%elem_of_cons; [by destruct (Ha qc)|auto]. }
  assert (decisions_verify []) as Hnil by (apply quiet_verify; intros qc Hq; by apply elem_of_nil in Hq).
  destruct ev as [|r id vr valid|v|st r]; simpl.
  - unfold start. destruct (enter_round_cert s 0 Hs). by apply then_evaluate_cert.
  - by apply evaluate_cert.
  - by apply on_vote_cert.
  - unfold on_timeout. destruct (_ || _); [done|]. destruct st.
    + case_bool_decide; [|done]. apply then_evaluate_cert; [|by apply Hcons].
      unfold prevote. simpl. by destruct (r =? rd_round s).
    + case_bool_decide; [|done]. apply then_evaluate_cert; [|by apply Hcons].
      unfold precommit. simpl. by destruct (r =? rd_round s).
    + destruct (enter_round_cert s (as_u32 (r + 1)) Hs). by apply then_evaluate_cert.
Qed.

(** One machine fed a sequence of inputs, with everything it emitted. *)
Fixpoint machine_run (s : Round) (evs : list NetEvent) : Round * list Action :=
  match evs with
  | [] => (s, [])
  | ev :: evs' =>
      let '(s1, a1) := handle iter_order oracle s ev in
      let '(s2, a2) := machine_run s1 evs' in (s2, a1 ++ a2)
  end.

Lemma machine_run_cert s evs : cert_ok s ->
  cert_ok (machine_run s evs).1 /\ decisions_verify (machine_run s evs).2.
Proof.
  revert s. induction evs as [|ev evs IH]; intros s Hs; simpl.
  { split; [done|]. apply quiet_verify. intros qc Hq. by apply elem_of_nil in Hq. }
  destruct (handle_cert s ev Hs) as [H1 H2]. destruct (handle iter_order oracle s ev) as [s1 a1].
  destruct (IH s1 H1) as [H3 H4]. destruct (machine_run s1 evs) as [s2 a2]. simpl in *.
  split; [done|]. intros qc [H|H]%elem_of_app; auto.
Qed.

End Certificates.

(** C3: whatever sequence of proposals, votes and timeouts a machine is fed,
    valid or not, a certificate it decides on is accepted by
    [verify_finality] with at least a quorum of distinct validators: the host
    never applies a block the ledger layer would refuse to finalize. *)
Theorem decided_certificate_verifies `{Primitives} iter_order oracle rs vset height local evs qc :
  (forall m, iter_order m ≡ₚ map_to_list m) ->
  ValidatorSet_new rs = Ok vset ->
  Decided qc ∈ (machine_run iter_order oracle (Round_new height vset local) evs).2 ->
  exists n, verify_finality qc vset oracle = Ok n /\ quorum_threshold vset <= n.
Proof.
  intros Hperm (_ & Hnd & Hlen)%ValidatorSet_new_inv Hq.
  destruct (machine_run_cert iter_order Hperm vset height oracle ltac:(lia) Hnd
    (Round_new height vset local) evs) as [_ Hd]; [|by apply Hd].
  split; [done|]. split; [done|]. simpl. intros r t Ht. by rewrite lookup_empty in Ht.
Qed.

(** * a round machine only acts on values its host vouched for

    For any predicate on block hashes that the host guarantees of the
    proposals it marks valid, everything the machine signs, re-proposes or
    decides, unless [NIL], satisfies it; and it decides its own height. *)


Section Sound.
Context {P : Primitives}.
Context (iter_order : gmap Z ProposalInfo -> list (Z * ProposalInfo)).
Context (iter_perm : forall m, iter_order m ≡ₚ map_to_list m).
Context (oracle : ValidatorOracle).
Context (V : bytes -> Prop) (H : Z).

Definition action_sound (a : Action) : Prop :=
  match a with
  | SignPrevote _ t | SignPrecommit _ t => t = NIL \/ V t
  | Propose _ (Some v) _ => V v
  | Decided qc => V (qc_block_hash qc) /\ qc_height qc = H
  | _ => True
  end.
Definition round_sound (s : Round) : Prop :=
  (forall r p, rd_proposals s !! r = Some p -> p_valid p = true -> V (p_id p)) /\
  (forall v, rd_valid_value s = Some v -> V v) /\ rd_height s = H.
Definition out_sound (out : Round * list Action) : Prop := round_sound out.1 /\ Forall action_sound out.2.

Lemma round_sound_new vs d : round_sound (Round_new H vs d).
Proof. split; [|done]. intros r p. cbn. by rewrite lookup_empty. Qed.
Lemma prevote_sound s r : round_sound s -> round_sound (prevote s r).
Proof. unfold prevote. by case_match. Qed.
Lemma precommit_sound s r : round_sound s -> round_sound (precommit s r).
Proof. unfold precommit. by case_match. Qed.
Lemma out_nil s : round_sound s -> out_sound (s, []).
Proof. by split. Qed.
Lemma out_one s a : round_sound s -> action_sound a -> out_sound (s, [a]).
Proof. intros. split; [done|]. by repeat constructor. Qed.
#[local] Hint Resolve out_nil out_one prevote_sound precommit_sound : core.

(** The target of a prevote: the proposal's id if it is valid, else nil. *)
Lemma target_sound s r p (c : bool) : round_sound s -> rd_proposals s !! r = Some p ->
  let t := if p_valid p && c then p_id p else NIL in t = NIL \/ V t.
Proof. intros [Hs _] Hp. cbv zeta. destruct (p_valid p) eqn:E; [|by left]. destruct c; [right; exact (Hs _ _ Hp E)|by left]. Qed.

Lemma enter_sound s r : round_sound s -> out_sound (enter_round_core s r).
Proof.
  intros Hs. unfold enter_round_core. case_match; [auto|]. case_match; [|by apply out_one].
  cbn [set_position set_guards rd_valid_value]. case_match eqn:Hv; (apply out_one; [exact Hs|]); [|done]. exact (proj1 (proj2 Hs) _ Hv).
Qed.
Lemma quorum_sound s : round_sound s -> out_sound (rule_prevote_quorum s).
Proof.
  intros Hs. unfold rule_prevote_quorum. case_match; [auto|]. case_match eqn:Hp; [|auto]. case_match eqn:Hv; [auto|]. case_match; [auto|].
  bool_prop. pose proof (proj1 Hs _ _ Hp Hv) as HV.
  assert (round_sound (set_valid (set_guards s (rd_prevote_timeout_armed s) (rd_precommit_timeout_armed s)
    (rd_prevote_quorum_seen s ∪ {[rd_round s]}) (rd_started_rounds s)) (p_id p) (rd_round s))) as Hset.
  { split; [apply Hs|]. split; [cbn; by intros v [= <-]|apply Hs]. }
  case_match; [|auto]. apply out_one; [|by right]. apply precommit_sound. exact Hset.
Qed.
Lemma decide_sound s : round_sound s -> out_sound (rule_decide iter_order s).
Proof.
  intros Hs. unfold rule_decide. destruct (List.find _ _) as [[r p]|] eqn:Hf; [|auto]. apply out_one; [exact Hs|]. cbn.
  apply List.find_some in Hf as [Hin Hd]. unfold decidable_at in Hd. cbn [snd fst] in Hd. bool_prop.
  rewrite <- list_elem_of_In, iter_perm, elem_of_map_to_list in Hin. split; [by eapply (proj1 Hs)|apply Hs].
Qed.
Lemma rules_sound f s : f ∈ rules iter_order -> round_sound s -> out_sound (f s).
Proof.
  intros Hf Hs. unfold rules in Hf. rewrite !elem_of_cons in Hf.
  destruct Hf as [->|[->|[->|[->|[->|[->|[->|[->|Hf]]]]]]]]; [..|by apply elem_of_nil in Hf].
  - unfold rule_propose_fresh. case_match; [auto|]. case_match eqn:Hp; [|auto]. case_match; [auto|].
    apply out_one; [auto|]. exact (target_sound s _ _ _ Hs Hp).
  - unfold rule_propose_polc. case_match; [auto|]. case_match eqn:Hp; [|auto]. case_match; [auto|]. case_match; [auto|].
    apply out_one; [auto|]. exact (target_sound s _ _ _ Hs Hp).
  - unfold rule_prevote_timeout. repeat case_match; auto. by apply out_one.
  - by apply quorum_sound.
  - unfold rule_prevote_nil. repeat case_match; auto. apply out_one; [auto|by left].
  - unfold rule_precommit_timeout. repeat case_match; auto. by apply out_one.
  - by apply decide_sound.
  - unfold rule_skip_round. case_match; [by apply enter_sound|auto].
Qed.

Lemma out_app a (out : Round * list Action) : Forall action_sound a -> out_sound out -> out_sound (out.1, a ++ out.2).
Proof. intros Ha [H1 H2]. split; [done|]. by apply Forall_app. Qed.
Lemma fold_sound fs acc : (forall f, f ∈ fs -> f ∈ rules iter_order) -> out_sound acc -> out_sound (fold_left run_rule fs acc).
Proof.
  revert acc. induction fs as [|f fs IH]; intros acc Hin Ha; [done|]. cbn [fold_left]. apply IH; [intros g Hg; apply Hin; by right|].
  unfold run_rule. pose proof (rules_sound f acc.1 ltac:(apply Hin; left) (proj1 Ha)) as Hf. destruct (f acc.1) as [s a].
  exact (out_app acc.2 (s, a) (proj2 Ha) Hf).
Qed.
Lemma eval_loop_sound fuel s : round_sound s -> out_sound (eval_loop iter_order fuel s).
Proof.
  revert s. induction fuel as [|fuel IH]; intros s Hs; [by apply out_nil|]. cbn [eval_loop].
  pose proof (fold_sound (rules iter_order) (s, []) (fun f H => H) (out_nil s Hs)) as Hp.
  change (out_sound (pass iter_order s)) in Hp. destruct (pass iter_order s) as [s1 a1]. case_match; [done|].
  pose proof (IH s1 (proj1 Hp)) as H1. destruct (eval_loop iter_order fuel s1) as [s2 a2]. exact (out_app a1 (s2, a2) (proj2 Hp) H1).
Qed.
Lemma evaluate_sound s : round_sound s -> out_sound (evaluate iter_order s).
Proof. intros Hs. unfold evaluate. case_match; [auto|]. by apply eval_loop_sound. Qed.
Lemma then_evaluate_sound out : out_sound out -> out_sound (then_evaluate iter_order out).
Proof.
  intros [H1 H2]. unfold then_evaluate. pose proof (evaluate_sound _ H1) as He. destruct (evaluate iter_order out.1) as [s a].
  exact (out_app out.2 (s, a) H2 He).
Qed.
Lemma messages_sound s p v : (forall r i, p !! r = Some i -> p_valid i = true -> V (p_id i)) -> round_sound s -> round_sound (set_messages s p v).
Proof. intros Hp (_ & Hv & Hh). by split. Qed.

(** Every input keeps what the host vouched for. *)
Lemma handle_sound s ev : round_sound s ->
  match ev with EvProposal _ id _ valid => valid = true -> V id | _ => True end ->
  out_sound (handle iter_order oracle s ev).
Proof.
  intros Hs Hev. destruct ev as [|r id vr valid|v|st r]; cbn [handle].
  - by apply then_evaluate_sound, enter_sound.
  - apply evaluate_sound, messages_sound; [|done]. intros r' i. destruct (rd_proposals s !! r); [apply Hs|].
    destruct (decide (r' = r)) as [->|]; [rewrite lookup_insert_eq; intros [= <-]; exact Hev|rewrite lookup_insert_ne by done; apply Hs].
  - unfold on_vote. cbv zeta. case_match; [auto|]. repeat case_match; try (apply out_nil, messages_sound; [apply Hs|done]);
      try (apply out_one; [apply messages_sound; [apply Hs|done]|done]); apply evaluate_sound, messages_sound; try done; apply Hs.
  - unfold on_timeout. case_match; [auto|]. destruct st.
    + case_match; [|auto]. apply then_evaluate_sound, out_one; [auto|by left].
    + case_match; [|auto]. apply then_evaluate_sound, out_one; [auto|by left].
    + by apply then_evaluate_sound, enter_sound.
Qed.
End Sound.
