(* ===== verification/RoundMeasure.v ===== *)
(** * RoundMeasure: what one input of a round machine can still set off

    A potential of the machine and a weight of its actions such that
    evaluation pays for every action it emits; the rounds it signs in never
    lie ahead of it; and a decision takes a precommit of another validator,
    if a quorum is more than one. *)

From Stdlib Require Import ZArith Lia.
From stdpp Require Import base list gmap sets.
From S2P Require Import Prelude Codec Crypto Identity Kel KelTheorems Chain ChainTheorems Round.
From S2P Require Import VotingSpec RoundRefines RoundFacts Agreement.
Open Scope Z_scope.

Definition weight (a : Action) : nat := match a with SignPrevote _ _ | SignPrecommit _ _ => 2 | _ => 1 end.
Definition total_weight (l : list Action) : nat := list_sum (map weight l).
Definition potential (s : Round) : nat := (2 * (eval_measure s + if rd_decided s then 0 else 1))%nat.
(** The machine never signs for a round ahead of its own. *)
Definition not_ahead (s : Round) (a : Action) : Prop :=
  match a with SignPrevote r _ | SignPrecommit r _ => r <= rd_round s | _ => True end.

Lemma total_weight_app a b : total_weight (a ++ b) = (total_weight a + total_weight b)%nat.
Proof. unfold total_weight. by rewrite map_app, list_sum_app. Qed.
Lemma total_weight_cons a l : total_weight (a :: l) = (weight a + total_weight l)%nat.
Proof. done. Qed.

Section Measure.
Context {P : Primitives}.
Context (iter_order : gmap Z ProposalInfo -> list (Z * ProposalInfo)).
Context (iter_perm : forall m, iter_order m ≡ₚ map_to_list m).

Record charged (s : Round) (out : Round * list Action) : Prop := {
  ch_pays : (total_weight out.2 + potential out.1 <= potential s)%nat;
  ch_round : rd_round s <= rd_round out.1;
  ch_behind : Forall (not_ahead out.1) out.2;
}.
Lemma charged_nil s : charged s (s, []).
Proof. split; [done|done|constructor]. Qed.
Lemma charged_trans s s1 a1 s2 a2 : charged s (s1, a1) -> charged s1 (s2, a2) -> charged s (s2, a1 ++ a2).
Proof.
  intros [H1 H2 H3] [G1 G2 G3]. cbn [fst snd] in *. split; cbn [fst snd]; [rewrite total_weight_app; lia|lia|].
  apply Forall_app. split; [|done]. eapply Forall_impl; [exact H3|]. intros [] Ha; cbn in *; lia || done.
Qed.

(** At most one action, of the current round. *)
Definition single (s : Round) (out : Round * list Action) : Prop :=
  rd_round s <= rd_round out.1 /\ (length out.2 <= 1)%nat /\ Forall (not_ahead out.1) out.2.
Lemma single_nil s : single s (s, []).
Proof. split; [cbn; lia|]. split; [cbn; lia|constructor]. Qed.
Lemma rules_single f s : f ∈ rules iter_order -> single s (f s).
Proof.
  intros Hf. unfold rules in Hf. rewrite !elem_of_cons in Hf.
  destruct Hf as [->|[->|[->|[->|[->|[->|[->|[->|Hf]]]]]]]]; [..|by apply elem_of_nil in Hf].
  8:{ unfold rule_skip_round. destruct (min_of (skip_candidates s)) as [r|] eqn:Hm; [|apply single_nil].
      apply min_of_elem, skip_candidates_elem in Hm as (Hr & _). unfold enter_round_core. destruct (_ || _); [apply single_nil|].
      unfold single. repeat case_match; cbn; (split; [lia|split; [lia|by repeat constructor]]). }
  all: unfold rule_propose_fresh, rule_propose_polc, rule_prevote_timeout, rule_prevote_quorum, rule_prevote_nil, rule_precommit_timeout,
    rule_decide, prevote, precommit, single; cbn [rd_round set_voted set_locked set_valid set_guards]; rewrite ?Z.eqb_refl;
    repeat case_match; cbn; (split; [lia|split; [lia|repeat constructor; cbn; lia]]).
Qed.
Lemma weight_single l : (length l <= 1)%nat -> (total_weight l <= 2)%nat /\ (l = [] -> total_weight l = 0%nat).
Proof. destruct l as [|a [|b l]]; cbn; [lia| |lia]. intros _. split; [destruct a; cbn; lia|done]. Qed.

(** The rules but [rule_decide] leave an undecided machine undecided. *)
Definition early_rules : list (Round -> Round * list Action) :=
  [rule_propose_fresh; rule_propose_polc; rule_prevote_timeout; rule_prevote_quorum; rule_prevote_nil; rule_precommit_timeout].
Definition other_rules : list (Round -> Round * list Action) := early_rules ++ [rule_skip_round].
Lemma other_is_rule f : f ∈ other_rules -> f ∈ rules iter_order.
Proof. unfold other_rules, early_rules, rules. cbn [app]. rewrite !elem_of_cons. tauto. Qed.
Lemma stays_undecided f s : f ∈ other_rules -> rd_decided s = false -> rd_decided (f s).1 = false.
Proof.
  intros Hf Hd. unfold other_rules, early_rules in Hf. cbn [app] in Hf. rewrite !elem_of_cons in Hf.
  destruct Hf as [->|[->|[->|[->|[->|[->|[->|Hf]]]]]]]; [..|by apply elem_of_nil in Hf];
    unfold rule_propose_fresh, rule_propose_polc, rule_prevote_timeout, rule_prevote_quorum, rule_prevote_nil, rule_precommit_timeout,
      rule_skip_round, enter_round_core, prevote, precommit; cbn [rd_round set_voted set_locked set_valid set_guards]; rewrite ?Z.eqb_refl, ?Hd;
    repeat case_match; cbn; done.
Qed.
Lemma rule_charged f s : f ∈ other_rules -> rd_decided s = false -> charged s (f s).
Proof.
  intros Hf Hd. pose proof (stays_undecided f s Hf Hd) as Hu. apply other_is_rule in Hf.
  pose proof (rules_progress iter_order f s Hf) as Hp. destruct (rules_single f s Hf) as (H1 & H2 & H3). split; [|done|done]. unfold potential. rewrite Hu, Hd.
  destruct Hp as [Hp|[Hp1 Hp2]]; [congruence|]. destruct (weight_single _ H2) as [W1 W2].
  destruct (f s) as [s' [|a l]]; cbn [fst snd] in *; [rewrite W2 by done; lia|]. specialize (Hp2 ltac:(done)). lia.
Qed.
Lemma decide_charged s : rd_decided s = false -> charged s (rule_decide iter_order s).
Proof.
  intros Hd. unfold rule_decide. destruct (List.find _ _) as [[r p]|]; [|apply charged_nil]. split; cbn [fst snd]; [|done|by repeat constructor].
  unfold potential. change (rd_decided (set_decided s)) with true. change (eval_measure (set_decided s)) with (eval_measure s).
  change (total_weight [Decided (mkQC (rd_height s) r (p_id p) match rd_votes s !! r with
    Some t => default [] (precommit_votes t !! p_id p) | None => [] end)]) with 1%nat. rewrite Hd. lia.
Qed.
Lemma run_charged s acc f : charged s acc -> charged acc.1 (f acc.1) -> charged s (run_rule acc f).
Proof.
  destruct acc as [s1 a1]. unfold run_rule. cbn [fst snd]. destruct (f s1) as [s2 a2]. apply charged_trans.
Qed.
Lemma fold_charged s acc fs : (forall f, f ∈ fs -> f ∈ other_rules) -> rd_decided acc.1 = false ->
  charged s acc -> charged s (fold_left run_rule fs acc) /\ rd_decided (fold_left run_rule fs acc).1 = false.
Proof.
  revert acc. induction fs as [|f fs IH]; intros acc Hin Hd Hc; [done|]. cbn [fold_left]. pose proof (Hin f ltac:(left)) as Hf.
  apply IH; [intros g Hg; apply Hin; by right| |].
  - pose proof (stays_undecided f acc.1 Hf Hd) as Hu. unfold run_rule. by destruct (f acc.1).
  - apply run_charged; [done|]. by apply rule_charged.
Qed.

Lemma pass_charged s : rd_decided s = false -> charged s (pass iter_order s).
Proof.
  intros Hd. unfold pass, rules. change [rule_propose_fresh; rule_propose_polc; rule_prevote_timeout; rule_prevote_quorum;
    rule_prevote_nil; rule_precommit_timeout; rule_decide iter_order; rule_skip_round]
    with (early_rules ++ [rule_decide iter_order; rule_skip_round]).
  rewrite fold_left_app. destruct (fold_charged s (s, []) early_rules) as [H1 H2]; [|done|apply charged_nil|].
  { intros f Hf. unfold other_rules. apply elem_of_app. by left. }
  set (acc := fold_left run_rule early_rules (s, [])) in *. cbn [fold_left].
  pose proof (run_charged s acc _ H1 (decide_charged _ H2)) as H3. set (acc2 := run_rule acc (rule_decide iter_order)) in *.
  apply run_charged; [done|]. destruct (rd_decided acc2.1) eqn:E.
  - unfold rule_skip_round, enter_round_core. rewrite E. cbn [orb]. case_match; apply charged_nil.
  - apply rule_charged; [|done]. unfold other_rules, early_rules. cbn [app]. rewrite !elem_of_cons. tauto.
Qed.
Lemma eval_loop_charged fuel s : rd_decided s = false -> charged s (eval_loop iter_order fuel s).
Proof.
  revert s. induction fuel as [|fuel IH]; intros s Hd; [apply charged_nil|]. cbn [eval_loop].
  pose proof (pass_charged s Hd) as Hp. destruct (pass iter_order s) as [s1 a1]. destruct (rd_decided s1) eqn:E; cbn [orb]; [done|].
  case_match; [done|]. pose proof (IH s1 E) as H1. destruct (eval_loop iter_order fuel s1) as [s2 a2]. by eapply charged_trans.
Qed.
Lemma evaluate_charged s : charged s (evaluate iter_order s).
Proof. unfold evaluate. destruct (rd_decided s) eqn:E; [apply charged_nil|by apply eval_loop_charged]. Qed.

(** ** Messages cost nothing, but for a vote ahead of the machine *)
Lemma filter_length_perm {B} (f : B -> bool) l l' : l ≡ₚ l' -> length (List.filter f l) = length (List.filter f l').
Proof. induction 1; cbn; repeat case_match; cbn; congruence. Qed.
Lemma later_rounds_insert s p r t : r <= rd_round s -> later_rounds (set_messages s p (<[r:=t]> (rd_votes s))) = later_rounds s.
Proof.
  intros Hr. unfold later_rounds. cbn [rd_round rd_votes set_messages].
  assert (forall m : gmap Z RoundVotes, length (List.filter (fun r => rd_round s <? r) (map fst (map_to_list m))) =
    length (List.filter (fun r => rd_round s <? r) (map fst (map_to_list (delete r m))))) as Hdel.
  { intros m. destruct (m !! r) as [t'|] eqn:E; [|by rewrite delete_id].
    rewrite (filter_length_perm _ _ _ (Permutation_map fst (symmetry (map_to_list_delete m r t' E)))). cbn [map fst List.filter].
    by rewrite (proj2 (Z.ltb_ge _ _) Hr). }
  rewrite (Hdel (<[r:=t]> _)), (Hdel (rd_votes s)). by rewrite delete_insert_eq.
Qed.
Lemma put_potential s p r t : r <= rd_round s -> potential (set_messages s p (<[r:=t]> (rd_votes s))) = potential s.
Proof. intros Hr. unfold potential, eval_measure. by rewrite later_rounds_insert. Qed.

(** What an own proposal or vote can set off: no more than the potential paid
    for, and at worst one report of equivocation. *)
Lemma on_proposal_charged s r id vr valid : charged s (on_proposal iter_order s r id vr valid).
Proof.
  unfold on_proposal. pose proof (evaluate_charged (set_messages s (match rd_proposals s !! r with Some _ => rd_proposals s
    | None => <[r:=mkProposalInfo id vr valid]> (rd_proposals s) end) (rd_votes s))) as [H1 H2 H3]. by split.
Qed.
Lemma on_vote_charged s v oracle : v_round v <= rd_round s ->
  let out := on_vote iter_order s v oracle in
  (total_weight out.2 + potential out.1 <= S (potential s))%nat /\ rd_round s <= rd_round out.1 /\ Forall (not_ahead out.1) out.2.
Proof.
  intros Hr. cbv zeta. unfold on_vote. destruct (negb _); [cbn; split; [lia|split; [lia|constructor]]|].
  set (t := mkRoundVotes _ _ _ _ _ _). destruct (_ !! did_scid _) as [prior|].
  - case_bool_decide; cbn [fst snd]; rewrite put_potential by done; cbn; (split; [lia|split; [lia|repeat constructor]]).
  - match goal with |- context [evaluate _ ?x] => pose proof (evaluate_charged x) as [H1 H2 H3] end.
    rewrite put_potential in H1 by done. cbn in H2. split; [lia|]. by split.
Qed.
End Measure.

(** ** A decision needs another validator *)
Section Foreign.
Context {P : Primitives}.
Context (iter_order : gmap Z ProposalInfo -> list (Z * ProposalInfo)).
Context (iter_perm : forall m, iter_order m ≡ₚ map_to_list m).
Context (oracle : ValidatorOracle) (vs : ValidatorSet) (me : bytes).
Context (several : 2 <= quorum_threshold vs).

(** Some precommit that is not this validator's is counted. *)
Definition foreign (s : Round) : Prop :=
  exists r t id x, rd_votes s !! r = Some t /\ x ∈ (default ∅ (precommits t !! id) : gset bytes) /\ x <> me.
Definition ready (s : Round) (a : Action) : Prop := not_ahead s a /\ match a with Decided _ => foreign s | _ => True end.

Lemma foreign_votes s s' : rd_votes s' = rd_votes s -> foreign s' <-> foreign s.
Proof. intros E. unfold foreign. by rewrite E. Qed.
Lemma ready_mono s s' a : rd_round s <= rd_round s' -> (foreign s -> foreign s') -> ready s a -> ready s' a.
Proof. intros Hr Hf [H1 H2]. split; [destruct a; cbn in *; done || lia|]. destruct a; auto. Qed.
Lemma decision_foreign s qc : rd_validators s = vs -> decision_of s qc -> foreign s.
Proof.
  intros Hv (p & t & _ & _ & Ht & Hq & _). unfold quorum in Hq. rewrite Hv in Hq. unfold precommit_count, set_len in Hq.
  destruct (precommits t !! p_id p) as [S|] eqn:E; [|lia].
  destruct (decide (S ⊆ {[me]})) as [Hs|Hs].
  - apply subseteq_size in Hs. rewrite size_singleton in Hs. lia.
  - assert (exists x, x ∈ S /\ x <> me) as (x & Hx & Hne).
    { destruct (decide (S ∖ {[me]} = ∅)) as [He|He]; [exfalso|].
      - apply Hs. intros x Hx. destruct (decide (x = me)) as [->|]; [set_solver|]. assert (x ∈ S ∖ {[me]}) as Hin by set_solver.
        rewrite He in Hin. by apply elem_of_empty in Hin.
      - apply set_choose_L in He as [x Hx]. exists x. apply elem_of_difference in Hx as [? ?]. split; [done|]. intros ->. set_solver. }
    exists (qc_round qc), t, (p_id p), x. rewrite E. done.
Qed.

Lemma ready_ahead s a : not_ahead s a -> (forall qc, a <> Decided qc) -> ready s a.
Proof. intros H Hd. split; [done|]. destruct a; try done. by destruct (Hd qc). Qed.
(** What every input does to the sets counted, and to what it emits. *)
Record handled (s : Round) (own : Prop) (out : Round * list Action) : Prop := {
  hd_ready : Forall (ready out.1) out.2;
  hd_vs : rd_validators out.1 = vs;
  hd_own : own -> foreign out.1 -> foreign s;
  hd_keeps : foreign s -> foreign out.1;
}.
Lemma handled_nil s own : rd_validators s = vs -> handled s own (s, []).
Proof. intros Hv. split; [constructor|done|done|done]. Qed.
Lemma evaluate_handled s0 s own : rd_validators s = vs -> (own -> foreign s -> foreign s0) -> (foreign s0 -> foreign s) ->
  handled s0 own (evaluate iter_order s).
Proof.
  intros Hv Hown Hk. destruct (evaluate_messages iter_order iter_perm s) as ((_ & Ev & _ & Em) & Hd & _).
  pose proof (evaluate_charged iter_order s) as [_ _ Hb].
  pose proof (foreign_votes _ _ Em) as Hf. split; [|congruence|by intros ? ?%Hf; apply Hown|by intros ?%Hk; apply Hf].
  apply Forall_forall. intros a Ha. rewrite Forall_forall in Hb. split; [by apply Hb|]. destruct a; try done.
  apply Hf. by eapply decision_foreign, Hd.
Qed.
Lemma then_handled s0 s1 a1 : rd_validators s1 = vs -> rd_votes s1 = rd_votes s0 -> Forall (not_ahead s1) a1 ->
  (forall qc, Decided qc ∉ a1) -> handled s0 True (then_evaluate iter_order (s1, a1)).
Proof.
  intros Hv Hm Ha Hn. pose proof (foreign_votes _ _ Hm) as Hf.
  pose proof (evaluate_handled s0 s1 True Hv (fun _ => proj1 Hf) (proj2 Hf)) as [H1 H2 H3 H4].
  pose proof (evaluate_charged iter_order s1) as [_ Hr _]. unfold then_evaluate. cbn [fst snd].
  destruct (evaluate iter_order s1) as [s2 a2]. split; cbn [fst snd] in *; try done. apply Forall_app. split; [|done].
  apply Forall_forall. intros a Hin. rewrite Forall_forall in Ha. apply ready_ahead; [|by intros qc ->; apply (Hn qc)].
  specialize (Ha a Hin). destruct a; cbn in *; done || lia.
Qed.
Lemma enter_quiet s r : rd_validators s = vs -> let out := enter_round_core s r in
  rd_validators out.1 = vs /\ rd_votes out.1 = rd_votes s /\ Forall (not_ahead out.1) out.2 /\ (forall qc, Decided qc ∉ out.2).
Proof.
  intros Hv. cbv zeta. unfold enter_round_core. repeat case_match; cbn [fst snd];
    (split; [done|split; [done|split; [by repeat constructor|]]]); intros qc Hq; by repeat (apply elem_of_cons in Hq as [Hq|Hq] || apply elem_of_nil in Hq).
Qed.

Lemma tally_foreign t v id x : x ∈ (default ∅ (precommits (tally_vote t v (did_scid (v_validator_root v))) !! id) : gset bytes) ->
  x ∈ (default ∅ (precommits t !! id) : gset bytes) \/ x = did_scid (v_validator_root v).
Proof.
  unfold tally_vote. destruct (v_kind v); cbn [precommits]; [by left|]. unfold add_to.
  destruct (decide (id = v_block_hash v)) as [->|]; [rewrite lookup_insert_eq; cbn; set_solver|rewrite lookup_insert_ne by done; by left].
Qed.
Lemma tally_keeps t v id x : x ∈ (default ∅ (precommits t !! id) : gset bytes) ->
  x ∈ (default ∅ (precommits (tally_vote t v (did_scid (v_validator_root v))) !! id) : gset bytes).
Proof.
  unfold tally_vote. destruct (v_kind v); cbn [precommits]; [done|]. unfold add_to.
  destruct (decide (id = v_block_hash v)) as [->|]; [rewrite lookup_insert_eq; cbn; set_solver|by rewrite lookup_insert_ne].
Qed.
(** Replace one round's tally by one with at least its precommits, and at
    most one validator's more. *)
Lemma put_foreign s p r t y :
  let t0 := default no_votes (rd_votes s !! r) in
  (forall id x, x ∈ (default ∅ (precommits t !! id) : gset bytes) -> x ∈ (default ∅ (precommits t0 !! id) : gset bytes) \/ x = y) ->
  (forall id x, x ∈ (default ∅ (precommits t0 !! id) : gset bytes) -> x ∈ (default ∅ (precommits t !! id) : gset bytes)) ->
  (y = me -> foreign (set_messages s p (<[r:=t]> (rd_votes s))) -> foreign s) /\ (foreign s -> foreign (set_messages s p (<[r:=t]> (rd_votes s)))).
Proof.
  cbv zeta. intros H1 H2. split.
  - intros Hy (r' & t' & id & x & Ht & Hx & Hne). cbn [rd_votes set_messages] in Ht. destruct (decide (r' = r)) as [->|].
    + rewrite lookup_insert_eq in Ht. injection Ht as <-. destruct (H1 _ _ Hx) as [Hx'|]; [|congruence].
      destruct (rd_votes s !! r) as [t0|] eqn:E; cbn in Hx'; [by exists r, t0, id, x|]. rewrite lookup_empty in Hx'. set_solver.
    + rewrite lookup_insert_ne in Ht by done. by exists r', t', id, x.
  - intros (r' & t' & id & x & Ht & Hx & Hne). destruct (decide (r' = r)) as [->|].
    + exists r, t, id, x. cbn. rewrite lookup_insert_eq. split; [done|]. split; [|done]. apply H2. by rewrite Ht.
    + exists r', t', id, x. cbn. by rewrite lookup_insert_ne.
Qed.

Lemma handle_handled s ev : rd_validators s = vs ->
  handled s (match ev with EvVote v => did_scid (v_validator_root v) = me | _ => True end) (handle iter_order oracle s ev).
Proof.
  intros Hv. destruct ev as [|r id vr valid|v|st r]; cbn [handle].
  - unfold start. destruct (enter_quiet s 0 Hv) as (H1 & H2 & H3 & H4). destruct (enter_round_core s 0). by apply then_handled.
  - unfold on_proposal. by apply evaluate_handled.
  - unfold on_vote. destruct (negb _); [by apply handled_nil|].
    set (t0 := default no_votes (rd_votes s !! v_round v)). set (t := mkRoundVotes _ _ _ _ _ _). set (y := did_scid (v_validator_root v)).
    destruct (put_foreign s (rd_proposals s) (v_round v) t y) as [P1 P2]; [by left|done|].
    destruct (_ !! y) as [prior|].
    + case_bool_decide; (split; cbn [fst snd]; [|done|exact P1|exact P2]); [constructor|]. by repeat constructor.
    + destruct (put_foreign s (rd_proposals s) (v_round v) (tally_vote t v y) y) as [Q1 Q2];
        [intros id x; apply (tally_foreign t)|intros id x; apply (tally_keeps t)|]. by apply evaluate_handled.
  - unfold on_timeout. destruct (_ || negb _) eqn:Hg; [by apply handled_nil|]. bool_prop.
    destruct st.
    + case_bool_decide; [|by apply handled_nil]. apply then_handled; [by unfold prevote; case_match|by unfold prevote; case_match| |].
      * unfold prevote. cbn [rd_round set_voted]. constructor; [|constructor]. case_match; cbn; lia.
      * intros qc Hq. by apply list_elem_of_singleton in Hq.
    + case_bool_decide; [|by apply handled_nil]. apply then_handled; [by unfold precommit; case_match|by unfold precommit; case_match| |].
      * unfold precommit. cbn [rd_round set_voted]. constructor; [|constructor]. case_match; cbn; lia.
      * intros qc Hq. by apply list_elem_of_singleton in Hq.
    + destruct (enter_quiet s (as_u32 (r + 1)) Hv) as (H1 & H2 & H3 & H4). destruct (enter_round_core s (as_u32 (r + 1))). by apply then_handled.
Qed.
End Foreign.
