(* ===== verification/AgreementWitnesses.v ===== *)
(** * AgreementWitnesses: concrete schedules of a four-validator network

    A schedule in which the three honest validators of four decide a block,
    at which the agreement properties are applied; and a schedule that shows
    why agreement needs the bound on [valid_round]: the machine looks up the
    quorum it demands at round [valid_round as u32], but compares its lock
    with the full 64-bit [valid_round].

    The primitives are small executable stand-ins, so that a whole schedule
    evaluates. *)

From Stdlib Require Import ZArith Lia.
From stdpp Require Import base list gmap sets strings.
From S2P Require Import Prelude Codec Crypto Identity Kel Chain ChainTheorems Round.
From S2P Require Import VotingSpec RoundRefines RoundFacts Agreement Certificates.
Open Scope Z_scope.

Module Cheap.
Definition hash (b : bytes) : bytes :=
  let h := fold_left (fun acc x => (acc * 31 + x + 1) mod 65521) b 7 in
  replicate 30 0 ++ [h / 256; h mod 256].
Definition primitives : Primitives := {|
    blake3 := hash;
    sha256 := hash;
    bs58_encode := fun b => b;
    bs58_decode := fun s => Some s;
    ed25519_key_ok := fun _ => true;
    ed25519_verify := fun pk m sg => bool_decide (sg = pk ++ hash m);
    ed25519_public := Toy.pad32;
    ed25519_sign := fun s m => Toy.pad32 s ++ hash m;
    mldsa_pk_len := 1952;
    mldsa_sig_len := 3309;
    mldsa_key_ok := fun _ => true;
    mldsa_verify := fun _ _ _ => false;
  |}.
End Cheap.
#[local] Existing Instance Cheap.primitives.

Module Four.
Definition none : Controller := mkController [] Ed25519 [] 0 [] 0 None [].
Definition get (r : result IdentityError Controller) : Controller :=
  match r with Ok c => c | Err _ => none end.
Definition key (n : Z) : SigningKey := mkSigningKey [n].
Definition incepted (i : Z) : Controller := get (incept_inner [key (10 * i)] 1 [key (10 * i + 1)] 1 None).
Definition device (i : Z) : Controller :=
  get (incept_inner [key (10 * i + 2)] 1 [key (10 * i + 3)] 1 (Some (kel_did (ctl_kel (incepted i))))).
Definition rooted (i : Z) : Controller :=
  get (delegate_device (incepted i) (kel_did (ctl_kel (device i))) VOTE).

(** The validators in proposer order, as pairs of a root and a device. *)
Definition pairs : list (Controller * Controller) := Eval vm_compute in
  map (fun i => (rooted i, device i)) [1; 2; 3; 4].
Definition root_did (c : Controller * Controller) : Did := kel_did (ctl_kel c.1).
Definition vset : ValidatorSet := Eval vm_compute in
  match ValidatorSet_new (map root_did pairs) with Ok v => v | Err _ => mkValidatorSet [] end.
Definition logs : list (Did * Kel) := Eval vm_compute in
  flat_map (fun c => [(kel_did (ctl_kel c.1), ctl_kel c.1); (kel_did (ctl_kel c.2), ctl_kel c.2)]) pairs.
Fixpoint assoc_log (d : Did) (l : list (Did * Kel)) : option Kel :=
  match l with [] => None | (d', k) :: l' => if bool_decide (d' = d) then Some k else assoc_log d l' end.
Definition oracle : ValidatorOracle := fun d => assoc_log d logs.

(** Validator [n] of the sorted set, its identifier and its device. *)
Definition scid (n : nat) : bytes :=
  match roots vset !! n with Some d => did_scid d | None => [] end.
Definition device_of (n : nat) : Controller :=
  match List.find (fun c => bool_decide (did_scid (root_did c) = scid n)) pairs with
  | Some c => c.2 | None => none end.
Definition signed_vote (n : nat) (k : VoteKind) (r : Z) (h : bytes) : Vote :=
  sign_vote k 4 r h (from_scid_unchecked (scid n)) (device_of n).

(** Validator 0 is Byzantine; at height 4 it proposes in rounds 0 and 4. *)
Definition honest (x : bytes) : bool :=
  bool_decide (x = scid 1) || bool_decide (x = scid 2) || bool_decide (x = scid 3).
Definition block_a : bytes := replicate 32 1.
Definition block_b : bytes := replicate 32 2.

Definition to_each (ns : list nat) (evs : list NetEvent) : list (bytes * NetEvent) :=
  flat_map (fun n => map (fun e => (scid n, e)) evs) ns.
Definition votes (k : VoteKind) (r : Z) (l : list (nat * bytes)) : list NetEvent :=
  map (fun nh => EvVote (signed_vote nh.1 k r nh.2)) l.
Definition decided_hashes (o : option Net) : option (list (bytes * bytes)) :=
  (fun n => map (fun d => (d.1, qc_block_hash d.2)) (decisions n)) <$> o.

(** All three honest validators prevote, precommit and decide block A. *)
Definition happy : list (bytes * NetEvent) :=
  to_each [1; 2; 3]%nat [EvStart; EvProposal 0 block_a (-1) true]
  ++ to_each [1; 2; 3]%nat (votes Prevote 0 [(1, block_a); (2, block_a); (3, block_a)]%nat)
  ++ to_each [1; 2; 3]%nat (votes Precommit 0 [(1, block_a); (2, block_a); (3, block_a)]%nat).

(** Every timer that fires in this schedule was armed by the machine. *)
Definition attack : list (bytes * NetEvent) :=
  (* round 0: A is prevoted by 1 and 2 but the quorum is not seen in time *)
  to_each [1; 2; 3]%nat [EvStart]
  ++ to_each [1; 2]%nat [EvProposal 0 block_a (-1) true]
  ++ to_each [3]%nat [EvTimeout SPropose 0]
  ++ to_each [1; 2; 3]%nat (votes Prevote 0 [(1, block_a); (2, block_a); (3, NIL)]%nat ++ [EvTimeout SPrevote 0])
  ++ to_each [1; 2; 3]%nat (votes Precommit 0 [(1, NIL); (2, NIL); (3, NIL)]%nat ++ [EvTimeout SPrecommit 0])
  (* round 1: everybody honest locks B; only 2 sees the quorum and decides *)
  ++ to_each [1; 2; 3]%nat [EvProposal 1 block_b (-1) true]
  ++ to_each [1; 2; 3]%nat (votes Prevote 1 [(1, block_b); (2, block_b); (3, block_b)]%nat)
  ++ to_each [2]%nat (votes Precommit 1 [(1, block_b); (2, block_b); (3, block_b)]%nat)
  ++ to_each [1; 3]%nat (votes Precommit 1 [(1, block_b); (3, block_b); (0, NIL)]%nat ++ [EvTimeout SPrecommit 1])
  (* the Byzantine prevote of round 0 completes an old quorum for A *)
  ++ to_each [1; 3]%nat (votes Prevote 0 [(0, block_a)]%nat)
  (* round 2: the proposer, 2, has decided and is silent *)
  ++ to_each [1; 3]%nat [EvTimeout SPropose 2]
  ++ to_each [1; 3]%nat (votes Prevote 2 [(1, NIL); (3, NIL); (0, NIL)]%nat)
  ++ to_each [1; 3]%nat (votes Precommit 2 [(1, NIL); (3, NIL); (0, NIL)]%nat ++ [EvTimeout SPrecommit 2])
  (* round 3: 3 proposes B again, 1 does not hear of it in time *)
  ++ to_each [3]%nat [EvProposal 3 block_b 1 true]
  ++ to_each [1]%nat [EvTimeout SPropose 3]
  ++ to_each [1; 3]%nat (votes Prevote 3 [(1, NIL); (3, block_b); (0, NIL)]%nat ++ [EvTimeout SPrevote 3])
  ++ to_each [1; 3]%nat (votes Precommit 3 [(1, NIL); (3, NIL); (0, NIL)]%nat ++ [EvTimeout SPrecommit 3])
  (* round 4: the Byzantine proposer stamps A with valid_round 2^32 *)
  ++ to_each [1; 3]%nat [EvProposal 4 block_a (2 ^ 32) true]
  ++ to_each [1; 3]%nat (votes Prevote 4 [(1, block_a); (3, block_a); (0, block_a)]%nat)
  ++ to_each [1; 3]%nat (votes Precommit 4 [(1, block_a); (3, block_a); (0, block_a)]%nat).
End Four.
Import Four.

(** What a run decided, with the verdict of [verify_finality] on each
    certificate. *)
Definition verdicts (o : option Net) : list (bytes * bytes * bool) :=
  match o with
  | Some n => map (fun d => (d.1, qc_block_hash d.2, is_ok (verify_finality d.2 vset oracle))) (decisions n)
  | None => []
  end.

Lemma verdicts_elem o i h : (i, h, true) ∈ verdicts o ->
  exists n qc, o = Some n /\ (i, qc) ∈ decisions n /\ qc_block_hash qc = h /\
    is_ok (verify_finality qc vset oracle) = true.
Proof.
  unfold verdicts. destruct o as [n|]; [|intros H; by apply elem_of_nil in H].
  rewrite list_elem_of_In, in_map_iff. intros ([j qc] & E & Hin).
  injection E as Ei Eh Ev. exists n, qc. simpl in *. subst. by rewrite <- list_elem_of_In in Hin.
Qed.

Lemma four_bound : 3 * byzantine vset honest < vs_len vset.
Proof. vm_compute. reflexivity. Qed.

Definition happy_run : option Net := run map_to_list oracle honest vr_in_range (net_init vset 4) happy.
Definition attack_run : option Net := run map_to_list oracle honest (fun _ => true) (net_init vset 4) attack.

Lemma happy_verdicts : verdicts happy_run =
  [(scid 1, block_a, true); (scid 2, block_a, true); (scid 3, block_a, true)].
Proof. vm_compute. reflexivity. Qed.

Lemma attack_verdicts : verdicts attack_run =
  [(scid 2, block_b, true); (scid 1, block_a, true); (scid 3, block_a, true)].
Proof. vm_compute. reflexivity. Qed.

Lemma happy_two : exists n qc qc', happy_run = Some n /\
  (scid 1, qc) ∈ decisions n /\ (scid 3, qc') ∈ decisions n.
Proof.
  destruct (verdicts_elem happy_run (scid 1) block_a) as (n & qc & E & H1 & _).
  { rewrite happy_verdicts. left. }
  destruct (verdicts_elem happy_run (scid 3) block_a) as (n' & qc' & E' & H2 & _).
  { rewrite happy_verdicts. right. right. left. }
  rewrite E in E'. injection E' as <-. exists n, qc, qc'. split; [exact E|]. split; [exact H1|exact H2].
Qed.

Lemma agreement_witness : exists n qc qc', happy_run = Some n /\
  (scid 1, qc) ∈ decisions n /\ (scid 3, qc') ∈ decisions n /\ qc_block_hash qc = qc_block_hash qc'.
Proof.
  destruct happy_two as (n & qc & qc' & E & H1 & H2). exists n, qc, qc'.
  split; [exact E|]. split; [exact H1|]. split; [exact H2|].
  apply (agreement map_to_list vset 4 oracle honest happy n (scid 1) qc (scid 3) qc').
  - intros m. reflexivity.
  - exact four_bound.
  - exact E.
  - exact H1.
  - exact H2.
Defined.

Definition attack_precommits (o : option Net) : bool :=
  match o with Some n => bool_decide ((scid 1, Precommit, 4, block_a) ∈ sent n) | None => false end.
Lemma attack_sent : exists n, attack_run = Some n /\ (scid 1, Precommit, 4, block_a) ∈ sent n.
Proof.
  assert (attack_precommits attack_run = true) as H by (vm_compute; reflexivity).
  destruct attack_run as [n|]; [|discriminate H]. exists n. split; [reflexivity|].
  exact (bool_decide_eq_true_1 _ H).
Qed.

Lemma honest_never_equivocates_witness : exists n, attack_run = Some n /\
  forall v, (scid 1, Precommit, 4, v) ∈ sent n -> v = block_a.
Proof.
  destruct attack_sent as (n & E & H). exists n. split; [exact E|]. intros v Hv.
  apply (honest_never_equivocates map_to_list vset 4 oracle honest (fun _ => true) attack n (scid 1) Precommit 4 v block_a).
  - intros m. reflexivity.
  - exact E.
  - vm_compute. reflexivity.
  - exact Hv.
  - exact H.
Defined.

(** C16: without the bound on [valid_round], agreement fails: with one
    Byzantine validator of four, a [valid_round] of [2^32] on one of its
    proposals makes two honest validators decide different blocks of one
    height, each with a certificate that verifies.  The lock is overridden
    because the quorum of prevotes is looked up at round
    [valid_round as u32 = 0] while the lock is compared with [2^32]. *)
Theorem valid_round_cast_breaks_agreement :
  3 * byzantine vset honest < vs_len vset /\
  exists net i qc j qc',
    run map_to_list oracle honest (fun _ => true) (net_init vset 4) attack = Some net /\
    honest i = true /\ honest j = true /\
    (i, qc) ∈ decisions net /\ (j, qc') ∈ decisions net /\
    is_ok (verify_finality qc vset oracle) = true /\
    is_ok (verify_finality qc' vset oracle) = true /\
    qc_block_hash qc <> qc_block_hash qc'.
Proof.
  split; [exact four_bound|].
  destruct (verdicts_elem attack_run (scid 2) block_b) as (n & qc & E & H1 & B1 & F1).
  { rewrite attack_verdicts. left. }
  destruct (verdicts_elem attack_run (scid 1) block_a) as (n' & qc' & E' & H2 & B2 & F2).
  { rewrite attack_verdicts. right. left. }
  rewrite E in E'. injection E' as <-.
  exists n, (scid 2), qc, (scid 1), qc'. split; [exact E|].
  split; [vm_compute; reflexivity|]. split; [vm_compute; reflexivity|].
  split; [exact H1|]. split; [exact H2|]. split; [exact F1|]. split; [exact F2|].
  rewrite B1, B2. discriminate.
Qed.

(** ** One machine *)
Definition fresh : Round := Round_new 4 vset (from_scid_unchecked (scid 1)).

Lemma evaluate_terminates_witness : loop_runs map_to_list fresh (evaluate map_to_list fresh).
Proof. apply (evaluate_terminates map_to_list fresh). reflexivity. Defined.

Lemma evaluate_decides_iff_witness :
  rd_decided (evaluate map_to_list fresh).1 = true \/ nothing_decidable (evaluate map_to_list fresh).1.
Proof. apply (evaluate_decides_iff map_to_list (fun m => reflexivity _) fresh). Defined.

Definition one_machine : list NetEvent :=
  [EvStart; EvProposal 0 block_a (-1) true]
  ++ votes Precommit 0 [(1, block_a); (2, block_a); (3, block_a)]%nat.

Fixpoint first_decided (l : list Action) : option QuorumCertificate :=
  match l with [] => None | Decided qc :: _ => Some qc | _ :: l' => first_decided l' end.
Lemma first_decided_elem l qc : first_decided l = Some qc -> Decided qc ∈ l.
Proof.
  induction l as [|a l IH]; [done|]. destruct a; simpl; intros H; try (right; by apply IH).
  injection H as ->. left.
Qed.

Definition machine_cert : option QuorumCertificate := Eval vm_compute in
  first_decided (machine_run map_to_list oracle fresh one_machine).2.
Lemma machine_cert_ok : first_decided (machine_run map_to_list oracle fresh one_machine).2 = machine_cert.
Proof. vm_compute. reflexivity. Qed.

Lemma decided_certificate_verifies_witness :
  exists qc n, machine_cert = Some qc /\ verify_finality qc vset oracle = Ok n /\ quorum_threshold vset <= n.
Proof.
  destruct machine_cert as [qc|] eqn:E; [|discriminate E].
  pose proof machine_cert_ok as Hc. rewrite E in Hc. apply first_decided_elem in Hc.
  destruct (decided_certificate_verifies map_to_list oracle (map root_did pairs) vset 4
    (from_scid_unchecked (scid 1)) one_machine qc) as (n & H1 & H2).
  - intros m. reflexivity.
  - vm_compute. reflexivity.
  - exact Hc.
  - exists qc, n. split; [reflexivity|]. split; [exact H1|exact H2].
Defined.

(** Three honest precommits for [nil], as a failed round produces them, make
    a certificate that [verify_finality] accepts: it never looks at whether
    the certified hash is [NIL]. *)
Definition nil_certificate : QuorumCertificate :=
  mkQC 4 0 NIL [signed_vote 1 Precommit 0 NIL; signed_vote 2 Precommit 0 NIL; signed_vote 3 Precommit 0 NIL].

Lemma nil_precommits_certify : is_ok (verify_finality nil_certificate vset oracle) = true.
Proof. vm_compute. reflexivity. Qed.
