(* ===== verification/GF256.v ===== *)
(** * GF256: arithmetic of the erasure code's field

    Models [crates/mini-erasure/src/gf256.rs]: carry-less multiplication with
    reduction by [0x11D], the inverse by search and powers, on bytes.  The
    field laws are proved from linearity: multiplication is additive in both
    arguments, so the laws hold as soon as they hold on the eight powers of
    two, where they are evaluated. *)

From Stdlib Require Import ZArith Lia Btauto.
From stdpp Require Import base list sets.
From S2P Require Import Prelude.
Open Scope Z_scope.

Notation "a ⊕ b" := (Z.lxor a b) (at level 50, left associativity) : mini_scope.
Open Scope mini_scope.

(** [a <<= 1; if carry != 0 { a ^= 0x1D }] on a [u8]. *)
Definition xtime (a : Z) : Z :=
  let carry := Z.land a 0x80 in
  let a := Z.shiftl a 1 mod 256 in
  if carry =? 0 then a else a ⊕ 0x1D.

Fixpoint mul_loop (n : nat) (product a b : Z) : Z :=
  match n with
  | O => product
  | S n' =>
      let product := if Z.land b 1 =? 0 then product else product ⊕ a in
      mul_loop n' product (xtime a) (Z.shiftr b 1)
  end.
Definition mul (a b : Z) : Z := mul_loop 8 0 a b.

(** The search over [1..=255]; [0] has no inverse and panics in the source. *)
Definition candidates : list Z := map Z.of_nat (seq 1 255).
Definition inv (a : Z) : Z :=
  match List.find (fun c => mul a c =? 1) candidates with Some c => c | None => 0 end.

Definition pow (base : Z) (exp : nat) : Z := Nat.iter exp (fun r => mul r base) 1.

(** ** Bytes by enumeration *)
Lemma byte_forall (f : Z -> bool) :
  forallb f (map Z.of_nat (seq 0 256)) = true -> forall a, is_u8 a -> f a = true.
Proof.
  intros H a Ha. rewrite forallb_forall in H. apply H, in_map_iff. exists (Z.to_nat a).
  unfold is_u8, U8_MAX in Ha. split; [lia|]. apply in_seq. lia.
Qed.

Definition is_u8b (a : Z) : bool := in_range 0 255 a.
Lemma is_u8b_spec a : is_u8b a = true -> is_u8 a.
Proof. unfold is_u8b, in_range, is_u8, U8_MAX. intros H. bool_prop. lia. Qed.

Lemma lxor_u8 a b : is_u8 a -> is_u8 b -> is_u8 (a ⊕ b).
Proof.
  unfold is_u8, U8_MAX. intros Ha Hb.
  assert (0 <= a ⊕ b) by (apply Z.lxor_nonneg; lia).
  destruct (decide (a ⊕ b = 0)) as [->|Hne]; [lia|].
  assert (a ⊕ b < 2 ^ 8); [|lia]. apply Z.log2_lt_pow2; [lia|].
  pose proof (Z.log2_lxor a b ltac:(lia) ltac:(lia)).
  assert (forall x, 0 <= x < 256 -> Z.log2 x < 8).
  { intros x Hx. destruct (decide (x = 0)) as [->|]; [done|]. apply Z.log2_lt_pow2; lia. }
  pose proof (H1 a ltac:(lia)). pose proof (H1 b ltac:(lia)). lia.
Qed.

Lemma testbit_odd a : (Z.land a 1 =? 0) = negb (Z.testbit a 0).
Proof.
  change 1 with (Z.ones 1). rewrite Z.land_ones by lia. change (2 ^ 1) with 2.
  rewrite Z.bit0_odd, Zmod_odd. by destruct (Z.odd a).
Qed.

Lemma land_128 a : is_u8 a -> (Z.land a 0x80 =? 0) = negb (Z.testbit a 7).
Proof.
  intros Ha. apply Bool.eqb_prop.
  by apply (byte_forall (fun a => Bool.eqb (Z.land a 0x80 =? 0) (negb (Z.testbit a 7)))).
Qed.

Lemma xtime_u8 a : is_u8 a -> is_u8 (xtime a).
Proof.
  intros Ha. apply is_u8b_spec. by apply (byte_forall (fun a => is_u8b (xtime a))).
Qed.

Lemma shiftl_mod a b : (Z.shiftl (a ⊕ b) 1) mod 256 = (Z.shiftl a 1 mod 256) ⊕ (Z.shiftl b 1 mod 256).
Proof.
  change 256 with (2 ^ 8). rewrite <- !Z.land_ones by lia. rewrite Z.shiftl_lxor.
  apply Z.bits_inj'. intros n Hn. rewrite !Z.land_spec, !Z.lxor_spec, !Z.land_spec. btauto.
Qed.

Lemma lxor_swap a b c d : (a ⊕ b) ⊕ (c ⊕ d) = (a ⊕ c) ⊕ (b ⊕ d).
Proof. apply Z.bits_inj'. intros n Hn. rewrite !Z.lxor_spec. btauto. Qed.

Lemma xtime_lxor a b : is_u8 a -> is_u8 b -> xtime (a ⊕ b) = xtime a ⊕ xtime b.
Proof.
  intros Ha Hb. unfold xtime. rewrite !land_128 by auto using lxor_u8.
  rewrite Z.lxor_spec, shiftl_mod.
  destruct (Z.testbit a 7), (Z.testbit b 7); simpl; try done.
  - by rewrite lxor_swap, Z.lxor_nilpotent, Z.lxor_0_r.
  - apply Z.bits_inj'. intros n Hn. rewrite !Z.lxor_spec. btauto.
  - by rewrite Z.lxor_assoc.
Qed.

(** ** Linearity *)
Lemma mul_loop_product n p a b : mul_loop n p a b = p ⊕ mul_loop n 0 a b.
Proof.
  revert p a b. induction n as [|n IH]; intros p a b; simpl; [by rewrite Z.lxor_0_r|].
  rewrite IH, (IH (if Z.land b 1 =? 0 then 0 else 0 ⊕ a)), Z.lxor_0_l.
  destruct (Z.land b 1 =? 0); [by rewrite Z.lxor_0_l|by rewrite Z.lxor_assoc].
Qed.

Lemma mul_loop_u8 n p a b : is_u8 p -> is_u8 a -> is_u8 (mul_loop n p a b).
Proof.
  revert p a b. induction n as [|n IH]; intros p a b Hp Ha; simpl; [done|].
  apply IH; [|by apply xtime_u8]. destruct (_ =? 0); auto using lxor_u8.
Qed.

Lemma u8_0 : is_u8 0. Proof. unfold is_u8, U8_MAX. lia. Qed.
Lemma u8_1 : is_u8 1. Proof. unfold is_u8, U8_MAX. lia. Qed.
#[export] Hint Resolve u8_0 u8_1 lxor_u8 xtime_u8 : mini.

Lemma mul_u8 a b : is_u8 a -> is_u8 (mul a b).
Proof. intros. apply mul_loop_u8; auto with mini. Qed.
#[export] Hint Resolve mul_u8 : mini.

Lemma mul_loop_lxor_l n a a' b : is_u8 a -> is_u8 a' ->
  mul_loop n 0 (a ⊕ a') b = mul_loop n 0 a b ⊕ mul_loop n 0 a' b.
Proof.
  revert a a' b. induction n as [|n IH]; intros a a' b Ha Ha'; simpl; [done|].
  rewrite mul_loop_product, (mul_loop_product n _ (xtime a)), (mul_loop_product n _ (xtime a')).
  rewrite xtime_lxor, IH by auto with mini. rewrite !Z.lxor_0_l.
  destruct (_ =? 0); rewrite ?Z.lxor_0_l; [done|]. apply lxor_swap.
Qed.

Lemma mul_loop_lxor_r n a b b' : is_u8 a ->
  mul_loop n 0 a (b ⊕ b') = mul_loop n 0 a b ⊕ mul_loop n 0 a b'.
Proof.
  revert a b b'. induction n as [|n IH]; intros a b b' Ha; simpl; [done|].
  rewrite mul_loop_product, (mul_loop_product n _ _ (Z.shiftr b 1)), (mul_loop_product n _ _ (Z.shiftr b' 1)).
  rewrite Z.shiftr_lxor, IH by auto with mini. rewrite !testbit_odd, Z.lxor_spec, !Z.lxor_0_l.
  destruct (Z.testbit b 0), (Z.testbit b' 0); simpl; rewrite ?Z.lxor_0_l; try done.
  - by rewrite lxor_swap, Z.lxor_nilpotent, Z.lxor_0_l.
  - by rewrite Z.lxor_assoc.
  - apply Z.bits_inj'. intros m Hm. rewrite !Z.lxor_spec. btauto.
Qed.

Lemma mul_lxor_l a a' b : is_u8 a -> is_u8 a' -> mul (a ⊕ a') b = mul a b ⊕ mul a' b.
Proof. apply mul_loop_lxor_l. Qed.
Lemma mul_lxor_r a b b' : is_u8 a -> mul a (b ⊕ b') = mul a b ⊕ mul a b'.
Proof. apply mul_loop_lxor_r. Qed.

(** ** From the basis to all bytes *)
Definition basis : list Z := [1; 2; 4; 8; 16; 32; 64; 128].
Definition bits_sum (a : Z) : Z :=
  foldr (fun i s => (if Z.testbit a i then 2 ^ i else 0) ⊕ s) 0 [0; 1; 2; 3; 4; 5; 6; 7].

Lemma bits_sum_id a : is_u8 a -> bits_sum a = a.
Proof.
  intros Ha. apply Z.eqb_eq. by apply (byte_forall (fun a => bits_sum a =? a)).
Qed.

Definition additive (f : Z -> Z) : Prop := forall a b, is_u8 a -> is_u8 b -> f (a ⊕ b) = f a ⊕ f b.

Lemma additive_0 f : additive f -> f 0 = 0.
Proof.
  intros Hf. specialize (Hf 0 0 u8_0 u8_0). rewrite Z.lxor_nilpotent in Hf.
  by rewrite Hf, Z.lxor_nilpotent.
Qed.

Lemma additive_ext f g a :
  additive f -> additive g -> (forall x, x ∈ basis -> f x = g x) -> is_u8 a -> f a = g a.
Proof.
  intros Hf Hg Hb Ha. rewrite <- (bits_sum_id a Ha). unfold bits_sum.
  assert (forall l, (forall i, i ∈ l -> 2 ^ i ∈ basis /\ is_u8 (2 ^ i)) ->
    let s := foldr (fun i s => (if Z.testbit a i then 2 ^ i else 0) ⊕ s) 0 l in
    is_u8 s /\ f s = g s) as Hfold.
  { induction l as [|i l IH]; intros Hl; simpl; [split; [apply u8_0|by rewrite !additive_0]|].
    destruct IH as [Hu He]; [intros j Hj; apply Hl; by right|].
    destruct (Hl i ltac:(left)) as [Hi Hui].
    assert (is_u8 (if Z.testbit a i then 2 ^ i else 0)) as Hc by (destruct (Z.testbit a i); auto with mini).
    split; [by apply lxor_u8|]. rewrite Hf, Hg, He by done. f_equal.
    destruct (Z.testbit a i); [by apply Hb|by rewrite !additive_0]. }
  apply Hfold. intros i Hi.
  repeat (apply elem_of_cons in Hi as [->|Hi]; [split; [set_solver|unfold is_u8, U8_MAX; simpl; lia]|]).
  by apply elem_of_nil in Hi.
Qed.

Lemma basis_u8 x : x ∈ basis -> is_u8 x.
Proof.
  intros H. apply is_u8b_spec. assert (forallb is_u8b basis = true) as Hb by reflexivity.
  rewrite forallb_forall in Hb. apply Hb. by apply list_elem_of_In.
Qed.

Lemma additive_mul_l b : additive (fun a => mul a b).
Proof. intros x y Hx Hy. by apply mul_lxor_l. Qed.
Lemma additive_mul_r a : is_u8 a -> additive (mul a).
Proof. intros Ha x y _ _. by apply mul_lxor_r. Qed.

Lemma basis_check (f g : Z -> Z) : forallb (fun x => f x =? g x) basis = true ->
  forall x, x ∈ basis -> f x = g x.
Proof.
  intros H x Hx. rewrite forallb_forall in H. apply Z.eqb_eq, H. by apply list_elem_of_In.
Qed.

(** ** The field laws *)
Lemma mul_comm a b : is_u8 a -> is_u8 b -> mul a b = mul b a.
Proof.
  intros Ha Hb. apply (additive_ext (fun a => mul a b) (mul b)); auto using additive_mul_l, additive_mul_r.
  intros x Hx. apply (additive_ext (mul x) (fun b => mul b x));
    auto using additive_mul_l, additive_mul_r, basis_u8.
  intros y Hy. revert x Hx. apply basis_check. revert y Hy.
  assert (forallb (fun y => forallb (fun x => mul x y =? mul y x) basis) basis = true) as H by reflexivity.
  intros y Hy. rewrite forallb_forall in H. apply H. by apply list_elem_of_In.
Qed.

Lemma mul_assoc a b c : is_u8 a -> is_u8 b -> is_u8 c -> mul (mul a b) c = mul a (mul b c).
Proof.
  intros Ha Hb Hc.
  apply (additive_ext (fun a => mul (mul a b) c) (fun a => mul a (mul b c))); try done.
  { intros x y Hx Hy. by rewrite mul_lxor_l, mul_lxor_l by auto with mini. }
  { intros x y Hx Hy. by rewrite mul_lxor_l by auto with mini. }
  intros x Hx. pose proof (basis_u8 x Hx).
  apply (additive_ext (fun b => mul (mul x b) c) (fun b => mul x (mul b c))); try done.
  { intros y z Hy Hz. by rewrite mul_lxor_r, mul_lxor_l by auto with mini. }
  { intros y z Hy Hz. by rewrite mul_lxor_l, mul_lxor_r by auto with mini. }
  intros y Hy. pose proof (basis_u8 y Hy).
  apply (additive_ext (fun c => mul (mul x y) c) (fun c => mul x (mul y c))); try done.
  { intros z w Hz Hw. by rewrite mul_lxor_r by auto with mini. }
  { intros z w Hz Hw. by rewrite !mul_lxor_r by auto with mini. }
  assert (forallb (fun x => forallb (fun y => forallb (fun z => mul (mul x y) z =? mul x (mul y z))
    basis) basis) basis = true) as Hchk by (vm_compute; reflexivity).
  rewrite forallb_forall in Hchk. specialize (Hchk x). rewrite <- list_elem_of_In in Hchk.
  specialize (Hchk Hx). rewrite forallb_forall in Hchk. specialize (Hchk y).
  rewrite <- list_elem_of_In in Hchk. by apply basis_check, Hchk.
Qed.

Lemma mul_0_l b : mul 0 b = 0.
Proof. apply (additive_0 (fun a => mul a b)), additive_mul_l. Qed.
Lemma mul_0_r a : is_u8 a -> mul a 0 = 0.
Proof. intros. by apply (additive_0 (mul a)), additive_mul_r. Qed.
Lemma mul_1_l a : is_u8 a -> mul 1 a = a.
Proof. intros Ha. apply Z.eqb_eq. by apply (byte_forall (fun a => mul 1 a =? a)). Qed.
Lemma mul_1_r a : is_u8 a -> mul a 1 = a.
Proof. intros Ha. apply Z.eqb_eq. by apply (byte_forall (fun a => mul a 1 =? a)). Qed.

Lemma inv_spec a : is_u8 a -> a <> 0 -> is_u8 (inv a) /\ mul a (inv a) = 1.
Proof.
  intros Ha Hne.
  assert ((a =? 0) || ((mul a (inv a) =? 1) && is_u8b (inv a)) = true) as H.
  { apply (byte_forall (fun a => (a =? 0) || ((mul a (inv a) =? 1) && is_u8b (inv a)))); [|done].
    vm_compute. reflexivity. }
  apply orb_true_iff in H as [H|H]; [by apply Z.eqb_eq in H|]. bool_prop.
  split; [by apply is_u8b_spec|done].
Qed.

Lemma mul_eq_0 a b : is_u8 a -> is_u8 b -> mul a b = 0 -> a = 0 \/ b = 0.
Proof.
  intros Ha Hb H. destruct (decide (a = 0)) as [|Hne]; [by left|right].
  destruct (inv_spec a Ha Hne) as [Hi Hm].
  rewrite <- (mul_1_l b Hb), <- Hm, (mul_comm a), mul_assoc, H by auto. by apply mul_0_r.
Qed.

Lemma pow_S x n : pow x (S n) = mul (pow x n) x.
Proof. done. Qed.
Lemma pow_u8 x n : is_u8 (pow x n).
Proof. induction n as [|n IH]; [apply u8_1|]. rewrite pow_S. by apply mul_u8. Qed.
#[export] Hint Resolve pow_u8 : mini.

(** The bytes with XOR and the code's multiplication form a field of
    characteristic two: multiplication is commutative, associative, has the
    unit 1 and distributes over XOR, and the search of [inv] finds the
    inverse of every non-zero byte. *)
Theorem gf256_field a b c :
  is_u8 a -> is_u8 b -> is_u8 c ->
  is_u8 (mul a b) /\ mul a b = mul b a /\ mul (mul a b) c = mul a (mul b c) /\
  mul a 1 = a /\ mul a (b ⊕ c) = mul a b ⊕ mul a c /\
  (a <> 0 -> is_u8 (inv a) /\ mul a (inv a) = 1).
Proof.
  intros Ha Hb Hc. split; [by apply mul_u8|]. split; [by apply mul_comm|]. split; [by apply mul_assoc|].
  split; [by apply mul_1_r|]. split; [by apply mul_lxor_r|]. intros. by apply inv_spec.
Qed.

Lemma gf256_field_witness : mul 0x53 (inv 0x53) = 1 /\ mul 0x53 0xCA = mul 0xCA 0x53.
Proof.
  assert (is_u8 0x53) as Ha by (unfold is_u8, U8_MAX; lia).
  assert (is_u8 0xCA) as Hb by (unfold is_u8, U8_MAX; lia).
  split; [apply (gf256_field 0x53 0xCA 0xCA Ha Hb Hb); discriminate|apply (gf256_field 0x53 0xCA 0xCA Ha Hb Hb)].
Defined.
