(* ===== verification/Matrix.v ===== *)
(** * Matrix: dense matrices over the field of bytes

    Models [crates/mini-erasure/src/matrix.rs]: the row-major matrix, its
    loops (product, row selection, the row operations), Gauss-Jordan
    inversion, and the systematic generator matrix.  Reading or writing out of
    range panics in the source; here it reads 0 and writes nothing, and every
    lemma asks for indices in range.

    Every matrix operation is specified by the entries of its result
    ([get_mul], [get_select_rows], ...).  [invert] is then correct because
    [work] stays [inverse * self] through every row operation
    ([invert_left_inverse]), and it finds a pivot in every column of a matrix
    whose kernel is trivial ([invert_some]). *)

From Stdlib Require Import ZArith Lia.
From stdpp Require Import base list.
From S2P Require Import Prelude GF256.
Open Scope Z_scope.
Open Scope mini_scope.

Record Matrix := mkMatrix { m_rows : nat; m_cols : nat; m_data : bytes }.

Definition zeros (rows cols : nat) : Matrix := mkMatrix rows cols (replicate (rows * cols) 0).
Definition get (m : Matrix) (row col : nat) : Z := nth (row * m_cols m + col) (m_data m) 0.
Definition set (m : Matrix) (row col : nat) (v : Z) : Matrix :=
  mkMatrix (m_rows m) (m_cols m) (<[(row * m_cols m + col)%nat := v]> (m_data m)).

(** [for x in 0..n { m = f(m, x) }]. *)
Definition for_each (n : nat) (f : Matrix -> nat -> Matrix) (m : Matrix) : Matrix :=
  fold_left f (seq 0 n) m.

Definition identity (n : nat) : Matrix := for_each n (fun m i => set m i i 1) (zeros n n).

(** [for i in 0..rows { for j in 0..cols { m.set(i, j, f(i, j)) } }] over a
    fresh matrix: how the source builds every matrix from a formula. *)
Definition build (rows cols : nat) (f : nat -> nat -> Z) : Matrix :=
  for_each rows (fun m i => for_each cols (fun m j => set m i j (f i j)) m) (zeros rows cols).

Definition select_rows (m : Matrix) (row_indices : list nat) : Matrix :=
  build (length row_indices) (m_cols m) (fun new_row col => get m (nth new_row row_indices 0%nat) col).
Definition row (m : Matrix) (r : nat) : Matrix := select_rows m [r].

Definition mat_mul (a b : Matrix) : Matrix :=
  for_each (m_rows a) (fun out i =>
    for_each (m_cols a) (fun out k =>
      let x := get a i k in
      if x =? 0 then out
      else for_each (m_cols b) (fun out j => set out i j (get out i j ⊕ mul x (get b k j))) out) out)
    (zeros (m_rows a) (m_cols b)).

Definition swap_rows (m : Matrix) (a b : nat) : Matrix :=
  for_each (m_cols m) (fun m col => set (set m a col (get m b col)) b col (get m a col)) m.
Definition scale_row (m : Matrix) (r : nat) (factor : Z) : Matrix :=
  for_each (m_cols m) (fun m col => set m r col (mul (get m r col) factor)) m.
Definition add_scaled_row (m : Matrix) (dst src : nat) (factor : Z) : Matrix :=
  for_each (m_cols m) (fun m col => set m dst col (get m dst col ⊕ mul (get m src col) factor)) m.

(** One elimination step for row [r], and one pivot column. *)
Definition eliminate (pivot_col : nat) (wi : Matrix * Matrix) (r : nat) : Matrix * Matrix :=
  if Nat.eqb r pivot_col then wi
  else
    let factor := get wi.1 r pivot_col in
    if factor =? 0 then wi
    else (add_scaled_row wi.1 r pivot_col factor, add_scaled_row wi.2 r pivot_col factor).

Definition pivot_step (n : nat) (wi : Matrix * Matrix) (pivot_col : nat) : option (Matrix * Matrix) :=
  match List.find (fun r => negb (get wi.1 r pivot_col =? 0)) (seq pivot_col (n - pivot_col)) with
  | None => None
  | Some pivot_row =>
      let wi := if Nat.eqb pivot_row pivot_col then wi
                else (swap_rows wi.1 pivot_row pivot_col, swap_rows wi.2 pivot_row pivot_col) in
      let pivot_inv := inv (get wi.1 pivot_col pivot_col) in
      let wi := (scale_row wi.1 pivot_col pivot_inv, scale_row wi.2 pivot_col pivot_inv) in
      Some (fold_left (eliminate pivot_col) (seq 0 n) wi)
  end.

Fixpoint pivot_loop (n : nat) (cols : list nat) (wi : Matrix * Matrix) : option (Matrix * Matrix) :=
  match cols with
  | [] => Some wi
  | c :: cols' => match pivot_step n wi c with Some wi' => pivot_loop n cols' wi' | None => None end
  end.

Definition invert (m : Matrix) : option Matrix :=
  let n := m_rows m in
  match pivot_loop n (seq 0 n) (m, identity n) with
  | Some (_, inverse) => Some inverse
  | None => None
  end.

(** [x_i = (i + 1) as u8]. *)
Definition vandermonde (n k : nat) : Matrix :=
  build n k (fun i j => pow (Z.of_nat (i + 1) mod 256) j).

(** The source's [expect] on the inverse of the top block never fails
    ([ErasureTheorems.reconstruct_any] needs and shows it). *)
Definition generator_matrix (data_shards parity_shards : nat) : Matrix :=
  let v := vandermonde (data_shards + parity_shards) data_shards in
  let top := select_rows v (seq 0 data_shards) in
  match invert top with
  | Some top_inv => mat_mul v top_inv
  | None => zeros 0 0
  end.

(** ** Sums *)
Fixpoint big (n : nat) (f : nat -> Z) : Z :=
  match n with O => 0 | S n' => big n' f ⊕ f n' end.

Lemma big_ext n f g : (forall k, (k < n)%nat -> f k = g k) -> big n f = big n g.
Proof. induction n as [|n IH]; intros H; simpl; [done|]. rewrite IH, H by auto with lia. done. Qed.

Lemma big_0 n f : (forall k, (k < n)%nat -> f k = 0) -> big n f = 0.
Proof.
  induction n as [|n IH]; intros H; simpl; [done|].
  rewrite IH, H; [done|lia|intros; apply H; lia].
Qed.

Lemma big_u8 n f : (forall k, (k < n)%nat -> is_u8 (f k)) -> is_u8 (big n f).
Proof.
  induction n as [|n IH]; intros H; simpl; [apply u8_0|]. apply lxor_u8; [apply IH; auto with lia|apply H; lia].
Qed.

Lemma big_lxor n f g : big n (fun k => f k ⊕ g k) = big n f ⊕ big n g.
Proof. induction n as [|n IH]; simpl; [done|]. rewrite IH. apply lxor_swap. Qed.

Lemma big_mul_l n a f : is_u8 a -> mul a (big n f) = big n (fun k => mul a (f k)).
Proof.
  intros Ha. induction n as [|n IH]; simpl; [by apply mul_0_r|]. by rewrite mul_lxor_r, IH.
Qed.

Lemma big_mul_r n a f : (forall k, (k < n)%nat -> is_u8 (f k)) ->
  mul (big n f) a = big n (fun k => mul (f k) a).
Proof.
  induction n as [|n IH]; intros Hf; simpl; [apply mul_0_l|].
  rewrite mul_lxor_l, IH; [done|auto with lia|apply big_u8; auto with lia|apply Hf; lia].
Qed.

Lemma big_swap n m f : big n (fun i => big m (fun j => f i j)) = big m (fun j => big n (fun i => f i j)).
Proof.
  induction n as [|n IH]; simpl; [by rewrite big_0|]. by rewrite IH, <- big_lxor.
Qed.

Lemma big_single n i f : (i < n)%nat -> (forall k, (k < n)%nat -> k <> i -> f k = 0) -> big n f = f i.
Proof.
  induction n as [|n IH]; intros Hi H; [lia|]. simpl. destruct (decide (i = n)) as [->|].
  - rewrite big_0, Z.lxor_0_l; [done|]. intros k Hk. apply H; lia.
  - rewrite IH, (H n), Z.lxor_0_r; [done|lia|lia|lia|]. intros k Hk. apply H. lia.
Qed.

(** ** Entries *)
Definition sized (r c : nat) (m : Matrix) : Prop :=
  m_rows m = r /\ m_cols m = c /\ length (m_data m) = (r * c)%nat.
Definition entries_u8 (m : Matrix) : Prop :=
  forall i j, (i < m_rows m)%nat -> (j < m_cols m)%nat -> is_u8 (get m i j).

Lemma index_inj c i j i' j' : (j < c)%nat -> (j' < c)%nat ->
  (i * c + j = i' * c + j')%nat -> i = i' /\ j = j'.
Proof.
  intros Hj Hj' E.
  assert (i = i') as ->; [|split; lia].
  assert ((i * c + j) / c = i)%nat by (symmetry; apply (Nat.div_unique _ _ _ j); lia).
  assert ((i' * c + j') / c = i')%nat by (symmetry; apply (Nat.div_unique _ _ _ j'); lia).
  congruence.
Qed.

Lemma index_lt r c i j : (i < r)%nat -> (j < c)%nat -> (i * c + j < r * c)%nat.
Proof. nia. Qed.

Lemma sized_set r c m i j v : sized r c m -> sized r c (set m i j v).
Proof. intros (H1 & H2 & H3). split; [done|]. split; [done|]. simpl. by rewrite length_insert. Qed.

Lemma get_set r c m i j v i' j' : sized r c m ->
  (i < r)%nat -> (j < c)%nat -> (i' < r)%nat -> (j' < c)%nat ->
  get (set m i j v) i' j' = if Nat.eqb i' i && Nat.eqb j' j then v else get m i' j'.
Proof.
  intros (H1 & H2 & H3) Hi Hj Hi' Hj'. unfold get, set. simpl. rewrite H2.
  pose proof (index_lt r c i j Hi Hj). pose proof (index_lt r c i' j' Hi' Hj').
  rewrite !nth_lookup. destruct (Nat.eqb_spec i' i) as [->|Hne]; simpl.
  - destruct (Nat.eqb_spec j' j) as [->|Hne]; simpl.
    + by rewrite list_lookup_insert_eq by lia.
    + rewrite list_lookup_insert_ne; [done|]. lia.
  - rewrite list_lookup_insert_ne; [done|]. intros E. apply index_inj in E; lia.
Qed.

Lemma sized_zeros r c : sized r c (zeros r c).
Proof. split; [done|]. split; [done|]. simpl. by rewrite length_replicate. Qed.

Lemma get_zeros r c i j : get (zeros r c) i j = 0.
Proof.
  unfold get. simpl. rewrite nth_lookup. destruct (replicate _ _ !! _) eqn:E; [|done].
  by apply lookup_replicate in E as [-> _].
Qed.

(** A loop whose body rewrites the entries of one column from that column. *)
Definition column_step (r c : nat) (step : Matrix -> nat -> Matrix) (h : Matrix -> nat -> nat -> Z) : Prop :=
  (forall m j, sized r c m -> (j < c)%nat -> sized r c (step m j) /\
     forall i j', (i < r)%nat -> (j' < c)%nat ->
       get (step m j) i j' = if Nat.eqb j' j then h m i j else get m i j') /\
  (forall m m' i j, (forall i, (i < r)%nat -> get m i j = get m' i j) -> (i < r)%nat -> h m i j = h m' i j).

Lemma for_each_columns r c n step h m :
  column_step r c step h -> sized r c m -> (n <= c)%nat ->
  sized r c (for_each n step m) /\
  forall i j, (i < r)%nat -> (j < c)%nat ->
    get (for_each n step m) i j = if Nat.ltb j n then h m i j else get m i j.
Proof.
  intros [Hs Hext] Hm. induction n as [|n IH]; intros Hn; [by split|].
  destruct (IH ltac:(lia)) as [Hsz Hg]. unfold for_each in *. rewrite seq_S, fold_left_app. simpl.
  destruct (Hs _ n Hsz ltac:(lia)) as [Hsz' Hg']. split; [done|]. intros i j Hi Hj.
  rewrite Hg' by done. destruct (Nat.eqb_spec j n) as [->|Hne].
  - rewrite (proj2 (Nat.ltb_lt n (S n))) by lia. apply Hext; [|done].
    intros i' Hi'. rewrite Hg by done. by rewrite Nat.ltb_irrefl.
  - rewrite Hg by done. destruct (Nat.ltb_spec j n), (Nat.ltb_spec j (S n)); try lia; done.
Qed.

Lemma column_step_set r c a (v : Matrix -> nat -> Z) :
  (a < r)%nat ->
  (forall m m' j, (forall i, (i < r)%nat -> get m i j = get m' i j) -> v m j = v m' j) ->
  column_step r c (fun m j => set m a j (v m j)) (fun m i j => if Nat.eqb i a then v m j else get m i j).
Proof.
  intros Ha Hv. split.
  - intros m j Hm Hj. split; [by apply sized_set|]. intros i j' Hi Hj'.
    rewrite (get_set r c) by done. destruct (Nat.eqb_spec i a), (Nat.eqb_spec j' j); subst; done.
  - intros m m' i j H Hi. destruct (Nat.eqb i a); [by apply Hv|by apply H].
Qed.

(** ** The entries of every operation's result *)
Lemma build_spec r c f :
  sized r c (build r c f) /\ forall i j, (i < r)%nat -> (j < c)%nat -> get (build r c f) i j = f i j.
Proof.
  unfold build.
  assert (forall n, (n <= r)%nat ->
    let m := for_each n (fun m i => for_each c (fun m j => set m i j (f i j)) m) (zeros r c) in
    sized r c m /\ forall i j, (i < n)%nat -> (j < c)%nat -> get m i j = f i j) as H; [|by apply (H r)].
  induction n as [|n IH]; intros Hn; [split; [apply sized_zeros|lia]|].
  destruct (IH ltac:(lia)) as [Hs Hg]. simpl. unfold for_each at 1 3. rewrite seq_S, fold_left_app. simpl.
  fold (for_each n (fun m i => for_each c (fun m j => set m i j (f i j)) m) (zeros r c)).
  destruct (for_each_columns r c c _ _ _ (column_step_set r c n (fun _ j => f n j) ltac:(lia) ltac:(done))
    Hs ltac:(lia)) as [Hs' Hg'].
  split; [done|]. intros i j Hi Hj. rewrite Hg' by lia. rewrite (proj2 (Nat.ltb_lt j c) Hj).
  destruct (Nat.eqb_spec i n) as [->|]; [done|]. apply Hg; lia.
Qed.

Lemma sized_build r c f : sized r c (build r c f). Proof. apply build_spec. Qed.
Lemma get_build r c f i j : (i < r)%nat -> (j < c)%nat -> get (build r c f) i j = f i j.
Proof. apply build_spec. Qed.

Lemma select_rows_sized m l : sized (length l) (m_cols m) (select_rows m l).
Proof. apply sized_build. Qed.
Lemma get_select_rows m l i j : (i < length l)%nat -> (j < m_cols m)%nat ->
  get (select_rows m l) i j = get m (nth i l 0%nat) j.
Proof. intros Hi Hj. unfold select_rows. by rewrite get_build. Qed.

Definition delta (i j : nat) : Z := if Nat.eqb i j then 1 else 0.

Lemma identity_spec n :
  sized n n (identity n) /\ forall i j, (i < n)%nat -> (j < n)%nat -> get (identity n) i j = delta i j.
Proof.
  unfold identity.
  assert (forall k, (k <= n)%nat ->
    let m := for_each k (fun m i => set m i i 1) (zeros n n) in
    sized n n m /\ forall i j, (i < n)%nat -> (j < n)%nat ->
      get m i j = if Nat.ltb i k then delta i j else 0) as H.
  { induction k as [|k IH]; intros Hk; [split; [apply sized_zeros|intros; apply get_zeros]|].
    destruct (IH ltac:(lia)) as [Hs Hg]. simpl. unfold for_each in *. rewrite seq_S, fold_left_app. simpl.
    split; [by apply sized_set|]. intros i j Hi Hj. rewrite (get_set n n), Hg by (done || lia).
    unfold delta. destruct (Nat.eqb_spec i k), (Nat.eqb_spec j k), (Nat.eqb_spec i j),
      (Nat.ltb_spec i k), (Nat.ltb_spec i (S k)); try lia; done. }
  destruct (H n ltac:(lia)) as [Hs Hg]. split; [done|]. intros i j Hi Hj. rewrite Hg by done.
  by rewrite (proj2 (Nat.ltb_lt i n) Hi).
Qed.

(** The inner loops of the product: one row [i], one [k], all columns. *)
Definition mul_row_step (a b : Matrix) (i : nat) (out : Matrix) (k : nat) : Matrix :=
  let x := get a i k in
  if x =? 0 then out
  else for_each (m_cols b) (fun out j => set out i j (get out i j ⊕ mul x (get b k j))) out.

Lemma mul_row_step_spec a b r c i k out :
  sized r c out -> m_cols b = c -> (i < r)%nat ->
  sized r c (mul_row_step a b i out k) /\
  forall i' j, (i' < r)%nat -> (j < c)%nat ->
    get (mul_row_step a b i out k) i' j =
    if Nat.eqb i' i then get out i j ⊕ mul (get a i k) (get b k j) else get out i' j.
Proof.
  intros Hs Hc Hi. unfold mul_row_step. destruct (Z.eqb_spec (get a i k) 0) as [E|E].
  - split; [done|]. intros i' j Hi' Hj. rewrite E, mul_0_l, Z.lxor_0_r.
    destruct (Nat.eqb_spec i' i); by subst.
  - rewrite Hc.
    destruct (for_each_columns r c c _ _ _
      (column_step_set r c i (fun m j => get m i j ⊕ mul (get a i k) (get b k j)) Hi
         ltac:(intros m m' j H; cbv beta; by rewrite (H i Hi))) Hs ltac:(lia)) as [Hs' Hg].
    split; [done|]. intros i' j Hi' Hj. rewrite Hg by done. by rewrite (proj2 (Nat.ltb_lt j c) Hj).
Qed.

Lemma mul_row_spec a b r c i n out :
  sized r c out -> m_cols b = c -> (i < r)%nat ->
  sized r c (for_each n (mul_row_step a b i) out) /\
  forall i' j, (i' < r)%nat -> (j < c)%nat ->
    get (for_each n (mul_row_step a b i) out) i' j =
    if Nat.eqb i' i then get out i j ⊕ big n (fun k => mul (get a i k) (get b k j)) else get out i' j.
Proof.
  intros Hs Hc Hi. induction n as [|n IH]; simpl.
  - split; [done|]. intros i' j _ _. rewrite Z.lxor_0_r. unfold for_each. simpl.
    destruct (Nat.eqb_spec i' i); by subst.
  - destruct IH as [Hs' Hg]. unfold for_each in *. rewrite seq_S, fold_left_app. simpl.
    destruct (mul_row_step_spec a b r c i n _ Hs' Hc Hi) as [Hs2 Hg2]. split; [done|].
    intros i' j Hi' Hj. rewrite Hg2 by done. destruct (Nat.eqb_spec i' i) as [->|Hne].
    + rewrite Hg by done. rewrite Nat.eqb_refl. by rewrite Z.lxor_assoc.
    + rewrite Hg by done. by rewrite (proj2 (Nat.eqb_neq i' i) Hne).
Qed.

Lemma mat_mul_spec a b :
  sized (m_rows a) (m_cols b) (mat_mul a b) /\
  forall i j, (i < m_rows a)%nat -> (j < m_cols b)%nat ->
    get (mat_mul a b) i j = big (m_cols a) (fun k => mul (get a i k) (get b k j)).
Proof.
  set (r := m_rows a). set (c := m_cols b).
  assert (forall n, (n <= r)%nat ->
    let m := for_each n (fun out i => for_each (m_cols a) (mul_row_step a b i) out) (zeros r c) in
    sized r c m /\ forall i j, (i < r)%nat -> (j < c)%nat ->
      get m i j = if Nat.ltb i n then big (m_cols a) (fun k => mul (get a i k) (get b k j)) else 0) as H.
  { induction n as [|n IH]; intros Hn; [split; [apply sized_zeros|intros; apply get_zeros]|].
    destruct (IH ltac:(lia)) as [Hs Hg]. simpl. unfold for_each at 1 3. rewrite seq_S, fold_left_app. simpl.
    fold (for_each n (fun out i => for_each (m_cols a) (mul_row_step a b i) out) (zeros r c)).
    destruct (mul_row_spec a b r c n (m_cols a) _ Hs eq_refl ltac:(lia)) as [Hs2 Hg2].
    split; [done|]. intros i j Hi Hj. rewrite Hg2 by done.
    destruct (Nat.eqb_spec i n) as [->|Hne].
    - rewrite Hg by done. rewrite Nat.ltb_irrefl, Z.lxor_0_l. by rewrite (proj2 (Nat.ltb_lt n (S n))) by lia.
    - rewrite Hg by done. destruct (Nat.ltb_spec i n), (Nat.ltb_spec i (S n)); try lia; done. }
  destruct (H r ltac:(lia)) as [Hs Hg]. split; [exact Hs|]. intros i j Hi Hj. etrans; [by apply Hg|].
  by rewrite (proj2 (Nat.ltb_lt i r) Hi).
Qed.

Lemma sized_mat_mul a b : sized (m_rows a) (m_cols b) (mat_mul a b). Proof. apply mat_mul_spec. Qed.
Lemma get_mat_mul a b i j : (i < m_rows a)%nat -> (j < m_cols b)%nat ->
  get (mat_mul a b) i j = big (m_cols a) (fun k => mul (get a i k) (get b k j)).
Proof. apply mat_mul_spec. Qed.

Lemma swap_rows_spec r c m a b : sized r c m -> (a < r)%nat -> (b < r)%nat ->
  sized r c (swap_rows m a b) /\ forall i j, (i < r)%nat -> (j < c)%nat ->
    get (swap_rows m a b) i j =
    if Nat.eqb i b then get m a j else if Nat.eqb i a then get m b j else get m i j.
Proof.
  intros Hs Ha Hb. unfold swap_rows. rewrite (proj1 (proj2 Hs)).
  destruct (for_each_columns r c c (fun m col => set (set m a col (get m b col)) b col (get m a col))
    (fun m i j => if Nat.eqb i b then get m a j else if Nat.eqb i a then get m b j else get m i j) m)
    as [Hs' Hg]; [|done|lia|].
  - split.
    + intros m' j Hm' Hj. split; [by apply sized_set, sized_set|]. intros i j' Hi Hj'.
      rewrite (get_set r c) by (done || by apply sized_set). rewrite (get_set r c) by done.
      destruct (Nat.eqb_spec i a), (Nat.eqb_spec i b), (Nat.eqb_spec j' j); subst; done.
    + intros m1 m2 i j H Hi. by rewrite (H a Ha), (H b Hb), (H i Hi).
  - split; [done|]. intros i j Hi Hj. rewrite Hg by done. by rewrite (proj2 (Nat.ltb_lt j c) Hj).
Qed.

Lemma set_loop_spec r c m a (v : Matrix -> nat -> Z) :
  sized r c m -> (a < r)%nat ->
  (forall m m' j, (forall i, (i < r)%nat -> get m i j = get m' i j) -> v m j = v m' j) ->
  let m' := for_each c (fun m j => set m a j (v m j)) m in
  sized r c m' /\ forall i j, (i < r)%nat -> (j < c)%nat ->
    get m' i j = if Nat.eqb i a then v m j else get m i j.
Proof.
  intros Hs Ha Hv.
  destruct (for_each_columns r c c _ _ m (column_step_set r c a v Ha Hv) Hs ltac:(lia)) as [Hs' Hg].
  split; [done|]. intros i j Hi Hj. rewrite Hg by done. by rewrite (proj2 (Nat.ltb_lt j c) Hj).
Qed.

Lemma scale_row_spec r c m a f : sized r c m -> (a < r)%nat ->
  sized r c (scale_row m a f) /\ forall i j, (i < r)%nat -> (j < c)%nat ->
    get (scale_row m a f) i j = if Nat.eqb i a then mul (get m a j) f else get m i j.
Proof.
  intros Hs Ha. unfold scale_row. rewrite (proj1 (proj2 Hs)).
  apply (set_loop_spec r c m a (fun m j => mul (get m a j) f)); [done|done|].
  intros m1 m2 j H. by rewrite (H a Ha).
Qed.

Lemma add_scaled_row_spec r c m dst src f : sized r c m -> (dst < r)%nat -> (src < r)%nat ->
  sized r c (add_scaled_row m dst src f) /\ forall i j, (i < r)%nat -> (j < c)%nat ->
    get (add_scaled_row m dst src f) i j =
    if Nat.eqb i dst then get m dst j ⊕ mul (get m src j) f else get m i j.
Proof.
  intros Hs Hd Hsrc. unfold add_scaled_row. rewrite (proj1 (proj2 Hs)).
  apply (set_loop_spec r c m dst (fun m j => get m dst j ⊕ mul (get m src j) f)); [done|done|].
  intros m1 m2 j H. by rewrite (H dst Hd), (H src Hsrc).
Qed.
