(* ===== verification/Gauss.v ===== *)
(** * Gauss: inversion is correct, and applies to the generator matrix

    The invariant of [Matrix.invert]: [work] is [inverse * self], every
    vector [work] kills is killed by [self], and [inverse] kills only zero.
    It is kept by any row operation that is linear and injective on columns
    ([row_op]); the three operations of the source are.  Then every choice of
    rows of the generator matrix is invertible. *)

From Stdlib Require Import ZArith Lia.
From stdpp Require Import base list.
From S2P Require Import Prelude GF256 Matrix.
Open Scope Z_scope.
Open Scope mini_scope.

Section Gauss.
Context (n : nat).

Definition vec_u8 (x : nat -> Z) : Prop := forall k, (k < n)%nat -> is_u8 (x k).
(** Row [i] of the matrix applied to the vector [x]. *)
Definition apply_row (m : Matrix) (x : nat -> Z) (i : nat) : Z := big n (fun k => mul (get m i k) (x k)).
(** The matrix kills [x]. *)
Definition kills (m : Matrix) (x : nat -> Z) : Prop := forall i, (i < n)%nat -> apply_row m x i = 0.
Definition zero_vec (x : nat -> Z) : Prop := forall k, (k < n)%nat -> x k = 0.
Definition trivial_kernel (m : Matrix) : Prop := forall x, vec_u8 x -> kills m x -> zero_vec x.

(** A transformation of columns that commutes with sums and loses nothing. *)
Record row_op (F : (nat -> Z) -> nat -> Z) : Prop := {
  op_linear c x i : (forall k, vec_u8 (c k)) -> vec_u8 x -> (i < n)%nat ->
    F (fun k => big n (fun l => mul (c k l) (x l))) i = big n (fun l => mul (F (fun k => c k l) i) (x l));
  op_injective v : vec_u8 v -> zero_vec (F v) -> zero_vec v;
  op_u8 v i : vec_u8 v -> (i < n)%nat -> is_u8 (F v i);
  op_ext v v' i : (forall k, (k < n)%nat -> v k = v' k) -> (i < n)%nat -> F v i = F v' i;
}.

(** [f] performs the column transformation [F]. *)
Definition performs (f : Matrix -> Matrix) (F : (nat -> Z) -> nat -> Z) : Prop :=
  forall m, sized n n m -> sized n n (f m) /\
    forall i j, (i < n)%nat -> (j < n)%nat -> get (f m) i j = F (fun k => get m k j) i.

Definition square_u8 (m : Matrix) : Prop :=
  sized n n m /\ forall i j, (i < n)%nat -> (j < n)%nat -> is_u8 (get m i j).

Record inverts (self : Matrix) (wi : Matrix * Matrix) : Prop := {
  iv_work : square_u8 wi.1;
  iv_inverse : square_u8 wi.2;
  iv_product i j : (i < n)%nat -> (j < n)%nat -> get wi.1 i j = big n (fun k => mul (get wi.2 i k) (get self k j));
  iv_kernel x : vec_u8 x -> kills wi.1 x -> kills self x;
  iv_inverse_kernel : trivial_kernel wi.2;
}.

(** Rows beyond the matrix read as zero, so that sums may range freely. *)
Definition column_entry (m : Matrix) (k l : nat) : Z := if Nat.ltb k n then get m k l else 0.
Lemma column_entry_u8 m k : square_u8 m -> vec_u8 (column_entry m k).
Proof.
  intros [_ Hm] l Hl. unfold column_entry. destruct (Nat.ltb_spec k n); [by apply Hm|apply u8_0].
Qed.
Lemma column_entry_eq m k l : (k < n)%nat -> column_entry m k l = get m k l.
Proof. intros H. unfold column_entry. by rewrite (proj2 (Nat.ltb_lt k n) H). Qed.

Lemma op_rows f F m x i :
  performs f F -> row_op F -> square_u8 m -> vec_u8 x -> (i < n)%nat ->
  apply_row (f m) x i = F (apply_row m x) i.
Proof.
  intros Hp Ho Hm Hx Hi. destruct (Hp m (proj1 Hm)) as [_ Hg]. unfold apply_row.
  transitivity (big n (fun k => mul (F (fun r => column_entry m r k) i) (x k))).
  - apply big_ext. intros k Hk. rewrite Hg by done. f_equal. apply (op_ext _ Ho); [|done].
    intros r Hr. by rewrite column_entry_eq.
  - rewrite <- (op_linear _ Ho (column_entry m) x i); [|intros; by apply column_entry_u8|done|done].
    apply (op_ext _ Ho); [|done]. intros k Hk. apply big_ext. intros l Hl. by rewrite column_entry_eq.
Qed.

Lemma op_square f F m : performs f F -> row_op F -> square_u8 m -> square_u8 (f m).
Proof.
  intros Hp Ho [Hs Hu]. destruct (Hp m Hs) as [Hs' Hg]. split; [done|]. intros i j Hi Hj.
  rewrite Hg by done. apply (op_u8 _ Ho); [|done]. intros k Hk. by apply Hu.
Qed.

Lemma apply_row_u8 m x : square_u8 m -> vec_u8 (apply_row m x).
Proof. intros [_ Hm] i Hi. apply big_u8. intros k Hk. apply mul_u8. by apply Hm. Qed.

Lemma op_kernel f F m x : performs f F -> row_op F -> square_u8 m -> vec_u8 x ->
  kills (f m) x -> kills m x.
Proof.
  intros Hp Ho Hm Hx Hk. apply (op_injective _ Ho); [by apply apply_row_u8|].
  intros i Hi. rewrite <- (op_rows f F) by done. by apply Hk.
Qed.

Lemma inverts_op self f F wi :
  square_u8 self -> performs f F -> row_op F -> inverts self wi -> inverts self (f wi.1, f wi.2).
Proof.
  intros Hself Hp Ho []. constructor; simpl; try (by eapply op_square).
  - intros i j Hi Hj. destruct (Hp wi.1 (proj1 iv_work0)) as [_ Hg1]. destruct (Hp wi.2 (proj1 iv_inverse0)) as [_ Hg2].
    rewrite Hg1 by done.
    rewrite (op_ext _ Ho _ (apply_row wi.2 (fun k => get self k j))) by auto.
    rewrite <- (op_rows f F) by (try done; intros k Hk; by apply Hself). done.
  - intros x Hx Hk. apply iv_kernel0; [done|]. by eapply op_kernel.
  - intros x Hx Hk. apply iv_inverse_kernel0; [done|]. by eapply op_kernel.
Qed.

(** ** The source's row operations *)
Definition F_swap (a b : nat) (v : nat -> Z) (i : nat) : Z :=
  if Nat.eqb i b then v a else if Nat.eqb i a then v b else v i.
Definition F_scale (a : nat) (f : Z) (v : nat -> Z) (i : nat) : Z :=
  if Nat.eqb i a then mul (v a) f else v i.
Definition F_add (dst src : nat) (f : Z) (v : nat -> Z) (i : nat) : Z :=
  if Nat.eqb i dst then v dst ⊕ mul (v src) f else v i.

Lemma swap_performs a b : (a < n)%nat -> (b < n)%nat -> performs (fun m => swap_rows m a b) (F_swap a b).
Proof. intros Ha Hb m Hm. by apply swap_rows_spec. Qed.
Lemma scale_performs a f : (a < n)%nat -> performs (fun m => scale_row m a f) (F_scale a f).
Proof. intros Ha m Hm. by apply scale_row_spec. Qed.
Lemma add_performs d s f : (d < n)%nat -> (s < n)%nat -> performs (fun m => add_scaled_row m d s f) (F_add d s f).
Proof. intros Hd Hs m Hm. by apply add_scaled_row_spec. Qed.

Lemma swap_op a b : (a < n)%nat -> (b < n)%nat -> row_op (F_swap a b).
Proof.
  intros Ha Hb. unfold F_swap. constructor.
  - intros c x i Hc Hx Hi. by destruct (Nat.eqb i b), (Nat.eqb i a).
  - intros v Hv Hz k Hk. pose proof (Hz k Hk) as H1. pose proof (Hz a Ha) as H2. pose proof (Hz b Hb) as H3.
    cbv beta in H1, H2, H3. rewrite Nat.eqb_refl in H3. rewrite Nat.eqb_refl in H2.
    destruct (Nat.eqb_spec k b), (Nat.eqb_spec k a), (Nat.eqb_spec a b); congruence.
  - intros v i Hv Hi. destruct (Nat.eqb i b), (Nat.eqb i a); auto.
  - intros v v' i H Hi. rewrite (H a Ha), (H b Hb), (H i Hi). done.
Qed.

Lemma big_scale c x f : vec_u8 c -> vec_u8 x -> is_u8 f ->
  mul (big n (fun l => mul (c l) (x l))) f = big n (fun l => mul (mul (c l) f) (x l)).
Proof.
  intros Hc Hx Hf. rewrite big_mul_r by (intros; apply mul_u8; auto).
  apply big_ext. intros l Hl. rewrite !mul_assoc by auto. f_equal. by apply mul_comm; auto.
Qed.

Lemma scale_op a f : (a < n)%nat -> is_u8 f -> f <> 0 -> row_op (F_scale a f).
Proof.
  intros Ha Hf Hne. unfold F_scale. constructor.
  - intros c x i Hc Hx Hi. destruct (Nat.eqb i a); [by apply big_scale|done].
  - intros v Hv Hz k Hk. specialize (Hz k Hk). simpl in Hz.
    destruct (Nat.eqb_spec k a) as [E|E]; [|done]. subst k. apply mul_eq_0 in Hz; [|auto|done]. tauto.
  - intros v i Hv Hi. destruct (Nat.eqb i a); [apply mul_u8|]; auto.
  - intros v v' i H Hi. by rewrite (H a Ha), (H i Hi).
Qed.

Lemma add_op d s f : (d < n)%nat -> (s < n)%nat -> d <> s -> is_u8 f -> row_op (F_add d s f).
Proof.
  intros Hd Hs Hne Hf. unfold F_add. constructor.
  - intros c x i Hc Hx Hi. destruct (Nat.eqb i d); [|done].
    rewrite big_scale by done. rewrite <- big_lxor. apply big_ext. intros l Hl.
    rewrite mul_lxor_l; [done|by apply Hc|by apply mul_u8, Hc].
  - intros v Hv Hz k Hk. pose proof (Hz s Hs) as Hvs. simpl in Hvs.
    rewrite (proj2 (Nat.eqb_neq s d) ltac:(lia)) in Hvs.
    pose proof (Hz k Hk) as Hvk. simpl in Hvk. destruct (Nat.eqb_spec k d) as [E|E]; [|done]. subst k.
    by rewrite Hvs, mul_0_l, Z.lxor_0_r in Hvk.
  - intros v i Hv Hi. destruct (Nat.eqb i d); [apply lxor_u8; [|apply mul_u8]|]; auto.
  - intros v v' i H Hi. by rewrite (H d Hd), (H s Hs), (H i Hi).
Qed.

(** ** Pivots *)

(** The first [c] columns of [work] are those of the identity. *)
Definition unit_columns (c : nat) (w : Matrix) : Prop :=
  forall i j, (i < n)%nat -> (j < c)%nat -> get w i j = delta i j.

Definition singular (m : Matrix) : Prop := exists x, vec_u8 x /\ kills m x /\ ~ zero_vec x.

(** Without a pivot in column [c], the vector that expresses column [c] by
    the earlier ones is killed. *)
Definition dependency (w : Matrix) (c k : nat) : Z :=
  if Nat.ltb k c then get w k c else if Nat.eqb k c then 1 else 0.

Lemma dependency_killed w c : square_u8 w -> unit_columns c w -> (c < n)%nat ->
  (forall r, (c <= r < n)%nat -> get w r c = 0) -> kills w (dependency w c).
Proof.
  intros Hw Hu Hc Hz i Hi'. unfold apply_row.
  transitivity (big n (fun k => (if Nat.eqb k i && Nat.ltb i c then get w i c else 0)
                      ⊕ (if Nat.eqb k c then get w i c else 0))).
  - apply big_ext. intros k Hk. unfold dependency. destruct (Nat.ltb_spec k c) as [Hkc|Hkc].
    + rewrite (Hu i k Hi' Hkc). unfold delta. rewrite (proj2 (Nat.eqb_neq k c)) by lia.
      destruct (Nat.eqb_spec i k) as [->|Hne].
      * rewrite Nat.eqb_refl, (proj2 (Nat.ltb_lt k c) Hkc). simpl. rewrite Z.lxor_0_r.
        apply mul_1_l. by apply Hw.
      * rewrite (proj2 (Nat.eqb_neq k i)) by lia. simpl. by rewrite mul_0_l.
    + assert ((Nat.eqb k i && Nat.ltb i c) = false) as ->.
      { destruct (Nat.eqb_spec k i), (Nat.ltb_spec i c); simpl; (lia || done). }
      rewrite Z.lxor_0_l. destruct (Nat.eqb_spec k c) as [->|Hne].
      * apply mul_1_r. by apply Hw.
      * apply mul_0_r. by apply Hw.
  - rewrite big_lxor, (big_single n c (fun k => if Nat.eqb k c then _ else 0))
      by (done || (intros k Hk Hne; by rewrite (proj2 (Nat.eqb_neq k c) Hne))).
    rewrite Nat.eqb_refl. destruct (Nat.ltb_spec i c) as [Hic|Hic].
    + rewrite (big_single n i), Nat.eqb_refl; [apply Z.lxor_nilpotent|done|].
      intros k Hk Hne. by rewrite (proj2 (Nat.eqb_neq k i) Hne).
    + rewrite big_0 by (intros; by rewrite andb_false_r). rewrite Z.lxor_0_l. by apply Hz.
Qed.

Lemma pivot_missing self wi c :
  inverts self wi -> unit_columns c wi.1 -> (c < n)%nat ->
  List.find (fun r => negb (get wi.1 r c =? 0)) (seq c (n - c)) = None -> singular self.
Proof.
  intros Hi Hu Hc E. pose proof (iv_work _ _ Hi) as Hw.
  assert (vec_u8 (dependency wi.1 c)) as Hx.
  { intros k Hk. unfold dependency. destruct (Nat.ltb k c); [by apply Hw|].
    destruct (Nat.eqb k c); [apply u8_1|apply u8_0]. }
  exists (dependency wi.1 c). split; [done|]. split.
  - apply (iv_kernel _ _ Hi); [done|]. apply dependency_killed; [done..|]. intros r Hr.
    pose proof (List.find_none _ _ E r) as Hn. rewrite in_seq in Hn.
    specialize (Hn ltac:(lia)). by bool_prop.
  - intros Hz. specialize (Hz c Hc). unfold dependency in Hz. by rewrite Nat.ltb_irrefl, Nat.eqb_refl in Hz.
Qed.

(** A row operation on rows [>= c] keeps the columns already done, when it
    sends zero entries to zero entries there. *)
Definition keeps_units (c : nat) (F : (nat -> Z) -> nat -> Z) : Prop :=
  forall v i j, (i < n)%nat -> (j < c)%nat -> (forall k, (k < n)%nat -> v k = delta k j) -> F v i = delta i j.

Lemma op_units f F w c : performs f F -> sized n n w -> keeps_units c F -> (c <= n)%nat ->
  unit_columns c w -> unit_columns c (f w).
Proof.
  intros Hp Hs Hk Hc Hu i j Hi Hj. destruct (Hp w Hs) as [_ ->]; [|done|lia].
  apply Hk; [done|done|]. intros k Hkn. by apply Hu.
Qed.

Lemma delta_ne i j : i <> j -> delta i j = 0.
Proof. intros H. unfold delta. by rewrite (proj2 (Nat.eqb_neq i j) H). Qed.
Lemma delta_refl i : delta i i = 1.
Proof. unfold delta. by rewrite Nat.eqb_refl. Qed.

Lemma swap_units a b c : (c <= a < n)%nat -> (c <= b < n)%nat -> keeps_units c (F_swap a b).
Proof.
  intros Ha Hb v i j Hi Hj Hv. unfold F_swap.
  destruct (Nat.eqb_spec i b); [|destruct (Nat.eqb_spec i a)]; rewrite Hv, ?delta_ne by lia; try done;
    by rewrite delta_ne by lia.
Qed.
Lemma scale_units a f c : (c <= a < n)%nat -> keeps_units c (F_scale a f).
Proof.
  intros Ha v i j Hi Hj Hv. unfold F_scale. destruct (Nat.eqb_spec i a) as [E|E]; [|by apply Hv].
  rewrite Hv, !delta_ne by lia. apply mul_0_l.
Qed.
Lemma add_units d s f c : (d < n)%nat -> (c <= s < n)%nat -> keeps_units c (F_add d s f).
Proof.
  intros Hd Hs v i j Hi Hj Hv. unfold F_add. destruct (Nat.eqb_spec i d) as [E|E]; [|by apply Hv].
  subst i. rewrite !Hv, (delta_ne s j), mul_0_l by lia. apply Z.lxor_0_r.
Qed.

(** The state of the inversion inside column [c], the rows before [m]
    eliminated. *)
Record eliminated (self : Matrix) (c m : nat) (wi : Matrix * Matrix) : Prop := {
  el_inverts : inverts self wi;
  el_units : unit_columns c wi.1;
  el_pivot : get wi.1 c c = 1;
  el_zero i : (i < m)%nat -> (i < n)%nat -> i <> c -> get wi.1 i c = 0;
}.

Lemma eliminate_step self c m wi : square_u8 self -> (c < n)%nat -> (m < n)%nat ->
  eliminated self c m wi -> eliminated self c (S m) (eliminate c wi m).
Proof.
  intros Hself Hc Hm [Hi Hu Hp Hz]. unfold eliminate. destruct (Nat.eqb_spec m c) as [E|E].
  { constructor; try done. intros i Hi' Hn Hne. apply Hz; [lia|done|done]. }
  destruct (Z.eqb_spec (get wi.1 m c) 0) as [E0|E0].
  { constructor; try done. intros i Hi' Hn Hne. destruct (decide (i = m)) as [-> |]; [done|].
    apply Hz; [lia|done|done]. }
  pose proof (proj1 (iv_work _ _ Hi)) as Hs. pose proof (proj2 (iv_work _ _ Hi) m c Hm Hc) as Hf.
  pose proof (add_performs m c (get wi.1 m c) Hm Hc) as Hperf. destruct (Hperf _ Hs) as [_ Hg].
  constructor; simpl.
  - apply (inverts_op self _ _ wi Hself Hperf); [by apply add_op|done].
  - apply (op_units _ _ _ _ Hperf); [done|by apply add_units|lia|done].
  - rewrite Hg by done. unfold F_add. rewrite (proj2 (Nat.eqb_neq c m)); [done|auto].
  - intros i Hi' Hn Hne. rewrite Hg by done. unfold F_add. destruct (Nat.eqb_spec i m) as [E'|E'].
    + rewrite Hp, mul_1_l by done. apply Z.lxor_nilpotent.
    + apply Hz; [lia|done|done].
Qed.

Lemma eliminate_all self c wi : square_u8 self -> (c < n)%nat ->
  eliminated self c 0 wi -> eliminated self c n (fold_left (eliminate c) (seq 0 n) wi).
Proof.
  intros Hself Hc H0.
  assert (forall m, (m <= n)%nat -> eliminated self c m (fold_left (eliminate c) (seq 0 m) wi)) as H; [|by apply H].
  induction m as [|m IH]; intros Hm; [done|]. rewrite seq_S, fold_left_app. simpl.
  apply eliminate_step; [done|done|lia|apply IH; lia].
Qed.

Lemma pivot_swap self wi c r : square_u8 self -> (c < n)%nat -> (c <= r < n)%nat ->
  inverts self wi -> unit_columns c wi.1 -> get wi.1 r c <> 0 ->
  let wi' := if Nat.eqb r c then wi else (swap_rows wi.1 r c, swap_rows wi.2 r c) in
  inverts self wi' /\ unit_columns c wi'.1 /\ get wi'.1 c c <> 0.
Proof.
  intros Hself Hc Hr Hi Hu Hg. destruct (Nat.eqb_spec r c) as [E|E]; simpl; [by subst|].
  pose proof (swap_performs r c ltac:(lia) Hc) as Hp. pose proof (proj1 (iv_work _ _ Hi)) as Hs.
  split; [|split].
  - apply (inverts_op self _ _ wi Hself Hp); [by apply swap_op; lia|done].
  - apply (op_units _ _ _ _ Hp); [done|apply swap_units; lia|lia|done].
  - destruct (Hp _ Hs) as [_ ->]; [|done|done]. unfold F_swap. by rewrite Nat.eqb_refl.
Qed.

Lemma pivot_scale self wi c : square_u8 self -> (c < n)%nat ->
  inverts self wi -> unit_columns c wi.1 -> get wi.1 c c <> 0 ->
  let f := inv (get wi.1 c c) in eliminated self c 0 (scale_row wi.1 c f, scale_row wi.2 c f).
Proof.
  intros Hself Hc Hi Hu Hg. pose proof (proj1 (iv_work _ _ Hi)) as Hs.
  pose proof (proj2 (iv_work _ _ Hi) c c Hc Hc) as Hf.
  destruct (inv_spec _ Hf Hg) as [Hinv Hone].
  assert (inv (get wi.1 c c) <> 0) as Hne by (intros E; rewrite E, mul_0_r in Hone; done).
  pose proof (scale_performs c (inv (get wi.1 c c)) Hc) as Hp. constructor; simpl.
  - apply (inverts_op self _ _ wi Hself Hp); [by apply scale_op|done].
  - apply (op_units _ _ _ _ Hp); [done|apply scale_units; lia|lia|done].
  - destruct (Hp _ Hs) as [_ ->]; [|done|done]. unfold F_scale. by rewrite Nat.eqb_refl.
  - lia.
Qed.

Lemma pivot_step_some self wi wi' c : square_u8 self -> (c < n)%nat ->
  inverts self wi -> unit_columns c wi.1 -> pivot_step n wi c = Some wi' ->
  inverts self wi' /\ unit_columns (S c) wi'.1.
Proof.
  intros Hself Hc Hi Hu. unfold pivot_step. destruct (List.find _ _) as [r|] eqn:E; [|done].
  intros [= <-]. apply List.find_some in E as [Hr Hne]. apply in_seq in Hr. bool_prop.
  destruct (pivot_swap self wi c r Hself Hc ltac:(lia) Hi Hu ltac:(done)) as (Hi1 & Hu1 & Hg1).
  destruct (eliminate_all self c _ Hself Hc (pivot_scale self _ c Hself Hc Hi1 Hu1 Hg1)) as [Hi2 Hu2 Hp2 Hz2].
  split; [done|]. intros i j Hin Hj. destruct (decide (j = c)) as [-> |Hjc]; [|apply Hu2; lia].
  destruct (decide (i = c)) as [-> |Hic]; [by rewrite delta_refl|]. rewrite delta_ne by done. by apply Hz2.
Qed.

(** Either every column found its pivot, or the matrix is singular. *)
Lemma pivot_loop_spec self wi c : square_u8 self -> (c <= n)%nat ->
  inverts self wi -> unit_columns c wi.1 ->
  match pivot_loop n (seq c (n - c)) wi with
  | Some wi' => inverts self wi' /\ unit_columns n wi'.1
  | None => singular self
  end.
Proof.
  intros Hself. remember (n - c)%nat as d eqn:Hd. revert c wi Hd.
  induction d as [|d IH]; intros c wi Hd Hc Hi Hu; simpl.
  - split; [done|]. by replace n with c by lia.
  - destruct (pivot_step n wi c) as [wi'|] eqn:E.
    + destruct (pivot_step_some self wi wi' c Hself ltac:(lia) Hi Hu E) as [Hi' Hu'].
      apply (IH (S c)); [lia|lia|done|done].
    + unfold pivot_step in E. destruct (List.find _ _) eqn:Ef; [done|].
      by apply (pivot_missing self wi c Hi Hu ltac:(lia)).
Qed.

Lemma identity_rows x i : (i < n)%nat -> vec_u8 x -> apply_row (identity n) x i = x i.
Proof.
  intros Hi Hx. unfold apply_row. destruct (identity_spec n) as [_ Hg].
  rewrite (big_single n i) by (done || (intros k Hk Hne; rewrite Hg, delta_ne, mul_0_l; done || lia)).
  rewrite Hg, delta_refl by done. apply mul_1_l. by apply Hx.
Qed.

Lemma identity_square : square_u8 (identity n).
Proof.
  destruct (identity_spec n) as [Hs Hg]. split; [done|]. intros i j Hi Hj. rewrite Hg by done.
  unfold delta. destruct (Nat.eqb i j); [apply u8_1|apply u8_0].
Qed.

Lemma inverts_start self : square_u8 self -> inverts self (self, identity n).
Proof.
  intros Hself. constructor; simpl; [done|apply identity_square| |done|].
  - intros i j Hi Hj. symmetry. apply (identity_rows (fun k => get self k j)); [done|].
    intros k Hk. by apply Hself.
  - intros x Hx Hk i Hi. rewrite <- (identity_rows x i) by done. by apply Hk.
Qed.

(** [invert] on a matrix with trivial kernel: a left inverse, itself with
    trivial kernel. *)
Definition left_inverse (t m : Matrix) : Prop :=
  forall i j, (i < n)%nat -> (j < n)%nat -> big n (fun k => mul (get t i k) (get m k j)) = delta i j.

Definition right_inverse (m t : Matrix) : Prop :=
  forall i j, (i < n)%nat -> (j < n)%nat -> big n (fun k => mul (get m i k) (get t k j)) = delta i j.

(** The product with a product, by rows. *)
Lemma apply_row_assoc a b x i : square_u8 a -> square_u8 b -> vec_u8 x -> (i < n)%nat ->
  big n (fun k => mul (get a i k) (apply_row b x k)) =
  big n (fun l => mul (big n (fun k => mul (get a i k) (get b k l))) (x l)).
Proof.
  intros Ha Hb Hx Hi. unfold apply_row.
  transitivity (big n (fun k => big n (fun l => mul (mul (get a i k) (get b k l)) (x l)))).
  - apply big_ext. intros k Hk. rewrite big_mul_l by (by apply Ha). apply big_ext. intros l Hl.
    by rewrite mul_assoc by (by apply Ha || by apply Hb || by apply Hx).
  - rewrite big_swap. apply big_ext. intros l Hl. rewrite big_mul_r; [done|].
    intros k Hk. apply mul_u8. by apply Ha.
Qed.

Lemma delta_sum i x : (i < n)%nat -> vec_u8 x -> big n (fun l => mul (delta i l) (x l)) = x i.
Proof.
  intros Hi Hx. rewrite (big_single n i) by (done || (intros k Hk Hne; rewrite delta_ne, mul_0_l; done || lia)).
  rewrite delta_refl. apply mul_1_l. by apply Hx.
Qed.

Lemma left_inverse_kernel t m : square_u8 t -> square_u8 m -> left_inverse t m -> trivial_kernel m.
Proof.
  intros Ht Hm Hl x Hx Hk i Hi. rewrite <- (delta_sum i x) by done.
  transitivity (big n (fun k => mul (get t i k) (apply_row m x k))).
  - rewrite apply_row_assoc by done. apply big_ext. intros l Hl'. by rewrite Hl.
  - apply big_0. intros k Hk'. rewrite (Hk k Hk'). apply mul_0_r. by apply Ht.
Qed.

Lemma delta_u8 i j : is_u8 (delta i j).
Proof. unfold delta. destruct (Nat.eqb i j); [apply u8_1|apply u8_0]. Qed.

(** A left inverse that kills only zero is a right inverse. *)
Lemma left_inverse_right t m : square_u8 t -> square_u8 m -> left_inverse t m ->
  trivial_kernel t -> right_inverse m t.
Proof.
  intros Ht Hm Hl Hk i j Hi Hj.
  assert (vec_u8 (fun k => get t k j)) as Hc by (intros k Hk'; by apply Ht).
  set (y := fun i => apply_row m (fun k => get t k j) i).
  assert (vec_u8 y) as Hy by (by apply apply_row_u8).
  assert (zero_vec (fun i => y i ⊕ delta i j)) as Hz.
  { apply Hk; [intros k Hk'; apply lxor_u8; [by apply Hy|apply delta_u8]|]. intros r Hr. unfold apply_row.
    transitivity (big n (fun k => mul (get t r k) (y k)) ⊕ big n (fun k => mul (get t r k) (delta k j))).
    - rewrite <- big_lxor. apply big_ext. intros k Hk'. apply mul_lxor_r. by apply Ht.
    - unfold y. rewrite apply_row_assoc by done.
      rewrite (big_ext n _ (fun l => mul (delta r l) (get t l j))) by (intros l Hl'; by rewrite Hl).
      rewrite (delta_sum r (fun l => get t l j)) by done.
      rewrite (big_single n j (fun k => mul (get t r k) (delta k j))), delta_refl, mul_1_r;
        [apply Z.lxor_nilpotent|by apply Ht|done|].
      intros k Hk' Hne. rewrite delta_ne by done. apply mul_0_r. by apply Ht. }
  specialize (Hz i Hi). cbv beta in Hz. apply Z.lxor_eq in Hz. exact Hz.
Qed.

Lemma invert_cases self : square_u8 self ->
  match invert self with
  | Some t => square_u8 t /\ left_inverse t self /\ right_inverse self t /\ trivial_kernel self /\ trivial_kernel t
  | None => singular self
  end.
Proof.
  intros Hself. unfold invert. rewrite (proj1 (proj1 Hself)).
  pose proof (pivot_loop_spec self _ 0 Hself ltac:(lia) (inverts_start self Hself) ltac:(intros i j; lia)) as H.
  rewrite Nat.sub_0_r in H. destruct (pivot_loop n (seq 0 n) (self, identity n)) as [[w t]|]; [|done].
  destruct H as [[? Ht Hprod ? Hk] Hu]. simpl in *.
  assert (left_inverse t self) as Hl by (intros i j Hi Hj; rewrite <- Hprod by done; by apply Hu).
  split; [done|]. split; [done|]. split; [by apply left_inverse_right|]. split; [|done].
  by apply (left_inverse_kernel t).
Qed.

Lemma invert_some self : square_u8 self -> trivial_kernel self ->
  exists t, invert self = Some t /\ square_u8 t /\ left_inverse t self /\ trivial_kernel t.
Proof.
  intros Hself Hker. pose proof (invert_cases self Hself) as H.
  destruct (invert self) as [t|]; [exists t; tauto|].
  destruct H as (x & Hx & Hk & Hz). destruct (Hz (Hker x Hx Hk)).
Qed.

End Gauss.

(** * Every choice of rows of the generator matrix is invertible

    The argument of [matrix.rs]'s [generator_matrix] comment: rows of the
    Vandermonde matrix at distinct non-zero points kill only the zero vector,
    because a polynomial has no more roots than coefficients; multiplying by
    the inverse of the top block keeps this, and makes the top block the
    identity. *)

(** ** Polynomials over the field, lowest coefficient first *)
Fixpoint eval (p : list Z) (r : Z) : Z :=
  match p with [] => 0 | c :: p' => c ⊕ mul (eval p' r) r end.

Lemma eval_u8 p r : Forall is_u8 p -> is_u8 (eval p r).
Proof. induction 1; simpl; auto with mini. Qed.

Lemma big_shift n f : big (S n) f = f 0%nat ⊕ big n (fun k => f (S k)).
Proof.
  induction n as [|n IH]; [simpl; by rewrite Z.lxor_0_r|].
  change (big (S (S n)) f) with (big (S n) f ⊕ f (S n)). rewrite IH. simpl. by rewrite Z.lxor_assoc.
Qed.

Lemma eval_big p r : Forall is_u8 p -> is_u8 r ->
  big (length p) (fun j => mul (pow r j) (nth j p 0)) = eval p r.
Proof.
  induction 1 as [|c p Hc Hp IH]; intros Hr; [done|].
  change (length (c :: p)) with (S (length p)). rewrite big_shift. simpl nth. cbn [eval].
  assert (forall j, is_u8 (nth j p 0)) as Hnth.
  { intros j. rewrite nth_lookup. destruct (p !! j) eqn:E; [|apply u8_0]. by eapply Forall_lookup_1 in E. }
  rewrite mul_1_l by done. f_equal. rewrite <- IH by done.
  rewrite big_mul_r by (intros; apply mul_u8, pow_u8). apply big_ext. intros k Hk.
  rewrite pow_S, !mul_assoc by (done || apply pow_u8). f_equal. by apply mul_comm.
Qed.

(** Synthetic division by [X - a]: the quotient and the remainder. *)
Fixpoint divide (a : Z) (p : list Z) : list Z * Z :=
  match p with
  | [] => ([], 0)
  | c :: p' =>
      match p' with
      | [] => ([], c)
      | _ => let '(q, r) := divide a p' in (r :: q, c ⊕ mul a r)
      end
  end.

Lemma divide_cons a c d p :
  divide a (c :: d :: p) = ((divide a (d :: p)).2 :: (divide a (d :: p)).1, c ⊕ mul a (divide a (d :: p)).2).
Proof.
  change (divide a (c :: d :: p)) with (let '(q, r) := divide a (d :: p) in (r :: q, c ⊕ mul a r)).
  by destruct (divide a (d :: p)).
Qed.

Lemma divide_u8 a p : is_u8 a -> Forall is_u8 p -> Forall is_u8 (divide a p).1 /\ is_u8 (divide a p).2.
Proof.
  intros Ha. induction 1 as [|c [|d p] Hc Hp IH]; [split; [constructor|apply u8_0]|by split|].
  rewrite divide_cons. destruct IH. split; [by constructor|]. simpl. auto with mini.
Qed.

Lemma divide_length a p : length (divide a p).1 = pred (length p).
Proof.
  induction p as [|c [|d p] IH]; [done|done|]. rewrite divide_cons. cbn [fst length]. rewrite IH. done.
Qed.

Lemma divide_eval a p x : is_u8 a -> is_u8 x -> Forall is_u8 p ->
  eval p x = mul (eval (divide a p).1 x) (x ⊕ a) ⊕ (divide a p).2.
Proof.
  intros Ha Hx. induction 1 as [|c [|d p] Hc Hp IH]; [by simpl; rewrite mul_0_l| |].
  - cbn [eval divide fst snd]. by rewrite !mul_0_l, Z.lxor_0_r.
  - destruct (divide_u8 a (d :: p) Ha Hp) as [Hq Hr]. rewrite divide_cons. cbn [fst snd].
    cbn [eval] in IH |- *. rewrite IH. clear IH.
    set (q := (divide a (d :: p)).1) in *. set (r := (divide a (d :: p)).2) in *.
    pose proof (eval_u8 q x Hq) as He. set (e := eval q x) in *.
    rewrite !mul_lxor_l by auto with mini.
    rewrite (mul_lxor_r r x a), (mul_comm a r), !mul_assoc, (mul_comm (x ⊕ a) x) by auto with mini.
    generalize (mul e (mul x (x ⊕ a))) (mul r x) (mul r a). intros s t u.
    apply Z.bits_inj'. intros n Hn. rewrite !Z.lxor_spec.
    destruct (Z.testbit s n), (Z.testbit t n), (Z.testbit u n), (Z.testbit c n); done.
Qed.

Definition all_zero (p : list Z) : Prop := Forall (eq 0) p.

Lemma divide_zero a p : is_u8 a -> all_zero (divide a p).1 -> (divide a p).2 = 0 -> all_zero p.
Proof.
  intros Ha. induction p as [|c [|d p] IH]; intros Hq Hr; [constructor|constructor; [done|constructor]|].
  rewrite divide_cons in Hq, Hr. cbn [fst snd] in Hq, Hr.
  apply Forall_cons in Hq as [Hr' Hq]. rewrite <- Hr', mul_0_r, Z.lxor_0_r in Hr by done.
  constructor; [done|]. by apply IH.
Qed.

(** No more roots than coefficients. *)
Lemma roots_bound rs p :
  NoDup rs -> Forall is_u8 rs -> Forall is_u8 p -> (length p <= length rs)%nat ->
  (forall r, r ∈ rs -> eval p r = 0) -> all_zero p.
Proof.
  revert p. induction rs as [|a rs IH]; intros p Hnd Hrs Hp Hlen He.
  { destruct p; [constructor|simpl in Hlen; lia]. }
  apply NoDup_cons in Hnd as [Hna Hnd]. apply Forall_cons in Hrs as [Ha Hrs].
  destruct (divide_u8 a p Ha Hp) as [Hq Hr].
  assert ((divide a p).2 = 0) as E.
  { pose proof (He a ltac:(left)) as H. rewrite (divide_eval a) in H by done.
    by rewrite Z.lxor_nilpotent, mul_0_r, Z.lxor_0_l in H by (by apply eval_u8). }
  apply (divide_zero a); [done| |done].
  apply IH; [done|done|done|rewrite divide_length; simpl in Hlen; lia|].
  intros r Hin. pose proof (He r ltac:(by right)) as H. rewrite (divide_eval a), E, Z.lxor_0_r in H;
    [|done|by eapply Forall_forall in Hrs|done].
  apply mul_eq_0 in H; [|by apply eval_u8|apply lxor_u8; [by eapply Forall_forall in Hrs|done]].
  destruct H as [H|H]; [done|]. apply Z.lxor_eq in H. by subst.
Qed.

(** ** The generator matrix *)
Section Generator.
Context (k m : nat).
Context (Hk : (1 <= k)%nat) (Hn : (k + m <= 255)%nat).

Definition point (i : nat) : Z := Z.of_nat (i + 1) mod 256.

Lemma point_u8 i : is_u8 (point i).
Proof. unfold point, is_u8, U8_MAX. pose proof (Z.mod_pos_bound (Z.of_nat (i + 1)) 256). lia. Qed.
Lemma point_inj i j : (i < k + m)%nat -> (j < k + m)%nat -> point i = point j -> i = j.
Proof. intros Hi Hj. unfold point. rewrite !Z.mod_small by lia. lia. Qed.

Lemma vandermonde_get i j : (i < k + m)%nat -> (j < k)%nat ->
  get (vandermonde (k + m) k) i j = pow (point i) j.
Proof. intros Hi Hj. unfold vandermonde. by rewrite get_build. Qed.

Lemma vandermonde_sized : sized (k + m) k (vandermonde (k + m) k).
Proof. apply sized_build. Qed.

(** A choice of [k] distinct row numbers. *)
Definition choice (l : list nat) : Prop :=
  NoDup l /\ length l = k /\ forall i, i ∈ l -> (i < k + m)%nat.

Lemma choice_nth l i : choice l -> (i < k)%nat -> (nth i l 0 < k + m)%nat.
Proof.
  intros (_ & Hlen & Hb) Hi. apply Hb. apply list_elem_of_In, nth_In. lia.
Qed.

Lemma seq_choice : choice (seq 0 k).
Proof.
  split; [apply NoDup_seq|]. split; [apply length_seq|]. intros i Hi. apply elem_of_seq in Hi. lia.
Qed.

(** Rows of the Vandermonde matrix at distinct points kill only zero. *)
Lemma vandermonde_rows l x : choice l -> vec_u8 k x ->
  (forall i, (i < k)%nat -> big k (fun j => mul (pow (point (nth i l 0%nat)) j) (x j)) = 0) ->
  zero_vec k x.
Proof.
  intros Hl Hx Hz. destruct Hl as (Hnd & Hlen & Hb).
  set (p := map x (seq 0 k)).
  assert (length p = k) as Hp by (unfold p; by rewrite length_map, length_seq).
  assert (forall j, (j < k)%nat -> nth j p 0 = x j) as Hnth.
  { intros j Hj. unfold p. rewrite (nth_indep _ _ (x 0%nat)) by (by rewrite length_map, length_seq).
    by rewrite map_nth, seq_nth. }
  assert (Forall is_u8 p) as Hpu.
  { unfold p. apply Forall_map, Forall_forall. intros j Hj. apply elem_of_seq in Hj. apply Hx. lia. }
  assert (all_zero p) as Hall.
  { apply (roots_bound (map point l) p); [| |done|by rewrite length_map; lia|].
    - apply NoDup_fmap_2_strong; [|done]. intros i j Hi Hj. by apply point_inj; apply Hb.
    - apply Forall_map, Forall_forall. intros i _. apply point_u8.
    - intros r Hr. apply list_elem_of_In, in_map_iff in Hr as (i & <- & Hi).
      apply (In_nth l i 0%nat) in Hi as (t & Ht & <-).
      rewrite <- (eval_big p) by (done || apply point_u8). rewrite Hp.
      rewrite (big_ext k _ (fun j => mul (pow (point (nth t l 0%nat)) j) (x j)))
        by (intros j Hj; by rewrite Hnth). apply Hz. lia. }
  intros j Hj. rewrite <- Hnth by done. symmetry.
  apply (Forall_lookup_1 _ _ j _ Hall). rewrite nth_lookup.
  destruct (p !! j) eqn:E; [done|]. apply lookup_ge_None in E. lia.
Qed.

Definition top : Matrix := select_rows (vandermonde (k + m) k) (seq 0 k).

Lemma top_get i j : (i < k)%nat -> (j < k)%nat -> get top i j = pow (point i) j.
Proof.
  intros Hi Hj. unfold top. rewrite get_select_rows; [|by rewrite length_seq|by rewrite (proj1 (proj2 vandermonde_sized))].
  rewrite seq_nth by done. apply vandermonde_get; [lia|done].
Qed.

Lemma top_square : square_u8 k top.
Proof.
  split.
  - pose proof (select_rows_sized (vandermonde (k + m) k) (seq 0 k)) as H.
    by rewrite length_seq, (proj1 (proj2 vandermonde_sized)) in H.
  - intros i j Hi Hj. rewrite top_get by done. apply pow_u8.
Qed.

Lemma top_kernel : trivial_kernel k top.
Proof.
  intros x Hx Hkill. apply (vandermonde_rows (seq 0 k)); [apply seq_choice|done|].
  intros i Hi. rewrite <- (Hkill i Hi). unfold apply_row. apply big_ext. intros j Hj.
  by rewrite top_get, seq_nth.
Qed.

(** The inverse of the top block that [generator_matrix] computes. *)
Lemma top_inverse : exists t, generator_matrix k m = mat_mul (vandermonde (k + m) k) t /\
  square_u8 k t /\ right_inverse k top t /\ trivial_kernel k t.
Proof.
  unfold generator_matrix. fold top. pose proof (invert_cases k top top_square) as H.
  destruct (invert top) as [t|]; [exists t; tauto|].
  destruct H as (x & Hx & Hkx & Hz). destruct (Hz (top_kernel x Hx Hkx)).
Qed.

Lemma generator_sized : sized (k + m) k (generator_matrix k m).
Proof.
  destruct top_inverse as (t & -> & ((_ & Hc & _) & _) & _).
  pose proof (sized_mat_mul (vandermonde (k + m) k) t) as H. rewrite Hc, (proj1 vandermonde_sized) in H. exact H.
Qed.

Lemma generator_get : exists t, square_u8 k t /\ trivial_kernel k t /\
  (forall i j, (i < k + m)%nat -> (j < k)%nat ->
    get (generator_matrix k m) i j = big k (fun l => mul (pow (point i) l) (get t l j))) /\
  forall i j, (i < k)%nat -> (j < k)%nat -> get (generator_matrix k m) i j = delta i j.
Proof.
  destruct top_inverse as (t & -> & Ht & Hr & Hkt). exists t.
  assert (forall i j, (i < k + m)%nat -> (j < k)%nat ->
    get (mat_mul (vandermonde (k + m) k) t) i j = big k (fun l => mul (pow (point i) l) (get t l j))) as Hg.
  { intros i j Hi Hj. rewrite get_mat_mul;
      [|by rewrite (proj1 vandermonde_sized)|by rewrite (proj1 (proj2 (proj1 Ht)))].
    rewrite (proj1 (proj2 vandermonde_sized)).
    apply big_ext. intros l Hl. by rewrite vandermonde_get. }
  split; [done|]. split; [done|]. split; [done|]. intros i j Hi Hj.
  rewrite Hg by lia. rewrite <- Hr by done. apply big_ext. intros l Hl. by rewrite top_get.
Qed.

Lemma generator_systematic i j : (i < k)%nat -> (j < k)%nat -> get (generator_matrix k m) i j = delta i j.
Proof. destruct generator_get as (t & _ & _ & _ & H). apply H. Qed.

Lemma generator_u8 i j : (i < k + m)%nat -> (j < k)%nat -> is_u8 (get (generator_matrix k m) i j).
Proof.
  destruct generator_get as (t & _ & _ & H & _). intros Hi Hj. rewrite H by done.
  apply big_u8. intros l Hl. apply mul_u8, pow_u8.
Qed.

Lemma selected_get l i j : choice l -> (i < k)%nat -> (j < k)%nat ->
  get (select_rows (generator_matrix k m) l) i j = get (generator_matrix k m) (nth i l 0%nat) j.
Proof.
  intros (_ & Hlen & _) Hi Hj. apply get_select_rows; [lia|].
  by rewrite (proj1 (proj2 generator_sized)).
Qed.

Lemma selected_square l : choice l -> square_u8 k (select_rows (generator_matrix k m) l).
Proof.
  intros Hl. split.
  - pose proof (select_rows_sized (generator_matrix k m) l) as H.
    rewrite (proj1 (proj2 generator_sized)), (proj1 (proj2 Hl)) in H. exact H.
  - intros i j Hi Hj. rewrite selected_get by done. apply generator_u8; [by apply choice_nth|done].
Qed.

(** Any [k] distinct rows kill only zero. *)
Lemma selected_kernel l : choice l -> trivial_kernel k (select_rows (generator_matrix k m) l).
Proof.
  intros Hl x Hx Hkill. destruct generator_get as (t & Ht & Hkt & Hg & _).
  apply Hkt; [done|]. apply (vandermonde_rows l (apply_row k t x)); [done|by apply apply_row_u8|].
  intros i Hi. rewrite <- (Hkill i Hi).
  pose proof (choice_nth l i Hl Hi) as Hr. unfold apply_row.
  transitivity (big k (fun j => mul (big k (fun s => mul (pow (point (nth i l 0%nat)) s) (get t s j))) (x j))).
  - transitivity (big k (fun s => big k (fun j => mul (mul (pow (point (nth i l 0%nat)) s) (get t s j)) (x j)))).
    + apply big_ext. intros s Hs. rewrite big_mul_l by apply pow_u8. apply big_ext. intros j Hj.
      by rewrite mul_assoc by (apply pow_u8 || by apply Ht || by apply Hx).
    + rewrite big_swap. apply big_ext. intros j Hj. rewrite big_mul_r; [done|].
      intros s Hs. apply mul_u8, pow_u8.
  - apply big_ext. intros j Hj. by rewrite selected_get, Hg.
Qed.

End Generator.
