(* ===== verification/Erasure.v ===== *)
(** * Erasure: sharding, reconstruction and repair

    Models [crates/mini-erasure/src]: [error.rs], [code.rs] and [health.rs].
    A [usize] parameter is a [Z] whose sum wraps at 64 bits, as the release
    profile compiles it; positions and lengths are [nat].  Indexing a missing
    shard panics in the source; the default used here is never reached for
    parameters [ErasureParams_new] accepts without wrapping. *)

From Stdlib Require Import ZArith Lia.
From stdpp Require Import base list.
From S2P Require Import Prelude Crypto GF256 Matrix.
Open Scope Z_scope.

Inductive ErasureError :=
| EmptyData
| InvalidParams (data_shards parity_shards : Z)
| WrongShardCount (expected got : nat)
| TooManyMissingShards (available needed : nat)
| SingularSubmatrix
| IntegrityMismatch (shard_index : nat).
#[global] Instance ErasureError_eq_dec : EqDecision ErasureError.
Proof. solve_decision. Defined.

(** ** [code.rs] *)
Record ErasureParams := mkErasureParams { data_shards : Z; parity_shards : Z }.
#[global] Instance ErasureParams_eq_dec : EqDecision ErasureParams.
Proof. solve_decision. Defined.

Definition ErasureParams_new (data_shards parity_shards : Z) : result ErasureError ErasureParams :=
  if (data_shards =? 0) || (parity_shards =? 0) || (255 <? wrapping_add 64 data_shards parity_shards)
  then Err (InvalidParams data_shards parity_shards)
  else Ok (mkErasureParams data_shards parity_shards).

Definition k_of (p : ErasureParams) : nat := Z.to_nat (data_shards p).
Definition m_of (p : ErasureParams) : nat := Z.to_nat (parity_shards p).
Definition total_shards (p : ErasureParams) : nat := k_of p + m_of p.

Record Shard := mkShard { sh_index : nat; sh_bytes : bytes }.
#[global] Instance Shard_eq_dec : EqDecision Shard.
Proof. solve_decision. Defined.

Record EncodedData := mkEncodedData {
  e_params : ErasureParams;
  e_original_len : nat;
  e_shards : list Shard;
}.

(** [usize::div_ceil]. *)
Definition div_ceil (a b : nat) : nat := Nat.div (a + b - 1) b.

(** The data laid out in rows of [shard_len], zero-padded. *)
Definition data_matrix (k shard_len : nat) (data : bytes) : Matrix :=
  build k shard_len (fun i col => nth (i * shard_len + col) data 0).

Definition row_bytes (r : Matrix) (i : nat) : bytes := map (get r i) (seq 0 (m_cols r)).

Definition encode (data : bytes) (params : ErasureParams) : result ErasureError EncodedData :=
  match data with
  | [] => Err EmptyData
  | _ =>
      let shard_len := div_ceil (length data) (k_of params) in
      let d := data_matrix (k_of params) shard_len data in
      let g := generator_matrix (k_of params) (m_of params) in
      let r := mat_mul g d in
      let shards := map (fun i => mkShard i (row_bytes r i)) (seq 0 (m_rows r)) in
      Ok (mkEncodedData params (length data) shards)
  end.

(** [iter().enumerate().filter_map(|(i, x)| if f(x) { Some(i) } else { None })]. *)
Definition positions {A} (f : A -> bool) (l : list A) : list nat :=
  omap id (imap (fun i x => if f x then Some i else None) l).

Definition shard_bytes_at (shards : list (option Shard)) (i : nat) : bytes :=
  match nth i shards None with Some s => sh_bytes s | None => [] end.

(** The survivors' bytes as a matrix, one row per chosen shard; a shard
    shorter than the first leaves zeros, a longer one is cut. *)
Definition survivor_matrix (k shard_len : nat) (shards : list (option Shard)) (chosen : list nat) : Matrix :=
  build k shard_len (fun row col => nth col (shard_bytes_at shards (nth row chosen 0%nat)) 0).

Definition is_some {A} (o : option A) : bool := match o with Some _ => true | None => false end.

Definition reconstruct (params : ErasureParams) (shards : list (option Shard)) (original_len : nat)
    : result ErasureError bytes :=
  let n := total_shards params in
  _ ← fail_if (negb (Nat.eqb (length shards) n)) (WrongShardCount n (length shards));
  let available := positions is_some shards in
  _ ← fail_if (Nat.ltb (length available) (k_of params))
        (TooManyMissingShards (length available) (k_of params));
  let chosen := take (k_of params) available in
  let shard_len := length (shard_bytes_at shards (nth 0 chosen 0%nat)) in
  let g := generator_matrix (k_of params) (m_of params) in
  let s := select_rows g chosen in
  s_inv ← ok_or (invert s) SingularSubmatrix;
  let a := survivor_matrix (k_of params) shard_len shards chosen in
  let d := mat_mul s_inv a in
  let out := concat (map (fun i => map (get d i) (seq 0 shard_len)) (seq 0 (k_of params))) in
  Ok (take original_len out).

Definition regenerate_shard (params : ErasureParams) (original_data : bytes) (shard_len index : nat) : bytes :=
  let g := generator_matrix (k_of params) (m_of params) in
  let row := row g index in
  let d := data_matrix (k_of params) shard_len original_data in
  row_bytes (mat_mul row d) 0.

(** ** [health.rs] *)
Section Health.
Context {P : Primitives}.

Definition shard_digest (b : bytes) : bytes := blake3 b.
Definition verify_shard (shard : Shard) (expected_digest : bytes) : bool :=
  bool_decide (shard_digest (sh_bytes shard) = expected_digest).

Record RepairPlan := mkRepairPlan { rp_missing : list nat; rp_reconstructable : bool }.

Definition plan_repair (params : ErasureParams) (shards : list (option Shard)) (expected_digests : list bytes)
    : RepairPlan :=
  let is_verified := zip_with (fun maybe_shard expected =>
    match maybe_shard with Some shard => verify_shard shard expected | None => false end)
    shards expected_digests in
  let missing := positions negb is_verified in
  let verified_count := countb (fun ok => ok) is_verified in
  mkRepairPlan missing (Nat.leb (k_of params) verified_count).

(** [filter(|shard| verify_shard(shard, *expected)).cloned()]. *)
Definition keep_verified (maybe_shard : option Shard) (expected : bytes) : option Shard :=
  match maybe_shard with
  | Some shard => if verify_shard shard expected then Some shard else None
  | None => None
  end.

(** [Vec::resize] with zeros. *)
Definition resize (n : nat) (b : bytes) : bytes := take n b ++ replicate (n - length b) 0.

(** [iter().flatten().next()]. *)
Definition first_some {A} (l : list (option A)) : option A := head (omap id l).

Definition repair (params : ErasureParams) (shards : list (option Shard)) (expected_digests : list bytes)
    (original_len : nat) : result ErasureError (list Shard) :=
  let n := total_shards params in
  _ ← fail_if (negb (Nat.eqb (length shards) n) || negb (Nat.eqb (length expected_digests) n))
        (WrongShardCount n (length shards));
  let verified := zip_with keep_verified shards expected_digests in
  let missing := positions (fun s => negb (is_some s)) verified in
  match missing with
  | [] => Ok []
  | _ =>
      original_data ← reconstruct params verified original_len;
      let shard_len := match first_some verified with Some s => length (sh_bytes s) | None => 0%nat end in
      let padded := resize (shard_len * k_of params) original_data in
      Ok (map (fun index => mkShard index (regenerate_shard params padded shard_len index)) missing)
  end.

End Health.
