(* ===== verification/ErasureTheorems.v ===== *)
(** * ErasureTheorems: any [data_shards] surviving shards give the data back

    The erasure code's contract: the first shards are the data itself, any
    [data_shards] of the shards reconstruct it, every other input gives the
    error the source documents, and repair regenerates exactly what was
    lost. *)

From Stdlib Require Import ZArith Lia.
From stdpp Require Import base list.
From S2P Require Import Prelude Crypto GF256 Matrix Gauss Erasure.
Open Scope Z_scope.
Open Scope mini_scope.

Definition valid_params (p : ErasureParams) : Prop :=
  (1 <= k_of p)%nat /\ (1 <= m_of p)%nat /\ (total_shards p <= 255)%nat.

(** ** Positions *)
Section Positions.
Context {A : Type} (f : A -> bool).

Lemma positions_cons x l : positions f (x :: l) = (if f x then [0%nat] else []) ++ map S (positions f l).
Proof.
  unfold positions. simpl.
  assert (forall g : nat -> A -> option nat, omap id (imap (fun i y => option_map S (g i y)) l) =
    map S (omap id (imap g l))) as H.
  { induction l as [|y l IH]; intros g; [done|]. simpl. destruct (g 0%nat y); simpl; [f_equal|]; apply (IH (g ∘ S)). }
  rewrite <- H. rewrite (imap_ext _ (fun i y => option_map S (if f y then Some i else None)))
    by (intros i y _; unfold compose; by destruct (f y)).
  by destruct (f x).
Qed.

Lemma positions_spec l i : i ∈ positions f l <-> exists x, l !! i = Some x /\ f x = true.
Proof.
  revert i. induction l as [|x l IH]; intros i; [split; [by intros ?%elem_of_nil|intros (y & [=] & _)]|].
  rewrite positions_cons, elem_of_app, list_elem_of_fmap. split.
  - intros [H|(j & -> & H)]; [|by apply IH in H]. destruct (f x) eqn:E; [|by apply elem_of_nil in H].
    apply list_elem_of_singleton in H as ->. by exists x.
  - intros (y & Hy & Hf). destruct i as [|i]; simpl in Hy.
    + left. injection Hy as ->. rewrite Hf. by apply list_elem_of_singleton.
    + right. exists i. split; [done|]. apply IH. by exists y.
Qed.

Lemma positions_NoDup l : NoDup (positions f l).
Proof.
  induction l as [|x l IH]; [constructor|]. rewrite positions_cons.
  apply NoDup_app. repeat split.
  - destruct (f x); [apply NoDup_singleton|constructor].
  - intros i Hi H. destruct (f x); [|by apply elem_of_nil in Hi].
    apply list_elem_of_singleton in Hi as ->. by apply list_elem_of_fmap in H as (j & [=] & _).
  - apply NoDup_fmap_2; [|done]. intros ?? [=]; done.
Qed.

Lemma length_positions l : length (positions f l) = countb f l.
Proof.
  induction l as [|x l IH]; [done|]. rewrite positions_cons, length_app, length_map, countb_cons, IH.
  by destruct (f x).
Qed.

Lemma positions_nil l : positions f l = [] -> forall x, x ∈ l -> f x = false.
Proof.
  intros H x Hx. apply list_elem_of_lookup in Hx as [i Hi]. destruct (f x) eqn:E; [|done].
  assert (i ∈ positions f l) as Hin by (apply positions_spec; by exists x).
  rewrite H in Hin. by apply elem_of_nil in Hin.
Qed.

End Positions.

(** ** The matrices of the encoder *)
Lemma div_ceil_covers a b : (1 <= b)%nat -> (a <= b * div_ceil a b)%nat.
Proof.
  intros Hb. unfold div_ceil. pose proof (Nat.div_mod (a + b - 1) b ltac:(lia)).
  pose proof (Nat.mod_upper_bound (a + b - 1) b ltac:(lia)). lia.
Qed.

Lemma nth_u8 data i : bytes_ok data -> is_u8 (nth i data 0).
Proof.
  intros H. rewrite nth_lookup. destruct (data !! i) eqn:E; [|apply u8_0]. by eapply Forall_lookup_1 in E.
Qed.

Section Code.
Context (p : ErasureParams) (Hp : valid_params p) (data : bytes) (Hdata : bytes_ok data) (L : nat).
Notation k := (k_of p).
Notation n := (k_of p + m_of p)%nat.
Notation G := (generator_matrix (k_of p) (m_of p)).
Notation D := (data_matrix (k_of p) L data).

Definition cell (i c : nat) : Z := nth (i * L + c) data 0.
(** The entry of the full encoding in row [i], column [c]. *)
Definition code_cell (i c : nat) : Z := apply_row k G (fun j => cell j c) i.

Lemma k_pos : (1 <= k)%nat. Proof. apply Hp. Qed.
Lemma n_bound : (n <= 255)%nat. Proof. apply Hp. Qed.

Lemma data_sized : sized k L D. Proof. apply sized_build. Qed.
Lemma data_get i c : (i < k)%nat -> (c < L)%nat -> get D i c = cell i c.
Proof. intros Hi Hc. unfold data_matrix. by rewrite get_build. Qed.

Lemma encoded_sized : sized n L (mat_mul G D).
Proof.
  pose proof (sized_mat_mul G D) as H.
  by rewrite (proj1 (generator_sized k (m_of p) k_pos n_bound)), (proj1 (proj2 data_sized)) in H.
Qed.

Lemma encoded_get i c : (i < n)%nat -> (c < L)%nat -> get (mat_mul G D) i c = code_cell i c.
Proof.
  intros Hi Hc. destruct (generator_sized k (m_of p) k_pos n_bound) as (Hr & Hcols & _).
  rewrite get_mat_mul; [|by rewrite Hr|by rewrite (proj1 (proj2 data_sized))].
  rewrite Hcols. unfold code_cell, apply_row. apply big_ext. intros j Hj. by rewrite data_get.
Qed.

Lemma cell_vec c : vec_u8 k (fun j => cell j c).
Proof. intros j _. by apply nth_u8. Qed.

Lemma code_cell_systematic i c : (i < k)%nat -> code_cell i c = cell i c.
Proof.
  intros Hi. unfold code_cell, apply_row.
  rewrite (big_ext _ _ (fun l => mul (delta i l) (cell l c)))
    by (intros l Hl; by rewrite (generator_systematic k (m_of p) k_pos n_bound)).
  apply (delta_sum k i (fun l => cell l c)); [done|]. apply cell_vec.
Qed.

(** Decoding any [k] distinct rows of the encoding gives the data. *)
Lemma decode_rows l t a : choice k (m_of p) l -> invert (select_rows G l) = Some t ->
  sized k L a -> (forall r c, (r < k)%nat -> (c < L)%nat -> get a r c = code_cell (nth r l 0%nat) c) ->
  forall i c, (i < k)%nat -> (c < L)%nat -> get (mat_mul t a) i c = cell i c.
Proof.
  intros Hl Hinv Ha Hget i c Hi Hc. set (S := select_rows G l) in *.
  assert (square_u8 k S) as HS by (by apply selected_square; [apply k_pos|apply n_bound|]).
  pose proof (invert_cases k S HS) as H. rewrite Hinv in H. destruct H as (Ht & Hleft & _).
  destruct Ht as [(Htr & Htc & _) Htu].
  rewrite get_mat_mul; [|by rewrite Htr|by rewrite (proj1 (proj2 Ha))]. rewrite Htc.
  rewrite (big_ext _ _ (fun r => mul (get t i r) (apply_row k S (fun j => cell j c) r))).
  2:{ intros r Hr. rewrite Hget by done. f_equal. unfold code_cell, apply_row. apply big_ext.
      intros j Hj. unfold S. by rewrite (selected_get k (m_of p) k_pos n_bound). }
  rewrite apply_row_assoc; [|split; [|done]; repeat split; try done|done|apply cell_vec|done].
  - rewrite (big_ext _ _ (fun l => mul (delta i l) (cell l c))) by (intros l' Hl'; by rewrite Hleft).
    apply (delta_sum k i (fun l => cell l c)); [done|]. apply cell_vec.
  - pose proof (invert_cases k S HS) as H. rewrite Hinv in H. apply H.
Qed.

(** The rows of the data laid end to end. *)
Lemma rows_flatten j : concat (map (fun i => map (cell i) (seq 0 L)) (seq 0 j)) =
  map (fun x => nth x data 0) (seq 0 (j * L)).
Proof.
  induction j as [|j IH]; [done|].
  rewrite seq_S, map_app, concat_app, IH. simpl. rewrite app_nil_r.
  replace (L + j * L)%nat with (j * L + L)%nat by lia. rewrite seq_app, map_app. f_equal.
  apply list_eq. intros i. rewrite !list_lookup_fmap.
  destruct (decide (i < L)%nat) as [Hi|Hi].
  - rewrite !lookup_seq_lt by done. simpl. done.
  - by rewrite !lookup_seq_ge by lia.
Qed.

Lemma flatten_take : (length data <= k * L)%nat ->
  take (length data) (concat (map (fun i => map (cell i) (seq 0 L)) (seq 0 k))) = data.
Proof.
  intros Hlen. rewrite rows_flatten. apply list_eq. intros i.
  destruct (decide (i < length data)%nat) as [Hi|Hi].
  - rewrite lookup_take_lt, list_lookup_fmap, lookup_seq_lt by lia. simpl.
    rewrite nth_lookup. destruct (data !! i) eqn:E; [done|]. apply lookup_ge_None in E. lia.
  - rewrite lookup_take_ge by lia. symmetry. apply lookup_ge_None. lia.
Qed.

End Code.

Definition shard_len_of (p : ErasureParams) (data : bytes) : nat := div_ceil (length data) (k_of p).
Definition code_row (p : ErasureParams) (data : bytes) (i : nat) : bytes :=
  map (code_cell p data (shard_len_of p data) i) (seq 0 (shard_len_of p data)).

Lemma row_bytes_ext m i L f : m_cols m = L -> (forall c, (c < L)%nat -> get m i c = f c) ->
  row_bytes m i = map f (seq 0 L).
Proof.
  intros Hc Hg. unfold row_bytes. rewrite Hc. apply map_ext_in. intros c Hin. apply in_seq in Hin. apply Hg. lia.
Qed.

Lemma length_code_row p data i : length (code_row p data i) = shard_len_of p data.
Proof. unfold code_row. by rewrite length_map, length_seq. Qed.

Lemma encode_ok data p e : valid_params p -> encode data p = Ok e ->
  e = mkEncodedData p (length data) (map (fun i => mkShard i (code_row p data i)) (seq 0 (total_shards p))) /\
  data <> [].
Proof.
  intros Hp He. assert (data <> []) as Hne by (by intros ->). split; [|done].
  assert (encode data p = Ok (mkEncodedData p (length data) (let r := mat_mul (generator_matrix (k_of p) (m_of p))
    (data_matrix (k_of p) (shard_len_of p data) data) in map (fun i => mkShard i (row_bytes r i)) (seq 0 (m_rows r))))) as E
    by (by destruct data).
  rewrite He in E. injection E as ->. f_equal. cbv zeta.
  pose proof (encoded_sized p Hp data (shard_len_of p data)) as (Hr & Hc & _). rewrite Hr.
  apply map_ext_in. intros i Hi. apply in_seq in Hi. f_equal.
  apply row_bytes_ext; [done|]. intros c Hc'. apply encoded_get; [done|unfold total_shards in *; lia|done].
Qed.

(** Some shards may be missing; those present have the encoded bytes. *)
Definition survivors (e : EncodedData) (shards : list (option Shard)) : Prop :=
  length shards = length (e_shards e) /\
  forall i s, shards !! i = Some (Some s) ->
    exists s', e_shards e !! i = Some s' /\ sh_bytes s = sh_bytes s'.

Lemma survivor_bytes data p e shards i : valid_params p -> encode data p = Ok e -> survivors e shards ->
  i ∈ positions is_some shards -> (i < total_shards p)%nat /\ shard_bytes_at shards i = code_row p data i.
Proof.
  intros Hp He [Hlen Hs] Hi. apply encode_ok in He as [-> _]; [|done].
  apply positions_spec in Hi as ([s|] & Hi & Hsome); [|done]. simpl in Hlen, Hs.
  rewrite length_map, length_seq in Hlen. pose proof (lookup_lt_Some _ _ _ Hi) as Hlt. split; [lia|].
  destruct (Hs i s Hi) as (s' & Hs' & Eb). rewrite list_lookup_fmap, lookup_seq_lt in Hs' by lia.
  simpl in Hs'. injection Hs' as <-. unfold shard_bytes_at. rewrite nth_lookup, Hi. done.
Qed.

(** The survivors [reconstruct] uses. *)
Lemma chosen_choice p (shards : list (option Shard)) : length shards = total_shards p ->
  (k_of p <= length (positions is_some shards))%nat ->
  choice (k_of p) (m_of p) (take (k_of p) (positions is_some shards)).
Proof.
  intros Hlen Hk. split; [|split].
  - apply (sublist_NoDup _ (positions is_some shards)); [apply positions_NoDup|apply sublist_take].
  - rewrite length_take. lia.
  - intros i Hi. apply elem_of_take in Hi as (j & Hi & _). apply list_elem_of_lookup_2 in Hi.
    apply positions_spec in Hi as (x & Hi & _). apply lookup_lt_Some in Hi. unfold total_shards in Hlen. lia.
Qed.

Lemma reconstruct_survivors data p e shards :
  valid_params p -> bytes_ok data -> encode data p = Ok e -> survivors e shards ->
  (k_of p <= countb is_some shards)%nat -> reconstruct p shards (e_original_len e) = Ok data.
Proof.
  intros Hp Hd He Hs Hk. rewrite <- length_positions in Hk.
  pose proof He as He'. apply encode_ok in He' as [Ee Hne]; [|done].
  assert (length shards = total_shards p) as Hlen
    by (destruct Hs as [-> _]; subst e; simpl; by rewrite length_map, length_seq).
  unfold reconstruct. rewrite Hlen, Nat.eqb_refl. simpl.
  rewrite (proj2 (Nat.ltb_ge _ _) Hk). simpl.
  pose proof (chosen_choice p shards Hlen Hk) as Hc. set (l := take (k_of p) (positions is_some shards)) in *.
  assert (forall r, (r < k_of p)%nat -> shard_bytes_at shards (nth r l 0%nat) = code_row p data (nth r l 0%nat)) as Hb.
  { intros r Hr. apply (survivor_bytes data p e); [done|done|done|].
    assert (nth r l 0%nat ∈ l) as Hin by (apply list_elem_of_In, nth_In; rewrite (proj1 (proj2 Hc)); lia).
    apply elem_of_take in Hin as (j & Hj & _). by apply list_elem_of_lookup_2 in Hj. }
  rewrite (Hb 0%nat) by apply Hp. rewrite length_code_row. set (L := shard_len_of p data) in *.
  pose proof (selected_square _ _ (k_pos p Hp) (n_bound p Hp) l Hc) as HS.
  pose proof (selected_kernel _ _ (k_pos p Hp) (n_bound p Hp) l Hc) as Hker.
  destruct (invert_some _ _ HS Hker) as (t & Et & _). rewrite Et. simpl. f_equal.
  subst e. simpl. etrans; [|apply (flatten_take p data L)].
  - f_equal. f_equal. apply map_ext_in. intros i Hi. apply in_seq in Hi.
    apply map_ext_in. intros c Hc'. apply in_seq in Hc'.
    apply (decode_rows p Hp data Hd L l t); [done|done|apply sized_build| |lia|lia].
    intros r c' Hr Hc2. unfold survivor_matrix. rewrite get_build by done. rewrite Hb by done.
    unfold code_row. fold L. rewrite (nth_indep _ _ (code_cell p data L (nth r l 0%nat) 0))
      by (rewrite length_map, length_seq; done). rewrite map_nth, seq_nth by done. done.
  - apply div_ceil_covers, Hp.
Qed.

(** ** Regeneration and repair *)
Lemma resize_nth N b x : (length b <= N)%nat -> nth x (resize N b) 0 = nth x b 0.
Proof.
  intros Hl. unfold resize. rewrite take_ge by done. rewrite !nth_lookup.
  destruct (decide (x < length b)%nat) as [Hx|Hx]; [by rewrite lookup_app_l|].
  rewrite lookup_app_r by lia. rewrite (lookup_ge_None_2 b) by lia.
  destruct (replicate _ _ !! _) eqn:E; [|done]. by apply lookup_replicate in E as [-> _].
Qed.

Lemma regenerate_row p data i : valid_params p -> bytes_ok data -> (i < total_shards p)%nat ->
  regenerate_shard p (resize (shard_len_of p data * k_of p) data) (shard_len_of p data) i = code_row p data i.
Proof.
  intros Hp Hd Hi. set (L := shard_len_of p data). unfold regenerate_shard.
  set (data' := resize (L * k_of p) data). set (g := generator_matrix (k_of p) (m_of p)).
  destruct (generator_sized _ _ (k_pos p Hp) (n_bound p Hp)) as (Hr & Hc & _). fold g in Hr, Hc.
  destruct (select_rows_sized g [i]) as (Hr1 & Hc1 & _).
  pose proof (sized_build (k_of p) L (fun i col => nth (i * L + col) data' 0)) as (Hrd & Hcd & _).
  destruct (sized_mat_mul (row g i) (data_matrix (k_of p) L data')) as (_ & Hcm & _).
  apply row_bytes_ext; [by rewrite Hcm|]. intros c Hc'.
  rewrite get_mat_mul; [|unfold row; rewrite Hr1; simpl; lia|exact (eq_ind_r (fun x => (c < x)%nat) Hc' Hcd)].
  unfold row. rewrite Hc1, Hc. unfold code_cell, apply_row. apply big_ext. intros j Hj.
  rewrite get_select_rows by (simpl; lia). f_equal. unfold data_matrix. rewrite get_build by done.
  apply resize_nth. rewrite Nat.mul_comm. apply div_ceil_covers, Hp.
Qed.

Lemma countb_positions {A} (f : A -> bool) l : countb f l = length (positions f l).
Proof. by rewrite length_positions. Qed.

Lemma omap_lookup_map {A} (f : nat -> A) n l : Forall (fun i => (i < n)%nat) l ->
  omap (fun i => map f (seq 0 n) !! i) l = map f l.
Proof.
  induction 1 as [|i l Hi _ IH]; [done|]. cbn [omap list_omap]. rewrite list_lookup_fmap, lookup_seq_lt by done.
  simpl. by f_equal.
Qed.

Lemma positions_bound {A} (f : A -> bool) l n : length l = n -> Forall (fun i => (i < n)%nat) (positions f l).
Proof.
  intros <-. apply Forall_forall. intros i Hi. apply positions_spec in Hi as (x & Hi & _).
  by apply lookup_lt_Some in Hi.
Qed.

Section Repair.
Context {P : Primitives}.

Definition verified_of (shards : list (option Shard)) (digests : list bytes) : list (option Shard) :=
  zip_with keep_verified shards digests.

Lemma keep_verified_some o d s : keep_verified o d = Some s -> o = Some s /\ shard_digest (sh_bytes s) = d.
Proof.
  unfold keep_verified. destruct o as [s'|]; [|done]. destruct (verify_shard s' d) eqn:E; [|done].
  intros [= ->]. unfold verify_shard in E. by bool_prop.
Qed.

(** The plan counts what [repair] keeps. *)
Lemma plan_flags (shards : list (option Shard)) digests :
  zip_with (fun maybe_shard expected =>
    match maybe_shard with Some shard => verify_shard shard expected | None => false end) shards digests =
  map is_some (verified_of shards digests).
Proof.
  unfold verified_of. revert digests. induction shards as [|o shards IH]; intros [|d digests]; [done..|].
  simpl. rewrite IH. f_equal. destruct o as [s|]; [|done]. simpl. by destruct (verify_shard s d).
Qed.

Lemma positions_map {A B} (f : B -> bool) (g : A -> B) l : positions f (map g l) = positions (f ∘ g) l.
Proof. induction l as [|x l IH]; [done|]. simpl map. rewrite !positions_cons, IH. done. Qed.
Lemma countb_map {A B} (f : B -> bool) (g : A -> B) l : countb f (map g l) = countb (f ∘ g) l.
Proof. by rewrite !countb_positions, positions_map. Qed.

Lemma plan_repair_eq p shards digests : plan_repair p shards digests =
  mkRepairPlan (positions (fun s => negb (is_some s)) (verified_of shards digests))
    (Nat.leb (k_of p) (countb is_some (verified_of shards digests))).
Proof. unfold plan_repair. by rewrite plan_flags, positions_map, countb_map. Qed.

Lemma first_some_exists {A} (l : list (option A)) :
  (1 <= countb is_some l)%nat -> exists s i, first_some l = Some s /\ l !! i = Some (Some s).
Proof.
  induction l as [|[s|] l IH]; [unfold countb; simpl; lia|by exists s, 0%nat|]. rewrite countb_cons. intros H.
  destruct (IH H) as (s & i & E & Hi). by exists s, (S i).
Qed.

(** A present shard whose bytes are not the encoded ones, under the same
    digest. *)
Definition collides (os : option Shard * Shard) : bool :=
  match os.1 with
  | Some s => negb (bool_decide (sh_bytes s = sh_bytes os.2)) &&
              bool_decide (shard_digest (sh_bytes s) = shard_digest (sh_bytes os.2))
  | None => false
  end.
Definition digest_collision (shards : list (option Shard)) (e : EncodedData) : Prop :=
  exists i s s', shards !! i = Some (Some s) /\ e_shards e !! i = Some s' /\
    sh_bytes s <> sh_bytes s' /\ shard_digest (sh_bytes s) = shard_digest (sh_bytes s').
Definition digests_of (e : EncodedData) : list bytes := map (fun s => shard_digest (sh_bytes s)) (e_shards e).

Lemma verified_survivors e shards : length shards = length (e_shards e) ->
  survivors e (verified_of shards (digests_of e)) \/ digest_collision shards e.
Proof.
  intros Hlen. destruct (positions collides (zip shards (e_shards e))) as [|i l] eqn:E.
  - left. unfold verified_of, digests_of. split; [rewrite length_zip_with, length_map; lia|].
    intros i s Hi. apply lookup_zip_with_Some in Hi as (o & d & Hk & Ho & Hd).
    symmetry in Hk. apply keep_verified_some in Hk as [-> Hdig].
    rewrite list_lookup_fmap in Hd. apply fmap_Some in Hd as (s' & Hs' & ->).
    exists s'. split; [done|]. destruct (decide (sh_bytes s = sh_bytes s')) as [|Hne]; [done|exfalso].
    assert ((Some s, s') ∈ zip shards (e_shards e)) as Hin.
    { apply list_elem_of_lookup. exists i. apply lookup_zip_with_Some. by exists (Some s), s'. }
    apply (positions_nil _ _ E) in Hin. unfold collides in Hin. simpl in Hin.
    rewrite bool_decide_eq_false_2, bool_decide_eq_true_2 in Hin by done. done.
  - right. assert (i ∈ positions collides (zip shards (e_shards e))) as Hi by (rewrite E; left).
    apply positions_spec in Hi as ([[s|] s'] & Hi & Hc); [|done]. unfold collides in Hc. simpl in Hc.
    apply lookup_zip_with_Some in Hi as (o & s2 & [= <- <-] & Ho & Hs'). bool_prop.
    exists i, s, s'. by repeat split.
Qed.

Lemma repair_survivors data p e shards digests :
  valid_params p -> bytes_ok data -> encode data p = Ok e ->
  length shards = total_shards p -> length digests = total_shards p ->
  survivors e (verified_of shards digests) -> (k_of p <= countb is_some (verified_of shards digests))%nat ->
  repair p shards digests (e_original_len e) =
    Ok (omap (fun i => e_shards e !! i) (positions (fun s => negb (is_some s)) (verified_of shards digests))).
Proof.
  intros Hp Hd He Hl1 Hl2 Hs Hk. unfold repair. rewrite Hl1, Hl2, Nat.eqb_refl. simpl. fold (verified_of shards digests).
  pose proof (reconstruct_survivors data p e _ Hp Hd He Hs Hk) as Hrec.
  set (v := verified_of shards digests) in *.
  assert (length v = total_shards p) as Hlv by (unfold v, verified_of; rewrite length_zip_with; lia).
  pose proof (positions_bound (fun s => negb (is_some s)) v _ Hlv) as Hb.
  destruct (first_some_exists v) as (s & i & Ef & Hi); [pose proof (k_pos p Hp); lia|].
  assert (length (sh_bytes s) = shard_len_of p data) as Hlen.
  { assert (i ∈ positions is_some v) as Hin by (apply positions_spec; by exists (Some s)).
    destruct (survivor_bytes data p e v i Hp He Hs Hin) as [_ Eb]. unfold shard_bytes_at in Eb.
    rewrite nth_lookup, Hi in Eb. simpl in Eb. by rewrite Eb, length_code_row. }
  destruct (positions (fun s => negb (is_some s)) v) as [|j js]; [done|].
  rewrite Hrec, Ef, Hlen. change (?a ≫= ?f) with (f data). cbv beta zeta. f_equal.
  apply encode_ok in He as [-> _]; [|done]. cbn [e_shards].
  rewrite (omap_lookup_map (fun i => mkShard i (code_row p data i))) by done.
  apply map_ext_in. intros x Hx. rewrite regenerate_row; [done|done|done|].
  rewrite Forall_forall in Hb. apply Hb. by apply list_elem_of_In.
Qed.

End Repair.

(** ** The contract *)

(** [Matrix::invert] returns a two-sided inverse of every square matrix
    that has one, and returns [None] only on a matrix that sends some
    non-zero vector to zero. *)
Theorem invert_correct n self : square_u8 n self ->
  match invert self with
  | Some t => square_u8 n t /\ left_inverse n t self /\ right_inverse n self t
  | None => singular n self
  end.
Proof.
  intros H. pose proof (invert_cases n self H) as Hc. destruct (invert self); [|done].
  destruct Hc as (? & ? & ? & _). done.
Qed.

(** C30: The maximum-distance-separable property: when at least
    [data_shards] of the encoded shards survive, whichever they are,
    [reconstruct] returns exactly the encoded data. *)
Theorem reconstruct_any data p e shards :
  valid_params p -> bytes_ok data -> encode data p = Ok e -> survivors e shards ->
  (k_of p <= countb is_some shards)%nat ->
  reconstruct p shards (e_original_len e) = Ok data.
Proof. apply reconstruct_survivors. Qed.

(** On any shards whatever, [reconstruct] fails only with the two
    documented errors, each exactly when it should: a wrong number of slots,
    or fewer shards than needed.  In particular the selected rows are never
    singular. *)
Theorem reconstruct_outcomes p shards len : valid_params p ->
  match reconstruct p shards len with
  | Ok out => length shards = total_shards p /\ (k_of p <= countb is_some shards)%nat /\ (length out <= len)%nat
  | Err e => (e = WrongShardCount (total_shards p) (length shards) /\ length shards <> total_shards p) \/
             (e = TooManyMissingShards (countb is_some shards) (k_of p) /\ length shards = total_shards p /\
              (countb is_some shards < k_of p)%nat)
  end.
Proof.
  intros Hp. unfold reconstruct. rewrite countb_positions.
  destruct (Nat.eqb_spec (length shards) (total_shards p)) as [Hlen|Hlen]; simpl; [|by left].
  destruct (Nat.ltb_spec (length (positions is_some shards)) (k_of p)) as [Hk|Hk]; simpl; [by right|].
  pose proof (chosen_choice p shards Hlen Hk) as Hc.
  destruct (invert_some _ _ (selected_square _ _ (k_pos p Hp) (n_bound p Hp) _ Hc)
    (selected_kernel _ _ (k_pos p Hp) (n_bound p Hp) _ Hc)) as (t & -> & _). simpl.
  split; [done|]. split; [done|]. rewrite length_take. lia.
Qed.

(** [encode] fails only on empty data; otherwise it returns one shard per
    index, all of the same length, and its first [data_shards] shards laid
    end to end are the data itself, followed by padding. *)
Theorem encode_systematic data p : valid_params p -> bytes_ok data ->
  match encode data p with
  | Err e => e = EmptyData /\ data = []
  | Ok e => e_original_len e = length data /\ map sh_index (e_shards e) = seq 0 (total_shards p) /\
      Forall (fun s => length (sh_bytes s) = shard_len_of p data) (e_shards e) /\
      take (length data) (concat (map sh_bytes (take (k_of p) (e_shards e)))) = data
  end.
Proof.
  intros Hp Hd. destruct (encode data p) as [e|err] eqn:E.
  2:{ destruct data; [|done]. by injection E as <-. }
  apply encode_ok in E as [-> _]; [|done]. simpl. split; [done|]. split; [|split].
  - rewrite map_map. apply map_id.
  - apply Forall_map, Forall_forall. intros i _. apply length_code_row.
  - etrans; [|apply (flatten_take p data (shard_len_of p data)), div_ceil_covers, Hp]. f_equal. f_equal.
    rewrite firstn_map, map_map.
    unfold total_shards. rewrite seq_app, take_app_length' by (by rewrite length_seq).
    apply map_ext_in. intros i Hi. apply in_seq in Hi. apply map_ext_in. intros c Hc. cbn.
    apply code_cell_systematic; [done|done|lia].
Qed.

(** Repair is exact: when enough shards match their digests, [repair]
    returns, for each index the plan lists as missing or corrupted, the very
    shard that was first encoded; unless a corrupted shard collides with the
    original under the digest. *)
Theorem repair_restores {P : Primitives} data p e shards :
  valid_params p -> bytes_ok data -> encode data p = Ok e -> length shards = total_shards p ->
  rp_reconstructable (plan_repair p shards (digests_of e)) = true ->
  repair p shards (digests_of e) (e_original_len e) =
    Ok (omap (fun i => e_shards e !! i) (rp_missing (plan_repair p shards (digests_of e)))) \/
  digest_collision shards e.
Proof.
  intros Hp Hd He Hlen. rewrite plan_repair_eq. simpl. intros Hk. apply Nat.leb_le in Hk.
  assert (length (e_shards e) = total_shards p) as Hle.
  { apply encode_ok in He as [-> _]; [|done]. simpl. by rewrite length_map, length_seq. }
  destruct (verified_survivors e shards ltac:(congruence)) as [Hs|Hs]; [left|by right].
  apply (repair_survivors data); try done. unfold digests_of. by rewrite length_map.
Qed.

(** [plan_repair] tells what [repair] will do, on any shards and
    digests: nothing to regenerate, the listed indices regenerated in order,
    or too few verified shards. *)
Theorem repair_follows_plan {P : Primitives} p shards digests len :
  valid_params p -> length shards = total_shards p -> length digests = total_shards p ->
  let plan := plan_repair p shards digests in
  match repair p shards digests len with
  | Ok rs => map sh_index rs = rp_missing plan /\ rp_reconstructable plan = true
  | Err e => rp_reconstructable plan = false /\
      e = TooManyMissingShards (total_shards p - length (rp_missing plan)) (k_of p)
  end.
Proof.
  intros Hp Hl1 Hl2. rewrite plan_repair_eq. simpl. set (v := verified_of shards digests).
  assert (length v = total_shards p) as Hlv by (unfold v, verified_of; rewrite length_zip_with; lia).
  assert (countb is_some v + length (positions (fun s => negb (is_some s)) v) = length v)%nat as Hsum.
  { rewrite <- countb_positions. clear. induction v as [|[s|] v IH]; [done|..]; rewrite !countb_cons; simpl; lia. }
  unfold repair. rewrite Hl1, Hl2, Nat.eqb_refl. simpl. fold (verified_of shards digests) v.
  pose proof (reconstruct_outcomes p v len Hp) as Hr.
  destruct (positions (fun s => negb (is_some s)) v) as [|j js] eqn:E.
  - split; [done|]. apply Nat.leb_le. simpl in Hsum. unfold total_shards in *. lia.
  - destruct (reconstruct p v len) as [out|err]; simpl.
    + split; [rewrite map_map; apply (f_equal2 cons); [done|apply map_id]|].
      apply Nat.leb_le, Hr.
    + destruct Hr as [(_ & Hr)|(-> & _ & Hk)]; [done|]. split; [by apply Nat.leb_gt|]. f_equal.
      simpl in Hsum. lia.
Qed.

(** For counts whose sum does not wrap, [ErasureParams::new] accepts
    exactly the parameters the code can serve; the check itself is done on
    the wrapped sum, so two huge counts pass it. *)
Theorem ErasureParams_new_bounds a b : is_u64 a -> is_u64 b ->
  match ErasureParams_new a b with
  | Ok p => data_shards p = a /\ parity_shards p = b /\ 1 <= a /\ 1 <= b /\ (a + b) mod 2 ^ 64 <= 255 /\
      (a + b <= U64_MAX -> valid_params p)
  | Err e => e = InvalidParams a b /\ (a = 0 \/ b = 0 \/ 255 < (a + b) mod 2 ^ 64)
  end.
Proof.
  unfold is_u64, U64_MAX, ErasureParams_new, wrapping_add. intros Ha Hb.
  destruct (Z.eqb_spec a 0), (Z.eqb_spec b 0), (Z.ltb_spec 255 ((a + b) mod 2 ^ 64)); simpl;
    try (split; [done|]; lia).
  repeat split; try done; try lia; unfold total_shards, k_of, m_of; simpl; try lia.
  rewrite Z.mod_small in * by lia. lia.
Qed.

(** ** At concrete inputs *)
Module Demo.
Definition params : ErasureParams := mkErasureParams 2 2.
Definition data : bytes := [7; 200; 31; 4; 99].
Definition encoded : EncodedData := Eval vm_compute in
  match encode data params with Ok e => e | Err _ => mkEncodedData params 0 [] end.
(** The two data shards are lost. *)
Definition left_over : list (option Shard) := Eval vm_compute in
  imap (fun i s => if Nat.ltb i 2 then None else Some s) (e_shards encoded).
Definition matrix : Matrix := mkMatrix 2 2 [1; 2; 3; 4].

Lemma params_valid : valid_params params.
Proof. vm_compute. repeat split; repeat constructor. Qed.
Lemma data_ok : bytes_ok data.
Proof. repeat constructor; done. Qed.
Lemma left_over_survive : survivors encoded left_over.
Proof.
  split; [done|]. intros i s Hi. do 4 (destruct i as [|i]; [try done; injection Hi as <-; by eexists|]). done.
Qed.
Lemma matrix_square : square_u8 2 matrix.
Proof.
  split; [done|]. intros i j Hi Hj.
  destruct i as [|[|i]]; [| |lia]; (destruct j as [|[|j]]; [| |lia]); done.
Qed.
End Demo.

Lemma invert_correct_witness : exists t, invert Demo.matrix = Some t /\ left_inverse 2 t Demo.matrix.
Proof.
  pose proof (invert_correct 2 Demo.matrix Demo.matrix_square) as H.
  destruct (invert Demo.matrix) as [t|] eqn:E; [exists t; split; [reflexivity|apply H]|].
  exfalso. vm_compute in E. discriminate E.
Defined.

Lemma reconstruct_any_witness : reconstruct Demo.params Demo.left_over 5 = Ok Demo.data.
Proof.
  apply (reconstruct_any Demo.data Demo.params Demo.encoded Demo.left_over
    Demo.params_valid Demo.data_ok ltac:(vm_compute; reflexivity) Demo.left_over_survive).
  vm_compute. repeat constructor.
Defined.

Lemma reconstruct_outcomes_witness : reconstruct Demo.params [None; None; None] 5 = Err (WrongShardCount 4 3).
Proof.
  pose proof (reconstruct_outcomes Demo.params [None; None; None] 5 Demo.params_valid) as H.
  destruct (reconstruct Demo.params [None; None; None] 5) as [out|e].
  - destruct H as [H _]. discriminate H.
  - destruct H as [[-> _]|(_ & H & _)]; [reflexivity|discriminate H].
Defined.

Lemma encode_systematic_witness : take 5 (concat (map sh_bytes (take 2 (e_shards Demo.encoded)))) = Demo.data.
Proof.
  pose proof (encode_systematic Demo.data Demo.params Demo.params_valid Demo.data_ok) as H.
  assert (encode Demo.data Demo.params = Ok Demo.encoded) as E by (vm_compute; reflexivity).
  rewrite E in H. apply H.
Defined.

Lemma repair_restores_witness :
  repair (P := Toy.primitives) Demo.params Demo.left_over (digests_of (P := Toy.primitives) Demo.encoded) 5 =
    Ok (take 2 (e_shards Demo.encoded)) \/ digest_collision (P := Toy.primitives) Demo.left_over Demo.encoded.
Proof.
  exact (repair_restores (P := Toy.primitives) Demo.data Demo.params Demo.encoded Demo.left_over Demo.params_valid
    Demo.data_ok ltac:(vm_compute; reflexivity) eq_refl ltac:(vm_compute; reflexivity)).
Defined.

Lemma repair_follows_plan_witness :
  let plan := plan_repair (P := Toy.primitives) Demo.params [None; None; None; None] [[]; []; []; []] in
  match repair (P := Toy.primitives) Demo.params [None; None; None; None] [[]; []; []; []] 5 with
  | Ok rs => map sh_index rs = rp_missing plan /\ rp_reconstructable plan = true
  | Err e => rp_reconstructable plan = false /\ e = TooManyMissingShards (4 - length (rp_missing plan)) 2
  end.
Proof.
  exact (repair_follows_plan (P := Toy.primitives) Demo.params [None; None; None; None] [[]; []; []; []] 5
    Demo.params_valid eq_refl eq_refl).
Defined.

Lemma ErasureParams_new_bounds_witness :
  ErasureParams_new (2 ^ 64 - 1) 2 = Ok (mkErasureParams (2 ^ 64 - 1) 2) /\ 2 ^ 64 - 1 <= 2 ^ 64.
Proof.
  pose proof (ErasureParams_new_bounds (2 ^ 64 - 1) 2 ltac:(vm_compute; split; discriminate)
    ltac:(vm_compute; split; discriminate)) as H.
  split; [reflexivity|]. destruct (ErasureParams_new (2 ^ 64 - 1) 2); lia.
Defined.
