(* ===== verification/Economy.v ===== *)
(** * Economy: issuance planning and the monetary ledger

    Models [crates/mini-economy/src]: [error.rs], [amount.rs], [issuance.rs],
    [ledger.rs], [snapshot.rs] and [scalable_epoch_wire.rs].  An [Amount] is
    its [u128] as a [Z]; every arithmetic operation is the checked one of the
    source.  A [BTreeSet<String>] that is only asked for membership is the
    list of what was inserted; one that is iterated is sorted. *)

From Stdlib Require Import ZArith Lia.
From stdpp Require Import base list strings sorting.
From S2P Require Import Prelude Codec Crypto.
Open Scope Z_scope.

(** ** [error.rs], [amount.rs] *)
Inductive EconomyError :=
| Overflow | Underflow | EmptyEligibleSet | DuplicateBeneficiary | InvalidDuration | InvalidPolicy
| ChannelExceeded | TotalExceeded | InvalidGenesis | InvalidSnapshot | UnexpectedEpoch
| OpeningSupplyMismatch | InvalidEpochPlan | MalformedEncoding | EcLimitExceeded.
#[global] Instance EconomyError_eq_dec : EqDecision EconomyError.
Proof. solve_decision. Defined.

Notation Amount := Z (only parsing).
Definition amount_add (a b : Amount) : result EconomyError Amount := ok_or (checked_add U128_MAX a b) Overflow.
Definition amount_sub (a b : Amount) : result EconomyError Amount := ok_or (checked_sub a b) Underflow.

(** ** [issuance.rs] *)
Definition MILLION : Z := 1000000.
Definition YEAR_MS : Z := 365 * 24 * 60 * 60 * 1000.

Inductive Channel := HumanShare | Service | TreasuryContribution.
#[global] Instance Channel_eq_dec : EqDecision Channel.
Proof. solve_decision. Defined.

Record Allocation := mkAllocation { al_beneficiary : bytes; al_amount : Amount }.
#[global] Instance Allocation_eq_dec : EqDecision Allocation.
Proof. solve_decision. Defined.

Record VestingGrant := mkVestingGrant {
  vg_beneficiary : bytes; vg_channel : Channel; vg_amount : Amount; vg_vesting_ms : Z }.
#[global] Instance VestingGrant_eq_dec : EqDecision VestingGrant.
Proof. solve_decision. Defined.

Record IssuancePolicy := mkIssuancePolicy {
  total_ceiling_ppm : Z;
  human_floor_ppm : Z;
  service_ceiling_ppm : Z;
  treasury_ceiling_ppm : Z;
  human_vesting_ms : Z;
  treasury_vesting_ms : Z;
}.

Definition d0074 : IssuancePolicy :=
  mkIssuancePolicy 30000 20000 7500 2500 YEAR_MS (90 * 24 * 60 * 60 * 1000).

Definition policy_validate (p : IssuancePolicy) : result EconomyError unit :=
  channels ← ok_or
    (v ← checked_add U32_MAX (human_floor_ppm p) (service_ceiling_ppm p);
     checked_add U32_MAX v (treasury_ceiling_ppm p)) InvalidPolicy;
  fail_if ((total_ceiling_ppm p <? channels) || (MILLION <? total_ceiling_ppm p) ||
           (human_vesting_ms p =? 0) || (treasury_vesting_ms p =? 0)) InvalidPolicy.

Record EpochRequest := mkEpochRequest {
  rq_epoch : Z;
  rq_duration_ms : Z;
  rq_opening_circulating : Amount;
  rq_eligible_humans : list bytes;
  rq_service : list Allocation;
  rq_treasury : list Allocation;
}.

Record EpochPlan := mkEpochPlan {
  ep_epoch : Z;
  ep_duration_ms : Z;
  ep_opening_circulating : Amount;
  ep_human_cap : Amount;
  ep_service_cap : Amount;
  ep_treasury_cap : Amount;
  ep_total_cap : Amount;
  ep_human_issued : Amount;
  ep_service_issued : Amount;
  ep_treasury_issued : Amount;
  ep_total_issued : Amount;
  ep_grants : list VestingGrant;
}.

Record HumanSnapshot := mkHumanSnapshot { hs_root : bytes; hs_eligible_count : Z }.
#[global] Instance HumanSnapshot_eq_dec : EqDecision HumanSnapshot.
Proof. solve_decision. Defined.

Record HumanSharePlan := mkHumanSharePlan {
  hp_epoch : Z;
  hp_snapshot : HumanSnapshot;
  hp_cap : Amount;
  hp_per_human : Amount;
  hp_issued : Amount;
  hp_unissued_remainder : Amount;
  hp_vesting_ms : Z;
}.
#[global] Instance HumanSharePlan_eq_dec : EqDecision HumanSharePlan.
Proof. solve_decision. Defined.

Record ScalableEpochRequest := mkScalableEpochRequest {
  sr_epoch : Z;
  sr_duration_ms : Z;
  sr_opening_circulating : Amount;
  sr_human_snapshot : HumanSnapshot;
  sr_service : list Allocation;
  sr_treasury : list Allocation;
}.

Record ScalableEpochPlan := mkScalableEpochPlan {
  sp_epoch : Z;
  sp_duration_ms : Z;
  sp_opening_circulating : Amount;
  sp_human : HumanSharePlan;
  sp_service_cap : Amount;
  sp_treasury_cap : Amount;
  sp_total_cap : Amount;
  sp_service_issued : Amount;
  sp_treasury_issued : Amount;
  sp_total_issued : Amount;
  sp_optional_grants : list VestingGrant;
}.
#[global] Instance ScalableEpochPlan_eq_dec : EqDecision ScalableEpochPlan.
Proof. solve_decision. Defined.

(** [while right != 0 { .. }]: the second operand at least halves every two
    rounds, so [257] rounds are enough for [u128]s ([gcd_correct]). *)
Fixpoint gcd_loop (fuel : nat) (left right : Z) : Z :=
  match fuel with
  | O => left
  | S fuel' => if right =? 0 then left else gcd_loop fuel' right (left mod right)
  end.
Definition gcd_fuel : nat := 257.
Definition gcd (left right : Z) : Z := gcd_loop gcd_fuel left right.

(** One round of the loop that cancels a factor against the denominator. *)
Definition cancel (factor denominator : Z) : Z * Z :=
  let divisor := gcd factor denominator in (factor / divisor, denominator / divisor).

Definition prorated (supply : Amount) (ppm duration_ms : Z) : result EconomyError Amount :=
  let denominator := MILLION * YEAR_MS in
  let '(f0, denominator) := cancel supply denominator in
  let '(f1, denominator) := cancel ppm denominator in
  let '(f2, denominator) := cancel duration_ms denominator in
  numerator ← ok_or (v ← checked_mul U128_MAX f0 f1; checked_mul U128_MAX v f2) Overflow;
  Ok (numerator / denominator).

Fixpoint validate_loop (seen : list bytes) (total : Amount) (l : list Allocation) : result EconomyError Amount :=
  match l with
  | [] => Ok total
  | a :: l' =>
      _ ← fail_if (bool_decide (al_beneficiary a = []) || bool_decide (al_beneficiary a ∈ seen)) DuplicateBeneficiary;
      total ← amount_add total (al_amount a);
      validate_loop (al_beneficiary a :: seen) total l'
  end.
Definition validate_allocations (allocations : list Allocation) (cap : Amount) : result EconomyError Amount :=
  total ← validate_loop [] 0 allocations;
  _ ← fail_if (cap <? total) ChannelExceeded;
  Ok total.

Definition zero_root : bytes := replicate 32 0.

Definition plan_human_share (epoch duration_ms : Z) (opening_circulating : Amount) (snapshot : HumanSnapshot)
    (policy : IssuancePolicy) : result EconomyError HumanSharePlan :=
  _ ← policy_validate policy;
  _ ← fail_if ((duration_ms =? 0) || (YEAR_MS <? duration_ms)) InvalidDuration;
  _ ← fail_if ((hs_eligible_count snapshot =? 0) || bool_decide (hs_root snapshot = zero_root)) InvalidSnapshot;
  cap ← prorated opening_circulating (human_floor_ppm policy) duration_ms;
  let per_human := cap / hs_eligible_count snapshot in
  issued ← ok_or (checked_mul U128_MAX per_human (hs_eligible_count snapshot)) Overflow;
  unissued_remainder ← amount_sub cap issued;
  Ok (mkHumanSharePlan epoch snapshot cap per_human issued unissued_remainder (human_vesting_ms policy)).

Definition grant_of (channel : Channel) (vesting_ms : Z) (a : Allocation) : VestingGrant :=
  mkVestingGrant (al_beneficiary a) channel (al_amount a) vesting_ms.

Definition plan_scalable_epoch (request : ScalableEpochRequest) (policy : IssuancePolicy)
    : result EconomyError ScalableEpochPlan :=
  _ ← policy_validate policy;
  human ← plan_human_share (sr_epoch request) (sr_duration_ms request) (sr_opening_circulating request)
            (sr_human_snapshot request) policy;
  service_cap ← prorated (sr_opening_circulating request) (service_ceiling_ppm policy) (sr_duration_ms request);
  treasury_cap ← prorated (sr_opening_circulating request) (treasury_ceiling_ppm policy) (sr_duration_ms request);
  total_cap ← prorated (sr_opening_circulating request) (total_ceiling_ppm policy) (sr_duration_ms request);
  service_issued ← validate_allocations (sr_service request) service_cap;
  treasury_issued ← validate_allocations (sr_treasury request) treasury_cap;
  sum ← amount_add (hp_issued human) service_issued;
  total_issued ← amount_add sum treasury_issued;
  _ ← fail_if (total_cap <? total_issued) TotalExceeded;
  let optional_grants :=
    map (grant_of Service 0) (sr_service request) ++
    map (grant_of TreasuryContribution (treasury_vesting_ms policy)) (sr_treasury request) in
  Ok (mkScalableEpochPlan (sr_epoch request) (sr_duration_ms request) (sr_opening_circulating request) human
        service_cap treasury_cap total_cap service_issued treasury_issued total_issued optional_grants).

(** [humans.iter().cloned().collect::<BTreeSet<String>>()], in order. *)
Definition btree_set (l : list bytes) : list bytes := merge_sort bytes_le (remove_dups l).

Definition canonical_humans (humans : list bytes) : result EconomyError (list bytes) :=
  _ ← fail_if (match humans with [] => true | _ => false end) EmptyEligibleSet;
  let unique := btree_set humans in
  _ ← fail_if (negb (Nat.eqb (length unique) (length humans)) || existsb (fun h => bool_decide (h = [])) unique)
        DuplicateBeneficiary;
  Ok unique.

Definition plan_epoch (request : EpochRequest) (policy : IssuancePolicy) : result EconomyError EpochPlan :=
  _ ← policy_validate policy;
  _ ← fail_if ((rq_duration_ms request =? 0) || (YEAR_MS <? rq_duration_ms request)) InvalidDuration;
  humans ← canonical_humans (rq_eligible_humans request);
  human_cap ← prorated (rq_opening_circulating request) (human_floor_ppm policy) (rq_duration_ms request);
  service_cap ← prorated (rq_opening_circulating request) (service_ceiling_ppm policy) (rq_duration_ms request);
  treasury_cap ← prorated (rq_opening_circulating request) (treasury_ceiling_ppm policy) (rq_duration_ms request);
  total_cap ← prorated (rq_opening_circulating request) (total_ceiling_ppm policy) (rq_duration_ms request);
  let equal_human := human_cap / Z.of_nat (length humans) in
  human_issued ← ok_or (checked_mul U128_MAX equal_human (Z.of_nat (length humans))) Overflow;
  service_issued ← validate_allocations (rq_service request) service_cap;
  treasury_issued ← validate_allocations (rq_treasury request) treasury_cap;
  sum ← amount_add human_issued service_issued;
  total_issued ← amount_add sum treasury_issued;
  _ ← fail_if (total_cap <? total_issued) TotalExceeded;
  let grants :=
    map (fun h => mkVestingGrant h HumanShare equal_human (human_vesting_ms policy)) humans ++
    map (grant_of Service 0) (rq_service request) ++
    map (grant_of TreasuryContribution (treasury_vesting_ms policy)) (rq_treasury request) in
  Ok (mkEpochPlan (rq_epoch request) (rq_duration_ms request) (rq_opening_circulating request)
        human_cap service_cap treasury_cap total_cap human_issued service_issued treasury_issued total_issued grants).

(** ** [ledger.rs] *)
Inductive VestingSubject := SnapshotSubject (s : HumanSnapshot) | Beneficiary (b : bytes).
#[global] Instance VestingSubject_eq_dec : EqDecision VestingSubject.
Proof. solve_decision. Defined.

Record VestingPosition := mkVestingPosition {
  vp_epoch : Z;
  vp_subject : VestingSubject;
  vp_channel : Channel;
  vp_amount : Amount;
  vp_starts_at_policy_ms : Z;
  vp_duration_ms : Z;
}.

Definition vested_at (p : VestingPosition) (policy_ms : Z) : result EconomyError Amount :=
  if vp_duration_ms p =? 0 then Ok (vp_amount p)
  else
    let elapsed := saturating_sub policy_ms (vp_starts_at_policy_ms p) in
    if vp_duration_ms p <=? elapsed then Ok (vp_amount p)
    else
      let denominator := vp_duration_ms p in
      let amount := vp_amount p in
      whole ← ok_or (checked_mul U128_MAX (amount / denominator) elapsed) Overflow;
      scaled ← ok_or (checked_mul U128_MAX (amount mod denominator) elapsed) Overflow;
      let fractional := scaled / denominator in
      ok_or (checked_add U128_MAX whole fractional) Overflow.

Record MonetaryLedger := mkMonetaryLedger {
  genesis_circulating : Amount;
  total_issued : Amount;
  policy_time_ms : Z;
  last_epoch : option Z;
  positions_of : list VestingPosition;
}.

Definition MonetaryLedger_new (g : Amount) : MonetaryLedger := mkMonetaryLedger g 0 0 None [].

Definition total_supply (l : MonetaryLedger) : result EconomyError Amount :=
  amount_add (genesis_circulating l) (total_issued l).

Fixpoint circulating_loop (circulating : Amount) (now : Z) (ps : list VestingPosition) : result EconomyError Amount :=
  match ps with
  | [] => Ok circulating
  | p :: ps' => v ← vested_at p now; c ← amount_add circulating v; circulating_loop c now ps'
  end.
Definition circulating_supply (l : MonetaryLedger) : result EconomyError Amount :=
  circulating_loop (genesis_circulating l) (policy_time_ms l) (positions_of l).

Definition locked_supply (l : MonetaryLedger) : result EconomyError Amount :=
  total ← total_supply l;
  circulating ← circulating_supply l;
  amount_sub total circulating.

Definition allocations (grants : list VestingGrant) (channel : Channel) : list Allocation :=
  map (fun g => mkAllocation (vg_beneficiary g) (vg_amount g))
    (List.filter (fun g => bool_decide (vg_channel g = channel)) grants).

Definition validate_plan_shape (plan : ScalableEpochPlan) (policy : IssuancePolicy) : result EconomyError unit :=
  expected ← plan_scalable_epoch
    (mkScalableEpochRequest (sp_epoch plan) (sp_duration_ms plan) (sp_opening_circulating plan)
       (hp_snapshot (sp_human plan)) (allocations (sp_optional_grants plan) Service)
       (allocations (sp_optional_grants plan) TreasuryContribution)) policy;
  fail_if (bool_decide (expected <> plan)) InvalidEpochPlan.

Definition human_position (plan : ScalableEpochPlan) (end_ : Z) : VestingPosition :=
  mkVestingPosition (sp_epoch plan) (SnapshotSubject (hp_snapshot (sp_human plan))) HumanShare
    (hp_issued (sp_human plan)) end_ (hp_vesting_ms (sp_human plan)).
Definition grant_position (epoch end_ : Z) (g : VestingGrant) : VestingPosition :=
  mkVestingPosition epoch (Beneficiary (vg_beneficiary g)) (vg_channel g) (vg_amount g) end_ (vg_vesting_ms g).

Definition next_epoch (l : MonetaryLedger) : result EconomyError Z :=
  match last_epoch l with
  | None => Ok 0
  | Some epoch => ok_or (checked_add U64_MAX epoch 1) UnexpectedEpoch
  end.

Definition apply_epoch (l : MonetaryLedger) (plan : ScalableEpochPlan) (policy : IssuancePolicy)
    : result EconomyError MonetaryLedger :=
  expected_epoch ← next_epoch l;
  _ ← fail_if (negb (sp_epoch plan =? expected_epoch)) UnexpectedEpoch;
  _ ← fail_if ((sp_duration_ms plan =? 0) || (YEAR_MS <? sp_duration_ms plan)) InvalidDuration;
  circulating ← circulating_supply l;
  _ ← fail_if (negb (sp_opening_circulating plan =? circulating)) OpeningSupplyMismatch;
  _ ← validate_plan_shape plan policy;
  end_ ← ok_or (checked_add U128_MAX (policy_time_ms l) (sp_duration_ms plan)) Overflow;
  issued ← amount_add (total_issued l) (sp_total_issued plan);
  Ok (mkMonetaryLedger (genesis_circulating l) issued end_ (Some (sp_epoch plan))
        (positions_of l ++ human_position plan end_ ::
           map (grant_position (sp_epoch plan) end_) (sp_optional_grants plan))).

(** ** [snapshot.rs] *)
Definition MAX_VESTING_POSITIONS : Z := 65536.
Definition MAX_SNAPSHOT_BENEFICIARY_BYTES : Z := 4096.

(** [MonetaryLedgerSnapshot] has the ledger's fields. *)
Record MonetaryLedgerSnapshot := mkSnapshot {
  ss_genesis_circulating : Amount;
  ss_total_issued : Amount;
  ss_policy_time_ms : Z;
  ss_last_epoch : option Z;
  ss_positions : list VestingPosition;
}.

Definition export_snapshot (l : MonetaryLedger) : MonetaryLedgerSnapshot :=
  mkSnapshot (genesis_circulating l) (total_issued l) (policy_time_ms l) (last_epoch l) (positions_of l).

Definition validate_position (p : VestingPosition) (policy_time : Z) : result EconomyError unit :=
  _ ← fail_if (policy_time <? vp_starts_at_policy_ms p) InvalidSnapshot;
  match vp_subject p with
  | SnapshotSubject s => fail_if (bool_decide (hs_root s = zero_root) || (hs_eligible_count s =? 0)) InvalidSnapshot
  | Beneficiary b =>
      fail_if (bool_decide (b = []) || (MAX_SNAPSHOT_BENEFICIARY_BYTES <? Z.of_nat (length b))) InvalidSnapshot
  end.

Fixpoint import_loop (policy_time : Z) (issued : Amount) (greatest : option Z) (ps : list VestingPosition)
    : result EconomyError (Amount * option Z) :=
  match ps with
  | [] => Ok (issued, greatest)
  | p :: ps' =>
      _ ← validate_position p policy_time;
      issued ← amount_add issued (vp_amount p);
      import_loop policy_time issued
        (Some (match greatest with None => vp_epoch p | Some e => Z.max e (vp_epoch p) end)) ps'
  end.

Definition import_snapshot (s : MonetaryLedgerSnapshot) : result EconomyError MonetaryLedger :=
  _ ← fail_if (MAX_VESTING_POSITIONS <? Z.of_nat (length (ss_positions s))) InvalidSnapshot;
  _ ← fail_if (bool_decide (ss_last_epoch s = None) &&
        (negb (ss_total_issued s =? 0) || negb (ss_policy_time_ms s =? 0) ||
         negb (match ss_positions s with [] => true | _ => false end))) InvalidSnapshot;
  ig ← import_loop (ss_policy_time_ms s) 0 None (ss_positions s);
  _ ← fail_if (negb (ig.1 =? ss_total_issued s)) InvalidSnapshot;
  _ ← fail_if (match ig.2, ss_last_epoch s with Some g, Some l => l <? g | _, _ => false end) InvalidSnapshot;
  let ledger := mkMonetaryLedger (ss_genesis_circulating s) (ss_total_issued s) (ss_policy_time_ms s)
                  (ss_last_epoch s) (ss_positions s) in
  _ ← total_supply ledger;
  _ ← circulating_supply ledger;
  _ ← locked_supply ledger;
  Ok ledger.

(** ** [scalable_epoch_wire.rs] *)
Definition ECON_DOMAIN : bytes := lit "mini-economy/scalable-epoch-plan-wire/v1".
Definition MAX_SCALABLE_EPOCH_GRANTS : Z := 1024.
Definition MAX_EPOCH_BENEFICIARY_BYTES : Z := 1024.
Definition MAX_SCALABLE_EPOCH_PLAN_BYTES : Z := 2 * 1024 * 1024.

Definition put_amount (a : Amount) : bytes := to_be_bytes 16 a.
Definition channel_tag (c : Channel) : Z :=
  match c with HumanShare => 0 | Service => 1 | TreasuryContribution => 2 end.

Definition put_grant (g : VestingGrant) : bytes :=
  w_u64 (Z.of_nat (length (vg_beneficiary g))) ++ vg_beneficiary g ++ w_u8 (channel_tag (vg_channel g)) ++
  put_amount (vg_amount g) ++ w_u64 (vg_vesting_ms g).

Definition plan_canonical_bytes (p : ScalableEpochPlan) : bytes :=
  let h := sp_human p in
  ECON_DOMAIN ++ w_u64 (sp_epoch p) ++ w_u64 (sp_duration_ms p) ++ put_amount (sp_opening_circulating p) ++
  w_u64 (hp_epoch h) ++ hs_root (hp_snapshot h) ++ w_u64 (hs_eligible_count (hp_snapshot h)) ++
  put_amount (hp_cap h) ++ put_amount (hp_per_human h) ++ put_amount (hp_issued h) ++
  put_amount (hp_unissued_remainder h) ++ w_u64 (hp_vesting_ms h) ++
  put_amount (sp_service_cap p) ++ put_amount (sp_treasury_cap p) ++ put_amount (sp_total_cap p) ++
  put_amount (sp_service_issued p) ++ put_amount (sp_treasury_issued p) ++ put_amount (sp_total_issued p) ++
  w_u64 (Z.of_nat (length (sp_optional_grants p))) ++ concat (map put_grant (sp_optional_grants p)).

Definition plan_to_wire_bytes (p : ScalableEpochPlan) : result EconomyError bytes :=
  _ ← fail_if ((MAX_SCALABLE_EPOCH_GRANTS <? Z.of_nat (length (sp_optional_grants p))) ||
        existsb (fun g => bool_decide (vg_beneficiary g = []) ||
                          (MAX_EPOCH_BENEFICIARY_BYTES <? Z.of_nat (length (vg_beneficiary g))))
          (sp_optional_grants p)) EcLimitExceeded;
  let b := plan_canonical_bytes p in
  _ ← fail_if (MAX_SCALABLE_EPOCH_PLAN_BYTES <? Z.of_nat (length b)) EcLimitExceeded;
  Ok b.

(** The cursor of this file is the one of [Codec], with its own error;
    [u8] is [take(1)?[0]]. *)
Definition ec_take (n : nat) : parser EconomyError bytes := r_take MalformedEncoding n.
Definition ec_u8 : parser EconomyError Z := r_u8 MalformedEncoding.
Definition ec_u64 : parser EconomyError Z := r_u64 MalformedEncoding.
Definition ec_amount : parser EconomyError Amount := s ← ec_take 16; mret (from_be_bytes s).

Definition channel_from_tag (t : Z) : result EconomyError Channel :=
  if t =? 0 then Ok HumanShare
  else if t =? 1 then Ok Service
  else if t =? 2 then Ok TreasuryContribution
  else Err MalformedEncoding.

Definition read_grant : parser EconomyError VestingGrant :=
  beneficiary_len ← ec_u64;
  _ ← lift (fail_if ((beneficiary_len =? 0) || (MAX_EPOCH_BENEFICIARY_BYTES <? beneficiary_len)) EcLimitExceeded);
  beneficiary ← ec_take (Z.to_nat beneficiary_len);
  _ ← lift (fail_if (negb (utf8_valid beneficiary)) MalformedEncoding);
  tag ← ec_u8;
  channel ← lift (channel_from_tag tag);
  amount ← ec_amount;
  vesting_ms ← ec_u64;
  mret (mkVestingGrant beneficiary channel amount vesting_ms).

Definition read_human : parser EconomyError HumanSharePlan :=
  human_epoch ← ec_u64;
  root ← ec_take 32;
  eligible_count ← ec_u64;
  cap ← ec_amount;
  per_human ← ec_amount;
  issued ← ec_amount;
  unissued_remainder ← ec_amount;
  vesting_ms ← ec_u64;
  mret (mkHumanSharePlan human_epoch (mkHumanSnapshot root eligible_count) cap per_human issued
          unissued_remainder vesting_ms).

Definition read_plan : parser EconomyError ScalableEpochPlan :=
  domain ← ec_take (length ECON_DOMAIN);
  _ ← lift (fail_if (negb (bool_decide (domain = ECON_DOMAIN))) MalformedEncoding);
  epoch ← ec_u64;
  duration_ms ← ec_u64;
  opening_circulating ← ec_amount;
  human ← read_human;
  service_cap ← ec_amount;
  treasury_cap ← ec_amount;
  total_cap ← ec_amount;
  service_issued ← ec_amount;
  treasury_issued ← ec_amount;
  total_issued ← ec_amount;
  count ← ec_u64;
  _ ← lift (fail_if (MAX_SCALABLE_EPOCH_GRANTS <? count) EcLimitExceeded);
  optional_grants ← r_repeat (Z.to_nat count) read_grant;
  mret (mkScalableEpochPlan epoch duration_ms opening_circulating human service_cap treasury_cap total_cap
          service_issued treasury_issued total_issued optional_grants).

Definition plan_from_wire_bytes (b : bytes) : result EconomyError ScalableEpochPlan :=
  _ ← fail_if (MAX_SCALABLE_EPOCH_PLAN_BYTES <? Z.of_nat (length b)) EcLimitExceeded;
  pr ← read_plan (Reader_new b);
  _ ← fail_if (negb (finished pr.2)) MalformedEncoding;
  wire ← plan_to_wire_bytes pr.1;
  _ ← fail_if (negb (bool_decide (wire = b))) MalformedEncoding;
  Ok pr.1.

(** ** Commitments *)
Section Commitments.
Context {P : Primitives}.

Definition EpochPlan_commitment (p : EpochPlan) : Multihash :=
  Multihash_of Blake3 (lit "mini-economy/epoch-plan/v1" ++ w_u64 (ep_epoch p) ++ w_u64 (ep_duration_ms p) ++
    concat (map put_amount [ep_opening_circulating p; ep_human_cap p; ep_service_cap p; ep_treasury_cap p;
      ep_total_cap p; ep_human_issued p; ep_service_issued p; ep_treasury_issued p; ep_total_issued p]) ++
    w_u64 (Z.of_nat (length (ep_grants p))) ++ concat (map put_grant (ep_grants p))).

Definition ScalableEpochPlan_commitment (p : ScalableEpochPlan) : Multihash :=
  Multihash_of Blake3 (lit "mini-economy/scalable-epoch-plan/v2" ++ plan_canonical_bytes p).

Definition put_subject (s : VestingSubject) : bytes :=
  match s with
  | SnapshotSubject s => w_u8 0 ++ hs_root s ++ w_u64 (hs_eligible_count s)
  | Beneficiary b => w_u8 1 ++ w_u64 (Z.of_nat (length b)) ++ b
  end.

Definition put_position (p : VestingPosition) : bytes :=
  w_u64 (vp_epoch p) ++ put_subject (vp_subject p) ++ w_u8 (channel_tag (vp_channel p)) ++
  put_amount (vp_amount p) ++ to_be_bytes 16 (vp_starts_at_policy_ms p) ++ w_u64 (vp_duration_ms p).

Definition ledger_preimage (l : MonetaryLedger) : bytes :=
  lit "mini-economy/monetary-ledger/v1" ++ put_amount (genesis_circulating l) ++ put_amount (total_issued l) ++
  to_be_bytes 16 (policy_time_ms l) ++
  match last_epoch l with Some e => w_u8 1 ++ w_u64 e | None => w_u8 0 end ++
  w_u64 (Z.of_nat (length (positions_of l))) ++ concat (map put_position (positions_of l)).

Definition MonetaryLedger_commitment (l : MonetaryLedger) : Multihash :=
  Multihash_of Blake3 (ledger_preimage l).

End Commitments.
