(* ===== verification/EconomyTheorems.v ===== *)
(** * EconomyTheorems: issuance stays inside the policy, supply adds up

    [prorated] is exact, a plan issues at most the policy's share of the
    circulating supply, vesting is exact and never overflows, and every
    ledger reachable from genesis accounts for each unit it issued. *)

From Stdlib Require Import ZArith Lia.
From stdpp Require Import base list strings.
From S2P Require Import Prelude Codec Crypto Economy.
Open Scope Z_scope.

(** ** Exact proration *)
Lemma gcd_loop_spec k fuel l r : 0 <= l -> 0 <= r < 2 ^ Z.of_nat k -> (2 * k + 1 <= fuel)%nat ->
  gcd_loop fuel l r = Z.gcd l r.
Proof.
  revert fuel l r. induction k as [|k IH]; intros fuel l r Hl Hr Hf.
  - assert (r = 0) as -> by (simpl in Hr; lia). destruct fuel as [|fuel]; [lia|]. simpl.
    rewrite Z.gcd_0_r. lia.
  - destruct fuel as [|[|[|fuel]]]; [lia..|]. cbn [gcd_loop].
    destruct (Z.eqb_spec r 0) as [->|Hne]; [rewrite Z.gcd_0_r; lia|].
    rewrite (Z.gcd_comm l r), <- Z.gcd_mod, Z.gcd_comm by done.
    pose proof (Z.mod_pos_bound l r ltac:(lia)) as Hm. set (x := l mod r) in *.
    destruct (Z.eqb_spec x 0) as [->|Hx]; [rewrite Z.gcd_0_r; lia|].
    rewrite (Z.gcd_comm r x), <- Z.gcd_mod, Z.gcd_comm by done.
    change (gcd_loop (S fuel) x (r mod x) = Z.gcd x (r mod x)).
    apply IH; [lia| |lia]. pose proof (Z.mod_pos_bound r x ltac:(lia)) as Hm2.
    pose proof (Z.div_mod r x ltac:(lia)) as Hd. pose proof (Z.div_str_pos r x ltac:(lia)) as Hq.
    rewrite Nat2Z.inj_succ, Z.pow_succ_r in Hr by lia. nia.
Qed.

Lemma gcd_correct l r : is_u128 l -> is_u128 r -> gcd l r = Z.gcd l r.
Proof.
  unfold is_u128, U128_MAX. intros Hl Hr. unfold gcd, gcd_fuel. apply (gcd_loop_spec 128); lia.
Qed.

Lemma cancel_spec f d : is_u128 f -> is_u128 d -> 1 <= d ->
  exists g, 1 <= g /\ f = (cancel f d).1 * g /\ d = (cancel f d).2 * g /\
    0 <= (cancel f d).1 <= f /\ 1 <= (cancel f d).2 <= d.
Proof.
  intros Hf Hd Hpos. unfold cancel. rewrite gcd_correct by done. simpl. set (g := Z.gcd f d).
  unfold is_u128 in *.
  assert (1 <= g) as Hg.
  { pose proof (Z.gcd_nonneg f d). assert (g <> 0) by (intros E; apply Z.gcd_eq_0_r in E; lia). lia. }
  destruct (Z.gcd_divide_l f d) as [qf Hqf]. destruct (Z.gcd_divide_r f d) as [qd Hqd]. fold g in Hqf, Hqd.
  assert (f / g = qf) as -> by (rewrite Hqf; apply Z.div_mul; lia).
  assert (d / g = qd) as -> by (rewrite Hqd; apply Z.div_mul; lia).
  exists g. nia.
Qed.

Definition YEAR_SHARE : Z := MILLION * YEAR_MS.

Lemma prorated_spec supply ppm dur : is_u128 supply -> is_u32 ppm -> is_u64 dur -> 1 <= dur ->
  match prorated supply ppm dur with
  | Ok v => v = supply * ppm * dur / YEAR_SHARE
  | Err e => e = Overflow /\ U128_MAX < supply * ppm * dur
  end.
Proof.
  unfold is_u32, is_u64, U32_MAX, U64_MAX. intros Hs Hp Hd Hd1. unfold prorated. fold YEAR_SHARE.
  assert (is_u128 ppm) as Hp' by (unfold is_u128, U128_MAX; lia).
  assert (is_u128 dur) as Hd' by (unfold is_u128, U128_MAX; lia).
  assert (is_u128 YEAR_SHARE) as HY by (unfold is_u128; vm_compute; split; discriminate).
  assert (1 <= YEAR_SHARE) as HY1 by (vm_compute; discriminate).
  clear Hp Hd. generalize YEAR_SHARE, HY, HY1. clear HY HY1. intros Y HY HY1.
  destruct (cancel_spec supply Y Hs HY HY1) as (g0 & Hg0 & E0 & D0 & F0 & B0).
  destruct (cancel supply Y) as [f0 d0]. cbn [fst snd] in *.
  assert (is_u128 d0) as U0 by (unfold is_u128 in *; lia).
  destruct (cancel_spec ppm d0 Hp' U0 ltac:(lia)) as (g1 & Hg1 & E1 & D1 & F1 & B1).
  destruct (cancel ppm d0) as [f1 d1]. cbn [fst snd] in *.
  assert (is_u128 d1) as U1 by (unfold is_u128 in *; lia).
  destruct (cancel_spec dur d1 Hd' U1 ltac:(lia)) as (g2 & Hg2 & E2 & D2 & F2 & B2).
  destruct (cancel dur d1) as [f2 d2]. cbn [fst snd] in *. unfold is_u128 in Hs. clear HY U0 U1 Hp' Hd'.
  assert (f0 * f1 <= supply * ppm) as Hle1 by nia.
  destruct (checked_mul U128_MAX f0 f1) as [v|] eqn:M1; cbn [ok_or mbind result_bind option_bind].
  - apply checked_mul_Some in M1 as [-> M1].
    destruct (checked_mul U128_MAX (f0 * f1) f2) as [w|] eqn:M2; cbn [ok_or mbind result_bind option_bind].
    + apply checked_mul_Some in M2 as [-> M2]. clear M1 M2.
      replace (supply * ppm * dur) with (f0 * f1 * f2 * (g0 * g1 * g2)) by (rewrite E0, E1, E2; ring).
      replace Y with (d2 * (g0 * g1 * g2)) by (rewrite D0, D1, D2; ring).
      rewrite Z.div_mul_cancel_r; [done|lia|]. assert (0 < g0 * g1) by nia. nia.
    + split; [done|]. unfold checked_mul in M2. case_match; [done|]. bool_prop.
      assert (f0 * f1 * f2 <= supply * ppm * dur) by (apply Z.mul_le_mono_nonneg; nia). lia.
  - split; [done|]. unfold checked_mul in M1. case_match; [done|]. bool_prop.
    assert (supply * ppm * 1 <= supply * ppm * dur) by (apply Z.mul_le_mono_nonneg_l; nia). lia.
Qed.

(** ** Allocations *)
Definition alloc_sum (l : list Allocation) : Z := sum_Z (map al_amount l).
Definition alloc_typed (l : list Allocation) : Prop := Forall (fun a => is_u128 (al_amount a)) l.

Lemma amount_add_ok a b c : amount_add a b = Ok c <-> c = a + b /\ a + b <= U128_MAX.
Proof. unfold amount_add. rewrite ok_or_ok. apply checked_add_Some. Qed.
Lemma amount_sub_ok a b c : amount_sub a b = Ok c <-> c = a - b /\ b <= a.
Proof. unfold amount_sub. rewrite ok_or_ok. apply checked_sub_Some. Qed.

Ltac amounts :=
  repeat match goal with
  | H : amount_add _ _ = Ok _ |- _ => apply amount_add_ok in H as [-> ?]
  | H : amount_sub _ _ = Ok _ |- _ => apply amount_sub_ok in H as [-> ?]
  | H : ok_or (checked_mul _ _ _) _ = Ok _ |- _ => apply ok_or_ok, checked_mul_Some in H as [-> ?]
  | H : ok_or (checked_add _ _ _) _ = Ok _ |- _ => apply ok_or_ok, checked_add_Some in H as [-> ?]
  end.

Lemma alloc_sum_cons a l : alloc_sum (a :: l) = al_amount a + alloc_sum l.
Proof. done. Qed.
Lemma alloc_sum_nonneg l : alloc_typed l -> 0 <= alloc_sum l.
Proof.
  induction 1 as [|a l Ha _ IH]; [done|]. rewrite alloc_sum_cons. unfold is_u128 in Ha. lia.
Qed.

Lemma validate_loop_ok seen t l v : validate_loop seen t l = Ok v ->
  v = t + alloc_sum l /\ NoDup (map al_beneficiary l) /\
  Forall (fun a => al_beneficiary a <> [] /\ al_beneficiary a ∉ seen) l.
Proof.
  revert seen t. induction l as [|a l IH]; intros seen t H; simpl in H.
  - injection H as <-. split; [unfold alloc_sum; simpl; lia|]. split; constructor.
  - ok_inv. bool_prop. amounts. destruct (IH _ _ H) as (-> & Hnd & Hall).
    rewrite alloc_sum_cons. split; [lia|]. rewrite Forall_forall in Hall. split; simpl.
    + constructor; [|done]. intros Hin. apply list_elem_of_fmap in Hin as (b & E & Hb).
      destruct (Hall b Hb) as [_ Hn]. apply Hn. rewrite E. left.
    + constructor; [by split|]. apply Forall_forall. intros b Hb. destruct (Hall b Hb) as [Hne Hns].
      split; [done|]. intros Hin. apply Hns. by right.
Qed.

Lemma validate_allocations_ok l cap v : validate_allocations l cap = Ok v ->
  v = alloc_sum l /\ alloc_sum l <= cap /\ NoDup (map al_beneficiary l) /\
  Forall (fun a => al_beneficiary a <> []) l.
Proof.
  unfold validate_allocations. intros H. ok_inv. bool_prop.
  apply validate_loop_ok in Hx as (-> & Hnd & Hall). split; [lia|]. split; [lia|]. split; [done|].
  eapply Forall_impl; [exact Hall|]. intros a [Ha _]. done.
Qed.

(** ** What a plan can issue *)
Definition policy_typed (p : IssuancePolicy) : Prop :=
  is_u32 (total_ceiling_ppm p) /\ is_u32 (human_floor_ppm p) /\ is_u32 (service_ceiling_ppm p) /\
  is_u32 (treasury_ceiling_ppm p) /\ is_u64 (human_vesting_ms p) /\ is_u64 (treasury_vesting_ms p).
Definition request_typed (r : ScalableEpochRequest) : Prop :=
  is_u64 (sr_duration_ms r) /\ is_u128 (sr_opening_circulating r) /\
  is_u64 (hs_eligible_count (sr_human_snapshot r)) /\ alloc_typed (sr_service r) /\ alloc_typed (sr_treasury r).

(** The policy's share of [supply] over [dur]. *)
Definition share (supply ppm dur : Z) : Z := supply * ppm * dur / YEAR_SHARE.

Lemma prorated_ok supply ppm dur v : is_u128 supply -> is_u32 ppm -> is_u64 dur -> 1 <= dur ->
  prorated supply ppm dur = Ok v -> v = share supply ppm dur.
Proof. intros Hs Hp Hd H1 E. pose proof (prorated_spec supply ppm dur Hs Hp Hd H1) as H. by rewrite E in H. Qed.

Lemma share_nonneg supply ppm dur : is_u128 supply -> is_u32 ppm -> is_u64 dur -> 0 <= share supply ppm dur.
Proof.
  unfold is_u128, is_u32, is_u64. intros. unfold share. apply Z.div_pos; [nia|vm_compute; reflexivity].
Qed.

(** At most the whole supply over a year. *)
Lemma share_bounds supply ppm dur : is_u128 supply -> 0 <= ppm <= MILLION -> 0 <= dur <= YEAR_MS ->
  0 <= share supply ppm dur <= supply.
Proof.
  unfold is_u128. intros Hs Hp Hd. unfold share. assert (0 < YEAR_SHARE) as HY by (vm_compute; reflexivity).
  split; [apply Z.div_pos; nia|]. apply Z.div_le_upper_bound; [done|]. unfold YEAR_SHARE in *.
  assert (ppm * dur <= MILLION * YEAR_MS) by (apply Z.mul_le_mono_nonneg; lia).
  replace (supply * ppm * dur) with (supply * (ppm * dur)) by ring. nia.
Qed.

Record human_plan_ok (policy : IssuancePolicy) (opening dur : Z) (h : HumanSharePlan) : Prop := {
  ho_cap : hp_cap h = share opening (human_floor_ppm policy) dur;
  ho_count : 1 <= hs_eligible_count (hp_snapshot h);
  ho_root : hs_root (hp_snapshot h) <> zero_root;
  ho_issued : hp_issued h = hp_per_human h * hs_eligible_count (hp_snapshot h);
  ho_split : hp_cap h = hp_issued h + hp_unissued_remainder h;
  ho_remainder : 0 <= hp_unissued_remainder h < hs_eligible_count (hp_snapshot h);
  ho_nonneg : 0 <= hp_issued h;
  ho_vesting : hp_vesting_ms h = human_vesting_ms policy;
}.

Lemma plan_human_share_ok epoch dur opening snap policy h :
  policy_typed policy -> is_u64 dur -> is_u128 opening -> is_u64 (hs_eligible_count snap) ->
  plan_human_share epoch dur opening snap policy = Ok h ->
  human_plan_ok policy opening dur h /\ hp_epoch h = epoch /\ hp_snapshot h = snap /\
  0 < dur <= YEAR_MS /\ policy_validate policy = Ok tt.
Proof.
  intros (_ & Hf & _) Hd Ho Hc. unfold plan_human_share. intros H. repeat (apply bind_ok in H as (? & ? & H)).
  injection H as <-. destruct x. repeat match goal with
    | H : fail_if _ _ = Ok _ |- _ => apply fail_if_ok in H; bool_prop end.
  amounts. unfold is_u64 in Hd.
  match goal with H : prorated _ _ _ = Ok _ |- _ => apply prorated_ok in H as ->; [|done|done|done|lia] end.
  pose proof (share_nonneg opening (human_floor_ppm policy) dur Ho Hf Hd) as Hn.
  set (cap := share opening (human_floor_ppm policy) dur) in *. set (n := hs_eligible_count snap) in *.
  unfold is_u64 in Hc. pose proof (Z.div_mod cap n ltac:(lia)) as E. pose proof (Z.mod_pos_bound cap n ltac:(lia)).
  split; [|split; [done|split; [done|split; [lia|done]]]].
  pose proof (Z.div_pos cap n ltac:(lia) ltac:(lia)).
  constructor; cbn [hp_cap hp_snapshot hp_issued hp_per_human hp_unissued_remainder hp_vesting_ms];
    fold n; try done; try lia.
Qed.

Record plan_ok (policy : IssuancePolicy) (r : ScalableEpochRequest) (p : ScalableEpochPlan) : Prop := {
  po_human : human_plan_ok policy (sr_opening_circulating r) (sr_duration_ms r) (sp_human p);
  po_total : sp_total_issued p = hp_issued (sp_human p) + alloc_sum (sr_service r) + alloc_sum (sr_treasury r);
  po_total_cap : sp_total_issued p <= share (sr_opening_circulating r) (total_ceiling_ppm policy) (sr_duration_ms r);
  po_service : alloc_sum (sr_service r) <= share (sr_opening_circulating r) (service_ceiling_ppm policy) (sr_duration_ms r);
  po_treasury : alloc_sum (sr_treasury r) <= share (sr_opening_circulating r) (treasury_ceiling_ppm policy) (sr_duration_ms r);
  po_grants : sp_optional_grants p =
    map (grant_of Service 0) (sr_service r) ++ map (grant_of TreasuryContribution (treasury_vesting_ms policy)) (sr_treasury r);
  po_names : Forall (fun a => al_beneficiary a <> []) (sr_service r ++ sr_treasury r);
  po_duration : 0 < sr_duration_ms r <= YEAR_MS;
  po_fields : sp_epoch p = sr_epoch r /\ sp_duration_ms p = sr_duration_ms r /\
    sp_opening_circulating p = sr_opening_circulating r /\ hp_snapshot (sp_human p) = sr_human_snapshot r;
}.

Lemma plan_scalable_epoch_ok r policy p : policy_typed policy -> request_typed r ->
  plan_scalable_epoch r policy = Ok p -> plan_ok policy r p.
Proof.
  intros Hp (Hd & Ho & Hc & _ & _) H. unfold plan_scalable_epoch in H.
  repeat (apply bind_ok in H as (? & ? & H)). injection H as <-.
  repeat match goal with
    | H : fail_if _ _ = Ok _ |- _ => apply fail_if_ok in H; bool_prop
    | H : validate_allocations _ _ = Ok _ |- _ => apply validate_allocations_ok in H as (-> & ? & _ & ?)
    end.
  match goal with H : plan_human_share _ _ _ _ _ = Ok _ |- _ =>
    apply plan_human_share_ok in H as (Hh & He & Hs & Hdur & _); [|done..] end.
  pose proof Hp as (Ht & _ & Hsv & Htr & _).
  repeat match goal with H : prorated _ _ _ = Ok _ |- _ => apply prorated_ok in H as ->; [|done|done|done|lia] end.
  amounts. constructor; simpl; try done; try lia. by apply Forall_app.
Qed.

(** ** Vesting *)
Definition position_typed (p : VestingPosition) : Prop :=
  is_u128 (vp_amount p) /\ is_u128 (vp_starts_at_policy_ms p) /\ is_u64 (vp_duration_ms p).

(** The share of a position that has vested [elapsed] after its start. *)
Definition vested (p : VestingPosition) (now : Z) : Z :=
  if vp_duration_ms p =? 0 then vp_amount p
  else vp_amount p * Z.min (vp_duration_ms p) (saturating_sub now (vp_starts_at_policy_ms p)) / vp_duration_ms p.

Lemma vested_at_exact p now : position_typed p -> vested_at p now = Ok (vested p now).
Proof.
  unfold position_typed, is_u128, is_u64, U64_MAX. intros (Ha & Hs & Hd). unfold vested_at, vested.
  destruct (Z.eqb_spec (vp_duration_ms p) 0) as [|Hne]; [done|]. cbv zeta.
  set (e := saturating_sub now (vp_starts_at_policy_ms p)).
  assert (0 <= e) as He by (unfold e, saturating_sub; lia).
  set (d := vp_duration_ms p) in *. set (a := vp_amount p) in *.
  destruct (Z.leb_spec d e) as [Hle|Hlt].
  - rewrite Z.min_l by lia. by rewrite Z.div_mul.
  - rewrite Z.min_r by lia. pose proof (Z.div_mod a d Hne) as E. pose proof (Z.mod_pos_bound a d ltac:(lia)) as Hm.
    set (q := a / d) in *. set (r := a mod d) in *.
    assert (0 <= q) as Hq by (apply Z.div_pos; lia).
    assert (a * e / d = q * e + r * e / d) as Ev.
    { replace (a * e) with (r * e + q * e * d) by (rewrite E; ring). rewrite Z.div_add by done. lia. }
    assert (r * e <= U128_MAX) as Hre.
    { unfold U128_MAX. assert (r * e <= (2 ^ 64 - 1) * (2 ^ 64 - 1)) by (apply Z.mul_le_mono_nonneg; lia). lia. }
    assert (0 <= r * e / d) by (apply Z.div_pos; nia).
    assert (a * e / d <= a) by (apply Z.div_le_upper_bound; nia).
    unfold checked_mul, checked_add.
    rewrite (proj2 (Z.leb_le (q * e) U128_MAX)) by nia. cbn [ok_or mbind result_bind].
    rewrite (proj2 (Z.leb_le (r * e) U128_MAX)) by done. cbn [ok_or mbind result_bind].
    rewrite (proj2 (Z.leb_le (q * e + r * e / d) U128_MAX)) by lia. cbn [ok_or]. by rewrite Ev.
Qed.

Lemma vested_bounds p now : position_typed p -> 0 <= vested p now <= vp_amount p.
Proof.
  unfold position_typed, is_u128, is_u64. intros (Ha & Hs & Hd). unfold vested.
  destruct (Z.eqb_spec (vp_duration_ms p) 0) as [|Hne]; [lia|].
  assert (0 <= saturating_sub now (vp_starts_at_policy_ms p)) by (unfold saturating_sub; lia).
  split; [apply Z.div_pos; nia|apply Z.div_le_upper_bound; nia].
Qed.

Lemma vested_mono p now now' : position_typed p -> now <= now' -> vested p now <= vested p now'.
Proof.
  unfold position_typed, is_u128, is_u64. intros (Ha & Hs & Hd) Hle. unfold vested.
  destruct (Z.eqb_spec (vp_duration_ms p) 0) as [|Hne]; [lia|]. apply Z.div_le_mono; [lia|].
  apply Z.mul_le_mono_nonneg_l; [lia|]. unfold saturating_sub. lia.
Qed.

(** ** The ledger *)
Definition vested_sum (now : Z) (ps : list VestingPosition) : Z := sum_Z (map (fun p => vested p now) ps).
Definition amount_sum (ps : list VestingPosition) : Z := sum_Z (map vp_amount ps).
Definition circulating (l : MonetaryLedger) : Z :=
  genesis_circulating l + vested_sum (policy_time_ms l) (positions_of l).

Lemma vested_sum_cons now p ps : vested_sum now (p :: ps) = vested p now + vested_sum now ps.
Proof. done. Qed.
Lemma amount_sum_cons p ps : amount_sum (p :: ps) = vp_amount p + amount_sum ps.
Proof. done. Qed.
Lemma amount_sum_app a b : amount_sum (a ++ b) = amount_sum a + amount_sum b.
Proof. unfold amount_sum. by rewrite map_app, sum_Z_app. Qed.

Lemma vested_sum_bounds now ps : Forall position_typed ps -> 0 <= vested_sum now ps <= amount_sum ps.
Proof.
  induction 1 as [|p ps Hp _ IH]; [done|]. rewrite vested_sum_cons, amount_sum_cons.
  pose proof (vested_bounds p now Hp). lia.
Qed.

Lemma vested_sum_mono now now' ps : Forall position_typed ps -> now <= now' ->
  vested_sum now ps <= vested_sum now' ps.
Proof.
  induction 1 as [|p ps Hp _ IH]; intros Hle; [done|]. rewrite !vested_sum_cons.
  pose proof (vested_mono p now now' Hp Hle). specialize (IH Hle). lia.
Qed.

Lemma circulating_loop_spec c now ps : Forall position_typed ps -> 0 <= c ->
  circulating_loop c now ps =
    if bool_decide (c + vested_sum now ps <= U128_MAX) || bool_decide (ps = []) then Ok (c + vested_sum now ps)
    else Err Overflow.
Proof.
  intros H. revert c. induction H as [|p ps Hp Hps IH]; intros c Hc.
  { rewrite orb_true_r. cbn. f_equal. lia. }
  cbn [circulating_loop]. rewrite vested_at_exact by done. cbn [mbind result_bind].
  rewrite (bool_decide_eq_false_2 (p :: ps = [])), orb_false_r by done. rewrite vested_sum_cons.
  pose proof (vested_bounds p now Hp). pose proof (vested_sum_bounds now ps Hps).
  unfold amount_add, checked_add. destruct (Z.leb_spec (c + vested p now) U128_MAX) as [Hle|Hgt];
    cbn [ok_or mbind result_bind].
  - rewrite IH by lia. rewrite Z.add_assoc. destruct (decide (ps = [])) as [-> |Hne].
    + rewrite (bool_decide_eq_true_2 (c + vested p now + _ <= U128_MAX)); [done|].
      change (vested_sum now []) with 0. lia.
    + by rewrite (bool_decide_eq_false_2 (ps = [])), orb_false_r.
  - rewrite bool_decide_eq_false_2 by lia. done.
Qed.

Definition subject_ok (s : VestingSubject) : Prop :=
  match s with
  | SnapshotSubject s => hs_root s <> zero_root /\ hs_eligible_count s <> 0
  | Beneficiary b => b <> []
  end.

Record position_ok (l : MonetaryLedger) (p : VestingPosition) : Prop := {
  pk_typed : position_typed p;
  pk_started : vp_starts_at_policy_ms p <= policy_time_ms l;
  pk_epoch : forall e, last_epoch l = Some e -> vp_epoch p <= e;
  pk_subject : subject_ok (vp_subject p);
}.

Record ledger_ok (l : MonetaryLedger) : Prop := {
  lk_genesis : is_u128 (genesis_circulating l);
  lk_total : is_u128 (total_issued l);
  lk_issued : total_issued l = amount_sum (positions_of l);
  lk_time : is_u128 (policy_time_ms l);
  lk_positions : Forall (position_ok l) (positions_of l);
  lk_fresh : last_epoch l = None -> positions_of l = [] /\ policy_time_ms l = 0;
  lk_last e : last_epoch l = Some e -> is_u64 e;
}.

Lemma ledger_positions_typed l : ledger_ok l -> Forall position_typed (positions_of l).
Proof. intros H. eapply Forall_impl; [apply (lk_positions l H)|]. by intros p []. Qed.

Lemma circulating_bounds l : ledger_ok l ->
  genesis_circulating l <= circulating l <= genesis_circulating l + total_issued l.
Proof.
  intros H. unfold circulating. rewrite (lk_issued l H).
  pose proof (vested_sum_bounds (policy_time_ms l) _ (ledger_positions_typed l H)). lia.
Qed.

Lemma circulating_supply_ok l c : ledger_ok l -> circulating_supply l = Ok c ->
  c = circulating l /\ is_u128 c.
Proof.
  intros H. unfold circulating_supply. pose proof (lk_genesis l H) as Hg. unfold is_u128 in *.
  rewrite circulating_loop_spec by (apply ledger_positions_typed; done) || lia.
  pose proof (circulating_bounds l H). fold (circulating l). destruct (_ || _) eqn:E; [|done].
  intros [= <-]. split; [done|]. apply orb_true_iff in E as [E|E]; apply bool_decide_eq_true_1 in E; [lia|].
  unfold circulating in *. rewrite E in *. change (vested_sum _ []) with 0 in *. lia.
Qed.

Lemma circulating_supply_total l : ledger_ok l -> genesis_circulating l + total_issued l <= U128_MAX ->
  circulating_supply l = Ok (circulating l).
Proof.
  intros H Hle. unfold circulating_supply. pose proof (lk_genesis l H) as Hg. unfold is_u128 in Hg.
  rewrite circulating_loop_spec by (apply ledger_positions_typed; done) || lia.
  pose proof (circulating_bounds l H). fold (circulating l). by rewrite bool_decide_eq_true_2 by lia.
Qed.

(** ** Applying an epoch *)
Definition request_of (plan : ScalableEpochPlan) : ScalableEpochRequest :=
  mkScalableEpochRequest (sp_epoch plan) (sp_duration_ms plan) (sp_opening_circulating plan)
    (hp_snapshot (sp_human plan)) (allocations (sp_optional_grants plan) Service)
    (allocations (sp_optional_grants plan) TreasuryContribution).

Lemma allocations_grants s t v :
  let gs := map (grant_of Service 0) s ++ map (grant_of TreasuryContribution v) t in
  allocations gs Service = s /\ allocations gs TreasuryContribution = t.
Proof.
  cbv zeta. unfold allocations.
  assert (forall c d w l, map (fun g => mkAllocation (vg_beneficiary g) (vg_amount g))
    (List.filter (fun g => bool_decide (vg_channel g = c)) (map (grant_of d w) l)) =
    if bool_decide (d = c) then l else []) as H.
  { intros c d w l. induction l as [|[b a] l IH]; [by destruct (bool_decide _)|]. simpl.
    destruct (bool_decide_reflect (d = c)); simpl; by rewrite IH. }
  rewrite !List.filter_app, !map_app, !H. simpl. by rewrite app_nil_r.
Qed.

(** What a plan says about its request, whatever the numbers. *)
Lemma plan_scalable_epoch_request r policy p : plan_scalable_epoch r policy = Ok p ->
  request_of p = r /\ 0 <> sr_duration_ms r /\ sr_duration_ms r <= YEAR_MS.
Proof.
  intros H. unfold plan_scalable_epoch in H. repeat (apply bind_ok in H as (? & ? & H)). injection H as <-.
  match goal with H : plan_human_share _ _ _ _ _ = Ok _ |- _ =>
    unfold plan_human_share in H; repeat (apply bind_ok in H as (? & ? & H)); injection H as <- end.
  repeat match goal with H : fail_if _ _ = Ok _ |- _ => apply fail_if_ok in H; bool_prop end.
  unfold request_of. simpl. destruct (allocations_grants (sr_service r) (sr_treasury r) (treasury_vesting_ms policy)) as [-> ->].
  split; [by destruct r|]. by split.
Qed.

Definition advance (l : MonetaryLedger) (plan : ScalableEpochPlan) : MonetaryLedger :=
  let end_ := policy_time_ms l + sp_duration_ms plan in
  mkMonetaryLedger (genesis_circulating l) (total_issued l + sp_total_issued plan) end_ (Some (sp_epoch plan))
    (positions_of l ++ human_position plan end_ :: map (grant_position (sp_epoch plan) end_) (sp_optional_grants plan)).

Definition applies (l : MonetaryLedger) (plan : ScalableEpochPlan) (policy : IssuancePolicy) : Prop :=
  exists r, next_epoch l = Ok (sr_epoch r) /\ circulating_supply l = Ok (sr_opening_circulating r) /\
    plan_scalable_epoch r policy = Ok plan /\
    policy_time_ms l + sr_duration_ms r <= U128_MAX /\ total_issued l + sp_total_issued plan <= U128_MAX.

Lemma apply_epoch_spec l plan policy l' :
  apply_epoch l plan policy = Ok l' <-> applies l plan policy /\ l' = advance l plan.
Proof.
  unfold apply_epoch. split.
  - intros H. repeat (apply bind_ok in H as (? & ? & H)). injection H as <-.
    repeat match goal with H : fail_if _ _ = Ok _ |- _ => apply fail_if_ok in H; bool_prop end. amounts.
    match goal with H : validate_plan_shape _ _ = Ok _ |- _ =>
      unfold validate_plan_shape in H; apply bind_ok in H as (expected & Hplan & H); apply fail_if_ok in H; rename H into Hsame end.
    fold (request_of plan) in Hplan. bool_prop. destruct (decide (expected = plan)) as [-> |Hne]; [|by destruct Hsame].
    split; [|done]. exists (request_of plan). cbn [request_of sr_epoch sr_opening_circulating sr_duration_ms].
    subst. done.
  - intros [(r & He & Hc & Hplan & Ht & Hi) ->].
    destruct (plan_scalable_epoch_request r policy plan Hplan) as (<- & Hd1 & Hd2).
    cbn [request_of sr_epoch sr_opening_circulating sr_duration_ms] in *.
    rewrite He. cbn [mbind result_bind]. rewrite Z.eqb_refl. cbn [negb fail_if mbind result_bind].
    rewrite (proj2 (Z.eqb_neq _ 0)), (proj2 (Z.ltb_ge _ _)) by auto. cbn [orb fail_if mbind result_bind].
    rewrite Hc. cbn [mbind result_bind]. rewrite Z.eqb_refl. cbn [negb fail_if mbind result_bind].
    unfold validate_plan_shape. fold (request_of plan). rewrite Hplan. cbn [mbind result_bind].
    rewrite bool_decide_eq_false_2 by auto. cbn [fail_if mbind result_bind].
    unfold amount_add, checked_add. rewrite (proj2 (Z.leb_le _ _) Ht). cbn [ok_or mbind result_bind].
    rewrite (proj2 (Z.leb_le _ _) Hi). done.
Qed.

Record plan_typed (p : ScalableEpochPlan) : Prop := {
  pt_duration : is_u64 (sp_duration_ms p);
  pt_count : is_u64 (hs_eligible_count (hp_snapshot (sp_human p)));
  pt_grants : Forall (fun g => is_u128 (vg_amount g) /\ is_u64 (vg_vesting_ms g)) (sp_optional_grants p);
}.

Lemma allocations_typed p c : plan_typed p -> alloc_typed (allocations (sp_optional_grants p) c).
Proof.
  intros Hp. apply Forall_map, Forall_forall. intros g Hg. apply list_elem_of_In, filter_In in Hg as [Hg _].
  pose proof (pt_grants p Hp) as H. rewrite Forall_forall in H. apply H. by apply list_elem_of_In.
Qed.

Lemma applies_plan_ok l plan policy : ledger_ok l -> policy_typed policy -> plan_typed plan ->
  applies l plan policy -> plan_ok policy (request_of plan) plan /\ sp_opening_circulating plan = circulating l.
Proof.
  intros Hl Hp Ht (r & He & Hc & Hplan & _). pose proof (plan_scalable_epoch_request r policy plan Hplan) as [Er _].
  subst r. cbn in Hc. destruct (circulating_supply_ok l _ Hl Hc) as [Ec Hu]. split; [|done].
  apply plan_scalable_epoch_ok; [done| |done]. split; [apply Ht|]. split; [done|]. split; [apply Ht|].
  split; by apply allocations_typed.
Qed.

Lemma grant_sum epoch end_ r policy plan : plan_ok policy r plan ->
  amount_sum (map (grant_position epoch end_) (sp_optional_grants plan)) = alloc_sum (sr_service r) + alloc_sum (sr_treasury r).
Proof.
  intros H. rewrite (po_grants _ _ _ H), map_app, amount_sum_app. unfold amount_sum, alloc_sum.
  rewrite !map_map. done.
Qed.

Lemma next_epoch_u64 l e : ledger_ok l -> next_epoch l = Ok e ->
  is_u64 e /\ forall e', last_epoch l = Some e' -> e = e' + 1.
Proof.
  intros Hl. unfold next_epoch. pose proof (lk_last l Hl) as H. destruct (last_epoch l) as [e'|].
  - intros E. apply ok_or_ok, checked_add_Some in E as [-> Hle]. specialize (H e' eq_refl).
    unfold is_u64 in *. split; [lia|]. by intros ? [= ->].
  - intros [= <-]. unfold is_u64, U64_MAX. split; [lia|done].
Qed.

Lemma advance_ok l plan policy : ledger_ok l -> policy_typed policy -> plan_typed plan ->
  applies l plan policy -> ledger_ok (advance l plan).
Proof.
  intros Hl Hp Ht Ha. destruct (applies_plan_ok l plan policy Hl Hp Ht Ha) as [Hok _].
  destruct Ha as (r & He & Hc & Hplan & Htime & Hiss).
  destruct (plan_scalable_epoch_request r policy plan Hplan) as [Er _]. subst r. cbn in He, Htime.
  destruct (next_epoch_u64 l _ Hl He) as [Hu64 Hnext].
  pose proof (po_human _ _ _ Hok) as Hh. pose proof (po_total _ _ _ Hok) as Htot. pose proof (po_duration _ _ _ Hok) as Hdur.
  pose proof (lk_total l Hl) as HT. pose proof (lk_time l Hl) as HM. unfold is_u128 in HT, HM.
  assert (0 <= alloc_sum (sr_service (request_of plan)) /\ 0 <= alloc_sum (sr_treasury (request_of plan))) as [Hs1 Hs2]
    by (split; apply alloc_sum_nonneg, allocations_typed, Ht).
  pose proof (ho_nonneg _ _ _ _ Hh). cbn in Hdur.
  assert (Forall (position_ok (advance l plan)) (positions_of l)) as Hold.
  { destruct (last_epoch l) as [e'|] eqn:El; [|by rewrite (proj1 (lk_fresh l Hl El))].
    eapply Forall_impl; [apply (lk_positions l Hl)|]. intros p [T S E J]. constructor; [done|cbn; lia| |done].
    intros e [= <-]. pose proof (E e' El). pose proof (Hnext e' eq_refl). lia. }
  constructor; cbn [advance genesis_circulating total_issued policy_time_ms last_epoch positions_of].
  - apply (lk_genesis l Hl).
  - unfold is_u128. lia.
  - rewrite amount_sum_app, amount_sum_cons, (grant_sum _ _ (request_of plan) policy) by done.
    rewrite <- (lk_issued l Hl), Htot. cbn [human_position vp_amount]. lia.
  - unfold is_u128. lia.
  - apply Forall_app. split; [done|]. constructor.
    + constructor; cbn; [|lia|by intros e [= <-]|].
      * repeat split; cbn; try lia; rewrite (ho_vesting _ _ _ _ Hh); apply Hp.
      * split; [apply (ho_root _ _ _ _ Hh)|]. pose proof (ho_count _ _ _ _ Hh). lia.
    + apply Forall_map, Forall_forall. intros g Hg. pose proof (pt_grants _ Ht) as Hgt.
      rewrite Forall_forall in Hgt. destruct (Hgt g Hg) as [Hga Hgv].
      constructor; cbn; [by repeat split; cbn; try lia; apply Hga || apply Hgv|lia|by intros e [= <-]|].
      pose proof (po_names _ _ _ Hok) as Hn. rewrite Forall_forall in Hn.
      rewrite (po_grants _ _ _ Hok) in Hg.
      apply elem_of_app in Hg as [Hg|Hg]; apply list_elem_of_fmap in Hg as (a & -> & Hin);
        apply Hn, elem_of_app; [by left|by right].
  - done.
  - intros e [= <-]. done.
Qed.

(** The ledgers an honest node can hold: genesis, then finalized epochs. *)
Inductive reachable (g : Amount) : MonetaryLedger -> Prop :=
| reach_new : is_u128 g -> reachable g (MonetaryLedger_new g)
| reach_epoch l plan policy l' : reachable g l -> policy_typed policy -> plan_typed plan ->
    apply_epoch l plan policy = Ok l' -> reachable g l'.

Lemma new_ok g : is_u128 g -> ledger_ok (MonetaryLedger_new g).
Proof.
  intros Hg. constructor; cbn; try done; unfold is_u128, U128_MAX; try lia.
Qed.

Lemma reachable_ok g l : reachable g l -> ledger_ok l /\ genesis_circulating l = g.
Proof.
  induction 1 as [Hg|l plan policy l' _ [IH Eg] Hp Ht Ha]; [split; [by apply new_ok|done]|].
  apply apply_epoch_spec in Ha as [Ha ->]. split; [by apply (advance_ok l plan policy)|done].
Qed.

(** ** Snapshots *)
Definition position_small (p : VestingPosition) : Prop :=
  match vp_subject p with
  | SnapshotSubject _ => True
  | Beneficiary b => Z.of_nat (length b) <= MAX_SNAPSHOT_BENEFICIARY_BYTES
  end.

Lemma validate_position_ok l p : position_ok l p -> position_small p -> validate_position p (policy_time_ms l) = Ok tt.
Proof.
  intros [_ Hs _ Hj] Hb. unfold validate_position, position_small in *.
  rewrite (proj2 (Z.ltb_ge _ _) Hs). cbn [fail_if mbind result_bind].
  destruct (vp_subject p) as [s|b]; simpl in Hj.
  - destruct Hj as [Hr Hc]. by rewrite bool_decide_eq_false_2, (proj2 (Z.eqb_neq _ _) Hc).
  - by rewrite bool_decide_eq_false_2, (proj2 (Z.ltb_ge _ _) Hb).
Qed.

Lemma import_loop_ok now issued greatest last ps :
  Forall (fun p => validate_position p now = Ok tt /\ 0 <= vp_amount p /\ vp_epoch p <= last) ps ->
  0 <= issued -> issued + amount_sum ps <= U128_MAX ->
  (match greatest with Some g => g <= last | None => True end) ->
  exists g, import_loop now issued greatest ps = Ok (issued + amount_sum ps, g) /\
    match g with Some g => g <= last | None => True end.
Proof.
  intros H. revert issued greatest. induction H as [|p ps (Hv & Ha & He) Hps IH]; intros issued greatest Hi Hle Hg.
  - exists greatest. split; [|done]. cbn. by rewrite Z.add_0_r.
  - cbn [import_loop]. rewrite Hv. cbn [mbind result_bind]. rewrite amount_sum_cons in *.
    assert (0 <= amount_sum ps) as Hn.
    { clear -Hps. induction Hps as [|q qs (_ & Hq & _) _ IHq]; [done|]. rewrite amount_sum_cons. lia. }
    unfold amount_add, checked_add. rewrite (proj2 (Z.leb_le _ _)) by lia. cbn [ok_or mbind result_bind].
    destruct (IH (issued + vp_amount p) (Some (match greatest with None => vp_epoch p | Some e => Z.max e (vp_epoch p) end)))
      as (g & -> & Hgl); [lia|lia|destruct greatest; lia|]. exists g. by rewrite Z.add_assoc.
Qed.

Lemma locked_supply_ok l : ledger_ok l -> genesis_circulating l + total_issued l <= U128_MAX ->
  total_supply l = Ok (genesis_circulating l + total_issued l) /\ circulating_supply l = Ok (circulating l) /\
  locked_supply l = Ok (genesis_circulating l + total_issued l - circulating l).
Proof.
  intros Hl Hle. pose proof (circulating_supply_total l Hl Hle) as Hc. pose proof (circulating_bounds l Hl) as Hb.
  assert (total_supply l = Ok (genesis_circulating l + total_issued l)) as Ht
    by (unfold total_supply; by apply amount_add_ok).
  split; [done|]. split; [done|]. unfold locked_supply. rewrite Ht, Hc. cbn [mbind result_bind].
  apply amount_sub_ok. split; [done|lia].
Qed.

Lemma import_export l : ledger_ok l -> genesis_circulating l + total_issued l <= U128_MAX ->
  Z.of_nat (length (positions_of l)) <= MAX_VESTING_POSITIONS -> Forall position_small (positions_of l) ->
  import_snapshot (export_snapshot l) = Ok l.
Proof.
  intros Hl Hle Hn Hs. destruct (locked_supply_ok l Hl Hle) as (Ht & Hc & Hk).
  unfold import_snapshot, export_snapshot. cbn [ss_positions ss_last_epoch ss_total_issued ss_policy_time_ms ss_genesis_circulating].
  rewrite (proj2 (Z.ltb_ge _ _) Hn). cbn [fail_if mbind result_bind].
  assert (bool_decide (last_epoch l = None) && (negb (total_issued l =? 0) || negb (policy_time_ms l =? 0) ||
    negb match positions_of l with [] => true | _ => false end) = false) as ->.
  { destruct (last_epoch l) eqn:El; [done|]. destruct (lk_fresh l Hl El) as [Hp Htm].
    rewrite (lk_issued l Hl), Hp, Htm. done. }
  cbn [fail_if mbind result_bind].
  pose proof (lk_total l Hl) as HT. rewrite (lk_issued l Hl) in HT. unfold is_u128 in HT.
  destruct (import_loop_ok (policy_time_ms l) 0 None (match last_epoch l with Some e => e | None => 0 end) (positions_of l))
    as (g & Eg & Hg); [|lia|lia|done|].
  { destruct (last_epoch l) as [e|] eqn:El; [|rewrite (proj1 (lk_fresh l Hl El)); constructor].
    apply Forall_forall. intros p Hp. pose proof (lk_positions l Hl) as HP. rewrite Forall_forall in HP, Hs.
    split; [apply validate_position_ok; auto|]. destruct (HP p Hp) as [[Ha _] _ He _]. split; [apply Ha|by apply He]. }
  rewrite Eg, Z.add_0_l, <- (lk_issued l Hl). cbn [mbind result_bind fst snd]. rewrite Z.eqb_refl.
  cbn [negb fail_if mbind result_bind].
  assert (match g, last_epoch l with Some g, Some e => e <? g | _, _ => false end = false) as ->.
  { destruct g; [|done]. destruct (last_epoch l); [|done]. by apply Z.ltb_ge. }
  cbn [fail_if mbind result_bind]. destruct l as [gc ti pt le ps]. cbn [genesis_circulating total_issued policy_time_ms last_epoch positions_of] in *.
  rewrite Ht, Hc, Hk. done.
Qed.

(** ** The contract *)

(** [prorated] is exact: cancelling common factors before multiplying
    changes nothing, the result is the floor of supply * ppm * duration over
    a million years-in-ms, and it overflows only when that product itself
    exceeds a [u128]. *)
Theorem prorated_exact supply ppm dur : is_u128 supply -> is_u32 ppm -> is_u64 dur -> 1 <= dur ->
  match prorated supply ppm dur with
  | Ok v => v = supply * ppm * dur / (MILLION * YEAR_MS) /\ (ppm <= MILLION -> dur <= YEAR_MS -> v <= supply)
  | Err e => e = Overflow /\ U128_MAX < supply * ppm * dur
  end.
Proof.
  intros Hs Hp Hd H1. pose proof (prorated_spec supply ppm dur Hs Hp Hd H1) as H.
  destruct (prorated supply ppm dur) as [v|e]; [|done]. split; [done|]. intros H2 H3. rewrite H.
  unfold is_u32 in Hp. apply (share_bounds supply ppm dur); [done|lia|lia].
Qed.

(** C32: A plan issues what it says and no more than the policy allows: the
    total is the human share plus every allocation and stays under the total
    ceiling, each channel stays under its own, humans get equal whole shares
    and less than one unit per human is left unissued. *)
Theorem plan_within_policy request policy plan : policy_typed policy -> request_typed request ->
  plan_scalable_epoch request policy = Ok plan ->
  let h := sp_human plan in
  let opening := sr_opening_circulating request in
  let dur := sr_duration_ms request in
  sp_total_issued plan = hp_issued h + alloc_sum (sr_service request) + alloc_sum (sr_treasury request) /\
  sp_total_issued plan <= share opening (total_ceiling_ppm policy) dur /\
  alloc_sum (sr_service request) <= share opening (service_ceiling_ppm policy) dur /\
  alloc_sum (sr_treasury request) <= share opening (treasury_ceiling_ppm policy) dur /\
  hp_issued h = hp_per_human h * hs_eligible_count (sr_human_snapshot request) /\
  0 <= share opening (human_floor_ppm policy) dur - hp_issued h < hs_eligible_count (sr_human_snapshot request).
Proof.
  intros Hp Hr H. pose proof (plan_scalable_epoch_ok request policy plan Hp Hr H) as [Hh]. cbv zeta.
  destruct po_fields0 as (_ & _ & _ & <-). destruct Hh. rewrite <- ho_cap0.
  repeat (split; [done|]). lia.
Qed.

(** Vesting is exact and total: [vested_at] never fails, is the floor of
    amount * elapsed / duration, grows with time, is nothing at the start of
    a vesting period and everything at its end. *)
Theorem vesting_exact p now now' : position_typed p -> now <= now' ->
  exists v v', vested_at p now = Ok v /\ vested_at p now' = Ok v' /\ 0 <= v <= v' /\ v' <= vp_amount p /\
    (vp_starts_at_policy_ms p <= now <= vp_starts_at_policy_ms p + vp_duration_ms p -> vp_duration_ms p <> 0 ->
      v = vp_amount p * (now - vp_starts_at_policy_ms p) / vp_duration_ms p) /\
    (vp_starts_at_policy_ms p + vp_duration_ms p <= now -> v = vp_amount p).
Proof.
  intros Hp Hle. exists (vested p now), (vested p now').
  pose proof (vested_bounds p now Hp). pose proof (vested_bounds p now' Hp). pose proof (vested_mono p now now' Hp Hle).
  split; [by apply vested_at_exact|]. split; [by apply vested_at_exact|]. split; [lia|]. split; [lia|].
  unfold vested, saturating_sub. destruct Hp as (_ & _ & Hd). unfold is_u64 in Hd.
  split; intros; destruct (Z.eqb_spec (vp_duration_ms p) 0) as [E|E]; try done.
  - f_equal. f_equal. lia.
  - rewrite Z.min_l by lia. by apply Z.div_mul.
Qed.

(** [apply_epoch] accepts exactly the plans [plan_scalable_epoch] makes
    for the next epoch number from the ledger's own circulating supply, and
    then appends one position per issued amount; what one epoch issues is at
    most the policy's share of what circulates. *)
Theorem apply_epoch_exact g l plan policy l' : reachable g l -> policy_typed policy -> plan_typed plan ->
  (apply_epoch l plan policy = Ok l' <-> applies l plan policy /\ l' = advance l plan) /\
  (apply_epoch l plan policy = Ok l' ->
    0 <= total_issued l' - total_issued l <=
      share (circulating l) (total_ceiling_ppm policy) (sp_duration_ms plan) /\
    circulating l <= circulating l').
Proof.
  intros Hr Hp Ht. split; [apply apply_epoch_spec|]. intros H. apply apply_epoch_spec in H as [Ha ->].
  destruct (reachable_ok g l Hr) as [Hl _].
  pose proof (advance_ok l plan policy Hl Hp Ht Ha) as Hl'.
  destruct (applies_plan_ok l plan policy Hl Hp Ht Ha) as [Hok Ho].
  pose proof (po_total_cap _ _ _ Hok) as Hcap. cbn [request_of sr_opening_circulating sr_duration_ms] in Hcap.
  pose proof (po_total _ _ _ Hok) as Htot. pose proof (ho_nonneg _ _ _ _ (po_human _ _ _ Hok)).
  pose proof (alloc_sum_nonneg _ (allocations_typed plan Service Ht)).
  pose proof (alloc_sum_nonneg _ (allocations_typed plan TreasuryContribution Ht)).
  cbn [request_of sr_service sr_treasury] in Htot. rewrite <- Ho. split; [cbn [advance total_issued]; lia|].
  rewrite Ho. pose proof (ledger_positions_typed _ Hl') as HT. cbn [advance positions_of] in HT.
  apply Forall_app in HT as [HT1 HT2]. unfold circulating. cbn [advance positions_of genesis_circulating policy_time_ms].
  pose proof (pt_duration plan Ht) as Hd. unfold is_u64 in Hd.
  pose proof (vested_sum_mono (policy_time_ms l) (policy_time_ms l + sp_duration_ms plan) _ HT1 ltac:(lia)).
  pose proof (vested_sum_bounds (policy_time_ms l + sp_duration_ms plan) _ HT2).
  unfold vested_sum in *. rewrite map_app, sum_Z_app. lia.
Qed.

(** C31: No unit is created outside issuance: in every ledger reachable from
    genesis the issued total is the sum of the positions; and as long as
    genesis and issuance together fit 128 bits, which is when the total supply
    is defined at all, what circulates lies between genesis and the total
    supply and the locked remainder never underflows. *)
Theorem supply_conserved g l : reachable g l ->
  genesis_circulating l = g /\ total_issued l = amount_sum (positions_of l) /\
  (g + total_issued l <= U128_MAX ->
    exists c, circulating_supply l = Ok c /\ g <= c <= g + total_issued l /\
      total_supply l = Ok (g + total_issued l) /\ locked_supply l = Ok (g + total_issued l - c)).
Proof.
  intros Hr. destruct (reachable_ok g l Hr) as [Hl <-]. split; [done|]. split; [apply (lk_issued l Hl)|].
  intros Hle. exists (circulating l). destruct (locked_supply_ok l Hl Hle) as (Ht & Hc & Hk).
  split; [done|]. split; [by apply circulating_bounds|]. done.
Qed.

(** A ledger reachable from genesis survives export and import unchanged,
    as long as it is within the snapshot's size limits. *)
Theorem snapshot_round_trip g l : reachable g l -> g + total_issued l <= U128_MAX ->
  Z.of_nat (length (positions_of l)) <= MAX_VESTING_POSITIONS -> Forall position_small (positions_of l) ->
  import_snapshot (export_snapshot l) = Ok l.
Proof.
  intros Hr. destruct (reachable_ok g l Hr) as [Hl <-]. by apply import_export.
Qed.
