(* ===== verification/EconomyWire.v ===== *)
(** * EconomyWire: the epoch plan codec, and the economy at concrete inputs

    The wire form of a [ScalableEpochPlan] decodes to the plan and nothing
    else encodes to it; then the economy's theorems are applied to a small
    ledger and its first two epochs. *)

From Stdlib Require Import ZArith Lia.
From stdpp Require Import base list strings.
From S2P Require Import Prelude Codec Crypto Economy EconomyTheorems.
Open Scope Z_scope.

(** ** Round trip *)
Record grant_wire_typed (g : VestingGrant) : Prop := {
  gw_utf8 : utf8_valid (vg_beneficiary g) = true;
  gw_amount : is_u128 (vg_amount g);
  gw_vesting : is_u64 (vg_vesting_ms g);
}.

Record human_wire_typed (h : HumanSharePlan) : Prop := {
  hw_epoch : is_u64 (hp_epoch h);
  hw_root : length (hs_root (hp_snapshot h)) = 32%nat;
  hw_count : is_u64 (hs_eligible_count (hp_snapshot h));
  hw_cap : is_u128 (hp_cap h);
  hw_per : is_u128 (hp_per_human h);
  hw_issued : is_u128 (hp_issued h);
  hw_rest : is_u128 (hp_unissued_remainder h);
  hw_vesting : is_u64 (hp_vesting_ms h);
}.

Record plan_wire_typed (p : ScalableEpochPlan) : Prop := {
  pw_epoch : is_u64 (sp_epoch p);
  pw_duration : is_u64 (sp_duration_ms p);
  pw_opening : is_u128 (sp_opening_circulating p);
  pw_human : human_wire_typed (sp_human p);
  pw_service_cap : is_u128 (sp_service_cap p);
  pw_treasury_cap : is_u128 (sp_treasury_cap p);
  pw_total_cap : is_u128 (sp_total_cap p);
  pw_service : is_u128 (sp_service_issued p);
  pw_treasury : is_u128 (sp_treasury_issued p);
  pw_total : is_u128 (sp_total_issued p);
  pw_grants : Forall grant_wire_typed (sp_optional_grants p);
}.

Lemma parses_ec_u64 x : is_u64 x -> parses ec_u64 (w_u64 x) x.
Proof. apply parses_u64. Qed.
Lemma parses_ec_take n b : length b = n -> parses (ec_take n) b b.
Proof. apply parses_take. Qed.
Lemma parses_ec_amount x : is_u128 x -> parses ec_amount (put_amount x) x.
Proof.
  intros Hx. unfold ec_amount, put_amount. eapply parses_bind_nil.
  - apply parses_take, length_to_be_bytes.
  - rewrite from_to_be_bytes; [apply parses_ret|].
    unfold is_u128, U128_MAX in Hx. change (256 ^ Z.of_nat 16) with (2 ^ 128). lia.
Qed.
Lemma parses_ec_u8 x : parses ec_u8 (w_u8 x) x.
Proof. apply parses_u8. Qed.

(** One field of a record: read it, go on with the rest. *)
Ltac field :=
  first [ eapply parses_bind; [by first [apply parses_ec_u64 | apply parses_ec_amount | apply parses_ec_take]|]
        | eapply parses_bind_nil; [by first [apply parses_ec_u64 | apply parses_ec_amount]|] ].

Lemma channel_tag_round_trip c : channel_from_tag (channel_tag c) = Ok c.
Proof. by destruct c. Qed.

Definition human_bytes (h : HumanSharePlan) : bytes :=
  w_u64 (hp_epoch h) ++ hs_root (hp_snapshot h) ++ w_u64 (hs_eligible_count (hp_snapshot h)) ++
  put_amount (hp_cap h) ++ put_amount (hp_per_human h) ++ put_amount (hp_issued h) ++
  put_amount (hp_unissued_remainder h) ++ w_u64 (hp_vesting_ms h).

Lemma parses_human h : human_wire_typed h -> parses read_human (human_bytes h) h.
Proof.
  intros []. unfold read_human, human_bytes. do 8 field. destruct h as [e [r n] c p i u v]. apply parses_ret.
Qed.

Definition name_ok (g : VestingGrant) : bool :=
  negb (bool_decide (vg_beneficiary g = []) || (MAX_EPOCH_BENEFICIARY_BYTES <? Z.of_nat (length (vg_beneficiary g)))).

Lemma parses_grant g : grant_wire_typed g -> name_ok g = true -> parses read_grant (put_grant g) g.
Proof.
  intros Ht Hn. unfold name_ok, MAX_EPOCH_BENEFICIARY_BYTES in Hn. apply negb_true_iff in Hn. bool_prop.
  assert (length (vg_beneficiary g) <> 0%nat) by (by destruct (vg_beneficiary g)).
  pose proof (gw_utf8 g Ht) as Hu. destruct Ht as [_ Ha Hv]. unfold read_grant, put_grant.
  eapply parses_bind; [apply parses_ec_u64; unfold is_u64, U64_MAX; lia|].
  rewrite (proj2 (Z.eqb_neq _ 0)), (proj2 (Z.ltb_ge MAX_EPOCH_BENEFICIARY_BYTES _))
    by (unfold MAX_EPOCH_BENEFICIARY_BYTES; lia).
  eapply parses_lift; [reflexivity|].
  eapply parses_bind; [apply parses_ec_take; lia|].
  eapply parses_lift; [by rewrite Hu|]. eapply parses_bind; [apply parses_ec_u8|].
  eapply parses_lift; [apply channel_tag_round_trip|]. do 2 field. destruct g. apply parses_ret.
Qed.

Lemma plan_bytes_split p : plan_canonical_bytes p =
  ECON_DOMAIN ++ w_u64 (sp_epoch p) ++ w_u64 (sp_duration_ms p) ++ put_amount (sp_opening_circulating p) ++
  human_bytes (sp_human p) ++ put_amount (sp_service_cap p) ++ put_amount (sp_treasury_cap p) ++
  put_amount (sp_total_cap p) ++ put_amount (sp_service_issued p) ++ put_amount (sp_treasury_issued p) ++
  put_amount (sp_total_issued p) ++ w_u64 (Z.of_nat (length (sp_optional_grants p))) ++
  concat (map put_grant (sp_optional_grants p)).
Proof. unfold plan_canonical_bytes, human_bytes. cbv zeta. by rewrite <- !app_assoc. Qed.

Lemma parses_plan p : plan_wire_typed p ->
  Z.of_nat (length (sp_optional_grants p)) <= MAX_SCALABLE_EPOCH_GRANTS ->
  Forall (fun g => name_ok g = true) (sp_optional_grants p) ->
  parses read_plan (plan_canonical_bytes p) p.
Proof.
  intros [] Hn Hg. rewrite plan_bytes_split. unfold read_plan.
  eapply parses_bind; [by apply parses_ec_take|].
  rewrite bool_decide_eq_true_2 by done. eapply parses_lift; [reflexivity|].
  do 3 field. eapply parses_bind; [by apply parses_human|]. do 6 field.
  eapply parses_bind; [apply parses_ec_u64; unfold is_u64, U64_MAX, MAX_SCALABLE_EPOCH_GRANTS in *; lia|].
  rewrite (proj2 (Z.ltb_ge _ _) Hn). eapply parses_lift; [reflexivity|].
  rewrite Nat2Z.id. eapply parses_bind_nil.
  - apply parses_repeat. rewrite Forall_forall in *. intros g Hin. apply parses_grant; auto.
  - destruct p. apply parses_ret.
Qed.

Lemma plan_to_wire_ok p b : plan_to_wire_bytes p = Ok b ->
  b = plan_canonical_bytes p /\ Z.of_nat (length (sp_optional_grants p)) <= MAX_SCALABLE_EPOCH_GRANTS /\
  Z.of_nat (length b) <= MAX_SCALABLE_EPOCH_PLAN_BYTES /\ Forall (fun g => name_ok g = true) (sp_optional_grants p).
Proof.
  unfold plan_to_wire_bytes. intros H. apply bind_ok in H as (? & H1 & H). apply bind_ok in H as (? & H2 & H).
  injection H as <-. apply fail_if_ok in H1, H2. apply orb_false_iff in H1 as [H0 H1]. apply Z.ltb_ge in H0, H2.
  repeat (split; [done|]). apply Forall_forall. intros g Hg. unfold name_ok. apply negb_true_iff.
  apply not_true_is_false. intros E. apply not_true_iff_false in H1. apply H1, existsb_exists. exists g.
  split; [by apply list_elem_of_In|done].
Qed.

Lemma plan_from_wire_ok b p : plan_from_wire_bytes b = Ok p -> plan_to_wire_bytes p = Ok b.
Proof.
  unfold plan_from_wire_bytes. intros H. repeat (apply bind_ok in H as (? & ? & H)). injection H as <-.
  match goal with H : fail_if (negb (bool_decide (_ = b))) _ = Ok _ |- _ => apply fail_if_ok in H; bool_prop; subst end.
  done.
Qed.

(** The wire codec of epoch plans: bytes decode to a plan exactly when
    they are that plan's bounded canonical encoding, so a plan round-trips
    and no two byte strings decode to the same plan. *)
Theorem plan_wire_round_trip p b : plan_wire_typed p ->
  plan_from_wire_bytes b = Ok p <-> plan_to_wire_bytes p = Ok b.
Proof.
  intros Ht. split; intros H.
  - by apply plan_from_wire_ok.
  - pose proof H as H'. apply plan_to_wire_ok in H' as (Eb & Hn & Hl & Hg).
    destruct (parses_new read_plan b p) as (r & Er & Hf); [rewrite Eb; by apply parses_plan|].
    unfold plan_from_wire_bytes. rewrite (proj2 (Z.ltb_ge _ _) Hl). cbn [fail_if mbind result_bind].
    rewrite Er. cbn [mbind result_bind snd fst]. rewrite Hf. cbn [negb fail_if mbind result_bind].
    rewrite H. cbn [mbind result_bind]. by rewrite bool_decide_eq_true_2.
Qed.

(** ** A ledger and its first two epochs *)
Module Books.
Definition root : bytes := replicate 32 7.
Definition genesis : MonetaryLedger := MonetaryLedger_new 1000000000000.
Definition request (l : MonetaryLedger) (epoch : Z) : ScalableEpochRequest :=
  mkScalableEpochRequest epoch (YEAR_MS / 2)
    (match circulating_supply l with Ok c => c | Err _ => 0 end) (mkHumanSnapshot root 3)
    [mkAllocation (lit "relay") 1000] [mkAllocation (lit "treasury") 500].
Definition no_plan : ScalableEpochPlan :=
  mkScalableEpochPlan 0 0 0 (mkHumanSharePlan 0 (mkHumanSnapshot [] 0) 0 0 0 0 0) 0 0 0 0 0 0 [].
Definition plan_for (l : MonetaryLedger) (epoch : Z) : ScalableEpochPlan :=
  match plan_scalable_epoch (request l epoch) d0074 with Ok p => p | Err _ => no_plan end.
Definition apply_to (l : MonetaryLedger) (p : ScalableEpochPlan) : MonetaryLedger :=
  match apply_epoch l p d0074 with Ok l' => l' | Err _ => l end.
Definition plan0 : ScalableEpochPlan := Eval vm_compute in plan_for genesis 0.
Definition ledger1 : MonetaryLedger := Eval vm_compute in apply_to genesis plan0.
Definition plan1 : ScalableEpochPlan := Eval vm_compute in plan_for ledger1 1.
Definition ledger2 : MonetaryLedger := Eval vm_compute in apply_to ledger1 plan1.

Lemma policy_ok : policy_typed d0074.
Proof. repeat split; vm_compute; discriminate. Qed.
Lemma plan0_typed : plan_typed plan0.
Proof. split; [repeat split; vm_compute; discriminate..|]. repeat constructor; vm_compute; discriminate. Qed.
Lemma plan1_typed : plan_typed plan1.
Proof. split; [repeat split; vm_compute; discriminate..|]. repeat constructor; vm_compute; discriminate. Qed.
Lemma epoch0 : apply_epoch genesis plan0 d0074 = Ok ledger1.
Proof. vm_compute. reflexivity. Qed.
Lemma epoch1 : apply_epoch ledger1 plan1 d0074 = Ok ledger2.
Proof. vm_compute. reflexivity. Qed.
Lemma genesis_reachable : reachable 1000000000000 genesis.
Proof. constructor. split; vm_compute; discriminate. Qed.
Lemma ledger1_reachable : reachable 1000000000000 ledger1.
Proof. exact (reach_epoch _ _ _ _ _ genesis_reachable policy_ok plan0_typed epoch0). Qed.
Lemma ledger2_reachable : reachable 1000000000000 ledger2.
Proof. exact (reach_epoch _ _ _ _ _ ledger1_reachable policy_ok plan1_typed epoch1). Qed.
Lemma request_ok : request_typed (request genesis 0).
Proof.
  split; [split; vm_compute; discriminate|]. split; [split; vm_compute; discriminate|].
  split; [split; vm_compute; discriminate|].
  split; (constructor; [split; vm_compute; discriminate|constructor]).
Qed.
Definition position : VestingPosition := mkVestingPosition 0 (Beneficiary (lit "relay")) Service 1000 50 100.
Lemma position_fine : position_typed position.
Proof. repeat split; vm_compute; discriminate. Qed.
Lemma plan0_wire : plan_wire_typed plan0.
Proof.
  split; try (split; vm_compute; discriminate).
  - split; try (split; vm_compute; discriminate).
  - repeat (constructor; [split; [reflexivity|split; vm_compute; discriminate..]|]). constructor.
Qed.
Definition plan0_bytes : bytes := Eval vm_compute in plan_canonical_bytes plan0.
End Books.

Lemma prorated_exact_witness : prorated 1000 30000 YEAR_MS = Ok 30.
Proof.
  pose proof (prorated_exact 1000 30000 YEAR_MS ltac:(split; vm_compute; discriminate)
    ltac:(split; vm_compute; discriminate) ltac:(split; vm_compute; discriminate) ltac:(vm_compute; discriminate)) as H.
  destruct (prorated 1000 30000 YEAR_MS) as [v|e].
  - destruct H as [-> _]. vm_compute. reflexivity.
  - exfalso. destruct H as [_ H]. vm_compute in H. discriminate H.
Defined.

Lemma plan_within_policy_witness : sp_total_issued Books.plan0 <= share 1000000000000 30000 (YEAR_MS / 2).
Proof.
  exact (proj1 (proj2 (plan_within_policy (Books.request Books.genesis 0) d0074 Books.plan0 Books.policy_ok Books.request_ok
    ltac:(vm_compute; reflexivity)))).
Defined.

Lemma vesting_exact_witness : exists v, vested_at Books.position 75 = Ok v /\ v = 250.
Proof.
  destruct (vesting_exact Books.position 75 80 Books.position_fine ltac:(lia)) as (v & v' & Hv & _ & _ & _ & Hf & _).
  exists v. split; [exact Hv|]. rewrite Hf; [reflexivity|vm_compute; split; discriminate|discriminate].
Defined.

Lemma apply_epoch_exact_witness : circulating Books.ledger1 <= circulating Books.ledger2.
Proof.
  exact (proj2 (proj2 (apply_epoch_exact _ Books.ledger1 Books.plan1 d0074 Books.ledger2 Books.ledger1_reachable
    Books.policy_ok Books.plan1_typed) Books.epoch1)).
Defined.

Lemma supply_conserved_witness : total_issued Books.ledger2 = amount_sum (positions_of Books.ledger2).
Proof. exact (proj1 (proj2 (supply_conserved _ Books.ledger2 Books.ledger2_reachable))). Defined.

Lemma snapshot_round_trip_witness : import_snapshot (export_snapshot Books.ledger2) = Ok Books.ledger2.
Proof.
  apply (snapshot_round_trip 1000000000000 Books.ledger2 Books.ledger2_reachable).
  - vm_compute. discriminate.
  - vm_compute. discriminate.
  - repeat constructor; vm_compute; discriminate.
Defined.

Lemma plan_wire_round_trip_witness : plan_from_wire_bytes Books.plan0_bytes = Ok Books.plan0.
Proof.
  apply (plan_wire_round_trip Books.plan0 Books.plan0_bytes Books.plan0_wire). vm_compute. reflexivity.
Defined.
