(* ===== verification/Settlement.v ===== *)
(** * Settlement: signed payment claims

    Models [crates/mini-settlement/src/error.rs], [claim.rs] and
    [claim_v2.rs]: the bytes a claim signs, signing and verification, the
    digest and the bounded wire form of both claim versions.  What a claim's
    fate is on a ledger is [Reconcile]. *)

From Stdlib Require Import ZArith Lia.
From stdpp Require Import base list gmap sets strings.
From S2P Require Import Prelude Codec Crypto.
Open Scope Z_scope.

Inductive SettlementError :=
| SeBadSignature | SeBadKey | UnsupportedSignatureSuite | ZeroAmount | BadValidityWindow
| ConflictsWithKnownClaim | MalformedClaim | ClaimTooLarge.
#[global] Instance SettlementError_eq_dec : EqDecision SettlementError.
Proof. solve_decision. Defined.

(** ** [claim.rs] *)
Definition CLAIM_DOMAIN : bytes := lit "mini-settlement/payment-claim/v1".
Definition CLAIM_WIRE_DOMAIN : bytes := lit "mini-settlement/payment-claim-wire/v1".
Definition MAX_CLAIM_FIELD_BYTES : Z := 4096.
Definition MAX_PAYMENT_CLAIM_BYTES : Z := 16 * 1024.
Definition MININET_NETWORK_ID : bytes := lit "mininet-public-settlement-v1" ++ [0; 0; 0; 0].

Record PaymentClaim := mkPaymentClaim {
  pc_network_id : bytes;
  pc_payer : bytes;
  pc_payee : bytes;
  pc_amount_micro : Z;
  pc_sequence : Z;
  pc_valid_until_ms : Z;
  pc_last_known_chain : bytes;
  pc_signature : Signature;
}.
#[global] Instance PaymentClaim_eq_dec : EqDecision PaymentClaim.
Proof. solve_decision. Defined.

(** [put_bytes] is [w_bytes]. *)
Definition claim_message (network_id payer payee : bytes) (amount_micro sequence valid_until_ms : Z)
    (last_known_chain : bytes) : bytes :=
  CLAIM_DOMAIN ++ network_id ++ w_bytes payer ++ w_bytes payee ++ w_u64 amount_micro ++ w_u64 sequence ++
  w_u64 valid_until_ms ++ w_bytes last_known_chain.
Definition message_of (c : PaymentClaim) : bytes :=
  claim_message (pc_network_id c) (pc_payer c) (pc_payee c) (pc_amount_micro c) (pc_sequence c)
    (pc_valid_until_ms c) (pc_last_known_chain c).

Section Claims.
Context {P : Primitives}.

Definition claim_to_wire_bytes (c : PaymentClaim) : result SettlementError bytes :=
  _ ← fail_if ((MAX_CLAIM_FIELD_BYTES <? Z.of_nat (length (pc_payer c))) ||
        (MAX_CLAIM_FIELD_BYTES <? Z.of_nat (length (pc_payee c))) ||
        (MAX_CLAIM_FIELD_BYTES <? Z.of_nat (length (pc_last_known_chain c)))) ClaimTooLarge;
  let w := CLAIM_WIRE_DOMAIN ++ pc_network_id c ++ w_bytes (pc_payer c) ++ w_bytes (pc_payee c) ++
    w_u64 (pc_amount_micro c) ++ w_u64 (pc_sequence c) ++ w_u64 (pc_valid_until_ms c) ++
    w_bytes (pc_last_known_chain c) ++ w_u8 (suite_tag (sig_suite (pc_signature c))) ++
    sig_bytes (pc_signature c) in
  _ ← fail_if (MAX_PAYMENT_CLAIM_BYTES <? Z.of_nat (length w)) ClaimTooLarge;
  Ok w.

(** [ClaimReader]: the cursor of [Codec] with the error [MalformedClaim];
    [u8] is [take(1)?[0]]. *)
Definition cr_take (n : nat) : parser SettlementError bytes := r_take MalformedClaim n.
Definition cr_u8 : parser SettlementError Z := r_u8 MalformedClaim.
Definition cr_u64 : parser SettlementError Z := r_u64 MalformedClaim.
Definition cr_bytes (maximum : Z) : parser SettlementError bytes :=
  bytes_limited MalformedClaim (fun _ => ClaimTooLarge) maximum.

Definition cr_signature : parser SettlementError Signature :=
  tag ← cr_u8;
  suite ← lift (map_err (fun _ => MalformedClaim) (suite_from_tag tag));
  sb ← cr_take (signature_len suite);
  lift (map_err (fun _ => MalformedClaim) (Signature_from_suite_bytes suite sb)).

Definition read_claim : parser SettlementError PaymentClaim :=
  domain ← cr_take (length CLAIM_WIRE_DOMAIN);
  _ ← lift (fail_if (negb (bool_decide (domain = CLAIM_WIRE_DOMAIN))) MalformedClaim);
  network_id ← cr_take 32;
  payer ← cr_bytes MAX_CLAIM_FIELD_BYTES;
  payee ← cr_bytes MAX_CLAIM_FIELD_BYTES;
  amount_micro ← cr_u64;
  sequence ← cr_u64;
  valid_until_ms ← cr_u64;
  last_known_chain ← cr_bytes MAX_CLAIM_FIELD_BYTES;
  signature ← cr_signature;
  mret (mkPaymentClaim network_id payer payee amount_micro sequence valid_until_ms last_known_chain signature).

Definition claim_from_wire_bytes (b : bytes) : result SettlementError PaymentClaim :=
  _ ← fail_if (MAX_PAYMENT_CLAIM_BYTES <? Z.of_nat (length b)) ClaimTooLarge;
  '(c, r) ← read_claim (Reader_new b);
  _ ← fail_if (negb (finished r)) MalformedClaim;
  Ok c.

(** [SignatureSuite::DEFAULT] is Ed25519, the one suite of [SigningKey]. *)
Definition DEFAULT_SUITE : SignatureSuite := Ed25519.

Definition sign_claim_for_network (payer : SigningKey) (payee : bytes) (amount_micro sequence valid_until_ms : Z)
    (network_id last_known_chain : bytes) (now_ms : Z) : result SettlementError PaymentClaim :=
  _ ← fail_if (negb (bool_decide (sk_suite payer = DEFAULT_SUITE))) UnsupportedSignatureSuite;
  _ ← fail_if (amount_micro =? 0) ZeroAmount;
  _ ← fail_if (valid_until_ms <=? now_ms) BadValidityWindow;
  let payer_bytes := vk_bytes (verifying_key payer) in
  let message := claim_message network_id payer_bytes payee amount_micro sequence valid_until_ms last_known_chain in
  Ok (mkPaymentClaim network_id payer_bytes payee amount_micro sequence valid_until_ms last_known_chain
        (sk_sign payer message)).

Definition sign_claim (payer : SigningKey) (payee : bytes) (amount_micro sequence valid_until_ms : Z)
    (last_known_chain : bytes) (now_ms : Z) : result SettlementError PaymentClaim :=
  sign_claim_for_network payer payee amount_micro sequence valid_until_ms MININET_NETWORK_ID last_known_chain now_ms.

Definition verify_claim_signature (c : PaymentClaim) : result SettlementError unit :=
  _ ← fail_if (pc_amount_micro c =? 0) ZeroAmount;
  payer_key ← map_err (fun _ => SeBadKey) (VerifyingKey_from_suite_bytes DEFAULT_SUITE (pc_payer c));
  map_err (fun _ => SeBadSignature) (vk_verify payer_key (message_of c) (pc_signature c)).

Definition claim_digest (c : PaymentClaim) : bytes := digest Blake3 (message_of c).

(** ** [claim_v2.rs] *)
Definition CLAIM_V2_DOMAIN : bytes := lit "mini-settlement/payment-claim-v2/v1".
Definition CLAIM_V2_WIRE_DOMAIN : bytes := lit "mini-settlement/payment-claim-v2-wire/v1".
Definition MAX_PAYMENT_CLAIM_V2_BYTES : Z := 16 * 1024.
Definition MAX_VALIDITY_HEIGHT_SPAN : Z := 1000000.

Record ChainAnchorV2 := mkChainAnchor { an_height : Z; an_block_id : bytes }.

Record PaymentClaimV2 := mkPaymentClaimV2 {
  p2_network_id : bytes;
  p2_payer : bytes;
  p2_payee : bytes;
  p2_amount_micro : Z;
  p2_sequence : Z;
  p2_anchor : ChainAnchorV2;
  p2_valid_through_height : Z;
  p2_claim_context : bytes;
  p2_signature : Signature;
}.

Definition claim_v2_message (network_id payer payee : bytes) (amount_micro sequence : Z) (anchor : ChainAnchorV2)
    (valid_through_height : Z) (claim_context : bytes) : bytes :=
  CLAIM_V2_DOMAIN ++ network_id ++ w_bytes payer ++ w_bytes payee ++ w_u64 amount_micro ++ w_u64 sequence ++
  w_u64 (an_height anchor) ++ an_block_id anchor ++ w_u64 valid_through_height ++ claim_context.
Definition message_v2_of (c : PaymentClaimV2) : bytes :=
  claim_v2_message (p2_network_id c) (p2_payer c) (p2_payee c) (p2_amount_micro c) (p2_sequence c) (p2_anchor c)
    (p2_valid_through_height c) (p2_claim_context c).

Definition sign_claim_v2_for_network (payer : SigningKey) (payee : bytes) (amount_micro sequence : Z)
    (anchor : ChainAnchorV2) (valid_through_height max_validity_height_span : Z) (network_id claim_context : bytes)
    : result SettlementError PaymentClaimV2 :=
  _ ← fail_if (negb (bool_decide (sk_suite payer = DEFAULT_SUITE))) UnsupportedSignatureSuite;
  _ ← fail_if (amount_micro =? 0) ZeroAmount;
  _ ← fail_if (valid_through_height <=? an_height anchor) BadValidityWindow;
  _ ← fail_if (Z.min max_validity_height_span MAX_VALIDITY_HEIGHT_SPAN <? valid_through_height - an_height anchor)
        BadValidityWindow;
  let payer_bytes := vk_bytes (verifying_key payer) in
  let message := claim_v2_message network_id payer_bytes payee amount_micro sequence anchor valid_through_height
                   claim_context in
  Ok (mkPaymentClaimV2 network_id payer_bytes payee amount_micro sequence anchor valid_through_height claim_context
        (sk_sign payer message)).

Definition sign_claim_v2 (payer : SigningKey) (payee : bytes) (amount_micro sequence : Z) (anchor : ChainAnchorV2)
    (valid_through_height max_validity_height_span : Z) (claim_context : bytes) : result SettlementError PaymentClaimV2 :=
  sign_claim_v2_for_network payer payee amount_micro sequence anchor valid_through_height max_validity_height_span
    MININET_NETWORK_ID claim_context.

Definition verify_claim_v2_signature (c : PaymentClaimV2) : result SettlementError unit :=
  _ ← fail_if (p2_amount_micro c =? 0) ZeroAmount;
  _ ← fail_if ((p2_valid_through_height c <=? an_height (p2_anchor c)) ||
        (MAX_VALIDITY_HEIGHT_SPAN <? p2_valid_through_height c - an_height (p2_anchor c))) BadValidityWindow;
  payer_key ← map_err (fun _ => SeBadKey) (VerifyingKey_from_suite_bytes DEFAULT_SUITE (p2_payer c));
  map_err (fun _ => SeBadSignature) (vk_verify payer_key (message_v2_of c) (p2_signature c)).

Definition claim_v2_digest (c : PaymentClaimV2) : bytes := digest Blake3 (message_v2_of c).

Definition claim_v2_to_wire_bytes (c : PaymentClaimV2) : result SettlementError bytes :=
  _ ← fail_if ((MAX_CLAIM_FIELD_BYTES <? Z.of_nat (length (p2_payer c))) ||
        (MAX_CLAIM_FIELD_BYTES <? Z.of_nat (length (p2_payee c)))) ClaimTooLarge;
  let w := CLAIM_V2_WIRE_DOMAIN ++ p2_network_id c ++ w_bytes (p2_payer c) ++ w_bytes (p2_payee c) ++
    w_u64 (p2_amount_micro c) ++ w_u64 (p2_sequence c) ++ w_u64 (an_height (p2_anchor c)) ++
    an_block_id (p2_anchor c) ++ w_u64 (p2_valid_through_height c) ++ p2_claim_context c ++
    w_u8 (suite_tag (sig_suite (p2_signature c))) ++ sig_bytes (p2_signature c) in
  _ ← fail_if (MAX_PAYMENT_CLAIM_V2_BYTES <? Z.of_nat (length w)) ClaimTooLarge;
  Ok w.

Definition read_claim_v2 : parser SettlementError PaymentClaimV2 :=
  domain ← cr_take (length CLAIM_V2_WIRE_DOMAIN);
  _ ← lift (fail_if (negb (bool_decide (domain = CLAIM_V2_WIRE_DOMAIN))) MalformedClaim);
  network_id ← cr_take 32;
  payer ← cr_bytes MAX_CLAIM_FIELD_BYTES;
  payee ← cr_bytes MAX_CLAIM_FIELD_BYTES;
  amount_micro ← cr_u64;
  sequence ← cr_u64;
  height ← cr_u64;
  block_id ← cr_take 32;
  valid_through_height ← cr_u64;
  claim_context ← cr_take 32;
  signature ← cr_signature;
  mret (mkPaymentClaimV2 network_id payer payee amount_micro sequence (mkChainAnchor height block_id)
          valid_through_height claim_context signature).

Definition claim_v2_from_wire_bytes (b : bytes) : result SettlementError PaymentClaimV2 :=
  _ ← fail_if (MAX_PAYMENT_CLAIM_V2_BYTES <? Z.of_nat (length b)) ClaimTooLarge;
  '(c, r) ← read_claim_v2 (Reader_new b);
  _ ← fail_if (negb (finished r)) MalformedClaim;
  Ok c.

End Claims.

(** * what became of a claim

    Models [crates/mini-settlement/src/ledger.rs], [state.rs], [watcher.rs]
    and [reconcile.rs].  The traits [CanonicalLedgerView] and [ClaimWatcher]
    are the classes [LedgerView] and [ClaimWatcher]; the in-memory
    implementations of the source are their instances here, and the execution
    layer's ledger is another [LedgerView] ([Execution]).  The laws a client
    may rely on are the classes [LedgerViewLaws] and [ClaimWatcherLaws]. *)


(** ** [ledger.rs] *)
Inductive CanonicalRejection :=
| WrongNetwork | UnsupportedPayee | StaleSequence | InsufficientFunds | UnrecognizedAnchor.
#[global] Instance CanonicalRejection_eq_dec : EqDecision CanonicalRejection.
Proof. solve_decision. Defined.

(** The trait [CanonicalLedgerView]; the three methods with a default body
    in the source have it as [default_*]. *)
Class LedgerView (V : Type) := {
  finalized_sequence : V -> bytes -> option Z;
  finalized_claim_digest : V -> bytes -> Z -> option bytes;
  rejected_claim : V -> bytes -> option CanonicalRejection;
  current_height : V -> Z;
  is_recognized_anchor : V -> Z -> bytes -> bool;
}.
Definition default_rejected_claim : option CanonicalRejection := None.
Definition default_current_height : Z := 0.
Definition default_is_recognized_anchor : bool := false.

Record InMemoryLedgerView := mkInMemoryLedgerView {
  im_finalized : gmap bytes (list (Z * bytes));
  im_rejected : gmap bytes CanonicalRejection;
  im_height : Z;
  im_recognized_anchors : gset (Z * bytes);
}.
Definition InMemoryLedgerView_new : InMemoryLedgerView := mkInMemoryLedgerView ∅ ∅ 0 ∅.
Definition im_finalize (v : InMemoryLedgerView) (payer : bytes) (sequence : Z) (d : bytes) : InMemoryLedgerView :=
  mkInMemoryLedgerView (<[payer := default [] (im_finalized v !! payer) ++ [(sequence, d)]]> (im_finalized v))
    (im_rejected v) (im_height v) (im_recognized_anchors v).
Definition im_reject (v : InMemoryLedgerView) (d : bytes) (reason : CanonicalRejection) : InMemoryLedgerView :=
  mkInMemoryLedgerView (im_finalized v) (<[d := reason]> (im_rejected v)) (im_height v) (im_recognized_anchors v).
Definition im_set_height (v : InMemoryLedgerView) (height : Z) : InMemoryLedgerView :=
  mkInMemoryLedgerView (im_finalized v) (im_rejected v) height (im_recognized_anchors v).
Definition im_recognize_anchor (v : InMemoryLedgerView) (height : Z) (block_id : bytes) : InMemoryLedgerView :=
  mkInMemoryLedgerView (im_finalized v) (im_rejected v) (im_height v)
    ({[(height, block_id)]} ∪ im_recognized_anchors v).

(** [Iterator::max]. *)
Definition iter_max (l : list Z) : option Z :=
  fold_left (fun m n => Some (match m with Some m => Z.max m n | None => n end)) l None.
Definition im_finalized_sequence (v : InMemoryLedgerView) (payer : bytes) : option Z :=
  entries ← im_finalized v !! payer; iter_max (map fst entries).
Definition im_finalized_claim_digest (v : InMemoryLedgerView) (payer : bytes) (sequence : Z) : option bytes :=
  entries ← im_finalized v !! payer;
  option_map snd (List.find (fun e => fst e =? sequence) entries).
#[global] Instance im_ledger_view : LedgerView InMemoryLedgerView := {
  finalized_sequence := im_finalized_sequence;
  finalized_claim_digest := im_finalized_claim_digest;
  rejected_claim := fun v d => im_rejected v !! d;
  current_height := im_height;
  is_recognized_anchor := fun v height block_id => bool_decide ((height, block_id) ∈ im_recognized_anchors v);
}.

(** ** [state.rs] *)
Inductive SettlementState :=
| SignedLocal | AcceptedLocal | PendingCanonical | Finalized | RejectedConflict
| RejectedCanonical (reason : CanonicalRejection) | Expired.
#[global] Instance SettlementState_eq_dec : EqDecision SettlementState.
Proof. solve_decision. Defined.
Inductive WalletLabel := Pending | AcceptedNotFinal | LabelFinalized | Rejected | LabelExpired.

Definition is_final (s : SettlementState) : bool := match s with Finalized => true | _ => false end.
Definition wallet_label (s : SettlementState) : WalletLabel :=
  match s with
  | SignedLocal | PendingCanonical => Pending
  | AcceptedLocal => AcceptedNotFinal
  | Finalized => LabelFinalized
  | RejectedConflict | RejectedCanonical _ => Rejected
  | Expired => LabelExpired
  end.

(** ** [watcher.rs] *)
Class ClaimWatcher (W : Type) := {
  first_seen : W -> bytes -> Z -> option bytes;
  (** [observe]: the answer, and the watcher as it is left. *)
  observe : W -> bytes -> Z -> bytes -> bool * W;
}.
Definition InMemoryClaimWatcher : Type := gmap (bytes * Z) bytes.
Definition InMemoryClaimWatcher_new : InMemoryClaimWatcher := ∅.
Definition im_observe (w : InMemoryClaimWatcher) (payer : bytes) (sequence : Z) (d : bytes) :
    bool * InMemoryClaimWatcher :=
  match w !! (payer, sequence) with
  | Some existing => (bool_decide (existing = d), w)
  | None => (true, <[(payer, sequence) := d]> w)
  end.
#[global] Instance im_claim_watcher : ClaimWatcher InMemoryClaimWatcher := {
  first_seen := fun w payer sequence => w !! (payer, sequence);
  observe := im_observe;
}.

(** ** [reconcile.rs] *)
Record LocalAcceptancePolicy := mkLocalAcceptancePolicy { max_amount_micro_without_finality : Z }.
Definition never_accept_early : LocalAcceptancePolicy := mkLocalAcceptancePolicy 0.

Section Reconcile.
Context {P : Primitives}.

(** The result and the watcher it leaves, which an early return keeps. *)
Definition evaluate_local_acceptance {W} `{ClaimWatcher W} (claim : PaymentClaim) (policy : LocalAcceptancePolicy)
    (now_ms : Z) (watcher : W) : result SettlementError SettlementState * W :=
  match verify_claim_signature claim with
  | Err e => (Err e, watcher)
  | Ok _ =>
      if pc_valid_until_ms claim <=? now_ms then (Ok Expired, watcher) else
      let '(consistent, watcher) := observe watcher (pc_payer claim) (pc_sequence claim) (claim_digest claim) in
      if negb consistent then (Err ConflictsWithKnownClaim, watcher) else
      if pc_amount_micro claim <=? max_amount_micro_without_finality policy
      then (Ok AcceptedLocal, watcher) else (Ok PendingCanonical, watcher)
  end.

Definition evaluate_local_acceptance_v2 {W} `{ClaimWatcher W} (claim : PaymentClaimV2)
    (policy : LocalAcceptancePolicy) (watcher : W) : result SettlementError SettlementState * W :=
  match verify_claim_v2_signature claim with
  | Err e => (Err e, watcher)
  | Ok _ =>
      let '(consistent, watcher) := observe watcher (p2_payer claim) (p2_sequence claim) (claim_v2_digest claim) in
      if negb consistent then (Err ConflictsWithKnownClaim, watcher) else
      if p2_amount_micro claim <=? max_amount_micro_without_finality policy
      then (Ok AcceptedLocal, watcher) else (Ok PendingCanonical, watcher)
  end.

(** The [match ledger.finalized_sequence(..)] that both versions share, over
    the claim's payer, sequence and digest. *)
Definition slot_outcome {V} `{LedgerView V} (ledger : V) (payer : bytes) (sequence : Z) (d : bytes) :
    SettlementState :=
  match finalized_sequence ledger payer with
  | None => PendingCanonical
  | Some finalized =>
      if finalized <? sequence then PendingCanonical else
      if finalized =? sequence then
        match finalized_claim_digest ledger payer sequence with
        | Some fd => if bool_decide (fd = d) then Finalized else RejectedConflict
        | None => RejectedConflict
        end
      else RejectedConflict
  end.

Definition reconcile {V} `{LedgerView V} (claim : PaymentClaim) (ledger : V) (now_ms : Z) :
    result SettlementError SettlementState :=
  _ ← verify_claim_signature claim;
  let d := claim_digest claim in
  match rejected_claim ledger d with
  | Some reason => Ok (RejectedCanonical reason)
  | None =>
      let outcome := slot_outcome ledger (pc_payer claim) (pc_sequence claim) d in
      if bool_decide (outcome = PendingCanonical) && (pc_valid_until_ms claim <=? now_ms)
      then Ok Expired else Ok outcome
  end.

Definition reconcile_v2 {V} `{LedgerView V} (claim : PaymentClaimV2) (ledger : V) :
    result SettlementError SettlementState :=
  _ ← verify_claim_v2_signature claim;
  let d := claim_v2_digest claim in
  match rejected_claim ledger d with
  | Some reason => Ok (RejectedCanonical reason)
  | None =>
      let outcome := slot_outcome ledger (p2_payer claim) (p2_sequence claim) d in
      if negb (bool_decide (outcome = PendingCanonical)) then Ok outcome else
      if negb (is_recognized_anchor ledger (an_height (p2_anchor claim)) (an_block_id (p2_anchor claim)))
      then Ok (RejectedCanonical UnrecognizedAnchor) else
      if p2_valid_through_height claim <? current_height ledger then Ok Expired else Ok outcome
  end.
End Reconcile.

(** ** The contracts of the two interfaces *)

(** A watcher remembers exactly the first digest of every slot. *)
Class ClaimWatcherLaws (W : Type) `{ClaimWatcher W} : Prop := {
  observe_spec : forall w payer seq d,
    let known := default d (first_seen w payer seq) in
    fst (observe w payer seq d) = bool_decide (known = d) /\
    first_seen (snd (observe w payer seq d)) payer seq = Some known;
  observe_frame : forall w payer seq d payer' seq', (payer', seq') <> (payer, seq) ->
    first_seen (snd (observe w payer seq d)) payer' seq' = first_seen w payer' seq';
}.
#[global] Instance im_claim_watcher_laws : ClaimWatcherLaws InMemoryClaimWatcher.
Proof.
  split; simpl; unfold im_observe.
  - intros w payer seq d. destruct (w !! (payer, seq)) eqn:E; simpl.
    + by rewrite E.
    + rewrite bool_decide_eq_true_2 by done. split; [done|]. apply lookup_insert_eq.
  - intros w payer seq d payer' seq' Hne. destruct (w !! (payer, seq)) eqn:E; simpl; [done|].
    apply (lookup_insert_ne (M:=gmap (bytes * Z))). congruence.
Qed.

(** A view only names a finalized digest up to the payer's high-water mark. *)
Class LedgerViewLaws (V : Type) `{LedgerView V} : Prop := {
  digest_below_mark : forall v payer seq d, finalized_claim_digest v payer seq = Some d ->
    exists m, finalized_sequence v payer = Some m /\ seq <= m;
}.

Lemma iter_max_ge l n : n ∈ l -> exists m, iter_max l = Some m /\ n <= m.
Proof.
  unfold iter_max. intros Hn.
  assert (forall l acc, exists m, fold_left (fun m n => Some (match m with Some m => Z.max m n | None => n end)) l (Some acc) = Some m
    /\ acc <= m /\ forall n, n ∈ l -> n <= m) as Hgen.
  { clear. induction l as [|x l IH]; intros acc; simpl.
    - exists acc. split; [done|]. split; [lia|]. by intros n Hn%elem_of_nil.
    - destruct (IH (Z.max acc x)) as (m & -> & Hm & Hl). exists m. split; [done|]. split; [lia|].
      intros n [->|Hn]%elem_of_cons; [lia|auto]. }
  destruct l as [|x l]; [by apply elem_of_nil in Hn|]. simpl.
  destruct (Hgen l x) as (m & -> & Hx & Hl). exists m. split; [done|].
  apply elem_of_cons in Hn as [->|Hn]; auto.
Qed.

#[global] Instance im_ledger_view_laws : LedgerViewLaws InMemoryLedgerView.
Proof.
  split. intros v payer seq d. simpl. unfold im_finalized_claim_digest, im_finalized_sequence.
  destruct (im_finalized v !! payer) as [l|]; simpl; [|done].
  destruct (List.find _ l) as [[n d']|] eqn:E; simpl; [|done]. intros [= <-].
  apply find_some in E as [Hin Heq]. simpl in Heq. apply Z.eqb_eq in Heq as ->.
  apply iter_max_ge. apply list_elem_of_In, in_map_iff. by exists (seq, d').
Qed.
