(* ===== verification/SettlementTheorems.v ===== *)
(** * SettlementTheorems: a claim's digest, its wire form, its one outcome

    The digest of a claim pins every signed field; the wire form is a
    bijection between claims and bounded byte strings; honest claims verify;
    and against any ledger view a slot has at most one finalized claim. *)

From Stdlib Require Import ZArith Lia.
From stdpp Require Import base list gmap strings.
From S2P Require Import Prelude Codec Crypto Settlement.
Open Scope Z_scope.

(** ** The fields of a claim have their Rust types *)
Record claim_typed (c : PaymentClaim) : Prop := {
  ct_network : length (pc_network_id c) = 32%nat;
  ct_payer : Z.of_nat (length (pc_payer c)) <= U32_MAX;
  ct_payee : Z.of_nat (length (pc_payee c)) <= U32_MAX;
  ct_amount : is_u64 (pc_amount_micro c);
  ct_sequence : is_u64 (pc_sequence c);
  ct_valid : is_u64 (pc_valid_until_ms c);
  ct_chain : Z.of_nat (length (pc_last_known_chain c)) <= U32_MAX;
}.
Record claim_v2_typed (c : PaymentClaimV2) : Prop := {
  c2_network : length (p2_network_id c) = 32%nat;
  c2_payer : Z.of_nat (length (p2_payer c)) <= U32_MAX;
  c2_payee : Z.of_nat (length (p2_payee c)) <= U32_MAX;
  c2_amount : is_u64 (p2_amount_micro c);
  c2_sequence : is_u64 (p2_sequence c);
  c2_height : is_u64 (an_height (p2_anchor c));
  c2_block : length (an_block_id (p2_anchor c)) = 32%nat;
  c2_valid : is_u64 (p2_valid_through_height c);
  c2_context : length (p2_claim_context c) = 32%nat;
}.

(** Everything the signature covers, that is all fields but the signature. *)
Definition terms (c : PaymentClaim) :=
  (pc_network_id c, pc_payer c, pc_payee c, pc_amount_micro c, pc_sequence c, pc_valid_until_ms c,
   pc_last_known_chain c).
Definition terms_v2 (c : PaymentClaimV2) :=
  (p2_network_id c, p2_payer c, p2_payee c, p2_amount_micro c, p2_sequence c, p2_anchor c,
   p2_valid_through_height c, p2_claim_context c).

Lemma message_inj c1 c2 : claim_typed c1 -> claim_typed c2 -> message_of c1 = message_of c2 -> terms c1 = terms c2.
Proof.
  intros [] [] H. unfold message_of, claim_message in H. peel H. peel_last H. unfold terms. congruence.
Qed.

Lemma message_v2_inj c1 c2 : claim_v2_typed c1 -> claim_v2_typed c2 ->
  message_v2_of c1 = message_v2_of c2 -> terms_v2 c1 = terms_v2 c2.
Proof.
  intros [] [] H. unfold message_v2_of, claim_v2_message in H. peel H. unfold terms_v2.
  destruct c1 as [? ? ? ? ? []], c2 as [? ? ? ? ? []]; simpl in *. congruence.
Qed.

(** The two versions sign under different domains. *)
Lemma message_versions c1 c2 : message_of c1 <> message_v2_of c2.
Proof.
  unfold message_of, claim_message, message_v2_of, claim_v2_message. intros H.
  apply (f_equal (take 30)) in H. vm_compute in H. done.
Qed.

Section SettlementTheorems.
Context {P : Primitives}.

Lemma claim_digest_inj c1 c2 : claim_typed c1 -> claim_typed c2 -> claim_digest c1 = claim_digest c2 ->
  terms c1 = terms c2 \/ blake3_collision.
Proof. intros H1 H2 H. unfold claim_digest, digest in H. unhash H. by apply message_inj. Qed.
Lemma claim_v2_digest_inj c1 c2 : claim_v2_typed c1 -> claim_v2_typed c2 -> claim_v2_digest c1 = claim_v2_digest c2 ->
  terms_v2 c1 = terms_v2 c2 \/ blake3_collision.
Proof. intros H1 H2 H. unfold claim_v2_digest, digest in H. unhash H. by apply message_v2_inj. Qed.
Lemma claim_digest_versions c1 c2 : claim_digest c1 = claim_v2_digest c2 -> blake3_collision.
Proof. intros H. exists (message_of c1), (message_v2_of c2). split; [apply message_versions|exact H]. Qed.

(** ** The wire form *)
Lemma parses_claim_signature s : length (sig_bytes s) = signature_len (sig_suite s) ->
  parses cr_signature (w_u8 (suite_tag (sig_suite s)) ++ sig_bytes s) s.
Proof.
  intros Hl. unfold cr_signature. eapply parses_bind; [apply parses_u8|].
  rewrite suite_from_tag_tag. eapply parses_lift; [reflexivity|].
  eapply parses_bind_nil; [by apply parses_take|].
  unfold Signature_from_suite_bytes. rewrite Hl, Nat.eqb_refl. destruct s. by apply parses_lift_end.
Qed.

(** A claim that fits the codec's limits and whose signature has its suite's
    length, as every [Signature] value has. *)
Definition claim_bounded (c : PaymentClaim) : Prop :=
  Z.of_nat (length (pc_payer c)) <= MAX_CLAIM_FIELD_BYTES /\
  Z.of_nat (length (pc_payee c)) <= MAX_CLAIM_FIELD_BYTES /\
  Z.of_nat (length (pc_last_known_chain c)) <= MAX_CLAIM_FIELD_BYTES.
Definition signature_typed (s : Signature) : Prop := length (sig_bytes s) = signature_len (sig_suite s).

Definition claim_wire (c : PaymentClaim) : bytes :=
  CLAIM_WIRE_DOMAIN ++ pc_network_id c ++ w_bytes (pc_payer c) ++ w_bytes (pc_payee c) ++
    w_u64 (pc_amount_micro c) ++ w_u64 (pc_sequence c) ++ w_u64 (pc_valid_until_ms c) ++
    w_bytes (pc_last_known_chain c) ++ w_u8 (suite_tag (sig_suite (pc_signature c))) ++
    sig_bytes (pc_signature c).

Lemma claim_to_wire_ok c b : claim_to_wire_bytes c = Ok b <->
  b = claim_wire c /\ claim_bounded c /\ Z.of_nat (length b) <= MAX_PAYMENT_CLAIM_BYTES.
Proof.
  unfold claim_to_wire_bytes. cbv zeta. fold (claim_wire c). unfold claim_bounded. rewrite bind_ok.
  setoid_rewrite bind_ok. split.
  - intros (? & H1 & ? & H2 & [= <-]). apply fail_if_ok in H1, H2. bool_prop. auto.
  - intros (-> & (H1 & H2 & H3) & H4). exists tt. rewrite !fail_if_ok, !orb_false_iff, !Z.ltb_ge.
    split; [auto|]. exists tt. by rewrite fail_if_ok, Z.ltb_ge.
Qed.

Ltac claim_field :=
  first [ eapply parses_bind; [by first [apply parses_u64 | apply parses_take | apply parses_bytes_limited]|] ].

Lemma parses_claim c : claim_typed c -> claim_bounded c -> signature_typed (pc_signature c) ->
  parses read_claim (claim_wire c) c.
Proof.
  intros [] (H1 & H2 & H3) Hs. unfold read_claim, claim_wire. claim_field.
  rewrite bool_decide_eq_true_2 by done. eapply parses_lift; [reflexivity|]. do 7 claim_field.
  eapply parses_bind_nil; [by apply parses_claim_signature|]. destruct c. apply parses_ret.
Qed.

#[global] Instance canonical_cr_u64 : Canonical cr_u64 w_u64.
Proof. intros r a r' Hok H. by apply r_u64_consumes in H as [? _]. Qed.
#[global] Instance canonical_cr_u8 : Canonical cr_u8 w_u8.
Proof. intros r a r' _ H. by apply r_u8_consumes in H. Qed.
#[global] Instance canonical_cr_take n : Canonical (cr_take n) (fun b => b).
Proof. intros r a r' _ H. by apply r_take_consumes in H as [? _]. Qed.
#[global] Instance canonical_cr_bytes m : Canonical (cr_bytes m) w_bytes.
Proof. intros r a r' Hok H. by apply bytes_limited_consumes in H as [? _]. Qed.
#[global] Instance canonical_cr_signature :
  Canonical cr_signature (fun s => w_u8 (suite_tag (sig_suite s)) ++ sig_bytes s).
Proof.
  intros r s r' Hok H. unfold cr_signature in H. parse_inv. repeat canon_step.
  unfold Signature_from_suite_bytes in *. ok_inv.
  match goal with H : suite_from_tag _ = Ok _ |- _ => apply suite_tag_from_tag in H; subst end. canon_chain.
Qed.
#[global] Instance canonical_claim : Canonical read_claim claim_wire.
Proof.
  intros r c r' Hok H. unfold read_claim in H. parse_inv. ok_inv. bool_prop. subst.
  unfold claim_wire. cbn [pc_network_id pc_payer pc_payee pc_amount_micro pc_sequence pc_valid_until_ms
    pc_last_known_chain pc_signature]. canon_chain.
Qed.

Lemma cr_signature_typed r s r' : cr_signature r = Ok (s, r') -> signature_typed s.
Proof.
  intros H. unfold cr_signature in H. parse_inv. unfold Signature_from_suite_bytes in *. ok_inv. bool_prop. done.
Qed.

(** What each successful read says about the value. *)
Ltac read_facts :=
  repeat match goal with
  | H : cr_take _ _ = Ok _ |- _ => apply r_take_consumes in H as [_ H]
  | H : cr_u64 _ = Ok _ |- _ => apply r_u64_consumes in H as [_ H]; [|done]
  | H : cr_bytes _ _ = Ok _ |- _ => apply bytes_limited_consumes in H as [_ H]; [|done]
  | H : cr_signature _ = Ok _ |- _ => apply cr_signature_typed in H
  end.

Lemma read_claim_typed r c r' : bytes_ok (rbuf r) -> read_claim r = Ok (c, r') ->
  claim_typed c /\ claim_bounded c /\ signature_typed (pc_signature c).
Proof.
  intros Hok H. unfold read_claim in H. parse_inv. ok_inv. repeat canon_step. read_facts.
  split; [|split]; [split; cbn; try done; unfold U32_MAX, MAX_CLAIM_FIELD_BYTES in *; lia| |done].
  split; [done|]. by split.
Qed.

(** ** Version 2 *)
Definition claim_v2_bounded (c : PaymentClaimV2) : Prop :=
  Z.of_nat (length (p2_payer c)) <= MAX_CLAIM_FIELD_BYTES /\
  Z.of_nat (length (p2_payee c)) <= MAX_CLAIM_FIELD_BYTES.

Definition claim_v2_wire (c : PaymentClaimV2) : bytes :=
  CLAIM_V2_WIRE_DOMAIN ++ p2_network_id c ++ w_bytes (p2_payer c) ++ w_bytes (p2_payee c) ++
    w_u64 (p2_amount_micro c) ++ w_u64 (p2_sequence c) ++ w_u64 (an_height (p2_anchor c)) ++
    an_block_id (p2_anchor c) ++ w_u64 (p2_valid_through_height c) ++ p2_claim_context c ++
    w_u8 (suite_tag (sig_suite (p2_signature c))) ++ sig_bytes (p2_signature c).

Lemma claim_v2_to_wire_ok c b : claim_v2_to_wire_bytes c = Ok b <->
  b = claim_v2_wire c /\ claim_v2_bounded c /\ Z.of_nat (length b) <= MAX_PAYMENT_CLAIM_V2_BYTES.
Proof.
  unfold claim_v2_to_wire_bytes. cbv zeta. fold (claim_v2_wire c). unfold claim_v2_bounded. rewrite bind_ok.
  setoid_rewrite bind_ok. split.
  - intros (? & H1 & ? & H2 & [= <-]). apply fail_if_ok in H1, H2. bool_prop.
    split; [done|]. by split.
  - intros (-> & (H1 & H2) & H4). exists tt. rewrite !fail_if_ok, !orb_false_iff, !Z.ltb_ge.
    split; [by split|]. exists tt. by rewrite fail_if_ok, Z.ltb_ge.
Qed.

Lemma parses_claim_v2 c : claim_v2_typed c -> claim_v2_bounded c -> signature_typed (p2_signature c) ->
  parses read_claim_v2 (claim_v2_wire c) c.
Proof.
  intros [] (H1 & H2) Hs. unfold read_claim_v2, claim_v2_wire. claim_field.
  rewrite bool_decide_eq_true_2 by done. eapply parses_lift; [reflexivity|]. do 9 claim_field.
  eapply parses_bind_nil; [by apply parses_claim_signature|]. destruct c as [? ? ? ? ? []]. apply parses_ret.
Qed.

#[global] Instance canonical_claim_v2 : Canonical read_claim_v2 claim_v2_wire.
Proof.
  intros r c r' Hok H. unfold read_claim_v2 in H. parse_inv. ok_inv. bool_prop. subst.
  unfold claim_v2_wire. cbn [p2_network_id p2_payer p2_payee p2_amount_micro p2_sequence p2_anchor
    p2_valid_through_height p2_claim_context p2_signature an_height an_block_id]. canon_chain.
Qed.

Lemma read_claim_v2_typed r c r' : bytes_ok (rbuf r) -> read_claim_v2 r = Ok (c, r') ->
  claim_v2_typed c /\ claim_v2_bounded c /\ signature_typed (p2_signature c).
Proof.
  intros Hok H. unfold read_claim_v2 in H. parse_inv. ok_inv. repeat canon_step. read_facts.
  split; [|split]; [split; cbn; try done; unfold U32_MAX, MAX_CLAIM_FIELD_BYTES in *; lia| |done].
  by split.
Qed.

Lemma claim_wire_iff c b : bytes_ok b ->
  claim_from_wire_bytes b = Ok c <->
  claim_to_wire_bytes c = Ok b /\ claim_typed c /\ signature_typed (pc_signature c).
Proof.
  intros Hb. rewrite claim_to_wire_ok. unfold claim_from_wire_bytes. split.
  - intros H. apply bind_ok in H as (? & H1 & H). apply bind_ok in H as ([c' r] & H2 & H).
    apply bind_ok in H as (? & H3 & [= ->]). apply fail_if_ok in H1, H3. bool_prop.
    pose proof (read_claim_typed (Reader_new b) _ _ Hb H2) as (Ht & Hbd & Hs).
    split; [|done]. split; [|done]. symmetry. eapply consumes_finished; [|exact H3]. by eapply (canonical_use (p:=read_claim)).
  - intros ((-> & Hbd & Hl) & Ht & Hs). destruct (parses_new _ _ _ (parses_claim c Ht Hbd Hs)) as (r & E & Hf).
    rewrite (proj2 (Z.ltb_ge _ _) Hl). cbn [fail_if mbind result_bind]. rewrite E. cbn [mbind result_bind].
    by rewrite Hf.
Qed.

Lemma claim_v2_wire_iff c b : bytes_ok b ->
  claim_v2_from_wire_bytes b = Ok c <->
  claim_v2_to_wire_bytes c = Ok b /\ claim_v2_typed c /\ signature_typed (p2_signature c).
Proof.
  intros Hb. rewrite claim_v2_to_wire_ok. unfold claim_v2_from_wire_bytes. split.
  - intros H. apply bind_ok in H as (? & H1 & H). apply bind_ok in H as ([c' r] & H2 & H).
    apply bind_ok in H as (? & H3 & [= ->]). apply fail_if_ok in H1, H3. bool_prop.
    pose proof (read_claim_v2_typed (Reader_new b) _ _ Hb H2) as (Ht & Hbd & Hs).
    split; [|done]. split; [|done]. symmetry. eapply consumes_finished; [|exact H3]. by eapply (canonical_use (p:=read_claim_v2)).
  - intros ((-> & Hbd & Hl) & Ht & Hs). destruct (parses_new _ _ _ (parses_claim_v2 c Ht Hbd Hs)) as (r & E & Hf).
    rewrite (proj2 (Z.ltb_ge _ _) Hl). cbn [fail_if mbind result_bind]. rewrite E. cbn [mbind result_bind].
    by rewrite Hf.
Qed.

(** ** Signing *)
Lemma payer_key_ok {L : PrimitivesLaws} k :
  VerifyingKey_from_suite_bytes DEFAULT_SUITE (ed25519_public (sk_seed k)) = Ok (verifying_key k).
Proof.
  unfold VerifyingKey_from_suite_bytes, DEFAULT_SUITE. cbn. by rewrite ed25519_public_length, ed25519_public_ok.
Qed.

Lemma sign_claim_verifies {L : PrimitivesLaws} k payee amount seq valid network chain now c :
  sign_claim_for_network k payee amount seq valid network chain now = Ok c ->
  verify_claim_signature c = Ok tt /\ now < pc_valid_until_ms c /\ signature_typed (pc_signature c).
Proof.
  unfold sign_claim_for_network. cbv zeta. intros H. do 3 (apply bind_ok in H as (? & ?%fail_if_ok & H)).
  injection H as <-. bool_prop. unfold verify_claim_signature.
  cbn [pc_amount_micro pc_payer pc_signature pc_valid_until_ms]. rewrite (proj2 (Z.eqb_neq _ _)) by done.
  cbn [fail_if mbind result_bind]. rewrite payer_key_ok. cbn [map_err mbind result_bind].
  unfold message_of. cbn [pc_network_id pc_payer pc_payee pc_amount_micro pc_sequence pc_valid_until_ms pc_last_known_chain].
  rewrite sign_verifies. split; [done|]. split; [done|]. apply ed25519_sign_length.
Qed.

(** ** What a ledger view says about a claim *)
Section Views.
Context {V : Type} `{LedgerView V}.

Lemma slot_outcome_finalized (v : V) payer seq d :
  slot_outcome v payer seq d = Finalized <->
  finalized_sequence v payer = Some seq /\ finalized_claim_digest v payer seq = Some d.
Proof.
  unfold slot_outcome. destruct (finalized_sequence v payer) as [m|]; [|naive_solver].
  destruct (Z.ltb_spec m seq); [split; [done|intros [[= ->] _]; lia]|].
  destruct (Z.eqb_spec m seq) as [->|]; [|split; [done|intros [[= ->] _]; done]].
  destruct (finalized_claim_digest v payer seq) as [fd|]; [|naive_solver].
  case_bool_decide; naive_solver.
Qed.

Lemma slot_outcome_pending (v : V) payer seq d :
  slot_outcome v payer seq d = PendingCanonical <->
  match finalized_sequence v payer with Some m => m < seq | None => True end.
Proof.
  unfold slot_outcome. destruct (finalized_sequence v payer) as [m|]; [|done].
  destruct (Z.ltb_spec m seq); [done|]. destruct (Z.eqb_spec m seq) as [->|].
  - destruct (finalized_claim_digest v payer seq) as [fd|]; [case_bool_decide|]; split; try done; lia.
  - split; [done|lia].
Qed.

Lemma slot_outcome_superseded (v : V) payer seq d m :
  finalized_sequence v payer = Some m -> seq < m -> slot_outcome v payer seq d = RejectedConflict.
Proof.
  intros E Hm. unfold slot_outcome. rewrite E, (proj2 (Z.ltb_ge _ _)), (proj2 (Z.eqb_neq _ _)) by lia. done.
Qed.

Lemma reconcile_finalized c (v : V) now :
  reconcile c v now = Ok Finalized <->
  verify_claim_signature c = Ok tt /\ rejected_claim v (claim_digest c) = None /\
  finalized_sequence v (pc_payer c) = Some (pc_sequence c) /\
  finalized_claim_digest v (pc_payer c) (pc_sequence c) = Some (claim_digest c).
Proof.
  unfold reconcile. destruct (verify_claim_signature c) as [[]|e]; [|naive_solver]. cbn [mbind result_bind].
  destruct (rejected_claim v (claim_digest c)); [naive_solver|]. rewrite <- slot_outcome_finalized.
  destruct (bool_decide _) eqn:E; cbn [andb].
  - apply bool_decide_eq_true_1 in E as ->. case_match; split; [done|by intros (_ & _ & ?)|done|by intros (_ & _ & ?)].
  - split; [intros [= ->]; by split|by intros (_ & _ & ->)].
Qed.

Lemma reconcile_v2_finalized c (v : V) :
  reconcile_v2 c v = Ok Finalized <->
  verify_claim_v2_signature c = Ok tt /\ rejected_claim v (claim_v2_digest c) = None /\
  finalized_sequence v (p2_payer c) = Some (p2_sequence c) /\
  finalized_claim_digest v (p2_payer c) (p2_sequence c) = Some (claim_v2_digest c).
Proof.
  unfold reconcile_v2. destruct (verify_claim_v2_signature c) as [[]|e]; [|naive_solver]. cbn [mbind result_bind].
  destruct (rejected_claim v (claim_v2_digest c)); [naive_solver|]. rewrite <- slot_outcome_finalized.
  case_bool_decide as E; cbn [negb].
  - rewrite E. repeat case_match; (split; [done|by intros (_ & _ & ?)]).
  - split; [intros [= ->]; by split|by intros (_ & _ & ->)].
Qed.
End Views.

(** ** Offers shown to one recipient, of both versions *)
Inductive Offer := OfferV1 (c : PaymentClaim) (now_ms : Z) | OfferV2 (c : PaymentClaimV2).
Definition offer_slot (o : Offer) : bytes * Z :=
  match o with OfferV1 c _ => (pc_payer c, pc_sequence c) | OfferV2 c => (p2_payer c, p2_sequence c) end.
Definition offer_digest (o : Offer) : bytes :=
  match o with OfferV1 c _ => claim_digest c | OfferV2 c => claim_v2_digest c end.
Definition offer_amount (o : Offer) : Z :=
  match o with OfferV1 c _ => pc_amount_micro c | OfferV2 c => p2_amount_micro c end.

Section Watching.
Context {W : Type} `{ClaimWatcherLaws W} (policy : LocalAcceptancePolicy).

Definition offer_step (o : Offer) (w : W) : result SettlementError SettlementState * W :=
  match o with
  | OfferV1 c now => evaluate_local_acceptance c policy now w
  | OfferV2 c => evaluate_local_acceptance_v2 c policy w
  end.
(** The recipient evaluates the offers in turn with one watcher. *)
Fixpoint offer_run (os : list Offer) (w : W) : list (Offer * SettlementState) :=
  match os with
  | [] => []
  | o :: os' =>
      let '(r, w') := offer_step o w in
      match r with Ok s => (o, s) :: offer_run os' w' | Err _ => offer_run os' w' end
  end.

Lemma offer_step_cases o w r w' : offer_step o w = (r, w') ->
  (w' = w /\ (r = Ok Expired \/ exists e, r = Err e)) \/
  (w' = snd (observe w (fst (offer_slot o)) (snd (offer_slot o)) (offer_digest o)) /\
   ((exists e, r = Err e) \/
    fst (observe w (fst (offer_slot o)) (snd (offer_slot o)) (offer_digest o)) = true /\
    (r = Ok AcceptedLocal /\ offer_amount o <= max_amount_micro_without_finality policy \/ r = Ok PendingCanonical))).
Proof.
  destruct o as [c now|c]; simpl; unfold evaluate_local_acceptance, evaluate_local_acceptance_v2.
  all: case_match; [|intros [= <- <-]; left; eauto].
  1: case_match; [intros [= <- <-]; left; auto|].
  all: destruct (observe _ _ _ _) as [[] w1]; simpl; [|intros [= <- <-]; right; split; eauto].
  all: case_match; bool_prop; intros [= <- <-]; right; auto 7.
Qed.

Lemma observe_keeps w p q d p' q' d' : first_seen w p' q' = Some d' ->
  first_seen (snd (observe w p q d)) p' q' = Some d'.
Proof.
  intros E. destruct (decide ((p', q') = (p, q))) as [[= -> ->]|Hne].
  - rewrite (proj2 (observe_spec w p q d)). by rewrite E.
  - by rewrite observe_frame.
Qed.

Lemma offer_step_keeps o w r w' p q d : offer_step o w = (r, w') ->
  first_seen w p q = Some d -> first_seen w' p q = Some d.
Proof. intros [[-> _]|[-> _]]%offer_step_cases Hd; [done|by apply observe_keeps]. Qed.

Lemma offer_step_accepts o w s w' : offer_step o w = (Ok s, w') -> s <> Expired ->
  first_seen w' (fst (offer_slot o)) (snd (offer_slot o)) = Some (offer_digest o).
Proof.
  intros [[_ [[= ->]|[? [=]]]]|[-> [[? [=]]|[Ht _]]]]%offer_step_cases Hs; [done|].
  pose proof (observe_spec w (fst (offer_slot o)) (snd (offer_slot o)) (offer_digest o)) as [H1 H2].
  rewrite H2. rewrite H1 in Ht. apply bool_decide_eq_true_1 in Ht. by rewrite Ht.
Qed.

Lemma offer_run_respects os w o s d : (o, s) ∈ offer_run os w -> s <> Expired ->
  first_seen w (fst (offer_slot o)) (snd (offer_slot o)) = Some d -> offer_digest o = d.
Proof.
  revert w. induction os as [|o' os IH]; intros w Hin Hs Hd; [by apply elem_of_nil in Hin|].
  simpl in Hin. destruct (offer_step o' w) as [r w'] eqn:E.
  pose proof (offer_step_keeps _ _ _ _ _ _ _ E Hd) as Hd'.
  destruct r as [s'|e]; [|by eauto]. apply elem_of_cons in Hin as [[= -> ->]|Hin]; [|by eauto].
  pose proof (offer_step_accepts _ _ _ _ E Hs). congruence.
Qed.

Lemma offer_run_sound os w o s : (o, s) ∈ offer_run os w -> is_final s = false /\
  (s = AcceptedLocal -> offer_amount o <= max_amount_micro_without_finality policy).
Proof.
  revert w. induction os as [|o' os IH]; intros w Hin; [by apply elem_of_nil in Hin|].
  simpl in Hin. destruct (offer_step o' w) as [r w'] eqn:E. destruct r as [s'|e]; [|by eauto].
  apply elem_of_cons in Hin as [[= -> ->]|Hin]; [|by eauto].
  apply offer_step_cases in E as [[_ [[= ->]|[? [=]]]]|[_ [[? [=]]|[_ [[[= ->] ?]|[= ->]]]]]]; by split.
Qed.

(** Local acceptance is consistent and never final.  However many offers
    of either claim version one recipient evaluates with one watcher, in any
    order, all that are not refused or expired at one [(payer, sequence)]
    slot carry one digest, no answer is final, and one is accepted early only
    up to the policy's amount. *)
Theorem local_acceptance_consistent os w :
  (forall o1 s1 o2 s2, (o1, s1) ∈ offer_run os w -> (o2, s2) ∈ offer_run os w ->
    s1 <> Expired -> s2 <> Expired -> offer_slot o1 = offer_slot o2 -> offer_digest o1 = offer_digest o2) /\
  (forall o s, (o, s) ∈ offer_run os w -> is_final s = false /\
    (s = AcceptedLocal -> offer_amount o <= max_amount_micro_without_finality policy)).
Proof.
  split; [|intros o s; apply offer_run_sound]. revert w. induction os as [|o os IH]; intros w o1 s1 o2 s2 H1 H2 N1 N2 Hslot.
  { by apply elem_of_nil in H1. }
  simpl in H1, H2. destruct (offer_step o w) as [[s|e] w'] eqn:E; [|by eapply IH].
  apply elem_of_cons in H1 as [[= -> ->]|H1], H2 as [[= -> ->]|H2]; [done| | |by eapply IH].
  - pose proof (offer_step_accepts _ _ _ _ E N1) as Hd. rewrite Hslot in Hd.
    symmetry. by eapply offer_run_respects.
  - pose proof (offer_step_accepts _ _ _ _ E N2) as Hd. rewrite <- Hslot in Hd. by eapply offer_run_respects.
Qed.
End Watching.

(** The wire codec of both claim versions: bytes decode to a claim
    exactly when they are that claim's bounded canonical encoding and every
    field has its type's range, so claims round-trip and no two byte strings
    decode to the same claim. *)
Theorem claim_wire_round_trip b : bytes_ok b ->
  (forall c, claim_from_wire_bytes b = Ok c <->
     claim_to_wire_bytes c = Ok b /\ claim_typed c /\ signature_typed (pc_signature c)) /\
  (forall c, claim_v2_from_wire_bytes b = Ok c <->
     claim_v2_to_wire_bytes c = Ok b /\ claim_v2_typed c /\ signature_typed (p2_signature c)).
Proof. intros Hb. split; intros c; [by apply claim_wire_iff|by apply claim_v2_wire_iff]. Qed.

(** One winner per slot, on every ledger view: if two claims of one payer
    and sequence both reconcile to [Finalized], at whatever times, they have
    the same terms, whichever version they are of; two different ones would
    exhibit a BLAKE3 collision. *)
Theorem one_winner_per_slot {V} `{LedgerView V} (v : V) :
  (forall c1 c2 now1 now2, claim_typed c1 -> claim_typed c2 ->
    pc_payer c1 = pc_payer c2 -> pc_sequence c1 = pc_sequence c2 ->
    reconcile c1 v now1 = Ok Finalized -> reconcile c2 v now2 = Ok Finalized ->
    terms c1 = terms c2 \/ blake3_collision) /\
  (forall c1 c2, claim_v2_typed c1 -> claim_v2_typed c2 ->
    p2_payer c1 = p2_payer c2 -> p2_sequence c1 = p2_sequence c2 ->
    reconcile_v2 c1 v = Ok Finalized -> reconcile_v2 c2 v = Ok Finalized ->
    terms_v2 c1 = terms_v2 c2 \/ blake3_collision) /\
  (forall c1 c2 now, pc_payer c1 = p2_payer c2 -> pc_sequence c1 = p2_sequence c2 ->
    reconcile c1 v now = Ok Finalized -> reconcile_v2 c2 v = Ok Finalized -> blake3_collision).
Proof.
  split; [|split].
  - intros c1 c2 now1 now2 T1 T2 Ep Es (_ & _ & _ & H1)%reconcile_finalized (_ & _ & _ & H2)%reconcile_finalized.
    apply claim_digest_inj; [done..|]. rewrite Ep, Es in H1. congruence.
  - intros c1 c2 T1 T2 Ep Es (_ & _ & _ & H1)%reconcile_v2_finalized (_ & _ & _ & H2)%reconcile_v2_finalized.
    apply claim_v2_digest_inj; [done..|]. rewrite Ep, Es in H1. congruence.
  - intros c1 c2 now Ep Es (_ & _ & _ & H1)%reconcile_finalized (_ & _ & _ & H2)%reconcile_v2_finalized.
    apply (claim_digest_versions c1 c2). rewrite Ep, Es in H1. congruence.
Qed.

End SettlementTheorems.
