(* ===== verification/Shielded.v ===== *)
(** * Shielded: opaque spends and the ledger of their outputs

    Models [crates/mini-execution/src]: [error.rs], [nullifier.rs] and
    [shielded.rs].  A [BTreeMap] is a [gmap]; where the source iterates one,
    the order of the keys is [btree_entries].  The trait [ClaimVerifier],
    which stands for cryptography these crates do not link, is a record of
    two functions that the operations take as an argument. *)

From Stdlib Require Import ZArith Lia.
From stdpp Require Import base list gmap sets strings sorting.
From S2P Require Import Prelude Codec Crypto Identity Kel Chain Economy.
Open Scope Z_scope.

(** ** [error.rs] *)
Inductive ExecutionError :=
| WrongHeight (expected got : Z)
| WrongParent
| NotFinalized (e : ChainError)
| StateRootMismatch
| BodyRootMismatch
| TooManyClaims
| TooManyNullifiers
| MissingClaimVerifier
| InvalidShieldedClaim
| UnknownShieldedInput
| DuplicateShieldedOutput
| ShieldedGenesisMismatch
| TooManyMonetaryEpochs
| InvalidMonetaryEpoch (e : EconomyError)
| InvalidGenesisAllocation
| AmountOverflow
| SupplyConservationViolation
| SnapshotMalformed
| SnapshotTooLarge
| SnapshotWrongNetwork
| SnapshotProofMismatch
| TimestampNotDeterministic (expected got : Z).

(** ** [nullifier.rs] *)
Definition MAX_NULLIFIERS_PER_BLOCK : Z := 4096.
Definition MAX_KEY_IMAGE_BYTES : Z := 64.

Record NullifierRecord := mkNullifierRecord { nr_key_image : bytes; nr_claim_digest : bytes }.
#[global] Instance NullifierRecord_eq_dec : EqDecision NullifierRecord.
Proof. solve_decision. Defined.

Definition is_well_formed (r : NullifierRecord) : bool :=
  negb (bool_decide (nr_key_image r = [])) && (Z.of_nat (length (nr_key_image r)) <=? MAX_KEY_IMAGE_BYTES).
Definition nr_canonical_bytes (r : NullifierRecord) : bytes := w_bytes (nr_key_image r) ++ nr_claim_digest r.
Definition nr_digest `{Primitives} (r : NullifierRecord) : bytes :=
  digest Blake3 (lit "mini-execution/nullifier-record/v1" ++ nr_canonical_bytes r).

(** ** [shielded.rs] *)
Definition MAX_LEDGER_SNAPSHOT_ENTRIES : Z := 65536.
Definition MAX_OUTPUTS : Z := MAX_LEDGER_SNAPSHOT_ENTRIES.
Definition MAX_RING_MEMBERS : Z := 16 * 128.

Record ShieldedOutput := mkShieldedOutput { so_public_key : bytes; so_amount_commitment : bytes }.
#[global] Instance ShieldedOutput_eq_dec : EqDecision ShieldedOutput.
Proof. solve_decision. Defined.
Definition well_formed (o : ShieldedOutput) : bool :=
  (length (so_public_key o) =? 32)%nat && (length (so_amount_commitment o) =? 32)%nat.

Record ShieldedGenesisAllocation := mkShieldedAllocation { ga_output : ShieldedOutput; ga_amount_micro : Z }.
#[global] Instance ShieldedGenesisAllocation_eq_dec : EqDecision ShieldedGenesisAllocation.
Proof. solve_decision. Defined.

Record ShieldedClaimEffects := mkEffects {
  se_ring_members : list ShieldedOutput; se_outputs : list ShieldedOutput; se_fee_micro : Z }.

Record ClaimVerifier := mkClaimVerifier {
  verify_claim : bytes -> bytes -> list NullifierRecord -> option ShieldedClaimEffects;
  verify_genesis_allocation : bytes -> ShieldedGenesisAllocation -> bool;
}.

Record ShieldedLedger := mkShieldedLedger {
  sl_genesis : list ShieldedGenesisAllocation;
  sl_outputs : gmap bytes bytes;
  sl_applied : list bytes;
  sl_pool_micro : Z;
}.
#[global] Instance ShieldedLedger_eq_dec : EqDecision ShieldedLedger.
Proof. solve_decision. Defined.
Definition ShieldedLedger_default : ShieldedLedger := mkShieldedLedger [] ∅ [] 0.

(** The derived [Ord] of an output, by which [genesis] sorts: the key, then
    the commitment. *)
Definition output_le (a b : ShieldedOutput) : Prop :=
  if decide (so_public_key a = so_public_key b) then bytes_le (so_amount_commitment a) (so_amount_commitment b)
  else bytes_le (so_public_key a) (so_public_key b).
Definition allocation_le (a b : ShieldedGenesisAllocation) : Prop := output_le (ga_output a) (ga_output b).
#[global] Instance allocation_le_dec : RelDecision allocation_le.
Proof. intros a b. unfold allocation_le, output_le. case_match; apply _. Defined.

Definition shielded_genesis_step (network : bytes) (v : ClaimVerifier) (l : ShieldedLedger)
    (a : ShieldedGenesisAllocation) : result ExecutionError ShieldedLedger :=
  _ ← fail_if (negb (well_formed (ga_output a)) || negb (verify_genesis_allocation v network a) ||
        bool_decide (is_Some (sl_outputs l !! so_public_key (ga_output a)))) InvalidShieldedClaim;
  pool ← ok_or (checked_add U128_MAX (sl_pool_micro l) (ga_amount_micro a)) AmountOverflow;
  Ok (mkShieldedLedger (sl_genesis l)
        (<[so_public_key (ga_output a) := so_amount_commitment (ga_output a)]> (sl_outputs l)) (sl_applied l) pool).

Definition shielded_genesis (network : bytes) (allocations : list ShieldedGenesisAllocation) (v : ClaimVerifier) :
    result ExecutionError ShieldedLedger :=
  _ ← fail_if (MAX_OUTPUTS <? Z.of_nat (length allocations)) SnapshotTooLarge;
  let allocations := merge_sort allocation_le allocations in
  ledger ← foldM (shielded_genesis_step network v) ShieldedLedger_default allocations;
  Ok (mkShieldedLedger allocations (sl_outputs ledger) (sl_applied ledger) (sl_pool_micro ledger)).

Definition allocation_bytes (a : ShieldedGenesisAllocation) : bytes :=
  so_public_key (ga_output a) ++ so_amount_commitment (ga_output a) ++ w_u64 (ga_amount_micro a).
Definition genesis_commitment `{Primitives} (l : ShieldedLedger) : bytes :=
  digest Blake3 (lit "mini-execution/shielded-genesis/v1" ++ concat (map allocation_bytes (sl_genesis l))).

(** The loop over the new outputs: none exists yet and none repeats. *)
Fixpoint outputs_fresh (outputs : gmap bytes bytes) (new_keys : list bytes) (l : list ShieldedOutput) : bool :=
  match l with
  | [] => true
  | o :: l' =>
      well_formed o && negb (bool_decide (is_Some (outputs !! so_public_key o))) &&
      negb (bool_decide (so_public_key o ∈ new_keys)) &&
      outputs_fresh outputs (so_public_key o :: new_keys) l'
  end.
Definition insert_outputs (outputs : gmap bytes bytes) (l : list ShieldedOutput) : gmap bytes bytes :=
  fold_left (fun m o => <[so_public_key o := so_amount_commitment o]> m) l outputs.

(** [ShieldedLedger::apply]: the fee, and the ledger. *)
Definition shielded_apply (l : ShieldedLedger) (d : bytes) (e : ShieldedClaimEffects) :
    result ExecutionError (Z * ShieldedLedger) :=
  if bool_decide (d ∈ sl_applied l) then Ok (0, l) else
  _ ← fail_if (bool_decide (se_ring_members e = []) ||
        (MAX_RING_MEMBERS <? Z.of_nat (length (se_ring_members e))) ||
        bool_decide (se_outputs e = []) || (16 <? Z.of_nat (length (se_outputs e))) ||
        (MAX_OUTPUTS <? Z.of_nat (size (sl_outputs l)) + Z.of_nat (length (se_outputs e))) ||
        (MAX_OUTPUTS <=? Z.of_nat (length (sl_applied l)))) InvalidShieldedClaim;
  _ ← fail_if (negb (forallb (fun m => well_formed m &&
        bool_decide (sl_outputs l !! so_public_key m = Some (so_amount_commitment m))) (se_ring_members e)))
        UnknownShieldedInput;
  _ ← fail_if (negb (outputs_fresh (sl_outputs l) [] (se_outputs e))) DuplicateShieldedOutput;
  pool ← ok_or (checked_sub (sl_pool_micro l) (se_fee_micro e)) SupplyConservationViolation;
  Ok (se_fee_micro e,
      mkShieldedLedger (sl_genesis l) (insert_outputs (sl_outputs l) (se_outputs e)) (sl_applied l ++ [d]) pool).

(** [verify_replay]: rebuild the ledger from its genesis and the recorded
    spends, whose records are grouped in the order of their key images. *)
Definition replay_groups (nullifiers : gmap bytes bytes) : gmap bytes (list NullifierRecord) :=
  fold_left (fun g e => <[e.2 := default [] (g !! e.2) ++ [mkNullifierRecord e.1 e.2]]> g)
    (btree_entries nullifiers) ∅.
Definition replay_step (network : bytes) (v : ClaimVerifier) (s : ShieldedLedger * gmap bytes (list NullifierRecord))
    (d : bytes) : result ExecutionError (ShieldedLedger * gmap bytes (list NullifierRecord)) :=
  group ← ok_or (snd s !! d) InvalidShieldedClaim;
  effects ← ok_or (verify_claim v network d group) InvalidShieldedClaim;
  '(_, l) ← shielded_apply (fst s) d effects;
  Ok (l, delete d (snd s)).
Definition verify_replay (l : ShieldedLedger) (network : bytes) (nullifiers : gmap bytes bytes)
    (verifier : option ClaimVerifier) : result ExecutionError unit :=
  if bool_decide (l = ShieldedLedger_default) && bool_decide (nullifiers = ∅) then Ok tt else
  v ← ok_or verifier MissingClaimVerifier;
  replay ← shielded_genesis network (sl_genesis l) v;
  '(replay, groups) ← foldM (replay_step network v) (replay, replay_groups nullifiers) (sl_applied l);
  fail_if (negb (bool_decide (groups = ∅)) || negb (bool_decide (replay = l))) InvalidShieldedClaim.

Definition pair_bytes (e : bytes * bytes) : bytes := e.1 ++ e.2.
Definition shielded_to_bytes (l : ShieldedLedger) : bytes :=
  lit "mini-execution/shielded-ledger/v1" ++
  w_u32 (Z.of_nat (length (sl_genesis l))) ++ concat (map allocation_bytes (sl_genesis l)) ++
  w_u32 (Z.of_nat (size (sl_outputs l))) ++ concat (map pair_bytes (btree_entries (sl_outputs l))) ++
  w_u32 (Z.of_nat (length (sl_applied l))) ++ concat (sl_applied l) ++
  to_be_bytes 16 (sl_pool_micro l).
