(* ===== verification/Execution.v ===== *)
(** * Execution: the settlement state machine

    Models [crates/mini-execution/src/body.rs], [state.rs] and [chain.rs]:
    the body of a block, the ledger state with its commitment and its audits,
    the application of a body, and the chain that only advances behind a
    verified certificate.  The state is an instance of the settlement layer's
    [LedgerView]. *)

From Stdlib Require Import ZArith Lia.
From stdpp Require Import base list gmap sets strings sorting.
From S2P Require Import Prelude Codec Crypto Identity Kel Chain Economy Settlement Shielded.
Open Scope Z_scope.

(** ** [body.rs] *)
Definition MAX_CLAIMS_PER_BLOCK : Z := 4096.
Definition MAX_MONETARY_EPOCHS_PER_BLOCK : Z := 1.

Record SettlementBlockBody := mkBody {
  bd_claims : list PaymentClaim;
  bd_nullifiers : list NullifierRecord;
  bd_monetary_epochs : list ScalableEpochPlan;
}.
Definition body_new (claims : list PaymentClaim) : SettlementBlockBody := mkBody claims [] [].
Definition with_nullifiers (b : SettlementBlockBody) (n : list NullifierRecord) : SettlementBlockBody :=
  mkBody (bd_claims b) n (bd_monetary_epochs b).
Definition with_monetary_epochs (b : SettlementBlockBody) (e : list ScalableEpochPlan) : SettlementBlockBody :=
  mkBody (bd_claims b) (bd_nullifiers b) e.

Definition count_u64 {A} (l : list A) : bytes := w_u64 (Z.of_nat (length l)).
Definition epoch_bytes (e : ScalableEpochPlan) : bytes :=
  let b := plan_canonical_bytes e in w_u64 (Z.of_nat (length b)) ++ b.

(** ** [state.rs] *)
Definition MAX_ACCOUNT_BYTES : Z := 4096.

Record LedgerState := mkLedgerState {
  ls_network_id : bytes;
  ls_finalized : gmap bytes (Z * bytes);
  ls_rejected : gmap bytes CanonicalRejection;
  ls_nullifiers : gmap bytes bytes;
  ls_monetary : MonetaryLedger;
  ls_shielded : ShieldedLedger;
  ls_balances : gmap bytes Z;
  ls_allocated_circulating : Amount;
  ls_unallocated_circulating : Amount;
}.
#[global] Instance LedgerState_view : LedgerView LedgerState := {
  finalized_sequence := fun s payer => option_map fst (ls_finalized s !! payer);
  finalized_claim_digest := fun s payer sequence =>
    match ls_finalized s !! payer with
    | Some (n, d) => if n =? sequence then Some d else None
    | None => None
    end;
  rejected_claim := fun s d => ls_rejected s !! d;
  current_height := fun _ => default_current_height;
  is_recognized_anchor := fun _ _ _ => default_is_recognized_anchor;
}.

Definition with_network_and_genesis_supply (network_id : bytes) (g : Amount) : LedgerState :=
  mkLedgerState network_id ∅ ∅ ∅ (MonetaryLedger_new g) ShieldedLedger_default ∅ 0 g.
Definition with_genesis_supply (g : Amount) : LedgerState := with_network_and_genesis_supply MININET_NETWORK_ID g.
Definition LedgerState_new : LedgerState := with_genesis_supply 0.

Definition balance (s : LedgerState) (account : bytes) : Amount := default 0 (ls_balances s !! account).
Definition finalized_nullifier (s : LedgerState) (key_image : bytes) : option bytes := ls_nullifiers s !! key_image.

Definition rejection_tag (r : CanonicalRejection) : Z :=
  match r with
  | WrongNetwork => 0 | UnsupportedPayee => 1 | StaleSequence => 2 | InsufficientFunds => 3 | UnrecognizedAnchor => 4
  end.
Definition finalized_bytes (e : bytes * (Z * bytes)) : bytes := w_bytes e.1 ++ w_u64 e.2.1 ++ e.2.2.
Definition rejected_bytes (e : bytes * CanonicalRejection) : bytes := e.1 ++ w_u8 (rejection_tag e.2).
Definition nullifier_bytes (e : bytes * bytes) : bytes := w_bytes e.1 ++ e.2.
Definition balance_bytes (e : bytes * Z) : bytes := w_bytes e.1 ++ put_amount e.2.
Definition map_bytes {A} (enc : bytes * A -> bytes) (m : gmap bytes A) : bytes :=
  w_u64 (Z.of_nat (size m)) ++ concat (map enc (btree_entries m)).

Section State.
Context {P : Primitives}.

Definition body_preimage (b : SettlementBlockBody) : bytes :=
  lit "mini-execution/settlement-block-body/v3" ++
  count_u64 (bd_claims b) ++ concat (map claim_digest (bd_claims b)) ++
  count_u64 (bd_nullifiers b) ++ concat (map nr_canonical_bytes (bd_nullifiers b)) ++
  count_u64 (bd_monetary_epochs b) ++ concat (map epoch_bytes (bd_monetary_epochs b)).
Definition body_hash (b : SettlementBlockBody) : bytes := digest Blake3 (body_preimage b).

Definition state_preimage (s : LedgerState) : bytes :=
  lit "mini-execution/ledger-state/v5" ++ ls_network_id s ++
  map_bytes finalized_bytes (ls_finalized s) ++ map_bytes rejected_bytes (ls_rejected s) ++
  map_bytes nullifier_bytes (ls_nullifiers s) ++ shielded_to_bytes (ls_shielded s) ++
  Multihash_to_bytes (MonetaryLedger_commitment (ls_monetary s)) ++ map_bytes balance_bytes (ls_balances s) ++
  put_amount (ls_allocated_circulating s) ++ put_amount (ls_unallocated_circulating s).
Definition commitment (s : LedgerState) : bytes := digest Blake3 (state_preimage s).

Definition verify_supply_conservation (s : LedgerState) : result ExecutionError unit :=
  accounted ← map_err (fun _ => AmountOverflow)
    (v ← amount_add (ls_allocated_circulating s) (ls_unallocated_circulating s);
     amount_add v (sl_pool_micro (ls_shielded s)));
  circulating ← map_err InvalidMonetaryEpoch (circulating_supply (ls_monetary s));
  fail_if (negb (accounted =? circulating)) SupplyConservationViolation.

Definition verify_balance_map_total (s : LedgerState) : result ExecutionError unit :=
  recomputed ← foldM (fun acc e => map_err (fun _ => AmountOverflow) (amount_add acc (snd e))) 0
    (btree_entries (ls_balances s));
  fail_if (negb (recomputed =? ls_allocated_circulating s)) SupplyConservationViolation.

Definition is_supported_account (account : bytes) : bool :=
  negb (bool_decide (account = [])) && (Z.of_nat (length account) <=? MAX_ACCOUNT_BYTES) &&
  is_ok (VerifyingKey_from_suite_bytes DEFAULT_SUITE account).

Definition genesis_allocate (s : gmap bytes Z * Amount) (a : bytes * Amount) :
    result ExecutionError (gmap bytes Z * Amount) :=
  _ ← fail_if (negb (is_supported_account a.1) || (a.2 =? 0) || bool_decide (is_Some (fst s !! a.1)))
        InvalidGenesisAllocation;
  allocated ← map_err (fun _ => AmountOverflow) (amount_add (snd s) a.2);
  Ok (<[a.1 := a.2]> (fst s), allocated).
Definition with_network_and_genesis_balances (network_id : bytes) (g : Amount) (allocations : list (bytes * Amount)) :
    result ExecutionError LedgerState :=
  '(balances, allocated) ← foldM genesis_allocate (∅, 0) allocations;
  _ ← fail_if (negb (allocated =? g)) InvalidGenesisAllocation;
  Ok (mkLedgerState network_id ∅ ∅ ∅ (MonetaryLedger_new g) ShieldedLedger_default balances allocated 0).
Definition with_genesis_balances (g : Amount) (allocations : list (bytes * Amount)) : result ExecutionError LedgerState :=
  with_network_and_genesis_balances MININET_NETWORK_ID g allocations.

Definition with_shielded_genesis (network_id : bytes) (allocations : list ShieldedGenesisAllocation)
    (verifier : ClaimVerifier) : result ExecutionError LedgerState :=
  shielded ← shielded_genesis network_id allocations verifier;
  let s := with_network_and_genesis_supply network_id (sl_pool_micro shielded) in
  let s := mkLedgerState (ls_network_id s) (ls_finalized s) (ls_rejected s) (ls_nullifiers s) (ls_monetary s)
             shielded (ls_balances s) (ls_allocated_circulating s) 0 in
  _ ← verify_supply_conservation s;
  Ok s.

Definition verify_shielded_claims (s : LedgerState) (verifier : option ClaimVerifier) : result ExecutionError unit :=
  verify_replay (ls_shielded s) (ls_network_id s) (ls_nullifiers s) verifier.

(** [state.rejected.insert(digest, reason)]. *)
Definition reject (s : LedgerState) (d : bytes) (r : CanonicalRejection) : LedgerState :=
  mkLedgerState (ls_network_id s) (ls_finalized s) (<[d := r]> (ls_rejected s)) (ls_nullifiers s) (ls_monetary s)
    (ls_shielded s) (ls_balances s) (ls_allocated_circulating s) (ls_unallocated_circulating s).
Definition with_balances (s : LedgerState) (b : gmap bytes Z) : LedgerState :=
  mkLedgerState (ls_network_id s) (ls_finalized s) (ls_rejected s) (ls_nullifiers s) (ls_monetary s)
    (ls_shielded s) b (ls_allocated_circulating s) (ls_unallocated_circulating s).
(** The last two statements of [apply_one_claim]. *)
Definition finalize (s : LedgerState) (payer : bytes) (sequence : Z) (d : bytes) : LedgerState :=
  mkLedgerState (ls_network_id s) (<[payer := (sequence, d)]> (ls_finalized s)) (delete d (ls_rejected s))
    (ls_nullifiers s) (ls_monetary s) (ls_shielded s) (ls_balances s) (ls_allocated_circulating s)
    (ls_unallocated_circulating s).

Definition transfer (s : LedgerState) (payer payee : bytes) (amount : Amount) : result ExecutionError LedgerState :=
  if bool_decide (payer = payee) then Ok s else
  let payer_balance := balance s payer in
  let payee_balance := balance s payee in
  debited ← map_err (fun _ => SupplyConservationViolation) (amount_sub payer_balance amount);
  credited ← map_err (fun _ => AmountOverflow) (amount_add payee_balance amount);
  let b := if debited =? 0 then delete payer (ls_balances s) else <[payer := debited]> (ls_balances s) in
  Ok (with_balances s (<[payee := credited]> b)).

Definition apply_one_claim (s : LedgerState) (claim : PaymentClaim) : result ExecutionError LedgerState :=
  if negb (is_ok (verify_claim_signature claim)) then Ok s else
  let d := claim_digest claim in
  if negb (bool_decide (pc_network_id claim = ls_network_id s)) then Ok (reject s d WrongNetwork) else
  if negb (is_supported_account (pc_payee claim)) then Ok (reject s d UnsupportedPayee) else
  let wins := match finalized_sequence s (pc_payer claim) with
              | None => true
              | Some existing_sequence => existing_sequence <? pc_sequence claim
              end in
  if negb wins then Ok (reject s d StaleSequence) else
  if balance s (pc_payer claim) <? pc_amount_micro claim then Ok (reject s d InsufficientFunds) else
  s ← transfer s (pc_payer claim) (pc_payee claim) (pc_amount_micro claim);
  Ok (finalize s (pc_payer claim) (pc_sequence claim) d).

(** The grouping loop of [apply_nullifiers]: the digests in first-seen order
    and the records of each. *)
Definition group_record (acc : list bytes * gmap bytes (list NullifierRecord)) (r : NullifierRecord) :
    result ExecutionError (list bytes * gmap bytes (list NullifierRecord)) :=
  _ ← fail_if (negb (is_well_formed r)) InvalidShieldedClaim;
  let d := nr_claim_digest r in
  match snd acc !! d with
  | Some g => Ok (fst acc, <[d := g ++ [r]]> (snd acc))
  | None => Ok (fst acc ++ [d], <[d := [r]]> (snd acc))
  end.

Definition apply_group (verifier : ClaimVerifier) (groups : gmap bytes (list NullifierRecord)) (s : LedgerState)
    (d : bytes) : result ExecutionError LedgerState :=
  match groups !! d with
  | None => Ok s
  | Some group =>
      effects ← ok_or (verify_claim verifier (ls_network_id s) d group) InvalidShieldedClaim;
      let takeable := forallb (fun r => match ls_nullifiers s !! nr_key_image r with
                                        | None => true
                                        | Some held => bool_decide (held = d)
                                        end) group in
      if negb takeable then Ok s else
      '(fee, shielded) ← shielded_apply (ls_shielded s) d effects;
      unallocated ← map_err (fun _ => AmountOverflow) (amount_add (ls_unallocated_circulating s) fee);
      Ok (mkLedgerState (ls_network_id s) (ls_finalized s) (ls_rejected s)
            (fold_left (fun m r => <[nr_key_image r := d]> m) group (ls_nullifiers s))
            (ls_monetary s) shielded (ls_balances s) (ls_allocated_circulating s) unallocated)
  end.

Definition apply_nullifiers (s : LedgerState) (records : list NullifierRecord) (claim_verifier : option ClaimVerifier) :
    result ExecutionError LedgerState :=
  if bool_decide (records = []) then Ok s else
  verifier ← ok_or claim_verifier MissingClaimVerifier;
  '(order, groups) ← foldM group_record ([], ∅) records;
  foldM (apply_group verifier groups) s order.

(** The monetary epoch of a body, if there is one. *)
Definition apply_monetary (s : LedgerState) (epochs : list ScalableEpochPlan) : result ExecutionError LedgerState :=
  match epochs with
  | [] => Ok s
  | epoch :: _ =>
      _ ← map_err InvalidMonetaryEpoch (plan_to_wire_bytes epoch);
      before ← map_err InvalidMonetaryEpoch (circulating_supply (ls_monetary s));
      monetary ← map_err InvalidMonetaryEpoch (apply_epoch (ls_monetary s) epoch d0074);
      after ← map_err InvalidMonetaryEpoch (circulating_supply monetary);
      newly_circulating ← map_err (fun _ => SupplyConservationViolation) (amount_sub after before);
      unallocated ← map_err (fun _ => AmountOverflow) (amount_add (ls_unallocated_circulating s) newly_circulating);
      Ok (mkLedgerState (ls_network_id s) (ls_finalized s) (ls_rejected s) (ls_nullifiers s) monetary
            (ls_shielded s) (ls_balances s) (ls_allocated_circulating s) unallocated)
  end.

Definition apply_block_with_verifier (prev : LedgerState) (body : SettlementBlockBody)
    (claim_verifier : option ClaimVerifier) : result ExecutionError LedgerState :=
  _ ← fail_if (MAX_CLAIMS_PER_BLOCK <? Z.of_nat (length (bd_claims body))) TooManyClaims;
  _ ← fail_if (MAX_MONETARY_EPOCHS_PER_BLOCK <? Z.of_nat (length (bd_monetary_epochs body))) TooManyMonetaryEpochs;
  _ ← fail_if (MAX_NULLIFIERS_PER_BLOCK <? Z.of_nat (length (bd_nullifiers body))) TooManyNullifiers;
  _ ← fail_if (negb (bool_decide (bd_nullifiers body = [])) && match claim_verifier with None => true | _ => false end)
        MissingClaimVerifier;
  next ← foldM apply_one_claim prev (bd_claims body);
  next ← apply_nullifiers next (bd_nullifiers body) claim_verifier;
  next ← apply_monetary next (bd_monetary_epochs body);
  _ ← verify_supply_conservation next;
  Ok next.
Definition apply_block (prev : LedgerState) (body : SettlementBlockBody) : result ExecutionError LedgerState :=
  apply_block_with_verifier prev body None.

(** ** [chain.rs] *)
Record LedgerChain := mkLedgerChain { lc_height : Z; lc_tip_hash : bytes; lc_state : LedgerState }.

Definition zero_hash : bytes := replicate 32 0.
Definition genesis_for_network (network_id : bytes) (g : Amount) : LedgerChain :=
  mkLedgerChain 0 zero_hash (with_network_and_genesis_supply network_id g).
Definition genesis_with_network_balances (network_id : bytes) (g : Amount) (allocations : list (bytes * Amount)) :
    result ExecutionError LedgerChain :=
  s ← with_network_and_genesis_balances network_id g allocations;
  Ok (mkLedgerChain 0 zero_hash s).
Definition genesis_with_shielded_allocations (network_id : bytes) (allocations : list ShieldedGenesisAllocation)
    (verifier : ClaimVerifier) : result ExecutionError LedgerChain :=
  s ← with_shielded_genesis network_id allocations verifier;
  Ok (mkLedgerChain 0 zero_hash s).

Definition from_finalized_snapshot_with_verifier (header : BlockHeader) (s : LedgerState) (qc : QuorumCertificate)
    (validators : ValidatorSet) (oracle : ValidatorOracle) (expected_network_id expected_shielded_genesis : bytes)
    (claim_verifier : option ClaimVerifier) : result ExecutionError LedgerChain :=
  _ ← fail_if (negb (bool_decide (ls_network_id s = expected_network_id))) SnapshotWrongNetwork;
  _ ← fail_if (negb (bool_decide (genesis_commitment (ls_shielded s) = expected_shielded_genesis)))
        ShieldedGenesisMismatch;
  _ ← verify_shielded_claims s claim_verifier;
  _ ← verify_supply_conservation s;
  _ ← verify_balance_map_total s;
  _ ← map_err NotFinalized (verify_finality qc validators oracle);
  _ ← fail_if ((bh_height header =? 0) || negb (bh_timestamp_ms header =? bh_height header) ||
        negb (qc_height qc =? bh_height header) || negb (bool_decide (qc_block_hash qc = header_hash header)))
        SnapshotProofMismatch;
  _ ← fail_if (negb (bool_decide (bh_state_root header = commitment s))) StateRootMismatch;
  Ok (mkLedgerChain (bh_height header) (header_hash header) s).
Definition from_finalized_snapshot (header : BlockHeader) (s : LedgerState) (qc : QuorumCertificate)
    (validators : ValidatorSet) (oracle : ValidatorOracle) (expected_network_id : bytes) :
    result ExecutionError LedgerChain :=
  from_finalized_snapshot_with_verifier header s qc validators oracle expected_network_id
    (genesis_commitment (ls_shielded LedgerState_new)) None.

(** The state's commitment and the advanced chain; on an error the chain is
    what it was. *)
Definition apply_finalized_block_with_verifier (c : LedgerChain) (header : BlockHeader) (body : SettlementBlockBody)
    (qc : QuorumCertificate) (validators : ValidatorSet) (oracle : ValidatorOracle)
    (claim_verifier : option ClaimVerifier) : result ExecutionError (bytes * LedgerChain) :=
  _ ← fail_if (MAX_CLAIMS_PER_BLOCK <? Z.of_nat (length (bd_claims body))) TooManyClaims;
  _ ← fail_if (MAX_MONETARY_EPOCHS_PER_BLOCK <? Z.of_nat (length (bd_monetary_epochs body))) TooManyMonetaryEpochs;
  _ ← foldM (fun _ e => map_err InvalidMonetaryEpoch (_ ← plan_to_wire_bytes e; Ok tt)) tt (bd_monetary_epochs body);
  _ ← fail_if (negb (bool_decide (bh_body_root header = body_hash body))) BodyRootMismatch;
  _ ← map_err NotFinalized (verify_finality qc validators oracle);
  let expected_height := wrapping_add 64 (lc_height c) 1 in
  _ ← fail_if (negb (bh_height header =? expected_height)) (WrongHeight expected_height (bh_height header));
  _ ← fail_if (negb (bool_decide (bh_prev_hash header = lc_tip_hash c))) WrongParent;
  _ ← fail_if (negb (bh_timestamp_ms header =? expected_height))
        (TimestampNotDeterministic expected_height (bh_timestamp_ms header));
  _ ← fail_if (negb (qc_height qc =? bh_height header) || negb (bool_decide (qc_block_hash qc = header_hash header)))
        (NotFinalized (QuorumNotMet (quorum_threshold validators) 0));
  next_state ← apply_block_with_verifier (lc_state c) body claim_verifier;
  let root := commitment next_state in
  _ ← fail_if (negb (bool_decide (bh_state_root header = root))) StateRootMismatch;
  Ok (root, mkLedgerChain (bh_height header) (header_hash header) next_state).
Definition apply_finalized_block (c : LedgerChain) (header : BlockHeader) (body : SettlementBlockBody)
    (qc : QuorumCertificate) (validators : ValidatorSet) (oracle : ValidatorOracle) :
    result ExecutionError (bytes * LedgerChain) :=
  apply_finalized_block_with_verifier c header body qc validators oracle None.

End State.
