(* ===== verification/StatePins.v ===== *)
(** * StatePins: what the hashes of a block pin

    The preimages of the body hash and of the state commitment split back
    into their parts ([Delimited]).  So the body root of a header pins the
    terms of every claim, every record and every epoch, and the tip of a
    chain pins its whole ledger state, each up to a BLAKE3 collision. *)

From Stdlib Require Import ZArith Lia.
From stdpp Require Import base list gmap sets strings sorting.
From S2P Require Import Prelude Codec Crypto Identity Kel Chain ChainTheorems Economy EconomyTheorems EconomyWire.
From S2P Require Import Settlement SettlementTheorems Shielded Execution.
Open Scope Z_scope.

(** ** Encodings of the parts *)
Lemma delimited_map {A} (Q : bytes * A -> Prop) (enc : bytes * A -> bytes) (count : Z -> bytes) (C : Z -> Prop)
    `{!Delimited Q enc, !Delimited C count} (m m' : gmap bytes A) r r' :
  C (Z.of_nat (size m)) -> C (Z.of_nat (size m')) -> (forall k v, m !! k = Some v -> Q (k, v)) ->
  (forall k v, m' !! k = Some v -> Q (k, v)) ->
  (count (Z.of_nat (size m)) ++ concat (map enc (btree_entries m))) ++ r =
  (count (Z.of_nat (size m')) ++ concat (map enc (btree_entries m'))) ++ r' -> m = m' /\ r = r'.
Proof.
  intros Hc Hc' Hq Hq' H. rewrite <- !app_assoc in H. apply delimited in H as [E H]; [|done..].
  eapply delimited_concat in H as [H ->]; [|done|..].
  - split; [by apply btree_entries_inj|done].
  - apply Forall_forall. intros [k v] Hk. by apply Hq, elem_of_btree_entries.
  - apply Forall_forall. intros [k v] Hk. by apply Hq', elem_of_btree_entries.
  - rewrite !length_btree_entries. lia.
Qed.

Definition u32_len (b : bytes) : Prop := Z.of_nat (length b) <= U32_MAX.

#[global] Instance delimited_finalized :
  Delimited (fun e => u32_len e.1 /\ is_u64 e.2.1 /\ length e.2.2 = 32%nat) finalized_bytes.
Proof.
  intros [k [n d]] [k' [n' d']] r r' (H1 & H2 & H3) (H1' & H2' & H3') H. unfold finalized_bytes, u32_len in *. cbn [fst snd] in *.
  rewrite <- !app_assoc in H. peel H. by subst.
Qed.
#[global] Instance delimited_rejected : Delimited (fun e => length e.1 = 32%nat) rejected_bytes.
Proof.
  intros [k v] [k' v'] r r' H1 H1' H. unfold rejected_bytes in *. cbn [fst snd] in *. rewrite <- !app_assoc in H.
  peel H. subst. by destruct v, v'.
Qed.
#[global] Instance delimited_nullifier : Delimited (fun e => u32_len e.1 /\ length e.2 = 32%nat) nullifier_bytes.
Proof.
  intros [k v] [k' v'] r r' [H1 H2] [H1' H2'] H. unfold nullifier_bytes, u32_len in *. cbn [fst snd] in *.
  rewrite <- !app_assoc in H. peel H. by subst.
Qed.
#[global] Instance delimited_balance : Delimited (fun e => u32_len e.1 /\ is_u128 e.2) balance_bytes.
Proof.
  intros [k v] [k' v'] r r' [H1 H2] [H1' H2'] H. unfold balance_bytes, put_amount, u32_len in *. cbn [fst snd] in *.
  rewrite <- !app_assoc in H. peel H. by subst.
Qed.
#[global] Instance delimited_pair : Delimited (fun e => length e.1 = 32%nat /\ length e.2 = 32%nat) pair_bytes.
Proof.
  intros [k v] [k' v'] r r' [H1 H2] [H1' H2'] H. unfold pair_bytes in *. cbn [fst snd] in *.
  rewrite <- !app_assoc in H. peel H. by subst.
Qed.

Definition output_typed (o : ShieldedOutput) : Prop :=
  length (so_public_key o) = 32%nat /\ length (so_amount_commitment o) = 32%nat.
#[global] Instance delimited_allocation :
  Delimited (fun a => output_typed (ga_output a) /\ is_u64 (ga_amount_micro a)) allocation_bytes.
Proof.
  intros [[k v] n] [[k' v'] n'] r r' [[H1 H2] H3] [[H1' H2'] H3'] H. unfold allocation_bytes in *. cbn in *.
  rewrite <- !app_assoc in H. peel H. by subst.
Qed.

Definition record_typed (r : NullifierRecord) : Prop := u32_len (nr_key_image r) /\ length (nr_claim_digest r) = 32%nat.
#[global] Instance delimited_record : Delimited record_typed nr_canonical_bytes.
Proof.
  intros [k v] [k' v'] r r' [H1 H2] [H1' H2'] H. unfold nr_canonical_bytes, u32_len in *. cbn in *.
  rewrite <- !app_assoc in H. peel H. by subst.
Qed.

Definition subject_typed (s : VestingSubject) : Prop :=
  match s with
  | SnapshotSubject s => length (hs_root s) = 32%nat /\ is_u64 (hs_eligible_count s)
  | Beneficiary b => is_u64 (Z.of_nat (length b))
  end.
#[global] Instance delimited_subject : Delimited subject_typed put_subject.
Proof.
  intros [[k n]|b] [[k' n']|b'] r r' H H' E; cbn in *; rewrite <- ?app_assoc in E; peel E; try done.
  - by subst.
  - by subst.
Qed.
Lemma channel_tag_inj c c' : channel_tag c = channel_tag c' -> c = c'.
Proof. by destruct c, c'. Qed.

Definition position_wire_typed (p : VestingPosition) : Prop :=
  is_u64 (vp_epoch p) /\ subject_typed (vp_subject p) /\ is_u128 (vp_amount p) /\
  is_u128 (vp_starts_at_policy_ms p) /\ is_u64 (vp_duration_ms p).
#[global] Instance delimited_position : Delimited position_wire_typed put_position.
Proof.
  intros [e s c a st d] [e' s' c' a' st' d'] r r' (H1 & H2 & H3 & H4 & H5) (H1' & H2' & H3' & H4' & H5') E.
  unfold put_position, put_amount in *.
  cbn [vp_epoch vp_subject vp_channel vp_amount vp_starts_at_policy_ms vp_duration_ms] in *.
  rewrite <- !app_assoc in E. apply delimited_u64 in E as [-> E]; [|done..].
  apply delimited_subject in E as [-> E]; [|done..]. peel E. apply channel_tag_inj in E0. by subst.
Qed.

Record monetary_typed (l : MonetaryLedger) : Prop := {
  mt_genesis : is_u128 (genesis_circulating l);
  mt_issued : is_u128 (total_issued l);
  mt_time : is_u128 (policy_time_ms l);
  mt_epoch e : last_epoch l = Some e -> is_u64 e;
  mt_count : is_u64 (Z.of_nat (length (positions_of l)));
  mt_positions : Forall position_wire_typed (positions_of l);
}.
Lemma ledger_preimage_inj l l' : monetary_typed l -> monetary_typed l' -> ledger_preimage l = ledger_preimage l' -> l = l'.
Proof.
  intros [H1 H2 H3 H4 H5 H6] [G1 G2 G3 G4 G5 G6] E. unfold ledger_preimage, put_amount in E. peel E.
  assert (last_epoch l = last_epoch l' /\
    w_u64 (Z.of_nat (length (positions_of l))) ++ concat (map put_position (positions_of l)) =
    w_u64 (Z.of_nat (length (positions_of l'))) ++ concat (map put_position (positions_of l'))) as [El E'].
  { destruct (last_epoch l) as [e|], (last_epoch l') as [e'|]; rewrite <- ?app_assoc in E; peel_step E; try done.
    specialize (H4 e eq_refl). specialize (G4 e' eq_refl). peel_step E. by subst. }
  clear E. peel E'. rewrite <- (app_nil_r (concat _)), <- (app_nil_r (concat (map put_position (positions_of l')))) in E'.
  apply (delimited_concat position_wire_typed put_position) in E' as [E' _]; [|done|done|lia].
  destruct l, l'. cbn in *. by subst.
Qed.

(** ** The shielded ledger *)
Record shielded_typed (l : ShieldedLedger) : Prop := {
  sh_genesis : Forall (fun a => output_typed (ga_output a) /\ is_u64 (ga_amount_micro a)) (sl_genesis l);
  sh_outputs k v : sl_outputs l !! k = Some v -> length k = 32%nat /\ length v = 32%nat;
  sh_applied : Forall (fun d => length d = 32%nat) (sl_applied l);
  sh_pool : is_u128 (sl_pool_micro l);
  sh_counts : is_u32 (Z.of_nat (length (sl_genesis l))) /\ is_u32 (Z.of_nat (size (sl_outputs l))) /\
    is_u32 (Z.of_nat (length (sl_applied l)));
}.
#[global] Instance delimited_shielded : Delimited shielded_typed shielded_to_bytes.
Proof.
  intros l l' r r' [H1 H2 H3 H4 (H5 & H6 & H7)] [G1 G2 G3 G4 (G5 & G6 & G7)] E. unfold shielded_to_bytes in E.
  rewrite <- !app_assoc in E. apply app_inv_head in E. apply delimited_u32 in E as [E1 E]; [|done..].
  apply (delimited_concat _ allocation_bytes) in E as [Eg E]; [|done|done|lia].
  rewrite (app_assoc (w_u32 (Z.of_nat (size (sl_outputs l))))), (app_assoc (w_u32 (Z.of_nat (size (sl_outputs l'))))) in E.
  apply (delimited_map (fun e => length e.1 = 32%nat /\ length e.2 = 32%nat) pair_bytes w_u32 is_u32) in E as [Eo E];
    [|done|done|exact H2|exact G2].
  apply delimited_u32 in E as [E3 E]; [|done..]. rewrite <- (map_id (sl_applied l)), <- (map_id (sl_applied l')) in E.
  apply (delimited_concat _ (fun d : bytes => d)) in E as [Ea E]; [|done|done|lia].
  apply delimited_u128 in E as [Ep ->]; [|done..]. destruct l, l'. cbn in *. by subst.
Qed.

(** ** The state *)
Record state_typed (s : LedgerState) : Prop := {
  st_network : length (ls_network_id s) = 32%nat;
  st_finalized k v : ls_finalized s !! k = Some v -> u32_len k /\ is_u64 v.1 /\ length v.2 = 32%nat;
  st_rejected k v : ls_rejected s !! k = Some v -> length k = 32%nat;
  st_nullifiers k v : ls_nullifiers s !! k = Some v -> u32_len k /\ length v = 32%nat;
  st_balances k v : ls_balances s !! k = Some v -> u32_len k /\ is_u128 v;
  st_sizes : is_u64 (Z.of_nat (size (ls_finalized s))) /\ is_u64 (Z.of_nat (size (ls_rejected s))) /\
    is_u64 (Z.of_nat (size (ls_nullifiers s))) /\ is_u64 (Z.of_nat (size (ls_balances s)));
  st_monetary : monetary_typed (ls_monetary s);
  st_shielded : shielded_typed (ls_shielded s);
  st_totals : is_u128 (ls_allocated_circulating s) /\ is_u128 (ls_unallocated_circulating s);
}.

Section StatePins.
Context {P : Primitives} {L : PrimitivesLaws}.

Lemma monetary_commitment_pins l l' r r' : monetary_typed l -> monetary_typed l' ->
  Multihash_to_bytes (MonetaryLedger_commitment l) ++ r = Multihash_to_bytes (MonetaryLedger_commitment l') ++ r' ->
  (l = l' \/ blake3_collision) /\ r = r'.
Proof.
  intros H H' E. unfold MonetaryLedger_commitment, Multihash_of, Multihash_to_bytes in E. cbn [mh_algorithm mh_digest] in E.
  rewrite <- !app_assoc in E. unfold digest in E. rewrite !blake3_length in E. do 2 apply app_inv_head in E.
  apply app_inj_1 in E as [E ->]; [|by rewrite !blake3_length]. split; [|done].
  unhash E. by apply ledger_preimage_inj.
Qed.

Lemma state_preimage_pins s s' : state_typed s -> state_typed s' -> state_preimage s = state_preimage s' ->
  s = s' \/ blake3_collision.
Proof.
  intros [H1 H2 H3 H4 H5 (N1 & N2 & N3 & N4) H6 H7 [H8 H9]] [G1 G2 G3 G4 G5 (M1 & M2 & M3 & M4) G6 G7 [G8 G9]] E.
  unfold state_preimage, map_bytes in E. apply app_inv_head in E. apply app_inj_1 in E as [En E]; [|congruence].
  apply (delimited_map _ finalized_bytes w_u64 is_u64) in E as [Ef E]; [|done|done|exact H2|exact G2].
  apply (delimited_map _ rejected_bytes w_u64 is_u64) in E as [Er E]; [|done|done|exact H3|exact G3].
  apply (delimited_map _ nullifier_bytes w_u64 is_u64) in E as [Eu E]; [|done|done|exact H4|exact G4].
  apply delimited_shielded in E as [Es E]; [|done..]. apply monetary_commitment_pins in E as [[Em|Hc] E]; [|by right|done..].
  left. apply (delimited_map _ balance_bytes w_u64 is_u64) in E as [Eb E]; [|done|done|exact H5|exact G5].
  unfold put_amount in E. apply delimited_u128 in E as [Ea E]; [|done..].
  apply (delimited_end is_u128 (to_be_bytes 16) (Delimited0 := delimited_u128)) in E; [|done..].
  destruct s, s'. cbn in *. by subst.
Qed.
End StatePins.

(** ** The body *)
Lemma parses_inj {E A} (p : parser E A) b a a' : parses p b a -> parses p b a' -> a = a'.
Proof. intros H H'. specialize (H [] []). rewrite (H' [] []) in H. by injection H. Qed.

Definition epoch_wire_typed (e : ScalableEpochPlan) : Prop :=
  plan_wire_typed e /\ is_ok (plan_to_wire_bytes e) = true.
#[global] Instance delimited_epoch : Delimited epoch_wire_typed epoch_bytes.
Proof.
  intros e e' r r' [T H] [T' H'] E. apply is_ok_true in H as [b H], H' as [b' H'].
  apply plan_to_wire_ok in H as (-> & Hn & Hl & Hg), H' as (-> & Hn' & Hl' & Hg').
  unfold epoch_bytes in E. cbv zeta in E. rewrite <- !app_assoc in E. unfold MAX_SCALABLE_EPOCH_PLAN_BYTES in *.
  assert (is_u64 (Z.of_nat (length (plan_canonical_bytes e))) /\ is_u64 (Z.of_nat (length (plan_canonical_bytes e'))))
    as [U U'] by (unfold is_u64, U64_MAX; lia).
  apply delimited_u64 in E as [El E]; [|done..]. apply app_inj_1 in E as [E ->]; [|lia]. split; [|done].
  apply (parses_inj read_plan (plan_canonical_bytes e)); [by apply parses_plan|]. rewrite E. by apply parses_plan.
Qed.

(** What a body hash covers of a body: everything but the signatures. *)
Definition content (b : SettlementBlockBody) :=
  (map terms (bd_claims b), bd_nullifiers b, bd_monetary_epochs b).

Record body_wire_typed (b : SettlementBlockBody) : Prop := {
  bw_claims : Forall claim_typed (bd_claims b);
  bw_records : Forall record_typed (bd_nullifiers b);
  bw_epochs : Forall epoch_wire_typed (bd_monetary_epochs b);
  bw_counts : is_u64 (Z.of_nat (length (bd_claims b))) /\ is_u64 (Z.of_nat (length (bd_nullifiers b))) /\
    is_u64 (Z.of_nat (length (bd_monetary_epochs b)));
}.

Section BodyPins.
Context {P : Primitives} {L : PrimitivesLaws}.

Lemma claim_digest_length c : length (claim_digest c) = 32%nat.
Proof. apply blake3_length. Qed.

Lemma digests_inj cs cs' : Forall claim_typed cs -> Forall claim_typed cs' ->
  map claim_digest cs = map claim_digest cs' -> map terms cs = map terms cs' \/ blake3_collision.
Proof.
  intros H. revert cs'. induction H as [|c cs Hc _ IH]; intros [|c' cs'] H' E; try done; [by left|].
  apply Forall_cons in H' as [Hc' H']. injection E as E1 E2.
  destruct (IH cs' H' E2) as [Et|?]; [|by right].
  destruct (claim_digest_inj c c' Hc Hc' E1) as [Ec|?]; [left; cbn [map]; congruence|by right].
Qed.

Lemma message_of_terms c c' : terms c = terms c' -> message_of c = message_of c'.
Proof. unfold terms, message_of. by intros [= -> -> -> -> -> -> ->]. Qed.
Lemma digests_of_terms cs cs' : map terms cs = map terms cs' -> map claim_digest cs = map claim_digest cs'.
Proof.
  revert cs'. induction cs as [|c cs IH]; intros [|c' cs'] E; try done. cbn [map] in *. apply (inj2 cons) in E as [E1 E2].
  f_equal; [|by apply IH]. unfold claim_digest. f_equal. by apply message_of_terms.
Qed.

Lemma body_preimage_pins b b' : body_wire_typed b -> body_wire_typed b' -> body_preimage b = body_preimage b' ->
  content b = content b' \/ blake3_collision.
Proof.
  intros [H1 H2 H3 (N1 & N2 & N3)] [G1 G2 G3 (M1 & M2 & M3)] E. unfold body_preimage, count_u64 in E.
  apply app_inv_head in E. apply delimited_u64 in E as [E1 E]; [|done..].
  rewrite <- (map_id (map claim_digest (bd_claims b))), <- (map_id (map claim_digest (bd_claims b'))) in E.
  apply (delimited_concat _ (fun d : bytes => d) (Delimited0 := delimited_fixed 32)) in E as [Ec E];
    [|apply Forall_map, Forall_forall; intros; apply claim_digest_length..|rewrite !length_map; lia].
  apply delimited_u64 in E as [E2 E]; [|done..].
  apply (delimited_concat _ nr_canonical_bytes) in E as [En E]; [|done|done|lia].
  apply delimited_u64 in E as [E3 E]; [|done..].
  rewrite <- (app_nil_r (concat _)), <- (app_nil_r (concat (map epoch_bytes (bd_monetary_epochs b')))) in E.
  apply (delimited_concat _ epoch_bytes) in E as [Ee _]; [|done|done|lia].
  unfold content. destruct (digests_inj _ _ H1 G1 Ec) as [Et|?]; [left|by right]. congruence.
Qed.

(** The body root pins the content of a body and nothing more: bodies
    with one hash have the same claims' terms, the same spend records and the
    same epochs in the same order, short of a BLAKE3 collision; and bodies
    that differ only in their claims' signatures have one hash. *)
Theorem body_hash_pins_content b b' : body_wire_typed b -> body_wire_typed b' ->
  (body_hash b = body_hash b' -> content b = content b' \/ blake3_collision) /\
  (content b = content b' -> body_hash b = body_hash b').
Proof.
  intros H H'. split.
  - intros E. destruct (decide (body_preimage b = body_preimage b')) as [Ep|Hne]; [by apply body_preimage_pins|].
    right. by exists (body_preimage b), (body_preimage b').
  - unfold content. intros [= Et En Ee]. unfold body_hash, body_preimage, count_u64. rewrite En, Ee.
    rewrite (digests_of_terms _ _ Et). do 4 f_equal. by rewrite <- (length_map terms), Et, length_map.
Qed.
End BodyPins.
