(* ===== verification/ExecutionFacts.v ===== *)
(** * ExecutionFacts: what one claim, one group and one epoch do to the books

    [claim_wins] collects the guards of [apply_one_claim]; [books] is the
    accounting invariant of a ledger state.  Every step of a block preserves
    it, and the effect of a list of claims is the sum of the transfers of the
    claims that won. *)

From Stdlib Require Import ZArith Lia.
From stdpp Require Import base list gmap sets strings sorting.
From S2P Require Import Prelude Codec Crypto Chain Economy EconomyTheorems Settlement SettlementTheorems.
From S2P Require Import Shielded Execution.
Open Scope Z_scope.

Section ExecutionFacts.
Context {P : Primitives}.

(** ** One claim *)
Definition above_mark (s : LedgerState) (c : PaymentClaim) : bool :=
  match finalized_sequence s (pc_payer c) with None => true | Some m => m <? pc_sequence c end.
(** All the guards of [apply_one_claim]. *)
Definition claim_wins (s : LedgerState) (c : PaymentClaim) : bool :=
  is_ok (verify_claim_signature c) && bool_decide (pc_network_id c = ls_network_id s) &&
  is_supported_account (pc_payee c) && above_mark s c && negb (balance s (pc_payer c) <? pc_amount_micro c).

(** The balances after a transfer that is covered. *)
Definition moved (m : gmap bytes Z) (payer payee : bytes) (amount : Z) : gmap bytes Z :=
  if bool_decide (payer = payee) then m else
  let debited := default 0 (m !! payer) - amount in
  let b := if debited =? 0 then delete payer m else <[payer := debited]> m in
  <[payee := default 0 (m !! payee) + amount]> b.

Definition positive (m : gmap bytes Z) : Prop := forall a v, m !! a = Some v -> 0 < v.

Lemma positive_nonneg m a : positive m -> 0 <= default 0 (m !! a).
Proof. intros H. destruct (m !! a) eqn:E; simpl; [by apply H in E; lia|lia]. Qed.

Lemma moved_balance m payer payee amount a : 0 < amount ->
  default 0 (moved m payer payee amount !! a) =
  default 0 (m !! a) + (if bool_decide (a = payee) then amount else 0) - (if bool_decide (a = payer) then amount else 0).
Proof.
  intros Ha. unfold moved. destruct (decide (payer = payee)) as [->|Hne]; [by rewrite bool_decide_eq_true_2 by done; lia|].
  rewrite (bool_decide_eq_false_2 (payer = payee)) by done. cbv zeta.
  destruct (decide (a = payee)) as [->|Ha1].
  - rewrite lookup_insert_eq, bool_decide_eq_true_2, bool_decide_eq_false_2 by congruence. simpl. lia.
  - rewrite lookup_insert_ne, (bool_decide_eq_false_2 (a = payee)) by congruence.
    destruct (decide (a = payer)) as [->|Ha2].
    + rewrite bool_decide_eq_true_2 by done. case_match; bool_prop;
        [rewrite lookup_delete_eq|rewrite lookup_insert_eq]; simpl; lia.
    + rewrite bool_decide_eq_false_2 by done.
      case_match; [rewrite lookup_delete_ne by congruence|rewrite lookup_insert_ne by congruence]; lia.
Qed.

Lemma moved_positive m payer payee amount : positive m -> 0 < amount -> amount <= default 0 (m !! payer) ->
  positive (moved m payer payee amount).
Proof.
  intros Hm Ha Hle a v. unfold moved. case_bool_decide; [apply Hm|]. intros Hv.
  apply lookup_insert_Some in Hv as [[<- <-]|[Hne Hv]].
  - pose proof (positive_nonneg m payee Hm). lia.
  - case_match; bool_prop.
    + apply lookup_delete_Some in Hv as [_ Hv]. by eapply Hm.
    + apply lookup_insert_Some in Hv as [[<- <-]|[_ Hv]]; [lia|by eapply Hm].
Qed.

Lemma moved_total m payer payee amount : amount <= default 0 (m !! payer) -> 0 < amount ->
  map_total (moved m payer payee amount) = map_total m.
Proof.
  intros Hle Ha. unfold moved. case_bool_decide; [done|].
  assert (exists v, m !! payer = Some v) as [v Ev] by (destruct (m !! payer); [eauto|simpl in Hle; lia]).
  rewrite Ev in *. simpl in *. case_match; bool_prop.
  - rewrite map_total_insert, lookup_delete_ne, (map_total_delete m payer v) by done. lia.
  - rewrite map_total_insert, lookup_insert_ne, map_total_insert, Ev by done. simpl. lia.
Qed.

(** ** The books of a state *)
Record books (s : LedgerState) : Prop := {
  bk_monetary : ledger_ok (ls_monetary s);
  bk_positive : positive (ls_balances s);
  bk_total : map_total (ls_balances s) = ls_allocated_circulating s;
  bk_unallocated : 0 <= ls_unallocated_circulating s;
  bk_pool : 0 <= sl_pool_micro (ls_shielded s);
  bk_supply : circulating_supply (ls_monetary s) =
    Ok (ls_allocated_circulating s + ls_unallocated_circulating s + sl_pool_micro (ls_shielded s));
}.

Lemma books_nonneg s : books s -> 0 <= ls_allocated_circulating s.
Proof.
  intros H. rewrite <- (bk_total s H). apply map_total_nonneg. intros k v Hv. apply (bk_positive s H) in Hv. lia.
Qed.

Lemma books_bound s : books s ->
  ls_allocated_circulating s + ls_unallocated_circulating s + sl_pool_micro (ls_shielded s) <= U128_MAX.
Proof. intros H. apply (circulating_supply_ok _ _ (bk_monetary s H) (bk_supply s H)). Qed.

Lemma balance_le s a : books s -> balance s a <= ls_allocated_circulating s.
Proof.
  intros H. unfold balance. rewrite <- (bk_total s H). destruct (ls_balances s !! a) as [v|] eqn:E; simpl.
  - apply (map_total_lookup_le _ a); [|done]. intros k w Hw. apply (bk_positive s H) in Hw. lia.
  - rewrite (bk_total s H). by apply books_nonneg.
Qed.

Lemma balance_pair_le s a b : books s -> a <> b -> balance s a + balance s b <= ls_allocated_circulating s.
Proof.
  intros H Hne. assert (forall k w, ls_balances s !! k = Some w -> 0 <= w) as Hp
    by (intros k w Hw; apply (bk_positive s H) in Hw; lia).
  destruct (ls_balances s !! a) as [v|] eqn:E; [|unfold balance at 1; rewrite E; simpl; by apply balance_le].
  pose proof (map_total_delete _ a v E) as Hd. rewrite (bk_total s H) in Hd. unfold balance. rewrite E. simpl.
  assert (default 0 (ls_balances s !! b) <= map_total (delete a (ls_balances s))); [|lia].
  rewrite <- (lookup_delete_ne (ls_balances s) a b) by done.
  destruct (delete a (ls_balances s) !! b) as [w|] eqn:Eb; simpl.
  - eapply map_total_lookup_le; [|exact Eb]. intros j x. rewrite lookup_delete_Some. intros [_ Hx]. by eapply Hp.
  - apply map_total_nonneg. intros j x. rewrite lookup_delete_Some. intros [_ Hx]. by eapply Hp.
Qed.

Lemma verified_amount c : is_ok (verify_claim_signature c) = true -> pc_amount_micro c <> 0.
Proof. intros [[] H]%is_ok_true. unfold verify_claim_signature in H. apply bind_ok in H as (? & H & _). by ok_inv; bool_prop. Qed.

Lemma transfer_moved s payer payee amount : books s -> 0 < amount -> amount <= balance s payer ->
  transfer s payer payee amount = Ok (with_balances s (moved (ls_balances s) payer payee amount)).
Proof.
  intros H Ha Hle. unfold transfer, moved. case_bool_decide as E; [by destruct s|].
  fold (balance s payer) (balance s payee). unfold amount_sub, checked_sub. rewrite (proj2 (Z.leb_le _ _) Hle).
  cbn [ok_or map_err mbind result_bind]. unfold amount_add, checked_add.
  pose proof (balance_pair_le s payer payee H E). pose proof (books_bound s H). pose proof (bk_unallocated s H).
  pose proof (bk_pool s H). rewrite (proj2 (Z.leb_le _ _)) by lia. cbn [ok_or map_err mbind result_bind]. done.
Qed.

(** What a claim that does not win leaves: the state, with at most its own
    digest rejected. *)
Definition lost (s s' : LedgerState) (c : PaymentClaim) : Prop := s' = s \/ exists r, s' = reject s (claim_digest c) r.
Definition won (s : LedgerState) (c : PaymentClaim) : LedgerState :=
  finalize (with_balances s (moved (ls_balances s) (pc_payer c) (pc_payee c) (pc_amount_micro c)))
    (pc_payer c) (pc_sequence c) (claim_digest c).

Lemma apply_one_claim_spec s c : books s -> 0 <= pc_amount_micro c ->
  (claim_wins s c = true /\ apply_one_claim s c = Ok (won s c) /\ 0 < pc_amount_micro c <= balance s (pc_payer c)) \/
  (claim_wins s c = false /\ exists s', apply_one_claim s c = Ok s' /\ lost s s' c).
Proof.
  intros H Ha. unfold apply_one_claim, claim_wins, lost, above_mark.
  destruct (is_ok (verify_claim_signature c)) eqn:E1; cbn [andb negb]; [|right; split; [done|]; eexists; split; [done|by left]].
  apply verified_amount in E1. cbv zeta.
  destruct (bool_decide (pc_network_id c = ls_network_id s)); cbn [andb negb]; [|right; eauto 6].
  destruct (is_supported_account (pc_payee c)); cbn [andb negb]; [|right; eauto 6].
  destruct (finalized_sequence s (pc_payer c)) as [m|];
    [destruct (m <? pc_sequence c); cbn [andb negb]; [|right; eauto 6]|].
  all: destruct (Z.ltb_spec (balance s (pc_payer c)) (pc_amount_micro c)); cbn [andb negb]; [right; eauto 6|].
  all: left; split; [done|]; rewrite transfer_moved by (done || lia); cbn [mbind result_bind]; split; [done|lia].
Qed.

Lemma claims_nonneg_cons c cs : Forall (fun c => 0 <= pc_amount_micro c) (c :: cs) ->
  0 <= pc_amount_micro c /\ Forall (fun c => 0 <= pc_amount_micro c) cs.
Proof. by intros [? ?]%Forall_cons. Qed.

Lemma reject_books s d r : books s -> books (reject s d r).
Proof. by intros []. Qed.
Lemma won_books s c : books s -> 0 < pc_amount_micro c <= balance s (pc_payer c) -> books (won s c).
Proof.
  intros [] [Hp Hle]. split; cbn; try done; [by apply moved_positive|by rewrite moved_total].
Qed.
Lemma lost_books s s' c : books s -> lost s s' c -> books s'.
Proof. intros H [->|[r ->]]; [done|by apply reject_books]. Qed.

(** ** A list of claims *)

(** The claims of the list that win, each judged where its turn comes. *)
Fixpoint executed (s : LedgerState) (cs : list PaymentClaim) : list PaymentClaim :=
  match cs with
  | [] => []
  | c :: cs' =>
      match apply_one_claim s c with
      | Ok s' => if claim_wins s c then c :: executed s' cs' else executed s' cs'
      | Err _ => []
      end
  end.

(** What a claim adds to an account, and what a history of them does. *)
Definition flow (a : bytes) (c : PaymentClaim) : Z :=
  (if bool_decide (a = pc_payee c) then pc_amount_micro c else 0) -
  (if bool_decide (a = pc_payer c) then pc_amount_micro c else 0).
Definition net_flow (h : list PaymentClaim) (a : bytes) : Z := sum_Z (map (flow a) h).
(** The sequences at which [p] paid, in order. *)
Definition paid_at (p : bytes) (h : list PaymentClaim) : list Z :=
  map pc_sequence (List.filter (fun c => bool_decide (pc_payer c = p)) h).
Fixpoint ascending (m : option Z) (l : list Z) : Prop :=
  match l with
  | [] => True
  | x :: l' => (match m with Some m => m < x | None => True end) /\ ascending (Some x) l'
  end.
Definition mark_step (p : bytes) (m : option (Z * bytes)) (c : PaymentClaim) : option (Z * bytes) :=
  if bool_decide (pc_payer c = p) then Some (pc_sequence c, claim_digest c) else m.
Definition latest (p : bytes) (m : option (Z * bytes)) (h : list PaymentClaim) : option (Z * bytes) :=
  fold_left (mark_step p) h m.

Definition claim_valid (network : bytes) (c : PaymentClaim) : Prop :=
  verify_claim_signature c = Ok tt /\ pc_network_id c = network /\ is_supported_account (pc_payee c) = true.

(** [s'] is [s] after exactly the payments of [h]. *)
Record paid (s : LedgerState) (h : list PaymentClaim) (s' : LedgerState) : Prop := {
  pd_network : ls_network_id s' = ls_network_id s;
  pd_balance a : balance s' a = balance s a + net_flow h a;
  pd_final p : ls_finalized s' !! p = latest p (ls_finalized s !! p) h;
  pd_ascending p : ascending (finalized_sequence s p) (paid_at p h);
  pd_valid : Forall (claim_valid (ls_network_id s)) h;
}.

Lemma ascending_app m l1 l2 : ascending m (l1 ++ l2) <->
  ascending m l1 /\ ascending (fold_left (fun _ x => Some x) l1 m) l2.
Proof. revert m. induction l1 as [|x l1 IH]; intros m; simpl; [naive_solver|]. rewrite IH. naive_solver. Qed.

Lemma latest_sequence p m h :
  option_map fst (latest p m h) = fold_left (fun _ x => Some x) (paid_at p h) (option_map fst m).
Proof.
  unfold latest, paid_at. revert m. induction h as [|c h IH]; intros m; simpl; [done|].
  rewrite IH. unfold mark_step. case_bool_decide; done.
Qed.

Lemma paid_refl s : paid s [] s.
Proof. split; try done. intros a. change (net_flow [] a) with 0. lia. Qed.

Lemma paid_trans s1 h1 s2 h2 s3 : paid s1 h1 s2 -> paid s2 h2 s3 -> paid s1 (h1 ++ h2) s3.
Proof.
  intros [N1 B1 F1 A1 V1] [N2 B2 F2 A2 V2]. split.
  - congruence.
  - intros a. rewrite B2, B1. unfold net_flow. rewrite map_app, sum_Z_app. lia.
  - intros p. rewrite F2, F1. unfold latest. by rewrite fold_left_app.
  - intros p. unfold paid_at. rewrite List.filter_app, map_app. apply ascending_app. split; [apply A1|].
    specialize (A2 p). cbn [finalized_sequence LedgerState_view] in A2. rewrite F1, latest_sequence in A2. exact A2.
  - rewrite N1 in V2. apply Forall_app. by split.
Qed.

(** Anything that leaves network, balances and marks alone pays nobody. *)
Lemma paid_frame s s' : ls_network_id s' = ls_network_id s -> ls_balances s' = ls_balances s ->
  ls_finalized s' = ls_finalized s -> paid s [] s'.
Proof.
  intros E1 E2 E3. split; [done| |by rewrite E3|done|done].
  intros a. unfold balance. rewrite E2. change (net_flow [] a) with 0. lia.
Qed.

Lemma wins_valid s c : claim_wins s c = true -> claim_valid (ls_network_id s) c /\ above_mark s c = true.
Proof.
  unfold claim_wins. intros H. bool_prop. apply is_ok_true in H as [[] H]. done.
Qed.

Lemma won_paid s c : claim_wins s c = true -> 0 < pc_amount_micro c -> paid s [c] (won s c).
Proof.
  intros Hw Ha. apply wins_valid in Hw as [Hv Hm]. split; [done| | | |by apply Forall_singleton].
  - intros a. unfold balance at 1. cbn [won finalize with_balances ls_balances]. rewrite moved_balance by done.
    fold (balance s a). change (net_flow [c] a) with (flow a c + 0). unfold flow. lia.
  - intros p. unfold latest. cbn. unfold mark_step. case_bool_decide as E; subst.
    + by rewrite lookup_insert_eq.
    + by rewrite lookup_insert_ne.
  - intros p. unfold paid_at. simpl. case_bool_decide as E; simpl; [|done]. subst. split; [|done].
    unfold above_mark in Hm. cbn in Hm. case_match; [by apply Z.ltb_lt|done].
Qed.

(** The parts of the state that claims do not touch. *)
Definition same_rest (s s' : LedgerState) : Prop :=
  ls_nullifiers s' = ls_nullifiers s /\ ls_monetary s' = ls_monetary s /\ ls_shielded s' = ls_shielded s /\
  ls_allocated_circulating s' = ls_allocated_circulating s /\
  ls_unallocated_circulating s' = ls_unallocated_circulating s.

Lemma claims_run s cs : books s -> Forall (fun c => 0 <= pc_amount_micro c) cs ->
  exists s', foldM apply_one_claim s cs = Ok s' /\ books s' /\ paid s (executed s cs) s' /\ same_rest s s' /\
    sublist (executed s cs) cs.
Proof.
  revert s. induction cs as [|c cs IH]; intros s Hb Hn; simpl.
  { exists s. by split; [|split; [|split; [apply paid_refl|]]]. }
  apply claims_nonneg_cons in Hn as [Hc Hn].
  destruct (apply_one_claim_spec s c Hb Hc) as [(Hw & -> & Ha)|(Hw & s1 & -> & Hl)]; rewrite Hw; cbn [mbind result_bind].
  - destruct (IH (won s c) (won_books s c Hb Ha) Hn) as (s' & -> & Hb' & Hp & Hr & Hs). exists s'.
    split; [done|]. split; [done|]. split; [|split; [done|by constructor]].
    apply (paid_trans _ [c] (won s c)); [apply won_paid; [done|lia]|done].
  - destruct (IH s1 (lost_books s s1 c Hb Hl) Hn) as (s' & -> & Hb' & Hp & Hr & Hs). exists s'.
    split; [done|]. split; [done|]. split; [|split; [|by constructor]].
    + apply (paid_trans _ [] s1); [|done]. destruct Hl as [->|[r ->]]; [apply paid_refl|by apply paid_frame].
    + destruct Hl as [->|[r ->]]; done.
Qed.
End ExecutionFacts.
