(* ===== verification/BlockFacts.v ===== *)
(** * BlockFacts: shielded spends, monetary epochs and whole blocks

    What the other two lists of a body do to a ledger state, and the two
    invariants of every state execution reaches: its books balance
    ([books]) and its spends are consistent ([spends_ok]). *)

From Stdlib Require Import ZArith Lia.
From stdpp Require Import base list gmap sets strings sorting.
From S2P Require Import Prelude Codec Crypto Chain Economy EconomyTheorems Settlement SettlementTheorems.
From S2P Require Import Shielded Execution ExecutionFacts.
Open Scope Z_scope.

Section BlockFacts.
Context {P : Primitives}.

(** ** The shielded ledger *)
Definition new_outputs (e : ShieldedClaimEffects) (l : ShieldedLedger) : Prop :=
  NoDup (map so_public_key (se_outputs e)) /\ (forall o, o ∈ se_outputs e -> sl_outputs l !! so_public_key o = None).

Lemma outputs_fresh_spec m seen l : outputs_fresh m seen l = true ->
  NoDup (map so_public_key l) /\
  forall o, o ∈ l -> m !! so_public_key o = None /\ so_public_key o ∉ seen /\ well_formed o = true.
Proof.
  revert seen. induction l as [|o l IH]; intros seen H; simpl in H.
  { split; [constructor|]. by intros o Ho%elem_of_nil. }
  bool_prop. apply IH in H0 as [Hn Hf]. split.
  - simpl. constructor; [|done]. intros Hin. apply list_elem_of_fmap in Hin as (o' & E & Ho').
    destruct (Hf o' Ho') as (_ & Hs & _). apply Hs. rewrite <- E. by left.
  - intros o' [->|Ho']%elem_of_cons.
    + split; [|done]. by apply eq_None_not_Some.
    + destruct (Hf o' Ho') as (Hm & Hs & Hw). split; [done|]. split; [|done]. intros Hin. apply Hs. by right.
Qed.

(** What a successful [apply] did: nothing for a digest already applied,
    otherwise the fee leaves the pool and the outputs are new. *)
Lemma shielded_apply_ok l d e fee l' : shielded_apply l d e = Ok (fee, l') ->
  (d ∈ sl_applied l /\ fee = 0 /\ l' = l) \/
  (d ∉ sl_applied l /\ fee = se_fee_micro e /\ fee <= sl_pool_micro l /\ new_outputs e l /\
   Forall (fun m => sl_outputs l !! so_public_key m = Some (so_amount_commitment m)) (se_ring_members e) /\
   l' = mkShieldedLedger (sl_genesis l) (insert_outputs (sl_outputs l) (se_outputs e)) (sl_applied l ++ [d])
          (sl_pool_micro l - fee)).
Proof.
  unfold shielded_apply. case_bool_decide as Hd; [intros [= <- <-]; by left|]. intros H.
  apply bind_ok in H as (? & H1 & H). apply bind_ok in H as (? & H2 & H). apply bind_ok in H as (? & H3 & H).
  apply bind_ok in H as (pool & H4 & H). injection H as <- <-. apply fail_if_ok in H2, H3. bool_prop.
  apply ok_or_ok, checked_sub_Some in H4 as [-> H4]. right. apply outputs_fresh_spec in H3 as [Hn Hf].
  split; [done|]. split; [done|]. split; [done|]. split; [split; [done|]; intros o Ho; apply (Hf o Ho)|].
  split; [|done]. apply Forall_forall. intros m Hm. rewrite forallb_forall in H2.
  specialize (H2 m (proj1 (list_elem_of_In _ _) Hm)). bool_prop. done.
Qed.

(** ** Grouping the records of a body *)
Definition group_of (records : list NullifierRecord) (d : bytes) : list NullifierRecord :=
  List.filter (fun r => bool_decide (nr_claim_digest r = d)) records.

Record grouping (records : list NullifierRecord) (acc : list bytes * gmap bytes (list NullifierRecord)) : Prop := {
  gr_nodup : NoDup (fst acc);
  gr_order d : d ∈ fst acc <-> group_of records d <> [];
  gr_groups d : snd acc !! d = match group_of records d with [] => None | g => Some g end;
  gr_formed : Forall (fun r => is_well_formed r = true) records;
}.

Lemma group_of_app a b d : group_of (a ++ b) d = group_of a d ++ group_of b d.
Proof. apply List.filter_app. Qed.

Lemma grouping_step records acc r acc' : grouping records acc -> group_record acc r = Ok acc' ->
  grouping (records ++ [r]) acc'.
Proof.
  intros [Hn Ho Hg Hf] H. unfold group_record in H. apply bind_ok in H as (? & Hw & H). apply fail_if_ok in Hw.
  bool_prop. cbv zeta in H. destruct acc as [order groups]. cbn [fst snd] in *. set (d := nr_claim_digest r) in *.
  assert (forall d', group_of (records ++ [r]) d' = group_of records d' ++ if bool_decide (d = d') then [r] else []) as Hgo.
  { intros d'. rewrite group_of_app. unfold group_of at 2. simpl. fold d. by case_bool_decide. }
  pose proof (Hg d) as Hgd. pose proof (Ho d) as Hod.
  destruct (groups !! d) as [g|] eqn:E; injection H as <-; cbn [fst snd].
  - assert (group_of records d = g /\ g <> []) as [Eg Hne] by (by destruct (group_of records d); simplify_eq).
    split; cbn [fst snd]; [done| | |].
    + intros d'. rewrite Hgo, Ho. case_bool_decide as Ed; [subst d'|by rewrite app_nil_r].
      rewrite Eg. split; [by destruct g|done].
    + intros d'. rewrite Hgo. destruct (decide (d = d')) as [<-|Hd'].
      * rewrite lookup_insert_eq, bool_decide_eq_true_2, Eg by done. by destruct g.
      * rewrite lookup_insert_ne, bool_decide_eq_false_2, app_nil_r by done. apply Hg.
    + apply Forall_app. split; [done|by apply Forall_singleton].
  - assert (group_of records d = []) as Eg by (by destruct (group_of records d)).
    split; cbn [fst snd].
    + apply NoDup_app. split; [done|]. split; [|apply NoDup_singleton].
      intros d' Hd' ->%list_elem_of_singleton. by apply Ho in Hd'.
    + intros d'. rewrite elem_of_app, list_elem_of_singleton, Hgo, Ho. case_bool_decide as Ed; subst.
      * rewrite Eg. split; [done|by right].
      * rewrite app_nil_r. split; [intros [?|?]; congruence|by left].
    + intros d'. rewrite Hgo. destruct (decide (d = d')) as [<-|Hd'].
      * rewrite lookup_insert_eq, bool_decide_eq_true_2, Eg by done. done.
      * rewrite lookup_insert_ne, bool_decide_eq_false_2, app_nil_r by done. apply Hg.
    + apply Forall_app. split; [done|by apply Forall_singleton].
Qed.

Lemma grouping_run records acc : foldM group_record ([], ∅) records = Ok acc -> grouping records acc.
Proof.
  assert (forall l pre acc0 acc', grouping pre acc0 -> foldM group_record acc0 l = Ok acc' -> grouping (pre ++ l) acc') as Hgen.
  { induction l as [|r l IH]; intros pre acc0 acc' Hg H; simpl in H.
    - injection H as <-. by rewrite app_nil_r.
    - apply bind_ok in H as (acc1 & H1 & H). replace (pre ++ r :: l) with ((pre ++ [r]) ++ l) by by rewrite <- app_assoc.
      apply (IH _ acc1); [by eapply grouping_step|done]. }
  intros H. apply (Hgen records [] ([], ∅)); [|done].
  split; cbn; [apply NoDup_nil_2| |done|constructor]. intros d. split; [by intros ?%elem_of_nil|done].
Qed.

(** ** One group *)
Definition take_images (d : bytes) (g : list NullifierRecord) (m : gmap bytes bytes) : gmap bytes bytes :=
  fold_left (fun m r => <[nr_key_image r := d]> m) g m.

Lemma take_images_lookup d g m k :
  take_images d g m !! k = if bool_decide (k ∈ map nr_key_image g) then Some d else m !! k.
Proof.
  unfold take_images. revert m. induction g as [|r g IH]; intros m; [done|]. cbn [fold_left map].
  rewrite IH. destruct (decide (k ∈ map nr_key_image g)) as [Hk|Hk].
  - rewrite !bool_decide_eq_true_2; [done|by right|done].
  - rewrite (bool_decide_eq_false_2 _ Hk). destruct (decide (k = nr_key_image r)) as [->|Hne].
    + rewrite lookup_insert_eq, bool_decide_eq_true_2; [done|by left].
    + rewrite lookup_insert_ne, bool_decide_eq_false_2; [done| |done]. by intros [?|?]%elem_of_cons.
Qed.

(** The group of [d] as [apply_group] leaves it: refused as a whole because
    an image belongs to another claim, or recorded as a whole. *)
Record spent (v : ClaimVerifier) (s : LedgerState) (d : bytes) (g : list NullifierRecord) (e : ShieldedClaimEffects)
    (s' : LedgerState) : Prop := {
  sp_evidence : verify_claim v (ls_network_id s) d g = Some e;
  sp_images : ls_nullifiers s' = take_images d g (ls_nullifiers s);
  sp_free : Forall (fun r => ls_nullifiers s !! nr_key_image r = None \/ ls_nullifiers s !! nr_key_image r = Some d) g;
  sp_same : ls_network_id s' = ls_network_id s /\ ls_balances s' = ls_balances s /\
    ls_finalized s' = ls_finalized s /\ ls_rejected s' = ls_rejected s /\ ls_monetary s' = ls_monetary s /\
    ls_allocated_circulating s' = ls_allocated_circulating s;
  sp_ledger : exists fee, shielded_apply (ls_shielded s) d e = Ok (fee, ls_shielded s') /\
    ls_unallocated_circulating s' = ls_unallocated_circulating s + fee;
}.
Definition blocked (s : LedgerState) (d : bytes) (g : list NullifierRecord) : Prop :=
  exists r d', r ∈ g /\ d' <> d /\ ls_nullifiers s !! nr_key_image r = Some d'.

Lemma apply_group_ok v groups s d g s' : groups !! d = Some g -> apply_group v groups s d = Ok s' ->
  (exists e, verify_claim v (ls_network_id s) d g = Some e) /\
  ((blocked s d g /\ s' = s) \/ exists e, spent v s d g e s').
Proof.
  intros Eg H. unfold apply_group in H. rewrite Eg in H. apply bind_ok in H as (e & He & H). apply ok_or_ok in He.
  split; [by exists e|]. cbv zeta in H. destruct (forallb _ g) eqn:Ef; cbn [negb] in H.
  - right. exists e. apply bind_ok in H as ([fee sh] & Hs & H). apply bind_ok in H as (u & Hu & H).
    injection H as <-. apply map_err_ok, amount_add_ok in Hu as [-> _].
    split; cbn; [done|done| |done|by exists fee]. apply Forall_forall. intros r Hr. rewrite forallb_forall in Ef.
    specialize (Ef r (proj1 (list_elem_of_In _ _) Hr)). case_match; [|by left]. bool_prop. right. congruence.
  - left. injection H as <-. split; [|done]. apply not_true_iff_false in Ef. rewrite forallb_forall in Ef.
    destruct (List.find (fun r => negb match ls_nullifiers s !! nr_key_image r with None => true | Some h => bool_decide (h = d) end) g)
      as [r|] eqn:Hf.
    + apply find_some in Hf as [Hr Hb]. exists r. destruct (ls_nullifiers s !! nr_key_image r) as [h|] eqn:Ek; [|done].
      bool_prop. exists h. split; [by apply list_elem_of_In|done].
    + exfalso. apply Ef. intros r Hr. pose proof (find_none _ _ Hf r Hr) as Hn. cbv beta in Hn. by apply negb_false_iff in Hn.
Qed.

(** ** All the groups of a body *)

(** A recorded image stays recorded, and a new one belongs to the body. *)
Definition images_grow (ds : list bytes) (gs : bytes -> list NullifierRecord) (m m' : gmap bytes bytes) : Prop :=
  (forall k d, m !! k = Some d -> m' !! k = Some d) /\
  (forall k d, m' !! k = Some d -> m !! k = Some d \/ (d ∈ ds /\ k ∈ map nr_key_image (gs d))).

Lemma spent_grows v s d g e s' gs : spent v s d g e s' -> gs d = g ->
  images_grow [d] gs (ls_nullifiers s) (ls_nullifiers s').
Proof.
  intros H Eg. rewrite (sp_images _ _ _ _ _ _ H). split; intros k d'; rewrite take_images_lookup; case_bool_decide as Hk.
  - intros E. apply list_elem_of_fmap in Hk as (r & -> & Hr). pose proof (sp_free _ _ _ _ _ _ H) as Hf.
    rewrite Forall_forall in Hf. destruct (Hf r Hr); congruence.
  - done.
  - intros [= <-]. right. subst g. split; [by left|done].
  - by left.
Qed.

Lemma images_grow_trans ds1 ds2 gs m1 m2 m3 : images_grow ds1 gs m1 m2 -> images_grow ds2 gs m2 m3 ->
  images_grow (ds1 ++ ds2) gs m1 m3.
Proof.
  intros [A1 B1] [A2 B2]. split; [by auto|]. intros k d Hk. apply B2 in Hk as [Hk|[Hd Hk]].
  - apply B1 in Hk as [Hk|[Hd Hk]]; [by left|right]. split; [apply elem_of_app; by left|done].
  - right. split; [apply elem_of_app; by right|done].
Qed.

(** One claim's spend, all of it or none of it. *)
Definition all_or_nothing (s s' : LedgerState) (d : bytes) (g : list NullifierRecord) : Prop :=
  (forall r, r ∈ g -> ls_nullifiers s' !! nr_key_image r = Some d) \/
  (blocked s' d g /\ forall k, ls_nullifiers s' !! k = Some d -> ls_nullifiers s !! k = Some d).

Lemma groups_run v groups gs order s s' : NoDup order -> (forall d, d ∈ order -> groups !! d = Some (gs d)) ->
  foldM (apply_group v groups) s order = Ok s' ->
  images_grow order gs (ls_nullifiers s) (ls_nullifiers s') /\ ls_network_id s' = ls_network_id s /\
  forall d, d ∈ order -> (exists e, verify_claim v (ls_network_id s) d (gs d) = Some e) /\ all_or_nothing s s' d (gs d).
Proof.
  intros Hn Hg. revert s. induction order as [|d order IH]; intros s H; simpl in H.
  { injection H as <-. split; [|split; [done|by intros d Hd%elem_of_nil]]. split; [done|by left]. }
  apply NoDup_cons in Hn as [Hd Hn]. apply bind_ok in H as (s1 & H1 & H).
  destruct (apply_group_ok _ _ _ _ _ _ (Hg d ltac:(by left)) H1) as [[e He] Hcase].
  destruct (IH Hn ltac:(intros; apply Hg; by right) s1 H) as (Hgrow & Hnet & Hrest).
  assert (images_grow [d] gs (ls_nullifiers s) (ls_nullifiers s1) /\ ls_network_id s1 = ls_network_id s) as [Hgrow1 Hnet1].
  { destruct Hcase as [[_ ->]|[e' Hs]]; [split; [split; [done|by left]|done]|].
    split; [by eapply spent_grows|apply (sp_same _ _ _ _ _ _ Hs)]. }
  split; [by apply (images_grow_trans [d] order gs _ (ls_nullifiers s1))|]. split; [congruence|].
  intros d' [->|Hd']%elem_of_cons.
  - split; [by exists e|]. destruct Hcase as [[(r & d2 & Hr & Hne & Hb) ->]|[e' Hs]].
    + right. split; [exists r, d2; split; [done|]; split; [done|]; by apply Hgrow|].
      intros k Hk. apply Hgrow in Hk as [Hk|[Hin _]]; done.
    + left. intros r Hr. apply Hgrow. rewrite (sp_images _ _ _ _ _ _ Hs), take_images_lookup.
      rewrite bool_decide_eq_true_2; [done|]. by apply (list_elem_of_fmap_2 nr_key_image).
  - destruct (Hrest d' Hd') as [He' Ho]. rewrite Hnet1 in He'. split; [done|].
    destruct Ho as [Ho|[Hb Ho]]; [by left|right]. split; [done|]. intros k Hk. apply Ho in Hk.
    apply Hgrow1 in Hk as [Hk|[Hin _]]; [done|]. apply list_elem_of_singleton in Hin. congruence.
Qed.

(** ** Books and spends are invariants of every step *)
Definition verifier_typed (v : ClaimVerifier) : Prop :=
  forall n d g e, verify_claim v n d g = Some e -> 0 <= se_fee_micro e.

Record spends_ok (s : LedgerState) : Prop := {
  so_applied : NoDup (sl_applied (ls_shielded s));
  so_recorded k d : ls_nullifiers s !! k = Some d -> d ∈ sl_applied (ls_shielded s);
}.

Lemma spent_books v s d g e s' : verifier_typed v -> books s -> spent v s d g e s' -> books s'.
Proof.
  intros Hv [] [He _ _ (_ & Eb & _ & _ & Em & Ea) (fee & Hs & Eu)].
  apply Hv in He. apply shielded_apply_ok in Hs as [(_ & -> & El)|(_ & -> & Hle & _ & _ & El)].
  - split; rewrite ?Em, ?Eb, ?Ea, ?Eu, ?El; try done; [lia|]. rewrite bk_supply. f_equal. lia.
  - split; rewrite ?Em, ?Eb, ?Ea, ?Eu, ?El; cbn [sl_pool_micro]; try done; [lia|lia|]. rewrite bk_supply. f_equal. lia.
Qed.

Lemma spent_spends v s d g e s' : spends_ok s -> spent v s d g e s' -> spends_ok s'.
Proof.
  intros [Hn Hr] [_ Ei _ _ (fee & Hs & _)].
  apply shielded_apply_ok in Hs as [(Hd & _ & El)|(Hd & _ & _ & _ & _ & El)].
  - split; rewrite El; [done|]. intros k d'. rewrite Ei, take_images_lookup. case_bool_decide; [by intros [= <-]|apply Hr].
  - split; rewrite El; cbn [sl_applied].
    + apply NoDup_app. split; [done|]. split; [|apply NoDup_singleton]. by intros x Hx ->%list_elem_of_singleton.
    + intros k d'. rewrite Ei, take_images_lookup, elem_of_app. case_bool_decide; [intros [= <-]; right; by left|].
      intros H'. left. by eapply Hr.
Qed.

Lemma groups_invariant v groups order s s' : verifier_typed v -> books s -> spends_ok s ->
  foldM (apply_group v groups) s order = Ok s' -> books s' /\ spends_ok s' /\ paid s [] s'.
Proof.
  intros Hv Hb Hs H.
  apply (foldM_invariant (apply_group v groups) (fun s' => books s' /\ spends_ok s' /\ paid s [] s') order s s'); [|clear Hb Hs H s'|done].
  { split; [done|]. split; [done|apply paid_refl]. }
  intros s1 d s2 (Hb & Hs & Hp) _ H. destruct (groups !! d) as [g|] eqn:Eg.
  - destruct (apply_group_ok _ _ _ _ _ _ Eg H) as [_ [[_ ->]|[e Hsp]]]; [done|].
    split; [by eapply spent_books|]. split; [by eapply spent_spends|].
    apply (paid_trans _ [] s1 [] s2 Hp). pose proof (sp_same _ _ _ _ _ _ Hsp) as (E1 & E2 & E3 & _). by apply paid_frame.
  - unfold apply_group in H. rewrite Eg in H. by injection H as <-.
Qed.

(** ** Whole blocks *)
Lemma d0074_typed : policy_typed d0074.
Proof. repeat split; vm_compute; discriminate. Qed.

Lemma apply_monetary_ok s es s' : books s -> Forall plan_typed es -> apply_monetary s es = Ok s' ->
  books s' /\ paid s [] s' /\ ls_nullifiers s' = ls_nullifiers s /\ ls_shielded s' = ls_shielded s.
Proof.
  intros Hb Ht H. destruct es as [|e es]; cbn [apply_monetary] in H.
  { injection H as <-. split; [done|]. by split; [apply paid_refl|]. }
  apply Forall_cons in Ht as [Ht _]. apply bind_ok in H as (? & _ & H). apply bind_ok in H as (before & H1 & H).
  apply bind_ok in H as (m & H2 & H). apply bind_ok in H as (after & H3 & H). apply bind_ok in H as (new & H4 & H).
  apply bind_ok in H as (u & H5 & H). apply map_err_ok in H1, H2, H3, H4, H5. injection H as <-. amounts.
  apply apply_epoch_spec in H2 as [Ha ->].
  pose proof (advance_ok _ _ _ (bk_monetary s Hb) d0074_typed Ht Ha) as Hl. rewrite (bk_supply s Hb) in H1.
  injection H1 as <-. pose proof (bk_unallocated s Hb).
  split; [|split; [by apply paid_frame|done]]. destruct Hb. split;
    cbn [ls_monetary ls_balances ls_allocated_circulating ls_unallocated_circulating ls_shielded]; try done; [lia|].
  rewrite H3. f_equal. lia.
Qed.

Lemma apply_nullifiers_ok s rs ov s' : apply_nullifiers s rs ov = Ok s' ->
  (rs = [] /\ s' = s) \/
  exists v acc, ov = Some v /\ grouping rs acc /\ foldM (apply_group v (snd acc)) s (fst acc) = Ok s'.
Proof.
  unfold apply_nullifiers. case_bool_decide; [intros [= <-]; by left|]. intros H1. right.
  apply bind_ok in H1 as (v & Hv & H1). apply ok_or_ok in Hv. apply bind_ok in H1 as ([order groups] & Hg & H1).
  exists v, (order, groups). split; [done|]. split; [by apply grouping_run|done].
Qed.

Record body_typed (b : SettlementBlockBody) : Prop := {
  bt_claims : Forall (fun c => 0 <= pc_amount_micro c) (bd_claims b);
  bt_epochs : Forall plan_typed (bd_monetary_epochs b);
}.
Definition verifier_ok (ov : option ClaimVerifier) : Prop := match ov with Some v => verifier_typed v | None => True end.

Lemma block_inv s b ov s' : apply_block_with_verifier s b ov = Ok s' ->
  exists s1 s2, foldM apply_one_claim s (bd_claims b) = Ok s1 /\ apply_nullifiers s1 (bd_nullifiers b) ov = Ok s2 /\
    apply_monetary s2 (bd_monetary_epochs b) = Ok s' /\ verify_supply_conservation s' = Ok tt.
Proof.
  unfold apply_block_with_verifier. intros H. do 4 (apply bind_ok in H as (? & _ & H)).
  apply bind_ok in H as (s1 & H1 & H). apply bind_ok in H as (s2 & H2 & H). apply bind_ok in H as (s3 & H3 & H).
  apply bind_ok in H as ([] & H4 & H). injection H as <-. by exists s1, s2.
Qed.

Lemma block_run s b ov s' : books s -> spends_ok s -> body_typed b -> verifier_ok ov ->
  apply_block_with_verifier s b ov = Ok s' ->
  books s' /\ spends_ok s' /\ paid s (executed s (bd_claims b)) s' /\ sublist (executed s (bd_claims b)) (bd_claims b).
Proof.
  intros Hb Hs [Hc He] Hv H. apply block_inv in H as (s1 & s2 & H1 & H2 & H3 & _).
  destruct (claims_run s (bd_claims b) Hb Hc) as (s1' & E & Hb1 & Hp1 & (R1 & _ & R3 & _) & Hsub).
  rewrite E in H1. injection H1 as ->.
  assert (spends_ok s1) as Hs1 by (destruct Hs; split; by rewrite ?R1, ?R3).
  assert (books s2 /\ spends_ok s2 /\ paid s1 [] s2) as (Hb2 & Hs2 & Hp2).
  { apply apply_nullifiers_ok in H2 as [[_ ->]|(v & acc & -> & _ & H2)]; [by split; [|split; [|apply paid_refl]]|].
    by eapply groups_invariant. }
  destruct (apply_monetary_ok _ _ _ Hb2 He H3) as (Hb3 & Hp3 & N3 & S3).
  split; [done|]. split; [destruct Hs2; split; by rewrite ?N3, ?S3|]. split; [|done].
  rewrite <- (app_nil_r (executed _ _)), <- (app_nil_r (executed s _)), <- app_assoc.
  eapply paid_trans; [exact Hp1|]. by eapply paid_trans.
Qed.

Lemma conservation_holds s : books s -> verify_supply_conservation s = Ok tt.
Proof.
  intros H. unfold verify_supply_conservation. pose proof (books_bound s H). pose proof (bk_pool s H).
  unfold amount_add, checked_add. rewrite (proj2 (Z.leb_le _ U128_MAX)) by lia. cbn [ok_or mbind result_bind].
  rewrite (proj2 (Z.leb_le _ U128_MAX)) by lia. cbn [ok_or map_err mbind result_bind].
  rewrite (bk_supply s H). cbn [map_err mbind result_bind]. by rewrite Z.eqb_refl.
Qed.

Lemma sum_run acc l : 0 <= acc -> Forall (fun e : bytes * Z => 0 <= e.2) l -> acc + sum_Z l.*2 <= U128_MAX ->
  foldM (fun acc e => map_err (fun _ => AmountOverflow) (amount_add acc (snd e))) acc l = Ok (acc + sum_Z l.*2).
Proof.
  revert acc. induction l as [|[k v] l IH]; intros acc Ha Hl Hle; cbn [foldM].
  { f_equal. change (sum_Z [].*2) with 0. lia. }
  apply Forall_cons in Hl as [Hv Hl]. cbn [snd] in *. change (sum_Z ((k, v) :: l).*2) with (v + sum_Z l.*2) in *.
  assert (0 <= sum_Z l.*2).
  { clear -Hl. induction Hl as [|[k w] l Hw _ IH]; [done|].
    change (sum_Z ((k, w) :: l).*2) with (w + sum_Z l.*2). simpl in Hw. lia. }
  unfold amount_add, checked_add. rewrite (proj2 (Z.leb_le _ U128_MAX)) by lia. cbn [ok_or map_err mbind result_bind].
  rewrite IH by (done || lia). f_equal. lia.
Qed.

Lemma balance_total_holds s : books s -> verify_balance_map_total s = Ok tt.
Proof.
  intros H. unfold verify_balance_map_total. pose proof (books_bound s H). pose proof (bk_unallocated s H).
  pose proof (bk_pool s H).
  assert (sum_Z (btree_entries (ls_balances s)).*2 = ls_allocated_circulating s) as E.
  { rewrite <- (bk_total s H). unfold map_total. by rewrite btree_entries_perm. }
  rewrite sum_run; [|done| |lia].
  - rewrite E. cbn [mbind result_bind]. by rewrite Z.eqb_refl.
  - apply Forall_forall. intros [k v] Hk. apply elem_of_btree_entries in Hk. apply (bk_positive s H) in Hk. simpl. lia.
Qed.

(** ** Genesis *)
Inductive genesis_state : LedgerState -> Prop :=
| genesis_supply network g : is_u128 g -> genesis_state (with_network_and_genesis_supply network g)
| genesis_balances network g allocations s : is_u128 g -> Forall (fun a => 0 <= snd a) allocations ->
    with_network_and_genesis_balances network g allocations = Ok s -> genesis_state s
| genesis_shielded network allocations v s : Forall (fun a => 0 <= ga_amount_micro a) allocations ->
    with_shielded_genesis network allocations v = Ok s -> genesis_state s.

Lemma new_supply g : is_u128 g -> circulating_supply (MonetaryLedger_new g) = Ok g.
Proof. intros H. done. Qed.

Lemma genesis_allocate_ok m t a m' t' : positive m -> map_total m = t -> 0 <= snd a ->
  genesis_allocate (m, t) a = Ok (m', t') -> positive m' /\ map_total m' = t'.
Proof.
  intros Hp Ht Ha H. unfold genesis_allocate in H. apply bind_ok in H as (? & H1 & H). apply bind_ok in H as (u & H2 & H).
  injection H as <- <-. apply fail_if_ok in H1. apply map_err_ok in H2. amounts. bool_prop. cbn [fst snd] in *.
  split.
  - intros k v [[<- <-]|[_ Hk]]%lookup_insert_Some; [lia|by eapply Hp].
  - rewrite map_total_insert_None by by apply eq_None_not_Some. lia.
Qed.

Lemma shielded_genesis_pool n v l ledger : Forall (fun a => 0 <= ga_amount_micro a) l ->
  forall l0, 0 <= sl_pool_micro l0 <= U128_MAX -> sl_applied l0 = [] ->
  foldM (shielded_genesis_step n v) l0 l = Ok ledger -> 0 <= sl_pool_micro ledger <= U128_MAX /\ sl_applied ledger = [].
Proof.
  induction 1 as [|a l Ha _ IH]; intros l0 Hl0 Ea H; cbn [foldM] in H; [by injection H as <-|].
  apply bind_ok in H as (l1 & H1 & H). apply (IH l1); [| |done].
  all: unfold shielded_genesis_step in H1; apply bind_ok in H1 as (? & _ & H1); apply bind_ok in H1 as (pool & Hp & H1).
  all: injection H1 as <-; apply ok_or_ok, checked_add_Some in Hp as [-> Hp]; cbn; first [lia|done].
Qed.

Lemma genesis_ok s : genesis_state s -> books s /\ spends_ok s.
Proof.
  intros [n g Hg|n g al s' Hg Ha H|n al v s' Ha H].
  - split; [|by split; [apply NoDup_nil_2|]]. split; cbn; try done; first [by apply new_ok|apply Hg|f_equal; lia].
  - unfold with_network_and_genesis_balances in H. apply bind_ok in H as ([m t] & H1 & H).
    apply bind_ok in H as (? & H2 & H). injection H as <-. apply fail_if_ok in H2. bool_prop. subst t.
    assert (positive m /\ map_total m = g) as [Hp Ht].
    { apply (foldM_invariant genesis_allocate (fun mt => positive mt.1 /\ map_total mt.1 = mt.2) al (∅, 0) (m, g));
        [by split|intros [m1 t1] a [m2 t2] [I1 I2] Hin Hs|done]. rewrite Forall_forall in Ha.
      eapply genesis_allocate_ok; [done|done|by apply Ha|done]. }
    split; [|by split; [apply NoDup_nil_2|]]. split; cbn; try done; first [by apply new_ok|f_equal; lia].
  - unfold with_shielded_genesis in H. apply bind_ok in H as (sh & H1 & H). apply bind_ok in H as (? & _ & H).
    injection H as <-. unfold shielded_genesis in H1. apply bind_ok in H1 as (? & _ & H1).
    apply bind_ok in H1 as (l & Hl & H1). injection H1 as <-.
    apply shielded_genesis_pool in Hl as [Hp Eap]; [|by rewrite merge_sort_Permutation|done|done].
    cbn [sl_pool_micro] in *. split; [|split; cbn; [rewrite Eap; apply NoDup_nil_2|done]].
    split; cbn; try done; first [by apply new_ok|by intros a ?|lia|f_equal; lia].
Qed.
End BlockFacts.
