(* ===== verification/ExecutionTheorems.v ===== *)
(** * ExecutionTheorems: what finalized execution guarantees

    Along every run of blocks from a genesis the books balance, every unit an
    account gains another lost, a slot pays once and a shielded spend happens
    whole and for ever; a block of payments always applies; a tip hash pins
    the whole state. *)

From Stdlib Require Import ZArith Lia.
From stdpp Require Import base list gmap sets strings sorting.
From S2P Require Import Prelude Codec Crypto Identity Kel Chain ChainTheorems Economy EconomyTheorems EconomyWire Settlement SettlementTheorems Shielded Execution StatePins ExecutionFacts BlockFacts.
Open Scope Z_scope.

Section ExecutionTheorems.
Context {P : Primitives}.

(** The states execution reaches from [g], with the payments it executed. *)
Inductive run (g : LedgerState) : list PaymentClaim -> LedgerState -> Prop :=
| run_genesis : run g [] g
| run_block h s b ov s' : run g h s -> body_typed b -> verifier_ok ov ->
    apply_block_with_verifier s b ov = Ok s' -> run g (h ++ executed s (bd_claims b)) s'.

Lemma run_invariant g h s : genesis_state g -> run g h s -> books s /\ spends_ok s /\ paid g h s.
Proof.
  intros Hg. induction 1 as [|h s b ov s' _ (IH1 & IH2 & IH3) Hb Hv H].
  - destruct (genesis_ok g Hg). split; [done|]. split; [done|apply paid_refl].
  - destruct (block_run s b ov s' IH1 IH2 Hb Hv H) as (H1 & H2 & H3 & _).
    split; [done|]. split; [done|]. by eapply paid_trans.
Qed.

(** ** Slots *)
Lemma ascending_above m l x : ascending (Some m) l -> x ∈ l -> m < x.
Proof.
  revert m. induction l as [|y l IH]; intros m H Hx; [by apply elem_of_nil in Hx|].
  destruct H as [Hm H]. apply elem_of_cons in Hx as [->|Hx]; [done|]. specialize (IH y H Hx). lia.
Qed.
Lemma ascending_NoDup m l : ascending m l -> NoDup l.
Proof.
  revert m. induction l as [|y l IH]; intros m H; constructor; destruct H as [_ H].
  - intros Hy. pose proof (ascending_above y l y H Hy). lia.
  - by eapply IH.
Qed.

Definition slot (c : PaymentClaim) : bytes * Z := (pc_payer c, pc_sequence c).

Lemma paid_slots s h s' : paid s h s' -> NoDup (map slot h).
Proof.
  intros [_ _ _ Ha _]. assert (forall p, NoDup (paid_at p h)) as Hp by (intros p; by eapply ascending_NoDup).
  clear Ha. induction h as [|c h IH]; [apply NoDup_nil_2|]. simpl. constructor.
  - intros Hin. apply list_elem_of_fmap in Hin as (c' & E & Hc). injection E as E1 E2.
    specialize (Hp (pc_payer c)). unfold paid_at in Hp. simpl in Hp. rewrite bool_decide_eq_true_2 in Hp by done.
    simpl in Hp. apply NoDup_cons in Hp as [Hp _]. apply Hp. rewrite E2. apply (list_elem_of_fmap_2 pc_sequence).
    apply list_elem_of_In, filter_In. split; [by apply list_elem_of_In|]. by apply bool_decide_eq_true_2.
  - apply IH. intros p. specialize (Hp p). unfold paid_at in Hp. simpl in Hp.
    case_bool_decide; [by apply NoDup_cons in Hp as [_ ?]|done].
Qed.

(** The payer's mark is the digest of one of its executed claims. *)
Lemma latest_in p m h x : latest p m h = Some x ->
  m = Some x \/ exists c, c ∈ h /\ pc_payer c = p /\ x = (pc_sequence c, claim_digest c).
Proof.
  unfold latest. revert m. induction h as [|c h IH]; intros m H; simpl in H; [by left|].
  apply IH in H as [H|(c' & Hc & E)]; [|right; exists c'; split; [by right|done]].
  unfold mark_step in H. case_bool_decide; [|by left]. injection H as <-. right. exists c. split; [by left|done].
Qed.

Lemma genesis_unmarked g p : genesis_state g -> ls_finalized g !! p = None.
Proof.
  intros [n x _|n x al s _ _ H|n al v s _ H]; [done| |].
  - unfold with_network_and_genesis_balances in H. apply bind_ok in H as ([m t] & _ & H).
    apply bind_ok in H as (? & _ & H). by injection H as <-.
  - unfold with_shielded_genesis in H. apply bind_ok in H as (sh & _ & H). apply bind_ok in H as (? & _ & H).
    by injection H as <-.
Qed.

Lemma slot_unique h c1 c2 : NoDup (map slot h) -> c1 ∈ h -> c2 ∈ h -> slot c1 = slot c2 -> c1 = c2.
Proof.
  induction h as [|c h IH]; intros Hn H1 H2 E; [by apply elem_of_nil in H1|]. apply NoDup_cons in Hn as [Hc Hn].
  apply elem_of_cons in H1 as [->|H1], H2 as [->|H2]; [done| | |by apply IH].
  - exfalso. apply Hc. rewrite E. by apply (list_elem_of_fmap_2 slot).
  - exfalso. apply Hc. rewrite <- E. by apply (list_elem_of_fmap_2 slot).
Qed.

(** C33: Money is conserved.  In every state execution reaches from a genesis,
    the source's two audits succeed, no balance is negative, and every
    account holds its genesis balance plus what the executed payments moved
    to it less what they moved from it. *)
Theorem money_conserved g h s : genesis_state g -> run g h s ->
  verify_supply_conservation s = Ok tt /\ verify_balance_map_total s = Ok tt /\
  map_total (ls_balances s) + ls_unallocated_circulating s + sl_pool_micro (ls_shielded s) = circulating (ls_monetary s) /\
  forall a, 0 <= balance s a /\ balance s a = balance g a + net_flow h a.
Proof.
  intros Hg Hr. destruct (run_invariant g h s Hg Hr) as (Hb & _ & Hp).
  split; [by apply conservation_holds|]. split; [by apply balance_total_holds|]. split.
  - pose proof (circulating_supply_ok _ _ (bk_monetary s Hb) (bk_supply s Hb)) as [<- _]. by rewrite (bk_total s Hb).
  - intros a. split; [apply positive_nonneg, bk_positive, Hb|apply Hp].
Qed.

(** C34: No double spend.  Along a run from a genesis every executed payment
    verifies, is for this network and occupies a [(payer, sequence)] slot of
    its own, each payer's sequences increase, and a claim that reconciles to
    [Finalized] against the state is an executed one; so no two different
    claims of one slot are ever final, short of a BLAKE3 collision. *)
Theorem no_double_spend g h s : genesis_state g -> run g h s ->
  NoDup (map slot h) /\ Forall (claim_valid (ls_network_id g)) h /\ (forall p, ascending None (paid_at p h)) /\
  forall c now, claim_typed c -> Forall claim_typed h -> reconcile c s now = Ok Finalized ->
    (exists c', c' ∈ h /\ slot c' = slot c /\ terms c' = terms c) \/ blake3_collision.
Proof.
  intros Hg Hr. destruct (run_invariant g h s Hg Hr) as (_ & _ & Hp). pose proof (paid_slots _ _ _ Hp) as Hn.
  split; [done|]. split; [apply Hp|]. split.
  { intros p. pose proof (pd_ascending _ _ _ Hp p) as Ha. cbn in Ha. by rewrite genesis_unmarked in Ha. }
  intros c now Hc Hh (_ & _ & Hm & Hd)%reconcile_finalized. cbn in Hm, Hd.
  pose proof (pd_final _ _ _ Hp (pc_payer c)) as Hf. rewrite (genesis_unmarked g) in Hf by done.
  destruct (ls_finalized s !! pc_payer c) as [[n d]|]; [|done]. injection Hm as ->. rewrite Z.eqb_refl in Hd.
  injection Hd as ->. symmetry in Hf. apply latest_in in Hf as [Hf|(c' & Hin & Ep & [= Es Ed])]; [done|].
  rewrite Forall_forall in Hh. destruct (claim_digest_inj c c' Hc (Hh c' Hin) Ed) as [Et|?]; [left|by right].
  exists c'. split; [done|]. split; [unfold slot; congruence|done].
Qed.

(** A block of claims and nothing else applies to a state whose books balance. *)
Lemma payments_block s claims : books s -> Forall (fun c => 0 <= pc_amount_micro c) claims ->
  Z.of_nat (length claims) <= MAX_CLAIMS_PER_BLOCK ->
  exists s', apply_block s (body_new claims) = Ok s' /\ books s' /\ paid s (executed s claims) s'.
Proof.
  intros Hb Hc Hl. destruct (claims_run s claims Hb Hc) as (s' & E & Hb' & Hp & _). exists s'. split; [|done].
  unfold apply_block, apply_block_with_verifier. cbn [body_new bd_claims bd_nullifiers bd_monetary_epochs].
  rewrite (proj2 (Z.ltb_ge _ _) Hl). cbn [fail_if mbind result_bind]. change (fail_if _ TooManyMonetaryEpochs) with (Ok (E := ExecutionError) tt).
  change (fail_if _ TooManyNullifiers) with (Ok (E := ExecutionError) tt).
  change (fail_if _ MissingClaimVerifier) with (Ok (E := ExecutionError) tt). cbn [mbind result_bind]. rewrite E.
  cbn [mbind result_bind]. change (apply_nullifiers s' [] None) with (Ok (E := ExecutionError) s').
  cbn [apply_nullifiers apply_monetary mbind result_bind]. by rewrite conservation_holds.
Qed.

(** A block of payments always applies.  On a state execution reaches, a
    body of at most 4096 claims, whatever they are, and nothing else gives a
    state: no claim can make the executor fail, so none can halt the chain. *)
Theorem payments_always_apply g h s claims : genesis_state g -> run g h s ->
  Forall (fun c => 0 <= pc_amount_micro c) claims -> Z.of_nat (length claims) <= MAX_CLAIMS_PER_BLOCK ->
  exists s', apply_block s (body_new claims) = Ok s' /\ run g (h ++ executed s claims) s'.
Proof.
  intros Hg Hr Hc Hl. destruct (run_invariant g h s Hg Hr) as (Hb & _ & _).
  destruct (payments_block s claims Hb Hc Hl) as (s' & H & _). exists s'.
  split; [done|]. by eapply (run_block g h s (body_new claims) None).
Qed.

(** C35: Inclusion is final, but the report of it is not.  A claim that wins
    its turn reconciles to [Finalized] at once, at any wall-clock time.  Yet
    when the same claim is included again the executor records the repeat as
    a rejection of the very digest it finalized, and the claim then
    reconciles to a canonical rejection; and once a later payment of the
    payer wins, the claim reconciles to a conflict.  In both cases its
    transfer stands. *)
Theorem finality_not_stable s c now : books s -> claim_wins s c = true -> 0 <= pc_amount_micro c ->
  exists s1, apply_one_claim s c = Ok s1 /\ reconcile c s1 now = Ok Finalized /\
    (exists s2, apply_one_claim s1 c = Ok s2 /\ reconcile c s2 now = Ok (RejectedCanonical StaleSequence) /\
       ls_balances s2 = ls_balances s1 /\ ls_finalized s2 !! pc_payer c = Some (pc_sequence c, claim_digest c)) /\
    (forall c' s2, claim_wins s1 c' = true -> 0 <= pc_amount_micro c' -> pc_payer c' = pc_payer c ->
       apply_one_claim s1 c' = Ok s2 -> reconcile c s2 now = Ok RejectedConflict /\
       forall a, balance s2 a = balance s1 a + flow a c').
Proof.
  intros Hb Hw Ha. destruct (apply_one_claim_spec s c Hb Ha) as [(_ & E & Hle)|(Hf & _)]; [|congruence].
  exists (won s c). split; [done|]. destruct (wins_valid s c Hw) as [(Hv & Hn & Hs) _].
  split; [apply reconcile_finalized; cbn; rewrite lookup_delete_eq, lookup_insert_eq, Z.eqb_refl; done|]. split.
  - exists (reject (won s c) (claim_digest c) StaleSequence). split; [|split; [|split; [done|cbn; apply lookup_insert_eq]]].
    + unfold apply_one_claim. rewrite Hv. cbn [is_ok negb]. cbn [won finalize with_balances ls_network_id finalized_sequence
        LedgerState_view ls_finalized]. rewrite bool_decide_eq_true_2, Hs, lookup_insert_eq by done.
      cbn [negb option_map fst]. by rewrite Z.ltb_irrefl.
    + unfold reconcile. rewrite Hv. cbn. by rewrite lookup_insert_eq.
  - intros c' s2 Hw' Ha' Ep H. pose proof (won_books s c Hb Hle) as Hb1.
    destruct (apply_one_claim_spec _ c' Hb1 Ha') as [(_ & E' & Hle')|(Hf & _)]; [|congruence].
    rewrite E' in H. injection H as <-. split.
    + apply wins_valid in Hw' as [_ Hm]. unfold above_mark in Hm. cbn in Hm. rewrite Ep, lookup_insert_eq in Hm.
      cbn in Hm. apply Z.ltb_lt in Hm. unfold reconcile. rewrite Hv. cbn [mbind result_bind].
      cbn [rejected_claim LedgerState_view won finalize with_balances ls_rejected].
      assert (delete (claim_digest c') (delete (claim_digest c) (ls_rejected s)) !! claim_digest c = None) as ->
        by (apply lookup_delete_None; right; apply lookup_delete_eq).
      rewrite (slot_outcome_superseded (won (won s c) c') _ _ _ (pc_sequence c'));
        [done|cbn; rewrite Ep, lookup_insert_eq; done|done].
    + intros a. pose proof (pd_balance _ _ _ (won_paid (won s c) c' Hw' ltac:(lia)) a) as Hbal.
      change (net_flow [c'] a) with (flow a c' + 0) in Hbal. lia.
Qed.

(** A shielded spend is whole and for ever.  After a block every key
    image recorded before is recorded for the same claim; of each claim whose
    records the block carries, with evidence the verifier accepted, either
    every key image is recorded as spent by it or none is taken by it, and
    then another claim holds one; and no other image is recorded. *)
Theorem spends_whole_and_permanent s b ov s' : apply_block_with_verifier s b ov = Ok s' ->
  (forall k d, ls_nullifiers s !! k = Some d -> ls_nullifiers s' !! k = Some d) /\
  (forall d, group_of (bd_nullifiers b) d <> [] ->
    (exists v e, ov = Some v /\ verify_claim v (ls_network_id s) d (group_of (bd_nullifiers b) d) = Some e) /\
    all_or_nothing s s' d (group_of (bd_nullifiers b) d)) /\
  (forall k d, ls_nullifiers s' !! k = Some d -> ls_nullifiers s !! k = Some d \/
    exists r, r ∈ bd_nullifiers b /\ nr_key_image r = k /\ nr_claim_digest r = d).
Proof.
  intros H. apply block_inv in H as (s1 & s2 & H1 & H2 & H3 & _).
  assert (ls_nullifiers s1 = ls_nullifiers s /\ ls_network_id s1 = ls_network_id s) as [N1 I1].
  { apply (foldM_invariant apply_one_claim (fun s1 => ls_nullifiers s1 = ls_nullifiers s /\ ls_network_id s1 = ls_network_id s)
      (bd_claims b) s s1); [done| |done]. clear. intros x c y [<- <-] _ H. unfold apply_one_claim in H.
    repeat (case_match; [by injection H as <-|]). apply bind_ok in H as (z & Hz & H). injection H as <-.
    unfold transfer in Hz. case_match; [by injection Hz as <-|]. apply bind_ok in Hz as (? & _ & Hz).
    apply bind_ok in Hz as (? & _ & Hz). by injection Hz as <-. }
  assert (ls_nullifiers s' = ls_nullifiers s2) as N3.
  { destruct (bd_monetary_epochs b); cbn [apply_monetary] in H3; [by injection H3 as <-|].
    do 6 (apply bind_ok in H3 as (? & _ & H3)). by injection H3 as <-. }
  apply apply_nullifiers_ok in H2 as [[En ->]|(v & acc & -> & Hgr & H2)].
  { rewrite N3, N1. split; [done|]. split; [|by left]. intros d Hd. by rewrite En in Hd. }
  destruct (groups_run v (snd acc) (group_of (bd_nullifiers b)) (fst acc) s1 s2) as ([G1 G2] & _ & G3);
    [apply Hgr| |done|].
  { intros d Hd. apply (gr_order _ _ Hgr) in Hd. rewrite (gr_groups _ _ Hgr). by destruct (group_of _ d). }
  unfold all_or_nothing, blocked in *. rewrite N3. rewrite N1 in *. rewrite I1 in *. split; [done|]. split.
  - intros d Hd. apply (gr_order _ _ Hgr) in Hd. destruct (G3 d Hd) as [[e He] Ho]. split; [by exists v, e|done].
  - intros k d Hk. apply G2 in Hk as [Hk|[_ Hk]]; [by left|right]. apply list_elem_of_fmap in Hk as (r & -> & Hr).
    apply list_elem_of_In, filter_In in Hr as [Hr Hd]. bool_prop. exists r. split; [by apply list_elem_of_In|done].
Qed.
End ExecutionTheorems.

(** * the ledger only advances behind a certificate

    [apply_finalized_block_with_verifier] characterised by its conditions, and
    the consequences: two chains with one tip hold one state, and every state
    of a chain started at a genesis is one execution reaches. *)


Section FinalizedChain.
Context {P : Primitives}.

(** The conditions under which a certified block extends the chain [c]. *)
Record extends (c : LedgerChain) (h : BlockHeader) (b : SettlementBlockBody) (qc : QuorumCertificate)
    (vs : ValidatorSet) (oracle : ValidatorOracle) (ov : option ClaimVerifier) (s' : LedgerState) : Prop := {
  ex_body : bh_body_root h = body_hash b;
  ex_final : exists n, verify_finality qc vs oracle = Ok n;
  ex_height : bh_height h = wrapping_add 64 (lc_height c) 1;
  ex_parent : bh_prev_hash h = lc_tip_hash c;
  ex_time : bh_timestamp_ms h = bh_height h;
  ex_certified : qc_height qc = bh_height h /\ qc_block_hash qc = header_hash h;
  ex_state : apply_block_with_verifier (lc_state c) b ov = Ok s';
  ex_root : bh_state_root h = commitment s';
}.

(** A body that applies has at most one epoch, and that one is on the wire. *)
Lemma applied_body s b ov s' : apply_block_with_verifier s b ov = Ok s' ->
  Z.of_nat (length (bd_claims b)) <= MAX_CLAIMS_PER_BLOCK /\
  Z.of_nat (length (bd_monetary_epochs b)) <= MAX_MONETARY_EPOCHS_PER_BLOCK /\
  foldM (fun _ e => map_err InvalidMonetaryEpoch (_ ← plan_to_wire_bytes e; Ok tt)) tt (bd_monetary_epochs b) = Ok tt.
Proof.
  intros H. pose proof (block_inv _ _ _ _ H) as (s1 & s2 & _ & _ & H3 & _). unfold apply_block_with_verifier in H.
  apply bind_ok in H as (? & H1 & H). apply bind_ok in H as (? & H2 & _). apply fail_if_ok in H1, H2. bool_prop.
  split; [done|]. split; [done|]. destruct (bd_monetary_epochs b) as [|e [|e' es]]; [done| |].
  - cbn [apply_monetary] in H3. apply bind_ok in H3 as (w & Hw & _). apply map_err_ok in Hw. cbn [foldM]. by rewrite Hw.
  - unfold MAX_MONETARY_EPOCHS_PER_BLOCK in H2. cbn [length] in H2. lia.
Qed.

Lemma extends_iff c h b qc vs oracle ov root c' :
  apply_finalized_block_with_verifier c h b qc vs oracle ov = Ok (root, c') <->
  exists s', extends c h b qc vs oracle ov s' /\ root = commitment s' /\
    c' = mkLedgerChain (bh_height h) (header_hash h) s'.
Proof.
  unfold apply_finalized_block_with_verifier. cbv zeta. split.
  - intros H. do 3 (apply bind_ok in H as (? & _ & H)). apply bind_ok in H as (? & H1 & H).
    apply bind_ok in H as (n & H2 & H). apply bind_ok in H as (? & H3 & H). apply bind_ok in H as (? & H4 & H).
    apply bind_ok in H as (? & H5 & H). apply bind_ok in H as (? & H6 & H). apply bind_ok in H as (s' & H7 & H).
    apply bind_ok in H as (? & H8 & H). injection H as <- <-. apply map_err_ok in H2.
    apply fail_if_ok in H1, H3, H4, H5, H6, H8. bool_prop. exists s'. split; [|done].
    split; try done; [by exists n|congruence].
  - intros (s' & [E1 [n E2] E3 E4 E5 [E6 E7] E8 E9] & -> & ->). destruct (applied_body _ _ _ _ E8) as (B1 & B2 & B3).
    rewrite (proj2 (Z.ltb_ge _ _) B1). cbn [fail_if mbind result_bind].
    rewrite (proj2 (Z.ltb_ge _ _) B2). cbn [fail_if mbind result_bind]. rewrite B3. cbn [mbind result_bind].
    rewrite (bool_decide_eq_true_2 _ E1). cbn [negb fail_if mbind result_bind]. rewrite E2. cbn [map_err mbind result_bind].
    rewrite <- E3, E5, E6, Z.eqb_refl, (bool_decide_eq_true_2 _ E4). cbn [negb fail_if mbind result_bind].
    rewrite (bool_decide_eq_true_2 _ E7). cbn [orb negb fail_if mbind result_bind]. rewrite E8. cbn [mbind result_bind].
    rewrite (bool_decide_eq_true_2 _ E9). done.
Qed.

(** The chains a node holds that started at the genesis [g] and was given
    certified blocks, with the payments they executed. *)
Inductive chain_run (g : LedgerState) : list PaymentClaim -> LedgerChain -> Prop :=
| chain_genesis : chain_run g [] (mkLedgerChain 0 zero_hash g)
| chain_block hist c h b qc vs oracle ov root c' : chain_run g hist c -> body_typed b -> verifier_ok ov ->
    apply_finalized_block_with_verifier c h b qc vs oracle ov = Ok (root, c') ->
    chain_run g (hist ++ executed (lc_state c) (bd_claims b)) c'.

Lemma chain_run_run g hist c : chain_run g hist c -> run g hist (lc_state c).
Proof.
  induction 1 as [|hist c h b qc vs oracle ov root c' _ IH Hb Hv H]; [constructor|].
  apply extends_iff in H as (s' & Hx & _ & ->). eapply run_block; [done|done|done|apply Hx].
Qed.

(** The chain advances exactly behind certificates: a block is applied if
    and only if its body is the one the header names, a quorum certificate
    that verifies is for this header, the header is the next on this tip at
    its logical time, the body executes and the header's state root is the
    commitment of the result; and then exactly that state becomes the chain's. *)
Theorem chain_advances_iff_certified c h b qc vs oracle ov root c' :
  apply_finalized_block_with_verifier c h b qc vs oracle ov = Ok (root, c') <->
  exists s', extends c h b qc vs oracle ov s' /\ root = commitment s' /\
    c' = mkLedgerChain (bh_height h) (header_hash h) s'.
Proof. apply extends_iff. Qed.

(** C36: One tip, one ledger.  If two nodes, whatever their chains, validator
    sets and evidence were, each applied a certified block and their tips are
    equal, then their heights and complete ledger states are equal, short of
    a BLAKE3 collision. *)
Theorem tip_pins_state {L : PrimitivesLaws} c1 h1 b1 qc1 vs1 o1 ov1 r1 c1' c2 h2 b2 qc2 vs2 o2 ov2 r2 c2' :
  apply_finalized_block_with_verifier c1 h1 b1 qc1 vs1 o1 ov1 = Ok (r1, c1') ->
  apply_finalized_block_with_verifier c2 h2 b2 qc2 vs2 o2 ov2 = Ok (r2, c2') ->
  Forall header_typed [h1; h2] -> state_typed (lc_state c1') -> state_typed (lc_state c2') ->
  lc_tip_hash c1' = lc_tip_hash c2' -> c1' = c2' \/ blake3_collision.
Proof.
  intros (s1 & X1 & _ & ->)%extends_iff (s2 & X2 & _ & ->)%extends_iff Hh T1 T2 E. cbn [lc_state lc_tip_hash] in *.
  destruct (header_hash_pins h1 h2 Hh E) as [->|?]; [|by right].
  pose proof (ex_root _ _ _ _ _ _ _ _ X1) as R1. rewrite (ex_root _ _ _ _ _ _ _ _ X2) in R1.
  unfold commitment, digest in R1. destruct (decide (state_preimage s2 = state_preimage s1)) as [Ep|Hne].
  - destruct (state_preimage_pins s2 s1 T2 T1 Ep) as [->|?]; [by left|by right].
  - right. by exists (state_preimage s2), (state_preimage s1).
Qed.
End FinalizedChain.
