(* ===== verification/ExecutionWitnesses.v ===== *)
(** * ExecutionWitnesses: two payments from genesis to a certified block

    Alice owns the genesis supply and pays Bob twice; the validator set of
    [ChainWitnesses] certifies the block.  The theorems on claims, execution
    and the finalized chain are applied to it. *)

From Stdlib Require Import ZArith Lia.
From stdpp Require Import base list gmap sets strings sorting.
From S2P Require Import Prelude Codec Crypto Identity Kel KelTheorems Chain ChainTheorems ChainWitnesses.
From S2P Require Import Economy EconomyTheorems Settlement SettlementTheorems Shielded Execution StatePins ExecutionFacts BlockFacts.
From S2P Require Import ExecutionTheorems.
Open Scope Z_scope.

#[local] Existing Instance Toy.primitives.
#[local] Existing Instance Toy.laws.
Import Scenario Voting.

Module Payments.
Definition key (n : Z) : SigningKey := mkSigningKey (replicate 32 n).
Definition alice : bytes := replicate 32 1.
Definition bob : bytes := replicate 32 2.
Definition no_claim : PaymentClaim := mkPaymentClaim [] [] [] 0 0 0 [] (mkSignature Ed25519 []).
Definition pay (amount seq : Z) : PaymentClaim :=
  match sign_claim (key 1) bob amount seq 10000 (lit "tip") 0 with Ok c => c | Err _ => no_claim end.
Definition first : PaymentClaim := Eval vm_compute in pay 300 0.
Definition second : PaymentClaim := Eval vm_compute in pay 200 1.
Definition genesis : LedgerState :=
  match with_genesis_balances 1000 [(alice, 1000)] with Ok s => s | Err _ => LedgerState_new end.
Definition body : SettlementBlockBody := body_new [first; second].
Definition after : LedgerState :=
  match apply_block genesis body with Ok s => s | Err _ => genesis end.

Lemma genesis_fine : genesis_state genesis.
Proof.
  eapply (genesis_balances MININET_NETWORK_ID 1000 [(alice, 1000)]).
  - split; vm_compute; discriminate.
  - repeat constructor; vm_compute; discriminate.
  - vm_compute. reflexivity.
Qed.
Lemma body_fine : body_typed body.
Proof. split; repeat constructor; vm_compute; discriminate. Qed.
Lemma after_run : run genesis [first; second] after.
Proof.
  assert ([first; second] = [] ++ executed genesis (bd_claims body)) as -> by (vm_compute; reflexivity).
  apply (run_block genesis [] genesis body None after);
    [apply run_genesis|apply body_fine|exact I|vm_compute; reflexivity].
Qed.
Lemma claim_ok c : bool_decide (length (pc_network_id c) = 32%nat) && (Z.of_nat (length (pc_payer c)) <=? U32_MAX) &&
  (Z.of_nat (length (pc_payee c)) <=? U32_MAX) && (0 <=? pc_amount_micro c) && (pc_amount_micro c <=? U64_MAX) &&
  (0 <=? pc_sequence c) && (pc_sequence c <=? U64_MAX) && (0 <=? pc_valid_until_ms c) &&
  (pc_valid_until_ms c <=? U64_MAX) && (Z.of_nat (length (pc_last_known_chain c)) <=? U32_MAX) = true -> claim_typed c.
Proof. intros H. bool_prop. by split. Qed.
Definition header : BlockHeader :=
  mkBlockHeader 1 zero_hash (commitment after) (body_hash body) 1 root_did.
Definition cert : QuorumCertificate :=
  mkQC 1 0 (header_hash header) [sign_vote Precommit 1 0 (header_hash header) root_did device].
Definition chain1 : LedgerChain := mkLedgerChain 1 (header_hash header) after.
Lemma chain_applied :
  apply_finalized_block_with_verifier (mkLedgerChain 0 zero_hash genesis) header body cert solo oracle None =
  Ok (commitment after, chain1).
Proof. vm_compute. reflexivity. Qed.
End Payments.
Import Payments.

Lemma claim_wire_round_trip_witness :
  exists b, claim_to_wire_bytes first = Ok b /\ claim_from_wire_bytes b = Ok first.
Proof.
  assert (exists b, claim_to_wire_bytes first = Ok b /\ bytes_ok b) as (b & E & Hb).
  { eexists. split; [vm_compute; reflexivity|]. apply (bool_decide_eq_true_1 (bytes_ok _)). vm_compute. reflexivity. }
  exists b. split; [exact E|]. apply (proj1 (claim_wire_round_trip b Hb) first). split; [exact E|].
  split; [apply claim_ok; vm_compute; reflexivity|reflexivity].
Defined.

Lemma one_winner_per_slot_witness : terms second = terms second \/ blake3_collision.
Proof.
  apply (proj1 (one_winner_per_slot after) second second 0 99999);
    [apply claim_ok; vm_compute; reflexivity|apply claim_ok; vm_compute; reflexivity|reflexivity|reflexivity| |];
    vm_compute; reflexivity.
Defined.

Lemma money_conserved_witness : balance after bob = balance genesis bob + net_flow [first; second] bob /\ balance after bob = 500.
Proof.
  split; [|vm_compute; reflexivity].
  exact (proj2 (proj2 (proj2 (proj2 (money_conserved genesis _ after genesis_fine after_run))) bob)).
Defined.

Lemma no_double_spend_witness : NoDup (map slot [first; second]).
Proof. exact (proj1 (no_double_spend genesis _ after genesis_fine after_run)). Defined.

Lemma payments_always_apply_witness : exists s', apply_block after (body_new [first; no_claim]) = Ok s'.
Proof.
  destruct (payments_always_apply genesis _ after [first; no_claim] genesis_fine after_run) as (s' & H & _).
  - repeat constructor; vm_compute; discriminate.
  - vm_compute. discriminate.
  - exists s'. exact H.
Defined.

Lemma finality_not_stable_witness : exists s1, apply_one_claim genesis first = Ok s1 /\ reconcile first s1 0 = Ok Finalized.
Proof.
  destruct (finality_not_stable genesis first 0 (proj1 (genesis_ok genesis genesis_fine))) as (s1 & H1 & H2 & _).
  - vm_compute. reflexivity.
  - vm_compute. discriminate.
  - exists s1. split; [exact H1|exact H2].
Defined.

Lemma default_typed : shielded_typed ShieldedLedger_default.
Proof.
  split; [constructor|intros k v; cbn; by rewrite lookup_empty|constructor|split; vm_compute; discriminate|].
  split; [|split]; split; vm_compute; discriminate.
Qed.
Lemma state_fine s : bool_decide (length (ls_network_id s) = 32%nat) &&
  forallb (fun e => (Z.of_nat (length e.1) <=? U32_MAX) && (0 <=? e.2.1) && (e.2.1 <=? U64_MAX) && (length e.2.2 =? 32)%nat)
    (map_to_list (ls_finalized s)) &&
  forallb (fun e => (Z.of_nat (length e.1) <=? U32_MAX) && (0 <=? e.2) && (e.2 <=? U128_MAX)) (map_to_list (ls_balances s)) &&
  bool_decide (ls_rejected s = ∅) && bool_decide (ls_nullifiers s = ∅) &&
  bool_decide (ls_shielded s = ShieldedLedger_default) &&
  (Z.of_nat (size (ls_finalized s)) <=? U64_MAX) && (Z.of_nat (size (ls_balances s)) <=? U64_MAX) = true ->
  monetary_typed (ls_monetary s) -> is_u128 (ls_allocated_circulating s) -> is_u128 (ls_unallocated_circulating s) ->
  state_typed s.
Proof.
  intros H Hm Ha Hu. bool_prop.
  match goal with H : forallb _ (map_to_list (ls_finalized s)) = true |- _ => rename H into HF; rewrite forallb_forall in HF end.
  match goal with H : forallb _ (map_to_list (ls_balances s)) = true |- _ => rename H into HB; rewrite forallb_forall in HB end.
  split; try done.
  - intros k v Hk%elem_of_map_to_list%list_elem_of_In. apply HF in Hk. by bool_prop.
  - intros k v. match goal with H : ls_rejected s = _ |- _ => rewrite H end. done.
  - intros k v. match goal with H : ls_nullifiers s = _ |- _ => rewrite H end. done.
  - intros k v Hk%elem_of_map_to_list%list_elem_of_In. apply HB in Hk. by bool_prop.
  - repeat match goal with H : ls_rejected s = _ |- _ => rewrite H | H : ls_nullifiers s = _ |- _ => rewrite H end.
    unfold is_u64. repeat split; done || lia.
  - match goal with H : ls_shielded s = _ |- _ => rewrite H end. apply default_typed.
Qed.
Lemma after_typed : state_typed after.
Proof.
  apply state_fine; [vm_compute; reflexivity| |split; vm_compute; discriminate|split; vm_compute; discriminate].
  assert (ls_monetary after = MonetaryLedger_new 1000) as -> by (vm_compute; reflexivity).
  split; [split; vm_compute; discriminate..|by intros ? [=]|split; vm_compute; discriminate|constructor].
Qed.

Lemma tip_pins_state_witness : chain1 = chain1 \/ blake3_collision.
Proof.
  apply (tip_pins_state _ header body cert solo oracle None _ chain1 _ header body cert solo oracle None _ chain1
    chain_applied chain_applied); [|apply after_typed|apply after_typed|reflexivity].
  assert (header_typed header) as H.
  { split; [split; vm_compute; discriminate|]. split; [split; vm_compute; discriminate|].
    split; [reflexivity|]. split; vm_compute; reflexivity. }
  constructor; [exact H|constructor; [exact H|constructor]].
Defined.

Lemma body_hash_pins_content_witness : content body = content body \/ blake3_collision.
Proof.
  assert (body_wire_typed body) as H.
  { split; [|constructor|constructor|repeat split; vm_compute; discriminate].
    constructor; [apply claim_ok; vm_compute; reflexivity|].
    constructor; [apply claim_ok; vm_compute; reflexivity|constructor]. }
  exact (proj1 (body_hash_pins_content body body H H) eq_refl).
Defined.

(** ** Offers to one recipient *)
Lemma local_acceptance_consistent_witness :
  offer_digest (OfferV1 first 0) = offer_digest (OfferV1 first 5) /\
  offer_run (mkLocalAcceptancePolicy 500) [OfferV1 first 0; OfferV1 (pay 999 0) 0; OfferV1 first 5] InMemoryClaimWatcher_new =
    [(OfferV1 first 0, AcceptedLocal); (OfferV1 first 5, AcceptedLocal)].
Proof.
  assert (offer_run (mkLocalAcceptancePolicy 500) [OfferV1 first 0; OfferV1 (pay 999 0) 0; OfferV1 first 5]
    InMemoryClaimWatcher_new = [(OfferV1 first 0, AcceptedLocal); (OfferV1 first 5, AcceptedLocal)]) as E
    by (vm_compute; reflexivity).
  split; [|exact E].
  apply (proj1 (local_acceptance_consistent (W := InMemoryClaimWatcher) (mkLocalAcceptancePolicy 500) _ InMemoryClaimWatcher_new)
    (OfferV1 first 0) AcceptedLocal (OfferV1 first 5) AcceptedLocal
    ltac:(rewrite E; left) ltac:(rewrite E; right; left)); [discriminate|discriminate|reflexivity].
Defined.

(** ** A shielded spend *)
Module Coins.
Definition coin (n : Z) : ShieldedOutput := mkShieldedOutput (replicate 32 n) (replicate 32 (n + 100)).
Definition verifier : ClaimVerifier := mkClaimVerifier
  (fun _ d _ => Some (mkEffects [coin 1] [mkShieldedOutput d d] 5)) (fun _ _ => true).
Definition pool : LedgerState :=
  match with_shielded_genesis MININET_NETWORK_ID [mkShieldedAllocation (coin 1) 100] verifier with
  | Ok s => s | Err _ => LedgerState_new end.
Definition claim : bytes := replicate 32 9.
Definition spend : SettlementBlockBody :=
  with_nullifiers (body_new []) [mkNullifierRecord [7] claim; mkNullifierRecord [8] claim].
Definition spent_pool : LedgerState :=
  match apply_block_with_verifier pool spend (Some verifier) with Ok s => s | Err _ => pool end.
End Coins.

Lemma spends_whole_and_permanent_witness :
  all_or_nothing Coins.pool Coins.spent_pool Coins.claim (group_of (bd_nullifiers Coins.spend) Coins.claim) /\
  ls_nullifiers Coins.spent_pool !! [8] = Some Coins.claim.
Proof.
  split; [|vm_compute; reflexivity].
  refine (proj2 (proj1 (proj2 (spends_whole_and_permanent Coins.pool Coins.spend (Some Coins.verifier) Coins.spent_pool _))
    Coins.claim _)).
  - vm_compute. reflexivity.
  - vm_compute. discriminate.
Defined.
