(* ===== verification/Wire.v ===== *)
(** * Wire: the consensus messages on the network

    Models [crates/mini-consensus/src/wire.rs] (proposals, their signature,
    the two messages of a round, the codecs of headers and bodies),
    [catchup.rs] (finalized blocks, catch-up requests and responses) and
    [error.rs].  The source's [Reader] is the cursor of [Codec] with the
    errors [Malformed] and [TooLarge]; [put_bytes] is [w_bytes].

    [body_to_wire] is what the source writes: the claims and the monetary
    epochs of a body, and not its shielded spends. *)

From Stdlib Require Import ZArith Lia.
From stdpp Require Import base list gmap sets strings.
From S2P Require Import Prelude Codec Crypto Identity Kel Chain Economy Settlement Shielded Execution.
Open Scope Z_scope.

(** ** [error.rs]

    The constructors that carry another subsystem's error and that nothing
    modelled raises are left out: transport, discovery and the validator
    handshake. *)
Inductive ConsensusError :=
| CoMalformed
| CoTooLarge
| CoChain (e : ChainError)
| CoExecution (e : ExecutionError)
| CoStalled
| CatchupOutOfOrder (expected got : Z)
| CoStorage (message : bytes)
| StateSyncWrongNetwork
| StateSyncTooManyBlocks (maximum got : Z)
| StateSyncUnavailable (earliest_height tip_height : Z)
| CoSnapshotProofMismatch
| SnapshotNotNewer (current got : Z)
| ArchiveConflict (height : Z).

(** ** [wire.rs] *)
Definition MSG_DOMAIN : bytes := lit "mini-consensus/msg/v3".
Definition PROPOSAL_SIGN_DOMAIN : bytes := lit "mini-consensus/proposal/v3".
Definition MAX_SIGS_PER_PROPOSAL : Z := MAX_SIGNATURES.
(** [mini_bearer::MAX_FRAME_BYTES]. *)
Definition MAX_MESSAGE_BYTES : Z := 16 * 1024 * 1024.
Definition MAX_OPAQUE_FIELD_BYTES : Z := 4096.
Definition MAX_WIRE_DID_BYTES : Z := 512.

Record Proposal := mkProposal {
  pr_round : Z;
  pr_valid_round : Z;
  pr_proposer_root : Did;
  pr_proposer_device : Did;
  pr_header : BlockHeader;
  pr_body : SettlementBlockBody;
  pr_signature : list IndexedSig;
}.

(** An [i64] is written as the [u64] with the same bits. *)
Definition w_i64 (v : Z) : bytes := w_u64 (v mod 2 ^ 64).
Definition as_i64 (v : Z) : Z := if v <? 2 ^ 63 then v else v - 2 ^ 64.

Definition proposal_transcript (height round valid_round : Z) (block_hash body_hash : bytes) (proposer_root : Did) : bytes :=
  PROPOSAL_SIGN_DOMAIN ++ w_u64 height ++ w_u32 round ++ w_i64 valid_round ++ block_hash ++ body_hash ++
  w_bytes (did_str proposer_root).

Definition co_take (n : nat) : parser ConsensusError bytes := r_take CoMalformed n.
Definition co_u8 : parser ConsensusError Z := r_u8 CoMalformed.
Definition co_u32 : parser ConsensusError Z := r_u32 CoMalformed.
Definition co_u64 : parser ConsensusError Z := r_u64 CoMalformed.
Definition co_i64 : parser ConsensusError Z := v ← co_u64; mret (as_i64 v).
Definition co_bytes (max : Z) : parser ConsensusError bytes := bytes_limited CoMalformed (fun _ => CoTooLarge) max.
Definition co_malformed {E A} (r : result E A) : result ConsensusError A := map_err (fun _ => CoMalformed) r.
(** [if reader.take(domain.len())? != domain]. *)
Definition co_domain (domain : bytes) : parser ConsensusError unit :=
  d ← co_take (length domain);
  lift (fail_if (negb (bool_decide (d = domain))) CoMalformed).
(** Decode a whole buffer: [!reader.finished()] is an error. *)
Definition co_all {A} (p : parser ConsensusError A) (b : bytes) : result ConsensusError A :=
  '(a, r) ← p (Reader_new b);
  _ ← fail_if (negb (finished r)) CoMalformed;
  Ok a.

Definition header_to_wire (h : BlockHeader) : bytes :=
  w_u64 (bh_height h) ++ bh_prev_hash h ++ bh_state_root h ++ bh_body_root h ++ w_u64 (bh_timestamp_ms h) ++
  w_bytes (did_str (bh_proposer h)).

Definition wire_claim (c : PaymentClaim) : bytes :=
  pc_network_id c ++ w_bytes (pc_payer c) ++ w_bytes (pc_payee c) ++ w_u64 (pc_amount_micro c) ++ w_u64 (pc_sequence c) ++
  w_u64 (pc_valid_until_ms c) ++ w_bytes (pc_last_known_chain c) ++ w_u8 (suite_tag (sig_suite (pc_signature c))) ++
  sig_bytes (pc_signature c).
Definition body_to_wire (b : SettlementBlockBody) : bytes :=
  w_u32 (Z.of_nat (length (bd_claims b))) ++ concat (map wire_claim (bd_claims b)) ++
  w_u32 (Z.of_nat (length (bd_monetary_epochs b))) ++
  concat (map (fun e => w_bytes (plan_canonical_bytes e)) (bd_monetary_epochs b)).
Definition sigs_to_wire (sigs : list IndexedSig) : bytes :=
  w_u32 (Z.of_nat (length sigs)) ++ concat (map wire_sig sigs).

Section Wire.
Context {P : Primitives}.

Definition sign_proposal (round valid_round : Z) (header : BlockHeader) (body : SettlementBlockBody) (proposer_root : Did)
    (device : Controller) : Proposal :=
  mkProposal round valid_round proposer_root (kel_did (ctl_kel device)) header body
    (sign_message device
      (proposal_transcript (bh_height header) round valid_round (header_hash header) (body_hash body) proposer_root)).

Definition verify_proposal (p : Proposal) (root_kel device_kel : Kel) : result ConsensusError unit :=
  _ ← fail_if (negb (bool_decide (bh_body_root (pr_header p) = body_hash (pr_body p)))) CoMalformed;
  _ ← fail_if (negb (bool_decide (did_str (kel_did device_kel) = did_str (pr_proposer_device p))) ||
        negb (bool_decide (did_str (kel_did root_kel) = did_str (pr_proposer_root p)))) CoMalformed;
  caps ← co_malformed (verify_delegation root_kel device_kel);
  _ ← fail_if (negb (cap_contains caps VOTE)) CoMalformed;
  co_malformed (verify_message device_kel
    (proposal_transcript (bh_height (pr_header p)) (pr_round p) (pr_valid_round p) (header_hash (pr_header p))
       (body_hash (pr_body p)) (pr_proposer_root p)) (pr_signature p)).

Inductive ConsensusMessage := MsgProposal (p : Proposal) | MsgVote (v : Vote).
Definition TAG_PROPOSAL : Z := 0.
Definition TAG_VOTE : Z := 1.

Definition proposal_to_wire (p : Proposal) : bytes :=
  w_u32 (pr_round p) ++ w_i64 (pr_valid_round p) ++ w_bytes (did_str (pr_proposer_root p)) ++
  w_bytes (did_str (pr_proposer_device p)) ++ header_to_wire (pr_header p) ++ body_to_wire (pr_body p) ++
  sigs_to_wire (pr_signature p).
Definition message_to_wire (m : ConsensusMessage) : bytes :=
  MSG_DOMAIN ++
  match m with
  | MsgProposal p => w_u8 TAG_PROPOSAL ++ proposal_to_wire p
  | MsgVote v => w_u8 TAG_VOTE ++ w_bytes (to_wire_bytes v)
  end.

Definition decode_did : parser ConsensusError Did :=
  raw ← co_bytes MAX_WIRE_DID_BYTES;
  _ ← lift (fail_if (negb (utf8_valid raw)) CoMalformed);
  lift (co_malformed (Did_parse raw)).
Definition decode_header : parser ConsensusError BlockHeader :=
  height ← co_u64;
  prev_hash ← co_take 32;
  state_root ← co_take 32;
  body_root ← co_take 32;
  timestamp_ms ← co_u64;
  proposer ← decode_did;
  mret (mkBlockHeader height prev_hash state_root body_root timestamp_ms proposer).

(** The suite tag and the signature bytes, as both decoders read them. *)
Definition decode_signature : parser ConsensusError Signature :=
  tag ← co_u8;
  suite ← lift (co_malformed (suite_from_tag tag));
  sb ← co_take (signature_len suite);
  lift (co_malformed (Signature_from_suite_bytes suite sb)).
Definition decode_claim : parser ConsensusError PaymentClaim :=
  network_id ← co_take 32;
  payer ← co_bytes MAX_OPAQUE_FIELD_BYTES;
  payee ← co_bytes MAX_OPAQUE_FIELD_BYTES;
  amount_micro ← co_u64;
  sequence ← co_u64;
  valid_until_ms ← co_u64;
  last_known_chain ← co_bytes MAX_OPAQUE_FIELD_BYTES;
  signature ← decode_signature;
  mret (mkPaymentClaim network_id payer payee amount_micro sequence valid_until_ms last_known_chain signature).
Definition decode_epoch : parser ConsensusError ScalableEpochPlan :=
  b ← co_bytes MAX_SCALABLE_EPOCH_PLAN_BYTES;
  lift (co_malformed (plan_from_wire_bytes b)).
Definition decode_body : parser ConsensusError SettlementBlockBody :=
  count ← co_u32;
  _ ← lift (fail_if (MAX_CLAIMS_PER_BLOCK <? count) CoTooLarge);
  claims ← r_repeat (Z.to_nat count) decode_claim;
  epoch_count ← co_u32;
  _ ← lift (fail_if (MAX_MONETARY_EPOCHS_PER_BLOCK <? epoch_count) CoTooLarge);
  monetary_epochs ← r_repeat (Z.to_nat epoch_count) decode_epoch;
  mret (with_monetary_epochs (body_new claims) monetary_epochs).
Definition decode_indexed_sig : parser ConsensusError IndexedSig :=
  index ← co_u32;
  sg ← decode_signature;
  mret (mkIndexedSig index sg).
Definition decode_indexed_sigs : parser ConsensusError (list IndexedSig) :=
  count ← co_u32;
  _ ← lift (fail_if (MAX_SIGS_PER_PROPOSAL <? count) CoTooLarge);
  r_repeat (Z.to_nat count) decode_indexed_sig.
Definition decode_vote_bytes : parser ConsensusError Vote :=
  vote_bytes ← co_bytes MAX_MESSAGE_BYTES;
  lift (co_malformed (from_wire_bytes vote_bytes)).

Definition decode_proposal : parser ConsensusError Proposal :=
  round ← co_u32;
  valid_round ← co_i64;
  proposer_root ← decode_did;
  proposer_device ← decode_did;
  header ← decode_header;
  body ← decode_body;
  signature ← decode_indexed_sigs;
  mret (mkProposal round valid_round proposer_root proposer_device header body signature).
Definition decode_message : parser ConsensusError ConsensusMessage :=
  _ ← co_domain MSG_DOMAIN;
  tag ← co_u8;
  if tag =? TAG_PROPOSAL then p ← decode_proposal; mret (MsgProposal p)
  else if tag =? TAG_VOTE then v ← decode_vote_bytes; mret (MsgVote v)
  else lift (Err CoMalformed).
Definition message_from_wire (b : bytes) : result ConsensusError ConsensusMessage :=
  _ ← fail_if (MAX_MESSAGE_BYTES <? Z.of_nat (length b)) CoTooLarge;
  co_all decode_message b.

(** ** [catchup.rs] *)
Definition MAX_CATCHUP_BLOCKS : nat := 1024.
Definition CATCHUP_DOMAIN : bytes := lit "mini-consensus/catchup/v2".
Definition TAG_REQUEST : Z := 0.
Definition TAG_RESPONSE : Z := 1.
Definition FINALIZED_BLOCK_DOMAIN : bytes := lit "mini-consensus/finalized-block/v2".

Record FinalizedBlock := mkFinalized { fb_header : BlockHeader; fb_body : SettlementBlockBody; fb_qc : QuorumCertificate }.

Definition qc_to_wire (qc : QuorumCertificate) : bytes :=
  w_u64 (qc_height qc) ++ w_u32 (qc_round qc) ++ qc_block_hash qc ++ w_u32 (Z.of_nat (length (qc_votes qc))) ++
  concat (map (fun v => w_bytes (to_wire_bytes v)) (qc_votes qc)).
Definition decode_qc : parser ConsensusError QuorumCertificate :=
  height ← co_u64;
  round ← co_u32;
  block_hash ← co_take 32;
  vote_count ← co_u32;
  _ ← lift (fail_if (MAX_VOTES_PER_CERTIFICATE <? vote_count) CoTooLarge);
  votes ← r_repeat (Z.to_nat vote_count) decode_vote_bytes;
  mret (mkQC height round block_hash votes).

Definition block_bytes (b : FinalizedBlock) : bytes := header_to_wire (fb_header b) ++ body_to_wire (fb_body b) ++ qc_to_wire (fb_qc b).
Definition decode_block : parser ConsensusError FinalizedBlock :=
  header ← decode_header; body ← decode_body; qc ← decode_qc; mret (mkFinalized header body qc).
Definition root_matches (b : FinalizedBlock) : bool := bool_decide (bh_body_root (fb_header b) = body_hash (fb_body b)).

Definition block_to_wire (b : FinalizedBlock) : result ConsensusError bytes :=
  _ ← fail_if (negb (root_matches b)) CoMalformed;
  let out := FINALIZED_BLOCK_DOMAIN ++ block_bytes b in
  _ ← fail_if (MAX_MESSAGE_BYTES <? Z.of_nat (length out)) CoTooLarge;
  Ok out.
Definition block_from_wire (b : bytes) : result ConsensusError FinalizedBlock :=
  _ ← fail_if (MAX_MESSAGE_BYTES <? Z.of_nat (length b)) CoTooLarge;
  '(block, r) ← (_ ← co_domain FINALIZED_BLOCK_DOMAIN; decode_block) (Reader_new b);
  _ ← fail_if (negb (finished r) || negb (root_matches block)) CoMalformed;
  again ← block_to_wire block;
  _ ← fail_if (negb (bool_decide (again = b))) CoMalformed;
  Ok block.

Record CatchupRequest := mkCatchupRequest { cq_from_height : Z }.
Definition request_to_wire (q : CatchupRequest) : bytes := CATCHUP_DOMAIN ++ w_u8 TAG_REQUEST ++ w_u64 (cq_from_height q).
Definition decode_request : parser ConsensusError CatchupRequest :=
  _ ← co_domain CATCHUP_DOMAIN;
  tag ← co_u8;
  _ ← lift (fail_if (negb (tag =? TAG_REQUEST)) CoMalformed);
  from_height ← co_u64;
  mret (mkCatchupRequest from_height).
Definition request_from_wire (b : bytes) : result ConsensusError CatchupRequest := co_all decode_request b.

Record CatchupResponse := mkCatchupResponse { cr_blocks : list FinalizedBlock }.
Definition response_to_wire (p : CatchupResponse) : bytes :=
  CATCHUP_DOMAIN ++ w_u8 TAG_RESPONSE ++ w_u32 (Z.of_nat (length (cr_blocks p))) ++ concat (map block_bytes (cr_blocks p)).
Definition decode_checked_block : parser ConsensusError FinalizedBlock :=
  block ← decode_block;
  _ ← lift (fail_if (negb (root_matches block)) CoMalformed);
  mret block.
Definition decode_response : parser ConsensusError CatchupResponse :=
  _ ← co_domain CATCHUP_DOMAIN;
  tag ← co_u8;
  _ ← lift (fail_if (negb (tag =? TAG_RESPONSE)) CoMalformed);
  count ← co_u32;
  _ ← lift (fail_if (Z.of_nat MAX_CATCHUP_BLOCKS <? count) CoTooLarge);
  blocks ← r_repeat (Z.to_nat count) decode_checked_block;
  mret (mkCatchupResponse blocks).
Definition response_from_wire (b : bytes) : result ConsensusError CatchupResponse := co_all decode_response b.

End Wire.
