(* ===== verification/WireTheorems.v ===== *)
(** * WireTheorems: what crosses the network, and what does not

    Every message, block, request and response decodes from its own bytes
    and only canonical bytes decode, with one exception that is a property
    of its own: a body's shielded spends are not written, so a block that has
    any cannot be received. *)

From Stdlib Require Import ZArith Lia.
From stdpp Require Import base list gmap sets strings.
From S2P Require Import Prelude Codec Crypto Identity Kel KelFacts KelTheorems Chain ChainTheorems Economy EconomyWire.
From S2P Require Import Settlement SettlementTheorems Shielded Execution StatePins Wire.
Open Scope Z_scope.

(** The part of a body that is written. *)
Definition written_body (b : SettlementBlockBody) : SettlementBlockBody := mkBody (bd_claims b) [] (bd_monetary_epochs b).

(** ** Values within the format's limits *)
Definition header_wf `{Primitives} (h : BlockHeader) : Prop :=
  is_u64 (bh_height h) /\ length (bh_prev_hash h) = 32%nat /\ length (bh_state_root h) = 32%nat /\
  length (bh_body_root h) = 32%nat /\ is_u64 (bh_timestamp_ms h) /\ vote_did_wf (bh_proposer h).
Record claim_wf (c : PaymentClaim) : Prop := {
  cw_typed : claim_typed c;
  cw_payer : Z.of_nat (length (pc_payer c)) <= MAX_OPAQUE_FIELD_BYTES;
  cw_payee : Z.of_nat (length (pc_payee c)) <= MAX_OPAQUE_FIELD_BYTES;
  cw_chain : Z.of_nat (length (pc_last_known_chain c)) <= MAX_OPAQUE_FIELD_BYTES;
}.
Section Wf.
Context {P : Primitives}.
Definition body_wf (b : SettlementBlockBody) : Prop :=
  Z.of_nat (length (bd_claims b)) <= MAX_CLAIMS_PER_BLOCK /\
  Forall (fun c => claim_wf c /\ signature_typed (pc_signature c)) (bd_claims b) /\
  Z.of_nat (length (bd_monetary_epochs b)) <= MAX_MONETARY_EPOCHS_PER_BLOCK /\
  Forall (fun e => plan_wire_typed e /\ is_ok (plan_to_wire_bytes e) = true) (bd_monetary_epochs b).
Definition sigs_wf (l : list IndexedSig) : Prop :=
  Z.of_nat (length l) <= MAX_SIGS_PER_PROPOSAL /\
  Forall (fun s => is_u32 (is_index s) /\ signature_typed (is_signature s)) l.
Definition proposal_wf (p : Proposal) : Prop :=
  is_u32 (pr_round p) /\ - 2 ^ 63 <= pr_valid_round p < 2 ^ 63 /\ vote_did_wf (pr_proposer_root p) /\
  vote_did_wf (pr_proposer_device p) /\ header_wf (pr_header p) /\ body_wf (pr_body p) /\ sigs_wf (pr_signature p).
Definition wire_vote_wf (v : Vote) : Prop := vote_wf v /\ Z.of_nat (length (to_wire_bytes v)) <= MAX_MESSAGE_BYTES.
Definition qc_wf (qc : QuorumCertificate) : Prop :=
  is_u64 (qc_height qc) /\ is_u32 (qc_round qc) /\ length (qc_block_hash qc) = 32%nat /\
  Z.of_nat (length (qc_votes qc)) <= MAX_VOTES_PER_CERTIFICATE /\ Forall wire_vote_wf (qc_votes qc).
Definition block_wf (b : FinalizedBlock) : Prop := header_wf (fb_header b) /\ body_wf (fb_body b) /\ qc_wf (fb_qc b).
Definition message_wf (m : ConsensusMessage) : Prop :=
  match m with MsgProposal p => proposal_wf p | MsgVote v => wire_vote_wf v end.
End Wf.

(** ** Decoding what was written *)
Ltac wire_side := first [done | assumption | unfold is_u8, is_u32, is_u64, U8_MAX, U32_MAX, U64_MAX in *; lia].

Section Parsing.
Context {P : Primitives}.

Lemma parses_co_take n b : length b = n -> parses (co_take n) b b.
Proof. apply parses_take. Qed.
Lemma parses_co_u8 x : parses co_u8 (w_u8 x) x.
Proof. apply parses_u8. Qed.
Lemma parses_co_u32 x : is_u32 x -> parses co_u32 (w_u32 x) x.
Proof. apply parses_u32. Qed.
Lemma parses_co_u64 x : is_u64 x -> parses co_u64 (w_u64 x) x.
Proof. apply parses_u64. Qed.
Lemma parses_co_bytes max b : Z.of_nat (length b) <= max -> max <= U32_MAX -> parses (co_bytes max) (w_bytes b) b.
Proof. apply parses_bytes_limited. Qed.
Lemma as_i64_mod v : - 2 ^ 63 <= v < 2 ^ 63 -> as_i64 (v mod 2 ^ 64) = v.
Proof.
  intros Hv. unfold as_i64. destruct (Z.lt_ge_cases v 0).
  - rewrite <- (Z.mod_unique v (2 ^ 64) (-1) (v + 2 ^ 64)) by lia. destruct (Z.ltb_spec (v + 2 ^ 64) (2 ^ 63)); lia.
  - rewrite Z.mod_small by lia. destruct (Z.ltb_spec v (2 ^ 63)); lia.
Qed.
Lemma parses_co_i64 v : - 2 ^ 63 <= v < 2 ^ 63 -> parses co_i64 (w_i64 v) v.
Proof.
  intros Hv. unfold co_i64, w_i64. eapply parses_bind_nil.
  - apply parses_co_u64. pose proof (Z.mod_pos_bound v (2 ^ 64) ltac:(lia)). unfold is_u64, U64_MAX. lia.
  - rewrite <- (as_i64_mod v Hv) at 2. apply parses_ret.
Qed.
Lemma parses_co_domain d : parses (co_domain d) d tt.
Proof.
  unfold co_domain. eapply parses_bind_nil; [by apply parses_co_take|].
  apply parses_lift_end. by rewrite bool_decide_eq_true_2.
Qed.
Lemma parses_check {A} (c : bool) e (p : parser ConsensusError A) b a : c = false -> parses p b a ->
  parses (_ ← lift (fail_if c e); p) b a.
Proof. intros -> Hp. by apply (parses_lift _ (fun _ => p) b tt a). Qed.

Lemma parses_wire_did d : vote_did_wf d -> parses decode_did (w_bytes (did_str d)) d.
Proof.
  intros (Hl & Hu & Hp). unfold decode_did. eapply parses_bind_nil; [apply parses_co_bytes; [exact Hl|vm_compute; discriminate]|].
  apply parses_check; [by rewrite Hu|]. apply parses_lift_end. unfold co_malformed. by rewrite Hp.
Qed.
Lemma parses_header h : header_wf h -> parses decode_header (header_to_wire h) h.
Proof.
  intros (H1 & H2 & H3 & H4 & H5 & H6). unfold decode_header, header_to_wire.
  eapply parses_bind; [by apply parses_co_u64|]. do 3 (eapply parses_bind; [by apply parses_co_take|]).
  eapply parses_bind; [by apply parses_co_u64|]. eapply parses_bind_nil; [by apply parses_wire_did|]. destruct h. apply parses_ret.
Qed.
Lemma parses_signature s : signature_typed s -> parses decode_signature (w_u8 (suite_tag (sig_suite s)) ++ sig_bytes s) s.
Proof.
  intros Hs. unfold decode_signature. eapply parses_bind; [apply parses_co_u8|].
  eapply parses_lift; [unfold co_malformed; by rewrite suite_from_tag_tag|].
  eapply parses_bind_nil; [by apply parses_co_take|]. apply parses_lift_end. unfold co_malformed, Signature_from_suite_bytes.
  unfold signature_typed in Hs. rewrite Hs, Nat.eqb_refl. by destruct s.
Qed.
Lemma parses_wire_claim c : claim_wf c -> signature_typed (pc_signature c) -> parses decode_claim (wire_claim c) c.
Proof.
  intros [[H1 _ _ H4 H5 H6 _] H2 H3 H7] Hs. unfold decode_claim, wire_claim.
  eapply parses_bind; [by apply parses_co_take|].
  do 2 (eapply parses_bind; [by apply parses_co_bytes|]). do 3 (eapply parses_bind; [by apply parses_co_u64|]).
  eapply parses_bind; [by apply parses_co_bytes|].
  eapply parses_bind_nil; [by apply parses_signature|]. destruct c. apply parses_ret.
Qed.
Lemma parses_epoch e : plan_wire_typed e -> is_ok (plan_to_wire_bytes e) = true ->
  parses decode_epoch (w_bytes (plan_canonical_bytes e)) e.
Proof.
  intros Ht (b & Hb)%is_ok_true. pose proof (plan_to_wire_ok _ _ Hb) as (-> & _ & Hl & _). unfold decode_epoch.
  eapply parses_bind_nil; [apply parses_co_bytes; [exact Hl|vm_compute; discriminate]|].
  apply parses_lift_end. unfold co_malformed. by rewrite (proj2 (plan_wire_round_trip e _ Ht) Hb).
Qed.
(** A body decodes to what of it was written. *)
Lemma parses_body b : body_wf b -> parses decode_body (body_to_wire b) (written_body b).
Proof.
  intros (H1 & H2 & H3 & H4). unfold decode_body, body_to_wire, MAX_CLAIMS_PER_BLOCK, MAX_MONETARY_EPOCHS_PER_BLOCK in *.
  eapply parses_bind; [apply parses_co_u32; wire_side|]. apply parses_check; [by apply Z.ltb_ge|]. rewrite Nat2Z.id.
  eapply parses_bind; [apply parses_repeat; eapply Forall_impl; [exact H2|]; intros c [? ?]; by apply parses_wire_claim|].
  eapply parses_bind; [apply parses_co_u32; wire_side|]. apply parses_check; [by apply Z.ltb_ge|]. rewrite Nat2Z.id.
  eapply parses_bind_nil; [apply (parses_repeat decode_epoch (fun e => w_bytes (plan_canonical_bytes e)));
    eapply Forall_impl; [exact H4|]; intros e [? ?]; by apply parses_epoch|].
  apply parses_ret.
Qed.
Lemma parses_sigs l : sigs_wf l -> parses decode_indexed_sigs (sigs_to_wire l) l.
Proof.
  intros (H1 & H2). unfold decode_indexed_sigs, sigs_to_wire, MAX_SIGS_PER_PROPOSAL, MAX_SIGNATURES in *.
  eapply parses_bind; [apply parses_co_u32; wire_side|]. apply parses_check; [by apply Z.ltb_ge|]. rewrite Nat2Z.id.
  apply parses_repeat. eapply Forall_impl; [exact H2|]. intros [i s] [Hi Hs]. unfold decode_indexed_sig, wire_sig.
  eapply parses_bind; [by apply parses_co_u32|]. eapply parses_bind_nil; [by apply parses_signature|]. apply parses_ret.
Qed.
Lemma parses_vote_bytes v : wire_vote_wf v -> parses decode_vote_bytes (w_bytes (to_wire_bytes v)) v.
Proof.
  intros [Hv Hl]. unfold decode_vote_bytes. eapply parses_bind_nil; [apply parses_co_bytes; [exact Hl|vm_compute; discriminate]|].
  apply parses_lift_end. unfold co_malformed. by rewrite vote_round_trip.
Qed.
Lemma parses_qc qc : qc_wf qc -> parses decode_qc (qc_to_wire qc) qc.
Proof.
  intros (H1 & H2 & H3 & H4 & H5). unfold decode_qc, qc_to_wire.
  eapply parses_bind; [by apply parses_co_u64|]. eapply parses_bind; [by apply parses_co_u32|].
  eapply parses_bind; [by apply parses_co_take|].
  eapply parses_bind; [apply parses_co_u32; unfold MAX_VOTES_PER_CERTIFICATE, MAX_VALIDATORS in *; wire_side|].
  apply parses_check; [by apply Z.ltb_ge|]. rewrite Nat2Z.id.
  eapply parses_bind_nil; [apply (parses_repeat decode_vote_bytes (fun v => w_bytes (to_wire_bytes v)));
    eapply Forall_impl; [exact H5|]; apply parses_vote_bytes|].
  destruct qc. apply parses_ret.
Qed.
Lemma parses_proposal p : proposal_wf p ->
  parses decode_proposal (proposal_to_wire p)
    (mkProposal (pr_round p) (pr_valid_round p) (pr_proposer_root p) (pr_proposer_device p) (pr_header p)
       (written_body (pr_body p)) (pr_signature p)).
Proof.
  intros (H1 & H2 & H3 & H4 & H5 & H6 & H7). unfold decode_proposal, proposal_to_wire.
  eapply parses_bind; [by apply parses_co_u32|]. eapply parses_bind; [by apply parses_co_i64|].
  do 2 (eapply parses_bind; [by apply parses_wire_did|]). eapply parses_bind; [by apply parses_header|].
  eapply parses_bind; [by apply parses_body|]. eapply parses_bind_nil; [by apply parses_sigs|]. apply parses_ret.
Qed.
Definition written_block (b : FinalizedBlock) : FinalizedBlock := mkFinalized (fb_header b) (written_body (fb_body b)) (fb_qc b).
Lemma parses_block b : block_wf b -> parses decode_block (block_bytes b) (written_block b).
Proof.
  intros (H1 & H2 & H3). unfold decode_block, block_bytes. eapply parses_bind; [by apply parses_header|].
  eapply parses_bind; [by apply parses_body|]. eapply parses_bind_nil; [by apply parses_qc|]. apply parses_ret.
Qed.
Lemma co_all_parses {A} (p : parser ConsensusError A) b a : parses p b a -> co_all p b = Ok a.
Proof. intros H. unfold co_all. destruct (parses_new _ _ _ H) as (r & -> & Hf). cbn. by rewrite Hf. Qed.
End Parsing.

(** ** Only canonical bytes are accepted *)
#[global] Instance canonical_co_u8 : Canonical co_u8 w_u8.
Proof. intros r a r' _ H. by apply r_u8_consumes in H. Qed.
#[global] Instance canonical_co_u32 : Canonical co_u32 w_u32.
Proof. intros r a r' Hok H. by apply r_u32_consumes in H as [? _]. Qed.
#[global] Instance canonical_co_u64 : Canonical co_u64 w_u64.
Proof. intros r a r' Hok H. by apply r_u64_consumes in H as [? _]. Qed.
#[global] Instance canonical_co_take n : Canonical (co_take n) (fun b => b).
Proof. intros r a r' _ H. by apply r_take_consumes in H as [? _]. Qed.
#[global] Instance canonical_co_bytes max : Canonical (co_bytes max) w_bytes.
Proof. intros r a r' Hok H. by apply bytes_limited_consumes in H as [? _]. Qed.
#[global] Instance canonical_co_i64 : Canonical co_i64 w_i64.
Proof.
  intros r a r' Hok H. unfold co_i64 in H. parse_inv. apply r_u64_consumes in Hp as [Hc Hu]; [|done].
  unfold w_i64. replace (as_i64 a0 mod 2 ^ 64) with a0; [done|]. unfold as_i64, is_u64, U64_MAX in *.
  destruct (Z.ltb_spec a0 (2 ^ 63)); [by rewrite Z.mod_small by lia|].
  apply Z.mod_unique with (-1); lia.
Qed.

(** A counted list: what [n ← co_u32; .. r_repeat n p] reads. *)
Lemma counted_consumes {A} (p : parser ConsensusError A) enc n l r1 r2 r3 `{!Canonical p enc} :
  bytes_ok (rbuf r1) -> co_u32 r1 = Ok (n, r2) -> r_repeat (Z.to_nat n) p r2 = Ok (l, r3) ->
  consumes r1 r3 (w_u32 (Z.of_nat (length l)) ++ concat (map enc l)).
Proof.
  intros Hok H1 H2. apply r_u32_consumes in H1 as [C1 Hu]; [|done].
  apply (r_repeat_consumes p enc) in H2 as [C2 Hl]; [|done|by eapply consumes_bytes_ok].
  unfold is_u32 in Hu. rewrite Hl, Z2Nat.id by lia. by eapply consumes_trans.
Qed.
Ltac counted enc :=
  match goal with Hok : bytes_ok (rbuf ?r1), H1 : co_u32 ?r1 = Ok (?n, ?r2), H2 : r_repeat (Z.to_nat ?n) ?p ?r2 = Ok (?l, ?r3) |- _ =>
    let C := fresh "Hc" in
    pose proof (counted_consumes p enc n l r1 r2 r3 Hok H1 H2) as C;
    pose proof (consumes_bytes_ok _ _ _ Hok C); clear H1 H2 end.

Section Canon.
Context {P : Primitives}.
#[global] Instance canonical_decode_did : Canonical decode_did (fun d => w_bytes (did_str d)).
Proof.
  intros r d r' Hok H. unfold decode_did in H. parse_inv. unfold co_malformed in H. ok_inv. apply Did_parse_str in H as ->.
  canon_chain.
Qed.
#[global] Instance canonical_header : Canonical decode_header header_to_wire.
Proof. intros r h r' Hok H. unfold decode_header in H. parse_inv. unfold header_to_wire. cbn [bh_height bh_prev_hash bh_state_root bh_body_root bh_timestamp_ms bh_proposer]. canon_chain. Qed.
#[global] Instance canonical_signature : Canonical decode_signature (fun s => w_u8 (suite_tag (sig_suite s)) ++ sig_bytes s).
Proof.
  intros r s r' Hok H. unfold decode_signature in H. parse_inv. unfold co_malformed, Signature_from_suite_bytes in *. ok_inv.
  match goal with H : suite_from_tag _ = Ok _ |- _ => apply suite_tag_from_tag in H; subst end. cbn [sig_suite sig_bytes]. canon_chain.
Qed.
#[global] Instance canonical_claim : Canonical decode_claim wire_claim.
Proof.
  intros r c r' Hok H. unfold decode_claim in H. parse_inv. unfold wire_claim.
  cbn [pc_network_id pc_payer pc_payee pc_amount_micro pc_sequence pc_valid_until_ms pc_last_known_chain pc_signature]. canon_chain.
Qed.
#[global] Instance canonical_epoch : Canonical decode_epoch (fun e => w_bytes (plan_canonical_bytes e)).
Proof.
  intros r e r' Hok H. unfold decode_epoch in H. parse_inv. unfold co_malformed in H. apply map_err_ok in H.
  apply plan_from_wire_ok, plan_to_wire_ok in H as (-> & _). canon_chain.
Qed.
#[global] Instance canonical_body : Canonical decode_body body_to_wire.
Proof.
  intros r b r' Hok H. unfold decode_body in H. parse_inv. unfold body_to_wire. cbn [bd_claims bd_monetary_epochs with_monetary_epochs body_new].
  counted wire_claim. counted (fun e => w_bytes (plan_canonical_bytes e)). rewrite app_assoc. canon_chain.
Qed.
#[global] Instance canonical_indexed_sig : Canonical decode_indexed_sig wire_sig.
Proof. intros r s r' Hok H. unfold decode_indexed_sig in H. parse_inv. unfold wire_sig. cbn [is_index is_signature]. canon_chain. Qed.
#[global] Instance canonical_sigs : Canonical decode_indexed_sigs sigs_to_wire.
Proof. intros r s r' Hok H. unfold decode_indexed_sigs in H. parse_inv. unfold sigs_to_wire. counted wire_sig. canon_chain. Qed.
#[global] Instance canonical_vote_bytes : Canonical decode_vote_bytes (fun v => w_bytes (to_wire_bytes v)).
Proof.
  intros r v r' Hok H. unfold decode_vote_bytes in H. parse_inv. unfold co_malformed in H. apply map_err_ok in H.
  pose proof (bytes_limited_bytes_ok _ _ _ _ _ _ Hok Hp) as Hb. rewrite (vote_bytes_canonical _ _ Hb H). canon_chain.
Qed.
#[global] Instance canonical_proposal : Canonical decode_proposal proposal_to_wire.
Proof.
  intros r p r' Hok H. unfold decode_proposal in H. parse_inv. unfold proposal_to_wire.
  cbn [pr_round pr_valid_round pr_proposer_root pr_proposer_device pr_header pr_body pr_signature]. canon_chain.
Qed.
#[global] Instance canonical_domain d : Canonical (co_domain d) (fun _ => d).
Proof. intros r [] r' Hok H. unfold co_domain in H. parse_inv. apply fail_if_ok in H. bool_prop. subst. canon_chain. Qed.
#[global] Instance canonical_message : Canonical decode_message message_to_wire.
Proof.
  intros r m r' Hok H. unfold decode_message in H. parse_inv. unfold message_to_wire. repeat canon_step.
  destruct (Z.eqb_spec a0 TAG_PROPOSAL) as [->|]; parse_inv; [canon_chain|].
  destruct (Z.eqb_spec a0 TAG_VOTE) as [->|]; parse_inv; [canon_chain|done].
Qed.
Lemma co_all_canonical {A} (p : parser ConsensusError A) enc b a `{!Canonical p enc} : bytes_ok b -> co_all p b = Ok a -> enc a = b.
Proof.
  intros Hb H. unfold co_all in H. ok_inv. bool_prop. eapply consumes_finished; [|eassumption].
  by eapply (canonical_use (p:=p)).
Qed.
End Canon.

(** ** Blocks and messages *)
Section WireTheorems.
Context {P : Primitives} {L : PrimitivesLaws}.

Definition written (m : ConsensusMessage) : ConsensusMessage :=
  match m with
  | MsgProposal p =>
      MsgProposal (mkProposal (pr_round p) (pr_valid_round p) (pr_proposer_root p) (pr_proposer_device p) (pr_header p)
        (written_body (pr_body p)) (pr_signature p))
  | MsgVote v => MsgVote v
  end.
Lemma parses_message m : message_wf m -> parses decode_message (message_to_wire m) (written m).
Proof.
  intros Hm. unfold decode_message, message_to_wire. eapply parses_bind; [apply parses_co_domain|].
  destruct m as [p|v]; (eapply parses_bind; [apply parses_co_u8|]; eval_tag; eapply parses_bind_nil).
  - by apply parses_proposal.
  - apply parses_ret.
  - by apply parses_vote_bytes.
  - apply parses_ret.
Qed.
Lemma message_decodes m : message_wf m -> Z.of_nat (length (message_to_wire m)) <= MAX_MESSAGE_BYTES ->
  message_from_wire (message_to_wire m) = Ok (written m).
Proof.
  intros Hm Hl. unfold message_from_wire. rewrite (proj2 (Z.ltb_ge _ _) Hl). by apply co_all_parses, parses_message.
Qed.
Lemma message_bytes b m : bytes_ok b -> message_from_wire b = Ok m -> message_to_wire m = b.
Proof. intros Hb H. unfold message_from_wire in H. apply bind_ok in H as (? & _ & H). exact (co_all_canonical decode_message message_to_wire b m Hb H). Qed.

Lemma block_to_wire_ok fb b : block_to_wire fb = Ok b <->
  root_matches fb = true /\ b = FINALIZED_BLOCK_DOMAIN ++ block_bytes fb /\ Z.of_nat (length b) <= MAX_MESSAGE_BYTES.
Proof.
  unfold block_to_wire. cbv zeta. split.
  - intros H. apply bind_ok in H as (? & H1 & H). apply bind_ok in H as (? & H2 & H). injection H as <-.
    apply fail_if_ok in H1, H2. bool_prop. done.
  - intros (-> & -> & Hl). cbn [negb fail_if mbind result_bind]. by rewrite (proj2 (Z.ltb_ge _ _) Hl).
Qed.
Lemma decodes_written fb : block_wf fb -> exists r,
  (_ ← co_domain FINALIZED_BLOCK_DOMAIN; decode_block) (Reader_new (FINALIZED_BLOCK_DOMAIN ++ block_bytes fb)) = Ok (written_block fb, r) /\
  finished r = true.
Proof. intros Hw. apply parses_new. eapply parses_bind; [apply parses_co_domain|]. by apply parses_block. Qed.
Lemma block_from_wire_inv b fb : block_from_wire b = Ok fb -> block_to_wire fb = Ok b.
Proof.
  intros H. unfold block_from_wire in H. apply bind_ok in H as (? & _ & H). apply bind_ok in H as ([fb' r] & _ & H).
  apply bind_ok in H as (? & _ & H). apply bind_ok in H as (again & H1 & H). apply bind_ok in H as (? & H2 & H).
  injection H as <-. apply fail_if_ok in H2. bool_prop. congruence.
Qed.
Lemma block_decodes fb b : block_wf fb -> block_to_wire fb = Ok b ->
  block_from_wire b = if root_matches (written_block fb) then Ok (written_block fb) else Err CoMalformed.
Proof.
  intros Hw Hb. pose proof (proj1 (block_to_wire_ok _ _) Hb) as (_ & Eb & Hl). unfold block_from_wire.
  rewrite (proj2 (Z.ltb_ge _ _) Hl). cbn [fail_if mbind result_bind].
  destruct (decodes_written fb Hw) as (r & Er & Hf). rewrite <- Eb in Er. rewrite Er. cbn [mbind result_bind]. rewrite Hf.
  destruct (root_matches (written_block fb)) eqn:Hr; [|done]. cbn [negb orb fail_if mbind result_bind].
  rewrite (proj2 (block_to_wire_ok (written_block fb) b)) by done. cbn [mbind result_bind]. by rewrite bool_decide_eq_true_2.
Qed.

Lemma epoch_wire_of e : plan_wire_typed e /\ is_ok (plan_to_wire_bytes e) = true -> epoch_wire_typed e.
Proof. by intros []; split. Qed.
Lemma body_wf_typed b : body_wf b -> Forall record_typed (bd_nullifiers b) -> is_u64 (Z.of_nat (length (bd_nullifiers b))) ->
  body_wire_typed b.
Proof.
  intros (H1 & H2 & H3 & H4) Hr Hn. unfold MAX_CLAIMS_PER_BLOCK, MAX_MONETARY_EPOCHS_PER_BLOCK in *. split; [|done| |].
  - eapply Forall_impl; [exact H2|]. by intros c [[] _].
  - eapply Forall_impl; [exact H4|]. apply epoch_wire_of.
  - unfold is_u64, U64_MAX in *. lia.
Qed.
(** Dropping the shielded spends of a body changes its hash. *)
Lemma spends_show b : body_wire_typed b -> bd_nullifiers b <> [] -> body_hash (written_body b) <> body_hash b \/ blake3_collision.
Proof.
  intros Hb Hn. destruct (decide (body_hash (written_body b) = body_hash b)) as [E|]; [|by left].
  assert (body_wire_typed (written_body b)) as Ht.
  { destruct Hb as [H1 H2 H3 (N1 & N2 & N3)]. split; [done|constructor|done|]. split; [done|split; [|done]]. vm_compute. split; discriminate. }
  destruct (proj1 (body_hash_pins_content _ _ Ht Hb) E) as [Ec|?]; [|by right]. unfold content in Ec. cbn [written_body bd_claims bd_nullifiers bd_monetary_epochs] in Ec. congruence.
Qed.
Lemma written_body_id b : bd_nullifiers b = [] -> written_body b = b.
Proof. destruct b. cbn. by intros ->. Qed.
Lemma written_id fb : bd_nullifiers (fb_body fb) = [] -> written_block fb = fb.
Proof. intros H. unfold written_block. rewrite (written_body_id _ H). by destruct fb. Qed.

(** C22: The messages of a round cross the network unchanged.  The bytes of any
    message within the format's limits decode to that message, less the
    shielded spends of a proposed body, which are not written; and a byte
    string that decodes is exactly the encoding of the message it gives, so
    no two byte strings are one message. *)
Theorem messages_round_trip m b : bytes_ok b -> message_wf m -> Z.of_nat (length (message_to_wire m)) <= MAX_MESSAGE_BYTES ->
  message_from_wire (message_to_wire m) = Ok (written m) /\
  (match m with MsgProposal p => bd_nullifiers (pr_body p) = [] | MsgVote _ => True end -> written m = m) /\
  (forall m', message_from_wire b = Ok m' -> message_to_wire m' = b).
Proof.
  intros Hb Hm Hl. split; [by apply message_decodes|]. split; [|intros m'; by apply message_bytes].
  destruct m as [[]|v]; [|done]. cbn. by intros ->%written_body_id.
Qed.

(** A finalized block without shielded spends is sent and received as it
    is, and one with any is not received at all: whatever block a validator
    finalized and could write, a peer that reads its bytes refuses them as
    malformed, and a proposal of such a body reaches every peer as one that
    [verify_proposal] refuses, short of a BLAKE3 collision. *)
Theorem shielded_bodies_do_not_travel fb b p : block_wf fb -> block_to_wire fb = Ok b ->
  Forall record_typed (bd_nullifiers (fb_body fb)) -> is_u64 (Z.of_nat (length (bd_nullifiers (fb_body fb)))) ->
  proposal_wf p -> pr_header p = fb_header fb -> pr_body p = fb_body fb ->
  Z.of_nat (length (message_to_wire (MsgProposal p))) <= MAX_MESSAGE_BYTES ->
  (bd_nullifiers (fb_body fb) = [] -> block_from_wire b = Ok fb /\
     message_from_wire (message_to_wire (MsgProposal p)) = Ok (MsgProposal p)) /\
  (bd_nullifiers (fb_body fb) <> [] ->
     (block_from_wire b = Err CoMalformed /\
      exists p', message_from_wire (message_to_wire (MsgProposal p)) = Ok (MsgProposal p') /\
        forall root_kel device_kel, verify_proposal p' root_kel device_kel = Err CoMalformed) \/ blake3_collision).
Proof.
  intros Hw Hb Hr Hn Hp Eh Ebd Hl. pose proof (message_decodes (MsgProposal p) Hp Hl) as Hm.
  pose proof (proj1 (proj1 (block_to_wire_ok _ _) Hb)) as Hroot. unfold root_matches in Hroot. bool_prop.
  rewrite (block_decodes fb b Hw Hb). unfold root_matches. cbn [written_block fb_header fb_body]. split.
  - intros E. unfold written_block. cbn [written] in Hm. rewrite Ebd, (written_body_id _ E) in *.
    rewrite bool_decide_eq_true_2 by done. split; [by destruct fb|]. rewrite Hm. by destruct p; cbn in *; subst.
  - intros E. destruct (spends_show (fb_body fb)) as [Hne|?]; [apply body_wf_typed; [apply Hw|done..]|done| |by right]. left.
    assert (bh_body_root (fb_header fb) <> body_hash (written_body (fb_body fb))) as Hd by congruence.
    rewrite (bool_decide_eq_false_2 _ Hd). split; [done|]. eexists. split; [exact Hm|]. intros rk dk. unfold verify_proposal.
    cbn [pr_header pr_body]. by rewrite Eh, Ebd, (bool_decide_eq_false_2 _ Hd).
Qed.

(** Catch-up requests and responses decode from their bytes, when no block
    has shielded spends and each one's body is the one its header names. *)
Theorem catchup_round_trip q r : is_u64 (cq_from_height q) -> (length (cr_blocks r) <= MAX_CATCHUP_BLOCKS)%nat ->
  Forall (fun fb => block_wf fb /\ bd_nullifiers (fb_body fb) = [] /\ root_matches fb = true) (cr_blocks r) ->
  request_from_wire (request_to_wire q) = Ok q /\ response_from_wire (response_to_wire r) = Ok r.
Proof.
  intros Hq Hl Hb. unfold MAX_CATCHUP_BLOCKS in Hl. split; apply co_all_parses.
  - unfold decode_request, request_to_wire. eapply parses_bind; [apply parses_co_domain|].
    eapply parses_bind; [apply parses_co_u8|]. apply parses_check; [done|].
    eapply parses_bind_nil; [by apply parses_co_u64|]. destruct q. apply parses_ret.
  - unfold decode_response, response_to_wire. eapply parses_bind; [apply parses_co_domain|].
    eapply parses_bind; [apply parses_co_u8|]. apply parses_check; [done|].
    eapply parses_bind; [apply parses_co_u32; wire_side|]. apply parses_check; [apply Z.ltb_ge; unfold MAX_CATCHUP_BLOCKS; lia|].
    rewrite Nat2Z.id. eapply (parses_bind_nil _ _ _ (cr_blocks r)); [|destruct r; apply parses_ret].
    apply (parses_repeat decode_checked_block block_bytes).
    eapply Forall_impl; [exact Hb|]. intros fb (Hw & Hn & Hr). unfold decode_checked_block.
    pose proof (parses_block fb Hw) as Hp. rewrite (written_id _ Hn) in Hp.
    eapply parses_bind_nil; [exact Hp|]. apply parses_check; [by rewrite Hr|apply parses_ret].
Qed.
End WireTheorems.
