(* ===== verification/Admission.v ===== *)
(** * Admission: the bounded pool of claims awaiting a block

    Models [crates/mini-execution/src/admission.rs]: the policy, admission of
    one claim with every refusal in the source's order, candidates,
    revalidation and removal.  The three maps of the pool are [gmap]s; a
    payer's slots are a map from sequence to digest. *)

From Stdlib Require Import ZArith Lia.
From stdpp Require Import base list gmap sets strings sorting.
From S2P Require Import Prelude Codec Crypto Chain Economy Settlement Shielded Execution.
Open Scope Z_scope.

Record AdmissionPolicy := mkAdmissionPolicy {
  max_claims : Z; max_total_bytes : Z; max_claims_per_payer : Z }.
Definition AdmissionPolicy_default : AdmissionPolicy := mkAdmissionPolicy 4096 (8 * 1024 * 1024) 64.

Inductive AdmissionError :=
| AdInvalidPolicy | AdMalformedWire | AdInvalidSignature | AdWrongNetwork | AdUnsupportedPayee | AdExpired
| AdAlreadyResolved | AdDuplicate | AdConflictingSequence | AdInsufficientAvailableBalance | AdTooManyClaims
| AdTooManyClaimsForPayer | AdTooManyBytes.
#[global] Instance AdmissionError_eq_dec : EqDecision AdmissionError.
Proof. solve_decision. Defined.

Record AdmittedClaim := mkAdmitted { ad_claim : PaymentClaim; ad_wire_bytes : Z }.

Record PaymentAdmissionPool := mkPool {
  pl_policy : AdmissionPolicy;
  pl_claims : gmap bytes AdmittedClaim;
  pl_payer_slots : gmap bytes (gmap Z bytes);
  pl_payer_reserved_micro : gmap bytes Z;
  pl_encoded_bytes : Z;
}.

Definition pool_new (p : AdmissionPolicy) : result AdmissionError PaymentAdmissionPool :=
  _ ← fail_if ((max_claims p =? 0) || (MAX_CLAIMS_PER_BLOCK <? max_claims p) || (max_total_bytes p =? 0) ||
        (max_claims_per_payer p =? 0) || (max_claims p <? max_claims_per_payer p)) AdInvalidPolicy;
  Ok (mkPool p ∅ ∅ ∅ 0).
Definition pool_len (p : PaymentAdmissionPool) : Z := Z.of_nat (size (pl_claims p)).

Definition slots_of (p : PaymentAdmissionPool) (payer : bytes) : gmap Z bytes := default ∅ (pl_payer_slots p !! payer).
Definition reserved_of (p : PaymentAdmissionPool) (payer : bytes) : Z :=
  default 0 (pl_payer_reserved_micro p !! payer).

(** The order of [candidates]: payer, sequence, digest. *)
Definition candidate_key_le (a b : bytes * (Z * bytes)) : Prop :=
  if decide (a.1 = b.1) then
    if decide (a.2.1 = b.2.1) then bytes_le a.2.2 b.2.2 else a.2.1 < b.2.1
  else bytes_le a.1 b.1.
Definition candidate := (bytes * (Z * bytes) * PaymentClaim)%type.
Definition candidate_le (a b : candidate) : Prop := candidate_key_le a.1 b.1.
#[global] Instance candidate_le_dec : RelDecision candidate_le.
Proof. intros a b. unfold candidate_le, candidate_key_le. repeat case_match; apply _. Defined.
Definition candidate_of (e : bytes * AdmittedClaim) : candidate :=
  ((pc_payer (ad_claim e.2), (pc_sequence (ad_claim e.2), e.1)), ad_claim e.2).

Definition candidates (p : PaymentAdmissionPool) (limit : Z) : list PaymentClaim :=
  let ordered := merge_sort candidate_le (map candidate_of (btree_entries (pl_claims p))) in
  map snd (take (Z.to_nat (Z.min limit MAX_CLAIMS_PER_BLOCK)) ordered).

Definition remove (p : PaymentAdmissionPool) (d : bytes) : option PaymentClaim * PaymentAdmissionPool :=
  match pl_claims p !! d with
  | None => (None, p)
  | Some admitted =>
      let claim := ad_claim admitted in
      let slots := match pl_payer_slots p !! pc_payer claim with
                   | None => pl_payer_slots p
                   | Some slots =>
                       let slots := delete (pc_sequence claim) slots in
                       if bool_decide (slots = ∅) then delete (pc_payer claim) (pl_payer_slots p)
                       else <[pc_payer claim := slots]> (pl_payer_slots p)
                   end in
      let remaining := saturating_sub (reserved_of p (pc_payer claim)) (pc_amount_micro claim) in
      let reserved := if remaining =? 0 then delete (pc_payer claim) (pl_payer_reserved_micro p)
                      else <[pc_payer claim := remaining]> (pl_payer_reserved_micro p) in
      (Some claim, mkPool (pl_policy p) (delete d (pl_claims p)) slots reserved
        (saturating_sub (pl_encoded_bytes p) (ad_wire_bytes admitted)))
  end.

Section Admission.
Context {P : Primitives}.

Definition validate_claim (c : PaymentClaim) (s : LedgerState) (now_ms : Z) : result AdmissionError unit :=
  _ ← map_err (fun _ => AdInvalidSignature) (verify_claim_signature c);
  _ ← fail_if (negb (bool_decide (pc_network_id c = ls_network_id s))) AdWrongNetwork;
  _ ← fail_if (negb (is_supported_account (pc_payee c))) AdUnsupportedPayee;
  _ ← fail_if (pc_valid_until_ms c <=? now_ms) AdExpired;
  fail_if (match rejected_claim s (claim_digest c) with
           | Some reason => negb (bool_decide (reason = InsufficientFunds))
           | None => false
           end ||
           match finalized_sequence s (pc_payer c) with
           | Some sequence => pc_sequence c <=? sequence
           | None => false
           end) AdAlreadyResolved.

Definition pool_admit (p : PaymentAdmissionPool) (c : PaymentClaim) (s : LedgerState) (now_ms : Z) :
    result AdmissionError (bytes * PaymentAdmissionPool) :=
  wire ← map_err (fun _ => AdMalformedWire) (claim_to_wire_bytes c);
  let n := Z.of_nat (length wire) in
  _ ← validate_claim c s now_ms;
  let d := claim_digest c in
  _ ← fail_if (bool_decide (is_Some (pl_claims p !! d))) AdDuplicate;
  _ ← fail_if (bool_decide (is_Some (slots_of p (pc_payer c) !! pc_sequence c))) AdConflictingSequence;
  _ ← fail_if (max_claims (pl_policy p) <=? pool_len p) AdTooManyClaims;
  _ ← fail_if (max_claims_per_payer (pl_policy p) <=? Z.of_nat (size (slots_of p (pc_payer c)))) AdTooManyClaimsForPayer;
  _ ← fail_if (max_total_bytes (pl_policy p) <? pl_encoded_bytes p + n) AdTooManyBytes;
  next_reserved ← ok_or (checked_add U128_MAX (reserved_of p (pc_payer c)) (pc_amount_micro c))
    AdInsufficientAvailableBalance;
  _ ← fail_if (balance s (pc_payer c) <? next_reserved) AdInsufficientAvailableBalance;
  Ok (d, mkPool (pl_policy p) (<[d := mkAdmitted c n]> (pl_claims p))
           (<[pc_payer c := <[pc_sequence c := d]> (slots_of p (pc_payer c))]> (pl_payer_slots p))
           (<[pc_payer c := next_reserved]> (pl_payer_reserved_micro p)) (pl_encoded_bytes p + n)).

Definition admit_wire (p : PaymentAdmissionPool) (b : bytes) (s : LedgerState) (now_ms : Z) :
    result AdmissionError (bytes * PaymentAdmissionPool) :=
  c ← map_err (fun _ => AdMalformedWire) (claim_from_wire_bytes b);
  pool_admit p c s now_ms.

(** One candidate of [revalidate]: the reservations so far and the removals. *)
Definition revalidate_step (s : LedgerState) (now_ms : Z)
    (acc : gmap bytes Z * list (bytes * AdmissionError)) (c : PaymentClaim) :
    gmap bytes Z * list (bytes * AdmissionError) :=
  let d := claim_digest c in
  match validate_claim c s now_ms with
  | Err reason => (fst acc, snd acc ++ [(d, reason)])
  | Ok _ =>
      match checked_add U128_MAX (default 0 (fst acc !! pc_payer c)) (pc_amount_micro c) with
      | Some total =>
          if total <=? balance s (pc_payer c) then (<[pc_payer c := total]> (fst acc), snd acc)
          else (fst acc, snd acc ++ [(d, AdInsufficientAvailableBalance)])
      | None => (fst acc, snd acc ++ [(d, AdInsufficientAvailableBalance)])
      end
  end.
Definition revalidate (p : PaymentAdmissionPool) (s : LedgerState) (now_ms : Z) :
    list (bytes * AdmissionError) * PaymentAdmissionPool :=
  let removals := snd (fold_left (revalidate_step s now_ms) (candidates p (pool_len p)) (∅, [])) in
  let removals := merge_sort entry_le removals in
  (removals, fold_left (fun p r => snd (remove p (fst r))) removals p).

End Admission.
