(* ===== verification/AdmissionTheorems.v ===== *)
(** * AdmissionTheorems: the pool keeps its accounts, and what it proposes executes

    The pool's three maps and its byte count stay consistent and within the
    policy under admission, removal and revalidation; and a revalidated
    pool's candidates, executed as a block on the state they were checked
    against, all win. *)

From Stdlib Require Import ZArith Lia.
From stdpp Require Import base list gmap sets strings sorting.
From S2P Require Import Prelude Codec Crypto Chain Economy Settlement SettlementTheorems.
From S2P Require Import Shielded Execution ExecutionFacts BlockFacts ExecutionTheorems Admission.
Open Scope Z_scope.

(** ** The candidate order *)
Lemma bytes_le_refl b : bytes_le b b.
Proof. destruct (total bytes_le b b); done. Qed.
#[global] Instance candidate_le_total : Total candidate_le.
Proof.
  intros [[p [n d]] c] [[p' [n' d']] c']. unfold candidate_le, candidate_key_le. cbn [fst snd].
  repeat case_decide; subst; try done; try lia; apply (total bytes_le).
Qed.
#[global] Instance candidate_le_trans : Transitive candidate_le.
Proof.
  intros [[p [n d]] c] [[p' [n' d']] c'] [[p2 [n2 d2]] c2]. unfold candidate_le, candidate_key_le. cbn [fst snd].
  repeat case_decide; subst; try done; try lia; try (by intros; etrans).
  all: intros ? ?; exfalso; by match goal with Hne : ?a <> ?b |- _ => apply Hne, (anti_symm bytes_le) end.
Qed.

(** The later of two candidates of one payer has the larger sequence, unless
    they share one. *)
Definition ordered (c c' : PaymentClaim) : Prop := pc_payer c = pc_payer c' -> pc_sequence c <= pc_sequence c'.

Lemma candidate_ordered a b : candidate_le (candidate_of a) (candidate_of b) -> ordered (ad_claim a.2) (ad_claim b.2).
Proof.
  unfold candidate_le, candidate_key_le, candidate_of, ordered. cbn [fst snd]. intros H E. rewrite decide_True in H by done.
  case_decide; lia.
Qed.

Section AdmissionTheorems.
Context {P : Primitives}.

(** What a payer's claims come to. *)
Definition owed (payer : bytes) (c : PaymentClaim) : Z := if bool_decide (payer = pc_payer c) then pc_amount_micro c else 0.
Definition due (payer : bytes) (cs : list PaymentClaim) : Z := sum_Z (map (owed payer) cs).
Definition claims_of (p : PaymentAdmissionPool) : list PaymentClaim := map (fun e => ad_claim e.2) (map_to_list (pl_claims p)).
Definition owed_by (payer : bytes) (a : AdmittedClaim) : Z := owed payer (ad_claim a).

Lemma due_claims p payer : due payer (claims_of p) = total_by (owed_by payer) (pl_claims p).
Proof.
  unfold due, claims_of, total_by, map_total. rewrite map_to_list_fmap, map_map. f_equal.
  generalize (map_to_list (pl_claims p)). intros l. induction l as [|[d a] l IH]; [done|]. cbn. by rewrite IH.
Qed.

(** The accounts of a pool. *)
Record pool_ok (p : PaymentAdmissionPool) : Prop := {
  po_policy : 0 < max_claims (pl_policy p) <= MAX_CLAIMS_PER_BLOCK;
  po_digest d a : pl_claims p !! d = Some a ->
    d = claim_digest (ad_claim a) /\ 0 < pc_amount_micro (ad_claim a) /\ 0 <= ad_wire_bytes a;
  po_slots payer n d : slots_of p payer !! n = Some d <->
    exists a, pl_claims p !! d = Some a /\ pc_payer (ad_claim a) = payer /\ pc_sequence (ad_claim a) = n;
  po_slots_used payer m : pl_payer_slots p !! payer = Some m -> m <> ∅;
  po_reserved payer : reserved_of p payer = total_by (owed_by payer) (pl_claims p);
  po_reserved_used payer v : pl_payer_reserved_micro p !! payer = Some v -> 0 < v;
  po_bytes : pl_encoded_bytes p = total_by ad_wire_bytes (pl_claims p);
  po_count : Z.of_nat (size (pl_claims p)) <= max_claims (pl_policy p);
  po_payer_count payer : Z.of_nat (size (slots_of p payer)) <= max_claims_per_payer (pl_policy p);
  po_byte_count : pl_encoded_bytes p <= max_total_bytes (pl_policy p);
}.

Lemma owed_nonneg p payer : pool_ok p -> forall d a, pl_claims p !! d = Some a -> 0 <= owed_by payer a.
Proof. intros H d a Ha. apply (po_digest p H) in Ha as (_ & Ha & _). unfold owed_by, owed. case_bool_decide; lia. Qed.

Lemma pool_new_ok policy p : 0 <= max_claims policy -> 0 <= max_total_bytes policy -> 0 <= max_claims_per_payer policy ->
  pool_new policy = Ok p -> pool_ok p.
Proof.
  intros H1 H2 H3 H. unfold pool_new in H. apply bind_ok in H as (? & Hp & H). injection H as <-. apply fail_if_ok in Hp.
  bool_prop. unfold MAX_CLAIMS_PER_BLOCK in *. split; unfold slots_of, reserved_of, MAX_CLAIMS_PER_BLOCK; cbn; try done; try lia.
  intros payer n d. rewrite !lookup_empty. cbn. rewrite lookup_empty. naive_solver.
Qed.

Lemma admit_ok p c s now d p' : pool_ok p -> 0 <= pc_amount_micro c -> pool_admit p c s now = Ok (d, p') ->
  pool_ok p' /\ d = claim_digest c /\ validate_claim c s now = Ok tt /\ pl_claims p !! d = None /\
  (exists n, pl_claims p' = <[d := mkAdmitted c n]> (pl_claims p)) /\
  reserved_of p (pc_payer c) + pc_amount_micro c <= balance s (pc_payer c).
Proof.
  intros Hp Ha H. unfold pool_admit in H. cbv zeta in H. apply bind_ok in H as (w & _ & H).
  apply bind_ok in H as ([] & Hv & H). do 5 (apply bind_ok in H as (? & ?%fail_if_ok & H)).
  apply bind_ok in H as (nr & Hnr & H). apply ok_or_ok, checked_add_Some in Hnr as [-> Hnr].
  apply bind_ok in H as (? & Hb%fail_if_ok & H). injection H as <- <-. bool_prop. apply eq_None_not_Some in H0, H1.
  assert (pc_amount_micro c <> 0) as Hne.
  { unfold validate_claim in Hv. apply bind_ok in Hv as (? & Hv & _). apply map_err_ok in Hv.
    apply verified_amount. by rewrite Hv. }
  split; [|split; [done|split; [done|split; [done|split; [by eexists|done]]]]].
  pose proof Hp as [P1 P2 P3 P4 P5 P6 P7 P8 P9 P10]. unfold pool_len in *.
  split; cbn [pl_policy pl_claims pl_payer_slots pl_payer_reserved_micro pl_encoded_bytes]; try done.
  - intros d a [[<- <-]|[_ Hd]]%lookup_insert_Some; [cbn; split; [done|lia]|by apply P2].
  - intros payer n d. unfold slots_of at 1. cbn [pl_payer_slots]. destruct (decide (pc_payer c = payer)) as [<-|Hpn].
    + rewrite lookup_insert_eq. cbn [from_option id]. rewrite lookup_insert_Some. setoid_rewrite lookup_insert_Some. rewrite P3.
      split.
      * intros [[<- <-]|[Hn (a & Hd & E1 & E2)]]; [eexists; split; [by left|done]|].
        exists a. split; [|done]. right. split; [congruence|done].
      * intros (a & [[<- <-]|[Hd Hda]] & E1 & E2); [by left|]. right. split; [|by exists a].
        intros <-. assert (slots_of p (pc_payer c) !! pc_sequence c = Some d) as Hs by (apply P3; by exists a). congruence.
    + rewrite lookup_insert_ne by done. fold (slots_of p payer). setoid_rewrite lookup_insert_Some. rewrite (P3 payer n d). split.
      * intros (a & Hd & E). exists a. split; [|done]. right. split; [congruence|done].
      * intros (a & [[_ <-]|[_ Hd]] & E1 & E2); [done|by exists a].
  - intros payer m [[<- <-]|[_ Hm]]%lookup_insert_Some; [apply insert_non_empty|by eapply P4].
  - intros payer. unfold reserved_of at 1. cbn [pl_payer_reserved_micro]. rewrite total_by_insert by done. rewrite <- P5.
    unfold owed_by, owed. cbn [ad_claim]. case_bool_decide as E; subst.
    + rewrite lookup_insert_eq. cbn [from_option id]. lia.
    + rewrite lookup_insert_ne by done. fold (reserved_of p payer). lia.
  - intros payer v [[<- <-]|[_ Hm]]%lookup_insert_Some; [|by eapply P6]. rewrite P5.
    pose proof (total_by_nonneg (owed_by (pc_payer c)) _ (owed_nonneg p (pc_payer c) Hp)). lia.
  - rewrite total_by_insert by done. cbn [ad_wire_bytes]. lia.
  - rewrite map_size_insert_None by done. lia.
  - intros payer. unfold slots_of at 1. cbn [pl_payer_slots]. destruct (decide (pc_payer c = payer)) as [<-|Hpn].
    + rewrite lookup_insert_eq. cbn [from_option id]. rewrite map_size_insert_None by done. lia.
    + rewrite lookup_insert_ne by done. apply P9.
Qed.

(** ** Removal *)
Lemma remove_some p d a : pl_claims p !! d = Some a ->
  let p' := snd (remove p d) in
  fst (remove p d) = Some (ad_claim a) /\ pl_policy p' = pl_policy p /\ pl_claims p' = delete d (pl_claims p) /\
  pl_encoded_bytes p' = saturating_sub (pl_encoded_bytes p) (ad_wire_bytes a) /\
  (forall payer, slots_of p' payer =
     if bool_decide (payer = pc_payer (ad_claim a)) then delete (pc_sequence (ad_claim a)) (slots_of p payer)
     else slots_of p payer) /\
  (forall payer, reserved_of p' payer =
     if bool_decide (payer = pc_payer (ad_claim a)) then saturating_sub (reserved_of p payer) (pc_amount_micro (ad_claim a))
     else reserved_of p payer).
Proof.
  intros Ha. unfold remove. rewrite Ha. cbv zeta. cbn [fst snd pl_policy pl_claims pl_encoded_bytes].
  split; [done|]. split; [done|]. split; [done|]. split; [done|]. split.
  - intros payer. unfold slots_of. cbn [pl_payer_slots]. case_bool_decide as E; subst.
    + destruct (pl_payer_slots p !! _) as [m|] eqn:Em; cbn [from_option id].
      * case_bool_decide as Ee; [by rewrite lookup_delete_eq|by rewrite lookup_insert_eq].
      * rewrite Em. cbn. by rewrite delete_empty.
    + destruct (pl_payer_slots p !! pc_payer (ad_claim a)) as [m|]; [|done].
      case_bool_decide; [by rewrite lookup_delete_ne by congruence|by rewrite lookup_insert_ne by congruence].
  - intros payer. unfold reserved_of at 1. cbn [pl_payer_reserved_micro]. case_bool_decide as E; subst.
    + case_match eqn:Em; bool_prop; [rewrite lookup_delete_eq|by rewrite lookup_insert_eq]. by rewrite Em.
    + case_match; [rewrite lookup_delete_ne by congruence|rewrite lookup_insert_ne by congruence]; done.
Qed.

Lemma remove_none p d : pl_claims p !! d = None -> remove p d = (None, p).
Proof. intros H. unfold remove. by rewrite H. Qed.

Lemma remove_ok p d : pool_ok p -> pool_ok (snd (remove p d)).
Proof.
  intros Hp. destruct (pl_claims p !! d) as [a|] eqn:Ha; [|by rewrite remove_none].
  destruct (remove_some p d a Ha) as (_ & E1 & E2 & E3 & E4 & E5).
  pose proof Hp as [P1 P2 P3 P4 P5 P6 P7 P8 P9 P10]. destruct (P2 d a Ha) as (Hd & Hpos & Hb0).
  split; rewrite ?E1, ?E2, ?E3; try done.
  - intros d' a' [_ H]%lookup_delete_Some. by apply P2.
  - intros payer n d'. rewrite E4. setoid_rewrite lookup_delete_Some. case_bool_decide as Epay.
    + rewrite lookup_delete_Some, P3. split.
      * intros (Hn & a' & Hd' & E' & Es). exists a'. split; [|done]. split; [|done]. congruence.
      * intros (a' & [Hne Hd'] & E' & Es). split; [|by exists a']. intros En. apply Hne.
        assert (slots_of p payer !! n = Some d) as H1 by (apply P3; exists a; split; [done|]; split; congruence).
        assert (slots_of p payer !! n = Some d') as H2 by (apply P3; by exists a'). congruence.
    + rewrite P3. split; intros (a' & H & E' & Es); exists a'; split; try done; [split; [|done]|by destruct H].
      intros <-. congruence.
  - intros payer m. unfold remove. rewrite Ha. cbn [snd pl_payer_slots].
    destruct (pl_payer_slots p !! pc_payer (ad_claim a)) as [m0|] eqn:Em; [|apply P4].
    case_bool_decide; [intros [_ H1]%lookup_delete_Some; by eapply P4|].
    intros [[_ <-]|[_ H1]]%lookup_insert_Some; [done|by eapply P4].
  - intros payer. rewrite E5, (total_by_delete _ _ d a Ha), !P5.
    pose proof (total_by_lookup_le (owed_by payer) _ d a (owed_nonneg p payer Hp) Ha) as Hle. revert Hle.
    generalize (total_by (owed_by payer) (pl_claims p)). unfold owed_by, owed. intros t Hle.
    case_bool_decide; unfold saturating_sub; lia.
  - intros payer v. unfold remove. rewrite Ha. cbn [snd pl_payer_reserved_micro].
    case_match eqn:Em; [intros [_ H]%lookup_delete_Some; by eapply P6|].
    intros [[_ <-]|[_ H]]%lookup_insert_Some; [bool_prop; unfold saturating_sub in *; lia|by eapply P6].
  - rewrite (total_by_delete _ _ d a Ha), P7.
    pose proof (total_by_lookup_le ad_wire_bytes (pl_claims p) d a (fun k x Hx => proj2 (proj2 (P2 k x Hx))) Ha).
    unfold saturating_sub. lia.
  - rewrite map_size_delete, Ha. cbn. lia.
  - intros payer. rewrite E4. case_bool_decide; [|apply P9]. rewrite map_size_delete. specialize (P9 payer).
    case_match; unfold id; lia.
  - unfold saturating_sub. rewrite P7 in *.
    pose proof (total_by_nonneg ad_wire_bytes (pl_claims p) (fun k x Hx => proj2 (proj2 (P2 k x Hx)))). lia.
Qed.
Lemma remove_lookup p d k a : pl_claims (snd (remove p d)) !! k = Some a <-> pl_claims p !! k = Some a /\ k <> d.
Proof.
  destruct (pl_claims p !! d) as [b|] eqn:Hd.
  - destruct (remove_some p d b Hd) as (_ & _ & -> & _). rewrite lookup_delete_Some. naive_solver.
  - rewrite remove_none by done. cbn [snd]. split; [intros H; split; [done|congruence]|by intros [? _]].
Qed.
Lemma remove_policy p d : pl_policy (snd (remove p d)) = pl_policy p.
Proof.
  destruct (pl_claims p !! d) as [b|] eqn:Hd; [|by rewrite remove_none]. by destruct (remove_some p d b Hd) as (_ & ? & _).
Qed.

Definition remove_all {A} (l : list (bytes * A)) (p : PaymentAdmissionPool) : PaymentAdmissionPool :=
  fold_left (fun p r => snd (remove p (fst r))) l p.
Lemma remove_all_spec {A} (l : list (bytes * A)) p : pool_ok p ->
  pool_ok (remove_all l p) /\
  forall k a, pl_claims (remove_all l p) !! k = Some a <-> pl_claims p !! k = Some a /\ k ∉ map fst l.
Proof.
  revert p. induction l as [|[d r] l IH]; intros p Hp; cbn.
  - split; [done|]. intros k a. rewrite elem_of_nil. naive_solver.
  - destruct (IH _ (remove_ok p d Hp)) as [H1 H2]. split; [done|]. intros k a. rewrite H2, remove_lookup, elem_of_cons. naive_solver.
Qed.

(** ** Candidates *)
Lemma candidates_full p : pool_ok p -> candidates p (pool_len p) ≡ₚ claims_of p.
Proof.
  intros Hp. unfold candidates, claims_of. pose proof (po_count p Hp). pose proof (po_policy p Hp).
  rewrite take_ge.
  - rewrite merge_sort_Permutation, map_map, btree_entries_perm. done.
  - rewrite merge_sort_Permutation, length_map, length_btree_entries. unfold pool_len. lia.
Qed.
Lemma candidates_prefix p limit : pool_ok p -> candidates p limit `prefix_of` candidates p (pool_len p).
Proof.
  intros Hp. unfold candidates. pose proof (po_count p Hp). pose proof (po_policy p Hp).
  set (l := merge_sort _ _). assert (length l = size (pl_claims p)) as Hl
    by (unfold l; by rewrite merge_sort_Permutation, length_map, length_btree_entries).
  rewrite (take_ge l (Z.to_nat (Z.min (pool_len p) MAX_CLAIMS_PER_BLOCK))) by (rewrite Hl; unfold pool_len; lia).
  rewrite <- firstn_map. apply prefix_take.
Qed.

Lemma elem_of_claims_of p c : pool_ok p ->
  c ∈ claims_of p <-> exists n, pl_claims p !! claim_digest c = Some (mkAdmitted c n).
Proof.
  intros Hp. unfold claims_of. rewrite list_elem_of_fmap. split.
  - intros ([d a] & -> & H). apply elem_of_map_to_list in H. cbn [snd]. pose proof (po_digest p Hp d a H) as [<- _].
    exists (ad_wire_bytes a). by destruct a.
  - intros [n H]. exists (claim_digest c, mkAdmitted c n). split; [done|]. by apply elem_of_map_to_list.
Qed.
Lemma claims_of_NoDup p : pool_ok p -> NoDup (map claim_digest (claims_of p)).
Proof.
  intros Hp. unfold claims_of. rewrite map_map. erewrite (map_ext_in _ fst); [apply NoDup_fst_map_to_list|].
  intros [d a] H%list_elem_of_In. apply elem_of_map_to_list in H. cbn. by destruct (po_digest p Hp d a H).
Qed.

Definition ascends (c c' : PaymentClaim) : Prop := pc_payer c = pc_payer c' -> pc_sequence c < pc_sequence c'.

Lemma StronglySorted_strict {A} (R S : A -> A -> Prop) l : NoDup l -> StronglySorted R l ->
  (forall x y, x ∈ l -> y ∈ l -> R x y -> x <> y -> S x y) -> StronglySorted S l.
Proof.
  induction l as [|x l IH]; intros Hn Hs H; [constructor|]. apply NoDup_cons in Hn as [Hx Hn].
  apply StronglySorted_inv in Hs as [Hs Hf]. constructor.
  - apply IH; [done|done|]. intros a b Ha Hb. apply H; by right.
  - rewrite Forall_forall in *. intros y Hy. apply H; [left|by right|by apply Hf|by intros ->]; done.
Qed.
Lemma candidates_ascend p : pool_ok p -> StronglySorted ascends (candidates p (pool_len p)).
Proof.
  intros Hp. unfold candidates. pose proof (po_count p Hp). pose proof (po_policy p Hp). rewrite take_ge
    by (rewrite merge_sort_Permutation, length_map, length_btree_entries; unfold pool_len; lia).
  pose proof (StronglySorted_merge_sort candidate_le (map candidate_of (btree_entries (pl_claims p)))) as Hs.
  pose proof (merge_sort_Permutation candidate_le (map candidate_of (btree_entries (pl_claims p)))) as Hperm.
  set (l := merge_sort _ _) in *.
  assert (NoDup (map (fun x : candidate => x.1.2.2) l)) as Hn.
  { rewrite Hperm, btree_entries_perm, map_map. erewrite (map_ext _ fst); [apply NoDup_fst_map_to_list|done]. }
  assert (forall x, x ∈ l -> exists a, pl_claims p !! x.1.2.2 = Some a /\ x = candidate_of (x.1.2.2, a)) as Hin.
  { intros x. rewrite Hperm, list_elem_of_fmap. intros ([d a] & -> & Ha). rewrite elem_of_btree_entries in Ha. by exists a. }
  assert (StronglySorted (fun x y => ascends x.2 y.2) l) as Hss.
  { eapply StronglySorted_strict; [by eapply NoDup_fmap_1|exact Hs|]. intros x y Hx Hy Hle Hne.
    destruct (Hin x Hx) as (a & Ha & Ex), (Hin y Hy) as (b & Hb & Ey). rewrite Ex, Ey in Hle.
    pose proof (candidate_ordered _ _ Hle) as Ho. cbn in Ho. rewrite Ex, Ey. intros Epay. cbn in *. specialize (Ho Epay).
    destruct (decide (pc_sequence (ad_claim a) = pc_sequence (ad_claim b))) as [Es|]; [|lia]. exfalso. apply Hne.
    assert (slots_of p (pc_payer (ad_claim a)) !! pc_sequence (ad_claim a) = Some x.1.2.2) as H1 by (apply po_slots; naive_solver).
    assert (slots_of p (pc_payer (ad_claim a)) !! pc_sequence (ad_claim a) = Some y.1.2.2) as H2 by (apply po_slots; naive_solver).
    rewrite Ex, Ey. assert (x.1.2.2 = y.1.2.2) as E by congruence. congruence. }
  clear -Hss. induction Hss as [|x l _ IH Hf]; constructor; [done|]. by apply Forall_map.
Qed.
(** ** Execution of a covered list *)

(** What [claim_wins] asks of a claim besides the payer's balance. *)
Definition passes (s : LedgerState) (c : PaymentClaim) : Prop :=
  is_ok (verify_claim_signature c) = true /\ pc_network_id c = ls_network_id s /\
  is_supported_account (pc_payee c) = true /\ above_mark s c = true /\ 0 < pc_amount_micro c.

Lemma validate_passes s now c : 0 <= pc_amount_micro c -> validate_claim c s now = Ok tt -> passes s c.
Proof.
  intros Ha H. unfold validate_claim in H. apply bind_ok in H as (? & Hv & H). apply map_err_ok in Hv.
  do 3 (apply bind_ok in H as (? & ?%fail_if_ok & H)). apply fail_if_ok in H. bool_prop.
  assert (is_ok (verify_claim_signature c) = true) as Hok by by rewrite Hv.
  split; [done|]. split; [done|]. split; [done|]. split; [|pose proof (verified_amount c Hok); lia].
  unfold above_mark. destruct (finalized_sequence s (pc_payer c)); [|done]. apply Z.ltb_lt. bool_prop. lia.
Qed.

Lemma due_cons payer c cs : due payer (c :: cs) = owed payer c + due payer cs.
Proof. done. Qed.
Lemma due_app payer cs cs' : due payer (cs ++ cs') = due payer cs + due payer cs'.
Proof. induction cs as [|c cs IH]; [done|]. rewrite <- app_comm_cons, !due_cons, IH. lia. Qed.
Lemma due_nonneg payer cs : Forall (fun c => 0 <= pc_amount_micro c) cs -> 0 <= due payer cs.
Proof. induction 1; [done|]. rewrite due_cons. unfold owed. case_bool_decide; lia. Qed.
#[global] Instance due_Proper payer : Proper ((≡ₚ) ==> eq) (due payer).
Proof. induction 1; [done|rewrite !due_cons; lia|rewrite !due_cons; lia|lia]. Qed.

Lemma won_balance s c a : 0 < pc_amount_micro c -> balance s a - owed a c <= balance (won s c) a.
Proof.
  intros H. unfold balance, won. cbn [finalize with_balances ls_balances]. rewrite moved_balance by done.
  unfold owed. repeat case_bool_decide; lia.
Qed.

(** A list whose claims pass, ascend and are covered is executed whole. *)
Lemma covered_execute cs s : books s -> Forall (passes s) cs -> StronglySorted ascends cs ->
  (forall payer, due payer cs <= balance s payer) -> executed s cs = cs.
Proof.
  revert s. induction cs as [|c cs IH]; intros s Hb Hf Hs Hd; [done|]. simpl.
  apply Forall_cons in Hf as [(H1 & H2 & H3 & H4 & H5) Hf]. apply StronglySorted_inv in Hs as [Hs Hh].
  assert (Forall (fun c => 0 <= pc_amount_micro c) cs) as Hn by (eapply Forall_impl; [exact Hf|]; intros ? (_ & _ & _ & _ & ?); lia).
  assert (pc_amount_micro c <= balance s (pc_payer c)) as Hle.
  { specialize (Hd (pc_payer c)). rewrite due_cons in Hd. unfold owed in Hd. rewrite bool_decide_eq_true_2 in Hd by done.
    pose proof (due_nonneg (pc_payer c) cs Hn). lia. }
  destruct (apply_one_claim_spec s c Hb) as [(Hw & E & _)|(Hw & _)]; [lia| |].
  - rewrite E, Hw. f_equal. apply IH; [by apply won_books| |done|].
    + rewrite Forall_forall in *. intros c' Hc'. destruct (Hf c' Hc') as (G1 & G2 & G3 & G4 & G5).
      split; [done|]. split; [done|]. split; [done|]. split; [|done]. unfold above_mark in *.
      change (finalized_sequence (won s c) (pc_payer c')) with (fst <$> <[pc_payer c := (pc_sequence c, claim_digest c)]> (ls_finalized s) !! pc_payer c').
      destruct (decide (pc_payer c = pc_payer c')) as [Ep|Ep].
      * rewrite Ep, lookup_insert_eq. cbn. apply Z.ltb_lt. by apply (Hh c' Hc').
      * by rewrite lookup_insert_ne.
    + intros payer. pose proof (won_balance s c payer H5). specialize (Hd payer). rewrite due_cons in Hd. lia.
  - exfalso. unfold claim_wins in Hw. rewrite H1, H3, H4, bool_decide_eq_true_2 in Hw by done. cbn [andb] in Hw.
    apply negb_false_iff, Z.ltb_lt in Hw. lia.
Qed.

(** ** Revalidation *)
Record pool_fits (p : PaymentAdmissionPool) (s : LedgerState) (now : Z) : Prop := {
  pf_valid c : c ∈ claims_of p -> validate_claim c s now = Ok tt;
  pf_covered payer : due payer (claims_of p) <= balance s payer;
}.

(** Why a claim does not survive, given what is reserved before its turn. *)
Definition drop_reason (s : LedgerState) (now : Z) (reserved : Z) (c : PaymentClaim) : option AdmissionError :=
  match validate_claim c s now with
  | Err e => Some e
  | Ok _ => if reserved + pc_amount_micro c <=? balance s (pc_payer c) then None else Some AdInsufficientAvailableBalance
  end.

Definition held (r : gmap bytes Z) (payer : bytes) : Z := default 0 (r !! payer).

Lemma revalidate_step_spec s now r rem c : books s ->
  match drop_reason s now (held r (pc_payer c)) c with
  | Some e => revalidate_step s now (r, rem) c = (r, rem ++ [(claim_digest c, e)])
  | None => exists r', revalidate_step s now (r, rem) c = (r', rem) /\ validate_claim c s now = Ok tt /\
      (forall payer, held r' payer = held r payer + owed payer c) /\ held r' (pc_payer c) <= balance s (pc_payer c)
  end.
Proof.
  intros Hb. unfold revalidate_step, drop_reason, held. cbv zeta. cbn [fst snd].
  destruct (validate_claim c s now) as [[]|e]; [|done]. unfold checked_add.
  pose proof (balance_le s (pc_payer c) Hb). pose proof (books_bound s Hb). pose proof (bk_unallocated s Hb). pose proof (bk_pool s Hb).
  destruct (Z.leb_spec (default 0 (r !! pc_payer c) + pc_amount_micro c) (balance s (pc_payer c))) as [Hle|Hgt].
  - rewrite (proj2 (Z.leb_le _ U128_MAX)) by lia. rewrite (proj2 (Z.leb_le _ _)) by done.
    eexists. split; [done|]. split; [done|]. split; [|by rewrite lookup_insert_eq].
    intros payer. unfold owed. case_bool_decide as E; subst.
    + by rewrite lookup_insert_eq.
    + rewrite lookup_insert_ne by congruence. lia.
  - destruct (_ <=? U128_MAX); [|done]. by rewrite (proj2 (Z.leb_gt _ _)).
Qed.

Lemma revalidate_fold s now cs r rem : books s -> (forall payer, held r payer <= balance s payer) ->
  exists r' kept dropped, fold_left (revalidate_step s now) cs (r, rem) = (r', rem ++ dropped) /\
    sublist kept cs /\ Forall (fun c => validate_claim c s now = Ok tt) kept /\
    (forall payer, held r' payer = held r payer + due payer kept) /\ (forall payer, held r' payer <= balance s payer) /\
    map claim_digest cs ≡ₚ map claim_digest kept ++ map fst dropped /\
    (Forall (fun c => validate_claim c s now = Ok tt) cs -> Forall (fun c => 0 <= pc_amount_micro c) cs ->
     (forall payer, held r payer + due payer cs <= balance s payer) -> dropped = []).
Proof.
  intros Hb. revert r rem. induction cs as [|c cs IH]; intros r rem Hr; simpl.
  { exists r, [], []. rewrite app_nil_r. split; [done|]. split; [done|]. split; [done|]. split; [intros; unfold due; cbn; lia|done]. }
  pose proof (revalidate_step_spec s now r rem c Hb) as Hs.
  destruct (drop_reason s now (held r (pc_payer c)) c) as [e|] eqn:Ed.
  - rewrite Hs. destruct (IH r (rem ++ [(claim_digest c, e)]) Hr) as (r' & kept & dropped & -> & H1 & H2 & H3 & H4 & H5 & H6).
    exists r', kept, ((claim_digest c, e) :: dropped). rewrite <- app_assoc. split; [done|]. split; [by constructor|].
    split; [done|]. split; [done|]. split; [done|]. split; [cbn; by rewrite H5, Permutation_middle|].
    intros [Hv _]%Forall_cons [Ha Hn]%Forall_cons Hc. exfalso. unfold drop_reason in Ed. rewrite Hv in Ed.
    specialize (Hc (pc_payer c)). rewrite due_cons in Hc. unfold owed in Hc. rewrite bool_decide_eq_true_2 in Hc by done.
    pose proof (due_nonneg (pc_payer c) cs Hn). case_match eqn:El; [done|]. apply Z.leb_gt in El. lia.
  - destruct Hs as (r1 & -> & Hv & Ho & Hle).
    assert (forall payer, held r1 payer <= balance s payer) as Hr1.
    { intros payer. specialize (Ho payer). unfold owed in Ho. specialize (Hr payer). case_bool_decide; subst; [done|lia]. }
    destruct (IH r1 rem Hr1) as (r' & kept & dropped & -> & H1 & H2 & H3 & H4 & H5 & H6).
    exists r', (c :: kept), dropped. split; [done|]. split; [by constructor|]. split; [by constructor|].
    split; [intros payer; rewrite H3, Ho, due_cons; lia|]. split; [done|]. split; [cbn; by rewrite H5|].
    intros [_ Hv']%Forall_cons [_ Hn]%Forall_cons Hc. apply H6; [done|done|]. intros payer. rewrite Ho.
    specialize (Hc payer). rewrite due_cons in Hc. lia.
Qed.
Lemma claims_of_amounts p : pool_ok p -> Forall (fun c => 0 <= pc_amount_micro c) (claims_of p).
Proof.
  intros Hp. apply Forall_forall. intros c Hc. apply elem_of_claims_of in Hc as [n Hn]; [|done].
  apply (po_digest p Hp) in Hn as (_ & Hn & _). cbn in Hn. lia.
Qed.

Lemma NoDup_app_perm {A} (l l1 l2 : list A) : NoDup l -> l ≡ₚ l1 ++ l2 -> NoDup l1 /\ (forall x, x ∈ l1 -> x ∉ l2).
Proof. intros Hn E. rewrite E in Hn. apply NoDup_app in Hn. naive_solver. Qed.

Lemma revalidate_spec p s now : books s -> pool_ok p ->
  let removed := fst (revalidate p s now) in let p' := snd (revalidate p s now) in
  pool_ok p' /\ pool_fits p' s now /\
  (forall k a, pl_claims p' !! k = Some a <-> pl_claims p !! k = Some a /\ k ∉ map fst removed) /\
  Sorted entry_le removed /\ NoDup (map fst removed) /\ (forall k, k ∈ map fst removed -> is_Some (pl_claims p !! k)) /\
  (pool_fits p s now -> removed = []).
Proof.
  intros Hb Hp. unfold revalidate.
  destruct (revalidate_fold s now (candidates p (pool_len p)) ∅ []) as (r' & kept & dropped & E & H1 & H2 & H3 & H4 & H5 & H6);
    [done|intros payer; unfold held; rewrite lookup_empty; apply positive_nonneg, bk_positive, Hb|].
  rewrite E. cbn [fst snd app]. set (removed := merge_sort entry_le dropped).
  pose proof (merge_sort_Permutation entry_le dropped : removed ≡ₚ dropped) as Hperm.
  assert (map fst removed ≡ₚ map fst dropped) as Hfst by by rewrite Hperm.
  destruct (remove_all_spec removed p Hp) as [Hok Hl]. fold (remove_all removed p).
  pose proof (claims_of_NoDup p Hp) as Hn. rewrite <- (candidates_full p Hp) in Hn.
  destruct (NoDup_app_perm _ _ _ Hn H5) as [Hnk Hdis].
  pose proof (claims_of_amounts p Hp) as Ham.
  assert (claims_of (remove_all removed p) ≡ₚ kept) as Hkept.
  { apply NoDup_Permutation; [by eapply NoDup_fmap_1, claims_of_NoDup|by eapply NoDup_fmap_1|].
    intros c. rewrite elem_of_claims_of by done. setoid_rewrite Hl. setoid_rewrite Hfst. split.
    - intros (n & Hc & Hd). assert (c ∈ claims_of p) as Hin by (apply elem_of_claims_of; [done|by exists n]).
      assert (claim_digest c ∈ map claim_digest kept ++ map fst dropped) as Hx
        by (rewrite <- H5, (candidates_full p Hp); by apply (list_elem_of_fmap_2 claim_digest)).
      apply elem_of_app in Hx as [Hx|Hx]; [|done]. apply list_elem_of_fmap in Hx as (c' & Ec & Hc').
      assert (c' ∈ claims_of p) as Hin' by (rewrite <- candidates_full by done; by eapply elem_of_sublist).
      apply elem_of_claims_of in Hin' as [n' Hn']; [|done]. rewrite <- Ec, Hc in Hn'. by injection Hn' as <- _.
    - intros Hc. assert (c ∈ claims_of p) as Hin by (rewrite <- candidates_full by done; by eapply elem_of_sublist).
      apply elem_of_claims_of in Hin as [n Hcn]; [|done]. exists n. split; [done|]. apply Hdis.
      by apply (list_elem_of_fmap_2 claim_digest). }
  split; [done|]. split; [|split; [done|split; [|split; [|split]]]].
  - split.
    + intros c Hc. rewrite Hkept in Hc. rewrite Forall_forall in H2. by apply H2.
    + intros payer. rewrite Hkept. specialize (H3 payer). unfold held at 2 in H3. rewrite lookup_empty in H3. cbn in H3.
      specialize (H4 payer). lia.
  - apply Sorted_merge_sort. apply _.
  - rewrite Hfst. rewrite H5 in Hn. by apply NoDup_app in Hn as (_ & _ & ?).
  - intros k. rewrite Hfst. intros Hk. assert (k ∈ map claim_digest (claims_of p)) as Hin
      by (rewrite <- candidates_full, H5 by done; apply elem_of_app; by right).
    apply list_elem_of_fmap in Hin as (c & -> & Hc). apply elem_of_claims_of in Hc as [n ->]; [by eexists|done].
  - intros [V C]. unfold removed. rewrite H6; [done| | |].
    + rewrite Forall_forall. intros c. rewrite candidates_full by done. apply V.
    + by rewrite candidates_full.
    + intros payer. rewrite candidates_full by done. unfold held. rewrite lookup_empty. cbn. apply C.
Qed.

(** ** The pool over its life *)
Inductive pool_run : PaymentAdmissionPool -> Prop :=
| pool_run_new policy p : 0 <= max_claims policy -> 0 <= max_total_bytes policy -> 0 <= max_claims_per_payer policy ->
    pool_new policy = Ok p -> pool_run p
| pool_run_admit p c s now d p' : pool_run p -> 0 <= pc_amount_micro c -> pool_admit p c s now = Ok (d, p') -> pool_run p'
| pool_run_wire p b s now d p' : pool_run p -> bytes_ok b -> admit_wire p b s now = Ok (d, p') -> pool_run p'
| pool_run_remove p d : pool_run p -> pool_run (snd (remove p d))
| pool_run_revalidate p s now : pool_run p -> books s -> pool_run (snd (revalidate p s now)).

Lemma pool_run_ok p : pool_run p -> pool_ok p.
Proof.
  induction 1 as [| |p b s now d p' _ IH Hb H| |p s now _ IH Hb].
  - by eapply pool_new_ok.
  - by eapply admit_ok.
  - unfold admit_wire in H. apply bind_ok in H as (c & Hc%map_err_ok & H). apply claim_wire_iff in Hc as (_ & Ht & _); [|done].
    eapply admit_ok; [done| |done]. apply Ht.
  - by apply remove_ok.
  - by apply (revalidate_spec p s now Hb IH).
Qed.

(** C37: The pool's accounts.  However a pool is built and used, its four
    books agree with one another and with its policy: claims are filed under
    their digest and have a positive amount, a payer's slots are exactly its
    claims by sequence, its reservation is exactly their sum, empty entries
    are dropped, the byte count is the sum of the sizes, and the counts never
    exceed the policy.  A pool is built and used by creating it, admitting
    claims or their bytes, removing, and revalidating against a state whose
    own books are sound, which every reachable state's are. *)
Theorem pool_accounts p : pool_run p ->
  (forall d a, pl_claims p !! d = Some a -> d = claim_digest (ad_claim a) /\ 0 < pc_amount_micro (ad_claim a)) /\
  (forall payer n d, slots_of p payer !! n = Some d <->
     exists a, pl_claims p !! d = Some a /\ pc_payer (ad_claim a) = payer /\ pc_sequence (ad_claim a) = n) /\
  (forall payer, reserved_of p payer = due payer (claims_of p)) /\
  (forall payer m, pl_payer_slots p !! payer = Some m -> m <> ∅) /\
  (forall payer v, pl_payer_reserved_micro p !! payer = Some v -> 0 < v) /\
  pl_encoded_bytes p = total_by ad_wire_bytes (pl_claims p) /\ pl_encoded_bytes p <= max_total_bytes (pl_policy p) /\
  pool_len p <= max_claims (pl_policy p) <= MAX_CLAIMS_PER_BLOCK /\
  (forall payer, Z.of_nat (size (slots_of p payer)) <= max_claims_per_payer (pl_policy p)).
Proof.
  intros Hr. destruct (pool_run_ok p Hr) as [P1 P2 P3 P4 P5 P6 P7 P8 P9 P10].
  split; [intros d a Ha; by destruct (P2 d a Ha) as (? & ? & _)|]. split; [done|].
  split; [intros payer; by rewrite due_claims|]. unfold pool_len. naive_solver lia.
Qed.

(** Revalidation is exact.  It removes the claims it reports, each once,
    in digest order, and no other; every claim that stays still validates,
    and each payer's balance covers all it has in the pool.  A pool that
    already fits loses nothing, so revalidating twice is revalidating once. *)
Theorem revalidate_exact p s now removed p' : pool_run p -> books s -> revalidate p s now = (removed, p') ->
  pool_fits p' s now /\
  (forall k a, pl_claims p' !! k = Some a <-> pl_claims p !! k = Some a /\ k ∉ map fst removed) /\
  (forall k, k ∈ map fst removed -> is_Some (pl_claims p !! k)) /\ NoDup (map fst removed) /\ Sorted entry_le removed /\
  (pool_fits p s now -> removed = [] /\ p' = p) /\ revalidate p' s now = ([], p').
Proof.
  intros Hp%pool_run_ok Hb E.
  assert (forall q, pool_ok q -> pool_fits q s now -> revalidate q s now = ([], q)) as Hid.
  { intros q Hq Hf. destruct (revalidate_spec q s now Hb Hq) as (_ & _ & _ & _ & _ & _ & H).
    specialize (H Hf). unfold revalidate in *. cbn [fst] in H. by rewrite H. }
  destruct (revalidate_spec p s now Hb Hp) as (H1 & H2 & H3 & H4 & H5 & H6 & _). rewrite E in *. cbn [fst snd] in *.
  split; [done|]. split; [done|]. split; [done|]. split; [done|]. split; [done|]. split; [|by apply Hid].
  intros Hf. rewrite (Hid p Hp Hf) in E. by injection E as <- <-.
Qed.

(** What the pool proposes executes.  After revalidation against a state
    a run reached, the block made of the pool's first candidates, whatever
    the limit, applies to that state and every claim of it is executed: none
    is stale, unfunded or malformed. *)
Theorem candidates_execute g h s p now limit removed p' : genesis_state g -> run g h s -> pool_run p ->
  revalidate p s now = (removed, p') -> 0 <= limit ->
  exists s', apply_block s (body_new (candidates p' limit)) = Ok s' /\ paid s (candidates p' limit) s' /\ books s'.
Proof.
  intros Hg Hr Hp%pool_run_ok E Hlim. destruct (run_invariant g h s Hg Hr) as (Hb & Hsp & _).
  destruct (revalidate_spec p s now Hb Hp) as (Hok & [V C] & _). rewrite E in *. cbn [snd] in *.
  destruct (candidates_prefix p' limit Hok) as [rest Hrest].
  pose proof (candidates_ascend p' Hok) as Hs. rewrite Hrest in Hs.
  pose proof (candidates_full p' Hok) as Hfull. rewrite Hrest in Hfull. pose proof (claims_of_amounts p' Hok) as Ham.
  rewrite <- Hfull in Ham. apply Forall_app in Ham as [Ham1 Ham2].
  assert (executed s (candidates p' limit) = candidates p' limit) as He.
  { apply covered_execute; [done| |by eapply StronglySorted_app_1_l|].
    - rewrite Forall_forall in *. intros c Hc. apply (validate_passes s now); [by apply Ham1|]. apply V.
      rewrite <- Hfull. apply elem_of_app. by left.
    - intros payer. specialize (C payer). rewrite <- Hfull, due_app in C. pose proof (due_nonneg payer rest Ham2). lia. }
  assert (Z.of_nat (length (candidates p' limit)) <= MAX_CLAIMS_PER_BLOCK) as Hlen.
  { unfold candidates. rewrite length_map, length_take. unfold MAX_CLAIMS_PER_BLOCK. lia. }
  destruct (payments_block s _ Hb Ham1 Hlen) as (s' & ? & ? & Hp'). rewrite He in Hp'. by exists s'.
Qed.
End AdmissionTheorems.
