(* ===== verification/LedgerSnapshot.v ===== *)
(** * LedgerSnapshot: exact persistence of the ledger state

    Models [crates/mini-execution/src/snapshot.rs] and the decoder
    [ShieldedLedger::from_bytes] of [shielded.rs].  The encoder computes the
    exact length first and writes under it; the decoder reads each map in
    strictly ascending key order, re-checks every bound execution checks and
    re-encodes what it read.  Both readers are cursors as in [Codec]; a loop
    that fills a map is [r_fold]. *)

From Stdlib Require Import ZArith Lia.
From stdpp Require Import base list gmap sets strings sorting.
From S2P Require Import Prelude Codec Crypto Chain Economy Settlement Shielded Execution.
Open Scope Z_scope.

Definition MAX_LEDGER_SNAPSHOT_BYTES : Z := 8 * 1024 * 1024.
Definition SNAPSHOT_DOMAIN : bytes := lit "mini-execution/ledger-snapshot/v3".

(** [for _ in 0..n { s = step(s, reader)? }]. *)
Fixpoint r_fold {E S} (n : nat) (step : S -> parser E S) (s : S) : parser E S :=
  match n with
  | O => mret s
  | Datatypes.S n' => s' ← step s; r_fold n' step s'
  end.

(** ** The reader *)
Definition sn_take (n : nat) : parser ExecutionError bytes := r_take SnapshotMalformed n.
Definition sn_u8 : parser ExecutionError Z := r_u8 SnapshotMalformed.
Definition sn_u32 : parser ExecutionError Z := r_u32 SnapshotMalformed.
Definition sn_u64 : parser ExecutionError Z := r_u64 SnapshotMalformed.
Definition sn_u128 : parser ExecutionError Z := s ← sn_take 16; mret (from_be_bytes s).
Definition sn_bytes (max : Z) : parser ExecutionError bytes :=
  bytes_limited SnapshotMalformed (fun _ => SnapshotTooLarge) max.
Definition sn_count (max : Z) : parser ExecutionError nat :=
  count ← sn_u32;
  _ ← lift (fail_if (max <? count) SnapshotTooLarge);
  mret (Z.to_nat count).
Definition strictly_after (previous : option bytes) (current : bytes) : bool :=
  match previous with None => true | Some prior => negb (bool_decide (bytes_le current prior)) end.

Definition decode_rejection (tag : Z) : result ExecutionError CanonicalRejection :=
  if tag =? 0 then Ok WrongNetwork
  else if tag =? 1 then Ok UnsupportedPayee
  else if tag =? 2 then Ok StaleSequence
  else if tag =? 3 then Ok InsufficientFunds
  else if tag =? 4 then Ok UnrecognizedAnchor
  else Err SnapshotMalformed.
Definition decode_channel (tag : Z) : result ExecutionError Channel :=
  if tag =? 0 then Ok HumanShare
  else if tag =? 1 then Ok Service
  else if tag =? 2 then Ok TreasuryContribution
  else Err SnapshotMalformed.

(** ** [ShieldedLedger::from_bytes] *)
Definition read_allocation (acc : list ShieldedGenesisAllocation * gset bytes) :
    parser ExecutionError (list ShieldedGenesisAllocation * gset bytes) :=
  public_key ← sn_take 32;
  amount_commitment ← sn_take 32;
  amount_micro ← sn_u64;
  _ ← lift (fail_if (bool_decide (public_key ∈ acc.2)) SnapshotMalformed);
  mret (acc.1 ++ [mkShieldedAllocation (mkShieldedOutput public_key amount_commitment) amount_micro],
        {[ public_key ]} ∪ acc.2).
Definition read_output (outputs : gmap bytes bytes) : parser ExecutionError (gmap bytes bytes) :=
  key ← sn_take 32;
  commitment ← sn_take 32;
  _ ← lift (fail_if (bool_decide (is_Some (outputs !! key))) SnapshotMalformed);
  mret (<[key := commitment]> outputs).
Definition read_applied (acc : list bytes * gset bytes) : parser ExecutionError (list bytes * gset bytes) :=
  digest ← sn_take 32;
  _ ← lift (fail_if (bool_decide (digest ∈ acc.2)) SnapshotMalformed);
  mret (acc.1 ++ [digest], {[ digest ]} ∪ acc.2).

Definition SHIELDED_DOMAIN : bytes := lit "mini-execution/shielded-ledger/v1".
Definition read_shielded : parser ExecutionError ShieldedLedger :=
  domain ← sn_take (length SHIELDED_DOMAIN);
  _ ← lift (fail_if (negb (bool_decide (domain = SHIELDED_DOMAIN))) SnapshotMalformed);
  n ← sn_count MAX_OUTPUTS;
  genesis ← r_fold n read_allocation ([], ∅);
  n ← sn_count MAX_OUTPUTS;
  outputs ← r_fold n read_output ∅;
  n ← sn_count MAX_OUTPUTS;
  applied ← r_fold n read_applied ([], ∅);
  pool_micro ← sn_u128;
  mret (mkShieldedLedger genesis.1 outputs applied.1 pool_micro).
Definition shielded_from_bytes (b : bytes) : result ExecutionError ShieldedLedger :=
  lr ← read_shielded (Reader_new b);
  _ ← fail_if (negb (finished lr.2)) SnapshotMalformed;
  Ok lr.1.

(** ** The monetary ledger *)
Definition put_count (n : Z) : result ExecutionError bytes :=
  if n <=? U32_MAX then Ok (w_u32 n) else Err SnapshotTooLarge.
Definition put_bytes (b : bytes) : result ExecutionError bytes :=
  if Z.of_nat (length b) <=? U32_MAX then Ok (w_bytes b) else Err SnapshotTooLarge.
(** [for a in l { f(out, a)? }]: the bytes the loop appends. *)
Fixpoint put_each {A} (f : A -> result ExecutionError bytes) (l : list A) : result ExecutionError bytes :=
  match l with
  | [] => Ok []
  | a :: l' => b ← f a; bs ← put_each f l'; Ok (b ++ bs)
  end.

Definition encode_subject (s : VestingSubject) : result ExecutionError bytes :=
  match s with
  | SnapshotSubject h => Ok (w_u8 0 ++ hs_root h ++ w_u64 (hs_eligible_count h))
  | Beneficiary b =>
      _ ← fail_if (bool_decide (b = [])) SnapshotMalformed;
      _ ← fail_if (MAX_SNAPSHOT_BENEFICIARY_BYTES <? Z.of_nat (length b)) SnapshotTooLarge;
      p ← put_bytes b;
      Ok (w_u8 1 ++ p)
  end.
Definition encode_position (p : VestingPosition) : result ExecutionError bytes :=
  s ← encode_subject (vp_subject p);
  Ok (w_u64 (vp_epoch p) ++ s ++ w_u8 (channel_tag (vp_channel p)) ++ put_amount (vp_amount p) ++
      to_be_bytes 16 (vp_starts_at_policy_ms p) ++ w_u64 (vp_duration_ms p)).
Definition encode_monetary (m : MonetaryLedgerSnapshot) : result ExecutionError bytes :=
  count ← put_count (Z.of_nat (length (ss_positions m)));
  positions ← put_each encode_position (ss_positions m);
  Ok (put_amount (ss_genesis_circulating m) ++ put_amount (ss_total_issued m) ++
      to_be_bytes 16 (ss_policy_time_ms m) ++
      match ss_last_epoch m with Some epoch => w_u8 1 ++ w_u64 epoch | None => w_u8 0 end ++ count ++ positions).

Definition read_subject : parser ExecutionError VestingSubject :=
  tag ← sn_u8;
  if tag =? 0 then
    root ← sn_take 32;
    eligible_count ← sn_u64;
    mret (SnapshotSubject (mkHumanSnapshot root eligible_count))
  else if tag =? 1 then
    b ← sn_bytes MAX_SNAPSHOT_BENEFICIARY_BYTES;
    _ ← lift (fail_if (negb (utf8_valid b)) SnapshotMalformed);
    mret (Beneficiary b)
  else lift (Err SnapshotMalformed).
Definition read_position : parser ExecutionError VestingPosition :=
  epoch ← sn_u64;
  subject ← read_subject;
  tag ← sn_u8;
  channel ← lift (decode_channel tag);
  amount ← sn_u128;
  starts_at_policy_ms ← sn_u128;
  duration_ms ← sn_u64;
  mret (mkVestingPosition epoch subject channel amount starts_at_policy_ms duration_ms).
Definition read_last_epoch : parser ExecutionError (option Z) :=
  tag ← sn_u8;
  if tag =? 0 then mret None
  else if tag =? 1 then epoch ← sn_u64; mret (Some epoch)
  else lift (Err SnapshotMalformed).
Definition decode_monetary : parser ExecutionError MonetaryLedgerSnapshot :=
  genesis_circulating ← sn_u128;
  total_issued ← sn_u128;
  policy_time_ms ← sn_u128;
  last_epoch ← read_last_epoch;
  count ← sn_count MAX_VESTING_POSITIONS;
  positions ← r_repeat count read_position;
  mret (mkSnapshot genesis_circulating total_issued policy_time_ms last_epoch positions).

(** ** The exact length *)
Definition USIZE_MAX : Z := U64_MAX.
Definition add_snapshot_len (total additional : Z) : result ExecutionError Z :=
  total ← ok_or (checked_add USIZE_MAX total additional) SnapshotTooLarge;
  _ ← fail_if (MAX_LEDGER_SNAPSHOT_BYTES <? total) SnapshotTooLarge;
  Ok total.
(** A map's rows: a key whose length must fit, and [fixed] more bytes. *)
Definition add_row_len {A} (fixed : Z) (total : Z) (e : bytes * A) : result ExecutionError Z :=
  _ ← fail_if (U32_MAX <? Z.of_nat (length e.1)) SnapshotTooLarge;
  add_snapshot_len total (4 + Z.of_nat (length e.1) + fixed).
Definition add_position_len (total : Z) (p : VestingPosition) : result ExecutionError Z :=
  total ← add_snapshot_len total (8 + 1);
  total ← match vp_subject p with
          | SnapshotSubject _ => add_snapshot_len total (32 + 8)
          | Beneficiary b =>
              _ ← fail_if (bool_decide (b = [])) SnapshotMalformed;
              _ ← fail_if (MAX_SNAPSHOT_BENEFICIARY_BYTES <? Z.of_nat (length b)) SnapshotTooLarge;
              _ ← fail_if (U32_MAX <? Z.of_nat (length b)) SnapshotTooLarge;
              add_snapshot_len total (4 + Z.of_nat (length b))
          end;
  add_snapshot_len total (1 + 16 + 16 + 8).
Definition snapshot_encoded_len (s : LedgerState) (m : MonetaryLedgerSnapshot) : result ExecutionError Z :=
  n ← add_snapshot_len 0 (Z.of_nat (length SNAPSHOT_DOMAIN) + 32);
  n ← add_snapshot_len n 4;
  n ← foldM (add_row_len (8 + 32)) n (btree_entries (ls_finalized s));
  n ← add_snapshot_len n 4;
  rejected ← ok_or (checked_mul USIZE_MAX (Z.of_nat (size (ls_rejected s))) 33) SnapshotTooLarge;
  n ← add_snapshot_len n rejected;
  n ← add_snapshot_len n 4;
  n ← foldM (add_row_len 32) n (btree_entries (ls_nullifiers s));
  n ← add_snapshot_len n (4 + Z.of_nat (length (shielded_to_bytes (ls_shielded s))));
  n ← add_snapshot_len n (16 + 16 + 16 + 1);
  n ← match ss_last_epoch m with Some _ => add_snapshot_len n 8 | None => Ok n end;
  n ← add_snapshot_len n 4;
  n ← foldM add_position_len n (ss_positions m);
  n ← add_snapshot_len n 4;
  n ← foldM (add_row_len 16) n (btree_entries (ls_balances s));
  add_snapshot_len n (16 + 16).

(** ** [to_snapshot_bytes] *)
Definition put_finalized (e : bytes * (Z * bytes)) : result ExecutionError bytes :=
  payer ← put_bytes e.1; Ok (payer ++ w_u64 e.2.1 ++ e.2.2).
Definition put_rejected (e : bytes * CanonicalRejection) : result ExecutionError bytes :=
  Ok (e.1 ++ w_u8 (rejection_tag e.2)).
Definition put_nullifier (e : bytes * bytes) : result ExecutionError bytes :=
  key_image ← put_bytes e.1; Ok (key_image ++ e.2).
Definition put_balance (e : bytes * Z) : result ExecutionError bytes :=
  account ← put_bytes e.1; Ok (account ++ put_amount e.2).
(** The count of a map and its rows. *)
Definition put_map {A} (f : bytes * A -> result ExecutionError bytes) (m : gmap bytes A) : result ExecutionError bytes :=
  count ← put_count (Z.of_nat (size m));
  rows ← put_each f (btree_entries m);
  Ok (count ++ rows).

Definition to_snapshot_bytes (s : LedgerState) : result ExecutionError bytes :=
  _ ← fail_if (existsb (fun count => MAX_LEDGER_SNAPSHOT_ENTRIES <? Z.of_nat count)
        [size (ls_finalized s); size (ls_rejected s); size (ls_nullifiers s); size (ls_balances s)]) SnapshotTooLarge;
  let monetary := export_snapshot (ls_monetary s) in
  _ ← fail_if (MAX_VESTING_POSITIONS <? Z.of_nat (length (ss_positions monetary))) SnapshotTooLarge;
  exact_len ← snapshot_encoded_len s monetary;
  finalized ← put_map put_finalized (ls_finalized s);
  rejected ← put_map put_rejected (ls_rejected s);
  nullifiers ← put_map put_nullifier (ls_nullifiers s);
  shielded ← put_bytes (shielded_to_bytes (ls_shielded s));
  money ← encode_monetary monetary;
  balances ← put_map put_balance (ls_balances s);
  let out := SNAPSHOT_DOMAIN ++ ls_network_id s ++ finalized ++ rejected ++ nullifiers ++ shielded ++ money ++ balances ++
             put_amount (ls_allocated_circulating s) ++ put_amount (ls_unallocated_circulating s) in
  _ ← fail_if (negb (Z.of_nat (length out) =? exact_len)) SnapshotMalformed;
  Ok out.

(** ** [from_snapshot_bytes] *)
Section LedgerSnapshot.
Context {P : Primitives}.

(** A map being read, and the key of its last row. *)
Definition filling (A : Type) : Type := (gmap bytes A * option bytes)%type.

Definition read_finalized (acc : filling (Z * bytes)) : parser ExecutionError (filling (Z * bytes)) :=
  payer ← sn_bytes MAX_ACCOUNT_BYTES;
  _ ← lift (fail_if (negb (is_supported_account payer) || negb (strictly_after acc.2 payer)) SnapshotMalformed);
  sequence ← sn_u64;
  digest ← sn_take 32;
  mret (<[payer := (sequence, digest)]> acc.1, Some payer).
Definition read_rejected (acc : filling CanonicalRejection) : parser ExecutionError (filling CanonicalRejection) :=
  digest ← sn_take 32;
  _ ← lift (fail_if (negb (strictly_after acc.2 digest)) SnapshotMalformed);
  tag ← sn_u8;
  reason ← lift (decode_rejection tag);
  mret (<[digest := reason]> acc.1, Some digest).
Definition read_nullifier (acc : filling bytes) : parser ExecutionError (filling bytes) :=
  key_image ← sn_bytes MAX_KEY_IMAGE_BYTES;
  _ ← lift (fail_if (bool_decide (key_image = []) || negb (strictly_after acc.2 key_image)) SnapshotMalformed);
  digest ← sn_take 32;
  mret (<[key_image := digest]> acc.1, Some key_image).
Definition read_balance (acc : filling Z) : parser ExecutionError (filling Z) :=
  account ← sn_bytes MAX_ACCOUNT_BYTES;
  _ ← lift (fail_if (negb (is_supported_account account) || negb (strictly_after acc.2 account)) SnapshotMalformed);
  amount ← sn_u128;
  _ ← lift (fail_if (amount =? 0) SnapshotMalformed);
  mret (<[account := amount]> acc.1, Some account).
Definition read_map {A} (step : filling A -> parser ExecutionError (filling A)) : parser ExecutionError (gmap bytes A) :=
  n ← sn_count MAX_LEDGER_SNAPSHOT_ENTRIES;
  acc ← r_fold n step (∅, None);
  mret acc.1.

Definition read_state : parser ExecutionError LedgerState :=
  domain ← sn_take (length SNAPSHOT_DOMAIN);
  _ ← lift (fail_if (negb (bool_decide (domain = SNAPSHOT_DOMAIN))) SnapshotMalformed);
  network_id ← sn_take 32;
  finalized ← read_map read_finalized;
  rejected ← read_map read_rejected;
  nullifiers ← read_map read_nullifier;
  shielded_bytes ← sn_bytes MAX_LEDGER_SNAPSHOT_BYTES;
  shielded ← lift (shielded_from_bytes shielded_bytes);
  monetary_snapshot ← decode_monetary;
  monetary ← lift (map_err InvalidMonetaryEpoch (import_snapshot monetary_snapshot));
  balances ← read_map read_balance;
  allocated_circulating ← sn_u128;
  unallocated_circulating ← sn_u128;
  mret (mkLedgerState network_id finalized rejected nullifiers monetary shielded balances
          allocated_circulating unallocated_circulating).

Definition from_snapshot_bytes (b : bytes) : result ExecutionError LedgerState :=
  _ ← fail_if (MAX_LEDGER_SNAPSHOT_BYTES <? Z.of_nat (length b)) SnapshotTooLarge;
  sr ← read_state (Reader_new b);
  _ ← fail_if (negb (finished sr.2)) SnapshotMalformed;
  let state := sr.1 in
  _ ← verify_supply_conservation state;
  _ ← verify_balance_map_total state;
  again ← to_snapshot_bytes state;
  _ ← fail_if (negb (bool_decide (again = b))) SnapshotMalformed;
  Ok state.
End LedgerSnapshot.
