(* ===== verification/SnapshotTheorems.v ===== *)
(** * SnapshotTheorems: a snapshot is the state, exactly

    The encoder's image and its length preflight; reading back what was
    written; and that every state execution reaches can be written and read
    back. *)

From Stdlib Require Import ZArith Lia.
From stdpp Require Import base list gmap sets strings sorting.
From S2P Require Import Prelude Codec Crypto Identity Kel Chain Economy EconomyTheorems EconomyWire.
From S2P Require Import Settlement SettlementTheorems Shielded Execution StatePins ExecutionFacts BlockFacts.
From S2P Require Import ExecutionTheorems LedgerSnapshot.
Open Scope Z_scope.

(** ** The image of a state *)
Definition subject_image (s : VestingSubject) : bytes :=
  match s with
  | SnapshotSubject h => w_u8 0 ++ hs_root h ++ w_u64 (hs_eligible_count h)
  | Beneficiary b => w_u8 1 ++ w_bytes b
  end.
Definition position_image (p : VestingPosition) : bytes :=
  w_u64 (vp_epoch p) ++ subject_image (vp_subject p) ++ w_u8 (channel_tag (vp_channel p)) ++ put_amount (vp_amount p) ++
  to_be_bytes 16 (vp_starts_at_policy_ms p) ++ w_u64 (vp_duration_ms p).
Definition monetary_image (m : MonetaryLedgerSnapshot) : bytes :=
  put_amount (ss_genesis_circulating m) ++ put_amount (ss_total_issued m) ++ to_be_bytes 16 (ss_policy_time_ms m) ++
  match ss_last_epoch m with Some epoch => w_u8 1 ++ w_u64 epoch | None => w_u8 0 end ++
  w_u32 (Z.of_nat (length (ss_positions m))) ++ concat (map position_image (ss_positions m)).
Definition map_image {A} (enc : bytes * A -> bytes) (m : gmap bytes A) : bytes :=
  w_u32 (Z.of_nat (size m)) ++ concat (map enc (btree_entries m)).
Definition state_image (s : LedgerState) : bytes :=
  SNAPSHOT_DOMAIN ++ ls_network_id s ++ map_image finalized_bytes (ls_finalized s) ++
  map_image rejected_bytes (ls_rejected s) ++ map_image nullifier_bytes (ls_nullifiers s) ++
  w_bytes (shielded_to_bytes (ls_shielded s)) ++ monetary_image (export_snapshot (ls_monetary s)) ++
  map_image balance_bytes (ls_balances s) ++
  put_amount (ls_allocated_circulating s) ++ put_amount (ls_unallocated_circulating s).

Definition subject_fits (s : VestingSubject) : bool :=
  match s with
  | SnapshotSubject _ => true
  | Beneficiary b => negb (bool_decide (b = [])) && (Z.of_nat (length b) <=? MAX_SNAPSHOT_BENEFICIARY_BYTES)
  end.
Definition position_fits (p : VestingPosition) : Prop := subject_fits (vp_subject p) = true.

(** ** What the encoder's loops append *)
Lemma put_each_iff {A} (f : A -> result ExecutionError bytes) (enc : A -> bytes) (Q : A -> Prop) l bs :
  (forall a b, f a = Ok b <-> Q a /\ b = enc a) ->
  put_each f l = Ok bs <-> Forall Q l /\ bs = concat (map enc l).
Proof.
  intros Hf. revert bs. induction l as [|a l IH]; intros bs; simpl.
  - split; [intros [= <-]; by split|by intros [_ ->]].
  - split.
    + intros H. apply bind_ok in H as (b & [Ha ->]%Hf & H). apply bind_ok in H as (bs' & [Hl ->]%IH & [= <-]). by split; [constructor|].
    + intros [[Ha Hl]%Forall_cons ->]. rewrite (proj2 (Hf a (enc a))) by done. cbn [mbind result_bind].
      by rewrite (proj2 (IH _) (conj Hl eq_refl)).
Qed.

Lemma put_bytes_iff b x : put_bytes b = Ok x <-> Z.of_nat (length b) <= U32_MAX /\ x = w_bytes b.
Proof. unfold put_bytes. destruct (Z.leb_spec (Z.of_nat (length b)) U32_MAX); naive_solver lia. Qed.
Lemma put_count_iff n x : put_count n = Ok x <-> n <= U32_MAX /\ x = w_u32 n.
Proof. unfold put_count. destruct (Z.leb_spec n U32_MAX); naive_solver lia. Qed.

(** A row whose key is written with its length. *)
Definition key_fits {A} (e : bytes * A) : Prop := Z.of_nat (length e.1) <= U32_MAX.
Lemma put_map_iff {A} (f : bytes * A -> result ExecutionError bytes) enc (Q : bytes * A -> Prop) m x :
  (forall a b, f a = Ok b <-> Q a /\ b = enc a) ->
  put_map f m = Ok x <-> Z.of_nat (size m) <= U32_MAX /\ Forall Q (btree_entries m) /\ x = map_image enc m.
Proof.
  intros Hf. unfold put_map, map_image. split.
  - intros H. apply bind_ok in H as (c & [Hc ->]%put_count_iff & H).
    apply bind_ok in H as (rows & [Hr ->]%(put_each_iff f enc Q _ _ Hf) & [= <-]). done.
  - intros (Hc & Hr & ->). rewrite (proj2 (put_count_iff _ _) (conj Hc eq_refl)). cbn [mbind result_bind].
    by rewrite (proj2 (put_each_iff f enc Q _ _ Hf) (conj Hr eq_refl)).
Qed.
Ltac row_iff :=
  split; [intros H; apply bind_ok in H as (? & [? ->]%put_bytes_iff & [= <-]); done
         |intros [Hk ->]; rewrite (proj2 (put_bytes_iff _ _) (conj Hk eq_refl)); done].
Lemma put_finalized_iff e x : put_finalized e = Ok x <-> key_fits e /\ x = finalized_bytes e.
Proof. unfold put_finalized. row_iff. Qed.
Lemma put_nullifier_iff e x : put_nullifier e = Ok x <-> key_fits e /\ x = nullifier_bytes e.
Proof. unfold put_nullifier. row_iff. Qed.
Lemma put_balance_iff e x : put_balance e = Ok x <-> key_fits e /\ x = balance_bytes e.
Proof. unfold put_balance. row_iff. Qed.
Lemma put_rejected_iff e x : put_rejected e = Ok x <-> True /\ x = rejected_bytes e.
Proof. unfold put_rejected, rejected_bytes. naive_solver. Qed.

Lemma encode_subject_iff s x : encode_subject s = Ok x <-> subject_fits s = true /\ x = subject_image s.
Proof.
  destruct s as [h|b]; cbn [encode_subject subject_fits subject_image]; [naive_solver|]. split.
  - intros H. apply bind_ok in H as (? & H1 & H). apply bind_ok in H as (? & H2 & H).
    apply bind_ok in H as (p & [_ ->]%put_bytes_iff & [= <-]). apply fail_if_ok in H1, H2. apply Z.ltb_ge in H2.
    split; [|done]. rewrite H1. by apply Z.leb_le.
  - intros [[H1 H2]%andb_true_iff ->]. apply negb_true_iff in H1. apply Z.leb_le in H2. rewrite H1.
    rewrite (proj2 (Z.ltb_ge _ _) H2). cbn [fail_if mbind result_bind].
    rewrite (proj2 (put_bytes_iff b (w_bytes b))); [done|]. unfold MAX_SNAPSHOT_BENEFICIARY_BYTES, U32_MAX in *. split; [lia|done].
Qed.
Lemma encode_position_iff p x : encode_position p = Ok x <-> position_fits p /\ x = position_image p.
Proof.
  unfold encode_position, position_fits, position_image. split.
  - intros H. by apply bind_ok in H as (b & [Hs ->]%encode_subject_iff & [= <-]).
  - intros [Hs ->]. by rewrite (proj2 (encode_subject_iff _ _) (conj Hs eq_refl)).
Qed.
Lemma encode_monetary_iff m x : encode_monetary m = Ok x <->
  Z.of_nat (length (ss_positions m)) <= U32_MAX /\ Forall position_fits (ss_positions m) /\ x = monetary_image m.
Proof.
  unfold encode_monetary, monetary_image. split.
  - intros H. apply bind_ok in H as (c & [Hc ->]%put_count_iff & H).
    apply bind_ok in H as (ps & [Hp ->]%(put_each_iff _ _ _ _ _ encode_position_iff) & [= <-]). done.
  - intros (Hc & Hp & ->). rewrite (proj2 (put_count_iff _ _) (conj Hc eq_refl)). cbn [mbind result_bind].
    by rewrite (proj2 (put_each_iff _ _ _ _ _ encode_position_iff) (conj Hp eq_refl)).
Qed.

(** ** The length preflight *)

(** [f] adds [w] to the length, within the bound, and succeeds only if [Q]. *)
Definition len_adds (f : Z -> result ExecutionError Z) (Q : Prop) (w : Z) : Prop :=
  0 <= w /\ forall t t', 0 <= t <= MAX_LEDGER_SNAPSHOT_BYTES ->
    f t = Ok t' <-> Q /\ t' = t + w /\ t' <= MAX_LEDGER_SNAPSHOT_BYTES.

Lemma len_adds_len w : 0 <= w -> len_adds (fun t => add_snapshot_len t w) True w.
Proof.
  intros Hw. split; [done|]. intros t t' Ht.
  unfold add_snapshot_len, checked_add, MAX_LEDGER_SNAPSHOT_BYTES, USIZE_MAX, U64_MAX in *. split.
  - intros H. apply bind_ok in H as (x & H1 & H). apply bind_ok in H as (? & H2 & [= <-]). apply fail_if_ok, Z.ltb_ge in H2.
    case_match; [|done]. injection H1 as <-. split; [done|]. split; [done|lia].
  - intros (_ & -> & Hle). rewrite (proj2 (Z.leb_le _ _)) by lia. cbn [ok_or mbind result_bind].
    by rewrite (proj2 (Z.ltb_ge _ _)) by lia.
Qed.

Lemma len_adds_ret : len_adds (fun t => Ok t) True 0.
Proof. split; [done|]. intros t t' Ht. rewrite Z.add_0_r. naive_solver lia. Qed.

Lemma len_adds_bind f g Q R v w : len_adds f Q v -> len_adds g R w ->
  len_adds (fun t => t' ← f t; g t') (Q /\ R) (v + w).
Proof.
  intros [Hv Hf] [Hw Hg]. split; [lia|]. intros t t' Ht. split.
  - intros H. apply bind_ok in H as (x & (Hq & -> & Hx)%Hf & H); [|done]. apply Hg in H as (Hr & -> & Hle); [|lia].
    split; [done|]. split; [lia|done].
  - intros ([Hq Hr] & -> & Hle). rewrite (proj2 (Hf t (t + v) Ht)) by (split; [done|]; split; [done|lia]).
    cbn [mbind result_bind]. apply Hg; [lia|]. split; [done|]. split; [lia|done].
Qed.

Lemma len_adds_weaken f Q R w : (Q <-> R) -> len_adds f Q w -> len_adds f R w.
Proof. intros E [Hw Hf]. split; [done|]. intros t t' Ht. rewrite (Hf t t' Ht). naive_solver. Qed.

Lemma len_adds_fail b e f Q w : len_adds f Q w -> len_adds (fun t => _ ← fail_if b e; f t) (b = false /\ Q) w.
Proof.
  intros [Hw Hf]. split; [done|]. intros t t' Ht. destruct b; cbn [fail_if mbind result_bind]; [naive_solver|].
  rewrite (Hf t t' Ht). naive_solver.
Qed.
(** A test the bound implies. *)
Lemma len_adds_implied b e f Q w : MAX_LEDGER_SNAPSHOT_BYTES < w \/ b = false -> len_adds f Q w ->
  len_adds (fun t => _ ← fail_if b e; f t) Q w.
Proof.
  intros Hb [Hw Hf]. split; [done|]. intros t t' Ht. destruct b; cbn [fail_if mbind result_bind]; [|by apply Hf].
  split; [done|]. intros (_ & -> & ?). destruct Hb; [lia|done].
Qed.

Lemma len_adds_fold {A} (f : Z -> A -> result ExecutionError Z) (Q : A -> Prop) (w : A -> Z) l :
  (forall a, len_adds (fun t => f t a) (Q a) (w a)) -> len_adds (fun t => foldM f t l) (Forall Q l) (sum_Z (map w l)).
Proof.
  intros Hf. induction l as [|a l IH]; simpl.
  - eapply len_adds_weaken; [|apply len_adds_ret]. by rewrite Forall_nil.
  - eapply len_adds_weaken; [symmetry; apply Forall_cons|]. exact (len_adds_bind _ _ _ _ _ _ (Hf a) IH).
Qed.

Definition row_len {A} (fixed : Z) (e : bytes * A) : Z := 4 + Z.of_nat (length e.1) + fixed.
Definition rows_len {A} (fixed : Z) (m : gmap bytes A) : Z := sum_Z (map (row_len fixed) (btree_entries m)).
Lemma len_adds_rows {A} (fixed : Z) (m : gmap bytes A) : 0 <= fixed ->
  len_adds (fun t => foldM (add_row_len fixed) t (btree_entries m)) True (rows_len fixed m).
Proof.
  intros Hf. eapply len_adds_weaken; [|apply (len_adds_fold (add_row_len fixed) (fun _ => True) (row_len fixed))].
  - split; [done|]. intros _. by apply Forall_true.
  - intros e. unfold add_row_len. eapply (len_adds_implied _ _ _ _ (row_len fixed e)); [|apply len_adds_len; unfold row_len; lia].
    unfold row_len. destruct (Z.ltb_spec U32_MAX (Z.of_nat (length e.1))); [left|by right].
    unfold MAX_LEDGER_SNAPSHOT_BYTES, U32_MAX in *. lia.
Qed.

(** The length of a subject after its tag. *)
Definition subject_len (s : VestingSubject) : Z :=
  match s with SnapshotSubject _ => 32 + 8 | Beneficiary b => 4 + Z.of_nat (length b) end.
Definition position_len (p : VestingPosition) : Z := 9 + (subject_len (vp_subject p) + 41).

Lemma len_adds_position p : len_adds (fun t => add_position_len t p) (position_fits p) (position_len p).
Proof.
  unfold add_position_len, position_len. eapply len_adds_weaken; [|apply len_adds_bind; [by apply len_adds_len|]].
  2: { eapply len_adds_bind; [|by apply len_adds_len]. unfold position_fits.
       instantiate (1 := subject_fits (vp_subject p) = true). destruct (vp_subject p) as [h|b]; cbn [subject_len subject_fits].
       - eapply len_adds_weaken; [|by apply len_adds_len]. done.
       - eapply len_adds_weaken; [|apply len_adds_fail, len_adds_fail, len_adds_implied; [|apply len_adds_len; lia]].
         + cbn beta. rewrite andb_true_iff, negb_true_iff, Z.leb_le, Z.ltb_ge. naive_solver.
         + destruct (Z.ltb_spec U32_MAX (Z.of_nat (length b))); [left|by right].
           unfold MAX_LEDGER_SNAPSHOT_BYTES, U32_MAX in *. lia. }
  unfold position_fits. naive_solver.
Qed.

Definition encoded_len (s : LedgerState) (m : MonetaryLedgerSnapshot) : Z :=
  Z.of_nat (length SNAPSHOT_DOMAIN) + 32 + (4 + (rows_len 40 (ls_finalized s) + (4 + (33 * Z.of_nat (size (ls_rejected s)) +
  (4 + (rows_len 32 (ls_nullifiers s) + (4 + Z.of_nat (length (shielded_to_bytes (ls_shielded s))) + (49 +
  (match ss_last_epoch m with Some _ => 8 | None => 0 end + (4 + (sum_Z (map position_len (ss_positions m)) + (4 +
  (rows_len 16 (ls_balances s) + 32))))))))))))).

Lemma snapshot_encoded_len_iff s m n : snapshot_encoded_len s m = Ok n <->
  Forall position_fits (ss_positions m) /\ n = encoded_len s m /\ n <= MAX_LEDGER_SNAPSHOT_BYTES.
Proof.
  set (R := Z.of_nat (size (ls_rejected s))).
  assert (forall g Q w, len_adds g Q w -> len_adds (fun t => rejected ← ok_or (checked_mul USIZE_MAX R 33) SnapshotTooLarge;
      t' ← add_snapshot_len t rejected; g t') Q (33 * R + w)) as HR.
  { intros g Q w Hg. pose proof (len_adds_bind _ _ _ _ _ _ (len_adds_len (33 * R) ltac:(lia)) Hg) as [Hw H].
    split; [done|]. intros t t' Ht. unfold checked_mul. destruct (Z.leb_spec (R * 33) USIZE_MAX); cbn [ok_or mbind result_bind].
    - rewrite (Z.mul_comm R). rewrite (H t t' Ht). naive_solver.
    - split; [done|]. destruct Hg as [Hg _]. intros (_ & -> & Hle). unfold USIZE_MAX, U64_MAX, MAX_LEDGER_SNAPSHOT_BYTES in *. lia. }
  assert (len_adds (fun t => match ss_last_epoch m with Some _ => add_snapshot_len t 8 | None => Ok t end) True
    (match ss_last_epoch m with Some _ => 8 | None => 0 end)) as HE
    by (case_match; [by apply len_adds_len|apply len_adds_ret]).
  pose proof (len_adds_fold add_position_len position_fits position_len (ss_positions m) len_adds_position) as HP.
  pose proof (len_adds_bind _ _ _ _ _ _ (len_adds_rows 16 (ls_balances s) ltac:(lia)) (len_adds_len (16 + 16) ltac:(lia))) as H.
  pose proof (len_adds_bind _ _ _ _ _ _ HP (len_adds_bind _ _ _ _ _ _ (len_adds_len 4 ltac:(lia)) H)) as H1. clear H HP.
  pose proof (len_adds_bind _ _ _ _ _ _ HE (len_adds_bind _ _ _ _ _ _ (len_adds_len 4 ltac:(lia)) H1)) as H. clear H1 HE.
  pose proof (len_adds_bind _ _ _ _ _ _ (len_adds_len (4 + Z.of_nat (length (shielded_to_bytes (ls_shielded s)))) ltac:(lia))
    (len_adds_bind _ _ _ _ _ _ (len_adds_len (16 + 16 + 16 + 1) ltac:(lia)) H)) as H1. clear H.
  pose proof (HR _ _ _ (len_adds_bind _ _ _ _ _ _ (len_adds_len 4 ltac:(lia))
    (len_adds_bind _ _ _ _ _ _ (len_adds_rows 32 (ls_nullifiers s) ltac:(lia)) H1))) as H. clear H1 HR.
  pose proof (len_adds_bind _ _ _ _ _ _ (len_adds_rows 40 (ls_finalized s) ltac:(lia))
    (len_adds_bind _ _ _ _ _ _ (len_adds_len 4 ltac:(lia)) H)) as H1. clear H.
  pose proof (len_adds_bind _ _ _ _ _ _ (len_adds_len (Z.of_nat (length SNAPSHOT_DOMAIN) + 32) ltac:(lia))
    (len_adds_bind _ _ _ _ _ _ (len_adds_len 4 ltac:(lia)) H1)) as [_ H]. clear H1.
  unfold snapshot_encoded_len. fold R. rewrite (H 0 n) by (unfold MAX_LEDGER_SNAPSHOT_BYTES; lia).
  rewrite Z.add_0_l. unfold encoded_len. fold R. tauto.
Qed.

(** ** The encoder, exactly *)

(** The parts of [state_typed] that have a fixed length. *)
Record widths_typed (s : LedgerState) : Prop := {
  wt_network : length (ls_network_id s) = 32%nat;
  wt_finalized k v : ls_finalized s !! k = Some v -> length v.2 = 32%nat;
  wt_rejected k v : ls_rejected s !! k = Some v -> length k = 32%nat;
  wt_nullifiers k v : ls_nullifiers s !! k = Some v -> length v = 32%nat;
  wt_roots : Forall (fun p => match vp_subject p with SnapshotSubject h => length (hs_root h) = 32%nat | _ => True end)
    (positions_of (ls_monetary s));
}.

Lemma length_put_amount n : length (put_amount n) = 16%nat. Proof. apply length_to_be_bytes. Qed.
Ltac widths := repeat rewrite ?length_app, ?length_w_u32, ?length_w_u64, ?length_w_u8, ?length_w_bytes, ?length_put_amount,
  ?length_to_be_bytes in *.

Lemma length_concat_sum {A} (enc : A -> bytes) (w : A -> Z) l : Forall (fun a => Z.of_nat (length (enc a)) = w a) l ->
  Z.of_nat (length (concat (map enc l))) = sum_Z (map w l).
Proof. induction 1 as [|a l Ha _ IH]; [done|]. cbn. rewrite length_app. unfold sum_Z in *. lia. Qed.
Lemma length_rows {A} (fixed : Z) (enc : bytes * A -> bytes) m :
  (forall k v, m !! k = Some v -> Z.of_nat (length (enc (k, v))) = row_len fixed (k, v)) ->
  Z.of_nat (length (map_image enc m)) = 4 + rows_len fixed m.
Proof.
  intros H. unfold map_image, rows_len. widths. rewrite Nat2Z.inj_add. f_equal. apply length_concat_sum, Forall_forall.
  intros [k v] Hkv. by apply H, elem_of_btree_entries.
Qed.

Lemma state_image_length s : widths_typed s ->
  Z.of_nat (length (state_image s)) = encoded_len s (export_snapshot (ls_monetary s)).
Proof.
  intros [H1 H2 H3 H4 H5].
  pose proof (length_rows 40 finalized_bytes (ls_finalized s)) as L1. pose proof (length_rows 32 nullifier_bytes (ls_nullifiers s)) as L2.
  pose proof (length_rows 16 balance_bytes (ls_balances s)) as L3.
  assert (Z.of_nat (length (map_image rejected_bytes (ls_rejected s))) = 4 + 33 * Z.of_nat (size (ls_rejected s))) as L4.
  { unfold map_image. widths. rewrite Nat2Z.inj_add, (length_concat_sum rejected_bytes (fun _ => 33) (btree_entries (ls_rejected s))).
    - rewrite <- length_btree_entries. clear. induction (btree_entries (ls_rejected s)) as [|e l IH]; [done|].
      cbn. unfold sum_Z in *. lia.
    - apply Forall_forall. intros [k v] Hk%elem_of_btree_entries. unfold rejected_bytes. widths. cbn [fst snd]. rewrite (H3 k v Hk). done. }
  assert (Z.of_nat (length (concat (map position_image (positions_of (ls_monetary s))))) =
    sum_Z (map position_len (positions_of (ls_monetary s)))) as L5.
  { apply length_concat_sum. eapply Forall_impl; [exact H5|]. intros p Hp. unfold position_image, position_len, subject_image, subject_len.
    cbv beta in Hp. destruct (vp_subject p); widths; lia. }
  unfold state_image, encoded_len, monetary_image. cbn [export_snapshot ss_last_epoch ss_positions]. widths.
  rewrite !Nat2Z.inj_add. rewrite L1, L2, L3, L4, L5, H1.
  - destruct (last_epoch (ls_monetary s)); widths; lia.
  - intros k v Hk. unfold balance_bytes, row_len. widths. cbn [fst]. lia.
  - intros k v Hk. unfold nullifier_bytes, row_len. widths. cbn [fst snd]. rewrite (H4 k v Hk). lia.
  - intros k v Hk. unfold finalized_bytes, row_len. widths. cbn [fst snd]. rewrite (H2 k v Hk). lia.
Qed.

Lemma rows_fit {A} (fixed n : Z) (m : gmap bytes A) : rows_len fixed m <= n -> 0 <= fixed /\ n <= U32_MAX ->
  Forall key_fits (btree_entries m).
Proof.
  intros Hn [Hf Hu]. apply Forall_forall. intros e He. unfold key_fits.
  assert (row_len fixed e <= rows_len fixed m); [|unfold row_len in *; lia].
  unfold rows_len. revert He. generalize (btree_entries m). intros l. induction l as [|e' l IH]; intros He; [by apply elem_of_nil in He|].
  assert (0 <= sum_Z (map (row_len fixed) l)) as Hs
    by (clear -Hf; induction l as [|x l IH]; [done|]; cbn; unfold sum_Z, row_len in *; lia).
  cbn. apply elem_of_cons in He as [->|He]; [|apply IH in He]; unfold sum_Z, row_len in *; lia.
Qed.
Lemma encoded_len_parts s : let n := encoded_len s (export_snapshot (ls_monetary s)) in
  rows_len 40 (ls_finalized s) <= n /\ rows_len 32 (ls_nullifiers s) <= n /\ rows_len 16 (ls_balances s) <= n /\
  Z.of_nat (length (shielded_to_bytes (ls_shielded s))) <= n.
Proof.
  cbv zeta. unfold encoded_len.
  destruct (len_adds_rows 40 (ls_finalized s) ltac:(lia)) as [H1 _]. destruct (len_adds_rows 32 (ls_nullifiers s) ltac:(lia)) as [H2 _].
  destruct (len_adds_rows 16 (ls_balances s) ltac:(lia)) as [H3 _].
  destruct (len_adds_fold add_position_len position_fits position_len (ss_positions (export_snapshot (ls_monetary s))) len_adds_position) as [H4 _].
  assert (0 <= match ss_last_epoch (export_snapshot (ls_monetary s)) with Some _ => 8 | None => 0 end) by (case_match; lia).
  lia.
Qed.

Definition snapshot_counts (s : LedgerState) : bool :=
  forallb (fun count => Z.of_nat count <=? MAX_LEDGER_SNAPSHOT_ENTRIES)
    [size (ls_finalized s); size (ls_rejected s); size (ls_nullifiers s); size (ls_balances s)] &&
  (Z.of_nat (length (positions_of (ls_monetary s))) <=? MAX_VESTING_POSITIONS).

(** A state is written exactly when its counts, its beneficiaries and the
    length of its image are within the bounds; the bytes are the image. *)
Lemma to_snapshot_iff s b : widths_typed s ->
  to_snapshot_bytes s = Ok b <->
  b = state_image s /\ snapshot_counts s = true /\ Forall position_fits (positions_of (ls_monetary s)) /\
  Z.of_nat (length b) <= MAX_LEDGER_SNAPSHOT_BYTES.
Proof.
  intros Hw. pose proof (state_image_length s Hw) as HL. unfold to_snapshot_bytes. cbv zeta. split.
  - intros H. apply bind_ok in H as (? & H1 & H). apply bind_ok in H as (? & H2 & H). apply fail_if_ok in H1, H2.
    apply bind_ok in H as (n & (Hf & -> & Hn)%snapshot_encoded_len_iff & H).
    apply bind_ok in H as (? & (_ & _ & ->)%(put_map_iff _ _ _ _ _ put_finalized_iff) & H).
    apply bind_ok in H as (? & (_ & _ & ->)%(put_map_iff _ _ _ _ _ put_rejected_iff) & H).
    apply bind_ok in H as (? & (_ & _ & ->)%(put_map_iff _ _ _ _ _ put_nullifier_iff) & H).
    apply bind_ok in H as (? & [_ ->]%put_bytes_iff & H). apply bind_ok in H as (? & (_ & _ & ->)%encode_monetary_iff & H).
    apply bind_ok in H as (? & (_ & _ & ->)%(put_map_iff _ _ _ _ _ put_balance_iff) & H).
    apply bind_ok in H as (? & _ & [= <-]). split; [done|]. split; [|split; [done|]].
    + unfold snapshot_counts. apply andb_true_iff. split; [|by apply Z.leb_le, Z.ltb_ge].
      apply forallb_forall. intros c Hc. apply Z.leb_le, Z.nlt_ge. intros Hlt.
      assert (existsb (fun count => MAX_LEDGER_SNAPSHOT_ENTRIES <? Z.of_nat count)
        [size (ls_finalized s); size (ls_rejected s); size (ls_nullifiers s); size (ls_balances s)] = true); [|congruence].
      apply existsb_exists. exists c. split; [done|]. by apply Z.ltb_lt.
    + change (Z.of_nat (length (state_image s)) <= MAX_LEDGER_SNAPSHOT_BYTES). by rewrite HL.
  - intros (-> & Hc & Hf & Hlen). unfold snapshot_counts in Hc. apply andb_true_iff in Hc as [Hc Hv]. apply Z.leb_le in Hv.
  destruct (encoded_len_parts s) as (K1 & K2 & K3 & K4). rewrite <- HL in K1, K2, K3, K4.
  assert (MAX_LEDGER_SNAPSHOT_BYTES <= U32_MAX) as Hmax by (unfold MAX_LEDGER_SNAPSHOT_BYTES, U32_MAX; lia).
  rewrite forallb_forall in Hc.
  assert (forall c, c ∈ [size (ls_finalized s); size (ls_rejected s); size (ls_nullifiers s); size (ls_balances s)] ->
    Z.of_nat c <= U32_MAX) as Hu.
  { intros c Hin%list_elem_of_In. apply Hc, Z.leb_le in Hin. unfold MAX_LEDGER_SNAPSHOT_ENTRIES, U32_MAX in *. lia. }
  assert (existsb (fun count => MAX_LEDGER_SNAPSHOT_ENTRIES <? Z.of_nat count)
    [size (ls_finalized s); size (ls_rejected s); size (ls_nullifiers s); size (ls_balances s)] = false) as ->.
  { apply not_true_is_false. intros (c & Hin & Hlt)%existsb_exists. apply Hc, Z.leb_le in Hin. apply Z.ltb_lt in Hlt. lia. }
  cbn [fail_if mbind result_bind export_snapshot ss_positions]. rewrite (proj2 (Z.ltb_ge _ _) Hv). cbn [fail_if mbind result_bind].
  rewrite (proj2 (snapshot_encoded_len_iff s (export_snapshot (ls_monetary s)) _))
    by (split; [exact Hf|split; [reflexivity|by rewrite <- HL]]). cbn [mbind result_bind].
  rewrite (proj2 (put_map_iff _ _ _ _ _ put_finalized_iff)) by (split; [apply Hu; rewrite !elem_of_cons; tauto|split; [|reflexivity]; eapply rows_fit; [exact K1|lia]]).
  cbn [mbind result_bind].
  rewrite (proj2 (put_map_iff _ _ _ _ _ put_rejected_iff)) by (split; [apply Hu; rewrite !elem_of_cons; tauto|split; [by apply Forall_true|reflexivity]]).
  cbn [mbind result_bind].
  rewrite (proj2 (put_map_iff _ _ _ _ _ put_nullifier_iff)) by (split; [apply Hu; rewrite !elem_of_cons; tauto|split; [|reflexivity]; eapply rows_fit; [exact K2|lia]]).
  cbn [mbind result_bind]. rewrite (proj2 (put_bytes_iff _ _)) by (split; [|reflexivity]; lia). cbn [mbind result_bind].
  rewrite (proj2 (encode_monetary_iff _ _))
    by (split; [cbn; unfold MAX_VESTING_POSITIONS, U32_MAX in *; lia|split; [exact Hf|reflexivity]]). cbn [mbind result_bind].
  rewrite (proj2 (put_map_iff _ _ _ _ _ put_balance_iff)) by (split; [apply Hu; rewrite !elem_of_cons; tauto|split; [|reflexivity]; eapply rows_fit; [exact K3|lia]]).
  cbn [mbind result_bind]. fold (state_image s). by rewrite HL, Z.eqb_refl.
Qed.

(** ** Reading back *)
Lemma parses_sn_u64 x : is_u64 x -> parses sn_u64 (w_u64 x) x.
Proof. apply parses_u64. Qed.
Lemma parses_sn_u8 x : parses sn_u8 (w_u8 x) x.
Proof. apply parses_u8. Qed.
Lemma parses_sn_take n b : length b = n -> parses (sn_take n) b b.
Proof. apply parses_take. Qed.
Lemma parses_sn_u128 x : is_u128 x -> parses sn_u128 (to_be_bytes 16 x) x.
Proof.
  intros Hx. unfold sn_u128. eapply parses_bind_nil; [apply parses_take, length_to_be_bytes|].
  rewrite from_to_be_bytes; [apply parses_ret|]. unfold is_u128, U128_MAX in Hx. change (256 ^ Z.of_nat 16) with (2 ^ 128). lia.
Qed.
Lemma parses_sn_bytes max b : Z.of_nat (length b) <= max -> max <= U32_MAX -> parses (sn_bytes max) (w_bytes b) b.
Proof. apply parses_bytes_limited. Qed.
Lemma parses_sn_count max n : Z.of_nat n <= max -> max <= U32_MAX -> parses (sn_count max) (w_u32 (Z.of_nat n)) n.
Proof.
  intros Hn Hm. unfold sn_count. eapply parses_bind_nil; [apply parses_u32; unfold is_u32, U32_MAX in *; lia|].
  eapply parses_lift; [by rewrite (proj2 (Z.ltb_ge _ _) Hn)|]. rewrite Nat2Z.id. apply parses_ret.
Qed.

(** One field of a record: read it, go on with the rest. *)
Ltac sn_field :=
  first [ eapply parses_bind; [by first [apply parses_sn_u64 | apply parses_sn_u128 | apply parses_sn_take | apply parses_sn_u8]|]
        | eapply parses_bind_nil; [by first [apply parses_sn_u64 | apply parses_sn_u128 | apply parses_sn_take]|] ].

Lemma parses_fold {S A} (step : S -> parser ExecutionError S) (enc : A -> bytes) (upd : S -> A -> S)
    (I : S -> list A -> Prop) l s :
  I s l -> (forall s a l, I s (a :: l) -> parses (step s) (enc a) (upd s a) /\ I (upd s a) l) ->
  parses (r_fold (length l) step s) (concat (map enc l)) (fold_left upd l s).
Proof.
  intros HI Hstep. revert s HI. induction l as [|a l IH]; intros s HI; simpl; [apply parses_ret|].
  apply Hstep in HI as [Hp HI]. eapply parses_bind; [exact Hp|by apply IH].
Qed.

(** *** Maps *)
Fixpoint ascending_keys {A} (prev : option bytes) (l : list (bytes * A)) : Prop :=
  match l with [] => True | e :: l' => strictly_after prev e.1 = true /\ ascending_keys (Some e.1) l' end.
Lemma entries_ascending {A} (m : gmap bytes A) : ascending_keys None (btree_entries m).
Proof.
  pose proof (StronglySorted_merge_sort entry_le (map_to_list m)) as Hs. fold (btree_entries m) in Hs.
  assert (NoDup (map fst (btree_entries m))) as Hn by (rewrite btree_entries_perm; apply NoDup_fst_map_to_list).
  revert Hs Hn. generalize (btree_entries m). intros l Hs. assert (forall e, e ∈ l -> strictly_after None e.1 = true) as Hp by done.
  revert Hp. generalize (@None bytes). induction Hs as [|e l Hs IH Hf]; intros prev Hp Hn; [done|].
  apply NoDup_cons in Hn as [Hx Hn]. split; [apply Hp; left|]. apply IH; [|done]. intros e' He'. cbn.
  rewrite Forall_forall in Hf. specialize (Hf e' He'). unfold entry_le in Hf. apply negb_true_iff, bool_decide_eq_false_2.
  intros Hle. apply Hx. rewrite (anti_symm bytes_le e.1 e'.1 Hf Hle). by apply (list_elem_of_fmap_2 fst).
Qed.

Definition fill {A} (acc : filling A) (e : bytes * A) : filling A := (<[e.1 := e.2]> acc.1, Some e.1).
Lemma fill_lookup {A} (l : list (bytes * A)) acc k : NoDup (map fst l) ->
  (fold_left fill l acc).1 !! k = match (list_to_map l : gmap bytes A) !! k with Some v => Some v | None => acc.1 !! k end.
Proof.
  revert acc. induction l as [|[k' v'] l IH]; intros acc Hn; [done|]. simpl in Hn. apply NoDup_cons in Hn as [Hk Hn].
  simpl. rewrite IH by done. cbn [fill fst snd]. destruct (decide (k = k')) as [->|Hne].
  - rewrite lookup_insert_eq, not_elem_of_list_to_map_1 by done. by rewrite lookup_insert_eq.
  - rewrite !lookup_insert_ne by done. done.
Qed.
Lemma fill_entries {A} (m : gmap bytes A) : (fold_left fill (btree_entries m) (∅, None)).1 = m.
Proof.
  apply map_eq. intros k. rewrite fill_lookup by (rewrite btree_entries_perm; apply NoDup_fst_map_to_list).
  assert ((list_to_map (btree_entries m) : gmap bytes A) = m) as ->.
  { rewrite (list_to_map_proper _ (map_to_list m)); [apply list_to_map_to_list| |apply btree_entries_perm].
    rewrite btree_entries_perm. apply NoDup_fst_map_to_list. }
  cbn [fst]. rewrite lookup_empty. by destruct (m !! k).
Qed.

Lemma parses_map {A} (step : filling A -> parser ExecutionError (filling A)) (enc : bytes * A -> bytes) (Q : bytes * A -> Prop) m :
  (forall acc e, Q e -> strictly_after acc.2 e.1 = true -> parses (step acc) (enc e) (fill acc e)) ->
  (forall k v, m !! k = Some v -> Q (k, v)) -> Z.of_nat (size m) <= MAX_LEDGER_SNAPSHOT_ENTRIES ->
  parses (read_map step) (map_image enc m) m.
Proof.
  intros Hstep HQ Hn. unfold read_map, map_image. eapply parses_bind; [apply parses_sn_count; [exact Hn|done]|].
  rewrite <- length_btree_entries. eapply parses_bind_nil.
  - apply (parses_fold step enc fill (fun acc l => Forall Q l /\ ascending_keys acc.2 l)).
    + split; [|apply entries_ascending]. apply Forall_forall. intros [k v] Hkv. by apply HQ, elem_of_btree_entries.
    + intros acc e l ([He Hl]%Forall_cons & Ha & Has). split; [by apply Hstep|done].
  - rewrite fill_entries. apply parses_ret.
Qed.

(** *** The shielded ledger *)
Record shielded_storable (l : ShieldedLedger) : Prop := {
  ss_typed : shielded_typed l;
  ss_genesis_keys : NoDup (map (fun a => so_public_key (ga_output a)) (sl_genesis l));
  ss_applied_once : NoDup (sl_applied l);
  ss_counts : Z.of_nat (length (sl_genesis l)) <= MAX_OUTPUTS /\ Z.of_nat (size (sl_outputs l)) <= MAX_OUTPUTS /\
    Z.of_nat (length (sl_applied l)) <= MAX_OUTPUTS;
}.

(** A row appended, its key noted. *)
Definition note {A} (key : A -> bytes) (acc : list A * gset bytes) (a : A) : list A * gset bytes :=
  (acc.1 ++ [a], {[ key a ]} ∪ acc.2).
Lemma note_all {A} (key : A -> bytes) l acc : (fold_left (note key) l acc).1 = acc.1 ++ l.
Proof.
  revert acc. induction l as [|a l IH]; intros acc; simpl; [by rewrite app_nil_r|]. rewrite IH. cbn [note fst]. by rewrite <- app_assoc.
Qed.
Lemma parses_distinct {A} (step : list A * gset bytes -> parser ExecutionError (list A * gset bytes)) (enc : A -> bytes)
    (key : A -> bytes) (Q : A -> Prop) l :
  (forall acc a, Q a -> key a ∉ acc.2 -> parses (step acc) (enc a) (note key acc a)) -> Forall Q l -> NoDup (map key l) ->
  parses (r_fold (length l) step ([], ∅)) (concat (map enc l)) (fold_left (note key) l ([], ∅)).
Proof.
  intros Hstep HQ Hn. apply (parses_fold step enc (note key)
    (fun acc l => Forall Q l /\ NoDup (map key l) /\ forall k, k ∈ map key l -> k ∉ acc.2)).
  - split; [done|]. split; [done|]. intros a _. set_solver.
  - intros acc a l' ([Ha Hl]%Forall_cons & [Hk Hn']%NoDup_cons & Hd). split; [apply Hstep; [done|apply Hd; left]|].
    split; [done|]. split; [done|]. intros k Hk'. cbn [note snd]. apply not_elem_of_union. split; [|apply Hd; by right].
    rewrite elem_of_singleton. intros ->. done.
Qed.

Definition genesis_key (a : ShieldedGenesisAllocation) : bytes := so_public_key (ga_output a).
Lemma parses_allocation acc a : output_typed (ga_output a) /\ is_u64 (ga_amount_micro a) -> genesis_key a ∉ acc.2 ->
  parses (read_allocation acc) (allocation_bytes a) (note genesis_key acc a).
Proof.
  intros [[H1 H2] H3] Hn. unfold read_allocation, allocation_bytes, genesis_key in *. do 2 sn_field.
  eapply parses_bind_nil; [by apply parses_sn_u64|]. eapply parses_lift; [by rewrite bool_decide_eq_false_2|].
  destruct a as [[k c] v]. apply parses_ret.
Qed.
Lemma parses_applied acc d : length d = 32%nat -> id d ∉ acc.2 -> parses (read_applied acc) (id d) (note id acc d).
Proof.
  intros Hd Hn. unfold read_applied. eapply parses_bind_nil; [by apply parses_sn_take|].
  eapply parses_lift; [by rewrite bool_decide_eq_false_2|]. apply parses_ret.
Qed.

Lemma fill_fst {A} (l : list (bytes * A)) acc :
  (fold_left fill l acc).1 = fold_left (fun m e => <[e.1 := e.2]> m) l acc.1.
Proof. revert acc. induction l as [|e l IH]; intros acc; [done|]. cbn [fold_left]. by rewrite IH. Qed.
Lemma parses_outputs m : (forall k v, m !! k = Some v -> length k = 32%nat /\ length v = 32%nat) ->
  parses (r_fold (size m) read_output ∅) (concat (map pair_bytes (btree_entries m))) m.
Proof.
  intros Hm. pose proof (fill_entries m) as E. rewrite fill_fst in E. cbn [fst] in E. rewrite <- E at 3.
  rewrite <- length_btree_entries. apply (parses_fold read_output pair_bytes _
    (fun acc l => Forall (fun e => length e.1 = 32%nat /\ length e.2 = 32%nat) l /\ NoDup (map fst l) /\
       forall k, k ∈ map fst l -> acc !! k = None)).
  - split; [|split; [rewrite btree_entries_perm; apply NoDup_fst_map_to_list|by intros; rewrite lookup_empty]].
    apply Forall_forall. intros [k v] Hk%elem_of_btree_entries. by apply Hm.
  - intros acc [k v] l ([[H1 H2] Hl]%Forall_cons & [Hk Hn]%NoDup_cons & Hd). split.
    + cbn [fst snd] in *. unfold read_output, pair_bytes. cbn [fst snd]. sn_field. eapply parses_bind_nil; [by apply parses_sn_take|].
      eapply parses_lift; [|apply parses_ret]. rewrite (Hd k) by left. by rewrite bool_decide_eq_false_2 by by intros [].
    + split; [done|]. split; [done|]. intros k' Hk'. cbn [fst snd]. rewrite lookup_insert_ne by (intros ->; done). apply Hd. by right.
Qed.

Lemma shielded_round_trip l : shielded_storable l -> shielded_from_bytes (shielded_to_bytes l) = Ok l.
Proof.
  intros [[T1 T2 T3 T4 _] H1 H2 (C1 & C2 & C3)].
  assert (MAX_OUTPUTS <= U32_MAX) as Hm by done.
  assert (parses read_shielded (shielded_to_bytes l) l) as Hp.
  { unfold read_shielded, shielded_to_bytes. eapply parses_bind; [by apply parses_sn_take|].
    eapply parses_lift; [by rewrite bool_decide_eq_true_2|].
    eapply parses_bind; [by apply parses_sn_count|].
    eapply parses_bind; [by apply (parses_distinct _ _ _ _ _ parses_allocation)|].
    eapply parses_bind; [by apply parses_sn_count|]. eapply parses_bind; [by apply parses_outputs|].
    eapply parses_bind; [by apply parses_sn_count|]. rewrite <- (map_id (sl_applied l)) at 2.
    eapply parses_bind; [by apply (parses_distinct _ _ _ _ _ parses_applied); [|by rewrite map_id]|].
    eapply parses_bind_nil; [by apply parses_sn_u128|]. rewrite !note_all. destruct l. apply parses_ret. }
  destruct (parses_new _ _ _ Hp) as (r & E & Hf). unfold shielded_from_bytes. rewrite E. cbn [mbind result_bind snd fst].
  by rewrite Hf.
Qed.

(** *** The monetary ledger *)
Definition subject_storable (s : VestingSubject) : Prop :=
  match s with
  | SnapshotSubject h => length (hs_root h) = 32%nat /\ is_u64 (hs_eligible_count h)
  | Beneficiary b => utf8_valid b = true
  end.
Record position_storable (p : VestingPosition) : Prop := {
  psr_epoch : is_u64 (vp_epoch p);
  psr_subject : subject_storable (vp_subject p);
  psr_fits : position_fits p;
  psr_amount : is_u128 (vp_amount p);
  psr_starts : is_u128 (vp_starts_at_policy_ms p);
  psr_duration : is_u64 (vp_duration_ms p);
}.

Lemma parses_subject s : subject_storable s -> subject_fits s = true -> parses read_subject (subject_image s) s.
Proof.
  intros Hs Hf. destruct s as [[root n]|b]; cbn [subject_storable subject_fits subject_image hs_root hs_eligible_count] in *.
  - destruct Hs as [H1 H2]. unfold read_subject. eapply parses_bind; [apply parses_sn_u8|]. cbn [Z.eqb]. do 2 sn_field. apply parses_ret.
  - apply andb_true_iff in Hf as [_ Hf]. apply Z.leb_le in Hf. unfold read_subject.
    eapply parses_bind; [apply parses_sn_u8|]. cbn [Z.eqb Pos.eqb].
    eapply parses_bind_nil; [by apply parses_sn_bytes|]. eapply parses_lift; [by rewrite Hs|]. apply parses_ret.
Qed.
Lemma decode_channel_tag c : decode_channel (channel_tag c) = Ok c.
Proof. by destruct c. Qed.
Lemma decode_rejection_tag r : decode_rejection (rejection_tag r) = Ok r.
Proof. by destruct r. Qed.
Lemma parses_position p : position_storable p -> parses read_position (position_image p) p.
Proof.
  intros []. unfold read_position, position_image, put_amount. sn_field. eapply parses_bind; [by apply parses_subject|].
  sn_field. eapply parses_lift; [apply decode_channel_tag|]. do 3 sn_field. destruct p. apply parses_ret.
Qed.
Lemma parses_last_epoch o : (forall e, o = Some e -> is_u64 e) ->
  parses read_last_epoch (match o with Some epoch => w_u8 1 ++ w_u64 epoch | None => w_u8 0 end) o.
Proof.
  intros H. unfold read_last_epoch. destruct o as [e|].
  - eapply parses_bind; [apply parses_sn_u8|]. cbn [Z.eqb Pos.eqb]. eapply parses_bind_nil; [apply parses_sn_u64; by apply H|]. apply parses_ret.
  - eapply parses_bind_nil; [apply parses_sn_u8|]. apply parses_ret.
Qed.

Record monetary_storable (l : MonetaryLedger) : Prop := {
  mr_genesis : is_u128 (genesis_circulating l);
  mr_issued : is_u128 (total_issued l);
  mr_time : is_u128 (policy_time_ms l);
  mr_epoch e : last_epoch l = Some e -> is_u64 e;
  mr_count : Z.of_nat (length (positions_of l)) <= MAX_VESTING_POSITIONS;
  mr_positions : Forall position_storable (positions_of l);
}.
Lemma parses_monetary l : monetary_storable l ->
  parses decode_monetary (monetary_image (export_snapshot l)) (export_snapshot l).
Proof.
  intros []. unfold decode_monetary, monetary_image, export_snapshot, put_amount.
  cbn [ss_genesis_circulating ss_total_issued ss_policy_time_ms ss_last_epoch ss_positions]. do 3 sn_field.
  eapply parses_bind; [by apply parses_last_epoch|]. eapply parses_bind; [by apply parses_sn_count|].
  eapply parses_bind_nil; [|apply parses_ret]. apply parses_repeat. eapply Forall_impl; [done|]. apply parses_position.
Qed.

Section SnapshotTheorems.
Context {P : Primitives}.

(** ** The states a snapshot can hold *)
Record storable (s : LedgerState) : Prop := {
  sr_network : length (ls_network_id s) = 32%nat;
  sr_finalized k v : ls_finalized s !! k = Some v -> is_supported_account k = true /\ is_u64 v.1 /\ length v.2 = 32%nat;
  sr_rejected k v : ls_rejected s !! k = Some v -> length k = 32%nat;
  sr_nullifiers k v : ls_nullifiers s !! k = Some v ->
    k <> [] /\ Z.of_nat (length k) <= MAX_KEY_IMAGE_BYTES /\ length v = 32%nat;
  sr_shielded : shielded_storable (ls_shielded s);
  sr_monetary : monetary_storable (ls_monetary s);
  sr_import : import_snapshot (export_snapshot (ls_monetary s)) = Ok (ls_monetary s);
  sr_balances k v : ls_balances s !! k = Some v -> is_supported_account k = true /\ 0 < v <= U128_MAX;
  sr_totals : is_u128 (ls_allocated_circulating s) /\ is_u128 (ls_unallocated_circulating s);
  sr_supply : verify_supply_conservation s = Ok tt;
  sr_balance_total : verify_balance_map_total s = Ok tt;
}.

Lemma storable_widths s : storable s -> widths_typed s.
Proof.
  intros []. split; try done; [naive_solver..|]. destruct sr_monetary0. eapply Forall_impl; [done|].
  intros p [_ Hs _ _ _ _]. destruct (vp_subject p); [apply Hs|done].
Qed.

Lemma supported_bound a : is_supported_account a = true -> Z.of_nat (length a) <= MAX_ACCOUNT_BYTES.
Proof. unfold is_supported_account. intros H. bool_prop. done. Qed.
Lemma supported_read a : is_supported_account a = true -> parses (sn_bytes MAX_ACCOUNT_BYTES) (w_bytes a) a.
Proof. intros H. by apply parses_sn_bytes; [apply supported_bound|]. Qed.

Lemma parses_finalized acc e : is_supported_account e.1 = true /\ is_u64 e.2.1 /\ length e.2.2 = 32%nat ->
  strictly_after acc.2 e.1 = true -> parses (read_finalized acc) (finalized_bytes e) (fill acc e).
Proof.
  intros (H1 & H2 & H3) Ha. unfold read_finalized, finalized_bytes. eapply parses_bind; [by apply supported_read|].
  eapply parses_lift; [by rewrite H1, Ha|]. do 2 sn_field. destruct e as [k [n d]]. apply parses_ret.
Qed.
Lemma parses_rejected acc e : length e.1 = 32%nat ->
  strictly_after acc.2 e.1 = true -> parses (read_rejected acc) (rejected_bytes e) (fill acc e).
Proof.
  intros H Ha. unfold read_rejected, rejected_bytes. sn_field. eapply parses_lift; [by rewrite Ha|].
  eapply parses_bind_nil; [apply parses_sn_u8|]. eapply parses_lift; [apply decode_rejection_tag|]. destruct e. apply parses_ret.
Qed.
Lemma parses_nullifier acc e : e.1 <> [] /\ Z.of_nat (length e.1) <= MAX_KEY_IMAGE_BYTES /\ length e.2 = 32%nat ->
  strictly_after acc.2 e.1 = true -> parses (read_nullifier acc) (nullifier_bytes e) (fill acc e).
Proof.
  intros (H1 & H2 & H3) Ha. unfold read_nullifier, nullifier_bytes. eapply parses_bind; [by apply parses_sn_bytes|].
  eapply parses_lift; [by rewrite bool_decide_eq_false_2, Ha|]. sn_field. destruct e. apply parses_ret.
Qed.
Lemma parses_balance acc e : is_supported_account e.1 = true /\ 0 < e.2 <= U128_MAX ->
  strictly_after acc.2 e.1 = true -> parses (read_balance acc) (balance_bytes e) (fill acc e).
Proof.
  intros (H1 & H2) Ha. unfold read_balance, balance_bytes, put_amount. eapply parses_bind; [by apply supported_read|].
  eapply parses_lift; [by rewrite H1, Ha|]. eapply parses_bind_nil; [apply parses_sn_u128; unfold is_u128; lia|].
  eapply parses_lift; [by rewrite (proj2 (Z.eqb_neq _ _)) by lia|]. destruct e. apply parses_ret.
Qed.

Lemma snapshot_counts_inv s : snapshot_counts s = true ->
  Z.of_nat (size (ls_finalized s)) <= MAX_LEDGER_SNAPSHOT_ENTRIES /\ Z.of_nat (size (ls_rejected s)) <= MAX_LEDGER_SNAPSHOT_ENTRIES /\
  Z.of_nat (size (ls_nullifiers s)) <= MAX_LEDGER_SNAPSHOT_ENTRIES /\ Z.of_nat (size (ls_balances s)) <= MAX_LEDGER_SNAPSHOT_ENTRIES.
Proof. unfold snapshot_counts. cbn [forallb]. rewrite !andb_true_iff, !Z.leb_le. tauto. Qed.

Lemma parses_state s : storable s -> snapshot_counts s = true ->
  Z.of_nat (length (state_image s)) <= MAX_LEDGER_SNAPSHOT_BYTES -> parses read_state (state_image s) s.
Proof.
  intros Hs Hc Hl. apply snapshot_counts_inv in Hc as (C1 & C2 & C3 & C4).
  pose proof (encoded_len_parts s) as (_ & _ & _ & Hsh). rewrite <- state_image_length in Hsh by by apply storable_widths.
  destruct Hs as [S1 S2 S3 S4 S5 S6 S7 S8 [S9 S10] _ _]. unfold read_state, state_image, put_amount.
  eapply parses_bind; [by apply parses_sn_take|]. eapply parses_lift; [by rewrite bool_decide_eq_true_2|]. sn_field.
  eapply parses_bind; [by eapply (parses_map _ _ _ _ parses_finalized)|].
  eapply parses_bind; [by eapply (parses_map _ _ _ _ parses_rejected)|].
  eapply parses_bind; [by eapply (parses_map _ _ _ _ parses_nullifier)|].
  eapply parses_bind; [apply parses_sn_bytes; [lia|done]|]. eapply parses_lift; [by apply shielded_round_trip|].
  eapply parses_bind; [by apply parses_monetary|]. eapply parses_lift; [by rewrite S7|].
  eapply parses_bind; [by eapply (parses_map _ _ _ _ parses_balance)|]. do 2 sn_field. destruct s. apply parses_ret.
Qed.

Lemma restore_written s : storable s -> to_snapshot_bytes s = Ok (state_image s) -> from_snapshot_bytes (state_image s) = Ok s.
Proof.
  intros Hs H. pose proof H as (_ & Hc & _ & Hl)%to_snapshot_iff; [|by apply storable_widths].
  destruct (parses_new _ _ _ (parses_state s Hs Hc Hl)) as (r & E & Hf). unfold from_snapshot_bytes. cbv zeta.
  rewrite (proj2 (Z.ltb_ge _ _) Hl). cbn [fail_if mbind result_bind]. rewrite E. cbn [mbind result_bind fst snd]. rewrite Hf.
  cbn [negb fail_if mbind result_bind]. rewrite (sr_supply s Hs), (sr_balance_total s Hs). cbn [mbind result_bind]. rewrite H.
  cbn [mbind result_bind]. by rewrite bool_decide_eq_true_2.
Qed.

(** Snapshots round-trip.  For every state whose parts are within the
    bounds execution itself enforces, bytes restore to the state exactly when
    they are the state's snapshot; so a node that writes its state reads the
    same state back, and no two byte strings restore to one state. *)
Theorem state_snapshot_round_trip s b : storable s -> from_snapshot_bytes b = Ok s <-> to_snapshot_bytes s = Ok b.
Proof.
  intros Hs. split; intros H.
  - unfold from_snapshot_bytes in H. cbv zeta in H. repeat (apply bind_ok in H as (? & ? & H)). injection H as <-.
    match goal with H : fail_if (negb (bool_decide (_ = b))) _ = Ok _ |- _ => apply fail_if_ok in H; bool_prop; subst end. done.
  - pose proof H as (-> & _)%to_snapshot_iff; [|by apply storable_widths]. by apply restore_written.
Qed.

(** The preflight is exact.  A state is written exactly when its maps and
    positions are within their counts, every beneficiary is non-empty and
    bounded, and its image has at most eight mebibytes; what is written is
    that image, and the length computed beforehand is its length. *)
Theorem snapshot_preflight_exact s b : widths_typed s ->
  (to_snapshot_bytes s = Ok b <->
   b = state_image s /\ snapshot_counts s = true /\ Forall position_fits (positions_of (ls_monetary s)) /\
   Z.of_nat (length b) <= MAX_LEDGER_SNAPSHOT_BYTES) /\
  (to_snapshot_bytes s = Ok b -> snapshot_encoded_len s (export_snapshot (ls_monetary s)) = Ok (Z.of_nat (length b))).
Proof.
  intros Hw. split; [by apply to_snapshot_iff|]. intros (-> & _ & Hf & Hl)%to_snapshot_iff; [|done].
  apply snapshot_encoded_len_iff. split; [done|]. split; [by apply state_image_length|done].
Qed.
End SnapshotTheorems.
