(* ===== verification/SnapshotReach.v ===== *)
(** * SnapshotReach: every state a chain reaches can be restored

    What [from_snapshot_bytes] asks of a state is an invariant of execution:
    a genesis has it and every block of values of their Rust types keeps it. *)

From Stdlib Require Import ZArith Lia.
From stdpp Require Import base list gmap sets strings sorting.
From S2P Require Import Prelude Codec Crypto Identity Kel Chain Economy EconomyTheorems EconomyWire.
From S2P Require Import Settlement SettlementTheorems Shielded Execution StatePins ExecutionFacts BlockFacts.
From S2P Require Import ExecutionTheorems LedgerSnapshot SnapshotTheorems.
Open Scope Z_scope.

Section SnapshotReach.
Context {P : Primitives} {L : PrimitivesLaws}.

Record stored (s : LedgerState) : Prop := {
  sd_network : length (ls_network_id s) = 32%nat;
  sd_finalized k v : ls_finalized s !! k = Some v -> is_supported_account k = true /\ is_u64 v.1 /\ length v.2 = 32%nat;
  sd_rejected k v : ls_rejected s !! k = Some v -> length k = 32%nat;
  sd_nullifiers k v : ls_nullifiers s !! k = Some v ->
    k <> [] /\ Z.of_nat (length k) <= MAX_KEY_IMAGE_BYTES /\ length v = 32%nat;
  sd_shielded : shielded_storable (ls_shielded s);
  sd_positions : Forall position_storable (positions_of (ls_monetary s));
  sd_balances k v : ls_balances s !! k = Some v -> is_supported_account k = true;
}.

Lemma stored_storable s : books s -> stored s ->
  genesis_circulating (ls_monetary s) + total_issued (ls_monetary s) <= U128_MAX ->
  Z.of_nat (length (positions_of (ls_monetary s))) <= MAX_VESTING_POSITIONS -> storable s.
Proof.
  intros Hb [] Hsum Hn. pose proof (bk_monetary s Hb) as Hl. pose proof (books_bound s Hb). pose proof (books_nonneg s Hb).
  pose proof (bk_unallocated s Hb). pose proof (bk_pool s Hb).
  split; try done.
  - split; try done; apply Hl.
  - apply import_export; [done|done|done|]. eapply Forall_impl; [exact sd_positions0|]. intros p [_ _ Hf _ _ _].
    unfold position_fits in Hf. unfold position_small. destruct (vp_subject p); [done|]. cbn in Hf. bool_prop. done.
  - intros k v Hk. split; [by eapply sd_balances0|]. pose proof (bk_positive s Hb k v Hk).
    pose proof (balance_le s k Hb) as Hle. unfold balance in Hle. rewrite Hk in Hle. cbn in Hle. lia.
  - unfold is_u128. lia.
  - by apply conservation_holds.
  - by apply balance_total_holds.
Qed.

(** ** Claims *)
Lemma digest_32 b : length (digest Blake3 b) = 32%nat.
Proof. apply blake3_length. Qed.

Lemma stored_claim s c s' : books s -> stored s -> claim_typed c -> apply_one_claim s c = Ok s' -> stored s'.
Proof.
  intros Hb Hs Hc H. pose proof (ct_amount c Hc) as Ha. unfold is_u64 in Ha.
  destruct (apply_one_claim_spec s c Hb) as [(Hw & E & Hp)|(_ & s1 & E & Hl)]; [lia| |].
  - rewrite E in H. injection H as <-. unfold claim_wins in Hw. bool_prop.
    assert (is_supported_account (pc_payer c) = true) as Hpayer.
    { unfold balance in Hp. destruct (ls_balances s !! pc_payer c) as [v|] eqn:Ev; [by eapply sd_balances|cbn in Hp; lia]. }
    destruct Hs. split; cbn [won finalize with_balances ls_network_id ls_finalized ls_rejected ls_nullifiers ls_shielded ls_monetary ls_balances]; try done.
    + intros k v [[<- <-]|[_ Hk]]%lookup_insert_Some; [|by eapply sd_finalized0].
      split; [done|]. split; [apply Hc|apply digest_32].
    + intros k v [_ Hk]%lookup_delete_Some. by eapply sd_rejected0.
    + intros k v. unfold moved. case_bool_decide; [apply sd_balances0|]. intros [[<- _]|[_ Hk]]%lookup_insert_Some; [done|].
      case_match; [apply lookup_delete_Some in Hk as [_ Hk]; by eapply sd_balances0|].
      apply lookup_insert_Some in Hk as [[<- _]|[_ Hk]]; [done|by eapply sd_balances0].
  - rewrite E in H. injection H as <-. destruct Hl as [->|[r ->]]; [done|]. destruct Hs. split; try done.
    intros k v Hk. cbn [reject ls_rejected] in Hk.
    apply lookup_insert_Some in Hk as [[<- _]|[_ Hk]]; [apply digest_32|by eapply sd_rejected0].
Qed.

(** ** Shielded spends *)
Lemma shielded_apply_bounds l d e fee l' : shielded_apply l d e = Ok (fee, l') -> d ∉ sl_applied l ->
  Forall (fun o => well_formed o = true) (se_outputs e) /\
  Z.of_nat (size (sl_outputs l)) + Z.of_nat (length (se_outputs e)) <= MAX_OUTPUTS /\ Z.of_nat (length (sl_applied l)) < MAX_OUTPUTS.
Proof.
  unfold shielded_apply. intros H Hd. rewrite bool_decide_eq_false_2 in H by done.
  apply bind_ok in H as (? & H1 & H). apply bind_ok in H as (? & _ & H). apply bind_ok in H as (? & H3 & _).
  apply fail_if_ok in H1, H3. bool_prop. split; [|lia]. apply outputs_fresh_spec in H3 as [_ Hf].
  apply Forall_forall. intros o Ho. apply (Hf o Ho).
Qed.
Lemma well_formed_typed o : well_formed o = true -> output_typed o.
Proof. unfold well_formed, output_typed. intros H. bool_prop. done. Qed.

Lemma insert_outputs_size m l : Z.of_nat (size (insert_outputs m l)) <= Z.of_nat (size m) + Z.of_nat (length l).
Proof.
  unfold insert_outputs. revert m. induction l as [|o l IH]; intros m; [cbn; lia|]. cbn [fold_left length].
  specialize (IH (<[so_public_key o := so_amount_commitment o]> m)). rewrite map_size_insert in IH. case_match; unfold id in IH; lia.
Qed.
Lemma insert_outputs_lookup m l k v : insert_outputs m l !! k = Some v ->
  m !! k = Some v \/ exists o, o ∈ l /\ so_public_key o = k /\ so_amount_commitment o = v.
Proof.
  unfold insert_outputs. revert m. induction l as [|o l IH]; intros m H; [by left|]. cbn [fold_left] in H.
  apply IH in H as [[[<- <-]|[_ H]]%lookup_insert_Some|(o' & Ho & E)]; [right; exists o; split; [left|done]|by left|].
  right. exists o'. split; [by right|done].
Qed.

Lemma stored_shielded l d e fee l' : shielded_storable l -> length d = 32%nat -> 0 <= se_fee_micro e ->
  shielded_apply l d e = Ok (fee, l') -> shielded_storable l'.
Proof.
  intros [[T1 T2 T3 T4 T5] H1 H2 (C1 & C2 & C3)] Hd Hfee H.
  pose proof H as [(_ & _ & ->)|(Hd' & -> & Hle & _ & _ & ->)]%shielded_apply_ok; [by split; [split| | |]|].
  destruct (shielded_apply_bounds _ _ _ _ _ H Hd') as (Hw & Hn & Ha).
  pose proof (insert_outputs_size (sl_outputs l) (se_outputs e)) as Hsz. unfold is_u128 in T4.
  assert (MAX_OUTPUTS <= U32_MAX) as Hm by done.
  split; cbn [sl_genesis sl_outputs sl_applied sl_pool_micro].
  - split; cbn [sl_genesis sl_outputs sl_applied sl_pool_micro]; try done.
    + intros k v [Hk|(o & Ho & <- & <-)]%insert_outputs_lookup; [by apply T2|].
      rewrite Forall_forall in Hw. apply well_formed_typed. by apply Hw.
    + apply Forall_app. split; [done|by apply Forall_singleton].
    + unfold is_u128. lia.
    + rewrite length_app. cbn [length]. unfold is_u32. lia.
  - done.
  - apply NoDup_app. split; [done|]. split; [|apply NoDup_singleton]. by intros x Hx ->%list_elem_of_singleton.
  - rewrite length_app. cbn [length]. lia.
Qed.

Lemma stored_spent v s d g e s' : stored s -> verifier_typed v -> length d = 32%nat ->
  Forall (fun r => is_well_formed r = true) g -> spent v s d g e s' -> stored s'.
Proof.
  intros [] Hv Hd Hg [He Hi _ (E1 & E2 & E3 & E4 & E5 & E6) (fee & Hsh & _)]. apply Hv in He.
  split; rewrite ?E1, ?E2, ?E3, ?E4, ?E5; try done.
  - intros k d'. rewrite Hi, take_images_lookup. case_bool_decide as Hk; [|apply sd_nullifiers0]. intros [= <-].
    apply list_elem_of_fmap in Hk as (r & -> & Hr). rewrite Forall_forall in Hg. specialize (Hg r Hr).
    unfold is_well_formed in Hg. bool_prop. done.
  - by eapply stored_shielded.
Qed.

Lemma stored_nullifiers s rs ov s' : stored s -> verifier_ok ov -> Forall (fun r => length (nr_claim_digest r) = 32%nat) rs ->
  apply_nullifiers s rs ov = Ok s' -> stored s'.
Proof.
  intros Hs Hv Hd [[_ ->]|(v & acc & -> & [_ Ho Hg Hf] & H)]%apply_nullifiers_ok; [done|]. cbn in Hv.
  apply (foldM_invariant (apply_group v acc.2) stored acc.1 s s' Hs); [|done]. clear Hs H s s'.
  intros s d s' Hs Hin H. assert (acc.2 !! d = Some (group_of rs d)) as Eg.
  { rewrite Hg. apply Ho in Hin. by destruct (group_of rs d). }
  assert (forall r, r ∈ group_of rs d -> r ∈ rs /\ nr_claim_digest r = d) as Hgr.
  { intros r Hr%list_elem_of_In. apply filter_In in Hr as [Hr Hb]. bool_prop. split; [by apply list_elem_of_In|done]. }
  apply Ho in Hin. rewrite Forall_forall in Hd, Hf.
  destruct (apply_group_ok _ _ _ _ _ _ Eg H) as [_ [[_ ->]|[e Hsp]]]; [done|].
  eapply stored_spent; [done|done| | |done].
  - destruct (group_of rs d) as [|r g]; [done|]. destruct (Hgr r) as [Hr <-]; [left|by apply Hd].
  - apply Forall_forall. intros r Hr. apply Hf. by apply Hgr.
Qed.

(** ** Epochs *)
Lemma plan_wire_plan_typed p : plan_wire_typed p -> plan_typed p.
Proof.
  intros H. split; [apply H|apply H|]. eapply Forall_impl; [apply (pw_grants p H)|]. by intros g [_ ? ?].
Qed.

Lemma stored_monetary s es s' : books s -> stored s -> Forall plan_wire_typed es -> apply_monetary s es = Ok s' -> stored s'.
Proof.
  intros Hb [] Ht H. destruct es as [|e es]; cbn [apply_monetary] in H; [by injection H as <-|].
  apply Forall_cons in Ht as [Ht _]. apply bind_ok in H as (w & Hw & H). apply bind_ok in H as (before & _ & H).
  apply bind_ok in H as (m & H2 & H). apply bind_ok in H as (after & _ & H). apply bind_ok in H as (new & _ & H).
  apply bind_ok in H as (u & _ & H). apply map_err_ok in Hw, H2. injection H as <-.
  apply plan_to_wire_ok in Hw as (_ & _ & _ & Hn). apply apply_epoch_spec in H2 as [Ha ->].
  pose proof (advance_ok _ _ _ (bk_monetary s Hb) d0074_typed (plan_wire_plan_typed e Ht) Ha) as Hl.
  pose proof (lk_time _ Hl) as Htime. cbn [advance policy_time_ms] in Htime.
  split; cbn [ls_network_id ls_finalized ls_rejected ls_nullifiers ls_shielded ls_monetary ls_balances]; try done.
  cbn [advance positions_of]. apply Forall_app. split; [done|]. constructor.
  - pose proof (pw_human e Ht) as []. split; try done; apply Ht.
  - apply Forall_map, Forall_forall. intros g Hg. pose proof (pw_grants e Ht) as Hgs. rewrite Forall_forall in Hgs, Hn.
    destruct (Hgs g Hg) as [G1 G2 G3]. specialize (Hn g Hg). unfold name_ok in Hn.
    split; cbn [grant_position vp_epoch vp_subject vp_amount vp_starts_at_policy_ms vp_duration_ms]; try done; [apply Ht|].
    unfold position_fits. cbn. apply negb_true_iff, orb_false_iff in Hn as [-> Hn]. apply Z.ltb_ge in Hn. apply Z.leb_le.
    unfold MAX_EPOCH_BENEFICIARY_BYTES, MAX_SNAPSHOT_BENEFICIARY_BYTES in *. lia.
Qed.

(** ** Blocks and runs *)

(** The values of a body have their Rust types. *)
Record body_wire_typed (b : SettlementBlockBody) : Prop := {
  bw_claims : Forall claim_typed (bd_claims b);
  bw_nullifiers : Forall (fun r => length (nr_claim_digest r) = 32%nat) (bd_nullifiers b);
  bw_epochs : Forall plan_wire_typed (bd_monetary_epochs b);
}.
Lemma body_wire_body_typed b : body_wire_typed b -> body_typed b.
Proof.
  intros []. split; (eapply Forall_impl; [done|]).
  - intros c Hc. apply (ct_amount c Hc).
  - apply plan_wire_plan_typed.
Qed.

Lemma stored_block s b ov s' : books s -> spends_ok s -> stored s -> body_wire_typed b -> verifier_ok ov ->
  apply_block_with_verifier s b ov = Ok s' -> stored s'.
Proof.
  intros Hb Hsp Hs [Hc Hn He] Hv H. apply block_inv in H as (s1 & s2 & H1 & H2 & H3 & _).
  assert (books s1 /\ stored s1) as [Hb1 Hs1].
  { apply (foldM_invariant apply_one_claim (fun s => books s /\ stored s) (bd_claims b) s s1); [done| |done].
    clear -L Hc. intros s c s' [Hb Hs] Hin H. rewrite Forall_forall in Hc. specialize (Hc c Hin).
    split; [|by eapply stored_claim]. pose proof (ct_amount c Hc) as Ha. unfold is_u64 in Ha.
    destruct (apply_one_claim_spec s c Hb) as [(_ & E & Hp)|(_ & s1 & E & Hl)]; [lia| |]; rewrite E in H; injection H as <-;
      [by apply won_books|by eapply lost_books]. }
  assert (spends_ok s1) as Hsp1.
  { destruct (claims_run s (bd_claims b) Hb) as (s1' & E & _ & _ & (R1 & _ & R3 & _) & _);
      [apply (bt_claims b), body_wire_body_typed; by split|]. rewrite E in H1. injection H1 as ->.
    destruct Hsp. split; by rewrite ?R1, ?R3. }
  assert (books s2) as Hb2.
  { pose proof H2 as [[_ ->]|(v & acc & -> & _ & H)]%apply_nullifiers_ok; [done|]. by eapply groups_invariant. }
  eapply stored_monetary; [exact Hb2| |exact He|exact H3]. by eapply stored_nullifiers.
Qed.

(** The states reached by blocks of well-typed values. *)
Inductive typed_run (g : LedgerState) : LedgerState -> Prop :=
| typed_genesis : typed_run g g
| typed_block s b ov s' : typed_run g s -> body_wire_typed b -> verifier_ok ov ->
    apply_block_with_verifier s b ov = Ok s' -> typed_run g s'.

Lemma typed_run_run g s : typed_run g s -> exists h, run g h s.
Proof.
  induction 1 as [|s b ov s' _ [h IH] Hb Hv H]; [by exists []; apply run_genesis|].
  eexists. eapply run_block; [done|by apply body_wire_body_typed|done|done].
Qed.

(** ** Genesis *)
Lemma shielded_genesis_step_inv n v l a l' : shielded_genesis_step n v l a = Ok l' ->
  well_formed (ga_output a) = true /\ sl_outputs l !! so_public_key (ga_output a) = None /\
  sl_outputs l' = <[so_public_key (ga_output a) := so_amount_commitment (ga_output a)]> (sl_outputs l) /\
  sl_applied l' = sl_applied l /\ sl_pool_micro l' = sl_pool_micro l + ga_amount_micro a /\ sl_pool_micro l' <= U128_MAX.
Proof.
  unfold shielded_genesis_step. intros H. apply bind_ok in H as (? & H1 & H). apply bind_ok in H as (pool & H2 & H).
  injection H as <-. apply fail_if_ok in H1. apply ok_or_ok, checked_add_Some in H2 as [-> H2]. bool_prop. cbn.
  split; [done|]. split; [by apply eq_None_not_Some|done].
Qed.

Lemma shielded_genesis_run n v al l l' : foldM (shielded_genesis_step n v) l al = Ok l' ->
  Forall (fun a => is_u64 (ga_amount_micro a)) al -> 0 <= sl_pool_micro l ->
  (forall k c, sl_outputs l !! k = Some c -> length k = 32%nat /\ length c = 32%nat) ->
  (forall k c, sl_outputs l' !! k = Some c -> length k = 32%nat /\ length c = 32%nat) /\
  Forall (fun a => output_typed (ga_output a)) al /\ NoDup (map genesis_key al) /\
  (forall a, a ∈ al -> sl_outputs l !! genesis_key a = None) /\
  Z.of_nat (size (sl_outputs l')) = Z.of_nat (size (sl_outputs l)) + Z.of_nat (length al) /\
  sl_applied l' = sl_applied l /\ 0 <= sl_pool_micro l'.
Proof.
  revert l. induction al as [|a al IH]; intros l H Ha Hp Ho; cbn [foldM] in H.
  { injection H as <-. split; [done|]. split; [done|]. split; [apply NoDup_nil_2|]. split; [by intros a Ha'%elem_of_nil|].
    cbn. split; [lia|done]. }
  apply Forall_cons in Ha as [Ha Hal]. unfold is_u64 in Ha.
  apply bind_ok in H as (l1 & (W & N & E1 & E2 & E3 & _)%shielded_genesis_step_inv & H). apply well_formed_typed in W as W'.
  destruct (IH l1 H Hal) as (I1 & I2 & I3 & I4 & I5 & I6 & I7); [lia| |].
  { intros k c. rewrite E1. intros [[<- <-]|[_ Hk]]%lookup_insert_Some; [apply W'|by apply Ho]. }
  rewrite E1 in I5. rewrite map_size_insert_None in I5 by done.
  assert (forall a', a' ∈ al -> genesis_key a' <> genesis_key a /\ sl_outputs l !! genesis_key a' = None) as Hfresh.
  { intros a' Ha'. pose proof (I4 a' Ha') as H'. rewrite E1 in H'. by apply lookup_insert_None in H' as [? ?]. }
  split; [done|]. split; [by constructor|]. split; [|split; [|cbn [length]; split; [lia|split; [congruence|done]]]].
  - cbn [map]. constructor; [|done]. intros (a' & E & Ha')%list_elem_of_fmap. by apply (Hfresh a').
  - intros a' [->|Ha']%elem_of_cons; [done|by apply Hfresh].
Qed.

Definition genesis_typed (g : LedgerState) : Prop :=
  length (ls_network_id g) = 32%nat /\ Forall (fun a => is_u64 (ga_amount_micro a)) (sl_genesis (ls_shielded g)).

Lemma shielded_default_storable : shielded_storable ShieldedLedger_default.
Proof.
  split; [|apply NoDup_nil_2|apply NoDup_nil_2|done].
  split; cbn; [constructor|intros k v; by rewrite lookup_empty|constructor|split; vm_compute; discriminate|].
  split; [|split]; split; vm_compute; discriminate.
Qed.

Lemma stored_genesis g : genesis_state g -> genesis_typed g -> stored g.
Proof.
  intros [n x Hx|n x al s Hx Ha H|n al v s Ha H] [Hn Hg].
  - split; cbn; try done; [apply shielded_default_storable].
  - unfold with_network_and_genesis_balances in H. apply bind_ok in H as ([m t] & H1 & H).
    apply bind_ok in H as (? & _ & H). injection H as <-. cbn in Hn.
    split; cbn; try done; [apply shielded_default_storable|].
    apply (foldM_invariant genesis_allocate (fun mt => forall k v, mt.1 !! k = Some v -> is_supported_account k = true) al (∅, 0) (m, t));
      [done| |done]. clear. intros [m t] a [m' t'] Hm _ H. unfold genesis_allocate in H.
    apply bind_ok in H as (? & H1 & H). apply bind_ok in H as (u & _ & H). injection H as <- <-. apply fail_if_ok in H1. bool_prop.
    cbn [fst]. intros k v [[<- _]|[_ Hk]]%lookup_insert_Some; [done|by eapply Hm].
  - unfold with_shielded_genesis in H. apply bind_ok in H as (sh & H1 & H). apply bind_ok in H as (? & _ & H). injection H as <-.
    unfold shielded_genesis in H1. apply bind_ok in H1 as (? & Hc & H1). apply fail_if_ok, Z.ltb_ge in Hc.
    apply bind_ok in H1 as (l & Hl & H1). injection H1 as <-. cbn [ls_shielded sl_genesis ls_network_id] in Hg, Hn.
    pose proof (merge_sort_Permutation allocation_le al) as Hperm. set (al' := merge_sort allocation_le al) in *.
    assert (Z.of_nat (length al') <= MAX_OUTPUTS) as Hc' by by rewrite Hperm.
    pose proof Hl as Hl0. apply shielded_genesis_run in Hl as (I1 & I2 & I3 & _ & I5 & I6 & I7); [|done|done|by intros k c; cbn; rewrite lookup_empty].
    assert (MAX_OUTPUTS <= U32_MAX) as Hm by done.
    cbn [sl_outputs sl_pool_micro sl_applied ShieldedLedger_default] in *. rewrite map_size_empty in I5.
    assert (is_u128 (sl_pool_micro l)) as Hpool.
    { apply (foldM_invariant (shielded_genesis_step n v) (fun l => sl_pool_micro l <= U128_MAX) al' ShieldedLedger_default l)
        in Hl0; [by split|done|]. intros l1 a l2 _ _ Hs. by apply shielded_genesis_step_inv in Hs as (_ & _ & _ & _ & _ & ?). }
    split; cbn; try done. split; cbn [sl_genesis sl_outputs sl_applied sl_pool_micro]; [|done|rewrite I6; apply NoDup_nil_2|].
    + split; cbn [sl_genesis sl_outputs sl_applied sl_pool_micro]; [by apply Forall_and|done|by rewrite I6|done|].
      rewrite I6. unfold is_u32. cbn [length]. lia.
    + rewrite I6. cbn [length]. split; [done|lia].
Qed.

Lemma typed_run_stored g s : genesis_state g -> genesis_typed g -> typed_run g s -> books s /\ spends_ok s /\ stored s.
Proof.
  intros Hg Ht Hr. pose proof (typed_run_run g s Hr) as [h Hh]. destruct (run_invariant g h s Hg Hh) as (Hb & Hs & _).
  split; [done|]. split; [done|]. clear h Hh Hb Hs. induction Hr as [|s b ov s' Hr IH Hb Hv H]; [by apply stored_genesis|].
  pose proof (typed_run_run g s Hr) as [h Hh]. destruct (run_invariant g h s Hg Hh) as (Hbk & Hsp & _). by eapply stored_block.
Qed.

Lemma restore_reached g s b : genesis_state g -> genesis_typed g -> typed_run g s ->
  is_ok (total_supply (ls_monetary s)) = true -> to_snapshot_bytes s = Ok b -> from_snapshot_bytes b = Ok s.
Proof.
  intros Hg Ht Hr Hsum H. destruct (typed_run_stored g s Hg Ht Hr) as (Hb & _ & Hs).
  apply is_ok_true in Hsum as [t Hsum]. unfold total_supply in Hsum. apply amount_add_ok in Hsum as [_ Hsum].
  assert (Z.of_nat (length (positions_of (ls_monetary s))) <= MAX_VESTING_POSITIONS) as Hn.
  { unfold to_snapshot_bytes in H. cbv zeta in H. apply bind_ok in H as (? & _ & H). apply bind_ok in H as (? & H1 & _).
    by apply fail_if_ok, Z.ltb_ge in H1. }
  pose proof (stored_storable s Hb Hs Hsum Hn) as Hst. pose proof H as H'.
  apply to_snapshot_iff in H' as (-> & Hc & _ & Hl); [|by apply storable_widths]. by apply restore_written.
Qed.

(** Every reached state can be restored.  From a genesis, after any blocks
    of well-typed values, a state that can be written at all restores from
    its bytes to itself, provided the total supply still fits 128 bits; so a node that joins from a snapshot holds the very
    state the others reached by executing. *)
Theorem reached_states_restore g s b : genesis_state g -> genesis_typed g -> typed_run g s ->
  is_ok (total_supply (ls_monetary s)) = true -> to_snapshot_bytes s = Ok b -> from_snapshot_bytes b = Ok s.
Proof. apply restore_reached. Qed.

(** A state without shielded genesis or spends needs no verifier. *)
Definition transparent (s : LedgerState) : Prop := ls_shielded s = ShieldedLedger_default /\ ls_nullifiers s = ∅.

Lemma transparent_block s b s' : books s -> body_wire_typed b -> transparent s -> apply_block_with_verifier s b None = Ok s' ->
  transparent s' /\ ls_network_id s' = ls_network_id s.
Proof.
  intros Hb Hw [T1 T2] H. pose proof (body_wire_body_typed b Hw) as [Hc He]. apply block_inv in H as (s1 & s2 & H1 & H2 & H3 & _).
  destruct (claims_run s (bd_claims b) Hb Hc) as (s1' & E & Hb1 & Hp & (R1 & _ & R3 & _) & _). rewrite E in H1. injection H1 as ->.
  apply apply_nullifiers_ok in H2 as [[_ ->]|(v & acc & [=] & _)].
  destruct (apply_monetary_ok _ _ _ Hb1 He H3) as (_ & Hp' & N3 & S3). split; [split; congruence|].
  by rewrite (pd_network _ _ _ Hp'), (pd_network _ _ _ Hp).
Qed.

(** C38: Joining from a snapshot is executing.  When a chain in a reachable
    state without shielded value advances by a finalized block, at a height
    that has not wrapped round to zero, a node that has only the header, its
    certificate and the bytes of the new state's snapshot ends in the very
    chain the executing nodes hold: height, tip hash and state.  The new
    state's total supply, what circulated at genesis and all that was issued
    since, has to fit 128 bits: the snapshot is written without it, and its
    reader checks it. *)
Theorem snapshot_join g c header body qc validators oracle root c' b :
  genesis_state g -> genesis_typed g -> typed_run g (lc_state c) -> transparent (lc_state c) -> body_wire_typed body ->
  apply_finalized_block c header body qc validators oracle = Ok (root, c') -> bh_height header <> 0 ->
  is_ok (total_supply (ls_monetary (lc_state c'))) = true -> to_snapshot_bytes (lc_state c') = Ok b ->
  exists s, from_snapshot_bytes b = Ok s /\
    from_finalized_snapshot header s qc validators oracle (ls_network_id (lc_state c)) = Ok c'.
Proof.
  intros Hg Ht Hr Htr Hbody H Hh Hsum Hsnap. unfold apply_finalized_block, apply_finalized_block_with_verifier in H. cbv zeta in H.
  do 4 (apply bind_ok in H as (? & _ & H)). apply bind_ok in H as (? & Hqc & H).
  apply bind_ok in H as (? & Hheight%fail_if_ok & H). apply bind_ok in H as (? & _ & H).
  apply bind_ok in H as (? & Htime%fail_if_ok & H). apply bind_ok in H as (? & Hproof%fail_if_ok & H).
  apply bind_ok in H as (s & Hblock & H). apply bind_ok in H as (? & Hroot%fail_if_ok & H). injection H as <- <-.
  cbn [lc_state] in Hsum, Hsnap. apply negb_false_iff, Z.eqb_eq in Hheight, Htime.
  destruct (typed_run_stored g _ Hg Ht Hr) as (Hb & _ & _).
  destruct (transparent_block _ _ _ Hb Hbody Htr Hblock) as [[T1 T2] Hnet].
  assert (typed_run g s) as Hrs by (by eapply (typed_block g (lc_state c) body None s)).
  destruct (typed_run_stored g s Hg Ht Hrs) as (Hbs & _ & _).
  exists s. split; [by eapply restore_reached|]. unfold from_finalized_snapshot, from_finalized_snapshot_with_verifier.
  rewrite (bool_decide_eq_true_2 (ls_network_id s = _)) by done. cbn [negb fail_if mbind result_bind].
  rewrite (bool_decide_eq_true_2 (genesis_commitment _ = _)) by by rewrite T1. cbn [negb fail_if mbind result_bind].
  unfold verify_shielded_claims, verify_replay. rewrite T1, T2, (bool_decide_eq_true_2 (ShieldedLedger_default = _)) by done.
  rewrite (bool_decide_eq_true_2 ((∅ : gmap bytes bytes) = _)) by done. cbn [andb mbind result_bind].
  rewrite conservation_holds, balance_total_holds by done. cbn [mbind result_bind]. rewrite Hqc. cbn [mbind result_bind].
  rewrite (proj2 (Z.eqb_neq _ _) Hh), (proj2 (Z.eqb_eq (bh_timestamp_ms header) _)) by congruence. cbn [orb negb].
  rewrite Hproof. cbn [fail_if mbind result_bind]. rewrite Hroot. done.
Qed.
End SnapshotReach.
