(* ===== verification/LedgerWitnesses.v ===== *)
(** * LedgerWitnesses: the state after Alice's payments, written and read

    The state of [ExecutionWitnesses] is snapshotted, restored, and joined
    from; a truncated and a tampered snapshot are refused. *)

From Stdlib Require Import ZArith Lia.
From stdpp Require Import base list gmap sets strings sorting.
From S2P Require Import Prelude Codec Crypto Identity Kel KelTheorems Chain ChainTheorems ChainWitnesses Economy EconomyTheorems EconomyWire Settlement SettlementTheorems Shielded Execution StatePins ExecutionFacts BlockFacts ExecutionTheorems ExecutionWitnesses Wire WireTheorems Admission AdmissionTheorems LedgerSnapshot SnapshotTheorems SnapshotReach.
Open Scope Z_scope.

#[local] Existing Instance Toy.primitives.
#[local] Existing Instance Toy.laws.
Import Scenario Voting Payments.

Module Stored.
Definition after_bytes : bytes := Eval vm_compute in match to_snapshot_bytes after with Ok b => b | Err _ => [] end.
Lemma after_written : to_snapshot_bytes after = Ok after_bytes.
Proof. vm_compute. reflexivity. Qed.
Lemma genesis_wire : genesis_typed genesis.
Proof. split; [vm_compute; reflexivity|constructor]. Qed.
Lemma body_wire : body_wire_typed body.
Proof.
  split; [|constructor|constructor]. repeat constructor; apply claim_ok; vm_compute; reflexivity.
Qed.
Lemma after_typed_run : typed_run genesis after.
Proof. eapply (typed_block genesis genesis body None after); [apply typed_genesis|apply body_wire|exact I|vm_compute; reflexivity]. Qed.
Lemma after_storable : storable after.
Proof.
  destruct (typed_run_stored genesis after genesis_fine genesis_wire after_typed_run) as (Hb & _ & Hs).
  apply stored_storable; [exact Hb|exact Hs|vm_compute; discriminate|vm_compute; discriminate].
Qed.

Example truncated_refused : from_snapshot_bytes (take 100 after_bytes) = Err SnapshotMalformed.
Proof. vm_compute. reflexivity. Qed.
Example tampered_refused : from_snapshot_bytes (take (length after_bytes - 1) after_bytes ++ [1]) = Err SupplyConservationViolation.
Proof. vm_compute. reflexivity. Qed.
End Stored.
Import Stored.

Lemma state_snapshot_round_trip_witness : from_snapshot_bytes after_bytes = Ok after.
Proof. apply (proj2 (state_snapshot_round_trip after after_bytes after_storable)). exact after_written. Defined.

Lemma snapshot_preflight_exact_witness :
  snapshot_encoded_len after (export_snapshot (ls_monetary after)) = Ok (Z.of_nat (length after_bytes)).
Proof. exact (proj2 (snapshot_preflight_exact after after_bytes (storable_widths after after_storable)) after_written). Defined.

Lemma reached_states_restore_witness : exists b, to_snapshot_bytes after = Ok b /\ from_snapshot_bytes b = Ok after.
Proof.
  exists after_bytes. split; [exact after_written|].
  apply (reached_states_restore genesis after after_bytes genesis_fine genesis_wire after_typed_run); [vm_compute; reflexivity|exact after_written].
Defined.

Lemma snapshot_join_witness : exists s, from_snapshot_bytes after_bytes = Ok s /\
  from_finalized_snapshot header s cert solo oracle MININET_NETWORK_ID = Ok chain1.
Proof.
  apply (snapshot_join genesis (mkLedgerChain 0 zero_hash genesis) header body cert solo oracle (commitment after) chain1 after_bytes
    genesis_fine genesis_wire (typed_genesis genesis)).
  - split; vm_compute; reflexivity.
  - exact body_wire.
  - exact chain_applied.
  - vm_compute. discriminate.
  - vm_compute. reflexivity.
  - exact after_written.
Defined.

(** * Alice's two payments in a pool

    Both payments of [ExecutionWitnesses] are admitted against the genesis
    and revalidated against it and against the state their block leaves. *)


#[local] Existing Instance Toy.primitives.
#[local] Existing Instance Toy.laws.
Import Payments.

Module Pool.
Definition empty : PaymentAdmissionPool :=
  match pool_new AdmissionPolicy_default with Ok p => p | Err _ => mkPool AdmissionPolicy_default ∅ ∅ ∅ 0 end.
Definition admitted (p : PaymentAdmissionPool) (c : PaymentClaim) : PaymentAdmissionPool :=
  match pool_admit p c genesis 0 with Ok (_, p') => p' | Err _ => p end.
Definition one : PaymentAdmissionPool := admitted empty second.
Definition two : PaymentAdmissionPool := admitted one first.
Definition admitted_digest (p : PaymentAdmissionPool) (c : PaymentClaim) : bytes :=
  match pool_admit p c genesis 0 with Ok (d, _) => d | Err _ => [] end.
Lemma admitted_run p c : pool_run p -> (0 <=? pc_amount_micro c) && is_ok (pool_admit p c genesis 0) = true ->
  pool_run (admitted p c).
Proof.
  intros Hp H. bool_prop. unfold admitted. destruct (pool_admit p c genesis 0) as [[d p']|e] eqn:E; [|done].
  by eapply pool_run_admit.
Qed.
Lemma two_run : pool_run two.
Proof.
  apply admitted_run; [|vm_compute; reflexivity]. apply admitted_run; [|vm_compute; reflexivity].
  eapply (pool_run_new AdmissionPolicy_default); [vm_compute; discriminate..|]. vm_compute. reflexivity.
Qed.

(** Arrival order does not show: the first payment is proposed first. *)
Example two_candidates : candidates two 10 = [first; second].
Proof. vm_compute. reflexivity. Qed.
(** A third payment of the slot, or one Alice cannot cover, is refused. *)
Example admit_refusals :
  map (fun c => match pool_admit two c genesis 0 with Ok _ => None | Err e => Some e end)
    [first; pay 1 0; pay 501 2; no_claim] =
  [Some AdDuplicate; Some AdConflictingSequence; Some AdInsufficientAvailableBalance; Some AdInvalidSignature].
Proof. vm_compute. reflexivity. Qed.
End Pool.
Import Pool.

Lemma pool_accounts_witness : reserved_of two alice = 500 /\ due alice (claims_of two) = 500.
Proof.
  split; [vm_compute; reflexivity|]. rewrite <- (proj1 (proj2 (proj2 (pool_accounts two two_run))) alice).
  vm_compute. reflexivity.
Defined.

Lemma after_books : books after.
Proof. apply (run_invariant genesis _ after genesis_fine after_run). Qed.

Lemma revalidate_exact_witness :
  length (fst (revalidate two after 0)) = 2%nat /\ NoDup (map fst (fst (revalidate two after 0))).
Proof.
  split; [vm_compute; reflexivity|].
  exact (proj1 (proj2 (proj2 (proj2
    (revalidate_exact two after 0 _ _ two_run after_books (surjective_pairing (revalidate two after 0))))))).
Defined.

Lemma candidates_execute_witness :
  exists s', apply_block genesis (body_new (candidates (snd (revalidate two genesis 0)) 1)) = Ok s' /\
    candidates (snd (revalidate two genesis 0)) 1 = [first].
Proof.
  destruct (candidates_execute genesis [] genesis two 0 1 _ _ genesis_fine (run_genesis genesis) two_run
    (surjective_pairing (revalidate two genesis 0))) as (s' & H & _); [vm_compute; discriminate|].
  exists s'. split; [exact H|vm_compute; reflexivity].
Defined.

(** * a block with one payment, and one with a shielded spend too

    The block of [ExecutionWitnesses] and its proposal are written and read;
    the same body with a nullifier is written and refused. *)


#[local] Existing Instance Toy.primitives.
#[local] Existing Instance Toy.laws.
Import Scenario Voting Payments.

Module Spends.
Definition spend_record : NullifierRecord := mkNullifierRecord (replicate 32 3) (replicate 32 1).
Definition spends : SettlementBlockBody := mkBody [first] [spend_record] [].
Definition header_of (b : SettlementBlockBody) : BlockHeader :=
  mkBlockHeader 1 zero_hash (commitment after) (body_hash b) 1 root_did.
Definition block_of (b : SettlementBlockBody) : FinalizedBlock :=
  mkFinalized (header_of b) b (mkQC 1 0 (header_hash (header_of b)) [sign_vote Precommit 1 0 (header_hash (header_of b)) root_did device]).
Definition proposal_of (b : SettlementBlockBody) : Proposal := sign_proposal 0 (-1) (header_of b) b root_did device.
End Spends.
Import Spends.

Lemma root_did_fine : vote_did_wf root_did.
Proof. split; [vm_compute; discriminate|]. split; vm_compute; reflexivity. Qed.
Lemma spends_fine : body_wf spends.
Proof.
  split; [vm_compute; discriminate|]. split.
  - constructor; [|constructor]. split; [|reflexivity]. split; [apply claim_ok; vm_compute; reflexivity|vm_compute; discriminate..].
  - split; [vm_compute; discriminate|constructor].
Qed.
Lemma header_fine : header_wf (header_of spends).
Proof.
  split; [split; vm_compute; discriminate|]. do 3 (split; [vm_compute; reflexivity|]). split; [split; vm_compute; discriminate|].
  apply root_did_fine.
Qed.
Lemma vote_fine : wire_vote_wf (sign_vote Precommit 1 0 (header_hash (header_of spends)) root_did device).
Proof.
  split; [|vm_compute; discriminate]. split; [split; vm_compute; discriminate|]. split; [split; vm_compute; discriminate|].
  split; [vm_compute; reflexivity|]. split; [apply root_did_fine|]. split; [split; [vm_compute; discriminate|split; vm_compute; reflexivity]|].
  split; [vm_compute; discriminate|]. constructor; [|constructor]. split; [split; vm_compute; discriminate|vm_compute; reflexivity].
Qed.
Lemma block_fine : block_wf (block_of spends).
Proof.
  split; [apply header_fine|]. split; [apply spends_fine|]. split; [split; vm_compute; discriminate|]. split; [split; vm_compute; discriminate|].
  split; [vm_compute; reflexivity|]. split; [vm_compute; discriminate|]. constructor; [apply vote_fine|constructor].
Qed.
Lemma proposal_fine : proposal_wf (proposal_of spends).
Proof.
  split; [split; vm_compute; discriminate|]. split; [split; [vm_compute; discriminate|vm_compute; reflexivity]|].
  split; [apply root_did_fine|]. split; [split; [vm_compute; discriminate|split; vm_compute; reflexivity]|].
  split; [apply header_fine|]. split; [apply spends_fine|]. split; [vm_compute; discriminate|].
  constructor; [|constructor]. split; [split; vm_compute; discriminate|vm_compute; reflexivity].
Qed.
Definition on_wire : bytes := Eval vm_compute in message_to_wire (MsgProposal (proposal_of spends)).
Lemma on_wire_is : message_to_wire (MsgProposal (proposal_of spends)) = on_wire.
Proof. vm_compute. reflexivity. Qed.

Lemma messages_round_trip_witness : message_from_wire on_wire = Ok (written (MsgProposal (proposal_of spends))) /\
  (forall m', message_from_wire on_wire = Ok m' -> message_to_wire m' = on_wire).
Proof.
  destruct (messages_round_trip (MsgProposal (proposal_of spends)) on_wire) as (H1 & _ & H3).
  - apply (bool_decide_eq_true_1 (bytes_ok _)). vm_compute. reflexivity.
  - exact proposal_fine.
  - rewrite on_wire_is. vm_compute. discriminate.
  - rewrite on_wire_is in H1. exact (conj H1 H3).
Defined.
Lemma shielded_bodies_do_not_travel_witness : exists b, block_to_wire (block_of spends) = Ok b /\
  (block_from_wire b = Err CoMalformed \/ blake3_collision).
Proof.
  assert (exists b, block_to_wire (block_of spends) = Ok b) as [b Hb] by (eexists; vm_compute; reflexivity).
  exists b. split; [exact Hb|].
  destruct (shielded_bodies_do_not_travel (block_of spends) b (proposal_of spends)) as [_ H].
  - exact block_fine.
  - exact Hb.
  - constructor; [|constructor]. split; vm_compute; [discriminate|reflexivity].
  - split; vm_compute; discriminate.
  - exact proposal_fine.
  - reflexivity.
  - reflexivity.
  - rewrite on_wire_is. vm_compute. discriminate.
  - destruct H as [[H _]|H]; [discriminate|left; exact H|right; exact H].
Defined.
