(* ===== verification/StateSync.v ===== *)
(** * StateSync: checkpoints and state-sync pages

    Models [crates/mini-consensus/src/snapshot.rs] (a certified execution
    state, its bytes, and its restoration into a chain) and [state_sync.rs]
    (requests, the four payloads of a response, their lengths and codecs).

    [wire_len] computes the length of a response without building it;
    [to_wire_bytes] refuses a response whose bytes have another length.
    Lengths are [usize] sums, checked against [2^64]. *)

From Stdlib Require Import ZArith Lia.
From stdpp Require Import base list gmap sets strings.
From S2P Require Import Prelude Codec Crypto Identity Kel Chain Economy Settlement Shielded Execution Wire WireTheorems LedgerSnapshot.
Open Scope Z_scope.

(** [mini_bearer::MAX_CHANNEL_PLAINTEXT_BYTES]: a frame less the AEAD tag. *)
Definition MAX_CHANNEL_PLAINTEXT_BYTES : Z := MAX_MESSAGE_BYTES - 16.
Definition too_long (n : Z) : bool := MAX_CHANNEL_PLAINTEXT_BYTES <? n.

(** ** [snapshot.rs] *)
Definition STATE_SNAPSHOT_DOMAIN : bytes := lit "mini-consensus/state-snapshot/v2".

Record ConsensusSnapshot := mkConsensusSnapshot {
  sp_header : BlockHeader;
  sp_qc : QuorumCertificate;
  sp_state : LedgerState;
}.
Definition snapshot_height (s : ConsensusSnapshot) : Z := bh_height (sp_header s).
Definition snapshot_network_id (s : ConsensusSnapshot) : bytes := ls_network_id (sp_state s).
Definition co_execution {A} (r : result ExecutionError A) : result ConsensusError A := map_err CoExecution r.

Section StateSync.
Context {P : Primitives}.

Definition ConsensusSnapshot_new (header : BlockHeader) (qc : QuorumCertificate) (s : LedgerState) :
    result ConsensusError ConsensusSnapshot :=
  _ ← fail_if ((bh_height header =? 0) || negb (bh_timestamp_ms header =? bh_height header) ||
        negb (bool_decide (bh_state_root header = commitment s)) || negb (qc_height qc =? bh_height header) ||
        negb (bool_decide (qc_block_hash qc = header_hash header))) CoSnapshotProofMismatch;
  Ok (mkConsensusSnapshot header qc s).

Definition snapshot_to_wire (s : ConsensusSnapshot) : result ConsensusError bytes :=
  st ← co_execution (to_snapshot_bytes (sp_state s));
  let out := STATE_SNAPSHOT_DOMAIN ++ header_to_wire (sp_header s) ++ qc_to_wire (sp_qc s) ++ w_bytes st in
  _ ← fail_if (too_long (Z.of_nat (length out))) CoTooLarge;
  Ok out.

Definition decode_snapshot : parser ConsensusError (BlockHeader * QuorumCertificate * bytes) :=
  _ ← co_domain STATE_SNAPSHOT_DOMAIN;
  header ← decode_header;
  qc ← decode_qc;
  state_bytes ← co_bytes MAX_LEDGER_SNAPSHOT_BYTES;
  mret (header, qc, state_bytes).
Definition snapshot_from_wire (b : bytes) : result ConsensusError ConsensusSnapshot :=
  _ ← fail_if (too_long (Z.of_nat (length b))) CoTooLarge;
  '(header, qc, state_bytes) ← co_all decode_snapshot b;
  s ← co_execution (from_snapshot_bytes state_bytes);
  snapshot ← ConsensusSnapshot_new header qc s;
  again ← snapshot_to_wire snapshot;
  _ ← fail_if (negb (bool_decide (again = b))) CoMalformed;
  Ok snapshot.

Definition into_chain_with_verifier (s : ConsensusSnapshot) (expected_network_id : bytes) (validators : ValidatorSet)
    (oracle : ValidatorOracle) (expected_shielded_genesis : bytes) (verifier : option ClaimVerifier) :
    result ConsensusError LedgerChain :=
  co_execution (from_finalized_snapshot_with_verifier (sp_header s) (sp_state s) (sp_qc s) validators oracle
    expected_network_id expected_shielded_genesis verifier).
Definition into_chain (s : ConsensusSnapshot) (expected_network_id : bytes) (validators : ValidatorSet)
    (oracle : ValidatorOracle) : result ConsensusError LedgerChain :=
  into_chain_with_verifier s expected_network_id validators oracle
    (genesis_commitment (ls_shielded LedgerState_new)) None.

(** ** [state_sync.rs] *)
Definition MAX_STATE_SYNC_BLOCKS : nat := 256.
Definition STATE_SYNC_DOMAIN : bytes := lit "mini-consensus/state-sync/v2".
Definition TAG_WRONG_NETWORK : Z := 0.
Definition TAG_UNAVAILABLE : Z := 1.
Definition TAG_BLOCKS : Z := 2.
Definition TAG_SNAPSHOT : Z := 3.

Record StateSyncRequest := mkSyncRequest { yq_network_id : bytes; yq_from_height : Z }.
Definition sync_request_to_wire (q : StateSyncRequest) : bytes := STATE_SYNC_DOMAIN ++ yq_network_id q ++ w_u64 (yq_from_height q).
Definition decode_sync_request : parser ConsensusError StateSyncRequest :=
  _ ← co_domain STATE_SYNC_DOMAIN;
  network_id ← co_take 32;
  from_height ← co_u64;
  mret (mkSyncRequest network_id from_height).
Definition sync_request_from_wire (b : bytes) : result ConsensusError StateSyncRequest := co_all decode_sync_request b.

Inductive StateSyncPayload :=
| WrongNetwork
| Unavailable (earliest_height tip_height : Z)
| Blocks (blocks : list FinalizedBlock)
| Snapshot (snapshot : ConsensusSnapshot) (blocks : list FinalizedBlock).
Record StateSyncResponse := mkSyncResponse { yr_network_id : bytes; yr_payload : StateSyncPayload }.

Definition block_count (r : StateSyncResponse) : nat :=
  match yr_payload r with Blocks bs | Snapshot _ bs => length bs | _ => 0 end.
Definition target_height (r : StateSyncResponse) : option Z :=
  match yr_payload r with
  | Blocks bs => b ← last bs; Some (bh_height (fb_header b))
  | Snapshot s bs => Some (match last bs with Some b => bh_height (fb_header b) | None => snapshot_height s end)
  | Unavailable _ tip => Some tip
  | WrongNetwork => None
  end.

(** [total.checked_add(n).ok_or(TooLarge)]. *)
Definition co_add (total n : Z) : result ConsensusError Z :=
  if USIZE_MAX <? total + n then Err CoTooLarge else Ok (total + n).
Definition fits (n : Z) : result ConsensusError Z := if too_long n then Err CoTooLarge else Ok n.

Definition base_wire_len (snapshot : option ConsensusSnapshot) : result ConsensusError Z :=
  n ← co_add (Z.of_nat (length STATE_SYNC_DOMAIN)) (32 + 1 + 4);
  n ← match snapshot with
      | None => Ok n
      | Some s => b ← snapshot_to_wire s; n ← co_add n 4; co_add n (Z.of_nat (length b))
      end;
  fits n.
Definition add_block_len (n : Z) (block : FinalizedBlock) : result ConsensusError Z :=
  b ← block_to_wire block;
  n ← co_add n 4;
  n ← co_add n (Z.of_nat (length b));
  fits n.
Definition checked_blocks_wire_len (n : Z) (blocks : list FinalizedBlock) : result ConsensusError Z :=
  _ ← fail_if (MAX_STATE_SYNC_BLOCKS <? length blocks)%nat CoTooLarge;
  n ← co_add n 4;
  foldM add_block_len n blocks.
Definition wire_len (r : StateSyncResponse) : result ConsensusError Z :=
  n ← co_add (Z.of_nat (length STATE_SYNC_DOMAIN)) (32 + 1);
  n ← match yr_payload r with
      | WrongNetwork => Ok n
      | Unavailable _ _ => co_add n 16
      | Blocks bs => checked_blocks_wire_len n bs
      | Snapshot s bs =>
          b ← snapshot_to_wire s;
          n ← co_add n 4;
          n ← co_add n (Z.of_nat (length b));
          checked_blocks_wire_len n bs
      end;
  fits n.

Definition sync_put_bytes (b : bytes) : result ConsensusError bytes :=
  _ ← fail_if (U32_MAX <? Z.of_nat (length b)) CoTooLarge;
  Ok (w_bytes b).
Fixpoint encode_each (blocks : list FinalizedBlock) : result ConsensusError bytes :=
  match blocks with
  | [] => Ok []
  | block :: blocks => b ← block_to_wire block; x ← sync_put_bytes b; y ← encode_each blocks; Ok (x ++ y)
  end.
Definition encode_blocks (blocks : list FinalizedBlock) : result ConsensusError bytes :=
  _ ← fail_if (MAX_STATE_SYNC_BLOCKS <? length blocks)%nat CoTooLarge;
  x ← encode_each blocks;
  Ok (w_u32 (Z.of_nat (length blocks)) ++ x).
Definition decode_sync_block : parser ConsensusError FinalizedBlock :=
  b ← co_bytes MAX_MESSAGE_BYTES; lift (block_from_wire b).
Definition decode_blocks : parser ConsensusError (list FinalizedBlock) :=
  count ← co_u32;
  _ ← lift (fail_if (Z.of_nat MAX_STATE_SYNC_BLOCKS <? count) CoTooLarge);
  r_repeat (Z.to_nat count) decode_sync_block.

Definition payload_to_wire (p : StateSyncPayload) : result ConsensusError bytes :=
  match p with
  | WrongNetwork => Ok (w_u8 TAG_WRONG_NETWORK)
  | Unavailable earliest tip => Ok (w_u8 TAG_UNAVAILABLE ++ w_u64 earliest ++ w_u64 tip)
  | Blocks bs => x ← encode_blocks bs; Ok (w_u8 TAG_BLOCKS ++ x)
  | Snapshot s bs =>
      b ← snapshot_to_wire s; x ← sync_put_bytes b; y ← encode_blocks bs;
      Ok (w_u8 TAG_SNAPSHOT ++ x ++ y)
  end.
Definition sync_response_to_wire (r : StateSyncResponse) : result ConsensusError bytes :=
  exact_len ← wire_len r;
  p ← payload_to_wire (yr_payload r);
  let out := STATE_SYNC_DOMAIN ++ yr_network_id r ++ p in
  _ ← fail_if (negb (Z.of_nat (length out) =? exact_len)) CoMalformed;
  Ok out.

Definition decode_sync_snapshot : parser ConsensusError ConsensusSnapshot :=
  b ← co_bytes MAX_CHANNEL_PLAINTEXT_BYTES; lift (snapshot_from_wire b).
Definition decode_payload : parser ConsensusError StateSyncPayload :=
  tag ← co_u8;
  if tag =? TAG_WRONG_NETWORK then mret WrongNetwork
  else if tag =? TAG_UNAVAILABLE then earliest ← co_u64; tip ← co_u64; mret (Unavailable earliest tip)
  else if tag =? TAG_BLOCKS then bs ← decode_blocks; mret (Blocks bs)
  else if tag =? TAG_SNAPSHOT then s ← decode_sync_snapshot; bs ← decode_blocks; mret (Snapshot s bs)
  else lift (Err CoMalformed).
Definition decode_sync_response : parser ConsensusError StateSyncResponse :=
  _ ← co_domain STATE_SYNC_DOMAIN;
  network_id ← co_take 32;
  payload ← decode_payload;
  mret (mkSyncResponse network_id payload).
Definition sync_response_from_wire (b : bytes) : result ConsensusError StateSyncResponse :=
  _ ← fail_if (too_long (Z.of_nat (length b))) CoTooLarge;
  response ← co_all decode_sync_response b;
  again ← sync_response_to_wire response;
  _ ← fail_if (negb (bool_decide (again = b))) CoMalformed;
  Ok response.
End StateSync.

(** * a parser depends only on what it reads

    Every decoder built from takes reads the same value from the same bytes
    wherever they stand, so a value that was decoded once decodes again from
    its own encoding, inside any other message. *)


Class Local {E A} (p : parser E A) : Prop :=
  local_parses r a r' : p r = Ok (a, r') -> exists x, consumes r r' x /\ parses p x a.

Section Instances.
Context {E : Type} (tr : E).
#[global] Instance local_ret {A} (a : A) : Local (E:=E) (mret a).
Proof. intros r b r' [-> ->]%pret_ok. exists []. split; [apply consumes_refl|apply parses_ret]. Qed.
#[global] Instance local_lift {A} (x : result E A) : Local (lift x).
Proof.
  intros r b r' H. apply lift_ok in H as [-> ->]. exists []. split; [apply consumes_refl|by apply parses_lift_end].
Qed.
#[global] Instance local_bind {A B} (p : parser E A) (f : A -> parser E B) : Local p -> (forall a, Local (f a)) -> Local (p ≫= f).
Proof.
  intros Hp Hf r b r' (a & r1 & H1 & H2)%pbind_ok. apply Hp in H1 as (x & C1 & P1). apply Hf in H2 as (y & C2 & P2).
  exists (x ++ y). split; [by eapply consumes_trans|by eapply parses_bind].
Qed.
#[global] Instance local_take n : Local (r_take tr n).
Proof. intros r a r' [Hc Hl]%r_take_consumes. exists a. split; [done|by apply parses_take]. Qed.
#[global] Instance local_u8 : Local (r_u8 tr).
Proof. intros r a r' H%r_u8_consumes. exists (w_u8 a). split; [done|apply parses_u8]. Qed.
#[global] Instance local_u32 : Local (r_u32 tr).
Proof. unfold r_u32. apply _. Qed.
#[global] Instance local_u64 : Local (r_u64 tr).
Proof. unfold r_u64. apply _. Qed.
#[global] Instance local_repeat {A} n (p : parser E A) : Local p -> Local (r_repeat n p).
Proof. intros Hp. induction n as [|n IH]; cbn [r_repeat]; apply _. Qed.
#[global] Instance local_if {A} (c : bool) (p q : parser E A) : Local p -> Local q -> Local (if c then p else q).
Proof. by destruct c. Qed.
#[global] Instance local_limited tl max : Local (bytes_limited tr tl max).
Proof. unfold bytes_limited. apply _. Qed.
End Instances.

Lemma consumes_unique r r' x y : consumes r r' x -> consumes r r' y -> x = y.
Proof.
  intros (_ & H1 & z1 & E1) (_ & H2 & z2 & E2). rewrite E1 in E2. apply app_inj_1 in E2 as [-> _]; [done|lia].
Qed.
Lemma local_bytes_ok {E A} (p : parser E A) r a r' `{!Local p} : bytes_ok (rbuf r) -> p r = Ok (a, r') -> bytes_ok (rbuf r').
Proof. intros Hok H. destruct (local_parses r a r' H) as (x & C & _). by eapply consumes_bytes_ok. Qed.
(** What was decoded decodes from its encoding. *)
Lemma decoded_parses {E A} (p : parser E A) enc r a r' `{!Local p} `{!Canonical p enc} :
  bytes_ok (rbuf r) -> p r = Ok (a, r') -> parses p (enc a) a.
Proof.
  intros Hok H.
  destruct (local_parses r a r' H) as (x & C & Hx). assert (consumes r r' (enc a)) as C' by (by apply Canonical0).
  by rewrite (consumes_unique _ _ _ _ C' C).
Qed.

(** The blocks of a response. *)
Definition payload_blocks (p : StateSyncPayload) : list FinalizedBlock :=
  match p with Blocks bs | Snapshot _ bs => bs | _ => [] end.
Section Blocks.
Context {P : Primitives}.
#[global] Instance local_co_take n : Local (co_take n). Proof. unfold co_take. apply _. Qed.
#[global] Instance local_co_u8 : Local co_u8. Proof. unfold co_u8. apply _. Qed.
#[global] Instance local_co_u32 : Local co_u32. Proof. unfold co_u32. apply _. Qed.
#[global] Instance local_co_u64 : Local co_u64. Proof. unfold co_u64. apply _. Qed.
#[global] Instance local_co_bytes max : Local (co_bytes max). Proof. unfold co_bytes. apply _. Qed.
#[global] Instance local_co_domain d : Local (co_domain d). Proof. unfold co_domain. apply _. Qed.
#[global] Instance local_did : Local decode_did. Proof. unfold decode_did. apply _. Qed.
#[global] Instance local_header : Local decode_header. Proof. unfold decode_header. apply _. Qed.
#[global] Instance local_vote : Local decode_vote_bytes. Proof. unfold decode_vote_bytes. apply _. Qed.
#[global] Instance local_qc : Local decode_qc. Proof. unfold decode_qc. apply _. Qed.
#[global] Instance canonical_qc : Canonical decode_qc qc_to_wire.
Proof.
  intros r qc r' Hok H. unfold decode_qc in H. parse_inv. unfold qc_to_wire. cbn [qc_height qc_round qc_block_hash qc_votes].
  canon_step. canon_step. canon_step. counted (fun v => w_bytes (to_wire_bytes v)). canon_chain.
Qed.
(** The header and the certificate of a block that was received. *)
Lemma received_parts x b : bytes_ok x -> block_from_wire x = Ok b ->
  parses decode_header (header_to_wire (fb_header b)) (fb_header b) /\ parses decode_qc (qc_to_wire (fb_qc b)) (fb_qc b).
Proof.
  intros Hx H. unfold block_from_wire in H. apply bind_ok in H as (? & _ & H). apply bind_ok in H as ([b' r] & Hd & H).
  repeat (apply bind_ok in H as (? & _ & H)). injection H as <-. unfold decode_block in Hd. parse_inv. cbn [fb_header fb_qc].
  pose proof (local_bytes_ok _ _ _ _ (Hx : bytes_ok (rbuf (Reader_new x))) Hp) as Hok.
  repeat canon_step. split; [exact (decoded_parses decode_header header_to_wire r0 a0 r1 Hok Hp0)|exact (decoded_parses decode_qc qc_to_wire r2 a2 r3 ltac:(done) Hp2)].
Qed.
(** Blocks and snapshots of a response that was received. *)
Lemma repeat_Forall {A} (p : parser ConsensusError A) (Q : A -> Prop) n r l r' : Local p -> bytes_ok (rbuf r) ->
  (forall r a r', bytes_ok (rbuf r) -> p r = Ok (a, r') -> Q a) -> r_repeat n p r = Ok (l, r') -> Forall Q l.
Proof.
  intros Hl Hok Hq. revert r l Hok. induction n as [|n IH]; intros r l Hok H; cbn [r_repeat] in H; parse_inv; [constructor|].
  constructor; [by eapply Hq|]. eapply IH; [|eassumption]. by eapply local_bytes_ok.
Qed.
#[global] Instance local_sync_block : Local decode_sync_block. Proof. unfold decode_sync_block. apply _. Qed.
#[global] Instance local_blocks : Local decode_blocks. Proof. unfold decode_blocks. apply _. Qed.
#[global] Instance local_sync_snapshot : Local decode_sync_snapshot. Proof. unfold decode_sync_snapshot. apply _. Qed.
#[global] Instance local_payload : Local decode_payload. Proof. unfold decode_payload. apply _. Qed.
Definition received_block (b : FinalizedBlock) : Prop := exists x, bytes_ok x /\ block_from_wire x = Ok b.
Definition received_payload (p : StateSyncPayload) : Prop :=
  match p with
  | Blocks bs => Forall received_block bs
  | Snapshot s bs => (exists x, bytes_ok x /\ snapshot_from_wire x = Ok s) /\ Forall received_block bs
  | _ => True
  end.
Lemma received_blocks r bs r' : bytes_ok (rbuf r) -> decode_blocks r = Ok (bs, r') -> Forall received_block bs.
Proof.
  intros Hok H. unfold decode_blocks in H. parse_inv. pose proof Hp as [C _]%r_u32_consumes; [|done]. pose proof (consumes_bytes_ok _ _ _ Hok C).
  eapply repeat_Forall; [apply local_sync_block| | |exact H]; [done|]. intros r1 b r2 Hok1 H1. unfold decode_sync_block in H1. parse_inv.
  exists a1. split; [|done]. by eapply (bytes_limited_bytes_ok CoMalformed).
Qed.
Lemma response_received b r : bytes_ok b -> sync_response_from_wire b = Ok r -> received_payload (yr_payload r) /\ sync_response_to_wire r = Ok b.
Proof.
  intros Hb H. unfold sync_response_from_wire in H. apply bind_ok in H as (? & _ & H). apply bind_ok in H as (r1 & H1 & H).
  apply bind_ok in H as (again & H2 & H). apply bind_ok in H as (? & H3%fail_if_ok & [= <-]). bool_prop. split; [|congruence].
  unfold co_all in H1. apply bind_ok in H1 as ([r2 rd] & Hd & H1). apply bind_ok in H1 as (? & _ & [= <-]).
  unfold decode_sync_response in Hd. parse_inv. cbn [yr_payload].
  pose proof (local_bytes_ok _ _ _ _ (Hb : bytes_ok (rbuf (Reader_new b))) Hp) as Hok1. pose proof (local_bytes_ok _ _ _ _ Hok1 Hp0) as Hok2.
  unfold decode_payload in Hp1. parse_inv. pose proof (local_bytes_ok _ _ _ _ Hok2 Hp2) as Hok3.
  destruct (_ =? _); [by parse_inv|]. destruct (_ =? _); [by parse_inv|]. destruct (_ =? _); [parse_inv; by eapply received_blocks|].
  destruct (_ =? _); [|by parse_inv]. parse_inv. 
  match goal with H : decode_sync_snapshot r2 = Ok (?s0, ?r3) |- _ => pose proof (local_bytes_ok _ _ _ _ Hok3 H) as Hok4; rename H into Hs end.
  split; [|by eapply received_blocks].
  unfold decode_sync_snapshot in Hs. parse_inv. eexists. split; [|eassumption].
  eapply (bytes_limited_bytes_ok CoMalformed); [exact Hok3|eassumption].
Qed.
End Blocks.
