(* ===== verification/Node.v ===== *)
(** * Node: the validator node

    Models [crates/mini-consensus/src/node.rs] ([ConsensusNode]: one [Round]
    per height wired to the finalized chain) and [consequence.rs] (the registry
    of proven equivocators).

    A handler runs in [node_m]: the node and the emits so far, then a value or
    the reason it stopped.  The node is what the handler has made of it when it
    stops early, as [&mut self] is.  [drive] and [commit] call each other; the
    depth of those calls is the fuel of [drive], and running out of it is
    [NoFuel], an outcome of its own that no operation of the source has.
    [NodeRuns] shows when it cannot happen.

    Outside the model: the body source, a stateful callback, is a function of
    the number of the call and the height; the archive is any implementation
    of [Archive]; the [HashMap] order of [Round] stays a parameter. *)

From Stdlib Require Import ZArith Lia.
From stdpp Require Import base list gmap sets strings.
From S2P Require Import Prelude Codec Crypto Identity Kel Chain Round Economy Settlement Shielded Execution LedgerSnapshot Wire StateSync.
Open Scope Z_scope.

(** What the node calls of [ConsensusArchive]; the archive it leaves comes
    first, also when the call fails. *)
Class Archive (A : Type) := {
  archive_network_id : A -> bytes;
  record_verified_batch : A -> list FinalizedBlock -> LedgerState -> A * result ConsensusError unit;
  install_verified_response : A -> StateSyncResponse -> LedgerState -> A * result ConsensusError unit;
  archive_response : A -> StateSyncRequest -> A * result ConsensusError StateSyncResponse;
}.

Inductive Emit :=
| EBroadcast (m : ConsensusMessage)
| EScheduleTimeout (height round : Z) (step : Step)
| ECommitted (height : Z) (commitment : bytes)
| EEquivocation (e : EquivocationEvidence).

(** Why a handler stopped: an error of the source, or the model's fuel. *)
Inductive stop := Fails (e : ConsensusError) | NoFuel.

Record NodeConfig := mkNodeConfig {
  cf_root : Did;
  cf_device : Controller;
  cf_validators : ValidatorSet;
  cf_oracle : ValidatorOracle;
  cf_body_source : nat -> Z -> SettlementBlockBody;
}.

Record Node (A : Type) := mkNode {
  nd_config : NodeConfig;
  nd_chain : LedgerChain;
  nd_round : Round;
  nd_values : gmap bytes Proposal;
  nd_pending : list ConsensusMessage;
  nd_history : list FinalizedBlock;
  nd_archive : option A;
  nd_claim_verifier : option ClaimVerifier;
  nd_bodies : nat;
}.
Arguments mkNode {A}.
Arguments nd_config {A}. Arguments nd_chain {A}. Arguments nd_round {A}. Arguments nd_values {A}. Arguments nd_pending {A}.
Arguments nd_history {A}. Arguments nd_archive {A}. Arguments nd_claim_verifier {A}. Arguments nd_bodies {A}.

Section Fields.
Context {A : Type}.
Definition set_chain (n : Node A) (c : LedgerChain) : Node A :=
  mkNode (nd_config n) c (nd_round n) (nd_values n) (nd_pending n) (nd_history n) (nd_archive n) (nd_claim_verifier n) (nd_bodies n).
Definition set_round (n : Node A) (r : Round) : Node A :=
  mkNode (nd_config n) (nd_chain n) r (nd_values n) (nd_pending n) (nd_history n) (nd_archive n) (nd_claim_verifier n) (nd_bodies n).
Definition set_values (n : Node A) (v : gmap bytes Proposal) : Node A :=
  mkNode (nd_config n) (nd_chain n) (nd_round n) v (nd_pending n) (nd_history n) (nd_archive n) (nd_claim_verifier n) (nd_bodies n).
Definition set_pending (n : Node A) (p : list ConsensusMessage) : Node A :=
  mkNode (nd_config n) (nd_chain n) (nd_round n) (nd_values n) p (nd_history n) (nd_archive n) (nd_claim_verifier n) (nd_bodies n).
Definition set_history (n : Node A) (h : list FinalizedBlock) : Node A :=
  mkNode (nd_config n) (nd_chain n) (nd_round n) (nd_values n) (nd_pending n) h (nd_archive n) (nd_claim_verifier n) (nd_bodies n).
Definition set_archive (n : Node A) (a : option A) : Node A :=
  mkNode (nd_config n) (nd_chain n) (nd_round n) (nd_values n) (nd_pending n) (nd_history n) a (nd_claim_verifier n) (nd_bodies n).
Definition set_bodies (n : Node A) (k : nat) : Node A :=
  mkNode (nd_config n) (nd_chain n) (nd_round n) (nd_values n) (nd_pending n) (nd_history n) (nd_archive n) (nd_claim_verifier n) k.
Definition with_claim_verifier (n : Node A) (v : option ClaimVerifier) : Node A :=
  mkNode (nd_config n) (nd_chain n) (nd_round n) (nd_values n) (nd_pending n) (nd_history n) (nd_archive n) v (nd_bodies n).

Definition next_height (c : LedgerChain) : Z := wrapping_add 64 (lc_height c) 1.
Definition current_height (n : Node A) : Z := next_height (nd_chain n).
Definition finalized_height (n : Node A) : Z := lc_height (nd_chain n).
Definition nd_state (n : Node A) : LedgerState := lc_state (nd_chain n).
Definition fresh_round (n : Node A) : Round :=
  Round_new (current_height n) (cf_validators (nd_config n)) (cf_root (nd_config n)).
Definition history_since (n : Node A) (from_height : Z) : list FinalizedBlock :=
  take MAX_CATCHUP_BLOCKS (List.filter (fun b => from_height <? bh_height (fb_header b)) (nd_history n)).
(** [push_back], then [pop_front] while longer than the bound. *)
Fixpoint pop_while (fuel : nat) (l : list FinalizedBlock) : list FinalizedBlock :=
  match fuel with
  | O => l
  | S fuel => if (MAX_CATCHUP_BLOCKS <? length l)%nat then pop_while fuel (tail l) else l
  end.
Definition remembered (h : list FinalizedBlock) (b : FinalizedBlock) : list FinalizedBlock :=
  let h := h ++ [b] in pop_while (length h) h.
Definition remember_history (n : Node A) (b : FinalizedBlock) : Node A := set_history n (remembered (nd_history n) b).
End Fields.

(** ** The monad of the handlers *)
Definition node_m (A X : Type) : Type := Node A * list Emit -> (Node A * list Emit) * result stop X.
#[global] Instance node_ret A : MRet (node_m A) := fun X x st => (st, Ok x).
#[global] Instance node_bind A : MBind (node_m A) := fun X Y f m st =>
  match m st with
  | (st', Ok x) => f x st'
  | (st', Err e) => (st', Err e)
  end.
Section Monad.
Context {A : Type}.
Definition get_node : node_m A (Node A) := fun st => (st, Ok st.1).
Definition modify (f : Node A -> Node A) : node_m A unit := fun st => ((f st.1, st.2), Ok tt).
Definition emit (e : Emit) : node_m A unit := fun st => ((st.1, st.2 ++ [e]), Ok tt).
Definition stop_with {X} (s : stop) : node_m A X := fun st => (st, Err s).
Definition check {X} (r : result ConsensusError X) : node_m A X := fun st =>
  (st, match r with Ok x => Ok x | Err e => Err (Fails e) end).
Fixpoint each {X} (f : X -> node_m A unit) (l : list X) : node_m A unit :=
  match l with
  | [] => mret tt
  | x :: l => _ ← f x; each f l
  end.
(** A public operation: fresh emits, lost when it fails. *)
Definition run_node (m : node_m A unit) (n : Node A) : Node A * result stop (list Emit) :=
  match m (n, []) with
  | ((n', es), Ok _) => (n', Ok es)
  | ((n', _), Err e) => (n', Err e)
  end.
End Monad.

Section Node.
Context {P : Primitives} {A : Type} {AR : Archive A}.
Context (iter_order : gmap Z ProposalInfo -> list (Z * ProposalInfo)).

Definition new_node (config : NodeConfig) : Node A :=
  let c := genesis_for_network MININET_NETWORK_ID 0 in
  mkNode config c (Round_new (next_height c) (cf_validators config) (cf_root config)) ∅ [] [] None None 0.
Definition new_with_genesis (config : NodeConfig) (genesis : LedgerChain) (verifier : option ClaimVerifier) :
    result ConsensusError (Node A) :=
  _ ← fail_if (negb (lc_height genesis =? 0)) (CoExecution (WrongHeight 0 (lc_height genesis)));
  _ ← co_execution (verify_shielded_claims (lc_state genesis) verifier);
  Ok (with_claim_verifier (set_chain (new_node config) genesis) verifier).

(** The round machine takes one input; its actions are the work. *)
Definition on_round (f : Round -> Round * list Action) : node_m A (list Action) :=
  n ← get_node;
  let '(r, actions) := f (nd_round n) in
  _ ← modify (fun n => set_round n r);
  mret actions.
(** [values.entry(hash).or_insert(proposal)]. *)
Definition learn (n : Node A) (hash : bytes) (p : Proposal) : Node A :=
  match nd_values n !! hash with
  | Some _ => n
  | None => set_values n (<[hash := p]> (nd_values n))
  end.

Definition proposal_is_authentic (n : Node A) (p : Proposal) : bool :=
  match proposer_for (bh_height (pr_header p)) (pr_round p) (cf_validators (nd_config n)) with
  | None => false
  | Some expected =>
      if negb (bool_decide (did_scid (pr_proposer_root p) = did_scid expected)) then false
      else match cf_oracle (nd_config n) (pr_proposer_root p), cf_oracle (nd_config n) (pr_proposer_device p) with
           | Some root_kel, Some device_kel => is_ok (verify_proposal p root_kel device_kel)
           | _, _ => false
           end
  end.

(** The value of a proposal against one chain. *)
Definition value_valid (c : LedgerChain) (verifier : option ClaimVerifier) (header : BlockHeader) (body : SettlementBlockBody) : bool :=
  if negb (bh_height header =? next_height c) || negb (bool_decide (bh_prev_hash header = lc_tip_hash c)) then false
  else if negb (bh_timestamp_ms header =? bh_height header) then false
  else if negb (bool_decide (bh_body_root header = body_hash body)) then false
  else match apply_block_with_verifier (lc_state c) body verifier with
       | Ok next => bool_decide (commitment next = bh_state_root header)
       | Err _ => false
       end.
Definition validate_proposal (n : Node A) (p : Proposal) : bytes * bool :=
  (header_hash (pr_header p), value_valid (nd_chain n) (nd_claim_verifier n) (pr_header p) (pr_body p)).

Definition next_body : node_m A SettlementBlockBody :=
  n ← get_node;
  _ ← modify (fun n => set_bodies n (S (nd_bodies n)));
  mret (cf_body_source (nd_config n) (nd_bodies n) (current_height n)).
Definition build_proposal (round : Z) (reuse : option bytes) (valid_round : Z) : node_m A Proposal :=
  n ← get_node;
  '(header, body) ←
    match reuse with
    | Some hash => cached ← check (ok_or (nd_values n !! hash) CoStalled); mret (pr_header cached, pr_body cached)
    | None =>
        body ← next_body;
        next ← check (co_execution (apply_block_with_verifier (nd_state n) body (nd_claim_verifier n)));
        let height := current_height n in
        mret (mkBlockHeader height (lc_tip_hash (nd_chain n)) (commitment next) (body_hash body) height
                (cf_root (nd_config n)), body)
    end;
  mret (sign_proposal round valid_round header body (cf_root (nd_config n)) (cf_device (nd_config n))).

(** Sign a vote of this node, broadcast it and count it. *)
Definition cast (kind : VoteKind) (round : Z) (target : bytes) : node_m A (list Action) :=
  n ← get_node;
  let vote := sign_vote kind (current_height n) round target (cf_root (nd_config n)) (cf_device (nd_config n)) in
  _ ← emit (EBroadcast (MsgVote vote));
  on_round (fun r => on_vote iter_order r vote (cf_oracle (nd_config n))).

Definition propose (round : Z) (reuse : option bytes) (valid_round : Z) : node_m A (list Action) :=
  proposal ← build_proposal round reuse valid_round;
  _ ← emit (EBroadcast (MsgProposal proposal));
  let hash := header_hash (pr_header proposal) in
  _ ← modify (fun n => learn n hash proposal);
  on_round (fun r => on_proposal iter_order r round hash valid_round true).

(** Hand a call to the archive, if there is one. *)
Definition with_archive (f : A -> A * result ConsensusError unit) : node_m A unit :=
  n ← get_node;
  match nd_archive n with
  | None => mret tt
  | Some a => let '(a', r) := f a in _ ← modify (fun n => set_archive n (Some a')); check r
  end.

Section Drive.
(** [drive], one call deeper. *)
Context (drive : list Action -> node_m A unit).

Definition ingest (msg : ConsensusMessage) : node_m A unit :=
  n ← get_node;
  let height := match msg with MsgProposal p => bh_height (pr_header p) | MsgVote v => v_height v end in
  let current := current_height n in
  if current <? height then modify (fun n => set_pending n (nd_pending n ++ [msg]))
  else if height <? current then mret tt
  else match msg with
  | MsgProposal p =>
      if negb (proposal_is_authentic n p) then mret tt
      else
        let '(hash, valid) := validate_proposal n p in
        _ ← (if valid then modify (fun n => learn n hash p) else mret tt);
        actions ← on_round (fun r => on_proposal iter_order r (pr_round p) hash (pr_valid_round p) valid);
        drive actions
  | MsgVote v =>
      actions ← on_round (fun r => on_vote iter_order r v (cf_oracle (nd_config n)));
      drive actions
  end.

Definition start_round : node_m A unit :=
  actions ← on_round (start iter_order);
  drive actions.

(** Apply the decided block, and begin the next height. *)
Definition commit_block (qc : QuorumCertificate) : node_m A unit :=
  n ← get_node;
  value ← check (ok_or (nd_values n !! qc_block_hash qc) CoStalled);
  '(root, candidate) ← check (co_execution (apply_finalized_block_with_verifier (nd_chain n) (pr_header value) (pr_body value) qc
    (cf_validators (nd_config n)) (cf_oracle (nd_config n)) (nd_claim_verifier n)));
  let finalized := mkFinalized (pr_header value) (pr_body value) qc in
  _ ← with_archive (fun a => record_verified_batch a [finalized] (lc_state candidate));
  _ ← modify (fun n => remember_history (set_chain n candidate) finalized);
  _ ← emit (ECommitted (bh_height (pr_header value)) root);
  modify (fun n => set_values (set_round n (fresh_round n)) ∅).
Definition commit (qc : QuorumCertificate) : node_m A unit :=
  _ ← commit_block qc;
  _ ← start_round;
  n ← get_node;
  _ ← modify (fun n => set_pending n []);
  each ingest (nd_pending n).

(** One iteration of the loop of [drive] over [work]. *)
Definition drive_step (work : list Action) : node_m A unit :=
  match work with
  | [] => mret tt
  | Propose round reuse valid_round :: work => actions ← propose round reuse valid_round; drive (work ++ actions)
  | SignPrevote round target :: work => actions ← cast Prevote round target; drive (work ++ actions)
  | SignPrecommit round target :: work => actions ← cast Precommit round target; drive (work ++ actions)
  | ScheduleTimeout step round :: work =>
      n ← get_node; _ ← emit (EScheduleTimeout (current_height n) round step); drive work
  | Equivocation e :: work => _ ← emit (EEquivocation e); drive work
  | Decided qc :: _ => commit qc
  end.
End Drive.

Fixpoint drive (fuel : nat) (work : list Action) : node_m A unit :=
  match fuel with
  | O => stop_with NoFuel
  | S fuel => drive_step (drive fuel) work
  end.

(** ** State sync *)
Definition sync_block (n : Node A) (acc : LedgerChain * list Emit) (block : FinalizedBlock) :
    result ConsensusError (LedgerChain * list Emit) :=
  let '(candidate, emits) := acc in
  expected ← if lc_height candidate <? U64_MAX then Ok (lc_height candidate + 1) else Err CoTooLarge;
  _ ← fail_if (negb (bh_height (fb_header block) =? expected)) (CatchupOutOfOrder expected (bh_height (fb_header block)));
  '(root, candidate) ← co_execution (apply_finalized_block_with_verifier candidate (fb_header block) (fb_body block) (fb_qc block)
    (cf_validators (nd_config n)) (cf_oracle (nd_config n)) (nd_claim_verifier n));
  Ok (candidate, emits ++ [ECommitted (bh_height (fb_header block)) root]).
(** The candidate chain, the emits, the blocks to remember, and whether they
    replace the history. *)
Definition verify_state_sync (n : Node A) (response : StateSyncResponse) :
    result ConsensusError (LedgerChain * list Emit * list FinalizedBlock * bool) :=
  match yr_payload response with
  | WrongNetwork => Err StateSyncWrongNetwork
  | Unavailable earliest tip => Err (StateSyncUnavailable earliest tip)
  | Blocks blocks =>
      '(candidate, emits) ← foldM (sync_block n) (nd_chain n, []) blocks;
      Ok (candidate, emits, blocks, false)
  | Snapshot snapshot blocks =>
      _ ← fail_if (snapshot_height snapshot <=? finalized_height n) (SnapshotNotNewer (finalized_height n) (snapshot_height snapshot));
      candidate ← into_chain_with_verifier snapshot (yr_network_id response) (cf_validators (nd_config n))
        (cf_oracle (nd_config n)) (genesis_commitment (ls_shielded (nd_state n))) (nd_claim_verifier n);
      '(candidate, emits) ←
        foldM (sync_block n) (candidate, [ECommitted (snapshot_height snapshot) (commitment (lc_state candidate))]) blocks;
      Ok (candidate, emits, blocks, true)
  end.
Definition install (n : Node A) (candidate : LedgerChain) (retained : list FinalizedBlock) (replace_history : bool) : Node A :=
  let n := set_chain n candidate in
  let n := if replace_history then set_history n [] else n in
  let n := fold_left remember_history retained n in
  set_pending (set_values (set_round n (fresh_round n)) ∅) [].
Definition apply_state_sync_internal (fuel : nat) (response : StateSyncResponse) (restart persist : bool) : node_m A unit :=
  n ← get_node;
  _ ← check (fail_if (negb (bool_decide (yr_network_id response = ls_network_id (nd_state n)))) StateSyncWrongNetwork);
  '(candidate, emits, retained, replace_history) ← check (verify_state_sync n response);
  if lc_height candidate =? finalized_height n then mret tt
  else
    _ ← (if (persist : bool) then with_archive (fun a => install_verified_response a response (lc_state candidate)) else mret tt);
    _ ← modify (fun n => install n candidate retained replace_history);
    _ ← each emit emits;
    if (restart : bool) then start_round (drive fuel) else mret tt.

(** ** The public operations *)
Definition start_node (fuel : nat) (n : Node A) : Node A * result stop (list Emit) := run_node (start_round (drive fuel)) n.
Definition on_message (fuel : nat) (n : Node A) (msg : ConsensusMessage) : Node A * result stop (list Emit) :=
  run_node (ingest (drive fuel) msg) n.
Definition on_timeout_node (fuel : nat) (n : Node A) (height round : Z) (step : Step) : Node A * result stop (list Emit) :=
  run_node
    (if height =? current_height n
     then actions ← on_round (fun r => on_timeout iter_order r step round); drive fuel actions
     else mret tt) n.
Definition apply_state_sync (fuel : nat) (n : Node A) (response : StateSyncResponse) : Node A * result stop (list Emit) :=
  run_node (apply_state_sync_internal fuel response true true) n.
Definition catch_up (fuel : nat) (n : Node A) (blocks : list FinalizedBlock) : Node A * result stop (list Emit) :=
  apply_state_sync fuel n (mkSyncResponse (ls_network_id (nd_state n)) (Blocks blocks)).

Fixpoint recover_loop (fuel : nat) (n : Node A) : Node A * result stop unit :=
  match fuel with
  | O => (n, Err NoFuel)
  | S fuel =>
      let before := finalized_height n in
      match nd_archive n with
      | None => (n, Ok tt)
      | Some a =>
          let '(a', r) := archive_response a (mkSyncRequest (ls_network_id (nd_state n)) before) in
          let n := set_archive n (Some a') in
          match r with
          | Err e => (n, Err (Fails e))
          | Ok response =>
              match run_node (apply_state_sync_internal 0 response false false) n with
              | (n, Err e) => (n, Err e)
              | (n, Ok _) => if finalized_height n =? before then (n, Ok tt) else recover_loop fuel n
              end
          end
      end
  end.
Definition recover_archive (fuel : nat) (n : Node A) (archive : A) : Node A * result stop unit :=
  if negb (bool_decide (archive_network_id archive = ls_network_id (nd_state n))) then (n, Err (Fails StateSyncWrongNetwork))
  else recover_loop fuel (set_archive n (Some archive)).
Definition new_with_archive_and_verifier (fuel : nat) (config : NodeConfig) (archive : A) (verifier : option ClaimVerifier) :
    Node A * result stop unit :=
  recover_archive fuel (with_claim_verifier (new_node config) verifier) archive.
End Node.

(** ** [consequence.rs] *)
Inductive RecordOutcome := NewlyFlagged (root : Did) | AlreadyFlagged (root : Did) | InvalidEvidence.
Definition EquivocatorRegistry : Type := gset bytes.
Definition record_evidence `{Primitives} (flagged : EquivocatorRegistry) (e : EquivocationEvidence) (oracle : ValidatorOracle) :
    EquivocatorRegistry * RecordOutcome :=
  if negb (verify_equivocation e oracle) then (flagged, InvalidEvidence)
  else
    let root := v_validator_root (ee_first e) in
    if bool_decide (did_scid root ∈ flagged) then (flagged, AlreadyFlagged root)
    else (flagged ∪ {[did_scid root]}, NewlyFlagged root).
Definition is_flagged (flagged : EquivocatorRegistry) (root : Did) : bool := bool_decide (did_scid root ∈ flagged).
Definition flagged_count (flagged : EquivocatorRegistry) : nat := size flagged.
