(* ===== verification/Archive.v ===== *)
(** * Archive: the finalized history a node keeps on disk

    Models [crates/mini-consensus/src/store.rs]: the snapshot, the blocks
    after it, and the journal that makes the installation of a state-sync
    response restartable.

    The directory holds what the archive writes: at most one snapshot, one
    block file per height, the temporary of an interrupted block write, and
    at most one journal.  Every step that touches it draws an outcome: it is
    done, it fails without an effect, it leaves a torn temporary, or it has
    its effect and fails after it.  A process that dies at a step is a step
    that fails: the error is passed up by [?] and nothing else is written.
    Links, foreign files and the temporaries of the two root files, which are
    never read, are left out; a file's name is its height. *)

From Stdlib Require Import ZArith Lia.
From stdpp Require Import base list gmap sets strings sorting.
From S2P Require Import Prelude Codec Crypto Identity Kel Chain Economy Settlement Shielded Execution LedgerSnapshot Wire StateSync Node.
Open Scope Z_scope.

Definition INSTALL_PENDING_DOMAIN : bytes := lit "mini-consensus/archive-install/v2".
Definition MAX_ARCHIVE_SUFFIX_BYTES : Z := MAX_CHANNEL_PLAINTEXT_BYTES.
Definition MAX_ARCHIVE_RECOVERY_BYTES : Z := MAX_ARCHIVE_SUFFIX_BYTES + MAX_CHANNEL_PLAINTEXT_BYTES.
Definition MAX_ARCHIVE_DIRECTORY_ENTRIES : Z := Z.of_nat (MAX_CATCHUP_BLOCKS + MAX_STATE_SYNC_BLOCKS).
Definition MAX_PENDING_INSTALL_BYTES : Z :=
  MAX_CHANNEL_PLAINTEXT_BYTES + MAX_LEDGER_SNAPSHOT_BYTES + Z.of_nat (length INSTALL_PENDING_DOMAIN) + 8.

Record ConsensusArchiveConfig := mkArchiveConfig {
  ac_network_id : bytes;
  ac_snapshot_interval : Z;
  ac_max_suffix_blocks : nat;
}.
Definition archive_config_validate (c : ConsensusArchiveConfig) : result ConsensusError ConsensusArchiveConfig :=
  _ ← fail_if ((ac_snapshot_interval c =? 0) || (ac_max_suffix_blocks c =? 0)%nat ||
        (MAX_CATCHUP_BLOCKS <? ac_max_suffix_blocks c)%nat) (CoStorage (lit "invalid consensus archive retention policy"));
  Ok c.
Definition archive_config_default : ConsensusArchiveConfig := mkArchiveConfig MININET_NETWORK_ID 64 MAX_STATE_SYNC_BLOCKS.

(** ** The directory, and the steps on it *)
Record Disk := mkDisk {
  dk_snapshot : option bytes;
  dk_blocks : gmap Z bytes;
  dk_temps : gmap Z bytes;
  dk_pending : option bytes;
}.
Inductive fault := NoEffect | TornTemporary (written : nat) | Effect.
(** What a step does: [None] is success, and a fault has the text of its
    error.  Steps past the end of the draws succeed. *)
Definition draws : Type := list (option (fault * bytes)).

Definition io_m (X : Type) : Type := Disk * draws -> (Disk * draws) * result ConsensusError X.
#[global] Instance io_ret : MRet io_m := fun X x st => (st, Ok x).
#[global] Instance io_bind : MBind io_m := fun X Y f m st =>
  match m st with
  | (st', Ok x) => f x st'
  | (st', Err e) => (st', Err e)
  end.
Definition io_lift {X} (r : result ConsensusError X) : io_m X := fun st => (st, r).
Definition io_disk : io_m Disk := fun st => (st, Ok st.1).
Fixpoint io_each {X} (f : X -> io_m unit) (l : list X) : io_m unit :=
  match l with
  | [] => mret tt
  | x :: l => _ ← f x; io_each f l
  end.
Fixpoint io_fold {X Y} (f : Y -> X -> io_m Y) (y : Y) (l : list X) : io_m Y :=
  match l with
  | [] => mret y
  | x :: l => y ← f y x; io_fold f y l
  end.
(** One step: its effect, and what an interrupted write leaves. *)
Definition io_step (effect : Disk -> Disk) (torn : nat -> Disk -> Disk) : io_m unit := fun '(d, ds) =>
  match ds with
  | [] | None :: _ => ((effect d, tail ds), Ok tt)
  | Some (NoEffect, e) :: ds => ((d, ds), Err (CoStorage e))
  | Some (TornTemporary n, e) :: ds => ((torn n d, ds), Err (CoStorage e))
  | Some (Effect, e) :: ds => ((effect d, ds), Err (CoStorage e))
  end.
Definition touch : io_m unit := io_step id (fun _ => id).

Definition set_snapshot (b : option bytes) (d : Disk) : Disk := mkDisk b (dk_blocks d) (dk_temps d) (dk_pending d).
Definition set_blocks (m : gmap Z bytes) (d : Disk) : Disk := mkDisk (dk_snapshot d) m (dk_temps d) (dk_pending d).
Definition set_temps (m : gmap Z bytes) (d : Disk) : Disk := mkDisk (dk_snapshot d) (dk_blocks d) m (dk_pending d).
Definition set_pending_file (b : option bytes) (d : Disk) : Disk := mkDisk (dk_snapshot d) (dk_blocks d) (dk_temps d) b.

(** [atomic_write]: clear the temporary, write it, rename it, flush the
    directory. *)
Definition write_snapshot (b : bytes) : io_m unit := io_step (set_snapshot (Some b)) (fun _ => id).
Definition write_pending (b : bytes) : io_m unit := io_step (set_pending_file (Some b)) (fun _ => id).
Definition remove_temp (h : Z) : io_m unit := io_step (fun d => set_temps (delete h (dk_temps d)) d) (fun _ => id).
Definition write_block (h : Z) (b : bytes) : io_m unit :=
  _ ← remove_temp h;
  io_step (fun d => set_blocks (<[h := b]> (dk_blocks d)) (set_temps (delete h (dk_temps d)) d))
          (fun n d => set_temps (<[h := take n b]> (dk_temps d)) d).
(** [remove_regular_if_present]. *)
Definition remove_block (h : Z) : io_m unit := io_step (fun d => set_blocks (delete h (dk_blocks d)) d) (fun _ => id).
Definition remove_pending : io_m unit := io_step (set_pending_file None) (fun _ => id).
(** [read_regular_limited]. *)
Definition read_limited (file : Disk -> option bytes) (max : Z) : io_m (option bytes) :=
  _ ← touch;
  d ← io_disk;
  match file d with
  | None => mret None
  | Some b => _ ← io_lift (fail_if (max <? Z.of_nat (length b)) CoTooLarge); mret (Some b)
  end.

Section Archive.
Context {P : Primitives}.
(** The order in which the file system lists a directory. *)
Context (dir_order : list (bool * (Z * bytes)) -> list (bool * (Z * bytes))).

(** ** Reading *)
Definition read_snapshot_locked : io_m (option ConsensusSnapshot) :=
  file ← read_limited dk_snapshot MAX_CHANNEL_PLAINTEXT_BYTES;
  match file with
  | None => mret None
  | Some b => s ← io_lift (snapshot_from_wire b); mret (Some s)
  end.

(** The files of the blocks directory, interrupted writes marked. *)
Definition dir_entries (d : Disk) : list (bool * (Z * bytes)) :=
  dir_order (map (pair false) (map_to_list (dk_blocks d)) ++ map (pair true) (map_to_list (dk_temps d))).
Record Listing := mkListing {
  li_entries : Z;
  li_total_bytes : Z;
  li_stale_temps : list Z;
  li_rows : list FinalizedBlock;
}.
Definition read_entry (l : Listing) (entry : bool * (Z * bytes)) : result ConsensusError Listing :=
  let '(temporary, (height, b)) := entry in
  let entries := li_entries l + 1 in
  _ ← fail_if (MAX_ARCHIVE_DIRECTORY_ENTRIES <? entries) CoTooLarge;
  total ← co_add (li_total_bytes l) (Z.of_nat (length b));
  _ ← fail_if (MAX_ARCHIVE_RECOVERY_BYTES <? total) CoTooLarge;
  _ ← fail_if (MAX_MESSAGE_BYTES <? Z.of_nat (length b)) CoTooLarge;
  if (temporary : bool) then Ok (mkListing entries total (li_stale_temps l ++ [height]) (li_rows l))
  else
    block ← block_from_wire b;
    _ ← fail_if (negb (bh_height (fb_header block) =? height)) (CoStorage (lit "finalized block filename/height mismatch"));
    Ok (mkListing entries total (li_stale_temps l) (li_rows l ++ [block])).
Definition fb_height (b : FinalizedBlock) : Z := bh_height (fb_header b).
Definition by_height (a b : FinalizedBlock) : Prop := fb_height a <= fb_height b.
#[global] Instance by_height_dec a b : Decision (by_height a b).
Proof. unfold by_height. apply _. Defined.
Fixpoint strictly_ascending (l : list FinalizedBlock) : bool :=
  match l with
  | a :: (b :: _) as l' => (fb_height a <? fb_height b) && strictly_ascending l'
  | _ => true
  end.
Definition read_blocks_locked : io_m (list FinalizedBlock) :=
  _ ← touch;
  d ← io_disk;
  listing ← io_lift (foldM read_entry (mkListing 0 0 [] []) (dir_entries d));
  _ ← io_each remove_temp (li_stale_temps listing);
  _ ← (if decide (li_stale_temps listing = []) then mret tt else touch);
  let rows := merge_sort by_height (li_rows listing) in
  _ ← io_lift (fail_if (negb (strictly_ascending rows)) (CoStorage (lit "duplicate or unordered finalized block files")));
  mret rows.

Definition clear_blocks_locked : io_m unit :=
  rows ← read_blocks_locked;
  _ ← io_each (fun b => remove_block (fb_height b)) rows;
  touch.
Definition prune_blocks_through_locked (height : Z) : io_m unit :=
  rows ← read_blocks_locked;
  _ ← io_each (fun b => if fb_height b <=? height then remove_block (fb_height b) else mret tt) rows;
  touch.

(** ** The chain of the retained blocks *)
Fixpoint verify_chain (base_height : Z) (base_hash : bytes) (blocks : list FinalizedBlock) : result ConsensusError unit :=
  match blocks with
  | [] => Ok tt
  | block :: blocks =>
      expected ← (if base_height <? U64_MAX then Ok (base_height + 1) else Err CoTooLarge);
      _ ← fail_if (negb (fb_height block =? expected)) (CatchupOutOfOrder expected (fb_height block));
      _ ← fail_if (negb (bool_decide (bh_prev_hash (fb_header block) = base_hash)))
            (CoStorage (lit "consensus archive parent chain is broken"));
      verify_chain expected (header_hash (fb_header block)) blocks
  end.
Definition base_height (s : option ConsensusSnapshot) : Z := match s with Some s => snapshot_height s | None => 0 end.
Definition base_hash (s : option ConsensusSnapshot) : bytes :=
  match s with Some s => header_hash (sp_header s) | None => replicate 32 0 end.
Definition retained (height : Z) (blocks : list FinalizedBlock) : list FinalizedBlock :=
  List.filter (fun b => height <? fb_height b) blocks.
Definition tip_height (s : option ConsensusSnapshot) (l : list FinalizedBlock) : Z :=
  match last l with Some b => fb_height b | None => base_height s end.
Definition tip_hash (s : option ConsensusSnapshot) (l : list FinalizedBlock) : bytes :=
  match last l with Some b => header_hash (fb_header b) | None => base_hash s end.
Definition suffix_len (blocks : list FinalizedBlock) : result ConsensusError Z :=
  foldM (fun total b => x ← block_to_wire b; co_add total (Z.of_nat (length x))) 0 blocks.

(** ** Recording verified blocks *)
Section Config.
Context (cfg : ConsensusArchiveConfig).

Record RecordPlan := mkRecordPlan { rp_writes : list (Z * bytes); rp_snapshot : option (Z * bytes) }.
(** The state of the loop over the blocks. *)
Record Planning := mkPlanning { pl_suffix : Z; pl_height : Z; pl_hash : bytes; pl_writes : list (Z * bytes) }.

Definition plan_block (snapshot_height : Z) (p : Planning) (block : FinalizedBlock) : io_m Planning :=
  let height := fb_height block in
  if height <=? snapshot_height then mret p
  else
    b ← io_lift (block_to_wire block);
    if height <=? pl_height p then
      match List.find (fun w => w.1 =? height) (pl_writes p) with
      | Some (_, planned) => _ ← io_lift (fail_if (negb (bool_decide (planned = b))) (ArchiveConflict height)); mret p
      | None =>
          file ← read_limited (fun d => dk_blocks d !! height) MAX_MESSAGE_BYTES;
          existing ← io_lift (ok_or file (CoStorage (lit "archive tip names a missing finalized block")));
          _ ← io_lift (fail_if (negb (bool_decide (existing = b))) (ArchiveConflict height));
          mret p
      end
    else
      expected ← io_lift (if pl_height p <? U64_MAX then Ok (pl_height p + 1) else Err CoTooLarge);
      _ ← io_lift (fail_if (negb (height =? expected)) (CatchupOutOfOrder expected height));
      _ ← io_lift (fail_if (negb (bool_decide (bh_prev_hash (fb_header block) = pl_hash p)))
            (CoStorage (lit "finalized block parent does not match archive tip")));
      suffix ← io_lift (co_add (pl_suffix p) (Z.of_nat (length b)));
      _ ← io_lift (fail_if (MAX_ARCHIVE_RECOVERY_BYTES <? suffix) CoTooLarge);
      mret (mkPlanning suffix height (header_hash (fb_header block)) (pl_writes p ++ [(height, b)])).

Definition snapshot_due (last : FinalizedBlock) (snapshot_height suffix_bytes : Z) : bool :=
  (fb_height last mod ac_snapshot_interval cfg =? 0) ||
  (Z.of_nat (ac_max_suffix_blocks cfg) <=? Z.max 0 (fb_height last - snapshot_height)) ||
  (MAX_ARCHIVE_SUFFIX_BYTES <=? suffix_bytes).
Definition snapshot_at (last : FinalizedBlock) (final_state : LedgerState) : result ConsensusError (Z * bytes) :=
  snapshot ← ConsensusSnapshot_new (fb_header last) (fb_qc last) final_state;
  b ← snapshot_to_wire snapshot;
  Ok (snapshot_height snapshot, b).

Definition prepare_record_locked (blocks : list FinalizedBlock) (final_state : LedgerState) : io_m RecordPlan :=
  _ ← io_lift (fail_if (MAX_STATE_SYNC_BLOCKS <? length blocks)%nat
        (StateSyncTooManyBlocks (Z.of_nat MAX_STATE_SYNC_BLOCKS) (Z.of_nat (length blocks))));
  match last blocks with
  | None => mret (mkRecordPlan [] None)
  | Some last_block =>
      _ ← io_lift (fail_if (negb (bool_decide (ls_network_id final_state = ac_network_id cfg))) StateSyncWrongNetwork);
      _ ← io_lift (fail_if (negb (bool_decide (bh_state_root (fb_header last_block) = commitment final_state)))
            CoSnapshotProofMismatch);
      current ← read_snapshot_locked;
      rows ← read_blocks_locked;
      let existing := retained (base_height current) rows in
      _ ← io_lift (verify_chain (base_height current) (base_hash current) existing);
      suffix ← io_lift (suffix_len existing);
      plan ← io_fold (plan_block (base_height current))
               (mkPlanning suffix (tip_height current existing) (tip_hash current existing) []) blocks;
      if snapshot_due last_block (base_height current) (pl_suffix plan)
      then snapshot ← io_lift (snapshot_at last_block final_state); mret (mkRecordPlan (pl_writes plan) (Some snapshot))
      else mret (mkRecordPlan (pl_writes plan) None)
  end.
Definition apply_record_plan_locked (plan : RecordPlan) : io_m unit :=
  _ ← io_each (fun w => write_block w.1 w.2) (rp_writes plan);
  match rp_snapshot plan with
  | None => mret tt
  | Some (height, b) => _ ← write_snapshot b; prune_blocks_through_locked height
  end.
Definition record_locked (blocks : list FinalizedBlock) (final_state : LedgerState) : io_m unit :=
  plan ← prepare_record_locked blocks final_state; apply_record_plan_locked plan.

(** ** Installing a snapshot *)
Record SnapshotInstallPlan := mkInstallPlan {
  ip_snapshot : bytes;
  ip_writes : list (Z * bytes);
  ip_compacted : option bytes;
}.
Definition encoded_row (b : FinalizedBlock) : result ConsensusError (Z * bytes) :=
  x ← block_to_wire b; Ok (fb_height b, x).
Definition prepare_snapshot_install_locked (snapshot : ConsensusSnapshot) (blocks : list FinalizedBlock)
    (final_state : LedgerState) : io_m SnapshotInstallPlan :=
  _ ← io_lift (fail_if (negb (bool_decide (snapshot_network_id snapshot = ac_network_id cfg))) StateSyncWrongNetwork);
  _ ← io_lift (fail_if (MAX_STATE_SYNC_BLOCKS <? length blocks)%nat
        (StateSyncTooManyBlocks (Z.of_nat MAX_STATE_SYNC_BLOCKS) (Z.of_nat (length blocks))));
  _ ← io_lift (verify_chain (snapshot_height snapshot) (header_hash (sp_header snapshot)) blocks);
  let incoming_tip := tip_height (Some snapshot) blocks in
  current ← read_snapshot_locked;
  current_blocks ← read_blocks_locked;
  let current_tip := Z.max (base_height current) (match last current_blocks with Some b => fb_height b | None => 0 end) in
  _ ← io_lift (fail_if (incoming_tip <? current_tip) (SnapshotNotNewer current_tip incoming_tip));
  _ ← io_lift (match current with
      | Some s => fail_if ((snapshot_height s =? snapshot_height snapshot) &&
            negb (bool_decide (header_hash (sp_header s) = header_hash (sp_header snapshot)))) (ArchiveConflict (snapshot_height snapshot))
      | None => Ok tt
      end);
  let expected_root := match last blocks with
    | Some b => bh_state_root (fb_header b) | None => bh_state_root (sp_header snapshot) end in
  _ ← io_lift (fail_if (negb (bool_decide (expected_root = commitment final_state))) CoSnapshotProofMismatch);
  b ← io_lift (snapshot_to_wire snapshot);
  writes ← io_lift (mapM encoded_row blocks);
  match last blocks with
  | Some last_block =>
      if (ac_max_suffix_blocks cfg <=? length blocks)%nat
      then newer ← io_lift (snapshot_at last_block final_state); mret (mkInstallPlan b writes (Some newer.2))
      else mret (mkInstallPlan b writes None)
  | None => mret (mkInstallPlan b writes None)
  end.
Definition apply_snapshot_install_plan_locked (plan : SnapshotInstallPlan) : io_m unit :=
  _ ← write_snapshot (ip_snapshot plan);
  _ ← clear_blocks_locked;
  _ ← io_each (fun w => write_block w.1 w.2) (ip_writes plan);
  match ip_compacted plan with
  | None => mret tt
  | Some b => _ ← write_snapshot b; clear_blocks_locked
  end.
Definition install_snapshot_locked (snapshot : ConsensusSnapshot) (blocks : list FinalizedBlock) (final_state : LedgerState) : io_m unit :=
  plan ← prepare_snapshot_install_locked snapshot blocks final_state; apply_snapshot_install_plan_locked plan.

(** ** The journal *)
Definition encode_pending_install (response : StateSyncResponse) (final_state : LedgerState) : result ConsensusError bytes :=
  r ← sync_response_to_wire response;
  s ← co_execution (to_snapshot_bytes final_state);
  _ ← fail_if (U32_MAX <? Z.of_nat (length r)) CoTooLarge;
  _ ← fail_if (U32_MAX <? Z.of_nat (length s)) CoTooLarge;
  let out := INSTALL_PENDING_DOMAIN ++ w_bytes r ++ w_bytes s in
  _ ← fail_if (MAX_PENDING_INSTALL_BYTES <? Z.of_nat (length out)) CoTooLarge;
  Ok out.
Definition decode_pending : parser ConsensusError (bytes * bytes) :=
  r ← co_bytes MAX_CHANNEL_PLAINTEXT_BYTES; s ← co_bytes MAX_LEDGER_SNAPSHOT_BYTES; mret (r, s).
Definition decode_pending_install (b : bytes) : result ConsensusError (StateSyncResponse * LedgerState) :=
  let n := length INSTALL_PENDING_DOMAIN in
  _ ← fail_if ((MAX_PENDING_INSTALL_BYTES <? Z.of_nat (length b)) || negb (bool_decide (take n b = INSTALL_PENDING_DOMAIN))) CoMalformed;
  '(r, s) ← co_all decode_pending (drop n b);
  response ← sync_response_from_wire r;
  final_state ← co_execution (from_snapshot_bytes s);
  Ok (response, final_state).

Definition on_payload {X} (on_blocks : list FinalizedBlock -> io_m X) (on_snapshot : ConsensusSnapshot -> list FinalizedBlock -> io_m X)
    (response : StateSyncResponse) : io_m X :=
  match yr_payload response with
  | Blocks blocks => on_blocks blocks
  | Snapshot snapshot blocks => on_snapshot snapshot blocks
  | WrongNetwork => io_lift (Err StateSyncWrongNetwork)
  | Unavailable earliest tip => io_lift (Err (StateSyncUnavailable earliest tip))
  end.
Definition validate_install_locked (response : StateSyncResponse) (final_state : LedgerState) : io_m unit :=
  on_payload (fun blocks => _ ← prepare_record_locked blocks final_state; mret tt)
             (fun snapshot blocks => _ ← prepare_snapshot_install_locked snapshot blocks final_state; mret tt) response.
Definition apply_install_locked (response : StateSyncResponse) (final_state : LedgerState) : io_m unit :=
  on_payload (fun blocks => record_locked blocks final_state)
             (fun snapshot blocks => install_snapshot_locked snapshot blocks final_state) response.
Definition clear_pending_install_locked : io_m unit := _ ← remove_pending; touch.
Definition recover_pending_install_locked : io_m unit :=
  file ← read_limited dk_pending MAX_PENDING_INSTALL_BYTES;
  match file with
  | None => mret tt
  | Some b =>
      '(response, final_state) ← io_lift (decode_pending_install b);
      _ ← io_lift (fail_if (negb (bool_decide (yr_network_id response = ac_network_id cfg)) ||
            negb (bool_decide (ls_network_id final_state = ac_network_id cfg))) StateSyncWrongNetwork);
      _ ← apply_install_locked response final_state;
      clear_pending_install_locked
  end.
Definition with_lock {X} (operation : io_m X) : io_m X :=
  _ ← touch;
  _ ← recover_pending_install_locked;
  operation.

(** ** The public operations *)
Definition fa_record_verified_batch (blocks : list FinalizedBlock) (final_state : LedgerState) : io_m unit :=
  _ ← io_lift (fail_if (MAX_STATE_SYNC_BLOCKS <? length blocks)%nat CoTooLarge);
  match last blocks with
  | None => mret tt
  | Some last_block =>
      _ ← io_lift (fail_if (negb (bool_decide (ls_network_id final_state = ac_network_id cfg)) ||
            negb (bool_decide (bh_state_root (fb_header last_block) = commitment final_state))) CoSnapshotProofMismatch);
      batch ← io_lift (suffix_len blocks);
      _ ← io_lift (fail_if (MAX_ARCHIVE_SUFFIX_BYTES <? batch) CoTooLarge);
      with_lock (record_locked blocks final_state)
  end.
Definition fa_install_verified_response (response : StateSyncResponse) (final_state : LedgerState) : io_m unit :=
  _ ← io_lift (fail_if (negb (bool_decide (yr_network_id response = ac_network_id cfg)) ||
        negb (bool_decide (ls_network_id final_state = ac_network_id cfg))) StateSyncWrongNetwork);
  with_lock (
    _ ← validate_install_locked response final_state;
    pending ← io_lift (encode_pending_install response final_state);
    _ ← write_pending pending;
    _ ← apply_install_locked response final_state;
    clear_pending_install_locked).
Definition latest_snapshot : io_m (option ConsensusSnapshot) := with_lock read_snapshot_locked.

(** The blocks of a response that fit, with the size they are counted at. *)
Fixpoint select_blocks (base_height : Z) (selected : Z) (wire_size : Z) (candidates : list FinalizedBlock) :
    result ConsensusError (list FinalizedBlock) :=
  match candidates with
  | [] => Ok []
  | block :: candidates =>
      expected ← (if U64_MAX <? base_height + (selected + 1) then Err CoTooLarge else Ok (base_height + (selected + 1)));
      _ ← fail_if (negb (fb_height block =? expected)) (CoStorage (lit "consensus archive suffix is not contiguous"));
      b ← block_to_wire block;
      n ← co_add wire_size 4;
      next_size ← co_add n (Z.of_nat (length b));
      if too_long next_size then Ok []
      else rest ← select_blocks base_height (selected + 1) next_size candidates; Ok (block :: rest)
  end.
Definition response_of (current : option ConsensusSnapshot) (blocks : list FinalizedBlock) (from_height : Z) :
    result ConsensusError StateSyncResponse :=
  let network_id := ac_network_id cfg in
  let tip := tip_height current blocks in
  if tip <=? from_height then Ok (mkSyncResponse network_id (Blocks []))
  else
    let use_snapshot := match current with Some s => from_height <? snapshot_height s | None => false end in
    let base := if use_snapshot then base_height current else from_height in
    let candidates := List.filter (fun b => base <? fb_height b) blocks in
    if (base <? tip) && negb (match candidates with b :: _ => fb_height b =? saturating_add U64_MAX base 1 | [] => false end)
    then Ok (mkSyncResponse network_id (Unavailable (base_height current) tip))
    else
      size ← base_wire_len (if use_snapshot then current else None);
      selected ← select_blocks base 0 size (take MAX_STATE_SYNC_BLOCKS candidates);
      _ ← fail_if (bool_decide (selected = []) && (base <? tip) && negb use_snapshot) CoTooLarge;
      match current with
      | Some s => if use_snapshot then Ok (mkSyncResponse network_id (Snapshot s selected))
                  else Ok (mkSyncResponse network_id (Blocks selected))
      | None => Ok (mkSyncResponse network_id (Blocks selected))
      end.
Definition response_locked (from_height : Z) : io_m StateSyncResponse :=
  current ← read_snapshot_locked;
  _ ← io_lift (fail_if (match current with
        | Some s => negb (bool_decide (snapshot_network_id s = ac_network_id cfg)) | None => false end)
        (CoStorage (lit "stored consensus snapshot belongs to another network")));
  rows ← read_blocks_locked;
  let blocks := retained (base_height current) rows in
  _ ← io_lift (verify_chain (base_height current) (base_hash current) blocks);
  io_lift (response_of current blocks from_height).
Definition fa_response (request : StateSyncRequest) : io_m StateSyncResponse :=
  if negb (bool_decide (yq_network_id request = ac_network_id cfg))
  then mret (mkSyncResponse (ac_network_id cfg) WrongNetwork)
  else with_lock (response_locked (yq_from_height request)).
Definition recovery_response : io_m StateSyncResponse := fa_response (mkSyncRequest (ac_network_id cfg) 0).
End Config.

(** ** The archive a node holds *)
Record FileArchive := mkFileArchive { fa_config : ConsensusArchiveConfig; fa_disk : Disk; fa_draws : draws }.
Definition run_archive {X} (m : ConsensusArchiveConfig -> io_m X) (a : FileArchive) : FileArchive * result ConsensusError X :=
  let '((d, ds), r) := m (fa_config a) (fa_disk a, fa_draws a) in (mkFileArchive (fa_config a) d ds, r).
(** [open] validates the policy; a new directory is empty. *)
Definition empty_disk : Disk := mkDisk None ∅ ∅ None.
Definition archive_open (d : Disk) (cfg : ConsensusArchiveConfig) (ds : draws) : result ConsensusError FileArchive :=
  cfg ← archive_config_validate cfg;
  Ok (mkFileArchive cfg d ds).
#[global] Instance file_archive : Archive FileArchive := {|
  archive_network_id := fun a => ac_network_id (fa_config a);
  record_verified_batch := fun a blocks s => run_archive (fun cfg => fa_record_verified_batch cfg blocks s) a;
  install_verified_response := fun a r s => run_archive (fun cfg => fa_install_verified_response cfg r s) a;
  archive_response := fun a q => run_archive (fun cfg => fa_response cfg q) a;
|}.
End Archive.
