(* ===== verification/ArchiveFacts.v ===== *)
(** * ArchiveFacts: programs on a directory that can stop at any step

    The triple of an interruptible program, the block files of a list of
    blocks, and what reading, clearing, pruning and writing them leaves,
    whether the program gets to its end or not. *)

From Stdlib Require Import ZArith Lia.
From stdpp Require Import base list gmap sets strings sorting.
From S2P Require Import Prelude Codec Crypto Identity Kel Chain Economy Settlement Shielded Execution LedgerSnapshot Wire WireTheorems StateSync Node Archive.
Open Scope Z_scope.

(** ** Triples
    From a disk in [Pre] the program either ends with its result and disk in
    [Post], or it stops at a drawn fault with the disk in [Inv].  Without
    faults it ends. *)
Definition io_triple {X} (Pre : Disk -> Prop) (m : io_m X) (Post : X -> Disk -> Prop) (Inv : Disk -> Prop) : Prop :=
  forall d ds, Pre d ->
    match m (d, ds) with
    | ((d', ds'), Ok x) => Post x d' /\ (ds = [] -> ds' = [])
    | ((d', _), Err _) => Inv d' /\ ds <> []
    end.

Section Triples.
Context {X Y : Type}.
Implicit Types (Pre Inv : Disk -> Prop).
Lemma io_ret_t Pre (x : X) Inv : io_triple Pre (mret x) (fun y d => y = x /\ Pre d) Inv.
Proof. by intros d ds. Qed.
Lemma io_lift_t Pre (x : X) Inv : io_triple Pre (io_lift (Ok x)) (fun y d => y = x /\ Pre d) Inv.
Proof. by intros d ds. Qed.
Lemma io_disk_t Pre Inv : io_triple Pre io_disk (fun y d => y = d /\ Pre d) Inv.
Proof. by intros d ds. Qed.
Lemma io_bind_t Pre (m : io_m X) Mid (f : X -> io_m Y) Post Inv :
  io_triple Pre m Mid Inv -> (forall x, io_triple (Mid x) (f x) Post Inv) -> io_triple Pre (m ≫= f) Post Inv.
Proof.
  intros Hm Hf d ds Hd. specialize (Hm d ds Hd). unfold mbind, io_bind. destruct (m (d, ds)) as [[d1 ds1] [x|e]]; [|done].
  destruct Hm as [H1 H2]. specialize (Hf x d1 ds1 H1). destruct (f x (d1, ds1)) as [[d2 ds2] [y|e]]; destruct Hf as [H3 H4].
  - split; [done|]. intros E. by apply H4, H2.
  - split; [done|]. intros E. by apply H4, H2.
Qed.
Lemma io_weaken Pre Pre' (m : io_m X) Post Post' Inv Inv' :
  io_triple Pre m Post Inv -> (forall d, Pre' d -> Pre d) -> (forall x d, Post x d -> Post' x d) -> (forall d, Inv d -> Inv' d) ->
  io_triple Pre' m Post' Inv'.
Proof.
  intros H H1 H2 H3 d ds Hd. specialize (H d ds (H1 d Hd)). destruct (m (d, ds)) as [[d1 ds1] [x|e]]; destruct H; split; auto.
Qed.
Lemma io_pure Pre Pre' (m : io_m X) Post Inv : (forall d, Pre d -> io_triple (eq d) m Post Inv) -> Pre' = Pre -> io_triple Pre' m Post Inv.
Proof. intros H -> d ds Hd. by apply (H d Hd). Qed.
Lemma io_step_t Pre effect torn Inv : (forall d, Pre d -> Inv d) -> (forall d, Pre d -> Inv (effect d)) ->
  (forall d n, Pre d -> Inv (torn n d)) -> io_triple Pre (io_step effect torn) (fun _ d' => exists d, Pre d /\ d' = effect d) Inv.
Proof.
  intros H1 H2 H3 d ds Hd. unfold io_step. destruct ds as [|[[[|n|] e]|] ds]; cbn; split; eauto; done.
Qed.
Lemma touch_t Pre Inv : (forall d, Pre d -> Inv d) -> io_triple Pre touch (fun _ => Pre) Inv.
Proof. intros H d ds Hd. unfold touch, io_step. destruct ds as [|[[[|n|] e]|] ds]; cbn; split; auto; done. Qed.
End Triples.

(** On one disk: a result that is already there, and a step whose result is
    known. *)
Lemma io_ok_t {X Y} D (r : result ConsensusError X) x (f : X -> io_m Y) Post (Inv : Disk -> Prop) : r = Ok x ->
  io_triple (fun d => d = D) (f x) Post Inv -> io_triple (fun d => d = D) (io_lift r ≫= f) Post Inv.
Proof. intros -> H d ds Hd. exact (H d ds Hd). Qed.
Lemma io_seq_t {X Y} D (m : io_m X) v D' (f : X -> io_m Y) Post (Inv : Disk -> Prop) : io_triple (fun d => d = D) m (fun x d => x = v /\ d = D') Inv ->
  io_triple (fun d => d = D') (f v) Post Inv -> io_triple (fun d => d = D) (m ≫= f) Post Inv.
Proof. intros Hm Hf. eapply io_bind_t; [exact Hm|]. intros x d ds [-> ->]. by apply Hf. Qed.
Lemma io_unit_t {Y} D (m : io_m unit) D' (f : unit -> io_m Y) Post (Inv : Disk -> Prop) : io_triple (fun d => d = D) m (fun _ d => d = D') Inv ->
  io_triple (fun d => d = D') (f tt) Post Inv -> io_triple (fun d => d = D) (m ≫= f) Post Inv.
Proof. intros Hm Hf. eapply io_bind_t; [exact Hm|]. by intros []. Qed.
Lemma io_done_t {X} D (x : X) (Inv : Disk -> Prop) : io_triple (fun d => d = D) (mret x) (fun y d => y = x /\ d = D) Inv.
Proof. by intros d ds ->. Qed.

(** A loop with one assertion per prefix done. *)
Lemma io_each_t {X} (f : X -> io_m unit) (l : list X) (I : list X -> Disk -> Prop) Inv :
  (forall pre x post, l = pre ++ x :: post -> io_triple (I pre) (f x) (fun _ => I (pre ++ [x])) Inv) ->
  io_triple (I []) (io_each f l) (fun _ => I l) Inv.
Proof.
  intros H. assert (forall post pre, l = pre ++ post -> io_triple (I pre) (io_each f post) (fun _ => I l) Inv) as Hg; [|by apply Hg].
  induction post as [|x post IH]; intros pre E; cbn [io_each].
  - rewrite app_nil_r in E. subst. by intros d ds Hd.
  - eapply io_bind_t; [by apply (H pre x post)|]. intros ?. apply IH. by rewrite <- app_assoc.
Qed.

(** ** The files of a list of blocks *)
Section Rows.
Context {P : Primitives}.
Definition enc (b : FinalizedBlock) : bytes := match block_to_wire b with Ok x => x | Err _ => [] end.
Definition block_row (b : FinalizedBlock) : Z * bytes := (fb_height b, enc b).
Definition rows (l : list FinalizedBlock) : gmap Z bytes := list_to_map (map block_row l).
(** A block that can be read back. *)
Definition stored (b : FinalizedBlock) : Prop := block_from_wire (enc b) = Ok b.
Definition asc (l : list FinalizedBlock) : Prop := StronglySorted (fun a b => fb_height a < fb_height b) l.
Definition file_bytes (l : list FinalizedBlock) : Z := fold_right (fun b n => Z.of_nat (length (enc b)) + n) 0 l.

Lemma stored_written b : stored b -> block_to_wire b = Ok (enc b).
Proof. apply block_from_wire_inv. Qed.
Lemma stored_len b : stored b -> Z.of_nat (length (enc b)) <= MAX_MESSAGE_BYTES.
Proof. intros H%stored_written. by apply block_to_wire_ok in H as (_ & _ & ?). Qed.
Lemma stored_inj a b : stored a -> stored b -> enc a = enc b -> a = b.
Proof. unfold stored. congruence. Qed.
Lemma stored_of_wire x b : block_from_wire x = Ok b -> stored b /\ enc b = x.
Proof. intros H. pose proof (block_from_wire_inv _ _ H) as E. unfold stored, enc. rewrite E. by split. Qed.
Lemma file_bytes_cons b l : file_bytes (b :: l) = Z.of_nat (length (enc b)) + file_bytes l.
Proof. done. Qed.
Lemma file_bytes_app l1 l2 : file_bytes (l1 ++ l2) = file_bytes l1 + file_bytes l2.
Proof. induction l1 as [|b l1 IH]; [done|]. rewrite <- app_comm_cons, !file_bytes_cons. lia. Qed.
Lemma file_bytes_pos l : 0 <= file_bytes l.
Proof. induction l as [|b l IH]; [done|]. rewrite file_bytes_cons. lia. Qed.
Lemma file_bytes_sublist l1 l2 : sublist l1 l2 -> file_bytes l1 <= file_bytes l2.
Proof. induction 1; rewrite ?file_bytes_cons; lia. Qed.

Lemma asc_heights l : asc l -> NoDup (map block_row l).*1.
Proof.
  induction 1 as [|b l _ IH Hb]; [constructor|]. cbn. apply NoDup_cons. split; [|done]. intros Hin.
  apply list_elem_of_fmap in Hin as (r & E & Hr). apply list_elem_of_fmap in Hr as (b' & -> & Hb').
  rewrite Forall_forall in Hb. specialize (Hb b' Hb'). cbn in E. lia.
Qed.
Lemma asc_app l1 l2 : asc (l1 ++ l2) <-> asc l1 /\ asc l2 /\ (forall a b, a ∈ l1 -> b ∈ l2 -> fb_height a < fb_height b).
Proof. unfold asc. rewrite StronglySorted_app. naive_solver. Qed.
Lemma rows_lookup l b : asc l -> b ∈ l -> rows l !! fb_height b = Some (enc b).
Proof.
  intros Hl Hb. apply elem_of_list_to_map_1; [by apply asc_heights|]. apply list_elem_of_fmap. by exists b.
Qed.
Lemma rows_fresh l h : (forall b, b ∈ l -> fb_height b <> h) -> rows l !! h = None.
Proof.
  intros H. apply not_elem_of_list_to_map_1. intros (r & E & Hr)%list_elem_of_fmap. apply list_elem_of_fmap in Hr as (b & -> & Hb).
  by apply (H b).
Qed.
Lemma rows_snoc l b : asc (l ++ [b]) -> rows (l ++ [b]) = <[fb_height b := enc b]> (rows l).
Proof.
  intros (_ & _ & H)%asc_app. unfold rows. rewrite map_app, list_to_map_app. cbn.
  rewrite !insert_union_singleton_l, map_union_empty. apply map_union_comm. apply map_disjoint_singleton_r.
  apply rows_fresh. intros a Ha. specialize (H a b Ha ltac:(by left)). lia.
Qed.
Lemma rows_tail b l : asc (b :: l) -> delete (fb_height b) (rows (b :: l)) = rows l.
Proof.
  intros H. unfold rows. cbn. apply delete_insert_id. apply rows_fresh. intros a Ha. apply StronglySorted_cons in H as [Hb _].
  rewrite Forall_forall in Hb. specialize (Hb a Ha). lia.
Qed.
Lemma rows_listing l : asc l -> map_to_list (rows l) ≡ₚ map block_row l.
Proof. intros H. apply map_to_list_to_map. by apply asc_heights. Qed.
End Rows.

(** ** Reading the directory *)
Definition temps_of (t : option (Z * bytes)) : gmap Z bytes := match t with Some (h, x) => {[h := x]} | None => ∅ end.
Definition temp_bytes (t : option (Z * bytes)) : Z := match t with Some (_, x) => Z.of_nat (length x) | None => 0 end.

Section Reading.
Context {P : Primitives}.
Context (dir_order : list (bool * (Z * bytes)) -> list (bool * (Z * bytes))) (dir_perm : forall l, dir_order l ≡ₚ l).

(** The snapshot file, the blocks, an interrupted write and the journal. *)
Definition disk_at (sf : option bytes) (l : list FinalizedBlock) (t : option (Z * bytes)) (p : option bytes) : Disk :=
  mkDisk sf (rows l) (temps_of t) p.
(** What a directory must be for [read_blocks_locked] to return. *)
Record readable (l : list FinalizedBlock) (t : option (Z * bytes)) : Prop := {
  rd_asc : asc l;
  rd_stored : Forall stored l;
  rd_entries : Z.of_nat (length l) + (if t then 1 else 0) <= MAX_ARCHIVE_DIRECTORY_ENTRIES;
  rd_bytes : file_bytes l + temp_bytes t <= MAX_ARCHIVE_RECOVERY_BYTES;
  rd_temp : temp_bytes t <= MAX_MESSAGE_BYTES;
}.

Definition entry_fine (e : bool * (Z * bytes)) : Prop :=
  Z.of_nat (length e.2.2) <= MAX_MESSAGE_BYTES /\ (e.1 = false -> exists b, block_from_wire e.2.2 = Ok b /\ fb_height b = e.2.1).
Definition entry_row (e : bool * (Z * bytes)) : option FinalizedBlock :=
  if e.1 then None else match block_from_wire e.2.2 with Ok b => Some b | Err _ => None end.
Definition entry_temp (e : bool * (Z * bytes)) : option Z := if e.1 then Some e.2.1 else None.
Definition entries_bytes (es : list (bool * (Z * bytes))) : Z := fold_right (fun e n => Z.of_nat (length e.2.2) + n) 0 es.
#[local] Instance entries_bytes_perm : Proper ((≡ₚ) ==> (=)) entries_bytes.
Proof. intros l l' E. unfold entries_bytes. induction E; cbn [fold_right] in *; lia. Qed.
Lemma entries_bytes_pos es : 0 <= entries_bytes es.
Proof. unfold entries_bytes. induction es; cbn [fold_right]; lia. Qed.

Definition listed (l : Listing) (e : bool * (Z * bytes)) : Listing :=
  mkListing (li_entries l + 1) (li_total_bytes l + Z.of_nat (length e.2.2))
    (li_stale_temps l ++ (if e.1 then [e.2.1] else [])) (li_rows l ++ match entry_row e with Some b => [b] | None => [] end).
Lemma recovery_fits : MAX_ARCHIVE_RECOVERY_BYTES <= USIZE_MAX.
Proof. vm_compute. discriminate. Qed.
Lemma read_entry_ok l e : entry_fine e -> li_entries l + 1 <= MAX_ARCHIVE_DIRECTORY_ENTRIES ->
  li_total_bytes l + Z.of_nat (length e.2.2) <= MAX_ARCHIVE_RECOVERY_BYTES -> read_entry l e = Ok (listed l e).
Proof.
  intros [Hx Hd] Hn Ht. destruct e as [tmp [h x]]. cbn [fst snd] in *. pose proof recovery_fits. unfold read_entry, co_add.
  rewrite !(proj2 (Z.ltb_ge _ _)) by lia. cbn [fail_if mbind result_bind]. rewrite !(proj2 (Z.ltb_ge _ _)) by lia.
  cbn [fail_if mbind result_bind]. unfold listed, entry_row. cbn [fst snd]. destruct tmp; [by rewrite app_nil_r|].
  destruct (Hd eq_refl) as (b & Hb & Hh). rewrite Hb, app_nil_r. cbn [mbind result_bind]. change (bh_height (fb_header b)) with (fb_height b).
  by rewrite Hh, Z.eqb_refl.
Qed.
Lemma read_entries es l : Forall entry_fine es -> li_entries l + Z.of_nat (length es) <= MAX_ARCHIVE_DIRECTORY_ENTRIES ->
  li_total_bytes l + entries_bytes es <= MAX_ARCHIVE_RECOVERY_BYTES -> exists l', foldM read_entry l es = Ok l' /\
    li_stale_temps l' = li_stale_temps l ++ omap entry_temp es /\ li_rows l' = li_rows l ++ omap entry_row es.
Proof.
  intros H. revert l. induction H as [|e es He _ IH]; intros l Hn Ht; [exists l; by rewrite !app_nil_r|].
  unfold entries_bytes in Ht. cbn [fold_right length foldM] in *. fold (entries_bytes es) in Ht. pose proof (entries_bytes_pos es).
  rewrite read_entry_ok by (done || lia). cbn [mbind result_bind].
  destruct (IH (listed l e)) as (l' & E & Et & Er); [cbn [listed li_entries li_total_bytes]; lia..|].
  exists l'. split; [done|]. rewrite Et, Er. cbn [listed li_stale_temps li_rows]. rewrite <- !app_assoc.
  split; f_equal; cbn [omap list_omap]; unfold entry_temp; [by destruct e.1|by destruct (entry_row e)].
Qed.

Lemma entries_bytes_app l1 l2 : entries_bytes (l1 ++ l2) = entries_bytes l1 + entries_bytes l2.
Proof. unfold entries_bytes. induction l1 as [|e l1 IH]; [done|]. cbn [app fold_right]. lia. Qed.
Lemma entries_bytes_rows l : entries_bytes (map (fun b => (false, block_row b)) l) = file_bytes l.
Proof. induction l as [|b l IH]; [done|]. rewrite file_bytes_cons, <- IH. done. Qed.

(** What the listing of a directory holds. *)
Lemma dir_entries_perm sf l t p : asc l ->
  dir_entries dir_order (disk_at sf l t p) ≡ₚ map (fun b => (false, block_row b)) l ++ match t with Some r => [(true, r)] | None => [] end.
Proof.
  intros Hl. unfold dir_entries. rewrite dir_perm. cbn [disk_at dk_blocks dk_temps]. rewrite (rows_listing l Hl), map_map. f_equiv.
  destruct t as [[h x]|]; cbn [temps_of]; [by rewrite map_to_list_singleton|by rewrite map_to_list_empty].
Qed.
Lemma listed_rows l t : Forall stored l ->
  omap entry_row (map (fun b => (false, block_row b)) l ++ match t with Some r => [(true, r)] | None => [] end) = l.
Proof.
  intros H. rewrite omap_app. assert (omap entry_row match t with Some r => [(true, r)] | None => [] end = []) as -> by (by destruct t).
  rewrite app_nil_r. induction H as [|b l Hb _ IH]; [done|]. cbn [map omap list_omap]. unfold entry_row at 1. cbn [fst snd block_row].
  by rewrite Hb, IH.
Qed.
Lemma listed_temps l (t : option (Z * bytes)) :
  omap entry_temp (map (fun b => (false, block_row b)) l ++ match t with Some r => [(true, r)] | None => [] end) =
  match t with Some r => [r.1] | None => [] end.
Proof.
  rewrite omap_app. assert (omap entry_temp (map (fun b => (false, block_row b)) l) = []) as -> by (by induction l). by destruct t.
Qed.
Lemma readable_listing sf l t p : readable l t -> exists li, foldM read_entry (mkListing 0 0 [] []) (dir_entries dir_order (disk_at sf l t p)) = Ok li /\
  li_stale_temps li = match t with Some r => [r.1] | None => [] end /\ li_rows li ≡ₚ l.
Proof.
  intros [Ha Hs Hn Hb Ht]. pose proof (dir_entries_perm sf l t p Ha) as E. set (es := dir_entries _ _) in *.
  assert (entries_bytes es = file_bytes l + temp_bytes t) as Eb.
  { rewrite E, entries_bytes_app, entries_bytes_rows. by destruct t as [[h x]|]; cbn; rewrite ?Z.add_0_r. }
  destruct (read_entries es (mkListing 0 0 [] [])) as (li & E1 & E2 & E3).
  - rewrite E. apply Forall_app. split; [|destruct t as [[h x]|]; [|constructor]; constructor; [|constructor]; by split].
    apply Forall_map. eapply Forall_impl; [exact Hs|]. intros b Hsb. split; [by apply stored_len|]. intros _. by exists b.
  - cbn [li_entries]. rewrite E, length_app, length_map. destruct t; cbn [length] in *; lia.
  - cbn [li_total_bytes]. lia.
  - exists li. split; [done|]. cbn [li_stale_temps li_rows app] in *. split.
    + rewrite E2. assert (omap entry_temp es ≡ₚ match t with Some r => [r.1] | None => [] end) as Et by (by rewrite E, listed_temps).
      destruct t as [r|]; [by apply Permutation_singleton_r in Et|by apply Permutation_nil_r in Et].
    + rewrite E3, E. by rewrite listed_rows.
Qed.

#[local] Instance by_height_total : Total by_height.
Proof. intros a b. unfold by_height. lia. Qed.
#[local] Instance by_height_trans : Transitive by_height.
Proof. intros a b c. unfold by_height. lia. Qed.
Lemma asc_inj l a b : asc l -> a ∈ l -> b ∈ l -> fb_height a = fb_height b -> a = b.
Proof.
  induction 1 as [|c l _ IH Hc]; intros Ha Hb E; [by apply elem_of_nil in Ha|]. rewrite Forall_forall in Hc.
  apply elem_of_cons in Ha as [->|Ha]; apply elem_of_cons in Hb as [->|Hb]; [done| | |by apply IH];
    [specialize (Hc b Hb)|specialize (Hc a Ha)]; lia.
Qed.
Lemma asc_by_height l : asc l -> StronglySorted by_height l.
Proof.
  induction 1 as [|a l _ IH Ha]; constructor; [done|]. eapply Forall_impl; [exact Ha|]. intros b. unfold by_height. lia.
Qed.
Lemma asc_sorts l l' : asc l -> l' ≡ₚ l -> merge_sort by_height l' = l.
Proof.
  intros Hl E. apply (StronglySorted_unique_strong by_height).
  - intros a b Ha Hb H1 H2. rewrite merge_sort_Permutation, E in Ha. eapply (asc_inj l); [done..|]. unfold by_height in *. lia.
  - apply StronglySorted_merge_sort; apply _.
  - by apply asc_by_height.
  - by rewrite merge_sort_Permutation.
Qed.
Lemma asc_strictly l : asc l -> strictly_ascending l = true.
Proof.
  induction 1 as [|a l Hl IH Ha]; [done|]. destruct l as [|b l]; [done|].
  apply Forall_cons in Ha as [Ha _]. change (strictly_ascending (a :: b :: l)) with ((fb_height a <? fb_height b) && strictly_ascending (b :: l)).
  rewrite IH, andb_true_r. by apply Z.ltb_lt.
Qed.

Lemma remove_temp_t sf l t p h (Inv : Disk -> Prop) : (t = None \/ exists x, t = Some (h, x)) -> Inv (disk_at sf l t p) -> Inv (disk_at sf l None p) ->
  io_triple (fun d => d = disk_at sf l t p) (remove_temp h) (fun _ d => d = disk_at sf l None p) Inv.
Proof.
  intros Ht H1 H2. assert (set_temps (delete h (dk_temps (disk_at sf l t p))) (disk_at sf l t p) = disk_at sf l None p) as E.
  { destruct Ht as [->|[x ->]]; unfold disk_at, set_temps; cbn [dk_snapshot dk_blocks dk_temps dk_pending temps_of];
      [by rewrite delete_empty|by rewrite delete_singleton_eq]. }
  eapply io_weaken; [apply (io_step_t (fun d => d = disk_at sf l t p) _ _ Inv)|..]; try done.
  - by intros d ->.
  - intros d ->. by rewrite E.
  - by intros d n ->.
  - intros x d (d0 & -> & ->). exact E.
Qed.
Lemma read_blocks_t sf l t p (Inv : Disk -> Prop) : readable l t -> Inv (disk_at sf l t p) -> Inv (disk_at sf l None p) ->
  io_triple (fun d => d = disk_at sf l t p) (read_blocks_locked dir_order) (fun x d => x = l /\ d = disk_at sf l None p) Inv.
Proof.
  intros Hr H1 H2. destruct (readable_listing sf l t p Hr) as (li & E1 & E2 & E3). unfold read_blocks_locked.
  eapply io_bind_t; [apply touch_t; by intros d ->|]. intros [].
  eapply io_bind_t; [apply io_disk_t|]. intros d0. eapply io_pure; [|done]. intros d [-> ->].
  eapply (io_bind_t _ _ (fun x d => x = li /\ d = disk_at sf l t p)); [rewrite E1; by intros ? ? <-|].
  intros li'. eapply io_pure; [|done]. intros d [-> ->]. rewrite E2.
  eapply (io_bind_t _ _ (fun _ d => d = disk_at sf l None p)).
  { eapply (io_weaken (fun d => d = disk_at sf l t p)); [|by intros ? <-|by intros ? ? H; apply H|by intros ? H; apply H].
    destruct t as [[h x]|]; [|by intros ? ? ->]. cbn [io_each fst]. eapply (io_bind_t _ _ (fun _ d => d = disk_at sf l None p)); [|by intros [] ? ? ->].
    apply remove_temp_t; eauto. }
  intros []. eapply (io_bind_t _ _ (fun _ d => d = disk_at sf l None p)).
  { destruct (decide _); [by intros ? ? ->|]. apply touch_t. by intros ? ->. }
  intros []. cbv zeta. rewrite (asc_sorts l _ (rd_asc _ _ Hr) E3), (asc_strictly l (rd_asc _ _ Hr)). by intros ? ? ->.
Qed.

(** The snapshot file and what it reads as. *)
Definition snap_read (sf : option bytes) (s : option ConsensusSnapshot) : Prop :=
  match sf, s with Some b, Some s => snapshot_from_wire b = Ok s | None, None => True | _, _ => False end.
Lemma read_limited_t file max x D (Inv : Disk -> Prop) : file D = x -> (forall b, x = Some b -> Z.of_nat (length b) <= max) -> Inv D ->
  io_triple (fun d => d = D) (read_limited file max) (fun y d => y = x /\ d = D) Inv.
Proof.
  intros E Hx Hi. unfold read_limited. eapply io_bind_t; [apply touch_t; by intros ? ->|]. intros []. intros d ds ->.
  unfold mbind, io_bind, io_disk. cbn [fst]. rewrite E. destruct x as [b|]; [|done]. rewrite (proj2 (Z.ltb_ge _ _)) by auto. done.
Qed.
Lemma read_snapshot_t sf s l t p (Inv : Disk -> Prop) : snap_read sf s -> Inv (disk_at sf l t p) ->
  io_triple (fun d => d = disk_at sf l t p) read_snapshot_locked (fun x d => x = s /\ d = disk_at sf l t p) Inv.
Proof.
  intros Hs Hi. unfold read_snapshot_locked. eapply io_bind_t; [apply (read_limited_t _ _ sf); [done| |done]|].
  - intros b ->. destruct s as [s|]; [|done]. cbn in Hs. unfold snapshot_from_wire in Hs. apply bind_ok in Hs as (? & H & _).
    apply fail_if_ok in H. by apply Z.ltb_ge in H.
  - intros x d ds [-> ->]. destruct sf as [b|], s as [s|]; try done. cbn in Hs. unfold mbind, io_bind, io_lift. by rewrite Hs.
Qed.

(** ** Removing and writing block files *)
Lemma remove_block_t sf b l p (Inv : Disk -> Prop) : asc (b :: l) -> Inv (disk_at sf (b :: l) None p) -> Inv (disk_at sf l None p) ->
  io_triple (fun d => d = disk_at sf (b :: l) None p) (remove_block (fb_height b)) (fun _ d => d = disk_at sf l None p) Inv.
Proof.
  intros Ha H1 H2. assert (set_blocks (delete (fb_height b) (rows (b :: l))) (disk_at sf (b :: l) None p) = disk_at sf l None p) as E.
  { unfold set_blocks, disk_at. by rewrite rows_tail. }
  eapply io_weaken; [apply (io_step_t (fun d => d = disk_at sf (b :: l) None p) _ _ Inv)|..]; try done.
  - by intros d ->.
  - intros d ->. cbn [disk_at dk_blocks]. fold (disk_at sf (b :: l) None p). by rewrite E.
  - by intros d n ->.
  - intros x d (d0 & -> & ->). exact E.
Qed.
Lemma asc_tail b l : asc (b :: l) -> asc l.
Proof. by intros [_ ?]%StronglySorted_cons. Qed.
(** Removing a leading part, in order. *)
Lemma remove_each_t sf l1 l2 p (Inv : Disk -> Prop) : asc (l1 ++ l2) -> (forall l', suffix l' l1 -> Inv (disk_at sf (l' ++ l2) None p)) ->
  io_triple (fun d => d = disk_at sf (l1 ++ l2) None p) (io_each (fun b => remove_block (fb_height b)) l1) (fun _ d => d = disk_at sf l2 None p) Inv.
Proof.
  induction l1 as [|b l1 IH]; intros Ha Hi; cbn [io_each app] in *; [by intros ? ? ->|].
  eapply io_bind_t; [apply remove_block_t|]; [done|by apply (Hi (b :: l1))| |].
  - apply (Hi l1). by apply suffix_cons_r.
  - intros []. apply IH; [by apply asc_tail in Ha|]. intros l' Hl. apply Hi. by apply suffix_cons_r.
Qed.
Lemma clear_blocks_t sf l t p (Inv : Disk -> Prop) : readable l t -> Inv (disk_at sf l t p) ->
  (forall l', suffix l' l -> Inv (disk_at sf l' None p)) ->
  io_triple (fun d => d = disk_at sf l t p) (clear_blocks_locked dir_order) (fun _ d => d = disk_at sf [] None p) Inv.
Proof.
  intros Hr H1 H2. unfold clear_blocks_locked. eapply io_bind_t; [apply read_blocks_t; [done|done|by apply H2]|].
  intros x. eapply io_pure; [|done]. intros d [-> ->].
  eapply (io_bind_t _ _ (fun _ d => d = disk_at sf [] None p)).
  - eapply (io_weaken (fun d => d = disk_at sf (l ++ []) None p)); [apply (remove_each_t sf l [] p Inv)| |done|done].
    + rewrite app_nil_r. apply Hr.
    + intros l' Hl. rewrite app_nil_r. by apply H2.
    + intros ? <-. by rewrite app_nil_r.
  - intros []. apply touch_t. intros ? ->. apply H2. apply suffix_nil.
Qed.

(** The blocks above a height are the end of an ascending list. *)
Lemma retained_split h l : asc l -> exists low, l = low ++ retained h l /\ Forall (fun b => fb_height b <= h) low.
Proof.
  induction 1 as [|b l Hl IH Hb]; [by exists []|]. unfold retained in *. cbn [List.filter]. destruct (Z.ltb_spec h (fb_height b)).
  - exists []. split; [|done]. cbn. f_equal. symmetry. clear IH Hl. induction Hb as [|c l Hc _ IH]; [done|]. cbn.
    rewrite (proj2 (Z.ltb_lt _ _)) by lia. by rewrite IH.
  - destruct IH as (low & E & Hlow). exists (b :: low). split; [cbn; by rewrite <- E|by constructor].
Qed.
Lemma retained_low h low : Forall (fun b => fb_height b <= h) low -> retained h low = [].
Proof. induction 1 as [|b l Hb _ IH]; [done|]. unfold retained. cbn. by rewrite (proj2 (Z.ltb_ge _ _)) by lia. Qed.
Lemma retained_app h l1 l2 : retained h (l1 ++ l2) = retained h l1 ++ retained h l2.
Proof. apply List.filter_app. Qed.
Lemma retained_all h l : Forall (fun b => h < fb_height b) l -> retained h l = l.
Proof. induction 1 as [|b l Hb _ IH]; [done|]. unfold retained in *. cbn [List.filter]. by rewrite (proj2 (Z.ltb_lt _ _) Hb), IH. Qed.
Lemma retained_cons h b l : retained h (b :: l) = if h <? fb_height b then b :: retained h l else retained h l.
Proof. done. Qed.
Lemma retained_idem h l : retained h (retained h l) = retained h l.
Proof.
  induction l as [|b l IH]; [done|]. rewrite retained_cons. destruct (h <? fb_height b) eqn:E; [|done]. by rewrite retained_cons, E, IH.
Qed.
Lemma retained_higher h1 h2 l : h1 <= h2 -> retained h2 (retained h1 l) = retained h2 l.
Proof.
  intros H. induction l as [|b l IH]; [done|]. rewrite !retained_cons. destruct (Z.ltb_spec h1 (fb_height b)).
  - by rewrite retained_cons, IH.
  - by rewrite (proj2 (Z.ltb_ge _ _)) by lia.
Qed.
Lemma asc_above h b l : asc (b :: l) -> h < fb_height b -> Forall (fun b => h < fb_height b) (b :: l).
Proof.
  intros [Hb _]%StronglySorted_cons H. constructor; [done|]. eapply Forall_impl; [exact Hb|]. intros c Hc. cbn in Hc. lia.
Qed.
Definition prune_row (h : Z) (b : FinalizedBlock) : io_m unit := if fb_height b <=? h then remove_block (fb_height b) else mret tt.
Lemma skip_rows h l D (Inv : Disk -> Prop) : Forall (fun b => h < fb_height b) l ->
  io_triple (fun d => d = D) (io_each (prune_row h) l) (fun _ d => d = D) Inv.
Proof.
  induction 1 as [|b l Hb _ IH]; cbn [io_each]; [by intros ? ? ->|]. eapply (io_bind_t _ _ (fun _ d => d = D)); [|by intros []].
  unfold prune_row. rewrite (proj2 (Z.leb_gt _ _) Hb). by intros ? ? ->.
Qed.
Lemma prune_rows h sf l p (Inv : Disk -> Prop) : asc l ->
  (forall l', suffix l' l -> retained h l' = retained h l -> Inv (disk_at sf l' None p)) ->
  io_triple (fun d => d = disk_at sf l None p) (io_each (prune_row h) l) (fun _ d => d = disk_at sf (retained h l) None p) Inv.
Proof.
  induction l as [|b l IH]; intros Ha Hi; [by intros ? ? ->|]. destruct (Z.lt_ge_cases h (fb_height b)) as [Hb|Hb].
  - pose proof (asc_above h b l Ha Hb) as Hall. rewrite (retained_all h _ Hall). by apply skip_rows.
  - assert (retained h (b :: l) = retained h l) as E by (by rewrite retained_cons, (proj2 (Z.ltb_ge _ _) Hb)). rewrite E in *.
    cbn [io_each]. eapply (io_bind_t _ _ (fun _ d => d = disk_at sf l None p)).
    + unfold prune_row. rewrite (proj2 (Z.leb_le _ _) Hb). apply remove_block_t; [done|by apply Hi|]. apply Hi; [by apply suffix_cons_r|done].
    + intros []. apply IH; [by apply asc_tail in Ha|]. intros l' Hl. apply Hi. by apply suffix_cons_r.
Qed.
Lemma prune_blocks_t sf h l t p (Inv : Disk -> Prop) : readable l t -> Inv (disk_at sf l t p) ->
  (forall l', suffix l' l -> retained h l' = retained h l -> Inv (disk_at sf l' None p)) ->
  io_triple (fun d => d = disk_at sf l t p) (prune_blocks_through_locked dir_order h) (fun _ d => d = disk_at sf (retained h l) None p) Inv.
Proof.
  intros Hr H1 H2. unfold prune_blocks_through_locked. eapply io_bind_t; [apply read_blocks_t; [done|done|by apply H2]|].
  intros x. eapply io_pure; [|done]. intros d [-> ->].
  eapply (io_bind_t _ _ (fun _ d => d = disk_at sf (retained h l) None p)).
  - eapply io_weaken; [apply (prune_rows h sf l p Inv)|..]; [apply Hr|done|by intros ? <-|done|done].
  - intros []. apply touch_t. intros ? ->. apply H2; [|apply retained_idem].
    destruct (retained_split h l (rd_asc _ _ Hr)) as (low & E & _). by exists low.
Qed.
(** Appending block files in order. *)
Lemma write_block_t sf l b p (Inv : Disk -> Prop) : asc (l ++ [b]) -> Inv (disk_at sf l None p) ->
  (forall n, Inv (disk_at sf l (Some (fb_height b, take n (enc b))) p)) -> Inv (disk_at sf (l ++ [b]) None p) ->
  io_triple (fun d => d = disk_at sf l None p) (write_block (fb_height b) (enc b)) (fun _ d => d = disk_at sf (l ++ [b]) None p) Inv.
Proof.
  intros Ha H1 H2 H3. assert (set_blocks (<[fb_height b := enc b]> (rows l)) (set_temps (delete (fb_height b) ∅) (disk_at sf l None p)) =
    disk_at sf (l ++ [b]) None p) as E by (unfold set_blocks, set_temps, disk_at; rewrite rows_snoc, delete_empty; done).
  unfold write_block. eapply io_bind_t; [apply remove_temp_t; [by left|done|done]|]. intros [].
  eapply io_weaken; [apply (io_step_t (fun d => d = disk_at sf l None p) _ _ Inv)|..]; try done.
  - by intros d ->.
  - intros d ->. by rewrite <- E in H3.
  - intros d n ->. apply (H2 n).
  - intros x d (d0 & -> & ->). exact E.
Qed.
Lemma write_rows_t sf l w p (Inv : Disk -> Prop) : asc (l ++ w) ->
  (forall w1 w2, w = w1 ++ w2 -> Inv (disk_at sf (l ++ w1) None p)) ->
  (forall w1 b w2 n, w = w1 ++ b :: w2 -> Inv (disk_at sf (l ++ w1) (Some (fb_height b, take n (enc b))) p)) ->
  io_triple (fun d => d = disk_at sf l None p) (io_each (fun r => write_block r.1 r.2) (map block_row w)) (fun _ d => d = disk_at sf (l ++ w) None p) Inv.
Proof.
  revert l. induction w as [|b w IH]; intros l Ha H1 H2; cbn [map io_each]; [rewrite app_nil_r; by intros ? ? ->|].
  assert (asc (l ++ [b])) as Hb. { change (b :: w) with ([b] ++ w) in Ha. rewrite app_assoc in Ha. by apply asc_app in Ha as [? _]. }
  eapply io_bind_t.
  - cbn [block_row fst snd]. apply write_block_t; [done|rewrite <- (app_nil_r l); by eapply (H1 [])|intros n|by eapply (H1 [b])].
    rewrite <- (app_nil_r l). by eapply (H2 []).
  - intros []. change (b :: w) with ([b] ++ w). rewrite app_assoc. apply IH; [by rewrite <- app_assoc| |].
    + intros w1 w2 ->. rewrite <- app_assoc. by eapply (H1 (b :: w1)).
    + intros w1 c w2 n ->. rewrite <- app_assoc. by eapply (H2 (b :: w1)).
Qed.
End Reading.
