(* ===== verification/ArchivePlans.v ===== *)
(** * ArchivePlans: what recording a batch adds to an archive

    Which of a batch's blocks are new ([grow]), that the planning loop finds
    exactly those, from any point of an interrupted recording, and what its
    plan is. *)

From Stdlib Require Import ZArith Lia.
From stdpp Require Import base list gmap sets strings sorting.
From S2P Require Import Prelude Codec Crypto Identity Kel Chain Economy Settlement Shielded Execution LedgerSnapshot Wire WireTheorems StateSync Node Archive ArchiveFacts.
Open Scope Z_scope.

(** ** Programs that may refuse
    On a disk in [I] the program leaves a disk in [I], and what it returns is
    in [Q]. *)
Definition io_safe {X} (I : Disk -> Prop) (m : io_m X) (Q : X -> Prop) : Prop :=
  forall d ds, I d -> I (m (d, ds)).1.1 /\ (ds = [] -> (m (d, ds)).1.2 = []) /\ forall x, (m (d, ds)).2 = Ok x -> Q x.
Lemma io_safe_bind {X Y} I (m : io_m X) Q (f : X -> io_m Y) R : io_safe I m Q -> (forall x, Q x -> io_safe I (f x) R) -> io_safe I (m ≫= f) R.
Proof.
  intros Hm Hf d ds Hd. destruct (Hm d ds Hd) as (H1 & H2 & H3). unfold mbind, io_bind.
  destruct (m (d, ds)) as [[d1 ds1] [x|e]]; cbn [fst snd] in *; [|by repeat split].
  destruct (Hf x (H3 x eq_refl) d1 ds1 H1) as (H4 & H5 & H6). split; [done|]. split; [|done]. intros E. by apply H5, H2.
Qed.
Lemma io_safe_lift {X} I (r : result ConsensusError X) : io_safe I (io_lift r) (fun x => r = Ok x).
Proof. by intros d ds Hd. Qed.
Lemma io_safe_ret {X} I (x : X) : io_safe I (mret x) (fun y => y = x).
Proof. intros d ds Hd. split; [done|]. split; [done|]. by intros y [= <-]. Qed.
Lemma io_safe_triple {X} (I : Disk -> Prop) (m : io_m X) (Post : X -> Disk -> Prop) (Q : X -> Prop) :
  (forall D, I D -> io_triple (fun d => d = D) m Post I) -> (forall x d, Post x d -> I d /\ Q x) -> io_safe I m Q.
Proof.
  intros H HQ d ds Hd. specialize (H d Hd d ds eq_refl). destruct (m (d, ds)) as [[d1 ds1] [x|e]]; cbn [fst snd]; destruct H as [H1 H2].
  - apply HQ in H1 as [H1 H3]. split; [done|]. split; [done|]. by intros y [= <-].
  - split; [done|]. by split.
Qed.
Lemma io_safe_weaken {X} I (m : io_m X) (Q R : X -> Prop) : io_safe I m Q -> (forall x, Q x -> R x) -> io_safe I m R.
Proof. intros H HQ d ds Hd. destruct (H d ds Hd) as (H1 & H2 & H3). auto. Qed.

Section Plans.
Context {P : Primitives}.
Implicit Types (s : option ConsensusSnapshot) (l w : list FinalizedBlock).

(** ** Linked blocks *)
Definition chained s l : Prop := verify_chain (base_height s) (base_hash s) l = Ok tt.
Lemma verify_chain_cons h x b l : verify_chain h x (b :: l) = Ok tt <->
  h < U64_MAX /\ fb_height b = h + 1 /\ bh_prev_hash (fb_header b) = x /\ verify_chain (fb_height b) (header_hash (fb_header b)) l = Ok tt.
Proof.
  cbn [verify_chain]. destruct (Z.ltb_spec h U64_MAX) as [Hh|Hh]; cbn [mbind result_bind]; [|split; [done|lia]].
  destruct (Z.eqb_spec (fb_height b) (h + 1)) as [E|E]; cbn [negb fail_if mbind result_bind]; [|split; [done|naive_solver]].
  destruct (decide (bh_prev_hash (fb_header b) = x)) as [E'|E'];
    [rewrite bool_decide_eq_true_2 by done|rewrite bool_decide_eq_false_2 by done]; cbn [negb fail_if mbind result_bind];
    [rewrite E; naive_solver|split; [done|naive_solver]].
Qed.
Definition end_height (h : Z) l : Z := match last l with Some b => fb_height b | None => h end.
Definition end_hash (x : bytes) l : bytes := match last l with Some b => header_hash (fb_header b) | None => x end.
Lemma end_cons h x b l : end_height h (b :: l) = end_height (fb_height b) l /\ end_hash x (b :: l) = end_hash (header_hash (fb_header b)) l.
Proof. unfold end_height, end_hash. rewrite last_cons. by destruct (last l). Qed.
Lemma verify_chain_app h x l1 l2 : verify_chain h x (l1 ++ l2) = Ok tt <->
  verify_chain h x l1 = Ok tt /\ verify_chain (end_height h l1) (end_hash x l1) l2 = Ok tt.
Proof.
  revert h x. induction l1 as [|b l1 IH]; intros h x; [by split; [|intros []]|].
  destruct (end_cons h x b l1) as [-> ->]. cbn [app]. rewrite !verify_chain_cons, IH. naive_solver.
Qed.
Lemma chained_heights h x l : verify_chain h x l = Ok tt -> asc l /\ Forall (fun b => h < fb_height b) l /\
  end_height h l = h + Z.of_nat (length l) /\ Forall (fun b => fb_height b <= end_height h l) l.
Proof.
  revert h x. induction l as [|b l IH]; intros h x H; [repeat split; try constructor; cbn; lia|].
  apply verify_chain_cons in H as (_ & E & _ & H). destruct (IH _ _ H) as (H1 & H2 & H3 & H4).
  destruct (end_cons h x b l) as [-> _]. split; [by constructor|]. split.
  - constructor; [lia|]. eapply Forall_impl; [exact H2|]. cbn. lia.
  - split; [rewrite H3; cbn [length]; lia|]. constructor; [|done]. rewrite H3. lia.
Qed.
Lemma tip_height_end s l : tip_height s l = end_height (base_height s) l.
Proof. done. Qed.
Lemma tip_hash_end s l : tip_hash s l = end_hash (base_hash s) l.
Proof. done. Qed.
Lemma chained_snoc s l b : chained s (l ++ [b]) <->
  chained s l /\ tip_height s l < U64_MAX /\ fb_height b = tip_height s l + 1 /\ bh_prev_hash (fb_header b) = tip_hash s l.
Proof. unfold chained. rewrite verify_chain_app, verify_chain_cons, tip_height_end, tip_hash_end. cbn [verify_chain]. naive_solver. Qed.
Lemma tip_snoc s l b : tip_height s (l ++ [b]) = fb_height b /\ tip_hash s (l ++ [b]) = header_hash (fb_header b).
Proof. unfold tip_height, tip_hash. by rewrite last_snoc. Qed.

(** ** The new blocks of a batch *)
Inductive grow s : list FinalizedBlock -> list FinalizedBlock -> list FinalizedBlock -> Prop :=
| grow_nil K : grow s K [] []
| grow_known K b bs w : fb_height b <= base_height s \/ b ∈ K -> grow s K bs w -> grow s K (b :: bs) w
| grow_new K b bs w : chained s (K ++ [b]) -> grow s (K ++ [b]) bs w -> grow s K (b :: bs) (b :: w).
Lemma grow_sublist s K bs w : grow s K bs w -> sublist w bs.
Proof. induction 1; by constructor. Qed.
Lemma grow_chained s K bs w : chained s K -> grow s K bs w -> chained s (K ++ w).
Proof.
  intros HK H. induction H as [K|K b bs w _ _ IH|K b bs w Hc _ IH]; [by rewrite app_nil_r|by apply IH|].
  rewrite (app_assoc K [b] w : K ++ b :: w = _). by apply IH.
Qed.
(** Every block of the batch is then known. *)
Lemma grow_covers s K bs w : grow s K bs w -> Forall (fun b => fb_height b <= base_height s \/ b ∈ K ++ w) bs.
Proof.
  induction 1 as [K|K b bs w Hb _ IH|K b bs w _ _ IH]; constructor; [|done| |].
  - rewrite elem_of_app. tauto.
  - right. set_solver.
  - rewrite (app_assoc K [b] w : K ++ b :: w = _). done.
Qed.
Lemma grow_all_known s K bs : Forall (fun b => fb_height b <= base_height s \/ b ∈ K) bs -> grow s K bs [].
Proof. induction 1; by constructor. Qed.
(** A recording that was interrupted after [k] blocks continues with the rest. *)
Lemma grow_resumes s K bs w k : grow s K bs w -> grow s (K ++ take k w) bs (drop k w).
Proof.
  intros H. revert k. induction H as [K|K b bs w Hb _ IH|K b bs w Hc H IH]; intros k.
  - rewrite take_nil, drop_nil. constructor.
  - apply grow_known; [|apply IH]. rewrite elem_of_app. tauto.
  - destruct k as [|k]; cbn [take drop]; [rewrite app_nil_r; by apply grow_new|].
    rewrite (app_assoc K [b] (take k w) : K ++ b :: take k w = _). apply grow_known; [|apply IH]. right. set_solver.
Qed.

(** ** The planning loop *)
Lemma co_add_ok a b : a + b <= USIZE_MAX -> co_add a b = Ok (a + b).
Proof. intros H. unfold co_add. by rewrite (proj2 (Z.ltb_ge _ _)). Qed.
Lemma suffix_len_stored l n : Forall stored l -> 0 <= n -> n + file_bytes l <= USIZE_MAX ->
  foldM (fun total b => x ← block_to_wire b; co_add total (Z.of_nat (length x))) n l = Ok (n + file_bytes l).
Proof.
  intros H. revert n. induction H as [|b l Hb _ IH]; intros n Hn Hl; [by rewrite Z.add_0_r|].
  rewrite file_bytes_cons in *. pose proof (file_bytes_pos l). cbn [foldM]. rewrite (stored_written b Hb). cbn [mbind result_bind].
  rewrite co_add_ok by lia. cbn [mbind result_bind]. rewrite IH by lia. f_equal. lia.
Qed.
Lemma suffix_len_ok l : Forall stored l -> file_bytes l <= MAX_ARCHIVE_RECOVERY_BYTES -> suffix_len l = Ok (file_bytes l).
Proof. intros H Hl. pose proof recovery_fits. unfold suffix_len. rewrite suffix_len_stored; [done|done|lia|lia]. Qed.

(** The loop's state when [K] is on disk and [D] is planned. *)
Definition planning s (K D : list FinalizedBlock) : Planning :=
  mkPlanning (file_bytes K + file_bytes D) (tip_height s (K ++ D)) (tip_hash s (K ++ D)) (map block_row D).
Lemma find_planned D b : asc D -> b ∈ D -> List.find (fun r => r.1 =? fb_height b) (map block_row D) = Some (block_row b).
Proof.
  induction 1 as [|c D HD IH Hc]; intros Hb; [by apply elem_of_nil in Hb|]. cbn [map List.find block_row fst].
  apply elem_of_cons in Hb as [->|Hb]; [by rewrite Z.eqb_refl|]. rewrite Forall_forall in Hc. specialize (Hc b Hb).
  rewrite (proj2 (Z.eqb_neq _ _)) by lia. by apply IH.
Qed.
Lemma find_unplanned D h : Forall (fun b => fb_height b <> h) D -> List.find (fun r => r.1 =? h) (map block_row D) = None.
Proof. induction 1 as [|c D Hc _ IH]; [done|]. cbn [map List.find block_row fst]. by rewrite (proj2 (Z.eqb_neq _ _)). Qed.
Lemma chained_asc s l : chained s l -> asc l /\ Forall (fun b => base_height s < fb_height b <= tip_height s l) l.
Proof.
  intros (H1 & H2 & _ & H3)%chained_heights. split; [done|]. rewrite Forall_forall in *. intros b Hb. rewrite tip_height_end. split; auto.
Qed.
Lemma chained_below s K D b : chained s (K ++ D) -> b ∈ K -> Forall (fun c => fb_height c <> fb_height b) D.
Proof.
  intros [(_ & _ & H)%asc_app _]%chained_asc Hb. apply Forall_forall. intros c Hc. specialize (H b c Hb Hc). lia.
Qed.

Section Loop.
Context s (sf : option bytes) (L : list FinalizedBlock) (t : option (Z * bytes)) (p : option bytes).
Context (K : list FinalizedBlock) (HL : asc L) (HK : forall b, b ∈ K -> b ∈ L).

Lemma plan_known_t D b (Inv : Disk -> Prop) : Inv (disk_at sf L t p) -> chained s (K ++ D) -> stored b ->
  fb_height b <= base_height s \/ b ∈ K ++ D ->
  io_triple (fun d => d = disk_at sf L t p) (plan_block (base_height s) (planning s K D) b)
    (fun pl d => pl = planning s K D /\ d = disk_at sf L t p) Inv.
Proof.
  intros Hi Hc Hb Hor. unfold plan_block. cbv zeta. destruct (Z.leb_spec (fb_height b) (base_height s)) as [|Hlt]; [by intros ? ? ->|].
  destruct Hor as [|Hin]; [lia|]. rewrite (stored_written b Hb). destruct (chained_asc s _ Hc) as [Ha Hh].
  rewrite Forall_forall in Hh. specialize (Hh b Hin). cbn [planning pl_height pl_writes]. rewrite (proj2 (Z.leb_le _ _)) by lia.
  eapply io_bind_t; [apply io_lift_t|]. intros x. eapply io_pure; [|done]. intros d [-> ->].
  apply elem_of_app in Hin as [Hin|Hin].
  - rewrite find_unplanned by (by eapply chained_below).
    eapply io_bind_t.
    + eapply io_weaken; [apply (read_limited_t _ _ (Some (enc b)) (disk_at sf L t p) Inv)|by intros ? <-|done|done].
      * apply rows_lookup; [done|by apply HK].
      * intros x [= <-]. by apply stored_len.
      * done.
    + intros x. eapply io_pure; [|done]. intros d [-> ->]. intros d' ds <-. unfold mbind, io_bind, io_lift. cbn [ok_or].
      by rewrite bool_decide_eq_true_2.
  - apply asc_app in Ha as (_ & Ha & _). rewrite (find_planned D b Ha Hin). cbn [block_row].
    intros d' ds <-. unfold mbind, io_bind, io_lift. by rewrite bool_decide_eq_true_2.
Qed.
Lemma plan_new_t D b (Inv : Disk -> Prop) : chained s (K ++ D ++ [b]) -> stored b -> file_bytes K + file_bytes (D ++ [b]) <= MAX_ARCHIVE_RECOVERY_BYTES ->
  io_triple (fun d => d = disk_at sf L t p) (plan_block (base_height s) (planning s K D) b)
    (fun pl d => pl = planning s K (D ++ [b]) /\ d = disk_at sf L t p) Inv.
Proof.
  intros Hc Hb Hl. pose proof recovery_fits. pose proof Hc as [_ Hh]%chained_asc. rewrite app_assoc in Hc, Hh.
  apply Forall_app in Hh as [_ Hh]. apply Forall_cons in Hh as [Hh _]. apply chained_snoc in Hc as (Hc & H1 & H2 & H3).
  unfold plan_block. cbv zeta. rewrite (proj2 (Z.leb_gt _ _)) by lia. rewrite (stored_written b Hb).
  cbn [planning pl_height pl_writes pl_hash pl_suffix]. rewrite (proj2 (Z.leb_gt _ _)) by lia. rewrite (proj2 (Z.ltb_lt _ _) H1).
  rewrite file_bytes_app in Hl. change (file_bytes [b]) with (Z.of_nat (length (enc b)) + 0) in Hl. intros d ds ->.
  unfold mbind, io_bind, io_lift. rewrite H2, Z.eqb_refl, bool_decide_eq_true_2 by done. cbn [negb fail_if].
  rewrite co_add_ok by lia. rewrite (proj2 (Z.ltb_ge _ _)) by lia. cbn [fail_if]. split; [|done]. split; [|done].
  unfold planning. rewrite app_assoc. destruct (tip_snoc s (K ++ D) b) as [-> ->]. rewrite map_app, file_bytes_app.
  change (file_bytes [b]) with (Z.of_nat (length (enc b)) + 0). cbn [map]. f_equal; [lia|done|by unfold block_row; rewrite <- H2].
Qed.
Lemma plan_loop_t D bs w (Inv : Disk -> Prop) : Inv (disk_at sf L t p) -> chained s (K ++ D) -> Forall stored bs -> grow s (K ++ D) bs w ->
  file_bytes K + file_bytes (D ++ w) <= MAX_ARCHIVE_RECOVERY_BYTES ->
  io_triple (fun d => d = disk_at sf L t p) (io_fold (plan_block (base_height s)) (planning s K D) bs)
    (fun pl d => pl = planning s K (D ++ w) /\ d = disk_at sf L t p) Inv.
Proof.
  intros Hi Hc Hs Hg. remember (K ++ D) as KD eqn:EKD. revert D EKD Hc. induction Hg as [KD|KD b bs w Hb _ IH|KD b bs w Hn _ IH];
    intros D -> Hc Hl; cbn [io_fold].
  - rewrite app_nil_r. by intros ? ? ->.
  - apply Forall_cons in Hs as [Hsb Hs]. eapply io_bind_t; [by apply plan_known_t|]. intros x. eapply io_pure; [|done].
    intros d [-> ->]. eapply io_weaken; [apply (IH Hs D)|by intros ? <-|..]; done.
  - apply Forall_cons in Hs as [Hsb Hs]. rewrite <- app_assoc in Hn. assert (D ++ b :: w = (D ++ [b]) ++ w) as E by (by rewrite <- app_assoc).
    rewrite E in *. eapply io_bind_t; [apply (plan_new_t D b Inv Hn Hsb); rewrite file_bytes_app in Hl; pose proof (file_bytes_pos w); lia|].
    intros x. eapply io_pure; [|done]. intros d [-> ->]. eapply io_weaken; [apply (IH Hs (D ++ [b]))|by intros ? <-|..]; try done;
      by rewrite <- app_assoc.
Qed.

(** What the loop accepts is a growth of the chain on disk. *)
Lemma chained_complete K' h : chained s K' -> base_height s < h <= tip_height s K' -> exists c, c ∈ K' /\ fb_height c = h.
Proof.
  induction K' as [|b K' IH] using rev_ind; intros Hc Hh; [unfold tip_height in Hh; cbn in Hh; lia|].
  destruct (tip_snoc s K' b) as [Et _]. rewrite Et in Hh. apply chained_snoc in Hc as (Hc & _ & Hb & _).
  destruct (decide (h = fb_height b)) as [->|]; [exists b; set_solver|]. destruct IH as (c & Hc1 & Hc2); [done|lia|]. exists c. set_solver.
Qed.
Lemma find_planned_inv D h x : List.find (fun r => r.1 =? h) (map block_row D) = Some x -> exists c, c ∈ D /\ fb_height c = h /\ x = block_row c.
Proof.
  intros H. apply List.find_some in H as [Hin E]. apply Z.eqb_eq in E. apply list_elem_of_In, list_elem_of_fmap in Hin as (c & -> & Hc). by exists c.
Qed.
Lemma io_safe_touch (I : Disk -> Prop) : io_safe I touch (fun _ => True).
Proof. intros d ds Hd. unfold touch, io_step. by destruct ds as [|[[[|n|] e]|] ds]. Qed.
Lemma io_safe_read D file max : io_safe (fun d => d = D) (read_limited file max) (fun y => y = file D).
Proof.
  unfold read_limited. eapply io_safe_bind; [apply io_safe_touch|]. intros [] _ d ds ->.
  unfold mbind, io_bind, io_disk. cbn [fst]. destruct (file D) as [b|]; [|split; [done|]; split; [done|]; by intros ? [= <-]].
  unfold io_lift. destruct (fail_if _ _); (split; [done|]; split; [done|]; by intros ? [= <-]).
Qed.
Lemma plan_block_safe D b : Forall stored K -> Forall stored D -> stored b -> chained s (K ++ D) ->
  io_safe (fun d => d = disk_at sf L t p) (plan_block (base_height s) (planning s K D) b) (fun pl =>
    ((fb_height b <= base_height s \/ b ∈ K ++ D) /\ pl = planning s K D) \/
    (chained s (K ++ D ++ [b]) /\ file_bytes K + file_bytes (D ++ [b]) <= MAX_ARCHIVE_RECOVERY_BYTES /\ pl = planning s K (D ++ [b]))).
Proof.
  intros HsK HsD Hsb Hc. unfold plan_block. cbv zeta. destruct (Z.leb_spec (fb_height b) (base_height s)) as [Hle|Hlt].
  { eapply io_safe_weaken; [apply io_safe_ret|]. intros x ->. left. by split; [left|]. }
  eapply io_safe_bind; [apply io_safe_lift|]. intros x Hx. rewrite (stored_written b Hsb) in Hx. injection Hx as <-.
  cbn [planning pl_height pl_writes pl_hash pl_suffix]. destruct (Z.leb_spec (fb_height b) (tip_height s (K ++ D))) as [Ht|Ht].
  - assert (Forall stored (K ++ D)) as Hall by (by apply Forall_app). rewrite Forall_forall in Hall.
    assert (forall c, c ∈ K ++ D -> enc c = enc b -> b ∈ K ++ D) as Heq by (intros c Hin E; by rewrite <- (stored_inj c b (Hall c Hin) Hsb E)).
    destruct (List.find _ _) as [[h x]|] eqn:Ef.
    + apply find_planned_inv in Ef as (c & Hcin & Hch & [= -> ->]). eapply io_safe_bind; [apply io_safe_lift|]. intros ? E%fail_if_ok. bool_prop.
      eapply io_safe_weaken; [apply io_safe_ret|]. intros ? ->. left. split; [|done]. right. eapply Heq; [|done]. set_solver.
    + eapply io_safe_bind; [apply io_safe_read|]. cbn. intros ? ->. eapply io_safe_bind; [apply io_safe_lift|]. intros x Hx.
      eapply io_safe_bind; [apply io_safe_lift|]. intros ? E%fail_if_ok. bool_prop. subst.
      eapply io_safe_weaken; [apply io_safe_ret|]. intros ? ->. left. split; [|done]. right.
      destruct (chained_complete (K ++ D) (fb_height b) Hc ltac:(lia)) as (c & Hin & Hch). pose proof Hin as Hin'.
      apply elem_of_app in Hin' as [HcK|HcD].
      * apply (Heq c Hin). apply ok_or_ok in Hx. rewrite <- Hch, rows_lookup in Hx by auto. congruence.
      * exfalso. rewrite <- Hch in Ef. destruct (chained_asc s _ Hc) as [(_ & HaD & _)%asc_app _]. by rewrite (find_planned D c HaD HcD) in Ef.
  - eapply io_safe_bind; [apply io_safe_lift|]. intros e He. destruct (Z.ltb_spec (tip_height s (K ++ D)) U64_MAX); [|done]. injection He as <-.
    eapply io_safe_bind; [apply io_safe_lift|]. intros ? E1%fail_if_ok. eapply io_safe_bind; [apply io_safe_lift|]. intros ? E2%fail_if_ok. bool_prop.
    eapply io_safe_bind; [apply io_safe_lift|]. intros n Hn. eapply io_safe_bind; [apply io_safe_lift|]. intros ? E3%fail_if_ok.
    eapply io_safe_weaken; [apply io_safe_ret|]. intros ? ->. right. unfold co_add in Hn. destruct (USIZE_MAX <? _); [done|]. injection Hn as <-.
    apply Z.ltb_ge in E3. rewrite file_bytes_app. change (file_bytes [b]) with (Z.of_nat (length (enc b)) + 0).
    split; [rewrite app_assoc; apply chained_snoc; by repeat split|]. split; [lia|]. unfold planning. rewrite app_assoc.
    destruct (tip_snoc s (K ++ D) b) as [-> ->]. rewrite map_app, file_bytes_app. change (file_bytes [b]) with (Z.of_nat (length (enc b)) + 0).
    f_equal; lia.
Qed.
Lemma plan_loop_safe D bs : Forall stored K -> Forall stored D -> Forall stored bs -> chained s (K ++ D) ->
  io_safe (fun d => d = disk_at sf L t p) (io_fold (plan_block (base_height s)) (planning s K D) bs) (fun pl => exists w,
    grow s (K ++ D) bs w /\ pl = planning s K (D ++ w) /\ (w <> [] -> file_bytes K + file_bytes (D ++ w) <= MAX_ARCHIVE_RECOVERY_BYTES)).
Proof.
  intros HsK HsD Hs. revert D HsD. induction Hs as [|b bs Hb Hs IH]; intros D HsD Hc; cbn [io_fold].
  - eapply io_safe_weaken; [apply io_safe_ret|]. intros ? ->. exists []. rewrite app_nil_r. split; [constructor|]. by split.
  - eapply io_safe_bind; [by apply plan_block_safe|]. intros x [[Hk ->]|(Hn & Hl & ->)].
    + eapply io_safe_weaken; [by apply IH|]. intros y (w & Hg & -> & Hw). exists w. split; [by apply grow_known|done].
    + rewrite app_assoc in Hn. assert (Forall stored (D ++ [b])) as HD by (apply Forall_app; split; [done|by constructor]).
      eapply io_safe_weaken; [apply (IH (D ++ [b]) HD); by rewrite app_assoc|].
      intros y (w & Hg & -> & Hw). exists (b :: w). rewrite app_assoc in Hg. rewrite <- app_assoc in Hw |- *.
      split; [by apply grow_new|]. split; [done|]. intros _. destruct w as [|c w]; [done|]. by apply Hw.
Qed.
End Loop.

(** ** The plan of a batch *)
(** A directory that holds the chain [K] after the snapshot [s]; it may still
    have files of older blocks. *)
Record holds (sf : option bytes) (L : list FinalizedBlock) s (K : list FinalizedBlock) : Prop := {
  ho_snapshot : snap_read sf s;
  ho_retained : retained (base_height s) L = K;
  ho_chained : chained s K;
}.
Lemma holds_known sf L s K b : holds sf L s K -> b ∈ K -> b ∈ L.
Proof. intros [_ <- _] H. unfold retained in H. by apply list_elem_of_In, List.filter_In, proj1, list_elem_of_In in H. Qed.
Lemma holds_sublist sf L s K : holds sf L s K -> sublist K L.
Proof.
  intros [_ <- _]. unfold retained. induction L as [|b L IH]; [done|]. cbn. destruct (_ <? _); by constructor.
Qed.
Lemma stored_sublist (l1 l2 : list FinalizedBlock) : sublist l1 l2 -> Forall stored l2 -> Forall stored l1.
Proof. intros H Hs. rewrite Forall_forall in *. intros b Hb. apply Hs. eapply elem_of_submseteq; [exact Hb|by apply sublist_submseteq]. Qed.

Context (dir_order : list (bool * (Z * bytes)) -> list (bool * (Z * bytes))) (dir_perm : forall es, dir_order es ≡ₚ es).
Context (cfg : ConsensusArchiveConfig).

Definition due s (K w : list FinalizedBlock) (lb : FinalizedBlock) : bool := snapshot_due cfg lb (base_height s) (file_bytes K + file_bytes w).
Record batch s (K bs w : list FinalizedBlock) (lb : FinalizedBlock) (st : LedgerState) : Prop := {
  ba_count : (length bs <= MAX_STATE_SYNC_BLOCKS)%nat;
  ba_last : last bs = Some lb;
  ba_network : ls_network_id st = ac_network_id cfg;
  ba_root : bh_state_root (fb_header lb) = commitment st;
  ba_grow : grow s K bs w;
  ba_bytes : file_bytes K + file_bytes w <= MAX_ARCHIVE_RECOVERY_BYTES;
  ba_stored : Forall stored bs;
  ba_snapshot : due s K w lb = true -> is_ok (snapshot_at lb st) = true;
}.
Definition plan_of s K w lb st : RecordPlan :=
  mkRecordPlan (map block_row w) (if due s K w lb then match snapshot_at lb st with Ok r => Some r | Err _ => None end else None).

Lemma prepare_record_t sf L t p s K bs w lb st (Inv : Disk -> Prop) : holds sf L s K -> readable L t -> batch s K bs w lb st ->
  Inv (disk_at sf L t p) -> Inv (disk_at sf L None p) ->
  io_triple (fun d => d = disk_at sf L t p) (prepare_record_locked dir_order cfg bs st)
    (fun x d => x = plan_of s K w lb st /\ d = disk_at sf L None p) Inv.
Proof.
  intros Ho Hr [B1 B2 B3 B4 B5 B6 B7 B8] H1 H2. unfold prepare_record_locked. rewrite (proj2 (Nat.ltb_ge _ _) B1), B2.
  apply (io_ok_t _ _ tt); [done|]. apply (io_ok_t _ _ tt); [by rewrite bool_decide_eq_true_2|].
  apply (io_ok_t _ _ tt); [by rewrite bool_decide_eq_true_2|]. pose proof (file_bytes_pos w).
  assert (Forall stored K) as HK by (eapply stored_sublist; [by eapply holds_sublist|apply Hr]).
  eapply io_seq_t; [apply (read_snapshot_t sf s); [apply Ho|done]|].
  eapply io_seq_t; [by apply (read_blocks_t dir_order dir_perm)|]. cbv zeta. rewrite (ho_retained _ _ _ _ Ho).
  apply (io_ok_t _ _ tt); [apply Ho|]. apply (io_ok_t _ _ (file_bytes K)); [apply suffix_len_ok; [done|lia]|].
  eapply io_seq_t.
  - pose proof (plan_loop_t s sf L None p K (rd_asc _ _ Hr) (fun b => holds_known sf L s K b Ho) [] bs w Inv) as Hl.
    unfold planning in Hl. rewrite !app_nil_r in Hl. cbn [map app] in Hl. change (file_bytes []) with 0 in Hl. rewrite Z.add_0_r in Hl.
    apply Hl; [done|apply Ho|done|done|done].
  - cbn [planning pl_suffix pl_writes app]. fold (due s K w lb). unfold plan_of. destruct (due s K w lb) eqn:Hd; [|apply io_done_t].
    specialize (B8 eq_refl). apply is_ok_true in B8 as [r ->]. apply (io_ok_t _ _ r); [done|]. apply io_done_t.
Qed.

(** What the planner accepts is a batch, and it only clears the temporary. *)
Definition untouched sf L t p (d : Disk) : Prop := d = disk_at sf L t p \/ d = disk_at sf L None p.
Lemma io_safe_union {X} (I1 I2 : Disk -> Prop) (m : io_m X) Q : io_safe I1 m Q -> io_safe I2 m Q -> io_safe (fun d => I1 d \/ I2 d) m Q.
Proof. intros H1 H2 d ds [Hd|Hd]; [destruct (H1 d ds Hd)|destruct (H2 d ds Hd)]; tauto. Qed.
Lemma read_snapshot_safe sf L t p s : snap_read sf s -> io_safe (untouched sf L t p) read_snapshot_locked (fun x => x = s).
Proof.
  intros Hs. apply (io_safe_triple _ _ (fun x d => x = s /\ untouched sf L t p d)); [|by intros x d []].
  intros D HD. assert (D = disk_at sf L t p \/ D = disk_at sf L None p) as [->| ->] by exact HD; intros d ds Hd.
  - apply (io_weaken _ (fun d => d = disk_at sf L t p) _ _ _ _ _ (read_snapshot_t sf s L t p (untouched sf L t p) Hs HD)); [done| |done|done].
    by intros x d' [-> ->].
  - apply (io_weaken _ (fun d => d = disk_at sf L None p) _ _ _ _ _ (read_snapshot_t sf s L None p (untouched sf L t p) Hs HD)); [done| |done|done].
    by intros x d' [-> ->].
Qed.
Lemma readable_clean L t : readable L t -> readable L None.
Proof.
  intros [? ? ? ? ?]. split; try done; cbn [temp_bytes] in *; [destruct t; lia|]. destruct t as [[? ?]|]; cbn [temp_bytes] in *; lia.
Qed.
Lemma read_blocks_safe sf L t p : readable L t -> io_safe (untouched sf L t p) (read_blocks_locked dir_order) (fun x => x = L).
Proof.
  intros Hr. pose proof (readable_clean L t Hr) as Hr'.
  apply (io_safe_triple _ _ (fun x d => x = L /\ d = disk_at sf L None p)); [|by intros x d [-> ->]; split; [right|]].
  intros D [->| ->]; by apply read_blocks_t; unfold untouched; auto.
Qed.
Lemma prepare_record_safe sf L t p s K bs lb st : holds sf L s K -> readable L t -> file_bytes K <= MAX_ARCHIVE_RECOVERY_BYTES ->
  Forall stored bs -> last bs = Some lb ->
  io_safe (untouched sf L t p) (prepare_record_locked dir_order cfg bs st) (fun _ => exists w, batch s K bs w lb st).
Proof.
  intros Ho Hr HKb Hbs Hlast. assert (Forall stored K) as HK by (eapply stored_sublist; [by eapply holds_sublist|apply Hr]).
  unfold prepare_record_locked. rewrite Hlast.
  eapply io_safe_bind; [apply io_safe_lift|]. intros ? H1%fail_if_ok. eapply io_safe_bind; [apply io_safe_lift|]. intros ? H2%fail_if_ok.
  eapply io_safe_bind; [apply io_safe_lift|]. intros ? H3%fail_if_ok. bool_prop.
  eapply io_safe_bind; [by apply read_snapshot_safe, Ho|]. intros ? ->. eapply io_safe_bind; [by apply read_blocks_safe|]. intros ? ->. cbv zeta.
  rewrite (ho_retained _ _ _ _ Ho). eapply io_safe_bind; [apply io_safe_lift|]. intros ? _.
  eapply io_safe_bind; [apply io_safe_lift|]. intros n Hn. rewrite suffix_len_ok in Hn by done. injection Hn as <-.
  eapply io_safe_bind.
  - pose proof (fun t => plan_loop_safe s sf L t p K (rd_asc _ _ Hr) (fun b => holds_known sf L s K b Ho) [] bs HK ltac:(constructor) Hbs) as Hl.
    rewrite app_nil_r in Hl. unfold planning in Hl at 1. rewrite app_nil_r in Hl. cbn [map] in Hl. change (file_bytes []) with 0 in Hl. rewrite Z.add_0_r in Hl.
    apply io_safe_union; apply Hl, Ho.
  - intros pl (w & Hg & -> & Hw). cbn [planning pl_suffix pl_writes app] in *.
    assert (file_bytes K + file_bytes w <= MAX_ARCHIVE_RECOVERY_BYTES) as Hb.
    { destruct w as [|b w]; [change (file_bytes []) with 0; lia|by apply Hw]. }
    fold (due s K w lb). destruct (due s K w lb) eqn:Hd.
    + eapply io_safe_bind; [apply io_safe_lift|]. intros r Hr'. eapply io_safe_weaken; [apply io_safe_ret|]. intros ? _. exists w.
      split; try done. cbn in Hr'. by rewrite Hr'.
    + eapply io_safe_weaken; [apply io_safe_ret|]. intros ? _. exists w. split; try done. congruence.
Qed.
End Plans.
