(* ===== verification/ArchiveCrash.v ===== *)
(** * ArchiveCrash: recordings and installations that are interrupted

    The disks an interrupted operation can leave, and that running it again
    from any of them, interrupted or not, stays among them or completes. *)

From Stdlib Require Import ZArith Lia.
From stdpp Require Import base list gmap sets strings sorting.
From S2P Require Import Prelude Codec Crypto Identity Kel Chain Economy Settlement Shielded Execution LedgerSnapshot Wire WireTheorems StateSync Node.
From S2P Require Import Archive ArchiveFacts ArchivePlans.
Open Scope Z_scope.

Section Crash.
Context {P : Primitives}.
Context (dir_order : list (bool * (Z * bytes)) -> list (bool * (Z * bytes))) (dir_perm : forall es, dir_order es ≡ₚ es).
Context (cfg : ConsensusArchiveConfig).

(** The snapshot at a block reads back as that snapshot. *)
Definition snapshot_of (lb : FinalizedBlock) (st : LedgerState) : ConsensusSnapshot := mkConsensusSnapshot (fb_header lb) (fb_qc lb) st.
Definition snapshot_reads (lb : FinalizedBlock) (st : LedgerState) : Prop :=
  forall h b, snapshot_at lb st = Ok (h, b) -> snapshot_from_wire b = Ok (snapshot_of lb st).
Lemma snapshot_at_height lb st h b : snapshot_at lb st = Ok (h, b) -> h = fb_height lb.
Proof.
  intros H. unfold snapshot_at in H. apply bind_ok in H as (s & Hs & H). apply bind_ok in H as (x & _ & [= <- <-]).
  unfold ConsensusSnapshot_new in Hs. by apply bind_ok in Hs as (? & _ & [= <-]).
Qed.
(** The directory has room for the batch: entries and bytes. *)
Definition room (L bs : list FinalizedBlock) : Prop :=
  Z.of_nat (length L) + Z.of_nat (length bs) <= MAX_ARCHIVE_DIRECTORY_ENTRIES /\ file_bytes L + file_bytes bs <= MAX_ARCHIVE_RECOVERY_BYTES.
Lemma room_readable L bs l1 l2 (t : option (Z * bytes)) : room L bs -> asc (L ++ l1) -> Forall stored L -> Forall stored l1 -> sublist (l1 ++ l2) bs ->
  (t = None \/ exists b l3 n, l2 = b :: l3 /\ t = Some (fb_height b, take n (enc b)) /\ stored b) -> readable (L ++ l1) t.
Proof.
  intros [R1 R2] Ha HL Hl Hsub Ht. pose proof (sublist_length _ _ Hsub) as Hn. pose proof (file_bytes_sublist _ _ Hsub) as Hb.
  rewrite file_bytes_app in Hb. rewrite length_app in Hn. pose proof (file_bytes_pos l2) as H2. assert (0 <= MAX_MESSAGE_BYTES) by (vm_compute; discriminate).
  assert (Z.of_nat (length l1) + (if t then 1 else 0) <= Z.of_nat (length bs) /\ file_bytes l1 + temp_bytes t <= file_bytes bs /\
    temp_bytes t <= MAX_MESSAGE_BYTES) as (E1 & E2 & E3).
  { destruct Ht as [->|(b & l3 & n & -> & -> & Hs)]; cbn [temp_bytes length] in *; [lia|].
    pose proof (stored_len b Hs). rewrite file_bytes_cons in Hb. pose proof (file_bytes_pos l3).
    assert (length (take n (enc b)) <= length (enc b))%nat by (rewrite length_take; lia). lia. }
  split; [done|by apply Forall_app|..]; rewrite ?length_app, ?file_bytes_app; lia.
Qed.

(** ** An interrupted recording *)
Section Record.
Context (s : option ConsensusSnapshot) (sf : option bytes) (L K : list FinalizedBlock) (Ho : holds sf L s K).
Context (bs w : list FinalizedBlock) (lb : FinalizedBlock) (st : LedgerState) (Hb : batch cfg s K bs w lb st).
Context (HaL : asc L) (HsL : Forall stored L) (Hroom : room L bs) (Habove : base_height s < fb_height lb) (Hreads : snapshot_reads lb st).

Lemma new_chained : chained s (K ++ w).
Proof. eapply grow_chained; [apply Ho|apply Hb]. Qed.
Lemma new_stored : Forall stored w.
Proof. eapply stored_sublist; [by eapply grow_sublist, Hb|apply Hb]. Qed.
Lemma old_below b : b ∈ L -> fb_height b <= tip_height s K.
Proof.
  intros Hin. destruct (Z.lt_ge_cases (base_height s) (fb_height b)) as [Hlt|Hge].
  - assert (b ∈ K) as HbK. { rewrite <- (ho_retained _ _ _ _ Ho). apply list_elem_of_In, List.filter_In. split; [by apply list_elem_of_In|by apply Z.ltb_lt]. }
    destruct (chained_asc s K (ho_chained _ _ _ _ Ho)) as [_ Hall]. rewrite Forall_forall in Hall. apply Hall in HbK. lia.
  - destruct (chained_heights _ _ _ (ho_chained _ _ _ _ Ho)) as (_ & _ & E & _). rewrite tip_height_end, E. lia.
Qed.
Lemma new_above b : b ∈ w -> tip_height s K < fb_height b.
Proof.
  intros Hin. pose proof new_chained as H. unfold chained in H. rewrite verify_chain_app in H. destruct H as [_ H].
  apply chained_heights in H as (_ & H & _). rewrite Forall_forall in H. rewrite tip_height_end. by apply H.
Qed.
Lemma all_asc : asc (L ++ w).
Proof.
  apply asc_app. split; [done|]. split; [by destruct (chained_asc _ _ new_chained) as [(_ & ? & _)%asc_app _]|].
  intros a b Ha Hb'. apply old_below in Ha. apply new_above in Hb'. lia.
Qed.
Lemma all_retained w1 w2 : w = w1 ++ w2 -> retained (base_height s) (L ++ w1) = K ++ w1.
Proof.
  intros E. rewrite retained_app, (ho_retained _ _ _ _ Ho). f_equal. apply retained_all, Forall_forall. intros b Hin.
  assert (b ∈ w) as Hw by (rewrite E; set_solver). apply new_above in Hw.
  destruct (chained_heights _ _ _ (ho_chained _ _ _ _ Ho)) as (_ & _ & Et & _). rewrite tip_height_end, Et in Hw. lia.
Qed.
Lemma last_retained : lb ∈ K ++ w.
Proof.
  pose proof (grow_covers _ _ _ _ (ba_grow _ _ _ _ _ _ _ Hb)) as H. rewrite Forall_forall in H.
  destruct (H lb) as [?|?]; [|lia|done]. eapply last_Some_elem_of, Hb.
Qed.
(** The blocks that stay above the new snapshot. *)
Definition above : list FinalizedBlock := retained (fb_height lb) (L ++ w).
Lemma above_known : above = retained (fb_height lb) (K ++ w).
Proof. unfold above. rewrite !retained_app. f_equal. rewrite <- (ho_retained _ _ _ _ Ho). symmetry. by apply retained_higher, Z.lt_le_incl. Qed.
Lemma above_chained : chained (Some (snapshot_of lb st)) above.
Proof.
  pose proof last_retained as Hin. apply list_elem_of_split in Hin as (l1 & l2 & E). pose proof new_chained as Hc.
  rewrite above_known, E, retained_app, retained_cons, Z.ltb_irrefl. rewrite E in Hc. pose proof Hc as [Ha _]%chained_asc.
  apply asc_app in Ha as (_ & Ha & H12). rewrite (retained_low _ l1).
  - unfold chained in Hc. apply verify_chain_app in Hc as [_ Hc]. apply verify_chain_cons in Hc as (_ & _ & _ & Hc).
    rewrite retained_all; [exact Hc|]. by apply StronglySorted_cons in Ha as [? _].
  - apply Forall_forall. intros a Hin. specialize (H12 a lb Hin ltac:(by left)). lia.
Qed.

(** What an interrupted recording leaves: some of the new blocks and maybe
    a torn one, or all of them and the new snapshot, partly pruned. *)
Inductive recording (p : option bytes) : Disk -> Prop :=
| recording_blocks w1 w2 t : w = w1 ++ w2 -> readable (L ++ w1) t -> recording p (disk_at sf (L ++ w1) t p)
| recording_pruned h b l' : due cfg s K w lb = true -> snapshot_at lb st = Ok (h, b) -> suffix l' (L ++ w) ->
    retained (fb_height lb) l' = above -> recording p (disk_at (Some b) l' None p).
Lemma recording_start p t : readable L t -> recording p (disk_at sf L t p).
Proof. intros Hr. rewrite <- (app_nil_r L) in Hr |- *. by eapply (recording_blocks p [] w t). Qed.
(** And what a completed one leaves. *)
Definition recorded (p : option bytes) (d : Disk) : Prop :=
  if due cfg s K w lb
  then exists h b l', snapshot_at lb st = Ok (h, b) /\ suffix l' (L ++ w) /\ retained (fb_height lb) l' = above /\ d = disk_at (Some b) l' None p
  else d = disk_at sf (L ++ w) None p.
Lemma partly_readable w1 w2 t : w = w1 ++ w2 ->
  (t = None \/ exists b w3 n, w2 = b :: w3 /\ t = Some (fb_height b, take n (enc b))) -> readable (L ++ w1) t.
Proof.
  intros E Ht. pose proof all_asc as Ha. pose proof new_stored as Hs. rewrite E in Ha, Hs. apply Forall_app in Hs as [Hs1 Hs2].
  apply (room_readable L bs w1 w2 t Hroom); [rewrite app_assoc in Ha; by apply asc_app in Ha as [? _]|done|done| |].
  - rewrite <- E. eapply grow_sublist, Hb.
  - destruct Ht as [->|(b & w3 & n & -> & ->)]; [by left|right]. exists b, w3, n. by apply Forall_cons in Hs2 as [? _].
Qed.
Lemma suffix_readable l' : suffix l' (L ++ w) -> readable l' None.
Proof.
  intros [l0 E]. pose proof (partly_readable w [] None (eq_sym (app_nil_r w)) ltac:(by left)) as [R1 R2 R3 R4 R5]. rewrite E in R1, R2, R3, R4.
  rewrite file_bytes_app, length_app in *. pose proof (file_bytes_pos l0). cbn [temp_bytes] in *.
  split; [by apply asc_app in R1 as (_ & ? & _)|by apply Forall_app in R2 as [_ ?]|lia|cbn [temp_bytes]; lia|done].
Qed.
Lemma recorded_recording p d : recorded p d -> recording p d.
Proof.
  unfold recorded. destruct (due _ _ _ _ _) eqn:Hd.
  - intros (h & b & l' & H1 & H2 & H3 & ->). by eapply recording_pruned.
  - intros ->. eapply recording_blocks; [symmetry; apply app_nil_r|]. eapply partly_readable; [symmetry; apply app_nil_r|by left].
Qed.

(** Writing the snapshot and pruning, from any directory of the new blocks. *)
Lemma snapshot_and_prune p sf' l' h b : due cfg s K w lb = true -> snapshot_at lb st = Ok (h, b) -> suffix l' (L ++ w) ->
  retained (fb_height lb) l' = above -> recording p (disk_at sf' l' None p) ->
  io_triple (fun d => d = disk_at sf' l' None p) (_ ← write_snapshot b; prune_blocks_through_locked dir_order h) (fun _ => recorded p) (recording p).
Proof.
  intros Hd Hs Hl Hr Hi. pose proof (snapshot_at_height _ _ _ _ Hs) as ->.
  assert (recording p (disk_at (Some b) l' None p)) as Hw by (by eapply recording_pruned).
  eapply (io_unit_t _ _ (disk_at (Some b) l' None p)).
  - eapply io_weaken; [apply (io_step_t (fun d => d = disk_at sf' l' None p) _ _ (recording p))|done| |done]; try (by intros ? ->); [by intros ? ? ->|].
    by intros ? ? (? & -> & ->).
  - eapply io_weaken; [apply (prune_blocks_t dir_order dir_perm (Some b) (fb_height lb) l' None p (recording p))|done| |done].
    + by apply suffix_readable.
    + done.
    + intros l2 H2 E2. eapply recording_pruned; [done|done|by etrans|congruence].
    + intros _ d ->. unfold recorded. rewrite Hd. eexists _, b, _. split; [exact Hs|]. split; [|by rewrite retained_idem].
      destruct (retained_split (fb_height lb) l') as (low & E & _); [by apply (rd_asc _ None), suffix_readable|]. etrans; [by exists low|done].
Qed.
Lemma blocks_batch w1 w2 : w = w1 ++ w2 -> batch cfg s (K ++ w1) bs w2 lb st.
Proof.
  intros E. destruct Hb as [B1 B2 B3 B4 B5 B6 B7 B8].
  assert (file_bytes (K ++ w1) + file_bytes w2 = file_bytes K + file_bytes w) as Eb by (rewrite E, !file_bytes_app; lia).
  split; try done; [|by rewrite Eb|].
  - pose proof (grow_resumes s K bs w (length w1) B5) as Hg. by rewrite E, take_app_length, drop_app_length in Hg.
  - unfold due in *. by rewrite Eb.
Qed.
Lemma blocks_due w1 w2 : w = w1 ++ w2 -> due cfg s (K ++ w1) w2 lb = due cfg s K w lb.
Proof. intros E. unfold due. f_equal. rewrite E, !file_bytes_app. lia. Qed.
Lemma blocks_hold w1 w2 : w = w1 ++ w2 -> holds sf (L ++ w1) s (K ++ w1).
Proof.
  intros E. split; [apply Ho|by eapply all_retained|]. pose proof new_chained as H. unfold chained in *. rewrite E, app_assoc in H.
  by apply verify_chain_app in H as [? _].
Qed.
Lemma resume_blocks p w1 w2 t : w = w1 ++ w2 -> readable (L ++ w1) t ->
  io_triple (fun d => d = disk_at sf (L ++ w1) t p) (record_locked dir_order cfg bs st) (fun _ => recorded p) (recording p).
Proof.
  intros E Hr. unfold record_locked. assert (forall l1 l2, w = l1 ++ l2 -> recording p (disk_at sf (L ++ l1) None p)) as Hi.
  { intros l1 l2 El. eapply recording_blocks; [exact El|]. eapply partly_readable; [exact El|by left]. }
  eapply io_seq_t; [apply (prepare_record_t dir_order dir_perm cfg sf (L ++ w1) t p s (K ++ w1) bs w2 lb st)|].
  - by eapply blocks_hold.
  - done.
  - by apply blocks_batch.
  - by eapply recording_blocks.
  - by eapply Hi.
  - unfold apply_record_plan_locked, plan_of. cbn [rp_writes rp_snapshot]. rewrite (blocks_due w1 w2 E).
    assert (L ++ w = (L ++ w1) ++ w2) as Ew by (by rewrite E, app_assoc).
    eapply (io_unit_t _ _ (disk_at sf (L ++ w) None p)).
    + rewrite Ew. apply (write_rows_t sf (L ++ w1) w2 p (recording p)).
      * rewrite <- Ew. apply all_asc.
      * intros v1 v2 ->. rewrite <- app_assoc. eapply Hi. by rewrite <- app_assoc.
      * intros v1 b v2 n ->. rewrite <- app_assoc. eapply recording_blocks; [by rewrite app_assoc in E|].
        eapply partly_readable; [by rewrite app_assoc in E|]. right. by eexists _, _, _.
    + destruct (due cfg s K w lb) eqn:Hd.
      * pose proof (ba_snapshot _ _ _ _ _ _ _ Hb Hd) as [[h b] Hs]%is_ok_true. rewrite Hs.
        apply (snapshot_and_prune p sf (L ++ w) h b); try done. eapply Hi. symmetry. apply app_nil_r.
      * unfold recorded. rewrite Hd. by intros ? ? ->.
Qed.
(** After the new snapshot is there, the batch has nothing new. *)
Lemma pruned_batch l' : retained (fb_height lb) l' = above -> due cfg s K w lb = true ->
  batch cfg (Some (snapshot_of lb st)) above bs [] lb st.
Proof.
  intros Hret Hdue. destruct Hb as [B1 B2 B3 B4 B5 B6 B7 B8]. split; try done.
  - apply grow_all_known. pose proof (grow_covers _ _ _ _ B5) as H. eapply Forall_impl; [exact H|]. intros b Hin.
    change (base_height (Some (snapshot_of lb st))) with (fb_height lb).
    destruct (Z.lt_ge_cases (fb_height lb) (fb_height b)) as [Hlt|?]; [right|by left]. rewrite above_known.
    destruct Hin as [?|Hin]; [lia|]. apply list_elem_of_In, List.filter_In. split; [by apply list_elem_of_In|by apply Z.ltb_lt].
  - change (file_bytes []) with 0. rewrite above_known. assert (sublist (retained (fb_height lb) (K ++ w)) (K ++ w)) as Hs.
    { unfold retained. induction (K ++ w) as [|b l IH]; [done|]. cbn. destruct (_ <? _); by constructor. }
    apply file_bytes_sublist in Hs. rewrite file_bytes_app in Hs. lia.
  - intros _. by apply B8.
Qed.
Lemma resume_pruned p h b l' : due cfg s K w lb = true -> snapshot_at lb st = Ok (h, b) -> suffix l' (L ++ w) -> retained (fb_height lb) l' = above ->
  io_triple (fun d => d = disk_at (Some b) l' None p) (record_locked dir_order cfg bs st) (fun _ => recorded p) (recording p).
Proof.
  intros Hdue Hs Hl Hret. unfold record_locked. assert (recording p (disk_at (Some b) l' None p)) as Hi by (by eapply recording_pruned).
  eapply io_seq_t; [apply (prepare_record_t dir_order dir_perm cfg (Some b) l' None p (Some (snapshot_of lb st)) above bs [] lb st)|].
  - split; [by apply (Hreads h)|done|apply above_chained].
  - by apply suffix_readable.
  - by eapply pruned_batch.
  - done.
  - done.
  - unfold apply_record_plan_locked, plan_of. cbn [rp_writes rp_snapshot map io_each]. eapply (io_unit_t _ _ (disk_at (Some b) l' None p)); [by intros ? ? ->|].
    destruct (due cfg _ above [] lb); [|intros ? ? ->; split; [|done]; unfold recorded; rewrite Hdue; by exists h, b, l'].
    rewrite Hs. by apply snapshot_and_prune.
Qed.
(** Running it again, from wherever it stopped. *)
Lemma record_resumes p : io_triple (recording p) (record_locked dir_order cfg bs st) (fun _ => recorded p) (recording p).
Proof.
  apply (io_pure (recording p) (recording p)); [|done]. intros d [w1 w2 t E Hr|h b l' Hdue Hs Hl Hret].
  - eapply io_weaken; [by eapply resume_blocks|by intros ? <-|done|done].
  - eapply io_weaken; [by eapply resume_pruned|by intros ? <-|done|done].
Qed.
(** The chain a completed recording holds. *)
Definition recorded_view : option ConsensusSnapshot * list FinalizedBlock :=
  if due cfg s K w lb then (Some (snapshot_of lb st), above) else (s, K ++ w).
Lemma recorded_holds p d : recorded p d -> exists sf' L', d = disk_at sf' L' None p /\ readable L' None /\ holds sf' L' recorded_view.1 recorded_view.2.
Proof.
  unfold recorded, recorded_view. destruct (due _ _ _ _ _).
  - intros (h & b & l' & H1 & H2 & H3 & ->). exists (Some b), l'. split; [done|]. split; [by apply suffix_readable|].
    split; [by apply (Hreads h)|done|apply above_chained].
  - intros ->. exists sf, (L ++ w). split; [done|]. split; [eapply partly_readable; [symmetry; apply app_nil_r|by left]|].
    eapply blocks_hold. symmetry. apply app_nil_r.
Qed.
(** What an interrupted one holds: a part of the batch, or all of it. *)
Lemma recording_holds p d : recording p d -> exists sf' L' t v, d = disk_at sf' L' t p /\ readable L' t /\ holds sf' L' v.1 v.2 /\
  (v = recorded_view \/ exists w1 w2, w = w1 ++ w2 /\ v = (s, K ++ w1)).
Proof.
  intros [w1 w2 t E Hr|h b l' H1 H2 H3 H4].
  - exists sf, (L ++ w1), t, (s, K ++ w1). split; [done|]. split; [done|]. split; [by eapply blocks_hold|]. right. by exists w1, w2.
  - destruct (recorded_holds p (disk_at (Some b) l' None p)) as (sf' & L' & E & Hr & Hh).
    { unfold recorded. rewrite H1. by exists h, b, l'. }
    exists sf', L', None, recorded_view. split; [done|]. split; [done|]. split; [done|]. by left.
Qed.
End Record.

(** ** An interrupted installation of a snapshot *)
Section Install.
Context (s : option ConsensusSnapshot) (sf : option bytes) (L : list FinalizedBlock) (Hsf : snap_read sf s).
Context (sn : ConsensusSnapshot) (bs : list FinalizedBlock) (st : LedgerState) (b1 : bytes).
Context (HaL : asc L) (HsL : Forall stored L) (Hroom : room L bs) (Hbs : Forall stored bs).
Context (Hb1 : snapshot_to_wire sn = Ok b1) (Hsn : snapshot_from_wire b1 = Ok sn).
Context (Hpos : 0 <= snapshot_height sn) (Hreads : forall lb, last bs = Some lb -> snapshot_reads lb st).

(** What the checks before the journal establish. *)
Record installable : Prop := {
  in_network : snapshot_network_id sn = ac_network_id cfg;
  in_count : (length bs <= MAX_STATE_SYNC_BLOCKS)%nat;
  in_chained : chained (Some sn) bs;
  in_newer : Forall (fun b => fb_height b <= tip_height (Some sn) bs) L /\ base_height s <= tip_height (Some sn) bs;
  in_same : match s with Some s => snapshot_height s = snapshot_height sn -> header_hash (sp_header s) = header_hash (sp_header sn) | None => True end;
  in_root : match last bs with Some b => bh_state_root (fb_header b) | None => bh_state_root (sp_header sn) end = commitment st;
  in_compact lb : last bs = Some lb -> (ac_max_suffix_blocks cfg <= length bs)%nat -> is_ok (snapshot_at lb st) = true;
}.
Context (Hin : installable).
Definition compacted : option bytes :=
  match last bs with
  | Some lb => if (ac_max_suffix_blocks cfg <=? length bs)%nat then match snapshot_at lb st with Ok r => Some r.2 | Err _ => None end else None
  | None => None
  end.
Definition install_plan : SnapshotInstallPlan := mkInstallPlan b1 (map block_row bs) compacted.
Definition installed_view : option ConsensusSnapshot * list FinalizedBlock :=
  match last bs with
  | Some lb => if (ac_max_suffix_blocks cfg <=? length bs)%nat then (Some (snapshot_of lb st), []) else (Some sn, bs)
  | None => (Some sn, bs)
  end.
(** What an interrupted installation leaves: one of the snapshots, and some of
    the old blocks or some of the new ones. *)
Inductive installing (p : option bytes) : Disk -> Prop :=
| installing_at sf' L' t : sf' = sf \/ sf' = Some b1 \/ (sf' = compacted /\ is_Some sf') -> sublist L' L \/ sublist L' bs -> readable L' t ->
    installing p (disk_at sf' L' t p).
Definition installed_files (p : option bytes) (d : Disk) : Prop :=
  d = match compacted with Some b2 => disk_at (Some b2) [] None p | None => disk_at (Some b1) bs None p end.

Lemma rows_encoded l : Forall stored l -> mapM encoded_row l = Ok (map block_row l).
Proof.
  induction 1 as [|b l Hb _ IH]; [done|]. assert (encoded_row b = Ok (block_row b)) as E by (unfold encoded_row; by rewrite (stored_written b Hb)).
  cbn [mapM]. rewrite E. cbn [mbind result_bind]. by rewrite IH.
Qed.
Lemma compact_facts : match compacted with
  | Some b2 => exists lb h, last bs = Some lb /\ (ac_max_suffix_blocks cfg <=? length bs)%nat = true /\ snapshot_at lb st = Ok (h, b2)
  | None => match last bs with Some lb => (ac_max_suffix_blocks cfg <=? length bs)%nat = false | None => True end
  end.
Proof.
  unfold compacted. destruct (last bs) as [lb|] eqn:El; [|done]. destruct (_ <=? _)%nat eqn:En; [|done].
  apply Nat.leb_le in En. pose proof (in_compact Hin lb El En) as [[h b] E]%is_ok_true. rewrite E. cbn. by exists lb, h.
Qed.
Lemma new_asc : asc bs.
Proof. by apply (chained_asc (Some sn)), Hin. Qed.
Lemma new_tip b : b ∈ bs -> fb_height b <= tip_height (Some sn) bs.
Proof. destruct (chained_asc (Some sn) bs (in_chained Hin)) as [_ H]. rewrite Forall_forall in H. intros Hb. by apply H. Qed.
Lemma tip_positive : 0 <= tip_height (Some sn) bs /\ snapshot_height sn <= tip_height (Some sn) bs.
Proof.
  destruct (chained_heights _ _ _ (in_chained Hin)) as (_ & _ & E & _). rewrite tip_height_end, E. cbn [base_height]. lia.
Qed.
Lemma asc_sublist l1 l2 : sublist l1 l2 -> asc l2 -> asc l1.
Proof.
  induction 1 as [|b l1 l2 Hs IH|b l1 l2 Hs IH]; intros Ha; [constructor| |by apply IH; apply asc_tail in Ha].
  pose proof (asc_tail _ _ Ha) as Ht. apply StronglySorted_cons in Ha as [Hb _]. constructor; [by apply IH|].
  rewrite Forall_forall in *. intros c Hc. apply Hb. eapply elem_of_submseteq; [exact Hc|by apply sublist_submseteq].
Qed.
Lemma part_readable l' : sublist l' L \/ sublist l' bs -> readable l' None.
Proof.
  destruct Hroom as [R1 R2]. pose proof (file_bytes_pos L). pose proof (file_bytes_pos bs). pose proof new_asc.
  intros [Hs|Hs]; pose proof (sublist_length _ _ Hs); pose proof (file_bytes_sublist _ _ Hs);
    (split; [by eapply asc_sublist|by eapply stored_sublist|lia|cbn [temp_bytes]; lia|vm_compute; discriminate]).
Qed.
Lemma torn_readable w1 b w2 n : bs = w1 ++ b :: w2 -> readable w1 (Some (fb_height b, take n (enc b))).
Proof.
  intros E. pose proof new_asc as Ha. pose proof Hbs as Hs. rewrite E in Ha, Hs. apply Forall_app in Hs as [Hs1 Hs2].
  apply Forall_cons in Hs2 as [Hsb _]. apply asc_app in Ha as (Ha & _ & _).
  apply (room_readable [] bs w1 (b :: w2)); [|done|constructor|done|by rewrite E|right; by exists b, w2, n].
  destruct Hroom as [R1 R2]. pose proof (file_bytes_pos L). split; change (file_bytes []) with 0; cbn [length]; lia.
Qed.

(** The checks pass again from every point. *)
Lemma prepare_install_t p sf' L' t : installing p (disk_at sf' L' t p) ->
  sf' = sf \/ sf' = Some b1 \/ (sf' = compacted /\ is_Some sf') -> sublist L' L \/ sublist L' bs -> readable L' t ->
  io_triple (fun d => d = disk_at sf' L' t p) (prepare_snapshot_install_locked dir_order cfg sn bs st)
    (fun x d => x = install_plan /\ d = disk_at sf' L' None p) (installing p).
Proof.
  intros Hi Hsf' HL' Hr. assert (installing p (disk_at sf' L' None p)) as Hi' by (apply installing_at; [done|done|by eapply readable_clean]).
  pose proof tip_positive as [T0 T1].
  assert (exists sx, snap_read sf' sx /\ base_height sx <= tip_height (Some sn) bs /\ match sx with
    | Some x => (snapshot_height x =? snapshot_height sn) && negb (bool_decide (header_hash (sp_header x) = header_hash (sp_header sn))) = false
    | None => True end) as (sx & Hsx & Hbx & Hcx).
  { destruct Hsf' as [->|[->|[-> [b2 E2]]]].
    - exists s. split; [done|]. split; [apply Hin|]. pose proof (in_same Hin) as Hsame. destruct s as [x|]; [|done].
      destruct (Z.eqb_spec (snapshot_height x) (snapshot_height sn)) as [E|E]; [|done]. by rewrite (bool_decide_eq_true_2 _ (Hsame E)).
    - exists (Some sn). split; [done|]. split; [done|]. by rewrite bool_decide_eq_true_2, andb_false_r.
    - pose proof compact_facts as Hf. rewrite E2 in Hf |- *. destruct Hf as (lb & h & El & _ & Es). exists (Some (snapshot_of lb st)).
      pose proof (last_Some_elem_of _ _ El) as Hlb. split; [by eapply Hreads|]. split; [by apply new_tip|].
      destruct (chained_asc (Some sn) bs (in_chained Hin)) as [_ H]. rewrite Forall_forall in H. apply H in Hlb. cbn [base_height] in Hlb.
      change (snapshot_height (snapshot_of lb st)) with (fb_height lb). by rewrite (proj2 (Z.eqb_neq _ _)) by lia. }
  assert (match last L' with Some b => fb_height b | None => 0 end <= tip_height (Some sn) bs) as Hlast.
  { destruct (last L') as [b|] eqn:El; [|done]. apply last_Some_elem_of in El. destruct HL' as [Hs|Hs];
      apply sublist_submseteq in Hs; eapply elem_of_submseteq in El; [|exact Hs| |exact Hs]; [|by apply new_tip].
    destruct (in_newer Hin) as [H _]. rewrite Forall_forall in H. by apply H. }
  unfold prepare_snapshot_install_locked. apply (io_ok_t _ _ tt); [by rewrite (bool_decide_eq_true_2 _ (in_network Hin))|].
  apply (io_ok_t _ _ tt); [by rewrite (proj2 (Nat.ltb_ge _ _) (in_count Hin))|]. apply (io_ok_t _ _ tt); [apply Hin|]. cbv zeta.
  eapply io_seq_t; [by apply (read_snapshot_t sf' sx)|]. eapply io_seq_t; [by apply (read_blocks_t dir_order dir_perm)|].
  apply (io_ok_t _ _ tt); [by rewrite (proj2 (Z.ltb_ge _ _)) by lia|].
  apply (io_ok_t _ _ tt); [destruct sx as [x|]; [by rewrite Hcx|done]|].
  apply (io_ok_t _ _ tt); [by rewrite (bool_decide_eq_true_2 _ (in_root Hin))|].
  apply (io_ok_t _ _ b1); [done|]. apply (io_ok_t _ _ (map block_row bs)); [by apply rows_encoded|].
  pose proof (in_compact Hin) as Hc. unfold install_plan, compacted. destruct (last bs) as [lb|]; [|apply io_done_t].
  destruct (_ <=? _)%nat eqn:En; [|apply io_done_t]. apply Nat.leb_le in En. pose proof (Hc lb eq_refl En) as [r E]%is_ok_true.
  rewrite E. apply (io_ok_t _ _ r); [done|]. apply io_done_t.
Qed.

Lemma suffix_part l' l2 : suffix l' l2 -> sublist l2 L \/ sublist l2 bs -> sublist l' L \/ sublist l' bs.
Proof.
  intros [k ->] [H|H]; [left|right]; (etrans; [|exact H]); by apply sublist_inserts_l.
Qed.
Lemma write_snapshot_t b l' p sf' : installing p (disk_at sf' l' None p) -> installing p (disk_at (Some b) l' None p) ->
  io_triple (fun d => d = disk_at sf' l' None p) (write_snapshot b) (fun _ d => d = disk_at (Some b) l' None p) (installing p).
Proof.
  intros H1 H2. eapply io_weaken; [apply (io_step_t (fun d => d = disk_at sf' l' None p) _ _ (installing p))|done| |done];
    [by intros ? ->|by intros ? ->|by intros ? ? ->|]. by intros ? ? (? & -> & ->).
Qed.
Lemma clear_t p sf' l' : sf' = Some b1 \/ (sf' = compacted /\ is_Some sf') -> sublist l' L \/ sublist l' bs ->
  io_triple (fun d => d = disk_at sf' l' None p) (clear_blocks_locked dir_order) (fun _ d => d = disk_at sf' [] None p) (installing p).
Proof.
  intros Hsf' Hl'. apply (clear_blocks_t dir_order dir_perm); [by apply part_readable|apply installing_at; [tauto|done|by apply part_readable]|].
  intros l2 H2. pose proof (suffix_part _ _ H2 Hl'). apply installing_at; [tauto|done|by apply part_readable].
Qed.
Lemma install_resumes p : io_triple (installing p) (install_snapshot_locked dir_order cfg sn bs st) (fun _ => installed_files p) (installing p).
Proof.
  apply (io_pure (installing p) (installing p)); [|done]. intros d Hi. destruct Hi as [sf' L' t Hsf' HL' Hr].
  eapply (io_weaken (fun d => d = disk_at sf' L' t p)); [|by intros ? <-|intros x d' H; exact H|intros d' H; exact H].
  assert (forall l', sublist l' L \/ sublist l' bs -> installing p (disk_at (Some b1) l' None p)) as Hi1.
  { intros l' Hl'. apply installing_at; [by right; left|done|by apply part_readable]. }
  unfold install_snapshot_locked. eapply io_seq_t; [apply prepare_install_t; [by apply installing_at|done..]|].
  unfold apply_snapshot_install_plan_locked, install_plan. cbn [ip_snapshot ip_writes ip_compacted].
  eapply io_unit_t; [apply write_snapshot_t; [|by apply Hi1]; apply installing_at; [done|done|by eapply readable_clean]|].
  eapply io_unit_t; [apply clear_t; [by left|done]|].
  eapply io_unit_t.
  - apply (write_rows_t (Some b1) [] bs p (installing p)); [apply new_asc| |].
    + intros w1 w2 E. apply Hi1. right. rewrite E. by apply sublist_inserts_r.
    + intros w1 b w2 n E. apply installing_at; [by right; left| |by eapply torn_readable]. right. cbn [app]. rewrite E. by apply sublist_inserts_r.
  - cbn [app]. unfold installed_files. pose proof compact_facts as Hf. destruct compacted as [b2|] eqn:E2; [|by intros ? ? ->].
    assert (forall l', sublist l' L \/ sublist l' bs -> installing p (disk_at (Some b2) l' None p)) as Hi2.
    { intros l' Hl'. apply installing_at; [right; right; split; [by rewrite E2|done]|done|by apply part_readable]. }
    eapply io_unit_t; [apply write_snapshot_t; [apply Hi1; by right|apply Hi2; by right]|].
    eapply io_weaken; [apply (clear_t p (Some b2) bs)|done|done|done]; [right; split; [by rewrite E2|done]|by right].
Qed.
Lemma installed_installing p d : installed_files p d -> installing p d.
Proof.
  intros ->. destruct compacted as [b2|] eqn:E2; apply installing_at.
  - right; right. by rewrite E2.
  - right. apply sublist_nil_l.
  - apply part_readable. right. apply sublist_nil_l.
  - by right; left.
  - by right.
  - apply part_readable. by right.
Qed.
Lemma installed_holds p d : installed_files p d ->
  exists sf' L', d = disk_at sf' L' None p /\ readable L' None /\ holds sf' L' installed_view.1 installed_view.2.
Proof.
  unfold installed_files, installed_view. intros ->. pose proof compact_facts as Hf. destruct compacted as [b2|].
  - destruct Hf as (lb & h & El & -> & Es). rewrite El. exists (Some b2), []. split; [done|].
    split; [apply part_readable; right; apply sublist_nil_l|]. split; [by apply (Hreads lb El h)|done|done].
  - exists (Some b1), bs. split; [done|]. split; [apply part_readable; by right|].
    assert (holds (Some b1) bs (Some sn) bs) as Hh.
    { split; [done| |apply Hin]. apply retained_all. destruct (chained_asc _ _ (in_chained Hin)) as [_ H].
      eapply Forall_impl; [exact H|]. by intros b []. }
    destruct (last bs) as [lb|]; [by rewrite Hf|done].
Qed.
End Install.

(** What the checks before the journal establish, they establish of the disk
    they read. *)
Lemma asc_last l b x : asc l -> b ∈ l -> last l = Some x -> fb_height b <= fb_height x.
Proof.
  intros Ha Hb [l' ->]%last_Some. apply asc_app in Ha as (_ & _ & H). apply elem_of_app in Hb as [Hb|Hb].
  - specialize (H b x Hb ltac:(by left)). lia.
  - apply list_elem_of_singleton in Hb as ->. lia.
Qed.
Lemma prepare_install_safe s sf L t p sn bs st : snap_read sf s -> readable L t ->
  io_safe (untouched sf L t p) (prepare_snapshot_install_locked dir_order cfg sn bs st) (fun _ => installable s L sn bs st).
Proof.
  intros Hs Hr. unfold prepare_snapshot_install_locked.
  eapply io_safe_bind; [apply io_safe_lift|]. intros ? H1%fail_if_ok. eapply io_safe_bind; [apply io_safe_lift|]. intros ? H2%fail_if_ok.
  eapply io_safe_bind; [apply io_safe_lift|]. intros [] H3. cbv zeta. cbn in H3.
  eapply io_safe_bind; [by apply read_snapshot_safe|]. intros ? ->. eapply io_safe_bind; [by apply (read_blocks_safe dir_order dir_perm)|]. intros ? ->.
  eapply io_safe_bind; [apply io_safe_lift|]. intros ? H4%fail_if_ok. apply Z.ltb_ge in H4.
  eapply io_safe_bind; [apply io_safe_lift|]. intros ? H5.
  eapply io_safe_bind; [apply io_safe_lift|]. intros ? H6%fail_if_ok. bool_prop.
  eapply io_safe_bind; [apply io_safe_lift|]. intros b1 Hb1. eapply io_safe_bind; [apply io_safe_lift|]. intros ws Hws.
  assert ((forall lb, last bs = Some lb -> (ac_max_suffix_blocks cfg <= length bs)%nat -> is_ok (snapshot_at lb st) = true) -> installable s L sn bs st) as Hi.
  { intros Hc. split; try done.
    - split; [|lia]. apply Forall_forall. intros b Hb. destruct (last L) as [c|] eqn:El; [|by apply last_None in El; subst; apply elem_of_nil in Hb].
      pose proof (asc_last _ _ _ (rd_asc _ _ Hr) Hb El). lia.
    - destruct s as [c|]; [|done]. intros E. apply fail_if_ok in H5. rewrite (proj2 (Z.eqb_eq _ _) E) in H5. cbn in H5. by apply negb_false_iff, bool_decide_eq_true in H5. }
  destruct (last bs) as [lb|]; [|eapply io_safe_weaken; [apply io_safe_ret|]; intros ? _; apply Hi; by intros ? [=]].
  destruct (_ <=? _)%nat eqn:En.
  - eapply io_safe_bind; [apply io_safe_lift|]. intros r Hr'. eapply io_safe_weaken; [apply io_safe_ret|]. intros ? _. apply Hi. cbn in Hr'.
    intros lb' [= <-] _. by rewrite Hr'.
  - eapply io_safe_weaken; [apply io_safe_ret|]. intros ? _. apply Hi. intros lb' [= <-] Hle. apply Nat.leb_gt in En. lia.
Qed.

(** ** What an archive holds *)
Definition keeps (v : option ConsensusSnapshot * list FinalizedBlock) (d : Disk) : Prop :=
  exists sf L t, d = disk_at sf L t None /\ readable L t /\ holds sf L v.1 v.2 /\
    match v.1 with Some x => snapshot_network_id x = ac_network_id cfg | None => True end.
(** A disk from which every interrupted recovery leads to the same content. *)
Definition recovers (v : option ConsensusSnapshot * list FinalizedBlock) (d : Disk) : Prop :=
  exists J : Disk -> Prop, J d /\ io_triple J (recover_pending_install_locked dir_order cfg) (fun _ d => J d /\ keeps v d) J.
Lemma recover_idle d (Inv : Disk -> Prop) : dk_pending d = None -> Inv d ->
  io_triple (fun d' => d' = d) (recover_pending_install_locked dir_order cfg) (fun _ d' => d' = d) Inv.
Proof.
  intros Hp Hi. unfold recover_pending_install_locked. eapply io_seq_t; [by apply (read_limited_t _ _ None d)|]. by intros ? ? ->.
Qed.
Lemma keeps_recovers v d : keeps v d -> recovers v d.
Proof.
  intros Hk. exists (keeps v). split; [done|]. apply (io_pure (keeps v) (keeps v)); [|done]. intros d' Hd'.
  eapply io_weaken; [apply (recover_idle d' (keeps v))|by intros ? <-|by intros ? ? ->|done]; [|done].
  by destruct Hd' as (sf & L & t & -> & _).
Qed.

(** Reading an archive gives its content's answer or stops at a fault. *)
Definition answer (from : Z) : io_m (result ConsensusError StateSyncResponse) :=
  current ← read_snapshot_locked;
  _ ← io_lift (fail_if (match current with
        | Some s => negb (bool_decide (snapshot_network_id s = ac_network_id cfg)) | None => false end)
        (CoStorage (lit "stored consensus snapshot belongs to another network")));
  rows ← read_blocks_locked dir_order;
  _ ← io_lift (verify_chain (base_height current) (base_hash current) (retained (base_height current) rows));
  mret (response_of cfg current (retained (base_height current) rows) from).
Lemma answer_response from st : response_locked dir_order cfg from st = (r ← answer from; io_lift r) st.
Proof.
  unfold response_locked, answer, mbind, io_bind. destruct (read_snapshot_locked st) as [st1 [c|e]]; [|done].
  unfold io_lift at 1 4. destruct (fail_if _ _); [|done]. destruct (read_blocks_locked dir_order st1) as [st2 [rs|e]]; [|done].
  cbv zeta. unfold io_lift at 1 3. by destruct (verify_chain _ _ _).
Qed.
Lemma answer_t v d from : keeps v d -> io_triple (fun d' => d' = d) (answer from) (fun r d' => r = response_of cfg v.1 v.2 from /\ keeps v d') (keeps v).
Proof.
  intros (sf & L & t & -> & Hr & Hh & Hn). assert (forall t', t' = t \/ t' = None -> keeps v (disk_at sf L t' None)) as Hk.
  { intros t' Ht. exists sf, L, t'. split; [done|]. split; [destruct Ht as [->| ->]; [done|by eapply readable_clean]|done]. }
  unfold answer. eapply io_seq_t; [apply (read_snapshot_t sf v.1); [apply Hh|apply Hk; by left]|].
  apply (io_ok_t _ _ tt). { destruct v.1 as [x|]; [|done]. by rewrite bool_decide_eq_true_2. }
  eapply io_seq_t; [apply (read_blocks_t dir_order dir_perm); [done|apply Hk; by left|apply Hk; by right]|].
  rewrite (ho_retained _ _ _ _ Hh). apply (io_ok_t _ _ tt); [apply Hh|]. intros d ds ->. split; [|done]. split; [done|]. apply Hk. by right.
Qed.
Lemma response_recovers v d ds q : recovers v d -> yq_network_id q = ac_network_id cfg ->
  recovers v (fa_response dir_order cfg q (d, ds)).1.1 /\
  (ds = [] -> (fa_response dir_order cfg q (d, ds)).2 = response_of cfg v.1 v.2 (yq_from_height q)) /\
  (forall r, (fa_response dir_order cfg q (d, ds)).2 = Ok r -> response_of cfg v.1 v.2 (yq_from_height q) = Ok r).
Proof.
  intros (J & Hd & HJ) Hq. unfold fa_response. rewrite bool_decide_eq_true_2 by done. cbn [negb].
  assert (forall d, J d -> recovers v d) as Hrec by (intros d' Hd'; by exists J).
  assert (io_triple J (_ ← touch; _ ← recover_pending_install_locked dir_order cfg; answer (yq_from_height q))
    (fun r d' => r = response_of cfg v.1 v.2 (yq_from_height q) /\ recovers v d') (recovers v)) as Ht.
  { eapply io_bind_t; [apply touch_t; done|]. intros []. eapply io_bind_t; [eapply io_weaken; [exact HJ|done|done|done]|]. intros [].
    apply (io_pure (fun d => J d /\ keeps v d) (fun d => J d /\ keeps v d)); [|done]. intros d' [_ Hk].
    eapply io_weaken; [by apply answer_t|by intros ? <-| |]; [intros r d2 [-> H]; split; [done|]|intros d2 H]; by apply keeps_recovers. }
  assert (forall (d1 : Disk) (ds1 : draws) e, recovers v d1 /\ ds <> [] -> recovers v ((d1, ds1), Err e : result ConsensusError StateSyncResponse).1.1 /\
    (ds = [] -> ((d1, ds1), Err e : result ConsensusError StateSyncResponse).2 = response_of cfg v.1 v.2 (yq_from_height q)) /\
    (forall r, ((d1, ds1), Err e : result ConsensusError StateSyncResponse).2 = Ok r -> response_of cfg v.1 v.2 (yq_from_height q) = Ok r)) as Hf
    by (intros d1 ds1 e [H1 H2]; by repeat split).
  specialize (Ht d ds Hd). unfold with_lock, mbind, io_bind in *. destruct (touch (d, ds)) as [st1 [[]|e]].
  2: { destruct st1. by apply Hf. }
  destruct (recover_pending_install_locked dir_order cfg st1) as [st2 [[]|e]]; [|destruct st2; by apply Hf].
  rewrite answer_response. unfold mbind, io_bind. destruct (answer (yq_from_height q) st2) as [[d3 ds3] [r|e]]; [|by apply Hf].
  unfold io_lift. cbn [fst snd]. destruct Ht as [[-> H] H2]. split; [done|]. split; [done|]. by intros r.
Qed.
End Crash.
