(* ===== verification/ArchiveTheorems.v ===== *)
(** * ArchiveTheorems: an archive survives being interrupted

    What a response or a block that came over the network is worth on disk,
    that the journal reads back as what was journaled, and the two theorems:
    an interrupted installation is the old content or the new one, and an
    interrupted recording keeps a part of its batch. *)

From Stdlib Require Import ZArith Lia.
From stdpp Require Import base list gmap sets strings sorting.
From S2P Require Import Prelude Codec Crypto Identity Kel Chain Economy Settlement Shielded Execution LedgerSnapshot SnapshotTheorems Wire WireTheorems.
From S2P Require Import StateSync Node Archive ArchiveFacts ArchivePlans ArchiveCrash.
Open Scope Z_scope.

Lemma ok_inj {E A} (x y : A) : (Ok x : result E A) = Ok y -> x = y.
Proof. congruence. Qed.
Section Stored.
Context {P : Primitives}.
Lemma received_stored b : received_block b -> stored b.
Proof. intros (x & _ & H). by apply stored_of_wire in H as [? _]. Qed.
Lemma state_reads st b : storable st -> to_snapshot_bytes st = Ok b -> from_snapshot_bytes b = Ok st /\ Z.of_nat (length b) <= MAX_LEDGER_SNAPSHOT_BYTES.
Proof.
  intros Hs H. pose proof H as (-> & _)%to_snapshot_iff; [|by apply storable_widths]. pose proof (restore_written st Hs H) as E.
  split; [done|]. unfold from_snapshot_bytes in E. cbv zeta in E. apply bind_ok in E as (? & E%fail_if_ok & _). by apply Z.ltb_ge in E.
Qed.
Lemma received_snapshot_reads lb st : received_block lb -> storable st -> snapshot_reads lb st.
Proof.
  intros (x & Hx & Hlb) Hst h b H. destruct (received_parts x lb Hx Hlb) as [Ph Pq].
  unfold snapshot_at in H. apply bind_ok in H as (sn & Hn & H). apply bind_ok in H as (b' & Hw & H). apply ok_inj in H. injection H as <- <-.
  assert (sn = snapshot_of lb st) as -> by (unfold ConsensusSnapshot_new in Hn; by apply bind_ok in Hn as (? & _ & [= <-])).
  pose proof Hw as Hw'. unfold snapshot_to_wire in Hw'. apply bind_ok in Hw' as (sb & Hsb & Hw'). cbv zeta in Hw'. apply bind_ok in Hw' as (? & Hl & <-%ok_inj).
  unfold co_execution in Hsb. apply map_err_ok in Hsb. cbn [snapshot_of sp_header sp_qc sp_state] in *. destruct (state_reads _ _ Hst Hsb) as [Er El].
  unfold snapshot_from_wire. rewrite Hl. cbn [mbind result_bind]. set (b := STATE_SNAPSHOT_DOMAIN ++ _) in *.
  assert (co_all decode_snapshot b = Ok (fb_header lb, fb_qc lb, sb)) as ->.
  { apply co_all_parses. unfold decode_snapshot, b. eapply parses_bind; [apply parses_co_domain|]. eapply parses_bind; [exact Ph|].
    eapply parses_bind; [exact Pq|]. eapply parses_bind_nil; [apply parses_co_bytes; [exact El|vm_compute; discriminate]|]. apply parses_ret. }
  cbn [mbind result_bind]. rewrite Er. cbn [co_execution map_err mbind result_bind]. rewrite Hn. cbn [mbind result_bind].
  fold (snapshot_of lb st). rewrite Hw. cbn [mbind result_bind]. by rewrite bool_decide_eq_true_2.
Qed.
(** The journal reads back as what was journaled. *)
Lemma pending_reads rb r st p : sync_response_from_wire rb = Ok r -> sync_response_to_wire r = Ok rb -> storable st ->
  encode_pending_install r st = Ok p -> decode_pending_install p = Ok (r, st) /\ Z.of_nat (length p) <= MAX_PENDING_INSTALL_BYTES.
Proof.
  intros Hr Hw Hst H. unfold encode_pending_install in H. rewrite Hw in H. cbn [mbind result_bind] in H.
  apply bind_ok in H as (sb & Hsb & H). apply bind_ok in H as (? & H1 & H). apply bind_ok in H as (? & H2 & H). cbv zeta in H.
  apply bind_ok in H as (? & H3%fail_if_ok & <-%ok_inj). apply Z.ltb_ge in H3. unfold co_execution in Hsb. apply map_err_ok in Hsb.
  destruct (state_reads _ _ Hst Hsb) as [Es El]. split; [|done].
  assert (Z.of_nat (length rb) <= MAX_CHANNEL_PLAINTEXT_BYTES) as Hl.
  { pose proof Hr as E. unfold sync_response_from_wire in E. apply bind_ok in E as (? & E%fail_if_ok & _). by apply Z.ltb_ge in E. }
  unfold decode_pending_install. cbv zeta. rewrite (proj2 (Z.ltb_ge _ _) H3), take_app_length, bool_decide_eq_true_2 by done.
  cbn [negb orb fail_if mbind result_bind]. rewrite drop_app_length.
  assert (co_all decode_pending (w_bytes rb ++ w_bytes sb) = Ok (rb, sb)) as ->.
  { apply co_all_parses. unfold decode_pending. eapply parses_bind; [apply parses_co_bytes; [exact Hl|vm_compute; discriminate]|].
    eapply parses_bind_nil; [apply parses_co_bytes; [exact El|vm_compute; discriminate]|]. apply parses_ret. }
  cbn [mbind result_bind]. rewrite Hr. cbn [mbind result_bind]. by rewrite Es.
Qed.
End Stored.

(** ** The journal
    An operation whose interruptions leave disks it can be run on again. *)
Section Journal.
Context {P : Primitives}.
Context (dir_order : list (bool * (Z * bytes)) -> list (bool * (Z * bytes))) (cfg : ConsensusArchiveConfig).
Context (r : StateSyncResponse) (st : LedgerState) (pb : bytes) (v : option ConsensusSnapshot * list FinalizedBlock).
Context (Hdec : decode_pending_install pb = Ok (r, st)) (Hlen : Z.of_nat (length pb) <= MAX_PENDING_INSTALL_BYTES).
Context (Hnet : yr_network_id r = ac_network_id cfg /\ ls_network_id st = ac_network_id cfg).
Context (partial complete : option bytes -> Disk -> Prop).
Record restartable : Prop := {
  re_runs p : io_triple (partial p) (apply_install_locked dir_order cfg r st) (fun _ => complete p) (partial p);
  re_partial p d : complete p d -> partial p d;
  re_pending p d : partial p d -> dk_pending d = p;
  re_clear p q d : complete p d -> complete q (set_pending_file q d);
  re_keeps d : complete None d -> keeps cfg v d;
}.
Context (Hre : restartable).
Definition journaled (d : Disk) : Prop := partial (Some pb) d \/ complete None d.
Lemma clear_journal : io_triple (complete (Some pb)) clear_pending_install_locked (fun _ => complete None) journaled.
Proof.
  unfold clear_pending_install_locked. eapply io_bind_t.
  - apply (io_step_t (complete (Some pb))); [intros d Hd; left; by apply Hre|intros d Hd; right; by eapply Hre|intros d n Hd; left; by apply Hre].
  - intros []. eapply io_weaken; [apply (touch_t (complete None) journaled)| |done|done]; [by right|]. intros d (d' & Hd & ->). by eapply Hre.
Qed.
Lemma run_and_clear : io_triple (partial (Some pb)) (_ ← apply_install_locked dir_order cfg r st; clear_pending_install_locked) (fun _ => complete None) journaled.
Proof.
  eapply io_bind_t; [eapply io_weaken; [apply Hre|done|done|by left]|]. intros []. apply clear_journal.
Qed.
Lemma journal_recovers : io_triple journaled (recover_pending_install_locked dir_order cfg) (fun _ => complete None) journaled.
Proof.
  apply (io_pure journaled journaled); [|done]. intros d [Hd|Hd].
  - unfold recover_pending_install_locked. eapply (io_weaken (fun d' => d' = d)); [|by intros ? <-|intros x d' H; exact H|intros d' H; exact H].
    eapply io_seq_t; [apply (read_limited_t _ _ (Some pb) d)|].
    + by apply Hre.
    + by intros b [= <-].
    + by left.
    + cbv beta iota. apply (io_ok_t _ _ (r, st)); [done|]. destruct Hnet as [H1 H2].
      apply (io_ok_t _ _ tt); [by rewrite !bool_decide_eq_true_2|]. eapply io_weaken; [apply run_and_clear|by intros ? ->|done|done].
  - eapply io_weaken; [apply (recover_idle dir_order cfg d journaled)|by intros ? <-|by intros ? ? ->|done]; [|by right]. by apply Hre, Hre.
Qed.
Lemma journaled_recovers d : journaled d -> recovers dir_order cfg v d.
Proof.
  intros Hd. exists journaled. split; [done|]. eapply io_weaken; [apply journal_recovers|done| |done].
  intros ? d' H. split; [by right|by apply Hre].
Qed.
End Journal.

(** ** The content an installation leads to *)
Section Views.
Context {P : Primitives} (cfg : ConsensusArchiveConfig).
Implicit Type v : option ConsensusSnapshot * list FinalizedBlock.
(** The blocks of a batch above the tip, in order. *)
Fixpoint fresh_blocks (tip : Z) (bs : list FinalizedBlock) : list FinalizedBlock :=
  match bs with
  | [] => []
  | b :: bs => if tip <? fb_height b then b :: fresh_blocks (fb_height b) bs else fresh_blocks tip bs
  end.
Definition appended v (bs : list FinalizedBlock) (st : LedgerState) : option ConsensusSnapshot * list FinalizedBlock :=
  match last bs with
  | None => v
  | Some lb =>
      let all := v.2 ++ fresh_blocks (tip_height v.1 v.2) bs in
      if snapshot_due cfg lb (base_height v.1) (file_bytes all) then (Some (snapshot_of lb st), retained (fb_height lb) all) else (v.1, all)
  end.
Definition replaced (sn : ConsensusSnapshot) (bs : list FinalizedBlock) (st : LedgerState) : option ConsensusSnapshot * list FinalizedBlock :=
  match last bs with
  | Some lb => if (ac_max_suffix_blocks cfg <=? length bs)%nat then (Some (snapshot_of lb st), []) else (Some sn, bs)
  | None => (Some sn, bs)
  end.
Definition installed v (r : StateSyncResponse) (st : LedgerState) : option ConsensusSnapshot * list FinalizedBlock :=
  match yr_payload r with Blocks bs => appended v bs st | Snapshot sn bs => replaced sn bs st | _ => v end.
Lemma grow_fresh s K bs w : chained s K -> grow s K bs w -> w = fresh_blocks (tip_height s K) bs.
Proof.
  intros Hc H. induction H as [K|K b bs w Hb _ IH|K b bs w Hn _ IH]; [done|..]; cbn [fresh_blocks].
  - rewrite (proj2 (Z.ltb_ge _ _)); [by apply IH|]. destruct Hb as [Hb|Hb].
    + destruct (chained_heights _ _ _ Hc) as (_ & _ & E & _). rewrite tip_height_end, E. lia.
    + destruct (chained_asc _ _ Hc) as [_ H]. rewrite Forall_forall in H. by apply H.
  - pose proof Hn as (_ & _ & E & _)%chained_snoc. rewrite (proj2 (Z.ltb_lt _ _)) by lia. rewrite IH at 1 by done. by destruct (tip_snoc s K b) as [-> _].
Qed.
Lemma appended_recorded s sf L K bs w lb st : holds sf L s K -> batch cfg s K bs w lb st -> base_height s < fb_height lb ->
  recorded_view cfg s L K w lb st = appended (s, K) bs st.
Proof.
  intros Ho Hb Hab. unfold recorded_view, appended. rewrite (ba_last _ _ _ _ _ _ _ Hb). cbn [fst snd].
  rewrite <- (grow_fresh s K bs w (ho_chained _ _ _ _ Ho) (ba_grow _ _ _ _ _ _ _ Hb)). unfold due. rewrite file_bytes_app.
  destruct (snapshot_due _ _ _ _); [|done]. by rewrite (above_known s sf L K Ho w lb Hab).
Qed.
End Views.

(** ** Operations that check, then write
    The checks leave the files alone; what they return holds of those files,
    and the writes that follow end, or stop at a fault. *)
Lemma checked {X Y} (I Inv : Disk -> Prop) (m : io_m X) (Q : X -> Prop) (f : X -> io_m Y) (Post : Y -> Disk -> Prop) d ds :
  io_safe I m Q -> (forall x, Q x -> io_triple I (f x) Post Inv) -> I d ->
  let out := (m ≫= f) (d, ds) in
  match out.2 with Ok y => Post y out.1.1 | Err _ => I out.1.1 \/ (exists x, Q x) /\ Inv out.1.1 end /\
  (ds = [] -> is_ok (m (d, [])).2 = true -> is_ok out.2 = true).
Proof.
  intros Hm Hf Hd. cbv zeta. destruct (Hm d ds Hd) as (H1 & H2 & H3). unfold mbind, io_bind.
  destruct (m (d, ds)) as [[d1 ds1] [x|e]] eqn:E; cbn [fst snd] in *.
  - specialize (Hf x (H3 x eq_refl) d1 ds1 H1). destruct (f x (d1, ds1)) as [[d2 ds2] [y|e]]; cbn [fst snd]; destruct Hf as [H4 H5]; [done|].
    split; [right; split; [exists x; by apply H3|done]|]. intros ->. by destruct H5, H2.
  - split; [by left|]. intros -> H. etrans; [symmetry; exact (f_equal (fun x => is_ok x.2) E)|exact H].
Qed.

(** What holds of every disk and result an operation can end with. *)
Definition io_outcome {X} (I : Disk -> Prop) (m : io_m X) (R : Disk -> result ConsensusError X -> Prop) : Prop :=
  forall d ds, I d -> R (m (d, ds)).1.1 (m (d, ds)).2.
Lemma outcome_bind {X Y} I (m : io_m X) Q (f : X -> io_m Y) (R : Disk -> result ConsensusError Y -> Prop) :
  io_safe I m Q -> (forall d e, I d -> R d (Err e)) -> (forall x, Q x -> io_outcome I (f x) R) -> io_outcome I (m ≫= f) R.
Proof.
  intros Hm He Hf d ds Hd. destruct (Hm d ds Hd) as (H1 & _ & H3). unfold mbind, io_bind. destruct (m (d, ds)) as [[d1 ds1] [x|e]]; cbn [fst snd] in *.
  - by apply Hf; [apply H3|].
  - by apply He.
Qed.

Section Main.
Context {P : Primitives}.
Context (dir_order : list (bool * (Z * bytes)) -> list (bool * (Z * bytes))) (dir_perm : forall es, dir_order es ≡ₚ es).
Context (cfg : ConsensusArchiveConfig).

Lemma record_restartable s sf L K bs w lb st r : holds sf L s K -> match s with Some x => snapshot_network_id x = ac_network_id cfg | None => True end ->
  batch cfg s K bs w lb st -> asc L -> Forall stored L -> room L bs -> base_height s < fb_height lb -> snapshot_reads lb st -> yr_payload r = Blocks bs ->
  restartable dir_order cfg r st (appended cfg (s, K) bs st) (recording cfg s sf L K w lb st) (recorded cfg s sf L K w lb st).
Proof.
  intros Ho Hn Hb Ha Hs Hro Hab Hre Hp. split.
  - intros p. unfold apply_install_locked, on_payload. rewrite Hp. by apply record_resumes.
  - intros p d. by apply (recorded_recording cfg s sf L K Ho bs).
  - by intros p d [].
  - intros p q d. unfold recorded. destruct (due _ _ _ _ _); [|by intros ->]. intros (h & b & l' & H1 & H2 & H3 & ->). by exists h, b, l'.
  - intros d Hd. destruct (recorded_holds dir_order dir_perm cfg s sf L K Ho bs w lb st Hb Ha Hs Hro Hab Hre None d Hd) as (sf' & L' & -> & Hr & Hh).
    rewrite (appended_recorded cfg s sf L K bs w lb st Ho Hb Hab) in Hh. exists sf', L', None. split; [done|]. split; [done|]. split; [done|].
    rewrite <- (appended_recorded cfg s sf L K bs w lb st Ho Hb Hab). unfold recorded_view. destruct (due _ _ _ _ _); [|done]. apply Hb.
Qed.
Lemma install_restartable s sf L sn bs st b1 r : snap_read sf s -> asc L -> Forall stored L -> room L bs -> Forall stored bs ->
  snapshot_to_wire sn = Ok b1 -> snapshot_from_wire b1 = Ok sn -> 0 <= snapshot_height sn -> (forall lb, last bs = Some lb -> snapshot_reads lb st) ->
  installable cfg s L sn bs st -> ls_network_id st = ac_network_id cfg -> yr_payload r = Snapshot sn bs ->
  restartable dir_order cfg r st (replaced cfg sn bs st) (installing cfg sf L bs st b1) (installed_files cfg bs st b1).
Proof.
  intros Hs Ha HsL Hro Hbs H1 H2 H3 Hre Hin Hst Hp. split.
  - intros p. unfold apply_install_locked, on_payload. rewrite Hp. by eapply (install_resumes dir_order dir_perm cfg s sf L Hs).
  - intros p d. by eapply (installed_installing cfg s sf L sn bs st b1).
  - by intros p d [].
  - intros p q d ->. unfold installed_files. by destruct (compacted _ _ _).
  - intros d Hd. assert (installed_view cfg sn bs st = replaced cfg sn bs st) as E by done.
    destruct (installed_holds cfg s L sn bs st b1 Ha HsL Hro Hbs H2 Hre Hin None d Hd) as (sf' & L' & -> & Hr & Hh).
    rewrite E in Hh. exists sf', L', None. split; [done|]. split; [done|]. split; [done|]. unfold replaced.
    destruct (last bs); [destruct (_ <=? _)%nat|]; cbn [fst]; [exact Hst|apply Hin|apply Hin].
Qed.

(** ** Reading it back *)
(** Reads that may each be interrupted. *)
Definition reading (d : Disk) (qs : list (StateSyncRequest * draws)) : Disk :=
  fold_left (fun d q => (fa_response dir_order cfg q.1 (d, q.2)).1.1) qs d.
(** From now on every read that returns gives the answer of [v], however many
    before it were interrupted, and one that is not interrupted returns. *)
Definition serves (v : option ConsensusSnapshot * list FinalizedBlock) (d : Disk) : Prop :=
  forall qs from ds, let out := fa_response dir_order cfg (mkSyncRequest (ac_network_id cfg) from) (reading d qs, ds) in
    (ds = [] -> out.2 = response_of cfg v.1 v.2 from) /\ (forall r, out.2 = Ok r -> response_of cfg v.1 v.2 from = Ok r).
Lemma recovers_serves v d : recovers dir_order cfg v d -> serves v d.
Proof.
  intros Hd qs from ds. cbv zeta. assert (recovers dir_order cfg v (reading d qs)) as Hr.
  { revert d Hd. induction qs as [|[q ds'] qs IH]; intros d Hd; [done|]. apply IH. cbn [fst snd].
    destruct (decide (yq_network_id q = ac_network_id cfg)) as [E|E]; [by apply (response_recovers dir_order dir_perm)|].
    unfold fa_response. by rewrite bool_decide_eq_false_2. }
  destruct (response_recovers dir_order dir_perm cfg v (reading d qs) ds (mkSyncRequest (ac_network_id cfg) from) Hr eq_refl) as (_ & H1 & H2).
  by split.
Qed.

(** An archive whose block files are those of [L], with content [v]. *)
Definition archive_at (v : option ConsensusSnapshot * list FinalizedBlock) (L : list FinalizedBlock) (d : Disk) : Prop :=
  exists sf t, d = disk_at sf L t None /\ readable L t /\ holds sf L v.1 v.2 /\
    match v.1 with Some x => snapshot_network_id x = ac_network_id cfg | None => True end.
Lemma untouched_keeps v sf L t d : readable L t -> holds sf L v.1 v.2 ->
  match v.1 with Some x => snapshot_network_id x = ac_network_id cfg | None => True end -> untouched sf L t None d -> keeps cfg v d.
Proof.
  intros Hr Hh Hn [->| ->]; [by exists sf, L, t|]. exists sf, L, None. split; [done|]. split; [by eapply readable_clean|done].
Qed.
Lemma recover_safe sf L t : io_safe (untouched sf L t None) (recover_pending_install_locked dir_order cfg) (fun _ => True).
Proof.
  apply (io_safe_triple _ _ (fun _ => untouched sf L t None)); [|done]. intros D HD.
  eapply io_weaken; [apply (recover_idle dir_order cfg D (untouched sf L t None))|done|by intros ? ? ->|done]; [by destruct HD as [->| ->]|done].
Qed.
Lemma snapshot_wire x sn : snapshot_from_wire x = Ok sn -> snapshot_to_wire sn = Ok x.
Proof.
  intros H. unfold snapshot_from_wire in H. apply bind_ok in H as (? & _ & H). apply bind_ok in H as ([[? ?] ?] & _ & H).
  apply bind_ok in H as (? & _ & H). apply bind_ok in H as (? & _ & H). apply bind_ok in H as (y & Hy & H).
  apply bind_ok in H as (? & Hyx%fail_if_ok & <-%ok_inj). bool_prop. congruence.
Qed.
Lemma received_height x sn : bytes_ok x -> snapshot_from_wire x = Ok sn -> 0 <= snapshot_height sn.
Proof.
  intros Hx H. unfold snapshot_from_wire in H. apply bind_ok in H as (? & _ & H). apply bind_ok in H as ([[h qc] sb] & Hd & H).
  apply bind_ok in H as (st & _ & H). apply bind_ok in H as (sn' & Hn & H). apply bind_ok in H as (? & _ & H). apply bind_ok in H as (? & _ & H).
  apply ok_inj in H as <-. unfold ConsensusSnapshot_new in Hn. apply bind_ok in Hn as (? & _ & Hn). apply ok_inj in Hn as <-.
  unfold co_all in Hd. apply bind_ok in Hd as ([[[h' qc'] sb'] rd] & Hd & Hd'). apply bind_ok in Hd' as (? & _ & Hd'). apply ok_inj in Hd'. injection Hd' as -> -> ->.
  unfold decode_snapshot in Hd. parse_inv. pose proof (local_bytes_ok _ _ _ _ (Hx : bytes_ok (rbuf (Reader_new x))) Hp) as Hok.
  unfold decode_header in Hp0. parse_inv. match goal with H : co_u64 _ = Ok _ |- _ => apply r_u64_consumes in H as [_ Hu]; [|done] end.
  injection H as -> -> ->. apply Hu.
Qed.

(** An empty page of blocks: nothing is planned and nothing is written. *)
Lemma idle_restartable v r st sf L t : yr_payload r = Blocks [] ->
  (forall d, untouched sf L t None d -> keeps cfg v d) -> restartable dir_order cfg r st v (untouched sf L t) (untouched sf L t).
Proof.
  intros Hp Hk. split; [|done| | |by apply Hk].
  - intros p. unfold apply_install_locked, on_payload. rewrite Hp. by intros d ds Hd.
  - by intros p d [->| ->].
  - intros p q d [->| ->]; [by left|by right].
Qed.

(** ** Installing a response *)
Section Installing.
Context (v : option ConsensusSnapshot * list FinalizedBlock) (sf : option bytes) (L : list FinalizedBlock) (t : option (Z * bytes)).
Context (Hr : readable L t) (Hh : holds sf L v.1 v.2) (Hn : match v.1 with Some x => snapshot_network_id x = ac_network_id cfg | None => True end).
Context (rb : bytes) (r : StateSyncResponse) (st : LedgerState) (Hrb : bytes_ok rb) (Hw : sync_response_from_wire rb = Ok r) (Hst : storable st).
Context (Hro : room L (payload_blocks (yr_payload r))).
Context (Hadv : forall bs lb, yr_payload r = Blocks bs -> last bs = Some lb -> base_height v.1 < fb_height lb).

(** What passes the checks can be run again from the files it starts on. *)
Definition restarts : Prop := exists partial complete, restartable dir_order cfg r st (installed cfg v r st) partial complete /\
  forall pb d, untouched sf L t None d -> partial (Some pb) (set_pending_file (Some pb) d).
Lemma still_keeps d : untouched sf L t None d -> keeps cfg v d.
Proof. by apply untouched_keeps. Qed.
Lemma blocks_restart bs : yr_payload r = Blocks bs ->
  io_safe (untouched sf L t None) (prepare_record_locked dir_order cfg bs st) (fun _ => restarts).
Proof.
  intros Ep. pose proof (response_received rb r Hrb Hw) as [Hrec _]. rewrite Ep in Hrec, Hro. cbn [received_payload payload_blocks] in *.
  assert (Forall stored bs) as Hbs by (eapply Forall_impl; [exact Hrec|]; apply received_stored).
  destruct (last bs) as [lb|] eqn:El.
  - pose proof (file_bytes_sublist _ _ (holds_sublist _ _ _ _ Hh)). pose proof (rd_bytes _ _ Hr).
    eapply io_safe_weaken; [apply (prepare_record_safe dir_order dir_perm cfg sf L t None v.1 v.2 bs lb st Hh Hr); [|done|done]|].
    { destruct t as [[? ?]|]; cbn [temp_bytes] in *; lia. }
    intros ? (w & Hb). assert (received_block lb) as Hlb. { rewrite Forall_forall in Hrec. by eapply Hrec, last_Some_elem_of. }
    exists (recording cfg v.1 sf L v.2 w lb st), (recorded cfg v.1 sf L v.2 w lb st). split.
    + unfold installed. rewrite Ep. destruct v as [s K]. apply (record_restartable s sf L K bs w lb st r); try done; try apply Hr; [by eapply Hadv|].
      by apply received_snapshot_reads.
    + intros pb d [->| ->]; apply (recording_start cfg v.1 sf L v.2 w lb st); [done|by apply (readable_clean L t)].
  - apply last_None in El as ->. eapply io_safe_bind; [apply io_safe_lift|]. intros ? _. eapply io_safe_weaken; [apply io_safe_ret|]. intros ? _.
    exists (untouched sf L t), (untouched sf L t). split; [|intros pb d [->| ->]; [by left|by right]].
    unfold installed. rewrite Ep. apply idle_restartable; [done|apply still_keeps].
Qed.
Lemma snapshot_restart sn bs : yr_payload r = Snapshot sn bs -> ls_network_id st = ac_network_id cfg ->
  io_safe (untouched sf L t None) (prepare_snapshot_install_locked dir_order cfg sn bs st) (fun _ => restarts).
Proof.
  intros Ep Hnet. pose proof (response_received rb r Hrb Hw) as [Hrec _]. rewrite Ep in Hrec, Hro. cbn [received_payload payload_blocks] in *.
  destruct Hrec as [(x & Hx & Hsn) Hrec]. assert (Forall stored bs) as Hbs by (eapply Forall_impl; [exact Hrec|]; apply received_stored).
  eapply io_safe_weaken; [apply (prepare_install_safe dir_order dir_perm cfg v.1 sf L t None sn bs st); [apply Hh|done]|]. intros ? Hin.
  exists (installing cfg sf L bs st x), (installed_files cfg bs st x). split.
  - unfold installed. rewrite Ep. apply (install_restartable v.1 sf L sn bs st x r); try done; try apply Hr; [apply Hh|by apply snapshot_wire|by eapply received_height|].
    intros lb El. apply received_snapshot_reads; [|done]. rewrite Forall_forall in Hrec. by eapply Hrec, last_Some_elem_of.
  - intros pb d [->| ->]; apply installing_at; (try by left); (try done); try (by apply (readable_clean L t)); by left.
Qed.
(** The checks of an installation, up to the journal it writes. *)
Definition checks : io_m bytes :=
  _ ← io_lift (fail_if (negb (bool_decide (yr_network_id r = ac_network_id cfg)) ||
        negb (bool_decide (ls_network_id st = ac_network_id cfg))) StateSyncWrongNetwork);
  _ ← touch;
  _ ← recover_pending_install_locked dir_order cfg;
  _ ← validate_install_locked dir_order cfg r st;
  io_lift (encode_pending_install r st).
Definition writes (pb : bytes) : io_m unit :=
  _ ← write_pending pb; _ ← apply_install_locked dir_order cfg r st; clear_pending_install_locked.
Lemma install_splits x : fa_install_verified_response dir_order cfg r st x = (checks ≫= writes) x.
Proof.
  unfold fa_install_verified_response, checks, with_lock, mbind, io_bind. unfold io_lift at 1 3. destruct (fail_if _ _); [|done].
  destruct (touch x) as [x1 [?|?]]; [|done]. destruct (recover_pending_install_locked _ _ x1) as [x2 [?|?]]; [|done].
  destruct (validate_install_locked _ _ _ _ x2) as [x3 [?|?]]; [|done]. unfold io_lift at 1 2. by destruct (encode_pending_install r st).
Qed.
Definition sound_journal (pb : bytes) : Prop :=
  (yr_network_id r = ac_network_id cfg /\ ls_network_id st = ac_network_id cfg) /\ restarts /\
  decode_pending_install pb = Ok (r, st) /\ Z.of_nat (length pb) <= MAX_PENDING_INSTALL_BYTES.
Lemma checks_safe : io_safe (untouched sf L t None) checks sound_journal.
Proof.
  pose proof (response_received rb r Hrb Hw) as [_ Htw]. unfold checks.
  eapply io_safe_bind; [apply io_safe_lift|]. intros ? H1%fail_if_ok. bool_prop. eapply io_safe_bind; [apply io_safe_touch|]. intros [] _.
  eapply io_safe_bind; [apply recover_safe|]. intros [] _. eapply (io_safe_bind _ _ (fun _ => restarts)).
  - unfold validate_install_locked, on_payload. case_eq (yr_payload r); [by intros _ d ds Hd|by intros e tp _ d ds Hd|intros bs Ep|intros sn bs Ep];
      (eapply io_safe_bind; [by eapply blocks_restart || by eapply snapshot_restart|]); intros ? Hre; (eapply io_safe_weaken; [apply io_safe_ret|done]).
  - intros [] Hre. eapply io_safe_weaken; [apply io_safe_lift|]. intros pb Hpb. split; [done|]. split; [done|]. by eapply pending_reads.
Qed.
Lemma writes_settle pb : sound_journal pb ->
  io_triple (untouched sf L t None) (writes pb) (fun _ => recovers dir_order cfg (installed cfg v r st))
    (fun d => exists v', (v' = v \/ v' = installed cfg v r st) /\ recovers dir_order cfg v' d).
Proof.
  intros (Hnet & (partial & complete & Hre & Hp) & Hd & Hl).
  assert (forall d, journaled pb partial complete d -> recovers dir_order cfg (installed cfg v r st) d) as Hj.
  { intros d. by apply (journaled_recovers dir_order cfg r st pb (installed cfg v r st)). }
  apply (io_weaken (untouched sf L t None) _ _ (fun _ => complete None) _ (fun d => untouched sf L t None d \/ journaled pb partial complete d)).
  - unfold writes. eapply io_bind_t.
    + apply (io_step_t (untouched sf L t None)); [by left|intros d Hd'; right; left; by apply Hp|by left].
    + intros []. eapply io_weaken; [by apply (run_and_clear dir_order cfg r st pb (installed cfg v r st))| |done|by right].
      intros d (d' & Hd' & ->). by apply Hp.
  - done.
  - intros [] d Hc. apply Hj. by right.
  - intros d [Hu|Hc]; [exists v|exists (installed cfg v r st)]; (split; [by (left + right)|]); [by apply keeps_recovers, still_keeps|by apply Hj].
Qed.
Lemma checks_pass d : dk_pending d = None -> yr_network_id r = ac_network_id cfg -> ls_network_id st = ac_network_id cfg ->
  (validate_install_locked dir_order cfg r st (d, [])).2 = Ok tt -> is_ok (encode_pending_install r st) = true -> is_ok (checks (d, [])).2 = true.
Proof.
  intros Hp H1 H2 Hv He. unfold checks, mbind, io_bind. rewrite !bool_decide_eq_true_2 by done. cbn [negb orb fail_if io_lift].
  unfold recover_pending_install_locked, read_limited, touch, io_step, mbind, io_bind, io_disk. cbn [tail fst snd id]. rewrite Hp.
  unfold mret, io_ret. destruct (validate_install_locked dir_order cfg r st (d, [])) as [x [?|?]]; [|done]. exact He.
Qed.
End Installing.

(** ** Recording a batch *)
Definition partly_recorded v (bs : list FinalizedBlock) (st : LedgerState) (v' : option ConsensusSnapshot * list FinalizedBlock) : Prop :=
  v' = appended cfg v bs st \/ exists w1 w2, fresh_blocks (tip_height v.1 v.2) bs = w1 ++ w2 /\ v' = (v.1, v.2 ++ w1).
Lemma recording_keeps s sf L K bs w lb st d : holds sf L s K -> match s with Some x => snapshot_network_id x = ac_network_id cfg | None => True end ->
  batch cfg s K bs w lb st -> asc L -> Forall stored L -> room L bs -> base_height s < fb_height lb -> snapshot_reads lb st ->
  recording cfg s sf L K w lb st None d -> exists v', partly_recorded (s, K) bs st v' /\ keeps cfg v' d.
Proof.
  intros Ho Hn Hb Ha Hs Hro Hab Hre Hd. destruct (recording_holds dir_order dir_perm cfg s sf L K Ho bs w lb st Hb Ha Hs Hro Hab Hre None d Hd)
    as (sf' & L' & t & v' & -> & Hr & Hh & Hv). exists v'. split.
  - destruct Hv as [->|(w1 & w2 & E & ->)]; [left; by eapply appended_recorded|right]. exists w1, w2. split; [|done].
    rewrite <- E. symmetry. eapply grow_fresh; [apply Ho|apply Hb].
  - exists sf', L', t. split; [done|]. split; [done|]. split; [done|]. destruct Hv as [->|(w1 & w2 & _ & ->)]; [|done].
    unfold recorded_view. destruct (due _ _ _ _ _); [apply Hb|done].
Qed.
Lemma record_locked_settles v sf L t bs lb st : readable L t -> holds sf L v.1 v.2 ->
  match v.1 with Some x => snapshot_network_id x = ac_network_id cfg | None => True end ->
  Forall received_block bs -> last bs = Some lb -> storable st -> room L bs -> base_height v.1 < fb_height lb ->
  forall d ds, untouched sf L t None d -> exists v', partly_recorded v bs st v' /\ keeps cfg v' (record_locked dir_order cfg bs st (d, ds)).1.1 /\
    ((record_locked dir_order cfg bs st (d, ds)).2 = Ok tt -> v' = appended cfg v bs st) /\
    (ds = [] -> is_ok (prepare_record_locked dir_order cfg bs st (d, ds)).2 = true -> (record_locked dir_order cfg bs st (d, ds)).2 = Ok tt).
Proof.
  intros Hr Hh Hn Hrec El Hst Hro Hab d ds Hd. assert (Forall stored bs) as Hbs by (eapply Forall_impl; [exact Hrec|]; apply received_stored).
  pose proof (file_bytes_sublist _ _ (holds_sublist _ _ _ _ Hh)). pose proof (rd_bytes _ _ Hr).
  assert (0 <= temp_bytes t) by (destruct t as [[? ?]|]; cbn [temp_bytes]; lia).
  destruct (prepare_record_safe dir_order dir_perm cfg sf L t None v.1 v.2 bs lb st Hh Hr ltac:(lia) Hbs El d ds Hd) as (Hu & _ & Hq).
  assert (received_block lb) as Hlb. { rewrite Forall_forall in Hrec. by eapply Hrec, last_Some_elem_of. }
  assert (snapshot_reads lb st) as Hre by (by apply received_snapshot_reads).
  destruct (prepare_record_locked dir_order cfg bs st (d, ds)) as [[d1 ds1] [pl|e]] eqn:Epr; cbn [fst snd] in *.
  - destruct (Hq pl eq_refl) as (w & Hb). destruct v as [s K]. cbn [fst snd] in *.
    assert (recording cfg s sf L K w lb st None d) as Hi.
    { destruct Hd as [->| ->]; apply (recording_start cfg s sf L K w lb st); [done|by apply (readable_clean L t)]. }
    pose proof (record_resumes dir_order dir_perm cfg s sf L K Hh bs w lb st Hb (rd_asc _ _ Hr) (rd_stored _ _ Hr) Hro Hab Hre None d ds Hi) as Ht.
    destruct (record_locked dir_order cfg bs st (d, ds)) as [[d2 ds2] [[]|e]]; cbn [fst snd]; destruct Ht as [Ht Hds].
    + destruct (recorded_holds dir_order dir_perm cfg s sf L K Hh bs w lb st Hb (rd_asc _ _ Hr) (rd_stored _ _ Hr) Hro Hab Hre None d2 Ht) as (sf' & L' & -> & Hr' & Hh').
      exists (appended cfg (s, K) bs st). split; [by left|]. split; [|by split]. rewrite <- (appended_recorded cfg s sf L K bs w lb st Hh Hb Hab).
      exists sf', L', None. split; [done|]. split; [done|]. split; [done|]. unfold recorded_view. destruct (due _ _ _ _ _); [apply Hb|done].
    + destruct (recording_keeps s sf L K bs w lb st d2 Hh Hn Hb (rd_asc _ _ Hr) (rd_stored _ _ Hr) Hro Hab Hre Ht) as (v' & Hv & Hk). exists v'. by repeat split.
  - unfold record_locked, mbind, io_bind. rewrite Epr. cbn [fst snd]. exists v. split; [|split; [by apply (untouched_keeps v sf L t)|by split]].
    right. exists [], (fresh_blocks (tip_height v.1 v.2) bs). split; [done|]. rewrite app_nil_r. by destruct v.
Qed.
End Main.

(** ** The properties *)
Section Properties.
Context {P : Primitives}.
Context (dir_order : list (bool * (Z * bytes)) -> list (bool * (Z * bytes))) (dir_perm : forall es, dir_order es ≡ₚ es).
Context (cfg : ConsensusArchiveConfig).

(** C21: an installation of a state-sync response that is interrupted at any
    step, by an error or by the process dying, leaves the archive with the
    content it had or with the content the installation leads to: from then
    on, however many of the reads that follow are interrupted as well, every
    read that returns gives the answer of that one content, and a read that
    is not interrupted does return.  When the installation reports success
    the content is the new one, and it does succeed when no step fails, the
    response passes the checks and its journal entry can be encoded.

    Conditions.  The response came off the wire, and the final state is one a
    snapshot can hold ([storable]), as every reachable state with a total
    supply of 128 bits is.  The directory has [room] for the page: the block
    files it holds, stale ones included, and the page's blocks stay within
    the number of entries and the bytes that a read accepts.  A page of
    blocks without a snapshot ends above the snapshot the archive has.  The
    archive itself ensures neither of the last two, and without them the
    claim fails: stale files left by an earlier crash can make every read
    refuse the directory as too large, and a page that ends below the
    snapshot can replace it by an older one. *)
Theorem interrupted_installs_settle v L d0 rb r st ds : archive_at cfg v L d0 -> bytes_ok rb -> sync_response_from_wire rb = Ok r -> storable st ->
  room L (payload_blocks (yr_payload r)) ->
  (forall bs lb, yr_payload r = Blocks bs -> last bs = Some lb -> base_height v.1 < fb_height lb) ->
  let out := fa_install_verified_response dir_order cfg r st (d0, ds) in
  (exists v', (v' = v \/ v' = installed cfg v r st) /\ (out.2 = Ok tt -> v' = installed cfg v r st) /\ serves dir_order cfg v' out.1.1) /\
  (ds = [] -> yr_network_id r = ac_network_id cfg -> ls_network_id st = ac_network_id cfg ->
    (validate_install_locked dir_order cfg r st (d0, [])).2 = Ok tt -> is_ok (encode_pending_install r st) = true -> out.2 = Ok tt).
Proof.
  intros (sf & t & -> & Hr & Hh & Hn) Hrb Hw Hst Hro Hadv. cbv zeta. rewrite install_splits.
  destruct (checked (untouched sf L t None) _ _ _ _ _ (disk_at sf L t None) ds
    (checks_safe dir_order dir_perm cfg v sf L t Hr Hh Hn rb r st Hrb Hw Hst Hro Hadv)
    (writes_settle dir_order cfg v sf L t Hr Hh Hn r st) ltac:(by left)) as [Hout Hok]. split.
  - set (out := (checks dir_order cfg r st ≫= writes dir_order cfg r st) (disk_at sf L t None, ds)) in *. clearbody out.
    destruct out as [[d ds'] [[]|e]]; cbn [fst snd] in *.
    + exists (installed cfg v r st). split; [by right|]. split; [done|]. by apply (recovers_serves dir_order dir_perm).
    + destruct Hout as [Hu|(_ & v' & Hv & Hs)]; [exists v|exists v'].
      * split; [by left|]. split; [done|]. by eapply (recovers_serves dir_order dir_perm), keeps_recovers, (untouched_keeps cfg v sf L t).
      * split; [done|]. split; [done|]. by apply (recovers_serves dir_order dir_perm).
  - intros E H1 H2 H3 H4. assert (is_ok ((checks dir_order cfg r st ≫= writes dir_order cfg r st) (disk_at sf L t None, ds)).2 = true) as H.
    { apply Hok; [done|]. by apply checks_pass. }
    by apply is_ok_true in H as [[] ->].
Qed.

(** Recording a batch of verified blocks that is interrupted at any step
    leaves the archive with a part of the batch: its content with the first
    few of the new blocks after the tip, or the content the whole recording
    leads to, compacted into a snapshot where the policy asks for it.  Every
    later read gives that content's answer, or is itself interrupted; when the
    recording reports success the whole batch is there, and it does succeed
    when no step fails and the batch can be planned. *)
Theorem interrupted_recordings_keep_a_prefix v L d0 bs st ds : archive_at cfg v L d0 -> Forall received_block bs -> storable st -> room L bs ->
  (forall lb, last bs = Some lb -> base_height v.1 < fb_height lb) ->
  let out := fa_record_verified_batch dir_order cfg bs st (d0, ds) in
  (exists v', partly_recorded cfg v bs st v' /\ (out.2 = Ok tt -> v' = appended cfg v bs st) /\ serves dir_order cfg v' out.1.1) /\
  (ds = [] -> is_ok (prepare_record_locked dir_order cfg bs st (d0, [])).2 = true ->
    (exists n, suffix_len bs = Ok n /\ n <= MAX_ARCHIVE_SUFFIX_BYTES) -> out.2 = Ok tt).
Proof.
  intros (sf & t & -> & Hr & Hh & Hn) Hrec Hst Hro Hab. cbv zeta.
  assert (forall d, untouched sf L t None d -> keeps cfg v d) as Hk by (intros d; by apply untouched_keeps).
  assert (forall d, untouched sf L t None d -> partly_recorded cfg v bs st v /\ serves dir_order cfg v d) as He.
  { intros d Hd. split; [|by apply (recovers_serves dir_order dir_perm), keeps_recovers, Hk]. right. exists [], (fresh_blocks (tip_height v.1 v.2) bs).
    split; [done|]. rewrite app_nil_r. by destruct v. }
  split.
  { set (R := fun d (res : result ConsensusError unit) => exists v', partly_recorded cfg v bs st v' /\ (res = Ok tt -> v' = appended cfg v bs st) /\ serves dir_order cfg v' d).
    assert (forall d e, untouched sf L t None d -> R d (Err e)) as Hf by (intros d e Hd; exists v; by destruct (He d Hd)).
    enough (io_outcome (untouched sf L t None) (fa_record_verified_batch dir_order cfg bs st) R) as H by (apply (H _ ds); by left).
    unfold fa_record_verified_batch. eapply outcome_bind; [apply io_safe_lift|done|]. intros ? _. destruct (last bs) as [lb|] eqn:El.
    - eapply outcome_bind; [apply io_safe_lift|done|]. intros ? _. eapply outcome_bind; [apply io_safe_lift|done|]. intros ? _.
      eapply outcome_bind; [apply io_safe_lift|done|]. intros ? _. unfold with_lock. eapply outcome_bind; [apply io_safe_touch|done|]. intros [] _.
      eapply outcome_bind; [apply (recover_safe dir_order cfg sf L t)|done|]. intros [] _ d ds' Hd.
      destruct (record_locked_settles dir_order dir_perm cfg v sf L t bs lb st Hr Hh Hn Hrec El Hst Hro (Hab lb eq_refl) d ds' Hd) as (v' & H1 & H2 & H3 & _).
      exists v'. split; [done|]. split; [done|]. by apply (recovers_serves dir_order dir_perm), keeps_recovers.
    - intros d ds' Hd. exists v. destruct (He d Hd) as [H1 H2]. split; [done|]. split; [|done]. intros _. unfold appended. by rewrite El. }
  intros -> Hp (n & Hn1 & Hn2). destruct (last bs) as [lb|] eqn:El.
  - destruct (record_locked_settles dir_order dir_perm cfg v sf L t bs lb st Hr Hh Hn Hrec El Hst Hro (Hab lb eq_refl) (disk_at sf L t None) [] ltac:(by left))
      as (_ & _ & _ & _ & H). specialize (H eq_refl Hp). unfold prepare_record_locked in Hp. rewrite El in Hp.
    unfold fa_record_verified_batch. rewrite El, Hn1. unfold mbind, io_bind, io_lift in *.
    destruct (_ <? _)%nat; [done|]. cbn [fail_if] in *. do 2 (destruct (bool_decide _); [|done]). cbn [negb orb fail_if].
    rewrite (proj2 (Z.ltb_ge _ _) Hn2). cbn [fail_if]. exact H.
  - unfold fa_record_verified_batch. rewrite El. unfold prepare_record_locked in Hp. unfold mbind, io_bind, io_lift in *.
    destruct (_ <? _)%nat; [done|]. by cbn [fail_if].
Qed.
End Properties.
