(* ===== verification/ArchiveWitnesses.v ===== *)
(** * ArchiveWitnesses: an installation and a recording, run and interrupted

    The block and the state of [ExecutionWitnesses] arrive as a state-sync
    response and as a batch at an empty archive. *)

From Stdlib Require Import ZArith Lia.
From stdpp Require Import base list gmap sets strings sorting.
From S2P Require Import Prelude Codec Crypto Identity Kel KelTheorems Chain ChainWitnesses Economy Settlement Shielded Execution ExecutionWitnesses.
From S2P Require Import LedgerSnapshot SnapshotTheorems LedgerWitnesses Wire WireTheorems StateSync Node Archive ArchiveFacts ArchivePlans ArchiveCrash ArchiveTheorems.
Open Scope Z_scope.

#[local] Existing Instance Toy.primitives.
#[local] Existing Instance Toy.laws.
Import Scenario Voting Payments Stored.

Definition block : FinalizedBlock := mkFinalized header body cert.
Definition cfg : ConsensusArchiveConfig := mkArchiveConfig (ls_network_id after) 64 4.
Definition order (es : list (bool * (Z * bytes))) : list (bool * (Z * bytes)) := rev es.
Definition response : StateSyncResponse := mkSyncResponse (ls_network_id after) (Snapshot (snapshot_of block after) []).
Definition response_bytes : bytes := Eval vm_compute in match sync_response_to_wire response with Ok b => b | Err _ => [] end.
(** The write of the snapshot takes effect, and then the process dies. *)
Definition crash : draws := replicate 7 None ++ [Some (Effect, [])].
Definition interrupted : Disk := (fa_install_verified_response order cfg response after (empty_disk, crash)).1.1.
Example response_decodes : sync_response_from_wire response_bytes = Ok response.
Proof. vm_compute. reflexivity. Qed.
Example interrupted_journal : (fa_install_verified_response order cfg response after (empty_disk, crash)).2 = Err (CoStorage []) /\
  is_Some (dk_pending interrupted) /\ is_Some (dk_snapshot interrupted).
Proof. split; [vm_compute; reflexivity|]. split; vm_compute; by eexists. Qed.
(** The next read finishes the installation. *)
Example recovery_completes : (fa_response order cfg (mkSyncRequest (ls_network_id after) 0) (interrupted, [])).2 = Ok response.
Proof. vm_compute. reflexivity. Qed.
(** The write of the block is torn. *)
Definition torn : draws := replicate 5 None ++ [Some (TornTemporary 10, [])].
Definition half_written : Disk := (fa_record_verified_batch order cfg [block] after (empty_disk, torn)).1.1.
Example torn_temporary : size (dk_temps half_written) = 1%nat /\ size (dk_blocks half_written) = 0%nat.
Proof. split; vm_compute; reflexivity. Qed.

Lemma order_perm es : order es ≡ₚ es.
Proof. symmetry. apply Permutation_rev. Qed.
Lemma empty_archive : archive_at cfg (None, []) [] empty_disk.
Proof.
  exists None, None. split; [reflexivity|]. split; [|split; [split; [exact I|reflexivity..]|exact I]].
  split; [constructor|constructor|vm_compute; discriminate..].
Qed.
Lemma little_room : room [] [block].
Proof. split; vm_compute; discriminate. Qed.
Lemma block_received : received_block block.
Proof.
  exists (match block_to_wire block with Ok x => x | Err _ => [] end). split; [|vm_compute; reflexivity].
  apply (bool_decide_eq_true_1 (bytes_ok _)). vm_compute. reflexivity.
Qed.
Lemma install_checks : (validate_install_locked order cfg response after (empty_disk, [])).2 = Ok tt /\ is_ok (encode_pending_install response after) = true.
Proof. split; vm_compute; reflexivity. Qed.
Lemma record_checks : is_ok (prepare_record_locked order cfg [block] after (empty_disk, [])).2 = true /\
  exists n, suffix_len [block] = Ok n /\ n <= MAX_ARCHIVE_SUFFIX_BYTES.
Proof. split; [vm_compute; reflexivity|]. eexists. split; [vm_compute; reflexivity|vm_compute; discriminate]. Qed.

Lemma interrupted_installs_settle_witness :
  (exists v', (v' = (None, []) \/ v' = installed cfg (None, []) response after) /\ serves order cfg v' interrupted) /\
  (fa_install_verified_response order cfg response after (empty_disk, [])).2 = Ok tt.
Proof.
  assert (forall ds, let out := fa_install_verified_response order cfg response after (empty_disk, ds) in
    (exists v', (v' = (None, []) \/ v' = installed cfg (None, []) response after) /\ (out.2 = Ok tt -> v' = installed cfg (None, []) response after) /\
      serves order cfg v' out.1.1) /\
    (ds = [] -> yr_network_id response = ac_network_id cfg -> ls_network_id after = ac_network_id cfg ->
      (validate_install_locked order cfg response after (empty_disk, [])).2 = Ok tt -> is_ok (encode_pending_install response after) = true -> out.2 = Ok tt)) as H.
  { intros ds. apply (interrupted_installs_settle order order_perm cfg (None, []) [] empty_disk response_bytes response after ds).
    - exact empty_archive.
    - apply (bool_decide_eq_true_1 (bytes_ok _)). vm_compute. reflexivity.
    - exact response_decodes.
    - exact after_storable.
    - split; vm_compute; discriminate.
    - intros bs lb [=]. }
  split; [destruct (H crash) as [(v' & H1 & _ & H2) _]; exists v'; exact (conj H1 H2)|].
  destruct install_checks as [H1 H2]. exact (proj2 (H []) eq_refl eq_refl eq_refl H1 H2).
Defined.
Lemma interrupted_recordings_keep_a_prefix_witness :
  (exists v', partly_recorded cfg (None, []) [block] after v' /\ serves order cfg v' half_written) /\
  (fa_record_verified_batch order cfg [block] after (empty_disk, [])).2 = Ok tt.
Proof.
  assert (forall ds, let out := fa_record_verified_batch order cfg [block] after (empty_disk, ds) in
    (exists v', partly_recorded cfg (None, []) [block] after v' /\ (out.2 = Ok tt -> v' = appended cfg (None, []) [block] after) /\
      serves order cfg v' out.1.1) /\
    (ds = [] -> is_ok (prepare_record_locked order cfg [block] after (empty_disk, [])).2 = true ->
      (exists n, suffix_len [block] = Ok n /\ n <= MAX_ARCHIVE_SUFFIX_BYTES) -> out.2 = Ok tt)) as H.
  { intros ds. apply (interrupted_recordings_keep_a_prefix order order_perm cfg (None, []) [] empty_disk [block] after ds).
    - exact empty_archive.
    - constructor; [exact block_received|constructor].
    - exact after_storable.
    - exact little_room.
    - intros lb [= <-]. reflexivity. }
  split; [destruct (H torn) as [(v' & H1 & _ & H2) _]; exists v'; exact (conj H1 H2)|].
  destruct record_checks as [H1 H2]. exact (proj2 (H []) eq_refl H1 H2).
Defined.
