(* ===== verification/NodeFacts.v ===== *)
(** * NodeFacts: what holds of a node through every handler

    The invariant [node_inv] of a node and its emits, relative to the chain, the
    history and the commits it started from, and that each part of a handler
    keeps it on every outcome.  [triple] is the Hoare triple of [node_m] that
    asks for the invariant also where the handler stops, and for a [cause] of
    every error. *)

From Stdlib Require Import ZArith Lia.
From stdpp Require Import base list gmap sets strings.
From S2P Require Import Prelude Codec Crypto Identity Kel Chain ChainTheorems Round VotingSpec RoundRefines RoundFacts Agreement.
From S2P Require Import Certificates Economy EconomyTheorems Settlement SettlementTheorems Shielded Execution StatePins.
From S2P Require Import ExecutionFacts BlockFacts ExecutionTheorems LedgerSnapshot Wire StateSync Node.
Open Scope Z_scope.

(** The history keeps the last blocks. *)
Definition cap (l : list FinalizedBlock) : list FinalizedBlock := drop (length l - MAX_CATCHUP_BLOCKS) l.
Lemma pop_while_cap fuel l : (length l <= fuel + MAX_CATCHUP_BLOCKS)%nat -> pop_while fuel l = cap l.
Proof.
  unfold cap. revert l. induction fuel as [|fuel IH]; intros l Hl; cbn [pop_while].
  - by replace (length l - MAX_CATCHUP_BLOCKS)%nat with 0%nat by lia.
  - destruct (Nat.ltb_spec MAX_CATCHUP_BLOCKS (length l)) as [Hlt|]; [|by replace (length l - MAX_CATCHUP_BLOCKS)%nat with 0%nat by lia].
    destruct l as [|b l]; [cbn in Hlt; lia|]. cbn [tail length] in *. rewrite IH by lia.
    by replace (S (length l) - MAX_CATCHUP_BLOCKS)%nat with (S (length l - MAX_CATCHUP_BLOCKS)) by lia.
Qed.
Lemma remembered_cap h b : remembered h b = cap (h ++ [b]).
Proof. unfold remembered. apply pop_while_cap. lia. Qed.
Lemma cap_short l : (length l <= MAX_CATCHUP_BLOCKS)%nat -> cap l = l.
Proof. intros H. unfold cap. by replace (length l - MAX_CATCHUP_BLOCKS)%nat with 0%nat by lia. Qed.
Lemma cap_app l l' : cap (cap l ++ l') = cap (l ++ l').
Proof.
  unfold cap at 1 3. rewrite !length_app. unfold cap at 1. rewrite length_drop.
  set (k := (length l - MAX_CATCHUP_BLOCKS)%nat).
  destruct (decide (length l <= MAX_CATCHUP_BLOCKS)%nat).
  - unfold cap. replace (length l - MAX_CATCHUP_BLOCKS)%nat with 0%nat by lia. unfold k. by replace (length l - MAX_CATCHUP_BLOCKS)%nat with 0%nat by lia; rewrite Nat.sub_0_r.
  - unfold cap. fold k. replace (drop k l ++ l') with (drop k (l ++ l')) by (rewrite drop_app_le by lia; done).
    rewrite drop_drop. f_equal. unfold k. lia.
Qed.
Lemma cap_length l : (length (cap l) <= MAX_CATCHUP_BLOCKS)%nat.
Proof. unfold cap. rewrite length_drop. lia. Qed.

Section Blocks.
Context {P : Primitives}.
(** The chain [c] extended by finalized blocks, one at a time. *)
Inductive extended (cfg : NodeConfig) (ov : option ClaimVerifier) (c : LedgerChain) : list FinalizedBlock -> LedgerChain -> Prop :=
| ext_refl : extended cfg ov c [] c
| ext_block bs c1 fb root c2 : extended cfg ov c bs c1 ->
    apply_finalized_block_with_verifier c1 (fb_header fb) (fb_body fb) (fb_qc fb) (cf_validators cfg) (cf_oracle cfg) ov = Ok (root, c2) ->
    extended cfg ov c (bs ++ [fb]) c2.
Definition block_mark (fb : FinalizedBlock) : Z * bytes := (bh_height (fb_header fb), bh_state_root (fb_header fb)).
Definition committed_of (e : Emit) : list (Z * bytes) := match e with ECommitted h c => [(h, c)] | _ => [] end.
Definition committed (es : list Emit) : list (Z * bytes) := flat_map committed_of es.

Lemma extended_app cfg ov c1 bs c2 bs' c3 : extended cfg ov c1 bs c2 -> extended cfg ov c2 bs' c3 -> extended cfg ov c1 (bs ++ bs') c3.
Proof.
  intros H. induction 1 as [|bs' c3 fb root c4 _ IH Ha]; [by rewrite app_nil_r|]. rewrite app_assoc. by eapply ext_block.
Qed.
Lemma extended_nil_inv cfg ov c c' : extended cfg ov c [] c' -> c' = c.
Proof. inversion 1 as [|bs c1 fb root c2 _ _ E]; [done|]. by destruct bs. Qed.
Lemma extended_snoc_inv cfg ov c bs fb c' : extended cfg ov c (bs ++ [fb]) c' -> exists c1 root, extended cfg ov c bs c1 /\
  apply_finalized_block_with_verifier c1 (fb_header fb) (fb_body fb) (fb_qc fb) (cf_validators cfg) (cf_oracle cfg) ov = Ok (root, c').
Proof. inversion 1 as [E|bs1 c1 fb1 root c2 X Ha E]; [by destruct bs|]. apply app_inj_tail in E as [-> ->]. by exists c1, root. Qed.
Lemma committed_app a b : committed (a ++ b) = committed a ++ committed b.
Proof. apply flat_map_app. Qed.

(** A value the node may vote for on the chain [c]. *)
Lemma value_valid_iff c ov h b : value_valid c ov h b = true <->
  bh_height h = next_height c /\ bh_prev_hash h = lc_tip_hash c /\ bh_timestamp_ms h = bh_height h /\ bh_body_root h = body_hash b /\
  exists s, apply_block_with_verifier (lc_state c) b ov = Ok s /\ commitment s = bh_state_root h.
Proof.
  unfold value_valid. split.
  - destruct (Z.eqb_spec (bh_height h) (next_height c)); [|done]. case_bool_decide; [|done].
    destruct (Z.eqb_spec (bh_timestamp_ms h) (bh_height h)); [|done]. case_bool_decide; [|done]. cbn [negb orb].
    destruct (apply_block_with_verifier _ _ _) as [s|]; [|done]. intros Hs%bool_decide_eq_true. by repeat (split; [done|]); exists s.
  - intros (E1 & E2 & E3 & E4 & s & E5 & E6). rewrite E1, E2, E3, E4, E5, Z.eqb_refl, E1, Z.eqb_refl.
    rewrite !bool_decide_eq_true_2 by done. done.
Qed.
(** A certificate of this height for a value so validated is never refused. *)
Lemma certified_applies c ov h b qc vs oracle n : value_valid c ov h b = true -> verify_finality qc vs oracle = Ok n ->
  qc_height qc = next_height c -> qc_block_hash qc = header_hash h ->
  exists root c', apply_finalized_block_with_verifier c h b qc vs oracle ov = Ok (root, c').
Proof.
  intros (E1 & E2 & E3 & E4 & s & E5 & E6)%value_valid_iff Hv Hq Hh. exists (commitment s), (mkLedgerChain (bh_height h) (header_hash h) s).
  apply extends_iff. exists s. split; [|done]. split; try done; [by exists n|split; congruence].
Qed.
End Blocks.

Section NodeFacts.
Context {P : Primitives} {A : Type} {AR : Archive A}.
Context (iter_order : gmap Z ProposalInfo -> list (Z * ProposalInfo)).
Context (iter_perm : forall m, iter_order m ≡ₚ map_to_list m).
Context (cfg : NodeConfig) (ov : option ClaimVerifier).
Context (c0 : LedgerChain) (h0 : list FinalizedBlock) (e0 : list (Z * bytes)) (a0 : option A).
Context (vset_len : vs_len (cf_validators cfg) <= MAX_VALIDATORS) (vset_nodup : NoDup (map did_scid (roots (cf_validators cfg)))).
Context (bodies_typed : forall k h, body_typed (cf_body_source cfg k h)).

Definition msg_typed (m : ConsensusMessage) : Prop := match m with MsgProposal p => body_typed (pr_body p) | MsgVote _ => True end.
Definition blocks_typed (bs : list FinalizedBlock) : Prop := Forall (fun fb => body_typed (fb_body fb)) bs.
Definition reached (c : LedgerChain) : Prop := exists bs, extended cfg ov c0 bs c /\ blocks_typed bs.
Definition known (n : Node A) (id : bytes) : Prop := is_Some (nd_values n !! id).
Definition value_for (c : LedgerChain) (id : bytes) (p : Proposal) : Prop :=
  header_hash (pr_header p) = id /\ value_valid c ov (pr_header p) (pr_body p) = true /\ body_typed (pr_body p).

Record node_ok (n : Node A) : Prop := {
  ok_config : nd_config n = cfg;
  ok_verifier : nd_claim_verifier n = ov;
  ok_round : cert_ok (cf_validators cfg) (current_height n) (cf_oracle cfg) (nd_round n);
  ok_sound : round_sound (known n) (current_height n) (nd_round n);
  ok_values id p : nd_values n !! id = Some p -> value_for (nd_chain n) id p;
  ok_pending : Forall msg_typed (nd_pending n);
}.
(** A vote is for nil or for a block valid on the chain it was cast on; a
    proposal is of such a block. *)
Definition emit_ok (e : Emit) : Prop :=
  match e with
  | EBroadcast (MsgVote v) => exists c, reached c /\ v_height v = next_height c /\
      (v_block_hash v = NIL \/ exists h b, value_valid c ov h b = true /\ header_hash h = v_block_hash v)
  | EBroadcast (MsgProposal p) => exists c, reached c /\ value_valid c ov (pr_header p) (pr_body p) = true
  | _ => True
  end.
Record node_inv (st : Node A * list Emit) : Prop := {
  inv_ok : node_ok st.1;
  inv_chain : exists bs, extended cfg ov c0 bs (nd_chain st.1) /\ blocks_typed bs /\ nd_history st.1 = cap (h0 ++ bs) /\
    committed st.2 = e0 ++ map block_mark bs;
  inv_emits : Forall emit_ok st.2;
  inv_archive : is_Some (nd_archive st.1) -> is_Some a0;
}.
(** The only errors of a handler: the node's own body does not apply, or the
    archive refuses. *)
Inductive cause : ConsensusError -> Prop :=
| cause_body c k e : reached c ->
    apply_block_with_verifier (lc_state c) (cf_body_source cfg k (next_height c)) ov = Err e -> cause (CoExecution e)
| cause_archive a fb s a' e : is_Some a0 -> record_verified_batch a [fb] s = (a', Err e) -> cause e.

Definition triple {X} (Pre : Node A * list Emit -> Prop) (m : node_m A X) (Q : X -> Node A * list Emit -> Prop) : Prop :=
  forall st, Pre st ->
  match m st with
  | (st', Ok x) => Q x st'
  | (st', Err (Fails e)) => node_inv st' /\ cause e
  | (st', Err NoFuel) => node_inv st'
  end.
Lemma triple_bind {X Y} (m : node_m A X) (f : X -> node_m A Y) Pre R Q :
  triple Pre m R -> (forall x, triple (R x) (f x) Q) -> triple Pre (m ≫= f) Q.
Proof.
  intros Hm Hf st Hst. specialize (Hm st Hst). unfold mbind, node_bind. destruct (m st) as [st' [x|[e|]]]; [|done|done].
  by apply Hf.
Qed.
Lemma triple_post {X} (m : node_m A X) Pre (Q Q' : X -> Node A * list Emit -> Prop) :
  triple Pre m Q -> (forall x st, Q x st -> Q' x st) -> triple Pre m Q'.
Proof. intros Hm HQ st Hst. specialize (Hm st Hst). destruct (m st) as [st' [x|[e|]]]; auto. Qed.
Lemma triple_pre {X} (m : node_m A X) (Pre Pre' : Node A * list Emit -> Prop) Q :
  triple Pre' m Q -> (forall st, Pre st -> Pre' st) -> triple Pre m Q.
Proof. intros Hm HP st Hst. by apply Hm, HP. Qed.

Definition action_ok (n : Node A) (a : Action) : Prop :=
  action_sound (known n) (current_height n) a /\
  match a with Decided qc => exists k, verify_finality qc (cf_validators cfg) (cf_oracle cfg) = Ok k | _ => True end.
Definition work_ok (w : list Action) (st : Node A * list Emit) : Prop := node_inv st /\ Forall (action_ok st.1) w.
Lemma action_ok_mono n n' a : (forall id, known n id -> known n' id) -> current_height n' = current_height n -> action_ok n a -> action_ok n' a.
Proof.
  intros Hk Hh [H1 H2]. split; [|done]. rewrite Hh. destruct a as [? [?|] ?|? ?|? ?|? ?|?|?]; cbn in *; naive_solver.
Qed.
Lemma round_sound_mono n n' s : (forall id, known n id -> known n' id) -> current_height n' = current_height n ->
  round_sound (known n) (current_height n) s -> round_sound (known n') (current_height n') s.
Proof. intros Hk Hh (H1 & H2 & H3). rewrite Hh. split; [eauto|]. split; [eauto|done]. Qed.
Lemma inv_emit n es e : node_inv (n, es) -> emit_ok e -> committed_of e = [] -> node_inv (n, es ++ [e]).
Proof.
  intros [H1 (bs & H2 & H3 & H4 & H5) H6 H7] He Hc. split; [done| |apply Forall_app; split; [done|by constructor]|done].
  exists bs. cbn [fst snd] in *. rewrite committed_app. unfold committed at 2. cbn [flat_map]. by rewrite Hc, !app_nil_r.
Qed.
Lemma inv_node n n' es : node_inv (n, es) -> node_ok n' -> nd_chain n' = nd_chain n -> nd_history n' = nd_history n ->
  (is_Some (nd_archive n') -> is_Some (nd_archive n)) -> node_inv (n', es).
Proof.
  intros [H1 (bs & H2) H3 H4] Hn Hc Hh Ha. split; [done| |done|intros Hs; apply H4, Ha, Hs]. exists bs. cbn [fst snd] in *. by rewrite Hc, Hh.
Qed.
Lemma inv_reached st : node_inv st -> reached (nd_chain st.1).
Proof. intros [_ (bs & H1 & H2 & _) _ _]. by exists bs. Qed.

(** ** One input of the round machine *)
Definition event_ok (n : Node A) (ev : NetEvent) : Prop :=
  match ev with EvProposal _ id _ valid => valid = true -> known n id | _ => True end.
Lemma on_round_triple ev w : triple (fun st => work_ok w st /\ event_ok st.1 ev)
  (on_round (fun r => handle iter_order (cf_oracle cfg) r ev)) (fun actions st => work_ok (w ++ actions) st).
Proof.
  intros [n es] [[Hi Hw] Hev]. pose proof (inv_ok _ Hi) as [E1 E2 E3 E4 E5 E6]. cbn [fst] in *.
  unfold on_round, mbind, node_bind, get_node, modify, mret, node_ret. cbn [fst snd].
  pose proof (handle_cert iter_order iter_perm _ _ (cf_oracle cfg) vset_len vset_nodup (nd_round n) ev E3) as [C1 C2].
  pose proof (handle_sound iter_order iter_perm (cf_oracle cfg) _ _ (nd_round n) ev E4) as [S1 S2]; [by destruct ev|].
  destruct (handle iter_order (cf_oracle cfg) (nd_round n) ev) as [r actions]. cbn [fst snd] in *. split.
  - eapply inv_node; [exact Hi| |done|done|done]. by split.
  - cbn [fst]. apply Forall_app. split; [exact Hw|]. apply Forall_forall. intros a Ha. rewrite Forall_forall in S2.
    split; [exact (S2 a Ha)|]. destruct a; try done. destruct (C2 _ Ha) as (k & Hk & _). by exists k.
Qed.

(** ** The steps of [drive] *)
Lemma learn_ok n es hash p : node_inv (n, es) -> value_for (nd_chain n) hash p ->
  node_inv (learn n hash p, es) /\ known (learn n hash p) hash /\ (forall id, known n id -> known (learn n hash p) id) /\
  nd_chain (learn n hash p) = nd_chain n.
Proof.
  intros Hi Hv. unfold learn. destruct (nd_values n !! hash) as [q|] eqn:E.
  { split; [done|]. split; [by exists q|]. by split. }
  set (n' := set_values n _). assert (forall id, known n id -> known n' id) as Hk.
  { intros id [q' Hq]. unfold known, n'. cbn. destruct (decide (id = hash)) as [->|]; [by rewrite lookup_insert_eq|].
    rewrite lookup_insert_ne by done. by exists q'. }
  split; [|split; [unfold known, n'; cbn; by rewrite lookup_insert_eq|by split]].
  pose proof (inv_ok _ Hi) as [E1 E2 E3 E4 E5 E6]. cbn [fst] in *. eapply inv_node; [exact Hi| |done|done|done].
  split; try done; [by apply (round_sound_mono n n')|]. cbn. intros id q'. destruct (decide (id = hash)) as [->|].
  - rewrite lookup_insert_eq. by intros [= <-].
  - rewrite lookup_insert_ne by done. apply E5.
Qed.

Lemma work_mono n n' w : (forall id, known n id -> known n' id) -> nd_chain n' = nd_chain n ->
  Forall (action_ok n) w -> Forall (action_ok n') w.
Proof. intros Hk Hc Hw. eapply Forall_impl; [exact Hw|]. intros a. apply action_ok_mono; [done|]. unfold current_height. by rewrite Hc. Qed.

Lemma cast_triple k round target w : triple (fun st => work_ok w st /\ (target = NIL \/ known st.1 target))
  (cast iter_order k round target) (fun actions st => work_ok (w ++ actions) st).
Proof.
  intros [n es] [[Hi Hw] Ht]. unfold cast. pose proof (ok_config _ (inv_ok _ Hi)) as Ec. cbn [fst] in *.
  unfold mbind at 1, node_bind at 1, get_node, emit. cbn [fst snd]. unfold mbind at 1, node_bind at 1. cbn [fst snd]. rewrite Ec.
  set (v := sign_vote _ _ _ _ _ _).
  refine (on_round_triple (EvVote v) w (n, es ++ [EBroadcast (MsgVote v)]) _). split; [|done].
  split; [|done]. apply inv_emit; [done| |done]. exists (nd_chain n). split; [by apply (inv_reached (n, es))|]. split; [done|].
  destruct Ht as [->|[q Hq]]; [by left|right]. destruct (ok_values _ (inv_ok _ Hi) _ _ Hq) as (E & Hv & _).
  by exists (pr_header q), (pr_body q).
Qed.

Lemma build_triple round reuse vr w : triple (fun st => work_ok w st /\ match reuse with Some v => known st.1 v | None => True end)
  (build_proposal round reuse vr)
  (fun p st => work_ok w st /\ value_for (nd_chain st.1) (header_hash (pr_header p)) p).
Proof.
  intros [n es] [[Hi Hw] Hr]. pose proof (inv_ok _ Hi) as [E1 E2 _ _ E5 _]. cbn [fst] in *.
  unfold build_proposal, mbind, node_bind, get_node, mret, node_ret, check, next_body, modify. cbn [fst snd].
  destruct reuse as [hash|].
  - destruct Hr as [q Hq]. rewrite Hq. cbn. split; [done|]. destruct (E5 _ _ Hq) as (_ & Hv & Ht). by split.
  - unfold mbind, node_bind, mret, node_ret, get_node. cbn [fst snd]. rewrite E1, E2. unfold co_execution.
    set (body := cf_body_source cfg _ _).
    assert (node_inv (set_bodies n (S (nd_bodies n)), es)) as Hi'.
    { eapply inv_node; [exact Hi| |done|done|done]. destruct (inv_ok _ Hi). by split. }
    destruct (apply_block_with_verifier (nd_state n) body ov) as [next|e] eqn:Ea; cbn.
    + split; [split; [done|exact Hw]|]. split; [done|]. split; [|apply bodies_typed]. apply value_valid_iff. cbn. by repeat (split; [done|]); exists next.
    + split; [done|]. by apply (cause_body (nd_chain n) (nd_bodies n)); [apply (inv_reached (n, es))|].
Qed.

Lemma propose_triple round reuse vr w : triple (fun st => work_ok w st /\ match reuse with Some v => known st.1 v | None => True end)
  (propose iter_order round reuse vr) (fun actions st => work_ok (w ++ actions) st).
Proof.
  unfold propose. eapply triple_bind; [apply build_triple|]. intros p [n es] [[Hi Hw] Hv]. cbn [fst] in *.
  unfold mbind at 1, node_bind at 1, emit. cbn [fst snd]. unfold mbind at 1, node_bind at 1, modify. cbn [fst snd].
  set (hash := header_hash (pr_header p)) in *.
  assert (node_inv (n, es ++ [EBroadcast (MsgProposal p)])) as Hi'.
  { apply inv_emit; [done| |done]. exists (nd_chain n). split; [by apply (inv_reached (n, es))|apply Hv]. }
  destruct (learn_ok _ _ _ _ Hi' Hv) as (Hl & Hk & Hm & Hc).
  refine (on_round_triple (EvProposal round hash vr true) w (learn n hash p, es ++ [EBroadcast (MsgProposal p)]) _).
  split; [split; [done|by eapply work_mono]|]. cbn. by intros _.
Qed.

(** ** The node advances *)
Lemma fresh_ok (n : Node A) : nd_config n = cfg -> nd_claim_verifier n = ov -> Forall msg_typed (nd_pending n) ->
  node_ok (set_values (set_round n (fresh_round n)) ∅).
Proof.
  intros Hc Hv Hp. split; [exact Hc|exact Hv| | | |exact Hp].
  - split; [done|]. split; [cbn; by rewrite Hc|]. intros r t. cbn. by rewrite lookup_empty.
  - apply round_sound_new.
  - intros id p. cbn. by rewrite lookup_empty.
Qed.
Lemma finalize_triple qc : triple (fun st => node_inv st /\ action_ok st.1 (Decided qc)) (commit_block qc) (fun _ st => node_inv st).
Proof.
  intros [n es] [Hi [[Hk Hq] (k & Hv)]]. pose proof (inv_ok _ Hi) as [E1 E2 E3 E4 E5 E6]. cbn [fst] in *.
  destruct Hk as [p Hp]. destruct (E5 _ _ Hp) as (Eh & Hval & Htyped).
  destruct (certified_applies (nd_chain n) ov (pr_header p) (pr_body p) qc _ _ k Hval Hv Hq ltac:(done)) as (root & c' & Happ).
  unfold commit_block, mbind, node_bind, get_node, check, modify, emit, with_archive. cbn [fst snd].
  rewrite Hp. cbn [ok_or]. rewrite E1, E2, Happ. cbn [co_execution map_err]. unfold mbind, node_bind, get_node, modify. cbn [fst snd].
  set (fb := mkFinalized _ _ _).
  assert (forall o, (is_Some o -> is_Some a0) -> node_inv (set_values (set_round (remember_history (set_chain (set_archive n o) c') fb)
    (fresh_round (remember_history (set_chain (set_archive n o) c') fb))) ∅, es ++ [ECommitted (bh_height (pr_header p)) root])) as Hdone.
  { intros o Ho. destruct Hi as [_ (bs & B1 & B2 & B3 & B4) Hem _]. cbn [fst snd] in *. split; cbn [fst snd]; [..|exact Ho].
    - by apply fresh_ok.
    - exists (bs ++ [fb]). unfold set_values, set_round, remember_history, set_history, set_chain, set_archive.
      cbn [nd_chain nd_history]. split; [by eapply ext_block|]. split; [by apply Forall_app; split; [|constructor]|].
      rewrite remembered_cap, B3, cap_app, <- app_assoc. split; [done|]. rewrite committed_app, B4, map_app, <- app_assoc.
      apply extends_iff in Happ as (s' & Hx & -> & _). unfold committed, block_mark. cbn [flat_map committed_of map app fb_header fb].
      by rewrite (ex_root _ _ _ _ _ _ _ _ Hx).
    - apply Forall_app. split; [done|]. by constructor. }
  destruct (nd_archive n) as [a|] eqn:Ea.
  - destruct (record_verified_batch a [fb] (lc_state c')) as [a' [u|e]] eqn:Er; cbn.
    + apply (Hdone (Some a')). intros _. by apply (inv_archive _ Hi).
    + split; [|eapply cause_archive; [by apply (inv_archive _ Hi); exists a|exact Er]]. eapply inv_node; [exact Hi| |done|done|done]. by destruct (inv_ok _ Hi); split.
  - cbn. pose proof (Hdone None ltac:(by intros [? ?])) as HN. assert (set_archive n None = n) as En by (destruct n; cbn in *; by subst).
    by rewrite En in HN.
Qed.

(** ** The recursion *)
Lemma triple_for_each {X} (f : X -> node_m A unit) l (T : X -> Prop) : (forall x, T x -> triple node_inv (f x) (fun _ st => node_inv st)) ->
  Forall T l -> triple node_inv (each f l) (fun _ st => node_inv st).
Proof.
  intros Hf. induction 1 as [|x l Hx _ IH]; cbn [each]; [by intros st Hst|].
  eapply triple_bind; [by apply Hf|]. by intros ?.
Qed.

Section Recursion.
Context (drv : list Action -> node_m A unit) (drv_ok : forall w, triple (work_ok w) (drv w) (fun _ st => node_inv st)).

Lemma start_round_triple : triple node_inv (start_round iter_order drv) (fun _ st => node_inv st).
Proof.
  unfold start_round. eapply triple_bind; [|intros actions; apply (drv_ok actions)].
  eapply triple_pre; [exact (on_round_triple EvStart [])|]. intros st Hst. by split; [split|].
Qed.
Lemma input_triple ev (Q : Node A * list Emit -> Prop) : (forall st, Q st -> node_inv st /\ event_ok st.1 ev) ->
  triple Q (actions ← on_round (fun r => handle iter_order (cf_oracle cfg) r ev); drv actions) (fun _ st => node_inv st).
Proof.
  intros HQ. eapply triple_bind; [|intros actions; apply (drv_ok actions)].
  eapply triple_pre; [exact (on_round_triple ev [])|]. intros st Hst. destruct (HQ st Hst). by split; [split|].
Qed.

Lemma ingest_triple msg : msg_typed msg -> triple node_inv (ingest iter_order drv msg) (fun _ st => node_inv st).
Proof.
  intros Ht [n es] Hi. pose proof (inv_ok _ Hi) as [E1 E2 E3 E4 E5 E6]. cbn [fst] in *. unfold ingest.
  unfold mbind at 1, node_bind at 1, get_node. cbn [fst snd].
  set (h := match msg with MsgProposal p => _ | MsgVote v => _ end). destruct (current_height n <? h).
  { cbn. eapply inv_node; [exact Hi| |done|done|done]. split; try done. cbn. apply Forall_app. split; [done|by constructor]. }
  destruct (h <? current_height n); [exact Hi|]. destruct msg as [p|v].
  - destruct (negb (proposal_is_authentic n p)); [exact Hi|]. unfold validate_proposal. rewrite E2.
    set (hash := header_hash (pr_header p)). destruct (value_valid (nd_chain n) ov (pr_header p) (pr_body p)) eqn:Hv.
    + unfold mbind at 1, node_bind at 1, modify. cbn [fst snd].
      destruct (learn_ok n es hash p Hi ltac:(by split)) as (Hl & Hk & _).
      refine (input_triple (EvProposal (pr_round p) hash (pr_valid_round p) true) (fun st => st = (learn n hash p, es)) _ _ eq_refl).
      intros st ->. split; [done|]. cbn. by intros _.
    + refine (input_triple (EvProposal (pr_round p) hash (pr_valid_round p) false) (fun st => st = (n, es)) _ _ eq_refl).
      intros st ->. by split.
  - rewrite E1. refine (input_triple (EvVote v) (fun st => st = (n, es)) _ _ eq_refl). intros st ->. by split.
Qed.

Lemma commit_triple qc : triple (fun st => node_inv st /\ action_ok st.1 (Decided qc)) (commit iter_order drv qc) (fun _ st => node_inv st).
Proof.
  unfold commit. eapply triple_bind; [apply finalize_triple|]. intros ?. eapply triple_bind; [apply start_round_triple|]. intros ?.
  intros [n es] Hi. pose proof (ok_pending _ (inv_ok _ Hi)) as Hp. cbn [fst] in *.
  unfold mbind at 1, node_bind at 1, get_node. cbn [fst snd]. unfold mbind at 1, node_bind at 1, modify. cbn [fst snd].
  refine (triple_for_each _ (nd_pending n) msg_typed ingest_triple Hp (set_pending n [], es) _).
  eapply inv_node; [exact Hi| |done|done|done]. by destruct (inv_ok _ Hi); split.
Qed.

Lemma drive_step_triple w : triple (work_ok w) (drive_step iter_order drv w) (fun _ st => node_inv st).
Proof.
  assert (forall (m : node_m A (list Action)) w, triple (work_ok w) m (fun actions st => work_ok (w ++ actions) st) ->
    triple (work_ok w) (actions ← m; drv (w ++ actions)) (fun _ st => node_inv st)) as Hseq.
  { intros m w' Hm. eapply triple_bind; [exact Hm|]. intros actions. apply drv_ok. }
  assert (forall e w, emit_ok e -> committed_of e = [] -> triple (work_ok w) (_ ← emit e; drv w) (fun _ st => node_inv st)) as Hemit.
  { intros e w' He Hc [n es] [Hi Hw]. apply drv_ok. split; [by apply inv_emit|done]. }
  intros [n es] [Hi Hw]. destruct w as [|a w]; [exact Hi|]. apply Forall_cons in Hw as [Ha Hw]. cbn [fst] in *.
  assert (work_ok w (n, es)) as Hwork by done.
  destruct a as [round reuse vr|round target|round target|step round|qc|e]; cbn [drive_step].
  - eapply triple_bind; [apply (propose_triple round reuse vr w)|intros actions; apply drv_ok|]. split; [done|]. destruct reuse; [apply Ha|done].
  - eapply triple_bind; [apply (cast_triple Prevote round target w)|intros actions; apply drv_ok|]. split; [done|apply Ha].
  - eapply triple_bind; [apply (cast_triple Precommit round target w)|intros actions; apply drv_ok|]. split; [done|apply Ha].
  - apply (Hemit (EScheduleTimeout (current_height n) round step) w I eq_refl (n, es)). done.
  - by apply commit_triple.
  - apply (Hemit (EEquivocation e) w I eq_refl (n, es)). done.
Qed.
End Recursion.

Lemma drive_triple fuel w : triple (work_ok w) (drive iter_order fuel w) (fun _ st => node_inv st).
Proof.
  revert w. induction fuel as [|fuel IH]; intros w; [by intros st [Hi _]|]. cbn [drive]. by apply drive_step_triple.
Qed.
End NodeFacts.
