(* ===== verification/NodeTheorems.v ===== *)
(** * NodeTheorems: what a validator node does, on every input and outcome

    The nodes reachable from a configured genesis by any inputs, in any order,
    with any fuel: their chain is certified, what they commit is what they
    report, they only vote for blocks that apply, a block they decided is
    never refused, and a state-sync page has the effect of its blocks. *)

From Stdlib Require Import ZArith Lia.
From stdpp Require Import base list gmap sets strings.
From S2P Require Import Prelude Codec Crypto Identity Kel Chain ChainTheorems Round VotingSpec RoundRefines RoundFacts Agreement.
From S2P Require Import Certificates Economy EconomyTheorems Settlement SettlementTheorems Shielded Execution StatePins.
From S2P Require Import ExecutionFacts BlockFacts ExecutionTheorems LedgerSnapshot Wire StateSync Node NodeFacts.
Open Scope Z_scope.

Section NodeTheorems.
Context {P : Primitives} {A : Type} {AR : Archive A}.
Context (iter_order : gmap Z ProposalInfo -> list (Z * ProposalInfo)).

(** ** The inputs of a running node *)
Inductive node_input :=
| IStart
| IMessage (m : ConsensusMessage)
| ITimeout (height round : Z) (step : Step)
| ISync (response : StateSyncResponse).
Definition input_typed (i : node_input) : Prop :=
  match i with
  | IMessage m => msg_typed m
  | ISync r => blocks_typed (payload_blocks (yr_payload r))
  | _ => True
  end.
Definition node_step (fuel : nat) (n : Node A) (i : node_input) : Node A * result stop (list Emit) :=
  match i with
  | IStart => start_node iter_order fuel n
  | IMessage m => on_message iter_order fuel n m
  | ITimeout h r st => on_timeout_node iter_order fuel n h r st
  | ISync r => apply_state_sync iter_order fuel n r
  end.

(** The nodes that run on the configuration [cfg], from the genesis [g]. *)
Inductive node_reach (cfg : NodeConfig) (ov : option ClaimVerifier) (g : LedgerChain) : Node A -> Prop :=
| reach_new n : new_with_genesis cfg g ov = Ok n -> node_reach cfg ov g n
| reach_archive n a : node_reach cfg ov g n -> node_reach cfg ov g (set_archive n a)
| reach_recovered n archive fuel n' : node_reach cfg ov g n -> recover_archive iter_order fuel n archive = (n', Ok tt) -> node_reach cfg ov g n'
| reach_input n i fuel : node_reach cfg ov g n -> input_typed i -> node_reach cfg ov g (node_step fuel n i).1.

(** What the host supplies: a validator set, typed bodies. *)
Record config_ok (cfg : NodeConfig) : Prop := {
  cg_validators : exists rs, ValidatorSet_new rs = Ok (cf_validators cfg);
  cg_bodies k h : body_typed (cf_body_source cfg k h);
}.
Record at_rest (cfg : NodeConfig) (ov : option ClaimVerifier) (n : Node A) : Prop := {
  ar_ok : node_ok cfg ov n;
  ar_history : (length (nd_history n) <= MAX_CATCHUP_BLOCKS)%nat;
}.

Context (iter_perm : forall m, iter_order m ≡ₚ map_to_list m).
Section Config.
Context (cfg : NodeConfig) (ov : option ClaimVerifier) (Hcfg : config_ok cfg).

Lemma at_rest_inv n : at_rest cfg ov n -> node_inv cfg ov (nd_chain n) (nd_history n) [] (nd_archive n) (n, []).
Proof.
  intros [H1 H2]. split; [done| |done|done]. exists []. split; [apply ext_refl|]. split; [constructor|]. cbn.
  rewrite app_nil_r. split; [by rewrite cap_short|done].
Qed.

(** The effect of a handler that extends the chain it finds. *)
Record advanced (n : Node A) (out : Node A * result stop (list Emit)) : Prop := {
  ad_rest : at_rest cfg ov out.1;
  ad_chain : exists bs, extended cfg ov (nd_chain n) bs (nd_chain out.1) /\ blocks_typed bs /\
    nd_history out.1 = cap (nd_history n ++ bs) /\ (forall es, out.2 = Ok es -> committed es = map block_mark bs);
  ad_emits es : out.2 = Ok es -> Forall (emit_ok cfg ov (nd_chain n)) es;
  ad_error e : out.2 = Err (Fails e) -> cause cfg ov (nd_chain n) (nd_archive n) e;
}.
Lemma inv_rest c0 h0 e0 a0 st : node_inv cfg ov c0 h0 e0 a0 st -> at_rest cfg ov st.1.
Proof. intros [H1 (bs & _ & _ & H2 & _) _ _]. split; [done|]. rewrite H2. apply cap_length. Qed.
Lemma run_advances (m : node_m A unit) n : at_rest cfg ov n ->
  (triple cfg ov (nd_chain n) (nd_history n) [] (nd_archive n) (node_inv cfg ov (nd_chain n) (nd_history n) [] (nd_archive n)) m
     (fun _ st => node_inv cfg ov (nd_chain n) (nd_history n) [] (nd_archive n) st)) ->
  advanced n (run_node m n).
Proof.
  intros Hr Hm. specialize (Hm (n, []) (at_rest_inv n Hr)). unfold run_node.
  assert (forall n' es r, node_inv cfg ov (nd_chain n) (nd_history n) [] (nd_archive n) (n', es) -> (forall es', r = Ok es' -> es' = es) ->
    (forall e, r = Err (Fails e) -> cause cfg ov (nd_chain n) (nd_archive n) e) -> advanced n (n', r)) as Hd.
  { intros n' es r Hi Hes He. split; cbn; [exact (inv_rest _ _ _ _ (n', es) Hi)| |by intros es' ->%Hes; apply Hi|done].
    destruct Hi as [_ (bs & B1 & B2 & B3 & B4) _ _]. exists bs. split; [done|]. split; [done|]. split; [done|]. by intros es' ->%Hes. }
  destruct (m (n, [])) as [[n' es] [u|[e|]]]; [apply (Hd n' es)..|apply (Hd n' es)]; try done; try by apply Hm.
  - by intros es' [= <-].
  - intros e' [= <-]. apply Hm.
Qed.

Lemma vset_facts : vs_len (cf_validators cfg) <= MAX_VALIDATORS /\ NoDup (map did_scid (roots (cf_validators cfg))).
Proof. destruct Hcfg as [(rs & (_ & Hnd & Hlen)%ValidatorSet_new_inv) _]. split; [lia|done]. Qed.
Lemma drive_kept c0 h0 e0 a0 fuel w : triple cfg ov c0 h0 e0 a0 (work_ok cfg ov c0 h0 e0 a0 w) (drive iter_order fuel w) (fun _ st => node_inv cfg ov c0 h0 e0 a0 st).
Proof. destruct vset_facts. apply drive_triple; [done|done|done|]. apply Hcfg. Qed.
Lemma start_kept c0 h0 e0 a0 fuel : triple cfg ov c0 h0 e0 a0 (node_inv cfg ov c0 h0 e0 a0) (start_round iter_order (drive iter_order fuel)) (fun _ st => node_inv cfg ov c0 h0 e0 a0 st).
Proof. destruct vset_facts. apply start_round_triple; [done|done|done|]. apply drive_kept. Qed.

(** The live inputs: start, messages and timeouts. *)
Definition live (i : node_input) : Prop := match i with ISync _ => False | _ => True end.
Lemma live_advances fuel n i : at_rest cfg ov n -> live i -> input_typed i -> advanced n (node_step fuel n i).
Proof.
  intros Hr Hl Ht. destruct vset_facts as [V1 V2]. destruct i as [|m|h r st|resp]; [..|done]; cbn [node_step];
    apply run_advances; try done.
  - apply start_kept.
  - apply ingest_triple; [done..|apply drive_kept|done].
  - destruct (h =? current_height n); [|by intros st' Hst'].
    apply (input_triple iter_order iter_perm cfg ov _ _ _ _ V1 V2 (drive iter_order fuel) ltac:(apply drive_kept) (EvTimeout st r)). by intros.
Qed.

(** ** State sync *)
Definition commit_emit (fb : FinalizedBlock) : Emit := ECommitted (bh_height (fb_header fb)) (bh_state_root (fb_header fb)).
Lemma commit_emits bs : committed (map commit_emit bs) = map block_mark bs.
Proof. induction bs as [|fb bs IH]; [done|]. cbn. by f_equal. Qed.
Lemma applied_height c fb root c' vs oracle :
  apply_finalized_block_with_verifier c (fb_header fb) (fb_body fb) (fb_qc fb) vs oracle ov = Ok (root, c') ->
  bh_height (fb_header fb) = next_height c /\ lc_height c' = next_height c /\ root = bh_state_root (fb_header fb).
Proof. intros (s & Hx & -> & ->)%extends_iff. destruct Hx. cbn. unfold next_height. by rewrite ex_root, <- ex_height. Qed.
Lemma next_height_small c : 0 <= lc_height c < U64_MAX -> next_height c = lc_height c + 1.
Proof. intros H. unfold next_height, wrapping_add, U64_MAX in *. apply Z.mod_small. lia. Qed.

Lemma sync_block_ok (n : Node A) c es fb out : nd_config n = cfg -> nd_claim_verifier n = ov -> sync_block n (c, es) fb = Ok out ->
  exists root c',
    apply_finalized_block_with_verifier c (fb_header fb) (fb_body fb) (fb_qc fb) (cf_validators cfg) (cf_oracle cfg) ov = Ok (root, c') /\
    out = (c', es ++ [commit_emit fb]).
Proof.
  intros Hc Hv H. unfold sync_block, co_execution in H. rewrite Hc, Hv in H. apply bind_ok in H as (? & _ & H).
  apply bind_ok in H as (? & H1 & H). apply bind_ok in H as ([root c'] & H2 & H). injection H as <-. apply map_err_ok in H2.
  exists root, c'. split; [done|]. by destruct (applied_height _ _ _ _ _ _ H2) as (_ & _ & ->).
Qed.
Lemma sync_block_applies (n : Node A) c es fb root c' : nd_config n = cfg -> nd_claim_verifier n = ov -> 0 <= lc_height c < U64_MAX ->
  apply_finalized_block_with_verifier c (fb_header fb) (fb_body fb) (fb_qc fb) (cf_validators cfg) (cf_oracle cfg) ov = Ok (root, c') ->
  sync_block n (c, es) fb = Ok (c', es ++ [commit_emit fb]).
Proof.
  intros Hc Hv H0 Ha. unfold sync_block, co_execution. rewrite Hc, Hv, (proj2 (Z.ltb_lt _ _) (proj2 H0)). cbn [mbind result_bind].
  destruct (applied_height _ _ _ _ _ _ Ha) as (E & _ & Er). rewrite E, next_height_small, Z.eqb_refl by lia.
  cbn [negb fail_if mbind result_bind]. rewrite Ha. cbn. unfold commit_emit. by rewrite E, next_height_small, Er by lia.
Qed.
Lemma extended_height c bs c' : extended cfg ov c bs c' -> 0 <= lc_height c -> lc_height c + Z.of_nat (length bs) <= U64_MAX ->
  lc_height c' = lc_height c + Z.of_nat (length bs).
Proof.
  intros H H0. induction H as [|bs c1 fb root c2 _ IH Ha]; intros Hl; [cbn; lia|]. rewrite length_app in *. cbn [length] in *.
  destruct (applied_height _ _ _ _ _ _ Ha) as (_ & -> & _). specialize (IH ltac:(lia)). rewrite next_height_small; lia.
Qed.
Lemma sync_fold_ok (n : Node A) c es bs out : nd_config n = cfg -> nd_claim_verifier n = ov ->
  foldM (sync_block n) (c, es) bs = Ok out -> extended cfg ov c bs out.1 /\ out.2 = es ++ map commit_emit bs.
Proof.
  intros Hc Hv. revert out. induction bs as [|fb bs IH] using rev_ind; intros [c2 es2] H.
  - injection H as <- <-. cbn. rewrite app_nil_r. by split; [apply ext_refl|].
  - rewrite foldM_app in H. apply bind_ok in H as ([c1 es1] & H1 & H). apply IH in H1 as [X1 E1]. cbn [fst snd foldM] in *.
    apply bind_ok in H as (out & H & [= ->]). apply sync_block_ok in H as (root & c' & Ha & [= -> ->]); [|done|done].
    split; [by eapply ext_block|]. by rewrite E1, map_app, app_assoc.
Qed.
Lemma sync_fold_applies (n : Node A) c es bs c' : nd_config n = cfg -> nd_claim_verifier n = ov -> 0 <= lc_height c ->
  lc_height c + Z.of_nat (length bs) <= U64_MAX -> extended cfg ov c bs c' ->
  foldM (sync_block n) (c, es) bs = Ok (c', es ++ map commit_emit bs).
Proof.
  intros Hc Hv H0 Hl X. induction X as [|bs c1 fb root c2 X1 IH Ha]; [cbn; by rewrite app_nil_r|].
  rewrite length_app in Hl. cbn [length] in Hl. pose proof (extended_height _ _ _ X1 H0 ltac:(lia)) as Hh.
  rewrite foldM_app, IH by lia. cbn [mbind result_bind foldM].
  rewrite (sync_block_applies n c1 _ fb root c2 Hc Hv ltac:(lia) Ha). cbn. by rewrite map_app, app_assoc.
Qed.

(** The node a verified page leaves, before the new round starts. *)
Lemma fold_remembered bs h : (length h <= MAX_CATCHUP_BLOCKS)%nat -> fold_left remembered bs h = cap (h ++ bs).
Proof.
  revert h. induction bs as [|fb bs IH]; intros h Hl; cbn [fold_left]; [by rewrite app_nil_r, cap_short|].
  rewrite remembered_cap, IH by apply cap_length. by rewrite cap_app, <- app_assoc.
Qed.
Lemma fold_remember (n : Node A) bs : fold_left remember_history bs n = set_history n (fold_left remembered bs (nd_history n)).
Proof. revert n. induction bs as [|fb bs IH]; intros n; cbn [fold_left]; [by destruct n|]. by rewrite IH. Qed.
Lemma installed (n : Node A) c bs rep : at_rest cfg ov n -> at_rest cfg ov (install n c bs rep) /\ nd_chain (install n c bs rep) = c /\
  nd_history (install n c bs rep) = cap ((if rep then [] else nd_history n) ++ bs) /\ nd_archive (install n c bs rep) = nd_archive n /\
  nd_round (install n c bs rep) = fresh_round (install n c bs rep) /\ nd_bodies (install n c bs rep) = nd_bodies n.
Proof.
  intros [Ho Hl]. unfold install. cbv zeta. rewrite fold_remember.
  assert (nd_history (set_pending (set_values (set_round (set_history (if rep then set_history (set_chain n c) [] else set_chain n c)
    (fold_left remembered bs (nd_history (if rep then set_history (set_chain n c) [] else set_chain n c))))
    (fresh_round (set_history (if rep then set_history (set_chain n c) [] else set_chain n c)
      (fold_left remembered bs (nd_history (if rep then set_history (set_chain n c) [] else set_chain n c)))))) ∅) []) =
    cap ((if rep then [] else nd_history n) ++ bs)) as Eh.
  { destruct rep; cbn; apply fold_remembered; cbn; [lia|done]. }
  split; [split; [|rewrite Eh; apply cap_length]|split; [by destruct rep|split; [exact Eh|by destruct rep]]].
  assert (forall m : Node A, nd_config m = cfg -> nd_claim_verifier m = ov ->
    node_ok cfg ov (set_pending (set_values (set_round m (fresh_round m)) ∅) [])) as Hm.
  { intros m Hc Hv. destruct (fresh_ok cfg ov (set_pending m []) Hc Hv ltac:(constructor)). by split. }
  apply Hm; destruct rep; apply Ho.
Qed.

(** Start round 0 of the node's height, with what was already reported. *)
Definition resume (fuel : nat) (n : Node A) (es : list Emit) : Node A * result stop (list Emit) :=
  match start_round iter_order (drive iter_order fuel) (n, es) with
  | ((n', es'), Ok _) => (n', Ok es')
  | ((n', _), Err e) => (n', Err e)
  end.
Lemma for_each_emit es (n : Node A) es0 : each emit es (n, es0) = ((n, es0 ++ es), Ok tt).
Proof.
  revert es0. induction es as [|e es IH]; intros es0; cbn [each]; [by rewrite app_nil_r|].
  unfold mbind, node_bind, emit. cbn [fst snd]. by rewrite IH, <- app_assoc.
Qed.
Lemma apply_state_sync_wrong fuel (n : Node A) resp : yr_network_id resp <> ls_network_id (nd_state n) ->
  apply_state_sync iter_order fuel n resp = (n, Err (Fails StateSyncWrongNetwork)).
Proof.
  intros E. unfold apply_state_sync, run_node, apply_state_sync_internal. unfold mbind at 1, node_bind at 1, get_node. cbn [fst snd].
  by rewrite (bool_decide_eq_false_2 _ E).
Qed.
Lemma apply_state_sync_eq fuel (n : Node A) resp : yr_network_id resp = ls_network_id (nd_state n) ->
  apply_state_sync iter_order fuel n resp =
  match verify_state_sync n resp with
  | Err e => (n, Err (Fails e))
  | Ok (c, es, bs, rep) =>
      if lc_height c =? finalized_height n then (n, Ok [])
      else match nd_archive n with
      | None => resume fuel (install n c bs rep) es
      | Some a =>
          match install_verified_response a resp (lc_state c) with
          | (a', Ok _) => resume fuel (install (set_archive n (Some a')) c bs rep) es
          | (a', Err e) => (set_archive n (Some a'), Err (Fails e))
          end
      end
  end.
Proof.
  intros Hn. unfold apply_state_sync, run_node, apply_state_sync_internal.
  unfold mbind at 1, node_bind at 1, get_node. cbn [fst snd]. rewrite (bool_decide_eq_true_2 _ Hn). cbn [negb fail_if].
  unfold mbind at 1, node_bind at 1, check. unfold mbind at 1, node_bind at 1.
  destruct (verify_state_sync n resp) as [[[[c es] bs] rep]|e]; [|done]. destruct (_ =? _); [done|].
  unfold with_archive, resume. unfold mbind at 1, node_bind at 1. unfold mbind at 1, node_bind at 1, get_node. cbn [fst snd].
  destruct (nd_archive n) as [a|] eqn:Ea.
  - destruct (install_verified_response a resp (lc_state c)) as [a' [u|e]]; [|done].
    unfold mbind, node_bind, modify. cbn [fst snd check]. rewrite for_each_emit. cbn [app fst snd].
    by destruct (start_round _ _ _) as [[n' es'] [u'|e]].
  - unfold mbind, node_bind, modify, mret, node_ret. cbn [fst snd]. rewrite for_each_emit. cbn [app fst snd].
    by destruct (start_round _ _ _) as [[n' es'] [u'|e]].
Qed.
Lemma commit_emits_ok c0 bs : Forall (emit_ok cfg ov c0) (map commit_emit bs).
Proof. apply Forall_map, Forall_forall. by intros. Qed.
Lemma resume_kept fuel n es : at_rest cfg ov n -> Forall (emit_ok cfg ov (nd_chain n)) es ->
  let out := resume fuel n es in
  at_rest cfg ov out.1 /\ (exists bs, extended cfg ov (nd_chain n) bs (nd_chain out.1)) /\
  (forall e, out.2 = Err (Fails e) -> cause cfg ov (nd_chain n) (nd_archive n) e).
Proof.
  intros Hr Hes. assert (node_inv cfg ov (nd_chain n) (nd_history n) (committed es) (nd_archive n) (n, es)) as Hi.
  { destruct (at_rest_inv n Hr) as [H1 (bs & H2 & H3 & H4 & H5) _ H7]. split; [done| |done|done]. exists bs. split; [done|]. split; [done|].
    split; [done|]. cbn in *. symmetry in H5. apply map_eq_nil in H5 as ->. by rewrite app_nil_r. }
  pose proof (start_kept _ _ _ _ fuel (n, es) Hi) as Hs. cbv zeta. unfold resume.
  destruct (start_round iter_order (drive iter_order fuel) (n, es)) as [[n' es'] r].
  assert (node_inv cfg ov (nd_chain n) (nd_history n) (committed es) (nd_archive n) (n', es')) as Hi' by (destruct r as [u|[e|]]; [done|by destruct Hs|done]).
  assert (exists bs, extended cfg ov (nd_chain n) bs (nd_chain n')) as He by (destruct Hi' as [_ (bs & B & _) _ _]; by exists bs).
  pose proof (inv_rest _ _ _ _ _ Hi') as Hrest. destruct r as [u|[e|]]; cbn in *; (split; [done|]; split; [done|]); try done.
  intros e' [= <-]. apply Hs.
Qed.

(** ** The nodes a host can bring about *)
(** The chain stands on a certificate of its own validators for a header that
    commits to its state. *)
Definition tip_certified (c : LedgerChain) : Prop := exists header qc k,
  verify_finality qc (cf_validators cfg) (cf_oracle cfg) = Ok k /\ qc_height qc = lc_height c /\ qc_block_hash qc = lc_tip_hash c /\
  header_hash header = lc_tip_hash c /\ bh_height header = lc_height c /\ bh_state_root header = commitment (lc_state c).
Lemma extended_certified c bs c' : extended cfg ov c bs c' -> c' = c \/ tip_certified c'.
Proof.
  intros [|bs' c1 fb root c2 _ Ha]; [by left|right]. apply extends_iff in Ha as (s & [_ [k Hk] _ _ _ [E1 E2] _ E3] & _ & ->).
  by exists (fb_header fb), (fb_qc fb), k.
Qed.
Lemma snapshot_certified sp net gen c : into_chain_with_verifier sp net (cf_validators cfg) (cf_oracle cfg) gen ov = Ok c ->
  tip_certified c /\ ls_network_id (lc_state c) = net.
Proof.
  unfold into_chain_with_verifier, co_execution. intros H%map_err_ok. unfold from_finalized_snapshot_with_verifier in H.
  apply bind_ok in H as (? & H1 & H). do 4 (apply bind_ok in H as (? & _ & H)). apply bind_ok in H as (k & H2 & H).
  apply bind_ok in H as (? & H3 & H). apply bind_ok in H as (? & H4 & H). injection H as <-.
  apply fail_if_ok in H1, H3, H4. apply map_err_ok in H2. bool_prop. split; [|done].
  exists (sp_header sp), (sp_qc sp), k. cbn. by repeat (split; [congruence|]).
Qed.
Lemma verify_facts (n : Node A) resp c es bs rep c0 : nd_config n = cfg -> nd_claim_verifier n = ov ->
  verify_state_sync n resp = Ok (c, es, bs, rep) ->
  Forall (emit_ok cfg ov c0) es /\ (c = nd_chain n \/ tip_certified c).
Proof.
  intros Hc Hv. unfold verify_state_sync. destruct (yr_payload resp) as [| |bs'|sp bs']; [done|done| |]; intros H.
  - apply bind_ok in H as ([c1 es1] & H & [= <- <- <- <-]). apply (sync_fold_ok n) in H as [X E]; [|done..]. cbn [fst snd app] in *. subst es1.
    split; [apply commit_emits_ok|by eapply extended_certified].
  - apply bind_ok in H as (? & _ & H). apply bind_ok in H as (c1 & Hs & H). rewrite Hc, Hv in Hs. apply snapshot_certified in Hs as [Hs _].
    apply bind_ok in H as ([c2 es1] & H & [= <- <- <- <-]). apply (sync_fold_ok n) in H as [X E]; [|done..]. cbn [fst snd] in *. subst es1.
    split; [apply Forall_app; split; [by constructor|apply commit_emits_ok]|right].
    by destruct (extended_certified _ _ _ X) as [->|?].
Qed.
Lemma sync_rest fuel (n : Node A) resp : at_rest cfg ov n ->
  let out := apply_state_sync iter_order fuel n resp in
  at_rest cfg ov out.1 /\ (nd_chain out.1 = nd_chain n \/ tip_certified (nd_chain out.1)).
Proof.
  intros Hr. cbv zeta. destruct (decide (yr_network_id resp = ls_network_id (nd_state n))) as [E|E].
  2:{ rewrite apply_state_sync_wrong by done. split; [exact Hr|by left]. }
  rewrite apply_state_sync_eq by done. destruct (verify_state_sync n resp) as [[[[c es] bs] rep]|e] eqn:Ev; [|split; [exact Hr|by left]].
  destruct (verify_facts n resp c es bs rep c (ok_config _ _ _ (ar_ok _ _ _ Hr)) (ok_verifier _ _ _ (ar_ok _ _ _ Hr)) Ev) as [He Hc].
  destruct (_ =? _); [split; [exact Hr|by left]|].
  assert (forall m : Node A, at_rest cfg ov m -> nd_chain m = nd_chain n -> let out := resume fuel (install m c bs rep) es in
    at_rest cfg ov out.1 /\ (nd_chain out.1 = nd_chain n \/ tip_certified (nd_chain out.1))) as Hres.
  { intros m Hm Hmc. destruct (installed m c bs rep Hm) as (Hi & Hic & _ & _).
    destruct (resume_kept fuel (install m c bs rep) es Hi) as (H1 & (bs' & H2) & _); [by rewrite Hic|]. split; [done|].
    rewrite Hic in H2. destruct (extended_certified _ _ _ H2) as [->|?]; [|by right]. destruct Hc as [->|?]; [by left|by right]. }
  assert (forall a, at_rest cfg ov (set_archive n a)) as Ha by (intros a; destruct Hr as [[] ?]; by split; [split|]).
  destruct (nd_archive n) as [a|]; [|by apply Hres].
  destruct (install_verified_response a resp (lc_state c)) as [a' [u|e]]; [by apply Hres|by split; [apply Ha|left]].
Qed.
(** Recovery from an archive: pages without a start of the round. *)
Lemma recovering_eq (n : Node A) resp : run_node (apply_state_sync_internal iter_order 0 resp false false) n =
  if negb (bool_decide (yr_network_id resp = ls_network_id (nd_state n))) then (n, Err (Fails StateSyncWrongNetwork)) else
  match verify_state_sync n resp with
  | Err e => (n, Err (Fails e))
  | Ok (c, es, bs, rep) => if lc_height c =? finalized_height n then (n, Ok []) else (install n c bs rep, Ok es)
  end.
Proof.
  unfold run_node, apply_state_sync_internal. unfold mbind at 1, node_bind at 1, get_node. cbn [fst snd].
  unfold mbind at 1, node_bind at 1, check, fail_if. destruct (negb _); [done|]. unfold mbind at 1, node_bind at 1.
  destruct (verify_state_sync n resp) as [[[[c es] bs] rep]|e]; [|done]. destruct (_ =? _); [done|].
  unfold mbind, node_bind, modify, mret, node_ret. cbn [fst snd]. by rewrite for_each_emit.
Qed.
Lemma recover_loop_rest fuel : forall (n : Node A), at_rest cfg ov n ->
  at_rest cfg ov (recover_loop iter_order fuel n).1 /\
  (nd_chain (recover_loop iter_order fuel n).1 = nd_chain n \/ tip_certified (nd_chain (recover_loop iter_order fuel n).1)).
Proof.
  induction fuel as [|fuel IH]; intros n Hr; [by split; [|left]|]. cbn [recover_loop].
  destruct (nd_archive n) as [a|]; [|by split; [|left]]. destruct (archive_response a _) as [a' [resp|e]].
  2:{ split; [destruct Hr as [[] ?]; by split; [split|]|by left]. }
  set (n1 := set_archive n (Some a')). assert (at_rest cfg ov n1) as Hr1 by (destruct Hr as [[] ?]; by split; [split|]).
  rewrite recovering_eq. destruct (negb _); [by split; [|left]|].
  destruct (verify_state_sync n1 resp) as [[[[c es] bs] rep]|e] eqn:Ev; [|by split; [|left]].
  destruct (verify_facts n1 resp c es bs rep c (ok_config _ _ _ (ar_ok _ _ _ Hr1)) (ok_verifier _ _ _ (ar_ok _ _ _ Hr1)) Ev) as [_ Hc].
  assert (forall m : Node A, at_rest cfg ov m -> (nd_chain m = nd_chain n \/ tip_certified (nd_chain m)) ->
    let out := if finalized_height m =? finalized_height n then (m, Ok tt) else recover_loop iter_order fuel m in
    at_rest cfg ov out.1 /\ (nd_chain out.1 = nd_chain n \/ tip_certified (nd_chain out.1))) as Hnext.
  { intros m Hm Hmc. cbv zeta. destruct (_ =? _); [done|]. destruct (IH m Hm) as [H1 [H2|H2]]; [|by split; [|right]].
    split; [done|]. rewrite H2. exact Hmc. }
  destruct (_ =? _); [exact (Hnext n1 Hr1 (or_introl eq_refl))|].
  destruct (installed n1 c bs rep Hr1) as (Hi & Hic & _). apply (Hnext _ Hi). by rewrite Hic.
Qed.
Lemma recover_rest fuel (n : Node A) archive : at_rest cfg ov n ->
  at_rest cfg ov (recover_archive iter_order fuel n archive).1 /\
  (nd_chain (recover_archive iter_order fuel n archive).1 = nd_chain n \/ tip_certified (nd_chain (recover_archive iter_order fuel n archive).1)).
Proof.
  intros Hr. unfold recover_archive. destruct (negb _); [by split; [|left]|].
  apply (recover_loop_rest fuel (set_archive n (Some archive))). destruct Hr as [[] ?]; by split; [split|].
Qed.
Lemma reach_rest g n : node_reach cfg ov g n -> at_rest cfg ov n /\ (nd_chain n = g \/ tip_certified (nd_chain n)).
Proof.
  induction 1 as [n Hn|n a _ [IH1 IH2]|n archive fuel n' _ [IH1 IH2] Hrec|n i fuel _ [IH1 IH2] Ht].
  - unfold new_with_genesis in Hn. apply bind_ok in Hn as (? & H0 & Hn). apply bind_ok in Hn as (? & _ & [= <-]). apply fail_if_ok in H0.
    bool_prop. split; [|by left]. split; [|cbn; lia]. split; [done|done| | | |constructor].
    + split; [|split; [done|]]; cbn; [unfold current_height, next_height; cbn; by rewrite H0|]. intros r t. by rewrite lookup_empty.
    + replace (current_height _) with (next_height (genesis_for_network MININET_NETWORK_ID 0)); [apply round_sound_new|].
      unfold current_height, next_height. cbn. by rewrite H0.
    + intros id p. cbn. by rewrite lookup_empty.
  - destruct IH1 as [[] ?]. split; [by split; [split|]|done].
  - destruct (recover_rest fuel n archive IH1) as [H1 H2]. rewrite Hrec in H1, H2. cbn [fst] in *. split; [done|].
    destruct H2 as [->|?]; [done|by right].
  - destruct i as [|m|h r st|resp].
    4:{ destruct (sync_rest fuel n resp IH1) as [H1 [H2|H2]]; [|by split; [|right]]. split; [done|]. cbn [node_step]. by rewrite H2. }
    all: match goal with |- context [node_step _ _ ?i] => destruct (live_advances fuel n i IH1 I Ht) as [H1 (bs & H2 & _) _ _] end;
      (split; [done|]); destruct (extended_certified _ _ _ H2) as [->|?]; [done|by right].
Qed.

(** What a host builds over an archive alone is a recovered node. *)
Lemma new_with_archive_reach fuel archive n : new_with_archive_and_verifier iter_order fuel cfg archive ov = (n, Ok tt) ->
  node_reach cfg ov (genesis_for_network MININET_NETWORK_ID 0) n.
Proof. intros H. eapply reach_recovered; [|exact H]. apply reach_new. done. Qed.

(** A body of payments applies with any verifier. *)
Lemma payments_any_verifier s claims : apply_block_with_verifier s (body_new claims) ov = apply_block s (body_new claims).
Proof. done. Qed.
Lemma extended_run g hist c bs c' : verifier_ok ov -> run g hist (lc_state c) -> extended cfg ov c bs c' -> blocks_typed bs ->
  exists hist', run g hist' (lc_state c').
Proof.
  intros Hv Hr H. induction H as [|bs c1 fb root c2 _ IH Ha]; intros Ht; [by exists hist|].
  apply Forall_app in Ht as [Ht1 Ht2]. apply Forall_cons in Ht2 as [Ht2 _]. destruct (IH Ht1) as [h' Hr'].
  apply extends_iff in Ha as (s & Hx & _ & ->). eexists. eapply run_block; [exact Hr'|exact Ht2|exact Hv|apply Hx].
Qed.
End Config.

(** C9: A node commits exactly certified blocks, and reports exactly what it
    commits.  Whatever reachable node is given whatever message, timer or
    start, and whether the handler returns or fails, the chain it leaves is
    the chain it found extended by blocks that each pass
    [apply_finalized_block] behind a certificate of the node's validators;
    the history is the last 1024 of its blocks and these, and the heights and
    state commitments it reports are those blocks', in order. *)
Theorem commits_are_certified_blocks cfg ov g n fuel i : config_ok cfg -> node_reach cfg ov g n -> live i -> input_typed i ->
  exists bs, extended cfg ov (nd_chain n) bs (nd_chain (node_step fuel n i).1) /\
    nd_history (node_step fuel n i).1 = cap (nd_history n ++ bs) /\
    (forall es, (node_step fuel n i).2 = Ok es -> committed es = map block_mark bs).
Proof.
  intros Hc Hr Hl Ht. destruct (reach_rest cfg ov Hc g n Hr) as [Hn _].
  destruct (live_advances cfg ov Hc fuel n i Hn Hl Ht) as [_ (bs & H1 & _ & H2 & H3) _ _]. by exists bs.
Qed.

(** C10: A node votes only for blocks it executed.  Every prevote, precommit and
    proposal a handler broadcasts is for nil or for a header that is next on
    the chain the node held at that vote's height, at its logical time, with
    a body that has the header's body root and executes on the node's own
    state to the header's state root; whatever the peers sent. *)
Theorem votes_only_for_valid_blocks cfg ov g n fuel i es e : config_ok cfg -> node_reach cfg ov g n -> live i -> input_typed i ->
  (node_step fuel n i).2 = Ok es -> e ∈ es ->
  match e with
  | EBroadcast (MsgVote v) => exists c bs, extended cfg ov (nd_chain n) bs c /\ v_height v = next_height c /\
      (v_block_hash v = NIL \/ exists h b, header_hash h = v_block_hash v /\ bh_height h = next_height c /\ bh_prev_hash h = lc_tip_hash c /\
         bh_timestamp_ms h = bh_height h /\ bh_body_root h = body_hash b /\
         exists s, apply_block_with_verifier (lc_state c) b ov = Ok s /\ commitment s = bh_state_root h)
  | EBroadcast (MsgProposal p) => exists c bs, extended cfg ov (nd_chain n) bs c /\ value_valid c ov (pr_header p) (pr_body p) = true
  | _ => True
  end.
Proof.
  intros Hc Hr Hl Ht Hes He. destruct (reach_rest cfg ov Hc g n Hr) as [Hn _].
  pose proof (ad_emits _ _ _ _ (live_advances cfg ov Hc fuel n i Hn Hl Ht) es Hes) as Hok. rewrite Forall_forall in Hok. specialize (Hok e He).
  destruct e as [[p|v]| | |]; try done; cbn in Hok; destruct Hok as (c & (bs & X & _) & Hv); exists c, bs; [done|].
  destruct Hv as [Hh Hv]. split; [done|]. split; [done|]. destruct Hv as [?|(h & b & Hb & E)]; [by left|right].
  apply value_valid_iff in Hb. by exists h, b.
Qed.

(** C12: A decided block is never refused.  A handler of a reachable node, given
    a message, a timer or the start, fails for two reasons only: the body its own source builds does not execute, or
    its archive returns that error.  A certificate its round machine decided
    on, of whatever value, is never stalled on, never for another height,
    parent or root, and never refused by the ledger. *)
Theorem decided_blocks_always_commit cfg ov g n fuel i e : config_ok cfg -> node_reach cfg ov g n -> live i -> input_typed i ->
  (node_step fuel n i).2 = Err (Fails e) ->
  (exists c bs k e', extended cfg ov (nd_chain n) bs c /\ e = CoExecution e' /\
     apply_block_with_verifier (lc_state c) (cf_body_source cfg k (next_height c)) ov = Err e') \/
  (is_Some (nd_archive n) /\ exists a fb s a', record_verified_batch a [fb] s = (a', Err e)).
Proof.
  intros Hc Hr Hl Ht He. destruct (reach_rest cfg ov Hc g n Hr) as [Hn _].
  destruct (ad_error _ _ _ _ (live_advances cfg ov Hc fuel n i Hn Hl Ht) e He) as [c k e' (bs & X & _) Ha|a fb s a' e' Hs Ha].
  - left. by exists c, bs, k, e'.
  - right. split; [done|]. by exists a, fb, s, a'.
Qed.

(** C13: Peers cannot stop a node that proposes payments.  On a chain execution
    reaches from a genesis, a node without archive whose source builds bodies
    of at most 4096 payments never returns an error, whatever messages,
    proposals and timers it is given. *)
Theorem payments_node_never_fails cfg ov g gs hist n fuel i e : config_ok cfg -> node_reach cfg ov g n -> live i -> input_typed i ->
  genesis_state gs -> verifier_ok ov -> run gs hist (lc_state (nd_chain n)) -> nd_archive n = None ->
  (forall k h, exists claims, cf_body_source cfg k h = body_new claims /\ Z.of_nat (length claims) <= MAX_CLAIMS_PER_BLOCK) ->
  (node_step fuel n i).2 <> Err (Fails e).
Proof.
  intros Hc Hr Hl Ht Hg Hv Hrun Ha Hb He. destruct (reach_rest cfg ov Hc g n Hr) as [Hn _].
  destruct (ad_error _ _ _ _ (live_advances cfg ov Hc fuel n i Hn Hl Ht) e He) as [c k e' (bs & X & Hbs) Hf|a fb s a' e' Hs _].
  - destruct (extended_run cfg ov gs hist _ _ _ Hv Hrun X Hbs) as [h' Hrun']. destruct (run_invariant gs h' _ Hg Hrun') as (Hbooks & _).
    destruct (Hb k (next_height c)) as (claims & E & Hlen). rewrite E, payments_any_verifier in Hf.
    pose proof (bt_claims _ (cg_bodies _ Hc k (next_height c))) as Hcl. rewrite E in Hcl.
    destruct (payments_block (lc_state c) claims Hbooks Hcl Hlen) as (s' & Hs' & _). congruence.
  - rewrite Ha in Hs. by destruct Hs.
Qed.

(** C11: The tip always stands on a certificate.  However a host brought a node
    about, by consensus, by catching up, by pages and checkpoints of any
    peer, by recovering from any archive, and whatever failed on the way, its chain is the configured genesis
    or its validators certified, by a quorum, a header with the tip's hash and
    height that commits to exactly the ledger state the node holds. *)
Theorem tip_always_certified cfg ov g n : config_ok cfg -> node_reach cfg ov g n ->
  nd_chain n = g \/ exists header qc k, verify_finality qc (cf_validators cfg) (cf_oracle cfg) = Ok k /\
    qc_height qc = lc_height (nd_chain n) /\ qc_block_hash qc = header_hash header /\ header_hash header = lc_tip_hash (nd_chain n) /\
    bh_height header = lc_height (nd_chain n) /\ bh_state_root header = commitment (nd_state n).
Proof.
  intros Hc Hr. destruct (proj2 (reach_rest cfg ov Hc g n Hr)) as [?|(header & qc & k & H1 & H2 & H3 & H4 & H5 & H6)]; [by left|right].
  exists header, qc, k. repeat (split; [congruence|]). done.
Qed.

(** C15: Catching up is executing.  For a reachable node without archive, a page
    of blocks that extend its chain one by one gives the node on the extended
    chain, with its history the last 1024 blocks, an empty round and no
    buffered message, started on the next height after reporting each block;
    and a page that does not extend the chain, at whichever block it fails,
    is refused and leaves the node exactly as it was. *)
Theorem catch_up_is_execution cfg ov g n fuel bs : config_ok cfg -> node_reach cfg ov g n -> nd_archive n = None ->
  0 <= finalized_height n -> finalized_height n + Z.of_nat (length bs) <= U64_MAX ->
  (forall c, extended cfg ov (nd_chain n) bs c -> bs <> [] ->
     exists n1, nd_chain n1 = c /\ nd_history n1 = cap (nd_history n ++ bs) /\ nd_round n1 = fresh_round n1 /\
       nd_values n1 = ∅ /\ nd_pending n1 = [] /\ catch_up iter_order fuel n bs = resume fuel n1 (map commit_emit bs)) /\
  ((forall c, ~ extended cfg ov (nd_chain n) bs c) -> exists e, catch_up iter_order fuel n bs = (n, Err (Fails e))).
Proof.
  intros Hc Hr Ha H0 Hl. destruct (reach_rest cfg ov Hc g n Hr) as [Hn _]. pose proof (ar_ok _ _ _ Hn) as Ho.
  unfold catch_up. rewrite apply_state_sync_eq by done. unfold verify_state_sync. cbn [yr_payload]. split.
  - intros c X Hne. rewrite (sync_fold_applies cfg ov n (nd_chain n) [] bs c (ok_config _ _ _ Ho) (ok_verifier _ _ _ Ho) H0 Hl X).
    cbn [mbind result_bind app]. pose proof (extended_height cfg ov _ _ _ X H0 Hl) as Hh.
    rewrite (proj2 (Z.eqb_neq _ _)), Ha; [|rewrite Hh; unfold finalized_height; destruct bs; [done|cbn [length]; lia]].
    destruct (installed cfg ov n c bs false Hn) as (_ & I1 & I2 & _).
    exists (install n c bs false). by repeat (split; [done|]).
  - intros Hno. destruct (foldM (sync_block n) (nd_chain n, []) bs) as [[c es]|e] eqn:Ef.
    + apply (sync_fold_ok cfg ov n) in Ef as [X _]; [|apply Ho..]. by destruct (Hno c).
    + cbn [mbind result_bind]. by exists e.
Qed.
End NodeTheorems.

Section Fresh.
Context {P : Primitives} {A : Type} {AR : Archive A}.
Context (iter_order : gmap Z ProposalInfo -> list (Z * ProposalInfo)).
Context (iter_perm : forall m, iter_order m ≡ₚ map_to_list m).

(** Nothing happens on a round no message has reached. *)
Lemma idle_pass s : rd_step s = SPropose -> rd_proposals s = ∅ -> rd_votes s = ∅ -> rd_decided s = false ->
  evaluate iter_order s = (s, []).
Proof.
  intros Hs Hp Hv Hd. unfold evaluate. rewrite Hd. unfold eval_fuel. cbn [eval_loop].
  assert (pass iter_order s = (s, [])) as ->; [|by rewrite Hd].
  assert (iter_order ∅ = []) as Hi by (apply Permutation_nil; symmetry; rewrite iter_perm; by rewrite map_to_list_empty).
  assert (Forall (fun f => f s = (s, [])) (rules iter_order)) as Hall.
  { pose proof (quorum_positive s) as Hq.
    repeat constructor; [unfold rule_propose_fresh|unfold rule_propose_polc|unfold rule_prevote_timeout|unfold rule_prevote_quorum
      |unfold rule_prevote_nil|unfold rule_precommit_timeout, votes_at|unfold rule_decide|unfold rule_skip_round, skip_candidates];
      rewrite ?Hs, ?Hp, ?Hv, ?lookup_empty, ?Hi, ?map_to_list_empty; try done; try (by case_match).
    rewrite (proj2 (Z.leb_gt _ _)) by done. by case_match. }
  clear - Hall. unfold pass. induction (rules iter_order) as [|f fs IH]; [done|]. apply Forall_cons in Hall as [Hf Hall].
  cbn [fold_left]. unfold run_rule at 2. cbn [fst snd]. rewrite Hf. cbn [app]. by apply IH.
Qed.
Lemma start_fresh h vs d : is_local_proposer (Round_new h vs d) 0 = true ->
  (start iter_order (Round_new h vs d)).2 = [Propose 0 None (-1)].
Proof.
  intros Hl. unfold start, enter_round_core. cbn [rd_decided rd_started_rounds Round_new orb]. rewrite bool_decide_eq_false_2 by set_solver.
  set (s := set_position _ _ _). assert (is_local_proposer s 0 = true) as -> by done. cbn [rd_valid_value s set_position set_guards].
  unfold then_evaluate. cbn [fst snd]. by rewrite idle_pass.
Qed.

Lemma own_body_fails fuel (n : Node A) es e : nd_round n = fresh_round n ->
  is_local_proposer (Round_new (current_height n) (cf_validators (nd_config n)) (cf_root (nd_config n))) 0 = true ->
  apply_block_with_verifier (nd_state n) (cf_body_source (nd_config n) (nd_bodies n) (current_height n)) (nd_claim_verifier n) = Err e ->
  exists n', resume iter_order (S fuel) n es = (n', Err (Fails (CoExecution e))) /\ nd_chain n' = nd_chain n.
Proof.
  intros Er Hp He. unfold resume, start_round, on_round. unfold mbind at 1, node_bind at 1. unfold mbind at 1, node_bind at 1, get_node. cbn [fst snd].
  rewrite Er. pose proof (start_fresh _ _ _ Hp) as Es. unfold fresh_round.
  destruct (start iter_order _) as [r acts]. cbn [snd] in Es. subst acts.
  unfold mbind at 1, node_bind at 1, modify, mret, node_ret. cbn [fst snd drive drive_step].
  unfold mbind at 1, node_bind at 1. unfold propose. unfold mbind at 1, node_bind at 1. unfold build_proposal.
  unfold mbind at 1, node_bind at 1, get_node. unfold mbind at 1, node_bind at 1. unfold mbind at 1, node_bind at 1. unfold next_body.
  unfold mbind at 1, node_bind at 1, get_node. unfold mbind at 1, node_bind at 1, modify, mret, node_ret. cbn [fst snd].
  unfold mbind at 1, node_bind at 1, check. cbn [set_round nd_config nd_bodies nd_claim_verifier fst snd].
  change (nd_state (set_round n r)) with (nd_state n). change (current_height (set_round n r)) with (current_height n).
  rewrite He. by eexists.
Qed.

(** C17: A page can fail after it was installed.  When a page of blocks verifies
    and the node is the first proposer of the height after it, but the body
    its own source builds there does not execute, the call returns that error
    with the chain already replaced and nothing of the blocks reported: it is
    not all-or-nothing. *)
Theorem state_sync_half_applied cfg ov g (n : Node A) fuel bs c e : config_ok cfg -> node_reach iter_order cfg ov g n -> nd_archive n = None ->
  0 <= finalized_height n -> finalized_height n + Z.of_nat (length bs) <= U64_MAX -> bs <> [] ->
  extended cfg ov (nd_chain n) bs c ->
  is_local_proposer (Round_new (next_height c) (cf_validators cfg) (cf_root cfg)) 0 = true ->
  apply_block_with_verifier (lc_state c) (cf_body_source cfg (nd_bodies n) (next_height c)) ov = Err e ->
  (catch_up iter_order (S fuel) n bs).2 = Err (Fails (CoExecution e)) /\ nd_chain (catch_up iter_order (S fuel) n bs).1 = c /\
  c <> nd_chain n.
Proof.
  intros Hc Hr Ha H0 Hl Hne X Hp He. destruct (reach_rest iter_order iter_perm cfg ov Hc g n Hr) as [Hn _]. pose proof (ar_ok _ _ _ Hn) as Ho.
  pose proof (ok_config _ _ _ Ho) as Ec. pose proof (ok_verifier _ _ _ Ho) as Ev.
  unfold catch_up. rewrite apply_state_sync_eq by done. unfold verify_state_sync. cbn [yr_payload].
  rewrite (sync_fold_applies cfg ov n (nd_chain n) [] bs c Ec Ev H0 Hl X).
  cbn [mbind result_bind app]. pose proof (extended_height cfg ov _ _ _ X H0 Hl) as Hh.
  assert (lc_height c <> finalized_height n) as Hd by (rewrite Hh; unfold finalized_height; destruct bs; [done|cbn [length]; lia]).
  rewrite (proj2 (Z.eqb_neq _ _) Hd), Ha. destruct (installed cfg ov n c bs false Hn) as (Hi & I1 & _ & _ & I2 & I3).
  set (n1 := install n c bs false) in *. pose proof (ok_config _ _ _ (ar_ok _ _ _ Hi)) as E1.
  destruct (own_body_fails fuel n1 (map commit_emit bs) e I2) as (n' & -> & Hc').
  - unfold current_height. by rewrite I1, E1.
  - unfold nd_state, current_height. by rewrite (ok_verifier _ _ _ (ar_ok _ _ _ Hi)), E1, I1, I3.
  - split; [done|]. cbn. split; [congruence|]. by intros ->.
Qed.
End Fresh.
