(* ===== verification/NodeRuns.v ===== *)
(** * NodeRuns: the handlers of a node return

    [drive] and [commit] call each other, and a height committed starts the
    next.  With a validator set of at least two, every handler returns: a
    bound on the votes at hand bounds the heights one call can commit, and
    [RoundMeasure.potential] the steps of one height.  [halts] says that some
    fuel is enough and that no more fuel changes the outcome. *)

From Stdlib Require Import ZArith Lia.
From stdpp Require Import base list gmap sets strings.
From S2P Require Import Prelude Codec Crypto Identity Kel Chain ChainTheorems Round VotingSpec RoundRefines RoundFacts Agreement.
From S2P Require Import Certificates RoundMeasure Economy Settlement Shielded Execution BlockFacts LedgerSnapshot Wire StateSync.
From S2P Require Import Node NodeFacts NodeTheorems.
Open Scope Z_scope.

Section NodeRuns.
Context {P : Primitives} {A : Type} {AR : Archive A}.
Context (iter_order : gmap Z ProposalInfo -> list (Z * ProposalInfo)).
Context (iter_perm : forall m, iter_order m ≡ₚ map_to_list m).
Context (cfg : NodeConfig) (several : 2 <= quorum_threshold (cf_validators cfg)).
Notation St := (Node A * list Emit)%type.
Notation me := (did_scid (cf_root cfg)).

(** ** Enough fuel *)
Definition halts {X} (m : nat -> node_m A X) (st : St) (Q : X -> St -> Prop) : Prop :=
  exists fuel st' r, (forall f, (fuel <= f)%nat -> m f st = (st', r)) /\
    match r with Ok x => Q x st' | Err (Fails _) => True | Err NoFuel => False end.
Lemma halts_bind {X Y} (m : nat -> node_m A X) (k : nat -> X -> node_m A Y) st (R : X -> St -> Prop) Q :
  halts m st R -> (forall x st', R x st' -> halts (fun f => k f x) st' Q) -> halts (fun f => m f ≫= k f) st Q.
Proof.
  intros (f1 & st1 & r1 & H1 & HR) Hk. destruct r1 as [x|[e|]]; [|..].
  - destruct (Hk x st1 HR) as (f2 & st2 & r2 & H2 & HQ). exists (f1 + f2)%nat, st2, r2. split; [|done]. intros f Hf.
    unfold mbind, node_bind. rewrite H1 by lia. apply H2. lia.
  - exists f1, st1, (Err (Fails e)). split; [|done]. intros f Hf. unfold mbind, node_bind. by rewrite H1.
  - done.
Qed.
Lemma halts_now {X} (m : node_m A X) st (Q : X -> St -> Prop) :
  match m st with (st', Ok x) => Q x st' | (_, Err (Fails _)) => True | (_, Err NoFuel) => False end -> halts (fun _ => m) st Q.
Proof. intros H. destruct (m st) as [st' r] eqn:E. exists 0%nat, st', r. split; [done|]. by destruct r as [x|[e|]]. Qed.
Lemma halts_post {X} (m : nat -> node_m A X) st (Q Q' : X -> St -> Prop) : halts m st Q -> (forall x st', Q x st' -> Q' x st') -> halts m st Q'.
Proof. intros (f & st' & r & H & HQ) Hq. exists f, st', r. split; [done|]. destruct r as [x|[e|]]; auto. Qed.

(** ** The state of a height *)
Record runs (n : Node A) : Prop := {
  rn_config : nd_config n = cfg;
  rn_validators : rd_validators (nd_round n) = cf_validators cfg;
}.
(** At most [k] messages can still finish a height: those buffered, and one
    more once another validator's precommit is counted. *)
Definition within (k : nat) (n : Node A) : Prop :=
  (length (nd_pending n) <= k)%nat /\ (foreign me (nd_round n) -> (S (length (nd_pending n)) <= k)%nat).
Definition good (k : nat) (_ : unit) (st : St) : Prop := runs st.1 /\ within k st.1.
Lemma within_mono k k' n : (k <= k')%nat -> within k n -> within k' n.
Proof. intros Hk [H1 H2]. split; [lia|]. intros Hf. specialize (H2 Hf). lia. Qed.

(** What one input of the round leaves. *)
Definition own_event (ev : NetEvent) : Prop := match ev with EvVote v => did_scid (v_validator_root v) = me | _ => True end.
Lemma on_round_halts ev n es (Q : list Action -> St -> Prop) : runs n ->
  (forall r acts, handle iter_order (cf_oracle cfg) (nd_round n) ev = (r, acts) ->
     handled (cf_validators cfg) me (nd_round n) (own_event ev) (r, acts) -> Q acts (set_round n r, es)) ->
  halts (fun _ => on_round (fun r => handle iter_order (cf_oracle cfg) r ev)) (n, es) Q.
Proof.
  intros [_ Hv] HQ. apply halts_now. unfold on_round, mbind, node_bind, get_node, modify, mret, node_ret. cbn [fst snd].
  pose proof (handle_handled iter_order iter_perm (cf_oracle cfg) (cf_validators cfg) me several (nd_round n) ev Hv) as Hh.
  destruct (handle iter_order (cf_oracle cfg) (nd_round n) ev) as [r acts] eqn:E. cbn. by apply HQ.
Qed.
Lemma set_round_runs n r : runs n -> rd_validators r = cf_validators cfg -> runs (set_round n r).
Proof. intros [H1 H2] Hr. by split. Qed.
Lemma within_own k n r own acts : handled (cf_validators cfg) me (nd_round n) own (r, acts) -> own -> within k n -> within k (set_round n r).
Proof. intros Hh Ho [H1 H2]. split; [done|]. cbn. intros Hf. by apply H2, (hd_own _ _ _ _ _ Hh Ho). Qed.

(** ** The steps of [drive] *)
Definition prepared (w : list Action) (n : Node A) : Prop := Forall (ready me (nd_round n)) w.
Definition cost (w : list Action) (n : Node A) : nat := (total_weight w + potential (nd_round n))%nat.
(** After a step: the same budget, the rest of the work with the new actions
    prepared, and a smaller cost. *)
Definition stepped (k : nat) (w : list Action) (c : nat) (acts : list Action) (st : St) : Prop :=
  runs st.1 /\ within k st.1 /\ prepared (w ++ acts) st.1 /\ (cost (w ++ acts) st.1 < c)%nat.

Lemma stepped_event k ev w c n es r acts : runs n -> within k n -> prepared w n -> own_event ev ->
  handled (cf_validators cfg) me (nd_round n) (own_event ev) (r, acts) -> rd_round (nd_round n) <= rd_round r ->
  (total_weight w + (total_weight acts + potential r) < c)%nat -> stepped k w c acts (set_round n r, es).
Proof.
  intros Hn Hk Hw Ho Hh Hr Hc. split; [apply set_round_runs; [done|apply Hh]|]. split; [by eapply within_own|]. split.
  - apply Forall_app. split; [|apply Hh]. eapply Forall_impl; [exact Hw|]. intros a. apply ready_mono; [exact Hr|apply Hh].
  - unfold cost. cbn [fst set_round nd_round]. rewrite total_weight_app. lia.
Qed.
Lemma cast_halts k kind round target a w n es : runs n -> within k n -> prepared (a :: w) n -> weight a = 2%nat -> round <= rd_round (nd_round n) ->
  halts (fun _ => cast iter_order kind round target) (n, es) (stepped k w (cost (a :: w) n)).
Proof.
  intros Hn Hk Hw Ha Hr. pose proof (rn_config n Hn) as Ec. unfold cast. eapply halts_bind; [apply halts_now; instantiate (1 := fun x st => x = n /\ st = (n, es)); done|].
  intros x st' [-> ->]. rewrite Ec. set (v := sign_vote _ _ _ _ _ _).
  eapply halts_bind; [apply halts_now; instantiate (1 := fun _ st => st = (n, es ++ [EBroadcast (MsgVote v)])); done|]. intros _ st' ->.
  apply (on_round_halts (EvVote v)); [done|]. intros r acts E Hh.
  destruct (on_vote_charged iter_order (nd_round n) v (cf_oracle cfg) Hr) as (P1 & P2 & _). cbn [handle] in E. rewrite E in P1, P2. cbn [fst snd] in *.
  apply Forall_cons in Hw as [_ Hw]. eapply (stepped_event k (EvVote v)); try done.
  unfold cost. rewrite total_weight_cons, Ha. lia.
Qed.

Lemma build_halts round reuse vr n es : runs n -> halts (fun _ => build_proposal round reuse vr) (n, es)
  (fun _ st => exists k, st = (set_bodies n k, es)).
Proof.
  intros _. apply halts_now. unfold build_proposal, mbind, node_bind, get_node, mret, node_ret, check, next_body, modify. cbn [fst snd].
  destruct reuse as [hash|].
  - destruct (nd_values n !! hash); cbn; [|done]. exists (nd_bodies n). by destruct n.
  - unfold mbind, node_bind, get_node, mret, node_ret. cbn [fst snd]. unfold co_execution.
    destruct (apply_block_with_verifier _ _ _); cbn; [|done]. by exists (S (nd_bodies n)).
Qed.
Lemma propose_halts k round reuse vr w n es : runs n -> within k n -> prepared (Propose round reuse vr :: w) n ->
  halts (fun _ => propose iter_order round reuse vr) (n, es) (stepped k w (cost (Propose round reuse vr :: w) n)).
Proof.
  intros Hn Hk Hw. unfold propose. eapply halts_bind; [by apply build_halts|]. intros p st' (b & ->).
  eapply halts_bind; [apply halts_now; instantiate (1 := fun _ st => st = (set_bodies n b, es ++ [EBroadcast (MsgProposal p)])); done|]. intros _ st' ->.
  eapply halts_bind; [apply halts_now; instantiate (1 := fun _ st => exists n', st = (n', es ++ [EBroadcast (MsgProposal p)]) /\
    nd_round n' = nd_round n /\ nd_config n' = nd_config n /\ nd_pending n' = nd_pending n)|].
  { cbn. eexists. split; [done|]. unfold learn. by destruct (nd_values (set_bodies n b) !! _). }
  intros _ st' (n' & -> & Er & Ec & Ep). destruct Hn as [N1 N2]. assert (runs n') as Hn' by (split; congruence).
  assert (within k n') as Hk' by (unfold within; by rewrite Er, Ep). apply Forall_cons in Hw as [_ Hw].
  apply (on_round_halts (EvProposal round (header_hash (pr_header p)) vr true)); [done|]. intros r acts E Hh.
  destruct (on_proposal_charged iter_order (nd_round n') round (header_hash (pr_header p)) vr true) as [P1 P2 _]. cbn [handle] in E. rewrite E in P1, P2. cbn [fst snd] in *.
  eapply (stepped_event k (EvProposal round (header_hash (pr_header p)) vr true)); try done; [unfold prepared; by rewrite Er|].
  unfold cost. rewrite total_weight_cons. rewrite Er in P1. cbn [weight]. lia.
Qed.

(** ** A height committed *)
Lemma finalize_halts k qc n es : runs n -> within (S k) n -> foreign me (nd_round n) ->
  halts (fun _ => commit_block qc) (n, es) (fun _ st => runs st.1 /\ within k st.1).
Proof.
  intros [N1 N2] [_ W2] Hf. specialize (W2 Hf). apply halts_now.
  assert (forall (m : Node A) es', nd_config m = cfg -> nd_pending m = nd_pending n ->
    runs (set_values (set_round m (fresh_round m)) ∅, es' : list Emit).1 /\ within k (set_values (set_round m (fresh_round m)) ∅, es' : list Emit).1) as Hfresh.
  { intros m es' Hc Hp. split; [split; [done|cbn; by rewrite Hc]|]. split; cbn; [rewrite Hp; lia|].
    intros (r & t & id & x & Ht & _). cbn in Ht. by rewrite lookup_empty in Ht. }
  unfold commit_block, mbind, node_bind, get_node, check, modify, emit, with_archive. cbn [fst snd].
  destruct (nd_values n !! qc_block_hash qc) as [p|]; [|done]. cbn [ok_or]. unfold co_execution.
  destruct (apply_finalized_block_with_verifier _ _ _ _ _ _ _) as [[root c']|]; [|done]. cbn [map_err].
  unfold mbind, node_bind, get_node, modify. cbn [fst snd]. destruct (nd_archive n) as [a|].
  - destruct (record_verified_batch a _ _) as [a' [u|e]]; cbn; [|done]. by apply (Hfresh _ []).
  - cbn. by apply (Hfresh _ []).
Qed.

Section Recursion.
(** Deeper calls with a smaller budget return. *)
Context (k : nat) (deeper : forall k' w n es, (k' < k)%nat -> runs n -> within k' n -> prepared w n ->
  halts (fun f => drive iter_order f w) (n, es) (good k')).

Lemma input_halts j j' ev n es : (j' < k)%nat -> runs n -> within j n -> (own_event ev -> j' = j) -> (j <= j')%nat ->
  (~ own_event ev -> (S j <= j')%nat) -> (own_event ev \/ ~ own_event ev) ->
  halts (fun f => actions ← on_round (fun r => handle iter_order (cf_oracle cfg) r ev); drive iter_order f actions) (n, es) (good j').
Proof.
  intros Hj Hn Hw Ho Hjj Hno Hdec. eapply halts_bind.
  - apply (on_round_halts ev n es (fun acts st => runs st.1 /\ within j' st.1 /\ prepared acts st.1)); [done|]. intros r acts E Hh.
    split; [apply set_round_runs; [done|apply Hh]|]. split; [|apply Hh].
    destruct Hdec as [Ho'|Hn']; [eapply within_own; [exact Hh|exact Ho'|by apply (within_mono j)]|].
    destruct Hw as [W1 _]. specialize (Hno Hn'). split; cbn; lia.
  - intros acts [n' es'] (H1 & H2 & H3). by apply deeper.
Qed.
Lemma ingest_halts j msg n es : (S j < k)%nat -> runs n -> within j n -> halts (fun f => ingest iter_order (drive iter_order f) msg) (n, es) (good (S j)).
Proof.
  intros Hj Hn Hw. pose proof (rn_config n Hn) as Ec. unfold ingest.
  eapply halts_bind; [apply halts_now; instantiate (1 := fun x st => x = n /\ st = (n, es)); done|]. intros x st' [-> ->].
  set (h := match msg with MsgProposal p => _ | MsgVote v => _ end).
  assert (within (S j) n) as Hw' by (apply (within_mono j); [lia|done]).
  destruct (current_height n <? h).
  { apply halts_now. cbn. destruct Hn as [N1 N2], Hw as [W1 W2]. split; [by split|]. split; cbn; rewrite length_app; cbn; [lia|].
    intros Hf. specialize (W2 Hf). lia. }
  destruct (h <? current_height n); [by apply halts_now|]. destruct msg as [p|v].
  - destruct (negb (proposal_is_authentic n p)); [by apply halts_now|]. destruct (validate_proposal n p) as [hash valid].
    eapply halts_bind; [apply halts_now; instantiate (1 := fun _ st => exists n', st = (n', es) /\
      nd_round n' = nd_round n /\ nd_config n' = nd_config n /\ nd_pending n' = nd_pending n)|].
    { destruct valid; cbn; [|by exists n]. eexists. split; [done|]. unfold learn. by destruct (nd_values n !! hash). }
    intros _ st' (n' & -> & Er & Ec' & Ep). destruct Hn as [N1 N2].
    apply (input_halts (S j) (S j) (EvProposal (pr_round p) hash (pr_valid_round p) valid)); try done; [split; congruence| |by left].
    unfold within. by rewrite Er, Ep.
  - rewrite Ec. destruct (decide (did_scid (v_validator_root v) = me)) as [E|E].
    + apply (input_halts (S j) (S j) (EvVote v)); try done; by left.
    + apply (input_halts j (S j) (EvVote v)); try done; [lia|by right].
Qed.
Lemma replay_halts l n es : runs n -> (length l < k)%nat -> (forall j, (j + length l < k)%nat -> within j n ->
  halts (fun f => each (ingest iter_order (drive iter_order f)) l) (n, es) (good (j + length l))).
Proof.
  revert n es. induction l as [|msg l IH]; intros n es Hn Hl j Hj Hw; cbn [each length] in *.
  - apply halts_now. cbn. by rewrite Nat.add_0_r.
  - eapply halts_bind; [apply (ingest_halts j msg n es ltac:(lia) Hn Hw)|]. intros u [n' es'] [H1 H2]. cbn [fst] in *.
    replace (j + S (length l))%nat with (S j + length l)%nat by lia. apply IH; [done|lia|lia|done].
Qed.
Lemma commit_halts qc n es : runs n -> within k n -> foreign me (nd_round n) ->
  halts (fun f => commit iter_order (drive iter_order f) qc) (n, es) (good k).
Proof.
  intros Hn Hw Hf. assert (exists k', k = S k') as [k' Ek] by (destruct Hw as [_ W]; specialize (W Hf); exists (k - 1)%nat; lia).
  rewrite Ek in Hw. unfold commit. eapply halts_bind; [by apply (finalize_halts k')|]. intros u [n1 es1] [R1 W1]. cbn [fst] in *.
  eapply halts_bind; [apply (input_halts k' k' EvStart); try done; first [by left|lia]|]. intros u' [n2 es2] [R2 W2]. cbn [fst] in *.
  eapply halts_bind; [apply halts_now; instantiate (1 := fun x st => x = n2 /\ st = (n2, es2)); done|]. intros x st' [-> ->].
  eapply halts_bind; [apply halts_now; instantiate (1 := fun _ st => st = (set_pending n2 [], es2)); done|]. intros u'' st' ->.
  destruct W2 as [W2 W3]. set (l := nd_pending n2) in *. eapply halts_post.
  - apply (replay_halts l (set_pending n2 []) es2); [by destruct R2; split|lia| |]; [instantiate (1 := (k' - length l)%nat); lia|].
    split; cbn; [lia|]. intros Hff. specialize (W3 Hff). lia.
  - intros [] [n3 es3] [R3 W4]. split; [done|]. eapply within_mono; [|exact W4]. lia.
Qed.
End Recursion.

Lemma halts_deeper w st Q : halts (fun f => drive_step iter_order (drive iter_order f) w) st Q -> halts (fun f => drive iter_order f w) st Q.
Proof.
  intros (f & st' & r & H & HQ). exists (S f), st', r. split; [|done]. intros f' Hf. destruct f' as [|f']; [lia|]. cbn [drive]. apply H. lia.
Qed.
(** Within a budget, every work list is worked off. *)
Lemma drive_halts k w n es : runs n -> within k n -> prepared w n -> halts (fun f => drive iter_order f w) (n, es) (good k).
Proof.
  revert w n es. induction k as [k IHk] using lt_wf_ind. intros w n es. remember (cost w n) as c eqn:Hc. revert w n es Hc.
  induction c as [c IHc] using lt_wf_ind. intros w n es -> Hn Hk Hw. apply halts_deeper. destruct w as [|a w]; [by apply halts_now|].
  assert (forall (m : node_m A (list Action)), halts (fun _ => m) (n, es) (stepped k w (cost (a :: w) n)) ->
    halts (fun f => actions ← m; drive iter_order f (w ++ actions)) (n, es) (good k)) as Hseq.
  { intros m Hm. eapply halts_bind; [exact Hm|]. intros acts [n' es'] (H1 & H2 & H3 & H4). by eapply IHc. }
  assert (forall e, weight a = 1%nat -> halts (fun f => _ ← emit e; drive iter_order f w) (n, es) (good k)) as Hemit.
  { intros e Ha. eapply halts_bind; [apply halts_now; instantiate (1 := fun _ st => st = (n, es ++ [e])); done|]. intros u st' ->.
    eapply (IHc (cost w n)); try done; [unfold cost; rewrite total_weight_cons, Ha; lia|by apply Forall_cons in Hw as [_ Hw]]. }
  pose proof (Forall_inv Hw) as [Ha1 Ha2]. destruct a as [round reuse vr|round target|round target|step round|qc|e]; cbn [drive_step].
  - apply Hseq. by apply propose_halts.
  - apply Hseq. by apply cast_halts.
  - apply Hseq. by apply cast_halts.
  - eapply halts_bind; [apply halts_now; instantiate (1 := fun x st => x = n /\ st = (n, es)); done|]. intros x st' [-> ->]. by apply Hemit.
  - apply commit_halts; try done. intros k' w' n' es' Hlt. by apply IHk.
  - by apply Hemit.
Qed.

(** ** The public operations *)
Lemma event_halts ev n es : runs n ->
  halts (fun f => actions ← on_round (fun r => handle iter_order (cf_oracle cfg) r ev); drive iter_order f actions) (n, es) (fun _ _ => True).
Proof.
  intros Hn. eapply halts_bind.
  - apply (on_round_halts ev n es (fun acts st => runs st.1 /\ prepared acts st.1)); [done|]. intros r acts E Hh.
    split; [apply set_round_runs; [done|apply Hh]|apply Hh].
  - intros acts [n' es'] [H1 H2]. eapply halts_post; [apply (drive_halts (S (length (nd_pending n')))); try done|done]. split; cbn; lia.
Qed.
Lemma ingest_returns msg n es : runs n -> halts (fun f => ingest iter_order (drive iter_order f) msg) (n, es) (fun _ _ => True).
Proof.
  intros Hn. eapply halts_post; [apply (ingest_halts (S (S (S (length (nd_pending n))))) ltac:(intros; by apply drive_halts)
    (S (length (nd_pending n))))|done]; [lia|done|]. split; lia.
Qed.
Lemma run_halts (m : nat -> node_m A unit) n : halts m (n, []) (fun _ _ => True) ->
  exists fuel out, (forall f, (fuel <= f)%nat -> run_node (m f) n = out) /\ out.2 <> Err NoFuel.
Proof.
  intros (fuel & [n' es] & r & H & HQ). exists fuel. eexists. split; [intros f Hf; unfold run_node; by rewrite (H f Hf)|].
  by destruct r as [u|[e|]].
Qed.
Lemma resume_halts n es : runs n -> exists fuel out, (forall f, (fuel <= f)%nat -> resume iter_order f n es = out) /\ out.2 <> Err NoFuel.
Proof.
  intros Hn. destruct (event_halts EvStart n es Hn) as (fuel & [n' es'] & r & H & HQ). exists fuel.
  eexists. split; [intros f Hf; unfold resume, start_round; cbn [handle] in H;
    change (fun r => start iter_order r) with (start iter_order) in H; by rewrite (H f Hf)|]. by destruct r as [u|[e|]].
Qed.
End NodeRuns.

Section Returns.
Context {P : Primitives} {A : Type} {AR : Archive A}.
Context (iter_order : gmap Z ProposalInfo -> list (Z * ProposalInfo)).
Context (iter_perm : forall m, iter_order m ≡ₚ map_to_list m).

Lemma two_validators vs : 2 <= vs_len vs -> 2 <= quorum_threshold vs.
Proof. unfold quorum_threshold. intros H. assert (1 <= 2 * vs_len vs / 3) by (apply Z.div_le_lower_bound; lia). lia. Qed.
Lemma rest_runs cfg ov (n : Node A) : at_rest cfg ov n -> runs cfg n.
Proof. intros [[H1 _ (_ & H2 & _) _ _ _] _]. by split. Qed.

(** C14: Every handler returns.  With at least two validators, for every
    reachable node and every input, start, any message, any timer, any page
    of a peer, the mutual recursion of [drive] and [commit] ends: some depth
    is enough, and no greater depth changes what the handler returns or the
    node it leaves. *)
Theorem handlers_return cfg ov g (n : Node A) i : config_ok cfg -> 2 <= vs_len (cf_validators cfg) -> node_reach iter_order cfg ov g n ->
  exists fuel out, (forall f, (fuel <= f)%nat -> node_step iter_order f n i = out) /\ out.2 <> Err NoFuel.
Proof.
  intros Hc Hvs%two_validators Hr. destruct (reach_rest iter_order iter_perm cfg ov Hc g n Hr) as [Hn _].
  pose proof (rest_runs _ _ _ Hn) as Hrun. destruct i as [|m|h r st|resp]; cbn [node_step].
  - exact (run_halts _ n (event_halts iter_order iter_perm cfg Hvs EvStart n [] Hrun)).
  - exact (run_halts _ n (ingest_returns iter_order iter_perm cfg Hvs m n [] Hrun)).
  - unfold on_timeout_node. apply (run_halts (fun fuel => if h =? current_height n then
      actions ← on_round (fun r0 => on_timeout iter_order r0 st r); drive iter_order fuel actions else mret tt)).
    destruct (h =? current_height n); [|by apply halts_now]. exact (event_halts iter_order iter_perm cfg Hvs (EvTimeout st r) n [] Hrun).
  - destruct (decide (yr_network_id resp = ls_network_id (nd_state n))) as [E|E].
    2:{ exists 0%nat. eexists. split; [intros f _; by apply apply_state_sync_wrong|done]. }
    setoid_rewrite (fun f => apply_state_sync_eq iter_order f n resp E).
    destruct (verify_state_sync n resp) as [[[[c es] bs] rep]|e]; [|by exists 0%nat; eexists].
    destruct (_ =? _); [by exists 0%nat; eexists|].
    assert (forall a, at_rest cfg ov (set_archive n a)) as Ha by (intros a; destruct Hn as [[] ?]; by split; [split|]).
    assert (forall m : Node A, at_rest cfg ov m -> runs cfg (install m c bs rep)) as Hi.
    { intros m Hm. eapply rest_runs. by apply installed. }
    destruct (nd_archive n) as [a|]; [|by apply (resume_halts iter_order iter_perm cfg Hvs), Hi].
    destruct (install_verified_response a resp (lc_state c)) as [a' [u|e]]; [|by exists 0%nat; eexists].
    by apply (resume_halts iter_order iter_perm cfg Hvs), Hi.
Qed.
End Returns.
