(* ===== verification/NodeWitnesses.v ===== *)
(** * NodeWitnesses: four validators finalize a block

    The validators of [AgreementWitnesses.Four], each with a node started at
    the empty genesis: the proposer of height 1 proposes, two others' votes
    reach it, and it commits; another catches up on the block.  The theorems
    on nodes are applied to these runs. *)

From Stdlib Require Import ZArith Lia.
From stdpp Require Import base list gmap sets strings.
From S2P Require Import Prelude Codec Crypto Identity Kel Chain ChainTheorems Round VotingSpec RoundRefines RoundFacts Agreement.
From S2P Require Import Certificates AgreementWitnesses Economy Settlement Shielded Execution BlockFacts ExecutionTheorems.
From S2P Require Import LedgerSnapshot Wire StateSync Node NodeFacts NodeTheorems NodeRuns.
Open Scope Z_scope.

#[local] Existing Instance Cheap.primitives.
Import Four.

(** An archive that keeps nothing and refuses nothing. *)
#[local] Instance forgetful : Archive unit := {|
  archive_network_id := fun _ => MININET_NETWORK_ID;
  record_verified_batch := fun a _ _ => (a, Ok tt);
  install_verified_response := fun a _ _ => (a, Ok tt);
  archive_response := fun a _ => (a, Ok (mkSyncResponse MININET_NETWORK_ID (Blocks [])));
|}.

Module Cluster.
Definition own_root (n : nat) : Did := from_scid_unchecked (scid n).
Definition config (n : nat) (bodies : nat -> Z -> SettlementBlockBody) : NodeConfig :=
  mkNodeConfig (own_root n) (device_of n) vset oracle bodies.
Definition empty_bodies (k : nat) (h : Z) : SettlementBlockBody := body_new [].
(** A body that does not execute: a shielded spend, and no verifier. *)
Definition bad_bodies (k : nat) (h : Z) : SettlementBlockBody := mkBody [] [mkNullifierRecord [1] (replicate 32 1)] [].
Definition g : LedgerChain := genesis_for_network MININET_NETWORK_ID 0.
Definition fresh_node (cfg : NodeConfig) : Node unit := with_claim_verifier (set_chain (new_node cfg) g) None.
Definition step (n : Node unit) (i : node_input) : Node unit * result stop (list Emit) := node_step map_to_list 60 n i.
Definition after (n : Node unit) (l : list node_input) : Node unit := fold_left (fun n i => (step n i).1) l n.

(** Validator 1 proposes height 1. *)
Definition proposer : Node unit := fresh_node (config 1 empty_bodies).
Definition proposed : bytes := Eval vm_compute in
  match (step proposer IStart).2 with
  | Ok (EBroadcast (MsgProposal p) :: _) => header_hash (pr_header p)
  | _ => []
  end.
Definition vote_by (n : nat) (k : VoteKind) : node_input :=
  IMessage (MsgVote (sign_vote k 1 0 proposed (own_root n) (device_of n))).
Definition others : list node_input := [vote_by 2 Prevote; vote_by 3 Prevote; vote_by 2 Precommit; vote_by 3 Precommit].
Definition committed_node : Node unit := after proposer (IStart :: others).
Definition block1 : list FinalizedBlock := nd_history committed_node.
End Cluster.
Import Cluster.

Example the_proposer_commits :
  (finalized_height committed_node, length block1, bool_decide (lc_tip_hash (nd_chain committed_node) = proposed)) = (1, 1%nat, true).
Proof. vm_compute. reflexivity. Qed.

(** With one validator the recursion has no end: each height starts and
    decides the next. *)
Definition alone : NodeConfig := mkNodeConfig (own_root 1) (device_of 1) (mkValidatorSet [own_root 1]) oracle empty_bodies.
Example one_validator_recurses :
  map (fun fuel => match start_node map_to_list fuel (fresh_node alone) with
    | (n, Err NoFuel) => finalized_height n | _ => -1 end) [20%nat; 40%nat] = [3; 6].
Proof. vm_compute. reflexivity. Qed.

Lemma perm_list (m : gmap Z ProposalInfo) : map_to_list m ≡ₚ map_to_list m.
Proof. done. Qed.
Lemma config_fine n bodies : (forall k h, body_typed (bodies k h)) -> config_ok (config n bodies).
Proof. intros Hb. split; [|exact Hb]. exists (map root_did pairs). vm_compute. reflexivity. Qed.
Lemma empty_typed k h : body_typed (empty_bodies k h).
Proof. split; constructor. Qed.
Lemma bad_typed k h : body_typed (bad_bodies k h).
Proof. split; constructor. Qed.
Definition reach_cluster (cfg : NodeConfig) : Node unit -> Prop := node_reach map_to_list cfg None g.
Lemma fresh_reach cfg : reach_cluster cfg (fresh_node cfg).
Proof. apply reach_new. reflexivity. Qed.
Lemma after_reach cfg n l : reach_cluster cfg n -> Forall input_typed l -> reach_cluster cfg (after n l).
Proof.
  intros Hn Hl. revert n Hn. induction Hl as [|i l Hi _ IH]; intros n Hn; [exact Hn|]. apply (IH (step n i).1).
  exact (reach_input map_to_list cfg None g n i 60 Hn Hi).
Qed.
Definition before_last : list node_input := [IStart; vote_by 2 Prevote; vote_by 3 Prevote; vote_by 2 Precommit].
Lemma before_typed : Forall input_typed before_last.
Proof.
  apply Forall_cons_2; [exact I|]. apply Forall_cons_2; [exact I|]. apply Forall_cons_2; [exact I|]. apply Forall_cons_2; [exact I|].
  apply Forall_nil_2.
Qed.
Definition waiting : Node unit := after proposer before_last.
Lemma waiting_reach : reach_cluster (config 1 empty_bodies) waiting.
Proof. apply after_reach; [apply fresh_reach|apply before_typed]. Qed.

(** The last precommit arrives. *)
Lemma commits_are_certified_blocks_witness : exists bs,
  extended (config 1 empty_bodies) None (nd_chain waiting) bs (nd_chain (step waiting (vote_by 3 Precommit)).1) /\
  nd_history (step waiting (vote_by 3 Precommit)).1 = cap (nd_history waiting ++ bs).
Proof.
  destruct (commits_are_certified_blocks map_to_list perm_list (config 1 empty_bodies) None g waiting 60 (vote_by 3 Precommit)) as (bs & H1 & H2 & _).
  - apply config_fine, empty_typed.
  - apply waiting_reach.
  - exact I.
  - exact I.
  - exists bs. exact (conj H1 H2).
Defined.

Definition its_prevote : Vote := sign_vote Prevote 1 0 proposed (own_root 1) (device_of 1).
Lemma votes_only_for_valid_blocks_witness : exists c bs, extended (config 1 empty_bodies) None g bs c /\ 1 = next_height c /\
  exists h b, header_hash h = proposed /\ bh_height h = next_height c /\ bh_prev_hash h = lc_tip_hash c /\
    exists s, apply_block_with_verifier (lc_state c) b None = Ok s /\ commitment s = bh_state_root h.
Proof.
  destruct ((step proposer IStart).2) as [es|e] eqn:E; [|vm_compute in E; discriminate E].
  destruct (votes_only_for_valid_blocks map_to_list perm_list (config 1 empty_bodies) None g proposer 60 IStart es (EBroadcast (MsgVote its_prevote)))
    as (c & bs & X & Hh & [Hn|(h & b & E1 & E2 & E3 & _ & _ & s & E4)]).
  - apply config_fine, empty_typed.
  - apply fresh_reach.
  - exact I.
  - exact I.
  - exact E.
  - assert ((step proposer IStart).2 = Ok es) as E' by exact E. vm_compute in E'. injection E' as <-. vm_compute.
    apply elem_of_cons. right. apply elem_of_cons. left. reflexivity.
  - vm_compute in Hn. discriminate Hn.
  - exists c, bs. split; [exact X|]. split; [exact Hh|]. exists h, b. split; [exact E1|]. split; [exact E2|]. split; [exact E3|]. exists s. exact E4.
Defined.

(** The same run where the source of height 2's proposer, validator 2, is
    bad: its last precommit commits height 1, and its own body is the error. *)
Definition proposal1 : ConsensusMessage := Eval vm_compute in
  match (step proposer IStart).2 with Ok (EBroadcast m :: _) => m | _ => MsgVote its_prevote end.
Definition bad_before : list node_input :=
  [IStart; IMessage proposal1; vote_by 1 Prevote; vote_by 3 Prevote; vote_by 1 Precommit].
Definition bad_waiting : Node unit := after (fresh_node (config 2 bad_bodies)) bad_before.
Example the_bad_source_fails : ((step bad_waiting (vote_by 3 Precommit)).2,
  finalized_height bad_waiting, finalized_height (step bad_waiting (vote_by 3 Precommit)).1) =
  (Err (Fails (CoExecution MissingClaimVerifier)), 0, 1).
Proof. vm_compute. reflexivity. Qed.

Lemma no_payments_typed m : match m with MsgProposal p => match bd_claims (pr_body p), bd_monetary_epochs (pr_body p) with [], [] => true | _, _ => false end
  | _ => true end = true -> msg_typed m.
Proof.
  destruct m as [p|v]; [|intros _; exact I]. cbn [msg_typed]. destruct (pr_body p) as [[|c cs] ns [|x xs]]; intros H; try discriminate H; split; constructor.
Qed.
Lemma proposal1_typed : msg_typed proposal1.
Proof. apply no_payments_typed. vm_compute. reflexivity. Qed.
Lemma bad_before_typed : Forall input_typed bad_before.
Proof.
  apply Forall_cons_2; [exact I|]. apply Forall_cons_2; [exact proposal1_typed|]. apply Forall_cons_2; [exact I|].
  apply Forall_cons_2; [exact I|]. apply Forall_cons_2; [exact I|]. apply Forall_nil_2.
Qed.
Lemma bad_reach : reach_cluster (config 2 bad_bodies) bad_waiting.
Proof. apply after_reach; [apply fresh_reach|apply bad_before_typed]. Qed.
Lemma decided_blocks_always_commit_witness :
  (exists c bs k e', extended (config 2 bad_bodies) None (nd_chain bad_waiting) bs c /\ CoExecution MissingClaimVerifier = CoExecution e' /\
     apply_block_with_verifier (lc_state c) (bad_bodies k (next_height c)) None = Err e') \/
  (is_Some (nd_archive bad_waiting) /\ exists a fb s a', record_verified_batch a [fb] s = (a', Err (CoExecution MissingClaimVerifier))).
Proof.
  apply (decided_blocks_always_commit map_to_list perm_list (config 2 bad_bodies) None g bad_waiting 60 (vote_by 3 Precommit)).
  - apply config_fine, bad_typed.
  - apply bad_reach.
  - exact I.
  - exact I.
  - vm_compute. reflexivity.
Defined.

Lemma waiting_genesis : lc_state (nd_chain waiting) = with_network_and_genesis_supply MININET_NETWORK_ID 0.
Proof. vm_compute. reflexivity. Qed.
Lemma payments_node_never_fails_witness : (step waiting (vote_by 3 Precommit)).2 <> Err (Fails CoStalled).
Proof.
  refine (payments_node_never_fails map_to_list perm_list (config 1 empty_bodies) None g (with_network_and_genesis_supply MININET_NETWORK_ID 0) [] waiting 60
    (vote_by 3 Precommit) CoStalled _ _ _ _ _ _ _ _ _).
  - apply config_fine, empty_typed.
  - apply waiting_reach.
  - exact I.
  - exact I.
  - apply genesis_supply. split; vm_compute; discriminate.
  - exact I.
  - rewrite waiting_genesis. apply run_genesis.
  - vm_compute. reflexivity.
  - intros k h. exists []. split; [reflexivity|vm_compute; discriminate].
Defined.

Lemma committed_reach : reach_cluster (config 1 empty_bodies) committed_node.
Proof.
  apply after_reach; [apply fresh_reach|]. apply Forall_cons_2; [exact I|]. apply Forall_cons_2; [exact I|].
  apply Forall_cons_2; [exact I|]. apply Forall_cons_2; [exact I|]. apply Forall_cons_2; [exact I|]. apply Forall_nil_2.
Qed.
Lemma tip_always_certified_witness : nd_chain committed_node = g \/ exists header qc k, verify_finality qc vset oracle = Ok k /\
  qc_height qc = lc_height (nd_chain committed_node) /\ qc_block_hash qc = header_hash header /\
  header_hash header = lc_tip_hash (nd_chain committed_node) /\ bh_height header = lc_height (nd_chain committed_node) /\
  bh_state_root header = commitment (nd_state committed_node).
Proof.
  apply (tip_always_certified map_to_list perm_list (config 1 empty_bodies) None g committed_node).
  - apply config_fine, empty_typed.
  - apply committed_reach.
Defined.

(** Validator 3 catches up on the block, and validator 2 with its bad source
    too, which proposes height 2. *)
Definition behind (n : nat) (bodies : nat -> Z -> SettlementBlockBody) : Node unit := fresh_node (config n bodies).
Lemma block1_one : length block1 = 1%nat.
Proof. vm_compute. reflexivity. Qed.
Lemma block1_some : block1 <> [].
Proof. intros E. pose proof block1_one as H. rewrite E in H. discriminate H. Qed.
Definition block1_block : FinalizedBlock :=
  default (mkFinalized (mkBlockHeader 0 [] [] [] 0 (own_root 1)) (body_new []) (mkQC 0 0 [] [])) (head block1).
Lemma block1_is : block1 = [block1_block].
Proof. unfold block1_block. pose proof block1_one as H. destruct block1 as [|fb [|fb' l]]; [discriminate H|reflexivity|discriminate H]. Qed.
Lemma block1_extends n bodies : extended (config n bodies) None g block1 (nd_chain committed_node).
Proof.
  rewrite block1_is. apply (ext_block _ _ _ [] g block1_block (commitment (nd_state committed_node))); [apply ext_refl|].
  vm_compute. reflexivity.
Qed.
Lemma catch_up_is_execution_witness : exists n1, nd_chain n1 = nd_chain committed_node /\
  nd_history n1 = cap (nd_history (behind 3 empty_bodies) ++ block1) /\ nd_round n1 = fresh_round n1 /\ nd_values n1 = ∅ /\ nd_pending n1 = [] /\
  catch_up map_to_list 60 (behind 3 empty_bodies) block1 = resume map_to_list 60 n1 (map commit_emit block1).
Proof.
  apply (proj1 (catch_up_is_execution map_to_list perm_list (config 3 empty_bodies) None g (behind 3 empty_bodies) 60 block1
    ltac:(apply config_fine, empty_typed) ltac:(apply fresh_reach) eq_refl ltac:(vm_compute; discriminate) ltac:(vm_compute; discriminate))
    (nd_chain committed_node)).
  - apply block1_extends.
  - exact block1_some.
Defined.
Lemma state_sync_half_applied_witness :
  (catch_up map_to_list 60 (behind 2 bad_bodies) block1).2 = Err (Fails (CoExecution MissingClaimVerifier)) /\
  nd_chain (catch_up map_to_list 60 (behind 2 bad_bodies) block1).1 = nd_chain committed_node /\ nd_chain committed_node <> nd_chain (behind 2 bad_bodies).
Proof.
  apply (state_sync_half_applied map_to_list perm_list (config 2 bad_bodies) None g (behind 2 bad_bodies) 59 block1 (nd_chain committed_node) MissingClaimVerifier).
  - apply config_fine, bad_typed.
  - apply fresh_reach.
  - reflexivity.
  - vm_compute. discriminate.
  - vm_compute. discriminate.
  - exact block1_some.
  - apply block1_extends.
  - vm_compute. reflexivity.
  - vm_compute. reflexivity.
Defined.

Lemma handlers_return_witness : exists fuel out, (forall f, (fuel <= f)%nat -> node_step map_to_list f waiting (vote_by 3 Precommit) = out) /\
  out.2 <> Err NoFuel.
Proof.
  apply (handlers_return map_to_list perm_list (config 1 empty_bodies) None g waiting (vote_by 3 Precommit)).
  - apply config_fine, empty_typed.
  - vm_compute. discriminate.
  - apply waiting_reach.
Defined.
