(* ===== verification/Genesis.v ===== *)
(** * Genesis: launch manifest and settlement cadence

    Models [crates/mini-economy/src/genesis.rs] and [cadence.rs]: the locked
    bootstrap allocation with its digest, and the schedule that spaces
    issuance epochs over settlement rounds.  The theorems show that the
    digest identifies what is launched, up to the order humans are listed
    in, and that the schedule issues every epoch once, in order and on
    time. *)

From Stdlib Require Import ZArith Lia.
From stdpp Require Import base list gmap sets sorting strings.
From S2P Require Import Prelude Codec Crypto Economy.
Open Scope Z_scope.

(** ** [cadence.rs] *)
Record SettlementCadence := mkCadence { sc_target_round_ms : Z; sc_rounds_per_issuance : Z }.
Record SettlementTarget := mkTarget { st_round : Z; st_elapsed_ms : Z; st_issuance_epoch : option Z }.

Definition cadence_new (target_round_ms rounds_per_issuance : Z) : result EconomyError SettlementCadence :=
  duration ← ok_or (checked_mul U64_MAX target_round_ms rounds_per_issuance) Overflow;
  _ ← fail_if ((target_round_ms =? 0) || (rounds_per_issuance =? 0) || (YEAR_MS <? duration)) InvalidDuration;
  Ok (mkCadence target_round_ms rounds_per_issuance).
(** The product does not wrap: [cadence_new] checked it. *)
Definition issuance_duration_ms (c : SettlementCadence) : Z := sc_target_round_ms c * sc_rounds_per_issuance c.
Definition next_after (c : SettlementCadence) (finalized_round : Z) : result EconomyError SettlementTarget :=
  round ← ok_or (checked_add U64_MAX finalized_round 1) Overflow;
  elapsed_ms ← ok_or (checked_mul U64_MAX round (sc_target_round_ms c)) Overflow;
  let issuance_epoch :=
    if round mod sc_rounds_per_issuance c =? 0 then Some (round / sc_rounds_per_issuance c - 1) else None in
  Ok (mkTarget round elapsed_ms issuance_epoch).

(** ** [genesis.rs] *)
Record GenesisPolicy := mkGenesisPolicy { gp_bootstrap_per_human : Amount; gp_vesting_ms : Z }.
Record GenesisManifest := mkManifest {
  gm_chain_id : bytes;
  gm_constitution_digest : bytes;
  gm_recipients : list bytes;
  gm_allocation_per_human : Amount;
  gm_total_locked : Amount;
  gm_vesting_ms : Z;
  gm_digest : Multihash;
}.

(** [put_bytes], with a 64-bit length. *)
Definition put_bytes_u64 (b : bytes) : bytes := w_u64 (Z.of_nat (length b)) ++ b.
Definition genesis_bytes (chain_id constitution_digest : bytes) (policy : GenesisPolicy) (recipients : list bytes) : bytes :=
  put_bytes_u64 chain_id ++ constitution_digest ++ to_be_bytes 16 (gp_bootstrap_per_human policy) ++ w_u64 (gp_vesting_ms policy) ++
  w_u64 (Z.of_nat (length recipients)) ++ concat (map put_bytes_u64 recipients).

Definition build_genesis `{Primitives} (chain_id constitution_digest : bytes) (eligible_humans : list bytes)
    (policy : GenesisPolicy) : result EconomyError GenesisManifest :=
  _ ← fail_if (bool_decide (chain_id = []) || (128 <? length chain_id)%nat || bool_decide (eligible_humans = []) ||
        (gp_bootstrap_per_human policy =? 0) || (gp_vesting_ms policy =? 0)) InvalidGenesis;
  let recipients := btree_set eligible_humans in
  _ ← fail_if (negb (length recipients =? length eligible_humans)%nat || existsb (fun id => bool_decide (id = [])) recipients)
        DuplicateBeneficiary;
  total ← ok_or (checked_mul U128_MAX (gp_bootstrap_per_human policy) (Z.of_nat (length recipients))) Overflow;
  Ok (mkManifest chain_id constitution_digest recipients (gp_bootstrap_per_human policy) total (gp_vesting_ms policy)
        (Multihash_of Blake3 (genesis_bytes chain_id constitution_digest policy recipients))).

(** ** The schedule *)
Lemma next_after_ok c n : 0 <= n -> 0 < sc_rounds_per_issuance c -> 1 <= sc_target_round_ms c -> (n + 1) * sc_target_round_ms c <= U64_MAX ->
  next_after c n = Ok (mkTarget (n + 1) ((n + 1) * sc_target_round_ms c)
    (if (n + 1) mod sc_rounds_per_issuance c =? 0 then Some ((n + 1) / sc_rounds_per_issuance c - 1) else None)).
Proof.
  intros Hn Hr Ht Hle. unfold next_after, checked_add, checked_mul. rewrite (proj2 (Z.leb_le _ _)) by nia.
  cbn [ok_or mbind result_bind]. by rewrite (proj2 (Z.leb_le _ _)).
Qed.
Lemma epochs_step n r : 0 <= n -> 0 < r ->
  (n + 1) / r = if (n + 1) mod r =? 0 then n / r + 1 else n / r.
Proof.
  intros Hn Hr. pose proof (Z.div_mod n r ltac:(lia)) as E1. pose proof (Z.mod_pos_bound n r Hr) as B1.
  pose proof (Z.div_mod (n + 1) r ltac:(lia)) as E2. pose proof (Z.mod_pos_bound (n + 1) r Hr) as B2.
  destruct (Z.eqb_spec ((n + 1) mod r) 0); nia.
Qed.
Lemma seqZ_snoc n : 0 <= n -> seqZ 0 (n + 1) = seqZ 0 n ++ [n].
Proof. intros. rewrite seqZ_app by lia. by rewrite Z.add_0_l. Qed.

(** Every epoch is issued once, in order and on time.  Following a valid
    schedule round by round, the epochs it issues are 0, 1, 2 and so on, as
    many as whole issuance periods have passed, each exactly when its period
    ends; and no schedule outlives its clock: a round whose elapsed time does
    not fit is refused. *)
Theorem schedule_issues_each_epoch t r c n : 0 <= t -> 0 <= r -> cadence_new t r = Ok c -> 0 <= n ->
  (n * t <= U64_MAX -> exists targets, Forall2 (fun k x => next_after c k = Ok x) (seqZ 0 n) targets /\
    omap st_issuance_epoch targets = seqZ 0 (n / r) /\
    forall x e, x ∈ targets -> st_issuance_epoch x = Some e -> st_elapsed_ms x = (e + 1) * issuance_duration_ms c) /\
  (U64_MAX < (n + 1) * t -> next_after c n = Err Overflow).
Proof.
  intros Ht Hr H Hn. unfold cadence_new in H. apply bind_ok in H as (d & Hd & H). apply bind_ok in H as ([] & Hz & [= <-]).
  apply fail_if_ok in Hz. bool_prop. split.
  - revert n Hn. refine (natlike_ind _ _ _).
    + intros _. exists []. rewrite Z.div_0_l by lia. split; [constructor|]. split; [done|]. by intros x e ?%elem_of_nil.
    + intros n Hn IH Hle. destruct IH as (ts & I1 & I2 & I3); [nia|]. unfold Z.succ in *. rewrite seqZ_snoc by done.
      eexists (ts ++ [_]). split; [apply Forall2_app; [done|]; constructor; [|constructor]; apply next_after_ok; cbn; nia|].
      cbn [sc_rounds_per_issuance sc_target_round_ms]. rewrite omap_app, I2. cbn [omap list_omap st_issuance_epoch].
      pose proof (epochs_step n r Hn ltac:(lia)) as Es. destruct (Z.eqb_spec ((n + 1) mod r) 0) as [E|E].
      * rewrite Es, seqZ_snoc by (apply Z.div_pos; lia). split; [do 2 f_equal; lia|].
        intros x e [Hx|Hx%list_elem_of_singleton]%elem_of_app; [by apply I3|subst x]. cbn. intros [= <-].
        unfold issuance_duration_ms. cbn. pose proof (Z.div_mod (n + 1) r ltac:(lia)). nia.
      * rewrite Es, app_nil_r. split; [done|]. intros x e [Hx|Hx%list_elem_of_singleton]%elem_of_app; [by apply I3|by subst x].
  - intros Hover. unfold next_after. unfold checked_add, checked_mul. cbn [sc_target_round_ms].
    destruct (Z.leb_spec (n + 1) U64_MAX); [|done]. cbn [ok_or mbind result_bind]. by rewrite (proj2 (Z.leb_gt _ _)).
Qed.

(** ** The manifest *)
Lemma btree_set_perm l : NoDup (btree_set l) /\ forall x, x ∈ btree_set l <-> x ∈ l.
Proof.
  unfold btree_set. rewrite merge_sort_Permutation. split; [apply NoDup_remove_dups|].
  intros x. by rewrite merge_sort_Permutation, elem_of_remove_dups.
Qed.
Lemma btree_set_full l : length (btree_set l) = length l -> btree_set l ≡ₚ l.
Proof.
  intros Hl. destruct (btree_set_perm l) as [Hn Hx]. apply submseteq_length_Permutation; [|lia].
  apply NoDup_submseteq; [done|]. intros x. by rewrite Hx.
Qed.
Lemma btree_set_ext l l' : (forall x, x ∈ l <-> x ∈ l') -> btree_set l = btree_set l'.
Proof.
  intros H. apply (Sorted_unique bytes_le); [apply Sorted_merge_sort, _..|].
  apply NoDup_Permutation; [apply btree_set_perm..|]. intros x. rewrite !(proj2 (btree_set_perm _)). done.
Qed.
#[global] Instance delimited_put_u64 : Delimited (fun b : bytes => Z.of_nat (length b) <= U64_MAX) put_bytes_u64.
Proof.
  intros a a' r r' Ha Ha'. unfold put_bytes_u64. rewrite <- !app_assoc. intros H.
  apply delimited in H as [E H]; [|unfold is_u64; lia..]. apply app_inj_1 in H; [done|lia].
Qed.

(** Values in the range of their types. *)
Definition launch_typed (constitution_digest : bytes) (humans : list bytes) (p : GenesisPolicy) : Prop :=
  length constitution_digest = 32%nat /\ Forall (fun b => Z.of_nat (length b) <= U64_MAX) humans /\
  Z.of_nat (length humans) <= U64_MAX /\ is_u128 (gp_bootstrap_per_human p) /\ is_u64 (gp_vesting_ms p).
Lemma launch_typed_perm d h l p : l ≡ₚ h -> launch_typed d h p -> launch_typed d l p.
Proof.
  intros Hl (H1 & H2 & H3 & H4). split; [done|]. rewrite (Permutation_length Hl). split; [|done].
  rewrite Forall_forall in H2 |- *. intros x Hx. apply H2. by apply (elem_of_Permutation_proper x l h Hl).
Qed.

Section Build.
Context {P : Primitives}.

Lemma build_ok c d h p g : build_genesis c d h p = Ok g ->
  (length c <= 128)%nat /\ btree_set h ≡ₚ h /\ gp_bootstrap_per_human p * Z.of_nat (length h) <= U128_MAX /\
  g = mkManifest c d (btree_set h) (gp_bootstrap_per_human p) (gp_bootstrap_per_human p * Z.of_nat (length h)) (gp_vesting_ms p)
        (Multihash_of Blake3 (genesis_bytes c d p (btree_set h))).
Proof.
  unfold build_genesis. intros H. apply bind_ok in H as (? & H1 & H). cbv zeta in H. apply bind_ok in H as (? & H2 & H).
  apply bind_ok in H as (total & H3 & [= <-]). apply fail_if_ok in H1, H2. apply ok_or_ok, checked_mul_Some in H3 as [-> H3].
  rewrite !orb_false_iff in H1. destruct H1 as [[[[_ H1] _] _] _]. apply Nat.ltb_ge in H1. apply orb_false_iff in H2 as [H2 _].
  apply negb_false_iff, Nat.eqb_eq in H2. rewrite H2 in *. split; [done|]. split; [by apply btree_set_full|]. done.
Qed.
Lemma genesis_bytes_inj c d p l c' d' p' l' : (length c <= 128)%nat -> (length c' <= 128)%nat ->
  launch_typed d l p -> launch_typed d' l' p' -> genesis_bytes c d p l = genesis_bytes c' d' p' l' ->
  c = c' /\ d = d' /\ p = p' /\ l = l'.
Proof.
  intros Hc Hc' (H1 & H2 & H3 & H4 & H5) (H1' & H2' & H3' & H4' & H5') H. unfold genesis_bytes in H.
  apply delimited in H as [-> H]; [|unfold U64_MAX; lia..]. apply app_inj_1 in H as [-> H]; [|congruence].
  apply delimited_u128 in H as [Ea H]; [|done..]. apply delimited in H as [Ev H]; [|done..].
  assert (l = l') as ->.
  { apply (delimited_end _ _ (Delimited0 := delimited_counted (fun b : bytes => Z.of_nat (length b) <= U64_MAX) put_bytes_u64 w_u64 is_u64)
      l l') in H; [done|..]; (split; [unfold is_u64; lia|done]). }
  destruct p, p'. cbn in *. by subst.
Qed.

(** The manifest's digest identifies the launch.  Listing the same humans
    in another order builds the same manifest; and two manifests with one
    digest were built for one chain, one constitution, one policy and the same
    humans, or exhibit a BLAKE3 collision.  What is locked is the allocation
    once per human, and the recipients are the humans, each once. *)
Theorem genesis_identity c d h p g c' d' h' p' : launch_typed d h p -> launch_typed d' h' p' -> build_genesis c d h p = Ok g ->
  (h ≡ₚ h' -> build_genesis c d h' p = Ok g) /\
  (forall g', build_genesis c' d' h' p' = Ok g' -> gm_digest g = gm_digest g' ->
     (c = c' /\ d = d' /\ p = p' /\ h ≡ₚ h') \/ blake3_collision) /\
  NoDup (gm_recipients g) /\ gm_recipients g ≡ₚ h /\
  gm_total_locked g = gm_allocation_per_human g * Z.of_nat (length (gm_recipients g)).
Proof.
  intros Ht Ht' H. destruct (build_ok _ _ _ _ _ H) as (Hc & Hp & Hm & ->). split; [|split; [|split; [|split]]].
  - intros Hh. rewrite <- H. unfold build_genesis. rewrite <- (btree_set_ext h h') by (intros x; by rewrite Hh).
    replace (bool_decide (h' = [])) with (bool_decide (h = [])); [by rewrite <- (Permutation_length Hh)|].
    apply bool_decide_ext. split; intros ->; [by apply Permutation_nil|by apply Permutation_nil_r].
  - intros g' H'. destruct (build_ok _ _ _ _ _ H') as (Hc' & Hp' & _ & ->). cbn. intros [= Hd].
    unhash Hd. apply genesis_bytes_inj in Heq as (-> & -> & -> & E); [|done|done|..].
    + split; [done|]. split; [done|]. split; [done|]. by rewrite <- Hp, <- Hp', E.
    + by apply (launch_typed_perm d h).
    + by apply (launch_typed_perm d' h').
  - cbn. apply btree_set_perm.
  - done.
  - cbn. by rewrite (Permutation_length Hp).
Qed.
End Build.

(** The schedule of the source's test: one issuance per day of four-second
    rounds. *)
Example daily_issuance :
  let c := mkCadence 4000 21600 in
  cadence_new 4000 21600 = Ok c /\ issuance_duration_ms c = 86400000 /\
  next_after c 0 = Ok (mkTarget 1 4000 None) /\
  next_after c 21599 = Ok (mkTarget 21600 86400000 (Some 0)) /\
  next_after c 43199 = Ok (mkTarget 43200 172800000 (Some 1)) /\
  cadence_new YEAR_MS 2 = Err InvalidDuration /\ cadence_new U64_MAX 2 = Err Overflow.
Proof. do 6 (split; [vm_compute; reflexivity|]). vm_compute. reflexivity. Qed.
Example two_humans (a := [97]) (b := [98]) (d := replicate 32 0) (p := mkGenesisPolicy 1000 1) :
  build_genesis (H := Toy.primitives) [109] d [b; a] p = build_genesis (H := Toy.primitives) [109] d [a; b] p /\
  build_genesis (H := Toy.primitives) [109] d [a; a] p = Err DuplicateBeneficiary.
Proof. split; vm_compute; reflexivity. Qed.
