(* ===== verification/CreditPermit.v ===== *)
(** * CreditPermit: signed offline allowances

    Models [crates/mini-settlement/src/credit_permit.rs].  A permit
    authorises a device to sign IOUs up to a total, inside a window of
    heights; an honest wallet signs the next IOU only through a journal that
    compares and records its use.  The trait [CreditUseJournal] is a class
    over the journal's state. *)

From Stdlib Require Import ZArith Lia.
From stdpp Require Import base list gmap sets strings.
From S2P Require Import Prelude Codec Crypto Settlement.
Open Scope Z_scope.

Definition PERMIT_DOMAIN : bytes := lit "mini-settlement/offline-credit-permit/v1".
Definition IOU_DOMAIN : bytes := lit "mini-settlement/offline-credit-iou/v1".

Inductive CreditSignatureError :=
| CsUnsupportedSuite | CsInvalidTerms | CsWrongNetwork | WrongBorrower | WrongPermit | CsBadSignature | CsOutsideWindow
| AllowanceExhausted | JournalFailure | CsMalformedEncoding.
#[global] Instance CreditSignatureError_eq_dec : EqDecision CreditSignatureError.
Proof. solve_decision. Defined.

Record CreditPermitTerms := mkPermitTerms {
  pt_network_id : bytes;
  pt_policy_revision : bytes;
  pt_serial : bytes;
  pt_borrower_key : bytes;
  pt_limit_micro : Z;
  pt_issued_height : Z;
  pt_valid_through_height : Z;
}.
#[global] Instance CreditPermitTerms_eq_dec : EqDecision CreditPermitTerms.
Proof. solve_decision. Defined.
Record SignedCreditPermit := mkSignedPermit { sp_terms : CreditPermitTerms; sp_signature : Signature }.
Record VerifiedCreditPermit := mkVerifiedPermit { vp_terms : CreditPermitTerms; vp_id : bytes }.
#[global] Instance VerifiedCreditPermit_eq_dec : EqDecision VerifiedCreditPermit.
Proof. solve_decision. Defined.

Record CreditIouTerms := mkIouTerms {
  it_permit_id : bytes;
  it_sequence : Z;
  it_payee_commitment : bytes;
  it_amount_micro : Z;
}.
Record SignedCreditIou := mkSignedIou { si_terms : CreditIouTerms; si_signature : Signature }.
Record VerifiedCreditIou := mkVerifiedIou { vi_terms : CreditIouTerms; vi_digest : bytes }.

Definition zero_32 : bytes := replicate 32 0.

Definition permit_message (t : CreditPermitTerms) : bytes :=
  PERMIT_DOMAIN ++ pt_network_id t ++ pt_policy_revision t ++ pt_serial t ++ pt_borrower_key t ++
  w_u64 (pt_limit_micro t) ++ w_u64 (pt_issued_height t) ++ w_u64 (pt_valid_through_height t).
Definition iou_message (t : CreditIouTerms) : bytes :=
  IOU_DOMAIN ++ it_permit_id t ++ w_u64 (it_sequence t) ++ it_payee_commitment t ++ w_u64 (it_amount_micro t).

(** [bytes.starts_with(domain)]. *)
Definition starts_with (domain b : bytes) : bool := bool_decide (take (length domain) b = domain).
(** [take(bytes, &mut at)], in range because the length was checked. *)
Definition cs_take (n : nat) : parser CreditSignatureError bytes := r_take CsMalformedEncoding n.
Definition cs_u64 : parser CreditSignatureError Z := s ← cs_take 8; mret (from_be_bytes s).

Section CreditPermit.
Context {P : Primitives}.

(** [valid_through_height - issued_height] is reached only when it does not
    wrap. *)
Definition permit_validate (t : CreditPermitTerms) (max_height_span : Z) : result CreditSignatureError unit :=
  _ ← fail_if ((pt_limit_micro t =? 0) || bool_decide (pt_serial t = zero_32) ||
        bool_decide (pt_policy_revision t = zero_32) || (pt_valid_through_height t <=? pt_issued_height t) ||
        (max_height_span <? pt_valid_through_height t - pt_issued_height t)) CsInvalidTerms;
  _ ← map_err (fun _ => CsInvalidTerms) (VerifyingKey_from_suite_bytes DEFAULT_SUITE (pt_borrower_key t));
  Ok tt.

Definition permit_encode (p : SignedCreditPermit) : result CreditSignatureError bytes :=
  _ ← fail_if (negb (bool_decide (sig_suite (sp_signature p) = DEFAULT_SUITE))) CsUnsupportedSuite;
  Ok (permit_message (sp_terms p) ++ sig_bytes (sp_signature p)).
Definition read_permit_terms : parser CreditSignatureError CreditPermitTerms :=
  _ ← cs_take (length PERMIT_DOMAIN);
  network_id ← cs_take 32;
  policy_revision ← cs_take 32;
  serial ← cs_take 32;
  borrower_key ← cs_take 32;
  limit_micro ← cs_u64;
  issued_height ← cs_u64;
  valid_through_height ← cs_u64;
  mret (mkPermitTerms network_id policy_revision serial borrower_key limit_micro issued_height valid_through_height).
(** [&bytes[at..]]. *)
Definition unread (r : Reader) : bytes := drop (rpos r) (rbuf r).
Definition permit_decode (b : bytes) : result CreditSignatureError SignedCreditPermit :=
  _ ← fail_if (negb (length b =? length PERMIT_DOMAIN + 128 + 24 + 64)%nat || negb (starts_with PERMIT_DOMAIN b))
        CsMalformedEncoding;
  '(terms, r) ← read_permit_terms (Reader_new b);
  signature ← map_err (fun _ => CsMalformedEncoding) (Signature_from_suite_bytes DEFAULT_SUITE (unread r));
  Ok (mkSignedPermit terms signature).

Definition sign_credit_permit (issuer : SigningKey) (terms : CreditPermitTerms) (max_height_span : Z) :
    result CreditSignatureError SignedCreditPermit :=
  _ ← fail_if (negb (bool_decide (sk_suite issuer = DEFAULT_SUITE))) CsUnsupportedSuite;
  _ ← permit_validate terms max_height_span;
  Ok (mkSignedPermit terms (sk_sign issuer (permit_message terms))).

Definition verify_credit_permit (p : SignedCreditPermit) (authorized_issuer : VerifyingKey) (network_id : bytes)
    (max_height_span : Z) : result CreditSignatureError VerifiedCreditPermit :=
  _ ← fail_if (negb (bool_decide (vk_suite authorized_issuer = DEFAULT_SUITE)) ||
        negb (bool_decide (sig_suite (sp_signature p) = DEFAULT_SUITE))) CsUnsupportedSuite;
  _ ← fail_if (negb (bool_decide (pt_network_id (sp_terms p) = network_id))) CsWrongNetwork;
  _ ← permit_validate (sp_terms p) max_height_span;
  let message := permit_message (sp_terms p) in
  _ ← map_err (fun _ => CsBadSignature) (vk_verify authorized_issuer message (sp_signature p));
  Ok (mkVerifiedPermit (sp_terms p) (digest Blake3 message)).

Definition iou_validate (t : CreditIouTerms) (permit : VerifiedCreditPermit) : result CreditSignatureError unit :=
  _ ← fail_if (negb (bool_decide (it_permit_id t = vp_id permit))) WrongPermit;
  fail_if ((it_amount_micro t =? 0) || (pt_limit_micro (vp_terms permit) <? it_amount_micro t) ||
    bool_decide (it_payee_commitment t = zero_32)) CsInvalidTerms.

Definition iou_encode (i : SignedCreditIou) : result CreditSignatureError bytes :=
  _ ← fail_if (negb (bool_decide (sig_suite (si_signature i) = DEFAULT_SUITE))) CsUnsupportedSuite;
  Ok (iou_message (si_terms i) ++ sig_bytes (si_signature i)).
Definition read_iou_terms : parser CreditSignatureError CreditIouTerms :=
  _ ← cs_take (length IOU_DOMAIN);
  permit_id ← cs_take 32;
  sequence ← cs_u64;
  payee_commitment ← cs_take 32;
  amount_micro ← cs_u64;
  mret (mkIouTerms permit_id sequence payee_commitment amount_micro).
Definition iou_decode (b : bytes) : result CreditSignatureError SignedCreditIou :=
  _ ← fail_if (negb (length b =? length IOU_DOMAIN + 32 + 8 + 32 + 8 + 64)%nat || negb (starts_with IOU_DOMAIN b))
        CsMalformedEncoding;
  '(terms, r) ← read_iou_terms (Reader_new b);
  signature ← map_err (fun _ => CsMalformedEncoding) (Signature_from_suite_bytes DEFAULT_SUITE (unread r));
  Ok (mkSignedIou terms signature).

Definition sign_credit_iou (borrower : SigningKey) (permit : VerifiedCreditPermit) (terms : CreditIouTerms) :
    result CreditSignatureError SignedCreditIou :=
  _ ← fail_if (negb (bool_decide (sk_suite borrower = DEFAULT_SUITE))) CsUnsupportedSuite;
  _ ← fail_if (negb (bool_decide (vk_bytes (verifying_key borrower) = pt_borrower_key (vp_terms permit)))) WrongBorrower;
  _ ← iou_validate terms permit;
  Ok (mkSignedIou terms (sk_sign borrower (iou_message terms))).

Definition verify_credit_iou (i : SignedCreditIou) (permit : VerifiedCreditPermit) (observed_height : Z) :
    result CreditSignatureError VerifiedCreditIou :=
  _ ← fail_if (negb (bool_decide (sig_suite (si_signature i) = DEFAULT_SUITE))) CsUnsupportedSuite;
  _ ← iou_validate (si_terms i) permit;
  _ ← fail_if ((observed_height <? pt_issued_height (vp_terms permit)) ||
        (pt_valid_through_height (vp_terms permit) <? observed_height)) CsOutsideWindow;
  key ← map_err (fun _ => CsInvalidTerms) (VerifyingKey_from_suite_bytes DEFAULT_SUITE (pt_borrower_key (vp_terms permit)));
  let message := iou_message (si_terms i) in
  _ ← map_err (fun _ => CsBadSignature) (vk_verify key message (si_signature i));
  Ok (mkVerifiedIou (si_terms i) (digest Blake3 message)).

(** ** The journal *)
Record CreditUse := mkCreditUse { cu_signed_micro : Z; cu_next_sequence : Z }.
#[global] Instance CreditUse_eq_dec : EqDecision CreditUse.
Proof. solve_decision. Defined.
Definition CreditUse_default : CreditUse := mkCreditUse 0 0.

(** The trait: [load] reads, [compare_and_record] also gives the journal it
    leaves. *)
Class CreditUseJournal (J : Type) := {
  load : J -> bytes -> result CreditSignatureError CreditUse;
  compare_and_record : J -> CreditUse -> CreditUse -> SignedCreditIou -> result CreditSignatureError bool * J;
}.

Definition sign_next_credit_iou `{CreditUseJournal J} (borrower : SigningKey) (permit : VerifiedCreditPermit)
    (amount_micro : Z) (payee_commitment : bytes) (journal : J) : result CreditSignatureError SignedCreditIou * J :=
  let staged :=
    prior ← load journal (vp_id permit);
    signed_micro ← ok_or (checked_add U64_MAX (cu_signed_micro prior) amount_micro) AllowanceExhausted;
    _ ← fail_if (pt_limit_micro (vp_terms permit) <? signed_micro) AllowanceExhausted;
    next_sequence ← ok_or (checked_add U64_MAX (cu_next_sequence prior) 1) AllowanceExhausted;
    coupon ← sign_credit_iou borrower permit
      (mkIouTerms (vp_id permit) (cu_next_sequence prior) payee_commitment amount_micro);
    Ok (prior, mkCreditUse signed_micro next_sequence, coupon) in
  match staged with
  | Err e => (Err e, journal)
  | Ok (prior, next, coupon) =>
      let '(recorded, journal) := compare_and_record journal prior next coupon in
      (match recorded with
       | Err e => Err e
       | Ok false => Err JournalFailure
       | Ok true => Ok coupon
       end, journal)
  end.

End CreditPermit.
