(* ===== verification/CreditJournal.v ===== *)
(** * CreditJournal: the sender's encrypted outbox

    Models [crates/mini-settlement/src/credit_journal.rs] and
    [crates/mini-crypto/src/aead.rs].  A journal's directory is a value: the
    data file, if it exists, and the creation marker, with the
    nonces and the outcomes of durable replacement the platform will give.
    The cipher is the class [ChaCha], its documented behaviour
    [ChaChaLaws].  The lock is taken to succeed: an operation whose lock
    fails reports [JournalFailure] and does nothing else. *)

From Stdlib Require Import ZArith Lia.
From stdpp Require Import base list gmap sets strings.
From S2P Require Import Prelude Codec Crypto Settlement CreditPermit.
Open Scope Z_scope.

(** ** [aead.rs] *)

(** The third-party cipher: key, nonce, text and associated data. *)
Class ChaCha := {
  chacha_encrypt : bytes -> bytes -> bytes -> bytes -> option bytes;
  chacha_decrypt : bytes -> bytes -> bytes -> bytes -> option bytes;
}.
(** What was encrypted decrypts, a ciphertext is its plaintext with a
    sixteen-byte tag, and a plaintext is made of bytes. *)
Class ChaChaLaws `{ChaCha} := {
  chacha_decrypts k n p a c : chacha_encrypt k n p a = Some c -> chacha_decrypt k n c a = Some p;
  chacha_length k n p a c : chacha_encrypt k n p a = Some c -> length c = (length p + 16)%nat;
  chacha_plain k n c a p : chacha_decrypt k n c a = Some p -> bytes_ok p;
}.
Inductive AeadSuite := ChaCha20Poly1305.
Definition aead_tag (s : AeadSuite) : Z := match s with ChaCha20Poly1305 => 0x01 end.
Definition aead_from_tag (tag : Z) : result CryptoError AeadSuite :=
  if tag =? 0x01 then Ok ChaCha20Poly1305 else Err (UnknownAeadSuite tag).
Definition key_len (s : AeadSuite) : nat := match s with ChaCha20Poly1305 => 32 end.
Definition nonce_len (s : AeadSuite) : nat := match s with ChaCha20Poly1305 => 12 end.

Record AeadKey := mkAeadKey { ak_suite : AeadSuite; ak_bytes : bytes }.
Definition AeadKey_from_suite_bytes (s : AeadSuite) (b : bytes) : result CryptoError AeadKey :=
  match s with
  | ChaCha20Poly1305 =>
      _ ← fail_if (negb (length b =? key_len s)%nat) (BadLength (Z.of_nat (key_len s)) (Z.of_nat (length b)));
      Ok (mkAeadKey s b)
  end.
Definition AeadNonce_from_bytes (b : bytes) : result CryptoError bytes :=
  _ ← fail_if (negb (length b =? 12)%nat) (BadLength 12 (Z.of_nat (length b)));
  Ok b.
Definition aead_encrypt `{ChaCha} (k : AeadKey) (nonce plaintext aad : bytes) : result CryptoError bytes :=
  match ak_suite k with ChaCha20Poly1305 => ok_or (chacha_encrypt (ak_bytes k) nonce plaintext aad) Aead end.
Definition aead_decrypt `{ChaCha} (k : AeadKey) (nonce ciphertext aad : bytes) : result CryptoError bytes :=
  match ak_suite k with ChaCha20Poly1305 => ok_or (chacha_decrypt (ak_bytes k) nonce ciphertext aad) Aead end.

(** ** [credit_journal.rs] *)
Definition MAX_COUPONS : nat := 4096.
Definition MAX_JOURNAL_BYTES : Z := 1024 * 1024.
Definition JOURNAL_DOMAIN : bytes := lit "mininet/credit-journal/v1".

(** The steps of [mini_durable::atomic_replace] that can fail: the free-space
    guard, naming the temporary file, creating, writing and flushing it, the
    rename over the old file, and the flush of the directory.  A draw is the
    step that fails, if any. *)
Inductive replace_step := EnsureSpace | TemporaryPath | WriteTemporary | Rename | SyncParent.

Record CreditDirectory := mkCreditDir {
  cd_file : option bytes;
  cd_initialized : bool;
  cd_nonces : list (option bytes);
  cd_replacements : list (option replace_step);
}.
Record FileCreditJournal := mkFileJournal { fj_directory : CreditDirectory; fj_permit : VerifiedCreditPermit; fj_key : AeadKey }.

Section CreditJournal.
Context {P : Primitives} {C : ChaCha}.

(** One coupon of [read]'s loop. *)
Definition read_coupon (permit : VerifiedCreditPermit) (acc : CreditUse * list SignedCreditIou) :
    parser CreditSignatureError (CreditUse * list SignedCreditIou) := fun r =>
  let fail {A} : result CreditSignatureError A := Err JournalFailure in
  let plain := rbuf r in
  if (length plain - rpos r <? 4)%nat || (MAX_COUPONS <=? length (snd acc))%nat then fail else
  let len := Z.to_nat (from_be_bytes (take 4 (drop (rpos r) plain))) in
  let at_ := (rpos r + 4)%nat in
  if (length plain - at_ <? len)%nat then fail else
  coupon ← map_err (fun _ => JournalFailure) (iou_decode (take len (drop at_ plain)));
  _ ← map_err (fun _ => JournalFailure) (verify_credit_iou coupon permit (pt_issued_height (vp_terms permit)));
  _ ← fail_if (negb (it_sequence (si_terms coupon) =? cu_next_sequence (fst acc))) JournalFailure;
  signed_micro ← ok_or (checked_add U64_MAX (cu_signed_micro (fst acc)) (it_amount_micro (si_terms coupon))) JournalFailure;
  _ ← fail_if (pt_limit_micro (vp_terms permit) <? signed_micro) JournalFailure;
  Ok ((mkCreditUse signed_micro (cu_next_sequence (fst acc) + 1), snd acc ++ [coupon]), mkReader plain (at_ + len)).

(** [while at < plain.len()]: every round moves the cursor by at least four,
    so one more round than there are bytes is enough fuel. *)
Fixpoint read_coupons (fuel : nat) (permit : VerifiedCreditPermit) (acc : CreditUse * list SignedCreditIou) (r : Reader) :
    result CreditSignatureError (CreditUse * list SignedCreditIou) :=
  if (length (rbuf r) <=? rpos r)%nat then Ok acc else
  match fuel with
  | O => Err JournalFailure
  | S fuel => '(acc, r) ← read_coupon permit acc r; read_coupons fuel permit acc r
  end.
Definition journal_parse (permit : VerifiedCreditPermit) (plain : bytes) :
    result CreditSignatureError (CreditUse * list SignedCreditIou) :=
  read_coupons (S (length plain)) permit (CreditUse_default, []) (Reader_new plain).

(** The loop of [write]. *)
Fixpoint coupons_plain (coupons : list SignedCreditIou) : result CreditSignatureError bytes :=
  match coupons with
  | [] => Ok []
  | c :: cs => b ← iou_encode c; rest ← coupons_plain cs; Ok (w_bytes b ++ rest)
  end.

Definition aad (j : FileCreditJournal) : bytes := JOURNAL_DOMAIN ++ vp_id (fj_permit j).
Definition with_dir (j : FileCreditJournal) (d : CreditDirectory) : FileCreditJournal :=
  mkFileJournal d (fj_permit j) (fj_key j).

Definition journal_read (j : FileCreditJournal) : result CreditSignatureError (CreditUse * list SignedCreditIou) :=
  b ← ok_or (cd_file (fj_directory j)) JournalFailure;
  _ ← fail_if ((length b <? 28)%nat || (MAX_JOURNAL_BYTES <? Z.of_nat (length b))) JournalFailure;
  nonce ← map_err (fun _ => JournalFailure) (AeadNonce_from_bytes (take 12 b));
  plain ← map_err (fun _ => JournalFailure) (aead_decrypt (fj_key j) nonce (drop 12 b) (aad j));
  journal_parse (fj_permit j) plain.

(** [AeadNonce::generate] takes the next draw, [None] where the platform has
    no entropy. *)
Definition AeadNonce_generate (d : CreditDirectory) : result CryptoError bytes * CreditDirectory :=
  match cd_nonces d with
  | [] => (Err Entropy, d)
  | n :: ns => (ok_or n Entropy, mkCreditDir (cd_file d) (cd_initialized d) ns (cd_replacements d))
  end.
(** The file is the new one from the rename on, even if the flush after it
    fails. *)
Definition atomic_replace (d : CreditDirectory) (b : bytes) : result CreditSignatureError unit * CreditDirectory :=
  let with_file f rs := mkCreditDir f (cd_initialized d) (cd_nonces d) rs in
  match cd_replacements d with
  | None :: rs => (Ok tt, with_file (Some b) rs)
  | Some SyncParent :: rs => (Err JournalFailure, with_file (Some b) rs)
  | Some _ :: rs => (Err JournalFailure, with_file (cd_file d) rs)
  | [] => (Err JournalFailure, d)
  end.
Definition journal_write (j : FileCreditJournal) (coupons : list SignedCreditIou) :
    result CreditSignatureError unit * FileCreditJournal :=
  match coupons_plain coupons with
  | Err e => (Err e, j)
  | Ok plain =>
      let '(nonce, d) := AeadNonce_generate (fj_directory j) in
      let staged :=
        nonce ← map_err (fun _ => JournalFailure) nonce;
        cipher ← map_err (fun _ => JournalFailure) (aead_encrypt (fj_key j) nonce plain (aad j));
        Ok (nonce ++ cipher) in
      match staged with
      | Err e => (Err e, with_dir j d)
      | Ok b => let '(r, d) := atomic_replace d b in (r, with_dir j d)
      end
  end.

(** [create] burns the marker before its first write; [open] only reads.
    Making the directory and the marker is taken to succeed: a failure there
    hands out no journal. *)
Definition FileCreditJournal_create (d : CreditDirectory) (permit : VerifiedCreditPermit) (key : AeadKey) :
    result CreditSignatureError FileCreditJournal * CreditDirectory :=
  if bool_decide (is_Some (cd_file d)) || cd_initialized d then (Err JournalFailure, d) else
  let d := mkCreditDir (cd_file d) true (cd_nonces d) (cd_replacements d) in
  let '(written, j) := journal_write (mkFileJournal d permit key) [] in
  (match written with Ok _ => Ok j | Err e => Err e end, fj_directory j).
Definition FileCreditJournal_open (d : CreditDirectory) (permit : VerifiedCreditPermit) (key : AeadKey) :
    result CreditSignatureError FileCreditJournal :=
  _ ← journal_read (mkFileJournal d permit key); Ok (mkFileJournal d permit key).
Definition outbox (j : FileCreditJournal) : result CreditSignatureError (list SignedCreditIou) :=
  uc ← journal_read j; Ok (snd uc).

(** The conditions of [compare_and_record] on the coupon. *)
Definition record_check (permit : VerifiedCreditPermit) (usage : CreditUse) (coupons : list SignedCreditIou)
    (next : CreditUse) (coupon : SignedCreditIou) : result CreditSignatureError unit :=
  _ ← fail_if (MAX_COUPONS <=? length coupons)%nat JournalFailure;
  _ ← verify_credit_iou coupon permit (pt_issued_height (vp_terms permit));
  fail_if (negb (it_sequence (si_terms coupon) =? cu_next_sequence usage) ||
    negb (bool_decide (checked_add U64_MAX (cu_next_sequence usage) 1 = Some (cu_next_sequence next))) ||
    negb (bool_decide (checked_add U64_MAX (cu_signed_micro usage) (it_amount_micro (si_terms coupon)) =
                       Some (cu_signed_micro next))) ||
    (pt_limit_micro (vp_terms permit) <? cu_signed_micro next)) JournalFailure.
#[global] Instance FileCreditJournal_journal : CreditUseJournal FileCreditJournal := {
  load j permit_id :=
    _ ← fail_if (negb (bool_decide (permit_id = vp_id (fj_permit j)))) WrongPermit;
    uc ← journal_read j; Ok (fst uc);
  compare_and_record j expected next coupon :=
    match journal_read j with
    | Err e => (Err e, j)
    | Ok (usage, coupons) =>
        if negb (bool_decide (usage = expected)) then (Ok false, j) else
        match record_check (fj_permit j) usage coupons next coupon with
        | Err e => (Err e, j)
        | Ok _ =>
            let '(written, j) := journal_write j (coupons ++ [coupon]) in
            (match written with Ok _ => Ok true | Err e => Err e end, j)
        end
    end;
}.
End CreditJournal.
