(* ===== verification/WitnessService.v ===== *)
(** * WitnessService: the witness that keeps what it signed

    Models [crates/mini-witness-service/src/lib.rs]: a witness's journal on a
    directory with one record file per identity.  A call stages its effect on
    a copy of the journal, replaces the record file, and only then publishes
    the copy and the receipt; opening replays the records through the same
    journal and requires the receipts stored. *)

From Stdlib Require Import ZArith Lia.
From stdpp Require Import base list gmap sets strings.
From S2P Require Import Prelude Codec Crypto Identity Kel Witness WitnessJournal CreditPermit CreditJournal.
Open Scope Z_scope.

Definition MAX_TRACKED_IDENTITIES : nat := Z.to_nat 100000.
Definition MAX_RECORD_BYTES : Z := 64 * 1024 * 1024.
Definition MAX_TOTAL_RECORD_BYTES : Z := 512 * 1024 * 1024.
Definition RECORD_DOMAIN : bytes := lit "mini-witness-service/record/v2".
Definition LEGACY_RECORD_DOMAIN : bytes := lit "mini-witness-service/record/v1".

Inductive WitnessServiceError :=
| WsIo
| WsIdentity (e : IdentityError)
| CorruptRecord
| TooManyIdentities
| TooLarge
| MigrationRequired
| RecoveryRequired
| WrongWitnessKey.

(** ** The directory *)
(** A [.state] entry by its stem; other entries are not looked at. *)
Inductive StateEntry := StateFile (b : bytes) | StateDirectory | StateLink.
Record WitnessDirectory := mkWitnessDir {
  wd_states : gmap bytes StateEntry;
  wd_replacements : list (option replace_step);
}.
(** [mini_durable::atomic_replace]: the file is the new one from the rename
    on, even if the flush after it fails: what can stop is the process, not
    the machine, whose loss of power could undo a rename that was not flushed.
    No file takes a directory's place. *)
Definition replace_state (d : WitnessDirectory) (path b : bytes) : WitnessDirectory * result WitnessServiceError unit :=
  let replaced rs := mkWitnessDir (<[path := StateFile b]> (wd_states d)) rs in
  match wd_states d !! path, wd_replacements d with
  | Some StateDirectory, rs => (mkWitnessDir (wd_states d) (tail rs), Err WsIo)
  | _, None :: rs => (replaced rs, Ok tt)
  | _, Some SyncParent :: rs => (replaced rs, Err WsIo)
  | _, rs => (mkWitnessDir (wd_states d) (tail rs), Err WsIo)
  end.

Section WitnessService.
Context {P : Primitives}.

Definition record_path (identity : Did) : bytes :=
  hex_lower (digest Blake3 (lit "mini-witness-service/identity/v2" ++ [0] ++ did_str identity)).

(** ** Records *)
Record RecordEvent := mkRecordEvent {
  re_transition : bool;
  re_kel : bytes;
  re_receipt : WitnessReceipt;
}.
Definition encode_record_event (e : RecordEvent) : bytes :=
  w_u8 (if re_transition e then 1 else 0) ++ w_bytes (re_kel e) ++ w_bytes (receipt_encode (re_receipt e)).
Definition encode_record (events : list RecordEvent) : bytes :=
  let b := RECORD_DOMAIN ++ w_u32 (Z.of_nat (length events)) ++ concat (map encode_record_event events) in
  b ++ digest Blake3 b.
Definition svc_number : parser WitnessServiceError Z := r_u32 CorruptRecord.
Definition svc_take (n : Z) : parser WitnessServiceError bytes := r_take CorruptRecord (Z.to_nat n).
Definition rd_record_event : parser WitnessServiceError RecordEvent :=
  t ← r_u8 CorruptRecord;
  transition ← lift (if t =? 0 then Ok false else if t =? 1 then Ok true else Err CorruptRecord);
  size ← svc_number;
  kel ← svc_take size;
  size ← svc_number;
  b ← svc_take size;
  receipt ← lift (map_err WsIdentity (receipt_decode b));
  mret (mkRecordEvent transition kel receipt).
Definition rd_record (body : bytes) : parser WitnessServiceError (list RecordEvent) :=
  count ← svc_number;
  _ ← lift (fail_if ((count =? 0) || ((Z.of_nat (length body) - 4) / 9 <? count)) CorruptRecord);
  r_repeat (Z.to_nat count) rd_record_event.
Definition decode_record (b : bytes) : result WitnessServiceError (list RecordEvent) :=
  _ ← fail_if (starts_with LEGACY_RECORD_DOMAIN b) MigrationRequired;
  _ ← fail_if (negb (starts_with RECORD_DOMAIN b) || (length b <? length RECORD_DOMAIN + 4 + 32)%nat) CorruptRecord;
  let data := take (length b - 32) b in
  _ ← fail_if (negb (bool_decide (digest Blake3 data = drop (length b - 32) b))) CorruptRecord;
  let body := drop (length RECORD_DOMAIN) data in
  '(events, r) ← rd_record body (Reader_new body);
  _ ← fail_if (negb (finished r)) CorruptRecord;
  Ok events.

(** ** The service *)
Record PersistentWitnessJournal := mkPersistent {
  pj_directory : WitnessDirectory;
  pj_journal : WitnessJournal;
  pj_records : gmap Did (list RecordEvent);
  pj_total_bytes : Z;
  pj_max_identities : nat;
  pj_witness_id : WitnessId;
  pj_witness_key : VerifyingKey;
  pj_poisoned : bool;
}.

(** One stored event through the journal it came from. *)
Definition replay_event (j : WitnessJournal) (k : Kel) (e : RecordEvent) (id : WitnessId) (key : SigningKey) :
    result WitnessServiceError WitnessJournal :=
  let epoch := ws_observed_epoch (wr_statement (re_receipt e)) in
  '(j, replayed) ← (if re_transition e
    then map_err WsIdentity (certify_policy_transition j k id key epoch)
    else o ← map_err WsIdentity (observe_declared j k id key epoch);
         match o with (j, Accepted receipt) => Ok (j, receipt) | _ => Err CorruptRecord end);
  _ ← fail_if (negb (bool_decide (replayed = re_receipt e))) CorruptRecord;
  Ok j.
Fixpoint replay_events (j : WitnessJournal) (identity : option Did) (id : WitnessId) (key : SigningKey) (events : list RecordEvent) :
    result WitnessServiceError (WitnessJournal * option Did) :=
  match events with
  | [] => Ok (j, identity)
  | e :: events =>
      k ← map_err WsIdentity (Kel_from_bytes (re_kel e));
      let did := kel_did k in
      _ ← fail_if (match identity with Some previous => negb (bool_decide (previous = did)) | None => false end) CorruptRecord;
      _ ← fail_if (negb (bool_decide (ws_witness_id (wr_statement (re_receipt e)) = id)) ||
            negb (is_ok (receipt_verify (re_receipt e) (verifying_key key)))) WrongWitnessKey;
      j ← replay_event j k e id key;
      replay_events j (Some did) id key events
  end.

(** The loop of [open] over the directory; an entry that cannot be read is
    [None]. *)
Definition Loading : Type := WitnessJournal * gmap Did (list RecordEvent) * Z.
Definition load_entry (max_identities : nat) (id : WitnessId) (key : SigningKey) (l : Loading) (entry : option (bytes * StateEntry)) :
    result WitnessServiceError Loading :=
  let '(j, records, total) := l in
  '(path, e) ← ok_or entry WsIo;
  _ ← fail_if (max_identities <=? size records)%nat TooManyIdentities;
  b ← (match e with StateFile b => Ok b | _ => Err CorruptRecord end);
  let len := Z.of_nat (length b) in
  total ← ok_or (checked_add U64_MAX total len) TooLarge;
  _ ← fail_if ((MAX_RECORD_BYTES <? len) || (MAX_TOTAL_RECORD_BYTES <? total)) TooLarge;
  events ← decode_record b;
  '(j, identity) ← replay_events j None id key events;
  identity ← ok_or identity CorruptRecord;
  _ ← fail_if (negb (bool_decide (record_path identity = path)) || bool_decide (is_Some (records !! identity))) CorruptRecord;
  Ok (j, <[identity := events]> records, total).
Fixpoint load_entries (max_identities : nat) (id : WitnessId) (key : SigningKey) (l : Loading) (entries : list (option (bytes * StateEntry))) :
    result WitnessServiceError Loading :=
  match entries with
  | [] => Ok l
  | e :: entries => l ← load_entry max_identities id key l e; load_entries max_identities id key l entries
  end.
(** [listing] is the order in which [read_dir] gives the entries. *)
Definition open_with_capacity (d : WitnessDirectory) (locked : bool) (listing : list (option (bytes * StateEntry)))
    (id : WitnessId) (key : SigningKey) (max_identities : nat) : result WitnessServiceError PersistentWitnessJournal :=
  _ ← fail_if locked WsIo;
  '(j, records, total) ← load_entries max_identities id key (journal_new, ∅, 0) listing;
  Ok (mkPersistent d j records total max_identities id (verifying_key key) false).
Definition open_service (d : WitnessDirectory) (locked : bool) (listing : list (option (bytes * StateEntry))) (id : WitnessId) (key : SigningKey) :
    result WitnessServiceError PersistentWitnessJournal :=
  open_with_capacity d locked listing id key MAX_TRACKED_IDENTITIES.

Definition check_ready (s : PersistentWitnessJournal) (id : WitnessId) (key : SigningKey) : result WitnessServiceError unit :=
  _ ← fail_if (pj_poisoned s) RecoveryRequired;
  fail_if (negb (bool_decide (id = pj_witness_id s)) || negb (bool_decide (verifying_key key = pj_witness_key s))) WrongWitnessKey.
Definition persist (s : PersistentWitnessJournal) (identity : Did) (event : RecordEvent) : PersistentWitnessJournal * result WitnessServiceError unit :=
  let old := default [] (pj_records s !! identity) in
  let previous := match old with [] => 0 | _ => Z.of_nat (length (encode_record old)) end in
  let events := old ++ [event] in
  let b := encode_record events in
  let total := pj_total_bytes s - previous + Z.of_nat (length b) in
  if (MAX_RECORD_BYTES <? Z.of_nat (length b)) || (MAX_TOTAL_RECORD_BYTES <? total) then (s, Err TooLarge)
  else match replace_state (pj_directory s) (record_path identity) b with
       | (d, Err e) =>
           (mkPersistent d (pj_journal s) (pj_records s) (pj_total_bytes s) (pj_max_identities s) (pj_witness_id s) (pj_witness_key s) true, Err e)
       | (d, Ok _) =>
           (mkPersistent d (pj_journal s) (<[identity := events]> (pj_records s)) total (pj_max_identities s) (pj_witness_id s) (pj_witness_key s)
              (pj_poisoned s), Ok tt)
       end.
(** [self.journal = staged]. *)
Definition publish (s : PersistentWitnessJournal) (staged : WitnessJournal) : PersistentWitnessJournal :=
  mkPersistent (pj_directory s) staged (pj_records s) (pj_total_bytes s) (pj_max_identities s) (pj_witness_id s) (pj_witness_key s) (pj_poisoned s).
Definition svc_observe_declared (s : PersistentWitnessJournal) (k : Kel) (id : WitnessId) (key : SigningKey) (epoch : Z) :
    PersistentWitnessJournal * result WitnessServiceError WitnessObservation :=
  match check_ready s id key with
  | Err e => (s, Err e)
  | Ok _ =>
      let identity := kel_did k in
      if negb (bool_decide (is_Some (pj_records s !! identity))) && (pj_max_identities s <=? size (pj_records s))%nat
      then (s, Err TooManyIdentities)
      else match observe_declared (pj_journal s) k id key epoch with
           | Err e => (s, Err (WsIdentity e))
           | Ok (staged, Accepted receipt) =>
               match persist s identity (mkRecordEvent false (Kel_to_bytes k) receipt) with
               | (s, Err e) => (s, Err e)
               | (s, Ok _) => (publish s staged, Ok (Accepted receipt))
               end
           | Ok (staged, outcome) => (publish s staged, Ok outcome)
           end
  end.
(** The certification of the same log made before. *)
Definition certified_before (s : PersistentWitnessJournal) (identity : Did) (b : bytes) : option RecordEvent :=
  snd <$> list_find (fun e => Is_true (re_transition e && bool_decide (re_kel e = b))) (default [] (pj_records s !! identity)).
Definition svc_certify_policy_transition (s : PersistentWitnessJournal) (k : Kel) (id : WitnessId) (key : SigningKey) (epoch : Z) :
    PersistentWitnessJournal * result WitnessServiceError WitnessReceipt :=
  match check_ready s id key with
  | Err e => (s, Err e)
  | Ok _ =>
      let identity := kel_did k in
      let b := Kel_to_bytes k in
      match certified_before s identity b with
      | Some previous => (s, Ok (re_receipt previous))
      | None =>
          match certify_policy_transition (pj_journal s) k id key epoch with
          | Err e => (s, Err (WsIdentity e))
          | Ok (staged, receipt) =>
              match persist s identity (mkRecordEvent true b receipt) with
              | (s, Err e) => (s, Err e)
              | (s, Ok _) => (publish s staged, Ok receipt)
              end
          end
      end
  end.
Definition svc_state_for (s : PersistentWitnessJournal) (identity : Did) : option WitnessIdentityState :=
  if pj_poisoned s then None else state_for (pj_journal s) identity.
Definition tracked_identity_count (s : PersistentWitnessJournal) : nat := size (pj_records s).
End WitnessService.
