(* ===== verification/WitnessSurvives.v ===== *)
(** * WitnessSurvives: receipts across crashes, failed writes and reopenings

    The life of a witness service: opened on its directory, called, failing
    at any step of a write, stopped or crashing in the middle of a call, and
    opened again.  The directory always holds, per identity, a history that
    replays; every receipt that left the service is in it; and the service
    that reopens is the one that stopped. *)

From Stdlib Require Import ZArith Lia.
From stdpp Require Import base list gmap sets strings.
From S2P Require Import Prelude Codec Crypto Identity Kel KelFacts KelTheorems Witness WitnessJournal WitnessWire WitnessRuns WitnessExchange CreditPermit CreditJournal WitnessService.
Open Scope Z_scope.

(** * what the witness's directory holds

    The journal of one identity depends on nothing but the calls about it, so
    each record file replays on its own; a record decodes to the events
    encoded; and an event the service adds to a file extends a history that
    replays to one that does. *)


Section Local.
Context {P : Primitives}.

(** ** One identity's part of a journal *)
Definition same_at (d : Did) (j1 j2 : WitnessJournal) : Prop :=
  wj_states j1 !! d = wj_states j2 !! d /\ forall p g, transition_certification j1 d p g = transition_certification j2 d p g.
Lemma same_at_refl d j : same_at d j j.
Proof. done. Qed.
Lemma same_at_sym d j1 j2 : same_at d j1 j2 -> same_at d j2 j1.
Proof. intros [H1 H2]. split; [done|]. by intros p g. Qed.
Lemma same_at_trans d j1 j2 j3 : same_at d j1 j2 -> same_at d j2 j3 -> same_at d j1 j3.
Proof. intros [H1 H2] [H3 H4]. split; [congruence|]. intros p g. by rewrite H2. Qed.
(** Journals that agree on every identity are the same journal. *)
Lemma same_everywhere j1 j2 : (forall d, same_at d j1 j2) -> j1 = j2.
Proof.
  intros H. destruct j1 as [s1 c1], j2 as [s2 c2]. f_equal; apply map_eq.
  - intros d. apply (H d).
  - intros [[d p] g]. apply (H d).
Qed.
Lemma accept_same d j1 j2 e policy r : same_at d j1 j2 -> same_at d (accept j1 d e policy r) (accept j2 d e policy r).
Proof. intros [H1 H2]. split; [|done]. unfold accept. cbn [wj_states]. by rewrite !lookup_insert_eq. Qed.
Lemma accept_other d d' j e policy r : d' <> d -> same_at d' j (accept j d e policy r).
Proof. intros H. split; [|done]. unfold accept. cbn [wj_states]. by rewrite lookup_insert_ne. Qed.
Lemma certification_same d j1 j2 p g x : same_at d j1 j2 ->
  same_at d (record_transition_certification j1 d p g x) (record_transition_certification j2 d p g x).
Proof.
  intros [H1 H2]. split; [done|]. intros p' g'. unfold transition_certification, record_transition_certification in *. cbn [wj_transition_certifications].
  destruct (decide (((d, p, g) : TransitionKey) = (d, p', g'))) as [<-|E]; [by rewrite !lookup_insert_eq|by rewrite !lookup_insert_ne].
Qed.
Lemma certification_other d d' j p g x : d' <> d -> same_at d' j (record_transition_certification j d p g x).
Proof.
  intros H. split; [done|]. intros p' g'. unfold transition_certification, record_transition_certification. cbn [wj_transition_certifications].
  rewrite lookup_insert_ne; [done|]. congruence.
Qed.

(** A call that looks at nothing but one identity's part, and changes
    nothing else. *)
Definition local {E X} (d : Did) (call : WitnessJournal -> result E (WitnessJournal * X)) : Prop :=
  forall j1 j2, same_at d j1 j2 ->
  match call j1, call j2 with
  | Ok (j1', x1), Ok (j2', x2) => x1 = x2 /\ same_at d j1' j2' /\ forall d', d' <> d -> same_at d' j1 j1'
  | Err e1, Err e2 => e1 = e2
  | _, _ => False
  end.
Lemma local_err {E X} d (e : E) : local d (fun j => Err (A := WitnessJournal * X) e).
Proof. done. Qed.
Lemma local_kept {E X} d (f : WitnessJournal -> X) : (forall j1 j2, same_at d j1 j2 -> f j1 = f j2) -> local (E := E) d (fun j => Ok (j, f j)).
Proof. intros H j1 j2 Hs. split; [by apply H|]. split; [done|]. intros d' _. apply same_at_refl. Qed.
(** A check of that part before the rest. *)
Lemma local_check {E X Y} d (check : WitnessJournal -> result E Y) (call : Y -> WitnessJournal -> result E (WitnessJournal * X)) :
  (forall j1 j2, same_at d j1 j2 -> check j1 = check j2) -> (forall y, local d (call y)) -> local d (fun j => y ← check j; call y j).
Proof. intros H Hc j1 j2 Hs. rewrite (H j1 j2 Hs). destruct (check j2) as [y|e]; cbn [mbind result_bind]; [by apply (Hc y)|done]. Qed.
Lemma local_then {E X Y} d (call : WitnessJournal -> result E (WitnessJournal * X)) (rest : X -> WitnessJournal -> result E (WitnessJournal * Y)) :
  local d call -> (forall x, local d (rest x)) -> local d (fun j => '(j, x) ← call j; rest x j).
Proof.
  intros H Hr j1 j2 Hs. specialize (H j1 j2 Hs). destruct (call j1) as [[j1' x1]|e1], (call j2) as [[j2' x2]|e2]; cbn [mbind result_bind]; [|done..|by subst].
  destruct H as (-> & Hs' & Ho). specialize (Hr x2 j1' j2' Hs'). destruct (rest x2 j1') as [[j1'' y1]|], (rest x2 j2') as [[j2'' y2]|]; [|done..].
  destruct Hr as (-> & Hs'' & Ho'). split; [done|]. split; [done|]. intros d' Hd. eapply same_at_trans; [by apply Ho|by apply Ho'].
Qed.
Lemma local_map_err {E F X} d (f : E -> F) (call : WitnessJournal -> result E (WitnessJournal * X)) : local d call -> local d (fun j => map_err f (call j)).
Proof. intros H j1 j2 Hs. specialize (H j1 j2 Hs). destruct (call j1) as [[]|], (call j2) as [[]|]; cbn; try done. by f_equal. Qed.

Lemma observe_local k ks e policy id key epoch : Kel_verify k = Ok ks -> last (kel_events k) = Some e ->
  local (kel_did k) (fun j => observe j e policy id key epoch).
Proof.
  intros Hk He. unfold observe. apply local_check; [done|intros _]. destruct (from_scid (ev_scid e)) as [d|] eqn:Ed; [|apply local_err].
  apply (head_identity k ks e) in Ed as ->; [|done..]. cbn [mbind result_bind]. intros j1 j2 Hs. pose proof Hs as [H1 H2]. rewrite H1.
  assert (check_certified j1 (kel_did k) e = check_certified j2 (kel_did k) e) as ->.
  { unfold check_certified. rewrite H1. destruct (wj_states j2 !! _) as [s|]; [|done]. by rewrite H2. }
  destruct (decision _ e); cbn [mbind result_bind]; try done.
  - destruct (check_certified j2 (kel_did k) e); cbn [mbind result_bind]; [|done]. split; [done|]. split; [by apply accept_same|]. intros d' Hd. by apply accept_other.
  - destruct (duplicity_assemble _ _ _); cbn [mbind result_bind]; done.
Qed.
Lemma observe_declared_local k id key epoch : local (kel_did k) (fun j => observe_declared j k id key epoch).
Proof.
  unfold observe_declared. destruct (Kel_verify k) as [ks|] eqn:Hk; cbn [mbind result_bind]; [|apply local_err].
  destruct (declared_witness_policy k) as [policy|]; cbn [ok_or mbind result_bind]; [|apply local_err].
  destruct (last (kel_events k)) as [e|] eqn:He; cbn [ok_or mbind result_bind]; [|apply local_err]. by eapply observe_local.
Qed.
Lemma certify_local k id key epoch : local (kel_did k) (fun j => certify_policy_transition j k id key epoch).
Proof.
  unfold certify_policy_transition. destruct (Kel_verify k) as [ks|] eqn:Hk; cbn [mbind result_bind]; [|apply local_err].
  apply local_check; [intros j1 j2 [H _]; unfold state_for; by rewrite H|intros s]. destruct (last (kel_events k)) as [e|]; cbn [ok_or mbind result_bind]; [|apply local_err].
  do 3 (apply local_check; [done|intros _]). apply local_check.
  - intros j1 j2 [_ H]. by rewrite H.
  - intros _ j1 j2 Hs. split; [done|]. split; [by apply certification_same|]. intros d' Hd. by apply certification_other.
Qed.
End Local.

Section Records.
Context {P : Primitives} {L : PrimitivesLaws}.

(** ** A record file decodes to its events *)
Definition event_bounded (e : RecordEvent) : Prop := Z.of_nat (length (re_kel e)) <= U32_MAX /\ receipt_ok (re_receipt e).
Lemma svc_field {A} b (f : bytes -> parser WitnessServiceError A) rest a : Z.of_nat (length b) <= U32_MAX -> parses (f b) rest a ->
  parses (n ← svc_number; x ← svc_take n; f x) (w_bytes b ++ rest) a.
Proof.
  intros H Hf. with_strategy transparent [w_bytes] unfold w_bytes. rewrite <- (assoc_L (++)).
  eapply parses_bind; [apply parses_u32; unfold is_u32; lia|]. eapply parses_bind; [apply parses_take; by rewrite Nat2Z.id|done].
Qed.
Lemma parses_record_event e : event_bounded e -> parses rd_record_event (encode_record_event e) e.
Proof.
  intros [Hk Hr]. pose proof (receipt_length _ Hr) as Hl. unfold rd_record_event, encode_record_event.
  eapply parses_bind; [apply parses_u8|]. eapply (parses_lift _ _ _ (re_transition e)); [by destruct (re_transition e)|]. apply svc_field; [done|].
  rewrite <- (app_nil_r (w_bytes (receipt_encode _))). apply svc_field.
  - unfold U32_MAX, MAX_STATEMENT_BYTES, MAX_DID_BYTES, MAX_MULTIHASH_BYTES, MAX_SIGNATURE_BYTES in *. lia.
  - eapply parses_lift; [by rewrite (receipt_round_trip _ Hr)|]. destruct e. apply parses_ret.
Qed.
Lemma record_event_length e : (9 <= length (encode_record_event e))%nat.
Proof. unfold encode_record_event. rewrite !length_app, !length_w_bytes, length_w_u8. lia. Qed.
Lemma record_events_length h : (9 * length h <= length (concat (map encode_record_event h)))%nat.
Proof. induction h as [|e h IH]; [done|]. cbn [map concat length]. rewrite length_app. pose proof (record_event_length e). lia. Qed.
Definition record_body (h : list RecordEvent) : bytes := w_u32 (Z.of_nat (length h)) ++ concat (map encode_record_event h).
Lemma encode_record_length h : length (encode_record h) = (length RECORD_DOMAIN + length (record_body h) + 32)%nat.
Proof. unfold encode_record, record_body. cbv zeta. rewrite !length_app. cbn [digest]. rewrite blake3_length. lia. Qed.
Lemma parses_record h : h <> [] -> Forall event_bounded h -> Z.of_nat (length h) <= U32_MAX -> parses (rd_record (record_body h)) (record_body h) h.
Proof.
  intros Hne Hf Hn. pose proof (record_events_length h) as H9. unfold rd_record. unfold record_body at 2.
  assert (0 < length h)%nat as Hpos by (destruct h; [done|cbn; lia]).
  eapply parses_bind; [apply parses_u32; unfold is_u32; lia|]. eapply (parses_lift _ _ _ tt).
  - apply fail_if_ok, orb_false_iff. split; [apply Z.eqb_neq; lia|]. apply Z.ltb_ge. unfold record_body. rewrite length_app, length_w_u32.
    apply Z.div_le_lower_bound; lia.
  - rewrite Nat2Z.id. apply parses_repeat. eapply Forall_impl; [exact Hf|]. apply parses_record_event.
Qed.
Lemma starts_with_app p b : starts_with p (p ++ b) = true.
Proof. unfold starts_with. rewrite take_app_length. by apply bool_decide_eq_true_2. Qed.
Lemma record_round_trip h : h <> [] -> Forall event_bounded h -> Z.of_nat (length (encode_record h)) <= MAX_RECORD_BYTES ->
  decode_record (encode_record h) = Ok h.
Proof.
  intros Hne Hf Hl. pose proof (encode_record_length h) as El. pose proof (record_events_length h) as H9.
  assert (Z.of_nat (length h) <= U32_MAX) as Hn. { unfold record_body in El. rewrite length_app in El. unfold MAX_RECORD_BYTES, U32_MAX in *. lia. }
  destruct (parses_new _ _ _ (parses_record h Hne Hf Hn)) as (r & Hp & Hfin).
  assert (encode_record h = (RECORD_DOMAIN ++ record_body h) ++ digest Blake3 (RECORD_DOMAIN ++ record_body h)) as E by done.
  unfold decode_record. rewrite El, E. assert (starts_with LEGACY_RECORD_DOMAIN ((RECORD_DOMAIN ++ record_body h) ++ digest Blake3 (RECORD_DOMAIN ++ record_body h)) = false) as ->.
  { unfold starts_with. apply bool_decide_eq_false_2. rewrite <- (assoc_L (++)).
    change (length LEGACY_RECORD_DOMAIN) with (length RECORD_DOMAIN). rewrite take_app_length. intros X. vm_compute in X. discriminate. }
  rewrite <- (assoc_L (++)), starts_with_app, (assoc_L (++)). cbn [fail_if mbind result_bind negb orb].
  assert ((length RECORD_DOMAIN + length (record_body h) + 32 <? length RECORD_DOMAIN + 4 + 32)%nat = false) as ->.
  { apply Nat.ltb_ge. unfold record_body. rewrite length_app, length_w_u32. lia. }
  cbn [fail_if mbind result_bind]. replace (length RECORD_DOMAIN + length (record_body h) + 32 - 32)%nat with (length (RECORD_DOMAIN ++ record_body h)) by (rewrite length_app; lia).
  rewrite take_app_length, !drop_app_length, bool_decide_eq_true_2 by done. cbn [negb fail_if mbind result_bind].
  rewrite Hp. cbn [mbind result_bind]. by rewrite Hfin.
Qed.
End Records.

Section Histories.
Context {P : Primitives} {L : PrimitivesLaws} (id : WitnessId) (key : SigningKey).
Notation st r := (wr_statement r).

(** ** One step that a record stores *)
Definition stored_step (transition : bool) (j : WitnessJournal) (k : Kel) (epoch : Z) : result WitnessServiceError (WitnessJournal * WitnessReceipt) :=
  if transition then map_err WsIdentity (certify_policy_transition j k id key epoch)
  else o ← map_err WsIdentity (observe_declared j k id key epoch);
       match o with (j, Accepted receipt) => Ok (j, receipt) | _ => Err CorruptRecord end.
Lemma stored_step_local t k epoch : local (kel_did k) (fun j => stored_step t j k epoch).
Proof.
  destruct t; cbn [stored_step]; [by apply local_map_err, certify_local|].
  intros j1 j2 Hs. pose proof (local_map_err _ WsIdentity _ (observe_declared_local k id key epoch) j1 j2 Hs) as H. cbv beta in H.
  destruct (map_err WsIdentity (observe_declared j1 k id key epoch)) as [[j1' o1]|], (map_err WsIdentity (observe_declared j2 k id key epoch)) as [[j2' o2]|];
    cbn [mbind result_bind]; try done. destruct H as (-> & H1 & H2). cbn [mbind result_bind]. by destruct o2.
Qed.
(** The receipt is about the log's identity, for its head, under the
    witness's key. *)
Lemma observed_receipt j k epoch j' r : observe_declared j k id key epoch = Ok (j', Accepted r) ->
  exists e g, r = sign_witness_receipt (statement_of (kel_did k) e g id epoch) key.
Proof.
  unfold observe_declared. case_eq (Kel_verify k); [intros ks Hk|done]. cbn [mbind result_bind]. destruct (declared_witness_policy k) as [policy|]; [|done].
  cbn [ok_or mbind result_bind]. case_eq (last (kel_events k)); [intros e He|done]. cbn [ok_or mbind result_bind]. unfold observe.
  destruct (fail_if _ _); cbn [mbind result_bind]; [|done]. case_eq (from_scid (ev_scid e)); [intros d Hd|done]. cbn [mbind result_bind].
  apply (head_identity k ks e) in Hd as ->; [|done..]. destruct (decision _ e) as [| | |x|]; cbn [mbind result_bind]; try done.
  - destruct (check_certified _ _ _); cbn [mbind result_bind]; [|done]. intros [= _ <-]. by exists e, (wp_generation policy).
  - by destruct (duplicity_assemble _ _ _).
Qed.
Lemma certified_receipt j k epoch j' r : certify_policy_transition j k id key epoch = Ok (j', r) ->
  exists e g, r = sign_witness_receipt (statement_of (kel_did k) e g id epoch) key.
Proof. intros H. unfold certify_policy_transition in H. ok_inv; eauto. Qed.
Lemma stored_receipt t j k epoch j' r : stored_step t j k epoch = Ok (j', r) ->
  exists e g, r = sign_witness_receipt (statement_of (kel_did k) e g id epoch) key.
Proof.
  destruct t; cbn [stored_step]; intros H.
  - destruct (certify_policy_transition _ _ _ _ _) as [[]|] eqn:E; cbn in H; [|done]. injection H as -> ->. by eapply certified_receipt.
  - destruct (observe_declared _ _ _ _ _) as [[j2 []]|] eqn:E; cbn in H; try done. injection H as -> ->. by eapply observed_receipt.
Qed.
Lemma replay_stored t j k epoch j' r : stored_step t j k epoch = Ok (j', r) ->
  replay_event j k (mkRecordEvent t (Kel_to_bytes k) r) id key = Ok j'.
Proof.
  intros H. unfold replay_event. cbn [re_receipt re_transition]. destruct (stored_receipt _ _ _ _ _ _ H) as (e & g & E).
  assert (ws_observed_epoch (st r) = epoch) as -> by (by subst r). change (if t then _ else _) with (stored_step t j k epoch).
  rewrite H. cbn [mbind result_bind]. by rewrite bool_decide_eq_true_2.
Qed.
(** What a live witness's call does, in terms of a run. *)
Lemma stored_typed t j k epoch j' r : journal_typed j -> received k -> did_ok (wid id) -> is_u64 epoch -> stored_step t j k epoch = Ok (j', r) ->
  journal_typed j' /\ receipt_ok r.
Proof.
  intros Hj Hr Hid Hep. destruct t; cbn [stored_step]; intros H.
  - destruct (certify_policy_transition _ _ _ _ _) as [[]|] eqn:E; cbn in H; [|done]. injection H as -> ->. by eapply certify_typed.
  - destruct (observe_declared _ _ _ _ _) as [[j2 []]|] eqn:E; cbn in H; try done. injection H as -> ->.
    by apply observe_declared_typed in E.
Qed.
Lemma received_typed k : received k -> log_typed k.
Proof. intros H. split; [|by apply received_decoded]. apply received_kel in H as (_ & _ & H & _). unfold MAX_KEL_EVENTS, U64_MAX in *. lia. Qed.
Lemma stored_run t j issued k epoch j' r : witness_run j issued -> received k -> stored_step t j k epoch = Ok (j', r) -> witness_run j' (issued ++ [r]).
Proof.
  intros Hrun Hr%received_typed H. destruct t; cbn [stored_step] in H.
  - destruct (certify_policy_transition j k id key epoch) as [[]|] eqn:E; cbn in H; [|done]. injection H as -> ->.
    pose proof (run_call j issued (CallCertify k) id key epoch Hrun Hr) as Hc. cbn [witness_step] in Hc. by rewrite E in Hc.
  - destruct (observe_declared j k id key epoch) as [[j2 []]|] eqn:E; cbn in H; try done. injection H as -> ->.
    pose proof (run_call j issued (CallObserveDeclared k) id key epoch Hrun Hr) as Hc. cbn [witness_step] in Hc. by rewrite E in Hc.
Qed.

(** ** The history of one identity *)
Lemma replay_events_app j o h1 h2 : replay_events j o id key (h1 ++ h2) =
  ('(j', o') ← replay_events j o id key h1; replay_events j' o' id key h2).
Proof.
  revert j o. induction h1 as [|e h1 IH]; intros j o; cbn [app replay_events]; [done|].
  do 4 (match goal with |- mbind _ ?m = _ => destruct m; cbn [mbind result_bind]; [|done] end). apply IH.
Qed.
Record kept (d : Did) (h : list RecordEvent) (j : WitnessJournal) : Prop := {
  kp_replay : replay_events journal_new None id key h = Ok (j, match h with [] => None | _ => Some d end);
  kp_run : witness_run j (map re_receipt h);
  kp_typed : journal_typed j;
  kp_receipts : Forall (fun e => event_bounded e /\ ws_identity (st (re_receipt e)) = d) h;
  kp_other d' : d' <> d -> same_at d' journal_new j;
}.
Lemma kept_nil d : kept d [] journal_new.
Proof. split; [done|apply run_new|apply typed_new|constructor|done]. Qed.
Lemma kept_snoc d h j t k epoch j' r : kept d h j -> received k -> kel_did k = d -> did_ok (wid id) -> is_u64 epoch ->
  Z.of_nat (length (Kel_to_bytes k)) <= U32_MAX -> stored_step t j k epoch = Ok (j', r) ->
  kept d (h ++ [mkRecordEvent t (Kel_to_bytes k) r]) j'.
Proof.
  intros [Hp Hrun Ht Hf Ho] Hr <- Hid Hep Hl Hs. destruct (stored_typed t j k epoch j' r) as [Ht' Hok]; [done..|].
  destruct (stored_receipt _ _ _ _ _ _ Hs) as (e & g & Er). split.
  - rewrite replay_events_app, Hp. cbn [mbind result_bind replay_events re_kel]. destruct (received_kel k Hr) as (-> & _). cbn [map_err mbind result_bind].
    assert (fail_if match match h with [] => None | _ :: _ => Some (kel_did k) end with
       Some previous => negb (bool_decide (previous = kel_did k)) | None => false end CorruptRecord = Ok tt) as -> by (destruct h; [done|]; by rewrite bool_decide_eq_true_2).
    cbn [mbind result_bind re_receipt]. assert (ws_witness_id (st r) = id) as Hw by (by subst r). assert (receipt_verify r (verifying_key key) = Ok tt) as Hv.
    { subst r. unfold receipt_verify. cbn [sign_witness_receipt wr_statement wr_signature]. by rewrite sign_verifies. }
    rewrite Hw, Hv, bool_decide_eq_true_2 by done. cbn [is_ok negb orb fail_if mbind result_bind]. rewrite (replay_stored _ _ _ _ _ _ Hs). cbn [mbind result_bind].
    by destruct h.
  - rewrite map_app. by eapply stored_run.
  - done.
  - apply Forall_app. split; [done|]. apply Forall_singleton. split; [by split|]. by subst r.
  - intros d' Hd. eapply same_at_trans; [by apply Ho|]. pose proof (stored_step_local t k epoch j j (same_at_refl _ _)) as H. cbv beta in H. rewrite Hs in H. by apply H.
Qed.
Lemma replay_event_local k e j1 j2 j1' : same_at (kel_did k) j1 j2 -> replay_event j1 k e id key = Ok j1' ->
  exists j2', replay_event j2 k e id key = Ok j2' /\ same_at (kel_did k) j1' j2' /\ forall d', d' <> kel_did k -> same_at d' j2 j2'.
Proof.
  intros Hs H. set (epoch := ws_observed_epoch (st (re_receipt e))). pose proof (stored_step_local (re_transition e) k epoch) as Hl.
  change (replay_event j1 k e id key) with ('(j, r) ← stored_step (re_transition e) j1 k epoch; _ ← fail_if (negb (bool_decide (r = re_receipt e))) CorruptRecord; Ok j) in H.
  change (replay_event j2 k e id key) with ('(j, r) ← stored_step (re_transition e) j2 k epoch; _ ← fail_if (negb (bool_decide (r = re_receipt e))) CorruptRecord; Ok j).
  pose proof (Hl j1 j2 Hs) as H1. pose proof (Hl j2 j1 (same_at_sym _ _ _ Hs)) as H2. cbv beta in H1, H2.
  destruct (stored_step (re_transition e) j1 k epoch) as [[j1'' r1]|]; cbn [mbind result_bind] in H; [|done].
  destruct (stored_step (re_transition e) j2 k epoch) as [[j2' r2]|]; [|done]. cbn [mbind result_bind]. destruct H1 as (-> & H1 & _), H2 as (_ & _ & H2).
  destruct (fail_if _ _); cbn [mbind result_bind] in *; [|done]. injection H as ->. by exists j2'.
Qed.
Lemma replay_one_identity j d0 h j' d : replay_events j (Some d0) id key h = Ok (j', Some d) -> d0 = d.
Proof.
  revert j d0. induction h as [|e h IH]; intros j d0; cbn [replay_events]; [by intros [= _ ->]|]. intros H. ok_inv. bool_prop. subst. by apply IH in H.
Qed.
(** Replaying a history reads nothing but the identity's part of the journal
    it starts from. *)
Lemma replay_events_local d h j1 j2 o j1' : same_at d j1 j2 -> (h = [] -> o = Some d) -> replay_events j1 o id key h = Ok (j1', Some d) ->
  exists j2', replay_events j2 o id key h = Ok (j2', Some d) /\ same_at d j1' j2' /\ forall d', d' <> d -> same_at d' j2 j2'.
Proof.
  revert j1 j2 o. induction h as [|e h IH]; intros j1 j2 o Hs Ho Hr.
  - cbn [replay_events] in *. injection Hr as -> ->. by exists j2.
  - cbn [replay_events] in *. destruct (map_err _ (Kel_from_bytes (re_kel e))) as [k|]; cbn [mbind result_bind] in *; [|done].
    do 2 (match type of Hr with mbind _ ?m = _ => destruct m end; cbn [mbind result_bind] in *; [|done]).
    case_eq (replay_event j1 k e id key); [intros m1 Hm|intros x Hx; by rewrite Hx in Hr]. rewrite Hm in Hr. cbn [mbind result_bind] in Hr.
    pose proof (replay_one_identity _ _ _ _ _ Hr) as Hd. rewrite <- Hd in *. destruct (replay_event_local k e j1 j2 m1 Hs Hm) as (m2 & -> & Hs' & Ho').
    cbn [mbind result_bind]. destruct (IH m1 m2 (Some (kel_did k)) Hs' (fun _ => eq_refl) Hr) as (j2' & -> & Hs'' & Ho''). exists j2'. split; [done|]. split; [done|].
    intros d' Hn. eapply same_at_trans; [by apply Ho'|by apply Ho''].
Qed.
(** A history replays on any journal that has nothing of its identity. *)
Lemma kept_replays d h j j0 : kept d h j -> h <> [] -> same_at d journal_new j0 ->
  exists j1, replay_events j0 None id key h = Ok (j1, Some d) /\ same_at d j j1 /\ forall d', d' <> d -> same_at d' j0 j1.
Proof.
  intros [Hp _ _ _ _] Hne Hs. apply (replay_events_local d h journal_new j0 None j Hs); [done|]. rewrite Hp. by destruct h.
Qed.
(** The receipt the journal holds of an identity is of its history. *)
Lemma held_receipt d h j s : kept d h j -> wj_states j !! d = Some s -> wi_issued_receipt s ∈ map re_receipt h.
Proof. intros Hk Hs. destruct (ji_state _ _ (witness_run_inv _ _ (kp_run _ _ _ Hk)) _ _ Hs) as (_ & H & _). done. Qed.
End Histories.


Section Survives.
Context {P : Primitives} {L : PrimitivesLaws} (id : WitnessId) (key : SigningKey).
Notation st r := (wr_statement r).

(** ** The life of a service *)
Inductive service_call := SvcObserve (k : Kel) (epoch : Z) | SvcCertify (k : Kel) (epoch : Z) | SvcState (identity : Did).
(** The service after the call and the receipts that leave it. *)
Definition service_step (s : PersistentWitnessJournal) (call : service_call) (id' : WitnessId) (key' : SigningKey) :
    PersistentWitnessJournal * list WitnessReceipt :=
  match call with
  | SvcObserve k epoch =>
      match svc_observe_declared s k id' key' epoch with
      | (s, Ok (Accepted r)) | (s, Ok (AlreadyAccepted r)) => (s, [r])
      | (s, _) => (s, [])
      end
  | SvcCertify k epoch => match svc_certify_policy_transition s k id' key' epoch with (s, Ok r) => (s, [r]) | (s, Err _) => (s, []) end
  | SvcState d => (s, match svc_state_for s d with Some x => [wi_issued_receipt x] | None => [] end)
  end.
(** Logs come from the wire, epochs are [u64]. *)
Definition service_call_typed (call : service_call) : Prop :=
  match call with
  | SvcObserve k epoch | SvcCertify k epoch => received k /\ Z.of_nat (length (Kel_to_bytes k)) <= U32_MAX /\ is_u64 epoch
  | SvcState _ => True
  end.
Definition listing_of (d : WitnessDirectory) (listing : list (option (bytes * StateEntry))) : Prop := listing ≡ₚ map Some (map_to_list (wd_states d)).
(** A directory, the service alive on it, and the receipts that ever left.
    The operator opens with one identifier and key; callers may come with
    any others, the operator's being the only key with its public half. *)
Inductive service_run : WitnessDirectory -> option PersistentWitnessJournal -> list WitnessReceipt -> Prop :=
| svc_fresh replacements : service_run (mkWitnessDir ∅ replacements) None []
| svc_opened d issued listing max s : service_run d None issued -> listing_of d listing ->
    open_with_capacity d false listing id key max = Ok s -> service_run d (Some s) issued
| svc_called d s issued call id' key' s' out : service_run d (Some s) issued -> service_call_typed call ->
    (verifying_key key' = verifying_key key -> key' = key) -> service_step s call id' key' = (s', out) ->
    service_run (pj_directory s') (Some s') (issued ++ out)
| svc_crashed d s issued call id' key' s' out : service_run d (Some s) issued -> service_call_typed call ->
    (verifying_key key' = verifying_key key -> key' = key) -> service_step s call id' key' = (s', out) ->
    service_run (pj_directory s') None issued
| svc_stopped d s issued : service_run d (Some s) issued -> service_run d None issued.

(** ** What the directory holds *)
Notation history := (gmap Did (list RecordEvent)).
Definition file_of (x : Did * list RecordEvent) : bytes * StateEntry := (record_path x.1, StateFile (encode_record x.2)).
Definition entry_len (e : StateEntry) : Z := match e with StateFile b => Z.of_nat (length b) | _ => 0 end.
Record held (m : gmap bytes StateEntry) (hist : history) : Prop := {
  hd_files p e : m !! p = Some e <-> exists d h, hist !! d = Some h /\ file_of (d, h) = (p, e);
  hd_paths d d' : is_Some (hist !! d) -> is_Some (hist !! d') -> record_path d = record_path d' -> d = d';
  hd_kept d h : hist !! d = Some h -> h <> [] /\ Z.of_nat (length (encode_record h)) <= MAX_RECORD_BYTES /\ exists j, kept id key d h j;
  hd_total : total_by entry_len m <= MAX_TOTAL_RECORD_BYTES;
}.
Definition past (hist : history) (d : Did) : list RecordEvent := default [] (hist !! d).
(** Each identity's part of a journal is what its history replays to. *)
Definition parts (hist : history) (j : WitnessJournal) : Prop := forall d, exists jd, kept id key d (past hist d) jd /\ same_at d jd j.
Record alive (hist : history) (s : PersistentWitnessJournal) : Prop := {
  al_records : pj_records s = hist;
  al_total : pj_total_bytes s = total_by entry_len (wd_states (pj_directory s));
  al_parts : parts hist (pj_journal s);
}.
Definition in_history (hist : history) (r : WitnessReceipt) : Prop := r ∈ map re_receipt (past hist (ws_identity (st r))).
Record service_inv (d : WitnessDirectory) (live : option PersistentWitnessJournal) (issued : list WitnessReceipt) (hist : history) : Prop := {
  si_held : held (wd_states d) hist;
  si_issued r : r ∈ issued -> in_history hist r;
  si_live s : live = Some s -> pj_directory s = d /\ pj_witness_id s = id /\ pj_witness_key s = verifying_key key /\ (pj_poisoned s = false -> alive hist s);
}.

Lemma record_path_inj d d' : record_path d = record_path d' -> d = d' \/ blake3_collision.
Proof.
  intros H. destruct (decide (d = d')) as [|Hne]; [by left|right]. unfold record_path in H. cbn [digest] in H.
  apply (f_equal hex_decode) in H. rewrite !hex_round_trip in H by apply blake3_bytes_ok. injection H as H.
  exists (lit "mini-witness-service/identity/v2" ++ [0] ++ did_str d), (lit "mini-witness-service/identity/v2" ++ [0] ++ did_str d').
  split; [|done]. intros E%app_inv_head. injection E as E. apply Hne. destruct d, d'. cbn in E. by subst.
Qed.
Lemma past_kept m hist d : held m hist -> exists j, kept id key d (past hist d) j.
Proof.
  intros Hh. unfold past. destruct (hist !! d) as [h|] eqn:E; [|exists journal_new; apply kept_nil]. by destruct (hd_kept _ _ Hh d h E) as (_ & _ & ?).
Qed.
Lemma past_receipts m hist d e : held m hist -> e ∈ past hist d -> in_history hist (re_receipt e).
Proof.
  intros Hh He. destruct (past_kept m hist d Hh) as [j Hk]. pose proof (proj1 (Forall_forall _ _) (kp_receipts _ _ _ _ _ Hk) e He) as [_ Hd].
  unfold in_history. rewrite Hd. apply list_elem_of_fmap. by exists e.
Qed.
(** A record file grown by one event. *)
Lemma file_at m hist d e : held m hist -> m !! record_path d = Some e -> (exists h, hist !! d = Some h /\ e = StateFile (encode_record h)) \/ blake3_collision.
Proof.
  intros Hh (d' & h & Hd & E)%(hd_files _ _ Hh). injection E as Ep Ee. apply record_path_inj in Ep as [-> |]; [|by right]. left. by exists h.
Qed.
Lemma held_grows m hist d h : held m hist -> h <> [] -> Z.of_nat (length (encode_record h)) <= MAX_RECORD_BYTES -> (exists j, kept id key d h j) ->
  total_by entry_len (<[record_path d := StateFile (encode_record h)]> m) <= MAX_TOTAL_RECORD_BYTES ->
  held (<[record_path d := StateFile (encode_record h)]> m) (<[d := h]> hist) \/ blake3_collision.
Proof.
  intros Hh Hne Hl Hj Htot.
  assert ((forall d', is_Some (hist !! d') -> record_path d' = record_path d -> d' = d) \/ blake3_collision) as [Hd|]; [|left|by right].
  { destruct (m !! record_path d) as [e|] eqn:E.
    - apply (file_at m hist d e Hh) in E as [(h0 & H0 & _)|]; [|by right]. left. intros d' H Ep. by apply (hd_paths _ _ Hh).
    - left. intros d' [h' H'] Ep. rewrite <- Ep in E. assert (m !! record_path d' = Some (StateFile (encode_record h'))) as E'; [|congruence].
      apply (hd_files _ _ Hh). by exists d', h'. }
  split.
  - intros p e. destruct (decide (p = record_path d)) as [->|Hp].
    + rewrite lookup_insert_eq. split.
      * intros [= <-]. exists d, h. by rewrite lookup_insert_eq.
      * intros (d' & h' & H' & E). injection E as Ep <-. destruct (decide (d = d')) as [<-|Hn]; [rewrite lookup_insert_eq in H'; by injection H' as <-|].
        rewrite lookup_insert_ne in H' by done. by destruct Hn; symmetry; apply Hd.
    + rewrite lookup_insert_ne by done. rewrite (hd_files _ _ Hh). split; intros (d' & h' & H' & E); exists d', h'; (split; [|done]); injection E as Ep _.
      * destruct (decide (d = d')) as [<-|Hn]; [by destruct Hp|]. by rewrite lookup_insert_ne.
      * destruct (decide (d = d')) as [<-|Hn]; [by destruct Hp|]. by rewrite lookup_insert_ne in H'.
  - intros d1 d2 H1 H2 Ep. destruct (decide (d = d1)) as [<-|N1], (decide (d = d2)) as [<-|N2]; [done| | |].
    + rewrite lookup_insert_ne in H2 by done. by rewrite (Hd d2 H2).
    + rewrite lookup_insert_ne in H1 by done. by rewrite (Hd d1 H1).
    + rewrite lookup_insert_ne in H1, H2 by done. by apply (hd_paths _ _ Hh).
  - intros d' h' H'. destruct (decide (d = d')) as [<-|Hn]; [rewrite lookup_insert_eq in H'; by injection H' as <-|].
    rewrite lookup_insert_ne in H' by done. by apply (hd_kept _ _ Hh).
  - done.
Qed.
Lemma in_history_grows hist d h r : in_history hist r -> (forall e, e ∈ past hist d -> e ∈ h) -> in_history (<[d := h]> hist) r.
Proof.
  intros Hr Hi. unfold in_history, past in *. destruct (decide (d = ws_identity (st r))) as [->|Hn].
  - rewrite lookup_insert_eq. cbn [default]. apply list_elem_of_fmap in Hr as (e & -> & He). apply list_elem_of_fmap. exists e. split; [done|by apply Hi].
  - by rewrite lookup_insert_ne.
Qed.

(** ** One write *)
Definition grown (hist : history) (d : Did) (e : RecordEvent) : history := <[d := past hist d ++ [e]]> hist.
Lemma replaced_total m hist d b : held m hist ->
  total_by entry_len (<[record_path d := StateFile b]> m) =
  total_by entry_len m - match past hist d with [] => 0 | _ => Z.of_nat (length (encode_record (past hist d))) end + Z.of_nat (length b) \/ blake3_collision.
Proof.
  intros Hh. destruct (m !! record_path d) as [e|] eqn:E.
  - pose proof E as E'. apply (file_at m hist d e Hh) in E' as [(h & Hd & ->)|]; [left|by right]. rewrite (total_by_update _ _ _ _ _ E). cbn [entry_len].
    unfold past. rewrite Hd. cbn [default]. destruct (hd_kept _ _ Hh d h Hd) as [Hne _]. by destruct h.
  - left. rewrite total_by_insert by done. cbn [entry_len]. unfold past. destruct (hist !! d) as [h|] eqn:Hd; cbn [default]; [|lia].
    assert (m !! record_path d = Some (StateFile (encode_record h))) as E'; [|congruence]. apply (hd_files _ _ Hh). by exists d, h.
Qed.
Lemma replace_outcome d p b d' r : replace_state d p b = (d', r) ->
  match r with Ok _ => False | Err _ => wd_states d' = wd_states d end \/ wd_states d' = <[p := StateFile b]> (wd_states d).
Proof.
  unfold replace_state. destruct (wd_states d !! p) as [[]|], (wd_replacements d) as [|[[]|] rs]; intros [= <- <-]; cbn; auto.
Qed.
(** [persist], as an outcome: the file grown or not, and the service poisoned
    unless it knows which. *)
Lemma persist_outcome d0 s issued hist d e s' res : service_inv d0 (Some s) issued hist -> pj_poisoned s = false ->
  (exists j, kept id key d (past hist d ++ [e]) j) -> persist s d e = (s', res) ->
  (match res with
   | Ok _ => held (wd_states (pj_directory s')) (grown hist d e) /\ pj_records s' = grown hist d e /\ pj_journal s' = pj_journal s /\
       pj_total_bytes s' = total_by entry_len (wd_states (pj_directory s'))
   | Err _ => s' = s \/ (pj_poisoned s' = true /\ (held (wd_states (pj_directory s')) hist \/ held (wd_states (pj_directory s')) (grown hist d e)))
   end /\ pj_witness_id s' = id /\ pj_witness_key s' = verifying_key key /\ (res = Ok tt -> pj_poisoned s' = false)) \/ blake3_collision.
Proof.
  intros [Hh _ Hlive] Hp Hk H. destruct (Hlive s eq_refl) as (Hd & Hid & Hkey & Ha). destruct (Ha Hp) as [Hr Ht _]. rewrite <- Hd in Hh.
  unfold persist in H. rewrite Hr in H. fold (past hist d) in H. set (b := encode_record (past hist d ++ [e])) in *. rewrite Ht in H.
  destruct (replaced_total _ _ d b Hh) as [Etot|]; [|by right]. rewrite <- Etot in H.
  destruct (_ || _) eqn:Eb; [injection H as <- <-; left; repeat split; try done; by left|]. bool_prop.
  destruct (held_grows _ hist d (past hist d ++ [e]) Hh) as [Hg|]; [by destruct (past hist d)|done|done|done| |by right]. left.
  destruct (replace_state (pj_directory s) (record_path d) b) as [d1 r] eqn:Er. pose proof (replace_outcome _ _ _ _ _ Er) as Ho.
  destruct r as [u|x]; injection H as <- <-; cbn [pj_directory pj_records pj_journal pj_total_bytes pj_poisoned pj_witness_id pj_witness_key].
  - destruct Ho as [[]|Ho]. by rewrite Ho.
  - split; [|done]. right. split; [done|]. destruct Ho as [-> | ->]; [by left|by right].
Qed.

(** ** Every call *)
Context (Hid : did_ok (wid id)).
Lemma ready_spec d s issued hist id' key' : service_inv d (Some s) issued hist -> (verifying_key key' = verifying_key key -> key' = key) ->
  check_ready s id' key' = Ok tt -> pj_poisoned s = false /\ id' = id /\ key' = key.
Proof.
  intros [_ _ Hlive] Hk H. destruct (Hlive s eq_refl) as (_ & Ei & Ek & _). unfold check_ready in H. ok_inv. bool_prop. subst.
  split; [done|]. split; [congruence|]. apply Hk. congruence.
Qed.
Lemma parts_step hist j k t epoch staged r : parts hist j -> received k -> Z.of_nat (length (Kel_to_bytes k)) <= U32_MAX -> is_u64 epoch ->
  stored_step id key t j k epoch = Ok (staged, r) ->
  let e := mkRecordEvent t (Kel_to_bytes k) r in
  (exists jd, kept id key (kel_did k) (past hist (kel_did k) ++ [e]) jd) /\ parts (grown hist (kel_did k) e) staged.
Proof.
  intros Hp Hr Hl Hep Hs e. destruct (Hp (kel_did k)) as (jd & Hk & Hsame). pose proof (stored_step_local id key t k epoch) as Hloc.
  pose proof (Hloc j jd (same_at_sym _ _ _ Hsame)) as H1. cbv beta in H1. rewrite Hs in H1.
  destruct (stored_step id key t jd k epoch) as [[jd' r']|] eqn:Es; [|done]. destruct H1 as (<- & H1 & Ho).
  pose proof (kept_snoc id key _ _ _ t k epoch jd' r Hk Hr eq_refl Hid Hep Hl Es) as Hk'. split; [by exists jd'|].
  intros d. unfold past, grown. destruct (decide (kel_did k = d)) as [<-|Hn].
  - rewrite lookup_insert_eq. exists jd'. split; [done|by apply same_at_sym].
  - rewrite lookup_insert_ne by done. destruct (Hp d) as (j2 & H2 & Hs2). exists j2. split; [done|]. eapply same_at_trans; [done|by apply Ho].
Qed.
Lemma stored_inv d s issued hist t k epoch staged r s1 res : service_inv d (Some s) issued hist -> pj_poisoned s = false -> received k ->
  Z.of_nat (length (Kel_to_bytes k)) <= U32_MAX -> is_u64 epoch -> stored_step id key t (pj_journal s) k epoch = Ok (staged, r) ->
  persist s (kel_did k) (mkRecordEvent t (Kel_to_bytes k) r) = (s1, res) ->
  (exists hist', match res with
     | Ok _ => service_inv (pj_directory s1) (Some (publish s1 staged)) (issued ++ [r]) hist'
     | Err _ => service_inv (pj_directory s1) (Some s1) issued hist'
     end) \/ blake3_collision.
Proof.
  intros Hi Hp Hr Hl Hep Hs Hper. pose proof (si_live _ _ _ _ Hi s eq_refl) as (Hd & Eid & Ekey & Ha). set (e := mkRecordEvent _ _ _) in *.
  destruct (parts_step hist _ k t epoch staged r (al_parts _ _ (Ha Hp)) Hr Hl Hep Hs) as [Hk Hparts].
  destruct (persist_outcome _ s issued hist (kel_did k) e s1 res Hi Hp Hk Hper) as [(Ho & Eid' & Ekey' & Hp')|]; [left|by right].
  assert (forall x, x ∈ issued -> in_history (grown hist (kel_did k) e) x) as Hgrow.
  { intros x Hx. apply in_history_grows; [by apply (si_issued _ _ _ _ Hi)|]. set_solver. }
  destruct res as [u|err].
  - destruct Ho as (Hh & Er & Ej & Et). exists (grown hist (kel_did k) e). split; [done| |].
    + intros x [Hx|Hx]%elem_of_app; [by apply Hgrow|]. apply list_elem_of_singleton in Hx as ->. apply (past_receipts _ _ (kel_did k) e Hh).
      unfold past, grown. rewrite lookup_insert_eq. set_solver.
    + intros s2 [= <-]. split; [done|]. split; [done|]. split; [done|]. intros _. by split.
  - destruct Ho as [->|[Hpois [Hh|Hh]]].
    + exists hist. by rewrite Hd.
    + exists hist. split; [done|apply Hi|]. intros s2 [= <-]. do 3 (split; [done|]). intros Hf. by rewrite Hpois in Hf.
    + exists (grown hist (kel_did k) e). split; [done|done|]. intros s2 [= <-]. do 3 (split; [done|]). intros Hf. by rewrite Hpois in Hf.
Qed.
Lemma publish_same s : publish s (pj_journal s) = s.
Proof. by destruct s. Qed.
Lemma observed_otherwise j k epoch j' o : observe_declared j k id key epoch = Ok (j', o) ->
  match o with
  | Accepted _ => True
  | AlreadyAccepted r => j' = j /\ exists x, wj_states j !! kel_did k = Some x /\ r = wi_issued_receipt x
  | _ => j' = j
  end.
Proof.
  unfold observe_declared. case_eq (Kel_verify k); [intros ks Hk|done]. cbn [mbind result_bind]. destruct (declared_witness_policy k) as [policy|]; [|done].
  cbn [ok_or mbind result_bind]. case_eq (last (kel_events k)); [intros e He|done]. cbn [ok_or mbind result_bind]. unfold observe.
  destruct (fail_if _ _); cbn [mbind result_bind]; [|done]. case_eq (from_scid (ev_scid e)); [intros d Hd|done]. cbn [mbind result_bind].
  apply (head_identity k ks e) in Hd as ->; [|done..]. case_eq (decision (wj_states j !! kel_did k) e).
  - intros _. destruct (check_certified _ _ _); cbn [mbind result_bind]; [|done]. by intros [= <- <-].
  - intros r (x & Hx & ->)%decision_duplicate [= <- <-]. split; [done|]. by exists x.
  - by intros n _ [= <- <-].
  - intros x _. destruct (duplicity_assemble _ _ _); cbn [mbind result_bind]; [|done]. by intros [= <- <-].
  - done.
Qed.
Lemma live_receipt d s issued hist x y : service_inv d (Some s) issued hist -> pj_poisoned s = false -> wj_states (pj_journal s) !! x = Some y ->
  in_history hist (wi_issued_receipt y).
Proof.
  intros Hi Hp Hy. destruct (si_live _ _ _ _ Hi s eq_refl) as (_ & _ & _ & Ha). destruct (al_parts _ _ (Ha Hp) x) as (jd & Hk & Hs & _).
  rewrite <- Hs in Hy. apply (held_receipt id key _ _ _ _ Hk) in Hy. apply list_elem_of_fmap in Hy as (e & -> & He).
  by eapply past_receipts; [apply Hi|].
Qed.
Lemma inv_again_service d s issued hist r : service_inv d (Some s) issued hist -> in_history hist r -> service_inv d (Some s) (issued ++ [r]) hist.
Proof.
  intros [Hh Hi Hl] Hr. split; [done| |done]. intros x [Hx|Hx]%elem_of_app; [by apply Hi|]. by apply list_elem_of_singleton in Hx as ->.
Qed.
Lemma inv_silent d s issued hist : service_inv d (Some s) issued hist -> service_inv d (Some s) (issued ++ []) hist.
Proof. by rewrite app_nil_r. Qed.
Definition step_kept (issued : list WitnessReceipt) (x : PersistentWitnessJournal * list WitnessReceipt) : Prop :=
  (exists hist, service_inv (pj_directory x.1) (Some x.1) (issued ++ x.2) hist) \/ blake3_collision.
Lemma unchanged_kept d s issued hist : service_inv d (Some s) issued hist -> step_kept issued (s, []).
Proof. intros Hi. left. exists hist. cbn. destruct (si_live _ _ _ _ Hi s eq_refl) as (-> & _). by apply inv_silent. Qed.
Lemma repeated_kept d s issued hist r : service_inv d (Some s) issued hist -> in_history hist r -> step_kept issued (s, [r]).
Proof. intros Hi Hr. left. exists hist. cbn. destruct (si_live _ _ _ _ Hi s eq_refl) as (-> & _). by apply inv_again_service. Qed.
Lemma observe_kept d s issued hist k epoch id' key' : service_inv d (Some s) issued hist -> service_call_typed (SvcObserve k epoch) ->
  (verifying_key key' = verifying_key key -> key' = key) -> step_kept issued (service_step s (SvcObserve k epoch) id' key').
Proof.
  intros Hi (Hr & Hl & Hep) Hkey. cbn [service_step]. unfold svc_observe_declared. case_eq (check_ready s id' key'); [intros [] Hc|by intros; eapply unchanged_kept].
  destruct (ready_spec d s issued hist id' key' Hi Hkey Hc) as (Hp & -> & ->). destruct (_ && _); [by eapply unchanged_kept|].
  case_eq (observe_declared (pj_journal s) k id key epoch); [intros [staged o] Ho|by intros; eapply unchanged_kept].
  pose proof (observed_otherwise _ _ _ _ _ Ho) as Hother. destruct o as [r|r|n|p].
  - assert (stored_step id key false (pj_journal s) k epoch = Ok (staged, r)) as Hs by (cbn [stored_step]; by rewrite Ho).
    destruct (persist s (kel_did k) _) as [s1 res] eqn:Hper. destruct (stored_inv d s issued hist false k epoch staged r s1 res Hi Hp Hr Hl Hep Hs Hper) as [(hist' & H)|]; [|by right].
    left. exists hist'. destruct res as [u|x]; [done|]. by apply inv_silent.
  - destruct Hother as [-> (x & Hx & ->)]. rewrite publish_same. eapply repeated_kept; [done|]. by eapply live_receipt.
  - rewrite Hother, publish_same. by eapply unchanged_kept.
  - rewrite Hother, publish_same. by eapply unchanged_kept.
Qed.
Lemma certify_kept d s issued hist k epoch id' key' : service_inv d (Some s) issued hist -> service_call_typed (SvcCertify k epoch) ->
  (verifying_key key' = verifying_key key -> key' = key) -> step_kept issued (service_step s (SvcCertify k epoch) id' key').
Proof.
  intros Hi (Hr & Hl & Hep) Hkey. cbn [service_step]. unfold svc_certify_policy_transition. case_eq (check_ready s id' key'); [intros [] Hc|by intros; eapply unchanged_kept].
  destruct (ready_spec d s issued hist id' key' Hi Hkey Hc) as (Hp & -> & ->). destruct (certified_before s (kel_did k) (Kel_to_bytes k)) as [e|] eqn:Eb.
  - eapply repeated_kept; [done|]. destruct (si_live _ _ _ _ Hi s eq_refl) as (_ & _ & _ & Ha). unfold certified_before in Eb. rewrite (al_records _ _ (Ha Hp)) in Eb.
    apply fmap_Some in Eb as ([i e'] & Hf & ->). apply list_find_Some in Hf as (Hin & _). eapply (past_receipts _ hist (kel_did k)); [apply Hi|].
    by eapply list_elem_of_lookup_2.
  - case_eq (certify_policy_transition (pj_journal s) k id key epoch); [intros [staged r] Ho|by intros; eapply unchanged_kept].
    assert (stored_step id key true (pj_journal s) k epoch = Ok (staged, r)) as Hs by (cbn [stored_step]; by rewrite Ho).
    destruct (persist s (kel_did k) _) as [s1 res] eqn:Hper. destruct (stored_inv d s issued hist true k epoch staged r s1 res Hi Hp Hr Hl Hep Hs Hper) as [(hist' & H)|]; [|by right].
    left. exists hist'. destruct res as [u|x]; [done|]. by apply inv_silent.
Qed.
Lemma service_step_kept d s issued hist call id' key' : service_inv d (Some s) issued hist -> service_call_typed call ->
  (verifying_key key' = verifying_key key -> key' = key) -> step_kept issued (service_step s call id' key').
Proof.
  intros Hi Ht Hkey. destruct call as [k epoch|k epoch|x]; [by eapply observe_kept|by eapply certify_kept|]. cbn [service_step]. unfold svc_state_for, state_for.
  destruct (pj_poisoned s) eqn:Hp; [by eapply unchanged_kept|]. destruct (wj_states (pj_journal s) !! x) as [y|] eqn:Ey; [|by eapply unchanged_kept].
  eapply repeated_kept; [done|]. by eapply live_receipt.
Qed.

(** ** Opening *)
Definition file_bytes (x : Did * list RecordEvent) : Z := Z.of_nat (length (encode_record x.2)).
Definition replayable (x : Did * list RecordEvent) : Prop := x.2 <> [] /\ file_bytes x <= MAX_RECORD_BYTES /\ exists j, kept id key x.1 x.2 j.
Lemma load_one max j (records : history) total x : replayable x -> records !! x.1 = None -> parts records j -> 0 <= total ->
  total + file_bytes x <= MAX_TOTAL_RECORD_BYTES ->
  if (max <=? size records)%nat then load_entry max id key (j, records, total) (Some (file_of x)) = Err TooManyIdentities
  else exists j', load_entry max id key (j, records, total) (Some (file_of x)) = Ok (j', <[x.1 := x.2]> records, total + file_bytes x) /\
    parts (<[x.1 := x.2]> records) j'.
Proof.
  destruct x as [d h]. unfold replayable, file_bytes, file_of. cbn [fst snd]. intros (Hne & Hl & jd & Hk) Hd Hp H0 Htot. unfold load_entry. cbn [ok_or mbind result_bind].
  destruct (max <=? size records)%nat; cbn [fail_if mbind result_bind]; [done|].
  assert (checked_add U64_MAX total (Z.of_nat (length (encode_record h))) = Some (total + Z.of_nat (length (encode_record h)))) as ->
    by (apply checked_add_Some; unfold MAX_TOTAL_RECORD_BYTES, U64_MAX in *; lia).
  cbn [ok_or mbind result_bind]. rewrite (proj2 (Z.ltb_ge MAX_RECORD_BYTES _)), (proj2 (Z.ltb_ge MAX_TOTAL_RECORD_BYTES _)) by lia. cbn [orb fail_if mbind result_bind].
  rewrite record_round_trip; [|done| |done]; [|eapply Forall_impl; [by apply (kp_receipts _ _ _ _ _ Hk)|by intros e []]]. cbn [mbind result_bind].
  assert (same_at d journal_new j) as Hs. { destruct (Hp d) as (j0 & [Hk0 _ _ _ _] & Hs0). unfold past in Hk0. rewrite Hd in Hk0. by injection Hk0 as <-. }
  destruct (kept_replays id key d h jd j Hk Hne Hs) as (j' & -> & Hs' & Ho). cbn [ok_or mbind result_bind].
  rewrite bool_decide_eq_true_2 by done. rewrite bool_decide_eq_false_2 by (rewrite Hd; by intros []). cbn [negb orb fail_if mbind result_bind].
  exists j'. split; [done|]. intros d'. unfold past. destruct (decide (d = d')) as [<-|Hn].
  - rewrite lookup_insert_eq. by exists jd.
  - rewrite lookup_insert_ne by done. destruct (Hp d') as (j2 & H2 & Hs2). exists j2. split; [done|]. eapply same_at_trans; [done|by apply Ho].
Qed.
Lemma load_all max l : forall j (records : history) total, Forall replayable l -> NoDup l.*1 -> (forall x, x ∈ l.*1 -> records !! x = None) -> parts records j -> 0 <= total ->
  total + sum_Z (map file_bytes l) <= MAX_TOTAL_RECORD_BYTES ->
  (load_entries max id key (j, records, total) (map (fun x => Some (file_of x)) l) = Err TooManyIdentities /\ (max < size records + length l)%nat) \/
  exists j', load_entries max id key (j, records, total) (map (fun x => Some (file_of x)) l) =
    Ok (j', list_to_map l ∪ records, total + sum_Z (map file_bytes l)) /\ parts (list_to_map l ∪ records) j'.
Proof.
  induction l as [|[d h] l IH]; intros j records total Hf Hn Hd Hp H0 Htot; cbn [map load_entries].
  - right. exists j. cbn [list_to_map foldr]. rewrite (left_id_L ∅ (∪)), Z.add_0_r. done.
  - apply Forall_cons in Hf as [Hx Hf]. cbn [fmap list_fmap] in Hn, Hd. apply NoDup_cons in Hn as [Hnin Hn]. cbn [map] in Htot. change (sum_Z (file_bytes (d, h) :: ?a)) with (file_bytes (d, h) + sum_Z a) in Htot.
    assert (0 <= file_bytes (d, h)) as Hb by (unfold file_bytes; lia). assert (0 <= sum_Z (map file_bytes l)) as Hs.
    { clear. induction l as [|x l IH]; [done|]. cbn [map]. change (sum_Z (file_bytes x :: ?a)) with (file_bytes x + sum_Z a). unfold file_bytes at 1. lia. }
    pose proof (load_one max j records total (d, h) Hx (Hd d (list_elem_of_here _ _)) Hp H0 ltac:(lia)) as H1. destruct (max <=? size records)%nat eqn:Em.
    + left. rewrite H1. split; [done|]. apply Nat.leb_le in Em. cbn [length]. lia.
    + destruct H1 as (j1 & -> & Hp1). cbn [mbind result_bind fst snd] in *. destruct (IH j1 (<[d := h]> records) (total + file_bytes (d, h)) Hf Hn) as [[-> Hm]|(j2 & -> & Hp2)]; [|done|lia|lia| |].
      * intros x Hin. rewrite lookup_insert_ne; [apply Hd; by right|]. by intros ->.
      * left. split; [done|]. cbn [length]. rewrite map_size_insert_None in Hm by (apply Hd; by left). lia.
      * right. exists j2. cbn [list_to_map foldr uncurry] in *. assert (list_to_map l ∪ <[d := h]> records = <[d := h]> (list_to_map l) ∪ records) as E.
        { rewrite <- insert_union_r by (by apply not_elem_of_list_to_map_1). by rewrite insert_union_l. }
        rewrite E in Hp2 |- *. split; [|done]. cbn. by rewrite Z.add_assoc.
Qed.
(** The files are those of the histories, in some order. *)
Lemma held_listing m hist : held m hist -> map_to_list m ≡ₚ map file_of (map_to_list hist).
Proof.
  intros Hh. apply NoDup_Permutation; [apply NoDup_map_to_list| |].
  - apply NoDup_fmap_2_strong; [|apply NoDup_map_to_list]. intros [d h] [d' h'] H%elem_of_map_to_list H'%elem_of_map_to_list E. injection E as Ep _.
    apply (hd_paths _ _ Hh) in Ep as ->; [|by eexists..]. congruence.
  - intros [p e]. rewrite elem_of_map_to_list, (hd_files _ _ Hh), list_elem_of_fmap. split.
    + intros (d & h & Hd & E). exists (d, h). split; [done|]. by apply elem_of_map_to_list.
    + intros ([d h] & E & Hd%elem_of_map_to_list). by exists d, h.
Qed.
Lemma held_total m hist : held m hist -> total_by entry_len m = sum_Z (map file_bytes (map_to_list hist)).
Proof.
  intros Hh. unfold total_by, map_total. rewrite map_to_list_fmap, map_map.
  rewrite (held_listing m hist Hh), map_map. done.
Qed.
Lemma parts_nothing : parts ∅ journal_new.
Proof. intros d. exists journal_new. split; [|done]. unfold past. rewrite lookup_empty. apply kept_nil. Qed.
(** Opening finds the service of the histories, given room for them. *)
Lemma opens d issued hist listing max : service_inv d None issued hist -> listing_of d listing ->
  (open_with_capacity d false listing id key max = Err TooManyIdentities /\ (max < size hist)%nat) \/
  exists s, open_with_capacity d false listing id key max = Ok s /\ pj_directory s = d /\ pj_witness_id s = id /\ pj_witness_key s = verifying_key key /\
    pj_poisoned s = false /\ alive hist s.
Proof.
  intros [Hh _ _] Hl. unfold listing_of in Hl. rewrite (held_listing _ _ Hh), map_map in Hl. apply Permutation_map_inv in Hl as (l & -> & Hperm).
  assert (NoDup l.*1) as Hnd by (rewrite <- Hperm; apply NoDup_fst_map_to_list).
  assert (Forall replayable l) as Hrep. { rewrite <- Hperm. apply Forall_forall. intros [x h] Hin%elem_of_map_to_list. by apply (hd_kept _ _ Hh). }
  assert (0 + sum_Z (map file_bytes l) <= MAX_TOTAL_RECORD_BYTES) as Htot by (rewrite <- Hperm, <- (held_total _ _ Hh); apply (hd_total _ _ Hh)).
  destruct (load_all max l journal_new ∅ 0 Hrep Hnd (fun x _ => lookup_empty x) parts_nothing (Z.le_refl 0) Htot) as [[He Hm]|(j & He & Hp)].
  - left. unfold open_with_capacity. cbn [fail_if mbind result_bind]. rewrite He. split; [done|]. rewrite map_size_empty in Hm. cbn in Hm.
    by rewrite <- Hperm, length_map_to_list in Hm.
  - right. eexists. unfold open_with_capacity. cbn [fail_if mbind result_bind]. rewrite He. cbn [mbind result_bind]. split; [done|]. do 4 (split; [done|]).
    assert (list_to_map l ∪ ∅ = hist) as E. { rewrite (right_id_L ∅ (∪)), <- (list_to_map_proper _ _ (NoDup_fst_map_to_list hist) Hperm). apply list_to_map_to_list. }
    rewrite E in *. split; [done| |done]. cbn [pj_total_bytes pj_directory]. by rewrite (held_total _ _ Hh), Hperm.
Qed.

(** ** The whole life *)
Lemma service_run_inv d live issued : service_run d live issued -> (exists hist, service_inv d live issued hist) \/ blake3_collision.
Proof.
  induction 1 as [ds|d issued listing max s Hrun [[hist Hi]|] Hl Ho|d s issued call id' key' s' out Hrun [[hist Hi]|] Ht Hk Hs
    |d s issued call id' key' s' out Hrun [[hist Hi]|] Ht Hk Hs|d s issued Hrun [[hist [Hh Hi Hl]]|]]; try (by right).
  - left. exists ∅. split; [|by intros r []%elem_of_nil|done]. cbn. split; [| | |by rewrite total_by_empty].
    + intros p e. rewrite lookup_empty. split; [done|]. intros (x & h & H & _). by rewrite lookup_empty in H.
    + intros x y [? H]. by rewrite lookup_empty in H.
    + intros x h H. by rewrite lookup_empty in H.
  - left. exists hist. destruct (opens d issued hist listing max Hi Hl) as [[E _]|(s' & E & Hd & Hw & Hv & _ & Ha)]; rewrite E in Ho; [done|]. injection Ho as <-.
    split; [apply Hi|apply Hi|]. intros s2 [= <-]. by repeat split; try apply Ha.
  - pose proof (service_step_kept d s issued hist call id' key' Hi Ht Hk) as H. by rewrite Hs in H.
  - pose proof (service_step_kept d s issued hist call id' key' Hi Ht Hk) as H. rewrite Hs in H. destruct H as [(hist' & [Hh Hi' _])|]; [left|by right].
    exists hist'. split; [done| |done]. intros r Hr. apply Hi'. cbn. set_solver.
  - left. exists hist. by split.
Qed.

(** C5: a witness service never contradicts itself, whatever happens to it.
    Over any life of the service on its directory, with writes failing at any
    step, crashes in the middle of calls and any number of reopenings, two
    receipts that ever left it about one identity and sequence are about the
    same event, unless a collision of BLAKE3 is at hand. *)
Theorem receipts_survive_crashes d live issued a b : service_run d live issued -> a ∈ issued -> b ∈ issued ->
  ws_identity (st a) = ws_identity (st b) -> ws_sequence (st a) = ws_sequence (st b) ->
  ws_event_digest (st a) = ws_event_digest (st b) \/ blake3_collision.
Proof.
  intros [[hist Hi]|]%service_run_inv Ha Hb Ei Es; [left|by right]. pose proof (si_issued _ _ _ _ Hi a Ha) as Ha'. pose proof (si_issued _ _ _ _ Hi b Hb) as Hb'.
  unfold in_history in *. rewrite <- Ei in Hb'. destruct (past_kept _ hist (ws_identity (st a)) (si_held _ _ _ _ Hi)) as [j Hk].
  destruct (decide (ws_event_digest (st a) = ws_event_digest (st b))) as [|Hne]; [done|].
  by destruct (ji_agree _ _ (witness_run_inv _ _ (kp_run _ _ _ _ _ Hk)) a b Ha' Hb').
Qed.
(** C6: the service reopens, and as it was.  After any life of the service the
    directory opens, in whatever order its entries are listed, given room for
    as many identities as it holds; every receipt that ever left is in the
    records of its identity; and where a service was stopped with no write in
    doubt, the journal, the records and the byte count are exactly those it
    had. *)
Theorem service_reopens d live issued listing max : service_run d live issued -> listing_of d listing -> (size (wd_states d) <= max)%nat ->
  (exists s, open_with_capacity d false listing id key max = Ok s /\ pj_poisoned s = false /\
    (forall r, r ∈ issued -> exists h e, pj_records s !! ws_identity (st r) = Some h /\ e ∈ h /\ re_receipt e = r) /\
    (forall s0, live = Some s0 -> pj_poisoned s0 = false ->
       pj_journal s = pj_journal s0 /\ pj_records s = pj_records s0 /\ pj_total_bytes s = pj_total_bytes s0)) \/ blake3_collision.
Proof.
  intros [[hist Hi]|]%service_run_inv Hl Hm; [|by right]. assert (size (wd_states d) = size hist) as Esz.
  { rewrite <- !length_map_to_list, (held_listing _ _ (si_held _ _ _ _ Hi)), length_map. done. }
  assert (service_inv d None issued hist) as Hi0 by (destruct Hi; by split).
  destruct (opens d issued hist listing max Hi0 Hl) as [[_ H]|(s & E & Hd & _ & _ & Hp & [Hr Ht Hparts])]; [lia|left]. exists s. split; [done|]. split; [done|]. split.
  - intros r Hin. pose proof (si_issued _ _ _ _ Hi r Hin) as H. unfold in_history, past in H. rewrite Hr. destruct (hist !! ws_identity (st r)) as [h|]; [|by apply elem_of_nil in H].
    apply list_elem_of_fmap in H as (e & -> & He). by exists h, e.
  - intros s0 Es Hp0. destruct (si_live _ _ _ _ Hi s0 Es) as (Hd0 & _ & _ & Ha). destruct (Ha Hp0) as [Hr0 Ht0 Hparts0]. split; [|split; [congruence|by rewrite Ht, Ht0, Hd, Hd0]].
    apply same_everywhere. intros x. destruct (Hparts x) as (j1 & K1 & S1), (Hparts0 x) as (j2 & K2 & S2). pose proof (kp_replay _ _ _ _ _ K1) as R1.
    rewrite (kp_replay _ _ _ _ _ K2) in R1. injection R1 as <-. eapply same_at_trans; [by apply same_at_sym|done].
Qed.
End Survives.
