(* ===== verification/WitnessWitnesses.v ===== *)
(** * WitnessWitnesses: the witness layer's properties on a concrete scenario

    One identity appoints four witnesses, three of which must sign, and then
    appoints others; three witnesses keep to one journal each, the fourth
    signs what it likes.  Every witness applies its property to this
    scenario, over the executable [Toy] primitives. *)

From Stdlib Require Import ZArith Lia.
From stdpp Require Import base list gmap sets strings.
From S2P Require Import Prelude Codec Crypto Identity Kel KelFacts KelTheorems Witness WitnessJournal WitnessWire WitnessTheorems WitnessRuns WitnessExchange CreditPermit CreditJournal WitnessService WitnessSurvives.
Open Scope Z_scope.

#[local] Existing Instance Toy.primitives.
#[local] Existing Instance Toy.laws.

Module WitnessScenario.
Notation skey n := (Scenario.key n).
Definition did_of (n : Z) : Did := kel_did (ctl_kel (Scenario.get (incept_inner [skey n] 1 [skey (n + 1)] 1 None))).
Definition w1 : WitnessId := Eval vm_compute in mkWitnessId (did_of 31).
Definition w2 : WitnessId := Eval vm_compute in mkWitnessId (did_of 33).
Definition w3 : WitnessId := Eval vm_compute in mkWitnessId (did_of 35).
Definition w4 : WitnessId := Eval vm_compute in mkWitnessId (did_of 37).
Definition signer (w : WitnessId) : SigningKey :=
  if decide (w = w1) then skey 41 else if decide (w = w2) then skey 42 else if decide (w = w3) then skey 43 else skey 44.
Definition resolve (w : WitnessId) : option VerifyingKey := Some (verifying_key (signer w)).
Definition owner0 : Controller := Eval vm_compute in Scenario.get (incept_inner [skey 1] 1 [skey 2] 1 None).
Definition owner1 : Controller := Eval vm_compute in Scenario.get (rotate_appointing owner0 [skey 3] (map wid [w1; w2; w3; w4]) 3).
Definition owner2 : Controller := Eval vm_compute in Scenario.get (rotate_appointing owner1 [skey 4] (map wid [w1; w2]) 2).
(** The controller's other continuation. *)
Definition rival : Controller := Eval vm_compute in Scenario.get (rotate_appointing owner1 [skey 5] (map wid [w3; w4]) 2).
Definition k1 : Kel := Eval vm_compute in ctl_kel owner1.
Definition k2 : Kel := Eval vm_compute in ctl_kel owner2.
Definition k3 : Kel := Eval vm_compute in ctl_kel rival.
Definition k1_bytes : bytes := Eval vm_compute in Kel_to_bytes k1.
Definition k2_bytes : bytes := Eval vm_compute in Kel_to_bytes k2.
Definition none_policy : WitnessPolicy := mkWitnessPolicy 0 [] 0.
Definition policy1 : WitnessPolicy := Eval vm_compute in default none_policy (declared_witness_policy k1).
Definition no_event : Event := mkEvent Ed25519 [] 0 [] (Interaction []) [].
Definition head1 : Event := Eval vm_compute in default no_event (last (kel_events k1)).
Definition head2 : Event := Eval vm_compute in default no_event (last (kel_events k2)).
Definition head3 : Event := Eval vm_compute in default no_event (last (kel_events k3)).

Lemma k1_received : received k1.
Proof. exists k1_bytes. split; [apply (bool_decide_eq_true_1 (bytes_ok _)); vm_compute; reflexivity|vm_compute; reflexivity]. Qed.
Lemma k2_received : received k2.
Proof. exists k2_bytes. split; [apply (bool_decide_eq_true_1 (bytes_ok _)); vm_compute; reflexivity|vm_compute; reflexivity]. Qed.

(** The life of an honest witness: it accepts [k1], then certifies the change
    of witnesses in [k2]. *)
Definition after1 (w : WitnessId) : WitnessJournal * list WitnessReceipt := witness_step journal_new (CallObserveDeclared k1) w (signer w) 100.
Definition after2 (w : WitnessId) : WitnessJournal * list WitnessReceipt := witness_step (after1 w).1 (CallCertify k2) w (signer w) 101.
Definition signed (w : WitnessId) : list WitnessReceipt := ([] ++ (after1 w).2) ++ (after2 w).2.
Lemma honest_run w : witness_run (after2 w).1 (signed w).
Proof.
  refine (run_call (after1 w).1 ([] ++ (after1 w).2) (CallCertify k2) w (signer w) 101 _ (received_typed k2 k2_received)).
  exact (run_call journal_new [] (CallObserveDeclared k1) w (signer w) 100 run_new (received_typed k1 k1_received)).
Qed.
(** Anyone's signature as a witness. *)
Definition by_hand (w : WitnessId) (k : Kel) (e : Event) : WitnessReceipt :=
  sign_witness_receipt (statement_of (kel_did k) e (wp_generation policy1) w 7) (signer w).
Definition r (w : WitnessId) (i : nat) : WitnessReceipt := default (by_hand w k1 head1) (signed w !! i).
Definition certificate (k : Kel) (e : Event) (rs : list WitnessReceipt) : WitnessedEventCertificate :=
  mkCertificate CERTIFICATE_V1 (kel_did k) (ev_sn e) (ev_digest e) (wp_generation policy1) rs.
Definition c1 : WitnessedEventCertificate := Eval vm_compute in certificate k1 head1 [r w1 0; r w2 0; r w3 0].
Definition c2 : WitnessedEventCertificate := Eval vm_compute in certificate k2 head2 [r w2 1; r w3 1; by_hand w4 k2 head2].
(** A rival certificate, which takes two witnesses that sign by hand. *)
Definition c3 : WitnessedEventCertificate := Eval vm_compute in certificate k3 head3 [by_hand w2 k3 head3; by_hand w3 k3 head3; by_hand w4 k3 head3].
Definition issued_by (w : WitnessId) : bool :=
  let l := signed w in
  forallb (fun x => negb (bool_decide (ws_witness_id (wr_statement x) = w)) || bool_decide (x ∈ l)) (ce_receipts c1 ++ ce_receipts c2).
Lemma honest w : issued_by w = true -> honest_witness resolve c1 c2 w.
Proof.
  intros H. exists (after2 w).1, (signed w). split; [apply honest_run|]. intros x key Hx Hw _ _. unfold issued_by in H. cbv zeta in H. rewrite forallb_forall in H.
  specialize (H x (proj1 (list_elem_of_In _ _) Hx)). rewrite (bool_decide_eq_true_2 _ Hw) in H. cbn [negb orb] in H. exact (bool_decide_eq_true_1 _ H).
Qed.
Lemma three_honest w : w ∈ wp_witnesses policy1 -> w ∉ [w4] -> honest_witness resolve c1 c2 w.
Proof.
  intros Hw Hn. assert (forallb (fun w => bool_decide (w ∈ [w4]) || issued_by w) (wp_witnesses policy1) = true) as H by (vm_compute; reflexivity).
  rewrite forallb_forall in H. specialize (H w (proj1 (list_elem_of_In _ _) Hw)). rewrite (bool_decide_eq_false_2 _ Hn) in H. exact (honest w H).
Qed.
Lemma k1_relied : relies policy1 k1 c1 resolve.
Proof.
  left. split; [vm_compute; reflexivity|]. exists ∅, 105, 10, false, WitnessedRecent. split; [vm_compute; reflexivity|by right].
Qed.
Lemma k2_relied : relies policy1 k2 c2 resolve.
Proof. right. vm_compute. reflexivity. Qed.
End WitnessScenario.
Import WitnessScenario.

(** The receipt the first witness gave, and the one its journal holds. *)
Definition given : WitnessReceipt := Eval vm_compute in r w1 0.
Definition fetched : WitnessReceipt := Eval vm_compute in
  match handle_fetch_witness_receipt (after2 w1).1 (mkFetch (kel_did k1) (ev_sn head1)) with Found x => x | NotFound => given end.
Lemma given_signed : given ∈ signed w1.
Proof. apply (bool_decide_eq_true_1 (given ∈ signed w1)). vm_compute. reflexivity. Qed.
Lemma fetched_signed : fetched ∈ signed w1.
Proof. apply (bool_decide_eq_true_1 (fetched ∈ signed w1)). vm_compute. reflexivity. Qed.
Lemma witnesses_never_contradict_witness : ws_event_digest (wr_statement given) = ws_event_digest (wr_statement fetched).
Proof. exact (witnesses_never_contradict (after2 w1).1 (signed w1) given fetched (honest_run w1) given_signed fetched_signed eq_refl eq_refl). Defined.

Lemma witnessed_logs_never_fork_witness : kel_events k1 `prefix_of` kel_events k2 \/ kel_events k2 `prefix_of` kel_events k1 \/ blake3_collision.
Proof.
  apply (witnessed_logs_never_fork policy1 k1 k2 c1 c2 resolve [w4]); [apply received_decoded, k1_received|apply received_decoded, k2_received|reflexivity
    |exact k1_relied|exact k2_relied|reflexivity|].
  exact three_honest.
Defined.

Lemma conflicting_certificates_convict_witnesses_witness : exists culprits : list WitnessId, NoDup culprits /\ 2 <= Z.of_nat (length culprits).
Proof.
  destruct (conflicting_certificates_convict_witnesses c2 c3 policy1 resolve) as (l & Hn & Hl & _); [vm_compute; reflexivity..|vm_compute; discriminate|].
  exists l. split; [exact Hn|exact Hl].
Defined.

Lemma duplicity_is_forgeable_witness : blake3_collision \/ exists e p, e <> head1 /\ duplicity_assemble (kel_did k1) head1 e = Ok p.
Proof.
  assert (exists ks, Kel_verify k1 = Ok ks) as [ks Hk] by (destruct (Kel_verify k1) as [ks|x] eqn:E; [by exists ks|exfalso; vm_compute in E; discriminate E]).
  destruct (duplicity_is_forgeable k1 ks head1 Hk) as [H|(e & p & _ & _ & _ & Hp & _)]; [reflexivity|discriminate|by left|right].
  exists e, p. split; [|exact Hp]. intros ->. unfold duplicity_assemble in Hp. rewrite (bool_decide_eq_true_2 (ev_digest head1 = ev_digest head1) eq_refl), !orb_true_r in Hp. discriminate Hp.
Defined.

Lemma w1_ok : did_ok (wid w1).
Proof. split; [vm_compute; discriminate|]. split; vm_compute; reflexivity. Qed.
Lemma witness_answers_arrive_witness :
  submit_response_decode (submit_response_encode (handle_submit_for_witnessing journal_new (mkSubmit k1) w1 (signer w1) 100).2) =
  Ok (handle_submit_for_witnessing journal_new (mkSubmit k1) w1 (signer w1) 100).2.
Proof.
  pose proof (witness_answers_arrive journal_new k1 w1 (signer w1) 100 (mkFetch (kel_did k1) 0) typed_new k1_received w1_ok) as H.
  destruct H as [_ H]; [by vm_compute|]. destruct (handle_submit_for_witnessing _ _ _ _ _) as [j' answer]. exact (proj1 (proj2 H)).
Defined.

(** ** The service across a failed write and a reopening *)
Module ServiceScenario.
(** The first write succeeds; the second replaces the file and fails to flush
    the directory; the rest succeed. *)
Definition dir0 : WitnessDirectory := mkWitnessDir ∅ [None; Some SyncParent; None].
Definition svc_key : SigningKey := signer w1.
Definition entries (d : WitnessDirectory) : list (option (bytes * StateEntry)) := map Some (map_to_list (wd_states d)).
Definition broken : PersistentWitnessJournal := mkPersistent dir0 journal_new ∅ 0 0 w1 (verifying_key svc_key) true.
Definition opened (d : WitnessDirectory) : PersistentWitnessJournal :=
  match open_with_capacity d false (entries d) w1 svc_key 10 with Ok s => s | Err _ => broken end.
Definition s0 : PersistentWitnessJournal := opened dir0.
Definition step1 := service_step s0 (SvcObserve k1 100) w1 svc_key.
(** The certification reaches the disk, but the caller hears of an error. *)
Definition step2 := service_step step1.1 (SvcCertify k2 101) w1 svc_key.
Definition s3 : PersistentWitnessJournal := opened (pj_directory step2.1).
(** After reopening, the certification on disk is the one that is given. *)
Definition step4 := service_step s3 (SvcCertify k2 999) w1 svc_key.
Definition step5 := service_step step4.1 (SvcState (kel_did k1)) w1 svc_key.
Definition issued5 : list WitnessReceipt := (((([] ++ step1.2) ++ step2.2) ++ step4.2) ++ step5.2).

Lemma k1_call : service_call_typed (SvcObserve k1 100).
Proof. split; [exact k1_received|]. by vm_compute. Qed.
Lemma k2_call epoch : is_u64 epoch -> service_call_typed (SvcCertify k2 epoch).
Proof. intros H. split; [exact k2_received|]. split; [by vm_compute|exact H]. Qed.
Lemma listed d : listing_of d (entries d).
Proof. exact (reflexivity _). Qed.
Lemma opened_run d issued : service_run w1 svc_key d None issued -> is_ok (open_with_capacity d false (entries d) w1 svc_key 10) = true ->
  service_run w1 svc_key d (Some (opened d)) issued.
Proof.
  intros Hrun H. refine (svc_opened w1 svc_key d issued (entries d) 10 (opened d) Hrun (listed d) _). unfold opened.
  destruct (open_with_capacity _ _ _ _ _ _); [reflexivity|discriminate H].
Qed.
Lemma stepped d s issued call : service_run w1 svc_key d (Some s) issued -> service_call_typed call ->
  service_run w1 svc_key (pj_directory (service_step s call w1 svc_key).1) (Some (service_step s call w1 svc_key).1) (issued ++ (service_step s call w1 svc_key).2).
Proof. intros Hrun Ht. exact (svc_called w1 svc_key d s issued call w1 svc_key _ _ Hrun Ht (fun _ => eq_refl) (surjective_pairing _)). Qed.
Lemma run5 : service_run w1 svc_key (pj_directory step5.1) (Some step5.1) issued5.
Proof.
  assert (service_run w1 svc_key dir0 (Some s0) []) as H0 by (apply opened_run; [apply svc_fresh|vm_compute; reflexivity]).
  pose proof (stepped _ _ _ _ H0 k1_call) as H1. fold step1 in H1. pose proof (stepped _ _ _ _ H1 (k2_call 101 ltac:(by vm_compute))) as H2. fold step2 in H2.
  pose proof (opened_run _ _ (svc_stopped _ _ _ _ _ H2) ltac:(vm_compute; reflexivity)) as H3. fold s3 in H3.
  pose proof (stepped _ _ _ _ H3 (k2_call 999 ltac:(by vm_compute))) as H4. fold step4 in H4. exact (stepped _ _ _ (SvcState (kel_did k1)) H4 I).
Qed.
(** What the first process gave and what the second still shows. *)
Definition first_given : WitnessReceipt := default given (head step1.2).
Definition shown_later : WitnessReceipt := default given (head step5.2).
Lemma given_later : bool_decide (first_given ∈ issued5) && bool_decide (shown_later ∈ issued5) && bool_decide (pj_poisoned step2.1 = true /\ length step4.2 = 1%nat) = true.
Proof. vm_compute. reflexivity. Qed.
End ServiceScenario.
Import ServiceScenario.

Lemma receipts_survive_crashes_witness :
  ws_event_digest (wr_statement first_given) = ws_event_digest (wr_statement shown_later) \/ blake3_collision.
Proof.
  pose proof given_later as H. apply andb_true_iff in H as [H _]. apply andb_true_iff in H as [Ha Hb].
  apply (receipts_survive_crashes w1 svc_key w1_ok (pj_directory step5.1) (Some step5.1) issued5 first_given shown_later run5
    (bool_decide_eq_true_1 _ Ha) (bool_decide_eq_true_1 _ Hb)); vm_compute; reflexivity.
Defined.
Lemma service_reopens_witness : (exists s, open_with_capacity (pj_directory step5.1) false (entries (pj_directory step5.1)) w1 svc_key 10 = Ok s /\
  pj_poisoned s = false) \/ blake3_collision.
Proof.
  pose proof (service_reopens w1 svc_key w1_ok _ _ issued5 _ 10 run5 (listed _)) as H. destruct H as [(s & Ho & Hp & _)|H].
  - apply Nat.leb_le. vm_compute. reflexivity.
  - left. exact (ex_intro _ s (conj Ho Hp)).
  - right. exact H.
Defined.
