(* ===== verification/Custody.v ===== *)
(** * Custody: a threshold key ceremony

    Models [crates/mini-custody/src]: [wire.rs], [error.rs], [manifest.rs],
    [domains.rs], [rotation.rs], [session.rs] and [abort.rs].  The
    eleven custodians of a domain agree on one manifest before any key
    generation; every later message signs the manifest's session id, and a
    registry holds the key each domain's last ceremony ended with.

    The wire helpers read from a shrinking slice; the slice is the rest of a
    [Reader]'s buffer behind its cursor. *)

From Stdlib Require Import ZArith Lia.
From stdpp Require Import base list gmap sets strings.
From S2P Require Import Prelude Codec Crypto Identity Witness.
Open Scope Z_scope.

Inductive CustodyError :=
| InvalidManifest (reason : string)
| IncompleteManifestAcceptance
| CustodyBadSignature
| Frost (message : string)
| Round1ViewMismatch
| Round2EnvelopeMisbound
| Transport (message : string)
| IncompleteCompletion
| ShareStorageAuthenticationFailed
| InvalidTransition (reason : string)
| Entropy
| SigningJournal (message : string).
#[global] Instance CustodyError_eq_dec : EqDecision CustodyError.
Proof. solve_decision. Defined.

(** ** The wire helpers *)
(** [(bytes.len() as u16).to_be_bytes()]: only the low sixteen bits of a
    length are written. *)
Definition be16 (v : Z) : bytes := to_be_bytes 2 v.
Definition push_bytes (b : bytes) : bytes := be16 (Z.of_nat (length b)) ++ b.
Definition read_array (n : nat) : parser CustodyError bytes := r_take (InvalidManifest "truncated fixed field") n.
Definition read_u16 : parser CustodyError Z := s ← read_array 2; mret (from_be_bytes s).
Definition read_u32 : parser CustodyError Z := s ← read_array 4; mret (from_be_bytes s).
Definition read_u64 : parser CustodyError Z := s ← read_array 8; mret (from_be_bytes s).
Definition read_bytes : parser CustodyError bytes :=
  len ← r_take (InvalidManifest "truncated length prefix") 2;
  r_take (InvalidManifest "truncated field") (Z.to_nat (from_be_bytes len)).
Definition read_str : parser CustodyError bytes :=
  b ← read_bytes; lift (if utf8_valid b then Ok b else Err (InvalidManifest "non-UTF-8 string")).

Record DomainKeyStateV1 := mkDomainKey { dk_domain : Z; dk_epoch : Z; dk_group_public_key : bytes }.
Notation CustodyDomainRegistry := (gmap Z DomainKeyStateV1).

Section CustodyManifest.
Context {P : Primitives}.

Definition domain_hash (domain : bytes) (parts : list bytes) : bytes := blake3 (domain ++ concat parts).

(** ** The manifest *)
Definition SIGNER_COUNT : Z := 11.
Definition THRESHOLD : Z := 7.
Definition FROST_SUITE_ID : bytes := lit "FROST_RISTRETTO255_SHA512_V1".

Record CustodyParticipantV1 := mkParticipant {
  cp_custody_did : Did;
  cp_device_verifying_key : VerifyingKey;
  cp_transport_identity_key : VerifyingKey;
}.
#[global] Instance CustodyParticipantV1_eq_dec : EqDecision CustodyParticipantV1.
Proof. solve_decision. Defined.
Definition participant_encode (p : CustodyParticipantV1) : bytes :=
  push_bytes (did_str (cp_custody_did p)) ++ push_bytes (vk_bytes (cp_device_verifying_key p)) ++
  push_bytes (vk_bytes (cp_transport_identity_key p)).
Definition read_key (malformed : string) : parser CustodyError VerifyingKey :=
  b ← read_bytes; lift (map_err (fun _ => InvalidManifest malformed) (VerifyingKey_from_suite_bytes Ed25519 b)).
Definition participant_decode : parser CustodyError CustodyParticipantV1 :=
  s ← read_str;
  did ← lift (map_err (fun _ => InvalidManifest "malformed custody_did") (Did_parse s));
  device_verifying_key ← read_key "malformed device_verifying_key";
  transport_identity_key ← read_key "malformed transport_identity_key";
  mret (mkParticipant did device_verifying_key transport_identity_key).

(** A [CustodyDomain] is its [u16]. *)
Record DkgSessionManifestV1 := mkManifest {
  dm_network_id : bytes;
  dm_custody_domain : Z;
  dm_custody_epoch : Z;
  dm_attempt : Z;
  dm_roster : list CustodyParticipantV1;
  dm_authorization_object_id : bytes;
  dm_previous_epoch : Z;
  dm_previous_group_key : bytes;
  dm_software_release_id : bytes;
  dm_expiry_height : Z;
}.
#[global] Instance DkgSessionManifestV1_eq_dec : EqDecision DkgSessionManifestV1.
Proof. solve_decision. Defined.

Definition MANIFEST_MAGIC : bytes := lit "mininet-custody-dkg".
Definition manifest_body (m : DkgSessionManifestV1) : bytes :=
  dm_network_id m ++ be16 (dm_custody_domain m) ++ w_u64 (dm_custody_epoch m) ++ w_u32 (dm_attempt m) ++
  be16 SIGNER_COUNT ++ be16 THRESHOLD ++ push_bytes FROST_SUITE_ID ++
  be16 (Z.of_nat (length (dm_roster m))) ++ concat (map participant_encode (dm_roster m)) ++
  dm_authorization_object_id m ++ w_u64 (dm_previous_epoch m) ++ dm_previous_group_key m ++
  dm_software_release_id m ++ w_u64 (dm_expiry_height m).
Definition manifest_encode (m : DkgSessionManifestV1) : bytes := MANIFEST_MAGIC ++ w_u8 1 ++ manifest_body m.

(** The production domains ([domains.rs]). *)
Definition BTC_CUSTODY : Z := 1.
Definition XMR_CUSTODY : Z := 2.
Definition XRPL_CUSTODY : Z := 3.
Definition BOUNTY_PAYOUT_CUSTODY : Z := 4.
Definition KNOWN_DOMAINS : list Z := [BTC_CUSTODY; XMR_CUSTODY; XRPL_CUSTODY; BOUNTY_PAYOUT_CUSTODY].
Definition is_known_domain (d : Z) : bool := bool_decide (d ∈ KNOWN_DOMAINS).

(** [windows(2)] in strictly increasing order of the identifiers. *)
Fixpoint roster_ordered (l : list CustodyParticipantV1) : bool :=
  match l with
  | a :: (b :: _) as rest => negb (bytes_leb (did_str (cp_custody_did b)) (did_str (cp_custody_did a))) && roster_ordered rest
  | _ => true
  end.
Definition insert_key (seen : gset bytes) (k : VerifyingKey) : result CustodyError (gset bytes) :=
  _ ← fail_if (bool_decide (vk_bytes k ∈ seen)) (InvalidManifest "a roster key (device or transport) is reused");
  Ok ({[vk_bytes k]} ∪ seen).
Definition insert_keys (seen : gset bytes) (p : CustodyParticipantV1) : result CustodyError (gset bytes) :=
  seen ← insert_key seen (cp_device_verifying_key p);
  insert_key seen (cp_transport_identity_key p).
Definition manifest_validate (m : DkgSessionManifestV1) : result CustodyError unit :=
  _ ← fail_if (negb (is_known_domain (dm_custody_domain m)))
        (InvalidManifest "custody_domain is not one of the declared production domains");
  _ ← fail_if (negb (Z.of_nat (length (dm_roster m)) =? SIGNER_COUNT)) (InvalidManifest "roster size != 11");
  _ ← fail_if (negb (roster_ordered (dm_roster m))) (InvalidManifest "roster not in canonical lexicographic DID order");
  _ ← fail_if (negb (forallb (fun p => bool_decide (vk_suite (cp_device_verifying_key p) = Ed25519) &&
                 bool_decide (vk_suite (cp_transport_identity_key p) = Ed25519)) (dm_roster m)))
        (InvalidManifest "roster key suite is not Ed25519 -- the only suite this manifest's wire format can encode");
  _ ← foldM insert_keys ∅ (dm_roster m);
  Ok tt.

(** The fields after the version, with the signer count and threshold the
    bytes name. *)
Definition manifest_fields : parser CustodyError (DkgSessionManifestV1 * Z * Z) :=
  network_id ← read_array 32;
  custody_domain ← read_u16;
  custody_epoch ← read_u64;
  attempt ← read_u32;
  signer_count ← read_u16;
  threshold ← read_u16;
  suite ← read_str;
  _ ← lift (fail_if (negb (bool_decide (suite = FROST_SUITE_ID))) (InvalidManifest "unsupported suite"));
  roster_len ← read_u16;
  _ ← lift (fail_if (negb (roster_len =? SIGNER_COUNT)) (InvalidManifest "roster size != 11"));
  roster ← r_repeat (Z.to_nat roster_len) participant_decode;
  authorization_object_id ← read_array 32;
  previous_epoch ← read_u64;
  previous_group_key ← read_array 32;
  software_release_id ← read_array 32;
  expiry_height ← read_u64;
  mret (mkManifest network_id custody_domain custody_epoch attempt roster authorization_object_id previous_epoch
          previous_group_key software_release_id expiry_height, signer_count, threshold).
Definition manifest_decode (input : bytes) : result CustodyError DkgSessionManifestV1 :=
  _ ← fail_if ((length input <? 19)%nat || negb (bool_decide (take 19 input = MANIFEST_MAGIC))) (InvalidManifest "bad magic");
  let rest := drop 19 input in
  _ ← fail_if (negb (bool_decide (head rest = Some 1))) (InvalidManifest "unsupported version");
  '(m, signer_count, threshold, r) ← manifest_fields (Reader_new (drop 1 rest));
  _ ← fail_if (negb (finished r)) (InvalidManifest "trailing bytes");
  _ ← fail_if (negb (signer_count =? SIGNER_COUNT) || negb (threshold =? THRESHOLD)) (InvalidManifest "signer_count/threshold mismatch");
  _ ← manifest_validate m;
  _ ← fail_if (negb (bool_decide (manifest_encode m = input))) (InvalidManifest "non-canonical encoding");
  Ok m.

(** [(pos + 1) as u16]. *)
Definition frost_identifier_of (m : DkgSessionManifestV1) (did : Did) : option Z :=
  '(pos, _) ← list_find (fun p => cp_custody_did p = did) (dm_roster m);
  Some ((Z.of_nat pos + 1) mod 2 ^ 16).
Definition session_id (m : DkgSessionManifestV1) : bytes :=
  domain_hash (lit "mininet/custody/dkg-session/v1") [manifest_encode m].

(** ** The registry of active keys ([domains.rs]) *)
Definition registry_new : CustodyDomainRegistry := ∅.
Definition state_of (r : CustodyDomainRegistry) (domain : Z) : option DomainKeyStateV1 := r !! domain.
Definition zero_key : bytes := replicate 32 0.
(** [previous_epoch + 1] wraps in a release build. *)
Definition validate_chain (r : CustodyDomainRegistry) (m : DkgSessionManifestV1) : result CustodyError unit :=
  _ ← (match r !! dm_custody_domain m with
       | Some state =>
           fail_if (negb (dm_previous_epoch m =? dk_epoch state) || negb (bool_decide (dm_previous_group_key m = dk_group_public_key state)))
             (InvalidManifest "manifest does not chain from this domain's recorded key state")
       | None =>
           fail_if (negb (dm_previous_epoch m =? 0) || negb (bool_decide (dm_previous_group_key m = zero_key)))
             (InvalidManifest "first ceremony for a domain must have zero previous_epoch/previous_group_key")
       end);
  fail_if (negb (dm_custody_epoch m =? wrapping_add 64 (dm_previous_epoch m) 1))
    (InvalidManifest "custody_epoch must be exactly previous_epoch + 1").
Definition record_completion (r : CustodyDomainRegistry) (m : DkgSessionManifestV1) (group_public_key : bytes) :
    result CustodyError CustodyDomainRegistry :=
  _ ← validate_chain r m;
  Ok (<[dm_custody_domain m := mkDomainKey (dm_custody_domain m) (dm_custody_epoch m) group_public_key]> r).

(** ** Rotation ([rotation.rs]) *)
Definition ROTATION_INTERVAL_SECONDS : Z := 180 * 24 * 60 * 60.
Record CustodyKeyTransitionV1 := mkTransition {
  kt_domain : Z;
  kt_old_epoch : Z;
  kt_old_group_public_key : bytes;
  kt_new_epoch : Z;
  kt_new_group_public_key : bytes;
}.
Definition from_completed_ceremony (m : DkgSessionManifestV1) (new_group_public_key : bytes) : CustodyKeyTransitionV1 :=
  mkTransition (dm_custody_domain m) (dm_previous_epoch m) (dm_previous_group_key m) (dm_custody_epoch m) new_group_public_key.
Definition transition_validate (t : CustodyKeyTransitionV1) : result CustodyError unit :=
  _ ← fail_if (kt_new_epoch t <=? kt_old_epoch t) (InvalidTransition "new_epoch must be strictly greater than old_epoch");
  fail_if (bool_decide (kt_new_group_public_key t = kt_old_group_public_key t))
    (InvalidTransition "a rotation must produce a fresh group key -- same-key resharing/refresh is rejected in production").
End CustodyManifest.

(** * The barriers of a key ceremony

    [session.rs] and [abort.rs]: manifest acceptance, the round-one broadcast
    check, round two behind it, the completion attestations, and the single
    notice that aborts a ceremony.

    The key generation itself is [frost_ristretto255]'s; the class
    [FrostDkg] has the calls the source makes. *)

(** [frost_ristretto255::keys::dkg] and the serializations of its results;
    an error is its message. *)
Class FrostDkg := {
  FrostIdentifier : Type;
  Round1SecretPackage : Type;
  Round1Package : Type;
  Round2SecretPackage : Type;
  Round2Package : Type;
  DkgKeyPackage : Type;
  PublicKeyPackage : Type;
  identifier_try_from : Z -> option FrostIdentifier;
  dkg_rng : Type;
  part1 : FrostIdentifier -> Z -> Z -> dkg_rng -> result string (Round1SecretPackage * Round1Package);
  part2 : Round1SecretPackage -> list (FrostIdentifier * Round1Package) -> result string (Round2SecretPackage * list (FrostIdentifier * Round2Package));
  part3 : Round2SecretPackage -> list (FrostIdentifier * Round1Package) -> list (FrostIdentifier * Round2Package) ->
    result string (DkgKeyPackage * PublicKeyPackage);
  public_package_serialize : PublicKeyPackage -> result string bytes;
}.

Section CustodySession.
Context {P : Primitives} {F : FrostDkg}.

Definition not_a_member : CustodyError := InvalidManifest "DID is not a roster member".
(** [&manifest.roster[(position - 1) as usize]] for the position just found;
    the source panics where there is none. *)
Definition roster_at (m : DkgSessionManifestV1) (position : Z) : result CustodyError CustodyParticipantV1 :=
  ok_or (dm_roster m !! Z.to_nat (position - 1)) not_a_member.
Definition device_verify (p : CustodyParticipantV1) (message : bytes) (s : Signature) : result CustodyError unit :=
  map_err (fun _ => CustodyBadSignature) (vk_verify (cp_device_verifying_key p) message s).
Definition identifier_for (m : DkgSessionManifestV1) (did : Did) : result CustodyError FrostIdentifier :=
  position ← ok_or (frost_identifier_of m did) not_a_member;
  ok_or (identifier_try_from position) (InvalidManifest "roster position out of range").

(** The loop the three barriers share: every entry verifies, no member
    twice, as many as the roster has. *)
Fixpoint distinct_members {A} (did_of : A -> Did) (verified : A -> bool) (seen : gset Did) (l : list A) : option (gset Did) :=
  match l with
  | [] => Some seen
  | a :: l =>
      if negb (verified a) then None else
      if bool_decide (did_of a ∈ seen) then None else
      distinct_members did_of verified ({[did_of a]} ∪ seen) l
  end.
Definition every_member {A} (did_of : A -> Did) (verified : A -> bool) (m : DkgSessionManifestV1) (l : list A) : bool :=
  if negb (length l =? length (dm_roster m))%nat then false else
  match distinct_members did_of verified ∅ l with
  | Some seen => (size seen =? length (dm_roster m))%nat
  | None => false
  end.

(** ** Phase A: manifest acceptance *)
Record ManifestAcceptanceV1 := mkAcceptance { ma_session_id : bytes; ma_custody_did : Did; ma_frost_identifier : Z; ma_signature : Signature }.
Definition manifest_acceptance_message (session : bytes) (did : Did) (frost_identifier : Z) : bytes :=
  lit "mininet/custody/dkg/manifest-acceptance/v1" ++ session ++ push_bytes (did_str did) ++ be16 frost_identifier.
Definition sign_manifest_acceptance (m : DkgSessionManifestV1) (did : Did) (key : SigningKey) : result CustodyError ManifestAcceptanceV1 :=
  i ← ok_or (frost_identifier_of m did) not_a_member;
  Ok (mkAcceptance (session_id m) did i (sk_sign key (manifest_acceptance_message (session_id m) did i))).
Definition verify_manifest_acceptance (m : DkgSessionManifestV1) (a : ManifestAcceptanceV1) : result CustodyError unit :=
  _ ← fail_if (negb (bool_decide (ma_session_id a = session_id m))) Round2EnvelopeMisbound;
  expected ← ok_or (frost_identifier_of m (ma_custody_did a)) not_a_member;
  _ ← fail_if (negb (expected =? ma_frost_identifier a)) (InvalidManifest "frost_identifier mismatch");
  p ← roster_at m expected;
  device_verify p (manifest_acceptance_message (ma_session_id a) (ma_custody_did a) (ma_frost_identifier a)) (ma_signature a).
Definition manifest_fully_accepted (m : DkgSessionManifestV1) (l : list ManifestAcceptanceV1) : bool :=
  every_member ma_custody_did (fun a => is_ok (verify_manifest_acceptance m a)) m l.

(** ** Phase B: round one *)
Definition dkg_part1 (m : DkgSessionManifestV1) (own_did : Did) (rng : dkg_rng) : result CustodyError (Round1SecretPackage * Round1Package) :=
  i ← identifier_for m own_did;
  map_err Frost (part1 i SIGNER_COUNT THRESHOLD rng).

(** ** Phase C: one view of round one *)
Definition round1_package_hash (session : bytes) (sender_identifier : Z) (serialized_package : bytes) : bytes :=
  domain_hash (lit "mininet/custody/dkg/round1-package/v1") [session; be16 sender_identifier; serialized_package].
Definition round1_root (session : bytes) (ordered_package_hashes : list bytes) : bytes :=
  domain_hash (lit "mininet/custody/dkg/round1-root/v1") (session :: ordered_package_hashes).
Record Round1ViewAckV1 := mkViewAck { va_session_id : bytes; va_round1_root : bytes; va_custody_did : Did; va_signature : Signature }.
Definition round1_view_ack_message (session root : bytes) : bytes :=
  lit "mininet/custody/dkg/round1-view-ack/v1" ++ session ++ root.
Definition sign_round1_view_ack (session root : bytes) (did : Did) (key : SigningKey) : Round1ViewAckV1 :=
  mkViewAck session root did (sk_sign key (round1_view_ack_message session root)).
Definition verify_round1_view_ack (m : DkgSessionManifestV1) (a : Round1ViewAckV1) (expected_root : bytes) : result CustodyError unit :=
  _ ← fail_if (negb (bool_decide (va_session_id a = session_id m)) || negb (bool_decide (va_round1_root a = expected_root))) Round1ViewMismatch;
  position ← ok_or (frost_identifier_of m (va_custody_did a)) not_a_member;
  p ← roster_at m position;
  device_verify p (round1_view_ack_message (va_session_id a) (va_round1_root a)) (va_signature a).
Definition round1_view_confirmed (m : DkgSessionManifestV1) (l : list Round1ViewAckV1) (expected_root : bytes) : bool :=
  every_member va_custody_did (fun a => is_ok (verify_round1_view_ack m a expected_root)) m l.

(** The fields are private: [confirm_round1_view] is the only way to one. *)
Record Round1ViewConfirmation := mkConfirmation { vc_session_id : bytes; vc_round1_root : bytes }.
Definition confirm_round1_view (m : DkgSessionManifestV1) (l : list Round1ViewAckV1) (expected_root : bytes) : result CustodyError Round1ViewConfirmation :=
  _ ← fail_if (negb (round1_view_confirmed m l expected_root)) Round1ViewMismatch;
  Ok (mkConfirmation (session_id m) expected_root).

(** ** Phases D to F: round two and the key *)
Definition dkg_part2 (m : DkgSessionManifestV1) (c : Round1ViewConfirmation) (secret : Round1SecretPackage)
    (round1_packages : list (FrostIdentifier * Round1Package)) : result CustodyError (Round2SecretPackage * list (FrostIdentifier * Round2Package)) :=
  _ ← fail_if (negb (bool_decide (vc_session_id c = session_id m))) Round1ViewMismatch;
  map_err Frost (part2 secret round1_packages).
Definition dkg_part3 (secret : Round2SecretPackage) (round1_packages : list (FrostIdentifier * Round1Package))
    (round2_packages : list (FrostIdentifier * Round2Package)) : result CustodyError (DkgKeyPackage * PublicKeyPackage) :=
  map_err Frost (part3 secret round1_packages round2_packages).

(** ** Phase G: completion *)
Definition public_package_hash (session : bytes) (k : PublicKeyPackage) : result CustodyError bytes :=
  serialized ← map_err Frost (public_package_serialize k);
  Ok (domain_hash (lit "mininet/custody/dkg/public-package/v1") [session; serialized]).
Record CompletionAttestationV1 := mkCompletion {
  ca_session_id : bytes;
  ca_round1_root : bytes;
  ca_public_package_hash : bytes;
  ca_group_public_key : bytes;
  ca_custody_did : Did;
  ca_signature : Signature;
}.
Definition completion_message (session root package_hash group_key : bytes) : bytes :=
  lit "mininet/custody/dkg/completion/v1" ++ session ++ root ++ package_hash ++ group_key.
Definition sign_completion_attestation (session root package_hash group_key : bytes) (did : Did) (key : SigningKey) : CompletionAttestationV1 :=
  mkCompletion session root package_hash group_key did (sk_sign key (completion_message session root package_hash group_key)).
Definition verify_completion_attestation (m : DkgSessionManifestV1) (a : CompletionAttestationV1) : result CustodyError unit :=
  position ← ok_or (frost_identifier_of m (ca_custody_did a)) not_a_member;
  p ← roster_at m position;
  device_verify p (completion_message (ca_session_id a) (ca_round1_root a) (ca_public_package_hash a) (ca_group_public_key a)) (ca_signature a).
Definition same_completion (a first : CompletionAttestationV1) : bool :=
  bool_decide (ca_session_id a = ca_session_id first) && bool_decide (ca_round1_root a = ca_round1_root first) &&
  bool_decide (ca_public_package_hash a = ca_public_package_hash first) && bool_decide (ca_group_public_key a = ca_group_public_key first).
Definition completion_confirmed (m : DkgSessionManifestV1) (l : list CompletionAttestationV1) : bool :=
  match l with
  | [] => false
  | first :: _ =>
      if negb (length l =? length (dm_roster m))%nat then false else
      if negb (bool_decide (ca_session_id first = session_id m)) then false else
      every_member ca_custody_did (fun a => same_completion a first && is_ok (verify_completion_attestation m a)) m l
  end.

(** ** Abort ([abort.rs]) *)
Inductive AbortReason :=
| ManifestAcceptanceIncomplete
| AbortRound1ViewMismatch
| Round1PackageInvalid
| Round2PackageInvalid
| CompletionIncomplete
| TransportFailure
| AbortTimeout.
Definition abort_tag (r : AbortReason) : bytes :=
  match r with
  | ManifestAcceptanceIncomplete => lit "manifest-acceptance-incomplete"
  | AbortRound1ViewMismatch => lit "round1-view-mismatch"
  | Round1PackageInvalid => lit "round1-package-invalid"
  | Round2PackageInvalid => lit "round2-package-invalid"
  | CompletionIncomplete => lit "completion-incomplete"
  | TransportFailure => lit "transport-failure"
  | AbortTimeout => lit "timeout"
  end.
Definition abort_notice_message (session : bytes) (r : AbortReason) : bytes :=
  lit "mininet/custody/dkg/abort-notice/v1" ++ session ++ push_bytes (abort_tag r).
Record AbortNoticeV1 := mkAbortNotice { an_session_id : bytes; an_reason : AbortReason; an_custody_did : Did; an_signature : Signature }.
Definition sign_abort_notice (m : DkgSessionManifestV1) (did : Did) (r : AbortReason) (key : SigningKey) : result CustodyError AbortNoticeV1 :=
  _ ← ok_or (frost_identifier_of m did) not_a_member;
  Ok (mkAbortNotice (session_id m) r did (sk_sign key (abort_notice_message (session_id m) r))).
Definition verify_abort_notice (m : DkgSessionManifestV1) (n : AbortNoticeV1) : result CustodyError unit :=
  _ ← fail_if (negb (bool_decide (an_session_id n = session_id m))) Round2EnvelopeMisbound;
  position ← ok_or (frost_identifier_of m (an_custody_did n)) not_a_member;
  p ← roster_at m position;
  device_verify p (abort_notice_message (an_session_id n) (an_reason n)) (an_signature n).
Definition any_abort_confirmed (m : DkgSessionManifestV1) (l : list AbortNoticeV1) : bool :=
  existsb (fun n => is_ok (verify_abort_notice m n)) l.
End CustodySession.
