(* ===== verification/CustodyRoster.v ===== *)
(** * CustodyRoster: what a valid manifest fixes

    A valid manifest has eleven members under the identifiers 1 to 11, no
    key of which is held twice in any role; its wire form decodes back to it
    and nothing else does; its session id names it alone; and the registry
    of a domain is the chain of its ceremonies. *)

From Stdlib Require Import ZArith Lia.
From stdpp Require Import base list gmap sets strings.
From S2P Require Import Prelude Codec Crypto Identity Custody.
Open Scope Z_scope.

Section Roster.
Context {P : Primitives}.

(** ** The roster of a valid manifest *)
Definition roster_keys (p : CustodyParticipantV1) : list bytes := [vk_bytes (cp_device_verifying_key p); vk_bytes (cp_transport_identity_key p)].
Definition is_ed25519 (k : VerifyingKey) : Prop := vk_suite k = Ed25519.
Record roster_valid (m : DkgSessionManifestV1) : Prop := {
  rv_domain : dm_custody_domain m ∈ KNOWN_DOMAINS;
  rv_length : length (dm_roster m) = 11%nat;
  rv_ordered : roster_ordered (dm_roster m) = true;
  rv_suites : Forall (fun p => is_ed25519 (cp_device_verifying_key p) /\ is_ed25519 (cp_transport_identity_key p)) (dm_roster m);
  rv_keys : NoDup (concat (map roster_keys (dm_roster m)));
}.

Lemma insert_keys_ok seen p seen' (a := vk_bytes (cp_device_verifying_key p)) (b := vk_bytes (cp_transport_identity_key p)) :
  insert_keys seen p = Ok seen' <-> a <> b /\ a ∉ seen /\ b ∉ seen /\ seen' = {[b]} ∪ ({[a]} ∪ seen).
Proof.
  unfold insert_keys, insert_key. fold a b. split.
  - intros H. ok_inv. bool_prop. match goal with H : b ∉ _ |- _ => apply not_elem_of_union in H as [Hab Hb] end.
    rewrite not_elem_of_singleton in Hab. repeat split; try done.
  - intros (Hab & Ha & Hb & ->). rewrite bool_decide_eq_false_2 by done. cbn.
    rewrite bool_decide_eq_false_2; [done|]. rewrite not_elem_of_union, not_elem_of_singleton. done.
Qed.
Lemma seen_keys_ok l : forall seen,
  is_ok (foldM insert_keys seen l) = true <->
  NoDup (concat (map roster_keys l)) /\ (forall k, k ∈ concat (map roster_keys l) -> k ∉ seen).
Proof.
  induction l as [|p l IH]; intros seen; cbn [foldM map concat].
  { split; [|done]. split; [constructor|]. by intros k ?%elem_of_nil. }
  set (a := vk_bytes (cp_device_verifying_key p)). set (b := vk_bytes (cp_transport_identity_key p)).
  assert ((NoDup (roster_keys p ++ concat (map roster_keys l)) /\ (forall k, k ∈ roster_keys p ++ concat (map roster_keys l) -> k ∉ seen)) <->
    (a <> b /\ a ∉ seen /\ b ∉ seen) /\ NoDup (concat (map roster_keys l)) /\ (forall k, k ∈ concat (map roster_keys l) -> k ∉ {[b]} ∪ ({[a]} ∪ seen))) as ->.
  { unfold roster_keys at 1 3. cbn [app]. fold a b. rewrite !NoDup_cons. setoid_rewrite not_elem_of_union. setoid_rewrite not_elem_of_union.
    setoid_rewrite not_elem_of_singleton. setoid_rewrite elem_of_cons. setoid_rewrite elem_of_cons. set (rest := concat (map roster_keys l)).
    split.
    - intros ((Ha & Hb & Hn) & Hs). apply Decidable.not_or in Ha as [Hab Ha]. split; [split; [done|split; apply Hs; auto]|].
      split; [done|]. intros k Hk. repeat split; [by intros ->|by intros ->|auto].
    - intros ((Hab & Ha & Hb) & Hn & Hk). split; [split; [|split; [|done]]|].
      + intros [->|Hr]; [done|]. by apply Hk in Hr as (_ & ? & _).
      + intros Hr. by apply Hk in Hr as (? & _).
      + intros k [->|[->|Hr]]; [done|done|]. by apply Hk in Hr as (_ & _ & ?). }
  destruct (insert_keys seen p) as [s|] eqn:E; cbn.
  - apply insert_keys_ok in E as (H1 & H2 & H3 & ->). rewrite IH. naive_solver.
  - split; [done|]. intros ((H1 & H2 & H3) & _).
    by rewrite (proj2 (insert_keys_ok seen p ({[b]} ∪ ({[a]} ∪ seen)))) in E.
Qed.
Lemma validate_ok m : manifest_validate m = Ok tt <-> roster_valid m.
Proof.
  unfold manifest_validate. split.
  - intros H. ok_inv. unfold is_known_domain in *. bool_prop. split.
    + done.
    + unfold SIGNER_COUNT in *. lia.
    + done.
    + apply Forall_forall. intros p Hp. match goal with H : forallb _ _ = true |- _ => rewrite forallb_forall in H; specialize (H p) end.
      specialize (Hx2 (proj1 (list_elem_of_In _ _) Hp)). by bool_prop.
    + apply (seen_keys_ok _ ∅). apply is_ok_true. eauto.
  - intros [Hd Hl Ho Hs Hk]. unfold is_known_domain. rewrite bool_decide_eq_true_2, Ho by done.
    unfold SIGNER_COUNT. rewrite Hl. cbn.
    assert (forallb (fun p => bool_decide (vk_suite (cp_device_verifying_key p) = Ed25519) &&
              bool_decide (vk_suite (cp_transport_identity_key p) = Ed25519)) (dm_roster m) = true) as ->.
    { apply forallb_forall. intros p Hp. rewrite <- list_elem_of_In in Hp. rewrite Forall_forall in Hs.
      destruct (Hs p Hp). by rewrite !bool_decide_eq_true_2. }
    cbn. assert (is_ok (foldM insert_keys ∅ (dm_roster m)) = true) as (s & ->)%is_ok_true; [|done].
    apply seen_keys_ok. split; [done|]. intros k _. apply not_elem_of_empty.
Qed.

(** The members in order, so no member twice. *)
Lemma ordered_below a l : roster_ordered (a :: l) = true -> forall b, b ∈ l -> ~ bytes_le (did_str (cp_custody_did b)) (did_str (cp_custody_did a)).
Proof.
  revert a. induction l as [|c l IH]; intros a H b Hb; [by apply elem_of_nil in Hb|].
  cbn [roster_ordered] in H. bool_prop. assert (~ bytes_le (did_str (cp_custody_did c)) (did_str (cp_custody_did a))) as Hca by (unfold bytes_le; congruence).
  apply elem_of_cons in Hb as [->|Hb]; [done|]. intros Hba. apply (IH c ltac:(done) b Hb).
  destruct (total bytes_le (did_str (cp_custody_did a)) (did_str (cp_custody_did c))) as [|]; [by etrans|done].
Qed.
Lemma ordered_NoDup l : roster_ordered l = true -> NoDup (map cp_custody_did l).
Proof.
  induction l as [|a l IH]; intros H; cbn [map]; constructor.
  - intros Hin. apply list_elem_of_fmap in Hin as (b & E & Hb). apply (ordered_below a l H b Hb). rewrite E.
    by destruct (total bytes_le (did_str (cp_custody_did b)) (did_str (cp_custody_did b))).
  - apply IH. destruct l; [done|]. cbn [roster_ordered] in H. by bool_prop.
Qed.

Definition members (m : DkgSessionManifestV1) : list Did := map cp_custody_did (dm_roster m).
Lemma members_NoDup m : roster_valid m -> NoDup (members m).
Proof. intros H. apply ordered_NoDup, (rv_ordered _ H). Qed.
Lemma length_members m : roster_valid m -> length (members m) = 11%nat.
Proof. intros H. unfold members. rewrite length_map. apply (rv_length _ H). Qed.

(** The member under an identifier. *)
Definition member_at (m : DkgSessionManifestV1) (i : Z) : option CustodyParticipantV1 := dm_roster m !! Z.to_nat (i - 1).
Lemma identifier_spec m did i : roster_valid m ->
  frost_identifier_of m did = Some i <-> 1 <= i <= SIGNER_COUNT /\ cp_custody_did <$> member_at m i = Some did.
Proof.
  intros Hv. unfold frost_identifier_of, member_at. pose proof (rv_length _ Hv) as Hl. pose proof (members_NoDup _ Hv) as Hn. split.
  - destruct (list_find _ _) as [[pos p]|] eqn:E; [|done]. cbn. intros [= <-].
    apply list_find_Some in E as (Hp & Hd & _). pose proof (lookup_lt_Some _ _ _ Hp).
    rewrite Z.mod_small by lia. unfold SIGNER_COUNT. split; [lia|].
    replace (Z.to_nat (Z.of_nat pos + 1 - 1)) with pos by lia. by rewrite Hp, <- Hd.
  - intros [Hi (p & Hp & Hd)%fmap_Some]. destruct (list_find _ _) as [[pos q]|] eqn:E; cbn.
    + apply list_find_Some in E as (Hq & Hdq & _). f_equal.
      assert (pos = Z.to_nat (i - 1)) as ->; [|unfold SIGNER_COUNT in Hi; rewrite Z.mod_small; lia].
      eapply (NoDup_lookup _ _ _ did Hn); unfold members; rewrite list_lookup_fmap; [rewrite Hq|rewrite Hp]; cbn; congruence.
    + apply list_find_None in E. rewrite Forall_forall in E. destruct (E p); [by eapply list_elem_of_lookup_2|done].
Qed.
Lemma identifier_total m did : roster_valid m -> is_Some (frost_identifier_of m did) <-> did ∈ members m.
Proof.
  intros Hv. split.
  - intros [i Hi]. apply identifier_spec in Hi as [_ (p & Hp & ->)%fmap_Some]; [|done]. apply list_elem_of_fmap. exists p. split; [done|].
    by eapply list_elem_of_lookup_2.
  - intros (p & -> & (n & Hp)%list_elem_of_lookup_1)%list_elem_of_fmap. pose proof (lookup_lt_Some _ _ _ Hp). rewrite (rv_length _ Hv) in *.
    exists (Z.of_nat n + 1). apply identifier_spec; [done|]. unfold SIGNER_COUNT, member_at. split; [lia|].
    replace (Z.to_nat (Z.of_nat n + 1 - 1)) with n by lia. by rewrite Hp.
Qed.
End Roster.

(** * A manifest and its bytes

    What [decode] accepts is exactly what [encode] writes for a valid
    manifest, so a session id, the hash of those bytes, is the name of one
    manifest. *)
(** ** The primitive fields *)
Lemma parses_array n b : length b = n -> parses (read_array n) b b.
Proof. apply parses_take. Qed.
Lemma parses_be16 v : is_u16 v -> parses read_u16 (be16 v) v.
Proof.
  intros H. unfold read_u16. eapply parses_bind_nil; [apply parses_array, length_to_be_bytes|].
  unfold be16. rewrite from_to_be_bytes; [apply parses_ret|].
  unfold is_u16, U16_MAX in H. change (256 ^ Z.of_nat 2) with (2 ^ 16). lia.
Qed.
Lemma parses_push b : Z.of_nat (length b) <= U16_MAX -> parses read_bytes (push_bytes b) b.
Proof.
  intros H. unfold read_bytes, push_bytes. eapply parses_bind; [apply parses_take, length_to_be_bytes|].
  unfold be16. rewrite from_to_be_bytes; [apply parses_take; lia|].
  unfold U16_MAX in H. change (256 ^ Z.of_nat 2) with (2 ^ 16). lia.
Qed.
Lemma parses_str b : Z.of_nat (length b) <= U16_MAX -> utf8_valid b = true -> parses read_str (push_bytes b) b.
Proof.
  intros Hl Hu. unfold read_str. eapply parses_bind_nil; [by apply parses_push|]. rewrite Hu. by apply parses_lift_end.
Qed.

#[global] Instance canonical_array n : Canonical (read_array n) id.
Proof. intros r b r' _ H. by apply r_take_consumes in H as [? _]. Qed.
Lemma array_length n r b r' : read_array n r = Ok (b, r') -> length b = n.
Proof. intros H. by apply r_take_consumes in H as [_ ?]. Qed.
Lemma from_be16 b : bytes_ok b -> length b = 2%nat -> be16 (from_be_bytes b) = b /\ is_u16 (from_be_bytes b).
Proof.
  intros Hok Hl. pose proof (from_be_bytes_bound b Hok) as H. rewrite Hl in H. change (256 ^ Z.of_nat 2) with (2 ^ 16) in H.
  unfold be16. split; [rewrite <- Hl; by apply to_from_be_bytes|]. unfold is_u16, U16_MAX. lia.
Qed.
Lemma read_u16_consumes r v r' : bytes_ok (rbuf r) -> read_u16 r = Ok (v, r') -> consumes r r' (be16 v) /\ is_u16 v.
Proof.
  intros Hok H. unfold read_u16 in H. parse_inv. pose proof (r_take_bytes_ok _ _ _ _ _ Hok Hp) as Hb.
  apply r_take_consumes in Hp as [Hc Hl]. by destruct (from_be16 a Hb Hl) as [-> ?].
Qed.
#[global] Instance canonical_u16 : Canonical read_u16 be16.
Proof. intros r a r' Hok H. by apply read_u16_consumes in H as [? _]. Qed.
#[global] Instance canonical_custody_u32 : Canonical read_u32 w_u32.
Proof. intros r a r' Hok H. by apply (r_u32_consumes (InvalidManifest "truncated fixed field")) in H as [? _]. Qed.
#[global] Instance canonical_custody_u64 : Canonical read_u64 w_u64.
Proof. intros r a r' Hok H. by apply (r_u64_consumes (InvalidManifest "truncated fixed field")) in H as [? _]. Qed.
Lemma read_bytes_consumes r b r' : bytes_ok (rbuf r) -> read_bytes r = Ok (b, r') -> consumes r r' (push_bytes b) /\ Z.of_nat (length b) <= U16_MAX.
Proof.
  intros Hok H. unfold read_bytes in H. parse_inv. pose proof (r_take_bytes_ok _ _ _ _ _ Hok Hp) as Hb.
  apply r_take_consumes in Hp as [Hc Hl]. apply r_take_consumes in H as [Hc' Hl'].
  destruct (from_be16 a Hb Hl) as [Ha Hu]. unfold is_u16 in Hu. unfold push_bytes. rewrite Hl', Z2Nat.id, Ha by lia.
  split; [by eapply consumes_trans|lia].
Qed.
#[global] Instance canonical_push : Canonical read_bytes push_bytes.
Proof. intros r a r' Hok H. by apply read_bytes_consumes in H as [? _]. Qed.
#[global] Instance canonical_str : Canonical read_str push_bytes.
Proof. intros r a r' Hok H. unfold read_str in H. parse_inv. case_match; ok_inv. canon_chain. Qed.

Section Wire.
Context {P : Primitives}.

(** ** What the types of the fields guarantee *)
Definition did_typed (d : Did) : Prop := Did_parse (did_str d) = Ok d /\ utf8_valid (did_str d) = true /\ Z.of_nat (length (did_str d)) <= U16_MAX.
Definition key_typed (k : VerifyingKey) : Prop := VerifyingKey_from_suite_bytes (vk_suite k) (vk_bytes k) = Ok k.
Definition participant_typed (p : CustodyParticipantV1) : Prop :=
  did_typed (cp_custody_did p) /\ key_typed (cp_device_verifying_key p) /\ key_typed (cp_transport_identity_key p).
Record manifest_typed (m : DkgSessionManifestV1) : Prop := {
  mt_network : length (dm_network_id m) = 32%nat;
  mt_domain : is_u16 (dm_custody_domain m);
  mt_epoch : is_u64 (dm_custody_epoch m);
  mt_attempt : is_u32 (dm_attempt m);
  mt_roster : Forall participant_typed (dm_roster m);
  mt_object : length (dm_authorization_object_id m) = 32%nat;
  mt_previous : is_u64 (dm_previous_epoch m);
  mt_previous_key : length (dm_previous_group_key m) = 32%nat;
  mt_release : length (dm_software_release_id m) = 32%nat;
  mt_expiry : is_u64 (dm_expiry_height m);
}.

Lemma from_suite_typed s b k : VerifyingKey_from_suite_bytes s b = Ok k -> key_typed k /\ vk_suite k = s /\ vk_bytes k = b.
Proof. intros H. pose proof H as H'. unfold VerifyingKey_from_suite_bytes in H. ok_inv. by unfold key_typed. Qed.
Lemma ed25519_length k : key_typed k -> is_ed25519 k -> length (vk_bytes k) = 32%nat.
Proof. unfold key_typed, is_ed25519, VerifyingKey_from_suite_bytes. intros H E. rewrite E in H. ok_inv. bool_prop. done. Qed.

(** ** One member *)
Lemma parses_member_key k mal : key_typed k -> is_ed25519 k -> parses (read_key mal) (push_bytes (vk_bytes k)) k.
Proof.
  intros Hk Hs. unfold read_key. eapply parses_bind_nil.
  - apply parses_push. rewrite ed25519_length by done. unfold U16_MAX. lia.
  - apply parses_lift_end. unfold key_typed in Hk. rewrite Hs in Hk. by rewrite Hk.
Qed.
Lemma parses_participant p : participant_typed p -> is_ed25519 (cp_device_verifying_key p) /\ is_ed25519 (cp_transport_identity_key p) ->
  parses participant_decode (participant_encode p) p.
Proof.
  intros ((Hd & Hu & Hl) & Hk1 & Hk2) (Hs1 & Hs2). unfold participant_decode, participant_encode.
  eapply parses_bind; [by apply parses_str|]. eapply parses_lift; [by rewrite Hd|].
  eapply parses_bind; [by apply parses_member_key|]. eapply parses_bind_nil; [by apply parses_member_key|]. destruct p. apply parses_ret.
Qed.
#[global] Instance canonical_read_key mal : Canonical (read_key mal) (fun k => push_bytes (vk_bytes k)).
Proof.
  intros r k r' Hok H. unfold read_key in H. parse_inv. ok_inv. apply from_suite_typed in H as (_ & _ & ->). canon_chain.
Qed.
Lemma read_key_typed mal r k r' : read_key mal r = Ok (k, r') -> key_typed k.
Proof. intros H. unfold read_key in H. parse_inv. ok_inv. by apply from_suite_typed in H as [? _]. Qed.
#[global] Instance canonical_participant : Canonical participant_decode participant_encode.
Proof.
  intros r p r' Hok H. unfold participant_decode in H. parse_inv. ok_inv.
  match goal with H : Did_parse _ = Ok _ |- _ => apply Did_parse_str in H end. unfold participant_encode.
  cbn [cp_custody_did cp_device_verifying_key cp_transport_identity_key]. subst. canon_chain.
Qed.
Lemma read_str_wf r s r' : bytes_ok (rbuf r) -> read_str r = Ok (s, r') -> utf8_valid s = true /\ Z.of_nat (length s) <= U16_MAX.
Proof. intros Hok H. unfold read_str in H. parse_inv. apply read_bytes_consumes in Hp as [_ ?]; [|done]. case_match; ok_inv. by subst. Qed.
Lemma participant_decode_typed r p r' : bytes_ok (rbuf r) -> participant_decode r = Ok (p, r') -> participant_typed p.
Proof.
  intros Hok H. unfold participant_decode in H. parse_inv. ok_inv.
  repeat match goal with H : read_key _ _ = Ok _ |- _ => apply read_key_typed in H end.
  match goal with H : Did_parse _ = Ok _ |- _ => pose proof (Did_parse_str _ _ H) as Hs end.
  match goal with H : read_str _ = Ok _ |- _ => apply read_str_wf in H as [? ?]; [|done] end.
  split; [|by split]. cbn. by rewrite <- Hs in *.
Qed.

(** ** The manifest *)
Lemma parses_fields m : manifest_typed m -> roster_valid m -> parses manifest_fields (manifest_body m) (m, SIGNER_COUNT, THRESHOLD).
Proof.
  intros [] Hv. unfold manifest_fields, manifest_body. pose proof (rv_length _ Hv) as Hl.
  assert (U16_MAX = 65535) as HU by done.
  eapply parses_bind; [by apply parses_array|]. eapply parses_bind; [by apply parses_be16|].
  eapply parses_bind; [by apply (parses_u64 (InvalidManifest "truncated fixed field"))|].
  eapply parses_bind; [by apply (parses_u32 (InvalidManifest "truncated fixed field"))|].
  eapply parses_bind; [apply parses_be16; done|]. eapply parses_bind; [apply parses_be16; done|].
  eapply parses_bind; [by apply parses_str|]. eapply parses_lift; [by rewrite bool_decide_eq_true_2|].
  eapply parses_bind; [apply parses_be16; rewrite Hl; done|]. rewrite Hl. eapply parses_lift; [done|].
  eapply parses_bind.
  { change (Z.to_nat (Z.of_nat 11)) with 11%nat. rewrite <- Hl. apply parses_repeat, Forall_forall. intros p Hp. apply parses_participant.
    - by eapply Forall_forall in Hp.
    - pose proof (rv_suites _ Hv) as Hs. rewrite Forall_forall in Hs. by apply Hs. }
  eapply parses_bind; [by apply parses_array|].
  eapply parses_bind; [by apply (parses_u64 (InvalidManifest "truncated fixed field"))|].
  eapply parses_bind; [by apply parses_array|]. eapply parses_bind; [by apply parses_array|].
  eapply parses_bind_nil; [by apply (parses_u64 (InvalidManifest "truncated fixed field"))|]. destruct m. apply parses_ret.
Qed.
#[local] Instance canonical_members n : Canonical (r_repeat n participant_decode) (fun l => concat (map participant_encode l)).
Proof. intros r l r' Hok H. by apply (r_repeat_consumes _ participant_encode) in H as [? _]; [|apply _|]. Qed.
Lemma fields_typed r m sc th r' : bytes_ok (rbuf r) -> manifest_fields r = Ok (m, sc, th, r') -> manifest_typed m.
Proof.
  intros Hok H. unfold manifest_fields in H. parse_inv. repeat canon_step. repeat match goal with H : (_, _, _) = (_, _, _) |- _ => injection H as -> -> -> end.
  repeat match goal with
  | H : read_array _ _ = Ok _ |- _ => apply array_length in H
  | H : read_u16 _ = Ok _ |- _ => apply read_u16_consumes in H as [_ ?]; [|done]
  | H : read_u64 _ = Ok _ |- _ => apply (r_u64_consumes (InvalidManifest "truncated fixed field")) in H as [_ ?]; [|done]
  | H : read_u32 _ = Ok _ |- _ => apply (r_u32_consumes (InvalidManifest "truncated fixed field")) in H as [_ ?]; [|done]
  end.
  split; try done. cbn. eapply (r_repeat_Forall participant_decode participant_encode); [apply _|apply participant_decode_typed| |eassumption]. done.
Qed.
Lemma decode_encode m : manifest_typed m -> manifest_validate m = Ok tt -> manifest_decode (manifest_encode m) = Ok m.
Proof.
  intros Ht Hv. unfold manifest_decode, manifest_encode. set (body := manifest_body m).
  assert (take 19 (MANIFEST_MAGIC ++ w_u8 1 ++ body) = MANIFEST_MAGIC) as -> by apply (take_app_length MANIFEST_MAGIC).
  assert (drop 19 (MANIFEST_MAGIC ++ w_u8 1 ++ body) = w_u8 1 ++ body) as -> by apply (drop_app_length MANIFEST_MAGIC).
  rewrite length_app, bool_decide_eq_true_2 by done. change (length MANIFEST_MAGIC) with 19%nat. cbn [Nat.add Nat.ltb Nat.leb negb orb fail_if mbind result_bind].
  with_strategy transparent [w_u8] unfold w_u8. cbn [app head drop]. case_bool_decide; [|done]. cbn [negb fail_if mbind result_bind].
  destruct (parses_new _ _ _ (parses_fields m Ht (proj1 (validate_ok m) Hv))) as (r & Hr & Hf). fold body in Hr. rewrite drop_0, Hr. cbn [mbind result_bind].
  rewrite Hf, !Z.eqb_refl. cbn [negb orb fail_if mbind result_bind]. rewrite Hv. cbn [mbind result_bind].
  rewrite bool_decide_eq_true_2; done.
Qed.
(** C23: The wire form of a ceremony manifest and the manifests are in
    one-to-one correspondence: [decode] returns [m] on the bytes [b] exactly
    when [m] passes [validate] and [b] is what [encode] writes for it.  So a
    manifest that is accepted in any form hashes and signs as itself, and a
    valid manifest survives the wire. *)
Theorem manifest_wire b m : bytes_ok b -> manifest_decode b = Ok m <-> manifest_typed m /\ manifest_validate m = Ok tt /\ manifest_encode m = b.
Proof.
  intros Hok. split; [|by intros (Ht & Hv & <-); apply decode_encode]. unfold manifest_decode. intros H. ok_inv.
  repeat match goal with x : unit |- _ => destruct x end. bool_prop. split; [|done]. eapply fields_typed; [|eassumption].
  by apply Forall_drop, Forall_drop.
Qed.

(** A session id is the name of one manifest. *)
Lemma session_id_inj m m' : manifest_typed m -> manifest_validate m = Ok tt -> manifest_typed m' -> manifest_validate m' = Ok tt ->
  session_id m = session_id m' -> m = m' \/ blake3_collision.
Proof.
  intros Ht Hv Ht' Hv' E. unfold session_id, domain_hash in E. cbn [concat] in E. rewrite !app_nil_r in E.
  destruct (decide (manifest_encode m = manifest_encode m')) as [E'|Hne].
  - left. apply decode_encode in Hv, Hv'; [|done..]. rewrite E' in Hv. congruence.
  - right. exists (lit "mininet/custody/dkg-session/v1" ++ manifest_encode m), (lit "mininet/custody/dkg-session/v1" ++ manifest_encode m').
    split; [|done]. by intros ?%app_inv_head.
Qed.
End Wire.
