(* ===== verification/CustodyTheorems.v ===== *)
(** * CustodyTheorems: who a ceremony speaks for

    Each barrier of a ceremony is passed exactly by the endorsement of every
    roster member under the ceremony's session id; no signed message can be
    read as another; round two runs only behind the view of its own
    manifest; and a domain's registry is the chain of its ceremonies. *)

From Stdlib Require Import ZArith Lia.
From stdpp Require Import base list gmap sets strings.
From S2P Require Import Prelude Codec Crypto Identity Witness Custody CustodyRoster.
Open Scope Z_scope.

Section Barriers.
Context {P : Primitives} {F : FrostDkg}.

(** ** The loop of the barriers *)
Section Members.
Context {A : Type} (did_of : A -> Did) (verified : A -> bool).
Lemma distinct_members_ok l : forall seen seen', distinct_members did_of verified seen l = Some seen' <->
  Forall (fun a => verified a = true) l /\ NoDup (map did_of l) /\ (forall a, a ∈ l -> did_of a ∉ seen) /\ seen' = list_to_set (map did_of l) ∪ seen.
Proof.
  induction l as [|a l IH]; intros seen seen'; cbn [distinct_members map].
  { rewrite Forall_nil, NoDup_nil. cbn. split; [intros [= <-]; repeat split; [by intros a ?%elem_of_nil|set_solver]|].
    intros (_ & _ & _ & ->). f_equal. set_solver. }
  rewrite Forall_cons, NoDup_cons. destruct (verified a); cbn; [|naive_solver].
  case_bool_decide as Hs; [split; [done|]; intros (_ & _ & H & _); by destruct (H a (list_elem_of_here _ _))|].
  rewrite IH. split.
  - intros (H1 & H2 & H3 & ->). split; [done|]. split; [split; [|done]|split].
    + intros (b & E & Hb)%list_elem_of_fmap. apply (H3 b Hb). rewrite <- E. set_solver.
    + intros b [->|Hb]%elem_of_cons; [done|]. specialize (H3 b Hb). set_solver.
    + set_solver.
  - intros ((_ & H1) & (Hn & H2) & H3 & ->). split; [done|]. split; [done|]. split; [|set_solver].
    intros b Hb [E%elem_of_singleton|H]%elem_of_union.
    + apply Hn. apply list_elem_of_fmap. by exists b.
    + by apply (H3 b); [apply list_elem_of_further|].
Qed.
Lemma every_member_ok m l : every_member did_of verified m l = true <->
  length l = length (dm_roster m) /\ Forall (fun a => verified a = true) l /\ NoDup (map did_of l).
Proof.
  unfold every_member. destruct (Nat.eqb_spec (length l) (length (dm_roster m))) as [Hl|]; cbn; [|naive_solver].
  destruct (distinct_members did_of verified ∅ l) as [s|] eqn:E.
  - apply distinct_members_ok in E as (H1 & H2 & _ & ->). split; [done|]. intros _. apply Nat.eqb_eq.
    rewrite union_empty_r_L, size_list_to_set, length_map by done. done.
  - split; [done|]. intros (_ & H1 & H2). assert (distinct_members did_of verified ∅ l = Some (list_to_set (map did_of l) ∪ ∅)) as E'; [|congruence].
    apply distinct_members_ok. split; [done|]. split; [done|]. split; [|done]. intros a _. apply not_elem_of_empty.
Qed.
(** As many distinct members as the roster has are all of them. *)
Lemma every_member_perm m l : roster_valid m -> (forall a, verified a = true -> did_of a ∈ members m) ->
  every_member did_of verified m l = true <-> map did_of l ≡ₚ members m /\ Forall (fun a => verified a = true) l.
Proof.
  intros Hv Hm. rewrite every_member_ok. split.
  - intros (Hl & Hf & Hn). split; [|done]. apply submseteq_length_Permutation; [|unfold members; rewrite !length_map; lia].
    apply NoDup_submseteq; [done|]. intros d (a & -> & Ha)%list_elem_of_fmap. apply Hm. by eapply Forall_forall in Hf.
  - intros [Hp Hf]. split; [|split; [done|]].
    + rewrite <- (length_map did_of), Hp. unfold members. by rewrite length_map.
    + rewrite Hp. by apply members_NoDup.
Qed.
End Members.

(** ** Endorsement *)
(** The member's device key signed the message. *)
Definition endorses (m : DkgSessionManifestV1) (did : Did) (message : bytes) (s : Signature) : Prop :=
  exists p, p ∈ dm_roster m /\ cp_custody_did p = did /\ vk_verify (cp_device_verifying_key p) message s = Ok tt.
Lemma member_verifies m did message s : roster_valid m ->
  (position ← ok_or (frost_identifier_of m did) not_a_member; p ← roster_at m position; device_verify p message s) = Ok tt <-> endorses m did message s.
Proof.
  intros Hv. split.
  - intros H. ok_inv. apply identifier_spec in Hx as [_ Hd]; [|done]. unfold roster_at, device_verify in *. ok_inv.
    unfold member_at in Hd. rewrite Hx0 in Hd. injection Hd as Hd. exists x0. repeat split; [by eapply list_elem_of_lookup_2|done..].
  - intros (p & Hp & Hd & Hs). assert (is_Some (frost_identifier_of m did)) as [i Hi].
    { apply identifier_total; [done|]. apply list_elem_of_fmap. by exists p. }
    rewrite Hi. cbn. apply identifier_spec in Hi as [_ (q & Hq & Hdq)%fmap_Some]; [|done]. unfold roster_at, device_verify.
    unfold member_at in Hq. rewrite Hq. cbn. apply list_elem_of_lookup_1 in Hp as [n Hn].
    assert (n = Z.to_nat (i - 1)) as ->; [|assert (p = q) as <- by congruence; by rewrite Hs].
    eapply (NoDup_lookup (members m) _ _ did (members_NoDup m Hv)); unfold members; rewrite list_lookup_fmap, ?Hn, ?Hq; cbn; congruence.
Qed.
Lemma endorser_is_member m did message s : endorses m did message s -> did ∈ members m.
Proof. intros (p & Hp & <- & _). apply list_elem_of_fmap. by exists p. Qed.
Lemma guard_ok {E} (c : bool) (e : E) (r : result E unit) : (_ ← fail_if c e; r) = Ok tt <-> c = false /\ r = Ok tt.
Proof. destruct c; cbn; naive_solver. Qed.

(** ** What each message asserts *)
Definition accepts (m : DkgSessionManifestV1) (a : ManifestAcceptanceV1) : Prop :=
  ma_session_id a = session_id m /\ frost_identifier_of m (ma_custody_did a) = Some (ma_frost_identifier a) /\
  endorses m (ma_custody_did a) (manifest_acceptance_message (session_id m) (ma_custody_did a) (ma_frost_identifier a)) (ma_signature a).
Definition acknowledges (m : DkgSessionManifestV1) (root : bytes) (a : Round1ViewAckV1) : Prop :=
  va_session_id a = session_id m /\ va_round1_root a = root /\
  endorses m (va_custody_did a) (round1_view_ack_message (session_id m) root) (va_signature a).
Definition completes (m : DkgSessionManifestV1) (root package_hash group_key : bytes) (a : CompletionAttestationV1) : Prop :=
  ca_session_id a = session_id m /\ ca_round1_root a = root /\ ca_public_package_hash a = package_hash /\ ca_group_public_key a = group_key /\
  endorses m (ca_custody_did a) (completion_message (session_id m) root package_hash group_key) (ca_signature a).
Lemma acceptance_ok m a : roster_valid m -> verify_manifest_acceptance m a = Ok tt <-> accepts m a.
Proof.
  intros Hv. unfold verify_manifest_acceptance, accepts. rewrite guard_ok. split.
  - intros [Hs H]. bool_prop. rewrite <- Hs.
    destruct (frost_identifier_of m (ma_custody_did a)) as [i|] eqn:E; [|done]. cbn in H. destruct (Z.eqb_spec i (ma_frost_identifier a)) as [->|]; [|done].
    split; [done|]. split; [done|]. apply member_verifies; [done|]. rewrite E. exact H.
  - intros (Hs & Hi & He). rewrite Hs, bool_decide_eq_true_2, Hi by done. split; [done|]. cbn. rewrite Z.eqb_refl. cbn.
    apply (member_verifies _ _ _ _ Hv) in He. by rewrite Hi in He.
Qed.
Lemma ack_ok m root a : roster_valid m -> verify_round1_view_ack m a root = Ok tt <-> acknowledges m root a.
Proof.
  intros Hv. unfold verify_round1_view_ack, acknowledges. rewrite guard_ok, member_verifies by done. split.
  - intros [Hs H]. bool_prop. naive_solver congruence.
  - intros (Hs & Hr & He). by rewrite Hs, Hr, !bool_decide_eq_true_2.
Qed.
Lemma attestation_ok m a : roster_valid m -> verify_completion_attestation m a = Ok tt <->
  endorses m (ca_custody_did a) (completion_message (ca_session_id a) (ca_round1_root a) (ca_public_package_hash a) (ca_group_public_key a)) (ca_signature a).
Proof. intros Hv. unfold verify_completion_attestation. by rewrite member_verifies. Qed.

(** [l] has one entry for every member, and each asserts [Q]. *)
Definition by_every_member {A} (did_of : A -> Did) (Q : A -> Prop) (m : DkgSessionManifestV1) (l : list A) : Prop :=
  map did_of l ≡ₚ members m /\ Forall Q l.
Lemma barrier_spec {A} (did_of : A -> Did) (verified : A -> bool) (Q : A -> Prop) m l : roster_valid m ->
  (forall a, verified a = true <-> Q a) -> (forall a, Q a -> did_of a ∈ members m) ->
  every_member did_of verified m l = true <-> by_every_member did_of Q m l.
Proof.
  intros Hv HQ Hm. rewrite every_member_perm; [|done|intros a Ha; by apply Hm, HQ]. unfold by_every_member.
  by setoid_rewrite HQ.
Qed.
Lemma accepted_spec m l : roster_valid m -> manifest_fully_accepted m l = true <-> by_every_member ma_custody_did (accepts m) m l.
Proof.
  intros Hv. apply barrier_spec; [done| |].
  - intros a. by rewrite is_ok_unit, acceptance_ok.
  - intros a (_ & _ & He). by eapply endorser_is_member.
Qed.
Lemma view_spec m l root : roster_valid m -> round1_view_confirmed m l root = true <-> by_every_member va_custody_did (acknowledges m root) m l.
Proof.
  intros Hv. apply barrier_spec; [done| |].
  - intros a. by rewrite is_ok_unit, ack_ok.
  - intros a (_ & _ & He). by eapply endorser_is_member.
Qed.
Lemma completion_spec m l : roster_valid m -> completion_confirmed m l = true <->
  exists root package_hash group_key, by_every_member ca_custody_did (completes m root package_hash group_key) m l.
Proof.
  intros Hv. pose proof (rv_length _ Hv) as Hlen. unfold completion_confirmed. destruct l as [|first l].
  { split; [done|]. intros (r & ph & gk & Hp & _). apply Permutation_length in Hp. by rewrite (length_members m Hv) in Hp. }
  set (all := first :: l).
  assert (forall a, ca_session_id first = session_id m ->
    same_completion a first && is_ok (verify_completion_attestation m a) = true <->
    completes m (ca_round1_root first) (ca_public_package_hash first) (ca_group_public_key first) a) as Hone.
  { intros a Hs. rewrite andb_true_iff, is_ok_unit, attestation_ok by done. unfold same_completion, completes. split.
    - intros [H He]. bool_prop. naive_solver congruence.
    - intros (E1 & E2 & E3 & E4 & He). rewrite Hs, E1, E2, E3, E4, !bool_decide_eq_true_2 by done. done. }
  split.
  - destruct (negb (length all =? _)%nat); [done|]. destruct (decide (ca_session_id first = session_id m)) as [Hs|]; [|by rewrite bool_decide_eq_false_2].
    rewrite bool_decide_eq_true_2 by done. cbn [negb]. intros H. do 3 eexists. eapply barrier_spec; [done|by intros a; apply Hone|..|exact H].
    intros a (_ & _ & _ & _ & He). by eapply endorser_is_member.
  - intros (r & ph & gk & Hp & Hf). pose proof (Permutation_length Hp) as Hl. rewrite length_map, (length_members m Hv) in Hl. rewrite Hl, Hlen. cbn [Nat.eqb negb].
    inversion Hf as [|? ? (Hs & <- & <- & <- & _) _]; subst. rewrite bool_decide_eq_true_2 by done. cbn [negb].
    eapply barrier_spec; [done|by intros a; apply Hone| |by split]. intros a (_ & _ & _ & _ & He). by eapply endorser_is_member.
Qed.

(** C19: Every barrier of a ceremony is unanimity of its roster, and nothing
    less or else: for a valid manifest, the acceptances, the round-one
    acknowledgements of a root, and the completion attestations are
    confirmed exactly when there is one for each of the eleven members, all
    under this manifest's session id, all naming the same root (and, at the
    end, the same package hash and group key), each signed with the
    member's own device key; and an acceptance names the identifier the
    roster gives that member. *)
Theorem ceremony_barriers_are_unanimous m : manifest_validate m = Ok tt ->
  (forall l, manifest_fully_accepted m l = true <-> by_every_member ma_custody_did (accepts m) m l) /\
  (forall l root, round1_view_confirmed m l root = true <-> by_every_member va_custody_did (acknowledges m root) m l) /\
  (forall l, completion_confirmed m l = true <->
     exists root package_hash group_key, by_every_member ca_custody_did (completes m root package_hash group_key) m l) /\
  NoDup (members m) /\ length (members m) = 11%nat.
Proof.
  intros Hv%validate_ok. split; [intros l; by apply accepted_spec|]. split; [intros l root; by apply view_spec|].
  split; [intros l; by apply completion_spec|]. split; [by apply members_NoDup|by apply length_members].
Qed.

(** Round two runs only behind the view of its own manifest. *)
Theorem round2_waits_for_one_view m m' l root c secret packages out :
  manifest_typed m -> manifest_validate m = Ok tt -> manifest_typed m' -> manifest_validate m' = Ok tt ->
  confirm_round1_view m' l root = Ok c -> dkg_part2 m c secret packages = Ok out ->
  by_every_member va_custody_did (acknowledges m root) m l \/ blake3_collision.
Proof.
  intros Ht Hv Ht' Hv' Hc Hp. unfold confirm_round1_view in Hc. unfold dkg_part2 in Hp. ok_inv. bool_prop. subst. cbn in *.
  match goal with H : session_id m' = session_id m |- _ => apply session_id_inj in H as [->|]; [left|by right|done..] end.
  apply view_spec; [by apply validate_ok|done].
Qed.
End Barriers.

(** ** What a signature says *)
Inductive ceremony_message :=
| MsgAcceptance (session : bytes) (did : Did) (frost_identifier : Z)
| MsgViewAck (session root : bytes)
| MsgCompletion (session root package_hash group_key : bytes)
| MsgAbort (session : bytes) (reason : AbortReason).
Definition message_bytes (m : ceremony_message) : bytes :=
  match m with
  | MsgAcceptance s d i => manifest_acceptance_message s d i
  | MsgViewAck s r => round1_view_ack_message s r
  | MsgCompletion s r p k => completion_message s r p k
  | MsgAbort s r => abort_notice_message s r
  end.
Definition message_typed (m : ceremony_message) : Prop :=
  match m with
  | MsgAcceptance s d i => length s = 32%nat /\ Z.of_nat (length (did_str d)) <= U16_MAX /\ is_u16 i
  | MsgViewAck s r => length s = 32%nat /\ length r = 32%nat
  | MsgCompletion s r p k => length s = 32%nat /\ length r = 32%nat /\ length p = 32%nat /\ length k = 32%nat
  | MsgAbort s _ => length s = 32%nat
  end.
Lemma be16_inj v w : is_u16 v -> is_u16 w -> be16 v = be16 w -> v = w.
Proof.
  unfold be16, is_u16, U16_MAX. intros Hv Hw E. apply (f_equal from_be_bytes) in E.
  rewrite !from_to_be_bytes in E; [done|change (256 ^ Z.of_nat 2) with (2 ^ 16); lia..].
Qed.
Lemma push_inj a b x y : Z.of_nat (length a) <= U16_MAX -> Z.of_nat (length b) <= U16_MAX -> push_bytes a ++ x = push_bytes b ++ y -> a = b /\ x = y.
Proof.
  unfold push_bytes. rewrite <- !(assoc_L (++)). intros Ha Hb E.
  apply app_inj_1 in E as [El E]; [|by unfold be16; rewrite !length_to_be_bytes].
  apply be16_inj in El; [|unfold is_u16; lia..]. apply app_inj_1 in E as [-> ->]; [done|lia].
Qed.
Lemma abort_tag_inj r r' : abort_tag r = abort_tag r' -> r = r'.
Proof. destruct r, r'; try done; discriminate. Qed.
(** No signed message of a ceremony can be read as another: the phase, the
    session and every field are in its bytes. *)
Theorem ceremony_messages_are_unambiguous x y : message_typed x -> message_typed y -> message_bytes x = message_bytes y -> x = y.
Proof.
  destruct x, y; cbn [message_typed message_bytes]; intros Hx Hy E;
    unfold manifest_acceptance_message, round1_view_ack_message, completion_message, abort_notice_message in E;
    try (exfalso; cbn in E; discriminate E); apply app_inv_head in E.
  - destruct Hx as (? & ? & ?), Hy as (? & ? & ?). apply app_inj_1 in E as [-> E]; [|congruence].
    apply push_inj in E as [Ed Ei]; [|done..]. apply be16_inj in Ei; [|done..]. destruct did, did0. cbn in Ed. by subst.
  - destruct Hx, Hy. apply app_inj_1 in E as [-> ->]; [done|congruence].
  - destruct Hx as (? & ? & ? & ?), Hy as (? & ? & ? & ?). repeat (apply app_inj_1 in E as [-> E]; [|congruence]). by subst.
  - apply app_inj_1 in E as [-> E]; [|congruence]. rewrite <- (app_nil_r (push_bytes _)), <- (app_nil_r (push_bytes (abort_tag reason0))) in E.
    apply push_inj in E as [E _]; [by apply abort_tag_inj in E as ->|destruct reason, reason0; done..].
Qed.

(** ** The registry *)
(** Completions in the order they are reported, from any number of
    ceremonies, late and repeated ones too; the ones recorded. *)
Fixpoint registry_run (r : CustodyDomainRegistry) (l : list (DkgSessionManifestV1 * bytes)) : CustodyDomainRegistry * list (DkgSessionManifestV1 * bytes) :=
  match l with
  | [] => (r, [])
  | (m, k) :: l =>
      match record_completion r m k with
      | Ok r' => let '(r'', recorded) := registry_run r' l in (r'', (m, k) :: recorded)
      | Err _ => registry_run r l
      end
  end.
(** The ceremonies of one domain from an epoch and key on. *)
Fixpoint chained (epoch : Z) (key : bytes) (l : list (DkgSessionManifestV1 * bytes)) : Prop :=
  match l with
  | [] => True
  | (m, k) :: l => dm_previous_epoch m = epoch /\ dm_previous_group_key m = key /\ dm_custody_epoch m = epoch + 1 /\ chained (epoch + 1) k l
  end.
Definition of_domain (d : Z) (l : list (DkgSessionManifestV1 * bytes)) : list (DkgSessionManifestV1 * bytes) :=
  List.filter (fun x => dm_custody_domain x.1 =? d) l.
Definition held_epoch (s : option DomainKeyStateV1) : Z := match s with Some s => dk_epoch s | None => 0 end.
Definition held_key (s : option DomainKeyStateV1) : bytes := match s with Some s => dk_group_public_key s | None => zero_key end.
Definition ends_with (d : Z) (s : option DomainKeyStateV1) (own : list (DkgSessionManifestV1 * bytes)) : option DomainKeyStateV1 :=
  match last own with
  | Some (_, k) => Some (mkDomainKey d (held_epoch s + Z.of_nat (length own)) k)
  | None => s
  end.
Lemma recorded_chains r m k r' : record_completion r m k = Ok r' -> let s := state_of r (dm_custody_domain m) in 0 <= held_epoch s < U64_MAX ->
  dm_previous_epoch m = held_epoch s /\ dm_previous_group_key m = held_key s /\ dm_custody_epoch m = held_epoch s + 1 /\
  r' = <[dm_custody_domain m := mkDomainKey (dm_custody_domain m) (held_epoch s + 1) k]> r.
Proof.
  unfold record_completion, validate_chain, state_of, wrapping_add, U64_MAX. intros H Hb. set (s := r !! dm_custody_domain m) in *.
  assert (dm_previous_epoch m = held_epoch s /\ dm_previous_group_key m = held_key s /\
    dm_custody_epoch m = (dm_previous_epoch m + 1) mod 2 ^ 64 /\ r' = <[dm_custody_domain m := mkDomainKey (dm_custody_domain m) (dm_custody_epoch m) k]> r) as (H1 & H2 & H3 & ->).
  { unfold held_epoch, held_key. destruct s; ok_inv; bool_prop; done. }
  rewrite H1, Z.mod_small in H3 by lia. by rewrite H3.
Qed.
Lemma last_cons_default {A} (x : A) l : last (x :: l) = Some (default x (last l)).
Proof. rewrite last_cons. by destruct (last l). Qed.
Lemma registry_run_chain d : forall l r r' recorded, registry_run r l = (r', recorded) ->
  (forall d', 0 <= held_epoch (state_of r d') /\ held_epoch (state_of r d') + Z.of_nat (length l) <= U64_MAX) ->
  chained (held_epoch (state_of r d)) (held_key (state_of r d)) (of_domain d recorded) /\
  state_of r' d = ends_with d (state_of r d) (of_domain d recorded).
Proof.
  induction l as [|[m k] l IH]; intros r r' recorded H Hb; cbn [registry_run] in H; [by injection H as <- <-|].
  assert (forall d', 0 <= held_epoch (state_of r d') < U64_MAX) as Hb' by (intros d'; destruct (Hb d'); cbn [length] in *; lia).
  destruct (record_completion r m k) as [r1|] eqn:E.
  - destruct (registry_run r1 l) as [r2 rec] eqn:E2. injection H as -> <-.
    apply recorded_chains in E as (H1 & H2 & H3 & ->); [|done]. set (s := state_of r (dm_custody_domain m)) in *.
    apply IH in E2 as [Hc Hs].
    + cbn [of_domain List.filter fst]. unfold state_of in Hc, Hs. destruct (Z.eqb_spec (dm_custody_domain m) d) as [<-|Hd].
      * rewrite lookup_insert_eq in Hc, Hs. split; [by cbn [chained]|]. unfold state_of at 1. rewrite Hs. unfold ends_with. rewrite last_cons_default.
        fold (of_domain (dm_custody_domain m) rec). destruct (last (of_domain (dm_custody_domain m) rec)) as [[m' k']|] eqn:El; cbn.
        -- f_equal. f_equal. fold s. lia.
        -- destruct (of_domain (dm_custody_domain m) rec); [done|]. by rewrite last_cons_default in El.
      * rewrite lookup_insert_ne in Hc, Hs by done. by split.
    + intros d'. unfold state_of. destruct (decide (dm_custody_domain m = d')) as [<-|Hd].
      * rewrite lookup_insert_eq. cbn. pose proof (Hb (dm_custody_domain m)) as Hm. cbn [length] in Hm. change (state_of r (dm_custody_domain m)) with s in Hm. lia.
      * rewrite lookup_insert_ne by done. destruct (Hb d'). unfold state_of in *. cbn [length] in *. lia.
  - apply IH; [done|]. intros d'. destruct (Hb d'). cbn [length] in *. lia.
Qed.
(** A domain's registry is the chain of its ceremonies, whatever
    completions are reported to it, in whatever order and however often: of
    each domain the recorded ceremonies have epochs 1, 2, 3, ..., each
    naming the epoch and the group key its predecessor ended with (zeros for
    the first), and the registered state is the last one's epoch and key; no
    report for another domain, and no late or repeated one, changes it.
    (Epochs are [u64]; the bound says that fewer than [2^64] completions are
    reported.) *)
Theorem registry_is_a_chain l r recorded d :
  registry_run registry_new l = (r, recorded) -> Z.of_nat (length l) <= U64_MAX ->
  chained 0 zero_key (of_domain d recorded) /\
  state_of r d = match last (of_domain d recorded) with
                 | Some (m, k) => Some (mkDomainKey d (Z.of_nat (length (of_domain d recorded))) k)
                 | None => None
                 end.
Proof.
  intros H Hb. apply (registry_run_chain d) in H as [Hc Hs]; [by split|]. intros d'. unfold state_of, registry_new. rewrite lookup_empty. cbn [held_epoch]. lia.
Qed.
