(* ===== verification/CustodySigner.v ===== *)
(** * CustodySigner: a signer that never uses a nonce twice

    Models [crates/mini-custody/src/signing.rs]: the journal of nonce
    reservations a threshold signer keeps on a directory.  A reservation is
    written before its commitment is released, burned before it signs, and
    burned on reopening if its process is gone.

    [frost_ristretto255]'s signing calls are the class [FrostSigning].  The
    directory is that of [WitnessService], with whole file names; a file
    that is there can be read, and [create_dir_all] has succeeded. *)

From Stdlib Require Import ZArith Lia.
From stdpp Require Import base list gmap sets strings.
From S2P Require Import Prelude Codec Crypto CreditPermit CreditJournal WitnessService Custody.
Open Scope Z_scope.

(** The calls on [frost_ristretto255]'s types. *)
Class FrostSigning := {
  KeyPackage : Type;
  SigningNonces : Type;
  SigningCommitments : Type;
  SigningPackage : Type;
  SignatureShare : Type;
  signing_rng : Type;
  key_identifier : KeyPackage -> bytes;
  key_verifying_share : KeyPackage -> option bytes;
  key_verifying_key : KeyPackage -> option bytes;
  frost_commit : KeyPackage -> signing_rng -> SigningNonces * SigningCommitments;
  commitments_serialize : SigningCommitments -> option bytes;
  commitments_deserialize : bytes -> option SigningCommitments;
  package_message : SigningPackage -> bytes;
  frost_sign : SigningPackage -> SigningNonces -> KeyPackage -> result string SignatureShare;
}.

Definition SIGNER_DOMAIN : bytes := lit "mininet/custody/durable-signer/v1".
Definition NONCE_DOMAIN : bytes := lit "mininet/custody/nonce-record/v1".
Definition MAX_DURABLE_NONCE_RECORDS : nat := Z.to_nat 100000.
Definition signer_lock : bytes := lit "signer.lock".
Definition signer_binding : bytes := lit "signer.binding".

(** [Path::extension] of a file name: what follows its last dot, if
    anything stands before that dot. *)
Fixpoint split_dot (reversed : bytes) : option (bytes * bytes) :=
  match reversed with
  | [] => None
  | c :: rest => if c =? 0x2E then Some ([], rest) else '(e, stem) ← split_dot rest; Some (c :: e, stem)
  end.
Definition extension (name : bytes) : option bytes :=
  match split_dot (reverse name) with
  | Some (e, _ :: _) => Some (reverse e)
  | _ => None
  end.

(** [read_journal_file]. *)
Definition read_journal_file (d : WitnessDirectory) (name : bytes) (limit : nat) : result CustodyError bytes :=
  match wd_states d !! name with
  | Some (StateFile b) => _ ← fail_if (limit <? length b)%nat (SigningJournal "journal must be a bounded regular file"); Ok b
  | Some _ => Err (SigningJournal "journal must be a bounded regular file")
  | None => Err (SigningJournal "not found")
  end.
Definition replace_file (d : WitnessDirectory) (name b : bytes) : WitnessDirectory * result CustodyError unit :=
  let '(d, r) := replace_state d name b in (d, map_err (fun _ => SigningJournal "atomic_replace") r).
Definition exists_file (d : WitnessDirectory) (name : bytes) : bool := bool_decide (is_Some (wd_states d !! name)).

Section CustodySigner.
Context {P : Primitives} {F : FrostSigning}.

Definition round2_sign (package : SigningPackage) (nonces : SigningNonces) (key : KeyPackage) : result CustodyError SignatureShare :=
  map_err Frost (frost_sign package nonces key).

(** ** Records *)
Record NonceRecord := mkNonceRecord {
  nr_signer : bytes;
  nr_instance : bytes;
  nr_commitment : bytes;
  nr_burned : bool;
  nr_transcript : bytes;
}.
Definition zero32 : bytes := replicate 32 0.
Definition record_content (r : NonceRecord) : bytes :=
  NONCE_DOMAIN ++ nr_signer r ++ nr_instance r ++ push_bytes (nr_commitment r) ++ w_u8 (if nr_burned r then 1 else 0) ++ nr_transcript r.
Definition nonce_encode (r : NonceRecord) : bytes := record_content r ++ blake3 (record_content r).
Definition truncated_record : CustodyError := SigningJournal "truncated nonce journal record".
Definition nonce_fields : parser CustodyError NonceRecord :=
  signer ← r_take truncated_record 32;
  instance ← r_take truncated_record 32;
  len ← r_take (SigningJournal "truncated nonce commitment length") 2;
  commitment ← r_take truncated_record (Z.to_nat (from_be_bytes len));
  flag ← r_u8 (SigningJournal "truncated nonce burned flag");
  burned ← lift (if flag =? 0 then Ok false else if flag =? 1 then Ok true else Err (SigningJournal "invalid nonce record status"));
  transcript ← r_take truncated_record 32;
  mret (mkNonceRecord signer instance commitment burned transcript).
Definition nonce_decode (b : bytes) : result CustodyError NonceRecord :=
  _ ← fail_if ((length b <? length NONCE_DOMAIN + 32)%nat || negb (starts_with NONCE_DOMAIN b)) (SigningJournal "invalid nonce journal record");
  let content := take (length b - 32) b in
  _ ← fail_if (negb (bool_decide (blake3 content = drop (length b - 32) b))) (SigningJournal "nonce journal checksum mismatch");
  '(record, r) ← nonce_fields (Reader_new (drop (length NONCE_DOMAIN) content));
  _ ← fail_if (negb (finished r)) (SigningJournal "trailing bytes in nonce journal record");
  _ ← fail_if (negb (nr_burned record) && negb (bool_decide (nr_transcript record = zero32))) (SigningJournal "invalid nonce record fields");
  _ ← ok_or (commitments_deserialize (nr_commitment record)) (SigningJournal "malformed persisted nonce commitment");
  Ok record.
Definition record_name (r : NonceRecord) : bytes :=
  hex_lower (blake3 (lit "mininet/custody/nonce-name/v1" ++ nr_signer r ++ nr_commitment r)) ++ lit ".nonce".
Definition burn (r : NonceRecord) (transcript : bytes) : NonceRecord :=
  mkNonceRecord (nr_signer r) (nr_instance r) (nr_commitment r) true transcript.

(** ** The signer *)
Record DurableCustodySigner := mkSigner {
  ds_directory : WitnessDirectory;
  ds_key : KeyPackage;
  ds_binding : bytes;
  ds_instance : bytes;
  ds_record_count : nat;
  ds_poisoned : bool;
}.
Record DurableSigningNonces := mkDurableNonces { dn_nonces : SigningNonces; dn_record : NonceRecord }.

Definition signer_manifest (key : KeyPackage) : result CustodyError bytes :=
  verifying_share ← ok_or (key_verifying_share key) (SigningJournal "key package has an invalid verifying share");
  verifying_key ← ok_or (key_verifying_key key) (SigningJournal "key package has an invalid verifying key");
  Ok (SIGNER_DOMAIN ++ push_bytes (key_identifier key) ++ push_bytes verifying_share ++ push_bytes verifying_key).

(** The loop over [read_dir]: the number of entries and the records among
    them; an entry that cannot be read is [None]. *)
Definition journal_entry (d : WitnessDirectory) (binding : bytes) (acc : nat * list NonceRecord) (entry : option bytes) :
    result CustodyError (nat * list NonceRecord) :=
  let '(directory_entries, records) := acc in
  name ← ok_or entry (SigningJournal "read_dir");
  let directory_entries := S directory_entries in
  _ ← fail_if (MAX_DURABLE_NONCE_RECORDS + 2 <? directory_entries)%nat (SigningJournal "signer journal capacity exceeded");
  if bool_decide (name = signer_binding) || bool_decide (name = signer_lock) then Ok (directory_entries, records) else
  if bool_decide (extension name = Some (lit "tmp")) then Ok (directory_entries, records) else
  if negb (bool_decide (extension name = Some (lit "nonce"))) then Err (SigningJournal "unexpected signer journal entry") else
  b ← read_journal_file d name 4096;
  record ← nonce_decode b;
  _ ← fail_if (negb (bool_decide (nr_signer record = binding)) || negb (bool_decide (name = record_name record)))
        (SigningJournal "nonce record does not bind this signer/commitment");
  Ok (directory_entries, records ++ [record]).
(** What [read_journal_file] makes of the manifest on disk. *)
Definition check_binding (d : WitnessDirectory) (manifest : bytes) (directory_entries : nat) : WitnessDirectory * result CustodyError unit :=
  match read_journal_file d signer_binding (length manifest) with
  | Ok b => (d, fail_if (negb (bool_decide (b = manifest))) (SigningJournal "signer identity/share does not match journal"))
  | Err e =>
      if exists_file d signer_binding then (d, Err e) else
      if negb (directory_entries =? 1)%nat then (d, Err (SigningJournal "missing binding in nonempty signer journal")) else
      replace_file d signer_binding manifest
  end.
Fixpoint burn_all (d : WitnessDirectory) (records : list NonceRecord) : WitnessDirectory * result CustodyError unit :=
  match records with
  | [] => (d, Ok tt)
  | r :: records =>
      if nr_burned r then burn_all d records else
      match replace_file d (record_name r) (nonce_encode (burn r (nr_transcript r))) with
      | (d, Ok _) => burn_all d records
      | (d, Err e) => (d, Err e)
      end
  end.
(** The lock file is created by taking the lock. *)
Definition with_lock_file (d : WitnessDirectory) : WitnessDirectory :=
  if exists_file d signer_lock then d else mkWitnessDir (<[signer_lock := StateFile []]> (wd_states d)) (wd_replacements d).
(** [listing] is the order in which [read_dir] gives the names, [entropy]
    what [random_32] draws. *)
Definition signer_open (d : WitnessDirectory) (locked : bool) (listing : list (option bytes)) (entropy : option bytes) (key : KeyPackage) :
    WitnessDirectory * result CustodyError DurableCustodySigner :=
  let d := with_lock_file d in
  if locked then (d, Err (SigningJournal "lock")) else
  match signer_manifest key with
  | Err e => (d, Err e)
  | Ok manifest =>
      let binding := blake3 manifest in
      match foldM (journal_entry d binding) (0%nat, []) listing with
      | Err e => (d, Err e)
      | Ok (directory_entries, records) =>
          match check_binding d manifest directory_entries with
          | (d, Err e) => (d, Err e)
          | (d, Ok _) =>
              match replace_file d signer_binding manifest with
              | (d, Err e) => (d, Err e)
              | (d, Ok _) =>
                  match burn_all d records with
                  | (d, Err e) => (d, Err e)
                  | (d, Ok _) =>
                      (d, instance ← ok_or entropy Entropy; Ok (mkSigner d key binding instance (length records) false))
                  end
              end
          end
      end
  end.

Definition poison (s : DurableCustodySigner) (d : WitnessDirectory) : DurableCustodySigner :=
  mkSigner d (ds_key s) (ds_binding s) (ds_instance s) (ds_record_count s) true.
Definition ready (s : DurableCustodySigner) : DurableCustodySigner * result CustodyError unit :=
  if ds_poisoned s then (s, Err (SigningJournal "storage outcome uncertain; signer must reopen")) else
  match read_journal_file (ds_directory s) signer_binding (length SIGNER_DOMAIN + 512) with
  | Ok b =>
      if bool_decide (blake3 b = ds_binding s) then (s, Ok tt)
      else (poison s (ds_directory s), Err (SigningJournal "signer manifest disappeared or changed; refusing publication"))
  | Err _ => (poison s (ds_directory s), Err (SigningJournal "signer manifest disappeared or changed; refusing publication"))
  end.
Definition signer_persist (s : DurableCustodySigner) (r : NonceRecord) : DurableCustodySigner * result CustodyError unit :=
  match replace_file (ds_directory s) (record_name r) (nonce_encode r) with
  | (d, Err e) => (poison s d, Err e)
  | (d, Ok _) => (mkSigner d (ds_key s) (ds_binding s) (ds_instance s) (ds_record_count s) (ds_poisoned s), Ok tt)
  end.
Definition signer_commit (s : DurableCustodySigner) (rng : signing_rng) :
    DurableCustodySigner * result CustodyError (DurableSigningNonces * SigningCommitments) :=
  match ready s with
  | (s, Err e) => (s, Err e)
  | (s, Ok _) =>
      if (MAX_DURABLE_NONCE_RECORDS <=? ds_record_count s)%nat then (s, Err (SigningJournal "signer journal capacity exceeded")) else
      let '(nonces, commitment) := frost_commit (ds_key s) rng in
      match commitments_serialize commitment with
      | None => (s, Err (SigningJournal "failed to serialize a freshly generated commitment"))
      | Some commitment_bytes =>
          let record := mkNonceRecord (ds_binding s) (ds_instance s) commitment_bytes false zero32 in
          if exists_file (ds_directory s) (record_name record) then (s, Err (SigningJournal "nonce commitment already reserved or burned")) else
          match signer_persist s record with
          | (s, Err e) => (s, Err e)
          | (s, Ok _) =>
              (mkSigner (ds_directory s) (ds_key s) (ds_binding s) (ds_instance s) (S (ds_record_count s)) (ds_poisoned s),
               Ok (mkDurableNonces nonces record, commitment))
          end
      end
  end.
(** The source takes [nonces] by value, so its caller has none left to
    present again; here any caller may present any nonces it ever held. *)
Definition signer_sign (s : DurableCustodySigner) (nonces : DurableSigningNonces) (package : SigningPackage) :
    DurableCustodySigner * result CustodyError SignatureShare :=
  match ready s with
  | (s, Err e) => (s, Err e)
  | (s, Ok _) =>
      let record := dn_record nonces in
      if negb (bool_decide (nr_signer record = ds_binding s)) || negb (bool_decide (nr_instance record = ds_instance s))
      then (s, Err (SigningJournal "nonce belongs to a different signer instance")) else
      if negb (bool_decide (read_journal_file (ds_directory s) (record_name record) 4096 = Ok (nonce_encode record)))
      then (poison s (ds_directory s), Err (SigningJournal "nonce reservation is corrupt, missing, or burned")) else
      match signer_persist s (burn record (blake3 (package_message package))) with
      | (s, Err e) => (s, Err e)
      | (s, Ok _) => (s, round2_sign package (dn_nonces nonces) (ds_key s))
      end
  end.
End CustodySigner.
