(* ===== verification/CustodyNonces.v ===== *)
(** * CustodyNonces: the life of a signer

    A signer opened on its directory, called, failing at any step of a
    write, stopped or crashing, and opened again; its callers may present
    the same nonces as often as they like.  No nonces sign twice, and the
    journal reopens unless its very first opening was torn. *)

From Stdlib Require Import ZArith Lia.
From stdpp Require Import base list gmap sets strings.
From S2P Require Import Prelude Codec Crypto CreditPermit CreditJournal WitnessService Custody CustodyRoster CustodySigner.
Open Scope Z_scope.

(** What [frost_ristretto255] documents: nonces carry the commitments they
    are released with, and commitments are a header and two group elements
    that deserialize to themselves. *)
Class FrostLaws `{FrostSigning} := {
  commitments_of : SigningNonces -> SigningCommitments;
  commit_commitments k rng n c : frost_commit k rng = (n, c) -> c = commitments_of n;
  commitments_small c b : commitments_serialize c = Some b -> Z.of_nat (length b) <= 128 /\ commitments_deserialize b = Some c;
}.

Section Nonces.
Context {P : Primitives} {L : PrimitivesLaws} {F : FrostSigning} {FL : FrostLaws} (key : KeyPackage).

(** ** The life of a signer *)
Record released := mkReleased { rl_nonces : SigningNonces; rl_package : SigningPackage; rl_share : SignatureShare }.
Inductive signer_call := CallCommit (rng : signing_rng) | CallSign (nonces : DurableSigningNonces) (package : SigningPackage).
(** The signer after the call, the nonces handed out and the shares
    released. *)
Definition signer_step (s : DurableCustodySigner) (call : signer_call) : DurableCustodySigner * list DurableSigningNonces * list released :=
  match call with
  | CallCommit rng => match signer_commit s rng with (s, Ok (n, _)) => (s, [n], []) | (s, Err _) => (s, [], []) end
  | CallSign n package => match signer_sign s n package with (s, Ok share) => (s, [], [mkReleased (dn_nonces n) package share]) | (s, Err _) => (s, [], []) end
  end.
(** Nonces are values of a private type: a caller has those it was handed. *)
Definition has_nonces (handed : list DurableSigningNonces) (call : signer_call) : Prop :=
  match call with CallCommit _ => True | CallSign n _ => n ∈ handed end.
Definition tmp_file (name : bytes) : Prop := extension name = Some (lit "tmp").
(** What an interruption can leave of a call that goes from [d] to [d']:
    each file as before or as after, and temporary files. *)
Definition interrupted (d d' d'' : WitnessDirectory) : Prop :=
  forall name, ~ tmp_file name -> wd_states d'' !! name = wd_states d !! name \/ wd_states d'' !! name = wd_states d' !! name.
Definition names_of (d : WitnessDirectory) (listing : list (option bytes)) : Prop := listing ≡ₚ map (Some ∘ fst) (map_to_list (wd_states d)).
Inductive signer_run : WitnessDirectory -> option DurableCustodySigner -> list DurableSigningNonces -> list released -> Prop :=
| sr_fresh replacements : signer_run (mkWitnessDir ∅ replacements) None [] []
| sr_opened d handed out listing instance d' s : signer_run d None handed out -> names_of (with_lock_file d) listing -> length instance = 32%nat ->
    signer_open d false listing (Some instance) key = (d', Ok s) -> signer_run d' (Some s) handed out
| sr_open_interrupted d handed out listing entropy d' res d'' : signer_run d None handed out -> names_of (with_lock_file d) listing ->
    signer_open d false listing entropy key = (d', res) -> interrupted d d' d'' -> signer_run d'' None handed out
| sr_called d s handed out call s' ns shares : signer_run d (Some s) handed out -> has_nonces handed call -> signer_step s call = (s', ns, shares) ->
    signer_run (ds_directory s') (Some s') (handed ++ ns) (out ++ shares)
| sr_call_interrupted d s handed out call s' ns shares d'' : signer_run d (Some s) handed out -> has_nonces handed call ->
    signer_step s call = (s', ns, shares) -> interrupted d (ds_directory s') d'' -> signer_run d'' None handed out
| sr_stopped d s handed out : signer_run d (Some s) handed out -> signer_run d None handed out.

(** ** Records and their names *)
Definition manifest_of_key : bytes := match signer_manifest key with Ok m => m | Err _ => [] end.
Notation M := manifest_of_key.
Record record_wf (r : NonceRecord) : Prop := {
  nw_signer : nr_signer r = blake3 M;
  nw_instance : length (nr_instance r) = 32%nat;
  nw_commitment : Z.of_nat (length (nr_commitment r)) <= 128;
  nw_point : is_Some (commitments_deserialize (nr_commitment r));
  nw_transcript : length (nr_transcript r) = 32%nat;
  nw_unburned : nr_burned r = false -> nr_transcript r = zero32;
}.
Lemma parses_nonce_fields r : record_wf r -> parses nonce_fields (nr_signer r ++ nr_instance r ++ push_bytes (nr_commitment r) ++ w_u8 (if nr_burned r then 1 else 0) ++ nr_transcript r) r.
Proof.
  intros []. unfold nonce_fields, push_bytes. rewrite <- !(assoc_L (++)).
  eapply parses_bind; [apply parses_take; rewrite nw_signer0; apply blake3_length|]. eapply parses_bind; [by apply parses_take|].
  eapply parses_bind; [apply parses_take, length_to_be_bytes|]. eapply parses_bind.
  { apply parses_take. unfold be16. rewrite from_to_be_bytes; [lia|]. change (256 ^ Z.of_nat 2) with (2 ^ 16). lia. }
  eapply parses_bind; [apply parses_u8|]. eapply (parses_lift _ _ _ (nr_burned r)); [by destruct (nr_burned r)|].
  eapply parses_bind_nil; [by apply parses_take|]. destruct r. apply parses_ret.
Qed.
Lemma length_record r : record_wf r -> length (nonce_encode r) = (length NONCE_DOMAIN + 131 + length (nr_commitment r))%nat.
Proof.
  intros []. unfold nonce_encode, record_content, push_bytes, be16. rewrite !length_app, nw_signer0, !blake3_length, length_to_be_bytes, nw_instance0, nw_transcript0, length_w_u8. lia.
Qed.
Lemma nonce_round_trip r : record_wf r -> nonce_decode (nonce_encode r) = Ok r.
Proof.
  intros Hr. pose proof (length_record r Hr) as Hl. unfold nonce_decode. pose proof (blake3_length (record_content r)) as Hb.
  assert (length (nonce_encode r) - 32 = length (record_content r))%nat as El by (unfold nonce_encode; rewrite length_app; lia).
  destruct (Nat.ltb_spec (length (nonce_encode r)) (length NONCE_DOMAIN + 32)) as [|_]; [lia|].
  assert (starts_with NONCE_DOMAIN (nonce_encode r) = true) as ->.
  { apply bool_decide_eq_true_2. unfold nonce_encode, record_content. rewrite <- !(assoc_L (++)). apply take_app_length. }
  cbn [negb orb fail_if mbind result_bind]. cbv zeta. rewrite El. unfold nonce_encode. rewrite take_app_length, drop_app_length, bool_decide_eq_true_2 by done.
  cbn [negb fail_if mbind result_bind]. unfold record_content. rewrite drop_app_length.
  destruct (parses_new _ _ _ (parses_nonce_fields r Hr)) as (rd & -> & Hf). cbn [mbind result_bind]. rewrite Hf. cbn [negb fail_if mbind result_bind].
  assert (negb (nr_burned r) && negb (bool_decide (nr_transcript r = zero32)) = false) as ->.
  { destruct (nr_burned r) eqn:E; [done|]. by rewrite (nw_unburned r Hr E), bool_decide_eq_true_2. }
  cbn [fail_if mbind result_bind]. by destruct (nw_point r Hr) as [c ->].
Qed.
Lemma encode_inj r r' : record_wf r -> record_wf r' -> nonce_encode r = nonce_encode r' -> r = r'.
Proof. intros H%nonce_round_trip H'%nonce_round_trip E. rewrite E in H. congruence. Qed.
Lemma burn_wf r t : record_wf r -> length t = 32%nat -> record_wf (burn r t).
Proof. intros [] Ht. by split. Qed.
Lemma burn_name r t : record_name (burn r t) = record_name r.
Proof. done. Qed.

Lemma record_extension r : extension (record_name r) = Some (lit "nonce").
Proof.
  unfold extension, record_name. set (h := hex_lower _). assert (h <> []) as Hh.
  { unfold h, hex_lower. pose proof (blake3_length (lit "mininet/custody/nonce-name/v1" ++ nr_signer r ++ nr_commitment r)) as Hl.
    destruct (blake3 _); [done|]. cbn. done. }
  rewrite reverse_app. change (reverse (lit ".nonce")) with (lit "ecnon."). cbn.
  destruct (reverse h) as [|x y] eqn:E; [|done]. destruct Hh. rewrite <- (reverse_involutive h), E. done.
Qed.
Lemma binding_extension : extension signer_binding = Some (lit "binding").
Proof. by vm_compute. Qed.
Lemma lock_extension : extension signer_lock = Some (lit "lock").
Proof. by vm_compute. Qed.

(** ** What the directory holds *)
Notation files := (gmap bytes StateEntry).
Definition holds (m : files) (r : NonceRecord) : Prop := m !! record_name r = Some (StateFile (nonce_encode r)).
Definition bound (m : files) : Prop := m !! signer_binding = Some (StateFile M).
Inductive journal_file : bytes -> StateEntry -> Prop :=
| jf_tmp name e : tmp_file name -> journal_file name e
| jf_lock : journal_file signer_lock (StateFile [])
| jf_binding : journal_file signer_binding (StateFile M)
| jf_record r : record_wf r -> journal_file (record_name r) (StateFile (nonce_encode r)).
Lemma same_place m r r' : record_wf r -> record_wf r' -> holds m r -> holds m r' -> record_name r = record_name r' -> r = r'.
Proof. unfold holds. intros Hr Hr' H H' E. rewrite E in H. apply encode_inj; [done|done|congruence]. Qed.
Record journal (m : files) : Prop := {
  jn_files name e : m !! name = Some e -> journal_file name e;
  jn_bound r : record_wf r -> holds m r -> bound m;
}.
Definition populated (m : files) : Prop := exists r, record_wf r /\ holds m r.
(** One call's effect on the directory. *)
Record evolves (m m' : files) : Prop := {
  ev_journal : journal m';
  ev_bound : bound m -> bound m';
  ev_records : populated m' -> bound m;
  ev_burned r : record_wf r -> nr_burned r = true -> holds m r -> holds m' r;
}.
Lemma journal_file_binding e : journal_file signer_binding e -> e = StateFile M.
Proof.
  intros H. remember signer_binding as n eqn:E. destruct H as [n e Ht| | |r]; [|done|done|].
  - unfold tmp_file in Ht. rewrite E, binding_extension in Ht. discriminate.
  - pose proof (record_extension r) as Hr. rewrite E, binding_extension in Hr. discriminate.
Qed.
Lemma journal_file_record r e : journal_file (record_name r) e -> exists r', record_wf r' /\ record_name r' = record_name r /\ e = StateFile (nonce_encode r').
Proof.
  intros H. pose proof (record_extension r) as Hx. remember (record_name r) as n eqn:E. destruct H as [n e Ht| | |r' Hr'].
  - unfold tmp_file in Ht. rewrite Ht in Hx. discriminate.
  - rewrite lock_extension in Hx. discriminate.
  - rewrite binding_extension in Hx. discriminate.
  - eauto.
Qed.
Lemma evolves_refl m : journal m -> evolves m m.
Proof. intros H. split; [done|done| |done]. intros (r & Hr & Hh). by apply (jn_bound m H r). Qed.
Lemma evolves_trans m1 m2 m3 : journal m1 -> evolves m1 m2 -> evolves m2 m3 -> (populated m3 -> populated m2) -> evolves m1 m3.
Proof. intros J [J1 B1 R1 N1] [J2 B2 R2 N2] Hp. split; [done|auto|auto|auto]. Qed.
(** A record file is written where the same reservation, unburned, was or
    nothing was. *)
Lemma evolves_record m r : journal m -> bound m -> record_wf r ->
  (forall r', record_wf r' -> nr_burned r' = true -> record_name r' = record_name r -> ~ holds m r') ->
  evolves m (<[record_name r := StateFile (nonce_encode r)]> m).
Proof.
  intros J Hb Hr Hn. assert (record_name r <> signer_binding) as Hne.
  { intros E. pose proof (record_extension r) as Hx. rewrite E, binding_extension in Hx. discriminate. }
  split.
  - split.
    + intros name e H. destruct (decide (record_name r = name)) as [<-|]; [rewrite lookup_insert_eq in H; injection H as <-; by apply jf_record|].
      rewrite lookup_insert_ne in H by done. by apply (jn_files m J).
    + intros r' _ _. unfold bound. by rewrite lookup_insert_ne.
  - intros _. unfold bound. by rewrite lookup_insert_ne.
  - done.
  - intros r' Hr' Hb' Hh. unfold holds. destruct (decide (record_name r = record_name r')) as [E|]; [|by rewrite lookup_insert_ne].
    by destruct (Hn r' Hr' Hb').
Qed.
Lemma evolves_binding m : journal m -> evolves m (<[signer_binding := StateFile M]> m).
Proof.
  intros J. assert (forall r, signer_binding <> record_name r) as Hne.
  { intros r E. pose proof (record_extension r) as Hx. rewrite <- E, binding_extension in Hx. discriminate. }
  split.
  - split.
    + intros name e H. destruct (decide (signer_binding = name)) as [<-|]; [rewrite lookup_insert_eq in H; injection H as <-; by apply jf_binding|].
      rewrite lookup_insert_ne in H by done. by apply (jn_files m J).
    + intros r _ _. apply lookup_insert_eq.
  - intros _. apply lookup_insert_eq.
  - intros (r & Hr & Hh). apply (jn_bound m J r Hr). unfold holds in *. by rewrite lookup_insert_ne in Hh.
  - intros r _ _ Hh. unfold holds. by rewrite lookup_insert_ne.
Qed.
Lemma evolves_interrupted d d' d'' : journal (wd_states d) -> evolves (wd_states d) (wd_states d') -> interrupted d d' d'' -> evolves (wd_states d) (wd_states d'').
Proof.
  intros J [J' B R N] Hi. unfold interrupted in Hi. set (m := wd_states d) in *. set (m' := wd_states d') in *. set (m'' := wd_states d'') in *.
  assert (~ tmp_file signer_binding) as Htb by (unfold tmp_file; by rewrite binding_extension).
  assert (forall r, ~ tmp_file (record_name r)) as Htr by (intros r; unfold tmp_file; by rewrite record_extension).
  assert (bound m -> bound m'') as Hbb by (intros Hb; unfold bound; destruct (Hi signer_binding Htb) as [->| ->]; [exact Hb|exact (B Hb)]).
  assert (populated m'' -> bound m) as Hpb.
  { intros (r & Hr & Hh). unfold holds in Hh. destruct (Hi _ (Htr r)) as [E|E]; rewrite E in Hh; [by apply (jn_bound m J r)|]. apply R. by exists r. }
  split; [split| | |].
  - intros name e H. destruct (decide (extension name = Some (lit "tmp"))) as [|Ht]; [by apply jf_tmp|].
    destruct (Hi name Ht) as [E|E]; rewrite E in H; [by apply (jn_files m J)|by apply (jn_files m' J')].
  - intros r Hr Hh. apply Hbb, Hpb. by exists r.
  - done.
  - done.
  - intros r Hr Hb Hh. specialize (N r Hr Hb Hh). unfold holds in *. by destruct (Hi _ (Htr r)) as [->| ->].
Qed.

(** ** The writes *)
Lemma replace_file_outcome d name b d' res : replace_file d name b = (d', res) ->
  (wd_states d' = wd_states d /\ exists e, res = Err e) \/ wd_states d' = <[name := StateFile b]> (wd_states d).
Proof.
  unfold replace_file, replace_state. intros H.
  destruct (wd_states d !! name) as [[]|], (wd_replacements d) as [|[[]|] rs]; cbn in H; injection H as <- <-; cbn; eauto.
Qed.
Lemma replace_ok d name b d' : replace_file d name b = (d', Ok tt) -> wd_states d' = <[name := StateFile b]> (wd_states d).
Proof. intros H. apply replace_file_outcome in H as [[_ [e He]]|]; done. Qed.
Lemma replace_evolves d name b d' res : replace_file d name b = (d', res) -> journal (wd_states d) ->
  evolves (wd_states d) (<[name := StateFile b]> (wd_states d)) -> evolves (wd_states d) (wd_states d').
Proof. intros H J He. apply replace_file_outcome in H as [[-> _]| ->]; [by apply evolves_refl|done]. Qed.

(** ** The calls *)
Record alive (s : DurableCustodySigner) : Prop := {
  av_key : ds_key s = key;
  av_binding : ds_binding s = blake3 M;
  av_instance : length (ds_instance s) = 32%nat;
}.
Definition nonces_wf (n : DurableSigningNonces) : Prop :=
  record_wf (dn_record n) /\ nr_burned (dn_record n) = false /\ commitments_serialize (commitments_of (dn_nonces n)) = Some (nr_commitment (dn_record n)).
Notation dir s := (wd_states (ds_directory s)).
Lemma read_ok d name limit b : read_journal_file d name limit = Ok b <-> wd_states d !! name = Some (StateFile b) /\ (length b <= limit)%nat.
Proof.
  unfold read_journal_file. destruct (wd_states d !! name) as [[b'| |]|]; [|naive_solver..].
  destruct (Nat.ltb_spec limit (length b')); cbn; split; [done|intros [[= ->] ?]; lia|by intros [= ->]|naive_solver].
Qed.
Lemma alive_poison s d : alive s -> alive (poison s d).
Proof. intros []. by split. Qed.
Lemma signer_ready s s' res : alive s -> journal (dir s) -> ready s = (s', res) ->
  ds_directory s' = ds_directory s /\ alive s' /\ (res = Ok tt -> s' = s /\ bound (dir s)).
Proof.
  intros A J. unfold ready. destruct (ds_poisoned s); [by intros [= <- <-]|].
  destruct (read_journal_file _ _ _) as [b|] eqn:E; [|intros [= <- <-]; repeat split; [by apply alive_poison..|done|done]].
  case_bool_decide; intros [= <- <-]; [|repeat split; [by apply alive_poison..|done|done]].
  split; [done|]. split; [done|]. intros _. split; [done|]. apply read_ok in E as [E _]. pose proof (jn_files _ J _ _ E) as He%journal_file_binding.
  unfold bound. by rewrite E, He.
Qed.
Lemma persist_spec s r s' res : alive s -> journal (dir s) -> signer_persist s r = (s', res) ->
  evolves (dir s) (<[record_name r := StateFile (nonce_encode r)]> (dir s)) ->
  alive s' /\ evolves (dir s) (dir s') /\ (res = Ok tt -> holds (dir s') r).
Proof.
  intros A J H He. unfold signer_persist in H. destruct (replace_file _ _ _) as [d [[]|e]] eqn:E.
  - injection H as <- <-. split; [by destruct A|]. cbn. split; [by eapply replace_evolves|]. intros _. unfold holds. rewrite (replace_ok _ _ _ _ E). apply lookup_insert_eq.
  - injection H as <- <-. split; [by apply alive_poison|]. split; [by eapply replace_evolves|done].
Qed.
Lemma commit_spec s rng s' res : alive s -> journal (dir s) -> signer_commit s rng = (s', res) ->
  alive s' /\ evolves (dir s) (dir s') /\ (forall n c, res = Ok (n, c) -> nonces_wf n).
Proof.
  intros A J. unfold signer_commit. destruct (ready s) as [s1 [[]|e]] eqn:R; pose proof (signer_ready _ _ _ A J R) as (Hd & A1 & Hok).
  2:{ intros [= <- <-]. rewrite Hd. split; [done|]. split; [by apply evolves_refl|done]. }
  destruct (Hok eq_refl) as [-> Hb]. destruct (_ <=? _)%nat; [intros [= <- <-]; split; [done|]; split; [by apply evolves_refl|done]|].
  destruct (frost_commit (ds_key s) rng) as [n c] eqn:Ec. apply commit_commitments in Ec as ->.
  destruct (commitments_serialize (commitments_of n)) as [b|] eqn:Es; [|intros [= <- <-]; split; [done|]; split; [by apply evolves_refl|done]].
  set (r := mkNonceRecord _ _ _ _ _). assert (record_wf r) as Hr.
  { apply commitments_small in Es as [Hl Hde]. split; cbn; [apply (av_binding s A)|apply (av_instance s A)|done|by rewrite Hde|done|done]. }
  unfold exists_file. case_bool_decide as Hx; [intros [= <- <-]; split; [done|]; split; [by apply evolves_refl|done]|].
  destruct (signer_persist s r) as [s2 [[]|e]] eqn:Ep; intros [= <- <-];
    (apply persist_spec in Ep as (A2 & E2 & _); [|done|done|apply evolves_record; [done..|]; intros r' _ _ En Hh; apply Hx; unfold holds in Hh; rewrite En in Hh; by rewrite Hh]);
    [|by split]. split; [by destruct A2|]. split; [done|]. intros n' c' [= <- <-]. by split.
Qed.
Lemma sign_spec s n package s' res : alive s -> journal (dir s) -> nonces_wf n -> signer_sign s n package = (s', res) ->
  alive s' /\ evolves (dir s) (dir s') /\
  (forall share, res = Ok share -> holds (dir s) (dn_record n) /\ holds (dir s') (burn (dn_record n) (blake3 (package_message package)))).
Proof.
  intros A J (Hn & Hu & Hs). unfold signer_sign. destruct (ready s) as [s1 [[]|e]] eqn:R; pose proof (signer_ready _ _ _ A J R) as (Hd & A1 & Hok).
  2:{ intros [= <- <-]. rewrite Hd. split; [done|]. split; [by apply evolves_refl|done]. }
  destruct (Hok eq_refl) as [-> Hb]. destruct (_ || _); [intros [= <- <-]; split; [done|]; split; [by apply evolves_refl|done]|].
  case_bool_decide as Hrd; cbn [negb]; [|intros [= <- <-]; split; [by apply alive_poison|]; split; [by apply evolves_refl|done]].
  apply read_ok in Hrd as [Hh _]. fold (holds (dir s) (dn_record n)) in Hh.
  set (r := burn _ _). assert (record_wf r) as Hr by (apply burn_wf; [done|apply blake3_length]).
  destruct (signer_persist s r) as [s2 [[]|e]] eqn:Ep;
    (apply persist_spec in Ep as (A2 & E2 & H2); [|done|done|apply evolves_record; [done..|]; intros r' Hr' Hb' En Hh'; assert (r' = dn_record n) as -> by (by eapply same_place); congruence]).
  - intros [= <- <-]. split; [done|]. split; [done|]. intros share _. by split; [|apply H2].
  - intros [= <- <-]. split; [done|]. split; [done|]. done.
Qed.

(** ** Opening *)
(** No reservation appears. *)
Definition repopulates (m m' : files) : Prop :=
  evolves m m' /\ forall r, record_wf r -> holds m' r -> exists r0, record_wf r0 /\ record_name r0 = record_name r /\ holds m r0.
Lemma repopulates_trans m1 m2 m3 : journal m1 -> repopulates m1 m2 -> repopulates m2 m3 -> repopulates m1 m3.
Proof.
  intros J [E1 P1] [E2 P2]. split.
  - eapply evolves_trans; [done..|]. intros (r & Hr & Hh). destruct (P2 r Hr Hh) as (r0 & ? & _ & ?). by exists r0.
  - intros r Hr Hh. destruct (P2 r Hr Hh) as (r2 & H2 & N2 & Hh2). destruct (P1 r2 H2 Hh2) as (r1 & H1 & N1 & Hh1). exists r1. by rewrite N1.
Qed.
Lemma repopulates_refl m : journal m -> repopulates m m.
Proof. intros J. split; [by apply evolves_refl|]. intros r Hr Hh. by exists r. Qed.
Lemma repopulates_other m name e : journal m -> journal_file name e -> (forall r, name <> record_name r) -> (name = signer_binding -> e = StateFile M) ->
  repopulates m (<[name := e]> m).
Proof.
  intros J Hf Hne Hb.
  assert (forall r, holds (<[name := e]> m) r <-> holds m r) as Hr by (intros r; unfold holds; by rewrite lookup_insert_ne).
  assert (bound m -> bound (<[name := e]> m)) as Hbb.
  { intros H. unfold bound. destruct (decide (name = signer_binding)) as [->|]; [rewrite lookup_insert_eq; f_equal; auto|by rewrite lookup_insert_ne]. }
  split; [split|].
  - split.
    + intros n e' H. destruct (decide (name = n)) as [<-|]; [rewrite lookup_insert_eq in H; by injection H as <-|].
      rewrite lookup_insert_ne in H by done. by apply (jn_files m J).
    + intros r Hw H%Hr. by apply Hbb, (jn_bound m J r).
  - done.
  - intros (r & Hw & H%Hr). by apply (jn_bound m J r).
  - intros r _ _ H. by apply Hr.
  - intros r Hw H%Hr. by exists r.
Qed.
Lemma other_name name : extension name <> Some (lit "nonce") -> forall r, name <> record_name r.
Proof. intros H r E. apply H. rewrite E. apply record_extension. Qed.
Lemma binding_other r : signer_binding <> record_name r.
Proof. refine (other_name signer_binding _ r). by rewrite binding_extension. Qed.
Lemma lock_other r : signer_lock <> record_name r.
Proof. refine (other_name signer_lock _ r). by rewrite lock_extension. Qed.
Lemma lock_opens d : journal (wd_states d) -> repopulates (wd_states d) (wd_states (with_lock_file d)).
Proof.
  intros J. unfold with_lock_file. destruct (exists_file d signer_lock); [by apply repopulates_refl|].
  apply repopulates_other; [done|apply jf_lock|exact lock_other|intros E; discriminate (f_equal length E)].
Qed.
Lemma write_binding d d' res : journal (wd_states d) -> replace_file d signer_binding M = (d', res) -> repopulates (wd_states d) (wd_states d').
Proof.
  intros J H. apply replace_file_outcome in H as [[-> _]| ->]; [by apply repopulates_refl|].
  apply repopulates_other; [done|apply jf_binding|exact binding_other|done].
Qed.
Lemma check_repopulates d n d' res : journal (wd_states d) -> check_binding d M n = (d', res) -> repopulates (wd_states d) (wd_states d').
Proof.
  intros J. unfold check_binding. destruct (read_journal_file _ _ _); [intros [= <- _]; by apply repopulates_refl|].
  destruct (exists_file _ _); [intros [= <- _]; by apply repopulates_refl|]. destruct (negb _); [intros [= <- _]; by apply repopulates_refl|].
  by apply write_binding.
Qed.

Lemma check_states d n d' : check_binding d M n = (d', Ok tt) -> wd_states d' = wd_states d \/ wd_states d' = <[signer_binding := StateFile M]> (wd_states d).
Proof.
  unfold check_binding. destruct (read_journal_file _ _ _); [intros [= <- _]; by left|].
  destruct (exists_file _ _); [done|]. destruct (negb _); [done|]. intros H%replace_ok. by right.
Qed.

(** The records a listing gives: those on disk, each once. *)
Definition loaded (d : WitnessDirectory) (names : list (option bytes)) (records : list NonceRecord) : Prop :=
  Forall (fun r => record_wf r /\ holds (wd_states d) r) records /\ map (Some ∘ record_name) records ⊆+ names.
Lemma entry_loaded d acc n records entry n' records' : journal (wd_states d) -> acc = (n, records) ->
  journal_entry d (blake3 M) acc entry = Ok (n', records') ->
  n' = S n /\ (records' = records \/ exists r, record_wf r /\ holds (wd_states d) r /\ entry = Some (record_name r) /\ records' = records ++ [r]).
Proof.
  intros J -> H. unfold journal_entry in H. destruct entry as [name|]; [|discriminate H]. cbn [ok_or mbind result_bind] in H.
  destruct (_ <? _)%nat; [discriminate H|]. cbn [fail_if mbind result_bind] in H.
  destruct (_ || _); [injection H as <- <-; split; [done|by left]|]. case_bool_decide; [injection H as <- <-; split; [done|by left]|].
  destruct (negb _); [discriminate H|]. apply bind_ok in H as (b & [Hf _]%read_ok & H). apply bind_ok in H as (record & Hd & H).
  apply bind_ok in H as (u & Hg%fail_if_ok & [= <- <-]). apply orb_false_iff in Hg as [_ En]. apply negb_false_iff, bool_decide_eq_true in En.
  pose proof (jn_files _ J _ _ Hf) as Hj. rewrite En in Hj. apply journal_file_record in Hj as (r & Hr & Enr & [= ->]).
  rewrite (nonce_round_trip r Hr) in Hd. injection Hd as <-.
  split; [done|]. right. exists r. unfold holds. rewrite <- En. done.
Qed.
Lemma listing_loaded d listing : journal (wd_states d) -> forall n records n' records',
  foldM (journal_entry d (blake3 M)) (n, records) listing = Ok (n', records') ->
  n' = (n + length listing)%nat /\ exists new, records' = records ++ new /\ loaded d listing new.
Proof.
  intros J. induction listing as [|e listing IH]; intros n records n' records' H; cbn [foldM] in H.
  - injection H as <- <-. split; [cbn [length]; lia|]. exists []. rewrite app_nil_r. split; [done|]. split; [constructor|apply submseteq_nil_l].
  - apply bind_ok in H as ([n1 r1] & H1 & H). apply IH in H as (-> & new & -> & Hf & Hs).
    eapply entry_loaded in H1 as (-> & [->|(r & Hr & Hh & -> & ->)]); [..|done|done]; (split; [cbn [length]; lia|]).
    + exists new. split; [done|]. split; [done|]. by apply submseteq_cons.
    + exists (r :: new). rewrite <- (assoc_L (++)). split; [done|]. split; [by constructor|]. cbn [map]. by apply submseteq_skip.
Qed.
Lemma submseteq_NoDup {A} (l k : list A) : l ⊆+ k -> NoDup k -> NoDup l.
Proof. intros [rest ->]%submseteq_Permutation Hk. by apply NoDup_app in Hk as [? _]. Qed.
Lemma loaded_names d listing new : names_of d listing -> loaded d listing new -> NoDup (map record_name new).
Proof.
  intros Hn [_ Hs]. apply (NoDup_fmap_1 Some). change (NoDup (map Some (map record_name new))). rewrite map_map.
  apply (submseteq_NoDup _ _ Hs). rewrite Hn. unfold compose. rewrite <- (map_map fst Some). apply (NoDup_fmap Some), NoDup_fst_map_to_list.
Qed.

Lemma burn_all_spec records : forall d d' res, journal (wd_states d) -> bound (wd_states d) -> Forall (fun r => record_wf r /\ holds (wd_states d) r) records ->
  NoDup (map record_name records) -> burn_all d records = (d', res) -> repopulates (wd_states d) (wd_states d').
Proof.
  induction records as [|r records IH]; intros d d' res J Hb Hf Hn H; cbn [burn_all] in H; [injection H as <- <-; by apply repopulates_refl|].
  apply Forall_cons in Hf as [[Hr Hh] Hf]. cbn [map] in Hn. apply NoDup_cons in Hn as [Hx Hn].
  destruct (nr_burned r) eqn:Eb; [by eapply IH|].
  set (r' := burn r (nr_transcript r)) in *. assert (record_wf r') as Hr' by (apply burn_wf, nw_transcript; done).
  destruct (replace_file d (record_name r) (nonce_encode r')) as [d1 out] eqn:E.
  assert (evolves (wd_states d) (wd_states d1)) as E1.
  { eapply (replace_evolves d (record_name r') _ _ _ E J), evolves_record; [done..|]. intros q Hq Hqb Eq Hqh.
    assert (q = r) as -> by (by eapply same_place). congruence. }
  assert (repopulates (wd_states d) (wd_states d1)) as R1.
  { split; [done|]. intros q Hq Hqh. destruct (decide (record_name r = record_name q)) as [Eq|Hne]; [by exists r|]. exists q. split; [done|]. split; [done|].
    unfold holds in Hqh. apply replace_file_outcome in E as [[E _]|E]; rewrite E in Hqh; [done|]. by rewrite lookup_insert_ne in Hqh. }
  destruct out as [[]|e]; [|by injection H as <- <-]. eapply repopulates_trans; [done|exact R1|].
  apply IH in H; [done|by apply ev_journal in E1|by apply (ev_bound _ _ E1)| |done].
  apply Forall_forall. intros q Hq. rewrite Forall_forall in Hf. destruct (Hf q Hq) as [Hqw Hqh]. split; [done|].
  unfold holds. rewrite (replace_ok _ _ _ _ E), lookup_insert_ne; [done|]. intros Eq. apply Hx. apply list_elem_of_fmap. eauto.
Qed.
Lemma open_spec d listing entropy d' res : journal (wd_states d) -> names_of (with_lock_file d) listing -> signer_open d false listing entropy key = (d', res) ->
  repopulates (wd_states d) (wd_states d') /\ (forall s, res = Ok s -> ds_directory s = d' /\ ds_key s = key /\ ds_binding s = blake3 M /\ entropy = Some (ds_instance s)).
Proof.
  intros J Hl H. unfold signer_open in H. pose proof (lock_opens d J) as R0. set (d0 := with_lock_file d) in *.
  assert (journal (wd_states d0)) as J0 by apply R0.
  assert (signer_manifest key = Ok M \/ exists e, signer_manifest key = Err e) as [EM|[e EM]] by (unfold manifest_of_key; destruct (signer_manifest key); eauto);
    rewrite EM in H; [|by injection H as <- <-].
  destruct (foldM _ _ _) as [[n records]|] eqn:E; [|by injection H as <- <-].
  apply listing_loaded in E as [-> (new & -> & Hnew)]; [|done]. cbn [app] in H. pose proof (loaded_names _ _ _ Hl Hnew) as Hnd.
  destruct (check_binding d0 M _) as [d1 o1] eqn:E1. pose proof (check_repopulates _ _ _ _ J0 E1) as R1. assert (journal (wd_states d1)) as J1 by apply R1.
  assert (repopulates (wd_states d) (wd_states d1)) as R01 by (by eapply repopulates_trans).
  destruct o1 as [[]|]; [|by injection H as <- <-].
  destruct (replace_file d1 _ _) as [d2 o2] eqn:E2. pose proof (write_binding _ _ _ J1 E2) as R2. assert (journal (wd_states d2)) as J2 by apply R2.
  assert (repopulates (wd_states d) (wd_states d2)) as R02 by (by eapply repopulates_trans).
  destruct o2 as [[]|]; [|by injection H as <- <-].
  assert (bound (wd_states d2)) as B2 by (unfold bound; rewrite (replace_ok _ _ _ _ E2); apply lookup_insert_eq).
  destruct (burn_all d2 new) as [d3 o3] eqn:E3.
  apply burn_all_spec in E3 as R3; [|done|done| |done].
  - assert (repopulates (wd_states d) (wd_states d3)) as R03 by (by eapply repopulates_trans). destruct o3 as [[]|]; injection H as <- <-; (split; [done|]); [|done].
    intros s Hs. apply bind_ok in Hs as (i & Hi%ok_or_ok & [= <-]). done.
  - apply check_states in E1. apply replace_ok in E2. destruct Hnew as [Hnew _]. apply (Forall_impl _ _ _ Hnew). intros r [Hr Hh]. split; [done|].
    unfold holds in *. rewrite E2, lookup_insert_ne by exact (binding_other r). destruct E1 as [->| ->]; [done|].
    by rewrite lookup_insert_ne by exact (binding_other r).
Qed.

(** ** Any life *)
Definition released_burned (m : files) (x : released) : Prop :=
  exists r, record_wf r /\ nr_burned r = true /\ nr_transcript r = blake3 (package_message (rl_package x)) /\
    commitments_serialize (commitments_of (rl_nonces x)) = Some (nr_commitment r) /\ holds m r.
Record signer_inv (d : WitnessDirectory) (live : option DurableCustodySigner) (handed : list DurableSigningNonces) (out : list released) : Prop := {
  sv_journal : journal (wd_states d);
  sv_handed : Forall nonces_wf handed;
  sv_out x : x ∈ out -> released_burned (wd_states d) x;
  sv_once : NoDup (map rl_nonces out);
  sv_live s : live = Some s -> ds_directory s = d /\ alive s;
}.
Lemma released_kept m m' x : evolves m m' -> released_burned m x -> released_burned m' x.
Proof. intros E (r & Hr & Hb & Ht & Hc & Hh). exists r. split; [done|]. split; [done|]. split; [done|]. split; [done|]. by apply (ev_burned _ _ E). Qed.
Lemma step_inv s handed out call s' ns shares : signer_inv (ds_directory s) (Some s) handed out -> has_nonces handed call -> signer_step s call = (s', ns, shares) ->
  evolves (dir s) (dir s') /\ signer_inv (ds_directory s') (Some s') (handed ++ ns) (out ++ shares).
Proof.
  intros [J Hh Ho Hn Hl] Hc H. destruct (Hl s eq_refl) as [_ A]. destruct call as [rng|n package]; cbn [signer_step has_nonces] in *.
  - destruct (signer_commit s rng) as [s1 res] eqn:E. apply commit_spec in E as (A1 & E1 & Hns); [|done|done].
    assert (s1 = s' /\ shares = [] /\ Forall nonces_wf ns) as (<- & -> & Hw).
    { destruct res as [[n c]|]; injection H as <- <- <-; [|done]. split; [done|]. split; [done|]. constructor; [by eapply Hns|done]. }
    split; [done|]. rewrite app_nil_r. split; [by apply E1|by apply Forall_app|intros x Hx; by eapply released_kept, Ho|done|by intros ? [= <-]].
  - rewrite Forall_forall in Hh. pose proof (Hh n Hc) as Hw. destruct (signer_sign s n package) as [s1 res] eqn:E. apply sign_spec in E as (A1 & E1 & Hsh); [|done..].
    assert (s1 = s' /\ ns = []) as [<- ->] by (destruct res; by injection H as <- <- <-).
    split; [done|]. rewrite app_nil_r. split; [by apply E1|by apply Forall_forall| | |by intros ? [= <-]].
    + intros x [Hx|Hx]%elem_of_app; [by eapply released_kept, Ho|]. destruct res as [share|]; injection H as <-; [|by apply elem_of_nil in Hx].
      apply list_elem_of_singleton in Hx as ->. destruct (Hsh share eq_refl) as [_ Hb]. destruct Hw as (Hr & _ & Hs).
      exists (burn (dn_record n) (blake3 (package_message package))). split; [apply burn_wf; [done|apply blake3_length]|]. done.
    + rewrite map_app. apply NoDup_app. destruct res as [share|]; injection H as <-; cbn; [|split; [done|]; split; [by intros ? _ ?%elem_of_nil|constructor]].
      split; [done|]. split; [|apply NoDup_singleton]. intros k (x & -> & Hx)%list_elem_of_fmap Hk%list_elem_of_singleton. cbn in Hk.
      destruct (Hsh share eq_refl) as [Hb _]. destruct Hw as (Hr & Hu & Hs). destruct (Ho x Hx) as (r & Hr' & Hb' & _ & Hs' & Hh').
      rewrite Hk, Hs in Hs'. injection Hs' as Hs'. assert (r = dn_record n) as ->; [|congruence].
      eapply same_place; [done..|]. unfold record_name. by rewrite (nw_signer _ Hr), (nw_signer _ Hr'), Hs'.
Qed.
Lemma inv_directory d live handed out d' : signer_inv d live handed out -> evolves (wd_states d) (wd_states d') -> signer_inv d' None handed out.
Proof. intros [J Hh Ho Hn Hl] E. split; [by apply E|done|intros x Hx; by eapply released_kept, Ho|done|done]. Qed.
Lemma signer_run_inv d live handed out : signer_run d live handed out -> signer_inv d live handed out.
Proof.
  induction 1 as [reps|d handed out listing instance d' s _ IH Hl Hi Ho|d handed out listing entropy d' res d'' _ IH Hl Ho Hd
    |d s handed out call s' ns shares _ IH Hc Hs|d s handed out call s' ns shares d'' _ IH Hc Hs Hd|d s handed out _ IH].
  - split; [split|constructor|by intros x ?%elem_of_nil|constructor|done]; cbn.
    + intros name e H. by rewrite lookup_empty in H.
    + intros r _ H. unfold holds in H. by rewrite lookup_empty in H.
  - apply open_spec in Ho as [[E _] Hs]; [|apply IH|done]. destruct (Hs s eq_refl) as (Hd & Hk & Hb & [= Hinst]).
    destruct (inv_directory _ _ _ _ _ IH E) as [J Hh Ho Hn _]. split; [done..|]. intros ? [= <-]. split; [done|]. split; [done|done|by rewrite <- Hinst].
  - apply open_spec in Ho as [[E _] _]; [|apply IH|done]. eapply inv_directory; [exact IH|]. eapply evolves_interrupted; [apply IH|done|done].
  - destruct (sv_live _ _ _ _ IH s eq_refl) as [<- _]. by destruct (step_inv _ _ _ _ _ _ _ IH Hc Hs).
  - destruct (sv_live _ _ _ _ IH s eq_refl) as [<- _]. destruct (step_inv _ _ _ _ _ _ _ IH Hc Hs) as [E _].
    eapply inv_directory; [exact IH|]. eapply evolves_interrupted; [apply IH|done|done].
  - eapply inv_directory; [exact IH|]. apply evolves_refl, IH.
Qed.

(** C8: No nonces ever sign twice.  Over any life of a signer's directory
    (openings, reservations and signings in any order, every write failing
    at any step, crashes in the middle of any call, and callers that present
    the same nonces as often as they like), the shares it released used
    pairwise different nonces, and the reservation behind each is burned on
    disk with the digest of the message it signed. *)
Theorem nonces_sign_once d live handed out : signer_run d live handed out ->
  NoDup (map rl_nonces out) /\ forall x, x ∈ out -> released_burned (wd_states d) x.
Proof. intros H%signer_run_inv. split; apply H. Qed.

(** ** Reopening *)
(** The next [n] replacements succeed. *)
Definition plenty (n : nat) (d : WitnessDirectory) : Prop := exists rest, wd_replacements d = replicate n None ++ rest.
Lemma plenty_le n k d : (k <= n)%nat -> plenty n d -> plenty k d.
Proof.
  intros Hle [rest H]. exists (replicate (n - k) None ++ rest). rewrite (assoc_L (++)), <- replicate_add, H. do 2 f_equal. lia.
Qed.
Lemma replace_succeeds n d name b : plenty (S n) d -> wd_states d !! name <> Some StateDirectory -> exists d', replace_file d name b = (d', Ok tt) /\ plenty n d'.
Proof.
  intros [rest H] Hd. unfold replace_file, replace_state. rewrite H. cbn [replicate app].
  destruct (wd_states d !! name) as [[]|]; try done; eexists; (split; [done|]); by exists rest.
Qed.
Lemma file_not_directory m name : journal m -> ~ tmp_file name -> m !! name <> Some StateDirectory.
Proof. intros J Ht H. pose proof (jn_files m J _ _ H) as Hj. inversion Hj; subst; try done. Qed.
Lemma not_tmp_record r : ~ tmp_file (record_name r).
Proof. unfold tmp_file. by rewrite record_extension. Qed.
Lemma not_tmp_binding : ~ tmp_file signer_binding.
Proof. unfold tmp_file. by rewrite binding_extension. Qed.

Lemma entry_ok d n records name e : journal (wd_states d) -> wd_states d !! name = Some e -> (S n <= MAX_DURABLE_NONCE_RECORDS + 2)%nat ->
  exists records', journal_entry d (blake3 M) (n, records) (Some name) = Ok (S n, records') /\
    (forall r, r ∈ records -> r ∈ records') /\ (forall r, record_wf r -> name = record_name r -> holds (wd_states d) r -> r ∈ records').
Proof.
  intros J He Hn. unfold journal_entry. cbn [ok_or mbind result_bind].
  destruct (Nat.ltb_spec (MAX_DURABLE_NONCE_RECORDS + 2) (S n)) as [|_]; [exfalso; clear - Hn H; lia|]. cbn [fail_if mbind result_bind].
  pose proof (jn_files _ J _ _ He) as Hj. inversion Hj as [name' e' Ht Hn1 Hn2|Hn1|Hn1|r Hr Hn1]; subst.
  - destruct (_ || _); [exists records; split; [done|split; [done|]]; intros r _ -> _; by destruct (not_tmp_record r)|].
    rewrite (bool_decide_eq_true_2 _ Ht). exists records. split; [done|]. split; [done|]. intros r _ -> _. by destruct (not_tmp_record r).
  - rewrite (bool_decide_eq_true_2 (signer_lock = signer_lock) eq_refl), orb_true_r. exists records. split; [done|]. split; [done|]. intros r _ E. by destruct (lock_other r).
  - rewrite (bool_decide_eq_true_2 (signer_binding = signer_binding) eq_refl). exists records. split; [done|]. split; [done|]. intros r _ E. by destruct (binding_other r).
  - rewrite (bool_decide_eq_false_2 (record_name r = signer_binding)) by (intros E; by destruct (binding_other r)).
    rewrite (bool_decide_eq_false_2 (record_name r = signer_lock)) by (intros E; by destruct (lock_other r)). cbn [orb].
    rewrite (bool_decide_eq_false_2 _ (not_tmp_record r)), record_extension, bool_decide_eq_true_2 by done. cbn [negb].
    assert (read_journal_file d (record_name r) 4096 = Ok (nonce_encode r)) as ->.
    { apply read_ok. split; [done|]. rewrite (length_record r Hr). pose proof (nw_commitment r Hr). change (length NONCE_DOMAIN) with 31%nat. lia. }
    cbn [mbind result_bind]. rewrite (nonce_round_trip r Hr). cbn [mbind result_bind]. rewrite (nw_signer r Hr), !bool_decide_eq_true_2 by done. cbn [negb orb fail_if mbind result_bind].
    exists (records ++ [r]). split; [done|]. split; [intros q Hq; apply elem_of_app; by left|]. intros r' Hr' E Hh.
    assert (r' = r) as -> by (by eapply same_place). apply elem_of_app. right. by apply list_elem_of_singleton.
Qed.
Lemma listing_ok d listing : journal (wd_states d) -> (forall name, Some name ∈ listing -> is_Some (wd_states d !! name)) -> None ∉ listing ->
  forall n records, (n + length listing <= MAX_DURABLE_NONCE_RECORDS + 2)%nat ->
  exists records', foldM (journal_entry d (blake3 M)) (n, records) listing = Ok ((n + length listing)%nat, records') /\
    (forall r, r ∈ records -> r ∈ records') /\ (forall r, record_wf r -> Some (record_name r) ∈ listing -> holds (wd_states d) r -> r ∈ records').
Proof.
  intros J. induction listing as [|[name|] listing IH]; intros Hs Hnone n records Hn; cbn [foldM length] in *.
  - exists records. rewrite Nat.add_0_r. split; [done|]. split; [done|]. by intros r _ ?%elem_of_nil.
  - destruct (Hs name (list_elem_of_here _ _)) as [e He].
    assert (S n <= MAX_DURABLE_NONCE_RECORDS + 2)%nat as Hn' by (clear - Hn; lia).
    destruct (entry_ok d n records name e J He Hn') as (r1 & -> & Hk & Hnew). cbn [mbind result_bind].
    destruct (IH (fun name' H => Hs name' (list_elem_of_further _ _ _ H)) (fun H => Hnone (list_elem_of_further _ _ _ H)) (S n) r1 ltac:(clear - Hn; lia)) as (r2 & -> & Hk2 & Hnew2).
    exists r2. split; [do 2 f_equal; lia|]. split; [auto|]. intros r Hr [E|Hin]%elem_of_cons Hh; [|auto]. injection E as E. auto.
  - destruct Hnone. apply list_elem_of_here.
Qed.
Lemma burn_all_ok records : forall d, journal (wd_states d) -> bound (wd_states d) -> Forall (fun r => record_wf r /\ holds (wd_states d) r) records ->
  NoDup (map record_name records) -> plenty (length records) d -> exists d', burn_all d records = (d', Ok tt).
Proof.
  induction records as [|r records IH]; intros d J Hb Hf Hn Hp; cbn [burn_all]; [by eexists|].
  apply Forall_cons in Hf as [[Hr Hh] Hf]. cbn [map length] in *. apply NoDup_cons in Hn as [Hx Hn].
  destruct (nr_burned r) eqn:Eb; [apply IH; [done..|]; eapply plenty_le; [|done]; lia|].
  destruct (replace_succeeds _ d (record_name r) (nonce_encode (burn r (nr_transcript r))) Hp) as (d1 & E & Hp1); [apply file_not_directory; [done|apply not_tmp_record]|].
  rewrite E. pose proof (replace_ok _ _ _ _ E) as Es.
  assert (evolves (wd_states d) (wd_states d1)) as E1.
  { rewrite Es. apply (evolves_record _ (burn r (nr_transcript r)) J Hb); [by apply burn_wf, nw_transcript|]. intros q Hq Hqb Eq Hqh.
    assert (q = r) as -> by (by eapply same_place). congruence. }
  apply IH; [apply E1|by apply E1| |done|done]. apply Forall_forall. intros q Hq. rewrite Forall_forall in Hf. destruct (Hf q Hq) as [Hqw Hqh].
  split; [done|]. unfold holds. rewrite Es, lookup_insert_ne; [done|]. intros Eq. apply Hx, list_elem_of_fmap. eauto.
Qed.
(** What was reserved is burned. *)
Lemma burn_all_burns records : forall d d', journal (wd_states d) -> bound (wd_states d) -> Forall (fun r => record_wf r /\ holds (wd_states d) r) records ->
  NoDup (map record_name records) -> burn_all d records = (d', Ok tt) ->
  Forall (fun r => exists r', record_wf r' /\ nr_burned r' = true /\ record_name r' = record_name r /\ holds (wd_states d') r') records.
Proof.
  induction records as [|r records IH]; intros d d' J Hb Hf Hn H; [done|]. pose proof Hf as Hf0.
  apply Forall_cons in Hf as [[Hr Hh] Hf]. cbn [map burn_all] in *. apply NoDup_cons in Hn as [Hx Hn].
  destruct (nr_burned r) eqn:Eb.
  - constructor; [|by eapply IH]. exists r. split; [done|]. split; [done|]. split; [done|].
    apply burn_all_spec in H as [E _]; [|done..]. by apply (ev_burned _ _ E).
  - destruct (replace_file _ _ _) as [d1 [[]|]] eqn:E; [|done]. pose proof (replace_ok _ _ _ _ E) as Es.
    set (r' := burn r (nr_transcript r)) in *. assert (record_wf r') as Hr' by (apply burn_wf, nw_transcript; done).
    assert (evolves (wd_states d) (wd_states d1)) as E1.
    { rewrite Es. apply (evolves_record _ r' J Hb Hr'). intros q Hq Hqb Eq Hqh. assert (q = r) as -> by (by eapply same_place). congruence. }
    assert (Forall (fun r => record_wf r /\ holds (wd_states d1) r) records) as Hf1.
    { apply Forall_forall. intros q Hq. rewrite Forall_forall in Hf. destruct (Hf q Hq) as [Hqw Hqh].
      split; [done|]. unfold holds. rewrite Es, lookup_insert_ne; [done|]. intros Eq. apply Hx, list_elem_of_fmap. eauto. }
    constructor; [|eapply IH; [apply E1|by apply E1|done..]]. exists r'. split; [done|]. split; [done|]. split; [done|].
    apply burn_all_spec in H as [E2 _]; [|apply E1|by apply E1|done..]. apply (ev_burned _ _ E2); [done|done|]. unfold holds. rewrite Es. apply lookup_insert_eq.
Qed.

Lemma with_lock_lookup d name : name <> signer_lock -> wd_states (with_lock_file d) !! name = wd_states d !! name.
Proof. intros H. unfold with_lock_file. destruct (exists_file _ _); [done|]. cbn [wd_states]. by rewrite lookup_insert_ne. Qed.
Lemma lock_present d : is_Some (wd_states (with_lock_file d) !! signer_lock).
Proof.
  unfold with_lock_file, exists_file. case_bool_decide; [done|]. cbn [wd_states]. rewrite lookup_insert_eq. by eexists.
Qed.
Lemma plenty_lock n d : plenty n d -> plenty n (with_lock_file d).
Proof. unfold with_lock_file. by destruct (exists_file _ _). Qed.
Lemma bound_lock d : bound (wd_states (with_lock_file d)) <-> bound (wd_states d).
Proof. unfold bound. rewrite with_lock_lookup; [done|]. intros E. discriminate (f_equal length E). Qed.
Lemma named d listing name : names_of d listing -> Some name ∈ listing <-> is_Some (wd_states d !! name).
Proof.
  intros Hn. rewrite Hn. split.
  - intros ([n e] & [= ->] & H%elem_of_map_to_list)%list_elem_of_fmap. by exists e.
  - intros [e H%elem_of_map_to_list]. apply list_elem_of_fmap. by exists (name, e).
Qed.
(** Nothing but the lock file. *)
Definition empty_journal (d : WitnessDirectory) : Prop := forall name, is_Some (wd_states d !! name) -> name = signer_lock.
Lemma one_entry d listing : names_of (with_lock_file d) listing -> length listing = 1%nat <-> empty_journal d.
Proof.
  intros Hn. pose proof (lock_present d) as Hl. split.
  - intros H name Hs. destruct listing as [|x [|]]; try done. destruct (decide (name = signer_lock)) as [|Hne]; [done|].
    apply (named _ _ _ Hn), list_elem_of_singleton in Hl as <-. rewrite <- with_lock_lookup in Hs by done.
    apply (named _ _ _ Hn), list_elem_of_singleton in Hs. congruence.
  - intros H. destruct Hl as [e He]. assert (wd_states (with_lock_file d) = {[signer_lock := e]}) as E.
    { apply map_eq. intros name. destruct (decide (name = signer_lock)) as [->|Hne]; [by rewrite lookup_singleton_eq|].
      rewrite lookup_singleton_ne, with_lock_lookup by done. destruct (wd_states d !! name) eqn:En; [|done]. destruct Hne. apply H. by exists s. }
    apply Permutation_length in Hn. rewrite Hn, length_map, E, map_to_list_singleton. done.
Qed.
Lemma check_bound d n : journal (wd_states d) -> plenty 1 d ->
  is_ok (check_binding d M n).2 = true <-> bound (wd_states d) \/ (n = 1%nat /\ wd_states d !! signer_binding = None).
Proof.
  intros J Hp. unfold check_binding, exists_file. destruct (wd_states d !! signer_binding) as [e|] eqn:E.
  - pose proof (jn_files _ J _ _ E) as ->%journal_file_binding. rewrite (proj2 (read_ok d _ _ M)) by (split; [done|lia]).
    rewrite bool_decide_eq_true_2 by done. cbn. split; [|done]. intros _. by left.
  - assert (read_journal_file d signer_binding (length M) = Err (SigningJournal "not found")) as -> by (unfold read_journal_file; by rewrite E).
    rewrite bool_decide_eq_false_2 by (by intros [? ?]). destruct (Nat.eqb_spec n 1) as [->|]; cbn [negb].
    + destruct (replace_succeeds 0 d signer_binding M Hp) as (d' & -> & _); [by rewrite E|]. split; [intros _; by right|done].
    + split; [done|]. unfold bound. rewrite E. naive_solver.
Qed.
(** [check_binding] writes at most once. *)
Lemma check_plenty d n d' : journal (wd_states d) -> plenty (S n) d -> forall k, check_binding d M k = (d', Ok tt) -> plenty n d'.
Proof.
  intros J Hp k. unfold check_binding. destruct (read_journal_file _ _ _); [intros [= <- _]; eapply plenty_le; [|done]; lia|].
  destruct (exists_file _ _); [done|]. destruct (negb _); [done|]. intros H.
  destruct (replace_succeeds n d signer_binding M Hp) as (d1 & E & Hp1); [apply file_not_directory; [done|apply not_tmp_binding]|].
  rewrite E in H. by injection H as <-.
Qed.

(** C18: A signer's journal reopens, with every reservation burned, unless
    its first opening was torn.  After any life of the directory, when the
    writes of the opening succeed and the directory is within its limit, the
    signer opens exactly if its binding is on disk or nothing but the lock
    file is; and then every reservation on disk is burned.  The other case
    is a first opening interrupted while it writes the binding, which leaves
    a temporary file: the loop over the directory skips such files, but
    counts them, and from then on the binding is missing in a nonempty
    journal, for every opening. *)
Theorem signer_reopens d handed out listing instance : signer_run d None handed out -> is_ok (signer_manifest key) = true ->
  names_of (with_lock_file d) listing -> (length listing <= MAX_DURABLE_NONCE_RECORDS + 2)%nat -> plenty (length listing + 2) d ->
  let reopened := signer_open d false listing (Some instance) key in
  (is_ok reopened.2 = true <-> bound (wd_states d) \/ empty_journal d) /\
  (is_ok reopened.2 = true -> forall r, record_wf r -> holds (wd_states reopened.1) r -> nr_burned r = true).
Proof.
  intros Hrun HM Hn Hlen Hp reopened. apply signer_run_inv in Hrun as [J _ _ _ _]. pose proof (lock_opens d J) as [R0 _].
  pose proof (ev_journal _ _ R0) as J0. apply plenty_lock in Hp.
  assert (signer_manifest key = Ok M) as EM by (unfold manifest_of_key; destruct (signer_manifest key); done).
  assert (is_ok (check_binding (with_lock_file d) M (length listing)).2 = true <-> bound (wd_states d) \/ empty_journal d) as Hc.
  { rewrite check_bound, bound_lock, (one_entry d listing Hn); [|done|eapply plenty_le; [|done]; lia]. split; [intros [?|[? _]]; auto|].
    intros [?|H]; [by left|]. right. split; [done|]. assert (signer_binding <> signer_lock) as Hne by (intros E'; discriminate (f_equal length E')).
    rewrite with_lock_lookup by done. destruct (wd_states d !! signer_binding) eqn:Eb; [|done]. destruct Hne. apply H. by eexists. }
  subst reopened. unfold signer_open. set (d0 := with_lock_file d) in *. rewrite EM.
  assert (None ∉ listing) as Hnone by (intros Hin; unfold names_of in Hn; rewrite Hn in Hin; by apply list_elem_of_fmap in Hin as ([] & [=] & _)).
  destruct (listing_ok d0 listing J0 (fun name H => proj1 (named _ _ _ Hn) H) Hnone 0%nat [] Hlen) as (records & E & _ & Hall).
  apply listing_loaded in E as Hload; [|done]. destruct Hload as [_ (new & -> & Hnew)]. cbn [app Nat.add] in *. rewrite E.
  pose proof (loaded_names _ _ _ Hn Hnew) as Hnd. pose proof Hnew as [Hf Hsub].
  assert (length new <= length listing)%nat as Hll by (apply submseteq_length in Hsub; by rewrite length_map in Hsub).
  destruct (check_binding d0 M (length listing)) as [d1 [[]|e]] eqn:E1; cbn [snd is_ok] in Hc; [|by split].
  pose proof (check_repopulates _ _ _ _ J0 E1) as R1. assert (journal (wd_states d1)) as J1 by apply R1.
  assert (plenty (S (length listing)) d1) as Hp1 by (apply (check_plenty d0 _ d1 J0) with (k := length listing); [eapply plenty_le; [|exact Hp]; lia|done]).
  destruct (replace_succeeds _ d1 signer_binding M Hp1) as (d2 & E2 & Hp2); [apply file_not_directory; [done|apply not_tmp_binding]|]. rewrite E2.
  pose proof (write_binding _ _ _ J1 E2) as R2. assert (journal (wd_states d2)) as J2 by apply R2.
  assert (bound (wd_states d2)) as B2 by (unfold bound; rewrite (replace_ok _ _ _ _ E2); apply lookup_insert_eq).
  assert (Forall (fun r => record_wf r /\ holds (wd_states d2) r) new) as Hf2.
  { apply check_states in E1. apply replace_ok in E2. apply (Forall_impl _ _ _ Hf). intros r [Hr Hh]. split; [done|].
    unfold holds in *. rewrite E2, lookup_insert_ne by exact (binding_other r). destruct E1 as [->| ->]; [done|]. by rewrite lookup_insert_ne by exact (binding_other r). }
  destruct (burn_all_ok new d2 J2 B2 Hf2 Hnd (plenty_le _ _ _ Hll Hp2)) as [d3 E3]. rewrite E3. cbn [fst snd ok_or mbind result_bind is_ok] in *.
  split; [done|]. intros _ r Hr Hh. destruct (nr_burned r) eqn:Eb; [done|]. exfalso.
  pose proof (burn_all_spec new _ _ _ J2 B2 Hf2 Hnd E3) as R3. assert (repopulates (wd_states d0) (wd_states d3)) as [_ R].
  { eapply repopulates_trans; [done|exact R1|]. eapply repopulates_trans; [done|exact R2|exact R3]. }
  destruct (R r Hr Hh) as (r0 & Hr0 & En & Hh0). pose proof (burn_all_burns new _ _ J2 B2 Hf2 Hnd E3) as Hb. rewrite Forall_forall in Hb.
  destruct (Hb r0) as (r1 & Hr1 & Hb1 & En1 & Hh1).
  { apply Hall; [done| |done]. apply (named _ _ _ Hn). by exists (StateFile (nonce_encode r0)). }
  assert (r1 = r) as ->; [|congruence]. eapply same_place; [done..|congruence].
Qed.

(** A first opening that stops while it writes the binding. *)
Definition torn_file : bytes := lit "signer.binding.1-0.tmp".
Lemma torn_first_opening : exists d, signer_run d None [] [] /\ ~ bound (wd_states d) /\ ~ empty_journal d.
Proof.
  set (d0 := mkWitnessDir ∅ []). set (d := mkWitnessDir {[torn_file := StateFile []]} []).
  destruct (signer_open d0 false [Some signer_lock] None key) as [d' res] eqn:E. exists d. split; [|split].
  - eapply (sr_open_interrupted d0); [apply sr_fresh| |exact E|].
    + unfold names_of, with_lock_file, exists_file. cbn [wd_states d0]. rewrite lookup_empty, bool_decide_eq_false_2 by (by intros [? ?]).
      cbn [wd_states]. by rewrite insert_empty, map_to_list_singleton.
    + intros name Ht. left. cbn [wd_states d d0]. rewrite lookup_empty, lookup_singleton_ne; [done|]. intros <-. apply Ht. by vm_compute.
  - unfold bound. cbn [wd_states d]. rewrite lookup_singleton_ne; [done|]. intros E'. discriminate (f_equal length E').
  - intros H. assert (torn_file = signer_lock) as E'; [|discriminate (f_equal length E')]. apply H. cbn [wd_states d]. rewrite lookup_singleton_eq. by eexists.
Qed.
End Nonces.
