(* ===== verification/CustodyWitnesses.v ===== *)
(** * CustodyWitnesses: a ceremony of eleven and a signer that signs

    A manifest with eleven members, accepted and completed by all of them,
    over the [Toy] primitives; two ceremonies of a domain reported with a
    late repetition; and a signer over a toy of the signing interface that
    reserves, signs, stops and reopens. *)

From Stdlib Require Import ZArith Lia.
From stdpp Require Import base list gmap sets strings.
From S2P Require Import Prelude Codec Crypto Identity Witness CreditPermit CreditJournal WitnessService Custody CustodyRoster CustodyTheorems CustodySigner CustodyNonces.
Open Scope Z_scope.

#[local] Existing Instance Toy.primitives.
#[local] Existing Instance Toy.laws.

Module Ceremony.
Definition device (i : Z) : SigningKey := mkSigningKey [i; 1].
Definition transport (i : Z) : SigningKey := mkSigningKey [i; 2].
Definition did (i : Z) : Did := mkDid (METHOD ++ 0x66 :: hex_lower ([0x1e; 0x20] ++ replicate 32 i)).
Definition participant (i : Z) : CustodyParticipantV1 := mkParticipant (did i) (verifying_key (device i)) (verifying_key (transport i)).
Definition indices : list Z := [1; 2; 3; 4; 5; 6; 7; 8; 9; 10; 11].
Definition manifest : DkgSessionManifestV1 :=
  mkManifest (replicate 32 7) BTC_CUSTODY 1 0 (map participant indices) (replicate 32 9) 0 (replicate 32 0) (replicate 32 3) 0.
Definition next : DkgSessionManifestV1 :=
  mkManifest (replicate 32 7) BTC_CUSTODY 2 0 (map participant indices) (replicate 32 9) 1 (replicate 32 5) (replicate 32 3) 0.
Definition attestations : list CompletionAttestationV1 :=
  map (fun i => sign_completion_attestation (session_id manifest) (replicate 32 4) (replicate 32 6) (replicate 32 5) (did i) (device i)) indices.
Lemma valid : manifest_validate manifest = Ok tt.
Proof. vm_compute. reflexivity. Qed.
Lemma completed : completion_confirmed manifest attestations = true.
Proof. vm_compute. reflexivity. Qed.
End Ceremony.

Lemma manifest_wire_witness : let b := manifest_encode Ceremony.manifest in
  bytes_ok b /\ manifest_decode b = Ok Ceremony.manifest /\ manifest_typed Ceremony.manifest.
Proof.
  cbv zeta. assert (bytes_ok (manifest_encode Ceremony.manifest)) as Hok by (apply (bool_decide_unpack _); vm_compute; exact I).
  assert (manifest_decode (manifest_encode Ceremony.manifest) = Ok Ceremony.manifest) as Hd by (vm_compute; reflexivity).
  split; [exact Hok|]. split; [exact Hd|]. apply (manifest_wire (manifest_encode Ceremony.manifest) Ceremony.manifest Hok), Hd.
Defined.

(** No frost package is looked at in these scenarios. *)
#[local] Instance toy_dkg : FrostDkg := {|
  FrostIdentifier := Z;
  Round1SecretPackage := unit;
  Round1Package := bytes;
  Round2SecretPackage := unit;
  Round2Package := bytes;
  DkgKeyPackage := unit;
  PublicKeyPackage := bytes;
  identifier_try_from i := if i =? 0 then None else Some i;
  dkg_rng := unit;
  part1 _ _ _ _ := Ok (tt, []);
  part2 _ _ := Ok (tt, []);
  part3 _ _ _ := Ok (tt, []);
  public_package_serialize b := Ok b;
|}.
Lemma ceremony_barriers_are_unanimous_witness :
  exists root package_hash group_key,
    by_every_member ca_custody_did (completes Ceremony.manifest root package_hash group_key) Ceremony.manifest Ceremony.attestations.
Proof.
  apply (ceremony_barriers_are_unanimous Ceremony.manifest Ceremony.valid), Ceremony.completed.
Defined.

(** Two ceremonies of one domain, and the first one's result once more. *)
Definition reports : list (DkgSessionManifestV1 * bytes) :=
  [(Ceremony.manifest, replicate 32 5); (Ceremony.next, replicate 32 8); (Ceremony.manifest, replicate 32 5)].
Lemma registry_is_a_chain_witness :
  state_of (registry_run registry_new reports).1 BTC_CUSTODY = Some (mkDomainKey BTC_CUSTODY 2 (replicate 32 8)).
Proof.
  assert (registry_run registry_new reports = ((registry_run registry_new reports).1, (registry_run registry_new reports).2)) as H by apply surjective_pairing.
  pose proof (registry_is_a_chain reports _ _ BTC_CUSTODY H ltac:(vm_compute; discriminate)) as [_ Hs]. rewrite Hs.
  assert (of_domain BTC_CUSTODY (registry_run registry_new reports).2 = [(Ceremony.manifest, replicate 32 5); (Ceremony.next, replicate 32 8)]) as -> by (vm_compute; reflexivity).
  reflexivity.
Defined.

(** ** A signer *)
#[local] Instance toy_signing : FrostSigning := {|
  KeyPackage := unit;
  SigningNonces := Z;
  SigningCommitments := Z;
  SigningPackage := bytes;
  SignatureShare := bytes;
  signing_rng := Z;
  key_identifier _ := [1];
  key_verifying_share _ := Some [2];
  key_verifying_key _ := Some [3];
  frost_commit _ rng := (rng, rng);
  commitments_serialize c := Some [c];
  commitments_deserialize b := match b with [c] => Some c | _ => None end;
  package_message p := p;
  frost_sign p n _ := Ok (n :: p);
|}.
#[local] Instance toy_signing_laws : FrostLaws.
Proof.
  unshelve econstructor; [exact (fun n : Z => n)|..].
  - intros k rng n c [= <- <-]. reflexivity.
  - intros c b [= <-]. split; [discriminate|reflexivity].
Defined.

Module Life.
Definition d0 : WitnessDirectory := mkWitnessDir ∅ (replicate 20 None).
Definition none : DurableCustodySigner := mkSigner d0 tt [] [] 0 true.
Definition get (r : result CustodyError DurableCustodySigner) : DurableCustodySigner := match r with Ok s => s | Err _ => none end.
Definition opened : WitnessDirectory * result CustodyError DurableCustodySigner := signer_open d0 false [Some signer_lock] (Some (replicate 32 7)) tt.
Definition s0 : DurableCustodySigner := get opened.2.
Definition reserved := signer_step s0 (CallCommit 5).
Definition nonces : DurableSigningNonces := hd (mkDurableNonces 0 (mkNonceRecord [] [] [] false [])) reserved.1.2.
Definition signed := signer_step reserved.1.1 (CallSign nonces (lit "message")).
Definition again := signer_step signed.1.1 (CallSign nonces (lit "another")).
Definition d1 : WitnessDirectory := ds_directory again.1.1.

Lemma opened_ok : opened = (opened.1, Ok s0).
Proof.
  assert (is_ok opened.2 = true) as H by (vm_compute; reflexivity). unfold s0. destruct opened as [d [s|e]]; [reflexivity|discriminate H].
Qed.
Lemma has : nonces ∈ reserved.1.2.
Proof.
  assert (length reserved.1.2 = 1%nat) as H by (vm_compute; reflexivity). unfold nonces. destruct reserved.1.2 as [|n l]; [discriminate H|]. apply list_elem_of_here.
Qed.
Lemma triple {A B C} (x : A * B * C) : x = (x.1.1, x.1.2, x.2).
Proof. by destruct x as [[] ]. Qed.
Lemma names0 : names_of (with_lock_file d0) [Some signer_lock].
Proof.
  unfold names_of. assert (wd_states (with_lock_file d0) = {[signer_lock := StateFile []]}) as -> by (vm_compute; reflexivity).
  by rewrite map_to_list_singleton.
Qed.
Lemma run0 : signer_run tt opened.1 (Some s0) [] [].
Proof. exact (sr_opened tt d0 [] [] [Some signer_lock] (replicate 32 7) opened.1 s0 (sr_fresh tt _) names0 eq_refl opened_ok). Qed.
Lemma run1 : signer_run tt (ds_directory reserved.1.1) (Some reserved.1.1) ([] ++ reserved.1.2) ([] ++ reserved.2).
Proof. exact (sr_called tt opened.1 s0 [] [] (CallCommit 5) reserved.1.1 reserved.1.2 reserved.2 run0 I (triple reserved)). Qed.
Lemma run2 : signer_run tt (ds_directory signed.1.1) (Some signed.1.1) (([] ++ reserved.1.2) ++ signed.1.2) (([] ++ reserved.2) ++ signed.2).
Proof.
  exact (sr_called tt (ds_directory reserved.1.1) reserved.1.1 ([] ++ reserved.1.2) ([] ++ reserved.2) (CallSign nonces (lit "message")) signed.1.1 signed.1.2 signed.2
    run1 has (triple signed)).
Qed.
Lemma run : signer_run tt d1 (Some again.1.1) ((([] ++ reserved.1.2) ++ signed.1.2) ++ again.1.2) ((([] ++ reserved.2) ++ signed.2) ++ again.2).
Proof.
  exact (sr_called tt (ds_directory signed.1.1) signed.1.1 (([] ++ reserved.1.2) ++ signed.1.2) (([] ++ reserved.2) ++ signed.2) (CallSign nonces (lit "another"))
    again.1.1 again.1.2 again.2 run2 (proj2 (elem_of_app _ _ _) (or_introl has)) (triple again)).
Qed.
Lemma stopped : signer_run tt d1 None ((([] ++ reserved.1.2) ++ signed.1.2) ++ again.1.2) ((([] ++ reserved.2) ++ signed.2) ++ again.2).
Proof. eapply sr_stopped. exact run. Qed.
End Life.

Lemma nonces_sign_once_witness : let out := (([] ++ Life.reserved.2) ++ Life.signed.2) ++ Life.again.2 in
  length out = 1%nat /\ NoDup (map rl_nonces out).
Proof.
  cbv zeta. split; [vm_compute; reflexivity|]. exact (proj1 (nonces_sign_once tt _ _ _ _ Life.run)).
Defined.
Definition relisting : list (option bytes) := map (Some ∘ fst) (map_to_list (wd_states (with_lock_file Life.d1))).
Lemma signer_reopens_witness : is_ok (signer_open Life.d1 false relisting (Some (replicate 32 8)) tt).2 = true.
Proof.
  assert (names_of (with_lock_file Life.d1) relisting) as Hn by (unfold names_of, relisting; apply Permutation_refl).
  assert (length relisting = 3%nat) as Hl by (vm_compute; reflexivity).
  assert (plenty (length relisting + 2) Life.d1) as Hp by (rewrite Hl; exists (replicate 11 None); vm_compute; reflexivity).
  assert (length relisting <= MAX_DURABLE_NONCE_RECORDS + 2)%nat as Hm by (rewrite Hl; unfold MAX_DURABLE_NONCE_RECORDS; clear; lia).
  assert (bound tt (wd_states Life.d1)) as Hb by (unfold bound; vm_compute; reflexivity).
  pose proof (signer_reopens (F := toy_signing) tt Life.d1 _ _ relisting (replicate 32 8) Life.stopped eq_refl Hn Hm Hp) as [H _].
  exact (proj2 H (or_introl Hb)).
Defined.
