(* ===== verification/Credit.v ===== *)
(** * Credit: Human Share credit limits and repayment

    Models [crates/mini-economy/src/credit.rs].  The maps are [gmap]s and
    [canonical_order] a list of slots.  [Panicked] stands for the panics the
    source's [expect] and indexing would raise; the invariant of
    [CreditTheorems] excludes them.  Subtractions of unsigned values written
    without a check in the source are plain here; the invariant keeps them
    from wrapping. *)

From Stdlib Require Import ZArith Lia.
From stdpp Require Import base list gmap sets strings.
From S2P Require Import Prelude Codec Crypto Economy Settlement CreditPermit.
Open Scope Z_scope.

Record CreditPolicy := mkCreditPolicy {
  cy_network_id : bytes;
  cy_revision : bytes;
  cy_max_debt_per_human : Z;
  cy_repayment_ppm : Z;
  cy_max_permit_height_span : Z;
  cy_max_accounts : Z;
  cy_max_permits : Z;
  cy_max_ious : Z;
}.

Inductive CreditError :=
| CrInvalidPolicy | CrInvalidTerms | UnknownAccount | UnknownPermit | CrLimitExceeded | PermitConflict | IouConflict
| CrOutsideWindow | NotExpired | ReplayMismatch | InvalidEpoch | Arithmetic.
#[global] Instance CreditError_eq_dec : EqDecision CreditError.
Proof. solve_decision. Defined.
Inductive credit_fault := Refused (e : CreditError) | Panicked.
#[global] Instance fault_eq_dec : EqDecision credit_fault.
Proof. solve_decision. Defined.

Record CreditRepayment := mkRepayment { rp_iou_digest : bytes; rp_payee_commitment : bytes; rp_amount_micro : Z }.
#[global] Instance CreditRepayment_eq_dec : EqDecision CreditRepayment.
Proof. solve_decision. Defined.
Record ShareRepayment := mkShareRepayment {
  sr_gross_released : Amount;
  sr_recipient_available : Amount;
  sr_remaining_debt_micro : Z;
  sr_repayments : list CreditRepayment;
}.
#[global] Instance ShareRepayment_eq_dec : EqDecision ShareRepayment.
Proof. solve_decision. Defined.

Record Position := mkPosition {
  po_cap : Z;
  po_debt : Z;
  po_unused_authorized : Z;
  po_repayment_remainder : Z;
  po_last_share : option (Z * ShareRepayment);
}.
Record Permit := mkPermit { pm_subject : bytes; pm_verified : VerifiedCreditPermit; pm_used : Z; pm_expired : bool }.
Record Iou := mkIou { iou_subject : bytes; iou_digest : bytes; iou_payee : bytes; iou_remaining : Z }.
Notation slot_id := (bytes * Z)%type.

Record HumanShareCredit := mkCredit {
  hc_policy : CreditPolicy;
  hc_accounts : gmap bytes Position;
  hc_permits : gmap bytes Permit;
  hc_ious : gmap slot_id Iou;
  hc_canonical_order : list slot_id;
}.

Definition refuse_if (b : bool) (e : CreditError) : result credit_fault unit := fail_if b (Refused e).
Definition known {A} (o : option A) (e : CreditError) : result credit_fault A := ok_or o (Refused e).
Definition expect {A} (o : option A) : result credit_fault A := ok_or o Panicked.

Definition credit_new (p : CreditPolicy) : result CreditError HumanShareCredit :=
  _ ← fail_if (bool_decide (cy_revision p = zero_32) || (cy_max_debt_per_human p =? 0) || (cy_repayment_ppm p =? 0) ||
        (MILLION <? cy_repayment_ppm p) || (cy_max_permit_height_span p =? 0) || (cy_max_accounts p =? 0) ||
        (cy_max_permits p =? 0) || (cy_max_ious p =? 0)) CrInvalidPolicy;
  Ok (mkCredit p ∅ ∅ ∅ []).

Definition with_accounts (c : HumanShareCredit) (a : gmap bytes Position) : HumanShareCredit :=
  mkCredit (hc_policy c) a (hc_permits c) (hc_ious c) (hc_canonical_order c).
Definition with_permits (c : HumanShareCredit) (p : gmap bytes Permit) : HumanShareCredit :=
  mkCredit (hc_policy c) (hc_accounts c) p (hc_ious c) (hc_canonical_order c).

Definition enroll (c : HumanShareCredit) (subject : bytes) (approved_cap_micro : Z) : result credit_fault HumanShareCredit :=
  _ ← refuse_if (bool_decide (subject = zero_32) || (approved_cap_micro =? 0) ||
        (cy_max_debt_per_human (hc_policy c) <? approved_cap_micro)) CrInvalidTerms;
  _ ← refuse_if (bool_decide (is_Some (hc_accounts c !! subject)) ||
        (cy_max_accounts (hc_policy c) <=? Z.of_nat (size (hc_accounts c)))) CrLimitExceeded;
  Ok (with_accounts c (<[subject := mkPosition approved_cap_micro 0 0 0 None]> (hc_accounts c))).

Definition debt_micro (c : HumanShareCredit) (subject : bytes) : option Z := po_debt <$> hc_accounts c !! subject.
Definition new_allowance_capacity (c : HumanShareCredit) (subject : bytes) : result credit_fault Z :=
  p ← known (hc_accounts c !! subject) UnknownAccount;
  known (v ← checked_sub (po_cap p) (po_debt p); checked_sub v (po_unused_authorized p)) Arithmetic.
Definition permit_left (p : Permit) : Z := pt_limit_micro (vp_terms (pm_verified p)) - pm_used p.
Definition permit_remaining (c : HumanShareCredit) (id : bytes) : option Z :=
  (fun p => if pm_expired p then 0 else permit_left p) <$> hc_permits c !! id.

(** [Ok (false, _)]: an exact replay.  The span is the source's [u64]
    subtraction, which a verified permit's order of heights keeps from
    wrapping. *)
Definition register_permit (c : HumanShareCredit) (subject : bytes) (permit : VerifiedCreditPermit) (canonical_height : Z) :
    result credit_fault (bool * HumanShareCredit) :=
  let terms := vp_terms permit in
  _ ← refuse_if (negb (bool_decide (pt_network_id terms = cy_network_id (hc_policy c))) ||
        negb (bool_decide (pt_policy_revision terms = cy_revision (hc_policy c))) ||
        (cy_max_permit_height_span (hc_policy c) <? pt_valid_through_height terms - pt_issued_height terms)) CrInvalidTerms;
  match hc_permits c !! vp_id permit with
  | Some old =>
      if bool_decide (pm_subject old = subject) && bool_decide (pm_verified old = permit) then Ok (false, c)
      else Err (Refused PermitConflict)
  | None =>
      _ ← refuse_if (negb (canonical_height =? pt_issued_height terms)) CrOutsideWindow;
      _ ← refuse_if (cy_max_permits (hc_policy c) <=? Z.of_nat (size (hc_permits c))) CrLimitExceeded;
      capacity ← new_allowance_capacity c subject;
      _ ← refuse_if (capacity <? pt_limit_micro terms) CrLimitExceeded;
      position ← known (hc_accounts c !! subject) UnknownAccount;
      unused ← known (checked_add U64_MAX (po_unused_authorized position) (pt_limit_micro terms)) Arithmetic;
      let accounts := <[subject := mkPosition (po_cap position) (po_debt position) unused
                                     (po_repayment_remainder position) (po_last_share position)]> (hc_accounts c) in
      Ok (true, with_permits (with_accounts c accounts)
                  (<[vp_id permit := mkPermit subject permit 0 false]> (hc_permits c)))
  end.

Definition record_iou (c : HumanShareCredit) (iou : VerifiedCreditIou) (canonical_height : Z) :
    result credit_fault (bool * HumanShareCredit) :=
  let terms := vi_terms iou in
  let slot := (it_permit_id terms, it_sequence terms) in
  match hc_ious c !! slot with
  | Some prior => if bool_decide (iou_digest prior = vi_digest iou) then Ok (false, c) else Err (Refused IouConflict)
  | None =>
      permit ← known (hc_permits c !! it_permit_id terms) UnknownPermit;
      let authorized := vp_terms (pm_verified permit) in
      _ ← refuse_if (pm_expired permit || (canonical_height <? pt_issued_height authorized) ||
            (pt_valid_through_height authorized <? canonical_height)) CrOutsideWindow;
      _ ← refuse_if (cy_max_ious (hc_policy c) <=? Z.of_nat (size (hc_ious c))) CrLimitExceeded;
      used ← known (checked_add U64_MAX (pm_used permit) (it_amount_micro terms)) Arithmetic;
      _ ← refuse_if (pt_limit_micro authorized <? used) CrLimitExceeded;
      let subject := pm_subject permit in
      p ← known (hc_accounts c !! subject) UnknownAccount;
      debt ← known (checked_add U64_MAX (po_debt p) (it_amount_micro terms)) Arithmetic;
      unused ← known (checked_sub (po_unused_authorized p) (it_amount_micro terms)) Arithmetic;
      Ok (true, mkCredit (hc_policy c)
            (<[subject := mkPosition (po_cap p) debt unused (po_repayment_remainder p) (po_last_share p)]> (hc_accounts c))
            (<[it_permit_id terms := mkPermit subject (pm_verified permit) used (pm_expired permit)]> (hc_permits c))
            (<[slot := mkIou subject (vi_digest iou) (it_payee_commitment terms) (it_amount_micro terms)]> (hc_ious c))
            (hc_canonical_order c ++ [slot]))
  end.

Definition expire_permit (c : HumanShareCredit) (id : bytes) (canonical_height : Z) : result credit_fault HumanShareCredit :=
  permit ← known (hc_permits c !! id) UnknownPermit;
  if pm_expired permit then Ok c else
  _ ← refuse_if (canonical_height <=? pt_valid_through_height (vp_terms (pm_verified permit))) NotExpired;
  let remaining := permit_left permit in
  let subject := pm_subject permit in
  p ← expect (hc_accounts c !! subject);
  unused ← known (checked_sub (po_unused_authorized p) remaining) Arithmetic;
  Ok (with_permits
        (with_accounts c (<[subject := mkPosition (po_cap p) (po_debt p) unused (po_repayment_remainder p)
                                          (po_last_share p)]> (hc_accounts c)))
        (<[id := mkPermit subject (pm_verified permit) (pm_used permit) true]> (hc_permits c))).

(** The loop of [release_share] over the canonical order: the IOUs, the
    budget left and the repayments so far. *)
Fixpoint repay (subject : bytes) (order : list slot_id) (ious : gmap slot_id Iou) (budget : Z)
    (repayments : list CreditRepayment) : result credit_fault (gmap slot_id Iou * Z * list CreditRepayment) :=
  match order with
  | [] => Ok (ious, budget, repayments)
  | slot :: order =>
      if budget =? 0 then Ok (ious, budget, repayments) else
      iou ← expect (ious !! slot);
      if negb (bool_decide (iou_subject iou = subject)) || (iou_remaining iou =? 0)
      then repay subject order ious budget repayments else
      let amount := Z.min budget (iou_remaining iou) in
      repay subject order
        (<[slot := mkIou (iou_subject iou) (iou_digest iou) (iou_payee iou) (iou_remaining iou - amount)]> ious)
        (budget - amount) (repayments ++ [mkRepayment (iou_digest iou) (iou_payee iou) amount])
  end.

Definition release_share (c : HumanShareCredit) (subject : bytes) (release_epoch : Z) (gross : Amount) :
    result credit_fault (ShareRepayment * bool * HumanShareCredit) :=
  position ← known (hc_accounts c !! subject) UnknownAccount;
  let fresh :=
    let n := gross in
    let ppm := cy_repayment_ppm (hc_policy c) in
    let fractional := (n mod MILLION) * ppm + po_repayment_remainder position in
    let permitted := (n / MILLION) * ppm + fractional / MILLION in
    let repay_micro := Z.min permitted (po_debt position) in
    let remaining_debt := po_debt position - repay_micro in
    '(ious, budget, repayments) ← repay subject (hc_canonical_order c) (hc_ious c) repay_micro [];
    _ ← refuse_if (negb (budget =? 0)) Arithmetic;
    let split := mkShareRepayment gross (n - repay_micro) remaining_debt repayments in
    let remainder := if remaining_debt =? 0 then 0 else fractional mod MILLION in
    Ok (split, true,
        mkCredit (hc_policy c)
          (<[subject := mkPosition (po_cap position) remaining_debt (po_unused_authorized position) remainder
                          (Some (release_epoch, split))]> (hc_accounts c))
          (hc_permits c) ious (hc_canonical_order c)) in
  match po_last_share position with
  | Some (last, split) =>
      if release_epoch =? last then
        if gross =? sr_gross_released split then Ok (split, false, c) else Err (Refused ReplayMismatch)
      else if release_epoch <? last then Err (Refused InvalidEpoch)
      else fresh
  | None => fresh
  end.
