(* ===== verification/CreditTheorems.v ===== *)
(** * CreditTheorems: bounded exposure, exact repayment

    The credit engine's accounts as an invariant of every operation; what a
    release of share pays, to whom and in which order; and over a whole run,
    that a permit never carries more than its limit and that a human's debt is
    what was recorded less what was repaid. *)

From Stdlib Require Import ZArith Lia.
From stdpp Require Import base list gmap sets strings.
From S2P Require Import Prelude Codec Crypto Economy Settlement CreditPermit Credit.
Open Scope Z_scope.

(** What a subject owes on an IOU, and may still promise under a permit. *)
Definition owes (subject : bytes) (i : Iou) : Z := if bool_decide (iou_subject i = subject) then iou_remaining i else 0.
Definition may_promise (subject : bytes) (p : Permit) : Z :=
  if bool_decide (pm_subject p = subject) && negb (pm_expired p) then permit_left p else 0.

Record permit_ok (c : HumanShareCredit) (id : bytes) (p : Permit) : Prop := {
  pq_id : vp_id (pm_verified p) = id;
  pq_used : 0 <= pm_used p <= pt_limit_micro (vp_terms (pm_verified p));
  pq_limit : pt_limit_micro (vp_terms (pm_verified p)) <= U64_MAX;
  pq_subject : is_Some (hc_accounts c !! pm_subject p);
}.
Record account_ok (c : HumanShareCredit) (s : bytes) (a : Position) : Prop := {
  ao_debt : po_debt a = total_by (owes s) (hc_ious c);
  ao_unused : po_unused_authorized a = total_by (may_promise s) (hc_permits c);
  ao_cap : po_debt a + po_unused_authorized a <= po_cap a;
  ao_max : po_cap a <= cy_max_debt_per_human (hc_policy c);
  ao_remainder : 0 <= po_repayment_remainder a < MILLION;
}.
Record credit_ok (c : HumanShareCredit) : Prop := {
  ck_ppm : 0 < cy_repayment_ppm (hc_policy c) <= MILLION;
  ck_max : cy_max_debt_per_human (hc_policy c) <= U64_MAX;
  ck_permits id p : hc_permits c !! id = Some p -> permit_ok c id p;
  ck_accounts s a : hc_accounts c !! s = Some a -> account_ok c s a;
  ck_ious slot i : hc_ious c !! slot = Some i -> 0 <= iou_remaining i /\ is_Some (hc_accounts c !! iou_subject i);
  ck_order : NoDup (hc_canonical_order c);
  ck_listed slot : slot ∈ hc_canonical_order c <-> is_Some (hc_ious c !! slot);
}.

Lemma debt_nonneg c s : credit_ok c -> 0 <= total_by (owes s) (hc_ious c).
Proof.
  intros H. apply total_by_nonneg. intros k i Hi. apply (ck_ious c H) in Hi as [Hi _]. unfold owes. case_bool_decide; lia.
Qed.
Lemma may_promise_nonneg c s id p : credit_ok c -> hc_permits c !! id = Some p -> 0 <= may_promise s p.
Proof.
  intros H Hp. pose proof (pq_used c id p (ck_permits c H id p Hp)). unfold may_promise, permit_left.
  destruct (bool_decide _ && _); lia.
Qed.
Lemma unused_nonneg c s : credit_ok c -> 0 <= total_by (may_promise s) (hc_permits c).
Proof. intros H. apply total_by_nonneg. intros k p Hp. by eapply may_promise_nonneg. Qed.

(** An account changed in place keeps every other account's books. *)
Lemma account_frame c c' s a : hc_policy c' = hc_policy c ->
  total_by (owes s) (hc_ious c') = total_by (owes s) (hc_ious c) ->
  total_by (may_promise s) (hc_permits c') = total_by (may_promise s) (hc_permits c) -> account_ok c s a -> account_ok c' s a.
Proof. intros E1 E2 E3 []. split; rewrite ?E1, ?E2, ?E3; done. Qed.
Lemma permit_frame c c' id p : (forall s, is_Some (hc_accounts c !! s) -> is_Some (hc_accounts c' !! s)) ->
  permit_ok c id p -> permit_ok c' id p.
Proof. intros H []. split; auto. Qed.
Lemma insert_keeps {A} (m : gmap bytes A) k a s : is_Some (m !! s) -> is_Some (<[k := a]> m !! s).
Proof. intros H. apply lookup_insert_is_Some'. by right. Qed.

Lemma credit_new_ok p c : cy_max_debt_per_human p <= U64_MAX -> 0 <= cy_repayment_ppm p -> credit_new p = Ok c -> credit_ok c.
Proof.
  intros H1 H2 H. unfold credit_new in H. apply bind_ok in H as (? & H & [= <-]). apply fail_if_ok in H. bool_prop.
  split; cbn; try done; [lia|apply NoDup_nil_2|]. intros slot. rewrite lookup_empty. split; [by intros ?%elem_of_nil|by intros []].
Qed.

Ltac credit_inv H := unfold refuse_if, known, expect in H;
  repeat match type of H with
  | mbind _ _ = Ok _ => let x := fresh "x" in let E := fresh "E" in apply bind_ok in H as (x & E & H)
  end.

Lemma total_by_zero {K} `{Countable K} {A} (f : A -> Z) (m : gmap K A) :
  (forall k a, m !! k = Some a -> f a = 0) -> total_by f m = 0.
Proof.
  induction m as [|k a m Hk IH] using map_ind; intros Hz; [apply total_by_empty|].
  rewrite total_by_insert by done. rewrite (Hz k a) by apply lookup_insert_eq.
  rewrite IH; [done|]. intros k' a' Hk'. apply (Hz k'). rewrite lookup_insert_ne by congruence. done.
Qed.
Lemma stranger c s : credit_ok c -> hc_accounts c !! s = None ->
  total_by (owes s) (hc_ious c) = 0 /\ total_by (may_promise s) (hc_permits c) = 0.
Proof.
  intros H Hs. split; apply total_by_zero.
  - intros k i Hi. apply (ck_ious c H) in Hi as [_ [a Ha]]. unfold owes. rewrite bool_decide_eq_false_2; [done|congruence].
  - intros k p Hp. destruct (pq_subject c k p (ck_permits c H k p Hp)) as [a Ha]. unfold may_promise.
    by rewrite bool_decide_eq_false_2 by congruence.
Qed.

Lemma enroll_ok c s cap c' : credit_ok c -> 0 <= cap -> enroll c s cap = Ok c' ->
  credit_ok c' /\ hc_accounts c !! s = None /\ c' = with_accounts c (<[s := mkPosition cap 0 0 0 None]> (hc_accounts c)).
Proof.
  intros Hc Hcap H. unfold enroll in H. credit_inv H. injection H as <-. apply fail_if_ok in E, E0. bool_prop.
  assert (hc_accounts c !! s = None) as Hn by by apply eq_None_not_Some.
  split; [|done]. destruct (stranger c s Hc Hn) as [Z1 Z2]. destruct Hc. split; cbn [with_accounts hc_policy hc_accounts hc_permits hc_ious hc_canonical_order]; try done.
  - intros id p Hp. eapply permit_frame; [|by apply ck_permits0]. intros s' Hs'. by apply insert_keeps.
  - intros s' a [[<- <-]|[_ Ha]]%lookup_insert_Some; [|eapply account_frame; [| | |by apply ck_accounts0]; done].
    split; cbn; unfold MILLION; lia.
  - intros slot i Hi. apply ck_ious0 in Hi as [? ?]. split; [done|]. by apply insert_keeps.
Qed.

Lemma permit_left_bounds c id p : credit_ok c -> hc_permits c !! id = Some p -> 0 <= permit_left p.
Proof. intros H Hp. pose proof (pq_used c id p (ck_permits c H id p Hp)). unfold permit_left. lia. Qed.

Lemma register_ok c s v h b c' : credit_ok c -> 0 <= pt_limit_micro (vp_terms v) <= U64_MAX -> register_permit c s v h = Ok (b, c') ->
  credit_ok c' /\ hc_ious c' = hc_ious c /\ hc_policy c' = hc_policy c /\ hc_canonical_order c' = hc_canonical_order c /\
  (b = false -> c' = c) /\
  (b = true -> hc_permits c !! vp_id v = None /\ hc_permits c' = <[vp_id v := mkPermit s v 0 false]> (hc_permits c) /\
     exists a, hc_accounts c !! s = Some a /\
       hc_accounts c' = <[s := mkPosition (po_cap a) (po_debt a) (po_unused_authorized a + pt_limit_micro (vp_terms v))
                                 (po_repayment_remainder a) (po_last_share a)]> (hc_accounts c)).
Proof.
  intros Hc Hv H. unfold register_permit in H. cbv zeta in H. apply bind_ok in H as (? & _ & H).
  destruct (hc_permits c !! vp_id v) as [old|] eqn:Eold.
  { case_match; [|done]. injection H as <- <-. by repeat (split; [done|]). }
  credit_inv H. injection H as <- <-. apply fail_if_ok in E, E0, E2. unfold new_allowance_capacity, known in E1.
  apply bind_ok in E1 as (a & Ea & E1). apply ok_or_ok in Ea, E1, E3, E4. rewrite Ea in E3. injection E3 as <-.
  destruct (checked_sub (po_cap a) (po_debt a)) as [w|] eqn:Ew; [|done]. cbn in E1.
  apply checked_sub_Some in Ew as [-> ?], E1 as [-> ?]. apply checked_add_Some in E4 as [-> ?]. bool_prop.
  split; [|split; [done|split; [done|split; [done|split; [done|intros _; split; [done|split; [done|by exists a]]]]]]].
  pose proof (ck_accounts c Hc s a Ea) as Ha.
  assert (forall s', total_by (may_promise s') (<[vp_id v := mkPermit s v 0 false]> (hc_permits c)) =
    (if bool_decide (s = s') then pt_limit_micro (vp_terms v) else 0) + total_by (may_promise s') (hc_permits c)) as Ht.
  { intros s'. rewrite total_by_insert by done. unfold may_promise at 1, permit_left. cbn. case_bool_decide; cbn; lia. }
  destruct Hc. split; cbn [with_permits with_accounts hc_policy hc_accounts hc_permits hc_ious hc_canonical_order]; try done.
  - intros id p [[<- <-]|[_ Hp]]%lookup_insert_Some.
    + split; cbn; try done; [lia|lia|]. by rewrite lookup_insert_eq.
    + eapply permit_frame; [|by apply ck_permits0]. intros s' Hs'. by apply insert_keeps.
  - intros s' a' [[<- <-]|[Hne Ha']]%lookup_insert_Some.
    + destruct Ha. split; cbn [po_debt po_unused_authorized po_cap po_repayment_remainder hc_permits hc_ious hc_policy]; try done; [|lia].
      rewrite Ht, bool_decide_eq_true_2 by done. lia.
    + eapply account_frame; [| | |by apply ck_accounts0]; [done|done|]. cbn. rewrite Ht, bool_decide_eq_false_2 by done. lia.
  - intros slot i Hi. apply ck_ious0 in Hi as [? ?]. split; [done|]. by apply insert_keeps.
Qed.

Lemma record_ok c i h b c' : credit_ok c -> 0 < it_amount_micro (vi_terms i) -> record_iou c i h = Ok (b, c') ->
  credit_ok c' /\ hc_policy c' = hc_policy c /\
  (b = false -> c' = c) /\
  (b = true -> let slot := (it_permit_id (vi_terms i), it_sequence (vi_terms i)) in let amount := it_amount_micro (vi_terms i) in
     exists p a, hc_permits c !! it_permit_id (vi_terms i) = Some p /\ hc_accounts c !! pm_subject p = Some a /\
       hc_ious c !! slot = None /\ pm_used p + amount <= pt_limit_micro (vp_terms (pm_verified p)) /\
       hc_permits c' = <[it_permit_id (vi_terms i) := mkPermit (pm_subject p) (pm_verified p) (pm_used p + amount) (pm_expired p)]> (hc_permits c) /\
       hc_ious c' = <[slot := mkIou (pm_subject p) (vi_digest i) (it_payee_commitment (vi_terms i)) amount]> (hc_ious c) /\
       hc_canonical_order c' = hc_canonical_order c ++ [slot]).
Proof.
  intros Hc Hi H. unfold record_iou in H. cbv zeta in H. set (slot := (it_permit_id (vi_terms i), it_sequence (vi_terms i))) in *.
  set (amount := it_amount_micro (vi_terms i)) in *. destruct (hc_ious c !! slot) as [prior|] eqn:Eprior.
  { case_match; [|done]. injection H as <- <-. by repeat (split; [done|]). }
  credit_inv H. injection H as <- <-. rename x into p, x4 into a. apply fail_if_ok in E0, E1, E3. apply ok_or_ok in E, E2, E4, E5, E6.
  apply checked_add_Some in E2 as [-> ?], E5 as [-> ?]. apply checked_sub_Some in E6 as [-> ?]. bool_prop.
  split; [|split; [done|split; [done|intros _; exists p, a; done]]].
  pose proof (ck_accounts c Hc _ a E4) as Ha. pose proof (ck_permits c Hc _ p E) as Hp.
  assert (forall s', total_by (may_promise s') (<[it_permit_id (vi_terms i) := mkPermit (pm_subject p) (pm_verified p) (pm_used p + amount) (pm_expired p)]> (hc_permits c)) =
    total_by (may_promise s') (hc_permits c) - (if bool_decide (pm_subject p = s') then amount else 0)) as Ht.
  { intros s'. rewrite (total_by_update _ _ _ p) by done. unfold may_promise at 2 3, permit_left. cbn.
    match goal with Hx : pm_expired p = false |- _ => rewrite Hx end. case_bool_decide; cbn; lia. }
  assert (forall s', total_by (owes s') (<[slot := mkIou (pm_subject p) (vi_digest i) (it_payee_commitment (vi_terms i)) amount]> (hc_ious c)) =
    total_by (owes s') (hc_ious c) + (if bool_decide (pm_subject p = s') then amount else 0)) as Ho.
  { intros s'. rewrite total_by_insert by done. unfold owes at 1. cbn. case_bool_decide; lia. }
  destruct Hc. split; cbn [hc_policy hc_accounts hc_permits hc_ious hc_canonical_order]; try done.
  - intros id q [[<- <-]|[_ Hq]]%lookup_insert_Some.
    + destruct Hp. split; cbn; try done; [lia|]. by rewrite lookup_insert_eq.
    + eapply permit_frame; [|by apply ck_permits0]. intros s' Hs'. by apply insert_keeps.
  - intros s' a' [[<- <-]|[Hne Ha']]%lookup_insert_Some.
    + destruct Ha. split; cbn [po_debt po_unused_authorized po_cap po_repayment_remainder hc_permits hc_ious hc_policy]; try done; [| |lia].
      * rewrite Ho, bool_decide_eq_true_2 by done. lia.
      * rewrite Ht, bool_decide_eq_true_2 by done. lia.
    + eapply account_frame; [| | |by apply ck_accounts0]; [done| |]; cbn; rewrite ?Ho, ?Ht, bool_decide_eq_false_2 by done; lia.
  - intros slot' j [[<- <-]|[_ Hj]]%lookup_insert_Some.
    + cbn. split; [lia|]. by rewrite lookup_insert_eq.
    + apply ck_ious0 in Hj as [? ?]. split; [done|]. by apply insert_keeps.
  - apply NoDup_app. split; [done|]. split; [|apply NoDup_singleton]. intros y Hy E2%list_elem_of_singleton.
    subst y. apply ck_listed0 in Hy as [w Hy]. unfold slot in *. congruence.
  - intros x. rewrite elem_of_app, list_elem_of_singleton, ck_listed0, lookup_insert_is_Some'. naive_solver.
Qed.

Lemma expire_ok c id h c' : credit_ok c -> expire_permit c id h = Ok c' ->
  credit_ok c' /\ hc_policy c' = hc_policy c /\ hc_ious c' = hc_ious c /\ hc_canonical_order c' = hc_canonical_order c /\
  exists p, hc_permits c !! id = Some p /\
    hc_permits c' = <[id := mkPermit (pm_subject p) (pm_verified p) (pm_used p) true]> (hc_permits c).
Proof.
  intros Hc H. unfold expire_permit in H. apply bind_ok in H as (p & E & H). unfold known in E. apply ok_or_ok in E.
  destruct (pm_expired p) eqn:Eexp.
  { injection H as <-. split; [done|]. split; [done|]. split; [done|]. split; [done|]. exists p. split; [done|].
    rewrite insert_id; [done|]. rewrite <- Eexp. by destruct p. }
  cbv zeta in H. credit_inv H. injection H as <-. rename x0 into a. apply fail_if_ok in E0. apply ok_or_ok in E1, E2.
  apply checked_sub_Some in E2 as [-> ?]. split; [|by split; [|split; [|split; [|exists p]]]].
  pose proof (ck_accounts c Hc _ a E1) as Ha. pose proof (ck_permits c Hc _ p E) as Hp.
  assert (forall s', total_by (may_promise s') (<[id := mkPermit (pm_subject p) (pm_verified p) (pm_used p) true]> (hc_permits c)) =
    total_by (may_promise s') (hc_permits c) - (if bool_decide (pm_subject p = s') then permit_left p else 0)) as Ht.
  { intros s'. rewrite (total_by_update _ _ _ p) by done. unfold may_promise at 2 3. cbn. rewrite Eexp, andb_true_r, andb_false_r. lia. }
  pose proof (permit_left_bounds c id p Hc E).
  destruct Hc. split; cbn [with_permits with_accounts hc_policy hc_accounts hc_permits hc_ious hc_canonical_order]; try done.
  - intros id' q [[<- <-]|[_ Hq]]%lookup_insert_Some.
    + destruct Hp. split; cbn; try done. by rewrite lookup_insert_eq.
    + eapply permit_frame; [|by apply ck_permits0]. intros s' Hs'. by apply insert_keeps.
  - intros s' a' [[<- <-]|[Hne Ha']]%lookup_insert_Some.
    + destruct Ha. split; cbn [po_debt po_unused_authorized po_cap po_repayment_remainder hc_permits hc_ious hc_policy]; try done; [|lia].
      rewrite Ht, bool_decide_eq_true_2 by done. lia.
    + eapply account_frame; [| | |by apply ck_accounts0]; [done|done|]. cbn. rewrite Ht, bool_decide_eq_false_2 by done. lia.
  - intros slot j Hj. apply ck_ious0 in Hj as [? ?]. split; [done|]. by apply insert_keeps.
Qed.

(** Under the invariant no operation panics. *)
Lemma expire_no_panic c id h : credit_ok c -> expire_permit c id h <> Err Panicked /\ expire_permit c id h <> Err (Refused Arithmetic).
Proof.
  intros Hc. unfold expire_permit, known, expect, refuse_if. destruct (hc_permits c !! id) as [p|] eqn:E; [|done]. cbn.
  destruct (pm_expired p) eqn:Ee; [done|]. destruct (_ <=? _); [done|]. cbn.
  destruct (pq_subject c id p (ck_permits c Hc id p E)) as [a Ha]. rewrite Ha. cbn.
  pose proof (total_by_lookup_le (may_promise (pm_subject p)) (hc_permits c) id p (fun k q => may_promise_nonneg c _ k q Hc) E) as Hle.
  unfold may_promise at 1 in Hle. rewrite bool_decide_eq_true_2, Ee in Hle by done. cbn in Hle.
  rewrite <- (ao_unused c _ a (ck_accounts c Hc _ a Ha)) in Hle. unfold checked_sub. by rewrite (proj2 (Z.leb_le _ _) Hle).
Qed.

(** ** The repayment loop *)
Definition paid_out (l : list CreditRepayment) : Z := sum_Z (map rp_amount_micro l).

(** IOUs that differ from [ious] at most in what a subject's have remaining,
    which never grows. *)
Definition lowered (subject : bytes) (ious ious' : gmap slot_id Iou) : Prop := forall slot,
  match ious !! slot, ious' !! slot with
  | Some i, Some i' => iou_subject i' = iou_subject i /\ iou_digest i' = iou_digest i /\ iou_payee i' = iou_payee i /\
      0 <= iou_remaining i' <= iou_remaining i /\ (iou_subject i <> subject -> i' = i)
  | None, None => True
  | _, _ => False
  end.
(** Oldest first: nothing is paid on a slot while an older one of the subject
    has a remainder. *)
Definition oldest_first (subject : bytes) (order : list slot_id) (ious ious' : gmap slot_id Iou) : Prop :=
  forall n1 n2 s1 s2 i1, (n1 < n2)%nat -> order !! n1 = Some s1 -> order !! n2 = Some s2 ->
    ious' !! s2 <> ious !! s2 -> ious' !! s1 = Some i1 -> iou_subject i1 = subject -> iou_remaining i1 = 0.

Definition due_on (subject : bytes) (ious : gmap slot_id Iou) (slot : slot_id) : Z :=
  match ious !! slot with Some i => owes subject i | None => 0 end.

Lemma lowered_refl subject ious : (forall slot i, ious !! slot = Some i -> 0 <= iou_remaining i) -> lowered subject ious ious.
Proof. intros H slot. destruct (ious !! slot) as [i|] eqn:E; [|done]. specialize (H slot i E). repeat split; try done; lia. Qed.
Lemma lowered_trans subject a b c : lowered subject a b -> lowered subject b c -> lowered subject a c.
Proof.
  intros H1 H2 slot. specialize (H1 slot). specialize (H2 slot). destruct (a !! slot), (b !! slot), (c !! slot); try done.
  destruct H1 as (A1 & A2 & A3 & A4 & A5), H2 as (B1 & B2 & B3 & B4 & B5).
  split; [congruence|]. split; [congruence|]. split; [congruence|]. split; [lia|]. intros Hne. rewrite B5, A5; congruence.
Qed.
Lemma due_on_nonneg subject ious : (forall slot i, ious !! slot = Some i -> 0 <= iou_remaining i) ->
  forall order, 0 <= sum_Z (map (due_on subject ious) order).
Proof.
  intros H order. induction order as [|slot order IH]; [done|]. cbn. change (foldr Z.add 0) with sum_Z.
  unfold due_on at 1, owes. destruct (ious !! slot) as [i|] eqn:E; [specialize (H slot i E); case_bool_decide; lia|lia].
Qed.
Lemma due_on_frame subject ious slot i order : slot ∉ order ->
  map (due_on subject (<[slot := i]> ious)) order = map (due_on subject ious) order.
Proof.
  intros Hn. apply map_ext_in. intros s Hs%list_elem_of_In. unfold due_on. rewrite lookup_insert_ne; [done|by intros ->].
Qed.

Lemma repay_spec subject order ious budget acc :
  0 <= budget -> NoDup order -> (forall slot, slot ∈ order -> is_Some (ious !! slot)) ->
  (forall slot i, ious !! slot = Some i -> 0 <= iou_remaining i) ->
  exists ious' left acc', repay subject order ious budget acc = Ok (ious', left, acc ++ acc') /\
    left = budget - paid_out acc' /\ left = Z.max 0 (budget - sum_Z (map (due_on subject ious) order)) /\
    lowered subject ious ious' /\ (forall slot, slot ∉ order -> ious' !! slot = ious !! slot) /\
    total_by (owes subject) ious' = total_by (owes subject) ious - paid_out acc' /\
    Forall (fun r => 0 < rp_amount_micro r) acc' /\ oldest_first subject order ious ious' /\ (budget = 0 -> ious' = ious).
Proof.
  revert ious budget acc. induction order as [|slot order IH]; intros ious budget acc Hb Hn Hin Hr.
  { exists ious, budget, []. cbn. rewrite app_nil_r. unfold paid_out, sum_Z. cbn.
    split; [done|]. split; [lia|]. split; [lia|]. split; [by apply lowered_refl|]. split; [done|]. split; [lia|]. split; [done|].
    split; [|done]. intros n1 n2 s1 s2 i1 _ H. done. }
  apply NoDup_cons in Hn as [Hslot Hn]. destruct (Hin slot ltac:(left)) as [i Ei]. pose proof (Hr slot i Ei) as Hi.
  assert (sum_Z (map (due_on subject ious) (slot :: order)) = owes subject i + sum_Z (map (due_on subject ious) order)) as Esum
    by (cbn; unfold due_on at 1; by rewrite Ei).
  pose proof (due_on_nonneg subject ious Hr order) as Hsum. cbn [repay]. rewrite Esum.
  destruct (Z.eqb_spec budget 0) as [->|Hb0].
  { exists ious, 0, []. rewrite app_nil_r. unfold paid_out. cbn. assert (0 <= owes subject i) by (unfold owes; case_bool_decide; lia).
    split; [done|]. split; [unfold sum_Z; cbn; lia|]. split; [lia|]. split; [by apply lowered_refl|]. split; [done|].
    split; [unfold sum_Z; cbn; lia|]. split; [done|]. split; [|done]. intros n1 n2 s1 s2 i1 _ _ _ Hne. done. }
  unfold expect. rewrite Ei. cbn [ok_or mbind result_bind].
  destruct (negb (bool_decide (iou_subject i = subject)) || (iou_remaining i =? 0)) eqn:Eskip.
  - assert (iou_subject i = subject -> iou_remaining i = 0) as Hz.
    { intros E. rewrite bool_decide_eq_true_2 in Eskip by done. by apply Z.eqb_eq. }
    assert (owes subject i = 0) as -> by (unfold owes; case_bool_decide; auto). rewrite Z.add_0_l.
    destruct (IH ious budget acc Hb Hn) as (ious' & left & acc' & E & H1 & H2 & H3 & H4 & H5 & H6 & H7 & H8);
      [intros; apply Hin; by right|done|]. exists ious', left, acc'.
    split; [done|]. split; [done|]. split; [done|]. split; [done|]. split; [intros s Hs; apply H4; intros ?; apply Hs; by right|].
    split; [done|]. split; [done|]. split; [|done]. intros [|n1] [|n2] s1 s2 i1 Hlt L1 L2 Hne Hi1 Hsub; try lia; cbn in L1, L2.
    + injection L1 as <-. rewrite H4, Ei in Hi1 by done. injection Hi1 as <-. by apply Hz.
    + eapply (H7 n1 n2); try done. lia.
  - apply orb_false_iff in Eskip as [Es Er]. apply negb_false_iff, bool_decide_eq_true_1 in Es. apply Z.eqb_neq in Er.
    assert (owes subject i = iou_remaining i) as Eow by (unfold owes; by rewrite bool_decide_eq_true_2).
    set (amount := Z.min budget (iou_remaining i)). set (i' := mkIou (iou_subject i) (iou_digest i) (iou_payee i) (iou_remaining i - amount)).
    destruct (IH (<[slot := i']> ious) (budget - amount) (acc ++ [mkRepayment (iou_digest i) (iou_payee i) amount]))
      as (ious' & left & acc' & E & H1 & H2 & H3 & H4 & H5 & H6 & H7 & H8); [lia|done| | |].
    { intros s Hs. apply lookup_insert_is_Some'. right. apply Hin. by right. }
    { intros s j [[<- <-]|[_ Hj]]%lookup_insert_Some; [cbn; lia|by eapply Hr]. }
    rewrite due_on_frame in H2 by done. exists ious', left, (mkRepayment (iou_digest i) (iou_payee i) amount :: acc').
    assert (ious' !! slot = Some i') as Eslot by (rewrite H4 by done; apply lookup_insert_eq).
    assert (paid_out (mkRepayment (iou_digest i) (iou_payee i) amount :: acc') = amount + paid_out acc') as Epaid by done.
    rewrite Epaid, Eow. split; [rewrite E, <- app_assoc; done|]. split; [lia|]. split; [lia|]. split.
    { eapply lowered_trans; [|exact H3]. intros s. destruct (decide (slot = s)) as [<-|Hne].
      - rewrite Ei, lookup_insert_eq. cbn. repeat split; try lia. by rewrite Es.
      - rewrite lookup_insert_ne by done. destruct (ious !! s) as [j|] eqn:Ej; [|done]. specialize (Hr s j Ej). repeat split; try done; lia. }
    split; [intros s Hs; rewrite H4 by (intros ?; apply Hs; by right); rewrite lookup_insert_ne; [done|intros ->; apply Hs; left]|].
    split; [rewrite H5, (total_by_update _ _ _ i) by done; rewrite Eow; unfold owes at 2; cbn; rewrite bool_decide_eq_true_2 by done; lia|].
    split; [constructor; [cbn; lia|done]|]. split; [|lia].
    intros [|n1] [|n2] s1 s2 i1 Hlt L1 L2 Hne Hi1 Hsub; try lia; cbn in L1, L2.
    + injection L1 as <-. rewrite Eslot in Hi1. injection Hi1 as <-. cbn. destruct (decide (amount = iou_remaining i)) as [->|Hpart]; [lia|].
      exfalso. apply Hne. rewrite H8 by lia. rewrite lookup_insert_ne; [done|]. intros ->. apply Hslot. by eapply list_elem_of_lookup_2.
    + eapply (H7 n1 n2); try done; [lia|]. rewrite lookup_insert_ne; [done|]. intros ->. apply Hslot. by eapply list_elem_of_lookup_2.
Qed.

Lemma order_total c s : credit_ok c -> sum_Z (map (due_on s (hc_ious c)) (hc_canonical_order c)) = total_by (owes s) (hc_ious c).
Proof.
  intros Hc. assert (hc_canonical_order c ≡ₚ (map_to_list (hc_ious c)).*1) as E.
  { apply NoDup_Permutation; [apply (ck_order c Hc)|apply NoDup_fst_map_to_list|]. intros slot. rewrite (ck_listed c Hc), list_elem_of_fmap.
    split; [intros [i Hi]; exists (slot, i); split; [done|by apply elem_of_map_to_list]|].
    intros ([k i] & -> & Hi). apply elem_of_map_to_list in Hi. by exists i. }
  rewrite E. unfold total_by, map_total. rewrite map_to_list_fmap, <- list_fmap_compose. change (map ?f) with (fmap (M := list) f).
  rewrite <- list_fmap_compose. f_equal. apply list_fmap_ext. intros n [k i] Hi%list_elem_of_lookup_2.
  apply elem_of_map_to_list in Hi. cbn. unfold due_on. by rewrite Hi.
Qed.

(** What a release of [gross] does. *)
Record released (c : HumanShareCredit) (s : bytes) (a : Position) (epoch : Z) (gross : Amount)
    (split : ShareRepayment) (c' : HumanShareCredit) : Prop := {
  rl_gross : sr_gross_released split = gross;
  rl_conserved : sr_recipient_available split + paid_out (sr_repayments split) = gross;
  rl_available : 0 <= sr_recipient_available split;
  rl_amount : paid_out (sr_repayments split) =
    Z.min ((gross * cy_repayment_ppm (hc_policy c) + po_repayment_remainder a) / MILLION) (po_debt a);
  rl_debt : sr_remaining_debt_micro split = po_debt a - paid_out (sr_repayments split);
  rl_account : hc_accounts c' = <[s := mkPosition (po_cap a) (sr_remaining_debt_micro split) (po_unused_authorized a)
    (if sr_remaining_debt_micro split =? 0 then 0
     else (gross * cy_repayment_ppm (hc_policy c) + po_repayment_remainder a) mod MILLION) (Some (epoch, split))]> (hc_accounts c);
  rl_positive : Forall (fun r => 0 < rp_amount_micro r) (sr_repayments split);
  rl_lowered : lowered s (hc_ious c) (hc_ious c');
  rl_oldest : oldest_first s (hc_canonical_order c) (hc_ious c) (hc_ious c');
  rl_frame : hc_policy c' = hc_policy c /\ hc_permits c' = hc_permits c /\ hc_canonical_order c' = hc_canonical_order c;
}.

Lemma repayment_carry n ppm r : 0 <= n ->
  n / MILLION * ppm + ((n mod MILLION) * ppm + r) / MILLION = (n * ppm + r) / MILLION /\
  ((n mod MILLION) * ppm + r) mod MILLION = (n * ppm + r) mod MILLION.
Proof.
  intros Hn. assert (MILLION <> 0) by (unfold MILLION; lia). pose proof (Z.div_mod n MILLION ltac:(done)) as E.
  assert (n * ppm + r = (n mod MILLION * ppm + r) + (n / MILLION * ppm) * MILLION) as -> by (rewrite E at 1; ring).
  rewrite Z.div_add, Z.mod_add by done. split; [lia|done].
Qed.

Definition fresh_epoch (a : Position) (epoch : Z) : Prop :=
  match po_last_share a with Some (last, _) => last < epoch | None => True end.

Lemma release_ok c s a epoch gross : credit_ok c -> hc_accounts c !! s = Some a -> fresh_epoch a epoch -> 0 <= gross ->
  exists split c', release_share c s epoch gross = Ok (split, true, c') /\ released c s a epoch gross split c' /\ credit_ok c'.
Proof.
  intros Hc Ha Hf Hg. pose proof (ck_accounts c Hc s a Ha) as HA. pose proof (debt_nonneg c s Hc) as Hd0.
  pose proof (ck_ppm c Hc) as Hppm. pose proof (ao_remainder c s a HA) as Hrem.
  destruct (repayment_carry gross (cy_repayment_ppm (hc_policy c)) (po_repayment_remainder a) Hg) as [Ediv Emod].
  set (permitted := (gross * cy_repayment_ppm (hc_policy c) + po_repayment_remainder a) / MILLION) in *.
  set (carry := (gross * cy_repayment_ppm (hc_policy c) + po_repayment_remainder a) mod MILLION) in *.
  assert (0 < MILLION) as HM by (unfold MILLION; lia).
  assert (0 <= permitted) as Hp0 by (apply Z.div_pos; [nia|done]).
  assert (permitted <= gross) as Hp1.
  { apply Z.lt_succ_r, Z.div_lt_upper_bound; [done|]. nia. }
  set (amount := Z.min permitted (po_debt a)).
  assert (0 <= amount) by (pose proof (ao_debt c s a HA); lia).
  destruct (repay_spec s (hc_canonical_order c) (hc_ious c) amount []) as (ious' & left & acc & E & H1 & H2 & H3 & _ & H5 & H6 & H7 & _);
    [done|apply (ck_order c Hc)|intros slot; apply (ck_listed c Hc)|intros slot i Hi; apply (ck_ious c Hc slot i Hi)|].
  rewrite order_total in H2 by done. rewrite <- (ao_debt c s a HA) in H2, H5.
  assert (left = 0) as El by lia. assert (paid_out acc = amount) as Epaid by lia. clear H1 H2. subst left.
  set (split := mkShareRepayment gross (gross - amount) (po_debt a - amount) acc).
  set (c' := mkCredit (hc_policy c)
    (<[s := mkPosition (po_cap a) (po_debt a - amount) (po_unused_authorized a) (if po_debt a - amount =? 0 then 0 else carry) (Some (epoch, split))]> (hc_accounts c))
    (hc_permits c) ious' (hc_canonical_order c)).
  assert (release_share c s epoch gross = Ok (split, true, c')) as Erel.
  { unfold release_share, known. rewrite Ha. cbn [ok_or mbind result_bind]. rewrite Ediv, Emod. fold amount. fold carry. rewrite E.
    cbn [app mbind result_bind refuse_if fail_if Z.eqb negb]. unfold fresh_epoch in Hf. destruct (po_last_share a) as [[last sp]|]; [|done].
    rewrite (proj2 (Z.eqb_neq _ _)), (proj2 (Z.ltb_ge _ _)) by lia. done. }
  exists split, c'. split; [done|].
  split.
  { split; cbn [split c' sr_gross_released sr_recipient_available sr_repayments sr_remaining_debt_micro hc_accounts hc_ious hc_policy hc_permits hc_canonical_order];
      try done; lia. }
  pose proof (Z.mod_pos_bound (gross * cy_repayment_ppm (hc_policy c) + po_repayment_remainder a) MILLION HM) as Hcarry. fold carry in Hcarry.
  assert (forall s', s' <> s -> total_by (owes s') ious' = total_by (owes s') (hc_ious c)) as Hother.
  { intros s' Hne. unfold total_by. f_equal. apply map_eq. intros slot. rewrite !lookup_fmap. specialize (H3 slot).
    destruct (hc_ious c !! slot) as [i|], (ious' !! slot) as [i'|]; try done. destruct H3 as (E1 & _ & _ & _ & E5). cbn. f_equal.
    unfold owes. rewrite E1. case_bool_decide as Es; [|done]. rewrite E5; [done|congruence]. }
  destruct Hc. split; cbn [c' hc_policy hc_accounts hc_permits hc_ious hc_canonical_order]; try done.
  - intros id p Hp. eapply permit_frame; [|by apply ck_permits0]. intros s' Hs'. by apply insert_keeps.
  - intros s' a' [[<- <-]|[Hne Ha']]%lookup_insert_Some.
    + destruct HA. split; unfold c'; cbn [po_debt po_unused_authorized po_cap po_repayment_remainder hc_permits hc_ious hc_policy]; try done;
        [lia|lia|]. case_match; [split; [done|exact HM]|done].
    + eapply account_frame; [| | |by apply ck_accounts0]; [done|by apply Hother|done].
  - intros slot i Hi. specialize (H3 slot). rewrite Hi in H3. destruct (hc_ious c !! slot) as [j|] eqn:Ej; [|done].
    destruct H3 as (E1 & _ & _ & E4 & _). rewrite E1. split; [lia|]. apply insert_keeps. by apply (ck_ious0 slot j).
  - intros slot. rewrite ck_listed0. specialize (H3 slot).
    destruct (hc_ious c !! slot), (ious' !! slot); try done; split; intros _; by eexists.
Qed.

(** ** Runs *)

(** What changed debts: an IOU recorded against its borrower, a split applied. *)
Inductive event := Recorded (subject : bytes) (i : VerifiedCreditIou) | Released (subject : bytes) (s : ShareRepayment).

Inductive credit_run : list event -> HumanShareCredit -> Prop :=
| credit_start p c : cy_max_debt_per_human p <= U64_MAX -> 0 <= cy_repayment_ppm p -> credit_new p = Ok c -> credit_run [] c
| credit_enroll h c s cap c' : credit_run h c -> 0 <= cap -> enroll c s cap = Ok c' -> credit_run h c'
| credit_register h c s v height b c' : credit_run h c -> 0 <= pt_limit_micro (vp_terms v) <= U64_MAX ->
    register_permit c s v height = Ok (b, c') -> credit_run h c'
| credit_replayed h c i height c' : credit_run h c -> 0 < it_amount_micro (vi_terms i) ->
    record_iou c i height = Ok (false, c') -> credit_run h c'
| credit_record h c i height p c' : credit_run h c -> 0 < it_amount_micro (vi_terms i) ->
    record_iou c i height = Ok (true, c') -> hc_permits c !! it_permit_id (vi_terms i) = Some p ->
    credit_run (h ++ [Recorded (pm_subject p) i]) c'
| credit_expire h c id height c' : credit_run h c -> expire_permit c id height = Ok c' -> credit_run h c'
| credit_release h c s epoch gross split c' : credit_run h c -> 0 <= gross ->
    release_share c s epoch gross = Ok (split, true, c') -> credit_run (h ++ [Released s split]) c'.

Definition under_permit (id : bytes) (e : event) : Z :=
  match e with Recorded _ i => if bool_decide (it_permit_id (vi_terms i) = id) then it_amount_micro (vi_terms i) else 0 | _ => 0 end.
Definition borrowed (s : bytes) (e : event) : Z :=
  match e with Recorded s' i => if bool_decide (s' = s) then it_amount_micro (vi_terms i) else 0 | _ => 0 end.
Definition repaid (s : bytes) (e : event) : Z :=
  match e with Released s' sp => if bool_decide (s' = s) then paid_out (sr_repayments sp) else 0 | _ => 0 end.
Definition slot_of (e : event) : list slot_id :=
  match e with Recorded _ i => [(it_permit_id (vi_terms i), it_sequence (vi_terms i))] | _ => [] end.
Definition sum_of (f : event -> Z) (h : list event) : Z := sum_Z (map f h).
Lemma sum_of_app f h h' : sum_of f (h ++ h') = sum_of f h + sum_of f h'.
Proof. unfold sum_of, sum_Z. induction h as [|e h IH]; [done|]. cbn. rewrite IH. lia. Qed.
Lemma sum_of_one f e : sum_of f [e] = f e.
Proof. unfold sum_of, sum_Z. cbn. lia. Qed.

Record ledgered (h : list event) (c : HumanShareCredit) : Prop := {
  lg_ok : credit_ok c;
  lg_permit id : sum_of (under_permit id) h = match hc_permits c !! id with Some p => pm_used p | None => 0 end;
  lg_debt s : sum_of (borrowed s) h - sum_of (repaid s) h = total_by (owes s) (hc_ious c);
  lg_slots : NoDup (concat (map slot_of h));
  lg_known slot : slot ∈ concat (map slot_of h) -> is_Some (hc_ious c !! slot);
  lg_from slot x : hc_ious c !! slot = Some x -> exists s i, Recorded s i ∈ h /\
    slot = (it_permit_id (vi_terms i), it_sequence (vi_terms i)) /\ iou_digest x = vi_digest i;
}.
Lemma from_app (h h' : list event) (slot : slot_id) (d : bytes) :
  (exists s i, Recorded s i ∈ h /\ slot = (it_permit_id (vi_terms i), it_sequence (vi_terms i)) /\ d = vi_digest i) ->
  exists s i, Recorded s i ∈ h ++ h' /\ slot = (it_permit_id (vi_terms i), it_sequence (vi_terms i)) /\ d = vi_digest i.
Proof. intros (s & i & Hi & E). exists s, i. split; [|done]. apply elem_of_app. by left. Qed.

Lemma ledgered_frame h c c' : ledgered h c -> credit_ok c' ->
  (forall id, match hc_permits c' !! id with Some p => pm_used p | None => 0 end =
              match hc_permits c !! id with Some p => pm_used p | None => 0 end) ->
  hc_ious c' = hc_ious c -> ledgered h c'.
Proof. intros [] H E1 E2. split; try done; [intros id; by rewrite E1|intros s; by rewrite E2|intros slot Hs; rewrite E2; by apply lg_known0|intros slot x; rewrite E2; apply lg_from0]. Qed.

Lemma release_fresh c s epoch gross split c' : release_share c s epoch gross = Ok (split, true, c') ->
  exists a, hc_accounts c !! s = Some a /\ fresh_epoch a epoch.
Proof.
  unfold release_share, known. intros H. apply bind_ok in H as (a & Ha%ok_or_ok & H). exists a. split; [done|].
  unfold fresh_epoch. destruct (po_last_share a) as [[last sp]|]; [|done].
  destruct (Z.eqb_spec epoch last); [by case_match|]. destruct (Z.ltb_spec epoch last); [done|]. lia.
Qed.

Lemma run_ledgered h c : credit_run h c -> ledgered h c.
Proof.
  induction 1 as [p c H1 H2 H|h c s cap c' _ IH Hcap H|h c s v height b c' _ IH Hv H|h c i height c' _ IH Hi H
    |h c i height p c' _ IH Hi H Hp|h c id height c' _ IH H|h c s epoch gross split c' _ IH Hg H].
  - pose proof (credit_new_ok _ _ H1 H2 H) as Hok. unfold credit_new in H. apply bind_ok in H as (? & _ & [= <-]).
    split; cbn; try done; [apply NoDup_nil_2|by intros slot ?%elem_of_nil].
  - destruct (enroll_ok _ _ _ _ (lg_ok _ _ IH) Hcap H) as (Hok & _ & ->). by apply (ledgered_frame h c).
  - destruct (register_ok _ _ _ _ _ _ (lg_ok _ _ IH) Hv H) as (Hok & E1 & E2 & E3 & Hf & Ht).
    apply (ledgered_frame h c); [done|done| |done]. intros id. destruct b; [|by rewrite Hf].
    destruct (Ht eq_refl) as (Hn & -> & _). destruct (decide (id = vp_id v)) as [->|Hne].
    + by rewrite lookup_insert_eq, Hn.
    + by rewrite lookup_insert_ne.
  - destruct (record_ok _ _ _ _ _ (lg_ok _ _ IH) Hi H) as (_ & _ & Hf & _). by rewrite Hf.
  - destruct (record_ok _ _ _ _ _ (lg_ok _ _ IH) Hi H) as (Hok & _ & _ & Ht).
    destruct (Ht eq_refl) as (p' & a & Hp' & Ha & Hn & Hle & E1 & E2 & E3). rewrite Hp in Hp'. injection Hp' as <-.
    destruct IH as [_ I1 I2 I3 I4 I5]. split; [done| | | | |].
    + intros id. rewrite sum_of_app, sum_of_one, I1, E1. cbn [under_permit]. case_bool_decide as E; subst.
      * by rewrite Hp, lookup_insert_eq.
      * rewrite lookup_insert_ne by done. lia.
    + intros s. rewrite !sum_of_app, !sum_of_one, E2, total_by_insert by done. unfold owes at 1. cbn [borrowed repaid iou_subject iou_remaining].
      rewrite <- I2. lia.
    + rewrite map_app, concat_app. cbn. apply NoDup_app. split; [done|]. split; [|apply NoDup_singleton].
      intros x Hx%I4 E%list_elem_of_singleton. subst x. rewrite Hn in Hx. by destruct Hx.
    + intros slot. rewrite map_app, concat_app, elem_of_app, E2, lookup_insert_is_Some'. cbn. rewrite list_elem_of_singleton. naive_solver.
    + intros slot x. rewrite E2. intros [[<- <-]|[_ Hx]]%lookup_insert_Some; [|by apply from_app, (I5 slot x)].
      exists (pm_subject p), i. split; [|done]. apply elem_of_app. right. by apply list_elem_of_singleton.
  - destruct (expire_ok _ _ _ _ (lg_ok _ _ IH) H) as (Hok & _ & E1 & _ & p & Hp & E2).
    apply (ledgered_frame h c); [done|done| |done]. intros id'. rewrite E2. destruct (decide (id' = id)) as [->|Hne].
    + by rewrite lookup_insert_eq, Hp.
    + by rewrite lookup_insert_ne.
  - destruct (release_fresh _ _ _ _ _ _ H) as (a & Ha & Hf).
    destruct (release_ok c s a epoch gross (lg_ok _ _ IH) Ha Hf Hg) as (split' & c2 & E & Hr & Hok).
    rewrite H in E. injection E as <- <-. destruct Hr as [_ _ _ _ Hdebt Hacc _ Hlow _ (_ & Eperm & _)]. destruct IH as [Hc I1 I2 I3 I4 I5].
    split; [done| | | | |].
    + intros id. rewrite sum_of_app, sum_of_one, I1, Eperm. cbn. lia.
    + intros s'. rewrite !sum_of_app, !sum_of_one. cbn [borrowed repaid].
      pose proof (ck_accounts c' Hok s) as HA'. rewrite Hacc in HA'. specialize (HA' _ (lookup_insert_eq _ _ _)).
      pose proof (ao_debt _ _ _ HA') as Hd'. cbn in Hd'. pose proof (ao_debt _ _ _ (ck_accounts c Hc s a Ha)) as Hd.
      specialize (I2 s'). case_bool_decide as Es; [subst s'; lia|].
      assert (total_by (owes s') (hc_ious c') = total_by (owes s') (hc_ious c)) as ->; [|lia].
      unfold total_by. f_equal. apply map_eq. intros slot. rewrite !lookup_fmap. specialize (Hlow slot).
      destruct (hc_ious c !! slot) as [i|], (hc_ious c' !! slot) as [i'|]; try done. destruct Hlow as (E1 & _ & _ & _ & E5). cbn. f_equal.
      unfold owes. rewrite E1. case_bool_decide as Es'; [|done]. rewrite E5; [done|congruence].
    + rewrite map_app, concat_app. cbn. by rewrite app_nil_r.
    + intros slot. rewrite map_app, concat_app. cbn. rewrite app_nil_r. intros Hs%I4. specialize (Hlow slot).
      destruct Hs as [i Hi]. rewrite Hi in Hlow. destruct (hc_ious c' !! slot); [by eexists|done].
    + intros slot x Hx. specialize (Hlow slot). rewrite Hx in Hlow. destruct (hc_ious c !! slot) as [y|] eqn:Hy; [|done].
      destruct Hlow as (_ & -> & _). by apply from_app, (I5 slot y).
Qed.

(** C39: Exposure is bounded.  In every state of the credit engine the IOUs
    ever recorded under a permit come to at most its limit, each on a slot of
    its own, however many copies of the permit signed them; and a human's
    debt is exactly what was recorded for them less what was repaid, and with
    every live allowance it stays within their cap. *)
Theorem credit_exposure h c : credit_run h c ->
  (forall id p, hc_permits c !! id = Some p ->
     sum_of (under_permit id) h = pm_used p /\ pm_used p <= pt_limit_micro (vp_terms (pm_verified p))) /\
  NoDup (concat (map slot_of h)) /\
  forall s a, hc_accounts c !! s = Some a ->
    0 <= po_debt a /\ po_debt a = sum_of (borrowed s) h - sum_of (repaid s) h /\
    po_debt a + total_by (may_promise s) (hc_permits c) <= po_cap a <= cy_max_debt_per_human (hc_policy c).
Proof.
  intros [Hc I1 I2 I3 _]%run_ledgered. split; [|split; [done|]].
  - intros id p Hp. specialize (I1 id). rewrite Hp in I1. split; [done|]. apply (pq_used c id p (ck_permits c Hc id p Hp)).
  - intros s a Ha. pose proof (ck_accounts c Hc s a Ha) as []. rewrite I2, ao_debt0, <- ao_unused0. pose proof (debt_nonneg c s Hc). lia.
Qed.

(** A release of share always settles.  On an account and an epoch after
    its last one it succeeds: what is repaid is the policy's fraction of the
    release with the carried remainder, but no more than the debt; repayments
    and remainder come to the release, to the unit; it goes to the oldest
    IOUs first and to nobody else's; and releasing the same epoch again
    changes nothing. *)
Theorem release_settles h c s a epoch gross : credit_run h c -> hc_accounts c !! s = Some a -> fresh_epoch a epoch -> 0 <= gross ->
  exists split c', release_share c s epoch gross = Ok (split, true, c') /\
    sr_recipient_available split + paid_out (sr_repayments split) = gross /\ 0 <= sr_recipient_available split /\
    paid_out (sr_repayments split) =
      Z.min ((gross * cy_repayment_ppm (hc_policy c) + po_repayment_remainder a) / MILLION) (po_debt a) /\
    debt_micro c' s = Some (po_debt a - paid_out (sr_repayments split)) /\
    lowered s (hc_ious c) (hc_ious c') /\ oldest_first s (hc_canonical_order c) (hc_ious c) (hc_ious c') /\
    release_share c' s epoch gross = Ok (split, false, c').
Proof.
  intros Hr Ha Hf Hg. destruct (release_ok c s a epoch gross (lg_ok _ _ (run_ledgered h c Hr)) Ha Hf Hg) as (split & c' & E & [] & _).
  exists split, c'. split; [done|]. split; [done|]. split; [done|]. split; [done|].
  split; [unfold debt_micro; by rewrite rl_account0, lookup_insert_eq, <- rl_debt0|]. split; [done|]. split; [done|].
  unfold release_share, known. rewrite rl_account0, lookup_insert_eq. cbn. by rewrite Z.eqb_refl, rl_gross0, Z.eqb_refl.
Qed.

(** Successive releases to a subject that stays in debt: what was released
    and what was repaid. *)
Inductive releases (s : bytes) (c : HumanShareCredit) : Z -> Z -> HumanShareCredit -> Prop :=
| releases_none : releases s c 0 0 c
| releases_more g paid c1 epoch gross split c2 : releases s c g paid c1 -> 0 <= gross ->
    release_share c1 s epoch gross = Ok (split, true, c2) -> 0 < sr_remaining_debt_micro split ->
    releases s c (g + gross) (paid + paid_out (sr_repayments split)) c2.

(** No fraction of a repayment is lost.  Over any number of releases to
    an account that stays in debt, what was repaid is the policy's fraction
    of all that was released, rounded down once: however small the releases,
    the remainder carries. *)
Theorem repayment_carries h c s a g paid c' : credit_run h c -> hc_accounts c !! s = Some a -> po_repayment_remainder a = 0 ->
  releases s c g paid c' -> paid = g * cy_repayment_ppm (hc_policy c) / MILLION.
Proof.
  intros Hrun Ha Hrem Hrel.
  assert (credit_ok c' /\ hc_policy c' = hc_policy c /\ exists a', hc_accounts c' !! s = Some a' /\
    paid * MILLION + po_repayment_remainder a' = g * cy_repayment_ppm (hc_policy c)) as (Hok & _ & a' & Ha' & E).
  { induction Hrel as [|g paid c1 epoch gross split c2 _ (Hok & Ep & a1 & Ha1 & E) Hg H Hd].
    - split; [apply run_ledgered in Hrun; apply Hrun|]. split; [done|]. exists a. split; [done|]. lia.
    - destruct (release_fresh _ _ _ _ _ _ H) as (a1' & Ha1' & Hf). rewrite Ha1 in Ha1'. injection Ha1' as <-.
      destruct (release_ok c1 s a1 epoch gross Hok Ha1 Hf Hg) as (split' & c2' & E2 & [] & Hok2).
      rewrite H in E2. injection E2 as <- <-. split; [done|]. split; [destruct rl_frame0 as (-> & _); done|].
      rewrite rl_account0. eexists. split; [apply lookup_insert_eq|]. cbn [po_repayment_remainder].
      rewrite (proj2 (Z.eqb_neq _ _)) by lia. rewrite Ep in rl_amount0 |- *.
      pose proof (Z.div_mod (gross * cy_repayment_ppm (hc_policy c) + po_repayment_remainder a1) MILLION ltac:(done)). lia. }
  pose proof (ao_remainder _ _ _ (ck_accounts c' Hok s a' Ha')) as Hb.
  apply (Z.div_unique_pos _ _ _ (po_repayment_remainder a')); [lia|]. lia.
Qed.
