(* ===== verification/OutboxTheorems.v ===== *)
(** * OutboxTheorems: the file journal keeps the journal's promise

    What the encrypted file decodes to is a run of coupons within the permit;
    such a run, written, is read back; hence [FileCreditJournal] is a
    [LawfulJournal], and a directory is initialised at most once. *)

From Stdlib Require Import ZArith Lia.
From stdpp Require Import base list gmap sets strings.
From S2P Require Import Prelude Codec Crypto Settlement CreditPermit CreditJournal.
Open Scope Z_scope.

(** * an honest wallet never promises more than its permit

    [LawfulJournal] is what a journal promises its caller: what it has
    recorded only grows, by the coupon of a compare-and-record whose expected
    use is the recorded one; a success is always recorded, and a failure may
    have been.  Against that interface alone a wallet's coupons are in the
    outbox, which is numbered without gaps and stays within the permit.  The
    file journal keeps the promise when the cipher decrypts what it
    encrypted. *)


Definition amounts (cs : list SignedCreditIou) : Z := sum_Z (map (fun c => it_amount_micro (si_terms c)) cs).
Lemma amounts_app cs cs' : amounts (cs ++ cs') = amounts cs + amounts cs'.
Proof. unfold amounts. by rewrite map_app, sum_Z_app. Qed.
Lemma amounts_one c : amounts [c] = it_amount_micro (si_terms c).
Proof. unfold amounts, sum_Z. cbn. lia. Qed.
Definition use_of (cs : list SignedCreditIou) : CreditUse := mkCreditUse (amounts cs) (Z.of_nat (length cs)).
(** The fields have their types' ranges. *)
Definition iou_typed (t : CreditIouTerms) : Prop :=
  length (it_permit_id t) = 32%nat /\ is_u64 (it_sequence t) /\ length (it_payee_commitment t) = 32%nat /\
  is_u64 (it_amount_micro t).
Lemma amounts_nonneg cs : Forall (fun c => iou_typed (si_terms c)) cs -> 0 <= amounts cs.
Proof.
  unfold amounts. induction 1 as [|c cs (_ & _ & _ & Ha) _ IH]; cbn; [done|].
  unfold is_u64 in Ha. change (foldr Z.add 0) with sum_Z. lia.
Qed.

Lemma amounts_cons c cs : amounts (c :: cs) = it_amount_micro (si_terms c) + amounts cs.
Proof. change (c :: cs) with ([c] ++ cs). by rewrite amounts_app, amounts_one. Qed.
Lemma amounts_sublist cs cs' : sublist cs cs' -> Forall (fun c => iou_typed (si_terms c)) cs' -> amounts cs <= amounts cs'.
Proof.
  induction 1 as [|x cs cs' _ IH|x cs cs' _ IH]; intros Hf; [done|..]; apply Forall_cons in Hf as [(_ & _ & _ & Hx) Hf];
    specialize (IH Hf); unfold is_u64 in Hx; rewrite ?amounts_cons; lia.
Qed.

(** [c] was recorded after the use [e]. *)
Definition recorded_after (before after : option (list SignedCreditIou)) (e : CreditUse) (c : SignedCreditIou) : Prop :=
  exists cs, before = Some cs /\ e = use_of cs /\ after = Some (cs ++ [c]).

Class LawfulJournal (J : Type) `{CreditUseJournal J} (permit : VerifiedCreditPermit) := {
  (** Journals opened for this permit, and what they durably hold. *)
  owned : J -> Prop;
  recorded : J -> option (list SignedCreditIou);
  load_reads j u : owned j -> load j (vp_id permit) = Ok u -> exists cs, recorded j = Some cs /\ u = use_of cs;
  record_outcome j e n c r j' : owned j -> iou_typed (si_terms c) -> compare_and_record j e n c = (r, j') ->
    owned j' /\
    match r with
    | Ok true => recorded_after (recorded j) (recorded j') e c
    | Ok false => recorded j' = recorded j
    | Err _ => recorded j' = recorded j \/ recorded_after (recorded j) (recorded j') e c
    end;
}.

Section Wallet.
Context {P : Primitives} {L : PrimitivesLaws} {J : Type} `{CreditUseJournal J}.
Context (borrower : SigningKey) (permit : VerifiedCreditPermit) `{!LawfulJournal J permit}.

(** What one attempt did: nothing, or it recorded the next coupon. *)
Definition next_coupon (cs : list SignedCreditIou) (amount : Z) (payee : bytes) (c : SignedCreditIou) : Prop :=
  amounts cs + amount <= pt_limit_micro (vp_terms permit) /\ Z.of_nat (length cs) < U64_MAX /\
  sign_credit_iou borrower permit (mkIouTerms (vp_id permit) (Z.of_nat (length cs)) payee amount) = Ok c.
Lemma signed_terms t c : sign_credit_iou borrower permit t = Ok c -> si_terms c = t.
Proof. unfold sign_credit_iou. intros H1. repeat (apply bind_ok in H1 as (? & _ & H1)). by injection H1 as <-. Qed.

Lemma sign_next_spec amount payee j r j' : owned j -> length (vp_id permit) = 32%nat -> length payee = 32%nat -> is_u64 amount ->
  sign_next_credit_iou borrower permit amount payee j = (r, j') ->
  owned j' /\
  let grown c := exists cs, recorded j = Some cs /\ next_coupon cs amount payee c /\ recorded j' = Some (cs ++ [c]) in
  match r with Ok c => grown c | Err _ => recorded j' = recorded j \/ exists c, grown c end.
Proof.
  intros Ho Hid Hp Ha E. cbv zeta. unfold sign_next_credit_iou in E. cbv zeta in E.
  destruct (prior ← load j (vp_id permit); _) as [[[prior next] coupon]|e] eqn:Es; [|injection E as <- <-; auto].
  apply bind_ok in Es as (u & Hu & Es). apply bind_ok in Es as (signed & Hs & Es). apply bind_ok in Es as (? & Hl & Es).
  apply bind_ok in Es as (seq & Hq & Es). apply bind_ok in Es as (c & Hc & [= -> <- <-]).
  apply ok_or_ok, checked_add_Some in Hs as [-> Hs], Hq as [-> Hq]. apply fail_if_ok, Z.ltb_ge in Hl.
  destruct (load_reads _ _ Ho Hu) as (cs & Hcs & ->). cbn [use_of cu_signed_micro cu_next_sequence] in *.
  destruct (compare_and_record j (use_of cs) _ c) as [rec j1] eqn:Er. pose proof (signed_terms _ _ Hc) as Et.
  apply record_outcome in Er as [Ho' Hr]; [|done|by rewrite Et; repeat split; cbn; unfold is_u64 in *; lia].
  assert (recorded_after (recorded j) (recorded j1) (use_of cs) c ->
    exists cs, recorded j = Some cs /\ next_coupon cs amount payee c /\ recorded j1 = Some (cs ++ [c])) as Hg.
  { intros (cs' & E1 & _ & E2). rewrite Hcs in E1. injection E1 as <-. exists cs. unfold next_coupon. repeat split; [done|lia|lia|done|done]. }
  destruct rec as [[]|e]; injection E as <- <-; (split; [done|]); [auto|auto|]. destruct Hr as [Hr|Hr]; eauto.
Qed.

(** The wallet's attempts from a journal on, and the coupons it got. *)
Inductive wallet (j0 : J) : list SignedCreditIou -> J -> Prop :=
| wallet_start : wallet j0 [] j0
| wallet_signed cs j amount payee c j' : wallet j0 cs j -> is_u64 amount -> length payee = 32%nat ->
    sign_next_credit_iou borrower permit amount payee j = (Ok c, j') -> wallet j0 (cs ++ [c]) j'
| wallet_failed cs j amount payee e j' : wallet j0 cs j -> is_u64 amount -> length payee = 32%nat ->
    sign_next_credit_iou borrower permit amount payee j = (Err e, j') -> wallet j0 cs j'.

Lemma sign_iou_valid t c : sign_credit_iou borrower permit t = Ok c ->
  it_permit_id t = vp_id permit /\ it_amount_micro t <> 0 /\ it_payee_commitment t <> zero_32.
Proof.
  unfold sign_credit_iou, iou_validate. intros H1. apply bind_ok in H1 as (? & _ & H1). apply bind_ok in H1 as (? & _ & H1).
  apply bind_ok in H1 as (? & H1 & _). apply bind_ok in H1 as (? & Hi & H1). apply fail_if_ok in Hi, H1. bool_prop. done.
Qed.
Lemma signed_verifies t c height : sign_credit_iou borrower permit t = Ok c ->
  pt_issued_height (vp_terms permit) <= height <= pt_valid_through_height (vp_terms permit) ->
  verify_credit_iou c permit height = Ok (mkVerifiedIou t (digest Blake3 (iou_message t))).
Proof.
  unfold sign_credit_iou. intros H1 Hh. apply bind_ok in H1 as (? & _ & H1). apply bind_ok in H1 as (? & Hk & H1).
  apply bind_ok in H1 as ([] & Hv & [= <-]). apply fail_if_ok in Hk. bool_prop.
  unfold verify_credit_iou. cbn [si_signature si_terms sk_sign sig_suite sk_suite]. rewrite bool_decide_eq_true_2 by done.
  cbn [negb fail_if mbind result_bind]. rewrite Hv. cbn [mbind result_bind].
  rewrite (proj2 (Z.ltb_ge _ _)), (proj2 (Z.ltb_ge _ _)) by lia. cbn [orb fail_if mbind result_bind].
  rewrite <- Hk. unfold VerifyingKey_from_suite_bytes. cbn [DEFAULT_SUITE public_key_len verifying_key vk_bytes].
  rewrite ed25519_public_length, ed25519_public_ok. cbn [Nat.eqb negb fail_if mbind result_bind map_err].
  change (mkVerifyingKey DEFAULT_SUITE (ed25519_public (sk_seed borrower))) with (verifying_key borrower).
  by rewrite sign_verifies.
Qed.

(** The coupons a wallet's outbox holds. *)
Definition outbox_ok (cs : list SignedCreditIou) : Prop :=
  Forall (fun c => iou_typed (si_terms c)) cs /\ amounts cs <= pt_limit_micro (vp_terms permit) /\
  forall k c, cs !! k = Some c -> it_sequence (si_terms c) = Z.of_nat k /\
    sign_credit_iou borrower permit (si_terms c) = Ok c.
Lemma outbox_grows cs amount payee c : outbox_ok cs -> is_u64 amount -> length payee = 32%nat ->
  length (vp_id permit) = 32%nat -> next_coupon cs amount payee c -> outbox_ok (cs ++ [c]).
Proof.
  intros (H1 & H2 & H3) Ha Hp Hid (Hle & Hn & Hs). pose proof (signed_terms _ _ Hs) as Et. split; [|split].
  - apply Forall_app_2; [done|]. apply Forall_singleton. rewrite Et. unfold iou_typed, is_u64 in *. cbn. lia.
  - rewrite amounts_app, amounts_one, Et. done.
  - intros k c' Hk. apply lookup_app_Some in Hk as [Hk|[Hge Hk]]; [by apply H3|].
    apply list_lookup_singleton_Some in Hk as [Hk <-]. rewrite Et. cbn. replace k with (length cs) by lia. done.
Qed.

Lemma wallet_outbox j0 cs j : owned j0 -> recorded j0 = Some [] -> length (vp_id permit) = 32%nat ->
  0 <= pt_limit_micro (vp_terms permit) -> wallet j0 cs j ->
  owned j /\ exists sent, recorded j = Some sent /\ sublist cs sent /\ outbox_ok sent.
Proof.
  intros Ho Hd Hid Hlim Hw.
  induction Hw as [|cs j amount payee c j' _ (I0 & sent & I1 & I2 & I3) Ha Hp Hs|cs j amount payee e j' _ (I0 & sent & I1 & I2 & I3) Ha Hp Hs].
  - split; [done|]. exists []. repeat split; [done..|by cbn|done|done].
  - apply sign_next_spec in Hs as (Ho' & sent' & E1 & Hn & E2); [|done..]. rewrite I1 in E1. injection E1 as <-.
    split; [done|]. exists (sent ++ [c]). split; [done|]. split; [by apply sublist_app|]. by eapply outbox_grows.
  - apply sign_next_spec in Hs as (Ho' & [E|(c & sent' & E1 & Hn & E2)]); [by rewrite E; eauto| |done..].
    rewrite I1 in E1. injection E1 as <-. split; [done|]. exists (sent ++ [c]). split; [done|].
    split; [by apply sublist_inserts_r|]. by eapply outbox_grows.
Qed.

(** An honest wallet stays within its permit.  Whatever it is asked to
    sign, in whatever order attempts succeed, fail, or fail after having been
    recorded, every coupon it hands out is in its journal, in the order it was
    handed out; the journal's coupons come to no more than the permit's limit,
    are numbered from zero without a gap, and each verifies throughout the
    permit's window. *)
Theorem wallet_within_permit j0 cs j : owned j0 -> recorded j0 = Some [] -> length (vp_id permit) = 32%nat ->
  0 <= pt_limit_micro (vp_terms permit) -> wallet j0 cs j ->
  exists sent, recorded j = Some sent /\ sublist cs sent /\
    amounts cs <= amounts sent <= pt_limit_micro (vp_terms permit) /\
    forall k c, sent !! k = Some c -> it_sequence (si_terms c) = Z.of_nat k /\
      forall height, pt_issued_height (vp_terms permit) <= height <= pt_valid_through_height (vp_terms permit) ->
        verify_credit_iou c permit height = Ok (mkVerifiedIou (si_terms c) (digest Blake3 (iou_message (si_terms c)))).
Proof.
  intros Ho Hd Hid Hlim Hw. destruct (wallet_outbox j0 cs j Ho Hd Hid Hlim Hw) as (_ & sent & H1 & H2 & H3).
  exists sent. destruct H3 as (H3 & H4 & H5). split; [done|]. split; [done|].
  split; [split; [by apply amounts_sublist|done]|]. intros k c Hk. destruct (H5 k c Hk) as [E Hs]. split; [done|].
  intros height Hh. by apply signed_verifies.
Qed.
End Wallet.


Definition IOU_LEN : nat := 181.
Definition iou_ok (c : SignedCreditIou) : Prop :=
  sig_suite (si_signature c) = Ed25519 /\ length (sig_bytes (si_signature c)) = 64%nat /\ iou_typed (si_terms c).

Lemma length_iou_message t : iou_typed t -> length (iou_message t) = 117%nat.
Proof. intros (H1 & _ & H2 & _). unfold iou_message. rewrite !length_app, H1, H2, !length_w_u64. vm_compute. done. Qed.
Lemma parses_cs_u64 x : is_u64 x -> parses cs_u64 (w_u64 x) x.
Proof. apply (parses_u64 CsMalformedEncoding). Qed.
Lemma parses_iou_terms t : iou_typed t -> parses read_iou_terms (iou_message t) t.
Proof.
  intros (H1 & H2 & H3 & H4). unfold read_iou_terms, iou_message, cs_take.
  eapply parses_bind; [by apply parses_take|]. eapply parses_bind; [by apply parses_take|].
  eapply parses_bind; [by apply parses_cs_u64|]. eapply parses_bind; [by apply parses_take|].
  eapply parses_bind_nil; [by apply parses_cs_u64|]. destruct t. apply parses_ret.
Qed.

Lemma Ok_inj {E A} (a b : A) : Ok (E:=E) a = Ok b -> a = b.
Proof. congruence. Qed.
Section Iou.
Context {P : Primitives}.

Lemma iou_decode_encode c b : iou_ok c -> iou_encode c = Ok b -> length b = IOU_LEN /\ iou_decode b = Ok c.
Proof.
  intros (Hs & Hl & Ht) H. apply bind_ok in H as (? & _ & H).
  assert (b = iou_message (si_terms c) ++ sig_bytes (si_signature c)) as -> by congruence. clear H. pose proof (length_iou_message _ Ht) as Hm.
  split; [by rewrite length_app, Hm, Hl|]. unfold iou_decode. rewrite length_app, Hm, Hl.
  change (117 + 64 =? length IOU_DOMAIN + 32 + 8 + 32 + 8 + 64)%nat with true.
  assert (starts_with IOU_DOMAIN (iou_message (si_terms c) ++ sig_bytes (si_signature c)) = true) as ->.
  { unfold starts_with, iou_message. rewrite <- (assoc_L (++)), take_app_length. by apply bool_decide_eq_true_2. }
  cbn [negb orb fail_if mbind result_bind].
  pose proof (parses_iou_terms _ Ht [] (sig_bytes (si_signature c))) as Hp. cbn [app] in Hp.
  change (Reader_new (iou_message (si_terms c) ++ sig_bytes (si_signature c)))
    with (reader_at [] (iou_message (si_terms c) ++ sig_bytes (si_signature c))).
  rewrite Hp. cbn [mbind result_bind]. unfold unread, reader_at. cbn [rpos rbuf]. rewrite drop_app_length.
  unfold Signature_from_suite_bytes. cbn [DEFAULT_SUITE signature_len]. rewrite Hl. cbn.
  destruct c as [t [su b]]. cbn in *. by subst.
Qed.
Lemma read_iou_terms_typed r t r' : bytes_ok (rbuf r) -> read_iou_terms r = Ok (t, r') -> iou_typed t.
Proof.
  intros Hb H. unfold read_iou_terms, cs_take in H. change cs_u64 with (r_u64 CsMalformedEncoding) in H. parse_inv.
  repeat match goal with
  | H : bytes_ok (rbuf ?r), H1 : r_take _ _ ?r = Ok (_, _) |- _ => apply r_take_consumes in H1 as [?Hc ?Hl]
  | H : bytes_ok (rbuf ?r), H1 : r_u64 _ ?r = Ok (_, _) |- _ => apply r_u64_consumes in H1 as [?Hc ?Hu]; [|done]
  | H : bytes_ok (rbuf ?r), H1 : consumes ?r ?r' _ |- _ => apply (consumes_bytes_ok _ _ _ H) in H1
  end.
  done.
Qed.
Lemma iou_decode_ok b c : bytes_ok b -> iou_decode b = Ok c -> iou_typed (si_terms c).
Proof.
  intros Hb H. unfold iou_decode in H. apply bind_ok in H as (? & _ & H). apply bind_ok in H as ([t r] & Ht & H).
  apply bind_ok in H as (s & _ & [= <-]). exact (read_iou_terms_typed (Reader_new b) _ _ Hb Ht).
Qed.
Lemma verified_iou_ok c permit h v : iou_typed (si_terms c) -> verify_credit_iou c permit h = Ok v -> iou_ok c.
Proof.
  intros Ht H. unfold verify_credit_iou in H. apply bind_ok in H as (? & Hs & H). apply bind_ok in H as (? & _ & H).
  apply bind_ok in H as (? & _ & H). apply bind_ok in H as (k & Hk & H). apply bind_ok in H as (? & Hv & _).
  apply fail_if_ok in Hs. apply map_err_ok in Hv, Hk. apply bind_ok in Hk as (? & _ & Hk). apply bind_ok in Hk as (? & _ & [= <-]).
  unfold vk_verify in Hv. apply bind_ok in Hv as (? & _ & Hv). cbn in Hv. apply bind_ok in Hv as (? & Hl & _).
  apply fail_if_ok in Hl. bool_prop. done.
Qed.
End Iou.

(** ** What the file's plaintext holds *)
Section Plain.
Context {P : Primitives} (permit : VerifiedCreditPermit) (Hlimit : pt_limit_micro (vp_terms permit) <= U64_MAX).

Definition next_ok (cs : list SignedCreditIou) (c : SignedCreditIou) : Prop :=
  (length cs < MAX_COUPONS)%nat /\ amounts cs + it_amount_micro (si_terms c) <= pt_limit_micro (vp_terms permit) /\
  iou_ok c /\ it_sequence (si_terms c) = Z.of_nat (length cs) /\
  exists v, verify_credit_iou c permit (pt_issued_height (vp_terms permit)) = Ok v.
(** A run of coupons, each the next of those before it. *)
Inductive journal_ok : list SignedCreditIou -> Prop :=
| journal_nil : journal_ok []
| journal_snoc cs c : journal_ok cs -> next_ok cs c -> journal_ok (cs ++ [c]).

Lemma use_of_snoc cs c : use_of (cs ++ [c]) = mkCreditUse (amounts cs + it_amount_micro (si_terms c)) (Z.of_nat (length cs) + 1).
Proof. unfold use_of. rewrite amounts_app, amounts_one, length_app. cbn [length]. f_equal. lia. Qed.
Lemma journal_ok_prefix cs c rest : journal_ok (cs ++ c :: rest) -> next_ok cs c /\ journal_ok (cs ++ [c]).
Proof.
  remember (cs ++ c :: rest) as all eqn:E. intros H. revert cs c rest E. induction H as [|all x H IH Hx]; intros cs c rest E.
  - by destruct cs.
  - destruct (decide (rest = [])) as [->|Hn].
    + apply app_inj_tail in E as [-> ->]. split; [done|by constructor].
    + apply exists_last in Hn as (rest' & y & ->). rewrite app_comm_cons, app_assoc in E.
      apply app_inj_tail in E as [-> ->]. by eapply IH.
Qed.

Lemma read_coupon_ok cs r acc r' : bytes_ok (rbuf r) -> journal_ok cs -> read_coupon permit (use_of cs, cs) r = Ok (acc, r') ->
  rbuf r' = rbuf r /\ exists c, acc = (use_of (cs ++ [c]), cs ++ [c]) /\ journal_ok (cs ++ [c]).
Proof.
  intros Hb Hok H. unfold read_coupon in H. cbv zeta in H. cbn [fst snd use_of cu_signed_micro cu_next_sequence] in H.
  case_match eqn:E1; [done|]. case_match eqn:E2; [done|].
  apply bind_ok in H as (c & Hc & H). apply map_err_ok in Hc. apply bind_ok in H as (v & Hv & H). apply map_err_ok in Hv.
  apply bind_ok in H as (? & Hs & H). apply fail_if_ok in Hs. apply bind_ok in H as (s & Ha & H).
  apply ok_or_ok, checked_add_Some in Ha as [-> Ha]. apply bind_ok in H as (? & Hl & H). apply fail_if_ok in Hl.
  apply Ok_inj in H. inversion H; subst; clear H. split; [done|]. exists c. rewrite use_of_snoc.
  split; [done|]. constructor; [done|]. bool_prop. apply iou_decode_ok in Hc; [|by apply Forall_take, Forall_drop].
  split; [lia|]. split; [lia|]. split; [by eapply verified_iou_ok|]. split; [done|by exists v].
Qed.
Lemma read_coupons_ok fuel cs r u all : bytes_ok (rbuf r) -> journal_ok cs ->
  read_coupons fuel permit (use_of cs, cs) r = Ok (u, all) -> u = use_of all /\ journal_ok all.
Proof.
  revert cs r. induction fuel as [|fuel IH]; intros cs r Hb Hok H; cbn in H; case_match.
  - apply Ok_inj in H. by simplify_eq.
  - done.
  - apply Ok_inj in H. by simplify_eq.
  - apply bind_ok in H as ([acc r'] & H1 & H). apply read_coupon_ok in H1 as (Er & c & -> & Hok'); [|done..].
    eapply IH; [by rewrite Er|exact Hok'|done].
Qed.
Lemma journal_parse_ok plain u cs : bytes_ok plain -> journal_parse permit plain = Ok (u, cs) -> u = use_of cs /\ journal_ok cs.
Proof. intros Hb. apply (read_coupons_ok _ []); [done|constructor]. Qed.

Lemma read_coupon_plain pre cs c b suf : next_ok cs c -> iou_encode c = Ok b ->
  read_coupon permit (use_of cs, cs) (reader_at pre (w_bytes b ++ suf)) =
  Ok ((use_of (cs ++ [c]), cs ++ [c]), reader_at (pre ++ w_bytes b) suf).
Proof.
  intros (H1 & H2 & H3 & H4 & v & H5) He. destruct (iou_decode_encode c b H3 He) as [Hl Hd].
  unfold read_coupon, reader_at. cbv zeta. cbn [fst snd rbuf rpos use_of cu_signed_micro cu_next_sequence].
  rewrite drop_app_length, w_bytes_eq, <- (assoc_L (++)), take_app_length' by (by rewrite length_w_u32).
  rewrite Hl, from_be_w_u32 by (unfold is_u32; vm_compute; split; done). rewrite Nat2Z.id.
  rewrite !length_app, length_w_u32, Hl.
  replace (length pre + (4 + (IOU_LEN + length suf)) - length pre <? 4)%nat with false by (symmetry; apply Nat.ltb_ge; lia).
  rewrite (proj2 (Nat.leb_gt _ _) H1). cbn [orb].
  replace (length pre + (4 + (IOU_LEN + length suf)) - (length pre + 4) <? IOU_LEN)%nat with false
    by (symmetry; apply Nat.ltb_ge; lia).
  replace (drop (length pre + 4) (pre ++ w_u32 (Z.of_nat IOU_LEN) ++ b ++ suf)) with (b ++ suf)
    by (rewrite <- drop_drop, drop_app_length; symmetry; apply drop_app_length'; by rewrite length_w_u32).
  rewrite <- Hl, take_app_length, Hd. cbn [map_err mbind result_bind]. rewrite H5. cbn [map_err mbind result_bind].
  rewrite H4, Z.eqb_refl. cbn [negb fail_if mbind result_bind]. unfold checked_add.
  destruct (Z.leb_spec (amounts cs + it_amount_micro (si_terms c)) U64_MAX); [|lia]. cbn [ok_or mbind result_bind].
  rewrite (proj2 (Z.ltb_ge _ _) H2). cbn [fail_if mbind result_bind]. rewrite use_of_snoc. do 3 f_equal.
  - by rewrite <- !(assoc_L (++)).
  - lia.
Qed.
Lemma read_coupons_plain rest : forall fuel cs pre plain, journal_ok (cs ++ rest) -> coupons_plain rest = Ok plain ->
  (length rest < fuel)%nat ->
  read_coupons fuel permit (use_of cs, cs) (reader_at pre plain) = Ok (use_of (cs ++ rest), cs ++ rest).
Proof.
  induction rest as [|c rest IH]; intros [|fuel] cs pre plain Hok Hp Hf; cbn in Hf; try lia.
  - apply Ok_inj in Hp. subst. cbn. rewrite !app_nil_r, Nat.leb_refl. done.
  - cbn in Hp. apply bind_ok in Hp as (b & Hb & Hp). apply bind_ok in Hp as (plain' & Hp & E). apply Ok_inj in E as <-.
    destruct (journal_ok_prefix _ _ _ Hok) as [Hn _]. cbn [read_coupons].
    destruct (Nat.leb_spec (length (rbuf (reader_at pre (w_bytes b ++ plain')))) (rpos (reader_at pre (w_bytes b ++ plain')))) as [Hc|_].
    { cbn in Hc. rewrite !length_app, length_w_bytes in Hc. lia. }
    rewrite (read_coupon_plain _ _ _ _ _ Hn Hb). cbn [mbind result_bind].
    rewrite (IH fuel (cs ++ [c])); [by rewrite <- (assoc_L (++))|by rewrite <- (assoc_L (++))|done|lia].
Qed.
Lemma coupons_plain_length cs plain : Forall iou_ok cs -> coupons_plain cs = Ok plain ->
  length plain = (length cs * (4 + IOU_LEN))%nat.
Proof.
  intros Hf. revert plain. induction Hf as [|c cs Hc _ IH]; intros plain H; cbn in H.
  - by apply Ok_inj in H as <-.
  - apply bind_ok in H as (b & Hb & H). apply bind_ok in H as (plain' & Hp & H). apply Ok_inj in H as <-.
    rewrite length_app, length_w_bytes, (IH _ Hp), (proj1 (iou_decode_encode c b Hc Hb)). cbn [length]. unfold IOU_LEN. lia.
Qed.
Lemma journal_ok_facts cs : journal_ok cs -> Forall iou_ok cs /\ (length cs <= MAX_COUPONS)%nat.
Proof.
  induction 1 as [|cs c _ [IH _] (H1 & _ & H2 & _)]; [split; [done|apply Nat.le_0_l]|].
  split; [apply Forall_app_2; [done|by apply Forall_singleton]|]. rewrite length_app. cbn [length]. lia.
Qed.
Lemma journal_parse_plain cs plain : journal_ok cs -> coupons_plain cs = Ok plain -> journal_parse permit plain = Ok (use_of cs, cs).
Proof.
  intros Hok Hp. apply (read_coupons_plain cs _ [] []); [done|done|]. destruct (journal_ok_facts _ Hok) as [Hf _].
  rewrite (coupons_plain_length _ _ Hf Hp). unfold IOU_LEN. lia.
Qed.
End Plain.

(** ** The file *)
Section Journal.
Context {P : Primitives} {C : ChaCha} {CL : ChaChaLaws}.

(** A nonce has twelve bytes. *)
Definition nonces_ok (d : CreditDirectory) : Prop := Forall (fun n => from_option (fun b => length b = 12%nat) True n) (cd_nonces d).
Definition opened_for (permit : VerifiedCreditPermit) (j : FileCreditJournal) : Prop :=
  fj_permit j = permit /\ pt_limit_micro (vp_terms permit) <= U64_MAX /\ nonces_ok (fj_directory j).
Definition file_coupons (j : FileCreditJournal) : option (list SignedCreditIou) :=
  match journal_read j with Ok uc => Some (snd uc) | Err _ => None end.

Lemma journal_read_ok j u cs : pt_limit_micro (vp_terms (fj_permit j)) <= U64_MAX -> journal_read j = Ok (u, cs) ->
  u = use_of cs /\ journal_ok (fj_permit j) cs.
Proof.
  intros Hl H. unfold journal_read in H. apply bind_ok in H as (b & _ & H). apply bind_ok in H as (? & _ & H).
  apply bind_ok in H as (n & _ & H). apply bind_ok in H as (plain & Hp & H). apply map_err_ok in Hp.
  unfold aead_decrypt in Hp. destruct (ak_suite (fj_key j)). apply ok_or_ok, chacha_plain in Hp.
  by eapply journal_parse_ok.
Qed.
Lemma read_same j j' : cd_file (fj_directory j') = cd_file (fj_directory j) -> fj_permit j' = fj_permit j ->
  fj_key j' = fj_key j -> journal_read j' = journal_read j.
Proof. unfold journal_read, aad. by intros -> -> ->. Qed.
Lemma read_written j cs plain nonce cipher : pt_limit_micro (vp_terms (fj_permit j)) <= U64_MAX -> journal_ok (fj_permit j) cs ->
  coupons_plain cs = Ok plain -> length nonce = 12%nat -> aead_encrypt (fj_key j) nonce plain (aad j) = Ok cipher ->
  cd_file (fj_directory j) = Some (nonce ++ cipher) -> journal_read j = Ok (use_of cs, cs).
Proof.
  intros Hlim Hok Hp Hn He Hf. unfold journal_read. rewrite Hf. cbn [ok_or mbind result_bind]. unfold aead_encrypt, aead_decrypt in *.
  destruct (ak_suite (fj_key j)). apply ok_or_ok in He. pose proof (chacha_length _ _ _ _ _ He) as Hlc.
  destruct (journal_ok_facts _ _ Hok) as [Hi Hm]. pose proof (coupons_plain_length cs plain Hi Hp) as Hlp.
  unfold MAX_COUPONS, IOU_LEN in *. rewrite length_app, Hn, Hlc, Hlp.
  replace (_ || _) with false; cycle 1.
  { symmetry. apply orb_false_iff. unfold MAX_JOURNAL_BYTES. rewrite Nat.ltb_ge, Z.ltb_ge. lia. }
  cbn [fail_if mbind result_bind]. rewrite take_app_length' by done. unfold AeadNonce_from_bytes. rewrite Hn.
  cbn [Nat.eqb negb fail_if mbind result_bind map_err]. rewrite drop_app_length' by done.
  rewrite (chacha_decrypts _ _ _ _ _ He). cbn [ok_or mbind result_bind map_err]. by apply journal_parse_plain.
Qed.

Lemma journal_write_outcome permit j cs r j' : opened_for permit j -> journal_ok permit cs -> journal_write j cs = (r, j') ->
  opened_for permit j' /\ fj_key j' = fj_key j /\
  match r with
  | Ok _ => journal_read j' = Ok (use_of cs, cs)
  | Err _ => journal_read j' = journal_read j \/ journal_read j' = Ok (use_of cs, cs)
  end.
Proof.
  intros Ho Hok H. pose proof Ho as (Hp & Hl & Hn). unfold journal_write in H. subst permit.
  destruct (coupons_plain cs) as [plain|e] eqn:Hc; [|by injection H as <- <-; auto].
  destruct (AeadNonce_generate (fj_directory j)) as [nonce d] eqn:Hg.
  assert (nonces_ok d /\ cd_file d = cd_file (fj_directory j) /\ forall n, nonce = Ok n -> length n = 12%nat) as (Hn' & Hf & Hl12).
  { unfold AeadNonce_generate in Hg. unfold nonces_ok in *. destruct (cd_nonces (fj_directory j)) as [|n ns] eqn:En.
    - injection Hg as <- <-. rewrite En. split; [constructor|done].
    - apply Forall_cons in Hn as [Hn Hns]. injection Hg as <- <-. split; [done|]. split; [done|].
      intros m Hm. apply ok_or_ok in Hm as ->. done. }
  destruct (_ ← map_err _ nonce; _) as [b|e] eqn:Es; cycle 1.
  { injection H as <- <-. split; [done|]. split; [done|]. left. by apply read_same. }
  apply bind_ok in Es as (n & Hno & Es). apply map_err_ok in Hno. apply bind_ok in Es as (c & He & Es).
  apply map_err_ok in He. apply Ok_inj in Es as <-. specialize (Hl12 _ Hno).
  pose proof (fun d' => read_written (with_dir j d') cs plain n c Hl Hok Hc Hl12 He) as Hrd. cbn [fj_directory with_dir] in Hrd.
  unfold atomic_replace in H. destruct (cd_replacements d) as [|[[]|] rs]; cbv zeta beta iota in H; injection H as <- <-;
    (split; [done|]); (split; [done|]); first [by apply Hrd|by right; apply Hrd|by left; apply read_same].
Qed.

Lemma record_check_ok permit cs n c y : journal_ok permit cs -> iou_typed (si_terms c) ->
  record_check permit (use_of cs) cs n c = Ok y -> journal_ok permit (cs ++ [c]).
Proof.
  intros Hok Ht H. unfold record_check in H. apply bind_ok in H as (? & Hm & H). apply bind_ok in H as (v & Hv & H).
  apply fail_if_ok in Hm, H. rewrite !orb_false_iff, !negb_false_iff, !bool_decide_eq_true in H.
  destruct H as [[[Hs _] Ha] Hle]. apply checked_add_Some in Ha as [Ha _]. apply Z.eqb_eq in Hs. apply Z.ltb_ge in Hle.
  apply Nat.leb_gt in Hm. cbn in Ha, Hs. rewrite Ha in Hle. constructor; [done|].
  split; [done|]. split; [done|]. split; [by eapply verified_iou_ok|]. split; [done|]. by exists v.
Qed.
Lemma file_load_reads permit (j : FileCreditJournal) u : opened_for permit j -> load j (vp_id permit) = Ok u ->
  exists cs, file_coupons j = Some cs /\ u = use_of cs.
Proof.
  intros (Hp & Hl & _) H. unfold load, FileCreditJournal_journal in H. apply bind_ok in H as (? & _ & H).
  apply bind_ok in H as ([u' cs] & Hr & H). apply Ok_inj in H as <-. subst permit.
  exists cs. unfold file_coupons. rewrite Hr. split; [done|]. by apply journal_read_ok in Hr as [? _].
Qed.
Lemma file_record_outcome permit (j : FileCreditJournal) e n c r j' : opened_for permit j -> iou_typed (si_terms c) ->
  compare_and_record j e n c = (r, j') ->
  opened_for permit j' /\
  match r with
  | Ok true => recorded_after (file_coupons j) (file_coupons j') e c
  | Ok false => file_coupons j' = file_coupons j
  | Err _ => file_coupons j' = file_coupons j \/ recorded_after (file_coupons j) (file_coupons j') e c
  end.
Proof.
  intros Ho Ht H. unfold compare_and_record, FileCreditJournal_journal in H.
  destruct (journal_read j) as [[u cs]|x] eqn:Hr; [|injection H as <- <-; auto].
  case_bool_decide as Hu; cbn [negb] in H; [|by injection H as <- <-].
  destruct (record_check _ _ _ _ _) as [y|y] eqn:Ec; [|injection H as <- <-; auto].
  pose proof Ho as (Hp & Hl & _). rewrite Hp in Ec.
  destruct (journal_read_ok j u cs) as [-> Hok]; [by rewrite Hp|done|]. rewrite Hp in Hok.
  pose proof (record_check_ok _ _ _ _ _ Hok Ht Ec) as Hok'. subst e.
  destruct (journal_write j (cs ++ [c])) as [w j1] eqn:Hw.
  destruct (journal_write_outcome _ _ _ _ _ Ho Hok' Hw) as (Ho' & _ & Hout). unfold file_coupons. rewrite Hr. cbn [snd].
  assert (journal_read j1 = Ok (use_of (cs ++ [c]), cs ++ [c]) ->
    recorded_after (Some cs) (match journal_read j1 with Ok uc => Some (snd uc) | Err _ => None end) (use_of cs) c) as Hg.
  { intros ->. by exists cs. }
  destruct w; injection H as <- <-; (split; [done|]); [by apply Hg|].
  destruct Hout as [Hout|Hout]; [left; rewrite Hout, Hr; done|right; by apply Hg].
Qed.
(** The file journal keeps the promise. *)
#[global] Instance FileCreditJournal_lawful permit : LawfulJournal FileCreditJournal permit := {|
  owned := opened_for permit;
  recorded := file_coupons;
  load_reads := file_load_reads permit;
  record_outcome := file_record_outcome permit;
|}.

(** ** Creation, reopening, and a wallet's whole life *)
Lemma write_keeps_key j cs r j' : journal_write j cs = (r, j') -> fj_key j' = fj_key j.
Proof. unfold journal_write. intros H. repeat case_match; simplify_eq; done. Qed.
Lemma sign_next_keeps_key borrower permit amount payee (j : FileCreditJournal) r j' :
  sign_next_credit_iou borrower permit amount payee j = (r, j') -> fj_key j' = fj_key j.
Proof.
  unfold sign_next_credit_iou. cbv zeta. destruct (prior ← load j _; _) as [[[prior next] c]|e]; [|by intros [= _ <-]].
  unfold compare_and_record, FileCreditJournal_journal. destruct (journal_read j) as [[u cs]|e]; [|by intros [= _ <-]].
  destruct (negb _); [by intros [= _ <-]|]. destruct (record_check _ _ _ _ _); [|by intros [= _ <-]].
  destruct (journal_write j (cs ++ [c])) as [w j1] eqn:Hw. apply write_keeps_key in Hw. by destruct w; intros [= _ <-].
Qed.
Lemma wallet_keeps_key borrower permit (j0 : FileCreditJournal) cs j : wallet borrower permit j0 cs j -> fj_key j = fj_key j0.
Proof. induction 1 as [|cs j a p c j' _ IH _ _ H|cs j a p e j' _ IH _ _ H]; [done|..]; apply sign_next_keeps_key in H; congruence. Qed.
Lemma create_fresh d permit key j d' : nonces_ok d -> pt_limit_micro (vp_terms permit) <= U64_MAX ->
  FileCreditJournal_create d permit key = (Ok j, d') -> opened_for permit j /\ file_coupons j = Some [] /\ fj_key j = key.
Proof.
  intros Hn Hl H. unfold FileCreditJournal_create in H. destruct (_ || _); [done|]. cbv zeta in H.
  destruct (journal_write _ []) as [[w|e] j1] eqn:Hw; [|done]. injection H as <- <-.
  assert (opened_for permit (mkFileJournal (mkCreditDir (cd_file d) true (cd_nonces d) (cd_replacements d)) permit key)) as Ho0 by done.
  destruct (journal_write_outcome permit _ [] _ _ Ho0 (journal_nil _) Hw) as (Ho & Hk & Hr).
  unfold file_coupons. rewrite Hr. done.
Qed.

(** C40: A coupon handed out is never lost.  From the creation of a permit's
    directory on, whatever the wallet is asked, wherever the platform runs out
    of entropy or a replacement of the file fails before or after the rename:
    the directory opens again, its outbox holds every coupon handed out, in
    order, within the permit's limit, and it can never be created afresh. *)
Theorem outbox_survives {L : PrimitivesLaws} borrower permit d key j0 d0 cs j :
  nonces_ok d -> 0 <= pt_limit_micro (vp_terms permit) <= U64_MAX -> length (vp_id permit) = 32%nat ->
  FileCreditJournal_create d permit key = (Ok j0, d0) -> wallet borrower permit j0 cs j ->
  exists sent, FileCreditJournal_open (fj_directory j) permit key = Ok j /\ outbox j = Ok sent /\ sublist cs sent /\
    amounts sent <= pt_limit_micro (vp_terms permit) /\
    forall permit' key', FileCreditJournal_create (fj_directory j) permit' key' = (Err JournalFailure, fj_directory j).
Proof.
  intros Hn [Hl0 Hl] Hid Hc Hw. destruct (create_fresh _ _ _ _ _ Hn Hl Hc) as (Ho & Hf & Hk).
  destruct (wallet_outbox (LawfulJournal0 := FileCreditJournal_lawful permit) borrower permit j0 cs j Ho Hf Hid Hl0 Hw) as ((Hp & _) & sent & Hr & Hs & (_ & Ha & _)).
  exists sent. pose proof (wallet_keeps_key _ _ _ _ _ Hw) as Hk'.
  assert (mkFileJournal (fj_directory j) permit key = j) as Ej by (destruct j; cbn in *; congruence).
  change (recorded j) with (file_coupons j) in Hr. unfold file_coupons in Hr. destruct (journal_read j) as [[u cs']|] eqn:Er; [|done].
  apply Some_inj in Hr as <-. unfold FileCreditJournal_open, outbox. rewrite Ej, Er.
  split; [done|]. split; [done|]. split; [done|]. split; [done|]. intros permit' key'. unfold FileCreditJournal_create.
  unfold journal_read in Er. apply bind_ok in Er as (b & Hb & _). apply ok_or_ok in Hb. rewrite Hb. done.
Qed.
End Journal.
