(* ===== verification/CreditFlow.v ===== *)
(** * CreditFlow: an honest wallet's coupons are always accepted

    The wallet of [JournalTheorems] and the engine of [CreditTheorems]
    together: as long as nobody else signs under the permit, every coupon in
    the wallet's outbox can be recorded, in any order, while the permit is
    live, because the outbox as a whole stays within what the engine
    authorised. *)

From Stdlib Require Import ZArith Lia.
From stdpp Require Import base list gmap sets strings.
From S2P Require Import Prelude Codec Crypto Economy Settlement CreditPermit Credit CreditTheorems OutboxTheorems.
Open Scope Z_scope.

(** Distinct positions of a list sum to no more than all of them. *)
Lemma sum_positions (f : nat -> Z) n ks : (forall k, 0 <= f k) -> NoDup ks -> (forall k, k ∈ ks -> (k < n)%nat) ->
  sum_Z (map f ks) <= sum_Z (map f (seq 0 n)).
Proof.
  intros Hf Hn Hk. assert (ks ⊆+ seq 0 n) as Hs.
  { apply NoDup_submseteq; [done|]. intros k ?%Hk. apply elem_of_seq. lia. }
  apply submseteq_Permutation in Hs as (rest & Hs).
  assert (forall l l', l ≡ₚ l' -> sum_Z (map f l) = sum_Z (map f l')) as Hp.
  { induction 1; cbn; change (foldr Z.add 0) with sum_Z in *; lia. }
  rewrite (Hp _ _ Hs), map_app, sum_Z_app. assert (0 <= sum_Z (map f rest)); [|lia].
  induction rest as [|k rest IH]; cbn; [done|]. change (foldr Z.add 0) with sum_Z.
  assert (0 <= sum_Z (map f rest)); [|specialize (Hf k); lia]. clear -Hf.
  induction rest as [|x rest IH]; cbn; [done|]. change (foldr Z.add 0) with sum_Z. specialize (Hf x). lia.
Qed.

(** The engine accepts what fits the permit. *)
Lemma record_accepts c i height p : credit_ok c -> hc_permits c !! it_permit_id (vi_terms i) = Some p -> pm_expired p = false ->
  pt_issued_height (vp_terms (pm_verified p)) <= height <= pt_valid_through_height (vp_terms (pm_verified p)) ->
  Z.of_nat (size (hc_ious c)) < cy_max_ious (hc_policy c) ->
  hc_ious c !! (it_permit_id (vi_terms i), it_sequence (vi_terms i)) = None -> 0 <= it_amount_micro (vi_terms i) ->
  pm_used p + it_amount_micro (vi_terms i) <= pt_limit_micro (vp_terms (pm_verified p)) ->
  exists c', record_iou c i height = Ok (true, c').
Proof.
  intros Hc Hp He Hh Hs Hn Ha Hle. unfold record_iou. rewrite Hn. unfold known, refuse_if. rewrite Hp. cbn [ok_or mbind result_bind].
  rewrite He, (proj2 (Z.ltb_ge _ _)), (proj2 (Z.ltb_ge _ _)), (proj2 (Z.leb_gt _ _)) by lia. cbn [orb fail_if mbind result_bind].
  destruct (ck_permits c Hc _ p Hp) as [_ [Hu0 Hu] Hlim [a Hacc]].
  unfold checked_add, checked_sub. rewrite (proj2 (Z.leb_le _ _)) by lia. cbn [ok_or mbind result_bind].
  rewrite (proj2 (Z.ltb_ge _ _)) by lia. cbn [fail_if mbind result_bind]. rewrite Hacc. cbn [ok_or mbind result_bind].
  destruct (ck_accounts c Hc _ a Hacc) as [Hd Hun Hcap Hmax _]. pose proof (ck_max c Hc) as Hmx.
  assert (permit_left p <= po_unused_authorized a) as Hleft.
  { rewrite Hun. pose proof (total_by_lookup_le (may_promise (pm_subject p)) (hc_permits c) _ p
      (fun id q Hq => may_promise_nonneg c (pm_subject p) id q Hc Hq) Hp) as H.
    unfold may_promise at 1 in H. rewrite bool_decide_eq_true_2, He in H by done. done. }
  unfold permit_left in Hleft. rewrite (proj2 (Z.leb_le _ _)) by lia. cbn [ok_or mbind result_bind].
  rewrite (proj2 (Z.leb_le _ _)) by lia. cbn [ok_or mbind result_bind]. by eexists.
Qed.

Lemma record_replays c i height c' height' : record_iou c i height = Ok (true, c') -> record_iou c' i height' = Ok (false, c').
Proof.
  unfold record_iou at 1. destruct (hc_ious c !! _); [case_bool_decide; done|]. intros H. repeat apply bind_ok in H as (? & _ & H).
  unfold record_iou. injection H as <-. cbn [hc_ious]. rewrite lookup_insert_eq. cbn [iou_digest]. by rewrite bool_decide_eq_true_2.
Qed.

Section Flow.
Context {P : Primitives} {L : PrimitivesLaws}.
Context (permit : VerifiedCreditPermit) (sent : list SignedCreditIou).

(** What a coupon verifies to. *)
Definition verified (c : SignedCreditIou) : VerifiedCreditIou :=
  mkVerifiedIou (si_terms c) (digest Blake3 (iou_message (si_terms c))).
(** Nothing was recorded under the permit but coupons of the outbox. *)
Definition only_sent (h : list event) : Prop :=
  forall s i, Recorded s i ∈ h -> it_permit_id (vi_terms i) = vp_id permit -> exists c, c ∈ sent /\ i = verified c.
Definition numbered : Prop := forall k c, sent !! k = Some c ->
  it_permit_id (si_terms c) = vp_id permit /\ it_sequence (si_terms c) = Z.of_nat k /\ 0 <= it_amount_micro (si_terms c).

Definition amount_at (k : nat) : Z := from_option (fun c => it_amount_micro (si_terms c)) 0 (sent !! k).
Definition position_of (e : event) : list nat :=
  match e with
  | Recorded _ i => if bool_decide (it_permit_id (vi_terms i) = vp_id permit) then [Z.to_nat (it_sequence (vi_terms i))] else []
  | Released _ _ => []
  end.
Definition recorded_at (h : list event) : list nat := concat (map position_of h).

Lemma amounts_positions : amounts sent = sum_Z (map amount_at (seq 0 (length sent))).
Proof.
  unfold amounts. f_equal. apply list_eq. intros k. rewrite !list_lookup_fmap.
  destruct (decide (k < length sent)%nat) as [Hk|Hk].
  - destruct (lookup_lt_is_Some_2 sent k Hk) as [c Hc]. rewrite Hc, lookup_seq_lt by done. cbn. unfold amount_at. by rewrite Hc.
  - rewrite lookup_seq_ge, (lookup_ge_None_2 sent) by lia. done.
Qed.

Context (Hnum : numbered).

Lemma recorded_position h s i : only_sent h -> Recorded s i ∈ h -> it_permit_id (vi_terms i) = vp_id permit ->
  exists k c, sent !! k = Some c /\ i = verified c /\ it_sequence (vi_terms i) = Z.of_nat k.
Proof.
  intros Ho Hi Hp. destruct (Ho s i Hi Hp) as (c & Hc & ->). apply list_elem_of_lookup in Hc as [k Hk].
  exists k, c. by destruct (Hnum k c Hk) as (_ & ? & _).
Qed.
Lemma only_sent_cons e h : only_sent (e :: h) -> only_sent h.
Proof. intros H s i Hi. apply (H s). by apply elem_of_cons; right. Qed.

Lemma sum_positions_h h : only_sent h -> sum_of (under_permit (vp_id permit)) h = sum_Z (map amount_at (recorded_at h)).
Proof.
  induction h as [|e h IH]; intros Ho; [done|]. change (e :: h) with ([e] ++ h). rewrite sum_of_app, sum_of_one.
  rewrite (IH (only_sent_cons _ _ Ho)). unfold recorded_at. rewrite map_app, concat_app, map_app, sum_Z_app. f_equal.
  destruct e as [s i|]; [|done]. cbn [under_permit map position_of concat]. case_bool_decide as E; [|done].
  destruct (recorded_position _ s i Ho ltac:(left) E) as (k & c & Hk & -> & Hs). rewrite Hs, Nat2Z.id. cbn.
  unfold amount_at. rewrite Hk. cbn. lia.
Qed.
Lemma position_slot h k : only_sent h -> k ∈ recorded_at h ->
  (k < length sent)%nat /\ (vp_id permit, Z.of_nat k) ∈ concat (map slot_of h).
Proof.
  induction h as [|e h IH]; intros Ho Hk; [by apply elem_of_nil in Hk|].
  change (concat (map slot_of (e :: h))) with (slot_of e ++ concat (map slot_of h)). rewrite elem_of_app.
  change (recorded_at (e :: h)) with (position_of e ++ recorded_at h) in Hk. apply elem_of_app in Hk as [Hk|Hk]; cycle 1.
  { destruct (IH (only_sent_cons _ _ Ho) Hk). split; [done|by right]. }
  destruct e as [s i|]; [|by apply elem_of_nil in Hk]. cbn in Hk |- *. case_bool_decide as E; [|by apply elem_of_nil in Hk].
  apply list_elem_of_singleton in Hk as ->.
  destruct (recorded_position _ s i Ho ltac:(left) E) as (k & c & Hk & -> & Hs).
  rewrite Hs, Nat2Z.id. split; [by eapply lookup_lt_Some|]. left. rewrite E. by apply list_elem_of_singleton.
Qed.
Lemma recorded_at_NoDup h : only_sent h -> NoDup (concat (map slot_of h)) -> NoDup (recorded_at h).
Proof.
  induction h as [|e h IH]; intros Ho Hn; [apply NoDup_nil_2|].
  change (recorded_at (e :: h)) with (position_of e ++ recorded_at h).
  change (concat (map slot_of (e :: h))) with (slot_of e ++ concat (map slot_of h)) in Hn.
  apply NoDup_app in Hn as (_ & Hd & Hn). specialize (IH (only_sent_cons _ _ Ho) Hn).
  destruct e as [s i|]; [|done]. cbn in Hd |- *. case_bool_decide as E; [|done].
  apply NoDup_cons. split; [|done]. intros Hk.
  destruct (recorded_position _ s i Ho ltac:(left) E) as (k & c & Hc & -> & Hs). rewrite Hs, Nat2Z.id in Hk.
  apply (position_slot h k (only_sent_cons _ _ Ho)) in Hk as [_ Hk].
  apply (Hd (vp_id permit, Z.of_nat k)); [|done]. rewrite E, Hs. by apply list_elem_of_singleton.
Qed.
(** What is recorded under the permit leaves room for a coupon that is not. *)
Lemma room_for h k c : only_sent h -> NoDup (concat (map slot_of h)) -> sent !! k = Some c ->
  (vp_id permit, Z.of_nat k) ∉ concat (map slot_of h) ->
  sum_of (under_permit (vp_id permit)) h + it_amount_micro (si_terms c) <= amounts sent.
Proof.
  intros Ho Hn Hk Hnot. rewrite sum_positions_h by done. rewrite amounts_positions.
  assert (sum_Z (map amount_at (k :: recorded_at h)) <= sum_Z (map amount_at (seq 0 (length sent)))) as H; cycle 1.
  { cbn in H. change (foldr Z.add 0) with sum_Z in H. unfold amount_at at 1 in H. rewrite Hk in H. cbn in H. lia. }
  apply sum_positions.
  - intros j. unfold amount_at. destruct (sent !! j) as [x|] eqn:Hj; [|done]. by destruct (Hnum j x Hj) as (_ & _ & ?).
  - apply NoDup_cons. split; [|by apply recorded_at_NoDup]. intros Hin. by apply position_slot in Hin as [_ ?].
  - intros j [->|Hj]%elem_of_cons; [by eapply lookup_lt_Some|by apply position_slot in Hj as [? _]].
Qed.
End Flow.

(** An honest wallet's payee is always paid.  If all that was recorded
    under a live permit came from the wallet's outbox, then every coupon of
    the outbox verifies and is recorded, whatever was recorded before it and
    in whatever order, or was already, while the engine has room; recording
    it again changes nothing. *)
Theorem coupons_accepted {P : Primitives} {L : PrimitivesLaws} `{LawfulJournal J permit} borrower (j0 j : J) cs h c p sent k coupon height :
  owned j0 -> recorded j0 = Some [] -> length (vp_id permit) = 32%nat -> wallet borrower permit j0 cs j -> recorded j = Some sent ->
  credit_run h c -> hc_permits c !! vp_id permit = Some p -> pm_verified p = permit -> pm_expired p = false ->
  only_sent permit sent h -> Z.of_nat (size (hc_ious c)) < cy_max_ious (hc_policy c) ->
  pt_issued_height (vp_terms permit) <= height <= pt_valid_through_height (vp_terms permit) -> sent !! k = Some coupon ->
  verify_credit_iou coupon permit height = Ok (verified coupon) /\
  exists b c', record_iou c (verified coupon) height = Ok (b, c') /\ record_iou c' (verified coupon) height = Ok (false, c').
Proof.
  intros Ho Hr Hid Hw Hj Hrun Hp Hv He Honly Hsize Hh Hk. pose proof (run_ledgered h c Hrun) as [Hc Hper _ Hnd Hkn Hfr].
  destruct (ck_permits c Hc _ p Hp) as [_ Hu Hlim _]. rewrite Hv in Hu, Hlim.
  destruct (wallet_outbox borrower permit j0 cs j Ho Hr Hid ltac:(lia) Hw) as (_ & sent' & Hj' & _ & Hty & Htot & Hnum).
  rewrite Hj in Hj'. injection Hj' as <-.
  assert (numbered permit sent) as HN.
  { intros n x Hx. destruct (Hnum n x Hx) as [Hseq Hsig]. split; [|split; [done|]].
    - by apply sign_iou_valid in Hsig as (-> & _).
    - apply (Forall_lookup_1 _ _ _ _ Hty) in Hx as (_ & _ & _ & ?). unfold is_u64 in *. lia. }
  destruct (HN k coupon Hk) as (Epid & Eseq & Hamt). split; [apply (signed_verifies borrower); [by apply (Hnum k)|done]|].
  destruct (hc_ious c !! (vp_id permit, Z.of_nat k)) as [x|] eqn:Hx.
  - assert (record_iou c (verified coupon) height = Ok (false, c)) as E; [|by exists false, c].
    unfold record_iou. cbn [vi_terms verified]. rewrite Epid, Eseq, Hx.
    destruct (Hfr _ _ Hx) as (s & i & Hi & [= Ei1 Ei2] & ->).
    destruct (recorded_position permit sent HN h s i Honly Hi (eq_sym Ei1)) as (n & y & Hy & -> & Hn).
    assert (n = k) as -> by lia. rewrite Hk in Hy. injection Hy as <-. by rewrite bool_decide_eq_true_2.
  - destruct (record_accepts c (verified coupon) height p) as [c' E]; cbn [vi_terms verified]; rewrite ?Epid, ?Eseq, ?Hv; try done.
    { specialize (Hper (vp_id permit)). rewrite Hp in Hper. rewrite <- Hper.
      pose proof (room_for permit sent HN h k coupon Honly Hnd Hk). etrans; [apply H1|done].
      intros Hin%Hkn. rewrite Hx in Hin. by destruct Hin. }
    exists true, c'. split; [done|].
    by apply (record_replays c _ height).
Qed.
