(* ===== verification/CreditWitnesses.v ===== *)
(** * CreditWitnesses: a wallet, its journal and the engine

    A permit for 1000 units, a wallet whose platform once has no entropy and
    once fails after the rename, and the engine that records the coupons of
    the outbox and repays them from released share; over the executable
    stand-ins. *)

From Stdlib Require Import ZArith Lia.
From stdpp Require Import base list gmap sets strings.
From S2P Require Import Prelude Codec Crypto Economy Settlement CreditPermit CreditJournal Credit CreditTheorems OutboxTheorems.
From S2P Require Import CreditFlow.
Open Scope Z_scope.

#[local] Existing Instance Toy.primitives.
#[local] Existing Instance Toy.laws.

(** An executable cipher with the documented interface: the plaintext and a
    sixteen-byte tag. *)
Module ToyCipher.
Definition mac (k n p a : bytes) : bytes := take 16 (Toy.hash (k ++ n ++ p ++ a)).
Definition chacha : ChaCha := {|
  chacha_encrypt k n p a := if bool_decide (bytes_ok p) then Some (p ++ mac k n p a) else None;
  chacha_decrypt k n c a :=
    let p := take (length c - 16) c in
    if bool_decide (bytes_ok p) && bool_decide (c = p ++ mac k n p a) then Some p else None;
|}.
Lemma mac_length k n p a : length (mac k n p a) = 16%nat.
Proof. unfold mac. rewrite length_take, Toy.hash_length. lia. Qed.
Lemma cipher_laws : @ChaChaLaws chacha.
Proof.
  split; cbn [chacha_encrypt chacha_decrypt chacha]; cbv zeta; intros k n.
  - intros p a c. case_bool_decide; [|done]. intros [= <-]. rewrite length_app, mac_length.
    replace (length p + 16 - 16)%nat with (length p) by lia. rewrite take_app_length.
    by rewrite !bool_decide_eq_true_2.
  - intros p a c. case_bool_decide; [|done]. intros [= <-]. by rewrite length_app, mac_length.
  - intros c a p. case_bool_decide; [|done]. case_bool_decide; [|done]. by intros [= <-].
Qed.
End ToyCipher.
#[local] Existing Instance ToyCipher.chacha.
#[local] Existing Instance ToyCipher.cipher_laws.

Module Wallet.
Definition network : bytes := replicate 32 9.
Definition revision : bytes := replicate 32 3.
Definition borrower : SigningKey := mkSigningKey [5].
Definition terms : CreditPermitTerms :=
  mkPermitTerms network revision (replicate 32 1) (vk_bytes (verifying_key borrower)) 1000 10 20.
Definition permit : VerifiedCreditPermit := mkVerifiedPermit terms (digest Blake3 (permit_message terms)).
Example permit_issued :
  (p ← sign_credit_permit (mkSigningKey [7]) terms 100; verify_credit_permit p (verifying_key (mkSigningKey [7])) network 100) =
  Ok permit.
Proof. vm_compute. reflexivity. Qed.

Definition key : AeadKey := mkAeadKey ChaCha20Poly1305 (replicate 32 4).
Definition empty : CreditDirectory :=
  mkCreditDir None false (map Some [replicate 12 1; replicate 12 2] ++ None :: map Some [replicate 12 3; replicate 12 4])
    [None; None; Some SyncParent; None].
Definition journal (r : result CreditSignatureError FileCreditJournal) : FileCreditJournal :=
  match r with Ok j => j | Err _ => mkFileJournal empty permit key end.
Definition payee : bytes := replicate 32 6.
Notation pay amount j := (sign_next_credit_iou borrower permit amount payee j).
Definition unsigned : SignedCreditIou := mkSignedIou (mkIouTerms [] 0 [] 0) (mkSignature Ed25519 []).
Definition coupon (r : result CreditSignatureError SignedCreditIou) : SignedCreditIou :=
  match r with Ok c => c | Err _ => unsigned end.

Definition j0 : FileCreditJournal := Eval vm_compute in journal (fst (FileCreditJournal_create empty permit key)).
Definition j1 : FileCreditJournal := Eval vm_compute in snd (pay 300 j0).
Definition c0 : SignedCreditIou := Eval vm_compute in coupon (fst (pay 300 j0)).
Definition j2 : FileCreditJournal := Eval vm_compute in snd (pay 200 j1).
Definition j3 : FileCreditJournal := Eval vm_compute in snd (pay 200 j2).
Definition j4 : FileCreditJournal := Eval vm_compute in snd (pay 100 j3).
Definition c2 : SignedCreditIou := Eval vm_compute in coupon (fst (pay 100 j3)).

Definition sent : list SignedCreditIou := Eval vm_compute in match outbox j4 with Ok l => l | Err _ => [] end.

(** Paid; no entropy; recorded but not confirmed; paid; over the permit. *)
Example payments :
  pay 300 j0 = (Ok c0, j1) /\ pay 200 j1 = (Err JournalFailure, j2) /\ pay 200 j2 = (Err JournalFailure, j3) /\
  pay 100 j3 = (Ok c2, j4) /\ pay 401 j4 = (Err AllowanceExhausted, j4).
Proof. do 4 (split; [vm_compute; reflexivity|]). vm_compute. reflexivity. Qed.
Lemma created : FileCreditJournal_create empty permit key = (Ok j0, fj_directory j0).
Proof. vm_compute. reflexivity. Qed.
Lemma sent_outbox : outbox j4 = Ok sent.
Proof. vm_compute. reflexivity. Qed.
Lemma sent_recorded : file_coupons j4 = Some sent.
Proof. vm_compute. reflexivity. Qed.
Lemma empty_nonces : nonces_ok empty.
Proof. repeat constructor. Qed.
Lemma paid : wallet borrower permit j0 [c0; c2] j4.
Proof.
  destruct payments as (P1 & P2 & P3 & P4 & _). change [c0; c2] with (([] ++ [c0]) ++ [c2]).
  assert (forall a, 0 <=? a = true -> a <=? U64_MAX = true -> is_u64 a) as Hu by (intros a ? ?; bool_prop; split; lia).
  apply (wallet_signed _ _ j0 _ j3 100 payee _ j4); [|by apply Hu|done|exact P4].
  apply (wallet_failed _ _ j0 _ j2 200 payee JournalFailure); [|by apply Hu|done|exact P3].
  apply (wallet_failed _ _ j0 _ j1 200 payee JournalFailure); [|by apply Hu|done|exact P2].
  apply (wallet_signed _ _ j0 _ j0 300 payee _ j1); [apply wallet_start|by apply Hu|done|exact P1].
Qed.
End Wallet.
Import Wallet.

Lemma wallet_within_permit_witness :
  exists sent, recorded (LawfulJournal := FileCreditJournal_lawful permit) j4 = Some sent /\ amounts [c0; c2] = 400 /\ amounts sent <= 1000.
Proof.
  destruct (create_fresh empty permit key j0 _ empty_nonces ltac:(vm_compute; discriminate) created) as (Ho & Hf & _).
  destruct (wallet_within_permit (LawfulJournal0 := FileCreditJournal_lawful permit) borrower permit j0 [c0; c2] j4
    Ho Hf eq_refl ltac:(vm_compute; discriminate) paid) as (sent & H1 & _ & [_ H2] & _).
  exists sent. split; [exact H1|]. split; [vm_compute; reflexivity|exact H2].
Defined.

Lemma outbox_survives_witness :
  exists cs, outbox j4 = Ok cs /\ map (fun c => it_amount_micro (si_terms c)) cs = [300; 200; 100] /\
    sublist [c0; c2] cs.
Proof.
  destruct (outbox_survives borrower permit empty key j0 _ [c0; c2] j4 empty_nonces ltac:(vm_compute; split; discriminate)
    eq_refl created paid) as (cs & _ & H1 & H2 & _).
  rewrite sent_outbox in H1. injection H1 as <-. exists sent. split; [exact sent_outbox|]. split; [reflexivity|exact H2].
Defined.

(** The engine: one human, the permit, two of the outbox's coupons recorded
    newest first, two epochs' shares released. *)
Module Engine.
Definition policy : CreditPolicy := mkCreditPolicy network revision 5000 250000 100 10 10 10.
Definition human : bytes := replicate 32 8.
Definition nothing : HumanShareCredit := mkCredit policy ∅ ∅ ∅ [].
Definition state {A} (r : result credit_fault (A * HumanShareCredit)) : HumanShareCredit := match r with Ok (_, c) => c | Err _ => nothing end.
Definition enrolled : HumanShareCredit := match enroll nothing human 2000 with Ok c => c | Err _ => nothing end.
Definition registered : HumanShareCredit := state (register_permit enrolled human permit 10).
Definition newest : HumanShareCredit := state (record_iou registered (verified c2) 15).
Definition both : HumanShareCredit := state (record_iou newest (verified c0) 16).
Definition released1 : HumanShareCredit := state (release_share both human 1 402).
Definition released2 : HumanShareCredit := state (release_share released1 human 2 402).
Definition split_of (r : result credit_fault (ShareRepayment * bool * HumanShareCredit)) : ShareRepayment :=
  match r with Ok (s, _, _) => s | Err _ => mkShareRepayment 0 0 0 [] end.
Definition account (c : HumanShareCredit) : Position :=
  match hc_accounts c !! human with Some a => a | None => mkPosition 0 0 0 0 None end.

Lemma registered_run : credit_run [] registered.
Proof.
  apply (credit_register [] enrolled human permit 10 true); [|vm_compute; split; discriminate|vm_compute; reflexivity].
  apply (credit_enroll [] nothing human 2000); [|done|vm_compute; reflexivity].
  apply (credit_start policy); [vm_compute; discriminate..|]. vm_compute. reflexivity.
Qed.
Lemma newest_run : credit_run [Recorded human (verified c2)] newest.
Proof.
  eapply (credit_record [] registered (verified c2) 15 (mkPermit human permit 0 false));
    [exact registered_run|vm_compute; reflexivity|vm_compute; reflexivity|vm_compute; reflexivity].
Qed.
Lemma both_run : credit_run [Recorded human (verified c2); Recorded human (verified c0)] both.
Proof.
  eapply (credit_record [Recorded human (verified c2)] newest (verified c0) 16 (mkPermit human permit 100 false));
    [exact newest_run|vm_compute; reflexivity|vm_compute; reflexivity|vm_compute; reflexivity].
Qed.
(** A quarter of each share repays, the half unit carries: 100 clears the IOU
    recorded first, 101 goes to the other. *)
Example shares :
  map rp_amount_micro (sr_repayments (split_of (release_share both human 1 402))) = [100] /\
  po_repayment_remainder (account released1) = 500000 /\
  map rp_amount_micro (sr_repayments (split_of (release_share released1 human 2 402))) = [101] /\
  po_debt (account released2) = 199.
Proof. do 3 (split; [vm_compute; reflexivity|]). vm_compute. reflexivity. Qed.
End Engine.
Import Engine.

Lemma credit_exposure_witness :
  sum_of (under_permit (vp_id permit)) [Recorded human (verified c2); Recorded human (verified c0)] = 400 /\
  NoDup (concat (map slot_of [Recorded human (verified c2); Recorded human (verified c0)])).
Proof. split; [vm_compute; reflexivity|]. exact (proj1 (proj2 (credit_exposure _ both both_run))). Defined.

Lemma release_settles_witness :
  exists split c', release_share both human 1 402 = Ok (split, true, c') /\
    sr_recipient_available split + paid_out (sr_repayments split) = 402 /\ release_share c' human 1 402 = Ok (split, false, c').
Proof.
  destruct (release_settles _ both human (account both) 1 402 both_run ltac:(vm_compute; reflexivity) ltac:(vm_compute; exact I)
    ltac:(lia)) as (split & c' & H1 & H2 & _ & _ & _ & _ & _ & H3).
  exists split, c'. split; [exact H1|]. split; [exact H2|exact H3].
Defined.

Lemma repayment_carries_witness : 201 = 804 * 250000 / MILLION.
Proof.
  apply (repayment_carries _ both human (account both) 804 201 released2 both_run); [vm_compute; reflexivity..|].
  apply (releases_more human both 402 100 released1 2 402 (split_of (release_share released1 human 2 402)));
    [|lia|vm_compute; reflexivity|vm_compute; reflexivity].
  apply (releases_more human both 0 0 both 1 402 (split_of (release_share both human 1 402)));
    [|lia|vm_compute; reflexivity|vm_compute; reflexivity].
  apply releases_none.
Defined.

Lemma coupons_accepted_witness :
  exists b c', record_iou newest (verified c0) 16 = Ok (b, c') /\ record_iou c' (verified c0) 16 = Ok (false, c').
Proof.
  destruct (create_fresh empty permit key j0 _ empty_nonces ltac:(vm_compute; discriminate) created) as (Ho & Hf & _).
  assert (recorded (LawfulJournal := FileCreditJournal_lawful permit) j4 = Some sent) as Hs by exact sent_recorded.
  assert (only_sent permit sent [Recorded human (verified c2)]) as Honly.
  { intros s i Hi%list_elem_of_singleton _. exists c2. split; [|congruence].
    apply (list_elem_of_lookup_2 _ 2). reflexivity. }
  exact (proj2 (coupons_accepted (H0 := FileCreditJournal_lawful permit) borrower j0 j4 [c0; c2] _ newest
    (mkPermit human permit 100 false) sent 0 c0 16 Ho Hf eq_refl paid Hs newest_run ltac:(vm_compute; reflexivity) eq_refl eq_refl
    Honly ltac:(vm_compute; reflexivity) ltac:(vm_compute; split; discriminate) eq_refl)).
Defined.
