(* ===== verification/Bearer.v ===== *)
(** * Bearer: frames, chunks, and the anonymous encrypted channel

    Models [crates/mini-bearer/src]: [error.rs], [bearer.rs], [tcp.rs],
    [ble.rs], [channel.rs] and [encrypted_link.rs], with
    [crates/mini-crypto/src/agreement.rs] and [kdf.rs].  A frame travels a
    byte stream behind its length, or a small-payload radio in numbered
    chunks; over either, two ends agree on keys without naming themselves
    and seal what they send under a counter.

    X25519 and HKDF are the classes [X25519] and [Hkdf]; the socket is what
    it was given to write and the reads it will give.  Lengths are compared
    in [Z], where the source's [usize] sums do not overflow: a buffer is
    shorter than [2^63]. *)

From Stdlib Require Import ZArith Lia.
From stdpp Require Import base list gmap sets strings.
From S2P Require Import Prelude Codec Crypto CreditPermit CreditJournal.
Open Scope Z_scope.

Notation zlen b := (Z.of_nat (length b)).

(** ** Key agreement ([agreement.rs]) *)
Class X25519 := {
  x25519_public : bytes -> bytes;
  x25519_shared : bytes -> bytes -> bytes;
}.
Inductive KeyAgreementSuite := KaX25519.
#[global] Instance KeyAgreementSuite_eq_dec : EqDecision KeyAgreementSuite.
Proof. solve_decision. Defined.
Definition ka_tag (s : KeyAgreementSuite) : Z := match s with KaX25519 => 0x01 end.
Definition ka_from_tag (tag : Z) : result CryptoError KeyAgreementSuite :=
  if tag =? 0x01 then Ok KaX25519 else Err (UnknownKeyAgreementSuite tag).
Definition ka_public_key_len (s : KeyAgreementSuite) : nat := match s with KaX25519 => 32 end.
Record AgreementPublicKey := mkAgreementPublic { ap_suite : KeyAgreementSuite; ap_bytes : bytes }.
Record AgreementSecretKey := mkAgreementSecret { as_suite : KeyAgreementSuite; as_bytes : bytes }.
Record SharedSecret := mkShared { ss_suite : KeyAgreementSuite; ss_bytes : bytes }.
Definition agreement_from_seed (seed : bytes) : AgreementSecretKey := mkAgreementSecret KaX25519 seed.
(** [draw] is what the platform's generator gives. *)
Definition agreement_generate (draw : option bytes) : result CryptoError AgreementSecretKey :=
  seed ← ok_or draw Crypto.Entropy; Ok (agreement_from_seed seed).
Definition agreement_public_key `{X25519} (k : AgreementSecretKey) : AgreementPublicKey :=
  match as_suite k with KaX25519 => mkAgreementPublic (as_suite k) (x25519_public (as_bytes k)) end.
Definition agree `{X25519} (k : AgreementSecretKey) (peer : AgreementPublicKey) : result CryptoError SharedSecret :=
  _ ← fail_if (negb (bool_decide (ap_suite peer = as_suite k))) KeyAgreementSuiteMismatch;
  match as_suite k with
  | KaX25519 =>
      let shared := x25519_shared (as_bytes k) (ap_bytes peer) in
      _ ← fail_if (forallb (fun b => b =? 0) shared) InvalidPublicKey;
      Ok (mkShared (as_suite k) shared)
  end.
Definition agreement_from_suite_bytes (s : KeyAgreementSuite) (b : bytes) : result CryptoError AgreementPublicKey :=
  match s with
  | KaX25519 =>
      _ ← fail_if (negb (length b =? 32)%nat) (BadLength (Z.of_nat (ka_public_key_len s)) (zlen b));
      Ok (mkAgreementPublic s b)
  end.

(** ** Key derivation ([kdf.rs]) *)
(** [Hkdf::<Sha256>::new(salt, ikm).expand(info, out)]. *)
Class Hkdf := { hkdf_sha256 : option bytes -> bytes -> bytes -> nat -> option bytes }.
Definition MAX_HKDF_SHA256_OUTPUT_BYTES : Z := 255 * 32.
Inductive KdfSuite := HkdfSha256.
#[global] Instance KdfSuite_eq_dec : EqDecision KdfSuite.
Proof. solve_decision. Defined.
#[global] Instance AeadSuite_eq_dec : EqDecision AeadSuite.
Proof. solve_decision. Defined.
Definition kdf_tag (s : KdfSuite) : Z := match s with HkdfSha256 => 0x01 end.
Definition kdf_from_tag (tag : Z) : result CryptoError KdfSuite :=
  if tag =? 0x01 then Ok HkdfSha256 else Err (UnknownKdfSuite tag).
Definition derive_bytes `{Hkdf} (s : KdfSuite) (salt : option bytes) (ikm info : bytes) (len : nat) : result CryptoError bytes :=
  match s with
  | HkdfSha256 =>
      _ ← fail_if (MAX_HKDF_SHA256_OUTPUT_BYTES <? Z.of_nat len) (BadLength MAX_HKDF_SHA256_OUTPUT_BYTES (Z.of_nat len));
      ok_or (hkdf_sha256 salt ikm info len) Kdf
  end.
Definition derive_aead_key `{Hkdf} (s : KdfSuite) (salt : option bytes) (ikm info : bytes) (suite : AeadSuite) : result CryptoError AeadKey :=
  b ← derive_bytes s salt ikm info (key_len suite);
  AeadKey_from_suite_bytes suite b.
Definition derive_aead_key_from_shared `{Hkdf} (s : KdfSuite) (salt : option bytes) (shared : SharedSecret) (info : bytes) (suite : AeadSuite) :
    result CryptoError AeadKey :=
  derive_aead_key s salt (ss_bytes shared) info suite.

(** ** Errors *)
Inductive BearerError :=
| BearerClosed
| FrameTooLarge (max got : Z)
| BearerTruncated
| BadHandshake
| UnsupportedVersion (v : Z)
| CounterExhausted
| BearerCrypto (e : CryptoError)
| BearerIo
| MtuTooSmall (min got : Z)
| TooManyChunks (max needed : Z)
| BadChunk
| OutOfOrderChunk (expected got : Z)
| MalformedLocalServiceRecord.

(** ** Frames on a byte stream ([bearer.rs]) *)
Definition MAX_FRAME_BYTES : Z := 16 * 1024 * 1024.
Definition MAX_STREAM_BUFFER_BYTES : Z := MAX_FRAME_BYTES + 4.
Definition encode_frame (payload : bytes) : result BearerError bytes :=
  _ ← fail_if (MAX_FRAME_BYTES <? zlen payload) (FrameTooLarge MAX_FRAME_BYTES (zlen payload));
  Ok (w_bytes payload).
(** A [FrameReader] is its buffer. *)
Record FrameReader := mkFrameReader { fr_buf : bytes }.
Definition FrameReader_new : FrameReader := mkFrameReader [].
Definition fr_push (r : FrameReader) (b : bytes) : result BearerError FrameReader :=
  let new_len := zlen (fr_buf r) + zlen b in
  _ ← fail_if (MAX_STREAM_BUFFER_BYTES <? new_len) (FrameTooLarge MAX_STREAM_BUFFER_BYTES new_len);
  Ok (mkFrameReader (fr_buf r ++ b)).
Definition next_frame (r : FrameReader) : result BearerError (option bytes * FrameReader) :=
  let buf := fr_buf r in
  if zlen buf <? 4 then Ok (None, r) else
  let len := from_be_bytes (take 4 buf) in
  _ ← fail_if (MAX_FRAME_BYTES <? len) (FrameTooLarge MAX_FRAME_BYTES len);
  if zlen buf <? 4 + len then Ok (None, r) else
  Ok (Some (take (Z.to_nat len) (drop 4 buf)), mkFrameReader (drop (4 + Z.to_nat len) buf)).

(** ** The trait [Bearer] *)
Class Bearer (B : Type) := {
  bearer_send : B -> bytes -> B * result BearerError unit;
  bearer_recv : B -> B * result BearerError bytes;
  bearer_try_recv : B -> B * result BearerError (option bytes);
  max_frame_bytes : B -> option Z;
}.

(** ** A socket ([tcp.rs]) *)
Definition READ_CHUNK_BYTES : Z := 16 * 1024.
(** What a read gives; no more reads is the end of the stream.  A write that
    fails has written some first bytes. *)
Inductive socket_read := ReadData (b : bytes) | ReadWouldBlock | ReadFailed.
Record TcpStream := mkTcpStream { st_written : bytes; st_writes : list (option nat); st_reads : list socket_read }.
Record TcpBearer := mkTcpBearer { tb_stream : TcpStream; tb_reader : FrameReader }.
Definition tcp_from_stream (s : TcpStream) : TcpBearer := mkTcpBearer s FrameReader_new.
Definition write_all (s : TcpStream) (b : bytes) : TcpStream * result BearerError unit :=
  match st_writes s with
  | Some n :: ws => (mkTcpStream (st_written s ++ take n b) ws (st_reads s), Err BearerIo)
  | ws => (mkTcpStream (st_written s ++ b) (tail ws) (st_reads s), Ok tt)
  end.
Definition tcp_send (t : TcpBearer) (frame : bytes) : TcpBearer * result BearerError unit :=
  match encode_frame frame with
  | Err e => (t, Err e)
  | Ok encoded => let '(s, r) := write_all (tb_stream t) encoded in (mkTcpBearer s (tb_reader t), r)
  end.
(** The loop of [recv] over the reads. *)
Fixpoint recv_loop (r : FrameReader) (reads : list socket_read) : FrameReader * list socket_read * result BearerError bytes :=
  match next_frame r with
  | Err e => (r, reads, Err e)
  | Ok (Some frame, r) => (r, reads, Ok frame)
  | Ok (None, r) =>
      match reads with
      | [] => (r, [], Err BearerClosed)
      | ReadData [] :: reads => (r, reads, Err BearerClosed)
      | ReadData b :: reads =>
          match fr_push r b with
          | Err e => (r, reads, Err e)
          | Ok r => recv_loop r reads
          end
      | _ :: reads => (r, reads, Err BearerIo)
      end
  end.
Definition tcp_recv (t : TcpBearer) : TcpBearer * result BearerError bytes :=
  let s := tb_stream t in
  let '(r, reads, out) := recv_loop (tb_reader t) (st_reads s) in
  (mkTcpBearer (mkTcpStream (st_written s) (st_writes s) reads) r, out).
Definition tcp_try_recv (t : TcpBearer) : TcpBearer * result BearerError (option bytes) :=
  let s := tb_stream t in
  let left r reads := mkTcpBearer (mkTcpStream (st_written s) (st_writes s) reads) r in
  match next_frame (tb_reader t) with
  | Err e => (t, Err e)
  | Ok (Some frame, r) => (left r (st_reads s), Ok (Some frame))
  | Ok (None, r) =>
      match st_reads s with
      | [] => (left r [], Err BearerClosed)
      | ReadData [] :: reads => (left r reads, Err BearerClosed)
      | ReadData b :: reads =>
          match fr_push r b with
          | Err e => (left r reads, Err e)
          | Ok r => match next_frame r with
                    | Err e => (left r reads, Err e)
                    | Ok (frame, r) => (left r reads, Ok frame)
                    end
          end
      | ReadWouldBlock :: reads => (left r reads, Ok None)
      | ReadFailed :: reads => (left r reads, Err BearerIo)
      end
  end.
#[global] Instance tcp_bearer : Bearer TcpBearer := {|
  bearer_send := tcp_send;
  bearer_recv := tcp_recv;
  bearer_try_recv := tcp_try_recv;
  max_frame_bytes _ := None;
|}.

(** ** Chunks ([ble.rs]) *)
Definition CHUNK_HEADER_BYTES : Z := 4.
Definition encode_chunk (index count : Z) (payload : bytes) : bytes := to_be_bytes 2 index ++ to_be_bytes 2 count ++ payload.
(** [frame.chunks(n)]: every round takes at least one byte. *)
Fixpoint chunks_of (fuel n : nat) (b : bytes) : list bytes :=
  match fuel, b with
  | S fuel, _ :: _ => take n b :: chunks_of fuel n (drop n b)
  | _, _ => []
  end.
Definition chunk_frame (frame : bytes) (mtu : Z) : result BearerError (list bytes) :=
  _ ← fail_if (MAX_FRAME_BYTES <? zlen frame) (FrameTooLarge MAX_FRAME_BYTES (zlen frame));
  _ ← fail_if (mtu <=? CHUNK_HEADER_BYTES) (MtuTooSmall (CHUNK_HEADER_BYTES + 1) mtu);
  let payload_per_chunk := mtu - CHUNK_HEADER_BYTES in
  let chunk_count := Z.max ((zlen frame + payload_per_chunk - 1) / payload_per_chunk) 1 in
  _ ← fail_if (U16_MAX <? chunk_count) (TooManyChunks U16_MAX chunk_count);
  let payloads := chunks_of (length frame) (Z.to_nat payload_per_chunk) frame in
  Ok (match payloads with
      | [] => [encode_chunk 0 1 []]
      | _ => imap (fun i p => encode_chunk (Z.of_nat i) chunk_count p) payloads
      end).
Record ChunkReassembler := mkReassembler { cr_expected_index : Z; cr_total : option Z; cr_buf : bytes }.
Definition ChunkReassembler_new : ChunkReassembler := mkReassembler 0 None [].
(** The header checks may set [total] before a later check fails. *)
Definition push_chunk (r : ChunkReassembler) (chunk : bytes) : ChunkReassembler * result BearerError (option bytes) :=
  if zlen chunk <? CHUNK_HEADER_BYTES then (r, Err BearerTruncated) else
  let index := from_be_bytes (take 2 chunk) in
  let count := from_be_bytes (take 2 (drop 2 chunk)) in
  let payload := drop 4 chunk in
  if count =? 0 then (r, Err BadChunk) else
  let checked :=
    match cr_total r with
    | None => if negb (index =? 0) then Err (OutOfOrderChunk 0 index) else Ok count
    | Some expected_count =>
        if negb (count =? expected_count) then Err BadChunk
        else if negb (index =? cr_expected_index r) then Err (OutOfOrderChunk (cr_expected_index r) index)
        else Ok expected_count
    end in
  match checked with
  | Err e => (r, Err e)
  | Ok total =>
      let r := mkReassembler (cr_expected_index r) (Some total) (cr_buf r) in
      let new_len := zlen (cr_buf r) + zlen payload in
      if MAX_FRAME_BYTES <? new_len then (r, Err (FrameTooLarge MAX_FRAME_BYTES new_len)) else
      let buf := cr_buf r ++ payload in
      let expected_index := wrapping_add 16 (cr_expected_index r) 1 in
      if expected_index =? count then (mkReassembler 0 None [], Ok (Some buf))
      else (mkReassembler expected_index (Some total) buf, Ok None)
  end.

(** ** The channel ([channel.rs]) *)
Definition PROTOCOL_VERSION : Z := 1.
Definition AEAD_TAG_BYTES : Z := 16.
Definition MAX_CHANNEL_CIPHERTEXT_BYTES : Z := MAX_FRAME_BYTES.
Definition MAX_CHANNEL_PLAINTEXT_BYTES : Z := MAX_CHANNEL_CIPHERTEXT_BYTES - AEAD_TAG_BYTES.
Definition KA_SUITE : KeyAgreementSuite := KaX25519.
Definition KDF_SUITE : KdfSuite := HkdfSha256.
Definition AEAD_SUITE : AeadSuite := ChaCha20Poly1305.
Definition HS_SALT : bytes := lit "MINI/CH1 v1 handshake".
Definition TRAFFIC_INFO : bytes := lit "MINI/CH1 v1 traffic".
Definition OKM_LEN : nat := 96.
Definition HELLO_LEN : nat := 36.

Record Channel := mkChannel {
  ch_send_key : AeadKey;
  ch_recv_key : AeadKey;
  ch_send_ctr : Z;
  ch_recv_ctr : Z;
  ch_binding : bytes;
}.
Definition Channel_new (send_key recv_key : AeadKey) (binding : bytes) : Channel := mkChannel send_key recv_key 0 0 binding.
Definition channel_binding (c : Channel) : bytes := ch_binding c.
Definition hello_msg (ephemeral_public : bytes) : bytes :=
  [PROTOCOL_VERSION; ka_tag KA_SUITE; kdf_tag KDF_SUITE; aead_tag AEAD_SUITE] ++ ephemeral_public.
Definition parse_hello (msg : bytes) : result BearerError bytes :=
  _ ← fail_if (negb (length msg =? HELLO_LEN)%nat) BadHandshake;
  match msg with
  | version :: ka :: kdf :: aead :: pk =>
      _ ← fail_if (negb (version =? PROTOCOL_VERSION)) (UnsupportedVersion version);
      ka ← map_err BearerCrypto (ka_from_tag ka);
      _ ← fail_if (negb (bool_decide (ka = KA_SUITE))) BadHandshake;
      kdf ← map_err BearerCrypto (kdf_from_tag kdf);
      _ ← fail_if (negb (bool_decide (kdf = KDF_SUITE))) BadHandshake;
      aead ← map_err BearerCrypto (aead_from_tag aead);
      _ ← fail_if (negb (bool_decide (aead = AEAD_SUITE))) BadHandshake;
      Ok pk
  | _ => Err BadHandshake
  end.
(** Four zero bytes, then the counter. *)
Definition counter_nonce (counter : Z) : result BearerError bytes :=
  map_err BearerCrypto (AeadNonce_from_bytes (replicate 4 0 ++ w_u64 counter)).

Section Channel.
Context {X : X25519} {K : Hkdf} {C : ChaCha}.

Definition derive_keys (initiator_hello responder_hello dh : bytes) : result BearerError (AeadKey * AeadKey * bytes) :=
  let info := TRAFFIC_INFO ++ initiator_hello ++ responder_hello in
  okm ← map_err BearerCrypto (derive_bytes KDF_SUITE (Some HS_SALT) dh info OKM_LEN);
  k_i2r ← map_err BearerCrypto (AeadKey_from_suite_bytes AEAD_SUITE (take 32 okm));
  k_r2i ← map_err BearerCrypto (AeadKey_from_suite_bytes AEAD_SUITE (take 32 (drop 32 okm)));
  Ok (k_i2r, k_r2i, take 32 (drop 64 okm)).
Record Initiator := mkInitiator { in_ephemeral : AgreementSecretKey; in_e_i_pub : bytes }.
Definition initiator_start (draw : option bytes) : result BearerError (Initiator * bytes) :=
  ephemeral ← map_err BearerCrypto (agreement_generate draw);
  let e_i_pub := ap_bytes (agreement_public_key ephemeral) in
  Ok (mkInitiator ephemeral e_i_pub, hello_msg e_i_pub).
Definition initiator_finish (i : Initiator) (responder_hello : bytes) : result BearerError Channel :=
  e_r_pub ← parse_hello responder_hello;
  peer ← map_err BearerCrypto (agreement_from_suite_bytes KA_SUITE e_r_pub);
  dh ← map_err BearerCrypto (agree (in_ephemeral i) peer);
  '(k_i2r, k_r2i, binding) ← derive_keys (hello_msg (in_e_i_pub i)) responder_hello (ss_bytes dh);
  Ok (Channel_new k_i2r k_r2i binding).
Definition responder_respond (draw : option bytes) (initiator_hello : bytes) : result BearerError (Channel * bytes) :=
  e_i_pub ← parse_hello initiator_hello;
  ephemeral ← map_err BearerCrypto (agreement_generate draw);
  let e_r_pub := ap_bytes (agreement_public_key ephemeral) in
  peer ← map_err BearerCrypto (agreement_from_suite_bytes KA_SUITE e_i_pub);
  dh ← map_err BearerCrypto (agree ephemeral peer);
  let responder_hello := hello_msg e_r_pub in
  '(k_i2r, k_r2i, binding) ← derive_keys initiator_hello responder_hello (ss_bytes dh);
  Ok (Channel_new k_r2i k_i2r binding, responder_hello).

Definition channel_seal (c : Channel) (plaintext aad : bytes) : result BearerError (bytes * Channel) :=
  _ ← fail_if (MAX_CHANNEL_PLAINTEXT_BYTES <? zlen plaintext) (FrameTooLarge MAX_CHANNEL_PLAINTEXT_BYTES (zlen plaintext));
  _ ← fail_if (ch_send_ctr c =? U64_MAX) CounterExhausted;
  nonce ← counter_nonce (ch_send_ctr c);
  ct ← map_err BearerCrypto (aead_encrypt (ch_send_key c) nonce plaintext aad);
  Ok (ct, mkChannel (ch_send_key c) (ch_recv_key c) (ch_send_ctr c + 1) (ch_recv_ctr c) (ch_binding c)).
Definition channel_open (c : Channel) (ciphertext aad : bytes) : result BearerError (bytes * Channel) :=
  _ ← fail_if (MAX_CHANNEL_CIPHERTEXT_BYTES <? zlen ciphertext) (FrameTooLarge MAX_CHANNEL_CIPHERTEXT_BYTES (zlen ciphertext));
  _ ← fail_if (ch_recv_ctr c =? U64_MAX) CounterExhausted;
  nonce ← counter_nonce (ch_recv_ctr c);
  pt ← map_err BearerCrypto (aead_decrypt (ch_recv_key c) nonce ciphertext aad);
  Ok (pt, mkChannel (ch_send_key c) (ch_recv_key c) (ch_send_ctr c) (ch_recv_ctr c + 1) (ch_binding c)).

(** ** A bearer with a channel over it ([encrypted_link.rs]) *)
Definition ENCRYPTED_LINK_AAD : bytes := lit "mini-bearer/encrypted-link/v1".
Record EncryptedLink (B : Type) := mkLink { el_bearer : B; el_channel : Channel }.
Arguments mkLink {B}.
Arguments el_bearer {B}.
Arguments el_channel {B}.
Context {B : Type} {BB : Bearer B}.
(** An error drops the bearer with the call. *)
Definition link_dial (bearer : B) (draw : option bytes) : result BearerError (EncryptedLink B) :=
  '(initiator, hello) ← initiator_start draw;
  let '(bearer, sent) := bearer_send bearer hello in
  _ ← sent;
  let '(bearer, received) := bearer_recv bearer in
  response ← received;
  channel ← initiator_finish initiator response;
  Ok (mkLink bearer channel).
Definition link_accept (bearer : B) (draw : option bytes) : result BearerError (EncryptedLink B) :=
  let '(bearer, received) := bearer_recv bearer in
  hello ← received;
  '(channel, response) ← responder_respond draw hello;
  let '(bearer, sent) := bearer_send bearer response in
  _ ← sent;
  Ok (mkLink bearer channel).
Definition max_sendable_plaintext_bytes (l : EncryptedLink B) : option Z :=
  (fun max => saturating_sub max AEAD_TAG_BYTES) <$> max_frame_bytes (el_bearer l).
Definition link_send (l : EncryptedLink B) (plaintext : bytes) : EncryptedLink B * result BearerError unit :=
  let too_large := match max_sendable_plaintext_bytes l with
                   | Some max => if max <? zlen plaintext then Some (FrameTooLarge max (zlen plaintext)) else None
                   | None => None
                   end in
  match too_large with
  | Some e => (l, Err e)
  | None =>
      match channel_seal (el_channel l) plaintext ENCRYPTED_LINK_AAD with
      | Err e => (l, Err e)
      | Ok (ciphertext, channel) => let '(bearer, r) := bearer_send (el_bearer l) ciphertext in (mkLink bearer channel, r)
      end
  end.
Definition link_recv (l : EncryptedLink B) : EncryptedLink B * result BearerError bytes :=
  match bearer_recv (el_bearer l) with
  | (bearer, Err e) => (mkLink bearer (el_channel l), Err e)
  | (bearer, Ok ciphertext) =>
      match channel_open (el_channel l) ciphertext ENCRYPTED_LINK_AAD with
      | Err e => (mkLink bearer (el_channel l), Err e)
      | Ok (plaintext, channel) => (mkLink bearer channel, Ok plaintext)
      end
  end.
Definition link_try_recv (l : EncryptedLink B) : EncryptedLink B * result BearerError (option bytes) :=
  match bearer_try_recv (el_bearer l) with
  | (bearer, Err e) => (mkLink bearer (el_channel l), Err e)
  | (bearer, Ok None) => (mkLink bearer (el_channel l), Ok None)
  | (bearer, Ok (Some ciphertext)) =>
      match channel_open (el_channel l) ciphertext ENCRYPTED_LINK_AAD with
      | Err e => (mkLink bearer (el_channel l), Err e)
      | Ok (plaintext, channel) => (mkLink bearer channel, Ok (Some plaintext))
      end
  end.
End Channel.
Arguments EncryptedLink B : clear implicits.
Arguments mkLink {B}.
Arguments el_bearer {B}.
Arguments el_channel {B}.
