(* ===== verification/BearerTheorems.v ===== *)
(** * BearerTheorems: what is sent arrives

    Chunks reassemble; a socket gives back the frames written to it however
    the stream is cut, within the bound the reader's buffer allows; two ends
    of a handshake hold the same keys, crossed; and so a link delivers what
    it was given, in order, under nonces that never repeat. *)

From Stdlib Require Import ZArith Lia.
From stdpp Require Import base list gmap sets strings.
From S2P Require Import Prelude Codec Crypto CreditPermit CreditJournal CreditWitnesses Bearer.
Open Scope Z_scope.

(** What the third-party functions document. *)
Class X25519Laws `{X25519} := {
  x25519_public_length s : length (x25519_public s) = 32%nat;
  x25519_commutes a b : x25519_shared a (x25519_public b) = x25519_shared b (x25519_public a);
}.
Class HkdfLaws `{Hkdf} := {
  hkdf_expands salt ikm info n : Z.of_nat n <= MAX_HKDF_SHA256_OUTPUT_BYTES -> exists o, hkdf_sha256 salt ikm info n = Some o /\ length o = n;
}.

(** ** Chunks *)
Lemma chunks_of_concat n : (0 < n)%nat -> forall fuel b, (length b <= fuel)%nat -> concat (chunks_of fuel n b) = b.
Proof.
  intros Hn. induction fuel as [|fuel IH]; intros [|x b] Hl; cbn [chunks_of concat length] in *; try done; try lia.
  rewrite IH; [apply take_drop|]. rewrite length_drop. cbn [length]. lia.
Qed.
Lemma chunks_of_length n : (0 < n)%nat -> forall fuel b, (length b <= fuel)%nat ->
  Z.of_nat (length (chunks_of fuel n b)) = (zlen b + Z.of_nat n - 1) / Z.of_nat n.
Proof.
  intros Hn. induction fuel as [|fuel IH]; intros b Hl.
  - destruct b; [|cbn in Hl; lia]. cbn [chunks_of length]. symmetry. apply Z.div_small. lia.
  - destruct b as [|x b]; [cbn [chunks_of length]; symmetry; apply Z.div_small; lia|]. cbn [chunks_of]. set (l := x :: b) in *. cbn [length].
    rewrite Nat2Z.inj_succ, IH by (rewrite length_drop; lia). rewrite length_drop. assert (0 < zlen l) by (unfold l; cbn [length]; lia).
    destruct (decide (length l <= n)%nat).
    + replace (Z.of_nat (length l - n)) with 0 by lia. rewrite (Z.div_small (0 + Z.of_nat n - 1)) by lia.
      apply Z.div_unique with (r := zlen l - 1); lia.
    + rewrite Nat2Z.inj_sub by lia. replace (zlen l + Z.of_nat n - 1) with (zlen l - Z.of_nat n + Z.of_nat n - 1 + 1 * Z.of_nat n) by lia.
      rewrite Z.div_add by lia. lia.
Qed.
Lemma chunks_of_Forall n fuel b : Forall (fun c => (length c <= n)%nat) (chunks_of fuel n b).
Proof. revert b. induction fuel as [|fuel IH]; intros [|x b]; cbn [chunks_of]; constructor; [rewrite length_take; lia|apply IH]. Qed.

Lemma chunks_of_nonempty n : (0 < n)%nat -> forall fuel b, Forall (fun c => (0 < length c)%nat) (chunks_of fuel n b).
Proof. intros Hn. induction fuel as [|fuel IH]; intros [|x b]; cbn [chunks_of]; constructor; [rewrite length_take; cbn [length]; lia|apply IH]. Qed.

(** The chunks pushed one after another. *)
Fixpoint push_all (r : ChunkReassembler) (chunks : list bytes) : ChunkReassembler * list (result BearerError (option bytes)) :=
  match chunks with
  | [] => (r, [])
  | c :: chunks => let '(r, x) := push_chunk r c in let '(r, xs) := push_all r chunks in (r, x :: xs)
  end.
Lemma chunk_parts index count payload : is_u16 index -> is_u16 count ->
  let c := encode_chunk index count payload in
  zlen c = 4 + zlen payload /\ from_be_bytes (take 2 c) = index /\ from_be_bytes (take 2 (drop 2 c)) = count /\ drop 4 c = payload.
Proof.
  unfold is_u16, U16_MAX, encode_chunk. intros Hi Hc. cbv zeta.
  assert (forall v, 0 <= v <= 2 ^ 16 - 1 -> from_be_bytes (to_be_bytes 2 v) = v) as Hv
    by (intros v Hv; apply from_to_be_bytes; change (256 ^ Z.of_nat 2) with (2 ^ 16); lia).
  assert (forall v, length (to_be_bytes 2 v) = 2%nat) as Hl by (intros; apply length_to_be_bytes).
  split; [rewrite !length_app, !Hl; lia|].
  rewrite (take_app_length' (to_be_bytes 2 index)) by (by rewrite Hl). split; [by apply Hv|].
  rewrite (drop_app_length' (to_be_bytes 2 index)) by (by rewrite Hl). rewrite (take_app_length' (to_be_bytes 2 count)) by (by rewrite Hl).
  split; [by apply Hv|]. rewrite (assoc_L (++)). apply drop_app_length'. by rewrite length_app, !Hl.
Qed.
(** The payloads from [index] on, behind what was collected before. *)
Lemma push_payloads count : 0 < count <= U16_MAX -> forall payloads index buf,
  payloads <> [] -> index + zlen payloads = count -> 0 <= index -> zlen buf + zlen (concat payloads) <= MAX_FRAME_BYTES ->
  push_all (mkReassembler index (if index =? 0 then None else Some count) buf) (imap (fun i p => encode_chunk (index + Z.of_nat i) count p) payloads) =
  (ChunkReassembler_new, replicate (length payloads - 1) (Ok None) ++ [Ok (Some (buf ++ concat payloads))]).
Proof.
  intros Hc. induction payloads as [|p payloads IH]; intros index buf Hne Hi H0 Hm; [done|]. cbn [imap push_all length] in *.
  rewrite Z.add_0_r. unfold U16_MAX in Hc. cbn [concat] in Hm. rewrite length_app in Hm.
  destruct (chunk_parts index count p) as (L & E1 & E2 & E3); [unfold is_u16, U16_MAX; lia..|]. cbv zeta in *.
  unfold push_chunk. unfold CHUNK_HEADER_BYTES. cbv zeta.
  rewrite L, E1, E2, E3. destruct (Z.ltb_spec (4 + zlen p) 4) as [|_]; [lia|]. destruct (Z.eqb_spec count 0) as [|_]; [lia|]. cbn [cr_total cr_expected_index cr_buf].
  assert ((match (if index =? 0 then None else Some count) with
    | None => if negb (index =? 0) then Err (OutOfOrderChunk 0 index) else Ok count
    | Some expected_count => if negb (count =? expected_count) then Err BadChunk else if negb (index =? index) then Err (OutOfOrderChunk index index) else Ok expected_count
    end) = Ok count) as ->.
  { destruct (Z.eqb_spec index 0) as [->|]; [done|]. by rewrite !Z.eqb_refl. }
  cbv iota. destruct (Z.ltb_spec MAX_FRAME_BYTES (zlen buf + zlen p)) as [|_]; [lia|].
  assert (wrapping_add 16 index 1 = index + 1) as -> by (unfold wrapping_add; apply Z.mod_small; lia).
  destruct payloads as [|q payloads].
  - cbn [length] in *. destruct (Z.eqb_spec (index + 1) count) as [|]; [|lia]. cbn. by rewrite app_nil_r.
  - destruct (Z.eqb_spec (index + 1) count) as [|Hx]; [cbn [length] in *; lia|].
    specialize (IH (index + 1) (buf ++ p)). destruct (Z.eqb_spec (index + 1) 0) as [|_]; [lia|].
    rewrite (imap_ext _ (fun i p => encode_chunk (index + 1 + Z.of_nat i) count p)) by (intros i x _; unfold compose; f_equal; lia).
    rewrite IH; [|done|cbn [length] in *; lia|lia|rewrite length_app; lia]. cbn [length]. rewrite Nat.sub_succ, Nat.sub_0_r.
    replace (S (S (length payloads)) - 1)%nat with (S (length payloads)) by lia. cbn [replicate app]. by rewrite <- (assoc_L (++)).
Qed.
(** A frame split for a radio of any size reassembles: every chunk fits the
    radio, all but the last leave the reassembler waiting, and the last
    gives the frame and a fresh reassembler. *)
Theorem chunks_reassemble frame mtu chunks : chunk_frame frame mtu = Ok chunks ->
  Forall (fun c => zlen c <= mtu) chunks /\
  push_all ChunkReassembler_new chunks = (ChunkReassembler_new, replicate (length chunks - 1) (Ok None) ++ [Ok (Some frame)]).
Proof.
  unfold chunk_frame. intros H. apply bind_ok in H as (u1 & H1%fail_if_ok & H). apply bind_ok in H as (u2 & H2%fail_if_ok & H). cbv zeta in H.
  apply bind_ok in H as (u3 & H3%fail_if_ok & H). injection H as <-. apply Z.ltb_ge in H1, H3. apply Z.leb_gt in H2. unfold CHUNK_HEADER_BYTES in *.
  set (n := Z.to_nat (mtu - 4)). assert (Z.of_nat n = mtu - 4) as En by lia. rewrite <- En in *.
  pose proof (chunks_of_length n ltac:(lia) (length frame) frame ltac:(lia)) as Hlen.
  pose proof (chunks_of_concat n ltac:(lia) (length frame) frame ltac:(lia)) as Hcat.
  pose proof (chunks_of_Forall n (length frame) frame) as Hf.
  destruct (chunks_of (length frame) n frame) as [|p ps] eqn:E.
  - cbn in Hcat. subst frame. split; [constructor; [|done]; unfold encode_chunk; rewrite !length_app, !length_to_be_bytes; cbn; lia|].
    by vm_compute.
  - set (count := Z.max _ 1) in *. assert (count = zlen (p :: ps)) as Ec by (unfold count; rewrite <- Hlen; cbn [length]; lia).
    split.
    + apply Forall_forall. intros c (i & x & -> & Hx)%elem_of_lookup_imap_1. apply list_elem_of_lookup_2 in Hx. rewrite Forall_forall in Hf. specialize (Hf x Hx).
      unfold encode_chunk. rewrite !length_app, !length_to_be_bytes. lia.
    + rewrite length_imap. pose proof (push_payloads count ltac:(rewrite Ec; cbn [length] in *; lia) (p :: ps) 0 [] ltac:(done) ltac:(lia) ltac:(lia)) as Hp.
      rewrite Hcat in Hp. cbn [app length] in Hp. specialize (Hp H1). cbn [Z.eqb] in Hp. unfold ChunkReassembler_new at 1.
      rewrite (imap_ext _ (fun i p => encode_chunk (0 + Z.of_nat i) count p)) by done. exact Hp.
Qed.

(** ** Frames on a socket *)
Lemma w_bytes_app f rest : zlen f <= U32_MAX -> take 4 (w_bytes f ++ rest) = w_u32 (zlen f) /\ drop 4 (w_bytes f ++ rest) = f ++ rest.
Proof.
  intros Hf. rewrite w_bytes_eq, <- (assoc_L (++)). split.
  - apply take_app_length'. by rewrite length_w_u32.
  - apply drop_app_length'. by rewrite length_w_u32.
Qed.
Lemma frame_bound (f : bytes) : zlen f <= MAX_FRAME_BYTES -> is_u32 (zlen f).
Proof. unfold is_u32, U32_MAX, MAX_FRAME_BYTES. lia. Qed.
Lemma next_frame_whole f rest : zlen f <= MAX_FRAME_BYTES -> next_frame (mkFrameReader (w_bytes f ++ rest)) = Ok (Some f, mkFrameReader rest).
Proof.
  intros Hf. pose proof (frame_bound f Hf) as Hu. assert (zlen f <= U32_MAX) as Hu' by apply Hu. destruct (w_bytes_app f rest Hu') as [Ht Hd].
  unfold next_frame. cbn [fr_buf]. cbv zeta. assert (zlen (w_bytes f ++ rest) = 4 + zlen f + zlen rest) as Hl by (rewrite length_app, length_w_bytes; lia).
  rewrite Hl, Ht, from_be_w_u32 by done. destruct (Z.ltb_spec (4 + zlen f + zlen rest) 4); [lia|].
  destruct (Z.ltb_spec MAX_FRAME_BYTES (zlen f)); [lia|]. cbn [fail_if mbind result_bind].
  destruct (Z.ltb_spec (4 + zlen f + zlen rest) (4 + zlen f)); [lia|]. rewrite Hd, Nat2Z.id, take_app_length, <- drop_drop, Hd, drop_app_length. done.
Qed.
(** Less than a frame. *)
Lemma next_frame_part f rest buf more : zlen f <= MAX_FRAME_BYTES -> buf ++ more = w_bytes f ++ rest -> zlen buf < 4 + zlen f ->
  next_frame (mkFrameReader buf) = Ok (None, mkFrameReader buf).
Proof.
  intros Hf E Hb. pose proof (frame_bound f Hf) as Hu. assert (zlen f <= U32_MAX) as Hu' by apply Hu. destruct (w_bytes_app f rest Hu') as [Ht _].
  unfold next_frame. cbn [fr_buf]. cbv zeta. destruct (Z.ltb_spec (zlen buf) 4); [done|].
  assert (take 4 buf = w_u32 (zlen f)) as -> by (rewrite <- Ht, <- E, take_app_le by lia; done). rewrite from_be_w_u32 by done.
  destruct (Z.ltb_spec MAX_FRAME_BYTES (zlen f)); [lia|]. cbn [fail_if mbind result_bind]. destruct (Z.ltb_spec (zlen buf) (4 + zlen f)); [done|lia].
Qed.
(** Frames the reader's buffer always has room for, whatever follows them in
    the same read. *)
Definition MAX_PIPELINED_FRAME : Z := MAX_FRAME_BYTES - READ_CHUNK_BYTES + 1.
Definition read_ok (b : bytes) : Prop := 0 < zlen b <= READ_CHUNK_BYTES.
Lemma recv_one (f : bytes) : zlen f <= MAX_PIPELINED_FRAME -> forall (reads : list bytes) (buf rest : bytes), Forall read_ok reads -> buf ++ concat reads = w_bytes f ++ rest ->
  exists buf' reads', recv_loop (mkFrameReader buf) (map ReadData reads) = (mkFrameReader buf', map ReadData reads', Ok f) /\
    Forall read_ok reads' /\ buf' ++ concat reads' = rest.
Proof.
  intros Hf. assert (zlen f <= MAX_FRAME_BYTES) as Hm by (unfold MAX_PIPELINED_FRAME, READ_CHUNK_BYTES, MAX_FRAME_BYTES in *; lia).
  assert (forall (buf more rest : bytes) reads, 4 + zlen f <= zlen buf -> buf ++ more = w_bytes f ++ rest ->
    exists left_, buf = w_bytes f ++ left_ /\ left_ ++ more = rest /\ recv_loop (mkFrameReader buf) reads = (mkFrameReader left_, reads, Ok f)) as Hwhole.
  { intros buf more rest reads Hb E. exists (drop (length (w_bytes f)) buf).
    assert (take (length (w_bytes f)) buf = w_bytes f) as Et.
    { rewrite <- (take_app_le buf more) by (rewrite length_w_bytes; lia). rewrite E. apply take_app_length. }
    assert (buf = w_bytes f ++ drop (length (w_bytes f)) buf) as Eb by (rewrite <- Et at 1; by rewrite take_drop).
    split; [done|]. split; [rewrite Eb, <- (assoc_L (++)) in E; by apply app_inv_head in E|].
    rewrite Eb at 1. destruct reads; cbn [recv_loop]; by rewrite next_frame_whole. }
  induction reads as [|b reads IH]; intros buf rest Hr E; cbn [concat map] in *.
  - rewrite app_nil_r in E. destruct (Hwhole buf [] rest []) as (left_ & _ & E2 & E3).
    + rewrite E, length_app, length_w_bytes. lia.
    + by rewrite app_nil_r.
    + exists left_, []. rewrite E3. split; [done|]. split; [done|]. done.
  - apply Forall_cons in Hr as [Hb Hr]. destruct (Z.le_gt_cases (4 + zlen f) (zlen buf)) as [Hle|Hlt].
    + destruct (Hwhole buf (b ++ concat reads) rest (map ReadData (b :: reads)) Hle E) as (left_ & _ & E2 & E3).
      exists left_, (b :: reads). cbn [map] in E3. rewrite E3. split; [done|]. split; [by constructor|]. done.
    + cbn [recv_loop]. rewrite (next_frame_part f rest buf _ Hm E Hlt). destruct b as [|x b]; [unfold read_ok in Hb; cbn in Hb; lia|].
      unfold fr_push. cbn [fr_buf]. cbv zeta.
      destruct (Z.ltb_spec MAX_STREAM_BUFFER_BYTES (zlen buf + zlen (x :: b))) as [Hx|_];
        [unfold read_ok, MAX_STREAM_BUFFER_BYTES, MAX_PIPELINED_FRAME in *; lia|]. cbn [fail_if mbind result_bind].
      apply IH; [done|]. by rewrite <- (assoc_L (++)).
Qed.

(** The bound is not for convenience: a frame of the largest size that
    [encode_frame] accepts, followed by another, can close a healthy
    connection. *)
Lemma recv_skip (f rest : bytes) : zlen f <= MAX_FRAME_BYTES -> forall (reads : list bytes) (buf : bytes) tl (more : bytes), Forall read_ok reads -> (buf ++ concat reads) ++ more = w_bytes f ++ rest ->
  zlen (buf ++ concat reads) < 4 + zlen f ->
  recv_loop (mkFrameReader buf) (map ReadData reads ++ tl) = recv_loop (mkFrameReader (buf ++ concat reads)) tl.
Proof.
  intros Hf. induction reads as [|b reads IH]; intros buf tl more Hr E Hl; cbn [concat map app] in *; [by rewrite app_nil_r|].
  apply Forall_cons in Hr as [Hb Hr]. rewrite !length_app in Hl. cbn [recv_loop].
  rewrite (next_frame_part f rest buf ((b ++ concat reads) ++ more) Hf) by (first [by rewrite (assoc_L (++))|lia]).
  destruct b as [|x b]; [unfold read_ok in Hb; cbn in Hb; lia|]. unfold fr_push. cbn [fr_buf]. cbv zeta.
  destruct (Z.ltb_spec MAX_STREAM_BUFFER_BYTES (zlen buf + zlen (x :: b))) as [Hx|_]; [unfold MAX_STREAM_BUFFER_BYTES in *; lia|]. cbn [fail_if mbind result_bind].
  rewrite (IH (buf ++ x :: b) tl more Hr); [by rewrite <- (assoc_L (++))|by rewrite <- (assoc_L (++) buf)|rewrite !length_app; lia].
Qed.

(** A frame of the largest size that [encode_frame] accepts, with another
    behind it, and a stream cut so that the last read of the first brings the
    second: the reader refuses what the sender was allowed to send. *)
Lemma full_frame_refused (f g : bytes) : zlen f = MAX_FRAME_BYTES -> 0 < zlen g <= READ_CHUNK_BYTES - 5 ->
  exists encoded encoded' reads, encode_frame f = Ok encoded /\ encode_frame g = Ok encoded' /\
    Forall read_ok reads /\ concat reads = encoded ++ encoded' /\
    (recv_loop FrameReader_new (map ReadData reads)).2 = Err (FrameTooLarge MAX_STREAM_BUFFER_BYTES (MAX_STREAM_BUFFER_BYTES + 4 + zlen g)).
Proof.
  intros Hf Hg. set (n := Z.to_nat READ_CHUNK_BYTES). assert (Z.of_nat n = READ_CHUNK_BYTES) as En by (unfold n, READ_CHUNK_BYTES; lia).
  set (whole := w_bytes f ++ w_bytes g). set (cut := Z.to_nat (3 + MAX_FRAME_BYTES)). assert (Z.of_nat cut = 3 + MAX_FRAME_BYTES) as Ec by (unfold cut, MAX_FRAME_BYTES; lia).
  assert (zlen whole = 8 + MAX_FRAME_BYTES + zlen g) as Hw by (unfold whole; rewrite length_app, !length_w_bytes; lia).
  set (first := chunks_of (length (take cut whole)) n (take cut whole)). set (last := drop cut whole).
  assert (concat first = take cut whole) as Hc by (apply chunks_of_concat; unfold READ_CHUNK_BYTES in *; lia).
  assert (zlen last = 5 + zlen g) as Hlast by (unfold last; rewrite length_drop; lia).
  assert (zlen (concat first) = 3 + MAX_FRAME_BYTES) as Hfl by (rewrite Hc, length_take; lia).
  assert (Forall read_ok first) as Hr.
  { pose proof (chunks_of_Forall n (length (take cut whole)) (take cut whole)) as H. pose proof (chunks_of_nonempty n ltac:(unfold READ_CHUNK_BYTES in *; lia) (length (take cut whole)) (take cut whole)) as H'.
    apply Forall_forall. intros c Hin. rewrite Forall_forall in H, H'. specialize (H c Hin). specialize (H' c Hin). unfold read_ok. lia. }
  exists (w_bytes f), (w_bytes g), (first ++ [last]). unfold encode_frame, READ_CHUNK_BYTES, MAX_FRAME_BYTES in *.
  split; [destruct (Z.ltb_spec (16 * 1024 * 1024) (zlen f)); [lia|done]|]. split; [destruct (Z.ltb_spec (16 * 1024 * 1024) (zlen g)); [lia|done]|].
  split; [apply Forall_app; split; [done|constructor; [unfold read_ok, READ_CHUNK_BYTES; lia|done]]|].
  split; [rewrite concat_app, Hc; cbn [concat]; rewrite app_nil_r; apply take_drop|].
  rewrite map_app. unfold FrameReader_new. assert (([] ++ concat first) ++ last = w_bytes f ++ w_bytes g) as E by (cbn [app]; rewrite Hc; apply take_drop).
  rewrite (recv_skip f (w_bytes g)) with (more := last); [|unfold MAX_FRAME_BYTES; lia|done|done|cbn [app]; lia]. cbn [map app recv_loop].
  rewrite (next_frame_part f (w_bytes g) (concat first) last); [|unfold MAX_FRAME_BYTES; lia|exact E|lia].
  destruct last as [|x last]; [cbn [length] in Hlast; lia|]. unfold fr_push. cbn [fr_buf]. cbv zeta.
  destruct (Z.ltb_spec MAX_STREAM_BUFFER_BYTES (zlen (concat first) + zlen (x :: last))) as [_|H]; [|unfold MAX_STREAM_BUFFER_BYTES, MAX_FRAME_BYTES in H; lia].
  cbn [fail_if mbind result_bind snd]. do 2 f_equal. unfold MAX_STREAM_BUFFER_BYTES, MAX_FRAME_BYTES. lia.
Qed.

(** ** The handshake and the link *)
Definition nonce_at (counter : Z) : bytes := replicate 4 0 ++ w_u64 counter.
Lemma counter_nonce_eq counter : counter_nonce counter = Ok (nonce_at counter).
Proof. unfold counter_nonce, AeadNonce_from_bytes, nonce_at. by rewrite length_app, length_w_u64. Qed.
Lemma nonce_at_inj a b : is_u64 a -> is_u64 b -> nonce_at a = nonce_at b -> a = b.
Proof. unfold nonce_at. intros Ha Hb H%app_inv_head. rewrite <- (app_nil_r (w_u64 a)), <- (app_nil_r (w_u64 b)) in H. by apply delimited_u64 in H as [? _]. Qed.
Lemma parse_hello_msg pk : length pk = 32%nat -> parse_hello (hello_msg pk) = Ok pk.
Proof. intros H. unfold parse_hello, hello_msg, HELLO_LEN. rewrite length_app, H. done. Qed.

Section Link.
Context {X : X25519} {K : Hkdf} {C : ChaCha} {XL : X25519Laws} {KL : HkdfLaws} {CL : ChaChaLaws}.

(** What the two ends of a handshake derive from the seeds they draw. *)
Definition session (di dr : bytes) : result BearerError (AeadKey * AeadKey * bytes) :=
  derive_keys (hello_msg (x25519_public di)) (hello_msg (x25519_public dr)) (x25519_shared di (x25519_public dr)).
Definition contributory (di dr : bytes) : Prop := forallb (fun b => b =? 0) (x25519_shared di (x25519_public dr)) = false.

(** The expansion is within HKDF's bound, so the keys are always derived. *)
Lemma session_derives di dr : exists k1 k2 b, session di dr = Ok (k1, k2, b) /\ length b = 32%nat.
Proof.
  unfold session, derive_keys, derive_bytes, KDF_SUITE, AeadKey_from_suite_bytes, AEAD_SUITE. cbv zeta.
  edestruct (hkdf_expands (Some HS_SALT)) as (o & E & L); [|rewrite E]; [done|]. cbn [fail_if mbind result_bind ok_or map_err].
  change (MAX_HKDF_SHA256_OUTPUT_BYTES <? Z.of_nat OKM_LEN) with false. cbn [fail_if mbind result_bind ok_or map_err].
  rewrite !length_take, !length_drop, L. cbn [fail_if mbind result_bind map_err]. do 3 eexists. split; [done|].
  rewrite length_take, length_drop, L. done.
Qed.
Lemma agree_eq a b : contributory a b ->
  agree (agreement_from_seed a) (mkAgreementPublic KaX25519 (x25519_public b)) = Ok (mkShared KaX25519 (x25519_shared a (x25519_public b))).
Proof. unfold contributory, agree. intros H. cbn. by rewrite H. Qed.
Lemma contributory_sym a b : contributory a b -> contributory b a.
Proof. unfold contributory. by rewrite x25519_commutes. Qed.
Lemma public_of_bytes d : agreement_from_suite_bytes KA_SUITE (x25519_public d) = Ok (mkAgreementPublic KaX25519 (x25519_public d)).
Proof. unfold agreement_from_suite_bytes, KA_SUITE. by rewrite x25519_public_length. Qed.
(** Both ends come to the same keys, crossed, and the same binding. *)
Lemma handshake_pairs di dr k1 k2 b : contributory di dr -> session di dr = Ok (k1, k2, b) ->
  let hi := hello_msg (x25519_public di) in let hr := hello_msg (x25519_public dr) in
  responder_respond (Some dr) hi = Ok (Channel_new k2 k1 b, hr) /\
  exists i, initiator_start (Some di) = Ok (i, hi) /\ initiator_finish i hr = Ok (Channel_new k1 k2 b).
Proof.
  intros Hc Hs. cbv zeta. unfold session in Hs. split.
  - unfold responder_respond. rewrite parse_hello_msg by apply x25519_public_length. cbn [mbind result_bind agreement_generate ok_or map_err].
    cbv zeta. cbn [agreement_public_key agreement_from_seed as_suite as_bytes ap_bytes]. rewrite public_of_bytes. cbn [mbind result_bind map_err].
    rewrite (agree_eq dr di) by by apply contributory_sym. cbn [mbind result_bind map_err ss_bytes]. rewrite <- x25519_commutes, Hs. done.
  - eexists. split; [done|]. unfold initiator_finish. cbn [in_e_i_pub in_ephemeral ap_bytes agreement_public_key agreement_from_seed as_suite as_bytes].
    rewrite parse_hello_msg by apply x25519_public_length. cbn [mbind result_bind]. rewrite public_of_bytes. cbn [mbind result_bind map_err].
    rewrite (agree_eq di dr) by done. cbn [mbind result_bind map_err ss_bytes]. rewrite Hs. done.
Qed.

(** The ciphertexts of plaintexts sealed from a counter on. *)
Fixpoint sealed (k : AeadKey) (counter : Z) (ps : list bytes) : option (list bytes) :=
  match ps with
  | [] => Some []
  | p :: ps => c ← chacha_encrypt (ak_bytes k) (nonce_at counter) p ENCRYPTED_LINK_AAD; cs ← sealed k (counter + 1) ps; Some (c :: cs)
  end.
Definition framed (cs : list bytes) : bytes := concat (map w_bytes cs).
(** What one end does with its link, and what it sees. *)
Inductive link_act := LinkSend (p : bytes) | LinkRecv.
Definition sent (acts : list link_act) : list bytes := omap (fun a => match a with LinkSend p => Some p | LinkRecv => None end) acts.
#[global] Instance link_act_eq_dec : EqDecision link_act.
Proof. solve_decision. Defined.
Fixpoint recvs (acts : list link_act) : nat :=
  match acts with [] => 0 | LinkSend _ :: acts => recvs acts | LinkRecv :: acts => S (recvs acts) end.
Fixpoint run_link {B} `{Bearer B} (l : EncryptedLink B) (acts : list link_act) : EncryptedLink B * list (result BearerError unit) * list (result BearerError bytes) :=
  match acts with
  | [] => (l, [], [])
  | LinkSend p :: acts => let '(l, r) := link_send l p in let '(l, rs, xs) := run_link l acts in (l, r :: rs, xs)
  | LinkRecv :: acts => let '(l, x) := link_recv l in let '(l, rs, xs) := run_link l acts in (l, rs, x :: xs)
  end.
(** Small enough to be pipelined on a stream once sealed. *)
Definition pipelined (p : bytes) : Prop := zlen p <= MAX_PIPELINED_FRAME - AEAD_TAG_BYTES.

Lemma write_all_ok w ws rs b : Forall (eq None) ws ->
  exists ws', write_all (mkTcpStream w ws rs) b = (mkTcpStream (w ++ b) ws' rs, Ok tt) /\ Forall (eq None) ws'.
Proof. intros H. destruct ws as [|o ws]; [by exists []|]. apply Forall_cons in H as [<- H]. by exists ws. Qed.
Lemma link_send_ok w ws rs fr ks kr cs cr b p c : Forall (eq None) ws -> pipelined p -> 0 <= cs < U64_MAX ->
  chacha_encrypt (ak_bytes ks) (nonce_at cs) p ENCRYPTED_LINK_AAD = Some c ->
  exists ws', link_send (mkLink (mkTcpBearer (mkTcpStream w ws rs) fr) (mkChannel ks kr cs cr b)) p =
    (mkLink (mkTcpBearer (mkTcpStream (w ++ w_bytes c) ws' rs) fr) (mkChannel ks kr (cs + 1) cr b), Ok tt) /\ Forall (eq None) ws'.
Proof.
  intros Hw Hp Hc He. pose proof (chacha_length _ _ _ _ _ He) as Hl. unfold pipelined, MAX_PIPELINED_FRAME, READ_CHUNK_BYTES, AEAD_TAG_BYTES, MAX_FRAME_BYTES in Hp.
  unfold link_send, max_sendable_plaintext_bytes. cbn [el_bearer el_channel max_frame_bytes tcp_bearer fmap option_fmap option_map].
  unfold channel_seal. cbn [ch_send_ctr ch_send_key ch_recv_key ch_recv_ctr ch_binding].
  destruct (Z.ltb_spec MAX_CHANNEL_PLAINTEXT_BYTES (zlen p)) as [H|_]; [unfold MAX_CHANNEL_PLAINTEXT_BYTES, MAX_CHANNEL_CIPHERTEXT_BYTES, MAX_FRAME_BYTES, AEAD_TAG_BYTES in H; lia|].
  destruct (Z.eqb_spec cs U64_MAX); [lia|]. cbn [fail_if mbind result_bind]. rewrite counter_nonce_eq. cbn [mbind result_bind].
  unfold aead_encrypt. destruct (ak_suite ks). rewrite He. cbn [ok_or map_err mbind result_bind bearer_send tcp_bearer].
  unfold tcp_send, encode_frame. destruct (Z.ltb_spec MAX_FRAME_BYTES (zlen c)) as [H|_]; [unfold MAX_FRAME_BYTES in H; lia|].
  cbn [fail_if mbind result_bind tb_stream tb_reader]. destruct (write_all_ok w ws rs (w_bytes c) Hw) as (ws' & -> & Hw'). by exists ws'.
Qed.
Lemma link_recv_ok w ws reads buf ks kr cs cr b p c rest : pipelined p -> 0 <= cr < U64_MAX ->
  chacha_encrypt (ak_bytes kr) (nonce_at cr) p ENCRYPTED_LINK_AAD = Some c ->
  Forall read_ok reads -> buf ++ concat reads = w_bytes c ++ rest ->
  exists buf' reads', link_recv (mkLink (mkTcpBearer (mkTcpStream w ws (map ReadData reads)) (mkFrameReader buf)) (mkChannel ks kr cs cr b)) =
    (mkLink (mkTcpBearer (mkTcpStream w ws (map ReadData reads')) (mkFrameReader buf')) (mkChannel ks kr cs (cr + 1) b), Ok p) /\
    Forall read_ok reads' /\ buf' ++ concat reads' = rest.
Proof.
  intros Hp Hc He Hr E. pose proof (chacha_length _ _ _ _ _ He) as Hl. unfold pipelined, AEAD_TAG_BYTES in Hp.
  destruct (recv_one c ltac:(lia) reads buf rest Hr E) as (buf' & reads' & Hrecv & Hr' & E'). exists buf', reads'. split; [|done].
  unfold link_recv. cbn [el_bearer el_channel bearer_recv tcp_bearer]. unfold tcp_recv. cbn [tb_stream tb_reader st_reads st_written st_writes]. rewrite Hrecv.
  unfold channel_open. cbn [ch_send_ctr ch_send_key ch_recv_key ch_recv_ctr ch_binding].
  destruct (Z.ltb_spec MAX_CHANNEL_CIPHERTEXT_BYTES (zlen c)) as [H|_];
    [unfold MAX_PIPELINED_FRAME, READ_CHUNK_BYTES, MAX_CHANNEL_CIPHERTEXT_BYTES, MAX_FRAME_BYTES in *; lia|].
  destruct (Z.eqb_spec cr U64_MAX); [lia|]. cbn [fail_if mbind result_bind]. rewrite counter_nonce_eq. cbn [mbind result_bind].
  unfold aead_decrypt. destruct (ak_suite kr). rewrite (chacha_decrypts _ _ _ _ _ He). done.
Qed.
Lemma sealed_cons k ctr p ps cs : sealed k ctr (p :: ps) = Some cs ->
  exists c cs', chacha_encrypt (ak_bytes k) (nonce_at ctr) p ENCRYPTED_LINK_AAD = Some c /\ sealed k (ctr + 1) ps = Some cs' /\ cs = c :: cs'.
Proof. cbn [sealed]. intros H. apply bind_Some in H as (c & H1 & H). apply bind_Some in H as (cs' & H2 & [= <-]). by exists c, cs'. Qed.

(** A run of an established link: everything it sends goes out framed and
    sealed, and what it receives is what the peer sealed, in order, however
    the stream was cut and whatever follows. *)
Lemma run_link_ok ks kr b acts : forall w ws reads buf cs cr out incoming rest ps,
  Forall (eq None) ws -> Forall pipelined (sent acts) -> Forall pipelined ps -> length ps = recvs acts ->
  0 <= cs -> cs + Z.of_nat (length (sent acts)) <= U64_MAX -> 0 <= cr -> cr + Z.of_nat (length ps) <= U64_MAX ->
  sealed ks cs (sent acts) = Some out -> sealed kr cr ps = Some incoming ->
  Forall read_ok reads -> buf ++ concat reads = framed incoming ++ rest ->
  exists l', run_link (mkLink (mkTcpBearer (mkTcpStream w ws (map ReadData reads)) (mkFrameReader buf)) (mkChannel ks kr cs cr b)) acts =
      (l', map (fun _ => Ok tt) (sent acts), map Ok ps) /\
    st_written (tb_stream (el_bearer l')) = w ++ framed out /\ ch_binding (el_channel l') = b.
Proof.
  induction acts as [|[p|] acts IH]; intros w ws reads buf cs cr out incoming rest ps Hw Hs Hp Hn H1 H2 H3 H4 So Si Hr E.
  - destruct ps; [|done]. injection So as <-. eexists. split; [done|]. cbn. by rewrite app_nil_r.
  - cbn [recvs] in Hn. change (sent (LinkSend p :: acts)) with (p :: sent acts) in *. apply Forall_cons in Hs as [Hp1 Hs]. cbn [length] in H2.
    apply sealed_cons in So as (c & out' & Hc & So & ->). cbn [run_link].
    destruct (link_send_ok w ws (map ReadData reads) (mkFrameReader buf) ks kr cs cr b p c Hw Hp1 ltac:(lia) Hc) as (ws' & -> & Hw').
    destruct (IH (w ++ w_bytes c) ws' reads buf (cs + 1) cr out' incoming rest ps) as (l' & -> & W & Bd); try done; try lia.
    exists l'. split; [done|]. split; [|done]. rewrite W. unfold framed. cbn [map concat]. by rewrite <- (assoc_L (++)).
  - change (sent (LinkRecv :: acts)) with (sent acts) in *. cbn [recvs] in Hn. destruct ps as [|p ps]; [done|]. apply Forall_cons in Hp as [Hp1 Hp]. cbn [length] in H4.
    apply sealed_cons in Si as (c & incoming' & Hc & Si & ->). unfold framed in E. cbn [map concat] in E. rewrite <- (assoc_L (++)) in E. cbn [run_link].
    destruct (link_recv_ok w ws reads buf ks kr cs cr b p c _ Hp1 ltac:(lia) Hc Hr E) as (buf' & reads' & -> & Hr' & E').
    destruct (IH w ws reads' buf' cs (cr + 1) out incoming' rest ps) as (l' & -> & W & Bd); try done; try lia; [injection Hn; done|].
    by exists l'.
Qed.
Lemma sealed_take k n : forall ctr ps cs, sealed k ctr ps = Some cs -> sealed k ctr (take n ps) = Some (take n cs).
Proof.
  induction n as [|n IH]; intros ctr [|p ps] cs H; try done; [by injection H as <-|].
  apply sealed_cons in H as (c & cs' & Hc & H & ->). cbn [take sealed]. by rewrite Hc, (IH _ _ _ H).
Qed.

(** C20: two ends that dial and accept over TCP, whatever seeds they draw short
    of a degenerate exchange (an all-zero shared secret), come to a link with
    the same binding.  Each then sends and receives in any order it likes.
    Bounds: every plaintext is at most [MAX_FRAME_BYTES] less 16 KiB and 15
    bytes ([pipelined], 16,760,817 bytes), and the two ends together send no
    more than [2^64 - 1] of them; the cipher encrypts them and no write
    fails.  Then every send succeeds, and every receive for which the peer
    sent a plaintext and its frame arrived gives that plaintext, whole and in
    order, however the streams were cut into reads of at most 16 KiB and
    whatever else arrives behind.  Above the size bound the claim is false:
    [full_frame_refused] has two frames the sender accepts and the receiver
    refuses. *)
Theorem link_delivers di dr k1 k2 b acts_i acts_r cs_i cs_r reads_i reads_r rest_i rest_r :
  let hi := hello_msg (x25519_public di) in let hr := hello_msg (x25519_public dr) in
  contributory di dr -> session di dr = Ok (k1, k2, b) ->
  Forall pipelined (sent acts_i ++ sent acts_r) -> zlen (sent acts_i ++ sent acts_r) <= U64_MAX ->
  (recvs acts_i <= length (sent acts_r))%nat -> (recvs acts_r <= length (sent acts_i))%nat ->
  sealed k1 0 (sent acts_i) = Some cs_i -> sealed k2 0 (sent acts_r) = Some cs_r ->
  Forall read_ok (reads_i ++ reads_r) ->
  concat reads_i = (w_bytes hr ++ framed (take (recvs acts_i) cs_r)) ++ rest_i ->
  concat reads_r = (w_bytes hi ++ framed (take (recvs acts_r) cs_i)) ++ rest_r ->
  exists li lr li' lr',
    link_dial (tcp_from_stream (mkTcpStream [] [] (map ReadData reads_i))) (Some di) = Ok li /\
    link_accept (tcp_from_stream (mkTcpStream [] [] (map ReadData reads_r))) (Some dr) = Ok lr /\
    run_link li acts_i = (li', map (fun _ => Ok tt) (sent acts_i), map Ok (take (recvs acts_i) (sent acts_r))) /\
    run_link lr acts_r = (lr', map (fun _ => Ok tt) (sent acts_r), map Ok (take (recvs acts_r) (sent acts_i))) /\
    st_written (tb_stream (el_bearer li')) = w_bytes hi ++ framed cs_i /\
    st_written (tb_stream (el_bearer lr')) = w_bytes hr ++ framed cs_r /\
    channel_binding (el_channel li) = b /\ channel_binding (el_channel lr) = b.
Proof.
  intros hi hr Hc Hs [Pi Pr]%Forall_app Hn Ri Rr Si Sr [Fi Fr]%Forall_app Ei Er. rewrite length_app in Hn.
  destruct (handshake_pairs di dr k1 k2 b Hc Hs) as (Hresp & i & Hstart & Hfin). fold hi hr in Hresp, Hstart, Hfin.
  assert (forall d, zlen (hello_msg (x25519_public d)) = 36) as Hh by (intros d; unfold hello_msg; rewrite length_app, x25519_public_length; done).
  assert (forall d, zlen (hello_msg (x25519_public d)) <= MAX_PIPELINED_FRAME) as Hh' by (intros d; rewrite Hh; done).
  assert (forall d w, tcp_send (mkTcpBearer (mkTcpStream [] [] w) d) hi = (mkTcpBearer (mkTcpStream (w_bytes hi) [] w) d, Ok tt)) as Hsi
    by (intros; unfold tcp_send, encode_frame, hi; by rewrite Hh).
  assert (forall d w, tcp_send (mkTcpBearer (mkTcpStream [] [] w) d) hr = (mkTcpBearer (mkTcpStream (w_bytes hr) [] w) d, Ok tt)) as Hsr
    by (intros; unfold tcp_send, encode_frame, hr; by rewrite Hh).
  rewrite <- (assoc_L (++)) in Ei, Er.
  destruct (recv_one hr (Hh' dr) reads_i [] _ Fi Ei) as (bi & ri & Hri & Fi' & Ei').
  destruct (recv_one hi (Hh' di) reads_r [] _ Fr Er) as (br & rr & Hrr & Fr' & Er').
  destruct (run_link_ok k1 k2 b acts_i (w_bytes hi) [] ri bi 0 0 cs_i (take (recvs acts_i) cs_r) rest_i (take (recvs acts_i) (sent acts_r)))
    as (li' & Hli & Wi & _); try done; [by apply Forall_take|rewrite length_take; lia|lia|rewrite length_take; lia|by apply sealed_take|].
  destruct (run_link_ok k2 k1 b acts_r (w_bytes hr) [] rr br 0 0 cs_r (take (recvs acts_r) cs_i) rest_r (take (recvs acts_r) (sent acts_i)))
    as (lr' & Hlr & Wr & _); try done; [by apply Forall_take|rewrite length_take; lia|lia|rewrite length_take; lia|by apply sealed_take|].
  do 2 eexists. exists li', lr'. split; [|split; [|split; [exact Hli|split; [exact Hlr|split; [exact Wi|split; [exact Wr|done]]]]]].
  - unfold link_dial. rewrite Hstart. cbn [mbind result_bind bearer_send bearer_recv tcp_bearer]. unfold tcp_from_stream. rewrite Hsi. cbn [mbind result_bind].
    unfold tcp_recv. cbn [tb_stream tb_reader st_reads st_written st_writes]. unfold FrameReader_new. rewrite Hri. cbn [mbind result_bind]. by rewrite Hfin.
  - unfold link_accept. cbn [bearer_send bearer_recv tcp_bearer]. unfold tcp_recv, tcp_from_stream. cbn [tb_stream tb_reader st_reads st_written st_writes]. unfold FrameReader_new. rewrite Hrr.
    cbn [mbind result_bind]. rewrite Hresp. cbn [mbind result_bind]. by rewrite Hsr.
Qed.

(** A nonce is never used twice: whatever is sealed on a channel, and however
    many seals fail, the ciphertexts were made under nonces all different. *)
Fixpoint seal_run (c : Channel) (ps : list (bytes * bytes)) : list bytes :=
  match ps with
  | [] => []
  | (p, aad) :: ps => match channel_seal c p aad with Ok (ct, c) => ct :: seal_run c ps | Err _ => seal_run c ps end
  end.
Theorem nonces_never_repeat c ps : 0 <= ch_send_ctr c <= U64_MAX ->
  exists nonces, NoDup nonces /\ Forall2 (fun n ct => exists p aad, chacha_encrypt (ak_bytes (ch_send_key c)) n p aad = Some ct) nonces (seal_run c ps).
Proof.
  intros Hc. cut (exists ctrs, NoDup ctrs /\ Forall (fun i => ch_send_ctr c <= i < U64_MAX) ctrs /\
    Forall2 (fun i ct => exists p aad, chacha_encrypt (ak_bytes (ch_send_key c)) (nonce_at i) p aad = Some ct) ctrs (seal_run c ps)).
  { intros (ctrs & Hnd & Hb & H2). exists (map nonce_at ctrs). split; [|by apply Forall2_fmap_l].
    clear H2. induction ctrs as [|i ctrs IH]; cbn [map]; [constructor|]. apply NoDup_cons in Hnd as [Hi Hnd]. apply Forall_cons in Hb as [Hb1 Hb].
    constructor; [|by apply IH]. intros (j & Hj & Hin)%list_elem_of_fmap. rewrite Forall_forall in Hb. specialize (Hb j Hin).
    apply nonce_at_inj in Hj; [by subst|unfold is_u64, U64_MAX in *; lia..]. }
  revert c Hc. induction ps as [|[p aad] ps IH]; intros c Hc; cbn [seal_run]; [by exists []; repeat constructor|].
  destruct (channel_seal c p aad) as [[ct c']|e] eqn:E; [|by apply IH]. unfold channel_seal in E.
  apply bind_ok in E as (u & _ & E). apply bind_ok in E as (u' & H2%fail_if_ok & E). apply Z.eqb_neq in H2. rewrite counter_nonce_eq in E. cbn [mbind result_bind] in E.
  apply bind_ok in E as (ct' & H3 & E). injection E as -> <-. destruct (IH (mkChannel (ch_send_key c) (ch_recv_key c) (ch_send_ctr c + 1) (ch_recv_ctr c) (ch_binding c))) as (ctrs & Hnd & Hb & Hf);
    cbn [ch_send_ctr ch_send_key] in *; [lia|]. exists (ch_send_ctr c :: ctrs). split; [|split].
  - constructor; [|done]. intros Hin. rewrite Forall_forall in Hb. specialize (Hb _ Hin). lia.
  - constructor; [lia|]. eapply Forall_impl; [exact Hb|]. intros i Hi. cbv beta in Hi. lia.
  - constructor; [|done]. exists p, aad. unfold aead_encrypt in H3. destruct (ak_suite (ch_send_key c)). destruct (chacha_encrypt _ _ _ _) as [x|]; [|done]. by injection H3 as <-.
Qed.
End Link.

(** ** Executable primitives, and two ends that talk *)
#[local] Existing Instance ToyCipher.chacha.
#[local] Existing Instance ToyCipher.cipher_laws.
Module ToyExchange.
Definition value (b : bytes) : Z := foldr Z.add 0 b mod 256.
Definition x25519 : X25519 := {|
  x25519_public s := replicate 32 (value s);
  x25519_shared s p := replicate 32 ((value s + hd 0 p) mod 256);
|}.
Lemma x25519_laws : @X25519Laws x25519.
Proof. split; [done|]. intros a b. cbn. by rewrite Z.add_comm. Qed.
Definition hkdf : Hkdf := {|
  hkdf_sha256 salt ikm info n := if Z.of_nat n <=? MAX_HKDF_SHA256_OUTPUT_BYTES then Some (map (fun i => (value (ikm ++ info) + Z.of_nat i) mod 256) (seq 0 n)) else None;
|}.
Lemma hkdf_laws : @HkdfLaws hkdf.
Proof. split. intros salt ikm info n Hn. cbn [hkdf_sha256 hkdf]. apply Z.leb_le in Hn as ->. eexists. split; [done|]. by rewrite length_map, length_seq. Qed.
End ToyExchange.
#[local] Existing Instance ToyExchange.x25519.
#[local] Existing Instance ToyExchange.hkdf.
#[local] Existing Instance ToyExchange.x25519_laws.
#[local] Existing Instance ToyExchange.hkdf_laws.

Module Talk.
Definition di : bytes := replicate 32 3.
Definition dr : bytes := replicate 32 1.
Definition keys : AeadKey * AeadKey * bytes :=
  Eval vm_compute in match session di dr with Ok k => k | Err _ => (mkAeadKey ChaCha20Poly1305 [], mkAeadKey ChaCha20Poly1305 [], []) end.
Definition acts_i : list link_act := [LinkSend (lit "hello"); LinkRecv; LinkSend []; LinkSend (lit "bye")].
Definition acts_r : list link_act := [LinkRecv; LinkSend (lit "welcome"); LinkRecv].
Definition cs_i : list bytes := Eval vm_compute in default [] (sealed keys.1.1 0 (sent acts_i)).
Definition cs_r : list bytes := Eval vm_compute in default [] (sealed keys.1.2 0 (sent acts_r)).
(** The initiator reads seven bytes at a time, the responder hears the third
    frame's first bytes as well. *)
Definition reads_i : list bytes := Eval vm_compute in let b := w_bytes (hello_msg (x25519_public dr)) ++ framed cs_r in chunks_of (length b) 7 b.
Definition reads_r : list bytes := Eval vm_compute in let b := w_bytes (hello_msg (x25519_public di)) ++ framed (take 2 cs_i) ++ [0; 0] in chunks_of (length b) 64 b.
End Talk.
Lemma link_delivers_witness :
  exists li lr li' lr',
    link_dial (tcp_from_stream (mkTcpStream [] [] (map ReadData Talk.reads_i))) (Some Talk.di) = Ok li /\
    link_accept (tcp_from_stream (mkTcpStream [] [] (map ReadData Talk.reads_r))) (Some Talk.dr) = Ok lr /\
    run_link li Talk.acts_i = (li', [Ok tt; Ok tt; Ok tt], [Ok (lit "welcome")]) /\
    run_link lr Talk.acts_r = (lr', [Ok tt], [Ok (lit "hello"); Ok []]).
Proof.
  destruct (link_delivers Talk.di Talk.dr Talk.keys.1.1 Talk.keys.1.2 Talk.keys.2 Talk.acts_i Talk.acts_r Talk.cs_i Talk.cs_r Talk.reads_i Talk.reads_r [] [0; 0])
    as (li & lr & li' & lr' & H1 & H2 & H3 & H4 & _).
  - by vm_compute.
  - by vm_compute.
  - repeat constructor; by vm_compute.
  - by vm_compute.
  - by apply Nat.leb_le.
  - by apply Nat.leb_le.
  - by vm_compute.
  - by vm_compute.
  - repeat constructor; by vm_compute.
  - by vm_compute.
  - by vm_compute.
  - exists li, lr, li', lr'. exact (conj H1 (conj H2 (conj H3 H4))).
Defined.
